(* ===== verification/_CoqProject ===== *)
-Q . S2P
Prelude.v
Align.v
IdAlloc.v
RwWord.v
WaitQueue.v
Mutex.v
RwMutex.v
Buddy.v
FramePools.v
FrameAlloc.v
RangeLock.v
BootMemory.v
PageTableNode.v
X86Pte.v
PageTableCursor.v
PageTableMap.v
PageTableLock.v
PageTable.v
Tlb.v
VmSpace.v
IntervalSet.v
VmMapping.v
Vmar.v
VmarMaps.v
VmarOps.v
VmarBuild.v
VmarFork.v
VmarCalls.v
VmarRemap.v
PageFault.v
PageCache.v
Cow.v
CowFault.v
CowSteps.v
Signals.v
Semaphore.v
Credentials.v
SchedPolicy.v
SchedClass.v
SchedRun.v
SchedCpu.v
BootPt.v
FrameMeta.v
FrameRefs.v
LinkedList.v
