(* ===== verification/Prelude.v ===== *)
(** * A verification development for the OmegaOS kernel

    OmegaOS is a Rust kernel in two layers: a small privileged layer ([osxtd/], with
    the frame allocator in [osxdk/deps/frame-allocator/]) that owns memory, page
    tables and synchronisation, and the kernel proper ([kernel/]) with processes,
    files and system calls. This development models the memory of the system from
    boot to system calls, the locks, the schedulers, and parts of the kernel proper
    (signals, semaphores, credentials, record locks), and proves them correct. Paths
    below are relative to [src/].

    ** Conventions

    - A function that can panic returns an [outcome]; a [Result] is a [result] inside
      it. Overflow is a panic, as in a build with overflow checks. Debug assertions
      are not modelled.
    - A [w]-bit integer is a [Z] with explicit checks or wrap-around. Constants have the
      names and values of the source.
    - Code under a lock is one function on the locked state. Code with shared atomic
      accesses is a machine whose step is one access, so that its runs have every
      interleaving.
    - Loops that are not structural take fuel and panic without it; every theorem
      that such a loop returns shows that its fuel is enough.

    ** Parts, from the bottom up

    Basics.
    - [Prelude]: outcomes, integers and shared lemmas.
    - [Align] ([osxtd/libs/align_ext]): rounding to powers of two.
    - [IdAlloc] ([osxtd/libs/id-alloc]): the bitmap allocator of ids.

    Locks ([osxtd/src/sync/]).
    - [RwWord]: the word of the read-write locks ([rwlock.rs], [rwmutex.rs]), with
      mutual exclusion and the exact meaning of the word.
    - [WaitQueue], [Mutex]: wait queues ([wait.rs]) and the sleeping mutex
      ([mutex.rs]), with exclusion and the absence of lost wake-ups.
    - [RwMutex]: the sleeping read-write mutex, with exclusion between its threads,
      and a schedule that loses a wake-up.

    Physical memory.
    - [BootMemory] ([osxtd/src/boot/memory_region.rs], [osxtd/src/mm/frame/allocator.rs]):
      the memory map, the early allocator and the hand-over, which gives out no
      address twice.
    - [Buddy], [FramePools], [FrameAlloc] ([osxdk/deps/frame-allocator/src/]): the buddy
      system, the pools and caches of the CPUs, and the allocator. An address is
      free once or held once; an allocation fails only when it has to.
    - [BootPt] ([osxtd/src/mm/page_table/boot_pt.rs]): pages that are mapped in the boot
      page table, with tables from the early allocator.
    - [FrameMeta] ([osxtd/src/mm/frame/]: [meta.rs], [mod.rs], [unique.rs], [segment.rs]):
      the metadata slots of frames, the operations on frames and segments when
      nothing interferes, and the set-up of the slots at boot, which agrees with
      [BootMemory] and maps the slots by [BootPt].
    - [FrameRefs] (the same files): these operations as the steps of any threads. The
      counts protect the metadata, and addresses go back to the allocator once. The
      number of threads is at most 2^62, so that the counts of threads that stop
      cannot reach the special values.
    - [LinkedList] ([osxtd/src/mm/frame/linked_list.rs]): lists threaded through the
      metadata refine lists, as long as no 2^63 ids are used. The loop that drops a
      list has one more unit of fuel than its size.

    Page tables ([osxtd/src/mm/page_table/]).
    - [PageTableNode], [X86Pte]: nodes and entries, generic in an interface for the
      entry format which x86-64 implements.
    - [PageTableCursor], [PageTableMap], [PageTableLock], [PageTable]: the cursor and
      what its operations do to the page walk, the locking of a range, and the
      creation of page tables. The fuel of the cursor's loops is bounded by the
      levels and the slots of a table.
    - [Tlb] ([osxtd/src/mm/tlb.rs]): the shootdown of TLB entries on other CPUs; no
      frame is freed while a CPU can reach it, and a flusher that has synchronised
      has had its flushes done on all its CPUs.
    - [VmSpace] ([osxtd/src/mm/vm_space.rs]): user address spaces over the cursor and
      the flusher.

    Memory of processes ([kernel/src/vm/]).
    - [IntervalSet], [VmMapping] ([vmar/interval_set.rs], [vmar/vm_mapping.rs],
      [perms.rs]): sets of disjoint ranges and the mappings in them.
    - [Vmar] ([vmar/mod.rs]): the operations on the mappings of a process, in a monad of
      state, errors and panics. The page table is the map from pages to entries that
      the theorems of [PageTableMap] and [VmSpace] justify.
    - [VmarMaps], [VmarOps], [VmarBuild], [VmarFork]: the invariant of an address space
      and what each operation does, on every branch, to what the mappings say of
      each address and to each page.
    - [VmarCalls] ([kernel/src/syscall/], [kernel/src/process/process_vm/heap.rs]):
      mmap, munmap, mprotect, mremap, madvise and brk. Calls keep the invariant, do
      exactly what they promise, and some of them panic the kernel.
    - [VmarRemap]: mremap and brk, when they return, move pages and invent none.
    - [PageFault] ([vmar/vm_mapping.rs], [vmo/mod.rs], [kernel/src/fs/utils/page_cache.rs]):
      the page fault handler over the address spaces of all processes, VMOs with
      their page caches and readahead, and frames. Two attempts are enough for one
      page, and seventeen for the sixteen pages around it, because each retry follows
      the read of one page.
    - [PageCache]: the invariant of a page cache under which committing a page does not
      panic, and the flaws of its readahead.
    - [Cow], [CowFault], [CowSteps]: the invariant of copy-on-write; that page faults,
      system calls (mmap, munmap, mremap, brk, and the mprotect calls that do not
      change the permissions of a private mapping that is and stays writable), forks,
      exits and the work of the kernel on VMOs keep it; that processes are isolated
      and a fork is a snapshot; and a call of mprotect that breaks it, which the
      other theorems exclude.

    Processes and files.
    - [Signals] ([kernel/src/process/signal/], the system calls of signals): sets,
      actions, the queues of pending signals, the mask of a thread in handlers and
      calls, and the frame of a handler on the user stack. A run of events never blocks SIGKILL and SIGSTOP; the signal
      delivered is the first that may be; and some calls lose signals. The loops
      that take signals have one more unit of fuel than there are pending signals.
    - [Semaphore] ([kernel/src/ipc/], [kernel/src/syscall/sem*.rs]): System V semaphores
      over [IdAlloc], with the calls that sleep on them. No operation that waits for
      zero, and no single operation, is left asleep when it can go on; several
      operations in one call can be.
    - [Credentials] ([kernel/src/process/credentials/], the system calls on identities,
      [kernel/src/process/execve.rs], [kernel/src/fs/utils/inode.rs],
      [kernel/src/process/kill.rs]): identities and capabilities, and the checks that use
      them. Ordinary threads gain nothing, and a drop of root by setuid is for good;
      other calls are flawed.
    - [RangeLock] ([kernel/src/fs/utils/range_lock/]): the record locks of a file.

    Scheduling.
    - [SchedPolicy] ([kernel/src/sched/], [kernel/src/syscall/sched_*.rs]): policies and
      attributes of threads, and the system calls on them. [SchedPolicy.Weight] is the
      weight of a fair thread, one atomic access at a time; an update of it can be
      lost.
    - [SchedClass], [SchedRun] ([kernel/src/sched/sched_class/]): the classes of the
      scheduler and the run queue of a CPU. In bounded runs nothing panics, no task is
      lost or doubled and the sums the classes keep are exact; the task picked is the
      first in the order of the classes; the array of priorities refines one ordered
      queue. The bounds on time and number of threads are those under which 64-bit
      sums cannot overflow. The loop of the greatest common divisor has fuel 100
      because each round halves a product below 2^94.
    - [SchedCpu] ([osxtd/src/task/], [osxtd/src/sync/wait.rs]): the run queues of all CPUs
      through an interface that both schedulers implement, with the calls that wake,
      park, preempt and end tasks as steps. A task is in one run queue at most, no
      wake-up of a parked task is lost, and a late one can revive a task that has
      ended. [SchedCpu.Switch] is the hand-over of a task between CPUs.

    ** Assumptions

    Memory accesses are sequentially consistent where the code uses weaker orders on
    one atomic word. The wait queues of [WaitQueue] rely on parking and unparking as
    [SchedCpu] shows them to work. The smallest item a heap returns is any of them. The
    backend of a page cache, with the answers of its device, the open file of a
    descriptor, new VMOs and further handles to a frame are arguments.

    ** Not modelled

    - In the memory of processes: counters of resident pages and of writable mappings
      of a memfd; reading, writing and resizing VMOs beyond the effect on the pages
      they hold; accesses to the memory of other processes; exec, which is not a step
      of the runs of [CowSteps].
    - In the page table: several cursors at once and the retries of the lock-free
      traversal; RCU.
    - The kernel heap, DMA and user memory access: raw pointers and assembly. Models
      other than those of frame metadata name a frame by its address.
    - Interrupts, timers, architecture support other than x86-64 entries, boot
      protocols, drivers and buses: hardware state.
    - In signals: what the frame of a handler holds besides the registers that signals
      change (its place, its size and the checks of its writes are modelled), the
      sigaltstack call, signalfd, waking the threads, and the other threads of the
      process.
    - In scheduling: the flags that ask a CPU to reschedule, and the balance of load
      beyond the choice of a CPU. A CPU may reschedule at any point in the model.
    - Processes, file systems other than record locks, the network stack
      and the secure disk: not translated; the last two rest on third-party protocol
      and cipher code. *)

From stdpp Require Export prelude list gmap sets fin_maps relations.
From Stdlib Require Export ZArith Lia.

(** ** Outcomes: Rust code either produces a value or panics

    [Done a] is a normal return; [Panic] stands for every abnormal stop of the
    Rust code: a failed [assert!], an [unwrap] of [None], an index out of
    bounds, an arithmetic overflow under overflow checks.  A Rust [Option] or
    [Result] is part of the value, never confused with [Panic]. *)
Inductive outcome (A : Type) : Type :=
| Done (a : A)
| Panic.
Arguments Done {_} _.
Arguments Panic {_}.

#[global] Instance outcome_ret : MRet outcome := λ A a, Done a.
#[global] Instance outcome_bind : MBind outcome :=
  λ A B f m, match m with Done a => f a | Panic => Panic end.
#[global] Instance outcome_fmap : FMap outcome :=
  λ A B f m, match m with Done a => Done (f a) | Panic => Panic end.
#[global] Instance outcome_eq_dec {A} `{EqDecision A} : EqDecision (outcome A).
Proof. solve_decision. Defined.

(** [assert!(b)] *)
Definition assert_that (b : bool) : outcome unit :=
  if b then Done tt else Panic.

(** [opt.unwrap()] and [opt.expect(..)] *)
Definition unwrap {A} (o : option A) : outcome A :=
  match o with Some a => Done a | None => Panic end.

(** The outcome is a normal return. *)
Definition is_done {A} (m : outcome A) : Prop := ∃ a, m = Done a.

(** A Rust [Result<A, E>]. *)
Inductive result (A E : Type) : Type :=
| ROk (a : A)
| RErr (e : E).
Arguments ROk {_ _} _.
Arguments RErr {_ _} _.

(** ** Machine integers

    A [w]-bit unsigned integer is a [Z] between [0] and [2 ^ w]; the operations
    write out what happens at the boundary. *)
Local Open Scope Z_scope.

Definition in_width (w z : Z) : Prop := 0 ≤ z < 2 ^ w.

(** [a.checked_add(b)], [a.checked_sub(b)], [a.checked_mul(b)] *)
Definition checked_add (w a b : Z) : option Z :=
  if a + b <? 2 ^ w then Some (a + b) else None.
Definition checked_sub (a b : Z) : option Z :=
  if b <=? a then Some (a - b) else None.
Definition checked_mul (w a b : Z) : option Z :=
  if a * b <? 2 ^ w then Some (a * b) else None.

(** [a.wrapping_add(b)], [a.wrapping_sub(b)] *)
Definition wrapping_add (w a b : Z) : Z := (a + b) mod 2 ^ w.
Definition wrapping_sub (w a b : Z) : Z := (a - b) mod 2 ^ w.

(** [!a] at width [w] *)
Definition bit_not (w a : Z) : Z := Z.ldiff (Z.ones w) a.

(** [a.is_power_of_two()] *)
Definition is_power_of_two (a : Z) : bool :=
  (0 <? a) && (Z.land a (a - 1) =? 0).

(** [usize] is 64 bits wide on the supported targets. *)
Definition USIZE_BITS : Z := 64.

(** ** Automation *)

Create HintDb omega.

(** Case analysis on the boolean comparisons of the goal and the context. *)
Ltac bool_cases :=
  repeat match goal with
  | H : context [ (?a =? ?b)%Z ] |- _ => destruct (Z.eqb_spec a b)
  | H : context [ (?a <? ?b)%Z ] |- _ => destruct (Z.ltb_spec a b)
  | H : context [ (?a <=? ?b)%Z ] |- _ => destruct (Z.leb_spec a b)
  | |- context [ (?a =? ?b)%Z ] => destruct (Z.eqb_spec a b)
  | |- context [ (?a <? ?b)%Z ] => destruct (Z.ltb_spec a b)
  | |- context [ (?a <=? ?b)%Z ] => destruct (Z.leb_spec a b)
  end.

(** Break the hypotheses that are conjunctions, existentials or equations
    between constructors. *)
Ltac break :=
  repeat match goal with
  | H : _ ∧ _ |- _ => destruct H
  | H : ∃ _, _ |- _ => destruct H
  | H : Done _ = Done _ |- _ => injection H as H; try subst
  | H : Some _ = Some _ |- _ => injection H as H; try subst
  | H : Panic = Done _ |- _ => discriminate H
  | H : Done _ = Panic |- _ => discriminate H
  | H : None = Some _ |- _ => discriminate H
  | H : Some _ = None |- _ => discriminate H
  end.

(** ** Lemmas on outcomes *)

Lemma bind_done {A B} (m : outcome A) (f : A → outcome B) b :
  (m ≫= f) = Done b ↔ ∃ a, m = Done a ∧ f a = Done b.
Proof. destruct m; simpl; naive_solver. Qed.

Lemma bind_panic {A B} (m : outcome A) (f : A → outcome B) :
  (m ≫= f) = Panic ↔ m = Panic ∨ ∃ a, m = Done a ∧ f a = Panic.
Proof. destruct m; simpl; naive_solver. Qed.

Lemma assert_done b u : assert_that b = Done u ↔ b = true.
Proof. destruct u, b; simpl; naive_solver. Qed.

Lemma unwrap_done {A} (o : option A) a : unwrap o = Done a ↔ o = Some a.
Proof. destruct o; simpl; naive_solver. Qed.

(** ** Invariants of step relations *)

Lemma rtc_preserves {A} (R : relation A) (P : A → Prop) x y :
  P x → (∀ a b, P a → R a b → P b) → rtc R x y → P y.
Proof. intros Hx Hstep Hr. induction Hr; eauto. Qed.

(** ** Lemmas on machine integers *)

Lemma pow2_pos k : 0 ≤ k → 0 < 2 ^ k.
Proof. intros; apply Z.pow_pos_nonneg; lia. Qed.

Lemma pow2_le j k : 0 ≤ j ≤ k → 2 ^ j ≤ 2 ^ k.
Proof. intros; apply Z.pow_le_mono_r; lia. Qed.

#[export] Hint Resolve pow2_pos pow2_le : omega.

Lemma is_power_of_two_spec a :
  is_power_of_two a = true ↔ ∃ k, 0 ≤ k ∧ a = 2 ^ k.
Proof.
  unfold is_power_of_two. rewrite andb_true_iff, Z.ltb_lt, Z.eqb_eq. split.
  - intros [Hpos Hland]. exists (Z.log2 a). split; [apply Z.log2_nonneg |].
    pose proof (Z.log2_spec a Hpos) as [Hlo Hhi].
    pose proof (Z.log2_nonneg a) as Hk.
    destruct (Z.eq_dec a (2 ^ Z.log2 a)) as [|Hne]; [done |].
    assert (Hbit : Z.testbit (Z.land a (a - 1)) (Z.log2 a) = true).
    { rewrite Z.land_spec, Z.bit_log2 by lia. simpl.
      replace (Z.log2 a) with (Z.log2 (a - 1)).
      - apply Z.bit_log2. pose proof (pow2_pos (Z.log2 a)). lia.
      - apply Z.log2_unique; [done | lia]. }
    rewrite Hland, Z.bits_0 in Hbit. done.
  - intros (k & Hk & ->). split; [by apply pow2_pos |].
    rewrite Z.sub_1_r, <- Z.ones_equiv, Z.land_ones by done.
    apply Z.mod_same. pose proof (pow2_pos k). lia.
Qed.

(** Masking with [!(2^k - 1)] rounds down to a multiple of [2^k]. *)
Lemma land_not_low w k x :
  0 ≤ k ≤ w → in_width w x →
  Z.land x (bit_not w (2 ^ k - 1)) = x - x mod 2 ^ k.
Proof.
  intros Hk [Hx0 Hx]. unfold bit_not.
  rewrite Z.sub_1_r, <- Z.ones_equiv.
  assert (Heq : Z.land x (Z.ldiff (Z.ones w) (Z.ones k)) = Z.ldiff x (Z.ones k)).
  { apply Z.bits_inj'. intros i Hi.
    rewrite Z.land_spec, !Z.ldiff_spec.
    destruct (Z.testbit x i) eqn:Hb; [simpl | done].
    assert (i < w).
    { destruct (Z.lt_ge_cases i w) as [|Hge]; [done |].
      rewrite Z.bits_above_log2 in Hb; [done | done |].
      destruct (Z.eq_dec x 0) as [-> | ?]; [rewrite Z.bits_0 in Hb; done |].
      apply Z.log2_lt_pow2; [lia |].
      pose proof (pow2_le w i). lia. }
    by rewrite Z.ones_spec_low by lia. }
  rewrite Heq, Z.ldiff_ones_r by lia.
  rewrite Z.shiftl_mul_pow2, Z.shiftr_div_pow2 by lia.
  pose proof (pow2_pos k). pose proof (Z.div_mod x (2 ^ k)). lia.
Qed.

(** ** Lemmas on lists of lists *)

(** A list of lists, split at index [i], up to the order of the elements. *)
Lemma concat_insert {A} (ls : list (list A)) i l :
  ls !! i = Some l →
  ∃ r, concat ls ≡ₚ l ++ r ∧ ∀ l', concat (<[i:=l']> ls) ≡ₚ l' ++ r.
Proof.
  intros Hi. exists (concat (take i ls) ++ concat (drop (S i) ls)). split.
  - rewrite <- (take_drop_middle _ _ _ Hi) at 1. rewrite concat_app. simpl.
    apply Permutation_app_swap_app.
  - intros l'. rewrite insert_take_drop by (by eapply lookup_lt_Some).
    rewrite concat_app. simpl. apply Permutation_app_swap_app.
Qed.

Lemma elem_of_concat {A} (x : A) ls : x ∈ concat ls ↔ ∃ l, l ∈ ls ∧ x ∈ l.
Proof.
  rewrite list_elem_of_In, in_concat. by setoid_rewrite list_elem_of_In.
Qed.

Lemma filter_all {A} (Q : A → Prop) `{∀ x, Decision (Q x)} (l : list A) :
  Forall Q l → filter Q l = l.
Proof.
  induction 1 as [|x l Hx _ IH]; [done |]. rewrite filter_cons_True by done. by rewrite IH.
Qed.

Lemma filter_none {A} (Q : A → Prop) `{∀ x, Decision (Q x)} (l : list A) :
  Forall (λ x, ¬ Q x) l → filter Q l = [].
Proof. induction 1 as [|x l Hx _ IH]; [done |]. by rewrite filter_cons_False. Qed.

Lemma filter_ext {A} (Q Q' : A → Prop) `{∀ x, Decision (Q x)} `{∀ x, Decision (Q' x)} (l : list A) :
  Forall (λ x, Q x ↔ Q' x) l → filter Q l = filter Q' l.
Proof.
  induction 1 as [|x l Hx _ IH]; [done |]. rewrite !filter_cons, IH. by destruct (decide (Q x)), (decide (Q' x)); tauto.
Qed.
