(* ===== verification/Align.v ===== *)
(** * Integer alignment: [osxtd/libs/align_ext/src/lib.rs]

    The [AlignExt] trait, implemented by one macro for every unsigned width.
    The width [w] is a parameter of the definitions. *)

From S2P Require Import Prelude.
Local Open Scope Z_scope.

Module Align.

Definition align_up (w self align : Z) : outcome Z :=
  assert_that (is_power_of_two align && (2 <=? align)) ≫= λ _,
  unwrap (checked_add w self (align - 1)) ≫= λ s,
  Done (Z.land s (bit_not w (align - 1))).

Definition align_down (w self align : Z) : outcome Z :=
  assert_that (is_power_of_two align && (2 <=? align)) ≫= λ _,
  Done (Z.land self (bit_not w (align - 1))).

(** Reference definitions. *)
Definition round_down (n align : Z) : Z := n - n mod align.
Definition round_up (n align : Z) : Z := round_down (n + (align - 1)) align.

(** The alignments the code accepts at width [w]. *)
Definition valid_align (w align : Z) : Prop :=
  in_width w align ∧ ∃ k, 1 ≤ k ∧ align = 2 ^ k.

Lemma valid_align_assert w align :
  valid_align w align → assert_that (is_power_of_two align && (2 <=? align)) = Done tt.
Proof.
  intros (_ & k & Hk & ->).
  apply assert_done, andb_true_iff. split.
  - apply is_power_of_two_spec. exists k. lia.
  - apply Z.leb_le. change 2 with (2 ^ 1) at 1. auto with omega lia.
Qed.

Lemma valid_align_width w align :
  valid_align w align → ∃ k, 1 ≤ k ≤ w ∧ align = 2 ^ k.
Proof.
  intros ([H0 H] & k & Hk & ->). exists k. split; [| done].
  split; [done |]. destruct (Z.le_gt_cases k w) as [|Hgt]; [done |].
  exfalso. destruct (Z.lt_ge_cases w 0) as [Hw|Hw].
  - rewrite (Z.pow_neg_r 2 w) in H by done. lia.
  - pose proof (pow2_le w k). lia.
Qed.

Lemma mask_round w align n :
  valid_align w align → in_width w n →
  Z.land n (bit_not w (align - 1)) = round_down n align.
Proof.
  intros (k & Hk & ->)%valid_align_width Hn. apply land_not_low; [lia | done].
Qed.

(** [round_up] is the least multiple of the alignment above its argument. *)
Lemma round_up_least n align :
  0 < align →
  (align | round_up n align) ∧ n ≤ round_up n align ∧
  ∀ m, (align | m) → n ≤ m → round_up n align ≤ m.
Proof.
  intros Ha. unfold round_up, round_down.
  pose proof (Z.div_mod (n + (align - 1)) align ltac:(lia)) as Hdm.
  pose proof (Z.mod_pos_bound (n + (align - 1)) align Ha) as Hb.
  set (q := (n + (align - 1)) / align) in *.
  split; [exists q; lia |]. split; [lia |].
  intros m [c ->] Hm. assert (q ≤ c); [| nia].
  apply Z.lt_succ_r. nia.
Qed.

Lemma round_down_greatest n align :
  0 < align →
  (align | round_down n align) ∧ round_down n align ≤ n ∧
  ∀ m, (align | m) → m ≤ n → m ≤ round_down n align.
Proof.
  intros Ha. unfold round_down.
  pose proof (Z.div_mod n align ltac:(lia)) as Hdm.
  pose proof (Z.mod_pos_bound n align Ha) as Hb.
  split; [exists (n / align); lia |]. split; [lia |].
  intros m [c ->] Hm. assert (c ≤ n / align); [| nia].
  apply Z.lt_succ_r. nia.
Qed.

(** The executable forms: what [align_up] and [align_down] return, as
    arithmetic. *)
Lemma align_up_eq w self align :
  valid_align w align → in_width w self →
  align_up w self align =
  if round_up self align <? 2 ^ w then Done (round_up self align) else Panic.
Proof.
  intros Hv Hs. unfold align_up. rewrite (valid_align_assert w) by done. simpl.
  destruct (valid_align_width _ _ Hv) as (k & Hk & ->).
  assert (Hdiv : 2 ^ w = 2 ^ (w - k) * 2 ^ k) by (rewrite <- Z.pow_add_r by lia; f_equal; lia).
  pose proof (round_up_least self (2 ^ k) (pow2_pos k ltac:(lia))) as (Hmul & Hle & Hleast).
  pose proof (pow2_pos k ltac:(lia)). destruct Hs as [Hs0 Hs].
  unfold checked_add. destruct (Z.ltb_spec (self + (2 ^ k - 1)) (2 ^ w)) as [Hlt|Hge]; simpl.
  - rewrite mask_round by (done || split; lia). fold (round_up self (2 ^ k)).
    assert (round_up self (2 ^ k) < 2 ^ w).
    { unfold round_up, round_down.
      pose proof (Z.mod_pos_bound (self + (2 ^ k - 1)) (2 ^ k)). lia. }
    by destruct (Z.ltb_spec (round_up self (2 ^ k)) (2 ^ w)); [| lia].
  - destruct (Z.ltb_spec (round_up self (2 ^ k)) (2 ^ w)) as [Hlt'|]; [| done].
    exfalso. destruct Hmul as [c Hc].
    assert (c < 2 ^ (w - k)) by nia. nia.
Qed.

Lemma align_down_eq w self align :
  valid_align w align → in_width w self →
  align_down w self align = Done (round_down self align).
Proof.
  intros Hv Hs. unfold align_down. rewrite (valid_align_assert w) by done. simpl.
  by rewrite mask_round.
Qed.

Lemma invalid_align_assert w align :
  ¬ valid_align w align → in_width w align →
  assert_that (is_power_of_two align && (2 <=? align)) = Panic.
Proof.
  intros Hv Hw. destruct (_ && _) eqn:E; [| done].
  apply andb_true_iff in E as [(k & Hk & ->)%is_power_of_two_spec H2%Z.leb_le].
  exfalso. apply Hv. split; [done |]. exists k. split; [| done].
  destruct (Z.eq_dec k 0) as [->|]; [simpl in H2; lia | lia].
Qed.

(** ** Properties *)

(** [align_up] on unsigned integers of any width [w]: for an alignment that
    is a power of two and at least 2 it returns the least multiple that is not
    below its argument, and panics exactly when no such multiple fits in the
    width; for any other alignment it panics. *)
Theorem align_up_spec w self align :
  in_width w self → in_width w align →
  match align_up w self align with
  | Done r => valid_align w align ∧ in_width w r ∧ (align | r) ∧ self ≤ r ∧
      ∀ m, (align | m) → self ≤ m → r ≤ m
  | Panic => valid_align w align → ∀ m, (align | m) → self ≤ m → 2 ^ w ≤ m
  end.
Proof.
  intros Hs Ha. destruct (decide (is_power_of_two align && (2 <=? align) = true)) as [E|E].
  - assert (valid_align w align) as Hv.
    { apply andb_true_iff in E as [(k & Hk & Hp)%is_power_of_two_spec H2%Z.leb_le].
      split; [done |]. exists k. split; [| done].
      destruct (Z.eq_dec k 0) as [->|]; [simpl in Hp; lia | lia]. }
    rewrite align_up_eq by done. destruct Hv as [Hw Hk]; destruct Hk as (k & Hk & Hp).
    destruct (round_up_least self align) as (H1 & H2 & H3); [pose proof (pow2_pos k); lia |].
    destruct Hs. destruct (Z.ltb_spec (round_up self align) (2 ^ w)) as [Hlt|Hlt].
    + split; [split; eauto |]. split; [split; lia | auto].
    + intros _ m Hm Hle. specialize (H3 m Hm Hle). lia.
  - assert (¬ valid_align w align) as Hv.
    { intros Hv. apply E. pose proof (valid_align_assert _ _ Hv) as Hd.
      by destruct (is_power_of_two align && (2 <=? align)). }
    unfold align_up. rewrite (invalid_align_assert w) by done. simpl. intros Hc. contradiction.
Qed.

Lemma align_up_spec_witness :
  match align_up 8 250 8 with
  | Done r => valid_align 8 8 ∧ in_width 8 r ∧ (8 | r) ∧ 250 ≤ r ∧
      ∀ m, (8 | m) → 250 ≤ m → r ≤ m
  | Panic => valid_align 8 8 → ∀ m, (8 | m) → 250 ≤ m → 2 ^ 8 ≤ m
  end.
Proof. apply (align_up_spec 8 250 8); unfold in_width; lia. Defined.

End Align.
