(* ===== verification/IdAlloc.v ===== *)
(** * The bitmap id allocator: [osxtd/libs/id-alloc/src/lib.rs]

    [IdAlloc] keeps a bit vector (a set bit is an allocated id) and the lowest
    id that is free.  The bit vector of the [bitvec] crate is a [list bool];
    reading or setting a bit out of range panics, as documented there, and the
    bits of a byte slice come least significant first ([Lsb0], the default
    order of [BitVec<u8>]).  Ids are list positions and never exceed the length
    of the bit vector by more than one, so they are [nat].

    The abstract specification is the set of allocated ids ([allocated]) next
    to the capacity; the lemmas [*_refines] say what each operation does to
    it. *)

From S2P Require Import Prelude.

Module IdAlloc.

Record t : Type := mk {
  bitset : list bool;
  first_available_id : nat
}.

(** [debug_assert!] is active only in debug builds; the build is a parameter
    of the operations that use it. *)
Definition debug_assert (debug : bool) (cond : outcome bool) : outcome unit :=
  if debug then cond ≫= assert_that else Done tt.

(** [self.bitset[i]] and [self.bitset.set(i, b)] *)
Definition bit_get (l : list bool) (i : nat) : outcome bool := unwrap (l !! i).
Definition bit_set (l : list bool) (i : nat) (b : bool) : outcome (list bool) :=
  if decide (i < length l) then Done (<[i:=b]> l) else Panic.

(** [(a..bitset.len()).find(|&i| !bitset[i]).map_or(bitset.len(), |i| i)] *)
Definition find_free_from (l : list bool) (a : nat) : nat :=
  match list_find (λ b, b = false) (drop a l) with
  | Some (i, _) => a + i
  | None => length l
  end.

(** [bitset.resize(n, false)] and [bitset.truncate(n)] *)
Definition resize_false (l : list bool) (n : nat) : list bool :=
  take n l ++ replicate (n - length l) false.

(** [BitVec::<u8>::from_slice] *)
Definition byte_bits (b : Z) : list bool :=
  (λ i, Z.testbit b (Z.of_nat i)) <$> seq 0 8.
Definition bits_of_slice (slice : list Z) : list bool := slice ≫= byte_bits.

Definition with_capacity (capacity : nat) : t :=
  mk (resize_false [] capacity) 0.

Definition from_bytes_with_capacity (slice : list Z) (capacity : nat) : t :=
  let bits :=
    if decide (length slice * 8 < capacity)
    then resize_false (bits_of_slice slice) capacity
    else take capacity (bits_of_slice (take ((capacity + 7) / 8) slice)) in
  mk bits (find_free_from bits 0).

Definition alloc (s : t) : outcome (option nat * t) :=
  if decide (first_available_id s < length (bitset s)) then
    let id := first_available_id s in
    bit_set (bitset s) id true ≫= λ bits,
    Done (Some id, mk bits (find_free_from bits (id + 1)))
  else Done (None, s).

Definition is_allocated (s : t) (id : nat) : outcome bool := bit_get (bitset s) id.

(** The scan loop of [alloc_consecutive]: [start..stop] is [curr_range].  Both
    branches move [stop] one up, so [length l] iterations are enough; [None] is
    reached only without fuel. *)
Fixpoint scan (fuel : nat) (l : list bool) (count start stop : nat)
  : option (outcome (nat * nat)) :=
  match fuel with
  | 0 => None
  | S fuel =>
      if decide (stop - start < count ∧ stop < length l) then
        match bit_get l stop with
        | Panic => Some Panic
        | Done false => scan fuel l count start (stop + 1)
        | Done true => scan fuel l count (stop + 1) (stop + 1)
        end
      else Some (Done (start, stop))
  end.

(** [for id in start..start+n { bitset.set(id, b) }] *)
Fixpoint set_run (l : list bool) (start n : nat) (b : bool) : outcome (list bool) :=
  match n with
  | 0 => Done l
  | S n => bit_set l start b ≫= λ l', set_run l' (start + 1) n b
  end.

(** The outer [option] is fuel; see [alloc_consecutive_total]. *)
Definition alloc_consecutive (s : t) (count : nat)
  : option (outcome (option (nat * nat) * t)) :=
  if decide (count = 0) then Some (Done (None, s)) else
  let fa := first_available_id s in
  scan (S (length (bitset s))) (bitset s) count fa (fa + 1) ≫= λ r,
  Some (r ≫= λ '(start, stop),
    if decide (stop - start < count) then Done (None, s) else
    set_run (bitset s) start (stop - start) true ≫= λ bits,
    bit_get bits fa ≫= λ b,
    Done (Some (start, stop),
          mk bits (if b : bool then find_free_from bits stop else fa))).

(** The loop body of [free_consecutive] with its debug assertion. *)
Fixpoint free_run (debug : bool) (l : list bool) (start n : nat) : outcome (list bool) :=
  match n with
  | 0 => Done l
  | S n =>
      debug_assert debug (bit_get l start) ≫= λ _,
      bit_set l start false ≫= λ l', free_run debug l' (start + 1) n
  end.

Definition free_consecutive (debug : bool) (s : t) (start stop : nat) : outcome t :=
  if decide (stop ≤ start) then Done s else
  free_run debug (bitset s) start (stop - start) ≫= λ bits,
  Done (mk bits (if decide (start < first_available_id s)
                 then start else first_available_id s)).

Definition free (debug : bool) (s : t) (id : nat) : outcome t :=
  debug_assert debug (is_allocated s id) ≫= λ _,
  bit_set (bitset s) id false ≫= λ bits,
  Done (mk bits (if decide (id < first_available_id s)
                 then id else first_available_id s)).

Definition alloc_specific (s : t) (id : nat) : outcome (option nat * t) :=
  bit_get (bitset s) id ≫= λ b,
  if b : bool then Done (None, s) else
  bit_set (bitset s) id true ≫= λ bits,
  Done (Some id, mk bits (if decide (id = first_available_id s)
                          then find_free_from bits (id + 1)
                          else first_available_id s)).

(** ** Abstract view and invariant *)

(** Id [i] is allocated. *)
Definition taken (s : t) (i : nat) : Prop := bitset s !! i = Some true.

(** Id [i] is within the capacity and free. *)
Definition available (s : t) (i : nat) : Prop := bitset s !! i = Some false.

(** The cached [first_available_id] is the lowest free id, or the capacity. *)
Definition wf (s : t) : Prop :=
  first_available_id s = find_free_from (bitset s) 0.

(** Every id of [start, start + n) is free. *)
Definition free_range (s : t) (start n : nat) : Prop :=
  ∀ i, start ≤ i < start + n → available s i.

(** ** Lemmas *)

Lemma find_free_from_spec l a :
  (∀ i, a ≤ i < find_free_from l a → l !! i = Some true) ∧
  (find_free_from l a < length l →
     a ≤ find_free_from l a ∧ l !! find_free_from l a = Some false) ∧
  find_free_from l a ≤ length l.
Proof.
  unfold find_free_from. destruct (list_find _ _) as [[i b]|] eqn:Hf.
  - apply list_find_Some in Hf as (Hi & -> & Hbefore).
    rewrite lookup_drop in Hi. pose proof (lookup_lt_Some _ _ _ Hi).
    split; [| split]; [| by auto with lia | lia].
    intros j Hj. destruct (lookup_lt_is_Some_2 l j) as [b Hb]; [lia |].
    destruct b; [done |]. exfalso.
    eapply (Hbefore (j - a) false); [| lia | done].
    rewrite lookup_drop. by replace (a + (j - a)) with j by lia.
  - apply list_find_None in Hf. split; [| split]; [| lia | lia].
    intros j Hj. destruct (lookup_lt_is_Some_2 l j) as [b Hb]; [lia |].
    destruct b; [done |]. exfalso.
    rewrite Forall_forall in Hf. eapply (Hf false); [| done].
    apply list_elem_of_lookup. exists (j - a). rewrite lookup_drop.
    by replace (a + (j - a)) with j by lia.
Qed.

(** Uniqueness: the properties above pin the value down. *)
Lemma find_free_from_unique l n :
  (∀ i, i < n → l !! i = Some true) →
  (n = length l ∨ l !! n = Some false) →
  find_free_from l 0 = n.
Proof.
  intros Hlow Hat. destruct (find_free_from_spec l 0) as (H1 & H2 & H3).
  destruct (lt_eq_lt_dec (find_free_from l 0) n) as [[Hlt|]|Hgt]; [|done|].
  - destruct (decide (find_free_from l 0 < length l)) as [Hl|Hl].
    + destruct (H2 Hl) as [_ Hf]. rewrite Hlow in Hf by done. done.
    + destruct Hat as [->|Hat]; [lia |]. apply lookup_lt_Some in Hat. lia.
  - destruct Hat as [->|Hat]; [lia |].
    rewrite (H1 n) in Hat by lia. done.
Qed.

Lemma wf_iff s :
  wf s ↔ (∀ i, i < first_available_id s → taken s i) ∧
         (first_available_id s = length (bitset s) ∨
          available s (first_available_id s)).
Proof.
  unfold wf, taken, available. split.
  - intros ->. destruct (find_free_from_spec (bitset s) 0) as (H1 & H2 & H3).
    split; [intros; apply H1; lia |].
    destruct (decide (find_free_from (bitset s) 0 < length (bitset s))); [| lia].
    right. by apply H2.
  - intros [H1 H2]. symmetry. by apply find_free_from_unique.
Qed.

Lemma wf_le s : wf s → first_available_id s ≤ length (bitset s).
Proof. intros ->. apply find_free_from_spec. Qed.

Lemma bit_set_done l i b l' :
  bit_set l i b = Done l' ↔ i < length l ∧ l' = <[i:=b]> l.
Proof. unfold bit_set. case_decide; naive_solver. Qed.

Lemma bit_get_done l i b : bit_get l i = Done b ↔ l !! i = Some b.
Proof. apply unwrap_done. Qed.


(** Extend a prefix of taken ids over a newly taken one. *)
Lemma find_free_after l id :
  (∀ i, i < id → l !! i = Some true) →
  id < length l →
  find_free_from (<[id:=true]> l) 0 = find_free_from (<[id:=true]> l) (id + 1).
Proof.
  intros Hlow Hid. set (l' := <[id:=true]> l).
  assert (Hlow' : ∀ i, i < id + 1 → l' !! i = Some true).
  { intros i Hi. unfold l'. destruct (decide (i = id)) as [->|].
    - by apply list_lookup_insert_eq.
    - rewrite list_lookup_insert_ne by done. apply Hlow. lia. }
  destruct (find_free_from_spec l' (id + 1)) as (H1 & H2 & H3).
  apply find_free_from_unique.
  - intros i Hi. destruct (decide (i < id + 1)); [by apply Hlow' | apply H1; lia].
  - destruct (decide (find_free_from l' (id + 1) < length l')); [| lia].
    right. by apply H2.
Qed.

Lemma set_run_done l start n b l' :
  set_run l start n b = Done l' →
  length l' = length l ∧
  ∀ i, l' !! i = if decide (start ≤ i < start + n) then Some b else l !! i.
Proof.
  revert l start. induction n as [|n IH]; simpl; intros l start.
  - intros [= ->]. split; [done |]. intros i. case_decide; [lia | done].
  - intros (l1 & (Hs & ->)%bit_set_done & Hr)%bind_done.
    apply IH in Hr as [Hlen Hl]. rewrite length_insert in Hlen. split; [done |].
    intros i. rewrite Hl. destruct (decide (i = start)) as [->|].
    + rewrite decide_False by lia. rewrite decide_True by lia.
      by apply list_lookup_insert_eq.
    + rewrite list_lookup_insert_ne by done.
      repeat case_decide; lia || done.
Qed.

Lemma set_run_total l start n b :
  is_done (set_run l start n b) ↔ n = 0 ∨ start + n ≤ length l.
Proof.
  revert l start. induction n as [|n IH]; simpl; intros l start.
  - split; [by left | by eexists].
  - unfold bit_set. case_decide as Hd; simpl.
    + rewrite IH, length_insert. lia.
    + split; [intros [? [=]] | lia].
Qed.

(** [free_run] agrees with [set_run] where it returns. *)
Lemma free_run_set debug l start n l' :
  free_run debug l start n = Done l' → set_run l start n false = Done l'.
Proof.
  revert l start. induction n as [|n IH]; simpl; intros l start; [done |].
  intros (? & _ & (l1 & -> & Hr)%bind_done)%bind_done. simpl. by apply IH.
Qed.

(** ** The scan of [alloc_consecutive] *)

(** Every bit of [start, start + n) is clear. *)
Definition clear_run (l : list bool) (start n : nat) : Prop :=
  ∀ i, start ≤ i < start + n → l !! i = Some false.

(** What the loop has established when [curr_range] is [start..stop]: the
    current run is clear and no run of [count] clear bits starts earlier. *)
Record scan_inv (l : list bool) (count start stop : nat) : Prop := {
  scan_order : start ≤ stop ≤ length l;
  scan_clear : clear_run l start (stop - start);
  scan_short : stop - start ≤ count;
  scan_first : ∀ a, a < start → ¬ clear_run l a count
}.

Lemma scan_inv_extend l count start stop :
  scan_inv l count start stop → stop - start < count → l !! stop = Some false →
  scan_inv l count start (stop + 1).
Proof.
  intros [[Ho1 Ho2] Hc Hs Hf] Hlt Hb. pose proof (lookup_lt_Some _ _ _ Hb).
  split; [lia | | lia | done].
  intros i Hi. destruct (decide (i = stop)) as [->|]; [done | apply Hc; lia].
Qed.

Lemma scan_inv_restart l count start stop :
  scan_inv l count start stop → stop - start < count → l !! stop = Some true →
  scan_inv l count (stop + 1) (stop + 1).
Proof.
  intros [[Ho1 Ho2] Hc Hs Hf] Hlt Hb. pose proof (lookup_lt_Some _ _ _ Hb).
  split; [lia | intros i ?; lia | lia |].
  intros a Ha. destruct (decide (a < start)) as [|Hge]; [by apply Hf |].
  intros Hrun. rewrite (Hrun stop) in Hb by lia. done.
Qed.

(** The scan terminates within its fuel and keeps its invariant. *)
Lemma scan_correct fuel l count start stop :
  scan_inv l count start stop → length l - stop < fuel →
  ∃ a b, scan fuel l count start stop = Some (Done (a, b)) ∧
    scan_inv l count a b ∧ (b - a = count ∨ b = length l).
Proof.
  revert start stop. induction fuel as [|fuel IH]; intros start stop Hinv Hfuel; [lia |].
  simpl. pose proof (scan_order _ _ _ _ Hinv). pose proof (scan_short _ _ _ _ Hinv).
  case_decide as Hd.
  - destruct (lookup_lt_is_Some_2 l stop) as [b Hb]; [lia |].
    unfold bit_get. rewrite Hb. simpl. destruct b.
    + apply IH; [| lia]. eapply scan_inv_restart; [done | lia | done].
    + apply IH; [| lia]. eapply scan_inv_extend; [done | lia | done].
  - exists start, stop. split; [done |]. split; [done |]. lia.
Qed.

Lemma scan_inv_init s count :
  wf s → first_available_id s < length (bitset s) → 0 < count →
  scan_inv (bitset s) count (first_available_id s) (first_available_id s + 1).
Proof.
  intros [Hlow Hat]%wf_iff Hlt Hcount.
  destruct Hat as [?|Hat]; [lia |]. split; [lia | | lia |].
  - intros i Hi. by replace i with (first_available_id s) by lia.
  - intros a Ha Hrun. specialize (Hlow a Ha).
    unfold taken in Hlow. rewrite (Hrun a) in Hlow by lia. done.
Qed.

(** ** Operations: effect on the bits and on the invariant *)

Lemma wf_with_capacity n : wf (with_capacity n).
Proof.
  unfold with_capacity, resize_false, wf. simpl. rewrite take_nil, Nat.sub_0_r. simpl.
  symmetry. apply find_free_from_unique; [lia |].
  destruct n as [|n]; [by left | by right].
Qed.

Lemma wf_from_bytes slice n : wf (from_bytes_with_capacity slice n).
Proof. done. Qed.

Lemma alloc_effect s :
  wf s →
  (alloc s = Done (None, s) ∧ ∀ i, ¬ available s i) ∨
  ∃ s', alloc s = Done (Some (first_available_id s), s') ∧ wf s' ∧
    available s (first_available_id s) ∧
    bitset s' = <[first_available_id s := true]> (bitset s).
Proof.
  intros Hwf. pose proof Hwf as [Hlow Hat]%wf_iff. unfold alloc. case_decide as Hd.
  - right. unfold bit_set. rewrite decide_True by done. simpl.
    destruct Hat as [?|Hat]; [lia |].
    eexists. split; [done |]. split; [| done].
    unfold wf. simpl. symmetry. by apply find_free_after.
  - left. split; [done |]. intros i Hi. pose proof (lookup_lt_Some _ _ _ Hi).
    specialize (Hlow i ltac:(lia)). unfold taken, available in *. congruence.
Qed.

(** Clearing bits from [start] on and lowering the cache keeps [wf]. *)
Lemma wf_clear s bits start n :
  wf s → 0 < n → start + n ≤ length (bitset s) →
  length bits = length (bitset s) →
  (∀ i, bits !! i = if decide (start ≤ i < start + n) then Some false else bitset s !! i) →
  wf (mk bits (if decide (start < first_available_id s) then start else first_available_id s)).
Proof.
  intros [Hlow Hat]%wf_iff Hn Hb Hlen Hbits. apply wf_iff. unfold taken, available in *. simpl.
  case_decide as Hd.
  - split; [| right; rewrite Hbits; by rewrite decide_True by lia].
    intros i Hi. rewrite Hbits, decide_False by lia. apply Hlow. lia.
  - split.
    + intros i Hi. rewrite Hbits, decide_False by lia. by apply Hlow.
    + destruct Hat as [Hat|Hat]; [left; congruence |]. right.
      rewrite Hbits. case_decide; [done |]. done.
Qed.

Lemma free_run_effect debug l start n l' :
  free_run debug l start n = Done l' → 0 < n →
  start + n ≤ length l ∧ length l' = length l ∧
  ∀ i, l' !! i = if decide (start ≤ i < start + n) then Some false else l !! i.
Proof.
  intros Hr Hn. apply free_run_set in Hr.
  destruct (proj1 (set_run_total l start n false)) as [?|?]; [by eexists | lia |].
  split; [done |]. by apply set_run_done.
Qed.

Lemma free_effect debug s id s' :
  free debug s id = Done s' →
  id < length (bitset s) ∧ bitset s' = <[id:=false]> (bitset s) ∧
  first_available_id s' = Nat.min id (first_available_id s).
Proof.
  unfold free. intros (? & _ & (bits & (Hlt & ->)%bit_set_done & Heq)%bind_done)%bind_done.
  injection Heq as <-. simpl. split; [done |]. split; [done |]. case_decide; lia.
Qed.

Lemma wf_free debug s id s' : wf s → free debug s id = Done s' → wf s'.
Proof.
  intros Hwf (Hid & Hb & Hf)%free_effect. destruct s' as [bits fa]; simpl in *. subst.
  replace (Nat.min id (first_available_id s))
    with (if decide (id < first_available_id s) then id else first_available_id s)
    by (case_decide; lia).
  apply (wf_clear s _ id 1); [done | lia | lia | by rewrite length_insert |].
  intros i. destruct (decide (i = id)) as [->|].
  - rewrite decide_True by lia. by apply list_lookup_insert_eq.
  - rewrite decide_False by lia. by apply list_lookup_insert_ne.
Qed.

Lemma wf_free_consecutive debug s a b s' :
  wf s → free_consecutive debug s a b = Done s' → wf s'.
Proof.
  intros Hwf. unfold free_consecutive. case_decide as Hd; [by intros [= <-] |].
  intros (bits & (Hb & Hlen & Hl)%free_run_effect & [= <-])%bind_done; [| lia].
  eapply wf_clear; [done | | | done | done]; lia.
Qed.

Lemma wf_alloc_specific s id r s' :
  wf s → alloc_specific s id = Done (r, s') → wf s'.
Proof.
  intros Hwf. pose proof Hwf as [Hlow Hat]%wf_iff. unfold alloc_specific.
  intros ([|] & Hget%bit_get_done & Hr)%bind_done; [by injection Hr as <- <- |].
  apply bind_done in Hr as (bits & (Hlt & ->)%bit_set_done & [= <- <-]).
  case_decide as Hd.
  - subst. unfold wf. simpl. symmetry. by apply find_free_after.
  - apply wf_iff. unfold taken, available in *. simpl. split.
    + intros i Hi. destruct (decide (i = id)) as [->|].
      * by apply list_lookup_insert_eq.
      * rewrite list_lookup_insert_ne by done. by apply Hlow.
    + destruct Hat as [Hat|Hat]; [left; by rewrite length_insert |]. right.
      by rewrite list_lookup_insert_ne.
Qed.

(** Setting the run found by the scan: what becomes of the cached id. *)
Lemma wf_after_run s bits a n fa' :
  wf s → first_available_id s < length (bitset s) → 0 < n →
  first_available_id s ≤ a →
  length bits = length (bitset s) →
  (∀ i, bits !! i = if decide (a ≤ i < a + n) then Some true else bitset s !! i) →
  (bits !! first_available_id s = Some true → fa' = find_free_from bits (a + n)) →
  (bits !! first_available_id s = Some false → fa' = first_available_id s) →
  wf (mk bits fa').
Proof.
  intros [Hlow Hat]%wf_iff Hlt Hn Ha Hlen Hbits Ht Hf.
  destruct Hat as [?|Hat]; [lia |]. unfold available, taken in *.
  destruct (decide (a = first_available_id s)) as [->|Hne].
  - rewrite Ht by (rewrite Hbits; by rewrite decide_True by lia).
    destruct (find_free_from_spec bits (first_available_id s + n)) as (H1 & H2 & H3).
    unfold wf. simpl. symmetry. apply find_free_from_unique.
    + intros i Hi. destruct (decide (i < first_available_id s + n)); [| apply H1; lia].
      rewrite Hbits. case_decide; [done | apply Hlow; lia].
    + destruct (decide (find_free_from bits (first_available_id s + n) < length bits)); [| lia].
      right. by apply H2.
  - rewrite Hf by (rewrite Hbits; by rewrite decide_False by lia).
    apply wf_iff. unfold taken, available. simpl. split.
    + intros i Hi. rewrite Hbits. rewrite decide_False by lia. by apply Hlow.
    + right. rewrite Hbits. by rewrite decide_False by lia.
Qed.

(** [alloc_consecutive] when some id is free: it terminates without panicking,
    takes the first run of [count] free ids, or reports that there is none. *)
Lemma alloc_consecutive_effect s count :
  wf s → first_available_id s < length (bitset s) → 0 < count →
  ∃ r s', alloc_consecutive s count = Some (Done (r, s')) ∧ wf s' ∧
  match r with
  | None => s' = s ∧ ∀ a, ¬ free_range s a count
  | Some (a, b) =>
      b = a + count ∧ free_range s a count ∧
      (∀ a', a' < a → ¬ free_range s a' count) ∧
      (∀ i, bitset s' !! i =
            if decide (a ≤ i < b) then Some true else bitset s !! i)
  end.
Proof.
  intros Hwf Hlt Hcount. unfold alloc_consecutive. rewrite decide_False by lia.
  set (fa := first_available_id s) in *. set (l := bitset s) in *.
  destruct (scan_correct (S (length l)) l count fa (fa + 1)) as (a & b & Hs & Hinv & Hend);
    [by apply scan_inv_init | lia |].
  rewrite Hs. simpl. destruct Hinv as [Ho Hc Hsh Hf]. case_decide as Hd.
  - exists None, s. split; [done |]. split; [done |]. split; [done |].
    intros a' Hrun. destruct (decide (a' < a)) as [Ha'|Ha']; [by apply (Hf a') |].
    destruct Hend as [?|Hend]; [lia |].
    pose proof (lookup_lt_Some _ _ _ (Hrun (a' + count - 1) ltac:(lia))). fold l in H. lia.
  - assert (Hba : b - a = count) by lia.
    assert (Hset : is_done (set_run l a (b - a) true)) by (apply set_run_total; lia).
    destruct Hset as [bits Hset]. rewrite Hset. simpl.
    apply set_run_done in Hset as [Hlen Hbits].
    destruct (lookup_lt_is_Some_2 bits fa) as [c Hc']; [lia |].
    unfold bit_get. rewrite Hc'. simpl.
    assert (Hge : fa ≤ a).
    { destruct (decide (a < fa)) as [Hlt'|]; [| lia]. exfalso.
      pose proof Hwf as [Hlow _]%wf_iff. specialize (Hlow a Hlt').
      unfold taken in Hlow. fold l in Hlow. rewrite (Hc a) in Hlow by lia. done. }
    eexists _, _. split; [done |]. split.
    + eapply (wf_after_run s bits a (b - a)); try done; [lia | |].
      * intros Heq. fold fa in Heq. replace (a + (b - a)) with b by lia.
        rewrite Hc' in Heq. by injection Heq as ->.
      * intros Heq. fold fa in Heq. rewrite Hc' in Heq. by injection Heq as ->.
    + split; [lia |]. split; [intros i Hi; apply Hc; lia |]. split; [done |].
      intros i. simpl. rewrite Hbits. by replace (a + (b - a)) with b by lia.
Qed.

(** ** Reachable allocators *)

(** The states a client can produce from a constructor by calls that return. *)
Inductive reachable : t → Prop :=
| reach_new n : reachable (with_capacity n)
| reach_bytes slice n : reachable (from_bytes_with_capacity slice n)
| reach_alloc s r s' : reachable s → alloc s = Done (r, s') → reachable s'
| reach_alloc_consecutive s n r s' :
    reachable s → alloc_consecutive s n = Some (Done (r, s')) → reachable s'
| reach_alloc_specific s id r s' :
    reachable s → alloc_specific s id = Done (r, s') → reachable s'
| reach_free debug s id s' : reachable s → free debug s id = Done s' → reachable s'
| reach_free_consecutive debug s a b s' :
    reachable s → free_consecutive debug s a b = Done s' → reachable s'.

(** When every id is taken the scan starts past the end. *)
Lemma alloc_consecutive_full s count :
  wf s → first_available_id s = length (bitset s) → 0 < count →
  alloc_consecutive s count =
  Some (if decide (count = 1) then Panic else Done (None, s)).
Proof.
  intros Hwf Hfull Hcount. unfold alloc_consecutive. rewrite decide_False by lia.
  simpl. rewrite decide_False by lia. simpl.
  replace (first_available_id s + 1 - first_available_id s) with 1 by lia.
  destruct (decide (count = 1)) as [->|].
  - rewrite decide_False by lia. simpl. unfold bit_set. by rewrite decide_False by lia.
  - by rewrite decide_True by lia.
Qed.

Lemma reachable_inv s : reachable s → wf s.
Proof.
  induction 1 as [| |s r s' _ IH Ha|s n r s' _ IH Ha|s id r s' _ IH Ha
                 |debug s id s' _ IH Ha|debug s a b s' _ IH Ha].
  - apply wf_with_capacity.
  - apply wf_from_bytes.
  - destruct (alloc_effect s IH) as [[Hn _]|(s1 & Hs & Hw & _)]; congruence.
  - destruct (decide (n = 0)) as [->|Hn].
    { unfold alloc_consecutive in Ha. simpl in Ha. congruence. }
    pose proof (wf_le s IH).
    destruct (decide (first_available_id s = length (bitset s))) as [Hf|Hf].
    + rewrite alloc_consecutive_full in Ha by (done || lia). case_decide; congruence.
    + destruct (alloc_consecutive_effect s n IH) as (r1 & s1 & Hs & Hw & _); [lia | lia |].
      congruence.
  - by eapply wf_alloc_specific.
  - by eapply wf_free.
  - by eapply wf_free_consecutive.
Qed.

(** ** Properties *)

(** In every state a client can reach, the cached [first_available_id] is
    exactly the lowest free id: all ids below it are allocated, and it is
    either free itself or equal to the capacity. *)
Theorem id_alloc_cache_exact s :
  reachable s →
  (∀ i, i < first_available_id s → taken s i) ∧
  (first_available_id s = length (bitset s) ∨ available s (first_available_id s)).
Proof. intros H%reachable_inv. by apply wf_iff. Qed.

(** [alloc] on a reachable allocator never panics; it returns [None] only
    when no id is free, and otherwise the least free id, which it marks
    allocated while no other id changes. *)
Theorem alloc_least_free s :
  reachable s →
  (alloc s = Done (None, s) ∧ ∀ i, ¬ available s i) ∨
  ∃ id s', alloc s = Done (Some id, s') ∧ available s id ∧
    (∀ i, i < id → taken s i) ∧ taken s' id ∧
    (∀ i, i ≠ id → bitset s' !! i = bitset s !! i).
Proof.
  intros H%reachable_inv. destruct (alloc_effect s H) as [?|(s' & Ha & _ & Hav & Hb)]; [by left |].
  right. exists (first_available_id s), s'. split; [done |]. split; [done |].
  split; [by apply wf_iff |]. unfold taken. rewrite Hb. split.
  - apply list_lookup_insert_eq. by eapply lookup_lt_Some.
  - intros i Hi. by apply list_lookup_insert_ne.
Qed.

(** [alloc_consecutive] is first fit.  On a reachable allocator with a
    free id and for a positive count it terminates without panicking.  It
    returns [None] and leaves the state alone exactly when no run of [count]
    free ids exists; otherwise it returns the run with the lowest start and
    allocates its ids and no others. *)
Theorem alloc_consecutive_first_fit s count :
  reachable s → first_available_id s < length (bitset s) → 0 < count →
  ∃ r s', alloc_consecutive s count = Some (Done (r, s')) ∧
  match r with
  | None => s' = s ∧ ∀ a, ¬ free_range s a count
  | Some (a, b) =>
      b = a + count ∧ free_range s a count ∧
      (∀ a', a' < a → ¬ free_range s a' count) ∧
      (∀ i, bitset s' !! i =
            if decide (a ≤ i < b) then Some true else bitset s !! i)
  end.
Proof.
  intros H%reachable_inv Hlt Hc.
  destruct (alloc_consecutive_effect s count H Hlt Hc) as (r & s' & Hs & _ & Hr). eauto.
Qed.

(** The one exception: asking a full allocator for a run of one id does
    not return [None] as documented, the bit at the capacity is set and the
    call panics. *)
Theorem alloc_consecutive_full_panics s :
  reachable s → (∀ i, ¬ available s i) → alloc_consecutive s 1 = Some Panic.
Proof.
  intros H%reachable_inv Hfull. rewrite alloc_consecutive_full; [by rewrite decide_True | done | | lia].
  apply wf_iff in H as [_ [?|Hav]]; [done |]. by destruct (Hfull _ Hav).
Qed.

(** Freeing the id that [alloc] has just returned gives back the very
    state before the allocation. *)
Theorem alloc_free_roundtrip debug s id s' :
  reachable s → alloc s = Done (Some id, s') → free debug s' id = Done s.
Proof.
  intros H%reachable_inv Ha.
  destruct (alloc_effect s H) as [[Hn _]|(s1 & Hs & Hwf & Hav & Hb)]; [congruence |].
  rewrite Hs in Ha. injection Ha as <- <-.
  pose proof (lookup_lt_Some _ _ _ Hav) as Hlt.
  assert (Htaken : bitset s1 !! first_available_id s = Some true)
    by (rewrite Hb; by apply list_lookup_insert_eq).
  assert (Hfa : first_available_id s < first_available_id s1).
  { destruct (decide (first_available_id s1 ≤ first_available_id s)) as [Hle|]; [exfalso | lia].
    apply wf_iff in H as [Hlow _]. apply wf_iff in Hwf as [_ [Hl|Hv]].
    - rewrite Hb, length_insert in Hl. lia.
    - unfold available in Hv. destruct (decide (first_available_id s1 = first_available_id s)) as [Heq|Hne].
      + rewrite Heq in Hv. congruence.
      + rewrite Hb, list_lookup_insert_ne in Hv by done.
        specialize (Hlow (first_available_id s1) ltac:(lia)). unfold taken in Hlow. congruence. }
  assert (Hl : first_available_id s < length (bitset s1)) by (rewrite Hb, length_insert; done).
  assert (Hback : <[first_available_id s := false]> (bitset s1) = bitset s)
    by (rewrite Hb, list_insert_insert_eq; by apply list_insert_id).
  unfold free, debug_assert, is_allocated, bit_get, bit_set. rewrite Htaken.
  destruct debug; simpl; rewrite !decide_True by done; simpl;
    rewrite Hback; by destruct s.
Qed.

(** Concrete inputs for the properties. *)
Definition example_alloc : t := from_bytes_with_capacity [11%Z] 6.

Lemma example_reachable : reachable example_alloc.
Proof. apply reach_bytes. Defined.

Lemma id_alloc_cache_exact_witness :
  (∀ i, i < 2 → taken example_alloc i) ∧ (2 = 6 ∨ available example_alloc 2).
Proof. exact (id_alloc_cache_exact example_alloc example_reachable). Defined.

Lemma alloc_least_free_witness :
  (alloc example_alloc = Done (None, example_alloc) ∧ ∀ i, ¬ available example_alloc i) ∨
  ∃ id s', alloc example_alloc = Done (Some id, s') ∧ available example_alloc id ∧
    (∀ i, i < id → taken example_alloc i) ∧ taken s' id ∧
    (∀ i, i ≠ id → bitset s' !! i = bitset example_alloc !! i).
Proof. exact (alloc_least_free example_alloc example_reachable). Defined.

Lemma alloc_consecutive_first_fit_witness :
  ∃ r s', alloc_consecutive example_alloc 2 = Some (Done (r, s')) ∧
  match r with
  | None => s' = example_alloc ∧ ∀ a, ¬ free_range example_alloc a 2
  | Some (a, b) =>
      b = a + 2 ∧ free_range example_alloc a 2 ∧
      (∀ a', a' < a → ¬ free_range example_alloc a' 2) ∧
      (∀ i, bitset s' !! i =
            if decide (a ≤ i < b) then Some true else bitset example_alloc !! i)
  end.
Proof.
  apply (alloc_consecutive_first_fit example_alloc 2 example_reachable);
    vm_compute; lia.
Defined.

Lemma alloc_consecutive_full_panics_witness :
  alloc_consecutive (from_bytes_with_capacity [255%Z] 4) 1 = Some Panic.
Proof.
  apply (alloc_consecutive_full_panics (from_bytes_with_capacity [255%Z] 4) (reach_bytes _ _)).
  intros i Hi. do 4 (destruct i as [|i]; [discriminate Hi |]). discriminate Hi.
Defined.

Lemma alloc_free_roundtrip_witness :
  free true (mk [true; true; true; true; false; false] 4) 2 = Done example_alloc.
Proof.
  apply (alloc_free_roundtrip true example_alloc 2 _ example_reachable). reflexivity.
Defined.

Example first_fit_example :
  alloc_consecutive example_alloc 2 =
  Some (Done (Some (4, 6), mk [true; true; false; true; true; true] 2)).
Proof. reflexivity. Qed.

End IdAlloc.
