(* ===== verification/RwWord.v ===== *)
(** * The read-write lock word: [osxtd/src/sync/rwlock.rs], [rwmutex.rs]

    [RwLock] (spinning) and [RwMutex] (sleeping) keep the same protocol in one
    64-bit atomic word: bit 63 a writer, bit 62 an upgradeable reader, bit 61
    an upgrade in progress, bits 60-0 the number of readers.  This file has the
    word, the atomic operations and one machine whose steps are the single
    atomic accesses of the code, so that every interleaving of concurrent calls
    is a path of the machine.  Accesses are sequentially consistent: the code's
    weaker orderings are about the protected data, the word itself has one
    modification order.

    A [token] is a call in progress (between two of its atomic accesses) or a
    guard that is held.  A thread that holds three guards is three tokens. *)

From S2P Require Import Prelude.
Local Open Scope Z_scope.

Module RwWord.

Definition READER : Z := 1.
Definition WRITER : Z := Z.shiftl 1 (USIZE_BITS - 1).
Definition UPGRADEABLE_READER : Z := Z.shiftl 1 (USIZE_BITS - 2).
Definition BEING_UPGRADED : Z := Z.shiftl 1 (USIZE_BITS - 3).
Definition MAX_READER : Z := Z.shiftl 1 (USIZE_BITS - 4).

(** The atomic read-modify-write operations: the value the code gets back and
    the new word. *)
Definition fetch_add (lk v : Z) : Z * Z := (lk, wrapping_add USIZE_BITS lk v).
Definition fetch_sub (lk v : Z) : Z * Z := (lk, wrapping_sub USIZE_BITS lk v).
Definition fetch_or (lk v : Z) : Z * Z := (lk, Z.lor lk v).
Definition fetch_and (lk v : Z) : Z * Z := (lk, Z.land lk v).
Definition compare_exchange (lk expected new : Z) : bool * Z :=
  if lk =? expected then (true, new) else (false, lk).

(** [spin] says that the call is one round of the blocking method ([read],
    [write], [upread]), which tries again when the attempt fails. *)
Inductive token : Type :=
| TryRead (spin : bool)          (** [try_read] about to [fetch_add] *)
| TryReadUndo (spin : bool)      (** [try_read] failed, [fetch_sub] pending *)
| ReadGuard
| TryWrite (spin : bool)         (** [try_write] about to [compare_exchange] *)
| WriteGuard
| TryUpread (spin : bool)        (** [try_upread] about to [fetch_or] *)
| TryUpreadUndo (spin : bool)    (** [try_upread] saw a writer, [fetch_sub] pending *)
| UpreadGuard
| Upgrading                      (** [upgrade] in its [try_upgrade] loop *)
| UpgradeDrop                    (** [try_upgrade] won, [drop(self)] pending *)
| DowngradeDrop.                 (** [try_downgrade] won, [drop(self)] pending *)

#[global] Instance token_eq_dec : EqDecision token.
Proof. solve_decision. Defined.

(** What the owner of a guard decides to do next; a call in progress only has
    [Continue]. *)
Inductive action : Type := Continue | Drop | Upgrade | TryUpgrade | Downgrade.

(** A failed attempt: the blocking method starts over, the other returns. *)
Definition retry (spin : bool) (t : bool → token) : list token :=
  if spin then [t true] else [].

(** ** The methods, one atomic access at a time *)

(** [let lock = self.lock.fetch_add(READER, Acquire); if lock & (WRITER |
    MAX_READER | BEING_UPGRADED) == 0 { guard } else { fetch_sub .. }] *)
Definition try_read (spin : bool) (lk : Z) : list token * Z :=
  let '(lock, lk') := fetch_add lk READER in
  if Z.land lock (Z.lor (Z.lor WRITER MAX_READER) BEING_UPGRADED) =? 0
  then ([ReadGuard], lk')
  else ([TryReadUndo spin], lk').

Definition try_read_undo (spin : bool) (lk : Z) : list token * Z :=
  (retry spin TryRead, (fetch_sub lk READER).2).

Definition try_write (spin : bool) (lk : Z) : list token * Z :=
  let '(ok, lk') := compare_exchange lk 0 WRITER in
  (if ok : bool then [WriteGuard] else retry spin TryWrite, lk').

Definition try_upread (spin : bool) (lk : Z) : list token * Z :=
  let '(old, lk') := fetch_or lk UPGRADEABLE_READER in
  let lock := Z.land old (Z.lor WRITER UPGRADEABLE_READER) in
  if lock =? 0 then ([UpreadGuard], lk')
  else if lock =? WRITER then ([TryUpreadUndo spin], lk')
  else (retry spin TryUpread, lk').

Definition try_upread_undo (spin : bool) (lk : Z) : list token * Z :=
  (retry spin TryUpread, (fetch_sub lk UPGRADEABLE_READER).2).

Definition drop_read (lk : Z) : list token * Z := ([], (fetch_sub lk READER).2).

Definition drop_write (lk : Z) : list token * Z :=
  ([], (fetch_and lk (bit_not USIZE_BITS WRITER)).2).

Definition drop_upread (lk : Z) : list token * Z :=
  ([], (fetch_sub lk UPGRADEABLE_READER).2).

Definition upgrade (lk : Z) : list token * Z :=
  ([Upgrading], (fetch_or lk BEING_UPGRADED).2).

(** [on_err] is the guard handed back when the exchange fails. *)
Definition try_upgrade (on_err : token) (lk : Z) : list token * Z :=
  let '(ok, lk') := compare_exchange lk
    (Z.lor UPGRADEABLE_READER BEING_UPGRADED) (Z.lor WRITER UPGRADEABLE_READER) in
  (if ok : bool then [UpgradeDrop] else [on_err], lk').

(** The [drop(self)] of the upgradeable guard inside [try_upgrade]. *)
Definition upgrade_drop (lk : Z) : list token * Z :=
  ([WriteGuard], (fetch_sub lk UPGRADEABLE_READER).2).

Definition try_downgrade (lk : Z) : list token * Z :=
  let '(ok, lk') := compare_exchange lk WRITER UPGRADEABLE_READER in
  (if ok : bool then [DowngradeDrop] else [WriteGuard], lk').

(** The [drop(self)] of the write guard inside [try_downgrade]. *)
Definition downgrade_drop (lk : Z) : list token * Z :=
  ([UpreadGuard], (fetch_and lk (bit_not USIZE_BITS WRITER)).2).

(** The next atomic access of a token; [dg] says whether the lock has
    [downgrade] ([RwMutex] has, [RwLock] has not). *)
Definition next (dg : bool) (a : action) (t : token) (lk : Z) : option (list token * Z) :=
  match t, a with
  | TryRead spin, Continue => Some (try_read spin lk)
  | TryReadUndo spin, Continue => Some (try_read_undo spin lk)
  | TryWrite spin, Continue => Some (try_write spin lk)
  | TryUpread spin, Continue => Some (try_upread spin lk)
  | TryUpreadUndo spin, Continue => Some (try_upread_undo spin lk)
  | Upgrading, Continue => Some (try_upgrade Upgrading lk)
  | UpgradeDrop, Continue => Some (upgrade_drop lk)
  | DowngradeDrop, Continue => Some (downgrade_drop lk)
  | ReadGuard, Drop => Some (drop_read lk)
  | WriteGuard, Drop => Some (drop_write lk)
  | UpreadGuard, Drop => Some (drop_upread lk)
  | UpreadGuard, Upgrade => Some (upgrade lk)
  | UpreadGuard, TryUpgrade => Some (try_upgrade UpreadGuard lk)
  | WriteGuard, Downgrade => if dg then Some (try_downgrade lk) else None
  | _, _ => None
  end.

Record state : Type := mk { lock : Z; tokens : list token }.

(** [RwLock::new] *)
Definition new : state := mk 0 [].

(** A new call enters the machine. *)
Definition is_call (t : token) : bool :=
  match t with TryRead _ | TryWrite _ | TryUpread _ => true | _ => false end.

(** A call in progress, as opposed to a guard. *)
Definition in_flight (t : token) : bool :=
  match t with
  | TryRead _ | TryReadUndo _ | TryWrite _ | TryUpread _ | TryUpreadUndo _ => true
  | _ => false
  end.

(** [sum f ts] adds up [f] over the tokens. *)
Fixpoint sum (f : token → Z) (ts : list token) : Z :=
  match ts with [] => 0 | t :: ts => f t + sum f ts end.

Definition b2z (b : bool) : Z := if b then 1 else 0.

(** One atomic access of one token, or the start of a call.  A thread runs one
    call at a time, so the calls in flight are at most the threads of the
    system, [max_threads]. *)
Inductive step (dg : bool) (max_threads : Z) : state → state → Prop :=
| step_call s t :
    is_call t = true →
    sum (b2z ∘ in_flight) (tokens s) < max_threads →
    step dg max_threads s (mk (lock s) (t :: tokens s))
| step_token lk l1 t l2 a ts lk' :
    next dg a t lk = Some (ts, lk') →
    step dg max_threads (mk lk (l1 ++ t :: l2)) (mk lk' (l1 ++ ts ++ l2)).

Definition reachable (dg : bool) (max_threads : Z) (s : state) : Prop :=
  rtc (step dg max_threads) new s.

(** ** Views of the tokens *)

Definition rd (t : token) : Z := match t with ReadGuard => 1 | _ => 0 end.
Definition ru (t : token) : Z := match t with TryReadUndo _ => 1 | _ => 0 end.
Definition wr (t : token) : Z :=
  match t with WriteGuard | UpgradeDrop => 1 | _ => 0 end.
Definition up (t : token) : Z :=
  match t with
  | TryUpreadUndo _ | UpreadGuard | Upgrading | UpgradeDrop | DowngradeDrop => 1
  | _ => 0
  end.
Definition bu (t : token) : Z := match t with Upgrading => 1 | _ => 0 end.
(** Shared access through an upgradeable guard. *)
Definition ush (t : token) : Z :=
  match t with UpreadGuard | Upgrading | DowngradeDrop => 1 | _ => 0 end.

Definition readers (s : state) : Z := sum rd (tokens s).
Definition writers (s : state) : Z := sum wr (tokens s).
Definition upreaders (s : state) : Z := sum ush (tokens s).

(** The word the tokens account for. *)
Definition word_of (ts : list token) : Z :=
  sum rd ts + sum ru ts + 2 ^ 61 * sum bu ts + 2 ^ 62 * sum up ts + 2 ^ 63 * sum wr ts.

Record inv (max_threads : Z) (s : state) : Prop := {
  inv_word : lock s = word_of (tokens s);
  inv_wr : sum wr (tokens s) ≤ 1;
  inv_up : sum up (tokens s) ≤ 1;
  inv_rd : sum rd (tokens s) ≤ 2 ^ 60;
  inv_fl : sum (b2z ∘ in_flight) (tokens s) ≤ max_threads;
  inv_excl : sum wr (tokens s) = 1 → sum rd (tokens s) = 0 ∧ sum ush (tokens s) = 0
}.

(** ** Lemmas on sums *)

Lemma sum_app f l1 l2 : sum f (l1 ++ l2) = sum f l1 + sum f l2.
Proof. induction l1 as [|t l1 IH]; simpl; lia. Qed.

Lemma sum_le f g ts : (∀ t, 0 ≤ f t ≤ g t) → 0 ≤ sum f ts ≤ sum g ts.
Proof. intros H. induction ts as [|t ts IH]; simpl; [lia |]. specialize (H t). lia. Qed.

Lemma sum_perm f ts ts' : ts ≡ₚ ts' → sum f ts = sum f ts'.
Proof. induction 1; simpl; lia. Qed.

(** The pointwise facts that relate the views, for any list of tokens. *)
Lemma sum_facts ts :
  0 ≤ sum rd ts ∧ 0 ≤ sum wr ts ∧
  0 ≤ sum ru ts ≤ sum (b2z ∘ in_flight) ts ∧
  0 ≤ sum bu ts ≤ sum ush ts ∧ sum ush ts ≤ sum up ts.
Proof.
  split; [apply (sum_le rd rd); by intros [] |].
  split; [apply (sum_le wr wr); by intros [] |].
  split; [apply sum_le; by intros [] |].
  split; [apply sum_le; by intros [] |].
  apply (sum_le ush up). by intros [].
Qed.

(** ** Lemmas on the word *)

(** Fields of a word in normal form. *)
Record fields (lk r b u w : Z) : Prop := {
  f_eq : lk = r + 2 ^ 61 * b + 2 ^ 62 * u + 2 ^ 63 * w;
  f_r : 0 ≤ r < 2 ^ 61; f_b : 0 ≤ b ≤ 1; f_u : 0 ≤ u ≤ 1; f_w : 0 ≤ w ≤ 1
}.

Lemma testbit_div x k : 0 ≤ k → Z.testbit x k = Z.odd (x / 2 ^ k).
Proof. intros. by rewrite Z.testbit_odd, Z.shiftr_div_pow2. Qed.

Lemma fields_bits lk r b u w :
  fields lk r b u w →
  Z.testbit lk 63 = (w =? 1) ∧ Z.testbit lk 62 = (u =? 1) ∧
  Z.testbit lk 61 = (b =? 1) ∧ Z.testbit lk 60 = (2 ^ 60 <=? r).
Proof.
  intros [-> Hr Hb Hu Hw]. rewrite !testbit_div by lia.
  assert (r / 2 ^ 60 = if 2 ^ 60 <=? r then 1 else 0) as Hr60.
  { symmetry. bool_cases; [apply (Z.div_unique _ _ _ (r - 2 ^ 60)) | apply (Z.div_unique _ _ _ r)]; lia. }
  set (x := r + 2 ^ 61 * b + 2 ^ 62 * u + 2 ^ 63 * w).
  assert (x / 2 ^ 63 = w) as ->
    by (symmetry; apply (Z.div_unique _ _ _ (r + 2 ^ 61 * b + 2 ^ 62 * u)); lia).
  assert (x / 2 ^ 62 = u + 2 * w) as ->
    by (symmetry; apply (Z.div_unique _ _ _ (r + 2 ^ 61 * b)); lia).
  assert (x / 2 ^ 61 = b + 2 * (u + 2 * w)) as ->
    by (symmetry; apply (Z.div_unique _ _ _ r); lia).
  assert (x / 2 ^ 60 = r / 2 ^ 60 + 2 * (b + 2 * u + 4 * w)) as ->.
  { unfold x. replace (r + 2 ^ 61 * b + 2 ^ 62 * u + 2 ^ 63 * w)
      with (r + (2 * (b + 2 * u + 4 * w)) * 2 ^ 60) by lia.
    rewrite Z.div_add by lia. done. }
  rewrite !Z.odd_add_mul_2, Hr60.
  assert (w = 0 ∨ w = 1) as [-> | ->] by lia; assert (u = 0 ∨ u = 1) as [-> | ->] by lia;
    assert (b = 0 ∨ b = 1) as [-> | ->] by lia; bool_cases; repeat split; done || lia.
Qed.

Lemma land_pow2 x k :
  0 ≤ k → Z.land x (2 ^ k) = if Z.testbit x k then 2 ^ k else 0.
Proof.
  intros Hk. apply Z.bits_inj'. intros i Hi.
  rewrite Z.land_spec, Z.pow2_bits_eqb by done.
  destruct (Z.eqb_spec k i) as [->|Hne].
  - destruct (Z.testbit x i); simpl; [by rewrite Z.pow2_bits_true | by rewrite Z.bits_0].
  - rewrite andb_false_r. destruct (Z.testbit x k);
      [by rewrite Z.pow2_bits_false | by rewrite Z.bits_0].
Qed.

Lemma lor_pow2 x k :
  0 ≤ k → Z.lor x (2 ^ k) = if Z.testbit x k then x else x + 2 ^ k.
Proof.
  intros Hk. destruct (Z.testbit x k) eqn:Hb.
  - apply Z.bits_inj'. intros i Hi. rewrite Z.lor_spec, Z.pow2_bits_eqb by done.
    destruct (Z.eqb_spec k i) as [<-|]; [by rewrite Hb | by rewrite orb_false_r].
  - assert (Hl : Z.land x (2 ^ k) = 0) by (rewrite land_pow2, Hb; done).
    by rewrite Z.add_nocarry_lxor, Z.lxor_lor.
Qed.

(** The test of [try_read]. *)
Lemma read_mask lk r b u w :
  fields lk r b u w →
  (Z.land lk (Z.lor (Z.lor WRITER MAX_READER) BEING_UPGRADED) =? 0) =
  (w =? 0) && (b =? 0) && (r <? 2 ^ 60).
Proof.
  intros Hf. destruct (fields_bits _ _ _ _ _ Hf) as (H63 & _ & H61 & H60).
  change WRITER with (2 ^ 63). change MAX_READER with (2 ^ 60).
  change BEING_UPGRADED with (2 ^ 61).
  rewrite !Z.land_lor_distr_r, !land_pow2, H63, H61, H60 by lia.
  destruct Hf as [_ Hr Hb Hu Hw]. bool_cases; simpl; done || lia.
Qed.

(** The two tests of [try_upread]. *)
Lemma upread_mask lk r b u w :
  fields lk r b u w →
  Z.land lk (Z.lor WRITER UPGRADEABLE_READER) = 2 ^ 63 * w + 2 ^ 62 * u.
Proof.
  intros Hf. destruct (fields_bits _ _ _ _ _ Hf) as (H63 & H62 & _ & _).
  change WRITER with (2 ^ 63). change UPGRADEABLE_READER with (2 ^ 62).
  rewrite !Z.land_lor_distr_r, !land_pow2, H63, H62 by lia.
  destruct Hf as [_ Hr Hb Hu Hw].
  assert (w = 0 ∨ w = 1) as [-> | ->] by lia; assert (u = 0 ∨ u = 1) as [-> | ->] by lia; done.
Qed.

Lemma or_up lk r b u w :
  fields lk r b u w → Z.lor lk UPGRADEABLE_READER = lk + 2 ^ 62 * (1 - u).
Proof.
  intros Hf. destruct (fields_bits _ _ _ _ _ Hf) as (_ & H62 & _ & _).
  change UPGRADEABLE_READER with (2 ^ 62). rewrite lor_pow2, H62 by lia.
  destruct Hf. bool_cases; lia.
Qed.

Lemma or_bu lk r b u w :
  fields lk r b u w → Z.lor lk BEING_UPGRADED = lk + 2 ^ 61 * (1 - b).
Proof.
  intros Hf. destruct (fields_bits _ _ _ _ _ Hf) as (_ & _ & H61 & _).
  change BEING_UPGRADED with (2 ^ 61). rewrite lor_pow2, H61 by lia.
  destruct Hf. bool_cases; lia.
Qed.

(** The release of the writer bit. *)
Lemma and_not_writer lk r b u w :
  fields lk r b u w → Z.land lk (bit_not USIZE_BITS WRITER) = lk - 2 ^ 63 * w.
Proof.
  intros Hf. change (bit_not USIZE_BITS WRITER) with (Z.ones 63).
  rewrite Z.land_ones by lia. destruct Hf.
  symmetry. apply (Z.mod_unique _ _ w); lia.
Qed.

Lemma wrap_small lk : 0 ≤ lk < 2 ^ 64 → lk mod 2 ^ USIZE_BITS = lk.
Proof. apply Z.mod_small. Qed.

(** ** The invariant *)

Section Invariant.
Context (dg : bool) (max_threads : Z) (Hthreads : 0 ≤ max_threads < 2 ^ 60).

Lemma inv_fields s :
  inv max_threads s →
  fields (lock s) (sum rd (tokens s) + sum ru (tokens s))
    (sum bu (tokens s)) (sum up (tokens s)) (sum wr (tokens s)).
Proof.
  intros [Hw H1 H2 H3 H4 H5]. pose proof (sum_facts (tokens s)).
  split; [unfold word_of in Hw | ..]; lia.
Qed.

Lemma inv_new : inv max_threads new.
Proof. split; simpl; unfold word_of; simpl; lia. Qed.

(** The order of the tokens does not matter. *)
Lemma inv_perm lk ts ts' :
  ts ≡ₚ ts' → inv max_threads (mk lk ts) → inv max_threads (mk lk ts').
Proof.
  intros Hp [Hw H1 H2 H3 H4 H5]. unfold word_of in *. simpl in *.
  rewrite !(sum_perm _ _ _ Hp) in *. by split.
Qed.

Lemma inv_call s t :
  inv max_threads s → is_call t = true → sum (b2z ∘ in_flight) (tokens s) < max_threads →
  inv max_threads (mk (lock s) (t :: tokens s)).
Proof.
  intros [Hw H1 H2 H3 H4 H5] Hc Hlt.
  destruct t; try done; split; unfold word_of in *; simpl; unfold b2z in *; simpl; lia.
Qed.

(** What an access does to the word and the tokens, in terms of the decoded
    fields.  [acts] collects the conditions under which replacing token [t] by
    [ts] and the word by [lk'] keeps the invariant, whatever the other tokens
    [r]. *)
Lemma inv_replace lk t r ts lk' :
  inv max_threads (mk lk (t :: r)) →
  lk' = lk - word_of [t] + word_of ts →
  sum (b2z ∘ in_flight) ts ≤ b2z (in_flight t) →
  sum wr ts + sum wr r ≤ 1 → sum up ts + sum up r ≤ 1 → sum rd ts + sum rd r ≤ 2 ^ 60 →
  (sum wr ts + sum wr r = 1 → sum rd ts + sum rd r = 0 ∧ sum ush ts + sum ush r = 0) →
  inv max_threads (mk lk' (ts ++ r)).
Proof.
  intros [Hw H1 H2 H3 H4 H5] Hlk Hfl Hwr Hup Hrd Hex.
  unfold word_of in *. simpl in *.
  split; unfold word_of; simpl; rewrite ?sum_app; lia || done.
Qed.

Ltac unfold_word := unfold word_of in *; simpl in *; unfold b2z in *; simpl in *.

Ltac decide_bools :=
  repeat match goal with
    | H : (_ && _)%bool = true |- _ => apply andb_prop in H as [? ?]
    | H : (_ =? _) = true |- _ => apply Z.eqb_eq in H
    | H : (_ =? _) = false |- _ => apply Z.eqb_neq in H
    | H : (_ <? _) = true |- _ => apply Z.ltb_lt in H
    end.

(** Close one case: the invariant of the old state and the facts about the other
    tokens are linear. *)
Ltac close_case Hinv r :=
  pose proof (sum_facts r);
  eapply inv_replace; [exact Hinv | ..];
  destruct Hinv as [? ? ? ? ? ?]; unfold_word; decide_bools;
  try (rewrite wrap_small by lia); lia.

Lemma inv_try_read lk sp r :
  inv max_threads (mk lk (TryRead sp :: r)) →
  inv max_threads (mk (try_read sp lk).2 ((try_read sp lk).1 ++ r)).
Proof.
  intros Hinv. pose proof (inv_fields _ Hinv) as Hf. simpl in Hf.
  unfold try_read, fetch_add, wrapping_add. rewrite (read_mask _ _ _ _ _ Hf).
  change READER with 1. destruct Hf. destruct (_ && _)%bool eqn:?; cbn [fst snd retry]; close_case Hinv r.
Qed.

Lemma inv_try_read_undo lk sp r :
  inv max_threads (mk lk (TryReadUndo sp :: r)) →
  inv max_threads (mk (try_read_undo sp lk).2 ((try_read_undo sp lk).1 ++ r)).
Proof.
  intros Hinv. pose proof (inv_fields _ Hinv) as Hf. simpl in Hf. destruct Hf.
  unfold try_read_undo, fetch_sub, wrapping_sub. change READER with 1.
  destruct sp; cbn [fst snd retry]; close_case Hinv r.
Qed.

Lemma inv_try_write lk sp r :
  inv max_threads (mk lk (TryWrite sp :: r)) →
  inv max_threads (mk (try_write sp lk).2 ((try_write sp lk).1 ++ r)).
Proof.
  intros Hinv. pose proof (inv_fields _ Hinv) as Hf. simpl in Hf. destruct Hf.
  unfold try_write, compare_exchange. change WRITER with (2 ^ 63).
  destruct (lk =? 0) eqn:?; destruct sp; cbn [fst snd retry]; close_case Hinv r.
Qed.

Lemma inv_try_upread lk sp r :
  inv max_threads (mk lk (TryUpread sp :: r)) →
  inv max_threads (mk (try_upread sp lk).2 ((try_upread sp lk).1 ++ r)).
Proof.
  intros Hinv. pose proof (inv_fields _ Hinv) as Hf. simpl in Hf.
  unfold try_upread, fetch_or. rewrite (upread_mask _ _ _ _ _ Hf), (or_up _ _ _ _ _ Hf).
  change WRITER with (2 ^ 63). destruct Hf.
  destruct (_ =? 0) eqn:?; [| destruct (_ =? 2 ^ 63) eqn:?]; destruct sp; cbn [fst snd retry]; close_case Hinv r.
Qed.

Lemma inv_try_upread_undo lk sp r :
  inv max_threads (mk lk (TryUpreadUndo sp :: r)) →
  inv max_threads (mk (try_upread_undo sp lk).2 ((try_upread_undo sp lk).1 ++ r)).
Proof.
  intros Hinv. pose proof (inv_fields _ Hinv) as Hf. simpl in Hf. destruct Hf.
  unfold try_upread_undo, fetch_sub, wrapping_sub. change UPGRADEABLE_READER with (2 ^ 62).
  destruct sp; cbn [fst snd retry]; close_case Hinv r.
Qed.

Lemma inv_drop_read lk r :
  inv max_threads (mk lk (ReadGuard :: r)) →
  inv max_threads (mk (drop_read lk).2 ((drop_read lk).1 ++ r)).
Proof.
  intros Hinv. pose proof (inv_fields _ Hinv) as Hf. simpl in Hf. destruct Hf.
  unfold drop_read, fetch_sub, wrapping_sub. change READER with 1. cbn [fst snd retry]. close_case Hinv r.
Qed.

Lemma inv_drop_write lk r :
  inv max_threads (mk lk (WriteGuard :: r)) →
  inv max_threads (mk (drop_write lk).2 ((drop_write lk).1 ++ r)).
Proof.
  intros Hinv. pose proof (inv_fields _ Hinv) as Hf. simpl in Hf.
  unfold drop_write, fetch_and. rewrite (and_not_writer _ _ _ _ _ Hf). destruct Hf.
  cbn [fst snd retry]. close_case Hinv r.
Qed.

Lemma inv_drop_upread lk r :
  inv max_threads (mk lk (UpreadGuard :: r)) →
  inv max_threads (mk (drop_upread lk).2 ((drop_upread lk).1 ++ r)).
Proof.
  intros Hinv. pose proof (inv_fields _ Hinv) as Hf. simpl in Hf. destruct Hf.
  unfold drop_upread, fetch_sub, wrapping_sub. change UPGRADEABLE_READER with (2 ^ 62).
  cbn [fst snd retry]. close_case Hinv r.
Qed.

Lemma inv_upgrade lk r :
  inv max_threads (mk lk (UpreadGuard :: r)) →
  inv max_threads (mk (upgrade lk).2 ((upgrade lk).1 ++ r)).
Proof.
  intros Hinv. pose proof (inv_fields _ Hinv) as Hf. simpl in Hf.
  unfold upgrade, fetch_or. rewrite (or_bu _ _ _ _ _ Hf). destruct Hf.
  cbn [fst snd retry]. close_case Hinv r.
Qed.

Lemma inv_try_upgrade lk t r :
  t = UpreadGuard ∨ t = Upgrading →
  inv max_threads (mk lk (t :: r)) →
  inv max_threads (mk (try_upgrade t lk).2 ((try_upgrade t lk).1 ++ r)).
Proof.
  intros Ht Hinv. pose proof (inv_fields _ Hinv) as Hf. simpl in Hf. destruct Hf.
  unfold try_upgrade, compare_exchange.
  change (Z.lor UPGRADEABLE_READER BEING_UPGRADED) with (2 ^ 62 + 2 ^ 61).
  change (Z.lor WRITER UPGRADEABLE_READER) with (2 ^ 63 + 2 ^ 62).
  destruct (_ =? _) eqn:?; destruct Ht as [-> | ->]; cbn [fst snd retry]; close_case Hinv r.
Qed.

Lemma inv_upgrade_drop lk r :
  inv max_threads (mk lk (UpgradeDrop :: r)) →
  inv max_threads (mk (upgrade_drop lk).2 ((upgrade_drop lk).1 ++ r)).
Proof.
  intros Hinv. pose proof (inv_fields _ Hinv) as Hf. simpl in Hf. destruct Hf.
  unfold upgrade_drop, fetch_sub, wrapping_sub. change UPGRADEABLE_READER with (2 ^ 62).
  cbn [fst snd retry]. close_case Hinv r.
Qed.

Lemma inv_try_downgrade lk r :
  inv max_threads (mk lk (WriteGuard :: r)) →
  inv max_threads (mk (try_downgrade lk).2 ((try_downgrade lk).1 ++ r)).
Proof.
  intros Hinv. pose proof (inv_fields _ Hinv) as Hf. simpl in Hf. destruct Hf.
  unfold try_downgrade, compare_exchange.
  change UPGRADEABLE_READER with (2 ^ 62). change WRITER with (2 ^ 63).
  destruct (_ =? _) eqn:?; cbn [fst snd retry]; close_case Hinv r.
Qed.

Lemma inv_downgrade_drop lk r :
  inv max_threads (mk lk (DowngradeDrop :: r)) →
  inv max_threads (mk (downgrade_drop lk).2 ((downgrade_drop lk).1 ++ r)).
Proof.
  intros Hinv. pose proof (inv_fields _ Hinv) as Hf. simpl in Hf.
  unfold downgrade_drop, fetch_and. rewrite (and_not_writer _ _ _ _ _ Hf). destruct Hf.
  cbn [fst snd retry]. close_case Hinv r.
Qed.

#[local] Hint Resolve inv_try_read inv_try_read_undo inv_try_write inv_try_upread
  inv_try_upread_undo inv_drop_read inv_drop_write inv_drop_upread inv_upgrade
  inv_try_upgrade inv_upgrade_drop inv_try_downgrade inv_downgrade_drop : omega.

Lemma inv_next a t lk r p :
  next dg a t lk = Some p →
  inv max_threads (mk lk (t :: r)) → inv max_threads (mk p.2 (p.1 ++ r)).
Proof.
  intros Hn Hinv.
  destruct t, a; cbn [next] in Hn; try discriminate Hn;
    try (destruct dg; [| discriminate Hn]);
    apply (inj Some) in Hn; subst p; auto with omega.
Qed.

Lemma inv_step s s' :
  inv max_threads s → step dg max_threads s s' → inv max_threads s'.
Proof.
  intros Hinv Hstep. destruct Hstep as [s t Hc Hlt|lk l1 t l2 a ts lk' Hn].
  - by apply inv_call.
  - apply (inv_perm _ (ts ++ (l1 ++ l2))); [apply Permutation_app_swap_app |].
    eapply (inv_next _ _ _ _ (ts, lk')); [done |]. eapply inv_perm; [| done]. by rewrite Permutation_middle.
Qed.

Lemma inv_reachable s : reachable dg max_threads s → inv max_threads s.
Proof. apply rtc_preserves; [apply inv_new | intros ??; apply inv_step]. Qed.

End Invariant.

(** ** Executable schedules *)

(** A scheduler decision: start a call, or let the token at a position act. *)
Inductive move : Type := Call (t : token) | Act (i : nat) (a : action).

Definition exec_move (dg : bool) (max_threads : Z) (s : state) (m : move) : option state :=
  match m with
  | Call t =>
      if is_call t && (sum (b2z ∘ in_flight) (tokens s) <? max_threads)
      then Some (mk (lock s) (t :: tokens s)) else None
  | Act i a =>
      tokens s !! i ≫= λ t, next dg a t (lock s) ≫= λ '(ts, lk'),
      Some (mk lk' (take i (tokens s) ++ ts ++ drop (S i) (tokens s)))
  end.

Definition exec (dg : bool) (max_threads : Z) (ms : list move) (s : state) : option state :=
  foldl (λ os m, os ≫= λ s, exec_move dg max_threads s m) (Some s) ms.

Lemma exec_move_step dg n s m s' : exec_move dg n s m = Some s' → step dg n s s'.
Proof.
  destruct m as [t|i a]; simpl.
  - destruct (is_call t && _) eqn:Hc; [| done]. intros [= <-].
    apply andb_prop in Hc as [? ?%Z.ltb_lt]. by constructor.
  - intros (t & Ht & ([ts lk'] & Hn & [= <-])%bind_Some)%bind_Some.
    destruct s as [lk toks]. simpl in *.
    replace (mk lk toks) with (mk lk (take i toks ++ t :: drop (S i) toks))
      by (f_equal; by apply take_drop_middle).
    by econstructor.
Qed.

Lemma exec_reachable dg n ms s :
  exec dg n ms new = Some s → reachable dg n s.
Proof.
  unfold reachable, exec. generalize new. induction ms as [|m ms IH]; simpl; intros s0.
  - intros [= ->]. done.
  - destruct (exec_move dg n s0 m) as [s1|] eqn:Hm.
    + intros Hs. eapply rtc_l; [by eapply exec_move_step | by apply IH].
    + intros Hs. exfalso. clear -Hs. induction ms as [|m ms IH]; simpl in Hs; [done | auto].
Qed.

(** ** Properties *)

(** [C1] Mutual exclusion of the read-write lock word under every interleaving
    of the atomic accesses of concurrent [read], [write], [upread], [upgrade],
    [downgrade] and drop calls, with fewer than 2^60 calls in flight: at most
    one writer, at most one upgradeable reader, and a writer excludes every
    reader and upgradeable reader. *)
Theorem rw_exclusion dg max_threads s :
  0 ≤ max_threads < 2 ^ 60 → reachable dg max_threads s →
  writers s ≤ 1 ∧ upreaders s ≤ 1 ∧
  (writers s = 1 → readers s = 0 ∧ upreaders s = 0).
Proof.
  intros Ht Hr. destruct (inv_reachable dg max_threads Ht s Hr) as [_ ? ? _ _ ?].
  pose proof (sum_facts (tokens s)). unfold writers, upreaders, readers. repeat split; lia || naive_solver.
Qed.

(** The lock word never loses track: in every reachable state it is exactly
    the sum of what the held guards and the unfinished calls account for, and
    the reader count stays below bit 61, so it never carries into the flag
    bits; at most 2^60 read guards exist. *)
Theorem rw_word_exact dg max_threads s :
  0 ≤ max_threads < 2 ^ 60 → reachable dg max_threads s →
  lock s = word_of (tokens s) ∧ readers s ≤ 2 ^ 60 ∧
  0 ≤ readers s + sum ru (tokens s) < 2 ^ 61.
Proof.
  intros Ht Hr. pose proof (inv_reachable dg max_threads Ht s Hr) as Hinv.
  pose proof (f_r _ _ _ _ _ (inv_fields _ Ht _ Hinv)).
  destruct Hinv. unfold readers. auto.
Qed.

(** No leak: once all guards are dropped and all calls have returned the
    word is zero, whatever happened before, and each of the three attempts
    succeeds at once. *)
Theorem rw_quiescent dg max_threads lk :
  0 ≤ max_threads < 2 ^ 60 → reachable dg max_threads (mk lk []) →
  lk = 0 ∧ ∀ spin, (try_read spin lk).1 = [ReadGuard] ∧
    (try_write spin lk).1 = [WriteGuard] ∧ (try_upread spin lk).1 = [UpreadGuard].
Proof.
  intros Ht Hr. destruct (inv_reachable dg max_threads Ht _ Hr) as [Hw _ _ _ _ _].
  simpl in Hw. unfold word_of in Hw. simpl in Hw. subst lk. done.
Qed.

(** While an upgrade is in progress no new reader, writer or upgradeable
    reader gets in, and as soon as the last reader (and unfinished read
    attempt) is gone the upgrade succeeds with its next exchange. *)
Theorem rw_upgrade_progress dg max_threads lk l1 l2 spin :
  0 ≤ max_threads < 2 ^ 60 → reachable dg max_threads (mk lk (l1 ++ Upgrading :: l2)) →
  (try_read spin lk).1 = [TryReadUndo spin] ∧
  (try_write spin lk).1 = retry spin TryWrite ∧
  (try_upread spin lk).1 = retry spin TryUpread ∧
  (sum rd (l1 ++ l2) + sum ru (l1 ++ l2) = 0 →
   (try_upgrade Upgrading lk).1 = [UpgradeDrop]).
Proof.
  intros Ht Hr. pose proof (inv_reachable dg max_threads Ht _ Hr) as Hinv.
  pose proof (inv_fields _ Ht _ Hinv) as Hf.
  unfold try_read, try_write, try_upread, try_upgrade, fetch_add, fetch_or, compare_exchange.
  simpl in Hf. rewrite (read_mask _ _ _ _ _ Hf), (upread_mask _ _ _ _ _ Hf).
  change (Z.lor UPGRADEABLE_READER BEING_UPGRADED) with (2 ^ 62 + 2 ^ 61).
  change WRITER with (2 ^ 63).
  destruct Hf as [Hfe ? ? ? ?]. destruct Hinv as [? ? ? ? ? ?].
  simpl in *. rewrite !sum_app in *. simpl in *.
  pose proof (sum_facts l1). pose proof (sum_facts l2).
  split; [| split; [| split]]; bool_cases; try done; try lia.
Qed.

(** A bare [try_upgrade] never succeeds: on a guard for which [upgrade]
    was not called the exchange expects the [BEING_UPGRADED] bit, which only
    [upgrade] sets, so the call always hands the guard back, even when the
    caller is the only user of the lock. *)
Theorem rw_bare_try_upgrade_fails dg max_threads lk l1 l2 :
  0 ≤ max_threads < 2 ^ 60 → reachable dg max_threads (mk lk (l1 ++ UpreadGuard :: l2)) →
  try_upgrade UpreadGuard lk = ([UpreadGuard], lk).
Proof.
  intros Ht Hr. pose proof (inv_reachable dg max_threads Ht _ Hr) as Hinv.
  pose proof (inv_fields _ Ht _ Hinv) as [Hfe ? ? ? ?]. destruct Hinv as [? ? ? ? ? ?].
  unfold try_upgrade, compare_exchange.
  change (Z.lor UPGRADEABLE_READER BEING_UPGRADED) with (2 ^ 62 + 2 ^ 61).
  simpl in *. rewrite !sum_app in *. simpl in *.
  pose proof (sum_facts l1). pose proof (sum_facts l2).
  bool_cases; [lia | done].
Qed.

(** *** Concrete schedules *)

(** Two readers and an upgradeable reader get in; a spinning writer waits. *)
Definition shared_schedule : list move :=
  [Call (TryRead false); Act 0 Continue; Call (TryRead false); Act 0 Continue;
   Call (TryUpread false); Act 0 Continue; Call (TryWrite true); Act 0 Continue].

Definition shared_state : state :=
  mk (2 ^ 62 + 2) [TryWrite true; UpreadGuard; ReadGuard; ReadGuard].

Lemma shared_reachable dg : reachable dg 8 shared_state.
Proof. apply (exec_reachable _ _ shared_schedule). destruct dg; reflexivity. Defined.

Lemma rw_exclusion_witness :
  writers shared_state ≤ 1 ∧ upreaders shared_state ≤ 1 ∧
  (writers shared_state = 1 → readers shared_state = 0 ∧ upreaders shared_state = 0).
Proof. apply (rw_exclusion false 8 shared_state); [lia | apply shared_reachable]. Defined.

Lemma rw_word_exact_witness :
  lock shared_state = word_of (tokens shared_state) ∧ readers shared_state ≤ 2 ^ 60 ∧
  0 ≤ readers shared_state + sum ru (tokens shared_state) < 2 ^ 61.
Proof. apply (rw_word_exact true 8 shared_state); [lia | apply shared_reachable]. Defined.

(** A writer holds the lock, a reader and an upgradeable reader attempt and have
    to undo, the writer drops between their two accesses. *)
Definition undo_schedule : list move :=
  [Call (TryWrite false); Act 0 Continue; Call (TryRead false); Act 0 Continue;
   Call (TryUpread false); Act 0 Continue; Act 2 Drop; Act 0 Continue; Act 0 Continue].

Lemma rw_quiescent_witness :
  0 = 0 ∧ ∀ spin, (try_read spin 0).1 = [ReadGuard] ∧
    (try_write spin 0).1 = [WriteGuard] ∧ (try_upread spin 0).1 = [UpreadGuard].
Proof.
  apply (rw_quiescent false 8 0); [lia |].
  apply (exec_reachable _ _ undo_schedule). reflexivity.
Defined.

Definition upgrading_schedule : list move :=
  [Call (TryRead false); Act 0 Continue; Call (TryUpread false); Act 0 Continue; Act 0 Upgrade;
   Act 1 Drop].

Lemma rw_upgrade_progress_witness :
  (try_read true (2 ^ 62 + 2 ^ 61)).1 = [TryReadUndo true] ∧
  (try_write true (2 ^ 62 + 2 ^ 61)).1 = retry true TryWrite ∧
  (try_upread true (2 ^ 62 + 2 ^ 61)).1 = retry true TryUpread ∧
  (sum rd ([] ++ []) + sum ru ([] ++ []) = 0 →
   (try_upgrade Upgrading (2 ^ 62 + 2 ^ 61)).1 = [UpgradeDrop]).
Proof.
  apply (rw_upgrade_progress false 8 (2 ^ 62 + 2 ^ 61) [] [] true); [lia |].
  apply (exec_reachable _ _ upgrading_schedule). reflexivity.
Defined.

Lemma rw_bare_try_upgrade_fails_witness :
  try_upgrade UpreadGuard (2 ^ 62) = ([UpreadGuard], 2 ^ 62).
Proof.
  apply (rw_bare_try_upgrade_fails false 8 (2 ^ 62) [] []); [lia |].
  apply (exec_reachable _ _ [Call (TryUpread false); Act 0 Continue]). reflexivity.
Defined.

End RwWord.
