(* ===== verification/WaitQueue.v ===== *)
(** * Wait queues: [osxtd/src/sync/wait.rs]

    A [WaitQueue] is a deque of wakers behind a spin lock and a copy of its
    length, [num_wakers], that the fast path of [wake_one] and [wake_all] reads
    without the lock.  Each operation is split at its shared accesses, so that
    the interleaving between the push and the counter update, or between the
    pop and the wake-up, is visible to a machine built on top.  Wakers are
    named by their creation number; [woken] holds their [has_woken] flags.

    Parking is abstract: a parked thread can go on exactly when its [has_woken]
    flag is set, which is the contract of [scheduler::park_current] with the
    closure [has_woken.load()] and [scheduler::unpark_target]. *)

From S2P Require Import Prelude.
Local Open Scope Z_scope.

Module WaitQueue.

Record t : Type := mk {
  num_wakers : Z;
  wakers : list nat;
  locked : bool;        (** the spin lock around [wakers] *)
  woken : list bool     (** [has_woken] of every waker created so far *)
}.

(** [WaitQueue::new] *)
Definition new : t := mk 0 [] false [].

(** [has_woken] of a waker; a waker that was never created reads [true], the
    value of a closed one, and is never used. *)
Definition has_woken (q : t) (w : nat) : bool := default true (woken q !! w).

Definition set_woken (q : t) (w : nat) (b : bool) : t :=
  mk (num_wakers q) (wakers q) (locked q) (<[w:=b]> (woken q)).

(** [Waiter::new_pair] *)
Definition new_pair (q : t) : nat * t :=
  (length (woken q), mk (num_wakers q) (wakers q) (locked q) (woken q ++ [false])).

(** [enqueue]: take the spin lock and push; then count and release. *)
Definition enqueue_push (q : t) (w : nat) : option t :=
  if locked q then None
  else Some (mk (num_wakers q) (wakers q ++ [w]) true (woken q)).
Definition enqueue_count (q : t) : t :=
  mk (wrapping_add 32 (num_wakers q) 1) (wakers q) false (woken q).

(** [is_empty] *)
Definition is_empty (q : t) : bool := num_wakers q =? 0.

(** The body of the [wake_one] and [wake_all] loops: take the spin lock and pop;
    an empty deque releases the lock and ends the loop. *)
Definition pop_front (q : t) : option (option nat * t) :=
  if locked q then None
  else match wakers q with
       | [] => Some (None, q)
       | w :: ws => Some (Some w, mk (num_wakers q) ws true (woken q))
       end.
Definition pop_count (q : t) : t :=
  mk (wrapping_sub 32 (num_wakers q) 1) (wakers q) false (woken q).

(** [Waker::wake_up]: whether this call woke the waiter. *)
Definition wake_up (q : t) (w : nat) : bool * t :=
  (negb (has_woken q w), set_woken q w true).

(** One evaluation of the condition of the [do_wait] loop: whether the waiter
    had been woken. *)
Definition do_wait_swap (q : t) (w : nat) : bool * t :=
  (has_woken q w, set_woken q w false).

(** [Waker::close] *)
Definition close (q : t) (w : nat) : t := set_woken q w true.

(** ** The waiting side: [wait_until] after its first failed [cond()] *)
Inductive wpc : Type :=
| WNew                (** [Waiter::new_pair] *)
| WEnqueue (w : nat)  (** [self.enqueue(waiter.waker())] *)
| WCount (w : nat)    (** pushed, [fetch_add] pending *)
| WCond (w : nat)     (** the second [cond()] of the round *)
| WSwap (w : nat)     (** [do_wait] about to swap [has_woken] *)
| WParked (w : nat)   (** in [park_current] *)
| WClose (w : nat).   (** [cond()] held, dropping the waiter *)

(** Steps of the waiting side that do not run [cond]. *)
Definition wait_step (p : wpc) (q : t) : option (wpc * t) :=
  match p with
  | WNew => let '(w, q') := new_pair q in Some (WEnqueue w, q')
  | WEnqueue w => enqueue_push q w ≫= λ q', Some (WCount w, q')
  | WCount w => Some (WCond w, enqueue_count q)
  | WCond _ => None
  | WSwap w =>
      let '(b, q') := do_wait_swap q w in
      Some (if b : bool then WEnqueue w else WParked w, q')
  | WParked w => if has_woken q w then Some (WSwap w, q) else None
  | WClose _ => None
  end.

(** ** The waking side: [wake_one] ([all = false]) and [wake_all] *)
Inductive kpc : Type :=
| KCheck                (** the fast path [is_empty] *)
| KPop                  (** lock and [pop_front] *)
| KCount (w : nat)      (** popped, [fetch_sub] pending *)
| KWake (w : nat).      (** [waker.wake_up()] *)

(** [None]: blocked on the spin lock; [Some (None, _)]: the call returns. *)
Definition wake_step (all : bool) (p : kpc) (q : t) : option (option kpc * t) :=
  match p with
  | KCheck => Some (if is_empty q then None else Some KPop, q)
  | KPop =>
      pop_front q ≫= λ '(o, q'),
      Some (match o with Some w => Some (KCount w) | None => None end, q')
  | KCount w => Some (Some (KWake w), pop_count q)
  | KWake w =>
      let '(b, q') := wake_up q w in
      Some (if (b : bool) && negb all then None else Some KPop, q')
  end.

#[global] Instance wpc_eq_dec : EqDecision wpc.
Proof. solve_decision. Defined.
#[global] Instance kpc_eq_dec : EqDecision kpc.
Proof. solve_decision. Defined.

(** ** Lemmas *)

Lemma has_woken_set q w b v :
  (w < length (woken q))%nat →
  has_woken (set_woken q w b) v = if decide (v = w) then b else has_woken q v.
Proof.
  intros Hw. unfold has_woken, set_woken. simpl. case_decide as Hd.
  - subst. by rewrite list_lookup_insert_eq.
  - by rewrite list_lookup_insert_ne.
Qed.

End WaitQueue.
