(* ===== verification/Mutex.v ===== *)
(** * The sleeping mutex: [osxtd/src/sync/mutex.rs] over [wait.rs]

    A machine of any number of threads that call [lock], [try_lock] and drop
    the guard of one [Mutex].  A step is one shared access of one thread, the
    wait queue's accesses included, so that the machine has every interleaving
    of [wait_until] with [wake_one].  Sequential consistency is what the code
    arranges through the read-modify-write accesses to [num_wakers]. *)

From S2P Require Import Prelude WaitQueue.
Local Open Scope Z_scope.

Module Mutex.
Import WaitQueue.

Inductive tpc : Type :=
| TIdle
| TTryLock              (** [try_lock] about to exchange *)
| TTry                  (** [lock]: the first [cond()] of [wait_until] *)
| TWait (p : wpc)
| THold                 (** the guard is held *)
| TRelease              (** [unlock] about to [release_lock] *)
| TWake (p : kpc).

(** What an idle thread or a holder decides to do. *)
Inductive action : Type := Continue | CallLock | CallTryLock | CallUnlock.

(** [acquire_lock]: [compare_exchange(false, true)] *)
Definition acquire_lock (lk : bool) : bool * bool :=
  if lk then (false, true) else (true, true).

(** [release_lock]: [store(false)] *)
Definition release_lock (lk : bool) : bool := false.

(** [try_lock] as one call of its own. *)
Definition try_lock (lk : bool) : tpc * bool :=
  let '(ok, lk') := acquire_lock lk in
  (if ok : bool then THold else TIdle, lk').

(** [lock]: the first evaluation of the condition of [wait_until]. *)
Definition lock_first (lk : bool) : tpc * bool :=
  let '(ok, lk') := acquire_lock lk in
  (if ok : bool then THold else TWait WNew, lk').

(** [lock]: the evaluation after enqueueing; success drops the waiter. *)
Definition lock_again (w : nat) (lk : bool) : tpc * bool :=
  let '(ok, lk') := acquire_lock lk in
  (TWait (if ok : bool then WClose w else WSwap w), lk').

(** [unlock]: release, then [wake_one]. *)
Definition unlock (lk : bool) : tpc * bool := (TWake KCheck, release_lock lk).

(** The next access of a thread; [None] when it is blocked or the action does
    not apply. *)
Definition next (a : action) (p : tpc) (lk : bool) (q : WaitQueue.t)
  : option (tpc * bool * WaitQueue.t) :=
  match p, a with
  | TIdle, CallLock => Some (TTry, lk, q)
  | TIdle, CallTryLock => Some (TTryLock, lk, q)
  | TTryLock, Continue => Some (try_lock lk, q)
  | TTry, Continue => Some (lock_first lk, q)
  | TWait (WCond w), Continue => Some (lock_again w lk, q)
  | TWait (WClose w), Continue => Some (THold, lk, close q w)
  | TWait p, Continue =>
      wait_step p q ≫= λ '(p', q'), Some (TWait p', lk, q')
  | THold, CallUnlock => Some (TRelease, lk, q)
  | TRelease, Continue => Some (unlock lk, q)
  | TWake p, Continue =>
      wake_step false p q ≫= λ '(o, q'),
      Some (match o with Some p' => TWake p' | None => TIdle end, lk, q')
  | _, _ => None
  end.

(** Threads are numbered; [pcs] gives what each is doing. *)
Record state : Type := mk {
  lock : bool;
  queue : WaitQueue.t;
  pcs : nat → tpc
}.

(** [Mutex::new], before any call. *)
Definition new : state := mk false WaitQueue.new (λ _, TIdle).

Definition update (f : nat → tpc) (i : nat) (p : tpc) : nat → tpc :=
  λ j, if decide (j = i) then p else f j.

(** [num_wakers] is a [u32]; the machine is the code as long as fewer than 2^32
    wakers are enqueued. *)
Inductive step : state → state → Prop :=
| step_thread s i a p' lk' q' :
    next a (pcs s i) (lock s) (queue s) = Some (p', lk', q') →
    Z.of_nat (length (WaitQueue.wakers q')) < 2 ^ 32 →
    step s (mk lk' q' (update (pcs s) i p')).

Definition reachable (s : state) : Prop := rtc step new s.

(** ** Views *)
(** The thread owns the mutex. *)
Definition holding (p : tpc) : bool :=
  match p with THold | TRelease | TWait (WClose _) => true | _ => false end.

(** The waker of a thread inside [wait_until]. *)
Definition owned (p : tpc) : option nat :=
  match p with
  | TWait (WEnqueue w | WCount w | WCond w | WSwap w | WParked w | WClose w) => Some w
  | _ => None
  end.

(** The waker has been enqueued in this round. *)
Definition enqueued (p : tpc) : option nat :=
  match p with TWait (WCount w | WCond w | WSwap w | WParked w) => Some w | _ => None end.

(** The waker a [wake_one] call has popped and not yet woken. *)
Definition carried (p : tpc) : option nat :=
  match p with TWake (KCount w | KWake w) => Some w | _ => None end.

(** The thread holds the spin lock of the queue. *)
Definition in_queue_lock (p : tpc) : bool :=
  match p with TWait (WCount _) | TWake (KCount _) => true | _ => false end.

(** The thread sleeps, or is about to, and nobody has woken it. *)
Definition asleep (q : WaitQueue.t) (p : tpc) : bool :=
  match p with TWait (WSwap w | WParked w) => negb (has_woken q w) | _ => false end.

(** The thread is on its way to an attempt to lock, or to wake a waiter. *)
Definition active (q : WaitQueue.t) (p : tpc) : bool :=
  match p with
  | TTry | TWait (WNew | WEnqueue _ | WCount _ | WCond _) | TWake _ => true
  | TWait (WSwap w | WParked w) => has_woken q w
  | _ => false
  end.

(** *** Exclusion: the lock bit is set exactly while one thread holds the mutex. *)
Record excl (lk : bool) (f : nat → tpc) : Prop := {
  ex_held : ∀ i, holding (f i) = true → lk = true;
  ex_holder : lk = true → ∃ i, holding (f i) = true;
  ex_unique : ∀ i j, holding (f i) = true → holding (f j) = true → i = j
}.

(** *** The queue's spin lock and the copy of its length. *)
Record counted (q : WaitQueue.t) (f : nat → tpc) : Prop := {
  co_held : ∀ i, in_queue_lock (f i) = true → locked q = true;
  co_holder : locked q = true → ∃ i, in_queue_lock (f i) = true;
  co_unique : ∀ i j, in_queue_lock (f i) = true → in_queue_lock (f j) = true → i = j;
  co_num : locked q = false → num_wakers q = Z.of_nat (length (wakers q));
  co_push : ∀ i w, f i = TWait (WCount w) → num_wakers q = Z.of_nat (length (wakers q)) - 1;
  co_pop : ∀ i w, f i = TWake (KCount w) → num_wakers q = Z.of_nat (length (wakers q)) + 1;
  co_len : Z.of_nat (length (wakers q)) < 2 ^ 32
}.

(** *** Wakers: owners are unique; a waker in the queue or in the hand of a
    [wake_one] call is woken or has a live owner; a waiter that has enqueued in
    this round is woken, still queued, or in the hand of a [wake_one] call. *)
Record linked (q : WaitQueue.t) (f : nat → tpc) : Prop := {
  li_owned : ∀ i w, owned (f i) = Some w → (w < length (woken q))%nat;
  li_unique : ∀ i j w, owned (f i) = Some w → owned (f j) = Some w → i = j;
  li_queued : ∀ w, w ∈ wakers q → (w < length (woken q))%nat;
  li_carried : ∀ i w, carried (f i) = Some w → (w < length (woken q))%nat;
  li_live : ∀ w, (w ∈ wakers q ∨ ∃ i, carried (f i) = Some w) →
    has_woken q w = true ∨ ∃ i, owned (f i) = Some w;
  li_covered : ∀ i w, enqueued (f i) = Some w →
    has_woken q w = true ∨ w ∈ wakers q ∨ ∃ j, carried (f j) = Some w
}.

(** *** No wake-up is lost: a free mutex with a sleeper has an active thread. *)
Definition wakeful (lk : bool) (q : WaitQueue.t) (f : nat → tpc) : Prop :=
  ∀ i, lk = false → asleep q (f i) = true → ∃ j, active q (f j) = true.

Record inv (s : state) : Prop := {
  inv_excl : excl (lock s) (pcs s);
  inv_counted : counted (queue s) (pcs s);
  inv_linked : linked (queue s) (pcs s);
  inv_wakeful : wakeful (lock s) (queue s) (pcs s)
}.

Lemma mutex_inv_new : inv new.
Proof.
  split; [split | split | split | intros i]; simpl; try done; try lia; try naive_solver; set_solver.
Qed.

(** *** Preservation of exclusion *)

Lemma excl_frame lk f i p :
  excl lk f → holding p = holding (f i) → excl lk (update f i p).
Proof.
  intros [H1 H2 H3] Hp. split.
  - intros j. unfold update. case_decide; subst; rewrite ?Hp; apply H1.
  - intros [j Hj]%H2. exists j. unfold update. case_decide; subst; congruence.
  - intros j k. unfold update. repeat case_decide; subst; rewrite ?Hp; naive_solver.
Qed.

Lemma excl_acquire f i p :
  excl false f → holding p = true → excl true (update f i p).
Proof.
  intros [H1 H2 H3] Hp.
  assert (Hno : ∀ j, holding (f j) = true → False) by (intros j Hj; by discriminate (H1 j Hj)).
  split; [done | |].
  - intros _. exists i. unfold update. by rewrite decide_True.
  - intros j k. unfold update. repeat case_decide; subst; naive_solver.
Qed.

Lemma excl_release lk f i p :
  excl lk f → holding (f i) = true → holding p = false → excl false (update f i p).
Proof.
  intros [H1 H2 H3] Hi Hp. split; [| done |].
  - intros j. unfold update. case_decide; [congruence |].
    intros Hj. by destruct (H3 i j Hi Hj).
  - intros j k. unfold update. repeat case_decide; subst; naive_solver.
Qed.

Lemma wait_step_pc p q p' q' :
  wait_step p q = Some (p', q') →
  holding (TWait p) = false ∧ holding (TWait p') = false.
Proof.
  unfold wait_step, enqueue_push. intros H.
  split; [by destruct p |]. destruct p; simpl in H; repeat case_match; by simplify_eq/=.
Qed.

(** The transitions of [next], grouped: the wait queue steps of the waiting side
    and of the waking side stay folded. *)
Inductive next_view : action → tpc → bool → WaitQueue.t → tpc → bool → WaitQueue.t → Prop :=
| nv_lock lk q : next_view CallLock TIdle lk q TTry lk q
| nv_try lk q : next_view CallTryLock TIdle lk q TTryLock lk q
| nv_try_lock lk q p' lk' :
    try_lock lk = (p', lk') → next_view Continue TTryLock lk q p' lk' q
| nv_first lk q p' lk' :
    lock_first lk = (p', lk') → next_view Continue TTry lk q p' lk' q
| nv_again w lk q p' lk' :
    lock_again w lk = (p', lk') → next_view Continue (TWait (WCond w)) lk q p' lk' q
| nv_close w lk q : next_view Continue (TWait (WClose w)) lk q THold lk (close q w)
| nv_wait p lk q p' q' :
    wait_step p q = Some (p', q') → next_view Continue (TWait p) lk q (TWait p') lk q'
| nv_unlock lk q : next_view CallUnlock THold lk q TRelease lk q
| nv_release lk q : next_view Continue TRelease lk q (TWake KCheck) false q
| nv_wake p lk q o q' :
    wake_step false p q = Some (o, q') →
    next_view Continue (TWake p) lk q
      (match o with Some p' => TWake p' | None => TIdle end) lk q'.

Lemma next_inv a p lk q p' lk' q' :
  next a p lk q = Some (p', lk', q') → next_view a p lk q p' lk' q'.
Proof.
  intros Hn. destruct p as [| | |[| | |w| | |w]| | |kp], a; simpl in Hn; try discriminate Hn;
    try (apply (inj Some) in Hn; simplify_eq; by constructor);
    try (apply bind_Some in Hn as ([x y] & Hx & [= <- <- <-]); by constructor).
  unfold unlock, release_lock in *. simplify_eq. constructor.
Qed.

Lemma excl_step a p lk q p' lk' q' f i :
  excl lk f → f i = p → next a p lk q = Some (p', lk', q') → excl lk' (update f i p').
Proof.
  intros He Hi Hn. apply next_inv in Hn.
  destruct Hn as [| |lk q p' lk' Hx|lk q p' lk' Hx|w lk q p' lk' Hx| |p lk q p' q' Hx
                 | |lk q|p lk q o q' Hx];
    try (apply excl_frame; [done | by rewrite Hi]).
  - unfold try_lock, acquire_lock in Hx. destruct lk; injection Hx as <- <-;
      [apply excl_frame; [done | by rewrite Hi] | by apply excl_acquire].
  - unfold lock_first, acquire_lock in Hx. destruct lk; injection Hx as <- <-;
      [apply excl_frame; [done | by rewrite Hi] | by apply excl_acquire].
  - unfold lock_again, acquire_lock in Hx. destruct lk; injection Hx as <- <-;
      [apply excl_frame; [done | by rewrite Hi] | by apply excl_acquire].
  - apply wait_step_pc in Hx as [H1 H2]. apply excl_frame; [done | congruence].
  - eapply excl_release; [done | by rewrite Hi | done].
  - apply excl_frame; [done |]. rewrite Hi. by destruct o.
Qed.

(** *** Preservation of the count *)

(** A thread outside the queue's critical section moves, and the count and the
    deque stay. *)
Lemma counted_frame q q' f i p :
  counted q f → in_queue_lock (f i) = false → in_queue_lock p = false →
  num_wakers q' = num_wakers q → wakers q' = wakers q → locked q' = locked q →
  counted q' (update f i p).
Proof.
  intros [H1 H2 H3 H4 H5 H6 H7] Hi Hp En Ew El. split; rewrite ?En, ?Ew, ?El; try done.
  - intros j. unfold update. case_decide; [congruence | apply H1].
  - intros [j Hj]%H2. exists j. unfold update. case_decide; congruence.
  - intros j k. unfold update. repeat case_decide; try congruence. apply H3.
  - intros j w. unfold update. case_decide; [intros ->; done | apply H5].
  - intros j w. unfold update. case_decide; [intros ->; done | apply H6].
Qed.

(** A thread enters the critical section: nobody else is in it. *)
Lemma counted_enter q q' f i p :
  counted q f → locked q = false → locked q' = true → in_queue_lock p = true →
  Z.of_nat (length (wakers q')) < 2 ^ 32 →
  (∀ w, p = TWait (WCount w) → num_wakers q' = Z.of_nat (length (wakers q')) - 1) →
  (∀ w, p = TWake (KCount w) → num_wakers q' = Z.of_nat (length (wakers q')) + 1) →
  counted q' (update f i p).
Proof.
  intros [H1 H2 H3 H4 H5 H6 H7] El El' Hp Hlen Hpush Hpop.
  assert (Hno : ∀ j, in_queue_lock (f j) = true → False).
  { intros j Hj. specialize (H1 j Hj). congruence. }
  split; try done; try congruence.
  - intros _. exists i. unfold update. by rewrite decide_True.
  - intros j k. unfold update. repeat case_decide; subst; naive_solver.
  - intros j w. unfold update. case_decide; [naive_solver |].
    intros Hj. destruct (Hno j). by rewrite Hj.
  - intros j w. unfold update. case_decide; [naive_solver |].
    intros Hj. destruct (Hno j). by rewrite Hj.
Qed.

(** The thread in the critical section leaves it with the count corrected. *)
Lemma counted_leave q q' f i p :
  counted q f → in_queue_lock (f i) = true → in_queue_lock p = false →
  locked q' = false → wakers q' = wakers q →
  num_wakers q' = Z.of_nat (length (wakers q')) →
  counted q' (update f i p).
Proof.
  intros [H1 H2 H3 H4 H5 H6 H7] Hi Hp El Ew En.
  assert (Hno : ∀ j, in_queue_lock (update f i p j) = true → False).
  { intros j. unfold update. case_decide; [congruence |].
    intros Hj. by destruct (H3 j i Hj Hi). }
  split; try done; try congruence; rewrite ?Ew; try done.
  - intros j w Hj. destruct (Hno j). by rewrite Hj.
  - intros j w Hj. destruct (Hno j). by rewrite Hj.
Qed.

Lemma counted_wait q f i p p' q' :
  counted q f → f i = TWait p → wait_step p q = Some (p', q') →
  Z.of_nat (length (wakers q')) < 2 ^ 32 → counted q' (update f i (TWait p')).
Proof.
  intros Hc Hi Hs Hlen. destruct p as [|w|w|w|w|w|w]; simpl in Hs; try discriminate Hs.
  - injection Hs as <- <-. eapply counted_frame; [done | by rewrite Hi | done..].
  - unfold enqueue_push in Hs. destruct (locked q) eqn:El; [done |]. injection Hs as <- <-.
    eapply counted_enter; try done. intros v _. simpl.
    rewrite (co_num _ _ Hc El), length_app. simpl. lia.
  - injection Hs as <- <-. eapply counted_leave; [done | by rewrite Hi | done..|]. simpl in *.
    rewrite (co_push _ _ Hc i w Hi). unfold wrapping_add.
    rewrite Z.mod_small by lia. lia.
  - injection Hs as <- <-. eapply counted_frame; [done | by rewrite Hi | | done..].
    by destruct (has_woken q w).
  - destruct (has_woken q w); [| done]. injection Hs as <- <-.
    eapply counted_frame; [done | by rewrite Hi | done..].
Qed.

Lemma counted_wake q f i p o q' :
  counted q f → f i = TWake p → wake_step false p q = Some (o, q') →
  Z.of_nat (length (wakers q')) < 2 ^ 32 →
  counted q' (update f i (match o with Some p' => TWake p' | None => TIdle end)).
Proof.
  intros Hc Hi Hs Hlen. destruct p as [| |w|w]; simpl in Hs.
  - injection Hs as <- <-. eapply counted_frame; [done | by rewrite Hi | | done..].
    by destruct (is_empty q).
  - unfold pop_front in Hs. destruct (locked q) eqn:El; [done |].
    destruct (wakers q) as [|v ws] eqn:Ew; simpl in Hs; injection Hs as <- <-.
    + eapply counted_frame; [done | by rewrite Hi | done..].
    + eapply counted_enter; try done. intros u _. simpl.
      rewrite (co_num _ _ Hc El), Ew. simpl. lia.
  - injection Hs as <- <-. eapply counted_leave; [done | by rewrite Hi | done..|]. simpl in *.
    rewrite (co_pop _ _ Hc i w Hi). unfold wrapping_sub.
    rewrite Z.mod_small by lia. lia.
  - injection Hs as <- <-. eapply counted_frame; [done | by rewrite Hi | | done..].
    by destruct (has_woken q w).
Qed.

Lemma counted_step a p lk q p' lk' q' f i :
  counted q f → f i = p → next a p lk q = Some (p', lk', q') →
  Z.of_nat (length (wakers q')) < 2 ^ 32 → counted q' (update f i p').
Proof.
  intros Hc Hi Hn Hlen. apply next_inv in Hn.
  destruct Hn as [| |lk q p' lk' Hx|lk q p' lk' Hx|w lk q p' lk' Hx| |p lk q p' q' Hx
                 | |lk q|p lk q o q' Hx];
    try (eapply counted_frame; [done | by rewrite Hi | done..]).
  - unfold try_lock, acquire_lock in Hx. destruct lk; injection Hx as <- <-;
      (eapply counted_frame; [done | by rewrite Hi | done..]).
  - unfold lock_first, acquire_lock in Hx. destruct lk; injection Hx as <- <-;
      (eapply counted_frame; [done | by rewrite Hi | done..]).
  - unfold lock_again, acquire_lock in Hx. destruct lk; injection Hx as <- <-;
      (eapply counted_frame; [done | by rewrite Hi | done..]).
  - by eapply counted_wait.
  - by eapply counted_wake.
Qed.

(** *** Preservation of the links between wakers and threads *)

Lemma enqueued_owned p w : enqueued p = Some w → owned p = Some w.
Proof. destruct p as [| | |[]| | |]; simpl; congruence. Qed.

(** The moving thread keeps its waker; the deque and the flags stay. *)
Lemma linked_frame q q' f i p :
  linked q f → owned p = owned (f i) → carried p = carried (f i) →
  (enqueued p = enqueued (f i) ∨ enqueued p = None) →
  wakers q' = wakers q → woken q' = woken q → linked q' (update f i p).
Proof.
  intros [H1 H2 H3 H4 H5 H6] Ho Hc He Ew Ek.
  assert (Eh : ∀ w, has_woken q' w = has_woken q w) by (intros; unfold has_woken; by rewrite Ek).
  assert (Fo : ∀ j, owned (update f i p j) = owned (f j))
    by (intros j; unfold update; case_decide; congruence).
  assert (Fc : ∀ j, carried (update f i p j) = carried (f j))
    by (intros j; unfold update; case_decide; congruence).
  split; rewrite ?Ew, ?Ek; setoid_rewrite Eh || idtac; setoid_rewrite Fo || idtac;
    setoid_rewrite Fc || idtac; try done.
  intros j w. unfold update. case_decide; [| apply H6].
  destruct He as [-> | ->]; [subst; apply H6 | done].
Qed.

(** A flag is raised; the moving thread may at the same time let go of that very
    waker, as its owner or as the call that popped it. *)
Lemma linked_raise q f i p w :
  linked q f → (w < length (woken q))%nat →
  (owned p = owned (f i) ∨ owned p = None ∧ owned (f i) = Some w) →
  (carried p = carried (f i) ∨ carried p = None ∧ carried (f i) = Some w) →
  (enqueued p = enqueued (f i) ∨ enqueued p = None) →
  linked (set_woken q w true) (update f i p).
Proof.
  intros [H1 H2 H3 H4 H5 H6] Hw Ho Hc He.
  assert (Fo : ∀ j v, owned (update f i p j) = Some v → owned (f j) = Some v)
    by (intros j v; unfold update; case_decide; subst; intuition congruence).
  assert (Fc : ∀ j v, carried (update f i p j) = Some v → carried (f j) = Some v)
    by (intros j v; unfold update; case_decide; subst; intuition congruence).
  assert (Fe : ∀ j v, enqueued (update f i p j) = Some v → enqueued (f j) = Some v)
    by (intros j v; unfold update; case_decide; subst; intuition congruence).
  assert (Go : ∀ j v, v ≠ w → owned (f j) = Some v → owned (update f i p j) = Some v)
    by (intros j v Hne; unfold update; case_decide; subst; intuition congruence).
  assert (Gc : ∀ j v, v ≠ w → carried (f j) = Some v → carried (update f i p j) = Some v)
    by (intros j v Hne; unfold update; case_decide; subst; intuition congruence).
  split; simpl; rewrite ?length_insert.
  - intros j v Hj. eauto.
  - intros j k v Hj Hk. eauto.
  - done.
  - eauto.
  - intros v Hv. rewrite has_woken_set by done. case_decide as Hd; [by left |].
    destruct (H5 v) as [?|[j Hj]]; [| by left |].
    + destruct Hv as [?|[j Hj]]; [by left | right; eauto].
    + right. eauto.
  - intros j v Hj. rewrite has_woken_set by done. case_decide as Hd; [by left |].
    destruct (H6 j v) as [?|[?|[k Hk]]]; eauto 10.
Qed.

Lemma linked_new q f i w q' :
  linked q f → f i = TWait WNew → new_pair q = (w, q') →
  linked q' (update f i (TWait (WEnqueue w))).
Proof.
  intros [H1 H2 H3 H4 H5 H6] Hi [= <- <-].
  assert (Eh : ∀ v, (v < length (woken q))%nat →
    has_woken (WaitQueue.mk (num_wakers q) (wakers q) (locked q) (woken q ++ [false])) v = has_woken q v).
  { intros v Hv. unfold has_woken. simpl. by rewrite lookup_app_l. }
  assert (Fc : ∀ j, carried (update f i (TWait (WEnqueue (length (woken q)))) j) = carried (f j)).
  { intros j. unfold update. case_decide; subst; [by rewrite Hi | done]. }
  split; simpl; rewrite ?length_app; simpl; try setoid_rewrite Fc.
  - intros j v. unfold update. case_decide; simpl; [intros [= <-]; lia |].
    intros ?%H1. lia.
  - intros j k v. unfold update. repeat case_decide; simpl; subst; try done.
    + intros [= <-] ?%H1. lia.
    + intros ?%H1 [= <-]. lia.
    + apply H2.
  - intros v ?%H3. lia.
  - intros j v ?%H4. lia.
  - intros v Hv. assert (Hlt : (v < length (woken q))%nat) by (destruct Hv as [?|[??]]; eauto).
    rewrite Eh by done. destruct (H5 v Hv) as [?|[j Hj]]; [by left |].
    right. exists j. unfold update. case_decide; [subst; by rewrite Hi in Hj | done].
  - intros j v. unfold update at 1. case_decide; [done |]. intros Hj.
    assert (Hlt : (v < length (woken q))%nat).
    { apply (H1 j). by apply enqueued_owned. }
    rewrite Eh by done. by apply (H6 j).
Qed.

Lemma linked_push q f i w q' :
  linked q f → f i = TWait (WEnqueue w) → enqueue_push q w = Some q' →
  linked q' (update f i (TWait (WCount w))).
Proof.
  intros [H1 H2 H3 H4 H5 H6] Hi. unfold enqueue_push. destruct (locked q); [done |]. intros [= <-].
  assert (Fo : ∀ j, owned (update f i (TWait (WCount w)) j) = owned (f j))
    by (intros j; unfold update; case_decide; subst; [by rewrite Hi | done]).
  assert (Fc : ∀ j, carried (update f i (TWait (WCount w)) j) = carried (f j))
    by (intros j; unfold update; case_decide; subst; [by rewrite Hi | done]).
  split; simpl; setoid_rewrite Fo || idtac; setoid_rewrite Fc || idtac; try done.
  - intros v [Hv|Hv%list_elem_of_singleton]%elem_of_app; [by apply H3 |]. subst.
    apply (H1 i). by rewrite Hi.
  - intros v [[Hv|Hv%list_elem_of_singleton]%elem_of_app|Hv]; [apply H5; by left | | apply H5; by right].
    right. exists i. subst. by rewrite Hi.
  - intros j v. unfold update. case_decide; simpl.
    + intros [= <-]. right; left. set_solver.
    + intros Hj. destruct (H6 j v Hj) as [?|[?|?]]; [by left | right; left; set_solver | right; by right].
Qed.

(** A woken waiter lowers its own flag and goes round the loop. *)
Lemma linked_lower q f i w :
  linked q f → f i = TWait (WSwap w) → has_woken q w = true →
  linked (set_woken q w false) (update f i (TWait (WEnqueue w))).
Proof.
  intros [H1 H2 H3 H4 H5 H6] Hi Hk.
  assert (Hw : (w < length (woken q))%nat) by (apply (H1 i); by rewrite Hi).
  assert (Fo : ∀ j, owned (update f i (TWait (WEnqueue w)) j) = owned (f j))
    by (intros j; unfold update; case_decide; subst; [by rewrite Hi | done]).
  assert (Fc : ∀ j, carried (update f i (TWait (WEnqueue w)) j) = carried (f j))
    by (intros j; unfold update; case_decide; subst; [by rewrite Hi | done]).
  split; simpl; rewrite ?length_insert; setoid_rewrite Fo || idtac; setoid_rewrite Fc || idtac; try done.
  - intros v Hv. rewrite has_woken_set by done. case_decide as Hd; [| by apply H5].
    right. exists i. subst. by rewrite Hi.
  - intros j v. unfold update. case_decide as Hj; [done |]. intros He.
    assert (Hne : v ≠ w).
    { intros ->. apply Hj, (H2 j i w); [by apply enqueued_owned | by rewrite Hi]. }
    rewrite has_woken_set, decide_False by done. by apply (H6 j).
Qed.

(** A waker moves from the deque into the hand of the call that pops it. *)
Lemma linked_pop q q' f i v ws :
  linked q f → f i = TWake KPop → wakers q = v :: ws →
  wakers q' = ws → woken q' = woken q → linked q' (update f i (TWake (KCount v))).
Proof.
  intros [H1 H2 H3 H4 H5 H6] Hi Ew Ew' Ek.
  assert (Eh : ∀ w, has_woken q' w = has_woken q w) by (intros; unfold has_woken; by rewrite Ek).
  assert (Fo : ∀ j, owned (update f i (TWake (KCount v)) j) = owned (f j))
    by (intros j; unfold update; case_decide; subst; [by rewrite Hi | done]).
  assert (Fe : ∀ j, enqueued (update f i (TWake (KCount v)) j) = enqueued (f j))
    by (intros j; unfold update; case_decide; subst; [by rewrite Hi | done]).
  assert (Hhere : carried (update f i (TWake (KCount v)) i) = Some v)
    by (unfold update; by rewrite decide_True).
  assert (Hkeep : ∀ j w, carried (f j) = Some w → carried (update f i (TWake (KCount v)) j) = Some w)
    by (intros j w; unfold update; case_decide; subst; [by rewrite Hi | done]).
  assert (Hback : ∀ j w, carried (update f i (TWake (KCount v)) j) = Some w →
      w = v ∨ carried (f j) = Some w)
    by (intros j w; unfold update; case_decide; simpl; naive_solver).
  split; rewrite ?Ew', ?Ek; setoid_rewrite Fo || idtac; setoid_rewrite Fe || idtac;
    setoid_rewrite Eh || idtac; try done.
  - intros w Hw. apply H3. rewrite Ew. set_solver.
  - intros j w [->|?]%Hback; [apply H3; rewrite Ew; set_solver | eauto].
  - intros w Hw. apply H5. rewrite Ew. destruct Hw as [?|[j [->|?]%Hback]]; set_solver.
  - intros j w Hj. destruct (H6 j w Hj) as [?|[Hw|[k Hk]]]; [by left | | right; right; eauto].
    rewrite Ew in Hw. apply elem_of_cons in Hw as [->|?]; eauto.
Qed.

Lemma linked_wait q f i p p' q' :
  linked q f → f i = TWait p → wait_step p q = Some (p', q') →
  linked q' (update f i (TWait p')).
Proof.
  intros Hl Hi Hs. destruct p as [|w|w|w|w|w|w]; simpl in Hs; try discriminate Hs.
  - injection Hs as <- <-. by eapply linked_new.
  - apply bind_Some in Hs as (q1 & Hq & [= <- <-]). by eapply linked_push.
  - injection Hs as <- <-. eapply linked_frame; try done; rewrite Hi; auto.
  - injection Hs as <- <-. destruct (has_woken q w) eqn:Hk; [by apply linked_lower |].
    assert (Ek : woken (set_woken q w false) = woken q).
    { simpl. apply list_insert_id. unfold has_woken in Hk.
      destruct (woken q !! w); simpl in Hk; congruence. }
    eapply linked_frame; try done; rewrite Hi; auto.
  - destruct (has_woken q w); [| done]. injection Hs as <- <-.
    eapply linked_frame; try done; rewrite Hi; auto.
Qed.

Lemma linked_wake q f i p o q' :
  linked q f → f i = TWake p → wake_step false p q = Some (o, q') →
  linked q' (update f i (match o with Some p' => TWake p' | None => TIdle end)).
Proof.
  intros Hl Hi Hs. destruct p as [| |w|w]; simpl in Hs.
  - injection Hs as <- <-. eapply linked_frame; try done; rewrite Hi; destruct (is_empty q); auto.
  - unfold pop_front in Hs. destruct (locked q); [done |].
    destruct (wakers q) as [|v ws] eqn:Ew; simpl in Hs; injection Hs as <- <-.
    + eapply linked_frame; try done; rewrite Hi; auto.
    + by eapply linked_pop.
  - injection Hs as <- <-. eapply linked_frame; try done; rewrite Hi; auto.
  - injection Hs as <- <-. apply linked_raise; try done; rewrite ?Hi.
    + apply (li_carried _ _ Hl i). by rewrite Hi.
    + left. by destruct (has_woken q w).
    + right. by destruct (has_woken q w).
    + left. by destruct (has_woken q w).
Qed.

Lemma linked_step a p lk q p' lk' q' f i :
  linked q f → f i = p → next a p lk q = Some (p', lk', q') → linked q' (update f i p').
Proof.
  intros Hl Hi Hn. apply next_inv in Hn.
  destruct Hn as [| |lk q p' lk' Hx|lk q p' lk' Hx|w lk q p' lk' Hx|w lk q|p lk q p' q' Hx
                 | |lk q|p lk q o q' Hx];
    try (eapply linked_frame; try done; rewrite Hi; by auto).
  - unfold try_lock, acquire_lock in Hx. destruct lk; injection Hx as <- <-;
      (eapply linked_frame; try done; rewrite Hi; by auto).
  - unfold lock_first, acquire_lock in Hx. destruct lk; injection Hx as <- <-;
      (eapply linked_frame; try done; rewrite Hi; by auto).
  - unfold lock_again, acquire_lock in Hx. destruct lk; injection Hx as <- <-;
      (eapply linked_frame; try done; rewrite Hi; by auto).
  - apply linked_raise; rewrite ?Hi; auto. apply (li_owned _ _ Hl i). by rewrite Hi.
  - by eapply linked_wait.
  - by eapply linked_wake.
Qed.

(** *** Preservation of wakefulness *)

(** A thread moves without going to sleep and without ceasing to be active, and
    no flag of a live waker changes. *)
Lemma wakeful_frame lk q q' f i p :
  wakeful lk q f →
  (∀ j w, owned (f j) = Some w → has_woken q' w = has_woken q w) →
  (asleep q' p = true → asleep q (f i) = true) →
  (active q (f i) = true → active q' p = true) →
  wakeful lk q' (update f i p).
Proof.
  intros Hw Hk Hs Ha j -> Hj.
  assert (Fs : ∀ k, asleep q' (f k) = asleep q (f k)).
  { intros k. specialize (Hk k). destruct (f k) as [| | |[]| | |]; simpl in *;
      try done; by rewrite Hk. }
  assert (Fa : ∀ k, active q' (f k) = active q (f k)).
  { intros k. specialize (Hk k). destruct (f k) as [| | |[]| | |]; simpl in *;
      try done; by rewrite Hk. }
  assert (∃ k, active q (f k) = true) as [k Hk'].
  { unfold update in Hj. case_decide; [apply (Hw i) | apply (Hw j)]; auto. by rewrite <- Fs. }
  exists k. unfold update. case_decide; subst; [by apply Ha | by rewrite Fa].
Qed.

(** The thread that moved is active itself. *)
Lemma wakeful_active lk q f i p : active q p = true → wakeful lk q (update f i p).
Proof. intros Hp j _ _. exists i. unfold update. by rewrite decide_True. Qed.

Lemma asleep_enqueued q p :
  asleep q p = true → ∃ w, enqueued p = Some w ∧ has_woken q w = false.
Proof.
  destruct p as [| | |[]| | |]; simpl; try done; rewrite negb_true_iff; eauto.
Qed.

(** When the count reads zero or the deque is empty, every sleeper is in the
    hand of a waking call, or some thread is just updating the count. *)
Lemma drained q f j :
  counted q f → linked q f → num_wakers q = 0 ∨ wakers q = [] →
  asleep q (f j) = true →
  ∃ k, carried (f k) ≠ None ∨ in_queue_lock (f k) = true.
Proof.
  intros Hc Hl Hz (w & He & Hk)%asleep_enqueued.
  destruct (li_covered _ _ Hl j w He) as [?|[Hw|[k Hc']]]; [congruence | | exists k; left; congruence].
  destruct (locked q) eqn:El; [destruct (co_holder _ _ Hc El) as [k ?]; eauto |].
  exfalso. pose proof (co_num _ _ Hc El).
  destruct (wakers q); [set_solver |]. simpl in *. destruct Hz; [lia | done].
Qed.

Lemma drained_active q p :
  carried p ≠ None ∨ in_queue_lock p = true → active q p = true.
Proof. destruct p as [| | |[]| | |[]]; simpl; naive_solver. Qed.

(** [wake_one] gives up: an active thread remains. *)
Lemma wakeful_done lk q f i :
  counted q f → linked q f → (num_wakers q = 0 ∨ wakers q = []) →
  carried (f i) = None → in_queue_lock (f i) = false →
  wakeful lk q (update f i TIdle).
Proof.
  intros Hc Hl Hz Hci Hqi j _ Hj. unfold update in Hj. case_decide; [done |].
  destruct (drained q f j Hc Hl Hz Hj) as [k Hk]. exists k.
  unfold update. case_decide; [subst; naive_solver | by apply drained_active].
Qed.

(** [wake_one] wakes a waiter: that waiter is active now. *)
Lemma wakeful_woke q f i w :
  excl false f → linked q f → f i = TWake (KWake w) → has_woken q w = false →
  wakeful false (set_woken q w true) (update f i TIdle).
Proof.
  intros He Hl Hi Hk j _ Hj.
  assert (Hw : (w < length (woken q))%nat) by (apply (li_carried _ _ Hl i); by rewrite Hi).
  destruct (li_live _ _ Hl w) as [?|[k Hko]]; [right; exists i; by rewrite Hi | congruence |].
  exists k. unfold update. case_decide; [subst; by rewrite Hi in Hko |].
  pose proof (ex_held _ _ He k) as Hh.
  destruct (f k) as [| | |[]| | |]; simpl in *; try done; injection Hko as ->;
    try (by rewrite has_woken_set, decide_True); by specialize (Hh eq_refl).
Qed.

Lemma wakeful_wait lk q f i p p' q' :
  wakeful lk q f → linked q f → f i = TWait p → wait_step p q = Some (p', q') →
  wakeful lk q' (update f i (TWait p')).
Proof.
  intros Hw Hl Hi Hs. destruct p as [|w|w|w|w|w|w]; simpl in Hs; try discriminate Hs.
  - injection Hs as <- <-. by apply wakeful_active.
  - apply bind_Some in Hs as (q1 & Hq & [= <- <-]). by apply wakeful_active.
  - injection Hs as <- <-. by apply wakeful_active.
  - injection Hs as <- <-. destruct (has_woken q w) eqn:Hk; [by apply wakeful_active |].
    assert (Hlt : (w < length (woken q))%nat) by (apply (li_owned _ _ Hl i); by rewrite Hi).
    eapply wakeful_frame; [done | | rewrite Hi; simpl; by rewrite Hk | rewrite Hi; simpl; congruence].
    intros j v _. rewrite has_woken_set by done. case_decide; congruence.
  - destruct (has_woken q w) eqn:Hk; [| done]. injection Hs as <- <-. by apply wakeful_active.
Qed.

Lemma wakeful_wake lk q f i p o q' :
  excl lk f → counted q f → linked q f → f i = TWake p →
  wake_step false p q = Some (o, q') →
  wakeful lk q' (update f i (match o with Some p' => TWake p' | None => TIdle end)).
Proof.
  intros He Hc Hl Hi Hs. destruct p as [| |w|w]; simpl in Hs.
  - injection Hs as <- <-. unfold is_empty. destruct (Z.eqb_spec (num_wakers q) 0) as [Hz|];
      [| by apply wakeful_active].
    apply wakeful_done; auto; by rewrite Hi.
  - unfold pop_front in Hs. destruct (locked q); [done |].
    destruct (wakers q) as [|v ws] eqn:Ew; simpl in Hs; injection Hs as <- <-;
      [| by apply wakeful_active].
    apply wakeful_done; auto; by rewrite Hi.
  - injection Hs as <- <-. by apply wakeful_active.
  - injection Hs as <- <-. destruct (has_woken q w) eqn:Hk; simpl; [by apply wakeful_active |].
    destruct lk; [by intros ? ? |]. by apply wakeful_woke.
Qed.

Lemma wakeful_step a p lk q p' lk' q' f i :
  excl lk f → counted q f → linked q f → wakeful lk q f →
  f i = p → next a p lk q = Some (p', lk', q') → wakeful lk' q' (update f i p').
Proof.
  intros He Hc Hl Hw Hi Hn. apply next_inv in Hn.
  destruct Hn as [| |lk q p' lk' Hx|lk q p' lk' Hx|w lk q p' lk' Hx|w lk q|p lk q p' q' Hx
                 | |lk q|p lk q o q' Hx];
    try (eapply wakeful_frame; [done | done | done |]; rewrite Hi; done).
  - unfold try_lock, acquire_lock in Hx. destruct lk; injection Hx as <- <-; by intros ? ?.
  - unfold lock_first, acquire_lock in Hx. destruct lk; injection Hx as <- <-; by intros ? ?.
  - unfold lock_again, acquire_lock in Hx. destruct lk; injection Hx as <- <-; by intros ? ?.
  - intros j Hlk _. pose proof (ex_held _ _ He i) as Hh. rewrite Hi in Hh.
    specialize (Hh eq_refl). congruence.
  - by eapply wakeful_wait.
  - by apply wakeful_active.
  - by eapply wakeful_wake.
Qed.

Lemma mutex_inv_step s s' : inv s → step s s' → inv s'.
Proof.
  intros Hinv Hs. destruct Hs as [s i a p' lk' q' Hn Hlen].
  destruct Hinv as [He Hc Hl Hw]. split; simpl.
  - by eapply excl_step.
  - by eapply counted_step.
  - by eapply linked_step.
  - by eapply wakeful_step.
Qed.

Lemma mutex_inv_reachable s : reachable s → inv s.
Proof. apply rtc_preserves; [apply mutex_inv_new | intros ??; apply mutex_inv_step]. Qed.

(** An active thread is either able to move or waits for the queue's spin lock,
    whose holder is able to move. *)
Lemma active_enabled s j :
  inv s → active (queue s) (pcs s j) = true →
  ∃ k r, active (queue s) (pcs s k) = true ∧
    next Continue (pcs s k) (lock s) (queue s) = Some r.
Proof.
  intros [_ Hc _ _] Ha.
  destruct (locked (queue s)) eqn:El.
  - destruct (co_holder _ _ Hc El) as [k Hk]. exists k.
    destruct (pcs s k) as [| | |[]| | |[]]; simpl in *; try done; eauto.
  - exists j. destruct (pcs s j) as [| | |[]| | |[]] eqn:Hp; simpl in *; try done;
      unfold enqueue_push, pop_front; rewrite ?El, ?Ha; simpl; eauto.
    destruct (wakers (queue s)); simpl; eauto.
Qed.

(** ** Properties *)

(** Mutual exclusion of the mutex: in every reachable state at most one
    thread holds it, and the lock bit is set exactly when one does. *)
Theorem mutex_exclusion s :
  reachable s →
  (∀ i j, holding (pcs s i) = true → holding (pcs s j) = true → i = j) ∧
  (lock s = true ↔ ∃ i, holding (pcs s i) = true).
Proof. intros [[H1 H2 H3] _ _ _]%mutex_inv_reachable. naive_solver. Qed.

(** [C11] No wake-up is lost.  Whenever the mutex is free and some thread sleeps
    in [lock] without having been woken, another thread is under way to lock
    the mutex or to wake a waiter, and one such thread is able to take its next
    step: the system never comes to rest with a free mutex and a sleeper. *)
Theorem mutex_no_lost_wakeup s i :
  reachable s → lock s = false → asleep (queue s) (pcs s i) = true →
  ∃ j r, active (queue s) (pcs s j) = true ∧
    next Continue (pcs s j) (lock s) (queue s) = Some r.
Proof.
  intros Hinv%mutex_inv_reachable Hlk Hs.
  destruct (inv_wakeful _ Hinv i Hlk Hs) as [j Hj]. by eapply active_enabled.
Qed.

(** ** Executable schedules and concrete inputs *)

Definition exec_move (s : state) (m : nat * action) : option state :=
  next m.2 (pcs s m.1) (lock s) (queue s) ≫= λ '(p', lk', q'),
  if Z.of_nat (length (wakers q')) <? 2 ^ 32
  then Some (mk lk' q' (update (pcs s) m.1 p')) else None.

Fixpoint exec (ms : list (nat * action)) (s : state) : option state :=
  match ms with
  | [] => Some s
  | m :: ms => exec_move s m ≫= exec ms
  end.

Lemma mutex_exec_rtc ms s s' : exec ms s = Some s' → rtc step s s'.
Proof.
  revert s. induction ms as [|m ms IH]; simpl; intros s; [intros [= ->]; done |].
  intros (s1 & ([[p' lk'] q'] & Hn & Hs)%bind_Some & Hr)%bind_Some.
  destruct (Z.ltb_spec (Z.of_nat (length (wakers q'))) (2 ^ 32)); [| done].
  injection Hs as <-. eapply rtc_l; [by econstructor | by apply IH].
Qed.

(** Thread 0 takes the mutex, thread 1 goes to sleep on it, thread 0 has released
    it and is about to look at the queue. *)
Definition contended : list (nat * action) :=
  [(0%nat, CallTryLock); (0%nat, Continue); (1%nat, CallLock); (1%nat, Continue);
   (1%nat, Continue); (1%nat, Continue); (1%nat, Continue); (1%nat, Continue);
   (1%nat, Continue); (0%nat, CallUnlock); (0%nat, Continue)].

Definition contended_state : state := default new (exec contended new).

Lemma contended_reachable : reachable contended_state.
Proof. by apply (mutex_exec_rtc contended). Defined.

Lemma mutex_exclusion_witness :
  (∀ i j, holding (pcs contended_state i) = true →
     holding (pcs contended_state j) = true → i = j) ∧
  (lock contended_state = true ↔ ∃ i, holding (pcs contended_state i) = true).
Proof. exact (mutex_exclusion contended_state contended_reachable). Defined.

Lemma mutex_no_lost_wakeup_witness :
  ∃ j r, active (queue contended_state) (pcs contended_state j) = true ∧
    next Continue (pcs contended_state j) (lock contended_state) (queue contended_state) = Some r.
Proof.
  apply (mutex_no_lost_wakeup contended_state 1 contended_reachable); reflexivity.
Defined.

End Mutex.
