(* ===== verification/RwMutex.v ===== *)
(** * The sleeping read-write mutex: [osxtd/src/sync/rwmutex.rs] over [wait.rs]

    A machine of finitely many threads that use one [RwMutex].  The word steps
    are those of [RwWord]; a blocking call runs its attempt as the condition of
    [WaitQueue::wait_until], and the drops of the guards wake sleepers.  Every
    step is one shared access.

    Its lock word and guards follow a run of the token machine of [RwWord], with
    stuttering for the steps that only touch the wait queue; this gives mutual
    exclusion between the threads. It has a schedule in which a wake-up is lost. *)

From S2P Require Import Prelude RwWord WaitQueue.
Local Open Scope Z_scope.

Module RwMutex.
Import WaitQueue.
Import RwWord(token, TryRead, TryReadUndo, ReadGuard, TryWrite, WriteGuard,
  TryUpread, TryUpreadUndo, UpreadGuard, Upgrading, UpgradeDrop, DowngradeDrop).

(** Where an attempt comes from: a direct [try_*] call, the first condition test
    of a blocking call, or a test after enqueueing waker [w]. *)
Inductive ctx : Type := Direct | First | Again (w : nat).

Inductive tpc : Type :=
| Idle
| Attempt (c : ctx) (t : token)
| Waiting (start : token) (p : wpc)            (** [start] is the attempt to repeat *)
| Closing (w : nat) (g : token)                (** success: dropping the waiter *)
| Guard (g : token)
| Waking (all : bool) (p : kpc) (ret : option token).  (** guard left, if any *)

Inductive action : Type :=
| Continue
| Call (t : token) (blocking : bool)
| Act (a : RwWord.action).

(** The attempt a token belongs to. *)
Definition restart (t : token) : token :=
  match t with
  | TryRead _ | TryReadUndo _ => TryRead false
  | TryUpread _ | TryUpreadUndo _ => TryUpread false
  | _ => TryWrite false
  end.

(** [read], [write], [upread] are [queue.wait_until(|| self.try_*())]; the
    attempts are the ones of the lock word. *)
Definition attempt (c : ctx) (t : token) (lk : Z) : option (tpc * Z) :=
  RwWord.next true RwWord.Continue t lk ≫= λ '(ts, lk'),
  Some (match ts with
        | [] => match c with
                | Direct => Idle
                | First => Waiting (restart t) WNew
                | Again w => Waiting (restart t) (WSwap w)
                end
        | t' :: _ =>
            if RwWord.in_flight t' then Attempt c t'
            else match c with Again w => Closing w t' | _ => Guard t' end
        end, lk').

(** The drop of a read guard: [if fetch_sub(READER) == READER { wake_one() }]. *)
Definition drop_read (lk : Z) : tpc * Z :=
  (if lk =? RwWord.READER then Waking false KCheck None else Idle, (RwWord.drop_read lk).2).

(** The drop of a write guard: [fetch_and(!WRITER); wake_all()]. *)
Definition drop_write (ret : option token) (lk : Z) : tpc * Z :=
  (Waking true KCheck ret, (RwWord.drop_write lk).2).

(** The drop of an upgradeable guard: [if fetch_sub(UPGRADEABLE_READER) ==
    UPGRADEABLE_READER { wake_all() }]. *)
Definition drop_upread (ret : option token) (lk : Z) : tpc * Z :=
  (if lk =? RwWord.UPGRADEABLE_READER then Waking true KCheck ret
   else match ret with Some g => Guard g | None => Idle end, (RwWord.drop_upread lk).2).

(** A step on a guard whose tokens stay with the thread ([upgrade],
    [try_upgrade], [try_downgrade]). *)
Definition keep_guard (r : list token * Z) : tpc * Z :=
  (match r.1 with t :: _ => Guard t | [] => Idle end, r.2).

Definition guard_step (a : RwWord.action) (g : token) (lk : Z) : option (tpc * Z) :=
  match g, a with
  | ReadGuard, RwWord.Drop => Some (drop_read lk)
  | WriteGuard, RwWord.Drop => Some (drop_write None lk)
  | UpreadGuard, RwWord.Drop => Some (drop_upread None lk)
  | UpreadGuard, RwWord.Upgrade => Some (keep_guard (RwWord.upgrade lk))
  | UpreadGuard, RwWord.TryUpgrade => Some (keep_guard (RwWord.try_upgrade UpreadGuard lk))
  | Upgrading, RwWord.Continue => Some (keep_guard (RwWord.try_upgrade Upgrading lk))
  | UpgradeDrop, RwWord.Continue => Some (drop_upread (Some WriteGuard) lk)
  | WriteGuard, RwWord.Downgrade => Some (keep_guard (RwWord.try_downgrade lk))
  | DowngradeDrop, RwWord.Continue => Some (drop_write (Some UpreadGuard) lk)
  | _, _ => None
  end.

Definition next (a : action) (p : tpc) (lk : Z) (q : WaitQueue.t)
  : option (tpc * Z * WaitQueue.t) :=
  match p, a with
  | Idle, Call t blocking =>
      if bool_decide (t = restart t)
      then Some (Attempt (if blocking then First else Direct) t, lk, q) else None
  | Attempt c t, Continue => attempt c t lk ≫= λ r, Some (r, q)
  | Waiting start (WCond w), Continue => Some (Attempt (Again w) start, lk, q)
  | Waiting start p, Continue =>
      wait_step p q ≫= λ '(p', q'), Some (Waiting start p', lk, q')
  | Closing w g, Continue => Some (Guard g, lk, close q w)
  | Guard g, Continue => guard_step RwWord.Continue g lk ≫= λ r, Some (r, q)
  | Guard g, Act a => guard_step a g lk ≫= λ r, Some (r, q)
  | Waking all p ret, Continue =>
      wake_step all p q ≫= λ '(o, q'),
      Some (match o, ret with
            | Some p', _ => Waking all p' ret
            | None, Some g => Guard g
            | None, None => Idle
            end, lk, q')
  | _, _ => None
  end.

Record state : Type := mk { lock : Z; queue : WaitQueue.t; pcs : list tpc }.

(** [RwMutex::new] with [n] threads that have not called it yet. *)
Definition new (n : nat) : state := mk 0 WaitQueue.new (replicate n Idle).

Definition exec_move (s : state) (m : nat * action) : option state :=
  pcs s !! m.1 ≫= λ p, next m.2 p (lock s) (queue s) ≫= λ '(p', lk', q'),
  Some (mk lk' q' (<[m.1 := p']> (pcs s))).

Definition step (s s' : state) : Prop := ∃ m, exec_move s m = Some s'.

Definition reachable (n : nat) (s : state) : Prop := rtc step (new n) s.

(** ** The run of the lock word machine *)

(** The token a thread stands for. *)
Definition token_of (p : tpc) : list token :=
  match p with
  | Attempt _ t => [t]
  | Closing _ g | Guard g => [g]
  | Waking _ _ (Some g) => [g]
  | _ => []
  end.

Definition tokens_of (ps : list tpc) : list token := ps ≫= token_of.

(** Attempts only carry the unblocked call tokens. *)
Definition wf_pc (p : tpc) : Prop :=
  match p with
  | Attempt _ t => t = TryRead false ∨ t = TryReadUndo false ∨ t = TryWrite false ∨
      t = TryUpread false ∨ t = TryUpreadUndo false
  | Waiting t _ => t = TryRead false ∨ t = TryWrite false ∨ t = TryUpread false
  | Closing _ g | Guard g => RwWord.in_flight g = false
  | Waking _ _ (Some g) => RwWord.in_flight g = false
  | _ => True
  end.

(** The simulation relation: up to the order of the tokens, the word machine
    reaches the same lock word. *)
Definition sim (n : nat) (s : state) : Prop :=
  length (pcs s) = n ∧ Forall wf_pc (pcs s) ∧
  ∃ ts, ts ≡ₚ tokens_of (pcs s) ∧ RwWord.reachable true (Z.of_nat n) (RwWord.mk (lock s) ts).

(** The tokens around thread [i]. *)
Lemma tokens_split ps i p :
  ps !! i = Some p →
  tokens_of ps = tokens_of (take i ps) ++ token_of p ++ tokens_of (drop (S i) ps).
Proof.
  intros Hi. unfold tokens_of at 1. rewrite <- (take_drop_middle _ _ _ Hi) at 1.
  by rewrite bind_app, bind_cons.
Qed.

Lemma tokens_update ps i p p' :
  ps !! i = Some p →
  tokens_of (<[i:=p']> ps) =
  tokens_of (take i ps) ++ token_of p' ++ tokens_of (drop (S i) ps).
Proof.
  intros Hi. pose proof (lookup_lt_Some _ _ _ Hi).
  unfold tokens_of at 1. rewrite insert_take_drop by done.
  by rewrite bind_app, bind_cons.
Qed.

(** Calls in flight are at most one per thread. *)
Lemma in_flight_le ps :
  RwWord.sum (RwWord.b2z ∘ RwWord.in_flight) (tokens_of ps) ≤ Z.of_nat (length ps).
Proof.
  unfold tokens_of. induction ps as [|p ps IH]; [done |].
  rewrite bind_cons, RwWord.sum_app; cbn [length].
  assert (RwWord.sum (RwWord.b2z ∘ RwWord.in_flight) (token_of p) ≤ 1); [| lia].
  destruct p as [| | | | |? ? []]; simpl; try lia;
    match goal with |- context [RwWord.in_flight ?t] => destruct (RwWord.in_flight t) end; simpl; lia.
Qed.

(** An attempt is one step of the word machine. *)
Lemma attempt_word c t lk p' lk' :
  wf_pc (Attempt c t) → attempt c t lk = Some (p', lk') →
  RwWord.next true RwWord.Continue t lk = Some (token_of p', lk') ∧ wf_pc p'.
Proof.
  unfold attempt. intros Ht (r & Hn & Hp)%bind_Some. destruct r as [ts l1].
  injection Hp as <- ->. rewrite Hn.
  assert (Hlen : (ts = [] ∨ ∃ t', ts = [t'] ∧
      (RwWord.in_flight t' = true → t' = TryReadUndo false ∨ t' = TryUpreadUndo false))).
  { simpl in Ht. destruct Ht as [->|[->|[->|[->| ->]]]]; simpl in Hn; injection Hn as Hn;
      unfold RwWord.try_read, RwWord.try_read_undo, RwWord.try_write, RwWord.try_upread,
        RwWord.try_upread_undo, RwWord.fetch_add, RwWord.fetch_or,
        RwWord.compare_exchange in Hn;
      repeat case_match; simplify_eq/=;
      first [by left | right; eexists; split; [done | simpl; auto; discriminate]]. }
  destruct Hlen as [->|(t' & -> & Hf)].
  - destruct c; simpl; (split; [done |]); simpl; naive_solver.
  - destruct (RwWord.in_flight t') eqn:E; [simpl; naive_solver |].
    destruct c; simpl; by rewrite E || naive_solver.
Qed.

(** So is an access through a guard. *)
Lemma guard_word a g lk p' lk' :
  guard_step a g lk = Some (p', lk') →
  RwWord.next true a g lk = Some (token_of p', lk') ∧ wf_pc p'.
Proof.
  destruct g, a; simpl; intros [= Hp];
    unfold drop_read, drop_write, drop_upread, keep_guard, RwWord.try_upgrade,
      RwWord.try_downgrade in *; cbn in Hp |- *;
    repeat case_match; simplify_eq/=; done.
Qed.

(** What one step of a thread does to its token and to the word. *)
Lemma next_word a p lk q p' lk' q' :
  wf_pc p → next a p lk q = Some (p', lk', q') →
  wf_pc p' ∧
  ((lk' = lk ∧ token_of p' = token_of p) ∨
   (∃ t, RwWord.is_call t = true ∧ lk' = lk ∧ token_of p = [] ∧ token_of p' = [t]) ∨
   (∃ t b, token_of p = [t] ∧ RwWord.next true b t lk = Some (token_of p', lk'))).
Proof.
  intros Hp Hn. destruct p as [|c t|st w|w g|g|al k ret], a as [|t0 b|a];
    try done; simpl in Hn; try (by destruct w).
  - case_bool_decide as Hd; [| done]. simplify_eq/=.
    split; [destruct t0; simpl in *; simplify_eq/=; naive_solver |].
    right; left. exists t0. by destruct t0.
  - apply bind_Some in Hn as ([p1 l1] & Ha & Hn). simplify_eq.
    apply attempt_word in Ha as [? ?]; [| done]. split; [done |]. right; right. eauto.
  - destruct w; try (apply bind_Some in Hn as ([p1 q1] & Ha & Hn)); simplify_eq; simpl in *;
      (split; [naive_solver |]); auto.
    right; left. exists st. naive_solver.
  - simplify_eq. auto.
  - apply bind_Some in Hn as ([p1 l1] & Ha & Hn). simplify_eq.
    apply guard_word in Ha as [? ?]. split; [done |]. right; right. simpl; eauto.
  - apply bind_Some in Hn as ([p1 l1] & Ha & Hn). simplify_eq.
    apply guard_word in Ha as [? ?]. split; [done |]. right; right. simpl; eauto.
  - apply bind_Some in Hn as ([o q1] & Ha & Hn). simplify_eq.
    destruct o, ret; simpl in *; auto.
Qed.

Lemma sim_step n s s' : sim n s → step s s' → sim n s'.
Proof.
  intros (Hl & Hwf & ts & Hts & Hr) ([i a] & (p & Hi & ([[p' lk'] q'] & Hn & Hs)%bind_Some)%bind_Some).
  simpl in *. simplify_eq.
  assert (wf_pc p) as Hp by (by eapply Forall_lookup_1).
  destruct (next_word _ _ _ _ _ _ _ Hp Hn) as [Hp' Hc].
  unfold sim; simpl. rewrite length_insert. split; [done |].
  split; [by apply Forall_insert |].
  rewrite (tokens_split _ _ _ Hi) in Hts. rewrite (tokens_update _ _ _ p' Hi).
  destruct Hc as [(-> & ->)|[(t & Ht & -> & Hp0 & ->)|(t & b & Hp0 & Hb)]]; [eauto |..];
    rewrite Hp0 in Hts.
  - exists (t :: ts). split; [rewrite Hts; simpl; by rewrite Permutation_middle |].
    eapply rtc_r; [done |]. apply (RwWord.step_call _ _ (RwWord.mk (lock s) ts)); [done |]. simpl.
    rewrite (RwWord.sum_perm _ _ _ Hts), RwWord.sum_app. simpl.
    pose proof (in_flight_le (take i (pcs s))). pose proof (in_flight_le (drop (S i) (pcs s))).
    pose proof (lookup_lt_Some _ _ _ Hi). rewrite length_take, length_drop in *. lia.
  - assert (t ∈ ts) as (k1 & k2 & ->)%list_elem_of_split
      by (rewrite Hts; set_solver).
    exists (k1 ++ token_of p' ++ k2). split; [| eapply rtc_r; [done | by econstructor]].
    rewrite !(Permutation_app_swap_app _ (token_of p')). f_equiv.
    apply (Permutation_cons_inv (a := t)). by rewrite !Permutation_middle.
Qed.

Lemma sim_reachable n s : reachable n s → sim n s.
Proof.
  apply rtc_preserves; [| intros ??; apply sim_step].
  assert (tokens_of (replicate n Idle) = []) as Hnil.
  { unfold tokens_of. induction n as [|n IH]; [done |]. simpl. exact IH. }
  unfold sim; simpl. rewrite length_replicate. split; [done |].
  split; [by apply Forall_replicate |]. exists [].
  split; [by rewrite Hnil | apply rtc_refl].
Qed.

(** Thread [p] can write, respectively read, the protected data. *)
Definition writes (p : tpc) : Prop := 0 < RwWord.sum RwWord.wr (token_of p).
Definition reads (p : tpc) : Prop :=
  0 < RwWord.sum RwWord.rd (token_of p) + RwWord.sum RwWord.ush (token_of p).

(** The tokens of two threads, apart from the rest. *)
Lemma tokens_two ps i j p p' :
  i ≠ j → ps !! i = Some p → ps !! j = Some p' →
  ∃ r, tokens_of ps ≡ₚ token_of p ++ token_of p' ++ r.
Proof.
  intros Hij Hi Hj. pose proof (delete_Permutation _ _ _ Hi) as H1.
  assert (∃ k, delete i ps !! k = Some p') as [k Hk].
  { destruct (decide (j < i)%nat).
    - exists j. by rewrite list_lookup_delete_lt.
    - exists (pred j). rewrite list_lookup_delete_ge by lia. by replace (S (pred j)) with j by lia. }
  pose proof (delete_Permutation _ _ _ Hk) as H2.
  exists (tokens_of (delete k (delete i ps))).
  transitivity (tokens_of (p :: p' :: delete k (delete i ps)));
    [| unfold tokens_of; by rewrite !bind_cons].
  apply bind_Permutation. rewrite H1 at 1. by f_equiv.
Qed.

(** ** Properties *)

(** [C28] Mutual exclusion between the threads of the sleeping read-write mutex, for
    fewer than [2 ^ 60] threads that make blocking and non-blocking calls, drop,
    upgrade and downgrade their guards, sleep and wake in any order: while one thread
    holds a write guard, no other thread holds a guard of any kind, also not one that
    it is about to return from a call or keeps while it wakes others. *)
Theorem rwmutex_exclusion n s i j p p' :
  Z.of_nat n < 2 ^ 60 → reachable n s → i ≠ j →
  pcs s !! i = Some p → pcs s !! j = Some p' →
  writes p → ~ (writes p' ∨ reads p').
Proof.
  intros Hn (_ & _ & ts & Hts & Hr)%sim_reachable Hij Hi Hj Hw Hany.
  destruct (RwWord.inv_reachable true (Z.of_nat n) ltac:(lia) _ Hr) as [_ Hwr _ _ _ Hex].
  simpl in *. destruct (tokens_two _ _ _ _ _ Hij Hi Hj) as [r Hr'].
  rewrite Hr' in Hts. rewrite !(RwWord.sum_perm _ _ _ Hts), !RwWord.sum_app in *.
  pose proof (RwWord.sum_facts (token_of p)). pose proof (RwWord.sum_facts (token_of p')).
  pose proof (RwWord.sum_facts r). unfold writes, reads in *. lia.
Qed.

(** *** A schedule that loses a wake-up *)

Fixpoint exec (ms : list (nat * action)) (s : state) : option state :=
  match ms with
  | [] => Some s
  | m :: ms => exec_move s m ≫= exec ms
  end.

Lemma rwmutex_exec_rtc ms s s' : exec ms s = Some s' → rtc step s s'.
Proof.
  revert s. induction ms as [|m ms IH]; simpl; intros s; [by intros [= ->] |].
  intros (s1 & Hm & Hr)%bind_Some. eapply rtc_l; [by exists m | by apply IH].
Qed.

Definition run (i k : nat) : list (nat * action) := replicate k (i, Continue).

(** Thread 0 holds the write lock and thread 1 sleeps in [write]. *)
Definition sleeping : list (nat * action) :=
  [(0%nat, Call (TryWrite false) false)] ++ run 0 1 ++
  [(1%nat, Call (TryWrite false) true)] ++ run 1 7.

(** Thread 2 has made the transient increment of a failing [try_read]; thread 0
    drops its guard and wakes thread 1, which finds the word nonzero and goes
    back to sleep; thread 2 takes its increment back and returns. *)
Definition losing : list (nat * action) :=
  sleeping ++
  [(2%nat, Call (TryRead false) false)] ++ run 2 1 ++
  [(0%nat, Act RwWord.Drop)] ++ run 0 5 ++ run 1 7 ++ run 2 1.

(** Nobody can move, unless a thread outside the mutex makes a new call. *)
Definition stuck (s : state) : bool :=
  forallb (λ p, bool_decide (next Continue p (lock s) (queue s) = None)) (pcs s).

Definition sleeping_state : state := default (new 3) (exec sleeping (new 3)).
Definition losing_state : state := default (new 3) (exec losing (new 3)).

Lemma sleeping_reachable : reachable 3 sleeping_state.
Proof. by apply (rwmutex_exec_rtc sleeping). Defined.

(** [C35] A wake-up can be lost: three threads reach a state in which the lock is
    free and every guard is dropped, yet the thread that called the blocking
    [write] is parked with its waker unset, and no thread inside the mutex can
    move.  A failing [try_read] raises the word for a moment and takes the
    increment back without waking anybody. *)
Theorem rwmutex_lost_wakeup :
  ∃ s, reachable 3 s ∧ lock s = 0 ∧
    pcs s = [Idle; Waiting (TryWrite false) (WParked 0); Idle] ∧
    has_woken (queue s) 0 = false ∧ stuck s = true.
Proof.
  exists losing_state. split; [by apply (rwmutex_exec_rtc losing) |]. by vm_compute.
Qed.

Lemma rwmutex_exclusion_witness :
  ~ (writes (Waiting (TryWrite false) (WParked 0)) ∨
     reads (Waiting (TryWrite false) (WParked 0))).
Proof.
  by apply (rwmutex_exclusion 3 sleeping_state 0 1 (Guard WriteGuard) _ ltac:(lia)
    sleeping_reachable).
Defined.

End RwMutex.
