(* ===== verification/Buddy.v ===== *)
(** * The buddy system: [osxdk/deps/frame-allocator/src/chunk.rs] and [set.rs]

    Chunk arithmetic, the splitting of ranges into chunks, and the set of free
    chunks with its coalescing insertion and its splitting allocation.  A chunk
    is its head address and its order; the intrusive list of an order is a list
    of chunks; [used] is the set of frames whose metadata slot is taken, which
    [UniqueFrame::from_unused] and [reset_as_unused] change. *)

From S2P Require Import Prelude.
Local Open Scope Z_scope.

Module Buddy.

Definition PAGE_SIZE : Z := 4096.

(** ** Chunk arithmetic *)

(** Orders stay below 52, so the product does not leave 64 bits. *)
Definition size_of_order (order : nat) : Z := Z.shiftl 1 (Z.of_nat order) * PAGE_SIZE.

(** [usize::trailing_zeros] *)
Fixpoint ctz (p : positive) : nat :=
  match p with xO p => S (ctz p) | _ => 0%nat end.
Definition trailing_zeros (x : Z) : nat :=
  match x with Zpos p => ctz p | _ => 64%nat end.

(** [usize::next_power_of_two] *)
Definition next_power_of_two (x : Z) : Z := 2 ^ Z.log2_up x.

Definition greater_order_of (size : Z) : nat :=
  trailing_zeros (next_power_of_two (size / PAGE_SIZE)).

(** [usize::BITS - size.leading_zeros() - 1], an underflow when no page fits. *)
Definition lesser_order_of (size : Z) : outcome nat :=
  let size := size / PAGE_SIZE in
  if size =? 0 then Panic else Done (Z.to_nat (Z.log2 size)).

Definition max_order_from (addr : Z) : outcome nat :=
  let n := trailing_zeros addr in
  if (n <? 12)%nat then Panic else Done (n - 12)%nat.

(** The iterator of [split_to_chunks] run to its end. *)
Fixpoint split_chunks (fuel : nat) (addr size : Z) : outcome (list (Z * nat)) :=
  if size =? 0 then Done [] else
  match fuel with
  | O => Panic
  | S fuel =>
      max_order_from addr ≫= λ o1,
      lesser_order_of size ≫= λ o2,
      let order := Nat.min o1 o2 in
      let chunk_size := size_of_order order in
      split_chunks fuel (addr + chunk_size) (size - chunk_size) ≫= λ cs,
      Done ((addr, order) :: cs)
  end.

(** Every chunk takes at least one page off the range, hence the fuel. *)
Definition split_to_chunks (addr size : Z) : outcome (list (Z * nat)) :=
  assert_that (addr mod PAGE_SIZE =? 0) ≫= λ _,
  assert_that (size mod PAGE_SIZE =? 0) ≫= λ _,
  split_chunks (Z.to_nat (size / PAGE_SIZE)) addr size.

Definition split_to_order (addr : Z) (order split_order : nat) : outcome (list Z) :=
  assert_that (addr mod size_of_order order =? 0) ≫= λ _,
  if (order <? split_order)%nat then Panic
  else Done ((λ i : nat, addr + size_of_order split_order * Z.of_nat i)
               <$> seq 0 (2 ^ (order - split_order))).

(** ** Free chunks *)

Record chunk : Type := Chunk { addr : Z; order : nat }.

#[global] Instance chunk_eq_dec : EqDecision chunk.
Proof. solve_decision. Defined.

(** [UniqueFrame::from_unused(..).expect(..)] *)
Definition frame_from_unused (a : Z) (used : gset Z) : outcome (gset Z) :=
  if bool_decide (a ∈ used) then Panic else Done ({[a]} ∪ used).

Definition from_unused (a : Z) (o : nat) (used : gset Z) : outcome (chunk * gset Z) :=
  assert_that (a mod size_of_order o =? 0) ≫= λ _,
  frame_from_unused a used ≫= λ used', Done (Chunk a o, used').

Definition buddy (c : chunk) : Z := Z.lxor (addr c) (size_of_order (order c)).

Definition split_free (c : chunk) (used : gset Z) : outcome (chunk * chunk * gset Z) :=
  match order c with
  | O => Panic
  | S new_order =>
      let right_child_addr := Z.lxor (addr c) (size_of_order new_order) in
      frame_from_unused right_child_addr used ≫= λ used',
      Done (Chunk (addr c) new_order, Chunk right_child_addr new_order, used')
  end.

Definition merge_free (self other : chunk) (used : gset Z) : outcome (chunk * gset Z) :=
  let '(self, other) := if addr other <? addr self then (other, self) else (self, other) in
  let used' := used ∖ {[addr other]} in
  assert_that (order self =? order other)%nat ≫= λ _,
  assert_that (Z.lxor (addr self) (size_of_order (order self)) =? addr other) ≫= λ _,
  Done (Chunk (addr self) (S (order self)), used').

(** ** The set of free chunks *)

Record BuddySet : Type := mk { total_size : Z; lists : list (list chunk) }.

Definition new_empty (MAX_ORDER : nat) : BuddySet := mk 0 (replicate MAX_ORDER []).

(** [list.cursor_mut_at(addr)] and [cursor.take_current()] *)
Fixpoint take_at (a : Z) (l : list chunk) : option (chunk * list chunk) :=
  match l with
  | [] => None
  | c :: l =>
      if addr c =? a then Some (c, l)
      else take_at a l ≫= λ '(b, l'), Some (b, c :: l')
  end.

(** [self.lists[i].push_front(head)] *)
Definition push_front (ls : list (list chunk)) (i : nat) (c : chunk)
  : outcome (list (list chunk)) :=
  match ls !! i with Some l => Done (<[i := c :: l]> ls) | None => Panic end.

(** The coalescing loop of [insert_chunk]; [n] lists are left, the next is [i]. *)
Fixpoint coalesce (n i : nat) (c : chunk) (ls : list (list chunk)) (used : gset Z)
  : outcome (chunk * list (list chunk) * gset Z) :=
  match n with
  | O => Done (c, ls, used)
  | S n =>
      if (n =? 0)%nat then Done (c, ls, used)   (* [i + 1 >= MAX_ORDER] *)
      else match ls !! i ≫= take_at (buddy c) with
           | None => Done (c, ls, used)
           | Some (taken, l') =>
               merge_free c taken used ≫= λ '(c', used'),
               coalesce n (S i) c' (<[i := l']> ls) used'
           end
  end.

Definition insert_chunk (s : BuddySet) (a : Z) (o : nat) (used : gset Z)
  : outcome (BuddySet * gset Z) :=
  from_unused a o used ≫= λ '(c, used),
  coalesce (length (lists s) - o) o c (lists s) used ≫= λ '(c, ls, used),
  push_front ls (order c) c ≫= λ ls,
  Done (mk (total_size s + size_of_order o) ls, used).

(** The first non-empty list from index [i] on. *)
Fixpoint first_non_empty (i : nat) (ls : list (list chunk)) : option nat :=
  match ls with
  | [] => None
  | [] :: ls => first_non_empty (S i) ls
  | _ => Some i
  end.

(** The splitting loop of [alloc_chunk]: [n] rounds, the next with index [i]. *)
Fixpoint split_down (n i : nat) (c : chunk) (ls : list (list chunk)) (used : gset Z)
  : outcome (chunk * list (list chunk) * gset Z) :=
  match n with
  | O => Done (c, ls, used)
  | S n =>
      split_free c used ≫= λ '(left_sub, right_sub, used),
      push_front ls (i - 1) right_sub ≫= λ ls,
      split_down n (i - 1) left_sub ls used
  end.

Definition alloc_chunk (s : BuddySet) (o : nat) (used : gset Z)
  : outcome (option Z * BuddySet * gset Z) :=
  match first_non_empty o (drop o (lists s)) with
  | None => Done (None, s, used)
  | Some non_empty =>
      match lists s !! non_empty with
      | Some (c :: l) =>
          split_down (non_empty - o) non_empty c (<[non_empty := l]> (lists s)) used
            ≫= λ '(c, ls, used),
          unwrap (checked_sub (total_size s) (size_of_order o)) ≫= λ total,
          Done (Some (addr c), mk total ls, used ∖ {[addr c]})
      | _ => Panic
      end
  end.

(** ** Weights: additive measures of chunks *)

Definition aligned (a : Z) (o : nat) : Prop := 0 ≤ a ∧ (size_of_order o | a).

(** A measure that a chunk shares out between its two halves. *)
Definition additive (w : Z → nat → Z) : Prop :=
  ∀ a o, w a (S o) = w a o + w (a + size_of_order o) o.

Fixpoint weight (w : Z → nat → Z) (cs : list chunk) : Z :=
  match cs with [] => 0 | c :: cs => w (addr c) (order c) + weight w cs end.

(** Whether the range of [n] bytes from [a] contains [f]. *)
Definition in_range (a n f : Z) : bool := (a <=? f) && (f <? a + n).
Definition ind (a n f : Z) : Z := if in_range a n f then 1 else 0.
Definition cover (f : Z) (a : Z) (o : nat) : Z := ind a (size_of_order o) f.
Definition bytes (a : Z) (o : nat) : Z := size_of_order o.

(** The chunks of a set. *)
Definition chunks (s : BuddySet) : list chunk := concat (lists s).

(** How many free chunks of the set contain address [f]. *)
Definition free_at (s : BuddySet) (f : Z) : Z := weight (cover f) (chunks s).

(** The free chunks of the whole system, disjoint and with exactly their heads
    taken in the frame metadata. *)
Record good (used : gset Z) (cs : list chunk) : Prop := {
  good_aligned : ∀ c, c ∈ cs → aligned (addr c) (order c);
  good_disjoint : ∀ f, weight (cover f) cs ≤ 1;
  good_heads : ∀ c f, c ∈ cs → in_range (addr c) (size_of_order (order c)) f = true →
    f ∈ used ↔ f = addr c
}.

(** Every list holds chunks of its own order, and the total size is right. *)
Record wf (MAX_ORDER : nat) (s : BuddySet) : Prop := {
  wf_length : length (lists s) = MAX_ORDER;
  wf_orders : ∀ i l c, lists s !! i = Some l → c ∈ l → order c = i;
  wf_total : total_size s = weight bytes (chunks s)
}.

(** ** Lemmas on sizes and buddies *)

Lemma size_eq o : size_of_order o = 2 ^ (Z.of_nat o + 12).
Proof.
  unfold size_of_order, PAGE_SIZE. rewrite Z.shiftl_mul_pow2 by lia.
  rewrite Z.pow_add_r by lia. lia.
Qed.

Lemma size_pos o : 0 < size_of_order o.
Proof. rewrite size_eq. apply pow2_pos. lia. Qed.

Lemma size_S o : size_of_order (S o) = 2 * size_of_order o.
Proof.
  rewrite !size_eq. replace (Z.of_nat (S o) + 12) with (Z.succ (Z.of_nat o + 12)) by lia.
  rewrite Z.pow_succ_r; lia.
Qed.

Lemma size_ge o : PAGE_SIZE ≤ size_of_order o.
Proof.
  rewrite size_eq. change PAGE_SIZE with (2 ^ 12). apply pow2_le. lia.
Qed.

#[local] Hint Resolve size_pos : omega.

Lemma aligned_down a o : aligned a (S o) → aligned a o ∧ aligned (a + size_of_order o) o.
Proof.
  intros [Ha [k ->]]. rewrite size_S in *. pose proof (size_pos o).
  split; (split; [lia |]); [exists (2 * k) | exists (2 * k + 1)]; lia.
Qed.

(** Flipping the order bit moves to the other half of the parent. *)
Lemma lxor_buddy a o :
  aligned a o →
  (Z.lxor a (size_of_order o) = a + size_of_order o ∧ aligned a (S o)) ∨
  (Z.lxor a (size_of_order o) = a - size_of_order o ∧ aligned (a - size_of_order o) (S o)).
Proof.
  intros [Ha [k ->]]. pose proof (size_pos o). pose proof (size_S o) as HS.
  assert (Hk : 0 ≤ k) by nia.
  assert (Hx : Z.lxor (k * size_of_order o) (size_of_order o) = Z.lxor k 1 * size_of_order o).
  { rewrite !size_eq. rewrite <- (Z.mul_1_l (2 ^ (Z.of_nat o + 12))) at 2.
    rewrite <- !Z.shiftl_mul_pow2, <- Z.shiftl_lxor by lia. done. }
  assert (Hl : Z.lxor k 1 = if Z.even k then k + 1 else k - 1).
  { pose proof (Z.div2_odd k) as Hd. rewrite <- Z.negb_odd.
    destruct (Z.odd k); simpl in *; rewrite Hd; by destruct (Z.div2 k) as [|[]|[]]. }
  rewrite Hx, Hl. destruct (Z.even k) eqn:E; [left | right]; (split; [nia |]);
    unfold aligned; rewrite HS.
  - split; [done |]. apply Z.even_spec in E as [j ->]. exists j. lia.
  - rewrite <- Z.negb_odd, negb_false_iff in E. apply Z.odd_spec in E as [j ->].
    split; [nia |]. exists j. lia.
Qed.

Lemma lxor_left a o :
  aligned a (S o) → Z.lxor a (size_of_order o) = a + size_of_order o.
Proof.
  intros Ha. destruct (lxor_buddy a o) as [[-> _]|[_ Hb]]; [by apply aligned_down | done |].
  exfalso. destruct Ha as [_ [i Hi]], Hb as [_ [j Hj]]. rewrite size_S in *.
  assert (2 * (i - j) = 1)
    by (apply (Z.mul_reg_r _ _ (size_of_order o)); [pose proof (size_pos o) |]; lia).
  lia.
Qed.

Lemma merge_free_spec c b used :
  aligned (addr c) (order c) → order b = order c → addr b = buddy c →
  ∃ a, merge_free c b used =
         Done (Chunk a (S (order c)), used ∖ {[a + size_of_order (order c)]}) ∧
    aligned a (S (order c)) ∧
    ((addr c = a ∧ addr b = a + size_of_order (order c)) ∨
     (addr b = a ∧ addr c = a + size_of_order (order c))).
Proof.
  intros Ha Ho Hb. unfold buddy in Hb. pose proof (size_pos (order c)).
  unfold merge_free. destruct (lxor_buddy _ _ Ha) as [[Hx Hal]|[Hx Hal]]; rewrite Hx in Hb.
  - exists (addr c). rewrite (proj2 (Z.ltb_ge (addr b) (addr c))) by lia.
    rewrite Ho, Nat.eqb_refl. simpl. rewrite Hx, Hb, Z.eqb_refl. simpl. auto.
  - exists (addr b). rewrite (proj2 (Z.ltb_lt (addr b) (addr c))) by lia.
    rewrite Ho, Nat.eqb_refl. simpl.
    replace (Z.lxor (addr b) (size_of_order (order c))) with (addr c).
    2: { rewrite lxor_left; [lia | by rewrite Hb]. }
    rewrite Z.eqb_refl. simpl. rewrite <- Hb in Hal.
    replace (addr b + size_of_order (order c)) with (addr c) by lia. auto.
Qed.

(** ** Lemmas on weights *)

Lemma weight_app w l1 l2 : weight w (l1 ++ l2) = weight w l1 + weight w l2.
Proof. induction l1 as [|c l1 IH]; simpl; lia. Qed.

#[global] Instance weight_proper w : Proper ((≡ₚ) ==> (=)) (weight w).
Proof. intros l1 l2 Hp. induction Hp; simpl; lia. Qed.

Lemma cover_additive f : additive (cover f).
Proof.
  intros a o. unfold cover, ind, in_range. rewrite size_S. pose proof (size_pos o).
  bool_cases; simpl; lia.
Qed.

Lemma bytes_additive : additive bytes.
Proof. intros a o. unfold bytes. rewrite size_S. lia. Qed.

Lemma ind_bound a n f : 0 ≤ ind a n f ≤ 1.
Proof. unfold ind. case_match; lia. Qed.

Lemma weight_cover_nonneg f cs : 0 ≤ weight (cover f) cs.
Proof.
  induction cs as [|c cs IH]; simpl; [lia |]. unfold cover at 1.
  pose proof (ind_bound (addr c) (size_of_order (order c)) f). lia.
Qed.

Lemma weight_elem f c cs :
  c ∈ cs → in_range (addr c) (size_of_order (order c)) f = true → 1 ≤ weight (cover f) cs.
Proof.
  intros (l1 & l2 & ->)%list_elem_of_split Hc. rewrite weight_app. simpl.
  unfold cover at 2, ind. rewrite Hc.
  pose proof (weight_cover_nonneg f l1). pose proof (weight_cover_nonneg f l2). lia.
Qed.

Lemma weight_covered f cs :
  1 ≤ weight (cover f) cs →
  ∃ c, c ∈ cs ∧ in_range (addr c) (size_of_order (order c)) f = true.
Proof.
  induction cs as [|c cs IH]; simpl; [lia |]. unfold cover at 1, ind.
  case_match eqn:E; intros Hw; [exists c; split; [set_solver | done] |].
  destruct IH as (d & ? & ?); [lia |]. exists d. split; [set_solver | done].
Qed.

Lemma in_range_head c : in_range (addr c) (size_of_order (order c)) (addr c) = true.
Proof. unfold in_range. pose proof (size_pos (order c)). bool_cases; simpl; lia. Qed.

Lemma cover_start a o : cover a a o = 1.
Proof.
  unfold cover, ind. pose proof (in_range_head (Chunk a o)) as Hh. simpl in Hh. by rewrite Hh.
Qed.

(** ** Preservation of [good] by the elementary moves *)

#[global] Instance good_proper used : Proper ((≡ₚ) ==> iff) (good used).
Proof.
  assert (∀ l1 l2, l1 ≡ₚ l2 → good used l1 → good used l2) as Himp.
  { intros l1 l2 Hp [H1 H2 H3]. split.
    - intros c. rewrite <- Hp. apply H1.
    - intros f. rewrite <- Hp. apply H2.
    - intros c f. rewrite <- Hp. apply H3. }
  intros l1 l2 Hp. split; by apply Himp.
Qed.

Lemma good_apart used c d r f :
  good used (c :: r) → d ∈ r →
  in_range (addr c) (size_of_order (order c)) f = true →
  in_range (addr d) (size_of_order (order d)) f = true → False.
Proof.
  intros Hg Hd Hc Hf. pose proof (good_disjoint _ _ Hg f) as Hle. simpl in Hle.
  unfold cover at 1, ind in Hle. rewrite Hc in Hle.
  pose proof (weight_elem f d r Hd Hf). lia.
Qed.

Lemma good_tail used c r : good used (c :: r) → good used r.
Proof.
  intros Hg. split.
  - intros d Hd. apply (good_aligned _ _ Hg). set_solver.
  - intros f. pose proof (good_disjoint _ _ Hg f) as Hle. simpl in Hle.
    pose proof (ind_bound (addr c) (size_of_order (order c)) f). unfold cover at 1 in Hle. lia.
  - intros d f Hd. apply (good_heads _ _ Hg). set_solver.
Qed.

Lemma good_enter used a o r :
  aligned a o → good used r →
  (∀ f, in_range a (size_of_order o) f = true → (f ∉ used) ∧ weight (cover f) r = 0) →
  good ({[a]} ∪ used) (Chunk a o :: r).
Proof.
  intros Ha Hg Hf. split.
  - intros c [->|Hc]%elem_of_cons; [done | by apply (good_aligned _ _ Hg)].
  - intros f. simpl. unfold cover at 1, ind. case_match eqn:E.
    + destruct (Hf f E). lia.
    + pose proof (good_disjoint _ _ Hg f). lia.
  - intros c f [->|Hc]%elem_of_cons Hr; simpl in *.
    + destruct (Hf f Hr). set_solver.
    + rewrite <- (good_heads _ _ Hg c f Hc Hr).
      assert (f ≠ a); [| set_solver]. intros ->.
      destruct (Hf a) as [_ H0]; [apply (in_range_head (Chunk a o)) |].
      pose proof (weight_elem a c r Hc Hr). lia.
Qed.

Lemma good_leave used c r :
  good used (c :: r) →
  good (used ∖ {[addr c]}) r ∧
  ∀ f, in_range (addr c) (size_of_order (order c)) f = true → f ∉ used ∖ {[addr c]}.
Proof.
  intros Hg. pose proof (good_tail _ _ _ Hg) as Hr. split.
  - split; [apply Hr | apply Hr |]. intros d f Hd Hf.
    rewrite <- (good_heads _ _ Hr d f Hd Hf).
    assert (f ≠ addr c); [| set_solver]. intros ->.
    eapply good_apart; [done | done | apply in_range_head | done].
  - intros f Hf. pose proof (good_heads _ _ Hg c f) as Hh. set_solver.
Qed.

Lemma good_split used c o r :
  order c = S o → good used (c :: r) →
  let right_addr := addr c + size_of_order o in
  (right_addr ∉ used) ∧
  good ({[right_addr]} ∪ used) (Chunk (addr c) o :: Chunk right_addr o :: r).
Proof.
  intros Ho Hg ra. pose proof (size_pos o). pose proof (size_S o) as HS.
  assert (Hin : ∀ f, in_range (addr c) (size_of_order (order c)) f = true → f ∈ used ↔ f = addr c)
    by (intros f; apply (good_heads _ _ Hg); set_solver).
  rewrite Ho in Hin. unfold in_range in Hin.
  assert (ra ∉ used) as Hra by (intros Hu%Hin; [lia | bool_cases; simpl; lia]).
  split; [done |]. pose proof (good_aligned _ _ Hg c ltac:(set_solver)) as Hal.
  rewrite Ho in Hal. apply aligned_down in Hal as [Hl Hr].
  split.
  - intros d. rewrite !elem_of_cons. intros [->|[->|Hd]]; [done | done |].
    apply (good_aligned _ _ Hg). set_solver.
  - intros f. pose proof (good_disjoint _ _ Hg f) as Hd. simpl in Hd |- *.
    rewrite Ho, (cover_additive f) in Hd. unfold ra. lia.
  - intros d f. rewrite !elem_of_cons. intros [->|[->|Hd]] Hf; simpl in *.
    + unfold in_range in Hf. bool_cases; try done. rewrite elem_of_union, elem_of_singleton.
      rewrite Hin by (bool_cases; simpl; lia). lia.
    + unfold in_range in Hf. bool_cases; try done. rewrite elem_of_union, elem_of_singleton.
      rewrite Hin by (bool_cases; simpl; lia). lia.
    + rewrite <- (good_heads _ _ Hg d f ltac:(set_solver) Hf).
      assert (f ≠ ra); [| set_solver]. intros ->.
      eapply good_apart; [done | done | rewrite Ho | done].
      unfold in_range. bool_cases; simpl; lia.
Qed.

Lemma good_merge used a o c b r :
  aligned a (S o) → order c = o → order b = o →
  (addr c = a ∧ addr b = a + size_of_order o) ∨ (addr b = a ∧ addr c = a + size_of_order o) →
  good used (c :: b :: r) →
  good (used ∖ {[a + size_of_order o]}) (Chunk a (S o) :: r).
Proof.
  intros Ha Hc Hb Hcb Hg. pose proof (size_pos o). pose proof (size_S o) as HS.
  assert (Hg' : good used (Chunk a o :: Chunk (a + size_of_order o) o :: r)).
  { destruct c as [ac oc], b as [ab ob]; simpl in *; subst.
    destruct Hcb as [[-> ->]|[-> ->]]; [done | by rewrite perm_swap]. }
  clear Hg Hcb Hb Hc c b. split.
  - intros d. rewrite elem_of_cons. intros [->|Hd]; [done |].
    apply (good_aligned _ _ Hg'). set_solver.
  - intros f. pose proof (good_disjoint _ _ Hg' f) as Hd. simpl in Hd |- *.
    rewrite (cover_additive f). lia.
  - intros d f. rewrite elem_of_cons. intros [->|Hd] Hf; simpl in *.
    + pose proof (good_heads _ _ Hg' (Chunk a o) f ltac:(set_solver)) as H1.
      pose proof (good_heads _ _ Hg' (Chunk (a + size_of_order o) o) f ltac:(set_solver)) as H2.
      simpl in *. rewrite elem_of_difference, elem_of_singleton.
      unfold in_range in *. bool_cases; simpl in *; try lia;
        [rewrite H1 by done | rewrite H2 by done]; lia.
    + rewrite <- (good_heads _ _ Hg' d f ltac:(set_solver) Hf).
      assert (f ≠ a + size_of_order o); [| set_solver]. intros ->.
      eapply (good_apart used (Chunk (a + size_of_order o) o)); [| done | apply in_range_head | done].
      by apply good_tail in Hg'.
Qed.

(** ** The set operations on the free lists *)

Definition shaped (ls : list (list chunk)) : Prop :=
  ∀ i l c, ls !! i = Some l → c ∈ l → order c = i.

Lemma shaped_insert ls i l :
  shaped ls → (∀ c, c ∈ l → order c = i) → shaped (<[i := l]> ls).
Proof.
  intros Hs Hl j l' c. rewrite list_lookup_insert. case_decide as Hd.
  - destruct Hd as [-> _]. intros [= <-]. apply Hl.
  - apply Hs.
Qed.

Lemma take_at_spec a l b l' :
  take_at a l = Some (b, l') → l ≡ₚ b :: l' ∧ addr b = a.
Proof.
  revert b l'. induction l as [|c l IH]; simpl; intros b l'; [done |].
  bool_cases; [by intros [= -> ->] |].
  intros ([b1 l1] & (Hp & Ha)%IH & [= -> <-])%bind_Some.
  split; [| done]. rewrite Hp. constructor.
Qed.

Lemma push_front_spec ls i c :
  (i < length ls)%nat → shaped ls → order c = i →
  ∃ ls', push_front ls i c = Done ls' ∧ length ls' = length ls ∧ shaped ls' ∧
    concat ls' ≡ₚ c :: concat ls.
Proof.
  intros Hi Hs Hc. unfold push_front.
  destruct (lookup_lt_is_Some_2 ls i Hi) as [l Hl]. rewrite Hl.
  destruct (concat_insert ls i l Hl) as (r & Hr & Hr').
  eexists. split; [done |]. rewrite length_insert. split; [done |]. split.
  - apply shaped_insert; [done |]. intros d [->|Hd]%elem_of_cons; [done |]. by eapply Hs.
  - rewrite Hr', Hr. done.
Qed.

Lemma coalesce_spec n i c ls used rest :
  (n + i = length ls)%nat → (0 < n)%nat → order c = i → shaped ls →
  good used (c :: concat ls ++ rest) →
  ∃ c' ls' used', coalesce n i c ls used = Done (c', ls', used') ∧
    (order c' < length ls')%nat ∧ length ls' = length ls ∧ shaped ls' ∧
    good used' (c' :: concat ls' ++ rest) ∧ used' ⊆ used ∧
    ∀ w, additive w → weight w (c' :: concat ls') = weight w (c :: concat ls).
Proof.
  revert i c ls used. induction n as [|n IH]; intros i c ls used Hn Hpos Hc Hs Hg; [lia |].
  assert (Hstop : ∃ c' ls' used', Done (c, ls, used) = Done (c', ls', used') ∧
    (order c' < length ls')%nat ∧ length ls' = length ls ∧ shaped ls' ∧
    good used' (c' :: concat ls' ++ rest) ∧ used' ⊆ used ∧
    ∀ w, additive w → weight w (c' :: concat ls') = weight w (c :: concat ls)).
  { exists c, ls, used. repeat (split; [done || lia |]). done. }
  simpl. destruct (Nat.eqb_spec n 0) as [|Hn0]; [done |].
  destruct (ls !! i) as [l|] eqn:Hl; simpl; [| done].
  destruct (take_at (buddy c) l) as [[b l']|] eqn:Ht; [| done].
  apply take_at_spec in Ht as [Hp Hb].
  destruct (concat_insert ls i l Hl) as (r & Hr & Hr').
  assert (order b = i) as Hob by (eapply Hs; [done |]; rewrite Hp; set_solver).
  assert (Hg' : good used (c :: b :: concat (<[i:=l']> ls) ++ rest)).
  { rewrite (Hr' l'). rewrite Hr, Hp in Hg. by rewrite <- app_assoc in Hg |- *. }
  destruct (merge_free_spec c b used) as (a & -> & Ha & Hab);
    [apply (good_aligned _ _ Hg); set_solver | lia | done |].
  apply (good_merge _ a i) in Hg'; [| by rewrite <- Hc | done | done | by rewrite <- Hc].
  simpl. destruct (IH (S i) (Chunk a (S (order c))) (<[i:=l']> ls)
    (used ∖ {[a + size_of_order (order c)]})) as (c' & ls' & used' & -> & ? & Hl' & ? & ? & ? & Hw).
  - rewrite length_insert. lia.
  - lia.
  - simpl. lia.
  - apply shaped_insert; [done |]. intros d Hd. eapply Hs; [done |]. rewrite Hp. set_solver.
  - by rewrite Hc.
  - exists c', ls', used'. rewrite length_insert in Hl'.
    repeat (split; [done || set_solver |]).
    intros w Hadd. specialize (Hw w Hadd). simpl in Hw |- *. rewrite Hw.
    rewrite (Hr' l'), Hr, Hp, Hadd. simpl. rewrite !weight_app, Hob, Hc. destruct Hab as [[-> ->]|[-> ->]]; rewrite ?Hc; lia.
Qed.

Lemma insert_chunk_effect MAX s a o used rest :
  wf MAX s → (o < MAX)%nat → aligned a o → good used (chunks s ++ rest) →
  (∀ f, in_range a (size_of_order o) f = true →
     (f ∉ used) ∧ weight (cover f) (chunks s ++ rest) = 0) →
  ∃ s' used', insert_chunk s a o used = Done (s', used') ∧
    wf MAX s' ∧ good used' (chunks s' ++ rest) ∧ used' ⊆ {[a]} ∪ used ∧
    ∀ w, additive w → weight w (chunks s') = weight w (chunks s) + w a o.
Proof.
  intros [Hlen Hs Ht] Ho Ha Hg Hf.
  pose proof (good_enter _ _ _ _ Ha Hg Hf) as Hg1.
  unfold insert_chunk, from_unused, frame_from_unused.
  replace (a mod size_of_order o =? 0) with true
    by (symmetry; apply Z.eqb_eq, Z.mod_divide; [pose proof (size_pos o); lia | apply Ha]).
  rewrite bool_decide_false by (apply (Hf a), (in_range_head (Chunk a o))). simpl.
  destruct (coalesce_spec (length (lists s) - o) o (Chunk a o) (lists s) ({[a]} ∪ used) rest)
    as (c & ls & used' & -> & Hc & Hl & Hsh & Hg' & Hu & Hw); try done; [lia | lia |].
  simpl. destruct (push_front_spec ls (order c) c) as (ls' & -> & Hl' & Hsh' & Hp); try done.
  simpl. eexists _, _. split; [done |].
  assert (Hweight : ∀ w, additive w → weight w (concat ls') = weight w (chunks s) + w a o).
  { intros w Hadd. rewrite Hp, (Hw w Hadd). simpl. unfold chunks. lia. }
  split; [split; simpl; [congruence | done |] |].
  - unfold chunks at 1; simpl. rewrite (Hweight _ bytes_additive), Ht. done.
  - unfold chunks at 1; simpl. split; [by rewrite Hp |]. done.
Qed.

Lemma split_free_spec c o used r :
  order c = S o → good used (c :: r) →
  split_free c used =
    Done (Chunk (addr c) o, Chunk (addr c + size_of_order o) o,
          {[addr c + size_of_order o]} ∪ used).
Proof.
  intros Ho Hg. unfold split_free. rewrite Ho.
  pose proof (good_aligned _ _ Hg c ltac:(set_solver)) as Hal. rewrite Ho in Hal.
  destruct (good_split _ _ _ _ Ho Hg) as [Hra _].
  rewrite (lxor_left _ _ Hal). unfold frame_from_unused. by rewrite bool_decide_false by done.
Qed.

Lemma split_down_spec n i c ls used rest :
  (n ≤ i < length ls)%nat → order c = i → shaped ls →
  good used (c :: concat ls ++ rest) →
  ∃ c' ls' used', split_down n i c ls used = Done (c', ls', used') ∧
    addr c' = addr c ∧ order c' = (i - n)%nat ∧ length ls' = length ls ∧ shaped ls' ∧
    good used' (c' :: concat ls' ++ rest) ∧
    (∀ f, f ∈ used' → f ∈ used ∨ in_range (addr c) (size_of_order i) f = true) ∧
    ∀ w, additive w → weight w (c' :: concat ls') = weight w (c :: concat ls).
Proof.
  revert i c ls used. induction n as [|n IH]; intros i c ls used Hi Hc Hs Hg.
  { exists c, ls, used. rewrite Nat.sub_0_r. repeat (split; [by auto |]). done. }
  destruct i as [|i]; [lia |]. cbn [split_down].
  rewrite (split_free_spec c i used _ Hc Hg). simpl. rewrite Nat.sub_0_r.
  destruct (good_split _ _ _ _ Hc Hg) as [_ Hg'].
  destruct (push_front_spec ls i (Chunk (addr c + size_of_order i) i))
    as (ls1 & -> & Hl1 & Hs1 & Hp1); [lia | done | done |]. simpl.
  destruct (IH i (Chunk (addr c) i) ls1 ({[addr c + size_of_order i]} ∪ used))
    as (c' & ls' & used' & -> & Ha & Ho & Hl & Hs' & Hg'' & Hu & Hw);
    [lia | done | done | by rewrite Hp1 |].
  exists c', ls', used'. repeat (split; [done || lia |]). split.
  - intros f Hf%Hu. simpl in Hf. pose proof (size_pos i). pose proof (size_S i).
    unfold in_range in *. destruct Hf as [Hf|Hf].
    + apply elem_of_union in Hf as [->%elem_of_singleton|]; [right; bool_cases; simpl; lia | auto].
    + right. bool_cases; simpl in *; lia || done.
  - intros w Hadd. specialize (Hw w Hadd). simpl in Hw |- *.
    rewrite Hw, Hp1, Hc, Hadd. simpl. lia.
Qed.

Lemma first_non_empty_spec i ls :
  match first_non_empty i ls with
  | Some k => ∃ c l, (i ≤ k)%nat ∧ ls !! (k - i)%nat = Some (c :: l) ∧
      ∀ j, (j < k - i)%nat → ls !! j = Some []
  | None => ∀ l, l ∈ ls → l = []
  end.
Proof.
  revert i. induction ls as [|[|c l] ls IH]; intros i; simpl; [set_solver | |].
  - specialize (IH (S i)). destruct (first_non_empty (S i) ls) as [k|]; [| set_solver].
    destruct IH as (c & l & Hk & Hl & Hj). exists c, l.
    replace (k - i)%nat with (S (k - S i)) by lia. split; [lia |]. split; [exact Hl |].
    intros [|j] ?; [done |]. apply Hj. lia.
  - exists c, l. rewrite Nat.sub_diag. split; [lia |]. split; [done | lia].
Qed.

Lemma alloc_chunk_effect MAX s o used rest :
  wf MAX s → good used (chunks s ++ rest) →
  (alloc_chunk s o used = Done (None, s, used) ∧ ∀ c, c ∈ chunks s → (order c < o)%nat) ∨
  ∃ a s' used', alloc_chunk s o used = Done (Some a, s', used') ∧
    (o < MAX)%nat ∧ aligned a o ∧ wf MAX s' ∧ good used' (chunks s' ++ rest) ∧
    (∀ f, in_range a (size_of_order o) f = true → f ∉ used') ∧
    (∀ f, f ∈ used' → f ∈ used ∨ 1 ≤ free_at s f) ∧
    (∀ w, additive w → weight w (chunks s) = weight w (chunks s') + w a o).
Proof.
  intros [Hlen Hs Ht] Hg. unfold alloc_chunk.
  pose proof (first_non_empty_spec o (drop o (lists s))) as Hf.
  destruct (first_non_empty o (drop o (lists s))) as [k|]; [right | left].
  - destruct Hf as (c & l & Hk & Hl & _). rewrite lookup_drop in Hl.
    replace (o + (k - o))%nat with k in Hl by lia. rewrite Hl.
    destruct (concat_insert _ _ _ Hl) as (r & Hr & Hr').
    assert (order c = k) as Hc by (eapply Hs; [done | set_solver]).
    assert (Hp : chunks s ≡ₚ c :: concat (<[k:=l]> (lists s))) by (unfold chunks; by rewrite Hr, Hr').
    rewrite Hp in Hg.
    destruct (split_down_spec (k - o) k c (<[k:=l]> (lists s)) used rest)
      as (c' & ls & used' & -> & Ha & Ho & Hl' & Hs' & Hg' & Hu & Hw).
    + rewrite length_insert. apply lookup_lt_Some in Hl. lia.
    + done.
    + apply shaped_insert; [done |]. intros d Hd. eapply Hs; [done | set_solver].
    + done.
    + replace (k - (k - o))%nat with o in Ho by lia. rewrite length_insert in Hl'. simpl.
      pose proof (good_aligned _ _ Hg' c' ltac:(set_solver)) as Hal. rewrite Ho in Hal.
      assert (Hweight : ∀ w, additive w → weight w (chunks s) = weight w (concat ls) + w (addr c') o).
      { intros w Hadd. rewrite Hp, <- (Hw w Hadd). simpl. rewrite Ho. lia. }
      pose proof (Hweight _ bytes_additive) as Hb. rewrite <- Ht in Hb. unfold bytes at 2 in Hb.
      unfold checked_sub. rewrite (proj2 (Z.leb_le _ _)).
      2: { rewrite Hb. clear. induction (concat ls) as [|d ds IH]; simpl; [lia |].
           unfold bytes at 1. pose proof (size_pos (order d)). lia. }
      simpl. destruct (good_leave _ _ _ Hg') as [Hg'' Hun]. rewrite Ho in Hun.
      eexists _, _, _. split; [done |].
      split; [apply lookup_lt_Some in Hl; lia |]. split; [done |].
      split; [split; simpl; [congruence | done | unfold chunks; simpl; lia] |].
      split; [done |]. split; [done |]. split; [| done].
      intros f [[?|Hr1]%Hu _]%elem_of_difference; [by left | right].
      unfold free_at. apply (weight_elem f c); [rewrite Hp; set_solver | by rewrite Hc].
  - split; [done |]. unfold chunks. intros c (l & Hl & Hc)%elem_of_concat.
    apply list_elem_of_lookup in Hl as [i Hi]. rewrite (Hs i l c Hi Hc).
    destruct (decide (i < o)%nat) as [|Hge]; [done |]. exfalso.
    assert (l = []) as -> by (apply Hf, list_elem_of_lookup; exists (i - o)%nat;
      rewrite lookup_drop; by replace (o + (i - o))%nat with i by lia).
    set_solver.
Qed.

(** ** Splitting ranges *)

(** [cs] are aligned chunks that cover [n] bytes from [a], in order. *)
Fixpoint tiles (a n : Z) (cs : list (Z * nat)) : Prop :=
  match cs with
  | [] => n = 0
  | (b, o) :: cs =>
      b = a ∧ aligned a o ∧ size_of_order o ≤ n ∧
      tiles (a + size_of_order o) (n - size_of_order o) cs
  end.

(** The largest order of a chunk that starts at [a] within [n] bytes. *)
Definition largest (a n : Z) (o : nat) : Prop :=
  aligned a o ∧ size_of_order o ≤ n ∧
  ∀ o', aligned a o' → size_of_order o' ≤ n → (o' ≤ o)%nat.

(** Every chunk of the cover is the largest one possible at its place. *)
Fixpoint greedy (a n : Z) (cs : list (Z * nat)) : Prop :=
  match cs with
  | [] => n = 0
  | (b, o) :: cs =>
      b = a ∧ largest a n o ∧ greedy (a + size_of_order o) (n - size_of_order o) cs
  end.

Lemma greedy_tiles a n cs : greedy a n cs → tiles a n cs.
Proof.
  revert a n. induction cs as [|[b o] cs IH]; simpl; intros a n; [done |].
  intros (-> & (? & ? & _) & ?). auto.
Qed.

Lemma ctz_divide p : (2 ^ Z.of_nat (ctz p) | Zpos p).
Proof.
  induction p as [p IH|p IH|]; simpl ctz; [apply Z.divide_1_l | | apply Z.divide_1_l].
  replace (Z.of_nat (S (ctz p))) with (Z.succ (Z.of_nat (ctz p))) by lia.
  rewrite Z.pow_succ_r by lia. change (Zpos (xO p)) with (2 * Zpos p).
  by apply Z.mul_divide_mono_l.
Qed.

Lemma ctz_max p k : (2 ^ Z.of_nat k | Zpos p) → (k ≤ ctz p)%nat.
Proof.
  revert k. induction p as [p IH|p IH|]; intros [|k]; simpl ctz; try lia.
  all: replace (Z.of_nat (S k)) with (Z.succ (Z.of_nat k)) by lia; rewrite Z.pow_succ_r by lia.
  - intros [m Hm]. lia.
  - change (Zpos (xO p)) with (2 * Zpos p). intros H%Z.mul_divide_cancel_l; [| lia].
    apply IH in H. lia.
  - intros [m Hm]. lia.
Qed.

(** An address that is not zero: the orders it is aligned to. *)
Lemma max_order_from_spec a :
  0 ≤ a < 2 ^ 64 → (PAGE_SIZE | a) →
  ∃ m, max_order_from a = Done m ∧ (∀ o, (o ≤ m)%nat → aligned a o) ∧
    ∀ o, aligned a o → size_of_order o < 2 ^ 64 → (o ≤ m)%nat.
Proof.
  intros Ha Hp. unfold max_order_from, trailing_zeros.
  destruct a as [|p|p]; [| |lia].
  - exists 52%nat. split; [done |]. split; [intros; split; [done | apply Z.divide_0_r] |].
    intros o _. rewrite size_eq. intros Hlt%Z.pow_lt_mono_r_iff; lia.
  - assert (12 ≤ ctz p)%nat as H12 by (apply ctz_max; exact Hp).
    rewrite (proj2 (Nat.ltb_ge _ _)) by done. eexists. split; [done |]. split.
    + intros o Ho. split; [done |]. rewrite size_eq.
      transitivity (2 ^ Z.of_nat (ctz p)); [| apply ctz_divide].
      exists (2 ^ (Z.of_nat (ctz p) - (Z.of_nat o + 12))). rewrite <- Z.pow_add_r by lia.
      f_equal. lia.
    + intros o [_ Hd] _. rewrite size_eq in Hd.
      replace (Z.of_nat o + 12) with (Z.of_nat (o + 12)) in Hd by lia.
      apply ctz_max in Hd. lia.
Qed.

Lemma lesser_order_of_spec n :
  PAGE_SIZE ≤ n → ∃ m, lesser_order_of n = Done m ∧ size_of_order m ≤ n ∧
    ∀ o, size_of_order o ≤ n → (o ≤ m)%nat.
Proof.
  intros Hn. unfold lesser_order_of.
  assert (1 ≤ n / PAGE_SIZE) as Hq by (apply Z.div_le_lower_bound; unfold PAGE_SIZE in *; lia).
  rewrite (proj2 (Z.eqb_neq _ _)) by lia. eexists. split; [done |].
  pose proof (Z.log2_spec (n / PAGE_SIZE) ltac:(lia)) as [Hlo Hhi].
  pose proof (Z.log2_nonneg (n / PAGE_SIZE)). split.
  - unfold size_of_order. rewrite Z.shiftl_1_l, Z2Nat.id by done.
    pose proof (Z.mul_div_le n PAGE_SIZE ltac:(done)).
    transitivity (n / PAGE_SIZE * PAGE_SIZE); [| lia].
    by apply Z.mul_le_mono_nonneg_r.
  - intros o Ho. unfold size_of_order in Ho. rewrite Z.shiftl_1_l in Ho.
    assert (2 ^ Z.of_nat o ≤ n / PAGE_SIZE) as Hle
      by (apply Z.div_le_lower_bound; unfold PAGE_SIZE in *; lia).
    apply Z.log2_le_mono in Hle. rewrite Z.log2_pow2 in Hle by lia. lia.
Qed.

Lemma split_chunks_greedy fuel a n :
  0 ≤ a → 0 ≤ n → a + n < 2 ^ 64 → (PAGE_SIZE | a) → (PAGE_SIZE | n) →
  n / PAGE_SIZE ≤ Z.of_nat fuel →
  ∃ cs, split_chunks fuel a n = Done cs ∧ greedy a n cs.
Proof.
  revert a n. induction fuel as [|fuel IH]; intros a n Ha Hn Hmax Hpa Hpn Hf;
    destruct (Z.eq_dec n 0) as [->|Hne].
  - by exists [].
  - destruct Hpn as [k ->]. rewrite Z.div_mul in Hf by done. unfold PAGE_SIZE in *. lia.
  - by exists [].
  - assert (PAGE_SIZE ≤ n) as Hpage by (destruct Hpn; unfold PAGE_SIZE in *; lia).
    unfold PAGE_SIZE in Hpage. cbn [split_chunks]. rewrite (proj2 (Z.eqb_neq _ _)) by done.
    destruct (max_order_from_spec a) as (o1 & -> & Hal & Hmo); [lia | done |].
    destruct (lesser_order_of_spec n) as (o2 & -> & Hle & Hlo); [done |]. simpl.
    set (o := Nat.min o1 o2).
    assert (Hsz : size_of_order o ≤ n).
    { transitivity (size_of_order o2); [| done]. rewrite !size_eq. apply pow2_le. lia. }
    assert (Hps : (PAGE_SIZE | size_of_order o)) by (apply Z.divide_factor_r).
    pose proof (size_ge o) as Hge. unfold PAGE_SIZE in Hge.
    destruct (IH (a + size_of_order o) (n - size_of_order o)) as (cs & -> & Hcs);
      [lia | lia | lia | by apply Z.divide_add_r | by apply Z.divide_sub_r | |].
    { destruct Hpn as [k ->], Hps as [j Hj]. rewrite Hj, <- Z.mul_sub_distr_r, !Z.div_mul in *
        by done. unfold PAGE_SIZE in *. lia. }
    eexists. split; [done |]. split; [done |]. split; [| done].
    split; [apply Hal; lia |]. split; [done |].
    intros o' Ha' Hn'. specialize (Hlo o' Hn'). specialize (Hmo o' Ha'). lia.
Qed.

Lemma split_to_chunks_effect a n :
  0 ≤ a → 0 ≤ n → a + n < 2 ^ 64 → (PAGE_SIZE | a) → (PAGE_SIZE | n) →
  ∃ cs, split_to_chunks a n = Done cs ∧ greedy a n cs.
Proof.
  intros Ha Hn Hmax Hpa Hpn. unfold split_to_chunks.
  rewrite !(proj2 (Z.eqb_eq _ _)) by (by apply Z.mod_divide). simpl.
  apply split_chunks_greedy; try done.
  rewrite Z2Nat.id; [done | by apply Z.div_pos].
Qed.

(** The size of every chunk of a cover is at most that of the range. *)
Lemma tiles_bound a n cs b o :
  tiles a n cs → (b, o) ∈ cs →
  aligned b o ∧ a ≤ b ∧ b + size_of_order o ≤ a + n ∧ size_of_order o ≤ n.
Proof.
  revert a n. induction cs as [|[b' o'] cs IH]; simpl; intros a n; [set_solver |].
  intros (-> & Hal & Hle & Ht) [[= -> ->]|Hin]%elem_of_cons; [repeat split; lia || apply Hal |].
  pose proof (size_pos o'). destruct (IH _ _ Ht Hin) as (? & ? & ? & ?). split; [done | lia].
Qed.

(** The covered addresses are those of the range, once each. *)
Lemma tiles_cover a n cs f :
  tiles a n cs → weight (cover f) ((λ '(b, o), Chunk b o) <$> cs) = ind a n f.
Proof.
  revert a n. induction cs as [|[b o] cs IH]; intros a n; [simpl | rewrite fmap_cons; simpl].
  - intros ->. unfold ind, in_range. bool_cases; simpl; lia.
  - intros (-> & _ & Hle & Ht). rewrite (IH _ _ Ht). pose proof (size_pos o).
    unfold cover, ind, in_range. bool_cases; simpl; lia.
Qed.

(** A chunk of a cover of the rest of [a, a + n) that starts inside the largest
    first chunk ends inside it. *)
Lemma largest_contains a n o b o1 :
  largest a n o → a ≤ b < a + size_of_order o → aligned b o1 →
  b + size_of_order o1 ≤ a + n → b + size_of_order o1 ≤ a + size_of_order o.
Proof.
  intros ([Ha [i Hi]] & _ & Hmax) Hb [Hb0 [j Hj]] Hn.
  destruct (decide (o1 ≤ o)%nat) as [Hle|Hgt].
  - assert (size_of_order o = 2 ^ (Z.of_nat o - Z.of_nat o1) * size_of_order o1) as Hs.
    { rewrite !size_eq, <- Z.pow_add_r by lia. f_equal. lia. }
    pose proof (size_pos o1). set (k := 2 ^ (Z.of_nat o - Z.of_nat o1)) in *. rewrite Hs in *.
    assert (j < i * k + k) by nia. nia.
  - exfalso. assert (b = a) as ->.
    { assert (size_of_order o1 = 2 ^ (Z.of_nat o1 - Z.of_nat o) * size_of_order o) as Hs.
      { rewrite !size_eq, <- Z.pow_add_r by lia. f_equal. lia. }
      pose proof (size_pos o). set (k := 2 ^ (Z.of_nat o1 - Z.of_nat o)) in *. rewrite Hs in *.
      assert (i ≤ j * k) by nia. assert (j * k < i + 1) by nia. nia. }
    apply Hgt, Hmax; [split; [done | by exists j] | lia].
Qed.

(** A cover of the range therefore breaks at the end of the largest chunk. *)
Lemma tiles_break a n o b m cs :
  largest a n o → a ≤ b < a + size_of_order o → b + m = a + n → tiles b m cs →
  ∃ cs1 cs2, cs = cs1 ++ cs2 ∧ cs1 ≠ [] ∧
    tiles (a + size_of_order o) (n - size_of_order o) cs2.
Proof.
  intros Hl. revert b m. induction cs as [|[b' o1] cs IH]; simpl; intros b m Hb Hm Ht.
  - destruct Hl as (_ & Hle & _). lia.
  - destruct Ht as (-> & Hal & Hle & Ht).
    pose proof (largest_contains a n o b o1 Hl Hb Hal ltac:(lia)) as Hend.
    pose proof (size_pos o1).
    destruct (Z.eq_dec (b + size_of_order o1) (a + size_of_order o)) as [He|Hne].
    + exists [(b, o1)], cs. split; [done |]. split; [done |].
      by rewrite He in Ht; replace (n - size_of_order o) with (m - size_of_order o1) by lia.
    + destruct (IH (b + size_of_order o1) (m - size_of_order o1)) as (c1 & c2 & -> & ? & ?);
        [lia | lia | done |].
      by exists ((b, o1) :: c1), c2.
Qed.

Lemma greedy_shortest a n cs cs' :
  greedy a n cs → tiles a n cs' → (length cs ≤ length cs')%nat.
Proof.
  revert a n cs'. induction cs as [|[b o] cs IH]; simpl; intros a n cs'; [lia |].
  intros (-> & Hl & Hg) Ht. pose proof (size_pos o).
  destruct (tiles_break a n o a n cs' Hl) as (c1 & c2 & -> & Hne & Ht2); [lia | lia | done |].
  specialize (IH _ _ _ Hg Ht2). destruct c1; [done |]. rewrite length_app. simpl. lia.
Qed.

(** The pieces of a chunk of order [so + d], cut to order [so]. *)
Lemma weight_pieces w a so d :
  additive w →
  weight w ((λ i : nat, Chunk (a + size_of_order so * Z.of_nat i) so) <$> seq 0 (2 ^ d)) =
  w a (so + d)%nat.
Proof.
  intros Hw. revert a. induction d as [|d IH]; intros a.
  - rewrite Nat.add_0_r. cbn. rewrite Z.mul_0_r, !Z.add_0_r. done.
  - rewrite Nat.pow_succ_r', Nat.mul_succ_l, Nat.mul_1_l, seq_app, fmap_app, weight_app, IH.
    rewrite Nat.add_succ_r, Hw. f_equal. rewrite <- (IH (a + size_of_order (so + d))).
    rewrite Nat.add_0_l, <- (Nat.add_0_r (2 ^ d)) at 1. rewrite <- fmap_add_seq, <- list_fmap_compose.
    f_equal. apply list_fmap_ext. intros _ i _. simpl. f_equal.
    assert (size_of_order (so + d) = size_of_order so * Z.of_nat (2 ^ d)) as ->; [| lia].
    rewrite !size_eq, Nat2Z.inj_pow, <- Z.pow_add_r by lia. f_equal. lia.
Qed.

(** ** Maximal coalescing *)

(** No two buddies are free at the same order, except at the largest one. *)
Definition coalesced (ls : list (list chunk)) : Prop :=
  ∀ i l c d, ls !! i = Some l → (S i < length ls)%nat → c ∈ l → d ∈ l → addr d ≠ buddy c.

Lemma take_at_none a l c : take_at a l = None → c ∈ l → addr c ≠ a.
Proof.
  induction l as [|d l IH]; simpl; [set_solver |]. bool_cases; [done |].
  intros Hn [->|Hc]%elem_of_cons; [done |]. apply IH; [| done].
  by destruct (take_at a l) as [[]|].
Qed.

Lemma buddy_involutive c d :
  order c = order d → addr d = buddy c → addr c = buddy d.
Proof.
  unfold buddy. intros Ho ->. rewrite <- Ho, Z.lxor_assoc, Z.lxor_nilpotent, Z.lxor_0_r. done.
Qed.

Lemma buddy_ne c : addr c ≠ buddy c.
Proof.
  unfold buddy. intros Hx%(f_equal (Z.lxor (addr c))).
  rewrite <- Z.lxor_assoc, Z.lxor_nilpotent, Z.lxor_0_l in Hx.
  pose proof (size_pos (order c)). lia.
Qed.

Lemma coalesced_insert ls i l :
  coalesced ls →
  ((S i < length ls)%nat → ∀ c d, c ∈ l → d ∈ l → addr d ≠ buddy c) →
  coalesced (<[i := l]> ls).
Proof.
  intros Hco Hl j l' c d. rewrite list_lookup_insert, length_insert. case_decide as Hd.
  - destruct Hd as [-> _]. intros [= <-] Hj. by apply Hl.
  - by apply Hco.
Qed.

(** The coalescing loop only stops where the buddy is not free. *)
Lemma coalesce_stops n i c ls used c' ls' used' :
  (n + i = length ls)%nat → order c = i → shaped ls → coalesced ls →
  coalesce n i c ls used = Done (c', ls', used') →
  shaped ls' ∧ coalesced ls' ∧ length ls' = length ls ∧
  ∀ l, ls' !! order c' = Some l → (S (order c') < length ls')%nat →
    ∀ d, d ∈ l → addr d ≠ buddy c'.
Proof.
  revert i c ls used. induction n as [|n IH]; intros i c ls used Hn Hc Hs Hco; simpl.
  { intros [= <- <- <-]. repeat (split; [done |]). intros l ?%lookup_lt_Some. lia. }
  destruct (Nat.eqb_spec n 0) as [->|Hn0].
  { intros [= <- <- <-]. repeat (split; [done |]). lia. }
  destruct (ls !! i) as [l|] eqn:Hl; simpl.
  2: { intros [= <- <- <-]. repeat (split; [done |]). rewrite Hc, Hl. done. }
  destruct (take_at (buddy c) l) as [[b l']|] eqn:Ht.
  2: { intros [= <- <- <-]. repeat (split; [done |]). rewrite Hc, Hl. intros ? [= <-] _ d.
       by apply take_at_none. }
  apply take_at_spec in Ht as [Hp Hb].
  intros ([c1 u1] & Hm & Hrec)%bind_done.
  assert (order c1 = S i) as Hc1.
  { unfold merge_free in Hm. assert (order b = i) by (eapply Hs; [done |]; rewrite Hp; set_solver).
    destruct (addr b <? addr c); apply bind_done in Hm as (? & _ & Hm);
      apply bind_done in Hm as (? & _ & [= <- _]); simpl; congruence. }
  apply IH in Hrec as (? & ? & Hlen & ?); rewrite ?length_insert in *; try done; [lia | |].
  - apply shaped_insert; [done |]. intros d Hd. eapply Hs; [done |]. rewrite Hp. set_solver.
  - apply coalesced_insert; [done |]. intros Hi d e Hd He.
    apply (Hco i l); [done | done | rewrite Hp; set_solver ..].
Qed.

Lemma insert_coalesced s a o used s' used' :
  (o < length (lists s))%nat → shaped (lists s) → coalesced (lists s) →
  insert_chunk s a o used = Done (s', used') → coalesced (lists s').
Proof.
  intros Ho Hs Hco. unfold insert_chunk.
  intros ([c u] & Hf & Hi)%bind_done. unfold from_unused in Hf.
  apply bind_done in Hf as (? & _ & Hf). apply bind_done in Hf as (? & _ & [= <- <-]).
  apply bind_done in Hi as ([[c' ls] u'] & Hc & Hi).
  apply bind_done in Hi as (ls' & Hp & [= <- <-]). simpl.
  apply coalesce_stops in Hc as (Hs' & Hco' & Hlen & Hstop); [| lia | done | done | done].
  unfold push_front in Hp. destruct (ls !! order c') as [l|] eqn:Hl; [| done].
  injection Hp as <-. apply coalesced_insert; [done |].
  intros Hlt d e. specialize (Hstop l eq_refl Hlt).
  assert (∀ d, d ∈ l → order d = order c') as Hord by (intros ? ?; by eapply Hs').
  intros [->|Hd]%elem_of_cons [->|He]%elem_of_cons.
  - apply buddy_ne.
  - by apply Hstop.
  - intros Hx. apply (Hstop d Hd). apply buddy_involutive in Hx; [done |]. by apply Hord.
  - by apply (Hco' _ _ _ _ Hl).
Qed.

Lemma split_down_coalesced n i c ls used c' ls' used' :
  (n ≤ i)%nat → (∀ j, (i - n ≤ j < i)%nat → ls !! j = Some []) → coalesced ls →
  split_down n i c ls used = Done (c', ls', used') → coalesced ls'.
Proof.
  revert i c ls used. induction n as [|n IH]; intros i c ls used Hn He Hco; simpl.
  { by intros [= _ <- _]. }
  intros ([[l r] u] & _ & Hd)%bind_done. apply bind_done in Hd as (ls1 & Hp & Hd).
  unfold push_front in Hp. rewrite (He (i - 1)%nat) in Hp by lia. injection Hp as <-.
  apply IH in Hd; [done | lia | |].
  - intros j Hj. rewrite list_lookup_insert_ne by lia. apply He. lia.
  - apply coalesced_insert; [done |]. intros _ x y ->%list_elem_of_singleton
      ->%list_elem_of_singleton. apply buddy_ne.
Qed.

Lemma alloc_coalesced s o used r s' used' :
  coalesced (lists s) → alloc_chunk s o used = Done (r, s', used') → coalesced (lists s').
Proof.
  intros Hco. unfold alloc_chunk.
  pose proof (first_non_empty_spec o (drop o (lists s))) as Hf.
  destruct (first_non_empty o (drop o (lists s))) as [k|]; [| by intros [= _ <- _]].
  destruct Hf as (c & l & Hk & Hl & Hempty). rewrite lookup_drop in Hl.
  replace (o + (k - o))%nat with k in Hl by lia. rewrite Hl.
  intros ([[c' ls] u] & Hd & Ha)%bind_done. apply bind_done in Ha as (t & _ & [= _ <- _]). simpl.
  eapply split_down_coalesced; [| | | done]; [lia | |].
  - intros j Hj. rewrite list_lookup_insert_ne by lia. specialize (Hempty (j - o)%nat ltac:(lia)).
    rewrite lookup_drop in Hempty. by replace (o + (j - o))%nat with j in Hempty by lia.
  - apply coalesced_insert; [done |]. intros Hlt x y Hx Hy.
    apply (Hco k (c :: l)); [done | done | set_solver ..].
Qed.

(** ** Runs of one set *)

(** Callers insert chunks that are aligned, of a supported order, with unused
    frames, and not in the set already. *)
Inductive step (MAX : nat) : BuddySet * gset Z → BuddySet * gset Z → Prop :=
| step_insert s used a o s' used' :
    (o < MAX)%nat → aligned a o →
    (∀ f, in_range a (size_of_order o) f = true → (f ∉ used) ∧ free_at s f = 0) →
    insert_chunk s a o used = Done (s', used') →
    step MAX (s, used) (s', used')
| step_alloc s used o r s' used' :
    alloc_chunk s o used = Done (r, s', used') →
    step MAX (s, used) (s', used').

Definition reachable (MAX : nat) (st : BuddySet * gset Z) : Prop :=
  ∃ used, rtc (step MAX) (new_empty MAX, used) st.

Record inv (MAX : nat) (st : BuddySet * gset Z) : Prop := {
  inv_wf : wf MAX st.1;
  inv_good : good st.2 (chunks st.1);
  inv_coalesced : coalesced (lists st.1)
}.

Lemma concat_replicate_nil {A} n : concat (replicate n ([] : list A)) = [].
Proof. induction n; simpl; auto. Qed.

Lemma inv_empty MAX used : inv MAX (new_empty MAX, used).
Proof.
  assert (chunks (new_empty MAX) = []) as Hc by apply concat_replicate_nil.
  split; simpl; [split; simpl | rewrite Hc; split |].
  - by rewrite length_replicate.
  - intros i l c Hl. apply lookup_replicate in Hl as [-> _]. set_solver.
  - by rewrite Hc.
  - set_solver.
  - simpl. lia.
  - set_solver.
  - intros i l c d Hl. apply lookup_replicate in Hl as [-> _]. set_solver.
Qed.

Lemma inv_preserved MAX st st' : inv MAX st → step MAX st st' → inv MAX st'.
Proof.
  intros Hinv Hs. destruct Hs as [s used a o s' used' Ho Ha Hf He|s used o r s' used' He];
    destruct Hinv as [Hwf Hg Hco]; simpl in *.
  - destruct (insert_chunk_effect MAX s a o used []) as (s1 & u1 & He1 & ? & Hg1 & _);
      rewrite ?app_nil_r; try done.
    rewrite He1 in He. injection He as -> ->. rewrite app_nil_r in Hg1.
    split; simpl; [done | done |]. eapply insert_coalesced; [| | | done];
      [by rewrite (wf_length _ _ Hwf) | exact (wf_orders _ _ Hwf) | done].
  - assert (coalesced (lists s')) by (by eapply alloc_coalesced).
    destruct (alloc_chunk_effect MAX s o used []) as [[He1 _]|(a & s1 & u1 & He1 & _ & _ & ? & Hg1 & _)];
      [done | by rewrite app_nil_r | ..]; rewrite He1 in He; injection He as <- <- <-; [done |].
    rewrite app_nil_r in Hg1. done.
Qed.

Lemma buddy_inv_reachable MAX st : reachable MAX st → inv MAX st.
Proof.
  intros [used Hr]. revert Hr. apply rtc_preserves; [apply inv_empty |].
  intros ??; apply inv_preserved.
Qed.

(** ** Completeness of allocation *)

(** Two aligned chunks of the same order that meet are the same. *)
Lemma aligned_meet a b o f :
  aligned a o → aligned b o →
  in_range a (size_of_order o) f = true → in_range b (size_of_order o) f = true → a = b.
Proof.
  intros [_ [i ->]] [_ [j ->]] Hi Hj. unfold in_range in *. pose proof (size_pos o).
  bool_cases; try done. assert (i = j) as -> by nia. done.
Qed.

(** In a coalesced set no aligned block is made up of smaller free chunks. *)
Lemma coalesced_no_cover MAX s used o a :
  inv MAX (s, used) → (o < MAX)%nat → aligned a o →
  (∀ f, in_range a (size_of_order o) f = true →
     ∃ c, c ∈ chunks s ∧ (order c < o)%nat ∧
       in_range (addr c) (size_of_order (order c)) f = true) →
  False.
Proof.
  intros [Hwf Hg Hco]. simpl in *. revert a. induction o as [|o IH]; intros a Ho Ha Hcov.
  { destruct (Hcov a) as (c & _ & ? & _); [apply (in_range_head (Chunk a 0)) | lia]. }
  destruct (aligned_down _ _ Ha) as [Hl Hr]. pose proof (size_pos o). pose proof (size_S o).
  assert (Hhalf : ∀ b, aligned b o → (a ≤ b ∧ b + size_of_order o ≤ a + size_of_order (S o)) →
    Chunk b o ∈ chunks s).
  { intros b Hb Hin. destruct (decide (Chunk b o ∈ chunks s)) as [|Hn]; [done |]. exfalso.
    apply (IH b); [lia | done |]. intros f Hf.
    destruct (Hcov f) as (c & Hc & Hlt & Hcf); [unfold in_range in *; bool_cases; simpl in *; lia || done |].
    exists c. split; [done |]. split; [| done].
    destruct (decide (order c = o)) as [He|]; [| lia]. exfalso. apply Hn.
    pose proof (good_aligned _ _ Hg c Hc) as Hac. rewrite He in Hac, Hcf.
    rewrite <- (aligned_meet _ _ _ _ Hac Hb Hcf Hf). by destruct c; simpl in *; subst. }
  assert (Hlist : ∀ b, Chunk b o ∈ chunks s → ∃ l, lists s !! o = Some l ∧ Chunk b o ∈ l).
  { intros b (l & Hl' & Hbl)%elem_of_concat. apply list_elem_of_lookup in Hl' as [i Hi].
    pose proof (wf_orders _ _ Hwf _ _ _ Hi Hbl) as He. simpl in He. subst i. eauto. }
  destruct (Hlist a) as (l & Hlk & Hal); [apply Hhalf; [done | lia] |].
  destruct (Hlist (a + size_of_order o)) as (l' & Hlk' & Har); [apply Hhalf; [done | lia] |].
  rewrite Hlk in Hlk'. injection Hlk' as <-.
  apply (Hco o l (Chunk a o) (Chunk (a + size_of_order o) o));
    [done | rewrite (wf_length _ _ Hwf); lia | done | done |].
  symmetry. by apply lxor_left.
Qed.

(** ** Properties *)

(** Inserting a chunk into a set that any run of the set's operations has
    reached: for a chunk of a supported order, aligned, with unused frames, and
    disjoint from the free chunks, no assertion fails and no frame metadata is
    found taken; whatever coalescing happens, exactly the addresses of the chunk
    become free, once each, and the total size grows by its size. *)
Theorem buddy_insert_exact MAX s used a o :
  reachable MAX (s, used) → (o < MAX)%nat → aligned a o →
  (∀ f, in_range a (size_of_order o) f = true → (f ∉ used) ∧ free_at s f = 0) →
  ∃ s' used', insert_chunk s a o used = Done (s', used') ∧ reachable MAX (s', used') ∧
    total_size s' = total_size s + size_of_order o ∧
    ∀ f, free_at s' f = free_at s f + cover f a o ∧ 0 ≤ free_at s' f ≤ 1.
Proof.
  intros Hr Ho Ha Hf. pose proof (buddy_inv_reachable _ _ Hr) as [Hwf Hg _]. simpl in *.
  destruct (insert_chunk_effect MAX s a o used [])
    as (s' & used' & He & Hwf' & Hg' & _ & Hw); rewrite ?app_nil_r in *; try done.
  exists s', used'. split; [done |].
  split; [destruct Hr as [u Hr]; exists u; eapply rtc_r; [done | by eapply step_insert] |].
  rewrite (wf_total _ _ Hwf), (wf_total _ _ Hwf'), (Hw _ bytes_additive). split; [done |].
  intros f. unfold free_at. rewrite (Hw _ (cover_additive f)). split; [done |].
  rewrite <- (Hw _ (cover_additive f)). split; [apply weight_cover_nonneg | apply Hg'].
Qed.

(** Allocating a chunk: never a panic; the chunk handed out is aligned to
    its order, all its addresses were free and are not any more, nothing else
    changes, its frames are unused, and the total size shrinks by its size; or
    nothing is returned and nothing changes. *)
Theorem buddy_alloc_exact MAX s used o :
  reachable MAX (s, used) →
  alloc_chunk s o used = Done (None, s, used) ∨
  ∃ a s' used', alloc_chunk s o used = Done (Some a, s', used') ∧
    reachable MAX (s', used') ∧ aligned a o ∧
    total_size s = total_size s' + size_of_order o ∧
    (∀ f, free_at s f = free_at s' f + cover f a o ∧ 0 ≤ free_at s' f) ∧
    ∀ f, in_range a (size_of_order o) f = true → f ∉ used'.
Proof.
  intros Hr. pose proof (buddy_inv_reachable _ _ Hr) as [Hwf Hg _]. simpl in *.
  destruct (alloc_chunk_effect MAX s o used [])
    as [[He _]|(a & s' & used' & He & _ & Ha & Hwf' & Hg' & Hu & _ & Hw)];
    [done | by rewrite app_nil_r | by left | right].
  exists a, s', used'. split; [done |].
  split; [destruct Hr as [u Hr]; exists u; eapply rtc_r; [done | by eapply step_alloc] |].
  split; [done |].
  rewrite (wf_total _ _ Hwf), (wf_total _ _ Hwf'), (Hw _ bytes_additive). split; [done |].
  split; [| done]. intros f. unfold free_at.
  rewrite (Hw _ (cover_additive f)). split; [done | apply weight_cover_nonneg].
Qed.

(** [C23] Allocation is complete: thanks to eager coalescing, whenever some
    aligned block of a supported order consists of free memory only, in chunks
    of whatever sizes, an allocation of that order succeeds. *)
Theorem buddy_alloc_complete MAX s used o a :
  reachable MAX (s, used) → (o < MAX)%nat → aligned a o →
  (∀ f, in_range a (size_of_order o) f = true → free_at s f = 1) →
  ∃ b s' used', alloc_chunk s o used = Done (Some b, s', used').
Proof.
  intros Hr Ho Ha Hf. pose proof (buddy_inv_reachable _ _ Hr) as Hinv.
  destruct (alloc_chunk_effect MAX s o used [])
    as [[_ Hsmall]|(b & s' & used' & He & _)]; [apply Hinv | rewrite app_nil_r; apply Hinv | |];
    [exfalso | eauto].
  apply (coalesced_no_cover MAX s used o a); try done.
  intros f Hin. specialize (Hf f Hin). unfold free_at in Hf.
  destruct (weight_covered f (chunks s)) as (c & Hc & Hcf); [lia |]. eauto.
Qed.

(** [split_to_chunks] on a page-aligned range: it ends without a panic, the
    chunks follow each other from the start to the end of the range, each
    aligned to its order, and no other sequence of aligned chunks that covers
    the range is shorter. *)
Theorem split_to_chunks_shortest a n :
  0 ≤ a → 0 ≤ n → a + n < 2 ^ 64 → (PAGE_SIZE | a) → (PAGE_SIZE | n) →
  ∃ cs, split_to_chunks a n = Done cs ∧ tiles a n cs ∧
    ∀ cs', tiles a n cs' → (length cs ≤ length cs')%nat.
Proof.
  intros Ha Hn Hmax Hpa Hpn.
  destruct (split_to_chunks_effect a n) as (cs & He & Hg); try done.
  exists cs. split; [done |]. split; [by apply greedy_tiles |].
  intros cs'. by apply greedy_shortest.
Qed.

(** *** Concrete runs *)

(** Four pages at 64 KiB, inserted as one chunk. *)
Definition four_pages : BuddySet * gset Z :=
  match insert_chunk (new_empty 5) 65536 2 ∅ with Done st => st | Panic => (new_empty 5, ∅) end.

Lemma empty_reachable : reachable 5 (new_empty 5, ∅).
Proof. exists ∅. apply rtc_refl. Defined.

Lemma aligned_64k : aligned 65536 2.
Proof. split; [lia | by exists 4]. Defined.

Lemma empty_unused f :
  in_range 65536 (size_of_order 2) f = true →
  (f ∉ (∅ : gset Z)) ∧ free_at (new_empty 5) f = 0.
Proof. intros _. split; [apply not_elem_of_empty | done]. Defined.

Lemma four_pages_reachable : reachable 5 four_pages.
Proof.
  exists ∅. apply rtc_once. eapply (step_insert 5 (new_empty 5) ∅ 65536 2);
    [lia | apply aligned_64k | apply empty_unused | reflexivity].
Defined.

Lemma buddy_insert_exact_witness :
  ∃ s' used', insert_chunk (new_empty 5) 65536 2 ∅ = Done (s', used') ∧
    reachable 5 (s', used') ∧ total_size s' = total_size (new_empty 5) + size_of_order 2 ∧
    ∀ f, free_at s' f = free_at (new_empty 5) f + cover f 65536 2 ∧ 0 ≤ free_at s' f ≤ 1.
Proof.
  apply (buddy_insert_exact 5 (new_empty 5) ∅ 65536 2 empty_reachable ltac:(lia)
    aligned_64k empty_unused).
Defined.

Lemma buddy_alloc_exact_witness :
  alloc_chunk four_pages.1 0 four_pages.2 = Done (None, four_pages.1, four_pages.2) ∨
  ∃ a s' used', alloc_chunk four_pages.1 0 four_pages.2 = Done (Some a, s', used') ∧
    reachable 5 (s', used') ∧ aligned a 0 ∧
    total_size four_pages.1 = total_size s' + size_of_order 0 ∧
    (∀ f, free_at four_pages.1 f = free_at s' f + cover f a 0 ∧ 0 ≤ free_at s' f) ∧
    ∀ f, in_range a (size_of_order 0) f = true → f ∉ used'.
Proof. exact (buddy_alloc_exact 5 four_pages.1 four_pages.2 0 four_pages_reachable). Defined.

Lemma buddy_alloc_complete_witness :
  ∃ b s' used', alloc_chunk four_pages.1 1 four_pages.2 = Done (Some b, s', used').
Proof.
  apply (buddy_alloc_complete 5 four_pages.1 four_pages.2 1 65536 four_pages_reachable);
    [lia | apply aligned_down, aligned_64k |].
  intros f Hf. change (free_at four_pages.1 f) with (ind 65536 16384 f + 0).
  change (size_of_order 1) with 8192 in Hf. unfold ind, in_range in *.
  destruct (Z.leb_spec 65536 f); [| done]. destruct (Z.ltb_spec f (65536 + 8192)); [| done].
  destruct (Z.ltb_spec f (65536 + 16384)); [done | lia].
Defined.

Lemma split_to_chunks_shortest_witness :
  ∃ cs, split_to_chunks 24576 131072 = Done cs ∧ tiles 24576 131072 cs ∧
    ∀ cs', tiles 24576 131072 cs' → (length cs ≤ length cs')%nat.
Proof.
  apply (split_to_chunks_shortest 24576 131072); [lia | lia | lia | by exists 6 | by exists 32].
Defined.

(** The chunks of the range of the repository's unit test. *)
Example split_to_chunks_example :
  split_to_chunks 24576 131072 =
  Done [(24576, 1%nat); (32768, 3%nat); (65536, 4%nat); (131072, 2%nat); (147456, 1%nat)].
Proof. reflexivity. Qed.

End Buddy.
