(* ===== verification/FramePools.v ===== *)
(** * Per-CPU and global pools: [osxdk/deps/frame-allocator/src/pools/]

    [mod.rs] and [balancing.rs]: allocation from the pool of the current CPU with
    the global pool as a fallback, deallocation by chunk size, and the balancing
    of the two at the end of every operation.  An operation runs with interrupts
    off on one CPU; the global pool is locked the first time it is needed and
    stays locked to the end of the operation, so an operation is one atomic step
    on the pool of its CPU and the global pool.  The number of CPUs is an
    argument. *)

From S2P Require Import Prelude Buddy.
Local Open Scope Z_scope.

Module FramePools.
Import Buddy.

(** ** Where chunks go: the interface of the pools to range deallocation *)

(** A place that takes in free chunks of orders below [sink_max]. *)
Class ChunkSink (S : Type) : Type := {
  sink_insert : S → Z → nat → gset Z → outcome (S * gset Z);
  sink_chunks : S → list chunk;
  sink_wf : S → Prop;
  sink_max : nat
}.

(** What a sink promises: it takes a disjoint, unused, aligned chunk without a
    panic, next to any other free chunks [rest] of the system. *)
Class ChunkSinkLaws (S : Type) `{ChunkSink S} : Prop := {
  sink_insert_spec s a o used rest :
    sink_wf s → (o < sink_max)%nat → aligned a o →
    good used (sink_chunks s ++ rest) →
    (∀ f, in_range a (size_of_order o) f = true →
       (f ∉ used) ∧ weight (cover f) (sink_chunks s ++ rest) = 0) →
    ∃ s' used', sink_insert s a o used = Done (s', used') ∧
      sink_wf s' ∧ good used' (sink_chunks s' ++ rest) ∧ used' ⊆ {[a]} ∪ used ∧
      ∀ w, additive w → weight w (sink_chunks s') = weight w (sink_chunks s) + w a o
}.

(** [for_each(|(addr, order)| insert_chunk(addr, order))] *)
Fixpoint sink_all {S} `{ChunkSink S} (s : S) (cs : list (Z * nat)) (used : gset Z)
  : outcome (S * gset Z) :=
  match cs with
  | [] => Done (s, used)
  | (a, o) :: cs => sink_insert s a o used ≫= λ '(s, used), sink_all s cs used
  end.

(** ** The pools *)

Definition MAX_BUDDY_ORDER : nat := 32.
Definition MAX_LOCAL_BUDDY_ORDER : nat := 18.

(** What an operation sees: the pool of its CPU, the global pool, whether it
    has locked the global pool, and the snapshot of the global size. *)
Record Pools : Type := mk {
  local : BuddySet;
  global : BuddySet;
  locked : bool;
  snapshot : Z
}.

(** [OnDemandGlobalLock::new]: an operation starts without the lock. *)
Definition unlock (p : Pools) : Pools := mk (local p) (global p) false (snapshot p).

Definition set_local (p : Pools) (s : BuddySet) : Pools :=
  mk s (global p) (locked p) (snapshot p).

(** [*global_pool.get() = s]: using the global pool locks it. *)
Definition set_global (p : Pools) (s : BuddySet) : Pools :=
  mk (local p) s true (snapshot p).

Definition get_global_size (p : Pools) : Z :=
  if locked p then total_size (global p) else snapshot p.

Definition update_global_size_if_locked (p : Pools) : Pools :=
  mk (local p) (global p) (locked p)
     (if locked p then total_size (global p) else snapshot p).

#[global] Instance local_sink : ChunkSink BuddySet := {
  sink_insert := insert_chunk; sink_chunks := chunks;
  sink_wf := wf MAX_LOCAL_BUDDY_ORDER; sink_max := MAX_LOCAL_BUDDY_ORDER }.

Definition global_sink : ChunkSink BuddySet := {|
  sink_insert := insert_chunk; sink_chunks := chunks;
  sink_wf := wf MAX_BUDDY_ORDER; sink_max := MAX_BUDDY_ORDER |}.

Definition pool_chunks (p : Pools) : list chunk := chunks (local p) ++ chunks (global p).

Definition pools_wf (p : Pools) : Prop :=
  wf MAX_LOCAL_BUDDY_ORDER (local p) ∧ wf MAX_BUDDY_ORDER (global p).

(** The body of the loop of [do_dealloc]. *)
Definition dealloc_chunk (p : Pools) (a : Z) (o : nat) (used : gset Z)
  : outcome (Pools * gset Z) :=
  if (MAX_LOCAL_BUDDY_ORDER <=? o)%nat
  then insert_chunk (global p) a o used ≫= λ '(s, used), Done (set_global p s, used)
  else insert_chunk (local p) a o used ≫= λ '(s, used), Done (set_local p s, used).

#[global] Instance pools_sink : ChunkSink Pools := {
  sink_insert := dealloc_chunk; sink_chunks := pool_chunks;
  sink_wf := pools_wf; sink_max := MAX_BUDDY_ORDER }.

Fixpoint do_dealloc (p : Pools) (segments : list (Z * Z)) (used : gset Z)
  : outcome (Pools * gset Z) :=
  match segments with
  | [] => Done (p, used)
  | (a, size) :: segments =>
      split_to_chunks a size ≫= λ cs,
      sink_all p cs used ≫= λ '(p, used),
      do_dealloc p segments used
  end.

(** ** Balancing *)

Definition cache_expected_size (num_cpus global_size : Z) : Z := global_size / num_cpus / 2.
Definition cache_minimal_size (num_cpus global_size : Z) : Z :=
  cache_expected_size num_cpus global_size / 8.
Definition cache_maximal_size (num_cpus global_size : Z) : Z :=
  cache_expected_size num_cpus global_size * 2.

(** [balance_to(a, b, order)], with [b] given as a sink of orders below [max2]. *)
Fixpoint balance_to (sb : ChunkSink BuddySet) (a b : BuddySet) (order : nat) (used : gset Z)
  : outcome (BuddySet * BuddySet * gset Z) :=
  alloc_chunk a order used ≫= λ '(allocated_from_a, a, used),
  match allocated_from_a with
  | Some ad =>
      if (@sink_max _ sb <=? order)%nat
      then
        let inserted_order := (@sink_max _ sb - 1)%nat in
        split_to_order ad order inserted_order ≫= λ l,
        @sink_all _ sb b ((λ ad, (ad, inserted_order)) <$> l) used ≫= λ '(b, used),
        Done (a, b, used)
      else @sink_insert _ sb b ad order used ≫= λ '(b, used), Done (a, b, used)
  | None =>
      match order with
      | S ((S _) as order') =>
          balance_to sb a b order' used ≫= λ '(a, b, used),
          balance_to sb a b order' used
      | _ => Done (a, b, used)
      end
  end.

Definition balance (num_cpus : Z) (p : Pools) (used : gset Z) : outcome (Pools * gset Z) :=
  let global_size := get_global_size p in
  let minimal_local_size := cache_minimal_size num_cpus global_size in
  let expected_local_size := cache_expected_size num_cpus global_size in
  let maximal_local_size := cache_maximal_size num_cpus global_size in
  let local_size := total_size (local p) in
  if maximal_local_size <=? local_size then
    if local_size =? 0 then Done (p, used)
    else
      unwrap (checked_sub local_size expected_local_size) ≫= λ expected_removal,
      lesser_order_of expected_removal ≫= λ lesser_order,
      balance_to global_sink (local p) (global p) lesser_order used ≫= λ '(l, g, used),
      Done (set_global (set_local p l) g, used)
  else if local_size <? minimal_local_size then
    if global_size =? 0 then Done (p, used)
    else
      unwrap (checked_sub expected_local_size local_size) ≫= λ expected_allocation,
      lesser_order_of expected_allocation ≫= λ lesser_order,
      balance_to local_sink (global p) (local p) lesser_order used ≫= λ '(g, l, used),
      Done (set_global (set_local p l) g, used)
  else Done (p, used).

(** ** The operations *)

(** [Layout]: a size and an alignment. *)
Record Layout : Type := layout { size : Z; align : Z }.

Definition alloc_order (l : Layout) : nat :=
  Nat.max (greater_order_of (size l)) (greater_order_of (align l)).

(** [alloc] up to the give-back of the part that was not asked for. *)
Definition alloc_take (l : Layout) (p : Pools) (used : gset Z)
  : outcome (option Z * Pools * gset Z) :=
  let order := alloc_order l in
  (if (order <? MAX_LOCAL_BUDDY_ORDER)%nat
   then alloc_chunk (local p) order used ≫= λ '(r, s, used), Done (r, set_local p s, used)
   else Done (None, p, used)) ≫= λ '(chunk_addr, p, used),
  match chunk_addr with
  | Some a => Done (Some a, p, used)
  | None =>
      alloc_chunk (global p) order used ≫= λ '(r, s, used), Done (r, set_global p s, used)
  end.

Definition alloc_trim (l : Layout) (chunk_addr : option Z) (p : Pools) (used : gset Z)
  : outcome (Pools * gset Z) :=
  let allocated_size := size_of_order (alloc_order l) in
  if size l <? allocated_size
  then match chunk_addr with
       | Some a => do_dealloc p [(a + size l, allocated_size - size l)] used
       | None => Done (p, used)
       end
  else Done (p, used).

Definition reserve (l : Layout) (p : Pools) (used : gset Z)
  : outcome (option Z * Pools * gset Z) :=
  alloc_take l p used ≫= λ '(chunk_addr, p, used),
  alloc_trim l chunk_addr p used ≫= λ '(p, used),
  Done (chunk_addr, p, used).

Definition alloc (num_cpus : Z) (l : Layout) (p : Pools) (used : gset Z)
  : outcome (option Z * Pools * gset Z) :=
  reserve l (unlock p) used ≫= λ '(chunk_addr, p, used),
  balance num_cpus p used ≫= λ '(p, used),
  Done (chunk_addr, update_global_size_if_locked p, used).

Definition dealloc (num_cpus : Z) (segments : list (Z * Z)) (p : Pools) (used : gset Z)
  : outcome (Pools * gset Z) :=
  do_dealloc (unlock p) segments used ≫= λ '(p, used),
  balance num_cpus p used ≫= λ '(p, used),
  Done (update_global_size_if_locked p, used).

Definition add_free_memory (a n : Z) (p : Pools) (used : gset Z) : outcome (Pools * gset Z) :=
  split_to_chunks a n ≫= λ cs,
  @sink_all _ global_sink (global p) cs used ≫= λ '(g, used),
  Done (update_global_size_if_locked
          (if bool_decide (cs = []) then unlock p else set_global (unlock p) g), used).

(** ** Range insertion against the interface *)

Definition to_chunks (cs : list (Z * nat)) : list chunk := (λ '(b, o), Chunk b o) <$> cs.

(** The chunks [cs] can be given to a system with metadata [used] and free
    chunks [all]: aligned, small enough, disjoint, unused and not free yet. *)
Record insertable (max : nat) (used : gset Z) (all : list chunk) (cs : list (Z * nat)) : Prop := {
  ins_chunks : ∀ a o, (a, o) ∈ cs → aligned a o ∧ (o < max)%nat;
  ins_once : ∀ f, weight (cover f) (to_chunks cs) ≤ 1;
  ins_new : ∀ f, 1 ≤ weight (cover f) (to_chunks cs) →
    (f ∉ used) ∧ weight (cover f) all = 0
}.

Section Sinks.
Context {S : Type} `{ChunkSinkLaws S}.

Lemma sink_all_effect cs s used rest :
  sink_wf s → good used (sink_chunks s ++ rest) →
  insertable sink_max used (sink_chunks s ++ rest) cs →
  ∃ s' used', sink_all s cs used = Done (s', used') ∧
    sink_wf s' ∧ good used' (sink_chunks s' ++ rest) ∧
    (∀ f, f ∈ used' → f ∈ used ∨ 1 ≤ weight (cover f) (to_chunks cs)) ∧
    ∀ w, additive w →
      weight w (sink_chunks s') = weight w (sink_chunks s) + weight w (to_chunks cs).
Proof.
  revert s used. induction cs as [|[a o] cs IH]; intros s used Hwf Hg [Hal Hone Hnew].
  { exists s, used. repeat (split; [by auto |]). intros w _. simpl. lia. }
  simpl in Hone, Hnew.
  assert (Hpos : ∀ f, 0 ≤ weight (cover f) (to_chunks cs)) by (intros; apply weight_cover_nonneg).
  destruct (Hal a o) as [Hao Ho]; [set_solver |].
  destruct (sink_insert_spec s a o used rest) as (s1 & u1 & He & Hwf1 & Hg1 & Hu1 & Hw1);
    [done | done | done | done | |].
  { intros f Hf. apply Hnew. unfold cover at 1, ind. rewrite Hf. specialize (Hpos f). lia. }
  assert (Hcov1 : ∀ f, weight (cover f) (sink_chunks s1 ++ rest) =
    cover f a o + weight (cover f) (sink_chunks s ++ rest)).
  { intros f. rewrite !weight_app, (Hw1 _ (cover_additive f)). lia. }
  destruct (IH s1 u1 Hwf1 Hg1) as (s' & used' & He' & ? & ? & Hu & Hw).
  { split.
    - intros b o' Hin. apply Hal. set_solver.
    - intros f. specialize (Hone f). unfold cover at 1 in Hone.
      pose proof (ind_bound a (size_of_order o) f). lia.
    - intros f Hf. specialize (Hone f). rewrite Hcov1.
      assert (cover f a o = 0) as Hz.
      { unfold cover in *. pose proof (ind_bound a (size_of_order o) f). lia. }
      destruct (Hnew f) as [Hn ->]; [lia |]. split; [| lia].
      intros [->%elem_of_singleton|?]%Hu1%elem_of_union; [| done].
      by rewrite cover_start in Hz. }
  exists s', used'. simpl. rewrite He. simpl. repeat (split; [done |]). split.
  - intros f [Hin|Hin]%Hu; [| unfold cover at 1; pose proof (ind_bound a (size_of_order o) f); lia].
    apply Hu1 in Hin as [->%elem_of_singleton|]%elem_of_union; [right | by left].
    rewrite cover_start. specialize (Hpos a). lia.
  - intros w Hadd. rewrite (Hw w Hadd), (Hw1 w Hadd). simpl. lia.
Qed.

End Sinks.

#[global] Instance local_sink_laws : ChunkSinkLaws BuddySet.
Proof. constructor. intros. by apply insert_chunk_effect. Qed.

Lemma global_sink_laws : @ChunkSinkLaws BuddySet global_sink.
Proof. constructor. intros. by apply insert_chunk_effect. Qed.

#[global] Instance pools_sink_laws : ChunkSinkLaws Pools.
Proof.
  constructor. intros p a o used rest [Hl Hg] Ho Ha Hgood Hf. simpl in *.
  unfold pool_chunks, dealloc_chunk in *.
  destruct (Nat.leb_spec MAX_LOCAL_BUDDY_ORDER o) as [Hbig|Hsmall].
  - rewrite <- app_assoc, Permutation_app_swap_app in Hgood.
    destruct (insert_chunk_effect _ (global p) a o used (chunks (local p) ++ rest) Hg Ho Ha Hgood)
      as (s' & used' & -> & ? & Hg' & ? & Hw).
    { intros f Hin. destruct (Hf f Hin) as [? H0]. split; [done |].
      rewrite !weight_app in *. lia. }
    eexists _, _. split; [done |]. split; [done |]. simpl.
    split; [by rewrite <- app_assoc, Permutation_app_swap_app |]. split; [done |].
    intros w Hadd. rewrite !weight_app, (Hw w Hadd). lia.
  - rewrite <- app_assoc in Hgood.
    destruct (insert_chunk_effect _ (local p) a o used (chunks (global p) ++ rest) Hl Hsmall Ha Hgood)
      as (s' & used' & -> & ? & Hg' & ? & Hw).
    { intros f Hin. destruct (Hf f Hin) as [? H0]. split; [done |].
      rewrite !weight_app in *. lia. }
    eexists _, _. split; [done |]. split; [done |]. simpl.
    split; [by rewrite <- app_assoc |]. split; [done |].
    intros w Hadd. rewrite !weight_app, (Hw w Hadd). lia.
Qed.

(** ** Moving chunks between pools *)

Lemma split_to_order_effect a o so :
  aligned a o → (so ≤ o)%nat →
  ∃ l, split_to_order a o so = Done l ∧
    (∀ b, b ∈ l → aligned b so) ∧
    ∀ w, additive w → weight w (to_chunks ((λ b, (b, so)) <$> l)) = w a o.
Proof.
  intros [Ha Hd] Hso. unfold split_to_order. pose proof (size_pos o). pose proof (size_pos so).
  rewrite (proj2 (Z.eqb_eq _ _)) by (apply Z.mod_divide; [lia | done]). simpl.
  rewrite (proj2 (Nat.ltb_ge _ _)) by done. eexists. split; [done |]. split.
  - intros b (i & -> & _)%list_elem_of_fmap. split; [nia |].
    apply Z.divide_add_r; [| apply Z.divide_factor_l].
    transitivity (size_of_order o); [| done]. rewrite !size_eq.
    exists (2 ^ (Z.of_nat o - Z.of_nat so)). rewrite <- Z.pow_add_r by lia. f_equal. lia.
  - intros w Hw. unfold to_chunks. rewrite <- !list_fmap_compose.
    pose proof (weight_pieces w a so (o - so) Hw) as Hp.
    replace (so + (o - so))%nat with o in Hp by lia. rewrite <- Hp. f_equal.
Qed.

(** The chunk [(a, o)] just taken out can be put back anywhere. *)
Lemma taken_insertable max used all a o cs :
  (∀ b ob, (b, ob) ∈ cs → aligned b ob ∧ (ob < max)%nat) →
  (∀ f, in_range a (size_of_order o) f = true → f ∉ used) →
  (∀ f, weight (cover f) all + cover f a o ≤ 1) →
  (∀ f, weight (cover f) (to_chunks cs) = cover f a o) →
  insertable max used all cs.
Proof.
  intros Hcs Hu Hall Hcov. split; [done | |].
  - intros f. rewrite Hcov. apply ind_bound.
  - intros f. rewrite Hcov. intros Hin. pose proof (weight_cover_nonneg f all).
    specialize (Hall f). split; [| lia]. apply Hu.
    unfold cover, ind in Hin. by destruct (in_range a (size_of_order o) f).
Qed.

Section Balance.
Context (sb : ChunkSink BuddySet) (laws : @ChunkSinkLaws BuddySet sb).
Context (sink_is_set : @sink_chunks _ sb = chunks).
Context (sink_max_pos : (0 < @sink_max _ sb)%nat).

(** The result of moving memory from one set to another. *)
Definition moved (MAX : nat) (rest : list chunk) (a b : BuddySet) (used : gset Z)
    (r : outcome (BuddySet * BuddySet * gset Z)) : Prop :=
  ∃ a' b' used', r = Done (a', b', used') ∧
    wf MAX a' ∧ sink_wf b' ∧ good used' (chunks a' ++ chunks b' ++ rest) ∧
    (∀ f, f ∈ used' → f ∈ used ∨ 1 ≤ free_at a f + free_at b f) ∧
    ∀ w, additive w →
      weight w (chunks a') + weight w (chunks b') = weight w (chunks a) + weight w (chunks b).

Lemma balance_to_eq a b order used :
  balance_to sb a b order used =
  alloc_chunk a order used ≫= λ '(r, a, used),
  match r with
  | Some ad =>
      if (@sink_max _ sb <=? order)%nat
      then split_to_order ad order (@sink_max _ sb - 1) ≫= λ l,
        sink_all b ((λ ad, (ad, (@sink_max _ sb - 1)%nat)) <$> l) used ≫= λ '(b, used),
        Done (a, b, used)
      else sink_insert b ad order used ≫= λ '(b, used), Done (a, b, used)
  | None =>
      match order with
      | S ((S _) as order') =>
          balance_to sb a b order' used ≫= λ '(a, b, used), balance_to sb a b order' used
      | _ => Done (a, b, used)
      end
  end.
Proof. by destruct order. Qed.

Lemma balance_put MAX rest a b order used ad a1 used1 :
  sink_wf b → wf MAX a1 → aligned ad order → good used1 (chunks a1 ++ chunks b ++ rest) →
  (∀ f, in_range ad (size_of_order order) f = true → f ∉ used1) →
  (∀ f, f ∈ used1 → f ∈ used ∨ 1 ≤ free_at a f) →
  (∀ f, weight (cover f) (chunks a ++ chunks b ++ rest) ≤ 1) →
  (∀ w, additive w → weight w (chunks a) = weight w (chunks a1) + w ad order) →
  moved MAX rest a b used
    (if (@sink_max _ sb <=? order)%nat
     then split_to_order ad order (@sink_max _ sb - 1) ≫= λ l,
       sink_all b ((λ ad, (ad, (@sink_max _ sb - 1)%nat)) <$> l) used1 ≫= λ '(b, used),
       Done (a1, b, used)
     else sink_insert b ad order used1 ≫= λ '(b, used), Done (a1, b, used)).
Proof.
  intros Hb Ha1 Had Hg Hun Hu1 Hone Hw.
  assert (∃ cs, (∀ b ob, (b, ob) ∈ cs → aligned b ob ∧ (ob < @sink_max _ sb)%nat) ∧
    (∀ w, additive w → weight w (to_chunks cs) = w ad order) ∧
    (if (@sink_max _ sb <=? order)%nat
     then split_to_order ad order (@sink_max _ sb - 1) ≫= λ l,
       sink_all b ((λ ad, (ad, (@sink_max _ sb - 1)%nat)) <$> l) used1 ≫= λ '(b, used),
       Done (a1, b, used)
     else sink_insert b ad order used1 ≫= λ '(b, used), Done (a1, b, used)) =
    sink_all b cs used1 ≫= λ '(b, used), Done (a1, b, used)) as (cs & Hcs & Hwcs & ->).
  { destruct (Nat.leb_spec (@sink_max _ sb) order) as [Hle|Hlt].
    - destruct (split_to_order_effect ad order (@sink_max _ sb - 1) Had) as (l & -> & Hl & Hwl);
        [lia |].
      eexists. split; [| split; [exact Hwl | done]].
      intros c oc (x & [= -> ->] & Hx)%list_elem_of_fmap. split; [by apply Hl | lia].
    - exists [(ad, order)]. split; [set_solver |]. split; [intros; simpl; lia |].
      simpl. by destruct (sink_insert b ad order used1) as [[]|]. }
  assert (Hcov : ∀ f, weight (cover f) (to_chunks cs) = cover f ad order)
    by (intros; apply Hwcs, cover_additive).
  destruct (sink_all_effect cs b used1 (chunks a1 ++ rest)) as (b' & used' & -> & ? & Hg' & Hu' & Hw').
  - done.
  - rewrite sink_is_set. by rewrite Permutation_app_swap_app.
  - eapply taken_insertable; [done | done | | done]. intros f. specialize (Hone f).
    rewrite !weight_app, (Hw _ (cover_additive f)) in Hone. rewrite sink_is_set, !weight_app. lia.
  - exists a1, b', used'. rewrite sink_is_set in *. split; [done |]. split; [done |].
    split; [done |]. split; [by rewrite Permutation_app_swap_app |]. split.
    + intros f [[?|?]%Hu1|Hc]%Hu'; [by left | right | right].
      * pose proof (weight_cover_nonneg f (chunks b)). unfold free_at in *. lia.
      * rewrite Hcov in Hc. unfold free_at. rewrite (Hw _ (cover_additive f)).
        pose proof (weight_cover_nonneg f (chunks b)).
        pose proof (weight_cover_nonneg f (chunks a1)). lia.
    + intros w Hadd. rewrite (Hw' w Hadd), (Hwcs w Hadd), (Hw w Hadd). lia.
Qed.

Lemma balance_to_effect MAX rest order a b used :
  wf MAX a → sink_wf b → good used (chunks a ++ chunks b ++ rest) →
  moved MAX rest a b used (balance_to sb a b order used).
Proof.
  revert a b used. induction order as [order IH] using lt_wf_ind; intros a b used Ha Hb Hg.
  assert (Hnone : moved MAX rest a b used (Done (a, b, used))).
  { exists a, b, used. repeat (split; [by auto |]). done. }
  destruct (alloc_chunk_effect MAX a order used (chunks b ++ rest) Ha Hg)
    as [[He _]|(ad & a1 & used1 & He & _ & Had & Ha1 & Hg1 & Hun & Hu1 & Hw)].
  - destruct order as [|[|order]]; rewrite balance_to_eq, He; cbn -[balance_to]; [done | done |].
    destruct (IH (S order) ltac:(lia) a b used Ha Hb Hg)
      as (a' & b' & used' & -> & Ha' & Hb' & Hg' & Hu' & Hw'). cbn -[balance_to].
    destruct (IH (S order) ltac:(lia) a' b' used' Ha' Hb' Hg')
      as (a'' & b'' & used'' & -> & ? & ? & ? & Hu'' & Hw'').
    exists a'', b'', used''. repeat (split; [done |]). split.
    + intros f [?|Hf]%Hu''; [by apply Hu' | right].
      unfold free_at in *. rewrite <- (Hw' _ (cover_additive f)). done.
    + intros w Hadd. rewrite (Hw'' w Hadd). by apply Hw'.
  - pose proof (balance_put MAX rest a b order used ad a1 used1 Hb Ha1 Had Hg1 Hun Hu1
      (good_disjoint _ _ Hg) Hw) as Hput.
    rewrite balance_to_eq, He. exact Hput.
Qed.

End Balance.

(** ** The operations, seen from the free memory of the system *)

(** How many free chunks of the two pools contain [f], and their total size. *)
Definition pool_free (p : Pools) (f : Z) : Z := weight (cover f) (pool_chunks p).
Definition pool_bytes (p : Pools) : Z := weight bytes (pool_chunks p).

Lemma weight_bytes_nonneg cs : 0 ≤ weight bytes cs.
Proof.
  induction cs as [|c cs IH]; simpl; [lia |]. unfold bytes at 1.
  pose proof (size_pos (order c)). lia.
Qed.

Lemma pool_bytes_eq p :
  pools_wf p → pool_bytes p = total_size (local p) + total_size (global p).
Proof.
  intros [Hl Hg]. unfold pool_bytes, pool_chunks.
  by rewrite weight_app, (wf_total _ _ Hl), (wf_total _ _ Hg).
Qed.

(** The free memory is the same, however it is distributed. *)
Record same_memory (rest : list chunk) (p : Pools) (used : gset Z) (p' : Pools) (used' : gset Z)
  : Prop := {
  sm_wf : pools_wf p';
  sm_good : good used' (pool_chunks p' ++ rest);
  sm_used : ∀ f, f ∈ used' → f ∈ used ∨ 1 ≤ pool_free p f;
  sm_weight : ∀ w, additive w → weight w (pool_chunks p') = weight w (pool_chunks p)
}.

Lemma same_memory_refl rest p used :
  pools_wf p → good used (pool_chunks p ++ rest) → same_memory rest p used p used.
Proof. intros. split; auto. Qed.

(** The amount to move is a positive number of bytes below one page: the case
    that [lesser_order_of] does not support. *)
Definition starved (num_cpus : Z) (p : Pools) : bool :=
  let g := get_global_size p in
  let e := cache_expected_size num_cpus g in
  let l := total_size (local p) in
  if cache_maximal_size num_cpus g <=? l then negb (l =? 0) && (l - e <? PAGE_SIZE)
  else if l <? cache_minimal_size num_cpus g then negb (g =? 0) && (e - l <? PAGE_SIZE)
  else false.

Lemma lesser_order_of_cases n :
  0 ≤ n → lesser_order_of n = Panic ∧ n < PAGE_SIZE ∨
  (∃ m, lesser_order_of n = Done m) ∧ PAGE_SIZE ≤ n.
Proof.
  intros Hn. destruct (Z.lt_ge_cases n PAGE_SIZE) as [Hlt|Hge].
  - left. split; [| done]. unfold lesser_order_of. by rewrite Z.div_small by lia.
  - right. split; [| done]. destruct (lesser_order_of_spec n Hge) as (m & ? & _). eauto.
Qed.

Lemma move_pools rest p used (r : outcome (BuddySet * BuddySet * gset Z)) (swap : bool) :
  pools_wf p →
  (if swap
   then @moved local_sink MAX_BUDDY_ORDER rest (global p) (local p) used r
   else @moved global_sink MAX_LOCAL_BUDDY_ORDER rest (local p) (global p) used r) →
  ∃ p' used', (r ≫= λ '(x, y, used),
      Done (set_global (set_local p (if swap then y else x)) (if swap then x else y), used)) =
      Done (p', used') ∧ same_memory rest p used p' used'.
Proof.
  intros Hwf Hm. destruct swap; destruct Hm as (x & y & used' & -> & Hx & Hy & Hg & Hu & Hw); simpl.
  - eexists _, _. split; [done |]. split; [done | | |].
    + unfold pool_chunks; simpl. by rewrite <- app_assoc, Permutation_app_swap_app.
    + intros f [?|Hf]%Hu; [by left | right]. unfold pool_free, pool_chunks, free_at in *.
      rewrite weight_app. lia.
    + intros w Hadd. unfold pool_chunks; simpl. rewrite !weight_app.
      specialize (Hw w Hadd). lia.
  - eexists _, _. split; [done |]. split; [done | | |].
    + unfold pool_chunks; simpl. by rewrite <- app_assoc.
    + intros f [?|Hf]%Hu; [by left | right]. unfold pool_free, pool_chunks, free_at in *.
      rewrite weight_app. lia.
    + intros w Hadd. unfold pool_chunks; simpl. rewrite !weight_app.
      specialize (Hw w Hadd). lia.
Qed.

Lemma balance_effect num_cpus rest p used :
  0 < num_cpus → 0 ≤ snapshot p → pools_wf p → good used (pool_chunks p ++ rest) →
  if starved num_cpus p then balance num_cpus p used = Panic
  else ∃ p' used', balance num_cpus p used = Done (p', used') ∧ same_memory rest p used p' used'.
Proof.
  intros Hn Hsnap [Hl Hg] Hgood. unfold starved, balance.
  assert (0 ≤ total_size (local p)) as Hl0 by (rewrite (wf_total _ _ Hl); apply weight_bytes_nonneg).
  assert (0 ≤ get_global_size p) as Hg0.
  { unfold get_global_size. case_match; [| done].
    rewrite (wf_total _ _ Hg). apply weight_bytes_nonneg. }
  set (g := get_global_size p) in *. set (l := total_size (local p)) in *.
  unfold cache_maximal_size, cache_minimal_size. set (e := cache_expected_size num_cpus g).
  assert (0 ≤ e) as He by (unfold e, cache_expected_size; apply Z.div_pos, eq_refl; by apply Z.div_pos).
  assert (e / 8 ≤ e) by (apply Z.div_le_upper_bound; lia).
  assert (Hstay : ∃ p' used', Done (p, used) = Done (p', used') ∧ same_memory rest p used p' used').
  { exists p, used. split; [done |]. by apply same_memory_refl. }
  unfold pool_chunks in Hgood. rewrite <- app_assoc in Hgood.
  destruct (Z.leb_spec (e * 2) l); [| destruct (Z.ltb_spec l (e / 8)); [| done]].
  - destruct (Z.eqb_spec l 0); [done |]. unfold checked_sub. rewrite (proj2 (Z.leb_le e l)) by lia. simpl.
    destruct (lesser_order_of_cases (l - e)) as [[-> Hlt]|[[m ->] Hge]]; [lia | |].
    + simpl. by rewrite (proj2 (Z.ltb_lt _ _)) by done.
    + simpl. rewrite (proj2 (Z.ltb_ge _ _)) by done.
      apply (move_pools rest p used _ false); [done |].
      apply balance_to_effect; [apply global_sink_laws | done | simpl; unfold MAX_BUDDY_ORDER; lia | done ..].
  - destruct (Z.eqb_spec g 0); [done |]. unfold checked_sub. rewrite (proj2 (Z.leb_le l e)) by lia. simpl.
    destruct (lesser_order_of_cases (e - l)) as [[-> Hlt]|[[m ->] Hge]]; [lia | |].
    + simpl. by rewrite (proj2 (Z.ltb_lt _ _)) by done.
    + simpl. rewrite (proj2 (Z.ltb_ge _ _)) by done.
      apply (move_pools rest p used _ true); [done |].
      apply balance_to_effect; [apply local_sink_laws | done | simpl; unfold MAX_LOCAL_BUDDY_ORDER; lia | done | done |].
      by rewrite Permutation_app_swap_app.
Qed.

(** A well-stocked global pool never starves the balancing. *)
Lemma stocked_not_starved num_cpus p :
  0 < num_cpus → 4 * PAGE_SIZE * num_cpus ≤ get_global_size p → starved num_cpus p = false.
Proof.
  intros Hn Hg. unfold starved, cache_maximal_size, cache_minimal_size.
  set (g := get_global_size p) in *. set (e := cache_expected_size num_cpus g).
  assert (2 * PAGE_SIZE ≤ e).
  { unfold e, cache_expected_size. apply Z.div_le_lower_bound; [lia |].
    apply Z.div_le_lower_bound; lia. }
  pose proof (Z.mul_div_le e 8 ltac:(lia)). unfold PAGE_SIZE in *.
  bool_cases; simpl; try done; lia.
Qed.

(** ** Deallocating ranges *)

(** How many of the ranges contain [f]. *)
Fixpoint ranges_at (segs : list (Z * Z)) (f : Z) : Z :=
  match segs with [] => 0 | (a, n) :: segs => ind a n f + ranges_at segs f end.

Fixpoint ranges_bytes (segs : list (Z * Z)) : Z :=
  match segs with [] => 0 | (a, n) :: segs => n + ranges_bytes segs end.

(** A range of whole pages below the largest chunk size. *)
Definition page_range (a n : Z) : Prop :=
  0 ≤ a ∧ 0 ≤ n < size_of_order MAX_BUDDY_ORDER ∧ a + n < 2 ^ 64 ∧
  (PAGE_SIZE | a) ∧ (PAGE_SIZE | n).

(** The ranges can be given back: disjoint, unused, and not free already. *)
Record freeable (used : gset Z) (all : list chunk) (segs : list (Z * Z)) : Prop := {
  fr_pages : ∀ a n, (a, n) ∈ segs → page_range a n;
  fr_once : ∀ f, ranges_at segs f ≤ 1;
  fr_new : ∀ f, 1 ≤ ranges_at segs f → (f ∉ used) ∧ weight (cover f) all = 0
}.

Lemma ranges_at_nonneg segs f : 0 ≤ ranges_at segs f.
Proof.
  induction segs as [|[a n] segs IH]; simpl; [lia |]. pose proof (ind_bound a n f). lia.
Qed.

Lemma tiles_bytes a n cs : tiles a n cs → weight bytes (to_chunks cs) = n.
Proof.
  unfold to_chunks. revert a n. induction cs as [|[b o] cs IH]; intros a n;
    [| rewrite fmap_cons]; simpl; [lia |].
  intros (_ & _ & _ & Ht). rewrite (IH _ _ Ht). unfold bytes. lia.
Qed.

(** The chunks of one range, from [split_to_chunks]. *)
Lemma range_chunks a n used all :
  page_range a n →
  (∀ f, in_range a n f = true → (f ∉ used) ∧ weight (cover f) all = 0) →
  ∃ cs, split_to_chunks a n = Done cs ∧ tiles a n cs ∧
    insertable MAX_BUDDY_ORDER used all cs.
Proof.
  intros (Ha & Hn & Hmax & Hpa & Hpn) Hf.
  destruct (split_to_chunks_effect a n) as (cs & He & Hg); [done | lia | done | done | done |].
  apply greedy_tiles in Hg. exists cs. split; [done |]. split; [done |]. split.
  - intros b o Hin. destruct (tiles_bound _ _ _ _ _ Hg Hin) as (? & _ & _ & Hle).
    split; [done |]. destruct (decide (o < MAX_BUDDY_ORDER)%nat) as [|Hge]; [done |].
    rewrite !size_eq in *. pose proof (pow2_le (Z.of_nat MAX_BUDDY_ORDER + 12) (Z.of_nat o + 12)). lia.
  - intros f. unfold to_chunks. rewrite (tiles_cover _ _ _ _ Hg). apply ind_bound.
  - intros f. unfold to_chunks. rewrite (tiles_cover _ _ _ _ Hg). unfold ind.
    case_match eqn:E; [intros _; by apply Hf | lia].
Qed.

(** The free memory grows by the ranges. *)
Record grown (rest : list chunk) (segs : list (Z * Z)) (p : Pools) (used : gset Z)
    (p' : Pools) (used' : gset Z) : Prop := {
  gr_wf : pools_wf p';
  gr_good : good used' (pool_chunks p' ++ rest);
  gr_used : ∀ f, f ∈ used' → f ∈ used ∨ 1 ≤ ranges_at segs f;
  gr_free : ∀ f, pool_free p' f = pool_free p f + ranges_at segs f;
  gr_bytes : pool_bytes p' = pool_bytes p + ranges_bytes segs
}.

Lemma sink_all_snapshot cs p used p' used' :
  sink_all p cs used = Done (p', used') → snapshot p' = snapshot p.
Proof.
  revert p used. induction cs as [|[a o] cs IH]; simpl; intros p used; [by intros [= -> ->] |].
  intros ([p1 u1] & Hd & Hs)%bind_done. rewrite (IH _ _ Hs). unfold dealloc_chunk in Hd.
  case_match; apply bind_done in Hd as ([] & _ & [= <- <-]); done.
Qed.

Lemma do_dealloc_effect segs rest p used :
  pools_wf p → good used (pool_chunks p ++ rest) →
  freeable used (pool_chunks p ++ rest) segs →
  ∃ p' used', do_dealloc p segs used = Done (p', used') ∧ grown rest segs p used p' used' ∧
    snapshot p' = snapshot p.
Proof.
  revert p used. induction segs as [|[a n] segs IH]; intros p used Hwf Hg [Hpg Hone Hnew].
  { exists p, used. split; [done |]. split; [| done]. split; auto; simpl; intros; lia. }
  simpl in Hone, Hnew. assert (Hpos := ranges_at_nonneg segs).
  destruct (range_chunks a n used (pool_chunks p ++ rest)) as (cs & Hcs & Ht & Hins);
    [apply Hpg; set_solver | |].
  { intros f Hf. apply Hnew. unfold ind. rewrite Hf. specialize (Hpos f). lia. }
  destruct (sink_all_effect cs p used rest) as (p1 & u1 & He1 & Hwf1 & Hg1 & Hu1 & Hw1); try done.
  simpl in Hwf1, Hg1, Hw1.
  assert (Hcov : ∀ f, weight (cover f) (to_chunks cs) = ind a n f)
    by (intros f; by apply tiles_cover).
  assert (Hfree1 : ∀ f, pool_free p1 f = pool_free p f + ind a n f).
  { intros f. unfold pool_free. by rewrite (Hw1 _ (cover_additive f)), Hcov. }
  destruct (IH p1 u1 Hwf1 Hg1) as (p' & used' & He' & [? ? Hu' Hf' Hb'] & Hs').
  { split.
    - intros b m Hin. apply Hpg. set_solver.
    - intros f. specialize (Hone f). pose proof (ind_bound a n f). lia.
    - intros f Hf. specialize (Hone f). pose proof (ind_bound a n f).
      destruct (Hnew f) as [Hn0 Hz]; [lia |]. rewrite weight_app in Hz |- *. split.
      + intros [?|Hc]%Hu1; [done |]. rewrite Hcov in Hc. lia.
      + fold (pool_free p1 f). fold (pool_free p f) in Hz. rewrite Hfree1. lia. }
  exists p', used'. cbn [do_dealloc]. rewrite Hcs. simpl. rewrite He1. simpl.
  split; [done |]. split; [| by rewrite Hs', (sink_all_snapshot _ _ _ _ _ He1)].
  split; [done | done | ..]; simpl.
  - intros f [Hin|Hin]%Hu'; [apply Hu1 in Hin as [|Hin]; [by left | right] | right].
    + rewrite Hcov in Hin. specialize (Hpos f). lia.
    + pose proof (ind_bound a n f). lia.
  - intros f. rewrite Hf', Hfree1. lia.
  - rewrite Hb'. unfold pool_bytes. rewrite (Hw1 _ bytes_additive), (tiles_bytes _ _ _ Ht). lia.
Qed.

(** ** Allocating *)

Lemma ctz_pow2 k : trailing_zeros (2 ^ Z.of_nat k) = k.
Proof.
  unfold trailing_zeros. destruct (2 ^ Z.of_nat k) as [|p|p] eqn:E;
    [pose proof (pow2_pos (Z.of_nat k)); lia | | pose proof (pow2_pos (Z.of_nat k)); lia].
  apply Nat.le_antisymm; [| apply ctz_max; rewrite <- E; apply Z.divide_refl].
  apply Nat2Z.inj_le, (Z.pow_le_mono_r_iff 2); [lia | lia |].
  apply Z.divide_pos_le; [by apply pow2_pos; lia | rewrite E; apply ctz_divide].
Qed.

Lemma greater_order_of_spec n :
  0 ≤ n → (PAGE_SIZE | n) → n ≤ size_of_order (greater_order_of n).
Proof.
  intros Hn [k ->]. unfold greater_order_of, next_power_of_two. rewrite Z.div_mul by done.
  rewrite <- (Z2Nat.id (Z.log2_up k)) by apply Z.log2_up_nonneg. rewrite ctz_pow2.
  unfold size_of_order. rewrite Z.shiftl_1_l, Z2Nat.id by apply Z.log2_up_nonneg.
  apply Z.mul_le_mono_nonneg_r; [done |].
  destruct (Z.le_gt_cases k 1) as [Hk|Hk].
  - pose proof (pow2_pos (Z.log2_up k) (Z.log2_up_nonneg k)). lia.
  - by apply Z.log2_up_spec.
Qed.

(** A chunk of the order of an alignment is aligned. *)
Lemma greater_order_of_align k o a :
  0 ≤ k → (greater_order_of (2 ^ k) ≤ o)%nat → aligned a o → (2 ^ k | a).
Proof.
  intros Hk Ho [_ Hd]. transitivity (size_of_order o); [| done]. rewrite size_eq.
  assert (k ≤ Z.of_nat o + 12); [| exists (2 ^ (Z.of_nat o + 12 - k));
    rewrite <- Z.pow_add_r by lia; f_equal; lia].
  destruct (Z.le_gt_cases k 12) as [|Hgt]; [lia |].
  unfold greater_order_of, next_power_of_two, PAGE_SIZE in Ho. change 4096 with (2 ^ 12) in Ho.
  rewrite <- Z.pow_sub_r, Z.log2_up_pow2 in Ho by lia.
  rewrite <- (Z2Nat.id (k - 12)), ctz_pow2 in Ho by lia. lia.
Qed.

(** Range [a, a + n) left the free memory; its frames are unused. *)
Record shrunk (rest : list chunk) (a n : Z) (p : Pools) (used : gset Z)
    (p' : Pools) (used' : gset Z) : Prop := {
  sh_wf : pools_wf p';
  sh_good : good used' (pool_chunks p' ++ rest);
  sh_used : ∀ f, f ∈ used' → f ∈ used ∨ 1 ≤ pool_free p f;
  sh_unused : ∀ f, in_range a n f = true → f ∉ used';
  sh_free : ∀ f, pool_free p f = pool_free p' f + ind a n f;
  sh_bytes : pool_bytes p = pool_bytes p' + n
}.

Definition same_pools (p p' : Pools) : Prop :=
  local p' = local p ∧ global p' = global p ∧ snapshot p' = snapshot p.

(** The result of looking for a chunk of order [o]: none is left in the pools
    that may be used, or one has been taken out. *)
Definition taken (o : nat) (rest : list chunk) (p : Pools) (used : gset Z)
    (r : outcome (option Z * Pools * gset Z)) : Prop :=
  (∃ p1, r = Done (None, p1, used) ∧ same_pools p p1 ∧
     (∀ c, c ∈ chunks (global p) → (order c < o)%nat) ∧
     ((o < MAX_LOCAL_BUDDY_ORDER)%nat → ∀ c, c ∈ chunks (local p) → (order c < o)%nat)) ∨
  ∃ a p1 used1, r = Done (Some a, p1, used1) ∧
    (o < MAX_BUDDY_ORDER)%nat ∧ aligned a o ∧ snapshot p1 = snapshot p ∧
    shrunk rest a (size_of_order o) p used p1 used1.

Lemma take_global_effect o p p0 used rest :
  same_pools p p0 → pools_wf p → good used (pool_chunks p ++ rest) →
  ((o < MAX_LOCAL_BUDDY_ORDER)%nat → ∀ c, c ∈ chunks (local p) → (order c < o)%nat) →
  taken o rest p used
    (alloc_chunk (global p0) o used ≫= λ '(r, s, used), Done (r, set_global p0 s, used)).
Proof.
  intros (Hpl & Hpg & Hps) [Hl Hg] Hgood Hsm. rewrite Hpg. unfold pool_chunks in Hgood.
  rewrite <- app_assoc, Permutation_app_swap_app in Hgood.
  destruct (alloc_chunk_effect _ _ o _ _ Hg Hgood)
    as [[-> Hnone]|(a & s & u & -> & Ho & Ha & Hwf & Hg' & Hun & Hu & Hw)]; simpl; [left | right].
  - eexists. split; [done |]. by repeat split.
  - eexists _, _, _. repeat (split; [done |]).
    split; unfold pools_wf, pool_free, pool_bytes, pool_chunks; simpl; rewrite ?Hpl;
      [done | | | done | |].
    + by rewrite <- app_assoc, Permutation_app_swap_app.
    + intros f [?|Hf]%Hu; [by left | right]. unfold free_at in Hf. rewrite weight_app.
      pose proof (weight_cover_nonneg f (chunks (local p))). lia.
    + intros f. rewrite !weight_app, (Hw _ (cover_additive f)).
      change (cover f a o) with (ind a (size_of_order o) f). lia.
    + rewrite !weight_app, (Hw _ bytes_additive). change (bytes a o) with (size_of_order o). lia.
Qed.

Lemma alloc_take_effect l p used rest :
  pools_wf p → good used (pool_chunks p ++ rest) →
  taken (alloc_order l) rest p used (alloc_take l p used).
Proof.
  intros Hwf Hgood. unfold alloc_take. set (o := alloc_order l).
  destruct (Nat.ltb_spec o MAX_LOCAL_BUDDY_ORDER) as [Hlt|Hge];
    [| apply (take_global_effect o p p); [done | done | done | lia]].
  destruct Hwf as [Hl Hg]. pose proof Hgood as Hgood'.
  unfold pool_chunks in Hgood. rewrite <- app_assoc in Hgood.
  destruct (alloc_chunk_effect _ _ o _ _ Hl Hgood)
    as [[-> Hnone]|(a & s & u & -> & Ho & Ha & Hwf & Hg' & Hun & Hu & Hw)]; simpl.
  - by apply (take_global_effect o p (set_local p (local p))).
  - right. eexists _, _, _. split; [done |].
    split; [unfold MAX_LOCAL_BUDDY_ORDER, MAX_BUDDY_ORDER in *; lia |].
    split; [done |]. split; [done |].
    split; unfold pools_wf, pool_free, pool_bytes, pool_chunks; simpl; [done | | | done | |].
    + by rewrite <- app_assoc.
    + intros f [?|Hf]%Hu; [by left | right]. unfold free_at in Hf. rewrite weight_app.
      pose proof (weight_cover_nonneg f (chunks (global p))). lia.
    + intros f. rewrite !weight_app, (Hw _ (cover_additive f)).
      change (cover f a o) with (ind a (size_of_order o) f). lia.
    + rewrite !weight_app, (Hw _ bytes_additive). change (bytes a o) with (size_of_order o). lia.
Qed.

(** Physical addresses stay below half of the address space. *)
Definition bounded (p : Pools) : Prop := ∀ f, 1 ≤ pool_free p f → f < 2 ^ 63.

(** A layout the callers of the frame allocator use. *)
Definition page_layout (l : Layout) : Prop :=
  0 ≤ size l ∧ (PAGE_SIZE | size l) ∧ ∃ k, 0 ≤ k ∧ align l = 2 ^ k.

Lemma ind_split a n m f : 0 ≤ n ≤ m → ind a m f = ind a n f + ind (a + n) (m - n) f.
Proof. intros Hn. unfold ind, in_range. bool_cases; simpl; lia. Qed.

Lemma alloc_order_size l :
  page_layout l → size l ≤ size_of_order (alloc_order l).
Proof.
  intros (Hs0 & Hpage & _).
  transitivity (size_of_order (greater_order_of (size l))); [by apply greater_order_of_spec |].
  rewrite !size_eq. apply pow2_le. unfold alloc_order. lia.
Qed.

(** The end of a chunk that was free. *)
Lemma taken_end rest a o p used p1 used1 :
  bounded p → shrunk rest a (size_of_order o) p used p1 used1 → a + size_of_order o ≤ 2 ^ 63.
Proof.
  intros Hbd Hsh. pose proof (size_pos o).
  assert (a + size_of_order o - 1 < 2 ^ 63); [| lia]. apply Hbd.
  rewrite (sh_free _ _ _ _ _ _ _ Hsh).
  pose proof (weight_cover_nonneg (a + size_of_order o - 1) (pool_chunks p1)).
  unfold pool_free, ind, in_range. bool_cases; simpl; lia.
Qed.

Lemma size_below_max o :
  (o < MAX_BUDDY_ORDER)%nat → size_of_order o < size_of_order MAX_BUDDY_ORDER.
Proof. intros Ho. rewrite !size_eq. apply Z.pow_lt_mono_r; lia. Qed.

Lemma taken_page_range rest l a p used p1 used1 :
  page_layout l → bounded p → (alloc_order l < MAX_BUDDY_ORDER)%nat →
  aligned a (alloc_order l) →
  shrunk rest a (size_of_order (alloc_order l)) p used p1 used1 → page_range a (size l).
Proof.
  intros Hl Hbd Ho [Ha Hd] Hsh. pose proof (alloc_order_size l Hl).
  pose proof (taken_end _ _ _ _ _ _ _ Hbd Hsh). pose proof (size_below_max _ Ho).
  destruct Hl as (Hs0 & Hpage & _). repeat split; [lia | lia | lia | lia | | done].
  transitivity (size_of_order (alloc_order l)); [apply Z.divide_factor_r | done].
Qed.

Lemma alloc_trim_effect l a p used p1 used1 rest :
  page_layout l → bounded p → (alloc_order l < MAX_BUDDY_ORDER)%nat →
  aligned a (alloc_order l) →
  (∀ f, weight (cover f) (pool_chunks p ++ rest) ≤ 1) →
  shrunk rest a (size_of_order (alloc_order l)) p used p1 used1 →
  ∃ p2 used2, alloc_trim l (Some a) p1 used1 = Done (p2, used2) ∧
    shrunk rest a (size l) p used p2 used2 ∧ snapshot p2 = snapshot p1.
Proof.
  intros Hl Hbd Ho Ha Hdis Hsh. unfold alloc_trim. pose proof (alloc_order_size l Hl) as Hle.
  pose proof (taken_end _ _ _ _ _ _ _ Hbd Hsh) as Hend. destruct Hl as (Hs0 & Hpage & _).
  set (o := alloc_order l) in *.
  destruct (Z.ltb_spec (size l) (size_of_order o)) as [Hlt|Hge].
  2: { replace (size l) with (size_of_order o) by lia. eauto. }
  destruct Hsh as [Hwf Hg Hu Hun Hf Hb]. pose proof (size_pos o).
  destruct (do_dealloc_effect [(a + size l, size_of_order o - size l)] rest p1 used1 Hwf Hg)
    as (p2 & used2 & -> & [? ? Hu2 Hf2 Hb2] & ?).
  - split; simpl.
    + intros b n [[= -> ->]|[]%not_elem_of_nil]%elem_of_cons. destruct Ha as [Ha0 Hd].
      assert (Hps : (PAGE_SIZE | size_of_order o)) by apply Z.divide_factor_r.
      repeat split; [lia | lia | | lia | apply Z.divide_add_r; [by transitivity (size_of_order o) | done]
        | by apply Z.divide_sub_r].
      pose proof (size_below_max o Ho). lia.
    + intros f. pose proof (ind_bound (a + size l) (size_of_order o - size l) f). lia.
    + intros f Hin. assert (in_range a (size_of_order o) f = true) as Hina.
      { unfold ind, in_range in *. bool_cases; simpl in *; lia || done. }
      split; [by apply Hun |]. specialize (Hdis f). rewrite weight_app in Hdis |- *.
      fold (pool_free p f) in Hdis. fold (pool_free p1 f). rewrite Hf in Hdis.
      unfold ind in Hdis. rewrite Hina in Hdis. pose proof (weight_cover_nonneg f rest).
      pose proof (weight_cover_nonneg f (pool_chunks p1)). unfold pool_free in *. lia.
  - exists p2, used2. split; [done |]. split; [| done]. simpl in *.
    assert (Hsplit := λ f, ind_split a (size l) (size_of_order o) f ltac:(lia)).
    assert (Hpos : ∀ f, 0 ≤ pool_free p1 f) by (intros; apply weight_cover_nonneg).
    split; [done | done | ..].
    + intros f [?%Hu|Hin]%Hu2; [done | right]. rewrite Hf, (Hsplit f).
      specialize (Hpos f). pose proof (ind_bound a (size l) f). lia.
    + intros f Hin [Hin1|Hin2]%Hu2.
      * apply Hun in Hin1; [done |]. unfold in_range in *. bool_cases; simpl in *; lia || done.
      * unfold ind, in_range in *. bool_cases; simpl in *; lia || done.
    + intros f. rewrite Hf, Hf2, (Hsplit f). lia.
    + lia.
Qed.

(** Nothing is left to satisfy a request of order [o]. *)
Definition exhausted (o : nat) (p : Pools) : Prop :=
  (∀ c, c ∈ chunks (global p) → (order c < o)%nat) ∧
  ((o < MAX_LOCAL_BUDDY_ORDER)%nat → ∀ c, c ∈ chunks (local p) → (order c < o)%nat).

Lemma reserve_effect l p used rest :
  page_layout l → bounded p → pools_wf p → good used (pool_chunks p ++ rest) →
  (∃ p1, reserve l p used = Done (None, p1, used) ∧ same_pools p p1 ∧
     exhausted (alloc_order l) p) ∨
  ∃ a p1 used1, reserve l p used = Done (Some a, p1, used1) ∧
    page_range a (size l) ∧ (align l | a) ∧
    snapshot p1 = snapshot p ∧ shrunk rest a (size l) p used p1 used1.
Proof.
  intros Hl Hbd Hwf Hg. unfold reserve.
  destruct (alloc_take_effect l p used rest Hwf Hg)
    as [(p1 & -> & Hs & Hex)|(a & p1 & used1 & -> & Ho & Ha & Hs & Hsh)]; [left | right].
  - exists p1. split; [| done]. simpl. unfold alloc_trim. by destruct (_ <? _).
  - destruct (alloc_trim_effect l a p used p1 used1 rest) as (p2 & used2 & He & Hsh2 & Hs2);
      try done; [apply (good_disjoint _ _ Hg) |].
    exists a, p2, used2. simpl. rewrite He. split; [done |].
    split; [by eapply taken_page_range |]. split; [| split; [congruence | done]].
    destruct Hl as (_ & _ & k & Hk & Hal). rewrite Hal.
    eapply greater_order_of_align; [done | | done]. rewrite <- Hal. unfold alloc_order. lia.
Qed.

Lemma shrunk_trans rest a n p used p1 used1 p' used' :
  (∀ f, weight (cover f) (pool_chunks p ++ rest) ≤ 1) →
  shrunk rest a n p used p1 used1 → same_memory rest p1 used1 p' used' →
  shrunk rest a n p used p' used'.
Proof.
  intros Hdis [? ? Hu Hun Hf Hb] [? ? Hu' Hw].
  assert (Hpos : ∀ f, 0 ≤ pool_free p1 f) by (intros; apply weight_cover_nonneg).
  split; [done | done | ..].
  - intros f [?%Hu|?]%Hu'; [done | right]. rewrite Hf. pose proof (ind_bound a n f). lia.
  - intros f Hin [?|Hf1]%Hu'; [by eapply Hun |]. specialize (Hdis f). rewrite weight_app in Hdis.
    fold (pool_free p f) in Hdis. rewrite Hf in Hdis. unfold ind in Hdis. rewrite Hin in Hdis.
    pose proof (weight_cover_nonneg f rest). lia.
  - intros f. rewrite Hf. unfold pool_free. by rewrite (Hw _ (cover_additive f)).
  - rewrite Hb. unfold pool_bytes. by rewrite (Hw _ bytes_additive).
Qed.

Lemma grown_trans rest segs p used p1 used1 p' used' :
  grown rest segs p used p1 used1 → same_memory rest p1 used1 p' used' →
  pools_wf p' ∧ good used' (pool_chunks p' ++ rest) ∧
  (∀ f, f ∈ used' → f ∈ used ∨ 1 ≤ pool_free p f + ranges_at segs f) ∧
  (∀ f, pool_free p' f = pool_free p f + ranges_at segs f) ∧
  pool_bytes p' = pool_bytes p + ranges_bytes segs.
Proof.
  intros [? ? Hu Hf Hb] [? ? Hu' Hw].
  assert (Hpos : ∀ f, 0 ≤ pool_free p f) by (intros; apply weight_cover_nonneg).
  split; [done |]. split; [done |]. split; [| split].
  - intros f [[?|?]%Hu|Hf1]%Hu'; [by left | right; specialize (Hpos f); lia | right].
    by rewrite <- Hf.
  - intros f. rewrite <- Hf. unfold pool_free. by rewrite (Hw _ (cover_additive f)).
  - rewrite <- Hb. unfold pool_bytes. by rewrite (Hw _ bytes_additive).
Qed.

(** ** The operations as a whole *)

(** The pools as an operation finds them, next to the other free chunks [rest]
    of the system. *)
Record pools_ok (rest : list chunk) (p : Pools) (used : gset Z) : Prop := {
  ok_wf : pools_wf p;
  ok_good : good used (pool_chunks p ++ rest);
  ok_bounded : bounded p;
  ok_snapshot : 0 ≤ snapshot p
}.

Lemma unlock_ok rest p used : pools_ok rest p used → pools_ok rest (unlock p) used.
Proof. by intros [? ? ? ?]. Qed.

Lemma update_snapshot p :
  0 ≤ snapshot p → pools_wf p → 0 ≤ snapshot (update_global_size_if_locked p).
Proof.
  intros Hs [_ Hg]. simpl. case_match; [| done].
  rewrite (wf_total _ _ Hg). apply weight_bytes_nonneg.
Qed.

Lemma balance_snapshot num_cpus p used p' used' :
  balance num_cpus p used = Done (p', used') → snapshot p' = snapshot p.
Proof.
  unfold balance. repeat case_match; intros Hb; simplify_eq; try done;
    apply bind_done in Hb as (? & _ & Hb); apply bind_done in Hb as (? & _ & Hb);
    apply bind_done in Hb as ([[] ?] & _ & Hb); by simplify_eq.
Qed.

(** The outcome of balancing and of publishing the global size, after an
    operation has left the pools in state [p1]. *)
Lemma finish_effect {A} num_cpus rest p1 used1 (r : A) :
  0 < num_cpus → 0 ≤ snapshot p1 → pools_wf p1 → good used1 (pool_chunks p1 ++ rest) →
  let finish := balance num_cpus p1 used1 ≫= λ '(p, used),
    Done (r, update_global_size_if_locked p, used) in
  (starved num_cpus p1 = true ∧ finish = Panic) ∨
  (starved num_cpus p1 = false ∧ ∃ p' used', finish = Done (r, p', used') ∧
     same_memory rest p1 used1 p' used' ∧ 0 ≤ snapshot p').
Proof.
  intros Hn Hs Hwf Hg finish. subst finish.
  pose proof (balance_effect num_cpus rest p1 used1 Hn Hs Hwf Hg) as Hb.
  destruct (starved num_cpus p1); [left; by rewrite Hb | right].
  destruct Hb as (p' & used' & Hb & Hsm). split; [done |]. rewrite Hb. simpl.
  eexists _, _. split; [done |]. split; [by destruct Hsm |].
  apply update_snapshot; [by rewrite (balance_snapshot _ _ _ _ _ Hb) | apply Hsm].
Qed.

Lemma shrunk_bounded rest a n p used p' used' :
  bounded p → shrunk rest a n p used p' used' → bounded p'.
Proof.
  intros Hb Hsh f Hf. apply Hb. rewrite (sh_free _ _ _ _ _ _ _ Hsh). pose proof (ind_bound a n f). lia.
Qed.

Lemma same_memory_bounded rest p used p' used' :
  bounded p → same_memory rest p used p' used' → bounded p'.
Proof.
  intros Hb Hsm f Hf. apply Hb. unfold pool_free in *.
  by rewrite <- (sm_weight _ _ _ _ _ Hsm _ (cover_additive f)).
Qed.

(** What [alloc] does when it returns. *)
Definition alloc_result (rest : list chunk) (l : Layout) (p : Pools) (used : gset Z)
    (r : option Z) (p' : Pools) (used' : gset Z) : Prop :=
  pools_ok rest p' used' ∧
  match r with
  | Some a => page_range a (size l) ∧ (align l | a) ∧ shrunk rest a (size l) p used p' used'
  | None => exhausted (alloc_order l) p ∧ same_memory rest p used p' used'
  end.

Lemma pools_alloc_effect num_cpus rest l p used :
  0 < num_cpus → page_layout l → pools_ok rest p used →
  ∃ r p1 used1, reserve l (unlock p) used = Done (r, p1, used1) ∧
    ((starved num_cpus p1 = true ∧ alloc num_cpus l p used = Panic) ∨
     (starved num_cpus p1 = false ∧ ∃ p' used',
        alloc num_cpus l p used = Done (r, p', used') ∧ alloc_result rest l p used r p' used')).
Proof.
  intros Hn Hl [Hwf Hg Hbd Hsn]. unfold alloc.
  destruct (reserve_effect l (unlock p) used rest)
    as [(p1 & -> & (Hs1 & Hs2 & Hs3) & Hex)|(a & p1 & used1 & -> & Hpr & Hal & Hs & Hsh)]; try done.
  - assert (Heq : pool_chunks p1 = pool_chunks p) by (unfold pool_chunks; simpl in *; congruence).
    eexists _, _, _. split; [done |].
    destruct (finish_effect num_cpus rest p1 used (None : option Z)) as [?|(? & p' & used' & He & Hsm & ?)];
      [done | simpl in *; lia | unfold pools_wf in *; simpl in *; by rewrite Hs1, Hs2 | by rewrite Heq
      | by left | right].
    split; [done |]. exists p', used'. split; [done |].
    assert (same_memory rest p used p' used') as Hsm'.
    { destruct Hsm as [? ? Hu Hw]. split; [done | done | |].
      - intros f Hf. unfold pool_free. rewrite <- Heq. by apply Hu.
      - intros w Hadd. rewrite <- Heq. by apply Hw. }
    split; [| done]. split; [apply Hsm | apply Hsm | by eapply same_memory_bounded | done].
  - eexists _, _, _. split; [done |].
    destruct (finish_effect num_cpus rest p1 used1 (Some a)) as [?|(? & p' & used' & He & Hsm & ?)];
      [done | simpl in *; lia | apply Hsh | apply Hsh | by left | right].
    split; [done |]. exists p', used'. split; [done |].
    assert (shrunk rest a (size l) p used p' used') as Hsh'
      by (eapply (shrunk_trans rest a (size l) p used p1 used1);
          [apply (good_disjoint _ _ Hg) | by destruct Hsh | done]).
    split; [| done]. split; [apply Hsh' | apply Hsh' | by eapply shrunk_bounded | done].
Qed.

(** What [dealloc] does when it returns. *)
Record dealloc_result (rest : list chunk) (segs : list (Z * Z)) (p : Pools) (used : gset Z)
    (p' : Pools) (used' : gset Z) : Prop := {
  dr_ok : pools_ok rest p' used';
  dr_used : ∀ f, f ∈ used' → f ∈ used ∨ 1 ≤ pool_free p f + ranges_at segs f;
  dr_free : ∀ f, pool_free p' f = pool_free p f + ranges_at segs f;
  dr_bytes : pool_bytes p' = pool_bytes p + ranges_bytes segs
}.

Lemma pools_dealloc_effect num_cpus rest segs p used :
  0 < num_cpus → pools_ok rest p used → freeable used (pool_chunks p ++ rest) segs →
  (∀ f, 1 ≤ ranges_at segs f → f < 2 ^ 63) →
  ∃ p1 used1, do_dealloc (unlock p) segs used = Done (p1, used1) ∧
    ((starved num_cpus p1 = true ∧ dealloc num_cpus segs p used = Panic) ∨
     (starved num_cpus p1 = false ∧ ∃ p' used',
        dealloc num_cpus segs p used = Done (p', used') ∧
        dealloc_result rest segs p used p' used')).
Proof.
  intros Hn [Hwf Hg Hbd Hsn] Hfr Hmax. unfold dealloc.
  destruct (do_dealloc_effect segs rest (unlock p) used) as (p1 & used1 & -> & Hgr & Hs); try done.
  eexists _, _. split; [done |]. simpl in Hs.
  destruct (finish_effect num_cpus rest p1 used1 tt) as [[? He]|(? & p' & used' & He & Hsm & ?)];
    [done | lia | apply Hgr | apply Hgr | left | right]; (split; [done |]).
  - simpl. by destruct (balance num_cpus p1 used1) as [[]|].
  - exists p', used'. simpl.
    destruct (grown_trans _ _ _ _ _ _ _ _ Hgr Hsm) as (? & ? & Hu & Hf & Hb).
    split; [by destruct (balance num_cpus p1 used1) as [[]|]; simplify_eq/= |].
    split; [| done | done | done]. split; [done | done | | done].
    intros f. rewrite Hf. intros Hle.
    destruct (Z.le_gt_cases 1 (pool_free p f)); [by apply Hbd |]. apply Hmax.
    change (pool_free (unlock p) f) with (pool_free p f) in Hle. lia.
Qed.

Lemma add_free_memory_effect rest a n p used :
  pools_ok rest p used → freeable used (pool_chunks p ++ rest) [(a, n)] →
  (∀ f, in_range a n f = true → f < 2 ^ 63) →
  ∃ p' used', add_free_memory a n p used = Done (p', used') ∧
    dealloc_result rest [(a, n)] p used p' used'.
Proof.
  intros [[Hl Hg] Hgood Hbd Hsn] [Hpg _ Hnew] Hmax. unfold add_free_memory.
  assert (Hperm : chunks (global p) ++ chunks (local p) ++ rest ≡ₚ pool_chunks p ++ rest)
    by (unfold pool_chunks; solve_Permutation).
  destruct (range_chunks a n used (chunks (global p) ++ chunks (local p) ++ rest))
    as (cs & -> & Ht & Hins); [apply Hpg; set_solver | |].
  { intros f Hf. rewrite Hperm. apply Hnew. simpl. unfold ind. rewrite Hf. lia. }
  destruct (@sink_all_effect BuddySet global_sink global_sink_laws cs (global p) used
    (chunks (local p) ++ rest)) as (g & used' & He & Hg' & Hgood' & Hu & Hw);
    [done | by rewrite Hperm | done |]. simpl. rewrite He. simpl.
  assert (Hcov : ∀ f, weight (cover f) (to_chunks cs) = ind a n f) by (intros; by apply tiles_cover).
  eexists _, _. split; [done |]. simpl in *.
  assert (Hc : cs = [] → g = global p) by (intros ->; by simplify_eq/=).
  set (p1 := if bool_decide (cs = []) then unlock p else set_global (unlock p) g).
  assert (pool_chunks p1 = chunks (local p) ++ chunks g ∧ local p1 = local p ∧ global p1 = g ∧
    snapshot p1 = snapshot p) as (Hpc & Hpl & Hpgl & Hps).
  { unfold p1. case_bool_decide as Hcs; [rewrite (Hc Hcs) |]; done. }
  split; [split | ..].
  - unfold pools_wf. simpl. by rewrite Hpl, Hpgl.
  - change (pool_chunks (update_global_size_if_locked p1)) with (pool_chunks p1).
    rewrite Hpc. by rewrite <- app_assoc, Permutation_app_swap_app.
  - intros f. unfold pool_free. change (pool_chunks (update_global_size_if_locked p1)) with (pool_chunks p1).
    rewrite Hpc, weight_app, (Hw _ (cover_additive f)), Hcov. unfold ind.
    case_match eqn:E; [intros _; by apply Hmax |]. intros Hf. apply Hbd.
    unfold pool_free, pool_chunks. rewrite weight_app. lia.
  - apply update_snapshot; [by rewrite Hps | unfold pools_wf; by rewrite Hpl, Hpgl].
  - intros f [?|Hin]%Hu; [by left | right]. rewrite Hcov in Hin. simpl.
    pose proof (weight_cover_nonneg f (pool_chunks p)). unfold pool_free. lia.
  - intros f. unfold pool_free. change (pool_chunks (update_global_size_if_locked p1)) with (pool_chunks p1).
    rewrite Hpc, weight_app, (Hw _ (cover_additive f)), Hcov. unfold pool_chunks.
    rewrite weight_app. simpl. lia.
  - unfold pool_bytes. change (pool_chunks (update_global_size_if_locked p1)) with (pool_chunks p1).
    rewrite Hpc, weight_app, (Hw _ bytes_additive), (tiles_bytes _ _ _ Ht). unfold pool_chunks.
    rewrite weight_app. simpl. lia.
Qed.

(** ** Enough memory in the global pool *)

(** Putting chunks back never shrinks the global pool, nor forgets the lock. *)
Definition global_grows (p p' : Pools) : Prop :=
  (locked p = true → locked p' = true) ∧ snapshot p' = snapshot p ∧
  (locked p' = false → locked p = false) ∧ total_size (global p) ≤ total_size (global p').

#[global] Instance global_grows_preorder : PreOrder global_grows.
Proof.
  split; [intros p; unfold global_grows; intuition lia |].
  intros p q r (? & ? & ? & ?) (? & ? & ? & ?). unfold global_grows. intuition (congruence || lia).
Qed.

Lemma insert_total s a o used s' used' :
  insert_chunk s a o used = Done (s', used') → total_size s ≤ total_size s'.
Proof.
  unfold insert_chunk. intros ([c u] & _ & Hi)%bind_done.
  apply bind_done in Hi as ([[c' ls] u'] & _ & Hi).
  apply bind_done in Hi as (ls' & _ & [= <- <-]). simpl. pose proof (size_pos o). lia.
Qed.

Lemma alloc_total s o used r s' used' :
  alloc_chunk s o used = Done (r, s', used') → total_size s - size_of_order o ≤ total_size s'.
Proof.
  unfold alloc_chunk. pose proof (size_pos o). case_match; [| intros [= _ <- _]; lia].
  case_match; [case_match |]; [done | | done].
  intros ([[c' ls] u] & _ & Ha)%bind_done. apply bind_done in Ha as (t & Ht & [= _ <- _]).
  apply unwrap_done in Ht. unfold checked_sub in Ht. simpl. case_match; simplify_eq. lia.
Qed.

Lemma do_dealloc_grows segs p used p' used' :
  do_dealloc p segs used = Done (p', used') → global_grows p p'.
Proof.
  assert (Hall : ∀ cs p used p' used', sink_all p cs used = Done (p', used') → global_grows p p').
  { clear. induction cs as [|[a o] cs IH]; simpl; intros p used p' used'; [by intros [= <- <-] |].
    intros ([p1 u1] & Hd & Hs)%bind_done. transitivity p1; [| by eapply IH].
    unfold dealloc_chunk in Hd.
    case_match; apply bind_done in Hd as ([s u] & Hi & [= <- <-]);
      apply insert_total in Hi; unfold global_grows; simpl; intuition lia. }
  revert p used. induction segs as [|[a n] segs IH]; simpl; intros p used; [by intros [= <- <-] |].
  intros (cs & _ & Hd)%bind_done. apply bind_done in Hd as ([p1 u1] & Hs & Hd).
  transitivity p1; [by eapply Hall | by eapply IH].
Qed.

Lemma reserve_global l p used r p1 used1 :
  locked p = false → reserve l p used = Done (r, p1, used1) →
  get_global_size p1 = snapshot p ∨
  total_size (global p) - size_of_order (alloc_order l) ≤ get_global_size p1.
Proof.
  intros Hlk. unfold reserve. intros ([[o p0] u0] & Ht & Hr)%bind_done.
  apply bind_done in Hr as ([p2 u2] & Htr & [= <- <- <-]).
  assert (Hgr : global_grows p0 p2).
  { unfold alloc_trim in Htr. repeat case_match; simplify_eq; try reflexivity.
    by apply do_dealloc_grows in Htr. }
  assert (Htake : (locked p0 = false ∧ snapshot p0 = snapshot p ∧ global p0 = global p) ∨
    (locked p0 = true ∧ total_size (global p) - size_of_order (alloc_order l) ≤ total_size (global p0))).
  { unfold alloc_take in Ht. apply bind_done in Ht as ([[o1 q] u1] & H1 & H2).
    assert (locked q = false ∧ snapshot q = snapshot p ∧ global q = global p) as (Hq & Hqs & Hqg).
    { destruct (alloc_order l <? MAX_LOCAL_BUDDY_ORDER)%nat; [| by simplify_eq].
      apply bind_done in H1 as ([[? ?] ?] & _ & [= _ <- _]). done. }
    destruct o1; [simplify_eq; by left |]. right.
    apply bind_done in H2 as ([[? s] ?] & Ha%alloc_total & [= _ <- _]). simpl. by rewrite <- Hqg. }
  destruct Hgr as (G1 & G2 & G3 & G4). unfold get_global_size.
  destruct Htake as [(T1 & T2 & T3)|(T1 & T2)].
  - destruct (locked p2) eqn:E; [right | left; congruence].
    rewrite T3 in G4. pose proof (size_pos (alloc_order l)). lia.
  - rewrite (G1 T1). right. lia.
Qed.

(** ** Properties *)

(** With enough memory in the global pool, allocation always returns: if the
    published size is at least four pages per CPU, and the pool itself holds that
    much on top of the chunk for the request, then nothing panics; the result is
    page aligned, aligned as requested, was free, and is exactly what leaves the
    free memory; without a result the pools hold no chunk large enough. *)
Theorem pools_alloc_stocked num_cpus rest l p used :
  0 < num_cpus → page_layout l → pools_ok rest p used →
  4 * PAGE_SIZE * num_cpus ≤ snapshot p →
  4 * PAGE_SIZE * num_cpus + size_of_order (alloc_order l) ≤ total_size (global p) →
  ∃ r p' used', alloc num_cpus l p used = Done (r, p', used') ∧
    pools_ok rest p' used' ∧
    match r with
    | Some a => page_range a (size l) ∧ (align l | a) ∧
        ∀ f, pool_free p f = pool_free p' f + ind a (size l) f
    | None => exhausted (alloc_order l) p ∧ ∀ f, pool_free p' f = pool_free p f
    end.
Proof.
  intros Hn Hl Hok Hs Hg.
  destruct (pools_alloc_effect num_cpus rest l p used) as (r & p1 & used1 & Hres & [[Hst _]|(_ & p' & used' & He & Hr)]);
    [done | done | done | |].
  - exfalso. apply reserve_global in Hres; [| done].
    rewrite stocked_not_starved in Hst; [done | done |]. simpl in Hres. lia.
  - exists r, p', used'. split; [done |]. destruct Hr as [Hok' Hr]. split; [done |].
    destruct r as [a|].
    + destruct Hr as (? & ? & Hsh). split; [done |]. split; [done |]. apply Hsh.
    + destruct Hr as [? Hsm]. split; [done |]. intros f. unfold pool_free.
      apply (sm_weight _ _ _ _ _ Hsm), cover_additive.
Qed.

(** *** Sixty-four pages at 1 MiB, one CPU *)

Definition no_memory : Pools :=
  mk (new_empty MAX_LOCAL_BUDDY_ORDER) (new_empty MAX_BUDDY_ORDER) false 0.

Definition some_memory : Pools * gset Z :=
  match add_free_memory (2 ^ 20) (2 ^ 18) no_memory ∅ with
  | Done st => st
  | Panic => (no_memory, ∅)
  end.

Lemma no_memory_ok : pools_ok [] no_memory ∅.
Proof.
  split; [split; apply (inv_empty _ ∅) | | |].
  - split; [intros c []%not_elem_of_nil | intros f; simpl; lia | intros c f []%not_elem_of_nil].
  - intros f Hf. exfalso. revert Hf. change (pool_free no_memory f) with 0. lia.
  - simpl. lia.
Defined.

Lemma some_memory_ok : pools_ok [] some_memory.1 some_memory.2.
Proof.
  destruct (add_free_memory_effect [] (2 ^ 20) (2 ^ 18) no_memory ∅) as (p & used & He & Hr).
  - apply no_memory_ok.
  - assert (size_of_order MAX_BUDDY_ORDER = 2 ^ 44) as Hmax by reflexivity. split.
    + intros a n [[= -> ->]|[]%not_elem_of_nil]%elem_of_cons. unfold page_range. rewrite Hmax.
      split; [lia |]. split; [lia |]. split; [lia |]. split; [by exists 256 | by exists 64].
    + intros f. simpl. pose proof (ind_bound (2 ^ 20) (2 ^ 18) f). lia.
    + intros f _. split; [apply not_elem_of_empty | done].
  - intros f. unfold in_range. intros [?%Z.leb_le ?%Z.ltb_lt]%andb_prop. lia.
  - unfold some_memory. rewrite He. apply Hr.
Qed.

Lemma pools_alloc_stocked_witness :
  ∃ r p' used', alloc 1 (layout (5 * PAGE_SIZE) PAGE_SIZE) some_memory.1 some_memory.2 =
      Done (r, p', used') ∧ pools_ok [] p' used' ∧
    match r with
    | Some a => page_range a (5 * PAGE_SIZE) ∧ (PAGE_SIZE | a) ∧
        ∀ f, pool_free some_memory.1 f = pool_free p' f + ind a (5 * PAGE_SIZE) f
    | None => exhausted (alloc_order (layout (5 * PAGE_SIZE) PAGE_SIZE)) some_memory.1 ∧
        ∀ f, pool_free p' f = pool_free some_memory.1 f
    end.
Proof.
  apply (pools_alloc_stocked 1 [] (layout (5 * PAGE_SIZE) PAGE_SIZE) some_memory.1 some_memory.2);
    [lia | | apply some_memory_ok | vm_compute; congruence | vm_compute; congruence].
  split; [simpl; unfold PAGE_SIZE; lia |]. split; [by exists 5 | by exists 12].
Defined.

End FramePools.
