(* ===== verification/FrameAlloc.v ===== *)
(** * The global frame allocator: [osxdk/deps/frame-allocator/src/]

    [cache.rs] (per-CPU caches of small segments), [smp_counter.rs] (the per-CPU
    counters of free memory) and [lib.rs] (the allocator itself), on top of the
    pools.  The state of the whole system is one record with the private state
    of every CPU; an operation runs on one CPU with interrupts disabled. *)

From S2P Require Import Prelude Buddy FramePools.
Local Open Scope Z_scope.

Module FrameAlloc.
Import Buddy FramePools.

(** ** Caches of segments *)

(** [CacheArray<NR_CONT_FRAMES, COUNT>]; the constants are arguments of the
    operations. *)
Record CacheArray : Type := Cache { inner : list (option Z); csize : nat }.

Definition cache_new (COUNT : nat) : CacheArray := Cache (replicate COUNT None) 0.

Definition segment_size (NR : Z) : Z := NR * PAGE_SIZE.

(** [None] when the cache is full. *)
Definition push_front (COUNT : nat) (c : CacheArray) (frame : Z)
  : outcome (option CacheArray) :=
  if (csize c =? COUNT)%nat then Done None
  else if (csize c <? length (inner c))%nat
       then Done (Some (Cache (<[csize c := Some frame]> (inner c)) (S (csize c))))
       else Panic.

Definition pop_front (c : CacheArray) : outcome (option (Z * CacheArray)) :=
  match csize c with
  | O => Done None
  | S n =>
      match inner c !! n with
      | Some (Some frame) => Done (Some (frame, Cache (<[n := None]> (inner c)) n))
      | _ => Panic
      end
  end.

(** [for i in 1..nr_to_alloc { self.push_front(allocated + i * segment_size) }] *)
Fixpoint push_segments (COUNT : nat) (NR a : Z) (js : list nat) (c : CacheArray)
  : outcome CacheArray :=
  match js with
  | [] => Done c
  | j :: js =>
      push_front COUNT c (a + Z.of_nat j * segment_size NR) ≫= λ o,
      push_segments COUNT NR a js (default c o)
  end.

Definition nr_to_alloc (COUNT : nat) : nat := COUNT * 2 / 3.

Definition cache_alloc (num_cpus NR : Z) (COUNT : nat) (c : CacheArray) (p : Pools) (used : gset Z)
  : outcome (option Z * CacheArray * Pools * gset Z) :=
  pop_front c ≫= λ o,
  match o with
  | Some (frame, c) => Done (Some frame, c, p, used)
  | None =>
      alloc num_cpus (layout (Z.of_nat (nr_to_alloc COUNT) * segment_size NR) PAGE_SIZE) p used
        ≫= λ '(allocated, p, used),
      match allocated with
      | None => Done (None, c, p, used)
      | Some a =>
          push_segments COUNT NR a (seq 1 (nr_to_alloc COUNT - 1)) c ≫= λ c,
          Done (Some a, c, p, used)
      end
  end.

(** [n] calls of [self.pop_front().unwrap()] *)
Fixpoint pop_segments (NR : Z) (n : nat) (c : CacheArray) : outcome (list (Z * Z) * CacheArray) :=
  match n with
  | O => Done ([], c)
  | S n =>
      (pop_front c ≫= unwrap) ≫= λ '(frame, c),
      pop_segments NR n c ≫= λ '(segs, c), Done ((frame, segment_size NR) :: segs, c)
  end.

Definition cache_dealloc (num_cpus NR : Z) (COUNT : nat) (a : Z) (c : CacheArray) (p : Pools)
    (used : gset Z) : outcome (CacheArray * Pools * gset Z) :=
  push_front COUNT c a ≫= λ o,
  match o with
  | Some c => Done (c, p, used)
  | None =>
      pop_segments NR (nr_to_alloc COUNT) c ≫= λ '(segs, c),
      dealloc num_cpus ((a, segment_size NR) :: segs) p used ≫= λ '(p, used),
      Done (c, p, used)
  end.

(** [CacheOfSizes] *)
Record CacheOfSizes : Type := Caches {
  cache1 : CacheArray; cache2 : CacheArray; cache3 : CacheArray; cache4 : CacheArray
}.

Definition caches_new : CacheOfSizes :=
  Caches (cache_new 12) (cache_new 6) (cache_new 6) (cache_new 6).

(** [cache::alloc] *)
Definition caches_alloc (num_cpus : Z) (l : Layout) (cs : CacheOfSizes) (p : Pools) (used : gset Z)
  : outcome (option Z * CacheOfSizes * Pools * gset Z) :=
  let nr_frames := size l / PAGE_SIZE in
  let direct := alloc num_cpus l p used ≫= λ '(r, p, used), Done (r, cs, p, used) in
  if size l <? align l then direct
  else if nr_frames =? 1 then
    cache_alloc num_cpus 1 12 (cache1 cs) p used ≫= λ '(r, c, p, used),
    Done (r, Caches c (cache2 cs) (cache3 cs) (cache4 cs), p, used)
  else if nr_frames =? 2 then
    cache_alloc num_cpus 2 6 (cache2 cs) p used ≫= λ '(r, c, p, used),
    Done (r, Caches (cache1 cs) c (cache3 cs) (cache4 cs), p, used)
  else if nr_frames =? 3 then
    cache_alloc num_cpus 3 6 (cache3 cs) p used ≫= λ '(r, c, p, used),
    Done (r, Caches (cache1 cs) (cache2 cs) c (cache4 cs), p, used)
  else if nr_frames =? 4 then
    cache_alloc num_cpus 4 6 (cache4 cs) p used ≫= λ '(r, c, p, used),
    Done (r, Caches (cache1 cs) (cache2 cs) (cache3 cs) c, p, used)
  else direct.

(** [cache::dealloc] *)
Definition caches_dealloc (num_cpus a n : Z) (cs : CacheOfSizes) (p : Pools) (used : gset Z)
  : outcome (CacheOfSizes * Pools * gset Z) :=
  let nr_frames := n / PAGE_SIZE in
  let direct := dealloc num_cpus [(a, n)] p used ≫= λ '(p, used), Done (cs, p, used) in
  if 4 <? nr_frames then direct
  else if nr_frames =? 1 then
    cache_dealloc num_cpus 1 12 a (cache1 cs) p used ≫= λ '(c, p, used),
    Done (Caches c (cache2 cs) (cache3 cs) (cache4 cs), p, used)
  else if nr_frames =? 2 then
    cache_dealloc num_cpus 2 6 a (cache2 cs) p used ≫= λ '(c, p, used),
    Done (Caches (cache1 cs) c (cache3 cs) (cache4 cs), p, used)
  else if nr_frames =? 3 then
    cache_dealloc num_cpus 3 6 a (cache3 cs) p used ≫= λ '(c, p, used),
    Done (Caches (cache1 cs) (cache2 cs) c (cache4 cs), p, used)
  else if nr_frames =? 4 then
    cache_dealloc num_cpus 4 6 a (cache4 cs) p used ≫= λ '(c, p, used),
    Done (Caches (cache1 cs) (cache2 cs) (cache3 cs) c, p, used)
  else direct.

(** ** The counters of free memory *)

(** [x as isize], [isize] arithmetic with wrap-around *)
Definition isize (x : Z) : Z := (x + 2 ^ 63) mod 2 ^ 64 - 2 ^ 63.

(** [FastSmpCounter::add], [sub]: on the counter of one CPU *)
Definition counter_add (c a : Z) : Z := isize (c + isize a).
Definition counter_sub (c a : Z) : Z := isize (c - isize a).

(** [FastSmpCounter::get] *)
Definition counter_get (cs : list Z) : Z :=
  let total := foldl (λ total c, isize (total + c)) 0 cs in
  if total <? 0 then 0 else total.

(** ** The system *)

Record Cpu : Type := mkCpu { caches : CacheOfSizes; pool : BuddySet; counter : Z }.

Record Sys : Type := mkSys {
  cpus : list Cpu;
  gpool : BuddySet;      (** [GLOBAL_POOL] *)
  gsize : Z;             (** [GLOBAL_POOL_SIZE] *)
  meta : gset Z          (** frames whose metadata slot is in use *)
}.

Definition boot (num_cpus : nat) : Sys :=
  mkSys (replicate num_cpus (mkCpu caches_new (new_empty MAX_LOCAL_BUDDY_ORDER) 0))
        (new_empty MAX_BUDDY_ORDER) 0 ∅.

Definition num_cpus (s : Sys) : Z := Z.of_nat (length (cpus s)).

(** What an operation on a CPU sees, and the system after it. *)
Definition view (s : Sys) (c : Cpu) : Pools := mk (pool c) (gpool s) false (gsize s).
Definition commit (s : Sys) (i : nat) (cs : CacheOfSizes) (n : Z) (p : Pools) (used : gset Z) : Sys :=
  mkSys (<[i := mkCpu cs (local p) n]> (cpus s)) (global p) (snapshot p) used.

(** [FrameAllocator::alloc] on CPU [i] *)
Definition frame_alloc (i : nat) (l : Layout) (s : Sys) : outcome (option Z * Sys) :=
  unwrap (cpus s !! i) ≫= λ c,
  caches_alloc (num_cpus s) l (caches c) (view s c) (meta s) ≫= λ '(r, cs, p, used),
  Done (r, commit s i cs (match r with
                          | Some _ => counter_sub (counter c) (size l)
                          | None => counter c
                          end) p used).

(** [FrameAllocator::dealloc] *)
Definition frame_dealloc (i : nat) (a n : Z) (s : Sys) : outcome Sys :=
  unwrap (cpus s !! i) ≫= λ c,
  caches_dealloc (num_cpus s) a n (caches c) (view s c) (meta s) ≫= λ '(cs, p, used),
  Done (commit s i cs (counter_add (counter c) n) p used).

(** [FrameAllocator::add_free_memory] *)
Definition frame_add_free_memory (i : nat) (a n : Z) (s : Sys) : outcome Sys :=
  unwrap (cpus s !! i) ≫= λ c,
  add_free_memory a n (view s c) (meta s) ≫= λ '(p, used),
  Done (commit s i (caches c) (counter_add (counter c) n) p used).

(** [load_total_free_size] *)
Definition load_total_free_size (s : Sys) : Z := counter_get (counter <$> cpus s).

(** ** Cache arrays as stacks *)

(** The array holds the stack [l], its top at the end. *)
Record stack (COUNT : nat) (c : CacheArray) (l : list Z) : Prop := {
  st_inner : inner c = (Some <$> l) ++ replicate (COUNT - length l) None;
  st_size : csize c = length l;
  st_le : (length l ≤ COUNT)%nat
}.

Lemma stack_new COUNT : stack COUNT (cache_new COUNT) [].
Proof. split; simpl; [by rewrite Nat.sub_0_r | done | lia]. Qed.

Lemma push_front_stack COUNT c l a :
  stack COUNT c l →
  if (length l =? COUNT)%nat then push_front COUNT c a = Done None
  else ∃ c', push_front COUNT c a = Done (Some c') ∧ stack COUNT c' (l ++ [a]).
Proof.
  intros [Hi Hs Hl]. unfold push_front. rewrite Hs.
  destruct (Nat.eqb_spec (length l) COUNT) as [|Hne]; [done |].
  rewrite (proj2 (Nat.ltb_lt _ _)) by (rewrite Hi, length_app, length_fmap, length_replicate; lia).
  eexists. split; [done |]. split; simpl; rewrite ?length_app; simpl; [| lia | lia].
  rewrite Hi, fmap_app. replace (COUNT - length l)%nat with (S (COUNT - (length l + 1))) by lia.
  simpl. rewrite <- (length_fmap Some l) at 1. rewrite insert_app_r_alt, Nat.sub_diag by lia.
  simpl. by rewrite <- app_assoc.
Qed.

Lemma pop_front_stack COUNT c l :
  stack COUNT c l →
  match last l with
  | None => pop_front c = Done None
  | Some a => ∃ c', pop_front c = Done (Some (a, c')) ∧ stack COUNT c' (take (length l - 1) l)
  end.
Proof.
  intros [Hi Hs Hl]. unfold pop_front. rewrite Hs.
  destruct l as [|a l _] using rev_ind; [done |].
  rewrite last_snoc, length_app, Nat.add_1_r, Nat.sub_1_r. simpl.
  rewrite take_app_length by done. rewrite length_app in *. simpl in *.
  assert (Hinner : inner c = (Some <$> l) ++ Some a :: replicate (COUNT - (length l + 1)) None)
    by (rewrite Hi, fmap_app, <- app_assoc; done).
  rewrite Hinner. rewrite lookup_app_r, length_fmap, Nat.sub_diag by (by rewrite length_fmap).
  simpl. eexists. split; [done |]. split; simpl; [| done | lia].
  rewrite <- (length_fmap Some l) at 1. rewrite insert_app_r_alt, Nat.sub_diag by lia. simpl.
  replace (COUNT - length l)%nat with (S (COUNT - (length l + 1))) by lia. done.
Qed.

(** The memory a cache holds. *)
Definition cache_ranges (NR : Z) (c : CacheArray) : list (Z * Z) :=
  (λ a, (a, segment_size NR)) <$> omap id (inner c).

Lemma stack_ranges NR COUNT c l :
  stack COUNT c l → cache_ranges NR c = (λ a, (a, segment_size NR)) <$> l.
Proof.
  intros [Hi _ _]. unfold cache_ranges. f_equal. rewrite Hi, omap_app.
  assert (∀ n, omap id (replicate n (None : option Z)) = []) as -> by (induction n; auto).
  rewrite app_nil_r. clear. induction l as [|a l IH]; [done |]. cbn. f_equal. exact IH.
Qed.

Lemma ranges_at_app R1 R2 f : ranges_at (R1 ++ R2) f = ranges_at R1 f + ranges_at R2 f.
Proof. induction R1 as [|[a n] R1 IH]; simpl; lia. Qed.

Lemma ranges_bytes_app R1 R2 : ranges_bytes (R1 ++ R2) = ranges_bytes R1 + ranges_bytes R2.
Proof. induction R1 as [|[a n] R1 IH]; simpl; lia. Qed.

#[global] Instance ranges_at_proper : Proper ((≡ₚ) ==> (=) ==> (=)) ranges_at.
Proof.
  intros R1 R2 Hp f ? <-. induction Hp as [|[]|[] []|]; simpl; lia.
Qed.

#[global] Instance ranges_bytes_proper : Proper ((≡ₚ) ==> (=)) ranges_bytes.
Proof. intros R1 R2 Hp. induction Hp as [|[]|[] []|]; simpl; lia. Qed.

(** ** Memory held outside the pools *)

(** The pools next to other free chunks [rest] and to ranges [H] that are held
    in caches or on their way: disjoint, and the frames held are unused. *)
Record held (rest : list chunk) (H : list (Z * Z)) (p : Pools) (used : gset Z) : Prop := {
  h_ok : pools_ok rest p used;
  h_once : ∀ f, weight (cover f) (pool_chunks p ++ rest) + ranges_at H f ≤ 1;
  h_unused : ∀ f, 1 ≤ ranges_at H f → (f ∉ used) ∧ f < 2 ^ 63;
  h_pages : ∀ a n, (a, n) ∈ H → page_range a n
}.

(** The same memory cut into other ranges. *)
Lemma held_cut rest H H' p used :
  held rest H p used → (∀ f, ranges_at H' f = ranges_at H f) →
  (∀ a n, (a, n) ∈ H' → page_range a n) → held rest H' p used.
Proof.
  intros [? Hone Hun ?] Hf Hp. split; [done | | | done]; intros f; rewrite Hf; [apply Hone | apply Hun].
Qed.

#[global] Instance held_proper rest : Proper ((≡ₚ) ==> (=) ==> (=) ==> iff) (held rest).
Proof.
  assert (∀ H H' p used, H ≡ₚ H' → held rest H p used → held rest H' p used) as Himp.
  { intros H H' p used Hp Hh. eapply held_cut; [done | |].
    - intros f. by rewrite Hp.
    - intros a n. rewrite <- Hp. apply Hh. }
  intros H H' Hp p ? <- used ? <-. split; by apply Himp.
Qed.

Lemma held_drop rest R H p used : held rest (R ++ H) p used → held rest H p used.
Proof.
  intros [? Hone Hun Hp]. split; [done | | |].
  - intros f. specialize (Hone f). rewrite ranges_at_app in Hone.
    pose proof (ranges_at_nonneg R f). lia.
  - intros f Hf. apply Hun. rewrite ranges_at_app. pose proof (ranges_at_nonneg R f). lia.
  - intros a n Hin. apply Hp. set_solver.
Qed.

(** Memory allocated from the pools is held. *)
Lemma held_alloc rest H l p used a p' used' :
  held rest H p used → alloc_result rest l p used (Some a) p' used' → held rest ((a, size l) :: H) p' used'.
Proof.
  intros [[_ _ Hbd _] Hone Hun Hp] [Hok (Hpr & _ & Hsh)].
  pose proof (sh_free _ _ _ _ _ _ _ Hsh) as Hf.
  assert (Hpos : ∀ f, 0 ≤ pool_free p' f) by (intros; apply weight_cover_nonneg).
  split; [done | ..]; simpl.
  - intros f. specialize (Hone f). rewrite weight_app in *. fold (pool_free p f) in Hone.
    fold (pool_free p' f). rewrite Hf in Hone. lia.
  - intros f Hge. specialize (Hone f). rewrite weight_app in Hone. fold (pool_free p f) in Hone.
    pose proof (weight_cover_nonneg f rest). pose proof (ranges_at_nonneg H f).
    destruct (in_range a (size l) f) eqn:E.
    + split; [by apply (sh_unused _ _ _ _ _ _ _ Hsh) |]. apply Hbd. rewrite Hf.
      unfold ind. rewrite E. specialize (Hpos f). lia.
    + unfold ind in Hge. rewrite E in Hge. destruct (Hun f) as [Hn ?]; [lia |].
      split; [| done]. intros [?|?]%(sh_used _ _ _ _ _ _ _ Hsh); [done | lia].
  - intros b n [[= -> ->]|Hin]%elem_of_cons; [done | by apply Hp].
Qed.

Lemma held_same rest H p used p' used' :
  held rest H p used → pools_ok rest p' used' → same_memory rest p used p' used' →
  held rest H p' used'.
Proof.
  intros [_ Hone Hun Hp] Hok [_ _ Hu Hw].
  split; [done | | | done].
  - intros f. rewrite weight_app, (Hw _ (cover_additive f)), <- weight_app. apply Hone.
  - intros f Hge. destruct (Hun f Hge) as [? ?]. split; [| done].
    intros [?|?]%Hu; [done |]. specialize (Hone f). rewrite weight_app in Hone.
    fold (pool_free p f) in Hone. pose proof (weight_cover_nonneg f rest). lia.
Qed.

(** Held memory can be deallocated. *)
Lemma held_freeable rest R H p used :
  held rest (R ++ H) p used → freeable used (pool_chunks p ++ rest) R.
Proof.
  intros [_ Hone Hun Hp].
  assert (Hpos : ∀ f, 0 ≤ weight (cover f) (pool_chunks p ++ rest)) by (intros; apply weight_cover_nonneg).
  split.
  - intros a n Hin. apply Hp. set_solver.
  - intros f. specialize (Hone f). specialize (Hpos f). rewrite ranges_at_app in Hone.
    pose proof (ranges_at_nonneg H f). lia.
  - intros f Hf. specialize (Hone f). specialize (Hpos f). specialize (Hun f).
    rewrite ranges_at_app in *. pose proof (ranges_at_nonneg H f).
    split; [apply Hun; lia | lia].
Qed.

Lemma held_dealloc rest R H p used p' used' :
  held rest (R ++ H) p used → dealloc_result rest R p used p' used' → held rest H p' used'.
Proof.
  intros [_ Hone Hun Hp] [Hok Hu Hf _]. split; [done | | |].
  - intros f. specialize (Hone f). rewrite weight_app in *. fold (pool_free p f) in Hone.
    fold (pool_free p' f). rewrite Hf, ranges_at_app in *. lia.
  - intros f Hge. specialize (Hone f). specialize (Hun f). rewrite ranges_at_app, weight_app in *.
    pose proof (ranges_at_nonneg R f). pose proof (weight_cover_nonneg f rest).
    pose proof (weight_cover_nonneg f (pool_chunks p)) as Hpf. fold (pool_free p f) in Hone, Hpf.
    destruct Hun as [Hn ?]; [lia |]. split; [| done]. intros [?|?]%Hu; [done | lia].
  - intros a n Hin. apply Hp. set_solver.
Qed.

(** ** The caches on top of the pools *)

Definition cache_wf (COUNT : nat) (c : CacheArray) : Prop := ∃ l, stack COUNT c l.

(** The two ways an operation runs into the balancing of starved pools. *)
Definition starvation (num_cpus : Z) (p : Pools) (used : gset Z) : Prop :=
  (∃ l r p1 used1, reserve l (unlock p) used = Done (r, p1, used1) ∧
     starved num_cpus p1 = true) ∨
  (∃ segs p1 used1, do_dealloc (unlock p) segs used = Done (p1, used1) ∧
     starved num_cpus p1 = true).

(** Pools [p] with held ranges [R] and pools [p'] with [R'] are the same memory. *)
Record conserved (p : Pools) (R : list (Z * Z)) (p' : Pools) (R' : list (Z * Z)) : Prop := {
  cons_free : ∀ f, pool_free p f + ranges_at R f = pool_free p' f + ranges_at R' f;
  cons_bytes : pool_bytes p + ranges_bytes R = pool_bytes p' + ranges_bytes R'
}.

(** The range an allocation hands out. *)
Definition out (n : Z) (r : option Z) : list (Z * Z) :=
  match r with Some a => [(a, n)] | None => [] end.

Definition segments (a n : Z) (js : list nat) : list (Z * Z) :=
  (λ j : nat, (a + Z.of_nat j * n, n)) <$> js.

(** Consecutive segments make up one range. *)
Lemma segments_at a n m k f :
  0 ≤ n →
  ranges_at (segments a n (seq m k)) f = ind (a + Z.of_nat m * n) (Z.of_nat k * n) f.
Proof.
  intros Hn. revert m. induction k as [|k IH]; intros m.
  - unfold ind, in_range. simpl. bool_cases; simpl; lia.
  - cbn [seq segments fmap list_fmap ranges_at]. fold (segments a n (seq (S m) k)).
    rewrite IH. unfold ind, in_range. bool_cases; simpl; nia.
Qed.

Lemma segments_bytes a n js : ranges_bytes (segments a n js) = Z.of_nat (length js) * n.
Proof.
  induction js as [|j js IH]; [done |].
  cbn [segments fmap list_fmap ranges_bytes]. fold (segments a n js). rewrite IH. simpl length. lia.
Qed.

Lemma segments_pages a NR k j b n :
  0 < NR → page_range a (Z.of_nat k * segment_size NR) → (b, n) ∈ segments a (segment_size NR) j →
  (∀ i, i ∈ j → (i < k)%nat) → page_range b n.
Proof.
  intros HNR (Ha & Hn & Hmax & Hpa & _) (i & [= -> ->] & Hi)%list_elem_of_fmap Hj.
  apply Hj in Hi. unfold segment_size, PAGE_SIZE in *.
  repeat split; [nia | nia | nia | nia | | by apply Z.divide_factor_r].
  apply Z.divide_add_r; [done |]. apply Z.divide_mul_r, Z.divide_factor_r.
Qed.

Lemma push_segments_stack COUNT NR a js c l :
  stack COUNT c l → (length l + length js ≤ COUNT)%nat →
  ∃ c', push_segments COUNT NR a js c = Done c' ∧
    stack COUNT c' (l ++ ((λ j : nat, a + Z.of_nat j * segment_size NR) <$> js)).
Proof.
  revert c l. induction js as [|j js IH]; intros c l Hst Hlen; simpl in *.
  { exists c. by rewrite app_nil_r. }
  pose proof (push_front_stack COUNT c l (a + Z.of_nat j * segment_size NR) Hst) as Hp.
  destruct (Nat.eqb_spec (length l) COUNT); [lia |]. destruct Hp as (c1 & -> & Hst1). simpl.
  destruct (IH c1 _ Hst1) as (c' & -> & Hst'); [rewrite length_app; simpl; lia |].
  exists c'. split; [done |]. by rewrite <- app_assoc in Hst'.
Qed.

Lemma pop_segments_stack COUNT NR n c l :
  stack COUNT c l → (n ≤ length l)%nat →
  ∃ segs c', pop_segments NR n c = Done (segs, c') ∧ cache_wf COUNT c' ∧
    cache_ranges NR c ≡ₚ segs ++ cache_ranges NR c'.
Proof.
  revert c l. induction n as [|n IH]; intros c l Hst Hlen; simpl.
  { exists [], c. split; [done |]. split; [by exists l | done]. }
  pose proof (pop_front_stack COUNT c l Hst) as Hp.
  destruct l as [|a l _] using rev_ind; [simpl in Hlen; lia |].
  rewrite last_snoc in Hp. destruct Hp as (c1 & -> & Hst1). simpl.
  rewrite length_app, Nat.add_sub, take_app_length in Hst1.
  destruct (IH c1 l Hst1) as (segs & c' & -> & Hwf & Hp'); [rewrite length_app in Hlen; simpl in Hlen; lia |].
  exists ((a, segment_size NR) :: segs), c'. split; [done |]. split; [done |].
  rewrite (stack_ranges NR _ _ _ Hst), fmap_app, <- (stack_ranges NR _ _ _ Hst1), Hp'.
  simpl. by rewrite Permutation_app_comm.
Qed.

Section Caches.
Context (ncpus : Z) (NR : Z) (COUNT : nat).
Context (ncpus_pos : 0 < ncpus) (NR_pos : 0 < NR).
Context (nr_pos : (0 < nr_to_alloc COUNT ≤ COUNT)%nat).

(** What a cache operation that returns has done: [got] was handed out. *)
Definition cache_done (rest : list chunk) (H : list (Z * Z)) (c : CacheArray) (p : Pools)
    (got : list (Z * Z)) (c' : CacheArray) (p' : Pools) (used' : gset Z) : Prop :=
  cache_wf COUNT c' ∧ held rest (got ++ cache_ranges NR c' ++ H) p' used' ∧
  conserved p (cache_ranges NR c) p' (got ++ cache_ranges NR c').

Lemma cache_alloc_hit rest H c p used l a :
  stack COUNT c (l ++ [a]) → held rest (cache_ranges NR c ++ H) p used →
  ∃ c', cache_alloc ncpus NR COUNT c p used = Done (Some a, c', p, used) ∧
    cache_done rest H c p [(a, segment_size NR)] c' p used.
Proof.
  intros Hst Hh. unfold cache_alloc.
  pose proof (pop_front_stack COUNT c _ Hst) as Hp. rewrite last_snoc in Hp.
  destruct Hp as (c' & -> & Hst'). rewrite length_app, Nat.add_sub, take_app_length in Hst'.
  exists c'. split; [done |]. split; [by exists l |].
  assert (Hr : cache_ranges NR c ≡ₚ [(a, segment_size NR)] ++ cache_ranges NR c').
  { rewrite (stack_ranges NR _ _ _ Hst), (stack_ranges NR _ _ _ Hst'), fmap_app.
    apply Permutation_app_comm. }
  split.
  - eapply held_cut; [done | |].
    + intros f. rewrite app_assoc, !(ranges_at_app _ H). by rewrite Hr.
    + intros b n Hin. apply (h_pages _ _ _ _ Hh). rewrite Hr. set_solver.
  - split; [intros f |]; by rewrite Hr.
Qed.

Lemma cache_alloc_fill rest H c p used :
  stack COUNT c [] → held rest H p used →
  let l := layout (Z.of_nat (nr_to_alloc COUNT) * segment_size NR) PAGE_SIZE in
  (cache_alloc ncpus NR COUNT c p used = Panic ∧ starvation ncpus p used) ∨
  ∃ r c' p' used', cache_alloc ncpus NR COUNT c p used = Done (r, c', p', used') ∧
    cache_done rest H c p (out (segment_size NR) r) c' p' used'.
Proof.
  intros Hst Hh l. unfold cache_alloc. pose proof (pop_front_stack COUNT c _ Hst) as Hp.
  simpl in Hp. rewrite Hp. simpl. fold l.
  assert (Hseg : 0 < segment_size NR) by (unfold segment_size, PAGE_SIZE; lia).
  assert (Hc : cache_ranges NR c = []) by (by rewrite (stack_ranges NR _ _ _ Hst)).
  destruct (pools_alloc_effect ncpus rest l p used) as (r & p1 & used1 & Hres & [[Hs ->]|(Hs & p' & used' & -> & Hr)]);
    [done | | apply Hh | left | right].
  { split; [simpl; lia |]. split; [| by exists 12]. simpl. unfold segment_size.
    rewrite Z.mul_assoc. apply Z.divide_factor_r. }
  { split; [done |]. left. by exists l, r, p1, used1. }
  simpl. destruct r as [a|].
  - destruct (push_segments_stack COUNT NR a (seq 1 (nr_to_alloc COUNT - 1)) c [] Hst)
      as (c' & -> & Hst'); [rewrite length_seq; simpl; lia |].
    exists (Some a), c', p', used'. split; [done |]. split; [by eexists |].
    assert (Hcut : out (segment_size NR) (Some a) ++ cache_ranges NR c' =
      segments a (segment_size NR) (seq 0 (nr_to_alloc COUNT))).
    { rewrite (stack_ranges NR _ _ _ Hst'). simpl. rewrite <- list_fmap_compose.
      destruct (nr_to_alloc COUNT) as [|k]; [lia |]. simpl. rewrite Nat.sub_0_r. f_equal.
      f_equal. lia. }
    assert (Hat : ∀ f, ranges_at (segments a (segment_size NR) (seq 0 (nr_to_alloc COUNT))) f =
      ind a (size l) f).
    { intros f. rewrite segments_at by lia. simpl. f_equal. lia. }
    destruct Hr as [Hok' (Hpr & Hal & Hsh)]. split.
    + rewrite app_assoc, Hcut. eapply held_cut;
        [eapply (held_alloc rest H l); [done | by split] | |].
      * intros f. simpl. by rewrite ranges_at_app, Hat.
      * intros b n [Hin|Hin]%elem_of_app; [| by apply (h_pages _ _ _ _ Hh)].
        eapply (segments_pages a NR); [done | exact Hpr | exact Hin |].
        intros i Hi. apply elem_of_seq in Hi. lia.
    + rewrite Hcut, Hc. split.
      * intros f. rewrite (sh_free _ _ _ _ _ _ _ Hsh), Hat. simpl. lia.
      * rewrite (sh_bytes _ _ _ _ _ _ _ Hsh), segments_bytes, length_seq. simpl. lia.
  - exists None, c, p', used'. destruct Hr as [Hok' [_ Hsm]]. split; [done |].
    split; [by eexists |]. rewrite Hc. simpl. split; [by eapply held_same |].
    split; [intros f |]; simpl; unfold pool_free, pool_bytes;
      by rewrite (sm_weight _ _ _ _ _ Hsm) by (apply cover_additive || apply bytes_additive).
Qed.

Lemma cache_alloc_effect rest H c p used :
  cache_wf COUNT c → held rest (cache_ranges NR c ++ H) p used →
  (cache_alloc ncpus NR COUNT c p used = Panic ∧ starvation ncpus p used) ∨
  ∃ r c' p' used', cache_alloc ncpus NR COUNT c p used = Done (r, c', p', used') ∧
    cache_done rest H c p (out (segment_size NR) r) c' p' used'.
Proof.
  intros [l Hst] Hh. destruct l as [|a l _] using rev_ind.
  - apply cache_alloc_fill; [done |]. by apply held_drop in Hh.
  - right. destruct (cache_alloc_hit rest H c p used l a Hst Hh) as (c' & ? & ?).
    by exists (Some a), c', p, used.
Qed.

Lemma cache_dealloc_effect rest H c p used a :
  cache_wf COUNT c → held rest ((a, segment_size NR) :: cache_ranges NR c ++ H) p used →
  (cache_dealloc ncpus NR COUNT a c p used = Panic ∧ starvation ncpus p used) ∨
  ∃ c' p' used', cache_dealloc ncpus NR COUNT a c p used = Done (c', p', used') ∧
    cache_wf COUNT c' ∧ held rest (cache_ranges NR c' ++ H) p' used' ∧
    conserved p ((a, segment_size NR) :: cache_ranges NR c) p' (cache_ranges NR c').
Proof.
  intros [l Hst] Hh. unfold cache_dealloc.
  pose proof (push_front_stack COUNT c l a Hst) as Hp.
  destruct (Nat.eqb_spec (length l) COUNT) as [Hfull|Hroom].
  - rewrite Hp. simpl.
    destruct (pop_segments_stack COUNT NR (nr_to_alloc COUNT) c l Hst) as (segs & c' & -> & Hwf & Hperm);
      [lia |]. simpl. rewrite Hperm in Hh.
    rewrite <- app_assoc in Hh. change (held rest (((a, segment_size NR) :: segs) ++ cache_ranges NR c' ++ H) p used) in Hh.
    destruct (pools_dealloc_effect ncpus rest ((a, segment_size NR) :: segs) p used)
      as (p1 & used1 & Hd & [[Hs ->]|(Hs & p' & used' & -> & Hr)]);
      [done | apply Hh | by eapply held_freeable | | left | right].
    + intros f Hf. apply (h_unused _ _ _ _ Hh f). rewrite ranges_at_app.
      pose proof (ranges_at_nonneg (cache_ranges NR c' ++ H) f). lia.
    + split; [done |]. right. by exists ((a, segment_size NR) :: segs), p1, used1.
    + exists c', p', used'. split; [done |]. split; [done |].
      split; [by eapply held_dealloc |]. split.
      * intros f. rewrite (dr_free _ _ _ _ _ _ Hr), Hperm. simpl. rewrite ranges_at_app. lia.
      * rewrite (dr_bytes _ _ _ _ _ _ Hr), Hperm. simpl. rewrite ranges_bytes_app. lia.
  - destruct Hp as (c' & -> & Hst'). right. exists c', p, used. split; [done |].
    split; [by eexists |].
    assert (Hr : cache_ranges NR c' ≡ₚ (a, segment_size NR) :: cache_ranges NR c).
    { rewrite (stack_ranges NR _ _ _ Hst'), (stack_ranges NR _ _ _ Hst), fmap_app.
      simpl. by rewrite Permutation_app_comm. }
    split; [by rewrite Hr |]. split; [intros f |]; by rewrite Hr.
Qed.

End Caches.

(** ** The caches of a CPU *)

Definition caches_wf (cs : CacheOfSizes) : Prop :=
  cache_wf 12 (cache1 cs) ∧ cache_wf 6 (cache2 cs) ∧ cache_wf 6 (cache3 cs) ∧ cache_wf 6 (cache4 cs).

Definition caches_ranges (cs : CacheOfSizes) : list (Z * Z) :=
  cache_ranges 1 (cache1 cs) ++ cache_ranges 2 (cache2 cs) ++
  cache_ranges 3 (cache3 cs) ++ cache_ranges 4 (cache4 cs).

(** From the cache that was used to all the caches [R] of the CPU, the others
    being [O]. *)
Lemma cache_done_lift NR COUNT rest H O c p got c' p' used' R R' :
  R ≡ₚ cache_ranges NR c ++ O → R' ≡ₚ cache_ranges NR c' ++ O →
  cache_done NR COUNT rest (O ++ H) c p got c' p' used' →
  held rest (got ++ R' ++ H) p' used' ∧ conserved p R p' (got ++ R').
Proof.
  intros HR HR' (_ & Hh & [Hf Hb]). split; [by rewrite HR', <- app_assoc |]. split.
  - intros f. specialize (Hf f). rewrite HR, HR', !ranges_at_app in *. lia.
  - rewrite HR, HR', !ranges_bytes_app in *. lia.
Qed.

Lemma nr_frames_size n k : (PAGE_SIZE | n) → n / PAGE_SIZE = k → n = segment_size k.
Proof. intros [j ->]. rewrite Z.div_mul by done. by intros ->. Qed.

Definition caches_done (rest : list chunk) (H : list (Z * Z)) (cs : CacheOfSizes) (p : Pools)
    (got : list (Z * Z)) (cs' : CacheOfSizes) (p' : Pools) (used' : gset Z) : Prop :=
  caches_wf cs' ∧ held rest (got ++ caches_ranges cs' ++ H) p' used' ∧
  conserved p (caches_ranges cs) p' (got ++ caches_ranges cs').

Lemma direct_alloc_effect ncpus rest H l cs p used :
  0 < ncpus → page_layout l → caches_wf cs → held rest (caches_ranges cs ++ H) p used →
  let r := alloc ncpus l p used ≫= λ '(r, p, used), Done (r, cs, p, used) in
  (r = Panic ∧ starvation ncpus p used) ∨
  ∃ o cs' p' used', r = Done (o, cs', p', used') ∧
    caches_done rest H cs p (out (size l) o) cs' p' used'.
Proof.
  intros Hn Hl Hwf Hh r. subst r.
  destruct (pools_alloc_effect ncpus rest l p used)
    as (o & p1 & used1 & Hres & [[Hs ->]|(Hs & p' & used' & -> & Hr)]);
    [done | done | apply Hh | left | right].
  - split; [done |]. left. by exists l, o, p1, used1.
  - exists o, cs, p', used'. split; [done |]. split; [done |]. destruct o as [a|]; simpl.
    + split; [by apply (held_alloc rest _ l p used a) |]. destruct Hr as [_ (_ & _ & Hsh)].
      split; [intros f | ]; simpl;
        rewrite ?(sh_free _ _ _ _ _ _ _ Hsh), ?(sh_bytes _ _ _ _ _ _ _ Hsh); lia.
    + destruct Hr as [Hok [_ Hsm]]. split; [by eapply held_same |].
      split; [intros f |]; simpl; unfold pool_free, pool_bytes;
        by rewrite (sm_weight _ _ _ _ _ Hsm) by (apply cover_additive || apply bytes_additive).
Qed.

Lemma direct_dealloc_effect ncpus rest H a n cs p used :
  0 < ncpus → caches_wf cs → held rest ((a, n) :: caches_ranges cs ++ H) p used →
  let r := dealloc ncpus [(a, n)] p used ≫= λ '(p, used), Done (cs, p, used) in
  (r = Panic ∧ starvation ncpus p used) ∨
  ∃ cs' p' used', r = Done (cs', p', used') ∧ caches_wf cs' ∧
    held rest (caches_ranges cs' ++ H) p' used' ∧
    conserved p ((a, n) :: caches_ranges cs) p' (caches_ranges cs').
Proof.
  intros Hn Hwf Hh r. subst r.
  change (held rest ([(a, n)] ++ caches_ranges cs ++ H) p used) in Hh.
  destruct (pools_dealloc_effect ncpus rest [(a, n)] p used)
    as (p1 & used1 & Hd & [[Hs ->]|(Hs & p' & used' & -> & Hr)]);
    [done | apply Hh | by eapply held_freeable | | left | right].
  - intros f Hf. apply (h_unused _ _ _ _ Hh f). rewrite ranges_at_app.
    pose proof (ranges_at_nonneg (caches_ranges cs ++ H) f). lia.
  - split; [done |]. right. by exists [(a, n)], p1, used1.
  - exists cs, p', used'. split; [done |]. split; [done |]. split; [by eapply held_dealloc |].
    split; [intros f |]; rewrite ?(dr_free _ _ _ _ _ _ Hr), ?(dr_bytes _ _ _ _ _ _ Hr); simpl; lia.
Qed.

(** One cache of the four serves the request; [swap] puts the changed cache back. *)
Lemma cached_alloc_effect ncpus NR COUNT rest H cs c (swap : CacheArray → CacheOfSizes) O p used n :
  0 < ncpus → 0 < NR → (0 < nr_to_alloc COUNT ≤ COUNT)%nat → n = segment_size NR →
  (∀ c', cache_wf COUNT c' → caches_wf (swap c')) → cache_wf COUNT c →
  (∀ c', caches_ranges (swap c') ≡ₚ cache_ranges NR c' ++ O) → swap c = cs →
  held rest (caches_ranges cs ++ H) p used →
  let r := cache_alloc ncpus NR COUNT c p used ≫= λ '(r, c, p, used), Done (r, swap c, p, used) in
  (r = Panic ∧ starvation ncpus p used) ∨
  ∃ o cs' p' used', r = Done (o, cs', p', used') ∧
    caches_done rest H cs p (out n o) cs' p' used'.
Proof.
  intros ? ? ? -> Hwf Hc HO <- Hh r. subst r. rewrite (HO c), <- app_assoc in Hh.
  destruct (cache_alloc_effect ncpus NR COUNT ltac:(done) ltac:(done) ltac:(done) rest (O ++ H) c p used)
    as [[-> ?]|(o & c' & p' & used' & -> & Hd)]; [done | done | by left | right].
  exists o, (swap c'), p', used'. split; [done |]. split; [apply Hwf, Hd |].
  by eapply cache_done_lift.
Qed.

Lemma cached_dealloc_effect ncpus NR COUNT rest H cs c (swap : CacheArray → CacheOfSizes) O p used a n :
  0 < ncpus → 0 < NR → (0 < nr_to_alloc COUNT ≤ COUNT)%nat → n = segment_size NR →
  (∀ c', cache_wf COUNT c' → caches_wf (swap c')) → cache_wf COUNT c →
  (∀ c', caches_ranges (swap c') ≡ₚ cache_ranges NR c' ++ O) → swap c = cs →
  held rest ((a, n) :: caches_ranges cs ++ H) p used →
  let r := cache_dealloc ncpus NR COUNT a c p used ≫= λ '(c, p, used), Done (swap c, p, used) in
  (r = Panic ∧ starvation ncpus p used) ∨
  ∃ cs' p' used', r = Done (cs', p', used') ∧ caches_wf cs' ∧
    held rest (caches_ranges cs' ++ H) p' used' ∧
    conserved p ((a, n) :: caches_ranges cs) p' (caches_ranges cs').
Proof.
  intros ? ? ? -> Hwf Hc HO <- Hh r. subst r. rewrite (HO c), <- app_assoc in Hh.
  destruct (cache_dealloc_effect ncpus NR COUNT ltac:(done) ltac:(done) rest (O ++ H) c p used a)
    as [[-> ?]|(c' & p' & used' & -> & Hc' & Hh' & [Hf Hb])]; [done | done | by left | right].
  exists (swap c'), p', used'. split; [done |]. split; [by apply Hwf |].
  split; [by rewrite (HO c'), <- app_assoc |].
  split; [intros f; specialize (Hf f) |]; simpl in *; rewrite (HO c), (HO c');
    rewrite ?ranges_at_app, ?ranges_bytes_app; lia.
Qed.

(** Solve the goal with the cache [c] of [k]-frame segments, [O] being the others. *)
Ltac pick_cache lem k COUNT c swap O :=
  match goal with
  | Hwf : caches_wf ?cs |- _ =>
      apply (lem _ k COUNT _ _ cs (c cs) (swap cs) (O cs));
        [done | lia | vm_compute; lia | by apply nr_frames_size
        | intros ? ?; by destruct Hwf as (? & ? & ? & ?) | by destruct Hwf as (? & ? & ? & ?)
        | intros ?; unfold caches_ranges; simpl; solve_Permutation | by destruct cs | done]
  end.

Ltac pick lem :=
  first
  [ pick_cache lem 1 12%nat cache1 (λ cs c, Caches c (cache2 cs) (cache3 cs) (cache4 cs))
      (λ cs, cache_ranges 2 (cache2 cs) ++ cache_ranges 3 (cache3 cs) ++ cache_ranges 4 (cache4 cs))
  | pick_cache lem 2 6%nat cache2 (λ cs c, Caches (cache1 cs) c (cache3 cs) (cache4 cs))
      (λ cs, cache_ranges 1 (cache1 cs) ++ cache_ranges 3 (cache3 cs) ++ cache_ranges 4 (cache4 cs))
  | pick_cache lem 3 6%nat cache3 (λ cs c, Caches (cache1 cs) (cache2 cs) c (cache4 cs))
      (λ cs, cache_ranges 1 (cache1 cs) ++ cache_ranges 2 (cache2 cs) ++ cache_ranges 4 (cache4 cs))
  | pick_cache lem 4 6%nat cache4 (λ cs c, Caches (cache1 cs) (cache2 cs) (cache3 cs) c)
      (λ cs, cache_ranges 1 (cache1 cs) ++ cache_ranges 2 (cache2 cs) ++ cache_ranges 3 (cache3 cs)) ].

Lemma caches_alloc_effect ncpus rest H l cs p used :
  0 < ncpus → page_layout l → caches_wf cs → held rest (caches_ranges cs ++ H) p used →
  (caches_alloc ncpus l cs p used = Panic ∧ starvation ncpus p used) ∨
  ∃ o cs' p' used', caches_alloc ncpus l cs p used = Done (o, cs', p', used') ∧
    caches_done rest H cs p (out (size l) o) cs' p' used'.
Proof.
  intros Hn Hl Hwf Hh. pose proof (direct_alloc_effect ncpus rest H l cs p used Hn Hl Hwf Hh) as Hdirect.
  pose proof (proj1 (proj2 Hl)) as Hpage. unfold caches_alloc.
  destruct (size l <? align l); [done |].
  destruct (Z.eqb_spec (size l / PAGE_SIZE) 1); [pick cached_alloc_effect |].
  destruct (Z.eqb_spec (size l / PAGE_SIZE) 2); [pick cached_alloc_effect |].
  destruct (Z.eqb_spec (size l / PAGE_SIZE) 3); [pick cached_alloc_effect |].
  destruct (Z.eqb_spec (size l / PAGE_SIZE) 4); [pick cached_alloc_effect | done].
Qed.

Lemma caches_dealloc_effect ncpus rest H a n cs p used :
  0 < ncpus → (PAGE_SIZE | n) → caches_wf cs →
  held rest ((a, n) :: caches_ranges cs ++ H) p used →
  (caches_dealloc ncpus a n cs p used = Panic ∧ starvation ncpus p used) ∨
  ∃ cs' p' used', caches_dealloc ncpus a n cs p used = Done (cs', p', used') ∧ caches_wf cs' ∧
    held rest (caches_ranges cs' ++ H) p' used' ∧
    conserved p ((a, n) :: caches_ranges cs) p' (caches_ranges cs').
Proof.
  intros Hn Hpage Hwf Hh. pose proof (direct_dealloc_effect ncpus rest H a n cs p used Hn Hwf Hh) as Hdirect.
  unfold caches_dealloc. destruct (4 <? n / PAGE_SIZE); [done |].
  destruct (Z.eqb_spec (n / PAGE_SIZE) 1); [pick cached_dealloc_effect |].
  destruct (Z.eqb_spec (n / PAGE_SIZE) 2); [pick cached_dealloc_effect |].
  destruct (Z.eqb_spec (n / PAGE_SIZE) 3); [pick cached_dealloc_effect |].
  destruct (Z.eqb_spec (n / PAGE_SIZE) 4); [pick cached_dealloc_effect | done].
Qed.

(** ** The whole system *)

Definition sys_chunks (s : Sys) : list chunk :=
  concat ((λ c, chunks (pool c)) <$> cpus s) ++ chunks (gpool s).
Definition sys_cached (s : Sys) : list (Z * Z) :=
  concat ((λ c, caches_ranges (caches c)) <$> cpus s).

(** How often address [f] is free, in a pool or in a cache; and the free memory. *)
Definition sys_free (s : Sys) (f : Z) : Z :=
  weight (cover f) (sys_chunks s) + ranges_at (sys_cached s) f.
Definition sys_bytes (s : Sys) : Z :=
  weight bytes (sys_chunks s) + ranges_bytes (sys_cached s).

Record sys_ok (s : Sys) : Prop := {
  so_cpus : Forall (λ c, wf MAX_LOCAL_BUDDY_ORDER (pool c) ∧ caches_wf (caches c)) (cpus s);
  so_global : wf MAX_BUDDY_ORDER (gpool s);
  so_size : 0 ≤ gsize s;
  so_good : good (meta s) (sys_chunks s);
  so_once : ∀ f, sys_free s f ≤ 1;
  so_bounded : ∀ f, 1 ≤ sys_free s f → f < 2 ^ 63;
  so_unused : ∀ f, 1 ≤ ranges_at (sys_cached s) f → f ∉ meta s;
  so_pages : ∀ a n, (a, n) ∈ sys_cached s → page_range a n
}.

(** The system around one CPU. *)
Lemma sys_split s i c :
  cpus s !! i = Some c →
  ∃ rest H, sys_chunks s ≡ₚ pool_chunks (view s c) ++ rest ∧
    sys_cached s ≡ₚ caches_ranges (caches c) ++ H ∧
    ∀ cs n p used, sys_chunks (commit s i cs n p used) ≡ₚ pool_chunks p ++ rest ∧
      sys_cached (commit s i cs n p used) ≡ₚ caches_ranges cs ++ H.
Proof.
  intros Hi.
  destruct (concat_insert ((λ c, chunks (pool c)) <$> cpus s) i (chunks (pool c))) as (r & Hr & Hr');
    [by rewrite list_lookup_fmap, Hi |].
  destruct (concat_insert ((λ c, caches_ranges (caches c)) <$> cpus s) i (caches_ranges (caches c)))
    as (H & HH & HH'); [by rewrite list_lookup_fmap, Hi |].
  exists r, H. unfold sys_chunks, sys_cached, pool_chunks, view, commit. simpl.
  split; [rewrite Hr; solve_Permutation |]. split; [done |].
  intros cs n p used. rewrite !list_fmap_insert. simpl. rewrite Hr', HH'.
  split; [solve_Permutation | done].
Qed.

Lemma sys_held s i c rest H :
  sys_ok s → cpus s !! i = Some c →
  sys_chunks s ≡ₚ pool_chunks (view s c) ++ rest →
  sys_cached s ≡ₚ caches_ranges (caches c) ++ H →
  held rest (caches_ranges (caches c) ++ H) (view s c) (meta s) ∧ caches_wf (caches c).
Proof.
  intros [Hc Hg Hs Hgood Hone Hbd Hun Hp] Hi Hch Hca.
  pose proof (Forall_lookup_1 _ _ _ _ Hc Hi) as [Hl Hcw]. split; [| done].
  unfold sys_free in *. split; [split | | |].
  - done.
  - by rewrite <- Hch.
  - intros f Hf. apply Hbd. rewrite Hch, weight_app.
    pose proof (weight_cover_nonneg f rest). pose proof (ranges_at_nonneg (sys_cached s) f).
    unfold pool_free in Hf. lia.
  - done.
  - intros f. rewrite <- Hch, <- Hca. apply Hone.
  - intros f. rewrite <- Hca. intros Hf. split; [by apply Hun |]. apply Hbd.
    pose proof (weight_cover_nonneg f (sys_chunks s)). lia.
  - intros a n. rewrite <- Hca. apply Hp.
Qed.

Lemma sys_commit s i c rest H cs n p used :
  sys_ok s → cpus s !! i = Some c →
  sys_chunks s ≡ₚ pool_chunks (view s c) ++ rest →
  sys_chunks (commit s i cs n p used) ≡ₚ pool_chunks p ++ rest →
  sys_cached (commit s i cs n p used) ≡ₚ caches_ranges cs ++ H →
  caches_wf cs → held rest (caches_ranges cs ++ H) p used →
  sys_ok (commit s i cs n p used).
Proof.
  intros Hok Hi Hch Hch' Hca' Hcw [[[Hl Hg] Hgood Hbd Hsn] Hone Hun Hp].
  split; unfold sys_free; simpl; [| done | done | by rewrite Hch' | ..].
  - apply Forall_insert; [apply Hok | done].
  - intros f. rewrite Hch', Hca'. apply Hone.
  - intros f. rewrite Hch', Hca'. intros Hf. rewrite weight_app in Hf.
    fold (pool_free p f) in Hf. destruct (Z.le_gt_cases 1 (pool_free p f)); [by apply Hbd |].
    destruct (Z.le_gt_cases 1 (ranges_at (caches_ranges cs ++ H) f)); [by apply Hun |].
    apply (so_bounded _ Hok). unfold sys_free. rewrite Hch, weight_app.
    pose proof (weight_cover_nonneg f (pool_chunks (view s c))).
    pose proof (ranges_at_nonneg (sys_cached s) f). lia.
  - intros f. rewrite Hca'. apply Hun.
  - intros a m. rewrite Hca'. apply Hp.
Qed.

Lemma num_cpus_pos s i c : cpus s !! i = Some c → 0 < num_cpus s.
Proof. intros ?%lookup_lt_Some. unfold num_cpus. lia. Qed.

(** CPU [i] is about to balance starved pools. *)
Definition sys_starvation (i : nat) (s : Sys) : Prop :=
  ∃ c, cpus s !! i = Some c ∧ starvation (num_cpus s) (view s c) (meta s).

(** The sum of the counters of the CPUs, without wrap-around. *)
Fixpoint counter_sum (l : list Cpu) : Z :=
  match l with [] => 0 | c :: l => counter c + counter_sum l end.
Definition counters (s : Sys) : Z := counter_sum (cpus s).

Lemma counters_commit s i c cs n p used :
  cpus s !! i = Some c →
  counters (commit s i cs n p used) = counters s + (n - counter c).
Proof.
  intros Hi. unfold counters. simpl. revert i Hi.
  induction (cpus s) as [|c0 l IH]; intros [|i] Hi; simpl in *; simplify_eq; [lia |].
  specialize (IH i Hi). rewrite IH. lia.
Qed.

(** Wrap-around does not change a value modulo [2^64]. *)
Lemma isize_mod x : isize x mod 2 ^ 64 = x mod 2 ^ 64.
Proof.
  unfold isize. rewrite Zminus_mod_idemp_l. f_equal. lia.
Qed.

Lemma counter_sub_mod c n : (counter_sub c n - c) mod 2 ^ 64 = (- n) mod 2 ^ 64.
Proof.
  unfold counter_sub. rewrite <- Zminus_mod_idemp_l, isize_mod, Zminus_mod_idemp_l.
  replace (c - isize n - c) with (0 - isize n) by lia.
  by rewrite <- Zminus_mod_idemp_r, isize_mod, Zminus_mod_idemp_r.
Qed.

Lemma counter_add_mod c n : (counter_add c n - c) mod 2 ^ 64 = n mod 2 ^ 64.
Proof.
  unfold counter_add. rewrite <- Zminus_mod_idemp_l, isize_mod, Zminus_mod_idemp_l.
  replace (c + isize n - c) with (isize n) by lia. apply isize_mod.
Qed.

(** What an operation that returns has done to the system: [R] was held by
    callers before, [R'] is held by callers after. *)
Record sys_moved (s : Sys) (R : list (Z * Z)) (s' : Sys) (R' : list (Z * Z)) : Prop := {
  sv_ok : sys_ok s';
  sv_cpus : length (cpus s') = length (cpus s);
  sv_free : ∀ f, sys_free s f + ranges_at R f = sys_free s' f + ranges_at R' f;
  sv_bytes : sys_bytes s + ranges_bytes R = sys_bytes s' + ranges_bytes R';
  sv_unused : ∀ f, 1 ≤ ranges_at R' f → f ∉ meta s';
  sv_pages : ∀ a n, (a, n) ∈ R' → page_range a n;
  sv_counters : (counters s' - counters s) mod 2 ^ 64 =
    (ranges_bytes R - ranges_bytes R') mod 2 ^ 64
}.

Lemma frame_alloc_effect i l s :
  sys_ok s → (i < length (cpus s))%nat → page_layout l →
  (frame_alloc i l s = Panic ∧ sys_starvation i s) ∨
  ∃ r s', frame_alloc i l s = Done (r, s') ∧ sys_moved s [] s' (out (size l) r).
Proof.
  intros Hok Hi Hl. destruct (lookup_lt_is_Some_2 _ _ Hi) as [c Hc].
  unfold frame_alloc. rewrite Hc. simpl.
  destruct (sys_split s i c Hc) as (rest & H & Hch & Hca & Hcm).
  destruct (sys_held s i c rest H Hok Hc Hch Hca) as [Hh Hcw].
  destruct (caches_alloc_effect (num_cpus s) rest H l (caches c) (view s c) (meta s))
    as [[-> ?]|(r & cs & p & used & -> & Hcw' & Hh' & [Hf Hb])];
    [by eapply num_cpus_pos | done | done | done | by left; split; [| exists c] | right].
  simpl. eexists _, _. split; [done |].
  match goal with |- sys_moved _ _ (commit _ _ _ ?n _ _) _ => destruct (Hcm cs n p used) as [Hch' Hca']; set (s' := commit s i cs n p used) in * end.
  split.
  - eapply sys_commit; try done. by apply held_drop in Hh'.
  - apply length_insert.
  - intros f. specialize (Hf f). unfold sys_free, pool_free in *.
    rewrite Hch, Hca, Hch', Hca', !weight_app, !ranges_at_app in *. simpl. lia.
  - unfold sys_bytes, pool_bytes in *.
    rewrite Hch, Hca, Hch', Hca', !weight_app, !ranges_bytes_app in *. simpl. lia.
  - intros f Hr. apply (h_unused _ _ _ _ Hh'). rewrite ranges_at_app.
    pose proof (ranges_at_nonneg (caches_ranges cs ++ H) f). lia.
  - intros a n Hin. apply (h_pages _ _ _ _ Hh'). set_solver.
  - unfold s'. rewrite (counters_commit s i c) by done. simpl. destruct r; simpl.
    + rewrite Z.add_0_r, <- (counter_sub_mod (counter c)). f_equal. lia.
    + f_equal. lia.
Qed.

(** A range that callers give back joins the held memory. *)
Lemma held_cons s c rest R a n :
  held rest R (view s c) (meta s) → page_range a n →
  (∀ f, in_range a n f = true → (f ∉ meta s) ∧ f < 2 ^ 63 ∧
     weight (cover f) (pool_chunks (view s c) ++ rest) + ranges_at R f = 0) →
  held rest ((a, n) :: R) (view s c) (meta s).
Proof.
  intros [? Hone Hun Hpg] Hp Hr. split; [done | ..]; simpl.
  - intros f. specialize (Hone f). unfold ind. case_match eqn:E; [| lia].
    destruct (Hr f E) as (_ & _ & ?). lia.
  - intros f. unfold ind. case_match eqn:E; [| simpl; apply Hun].
    intros _. by destruct (Hr f E) as (? & ? & _).
  - intros b m [[= -> ->]|]%elem_of_cons; [done | by apply Hpg].
Qed.

Lemma sys_moved_in s i c rest H a n cs p used :
  sys_ok s → cpus s !! i = Some c →
  sys_chunks s ≡ₚ pool_chunks (view s c) ++ rest →
  sys_cached s ≡ₚ caches_ranges (caches c) ++ H →
  (∀ m, sys_chunks (commit s i cs m p used) ≡ₚ pool_chunks p ++ rest ∧
    sys_cached (commit s i cs m p used) ≡ₚ caches_ranges cs ++ H) →
  caches_wf cs → held rest (caches_ranges cs ++ H) p used →
  conserved (view s c) ((a, n) :: caches_ranges (caches c)) p (caches_ranges cs) →
  sys_moved s [(a, n)] (commit s i cs (counter_add (counter c) n) p used) [].
Proof.
  intros Hok Hc Hch Hca Hcm Hcw Hh [Hf Hb].
  destruct (Hcm (counter_add (counter c) n)) as [Hch' Hca'].
  set (s' := commit s i cs (counter_add (counter c) n) p used) in *.
  split; [by eapply sys_commit | apply length_insert | | | simpl; lia | set_solver |].
  - intros f. specialize (Hf f). unfold sys_free, pool_free in *.
    rewrite Hch, Hca, Hch', Hca', !weight_app, !ranges_at_app in *. simpl in *. lia.
  - unfold sys_bytes, pool_bytes in *.
    rewrite Hch, Hca, Hch', Hca', !weight_app, !ranges_bytes_app in *. simpl in *. lia.
  - unfold s'. rewrite (counters_commit s i c) by done. simpl.
    replace (n + 0 - 0) with n by lia. rewrite <- (counter_add_mod (counter c) n). f_equal. lia.
Qed.

(** Ranges callers may give to the allocator. *)
Definition returnable (s : Sys) (a n : Z) : Prop :=
  page_range a n ∧
  ∀ f, in_range a n f = true → (f ∉ meta s) ∧ f < 2 ^ 63 ∧ sys_free s f = 0.

Lemma returnable_held s c rest H a n :
  held rest (caches_ranges (caches c) ++ H) (view s c) (meta s) →
  sys_chunks s ≡ₚ pool_chunks (view s c) ++ rest →
  sys_cached s ≡ₚ caches_ranges (caches c) ++ H → returnable s a n →
  held rest ((a, n) :: caches_ranges (caches c) ++ H) (view s c) (meta s).
Proof.
  intros Hh Hch Hca [Hp Hr]. apply held_cons; [done | done |].
  intros f Hf. destruct (Hr f Hf) as (? & ? & H0). unfold sys_free in H0. by rewrite Hch, Hca in H0.
Qed.

Lemma frame_dealloc_effect i a n s :
  sys_ok s → (i < length (cpus s))%nat → returnable s a n →
  (frame_dealloc i a n s = Panic ∧ sys_starvation i s) ∨
  ∃ s', frame_dealloc i a n s = Done s' ∧ sys_moved s [(a, n)] s' [].
Proof.
  intros Hok Hi Hr. destruct (lookup_lt_is_Some_2 _ _ Hi) as [c Hc].
  unfold frame_dealloc. rewrite Hc. simpl.
  destruct (sys_split s i c Hc) as (rest & H & Hch & Hca & Hcm).
  destruct (sys_held s i c rest H Hok Hc Hch Hca) as [Hh Hcw].
  pose proof (returnable_held _ _ _ _ _ _ Hh Hch Hca Hr) as Hh1.
  destruct (caches_dealloc_effect (num_cpus s) rest H a n (caches c) (view s c) (meta s))
    as [[-> ?]|(cs & p & used & -> & Hcw' & Hh' & Hcons)];
    [by eapply num_cpus_pos | apply Hr | done | done | by left; split; [| exists c] | right].
  simpl. eexists. split; [done |]. by eapply sys_moved_in.
Qed.

Lemma frame_add_effect i a n s :
  sys_ok s → (i < length (cpus s))%nat → returnable s a n →
  ∃ s', frame_add_free_memory i a n s = Done s' ∧ sys_moved s [(a, n)] s' [].
Proof.
  intros Hok Hi Hr. destruct (lookup_lt_is_Some_2 _ _ Hi) as [c Hc].
  unfold frame_add_free_memory. rewrite Hc. simpl.
  destruct (sys_split s i c Hc) as (rest & H & Hch & Hca & Hcm).
  destruct (sys_held s i c rest H Hok Hc Hch Hca) as [Hh Hcw].
  pose proof (returnable_held _ _ _ _ _ _ Hh Hch Hca Hr) as Hh1.
  change (held rest ([(a, n)] ++ caches_ranges (caches c) ++ H) (view s c) (meta s)) in Hh1.
  destruct (add_free_memory_effect rest a n (view s c) (meta s)) as (p & used & -> & Hres);
    [apply Hh | by eapply held_freeable | intros f Hf; by apply Hr |].
  simpl. eexists. split; [done |].
  eapply sys_moved_in; try done; [by eapply held_dealloc |].
  split; [intros f |]; rewrite ?(dr_free _ _ _ _ _ _ Hres), ?(dr_bytes _ _ _ _ _ _ Hres); simpl; lia.
Qed.

(** ** Runs of the allocator with its clients *)

Definition set_meta (s : Sys) (used : gset Z) : Sys := mkSys (cpus s) (gpool s) (gsize s) used.

(** The state of a run: the system and the memory the clients hold.  Clients
    allocate, give back any page-aligned part of what they hold once its frames
    are unused, add memory that nobody holds, and use the metadata of frames
    they hold. *)
Inductive step : Sys * list (Z * Z) → Sys * list (Z * Z) → Prop :=
| step_alloc i l s O r s' :
    (i < length (cpus s))%nat → page_layout l → frame_alloc i l s = Done (r, s') →
    step (s, O) (s', out (size l) r ++ O)
| step_dealloc i a n s O O' s' :
    (i < length (cpus s))%nat → page_range a n →
    (∀ f, ranges_at O f = ind a n f + ranges_at O' f) →
    (∀ f, in_range a n f = true → f ∉ meta s) →
    frame_dealloc i a n s = Done s' → step (s, O) (s', O')
| step_add i a n s O s' :
    (i < length (cpus s))%nat → returnable s a n →
    (∀ f, in_range a n f = true → ranges_at O f = 0) →
    frame_add_free_memory i a n s = Done s' → step (s, O) (s', O)
| step_meta s O used :
    (∀ f, ranges_at O f = 0 → f ∈ used ↔ f ∈ meta s) →
    step (s, O) (set_meta s used, O).

Definition reachable (ncpus : nat) (st : Sys * list (Z * Z)) : Prop := rtc step (boot ncpus, []) st.

Record inv (st : Sys * list (Z * Z)) : Prop := {
  inv_sys : sys_ok st.1;
  inv_once : ∀ f, sys_free st.1 f + ranges_at st.2 f ≤ 1;
  inv_below : ∀ f, 1 ≤ ranges_at st.2 f → f < 2 ^ 63;
  inv_counters : counters st.1 mod 2 ^ 64 = sys_bytes st.1 mod 2 ^ 64
}.

Lemma inv_boot ncpus : inv (boot ncpus, []).
Proof.
  assert (Hch : sys_chunks (boot ncpus) = []).
  { unfold sys_chunks, boot. simpl. rewrite fmap_replicate. unfold chunks. simpl.
    by rewrite !concat_replicate_nil. }
  assert (Hca : sys_cached (boot ncpus) = []).
  { unfold sys_cached, boot. simpl. rewrite fmap_replicate. apply concat_replicate_nil. }
  assert (Hwf : ∀ MAX, wf MAX (new_empty MAX)) by (intros MAX; apply (inv_empty MAX ∅)).
  split; simpl.
  - split; unfold sys_free; rewrite ?Hch, ?Hca; simpl; try done; try lia; try set_solver.
    + apply Forall_replicate. split; [apply Hwf |]. repeat split; eexists; apply stack_new.
    + split; simpl; [set_solver | lia | set_solver].
  - intros f. unfold sys_free. rewrite Hch, Hca. simpl. lia.
  - lia.
  - unfold sys_bytes. rewrite Hch, Hca. unfold counters, boot. simpl.
    assert (counter_sum (replicate ncpus (mkCpu caches_new (new_empty MAX_LOCAL_BUDDY_ORDER) 0)) = 0)
      as ->; [| done].
    clear. induction ncpus as [|k IH]; [done |]. cbn [replicate counter_sum counter]. by rewrite IH.
Qed.

Lemma moved_inv s R s' R' O O' :
  inv (s, O) → sys_moved s R s' R' →
  (∀ f, ranges_at O' f + ranges_at R f = ranges_at O f + ranges_at R' f) →
  (∀ f, 1 ≤ ranges_at O' f → f < 2 ^ 63) → inv (s', O').
Proof.
  intros [Hok Hone Hbl Hcnt] [? ? Hf Hb _ _ Hc] HO Hbl'. simpl in *. split; simpl; [done | | done |].
  - intros f. specialize (Hone f). specialize (Hf f). specialize (HO f). lia.
  - replace (counters s') with (counters s + (counters s' - counters s)) by lia.
    rewrite Zplus_mod, Hcnt, Hc, <- Zplus_mod. f_equal. lia.
Qed.

Lemma inv_meta s O used :
  inv (s, O) → (∀ f, ranges_at O f = 0 → f ∈ used ↔ f ∈ meta s) → inv (set_meta s used, O).
Proof.
  intros [[Hcp Hgl Hsz Hg Hone Hbd Hun Hpg] Hex Hbl Hcnt] Hu. simpl in *.
  change (∀ f, sys_free (set_meta s used) f + ranges_at O f ≤ 1) in Hex.
  assert (Hown : ∀ f, 1 ≤ sys_free s f → ranges_at O f = 0).
  { intros f Hf. specialize (Hex f). change (sys_free (set_meta s used) f) with (sys_free s f) in Hex.
    pose proof (ranges_at_nonneg O f). lia. }
  split; [| done | done | done]. split; try done; simpl.
  - destruct Hg as [Ha Hd Hh]. split; [done | done |]. intros c f Hc Hf.
    rewrite <- (Hh c f Hc Hf). apply Hu, Hown. unfold sys_free.
    pose proof (weight_elem f c (sys_chunks s) Hc Hf).
    pose proof (ranges_at_nonneg (sys_cached s) f). lia.
  - intros f Hf Hin. apply (Hun f Hf). apply Hu; [| done]. apply Hown. unfold sys_free.
    pose proof (weight_cover_nonneg f (sys_chunks s)).
    change (sys_cached (set_meta s used)) with (sys_cached s) in Hf. lia.
Qed.

(** Memory a client holds can be given back. *)
Lemma owned_returnable s O O' a n :
  inv (s, O) → page_range a n → (∀ f, ranges_at O f = ind a n f + ranges_at O' f) →
  (∀ f, in_range a n f = true → f ∉ meta s) → returnable s a n.
Proof.
  intros Hinv Hp HO Hm. split; [done |]. intros f Hf. specialize (HO f).
  unfold ind in HO. rewrite Hf in HO. pose proof (ranges_at_nonneg O' f).
  split; [by apply Hm |]. split; [apply (inv_below _ Hinv); simpl; lia |].
  pose proof (inv_once _ Hinv f) as Hone. simpl in Hone.
  pose proof (weight_cover_nonneg f (sys_chunks s)).
  pose proof (ranges_at_nonneg (sys_cached s) f). unfold sys_free in *. lia.
Qed.

Lemma frame_inv_step st st' : inv st → step st st' → inv st'.
Proof.
  intros Hinv Hs. destruct Hs as [i l s O r s' Hi Hl He|i a n s O O' s' Hi Hp HO Hm He
    |i a n s O s' Hi Hr HO He|s O used Hu]; [| | |by apply inv_meta].
  - destruct (frame_alloc_effect i l s) as [[Hp _]|(r1 & s1 & He1 & Hmv)];
      [apply Hinv | done | done | congruence |].
    rewrite He in He1. injection He1 as <- <-. eapply moved_inv; [done | done | |].
    + intros f. rewrite ranges_at_app. simpl. lia.
    + intros f. rewrite ranges_at_app. intros Hf.
      destruct (Z.le_gt_cases 1 (ranges_at O f)); [by apply (inv_below _ Hinv) |].
      apply (so_bounded _ (inv_sys _ Hinv)). simpl. pose proof (sv_free _ _ _ _ Hmv f) as Hfree.
      simpl in Hfree. pose proof (weight_cover_nonneg f (sys_chunks s')).
      pose proof (ranges_at_nonneg (sys_cached s') f). unfold sys_free in *. lia.
  - pose proof (owned_returnable _ _ _ _ _ Hinv Hp HO Hm) as Hret.
    destruct (frame_dealloc_effect i a n s) as [[Hp' _]|(s1 & He1 & Hmv)];
      [apply Hinv | done | done | congruence |].
    rewrite He in He1. injection He1 as <-. eapply moved_inv; [done | done | |].
    + intros f. rewrite HO. simpl. lia.
    + intros f Hf. apply (inv_below _ Hinv). simpl. rewrite HO. pose proof (ind_bound a n f). lia.
  - destruct (frame_add_effect i a n s) as (s1 & He1 & Hmv); [apply Hinv | done | done |].
    rewrite He in He1. injection He1 as <-.
    destruct Hinv as [Hok Hone Hbl Hcnt], Hmv as [? ? Hf Hb _ _ Hc]. simpl in *.
    split; simpl; [done | | done |].
    + intros f. specialize (Hf f). specialize (HO f). specialize (Hone f). revert HO Hf. unfold ind.
      case_match eqn:E; intros HO Hf; [| lia].
      destruct Hr as [_ Hr]. destruct (Hr f E) as (_ & _ & ?). rewrite (HO eq_refl). lia.
    + replace (counters s') with (counters s + (counters s' - counters s)) by lia.
      rewrite Zplus_mod, Hcnt, Hc, <- Zplus_mod. f_equal. lia.
Qed.

Lemma frame_inv_reachable ncpus st : reachable ncpus st → inv st.
Proof. apply rtc_preserves; [apply inv_boot | intros ??; apply frame_inv_step]. Qed.

(** ** Properties *)

Lemma isize_small x : - 2 ^ 63 ≤ x < 2 ^ 63 → isize x = x.
Proof. intros Hx. unfold isize. rewrite Z.mod_small; lia. Qed.

Lemma isize_congr x y : x mod 2 ^ 64 = y mod 2 ^ 64 → isize x = isize y.
Proof.
  intros He. unfold isize.
  by rewrite <- (Zplus_mod_idemp_l x), He, (Zplus_mod_idemp_l y).
Qed.

(** Summing with wrap-around. *)
Lemma wrapping_sum cs t :
  foldl (λ total c, isize (total + c)) (isize t) (counter <$> cs) = isize (t + counter_sum cs).
Proof.
  revert t. induction cs as [|c cs IH]; intros t; simpl; [by rewrite Z.add_0_r |].
  replace (isize (isize t + counter c)) with (isize (t + counter c)).
  - rewrite Z.add_assoc. apply IH.
  - apply isize_congr. by rewrite <- Zplus_mod_idemp_l, <- (isize_mod t), Zplus_mod_idemp_l.
Qed.

(** [C21] Whatever the CPUs and the clients do, every physical address is at most
    once free or allocated: never free in two places (the pools and caches of
    all CPUs and the global pool), never handed out twice, never free while a
    client holds it. *)
Theorem frame_memory_exclusive ncpus s O f :
  reachable ncpus (s, O) →
  0 ≤ sys_free s f ∧ 0 ≤ ranges_at O f ∧ sys_free s f + ranges_at O f ≤ 1.
Proof.
  intros Hr%frame_inv_reachable. pose proof (inv_once _ Hr f) as Hone. simpl in Hone.
  pose proof (weight_cover_nonneg f (sys_chunks s)).
  pose proof (ranges_at_nonneg (sys_cached s) f). pose proof (ranges_at_nonneg O f).
  unfold sys_free in *. lia.
Qed.

(** Allocation on any CPU: it panics only when the balancing of the pools
    wants to move less than a page; otherwise it returns, and what it returns
    is exactly what stops being free: whole pages that no client held and whose
    metadata is unused, or nothing. *)
Theorem frame_alloc_exact ncpus s O i l :
  reachable ncpus (s, O) → (i < length (cpus s))%nat → page_layout l →
  (frame_alloc i l s = Panic ∧ sys_starvation i s) ∨
  ∃ r s', frame_alloc i l s = Done (r, s') ∧
    (∀ f, sys_free s f = sys_free s' f + ranges_at (out (size l) r) f) ∧
    (∀ f, 1 ≤ ranges_at (out (size l) r) f → (f ∉ meta s') ∧ ranges_at O f = 0) ∧
    ∀ a, r = Some a → page_range a (size l).
Proof.
  intros Hr%frame_inv_reachable Hi Hl.
  destruct (frame_alloc_effect i l s) as [?|(r & s' & He & [Hok _ Hf _ Hun Hpg _])];
    [apply Hr | done | done | by left | right].
  assert (Hfree : ∀ f, sys_free s f = sys_free s' f + ranges_at (out (size l) r) f)
    by (intros f; specialize (Hf f); simpl in Hf; lia).
  exists r, s'. split; [done |]. split; [done |]. split.
  - intros f Hge. split; [by apply Hun |]. pose proof (inv_once _ Hr f) as Hone. simpl in Hone.
    rewrite Hfree in Hone. pose proof (weight_cover_nonneg f (sys_chunks s')).
    pose proof (ranges_at_nonneg (sys_cached s') f). pose proof (ranges_at_nonneg O f).
    unfold sys_free in *. lia.
  - intros a ->. apply Hpg. set_solver.
Qed.

(** Deallocation on any CPU of any whole pages that a client holds, with
    unused metadata: it panics only in the same starvation of the pools;
    otherwise exactly these pages become free. *)
Theorem frame_dealloc_exact ncpus s O O' i a n :
  reachable ncpus (s, O) → (i < length (cpus s))%nat → page_range a n →
  (∀ f, ranges_at O f = ind a n f + ranges_at O' f) →
  (∀ f, in_range a n f = true → f ∉ meta s) →
  (frame_dealloc i a n s = Panic ∧ sys_starvation i s) ∨
  ∃ s', frame_dealloc i a n s = Done s' ∧ reachable ncpus (s', O') ∧
    ∀ f, sys_free s' f = sys_free s f + ind a n f.
Proof.
  intros Hr Hi Hp HO Hm. pose proof (frame_inv_reachable _ _ Hr) as Hinv.
  pose proof (owned_returnable _ _ _ _ _ Hinv Hp HO Hm) as Hret.
  destruct (frame_dealloc_effect i a n s) as [?|(s' & He & Hmv)];
    [apply Hinv | done | done | by left | right].
  exists s'. split; [done |]. split; [eapply rtc_r; [done | by eapply step_dealloc] |].
  intros f. pose proof (sv_free _ _ _ _ Hmv f) as Hf. simpl in Hf. lia.
Qed.

(** The published size of free memory is exact: the per-CPU counters may
    wrap around individually, but [load_total_free_size] is the number of free
    bytes in all pools and caches. *)
Theorem total_free_size_exact ncpus s O :
  reachable ncpus (s, O) → sys_bytes s < 2 ^ 63 → load_total_free_size s = sys_bytes s.
Proof.
  intros Hr%frame_inv_reachable Hlt. pose proof (inv_counters _ Hr) as Hc. simpl in Hc.
  assert (0 ≤ sys_bytes s) as Hpos.
  { unfold sys_bytes. pose proof (weight_bytes_nonneg (sys_chunks s)).
    assert (∀ R, (∀ a n, (a, n) ∈ R → page_range a n) → 0 ≤ ranges_bytes R) as Hrb.
    { induction R as [|[a n] R IH]; simpl; intros HR; [lia |].
      destruct (HR a n) as (_ & ? & _); [set_solver |].
      assert (0 ≤ ranges_bytes R) by (apply IH; intros b m ?; apply HR; set_solver). lia. }
    pose proof (Hrb _ (so_pages _ (inv_sys _ Hr))). simpl in *. lia. }
  unfold load_total_free_size, counter_get.
  pose proof (wrapping_sum (cpus s) 0) as Hs. change (isize 0) with 0 in Hs. rewrite Hs.
  rewrite Z.add_0_l. fold (counters s).
  assert (isize (counters s) = sys_bytes s) as ->.
  { rewrite <- (isize_small (sys_bytes s)) by lia. by apply isize_congr. }
  by rewrite (proj2 (Z.ltb_ge _ _)).
Qed.

(** *** Concrete runs on one CPU *)

Definition page : Layout := layout PAGE_SIZE PAGE_SIZE.

(** [n] pages of memory at 1 MiB. *)
Definition booted (n : Z) : Sys :=
  match frame_add_free_memory 0 (2 ^ 20) (n * PAGE_SIZE) (boot 1) with
  | Done s => s
  | Panic => boot 1
  end.

(** [n] allocations of layout [l] on CPU 0, with what the client then holds. *)
Fixpoint allocs (n : nat) (l : Layout) (st : Sys * list (Z * Z)) : outcome (Sys * list (Z * Z)) :=
  match n with
  | O => Done st
  | S n => frame_alloc 0 l st.1 ≫= λ '(r, s), allocs n l (s, out (size l) r ++ st.2)
  end.

Lemma page_layout_page : page_layout page.
Proof. split; [simpl; unfold PAGE_SIZE; lia |]. split; [by exists 1 | by exists 12]. Defined.

Lemma boot_free f : sys_free (boot 1) f = 0.
Proof. reflexivity. Defined.

Lemma booted_reachable n :
  0 ≤ n < 2 ^ 20 →
  frame_add_free_memory 0 (2 ^ 20) (n * PAGE_SIZE) (boot 1) = Done (booted n) →
  reachable 1 (booted n, []).
Proof.
  intros Hn He. apply rtc_once. eapply (step_add 0 (2 ^ 20) (n * PAGE_SIZE)); [simpl; lia | | done | exact He].
  assert (size_of_order MAX_BUDDY_ORDER = 2 ^ 44) as Hmax by reflexivity.
  split.
  - unfold page_range. rewrite Hmax. unfold PAGE_SIZE.
    split; [lia |]. split; [lia |]. split; [lia |]. split; [by exists 256 | by exists n].
  - intros f Hf. split; [apply not_elem_of_empty |]. split; [| apply boot_free].
    unfold in_range, PAGE_SIZE in Hf. apply andb_prop in Hf as [?%Z.leb_le ?%Z.ltb_lt]. lia.
Defined.

Lemma allocs_reachable n l st st' :
  page_layout l → reachable 1 st → (0 < length (cpus st.1))%nat →
  allocs n l st = Done st' → reachable 1 st'.
Proof.
  intros Hl. revert st. induction n as [|n IH]; intros [s O] Hr Hc; cbn [allocs]; [by intros [= <-] |].
  intros ([r s1] & Ha & Hn)%bind_done. revert Hn. apply IH.
  - eapply rtc_r; [done |]. by eapply step_alloc.
  - unfold frame_alloc in Ha. apply bind_done in Ha as (c & _ & Ha).
    apply bind_done in Ha as ([[[r1 cs] p] used] & _ & [= _ <-]). simpl. by rewrite length_insert.
Qed.

(** The allocator can bring the kernel down instead of reporting that
    memory is short: with nine free pages on one CPU, the first allocation of a
    page panics (it underflows in the computation of an order), although all
    pages are free. *)
Theorem frame_alloc_starves :
  ∃ s, reachable 1 (s, []) ∧ sys_bytes s = 9 * PAGE_SIZE ∧ frame_alloc 0 page s = Panic.
Proof.
  exists (booted 9). split; [apply booted_reachable; [lia | vm_compute; reflexivity] |].
  split; vm_compute; reflexivity.
Qed.

(** A single page is refused while many are free: a run in which the
    allocation of one page returns nothing although ten pages are free, because
    the cache only asks for eight contiguous pages at once. *)
Theorem frame_alloc_refuses :
  ∃ s O s', reachable 1 (s, O) ∧ sys_bytes s = 10 * PAGE_SIZE ∧
    frame_alloc 0 page s = Done (None, s').
Proof.
  destruct (allocs 8 page (booted 18, [])) as [[s O]|] eqn:E; [| by vm_compute in E].
  assert (reachable 1 (s, O)) as Hr.
  { apply (allocs_reachable 8 page (booted 18, [])); [apply page_layout_page | | vm_compute; lia | exact E].
    apply booted_reachable; [lia | vm_compute; reflexivity]. }
  vm_compute in E. injection E as <- <-. eexists _, _, _. split; [exact Hr |].
  split; vm_compute; reflexivity.
Qed.

(** The alignment of a request is not always honoured: a run in which a
    request for three pages aligned to two is given an address that is not
    aligned to two pages. *)
Theorem frame_alloc_misaligned :
  ∃ s O a s', let l := layout (3 * PAGE_SIZE) (2 * PAGE_SIZE) in
    reachable 1 (s, O) ∧ page_layout l ∧ frame_alloc 0 l s = Done (Some a, s') ∧
    a mod align l = PAGE_SIZE.
Proof.
  assert (page_layout (layout (3 * PAGE_SIZE) (2 * PAGE_SIZE))) as Hl
    by (split; [simpl; unfold PAGE_SIZE; lia |]; split; [by exists 3 | by exists 13]).
  destruct (allocs 1 (layout (3 * PAGE_SIZE) (2 * PAGE_SIZE)) (booted 64, [])) as [[s O]|] eqn:E;
    [| by vm_compute in E].
  assert (reachable 1 (s, O)) as Hr.
  { apply (allocs_reachable 1 _ (booted 64, []) _ Hl); [| vm_compute; lia | exact E].
    apply booted_reachable; [lia | vm_compute; reflexivity]. }
  vm_compute in E. injection E as <- <-. eexists _, _, _, _. split; [exact Hr |].
  split; [exact Hl |]. split; vm_compute; reflexivity.
Qed.

(** 64 pages, one of them allocated. *)
Definition one_page : Sys * list (Z * Z) :=
  match allocs 1 page (booted 64, []) with Done st => st | Panic => (boot 1, []) end.

Lemma one_page_reachable : reachable 1 (one_page.1, one_page.2).
Proof.
  apply (allocs_reachable 1 page (booted 64, []) (one_page.1, one_page.2));
    [apply page_layout_page | apply booted_reachable; [lia | vm_compute; reflexivity]
    | vm_compute; lia | vm_compute; reflexivity].
Defined.

(** The frames of the allocated page are unused. *)
Lemma one_page_unused f : in_range (2 ^ 20) PAGE_SIZE f = true → f ∉ meta one_page.1.
Proof.
  unfold in_range, PAGE_SIZE. intros [Hlo%Z.leb_le Hhi%Z.ltb_lt]%andb_prop Hin%elem_of_elements.
  vm_compute in Hin. repeat (apply elem_of_cons in Hin as [Hin|Hin]; [lia |]).
  by apply not_elem_of_nil in Hin.
Defined.

Lemma frame_memory_exclusive_witness :
  0 ≤ sys_free one_page.1 (2 ^ 20) ∧ 0 ≤ ranges_at one_page.2 (2 ^ 20) ∧
  sys_free one_page.1 (2 ^ 20) + ranges_at one_page.2 (2 ^ 20) ≤ 1.
Proof. exact (frame_memory_exclusive 1 one_page.1 one_page.2 (2 ^ 20) one_page_reachable). Defined.

Lemma frame_alloc_exact_witness :
  (frame_alloc 0 page one_page.1 = Panic ∧ sys_starvation 0 one_page.1) ∨
  ∃ r s', frame_alloc 0 page one_page.1 = Done (r, s') ∧
    (∀ f, sys_free one_page.1 f = sys_free s' f + ranges_at (out (size page) r) f) ∧
    (∀ f, 1 ≤ ranges_at (out (size page) r) f → (f ∉ meta s') ∧ ranges_at one_page.2 f = 0) ∧
    ∀ a, r = Some a → page_range a (size page).
Proof.
  apply (frame_alloc_exact 1 one_page.1 one_page.2 0 page one_page_reachable);
    [vm_compute; lia | apply page_layout_page].
Defined.

Lemma frame_dealloc_exact_witness :
  (frame_dealloc 0 (2 ^ 20) PAGE_SIZE one_page.1 = Panic ∧ sys_starvation 0 one_page.1) ∨
  ∃ s', frame_dealloc 0 (2 ^ 20) PAGE_SIZE one_page.1 = Done s' ∧ reachable 1 (s', []) ∧
    ∀ f, sys_free s' f = sys_free one_page.1 f + ind (2 ^ 20) PAGE_SIZE f.
Proof.
  apply (frame_dealloc_exact 1 one_page.1 one_page.2 [] 0 (2 ^ 20) PAGE_SIZE one_page_reachable).
  - vm_compute. lia.
  - assert (size_of_order MAX_BUDDY_ORDER = 2 ^ 44) as Hmax by reflexivity.
    unfold page_range. rewrite Hmax. unfold PAGE_SIZE.
    split; [lia |]. split; [lia |]. split; [lia |]. split; [by exists 256 | by exists 1].
  - assert (one_page.2 = [(2 ^ 20, PAGE_SIZE)]) as -> by (vm_compute; reflexivity).
    intros f. reflexivity.
  - apply one_page_unused.
Defined.

Lemma total_free_size_exact_witness : load_total_free_size one_page.1 = sys_bytes one_page.1.
Proof.
  apply (total_free_size_exact 1 one_page.1 one_page.2 one_page_reachable).
  assert (sys_bytes one_page.1 = 63 * 4096) as -> by (vm_compute; reflexivity). lia.
Defined.

End FrameAlloc.
