(* ===== verification/RangeLock.v ===== *)
(** * POSIX range locks: [kernel/src/fs/utils/range_lock/]

    [range.rs] (file ranges) and [mod.rs] (lock items and the list of locks of a
    file).  The operations on the list run under its write lock, so each is one
    function on the list; what they wake up is the list of wait queues on which
    [wake_all] was called.  The in-place loops over indices are modelled as they
    are written and related to recursive definitions. *)

From S2P Require Import Prelude.
Local Open Scope Z_scope.

Module RangeLock.

Definition OFFSET_MAX : Z := 2 ^ 63 - 1.

Inductive Errno : Type := EINVAL | EAGAIN.

(** ** Ranges *)

Record FileRange : Type := mkRange { start : Z; end_ : Z }.

Inductive FileRangeChange : Type := Same | Expanded | Shrunk.

Inductive OverlapWith : Type := ToLeft | ToRight | InMiddle | Includes.

Definition range_new (s e : Z) : result FileRange Errno :=
  if e <=? s then RErr EINVAL else ROk (mkRange s e).

Definition range_set_start (r : FileRange) (new_start : Z)
  : result (FileRange * FileRangeChange) Errno :=
  if end_ r <=? new_start then RErr EINVAL
  else ROk (mkRange new_start (end_ r),
            if start r <? new_start then Shrunk
            else if new_start <? start r then Expanded else Same).

Definition range_set_end (r : FileRange) (new_end : Z)
  : result (FileRange * FileRangeChange) Errno :=
  if new_end <=? start r then RErr EINVAL
  else ROk (mkRange (start r) new_end,
            if new_end <? end_ r then Shrunk
            else if end_ r <? new_end then Expanded else Same).

Definition range_overlap_with (a b : FileRange) : option OverlapWith :=
  if (end_ b <=? start a) || (end_ a <=? start b) then None
  else Some (if (start a <=? start b) && (end_ a <? end_ b) then ToLeft
             else if (start b <? start a) && (end_ a <? end_ b) then InMiddle
             else if (start b <? start a) && (end_ b <=? end_ a) then ToRight
             else Includes).

Definition range_merge (a b : FileRange) : result (FileRange * FileRangeChange) Errno :=
  if (end_ a <? start b) || (end_ b <? start a) then RErr EINVAL
  else ROk (mkRange (if start b <? start a then start b else start a)
                    (if end_ a <? end_ b then end_ b else end_ a),
            if (start b <? start a) || (end_ a <? end_ b) then Expanded else Same).

(** [result.expect(..)] *)
Definition expect {A E} (r : result A E) : outcome A :=
  match r with ROk a => Done a | RErr _ => Panic end.

(** ** Lock items *)

Inductive RangeLockType : Type := ReadLock | WriteLock | Unlock.

#[global] Instance RangeLockType_eq_dec : EqDecision RangeLockType.
Proof. solve_decision. Defined.

(** A lock of process [owner]; [queue] is the identity of its wait queue. *)
Record RangeLockItem : Type := mkItem {
  owner : Z; type_ : RangeLockType; range : FileRange; queue : nat
}.

Definition item_start (l : RangeLockItem) : Z := start (range l).
Definition item_end (l : RangeLockItem) : Z := end_ (range l).
Definition set_range (l : RangeLockItem) (r : FileRange) : RangeLockItem :=
  mkItem (owner l) (type_ l) r (queue l).

Definition overlap_with (a b : RangeLockItem) : option OverlapWith :=
  range_overlap_with (range a) (range b).

Definition conflict_with (self other : RangeLockItem) : bool :=
  if owner self =? owner other then false
  else if bool_decide (overlap_with self other = None) then false
  else if bool_decide (type_ self = WriteLock) || bool_decide (type_ other = WriteLock) then true
  else false.

Definition merge_with (self other : RangeLockItem) : outcome RangeLockItem :=
  expect (range_merge (range self) (range other)) ≫= λ '(r, _), Done (set_range self r).

(** The queues to wake after a change of a range. *)
Definition wake_if_shrunk (l : RangeLockItem) (c : FileRangeChange) : list nat :=
  match c with Shrunk => [queue l] | _ => [] end.

Definition set_start (l : RangeLockItem) (new_start : Z) : outcome (RangeLockItem * list nat) :=
  expect (range_set_start (range l) new_start) ≫= λ '(r, c),
  Done (set_range l r, wake_if_shrunk l c).

(** [self.range().set_end(..)]: [range()] returns a copy, and it is the copy
    that is changed. *)
Definition set_end (l : RangeLockItem) (new_end : Z) : outcome (RangeLockItem * list nat) :=
  expect (range_set_end (range l) new_end) ≫= λ '(_, c),
  Done (l, wake_if_shrunk l c).

(** ** The list of locks *)

(** [list.swap(i, j)], [list.insert(i, x)], [list.remove(i)] *)
Definition swap {A} (l : list A) (i j : nat) : outcome (list A) :=
  match l !! i, l !! j with
  | Some x, Some y => Done (<[i := y]> (<[j := x]> l))
  | _, _ => Panic
  end.
Definition insert_at {A} (l : list A) (i : nat) (x : A) : list A := take i l ++ x :: drop i l.
Definition remove_at {A} (l : list A) (i : nat) : list A := delete i l.

Definition test_lock (list : list RangeLockItem) (lock : RangeLockItem) : RangeLockItem :=
  match list_find (λ e, conflict_with lock e = true) list with
  | Some (_, e) => mkItem (owner e) (type_ e) (range e) (queue lock)
  | None => mkItem (owner lock) Unlock (range lock) (queue lock)
  end.

(** The loop of [insert_lock_into_list]; [None] when the fuel runs out.  Dropping
    an item wakes its queue. *)
Fixpoint insert_loop (fuel : nat) (l : list RangeLockItem) (pre_idx next_idx : nat)
    (woken : list nat) : option (outcome (list RangeLockItem * list nat)) :=
  match fuel with
  | O => None
  | S fuel =>
      if (length l <=? next_idx)%nat then Some (Done (l, woken)) else
      match l !! pre_idx, l !! next_idx with
      | Some pre_lock, Some next_lock =>
          let swap_on l woken :=
            match swap l pre_idx next_idx with
            | Done l => insert_loop fuel l (S pre_idx) (S next_idx) woken
            | Panic => Some Panic
            end in
          if negb (owner next_lock =? owner pre_lock) then Some (Done (l, woken))
          else if bool_decide (type_ next_lock = type_ pre_lock) then
            if item_end pre_lock <? item_start next_lock then Some (Done (l, woken))
            else if item_end next_lock <? item_start pre_lock then swap_on l woken
            else match merge_with next_lock pre_lock with
                 | Done m =>
                     insert_loop fuel (remove_at (<[next_idx := m]> l) pre_idx) pre_idx next_idx
                       (woken ++ [queue pre_lock])
                 | Panic => Some Panic
                 end
          else
            if item_end pre_lock <=? item_start next_lock then Some (Done (l, woken))
            else if item_end next_lock <=? item_start pre_lock then swap_on l woken
            else match overlap_with pre_lock next_lock with
                 | Some ToLeft =>
                     Some (set_start next_lock (item_end pre_lock) ≫= λ '(n, w),
                           Done (<[next_idx := n]> l, woken ++ w))
                 | Some InMiddle =>
                     Some (set_start next_lock (item_end pre_lock) ≫= λ '(right_lk, w1),
                           set_end next_lock (item_start pre_lock) ≫= λ '(n, w2),
                           swap (<[next_idx := n]> l) pre_idx next_idx ≫= λ l,
                           Done (insert_at l (S next_idx) right_lk, woken ++ w1 ++ w2))
                 | Some ToRight =>
                     match set_end next_lock (item_start pre_lock) with
                     | Done (n, w) => swap_on (<[next_idx := n]> l) (woken ++ w)
                     | Panic => Some Panic
                     end
                 | Some Includes =>
                     insert_loop fuel (remove_at l next_idx) pre_idx next_idx
                       (woken ++ [queue next_lock])
                 | None => Some Panic
                 end
      | _, _ => Some Panic
      end
  end.

(** Every round moves [next_idx] forward or shortens the list, hence the fuel. *)
Definition insert_lock_into_list (l : list RangeLockItem) (lock : RangeLockItem)
  : option (outcome (list RangeLockItem * list nat)) :=
  match list_find (λ lk, owner lk = owner lock) l with
  | None => Some (Done (l ++ [lock], []))
  | Some (idx, _) => insert_loop (S (length l)) (insert_at l idx lock) idx (S idx) []
  end.

(** [try_set_lock]: the list, the queues woken, and on a conflict the queue the
    waker is enqueued on. *)
Definition try_set_lock (l : list RangeLockItem) (req_lock : RangeLockItem)
  : option (outcome (result (list RangeLockItem * list nat) (Errno * nat))) :=
  match list_find (λ e, conflict_with req_lock e = true) l with
  | Some (_, conflict_lock) => Some (Done (RErr (EAGAIN, queue conflict_lock)))
  | None => insert_lock_into_list l req_lock ≫= λ r, Some (r ≫= λ x, Done (ROk x))
  end.

(** The loop of [unlock]; [None] when the fuel runs out. *)
Fixpoint unlock_loop (fuel : nat) (l : list RangeLockItem) (lock : RangeLockItem) (skipped : nat)
    (woken : list nat) : option (outcome (list RangeLockItem * list nat)) :=
  match fuel with
  | O => None
  | S fuel =>
      match list_find (λ lk, owner lk = owner lock) (drop skipped l) with
      | None => Some (Done (l, woken))
      | Some (i, existing_lock) =>
          let idx := (i + skipped)%nat in
          match overlap_with lock existing_lock with
          | None => unlock_loop fuel l lock (S idx) woken
          | Some ToLeft =>
              Some (set_start existing_lock (item_end lock) ≫= λ '(e, w),
                    Done (<[idx := e]> l, woken ++ w))
          | Some InMiddle =>
              Some (set_start existing_lock (item_end lock) ≫= λ '(right_lk, w1),
                    set_end existing_lock (item_start lock) ≫= λ '(e, w2),
                    Done (insert_at (<[idx := e]> l) (S idx) right_lk, woken ++ w1 ++ w2))
          | Some ToRight =>
              match set_end existing_lock (item_start lock) with
              | Done (e, w) => unlock_loop fuel (<[idx := e]> l) lock (S idx) (woken ++ w)
              | Panic => Some Panic
              end
          | Some Includes =>
              unlock_loop fuel (remove_at l idx) lock idx (woken ++ [queue existing_lock])
          end
      end
  end.

Definition unlock (l : list RangeLockItem) (lock : RangeLockItem)
  : option (outcome (list RangeLockItem * list nat)) :=
  unlock_loop (S (length l)) l lock 0 [].

(** ** Recursive readings of the two loops *)

(** [p :: l] with lock [p] moved to its place among the locks of its owner. *)
Fixpoint place (p : RangeLockItem) (l : list RangeLockItem) : list RangeLockItem :=
  match l with
  | [] => [p]
  | n :: l' =>
      if negb (owner n =? owner p) then p :: l
      else if bool_decide (type_ n = type_ p) then
        if item_end p <? item_start n then p :: l
        else if item_end n <? item_start p then n :: place p l'
        else place (set_range n (mkRange (Z.min (item_start p) (item_start n))
                                         (Z.max (item_end p) (item_end n)))) l'
      else if item_end p <=? item_start n then p :: l
      else if item_end n <=? item_start p then n :: place p l'
      else match overlap_with p n with
           | Some ToLeft => p :: set_range n (mkRange (item_end p) (item_end n)) :: l'
           | Some InMiddle => n :: p :: set_range n (mkRange (item_end p) (item_end n)) :: l'
           | Some ToRight => n :: place p l'
           | _ => place p l'
           end
  end.

(** The locks left after unlocking the range of [lock]. *)
Fixpoint release (lock : RangeLockItem) (l : list RangeLockItem) : list RangeLockItem :=
  match l with
  | [] => []
  | e :: l' =>
      if negb (owner e =? owner lock) then e :: release lock l'
      else match overlap_with lock e with
           | None | Some ToRight => e :: release lock l'
           | Some ToLeft => set_range e (mkRange (item_end lock) (item_end e)) :: l'
           | Some InMiddle => e :: set_range e (mkRange (item_end lock) (item_end e)) :: l'
           | Some Includes => release lock l'
           end
  end.

Section Zipper.
Context {A : Type} (l1 l2 : list A) (x y : A).

Lemma zip_fst : (l1 ++ x :: y :: l2) !! length l1 = Some x.
Proof. by apply list_lookup_middle. Qed.

Lemma zip_snd : (l1 ++ x :: y :: l2) !! S (length l1) = Some y.
Proof.
  change (x :: y :: l2) with ([x] ++ y :: l2). rewrite app_assoc.
  apply list_lookup_middle. rewrite length_app. simpl. lia.
Qed.

Lemma zip_set z : <[S (length l1) := z]> (l1 ++ x :: y :: l2) = l1 ++ x :: z :: l2.
Proof. rewrite insert_app_r_alt by lia. by replace (S (length l1) - length l1)%nat with 1%nat by lia. Qed.

Lemma zip_swap : swap (l1 ++ x :: y :: l2) (length l1) (S (length l1)) = Done (l1 ++ y :: x :: l2).
Proof.
  unfold swap. rewrite zip_fst, zip_snd, zip_set.
  rewrite insert_app_r_alt, Nat.sub_diag by lia. done.
Qed.

Lemma zip_remove_fst : remove_at (l1 ++ x :: y :: l2) (length l1) = l1 ++ y :: l2.
Proof. unfold remove_at. rewrite delete_middle. done. Qed.

Lemma zip_remove_snd : remove_at (l1 ++ x :: y :: l2) (S (length l1)) = l1 ++ x :: l2.
Proof.
  unfold remove_at. change (x :: y :: l2) with ([x] ++ y :: l2). rewrite app_assoc.
  replace (S (length l1)) with (length (l1 ++ [x])) by (rewrite length_app; simpl; lia).
  rewrite delete_middle, <- app_assoc. done.
Qed.

Lemma zip_insert z : insert_at (l1 ++ x :: y :: l2) (S (S (length l1))) z = l1 ++ x :: y :: z :: l2.
Proof.
  unfold insert_at. change (x :: y :: l2) with ([x; y] ++ l2). rewrite app_assoc.
  rewrite take_app_length', drop_app_length' by (rewrite length_app; simpl; lia).
  by rewrite <- app_assoc.
Qed.

End Zipper.

Lemma merge_with_spec n p :
  item_start n ≤ item_end p → item_start p ≤ item_end n →
  merge_with n p = Done (set_range n (mkRange (Z.min (item_start p) (item_start n))
                                              (Z.max (item_end p) (item_end n)))).
Proof.
  unfold item_start, item_end. intros H1 H2. unfold merge_with, range_merge.
  rewrite (proj2 (Z.ltb_ge _ _)), (proj2 (Z.ltb_ge _ _)) by lia. simpl.
  do 2 f_equal. f_equal; bool_cases; lia.
Qed.

Lemma set_start_spec l s :
  s < item_end l → ∃ w, set_start l s = Done (set_range l (mkRange s (item_end l)), w).
Proof.
  unfold item_end. intros Hs. unfold set_start, range_set_start.
  rewrite (proj2 (Z.leb_gt _ _)) by done. simpl. by eexists.
Qed.

Lemma set_end_spec l e : item_start l < e → ∃ w, set_end l e = Done (l, w).
Proof.
  unfold item_start. intros He. unfold set_end, range_set_end.
  rewrite (proj2 (Z.leb_gt _ _)) by done. simpl. by eexists.
Qed.

(** The kinds of overlap, as inequalities. *)
Lemma overlap_with_spec a b :
  match overlap_with a b with
  | None => item_end b ≤ item_start a ∨ item_end a ≤ item_start b
  | Some ToLeft => item_start a ≤ item_start b < item_end a ∧ item_end a < item_end b
  | Some InMiddle => item_start b < item_start a ∧ item_start b < item_end a < item_end b
  | Some ToRight => item_start b < item_start a < item_end b ∧ item_end b ≤ item_end a
  | Some Includes => item_start a ≤ item_start b ∧ item_end b ≤ item_end a
  end.
Proof.
  unfold overlap_with, range_overlap_with, item_start, item_end. bool_cases; simpl; lia.
Qed.

(** ** The loops compute the recursive readings *)

Lemma insert_loop_place fuel l1 p l2 woken :
  (length l2 < fuel)%nat →
  ∃ w, insert_loop fuel (l1 ++ p :: l2) (length l1) (S (length l1)) woken =
    Some (Done (l1 ++ place p l2, w)).
Proof.
  revert l1 p l2 woken. induction fuel as [|fuel IH]; intros l1 p l2 woken Hf; [lia |].
  destruct l2 as [|n l2]; cbn [insert_loop].
  { rewrite (proj2 (Nat.leb_le _ _)) by (rewrite length_app; simpl; lia). by eexists. }
  rewrite (proj2 (Nat.leb_gt _ _)) by (rewrite length_app; simpl; lia).
  rewrite zip_fst, zip_snd, zip_swap. cbn [place]. simpl in Hf.
  assert (Hstop : ∃ w, Some (Done (l1 ++ p :: n :: l2, woken)) = Some (Done (l1 ++ p :: n :: l2, w)))
    by (by eexists).
  assert (Hswap : ∀ woken, ∃ w, insert_loop fuel (l1 ++ n :: p :: l2) (S (length l1))
    (S (S (length l1))) woken = Some (Done (l1 ++ n :: place p l2, w))).
  { intros woken'. destruct (IH (l1 ++ [n]) p l2 woken') as [w Hw]; [lia |].
    rewrite length_app, Nat.add_1_r, <- !app_assoc in Hw. by exists w. }
  pose proof (overlap_with_spec p n) as Hov.
  destruct (owner n =? owner p); [| done]. cbn [negb].
  case_bool_decide as Ht.
  - destruct (Z.ltb_spec (item_end p) (item_start n)); [done |].
    destruct (Z.ltb_spec (item_end n) (item_start p)); [apply Hswap |].
    rewrite merge_with_spec by lia. rewrite zip_set, zip_remove_fst. apply IH. lia.
  - destruct (Z.leb_spec (item_end p) (item_start n)); [done |].
    destruct (Z.leb_spec (item_end n) (item_start p)); [apply Hswap |].
    destruct (overlap_with p n) as [[]|]; [| | | |lia].
    + destruct (set_start_spec n (item_end p)) as [w ->]; [lia |]. simpl. rewrite zip_set. by eexists.
    + destruct (set_end_spec n (item_start p)) as [w ->]; [lia |]. rewrite zip_set, zip_swap.
      apply Hswap.
    + destruct (set_start_spec n (item_end p)) as [w1 ->]; [lia |]. simpl.
      destruct (set_end_spec n (item_start p)) as [w2 ->]; [lia |]. simpl.
      rewrite zip_set, zip_swap. simpl. rewrite zip_insert. by eexists.
    + rewrite zip_remove_snd. apply IH. lia.
Qed.

(** Locks of other processes are passed over. *)
Lemma release_skip lock l1 l2 :
  Forall (λ e, owner e ≠ owner lock) l1 → release lock (l1 ++ l2) = l1 ++ release lock l2.
Proof.
  induction 1 as [|e l1 He _ IH]; [done |]. simpl.
  destruct (Z.eqb_spec (owner e) (owner lock)); [done |]. simpl. by rewrite IH.
Qed.

Lemma unlock_loop_release fuel l1 l2 lock woken :
  (length l2 < fuel)%nat →
  ∃ w, unlock_loop fuel (l1 ++ l2) lock (length l1) woken =
    Some (Done (l1 ++ release lock l2, w)).
Proof.
  revert l1 l2 woken. induction fuel as [|fuel IH]; intros l1 l2 woken Hf; [lia |].
  cbn [unlock_loop]. rewrite drop_app_length.
  destruct (list_find (λ lk, owner lk = owner lock) l2) as [[i e]|] eqn:Hfind.
  - apply list_find_Some in Hfind as (Hi & He & Hpre).
    destruct (list_elem_of_split_length _ _ _ Hi) as (l3 & l4 & -> & ->). clear Hi.
    assert (Hsk : Forall (λ e, owner e ≠ owner lock) l3).
    { apply Forall_forall. intros x (j & Hj)%list_elem_of_lookup.
      apply (Hpre j); [rewrite lookup_app_l; [done | by eapply lookup_lt_Some] | by eapply lookup_lt_Some]. }
    clear Hpre. rewrite length_app in Hf. simpl in Hf.
    rewrite (release_skip lock l3 (e :: l4) Hsk). cbn [release].
    rewrite He, Z.eqb_refl. cbn [negb].
    assert (Hat : (length l3 + length l1 = length (l1 ++ l3))%nat) by (rewrite length_app; lia).
    rewrite app_assoc, Hat.
    assert (Hnext : ∀ woken, ∃ w, unlock_loop fuel ((l1 ++ l3) ++ e :: l4) lock
      (S (length (l1 ++ l3))) woken = Some (Done (l1 ++ l3 ++ e :: release lock l4, w))).
    { intros woken'. destruct (IH ((l1 ++ l3) ++ [e]) l4 woken') as [w Hw]; [lia |].
      rewrite (length_app _ [e]), Nat.add_1_r, <- !app_assoc in Hw. rewrite <- !app_assoc. by exists w. }
    pose proof (overlap_with_spec lock e) as Hov.
    destruct (overlap_with lock e) as [[]|]; [| | | |apply Hnext].
    + destruct (set_start_spec e (item_end lock)) as [w ->]; [lia |]. simpl.
      rewrite insert_app_r_alt, Nat.sub_diag by lia. rewrite <- app_assoc. by eexists.
    + destruct (set_end_spec e (item_start lock)) as [w ->]; [lia |].
      rewrite list_insert_id by (by apply list_lookup_middle). apply Hnext.
    + destruct (set_start_spec e (item_end lock)) as [w1 ->]; [lia |]. simpl.
      destruct (set_end_spec e (item_start lock)) as [w2 ->]; [lia |]. simpl.
      rewrite list_insert_id by (by apply list_lookup_middle).
      unfold insert_at. change (e :: l4) with ([e] ++ l4). rewrite (app_assoc _ [e] l4).
      rewrite take_app_length', drop_app_length' by (rewrite !length_app; simpl; lia).
      rewrite <- !app_assoc. by eexists.
    + unfold remove_at. rewrite delete_middle.
      destruct (IH (l1 ++ l3) l4 (woken ++ [queue e])) as [w Hw]; [lia |].
      rewrite <- (app_assoc l1 l3 (release lock l4)) in Hw. by exists w.
  - apply list_find_None in Hfind.
    rewrite <- (app_nil_r l2), (release_skip lock l2 []), !app_nil_r; [by eexists |].
    exact Hfind.
Qed.

(** ** What the locks cover *)

(** Process [o] holds a lock of type [t] on byte [b]. *)
Definition covers (l : list RangeLockItem) (o : Z) (t : RangeLockType) (b : Z) : Prop :=
  ∃ e, e ∈ l ∧ owner e = o ∧ type_ e = t ∧ item_start e ≤ b < item_end e.

Lemma covers_nil o t b : ¬ covers [] o t b.
Proof. intros (e & []%not_elem_of_nil & _). Qed.

Lemma covers_cons e l o t b :
  covers (e :: l) o t b ↔
  (owner e = o ∧ type_ e = t ∧ item_start e ≤ b < item_end e) ∨ covers l o t b.
Proof.
  split.
  - intros (d & [->|Hd]%elem_of_cons & H1 & H2 & H3); [by left | right; by exists d].
  - intros [?|(d & ? & ?)]; [exists e | exists d]; set_solver.
Qed.

Lemma covers_app l1 l2 o t b :
  covers (l1 ++ l2) o t b ↔ covers l1 o t b ∨ covers l2 o t b.
Proof.
  induction l1 as [|e l1 IH]; simpl; [pose proof (covers_nil o t b); tauto |].
  rewrite !covers_cons, IH. tauto.
Qed.

(** Placing a lock adds no cover beyond that of the lock itself. *)
Lemma place_covers_only p l o t b :
  covers (place p l) o t b → covers (p :: l) o t b.
Proof.
  revert p. induction l as [|n l IH]; intros p; [done |]. cbn [place].
  pose proof (overlap_with_spec p n) as Hov.
  destruct (Z.eqb_spec (owner n) (owner p)) as [Ho|]; [| done]. cbn [negb].
  case_bool_decide as Ht.
  - destruct (Z.ltb_spec (item_end p) (item_start n)); [done |].
    destruct (Z.ltb_spec (item_end n) (item_start p)).
    + rewrite covers_cons. intros [Hn|Hp%IH]; rewrite !covers_cons in *; tauto.
    + intros Hp%IH. rewrite !covers_cons in *. unfold item_start, item_end in Hp; simpl in Hp.
      destruct Hp as [(? & ? & Hb)|?]; [| tauto].
      destruct (Z.lt_ge_cases b (item_start p)); [right; left | ].
      { unfold item_start, item_end in *. split; [done |]. split; [done | lia]. }
      destruct (Z.lt_ge_cases b (item_end p)); [left | right; left]; unfold item_start, item_end in *;
        (split; [congruence |]); (split; [congruence | lia]).
  - destruct (Z.leb_spec (item_end p) (item_start n)); [done |].
    destruct (Z.leb_spec (item_end n) (item_start p)).
    + rewrite covers_cons. intros [Hn|Hp%IH]; rewrite !covers_cons in *; tauto.
    + destruct (overlap_with p n) as [[]|]; rewrite ?covers_cons;
        unfold item_start, item_end in *; simpl in *.
      * intros [?|[(? & ? & ?)|?]]; [tauto | | tauto]. right; left. split; [done |]. split; [done | lia].
      * intros [?|Hp%IH]; rewrite ?covers_cons in *; tauto.
      * intros [?|[?|[(? & ? & ?)|?]]]; try tauto. right; left. split; [done |]. split; [done | lia].
      * intros Hp%IH. rewrite covers_cons in Hp. tauto.
      * lia.
Qed.

(** The lock that is placed covers its range afterwards. *)
Lemma place_covers_new p l b :
  item_start p ≤ b < item_end p → covers (place p l) (owner p) (type_ p) b.
Proof.
  revert p. induction l as [|n l IH]; intros p Hb.
  { simpl. rewrite covers_cons. by left. }
  cbn [place]. destruct (Z.eqb_spec (owner n) (owner p)) as [Ho|]; cbn [negb];
    [| rewrite covers_cons; by left].
  case_bool_decide as Ht.
  - destruct (Z.ltb_spec (item_end p) (item_start n)); [rewrite covers_cons; by left |].
    destruct (Z.ltb_spec (item_end n) (item_start p)); [rewrite covers_cons; right; by apply IH |].
    rewrite <- Ho, <- Ht.
    apply (IH (set_range n (mkRange (Z.min (item_start p) (item_start n)) (Z.max (item_end p) (item_end n))))).
    unfold item_start, item_end; simpl. unfold item_start, item_end in *. lia.
  - destruct (Z.leb_spec (item_end p) (item_start n)); [rewrite covers_cons; by left |].
    destruct (Z.leb_spec (item_end n) (item_start p)); [rewrite covers_cons; right; by apply IH |].
    destruct (overlap_with p n) as [[]|]; rewrite ?covers_cons; auto.
Qed.

(** Locks of other processes stay. *)
Lemma place_others p l :
  filter (λ e, owner e ≠ owner p) (place p l) = filter (λ e, owner e ≠ owner p) l.
Proof.
  revert p. induction l as [|n l IH]; intros p; cbn [place].
  { by rewrite filter_cons_False by tauto. }
  assert (Hcons : ∀ x l', owner x = owner p → filter (λ e, owner e ≠ owner p) (x :: l') =
    filter (λ e, owner e ≠ owner p) l') by (intros; by rewrite filter_cons_False by tauto).
  destruct (Z.eqb_spec (owner n) (owner p)) as [Ho|]; cbn [negb]; [| by rewrite Hcons].
  rewrite (Hcons n) by done. case_bool_decide as Ht.
  - destruct (_ <? _); [by rewrite !Hcons |].
    destruct (_ <? _); [rewrite Hcons by done; apply IH |].
    rewrite <- Ho. apply (IH (set_range n _)).
  - destruct (_ <=? _); [by rewrite !Hcons |].
    destruct (_ <=? _); [rewrite Hcons by done; apply IH |].
    destruct (overlap_with p n) as [[]|]; rewrite ?Hcons by done; apply IH || done.
Qed.

(** The union of two locks that touch. *)
Lemma union_covers n p l b :
  owner n = owner p → type_ n = type_ p →
  item_start n ≤ item_end p → item_start p ≤ item_end n →
  let m := set_range n (mkRange (Z.min (item_start p) (item_start n))
                                (Z.max (item_end p) (item_end n))) in
  covers (m :: l) (owner m) (type_ m) b → covers (p :: n :: l) (owner p) (type_ p) b.
Proof.
  intros Ho Ht H1 H2 m. rewrite !covers_cons. unfold m, item_start, item_end in *. simpl.
  rewrite Ho, Ht. intros [(_ & _ & Hb)|?]; [| tauto].
  destruct (Z.lt_ge_cases b (start (range p))); [right; left; repeat split; lia |].
  destruct (Z.lt_ge_cases b (end_ (range p))); [left; repeat split; lia |].
  right; left; repeat split; lia.
Qed.

(** Cover of other processes, of the same type, or where the process gets no
    lock of the new type, is kept. *)
Lemma place_covers_kept p l o t b :
  covers l o t b →
  (o ≠ owner p ∨ t = type_ p ∨ ¬ covers (p :: l) (owner p) (type_ p) b) →
  covers (place p l) o t b.
Proof.
  revert p. induction l as [|n l IH]; intros p Hc Hk; [by apply covers_nil in Hc |].
  assert (Hall : covers (p :: n :: l) o t b) by (rewrite covers_cons; by right).
  cbn [place]. pose proof (overlap_with_spec p n) as Hov.
  destruct (Z.eqb_spec (owner n) (owner p)) as [Ho|]; [| done]. cbn [negb].
  rewrite covers_cons in Hc.
  assert (Hk' : o ≠ owner p ∨ t = type_ p ∨ ¬ covers (p :: l) (owner p) (type_ p) b)
    by (rewrite !covers_cons in *; tauto).
  assert (Hrec : covers l o t b → covers (place p l) o t b) by (intros; by apply IH).
  assert (Hskip : covers (n :: place p l) o t b) by (rewrite covers_cons; tauto).
  case_bool_decide as Ht.
  - destruct (Z.ltb_spec (item_end p) (item_start n)); [done |].
    destruct (Z.ltb_spec (item_end n) (item_start p)); [done |].
    destruct Hc as [(? & ? & Hb)|Hc].
    + subst o t. apply (place_covers_new (set_range n _)). unfold item_start, item_end in *; simpl. lia.
    + apply IH; [done |]. simpl. rewrite Ho, Ht. destruct Hk as [?|[?|Hk]]; [by left | by right; left |].
      right; right. intros Hm. apply Hk. apply (union_covers n p l b Ho Ht); [lia | lia |].
      simpl. by rewrite Ho, Ht.
  - destruct (Z.leb_spec (item_end p) (item_start n)); [done |].
    destruct (Z.leb_spec (item_end n) (item_start p)); [done |].
    assert (Hin : item_start p ≤ b < item_end p → o = owner p → t = type_ p).
    { intros Hb ->. destruct Hk as [?|[?|Hk]]; [done | done |]. exfalso. apply Hk.
      rewrite covers_cons. by left. }
    destruct (overlap_with p n) as [[]|]; rewrite ?covers_cons in *;
      unfold item_start, item_end in *; simpl in *; [| tauto | tauto | | lia].
    + destruct Hc as [(Ho' & Ht' & Hb)|Hc]; [| by right; right].
      destruct (decide (b < end_ (range p))); [| right; left; split; [done |]; split; [done | lia]].
      exfalso. apply Ht. rewrite Ht'. apply Hin; [lia | congruence].
    + destruct Hc as [(Ho' & Ht' & Hb)|Hc]; [| by apply Hrec].
      exfalso. apply Ht. rewrite Ht'. apply Hin; [lia | congruence].
Qed.

Lemma release_covers_only lock l o t b : covers (release lock l) o t b → covers l o t b.
Proof.
  induction l as [|e l IH]; [done |]. cbn [release]. pose proof (overlap_with_spec lock e) as Hov.
  destruct (negb _); [rewrite !covers_cons; tauto |].
  destruct (overlap_with lock e) as [[]|]; rewrite ?covers_cons; unfold item_start, item_end in *;
    simpl; try tauto.
  - intros [(? & ? & ?)|?]; [left; split; [done |]; split; [done | lia] | tauto].
  - intros [?|[(? & ? & ?)|?]]; [tauto | left; split; [done |]; split; [done | lia] | tauto].
Qed.

Lemma release_covers_kept lock l o t b :
  covers l o t b → (o ≠ owner lock ∨ ¬ item_start lock ≤ b < item_end lock) →
  covers (release lock l) o t b.
Proof.
  intros Hc Hk. induction l as [|e l IH]; [done |]. cbn [release].
  pose proof (overlap_with_spec lock e) as Hov. rewrite covers_cons in Hc.
  destruct (Z.eqb_spec (owner e) (owner lock)) as [Ho|]; cbn [negb]; [| rewrite covers_cons; tauto].
  destruct (overlap_with lock e) as [[]|]; rewrite ?covers_cons; unfold item_start, item_end in *;
    simpl; try tauto.
  - destruct Hc as [(? & ? & ?)|?]; [| tauto]. left. split; [done |]. split; [done |].
    destruct Hk; [congruence | lia].
  - destruct Hc as [(? & ? & ?)|?]; [| tauto]. exfalso. destruct Hk; [congruence | lia].
Qed.

Lemma release_others lock l :
  filter (λ e, owner e ≠ owner lock) (release lock l) = filter (λ e, owner e ≠ owner lock) l.
Proof.
  induction l as [|e l IH]; [done |]. cbn [release].
  destruct (Z.eqb_spec (owner e) (owner lock)) as [Ho|Ho]; cbn [negb].
  - assert (Hcons : ∀ x l', owner x = owner lock → filter (λ e, owner e ≠ owner lock) (x :: l') =
      filter (λ e, owner e ≠ owner lock) l') by (intros; by rewrite filter_cons_False by tauto).
    rewrite (Hcons e) by done.
    destruct (overlap_with lock e) as [[]|]; rewrite ?Hcons by done; done.
  - rewrite !filter_cons_True by done. by rewrite IH.
Qed.

(** ** The operations *)

Lemma insert_lock_effect l lock :
  ∃ l1 l2 w, l = l1 ++ l2 ∧
    insert_lock_into_list l lock = Some (Done (l1 ++ place lock l2, w)).
Proof.
  unfold insert_lock_into_list.
  destruct (list_find (λ lk, owner lk = owner lock) l) as [[i e]|] eqn:Hf.
  - apply list_find_Some in Hf as (Hi & _). apply lookup_lt_Some in Hi.
    exists (take i l), (drop i l). unfold insert_at.
    destruct (insert_loop_place (S (length l)) (take i l) lock (drop i l) []) as [w Hw];
      [rewrite length_drop; lia |].
    rewrite length_take_le in Hw by lia. exists w. split; [by rewrite take_drop | done].
  - exists l, [], []. by rewrite app_nil_r.
Qed.

Lemma unlock_effect l lock : ∃ w, unlock l lock = Some (Done (release lock l, w)).
Proof. apply (unlock_loop_release _ [] l lock []). lia. Qed.

(** No process can read what another one may write. *)
Definition no_conflict (l : list RangeLockItem) : Prop :=
  ∀ o1 o2 t1 t2 b, o1 ≠ o2 → covers l o1 t1 b → covers l o2 t2 b →
    t1 ≠ WriteLock ∧ t2 ≠ WriteLock.

Lemma conflict_with_spec a b x :
  conflict_with a b = false → owner a ≠ owner b →
  item_start a ≤ x < item_end a → item_start b ≤ x < item_end b →
  type_ a ≠ WriteLock ∧ type_ b ≠ WriteLock.
Proof.
  unfold conflict_with. intros Hc Ho Ha Hb. pose proof (overlap_with_spec a b) as Hov.
  destruct (Z.eqb_spec (owner a) (owner b)); [done |].
  case_bool_decide as Hn; [rewrite Hn in Hov; lia |].
  destruct (bool_decide_reflect (type_ a = WriteLock)); [done |].
  by destruct (bool_decide_reflect (type_ b = WriteLock)).
Qed.

Lemma no_conflict_set l req :
  no_conflict l → (∀ e, e ∈ l → conflict_with req e = false) → no_conflict (req :: l).
Proof.
  intros Hn Hreq o1 o2 t1 t2 b Ho. rewrite !covers_cons.
  intros [(<- & <- & H1)|H1] [(<- & <- & H2)|H2]; [done | | |by eapply Hn].
  - destruct H2 as (e & He & <- & <- & H2). eapply conflict_with_spec; eauto.
  - destruct H1 as (e & He & <- & <- & H1). apply and_comm. eapply conflict_with_spec; eauto.
Qed.

Lemma no_conflict_sub l l' :
  no_conflict l → (∀ o t b, covers l' o t b → covers l o t b) → no_conflict l'.
Proof. intros Hn Hs o1 o2 t1 t2 b Ho H1 H2. eapply Hn; eauto. Qed.

(** ** Runs *)

(** Any process sets or releases locks on the file. *)
Inductive step : list RangeLockItem → list RangeLockItem → Prop :=
| step_set l req l' w :
    try_set_lock l req = Some (Done (ROk (l', w))) → step l l'
| step_unlock l lock l' w :
    unlock l lock = Some (Done (l', w)) → step l l'.

Definition reachable (l : list RangeLockItem) : Prop := rtc step [] l.

Lemma try_set_lock_cases l req :
  (∃ e, e ∈ l ∧ conflict_with req e = true ∧
     try_set_lock l req = Some (Done (RErr (EAGAIN, queue e)))) ∨
  ((∀ e, e ∈ l → conflict_with req e = false) ∧
   ∃ l1 l2 w, l = l1 ++ l2 ∧ try_set_lock l req = Some (Done (ROk (l1 ++ place req l2, w)))).
Proof.
  unfold try_set_lock.
  destruct (list_find (λ e, conflict_with req e = true) l) as [[i e]|] eqn:Hf.
  - left. apply list_find_Some in Hf as (Hi & He & _). exists e.
    split; [by eapply list_elem_of_lookup_2 | done].
  - right. apply list_find_None in Hf. split.
    + intros e He. rewrite Forall_forall in Hf. by apply not_true_is_false, Hf.
    + destruct (insert_lock_effect l req) as (l1 & l2 & w & -> & ->). by exists l1, l2, w.
Qed.

Lemma insert_covers_only l1 l2 req o t b :
  covers (l1 ++ place req l2) o t b → covers (req :: l1 ++ l2) o t b.
Proof.
  rewrite covers_app. intros [?|Hp%place_covers_only]; rewrite covers_cons in *;
    rewrite covers_app; tauto.
Qed.

Lemma no_conflict_step l l' : no_conflict l → step l l' → no_conflict l'.
Proof.
  intros Hn Hs. destruct Hs as [l req l' w He|l lock l' w He].
  - destruct (try_set_lock_cases l req) as [(e & _ & _ & He')|(Hc & l1 & l2 & w' & -> & He')];
      rewrite He' in He; [done |]. injection He as <- _.
    eapply no_conflict_sub; [by apply (no_conflict_set _ req Hn) | apply insert_covers_only].
  - destruct (unlock_effect l lock) as [w' He']. rewrite He' in He. injection He as <- _.
    eapply no_conflict_sub; [done | intros o t b; apply release_covers_only].
Qed.

(** ** Properties *)

(** Whatever sequence of [set_lock] and [unlock] calls the processes make on
    a file, two different processes never hold locks on the same byte of which
    one is a write lock. *)
Theorem range_locks_exclusive l o1 o2 t1 t2 b :
  reachable l → o1 ≠ o2 → covers l o1 t1 b → covers l o2 t2 b →
  t1 ≠ WriteLock ∧ t2 ≠ WriteLock.
Proof.
  intros Hr. revert o1 o2 t1 t2 b. revert Hr.
  apply (rtc_preserves step no_conflict); [| intros ??; apply no_conflict_step].
  intros o1 o2 t1 t2 b _ Hc. by apply covers_nil in Hc.
Qed.

(** Setting a lock, on any list: the search and the in-place loop end
    without a panic.  A conflict is reported exactly when some lock conflicts,
    with the queue of such a lock to wait on, and the list is untouched.
    Otherwise the process holds the lock on every byte of the range afterwards,
    all other cover comes from before, and locks of other processes stay as
    they were, in order. *)
Theorem try_set_lock_exact l req :
  match try_set_lock l req with
  | Some (Done (RErr (err, q))) =>
      err = EAGAIN ∧ ∃ e, e ∈ l ∧ conflict_with req e = true ∧ queue e = q
  | Some (Done (ROk (l', _))) =>
      (∀ e, e ∈ l → conflict_with req e = false) ∧
      (∀ b, item_start req ≤ b < item_end req → covers l' (owner req) (type_ req) b) ∧
      (∀ o t b, covers l' o t b → covers (req :: l) o t b) ∧
      filter (λ e, owner e ≠ owner req) l' = filter (λ e, owner e ≠ owner req) l
  | _ => False
  end.
Proof.
  destruct (try_set_lock_cases l req) as [(e & He & Hc & ->)|(Hc & l1 & l2 & w & -> & ->)].
  - split; [done |]. by exists e.
  - split; [done |]. split; [| split].
    + intros b Hb. rewrite covers_app. right. by apply place_covers_new.
    + intros o t b. apply insert_covers_only.
    + by rewrite !filter_app, place_others.
Qed.

(** Unlocking, on any list: the loop ends without a panic; locks of other
    processes stay as they were; the process keeps every byte outside of the
    range, and gains none. *)
Theorem unlock_exact l lock :
  ∃ l' w, unlock l lock = Some (Done (l', w)) ∧
    filter (λ e, owner e ≠ owner lock) l' = filter (λ e, owner e ≠ owner lock) l ∧
    (∀ t b, covers l' (owner lock) t b → covers l (owner lock) t b) ∧
    (∀ t b, ¬ item_start lock ≤ b < item_end lock →
       covers l (owner lock) t b → covers l' (owner lock) t b).
Proof.
  destruct (unlock_effect l lock) as [w Hw]. exists (release lock l), w.
  split; [done |]. split; [apply release_others |].
  split; [intros t b; apply release_covers_only |].
  intros t b Hb Hc. apply release_covers_kept; auto.
Qed.

(** Unlocking does not release the tail of a lock: if the range to unlock
    starts inside a lock and reaches its end, the lock keeps its whole range,
    although its waiters are woken. *)
Theorem unlock_tail_kept e lock :
  owner e = owner lock → item_start e < item_start lock < item_end e →
  item_end e ≤ item_end lock →
  ∃ w, unlock [e] lock = Some (Done ([e], w)) ∧
    ∀ b, item_start lock ≤ b < item_end e → covers [e] (owner lock) (type_ e) b.
Proof.
  intros Ho Hs He. destruct (unlock_effect [e] lock) as [w Hw]. exists w. split.
  - rewrite Hw. cbn [release]. rewrite Ho, Z.eqb_refl. cbn [negb].
    unfold overlap_with, range_overlap_with, item_start, item_end in *. bool_cases; simpl; lia || done.
  - intros b Hb. rewrite covers_cons. left. split; [done |]. split; [done | lia].
Qed.

(** *** Concrete locks *)

Definition wr (o s e : Z) (q : nat) : RangeLockItem := mkItem o WriteLock (mkRange s e) q.
Definition rd (o s e : Z) (q : nat) : RangeLockItem := mkItem o ReadLock (mkRange s e) q.

Lemma two_owners_reachable : reachable [rd 1 0 10 0; rd 2 5 20 1].
Proof.
  eapply rtc_l; [by eapply (step_set [] (rd 1 0 10 0)) |].
  eapply rtc_l; [by eapply (step_set [rd 1 0 10 0] (rd 2 5 20 1)) |]. apply rtc_refl.
Defined.

Lemma range_locks_exclusive_witness : ReadLock ≠ WriteLock ∧ ReadLock ≠ WriteLock.
Proof.
  apply (range_locks_exclusive [rd 1 0 10 0; rd 2 5 20 1] 1 2 ReadLock ReadLock 7
    two_owners_reachable); [lia | exists (rd 1 0 10 0) | exists (rd 2 5 20 1)];
    (split; [repeat constructor | repeat split; vm_compute; congruence]).
Defined.

Lemma unlock_tail_kept_witness :
  ∃ w, unlock [wr 1 0 100 0] (wr 1 50 100 1) = Some (Done ([wr 1 0 100 0], w)) ∧
    ∀ b, 50 ≤ b < 100 → covers [wr 1 0 100 0] 1 WriteLock b.
Proof.
  apply (unlock_tail_kept (wr 1 0 100 0) (wr 1 50 100 1)); [done | |];
    unfold item_start, item_end; simpl; lia.
Defined.

(** Changing the type of the tail leaves both locks on it. *)
Example downgrade_tail :
  try_set_lock [wr 1 0 100 0] (rd 1 50 100 1) =
  Some (Done (ROk ([wr 1 0 100 0; rd 1 50 100 1], [0%nat]))).
Proof. reflexivity. Qed.

End RangeLock.
