(* ===== verification/BootMemory.v ===== *)
(** * Physical memory at boot: from the firmware's map to the frame allocator

    [osxtd/src/boot/memory_region.rs] (the memory map and its normalisation),
    [osxtd/src/util/ops.rs] (range difference) and the early part of
    [osxtd/src/mm/frame/allocator.rs] (the early allocator and the hand-over of
    the rest of memory). *)

From S2P Require Import Prelude Align.
Local Open Scope Z_scope.

Module BootMemory.
Import Align.

Definition PAGE_SIZE : Z := 4096.

(** ** Memory regions *)

Inductive MemoryRegionType : Type :=
| BadMemory | Unknown | NonVolatileSleep | Reserved | Kernel | Module_ | Framebuffer
| Reclaimable | Usable.

#[global] Instance MemoryRegionType_eq_dec : EqDecision MemoryRegionType.
Proof. solve_decision. Defined.

(** The discriminants, which the derived order compares. *)
Definition rank (t : MemoryRegionType) : Z :=
  match t with
  | BadMemory => 0 | Unknown => 1 | NonVolatileSleep => 2 | Reserved => 3 | Kernel => 4
  | Module_ => 5 | Framebuffer => 6 | Reclaimable => 7 | Usable => 8
  end.

Record MemoryRegion : Type := mkRegion { base : Z; len : Z; typ : MemoryRegionType }.

Definition bad : MemoryRegion := mkRegion 0 0 BadMemory.

(** [self.base + self.len]; leaving 64 bits is a panic. *)
Definition region_end (r : MemoryRegion) : outcome Z := unwrap (checked_add 64 (base r) (len r)).

Definition as_aligned (r : MemoryRegion) : outcome MemoryRegion :=
  region_end r ≫= λ e,
  (if bool_decide (typ r = Usable)
   then align_up 64 (base r) PAGE_SIZE ≫= λ b, align_down 64 e PAGE_SIZE ≫= λ e, Done (b, e)
   else align_down 64 (base r) PAGE_SIZE ≫= λ b, align_up 64 e PAGE_SIZE ≫= λ e, Done (b, e))
    ≫= λ '(b, e),
  unwrap (checked_sub e b) ≫= λ l, Done (mkRegion b l (typ r)).

(** [iter.map(f).collect()] *)
Fixpoint map_outcome {A B} (f : A → outcome B) (l : list A) : outcome (list B) :=
  match l with
  | [] => Done []
  | x :: l => f x ≫= λ y, map_outcome f l ≫= λ ys, Done (y :: ys)
  end.

(** [iter.min()] and [iter.max()] on integers *)
Fixpoint min_list (l : list Z) : option Z :=
  match l with
  | [] => None
  | x :: l => Some (match min_list l with Some m => Z.min x m | None => x end)
  end.
Fixpoint max_list (l : list Z) : option Z :=
  match l with
  | [] => None
  | x :: l => Some (match max_list l with Some m => Z.max x m | None => x end)
  end.

(** ** Normalisation *)

(** [(region.base()..region.end()).contains(&a)], after alignment *)
Definition contains (r : MemoryRegion) (a : Z) : bool := (base r <=? a) && (a <? base r + len r).

(** The lowest type of the regions that contain [a]. *)
Fixpoint min_type (rs : list MemoryRegion) (a : Z) : option MemoryRegionType :=
  match rs with
  | [] => None
  | r :: rs =>
      if contains r a
      then Some (match min_type rs a with
                 | Some t => if rank t <? rank (typ r) then t else typ r
                 | None => typ r
                 end)
      else min_type rs a
  end.

Definition boundary (cur : Z) (r : MemoryRegion) : option Z :=
  if cur <? base r then Some (base r)
  else if cur <? base r + len r then Some (base r + len r) else None.

(** The [while] loop; [room] regions can still be pushed. *)
Fixpoint sweep (room : nat) (rs : list MemoryRegion) (max_addr cur_right : Z)
  : outcome (list MemoryRegion) :=
  if cur_right <? max_addr then
    let t := default Unknown (min_type rs cur_right) in
    unwrap (min_list (omap (boundary cur_right) rs)) ≫= λ right,
    match room with
    | O => Panic
    | S room =>
        sweep room rs max_addr right ≫= λ l,
        Done (mkRegion cur_right (right - cur_right) t :: l)
    end
  else Done [].

(** The in-place merge: [n] rounds, the next with index [i]. *)
Fixpoint merge_loop (n i merged_count : nat) (arr : list MemoryRegion)
  : outcome (list MemoryRegion * nat) :=
  match n with
  | O => Done (arr, merged_count)
  | S n =>
      match arr !! i, arr !! (merged_count - 1)%nat with
      | Some ri, Some m =>
          if bool_decide (typ ri = typ m)
          then merge_loop n (S i) merged_count
                 (<[(merged_count - 1)%nat := mkRegion (base m) (len m + len ri) (typ m)]> arr)
          else if (merged_count <? length arr)%nat
               then merge_loop n (S i) (S merged_count) (<[merged_count := ri]> arr)
               else Panic
      | _, _ => Panic
      end
  end.

(** [into_non_overlapping] on the [count] regions [rs]; the unused slots of the
    array are [bad] regions, which alignment leaves as they are. *)
Definition into_non_overlapping (LEN : nat) (rs : list MemoryRegion)
  : outcome (list MemoryRegion) :=
  map_outcome region_end rs ≫= λ ends,
  align_down 64 (default 0 (max_list ends)) PAGE_SIZE ≫= λ max_addr,
  map_outcome as_aligned rs ≫= λ rs,
  sweep LEN rs max_addr 0 ≫= λ result,
  let arr := result ++ replicate (LEN - length result) bad in
  merge_loop (length result - 1) 1 1 arr ≫= λ '(arr, count),
  Done (take count arr).

(** ** Ranges *)

(** [Range<usize>] *)
Record Range : Type := mkR { lo : Z; hi : Z }.
Definition range_is_empty (r : Range) : bool := hi r <=? lo r.
Definition range_len (r : Range) : Z := if hi r <=? lo r then 0 else hi r - lo r.

Definition range_difference (a b : Range) : list Range :=
  filter (λ v, range_is_empty v = false)
    (if range_is_empty b then [a; b]
     else [mkR (lo a) (Z.min (hi a) (lo b)); mkR (Z.max (lo a) (hi b)) (hi a)]).

(** ** The early allocator *)

Record EarlyFrameAllocator : Type := mkEarly {
  under_4g_range : Range; under_4g_end : Z; max_range : Range; max_end : Z
}.

Definition PADDR4G : Z := 2 ^ 32.

Definition early_pick (acc : Range * Range) (r : MemoryRegion) : Range * Range :=
  let '(under, high) := acc in
  if bool_decide (typ r = Usable) then
    let under :=
      if base r <? PADDR4G then
        let range := mkR (base r) (Z.min (base r + len r) PADDR4G) in
        if range_len under <? range_len range then range else under
      else under in
    let high :=
      if PADDR4G <=? base r + len r then
        let range := mkR (Z.max (base r) PADDR4G) (base r + len r) in
        if range_len high <? range_len range then range else high
      else high in
    (under, high)
  else acc.

Definition early_new (regions : list MemoryRegion) : EarlyFrameAllocator :=
  let '(under, high) := foldl early_pick (mkR 0 0, mkR 0 0) regions in
  mkEarly under (lo under) high (lo high).

(** One round of the loop of [alloc]: bump [tail] if the request fits before [end_]. *)
Definition bump (tail end_ size align : Z) : outcome (option (Z * Z)) :=
  align_up 64 tail align ≫= λ allocated,
  Done (match checked_add 64 allocated size with
        | Some allocated_end =>
            if allocated_end <=? end_ then Some (allocated, allocated_end) else None
        | None => None
        end).

Definition early_alloc (e : EarlyFrameAllocator) (size align : Z)
  : outcome (option Z * EarlyFrameAllocator) :=
  align_up 64 size PAGE_SIZE ≫= λ size,
  let align := Z.max align PAGE_SIZE in
  bump (under_4g_end e) (hi (under_4g_range e)) size align ≫= λ r,
  match r with
  | Some (a, t) => Done (Some a, mkEarly (under_4g_range e) t (max_range e) (max_end e))
  | None =>
      bump (max_end e) (hi (max_range e)) size align ≫= λ r,
      match r with
      | Some (a, t) => Done (Some a, mkEarly (under_4g_range e) (under_4g_end e) (max_range e) t)
      | None => Done (None, e)
      end
  end.

Definition allocated_regions (e : EarlyFrameAllocator) : Range * Range :=
  (mkR (lo (under_4g_range e)) (under_4g_end e), mkR (lo (max_range e)) (max_end e)).

(** [init]: the ranges passed to [add_free_memory], in order. *)
Definition free_ranges (regions : list MemoryRegion) (e : EarlyFrameAllocator) : list Range :=
  let '(range_1, range_2) := allocated_regions e in
  regions ≫= λ r,
    if bool_decide (typ r = Usable)
    then range_difference (mkR (base r) (base r + len r)) range_1 ≫= λ r1,
         range_difference r1 range_2
    else [].

(** ** Specification of the normalised map *)

(** [l] covers the addresses from [a] to [e] without gap or overlap. *)
Fixpoint tiles (a : Z) (l : list MemoryRegion) (e : Z) : Prop :=
  match l with
  | [] => a = e
  | r :: l => base r = a ∧ 0 ≤ len r ∧ tiles (a + len r) l e
  end.

(** Neighbours have different types. *)
Fixpoint alternates (l : list MemoryRegion) : Prop :=
  match l with
  | [] => True
  | r :: l => match l with [] => True | r' :: _ => typ r ≠ typ r' end ∧ alternates l
  end.

Definition inside (r : MemoryRegion) (a : Z) : Prop := base r ≤ a < base r + len r.

(** [t] is the least usable type among the regions with [a], [Unknown] without one. *)
Definition lowest (rs : list MemoryRegion) (a : Z) (t : MemoryRegionType) : Prop :=
  (∃ r, r ∈ rs ∧ inside r a ∧ typ r = t ∧ ∀ r', r' ∈ rs → inside r' a → rank t ≤ rank (typ r'))
  ∨ (t = Unknown ∧ ∀ r, r ∈ rs → ¬ inside r a).

(** The fields are 64-bit integers and the region ends in the address space. *)
Definition region_ok (r : MemoryRegion) : Prop :=
  0 ≤ base r ∧ 0 ≤ len r ∧ base r + len r < 2 ^ 64.

Definition paged (r : MemoryRegion) : Prop := (PAGE_SIZE | base r) ∧ (PAGE_SIZE | len r).

(** ** Lemmas *)

Lemma contains_spec r a : contains r a = true ↔ inside r a.
Proof. unfold contains, inside. rewrite andb_true_iff, Z.leb_le, Z.ltb_lt. done. Qed.

Lemma map_outcome_done {A B} (f : A → outcome B) l l' :
  map_outcome f l = Done l' ↔ Forall2 (λ x y, f x = Done y) l l'.
Proof.
  revert l'. induction l as [|x l IH]; intros l'; simpl.
  - split; [intros [= <-]; constructor | intros H; by inversion H].
  - rewrite bind_done. split.
    + intros (y & Hy & (ys & Hys & [= <-])%bind_done). constructor; [done |]. by apply IH.
    + intros H. inversion H as [|? y ? ys Hy Hys]; subst. exists y. split; [done |].
      apply bind_done. exists ys. split; [by apply IH | done].
Qed.

Lemma min_list_spec l m : min_list l = Some m → m ∈ l ∧ ∀ x, x ∈ l → m ≤ x.
Proof.
  revert m. induction l as [|x l IH]; intros m; simpl; [done |]. intros [= <-].
  destruct (min_list l) as [m|] eqn:E.
  - destruct (IH m eq_refl) as [Hin Hle]. split.
    + destruct (Z.min_spec x m) as [[_ ->]|[_ ->]]; set_solver.
    + intros y [->|Hy]%elem_of_cons; [lia |]. specialize (Hle y Hy). lia.
  - destruct l; [| done]. split; [set_solver |]. intros y ->%list_elem_of_singleton. lia.
Qed.

Lemma min_list_some l x : x ∈ l → is_Some (min_list l).
Proof. destruct l; [set_solver |]. simpl. eauto. Qed.

Lemma max_list_spec l :
  (∀ x, x ∈ l → x ≤ default 0 (max_list l)) ∧
  (l ≠ [] → default 0 (max_list l) ∈ l).
Proof.
  induction l as [|x l [IH1 IH2]]; simpl; [set_solver |].
  destruct (max_list l) as [m|] eqn:E; simpl in *.
  - split.
    + intros y [->|Hy]%elem_of_cons; [lia |]. specialize (IH1 y Hy). lia.
    + intros _. destruct (Z.max_spec x m) as [[_ ->]|[_ ->]]; [| set_solver].
      apply elem_of_cons. right. apply IH2. by destruct l.
  - destruct l; [| done]. split; [| set_solver]. intros y ->%list_elem_of_singleton. lia.
Qed.

Lemma min_type_lowest rs a : lowest rs a (default Unknown (min_type rs a)).
Proof.
  assert (match min_type rs a with
          | Some t => ∃ r, r ∈ rs ∧ inside r a ∧ typ r = t ∧
                        ∀ r', r' ∈ rs → inside r' a → rank t ≤ rank (typ r')
          | None => ∀ r, r ∈ rs → ¬ inside r a
          end) as H.
  { induction rs as [|r rs IH]; simpl; [set_solver |].
    destruct (contains r a) eqn:Hc.
    - apply contains_spec in Hc. destruct (min_type rs a) as [t|].
      + destruct IH as (q & Hq & Hi & Ht & Hle).
        destruct (Z.ltb_spec (rank t) (rank (typ r))).
        * exists q. split; [set_solver |]. do 2 (split; [done |]).
          intros r' [->|Hr']%elem_of_cons Hr; [lia | by apply Hle].
        * exists r. split; [set_solver |]. do 2 (split; [done |]).
          intros r' [->|Hr']%elem_of_cons Hr; [lia |]. specialize (Hle r' Hr' Hr). lia.
      + exists r. split; [set_solver |]. do 2 (split; [done |]).
        intros r' [->|Hr']%elem_of_cons Hr; [lia |]. by destruct (IH r' Hr').
    - assert (¬ inside r a) as Hn by (rewrite <- contains_spec; congruence).
      destruct (min_type rs a) as [t|].
      + destruct IH as (q & Hq & Hi & Ht & Hle). exists q. split; [set_solver |].
        do 2 (split; [done |]). intros r' [->|Hr']%elem_of_cons Hr; [done | by apply Hle].
      + intros r' [->|Hr']%elem_of_cons; auto. }
  unfold lowest. destruct (min_type rs a); simpl; auto.
Qed.

(** Between a point and the next boundary nothing changes. *)
Lemma min_type_const rs cur right a :
  (∀ b, b ∈ omap (boundary cur) rs → right ≤ b) → cur ≤ a < right →
  min_type rs a = min_type rs cur.
Proof.
  intros Hb Ha. induction rs as [|r rs IH]; [done |]. cbn [min_type].
  assert (contains r a = contains r cur) as ->.
  { apply eq_true_iff_eq. rewrite !contains_spec. unfold inside.
    assert (∀ b, boundary cur r = Some b → right ≤ b) as H.
    { intros b Hr. apply Hb, list_elem_of_omap. exists r. split; [set_solver | done]. }
    unfold boundary in H. destruct (Z.ltb_spec cur (base r)); [specialize (H _ eq_refl); lia |].
    destruct (Z.ltb_spec cur (base r + len r)); [specialize (H _ eq_refl); lia | lia]. }
  rewrite IH; [done |]. intros b Hin. apply Hb. apply list_elem_of_omap in Hin as (x & Hx & Hbx).
  apply list_elem_of_omap. exists x. split; [set_solver | done].
Qed.

(** The boundaries of a map: the right end of every output region is one. *)
Definition bounds (rs : list MemoryRegion) : list Z := rs ≫= λ r, [base r; base r + len r].

Lemma boundary_bounds rs cur b :
  b ∈ omap (boundary cur) rs → b ∈ bounds rs ∧ cur < b.
Proof.
  intros (r & Hr & Hb)%list_elem_of_omap. unfold boundary in Hb. unfold bounds.
  rewrite list_elem_of_bind. destruct (Z.ltb_spec cur (base r)).
  - injection Hb as <-. split; [exists r; set_solver | lia].
  - destruct (Z.ltb_spec cur (base r + len r)); [| done]. injection Hb as <-.
    split; [exists r; set_solver | lia].
Qed.

Lemma boundary_some (rs : list MemoryRegion) cur r :
  r ∈ rs → cur < base r + len r → ∃ b, b ∈ omap (boundary cur) rs.
Proof.
  intros Hr Hc. destruct (boundary cur r) as [b|] eqn:E.
  - exists b. apply list_elem_of_omap. eauto.
  - unfold boundary in E. destruct (Z.ltb_spec cur (base r)); [done |].
    destruct (Z.ltb_spec cur (base r + len r)); [done | lia].
Qed.

Lemma bounds_shrink (l : list Z) cur right :
  right ∈ l → cur < right →
  (length (filter (λ b, (right < b)%Z) l) < length (filter (λ b, (cur < b)%Z) l))%nat.
Proof.
  intros Hin Hlt.
  assert (∀ l : list Z, length (filter (λ b, (right < b)%Z) l) ≤ length (filter (λ b, (cur < b)%Z) l))%nat
    as Hmono.
  { induction l0 as [|x l0 IH]; [done |]. rewrite !filter_cons.
    destruct (decide (right < x)), (decide (cur < x)); simpl; lia. }
  induction l as [|x l IH]; [set_solver |]. rewrite !filter_cons.
  specialize (Hmono l). apply elem_of_cons in Hin as [->|Hin].
  - destruct (decide (x < x)), (decide (cur < x)); simpl; lia.
  - specialize (IH Hin). destruct (decide (right < x)), (decide (cur < x)); simpl; lia.
Qed.

Lemma sweep_eq room rs max_addr cur :
  sweep room rs max_addr cur =
  if cur <? max_addr then
    unwrap (min_list (omap (boundary cur) rs)) ≫= λ right,
    match room with
    | O => Panic
    | S room =>
        sweep room rs max_addr right ≫= λ l,
        Done (mkRegion cur (right - cur) (default Unknown (min_type rs cur)) :: l)
    end
  else Done [].
Proof. by destruct room. Qed.

(** With a region that reaches [max_addr] and room for one region per boundary
    the loop ends normally. *)
Lemma sweep_total rs max_addr room cur :
  (∃ r, r ∈ rs ∧ max_addr ≤ base r + len r) →
  (length (filter (λ b, (cur < b)%Z) (bounds rs)) ≤ room)%nat →
  ∃ out, sweep room rs max_addr cur = Done out.
Proof.
  intros (r & Hr & Hmax). revert cur. induction room as [|room IH]; intros cur Hroom;
    rewrite sweep_eq; (destruct (Z.ltb_spec cur max_addr) as [Hlt|]; [| eauto]);
    (destruct (boundary_some rs cur r Hr ltac:(lia)) as [b0 Hb0]);
    (destruct (min_list_some _ _ Hb0) as [right Hm]); rewrite Hm; simpl;
    apply min_list_spec in Hm as [Hin _]; apply boundary_bounds in Hin as [Hin Hc];
    pose proof (bounds_shrink _ _ _ Hin Hc); [lia |].
  destruct (IH right) as [l Hl]; [lia |]. rewrite Hl. simpl. eauto.
Qed.

(** What the loop has produced when it ends. *)
Lemma sweep_exact rs max_addr room cur out :
  sweep room rs max_addr cur = Done out →
  ∃ e, tiles cur out e ∧ cur ≤ e ∧ max_addr ≤ Z.max cur e ∧ (e = cur ∨ e ∈ bounds rs) ∧
    ∀ m, m ∈ out → 0 < len m ∧ (base m = cur ∨ base m ∈ bounds rs) ∧
      base m + len m ∈ bounds rs ∧ ∀ a, inside m a → lowest rs a (typ m).
Proof.
  revert cur out. induction room as [|room IH]; intros cur out; rewrite sweep_eq;
    (destruct (Z.ltb_spec cur max_addr) as [Hlt|];
     [| intros [= <-]; exists cur; simpl; split_and!; auto; try lia; set_solver]);
    intros (right & Hm & H)%bind_done; [done |].
  apply bind_done in H as (l & Hl & [= <-]). apply unwrap_done, min_list_spec in Hm as [Hin Hle].
  pose proof (boundary_bounds _ _ _ Hin) as [Hb Hc].
  destruct (IH right l Hl) as (e & Ht & He & Hmax & Hend & Hall).
  exists e. simpl. replace (cur + (right - cur)) with right by lia.
  split; [split_and!; [done | lia | done] |].
  split; [lia |]. split; [lia |]. split; [right; destruct Hend as [->|]; done |].
  intros m [->|Hin']%elem_of_cons; simpl.
  - split; [lia |]. split; [by left |]. split; [by replace (cur + (right - cur)) with right by lia |].
    intros a Ha. unfold inside in Ha. simpl in Ha.
    rewrite <- (min_type_const rs cur right a Hle) by lia. apply min_type_lowest.
  - destruct (Hall m Hin') as (H1 & [->|H2] & H3 & H4); auto.
Qed.

(** *** Alignment *)

Lemma page_valid : valid_align 64 PAGE_SIZE.
Proof. split; [by vm_compute |]. exists 12. split; [lia | done]. Qed.

Lemma region_end_ok r : region_ok r → region_end r = Done (base r + len r).
Proof.
  intros (H1 & H2 & H3). unfold region_end, checked_add.
  by destruct (Z.ltb_spec (base r + len r) (2 ^ 64)); [| lia].
Qed.

(** A usable region shrinks to the whole pages inside it, any other one grows
    to the pages it touches. *)
Lemma as_aligned_exact r r' :
  region_ok r → as_aligned r = Done r' →
  typ r' = typ r ∧ region_ok r' ∧ paged r' ∧
  round_down (base r + len r) PAGE_SIZE ≤ base r' + len r' ∧
  (if bool_decide (typ r = Usable)
   then base r' = round_up (base r) PAGE_SIZE ∧
        base r' + len r' = round_down (base r + len r) PAGE_SIZE
   else base r' = round_down (base r) PAGE_SIZE ∧
        base r' + len r' = round_up (base r + len r) PAGE_SIZE).
Proof.
  intros Hr. unfold as_aligned. rewrite region_end_ok by done. cbn [mbind outcome_bind].
  destruct Hr as (H1 & H2 & H3).
  assert (Hp : 0 < PAGE_SIZE) by (by vm_compute).
  pose proof (round_up_least (base r) _ Hp) as (Ub1 & Ub2 & _).
  pose proof (round_up_least (base r + len r) _ Hp) as (Ue1 & Ue2 & _).
  pose proof (round_down_greatest (base r) _ Hp) as (Db1 & Db2 & Db3).
  pose proof (round_down_greatest (base r + len r) _ Hp) as (De1 & De2 & _).
  specialize (Db3 0 (Z.divide_0_r _) H1).
  rewrite !align_up_eq, !align_down_eq by (apply page_valid || split; lia).
  case_bool_decide; simpl.
  - destruct (Z.ltb_spec (round_up (base r) PAGE_SIZE) (2 ^ 64)); [| done]. simpl.
    unfold checked_sub. destruct (Z.leb_spec (round_up (base r) PAGE_SIZE)
      (round_down (base r + len r) PAGE_SIZE)); [| done]. intros [= <-].
    unfold region_ok, paged. simpl. split_and!; try done || lia. by apply Z.divide_sub_r.
  - destruct (Z.ltb_spec (round_up (base r + len r) PAGE_SIZE) (2 ^ 64)); [| done]. simpl.
    unfold checked_sub. destruct (Z.leb_spec (round_down (base r) PAGE_SIZE)
      (round_up (base r + len r) PAGE_SIZE)); [| done]. intros [= <-].
    unfold region_ok, paged. simpl. split_and!; try done || lia. by apply Z.divide_sub_r.
Qed.

(** *** Merging *)

(** The merge as a function on lists: [m] is the region being extended. *)
Fixpoint merge_from (m : MemoryRegion) (l : list MemoryRegion) : list MemoryRegion :=
  match l with
  | [] => [m]
  | r :: l =>
      if bool_decide (typ r = typ m)
      then merge_from (mkRegion (base m) (len m + len r) (typ m)) l
      else m :: merge_from r l
  end.

Lemma merge_from_tiles m l a e : tiles a (m :: l) e → tiles a (merge_from m l) e.
Proof.
  revert m a. induction l as [|r l IH]; intros m a; [done |]. intros (H1 & H2 & H3 & H4 & H5).
  cbn [merge_from]. case_bool_decide.
  - apply IH. simpl. split_and!; [done | lia | by rewrite Z.add_assoc].
  - simpl. split_and!; [done | done | by apply IH].
Qed.

Lemma merge_from_head m l : ∃ r l', merge_from m l = r :: l' ∧ typ r = typ m.
Proof.
  revert m. induction l as [|r l IH]; intros m; simpl; [eauto |]. case_bool_decide; [| eauto].
  destruct (IH (mkRegion (base m) (len m + len r) (typ m))) as (r' & l' & -> & Ht). eauto.
Qed.

Lemma merge_from_alternates m l : alternates (merge_from m l).
Proof.
  revert m. induction l as [|r l IH]; intros m; simpl; [done |]. case_bool_decide; [done |].
  split; [| done]. destruct (merge_from_head r l) as (r' & l' & -> & Ht). congruence.
Qed.

(** A property of regions that joins across a common boundary survives. *)
Lemma merge_from_forall (P : MemoryRegion → Prop) m l a e :
  (∀ x y, typ x = typ y → base y = base x + len x → P x → P y →
     P (mkRegion (base x) (len x + len y) (typ x))) →
  tiles a (m :: l) e → Forall P (m :: l) → Forall P (merge_from m l).
Proof.
  intros Hjoin. revert m a. induction l as [|r l IH]; intros m a; [done |].
  intros (H1 & H2 & H3 & H4 & H5) [Hm [Hr Hl]%Forall_cons]%Forall_cons.
  cbn [merge_from]. case_bool_decide.
  - apply (IH _ a).
    + simpl. split_and!; [done | lia | by rewrite Z.add_assoc].
    + constructor; [| done]. apply Hjoin; auto; lia.
  - constructor; [done |]. apply (IH _ (a + len m)); [done |]. by constructor.
Qed.

(** The in-place loop computes it. *)
Lemma merge_loop_exact l : ∀ i mc arr pre m rest,
  take mc arr = pre ++ [m] → drop i arr = l ++ rest → (mc ≤ i)%nat → (mc ≤ length arr)%nat →
  ∃ arr' mc', merge_loop (length l) i mc arr = Done (arr', mc') ∧
    take mc' arr' = pre ++ merge_from m l.
Proof.
  induction l as [|r l IH]; intros i mc arr pre m rest Hpre Hdrop Hle Hlen; simpl; [eauto |].
  assert (Hmc : mc = S (length pre)).
  { apply (f_equal length) in Hpre. rewrite length_take, length_app in Hpre. simpl in Hpre. lia. }
  assert (Hi : arr !! i = Some r).
  { rewrite <- (Nat.add_0_r i), <- lookup_drop, Hdrop. done. }
  assert (Hm : arr !! (mc - 1)%nat = Some m).
  { rewrite <- (lookup_take_lt arr mc) by lia. rewrite Hpre, lookup_app_r by lia.
    by replace (mc - 1 - length pre)%nat with O by lia. }
  assert (Hdrop' : drop (S i) arr = l ++ rest).
  { replace (S i) with (i + 1)%nat by lia. rewrite <- drop_drop, Hdrop. done. }
  pose proof (lookup_lt_Some _ _ _ Hi) as Hlt. rewrite Hi, Hm. case_bool_decide.
  - apply (IH _ _ _ pre _ rest).
    + rewrite take_insert_lt by lia. rewrite Hpre, insert_app_r_alt by lia.
      by replace (mc - 1 - length pre)%nat with O by lia.
    + by rewrite drop_insert_lt by lia.
    + lia.
    + by rewrite length_insert.
  - destruct (Nat.ltb_spec mc (length arr)) as [Hlt'|]; [| lia].
    destruct (IH (S i) (S mc) (<[mc := r]> arr) (pre ++ [m]) r rest) as (arr' & mc' & HE & HT).
    + rewrite (take_S_r _ _ r) by (rewrite list_lookup_insert_eq by lia; done).
      by rewrite take_insert_ge, Hpre by lia.
    + by rewrite drop_insert_lt by lia.
    + lia.
    + rewrite length_insert. lia.
    + exists arr', mc'. split; [done |]. by rewrite HT, <- app_assoc.
Qed.

(** *** The whole of [into_non_overlapping] *)

(** What a normalised map is, over the aligned regions [rs'] it was made from. *)
Record map_of (rs' out : list MemoryRegion) (e : Z) : Prop := mkMapOf {
  mo_tiles : tiles 0 out e;
  mo_end : 0 ≤ e < 2 ^ 64;
  mo_regions : ∀ m, m ∈ out → paged m ∧ ∀ a, inside m a → lowest rs' a (typ m);
  mo_alternates : alternates out;
  mo_len : Forall (λ m, 0 < len m) out ∨ out = [bad]
}.

Lemma aligned_forall rs rs' :
  Forall region_ok rs → map_outcome as_aligned rs = Done rs' →
  Forall region_ok rs' ∧ Forall paged rs' ∧ length rs' = length rs.
Proof.
  intros Hok Hm. apply map_outcome_done in Hm. pose proof (Forall2_length _ _ _ Hm) as Hl.
  split_and!; [| | done]; rewrite Forall_forall; intros r' Hr';
    destruct (list_elem_of_lookup_1 _ _ Hr') as [i Hi];
    destruct (Forall2_lookup_r _ _ _ _ _ Hm Hi) as (r & Hri & Ha);
    pose proof (Forall_lookup_1 _ _ _ _ Hok Hri) as Hr;
    by destruct (as_aligned_exact _ _ Hr Ha) as (_ & ? & ? & _).
Qed.

Lemma bounds_forall rs b :
  Forall region_ok rs → Forall paged rs → b ∈ bounds rs → 0 ≤ b < 2 ^ 64 ∧ (PAGE_SIZE | b).
Proof.
  rewrite !Forall_forall. intros Hok Hp (r & Hb & Hr)%list_elem_of_bind.
  destruct (Hok r Hr) as (? & ? & ?), (Hp r Hr) as [? ?].
  assert (b = base r ∨ b = base r + len r) as [->| ->] by set_solver.
  - split; [lia | done].
  - split; [lia | by apply Z.divide_add_r].
Qed.

Lemma bounds_length rs : length (bounds rs) = (2 * length rs)%nat.
Proof. unfold bounds. induction rs as [|r rs IH]; [done |]. rewrite bind_cons, length_app, IH. simpl. lia. Qed.

Lemma ends_done rs :
  Forall region_ok rs → map_outcome region_end rs = Done ((λ r, base r + len r) <$> rs).
Proof.
  intros Hok. apply map_outcome_done. induction Hok as [|r rs Hr _ IH]; [constructor |].
  rewrite fmap_cons. constructor; [by apply region_end_ok | done].
Qed.

Definition max_end_of (rs : list MemoryRegion) : Z :=
  default 0 (max_list ((λ r, base r + len r) <$> rs)).

Lemma max_end_ok rs : Forall region_ok rs → in_width 64 (max_end_of rs).
Proof.
  intros Hok. unfold max_end_of. destruct (max_list_spec ((λ r, base r + len r) <$> rs)) as [_ H].
  destruct rs as [|r rs]; [split; simpl; lia |].
  apply list_elem_of_fmap in H as (q & -> & Hq); [| done].
  rewrite Forall_forall in Hok. destruct (Hok q Hq) as (? & ? & ?). split; lia.
Qed.

(** The merge of what the loop produced. *)
Lemma merge_sweep_exact rs' e out :
  tiles 0 out e → 0 ≤ e < 2 ^ 64 →
  (∀ m, m ∈ out → paged m ∧ ∀ a, inside m a → lowest rs' a (typ m)) → (∀ m, m ∈ out → 0 < len m) →
  ∀ LEN arr n, arr = out ++ replicate (LEN - length out) bad → (length out ≤ LEN)%nat →
  merge_loop (length out - 1) 1 1 arr ≫= (λ '(arr, count), Done (take count arr)) = n →
  ∃ out', n = Done out' ∧ map_of rs' out' e.
Proof.
  intros Ht He Hall Hpos LEN arr n Harr Hlen Hn. destruct out as [|m l].
  - simpl in Hn, Harr, Ht. subst. exists (take 1 (replicate (LEN - 0) bad)). split; [done |].
    destruct LEN as [|LEN]; simpl.
    + constructor; [done | lia | set_solver | done | left; constructor].
    + constructor; [done | lia | | done | by right]. intros m ->%list_elem_of_singleton.
      split; [split; apply Z.divide_0_r |]. intros a. unfold inside. simpl. lia.
  - destruct (merge_loop_exact l 1 1 arr [] m (replicate (LEN - length (m :: l)) bad))
      as (arr' & mc' & HE & HT); [by subst | by subst | done | subst; simpl; lia |].
    replace (length (m :: l) - 1)%nat with (length l) in Hn by (simpl; lia).
    rewrite HE in Hn. simpl in Hn, HT. exists (merge_from m l). split; [by rewrite <- HT |].
    constructor; [by apply merge_from_tiles | done | | apply merge_from_alternates |].
    2: { left. apply (merge_from_forall _ m l 0 e); [simpl; lia | done | by apply Forall_forall]. }
    apply Forall_forall, (merge_from_forall _ m l 0 e); [| done | by apply Forall_forall].
    intros x y Hty Hb [[Hx1 Hx2] Hx] [[Hy1 Hy2] Hy]. split.
    + split; [done | by apply Z.divide_add_r].
    + intros a Ha. unfold inside in *. simpl in *.
      destruct (decide (a < base x + len x)); [apply Hx; lia | rewrite Hty; apply Hy; lia].
Qed.

Lemma sweep_length rs max_addr room cur out :
  sweep room rs max_addr cur = Done out → (length out ≤ room)%nat.
Proof.
  revert cur out. induction room as [|room IH]; intros cur out; rewrite sweep_eq;
    (destruct (cur <? max_addr); [| intros [= <-]; simpl; lia]);
    intros (right & _ & H)%bind_done; [done |].
  apply bind_done in H as (l & Hl & [= <-]). specialize (IH _ _ Hl). simpl. lia.
Qed.

(** Whenever normalisation returns, it returns a map of the aligned regions. *)
Lemma into_non_overlapping_map LEN rs out :
  Forall region_ok rs → into_non_overlapping LEN rs = Done out →
  ∃ rs' e, map_outcome as_aligned rs = Done rs' ∧ map_of rs' out e ∧
    round_down (max_end_of rs) PAGE_SIZE ≤ e.
Proof.
  intros Hok. unfold into_non_overlapping. rewrite ends_done by done. cbn [mbind outcome_bind].
  fold (max_end_of rs). rewrite align_down_eq by (apply page_valid || by apply max_end_ok).
  cbn [mbind outcome_bind]. intros (rs' & Hrs' & (res & Hres & Hm)%bind_done)%bind_done.
  destruct (aligned_forall _ _ Hok Hrs') as (Hok' & Hp' & _).
  pose proof (sweep_length _ _ _ _ _ Hres) as Hlen.
  destruct (sweep_exact _ _ _ _ _ Hres) as (e & Ht & He & Hmax & Hend & Hall).
  destruct (merge_sweep_exact rs' e res Ht) with (6 := Hm) (LEN := LEN) as (out' & [= ->] & Hout).
  - destruct Hend as [->|Hend]; [lia |]. by apply (bounds_forall rs').
  - intros m Hmem. destruct (Hall m Hmem) as (Hl & Hb & Hbl & Hlow). split; [| done].
    assert (PAGE_SIZE | base m).
    { destruct Hb as [->|Hb]; [apply Z.divide_0_r | by apply (bounds_forall rs')]. }
    split; [done |]. replace (len m) with (base m + len m - base m) by lia.
    apply Z.divide_sub_r; [by apply (bounds_forall rs') | done].
  - intros m Hmem. by apply Hall.
  - done.
  - done.
  - exists rs', e. split_and!; [done | done | lia].
Qed.

(** *** Ranges *)

(** How often the ranges [l] contain the address [a]. *)
Definition within (r : Range) (a : Z) : nat := if (lo r <=? a) && (a <? hi r) then 1 else 0.
Definition count (a : Z) (l : list Range) : nat := sum_list ((λ r, within r a) <$> l).

Definition paged_range (r : Range) : Prop := (PAGE_SIZE | lo r) ∧ (PAGE_SIZE | hi r).

Lemma within_spec r a : within r a = if decide (lo r ≤ a < hi r) then 1%nat else 0%nat.
Proof.
  unfold within. destruct (Z.leb_spec (lo r) a), (Z.ltb_spec a (hi r)); simpl;
    destruct (decide _); lia.
Qed.

Lemma count_cons a r l : count a (r :: l) = (within r a + count a l)%nat.
Proof. done. Qed.

Lemma count_app a l1 l2 : count a (l1 ++ l2) = (count a l1 + count a l2)%nat.
Proof. unfold count. by rewrite fmap_app, sum_list_with_app || (induction l1; simpl in *; lia). Qed.

Lemma count_bind {A} a (f : A → list Range) (l : list A) :
  count a (l ≫= f) = sum_list ((λ x, count a (f x)) <$> l).
Proof. induction l as [|x l IH]; [done |]. rewrite bind_cons, count_app, IH. done. Qed.

Lemma count_filter_nonempty a l :
  count a (filter (λ v, range_is_empty v = false) l) = count a l.
Proof.
  induction l as [|r l IH]; [done |]. rewrite filter_cons, count_cons.
  destruct (decide _) as [|E]; [by rewrite count_cons, IH |]. rewrite IH, within_spec.
  unfold range_is_empty in E. destruct (Z.leb_spec (hi r) (lo r)); [| done].
  destruct (decide _); lia.
Qed.

Lemma range_difference_count a b x :
  count x (range_difference a b) = if decide (lo b ≤ x < hi b) then 0%nat else within a x.
Proof.
  unfold range_difference. rewrite count_filter_nonempty. unfold range_is_empty.
  destruct (Z.leb_spec (hi b) (lo b)); rewrite !count_cons, !within_spec; simpl;
    unfold count; simpl; repeat (destruct (decide _)); lia.
Qed.

Lemma range_difference_elem a b v :
  v ∈ range_difference a b → lo v < hi v ∧ (paged_range a → paged_range b → paged_range v).
Proof.
  unfold range_difference. rewrite list_elem_of_filter. unfold range_is_empty at 1.
  intros [Hv%Z.leb_gt Hin]. split; [done |]. intros [Ha1 Ha2] [Hb1 Hb2]. unfold paged_range.
  destruct (range_is_empty b); apply elem_of_cons in Hin as [->|Hin];
    try (apply list_elem_of_singleton in Hin as ->); simpl; [done | done | |].
  - split; [done |]. by destruct (Z.min_spec (hi a) (lo b)) as [[_ ->]|[_ ->]].
  - split; [| done]. by destruct (Z.max_spec (lo a) (hi b)) as [[_ ->]|[_ ->]].
Qed.

(** *** The early allocator *)

(** A region the early allocator may use: part of one usable region. *)
Definition usable_range (map : list MemoryRegion) (r : Range) : Prop :=
  lo r = hi r ∨ ∃ q, q ∈ map ∧ typ q = Usable ∧ base q ≤ lo r ∧ hi r ≤ base q + len q.

Definition tail_ok (r : Range) (t : Z) : Prop :=
  0 ≤ lo r ≤ t ∧ t ≤ hi r < 2 ^ 64 ∧ paged_range r ∧ (PAGE_SIZE | t).

Record early_ok (map : list MemoryRegion) (e : EarlyFrameAllocator) : Prop := mkEarlyOk {
  eo_under : tail_ok (under_4g_range e) (under_4g_end e);
  eo_max : tail_ok (max_range e) (max_end e);
  eo_usable1 : usable_range map (under_4g_range e);
  eo_usable2 : usable_range map (max_range e);
  eo_apart : hi (under_4g_range e) ≤ lo (max_range e) ∨ lo (max_range e) = hi (max_range e)
}.

Lemma early_pick_ok map pre acc :
  Forall region_ok map → Forall paged map → pre ⊆ map →
  acc = foldl early_pick (mkR 0 0, mkR 0 0) pre →
  tail_ok acc.1 (lo acc.1) ∧ tail_ok acc.2 (lo acc.2) ∧
  usable_range map acc.1 ∧ usable_range map acc.2 ∧
  hi acc.1 ≤ PADDR4G ∧ (PADDR4G ≤ lo acc.2 ∨ acc.2 = mkR 0 0).
Proof.
  rewrite !Forall_forall. intros Hok Hp. assert (H4 : (PAGE_SIZE | PADDR4G)) by (by exists (2 ^ 20)).
  assert (HP : 0 ≤ PADDR4G < 2 ^ 64) by (by vm_compute).
  revert acc. induction pre as [|r pre IH] using rev_ind; intros acc Hsub ->.
  - simpl. unfold tail_ok, paged_range, usable_range. simpl.
    split_and!; auto; try lia; apply Z.divide_0_r.
  - rewrite foldl_snoc.
    destruct (foldl early_pick (mkR 0 0, mkR 0 0) pre) as [u h].
    destruct (IH (u, h) ltac:(set_solver) eq_refl) as (I1 & I2 & I3 & I4 & I5 & I6).
    assert (r ∈ map) as Hr by set_solver. destruct (Hok r Hr) as (R1 & R2 & R3), (Hp r Hr) as [P1 P2].
    assert (PAGE_SIZE | base r + len r) by (by apply Z.divide_add_r).
    unfold early_pick. case_bool_decide; [| done]. simpl in *.
    assert (∀ b c, (b = base r ∨ b = PADDR4G) → (c = base r + len r ∨ c = PADDR4G) →
      base r ≤ b → c ≤ base r + len r → b ≤ c →
      tail_ok (mkR b c) b ∧ usable_range map (mkR b c)) as Hnew.
    { intros b c Hb Hc ? ? ?. unfold tail_ok, paged_range, usable_range. simpl.
      assert (PAGE_SIZE | b) by (destruct Hb as [->| ->]; done).
      assert (PAGE_SIZE | c) by (destruct Hc as [->| ->]; done).
      split_and!; auto; try lia. right. eauto. }
    assert (∀ x y : Range, range_len x < range_len y → lo y < hi y) as Hlen.
    { intros x y. unfold range_len.
      destruct (Z.leb_spec (hi x) (lo x)), (Z.leb_spec (hi y) (lo y)); lia. }
    destruct (Z.ltb_spec (base r) PADDR4G), (Z.leb_spec PADDR4G (base r + len r));
      repeat match goal with |- context [?x <? ?y] =>
        let Hl := fresh "Hl" in destruct (Z.ltb_spec x y) as [Hl|_];
        [apply Hlen in Hl; simpl in Hl |] end; simpl;
      split_and!; auto; try lia; apply Hnew; lia.
Qed.

Lemma early_new_ok map :
  Forall region_ok map → Forall paged map → early_ok map (early_new map).
Proof.
  intros Hok Hp. destruct (early_pick_ok map map _ Hok Hp (reflexivity _) eq_refl)
    as (H1 & H2 & H3 & H4 & H5 & H6).
  unfold early_new. destruct (foldl _ _ _) as [u h]. simpl in *.
  constructor; simpl; auto. destruct H6 as [|H6]; [left; lia | right]. by rewrite H6.
Qed.

(** A [Layout]: a size and a power of two. *)
Definition layout_ok (l : Z * Z) : Prop :=
  in_width 64 l.1 ∧ in_width 64 l.2 ∧ ∃ k, 0 ≤ k ∧ l.2 = 2 ^ k.

Lemma layout_align l : layout_ok l → valid_align 64 (Z.max l.2 PAGE_SIZE) ∧
  (PAGE_SIZE | Z.max l.2 PAGE_SIZE) ∧ (l.2 | Z.max l.2 PAGE_SIZE).
Proof.
  intros (_ & Hw & k & Hk & E). unfold PAGE_SIZE. change 4096 with (2 ^ 12). rewrite E in *.
  destruct (Z.le_gt_cases 12 k) as [H|H].
  - rewrite Z.max_l by auto with omega lia. split; [| split; [| done]].
    + split; [done |]. exists k. split; [lia | done].
    + exists (2 ^ (k - 12)). rewrite <- Z.pow_add_r by lia. f_equal. lia.
  - pose proof (pow2_le k 12 ltac:(lia)). rewrite Z.max_r by lia. split; [apply page_valid |].
    split; [done |]. exists (2 ^ (12 - k)). rewrite <- Z.pow_add_r by lia. f_equal. lia.
Qed.

Lemma bump_exact r t size align o :
  tail_ok r t → valid_align 64 align → (PAGE_SIZE | align) → 0 ≤ size → (PAGE_SIZE | size) →
  bump t (hi r) size align = Done o →
  match o with
  | Some (a, t') => (align | a) ∧ t ≤ a ∧ t' = a + size ∧ tail_ok r t'
  | None => ∀ a, (align | a) → t ≤ a → hi r < a + size
  end.
Proof.
  intros (T1 & T2 & T3 & T4) Hv Hpa Hs Hps. unfold bump.
  rewrite align_up_eq by (done || split; lia).
  assert (0 < align) as Hal by (destruct (valid_align_width _ _ Hv) as (k & ? & ->); auto with omega lia).
  destruct (round_up_least t align Hal) as (U1 & U2 & U3).
  destruct (Z.ltb_spec (round_up t align) (2 ^ 64)); [| done]. simpl. intros [= <-].
  set (a := round_up t align) in *. unfold checked_add.
  destruct (Z.ltb_spec (a + size) (2 ^ 64)) as [|Hbig].
  - destruct (Z.leb_spec (a + size) (hi r)).
    + split_and!; [done | done | done |]. unfold tail_ok. split_and!; try lia; try apply T3.
      apply Z.divide_add_r; [by transitivity align | done].
    + intros x Hx Hle. specialize (U3 x Hx Hle). lia.
  - intros x Hx Hle. specialize (U3 x Hx Hle). lia.
Qed.

(** What one early allocation does: [s] is its size in whole pages. *)
Lemma early_alloc_exact map e l o e' :
  early_ok map e → layout_ok l → early_alloc e l.1 l.2 = Done (o, e') →
  early_ok map e' ∧ under_4g_range e' = under_4g_range e ∧ max_range e' = max_range e ∧
  let s := round_up l.1 PAGE_SIZE in
  match o with
  | Some a => (l.2 | a) ∧ (PAGE_SIZE | a) ∧
      (under_4g_end e ≤ a ∧ a + s = under_4g_end e' ∧ max_end e' = max_end e ∨
       max_end e ≤ a ∧ a + s = max_end e' ∧ under_4g_end e' = under_4g_end e)
  | None => e' = e ∧ ∀ a, (Z.max l.2 PAGE_SIZE | a) →
      ¬ (under_4g_end e ≤ a ∧ a + s ≤ hi (under_4g_range e)) ∧
      ¬ (max_end e ≤ a ∧ a + s ≤ hi (max_range e))
  end.
Proof.
  intros [E1 E2 E3 E4 E5] Hl. destruct (layout_align l Hl) as (Hv & Hp & Hd).
  destruct Hl as (Hs & _ & _). unfold early_alloc.
  rewrite align_up_eq by (apply page_valid || done).
  destruct (round_up_least l.1 PAGE_SIZE ltac:(by vm_compute)) as (U1 & U2 & _).
  destruct Hs as [Hs0 _]. destruct (Z.ltb_spec (round_up l.1 PAGE_SIZE) (2 ^ 64)); [| done].
  cbn [mbind outcome_bind]. set (s := round_up l.1 PAGE_SIZE) in *. assert (0 ≤ s) as Hs by lia.
  intros (o1 & Hb1 & H1)%bind_done.
  pose proof (bump_exact _ _ _ _ _ E1 Hv Hp Hs U1 Hb1) as S1.
  destruct o1 as [[a t]|].
  - injection H1 as <- <-. destruct S1 as (A1 & A2 & -> & A3). simpl.
    split; [by constructor |]. do 2 (split; [done |]).
    split; [by transitivity (Z.max l.2 PAGE_SIZE) |].
    split; [by transitivity (Z.max l.2 PAGE_SIZE) | auto].
  - apply bind_done in H1 as (o2 & Hb2 & H2).
    pose proof (bump_exact _ _ _ _ _ E2 Hv Hp Hs U1 Hb2) as S2.
    destruct o2 as [[a t]|]; injection H2 as <- <-; simpl.
    + destruct S2 as (A1 & A2 & -> & A3).
      split; [by constructor |]. do 2 (split; [done |]).
      split; [by transitivity (Z.max l.2 PAGE_SIZE) |].
      split; [by transitivity (Z.max l.2 PAGE_SIZE) | auto].
    + split; [by constructor |]. do 3 (split; [done |]). intros a Ha.
      split; intros [Ha1 Ha2]; [specialize (S1 a Ha Ha1) | specialize (S2 a Ha Ha1)]; lia.
Qed.

(** The early phase: a sequence of allocations, and the ranges it was granted. *)
Fixpoint early_allocs (e : EarlyFrameAllocator) (reqs : list (Z * Z))
  : outcome (list Range * EarlyFrameAllocator) :=
  match reqs with
  | [] => Done ([], e)
  | l :: reqs =>
      early_alloc e l.1 l.2 ≫= λ '(o, e'),
      early_allocs e' reqs ≫= λ '(granted, e''),
      Done (match o with Some a => mkR a (a + round_up l.1 PAGE_SIZE) :: granted | None => granted end,
            e'')
  end.

Lemma early_allocs_exact map reqs e granted e' :
  early_ok map e → Forall layout_ok reqs → early_allocs e reqs = Done (granted, e') →
  early_ok map e' ∧ under_4g_range e' = under_4g_range e ∧ max_range e' = max_range e ∧
  under_4g_end e ≤ under_4g_end e' ∧ max_end e ≤ max_end e' ∧
  ∀ x, (count x granted ≤ within (mkR (under_4g_end e) (under_4g_end e')) x
                        + within (mkR (max_end e) (max_end e')) x)%nat.
Proof.
  revert e granted. induction reqs as [|l reqs IH]; intros e granted He Hreqs.
  - intros [= <- <-]. split_and!; try done. intros x. unfold count. simpl. lia.
  - inversion Hreqs as [|? ? Hl Hreqs']; subst. cbn [early_allocs].
    intros ([o e1] & Ha & ([g e2] & Hg & [= <- ->])%bind_done)%bind_done.
    destruct (early_alloc_exact _ _ _ _ _ He Hl Ha) as (He1 & R1 & R2 & Ho).
    destruct (IH _ _ He1 Hreqs' Hg) as (He2 & Q1 & Q2 & Q3 & Q4 & Hc).
    destruct (round_up_least l.1 PAGE_SIZE ltac:(by vm_compute)) as (_ & U2 & _).
    destruct Hl as ((Hs & _) & _). simpl in Ho. rewrite R1 in Q1. rewrite R2 in Q2.
    destruct o as [a|].
    + destruct Ho as (_ & _ & [(O1 & O2 & O3)|(O1 & O2 & O3)]);
        (split; [done |]); do 2 (split; [done |]); (split; [lia |]); (split; [lia |]);
        intros x; specialize (Hc x); rewrite count_cons; rewrite !within_spec in *; simpl in *;
        repeat (destruct (decide _)); lia.
    + destruct Ho as [-> _]. split_and!; done || lia.
Qed.

(** *** The hand-over *)

Definition usable_at (map : list MemoryRegion) (a : Z) : Prop :=
  ∃ r, r ∈ map ∧ typ r = Usable ∧ inside r a.

Definition usable_count (map : list MemoryRegion) (a : Z) : nat :=
  sum_list ((λ r, if bool_decide (typ r = Usable) then within (mkR (base r) (base r + len r)) a
                  else 0%nat) <$> map).

Lemma tiles_le a l e : tiles a l e → a ≤ e ∧ ∀ r, r ∈ l → a ≤ base r ∧ 0 ≤ len r ∧ base r + len r ≤ e.
Proof.
  revert a. induction l as [|r l IH]; intros a; simpl; [intros ->; split; [lia | set_solver] |].
  intros (<- & Hl & Ht). destruct (IH _ Ht) as [Hle Hall]. split; [lia |].
  intros q [->|Hq]%elem_of_cons; [lia |]. destruct (Hall q Hq). lia.
Qed.

Lemma usable_count_le map lo e a : tiles lo map e →
  (usable_count map a ≤ 1)%nat ∧ ((0 < usable_count map a)%nat ↔ usable_at map a).
Proof.
  revert lo. induction map as [|r l IH]; intros b.
  - intros _. split; [unfold usable_count; simpl; lia |].
    split; [unfold usable_count; simpl; lia | intros (? & ? & _); set_solver].
  - intros (<- & Hl & Ht). destruct (IH _ Ht) as [Hle Hiff].
    change (usable_count (r :: l) a) with
      ((if bool_decide (typ r = Usable) then within (mkR (base r) (base r + len r)) a else 0)
       + usable_count l a)%nat.
    assert (inside r a → usable_count l a = 0%nat) as Hone.
    { intros Hin. destruct (usable_count l a) eqn:E; [done | exfalso].
      assert (usable_at l a) as (q & Hq & _ & Hi) by (apply Hiff; lia).
      apply tiles_le in Ht as [_ Hall]. destruct (Hall q Hq) as (? & _). unfold inside in *. lia. }
    unfold inside in Hone. rewrite within_spec. simpl.
    split; [case_bool_decide; repeat destruct (decide _); lia |]. split.
    + intros Hpos. case_bool_decide; [destruct (decide _) |].
      * exists r. split; [set_solver | done].
      * apply Hiff in Hpos as (q & Hq & H'). exists q. split; [set_solver | done].
      * apply Hiff in Hpos as (q & Hq & H'). exists q. split; [set_solver | done].
    + intros (q & [->|Hq]%elem_of_cons & Hu & Hi).
      * rewrite bool_decide_eq_true_2 by done. destruct (decide _) as [|Hn]; [lia | by destruct Hn].
      * assert (0 < usable_count l a)%nat; [| lia]. apply Hiff. by exists q.
Qed.

Lemma free_ranges_count map e a :
  count a (free_ranges map e) =
  if decide (lo (under_4g_range e) ≤ a < under_4g_end e ∨ lo (max_range e) ≤ a < max_end e)
  then 0%nat else usable_count map a.
Proof.
  unfold free_ranges, allocated_regions. rewrite count_bind. unfold usable_count.
  induction map as [|r l IH]; [by destruct (decide _) |].
  rewrite !fmap_cons. cbn [sum_list sum_list_with foldr]. cbn [sum_list_with] in IH.
  assert (∀ x, count a (range_difference x (mkR (lo (under_4g_range e)) (under_4g_end e)) ≫= λ r1,
      range_difference r1 (mkR (lo (max_range e)) (max_end e))) =
    if decide (lo (under_4g_range e) ≤ a < under_4g_end e ∨ lo (max_range e) ≤ a < max_end e)
    then 0%nat else within x a) as Hx.
  { intros x. rewrite count_bind.
    assert (∀ l : list Range, sum_list ((λ r1, count a (range_difference r1
        (mkR (lo (max_range e)) (max_end e)))) <$> l) =
      if decide (lo (max_range e) ≤ a < max_end e) then 0%nat else count a l) as ->.
    { clear. induction l as [|y l IH]; [by destruct (decide _) |].
      rewrite fmap_cons, count_cons. simpl. rewrite range_difference_count. simpl.
      simpl in IH. rewrite IH. destruct (decide _); lia. }
    rewrite range_difference_count. simpl. repeat destruct (decide _); lia || tauto. }
  simpl. simpl in IH. rewrite IH. case_bool_decide.
  - rewrite Hx. by destruct (decide _).
  - by destruct (decide _).
Qed.

Lemma free_ranges_elem map e f :
  Forall paged map → paged_range (allocated_regions e).1 → paged_range (allocated_regions e).2 →
  f ∈ free_ranges map e → lo f < hi f ∧ paged_range f.
Proof.
  rewrite Forall_forall. intros Hp H1 H2. unfold free_ranges.
  destruct (allocated_regions e) as [r1 r2] eqn:E. simpl in *.
  intros (r & Hf & Hr)%list_elem_of_bind. case_bool_decide; [| set_solver].
  apply list_elem_of_bind in Hf as (v & Hf & Hv). destruct (Hp r Hr) as [P1 P2].
  apply range_difference_elem in Hv as [_ Hv]. apply range_difference_elem in Hf as [Hne Hf].
  split; [done |]. apply Hf; [| done]. apply Hv; [| done]. split; simpl; [done |].
  by apply Z.divide_add_r.
Qed.

Lemma usable_range_at map r a : usable_range map r → lo r ≤ a < hi r → usable_at map a.
Proof.
  intros [E|(q & Hq & Hu & H1 & H2)] Ha; [lia |]. exists q. split; [done |]. split; [done |].
  unfold inside. lia.
Qed.

(** Normalisation returns when the array has room for every boundary. *)
Lemma into_non_overlapping_total LEN rs rs' :
  Forall region_ok rs → map_outcome as_aligned rs = Done rs' → (2 * length rs ≤ LEN)%nat →
  into_non_overlapping LEN rs ≠ Panic.
Proof.
  intros Hok Hrs' HL. unfold into_non_overlapping. rewrite ends_done by done.
  cbn [mbind outcome_bind]. fold (max_end_of rs).
  rewrite align_down_eq by (apply page_valid || by apply max_end_ok).
  cbn [mbind outcome_bind]. rewrite Hrs'. cbn [mbind outcome_bind].
  destruct (aligned_forall _ _ Hok Hrs') as (Hok' & Hp' & Hlen).
  assert (∃ res, sweep LEN rs' (round_down (max_end_of rs) PAGE_SIZE) 0 = Done res) as [res Hres].
  { destruct rs as [|r0 rs0] eqn:Ers.
    - exists []. by rewrite sweep_eq.
    - rewrite <- Ers in *. apply sweep_total.
      + destruct (max_list_spec ((λ r, base r + len r) <$> rs)) as [_ Hin].
        fold (max_end_of rs) in Hin. rewrite list_elem_of_fmap in Hin.
        destruct Hin as (r & -> & Hr); [by rewrite Ers |].
        destruct (list_elem_of_lookup_1 _ _ Hr) as [i Hi]. apply map_outcome_done in Hrs'.
        destruct (Forall2_lookup_l _ _ _ _ _ Hrs' Hi) as (r' & Hr' & Ha). exists r'.
        split; [by eapply list_elem_of_lookup_2 |].
        by destruct (as_aligned_exact r r' (Forall_lookup_1 _ _ _ _ Hok Hi) Ha) as (_ & _ & _ & ? & _).
      + etransitivity; [apply length_filter |]. rewrite bounds_length. lia. }
  rewrite Hres. cbn [mbind outcome_bind]. destruct res as [|m l]; [done |].
  destruct (merge_loop_exact l 1 1 ((m :: l) ++ replicate (LEN - length (m :: l)) bad) [] m
    (replicate (LEN - length (m :: l)) bad)) as (arr' & mc' & HE & HT); [done | done | done | simpl; lia |].
  replace (length (m :: l) - 1)%nat with (length l) by (simpl; lia). by rewrite HE.
Qed.

(** ** Properties *)

(** Normalising the firmware's memory map, for any regions that end within
    the address space and whose page alignment is defined, in an array of at
    least twice their number: the result is a gap-free, non-overlapping
    sequence of page-aligned regions from address 0 past every whole page of
    every input region; each address has the least usable type among the
    aligned input regions that contain it, or [Unknown] if there is none; and
    neighbours have different types. *)
Theorem memory_map_exact LEN rs rs' :
  Forall region_ok rs → map_outcome as_aligned rs = Done rs' → (2 * length rs ≤ LEN)%nat →
  ∃ out e, into_non_overlapping LEN rs = Done out ∧ map_of rs' out e ∧
    ∀ r, r ∈ rs → base r + len r < e + PAGE_SIZE.
Proof.
  intros Hok Hrs' HL. destruct (aligned_forall _ _ Hok Hrs') as (Hok' & Hp' & Hlen).
  destruct (into_non_overlapping LEN rs) as [out|] eqn:E.
  - destruct (into_non_overlapping_map _ _ _ Hok E) as (rs1 & e & Hrs1 & Hmap & He).
    rewrite Hrs' in Hrs1. injection Hrs1 as <-. exists out, e. split_and!; [done | done |].
    intros r Hr. destruct (max_list_spec ((λ r, base r + len r) <$> rs)) as [Hmax _].
    specialize (Hmax (base r + len r)). rewrite list_elem_of_fmap in Hmax.
    specialize (Hmax ltac:(eauto)). fold (max_end_of rs) in Hmax.
    unfold round_down in He. pose proof (Z.mod_pos_bound (max_end_of rs) PAGE_SIZE ltac:(by vm_compute)). lia.
  - exfalso. revert E. apply into_non_overlapping_total with rs'; done.
Qed.

(** A small machine: low memory, the kernel inside it, a hole, high memory. *)
Definition sample_regions : list MemoryRegion :=
  [mkRegion 0x100 0x9F000 Usable; mkRegion 0x4000 0x2800 Kernel;
   mkRegion 0x100000000 0x8000 Usable; mkRegion 0xA0000 0x10000 Reserved].

Lemma sample_regions_ok : Forall region_ok sample_regions.
Proof. unfold region_ok. repeat constructor; vm_compute; congruence. Qed.

Lemma memory_map_exact_witness :
  ∃ rs', map_outcome as_aligned sample_regions = Done rs' ∧
  ∃ out e, into_non_overlapping 512 sample_regions = Done out ∧ map_of rs' out e ∧
    ∀ r, r ∈ sample_regions → base r + len r < e + PAGE_SIZE.
Proof.
  eexists. split; [vm_compute; reflexivity |].
  apply (memory_map_exact 512 sample_regions);
    [exact sample_regions_ok | vm_compute; reflexivity | apply Nat.leb_le; reflexivity].
Defined.

(** The hand-over of physical memory at boot: normalise the firmware's map,
    serve any sequence of early allocations, then give the rest to the frame
    allocator. Every range handed over is non-empty and page aligned; no
    address is given out twice, whether by two early allocations, by two
    handed-over ranges, or by one of each; every address given out is usable
    memory; and every usable address that lies outside the two ranges the early
    allocator has consumed is handed over. *)
Theorem boot_handover_exact LEN rs map reqs granted e :
  Forall region_ok rs → into_non_overlapping LEN rs = Done map →
  Forall layout_ok reqs → early_allocs (early_new map) reqs = Done (granted, e) →
  (∀ f, f ∈ free_ranges map e → lo f < hi f ∧ paged_range f) ∧
  ∀ a, (count a granted + count a (free_ranges map e) ≤ 1)%nat ∧
    ((0 < count a granted + count a (free_ranges map e))%nat → usable_at map a) ∧
    (usable_at map a →
       count a [(allocated_regions e).1; (allocated_regions e).2] = 0%nat →
       count a (free_ranges map e) = 1%nat).
Proof.
  intros Hok Hmap Hreqs Hrun.
  destruct (into_non_overlapping_map _ _ _ Hok Hmap) as (rs' & en & _ & [Ht Hen Hreg _ _] & _).
  assert (Forall paged map) as Hp by (apply Forall_forall; intros r Hr; by apply Hreg).
  assert (Forall region_ok map) as Hr.
  { apply Forall_forall. intros r Hr. apply tiles_le in Ht as [_ Hall].
    destruct (Hall r Hr) as (? & ? & ?). unfold region_ok. lia. }
  pose proof (early_new_ok map Hr Hp) as He0.
  destruct (early_allocs_exact _ _ _ _ _ He0 Hreqs Hrun) as ([E1 E2 E3 E4 E5] & Q1 & Q2 & Q3 & Q4 & Hc).
  destruct E1 as (U1 & U2 & [U3 U4] & U5), E2 as (M1 & M2 & [M3 M4] & M5).
  split; [intros f; apply free_ranges_elem; [done | by split | by split] |].
  intros a. specialize (Hc a). rewrite free_ranges_count.
  destruct (usable_count_le _ _ _ a Ht) as [Hle Hiff].
  destruct He0 as [(V1 & _) (N1 & _) _ _ _].
  rewrite <- Q1 in V1. rewrite <- Q2 in N1. rewrite !within_spec in Hc. simpl in Hc.
  pose proof (usable_range_at _ _ a E3) as Ha1. pose proof (usable_range_at _ _ a E4) as Ha2.
  split; [repeat destruct (decide _); lia |]. split.
  - intros Hpos. destruct (decide (lo (under_4g_range e) ≤ a < under_4g_end e)); [apply Ha1; lia |].
    destruct (decide (lo (max_range e) ≤ a < max_end e)); [apply Ha2; lia |].
    apply Hiff. repeat destruct (decide _); lia.
  - intros Hu%Hiff. unfold allocated_regions. rewrite !count_cons, !within_spec. simpl.
    repeat destruct (decide _); lia.
Qed.

Lemma boot_handover_exact_witness :
  ∃ map granted e, into_non_overlapping 512 sample_regions = Done map ∧
  early_allocs (early_new map) [(0x1800, 0x2000); (0x9A000, 1)] = Done (granted, e) ∧
  (∀ f, f ∈ free_ranges map e → lo f < hi f ∧ paged_range f) ∧
  ∀ a, (count a granted + count a (free_ranges map e) ≤ 1)%nat ∧
    ((0 < count a granted + count a (free_ranges map e))%nat → usable_at map a) ∧
    (usable_at map a →
       count a [(allocated_regions e).1; (allocated_regions e).2] = 0%nat →
       count a (free_ranges map e) = 1%nat).
Proof.
  eexists _, _, _. split; [vm_compute; reflexivity |]. split; [vm_compute; reflexivity |].
  apply (boot_handover_exact 512 sample_regions _ [(0x1800, 0x2000); (0x9A000, 1)]);
    [exact sample_regions_ok | vm_compute; reflexivity | | vm_compute; reflexivity].
  repeat constructor; simpl; try lia; [exists 13 | exists 0]; lia.
Defined.

(** [into_non_overlapping] promises that all addresses up to the end of the
    last region are in the result. A last region that is not usable and ends
    inside a page is lost instead, since the end of the map is rounded down
    before the region is rounded up: here the half page of reserved memory behind
    the usable region is in no region of the result. *)
Lemma memory_map_drops_tail :
  into_non_overlapping 512 [mkRegion 0 0x2000 Usable; mkRegion 0x2000 0x800 Reserved] =
  Done [mkRegion 0 0x2000 Usable].
Proof. by vm_compute. Qed.

(** Normalising the empty set gives a set of one bad region. *)
Lemma memory_map_empty : into_non_overlapping 512 [] = Done [bad].
Proof. by vm_compute. Qed.

(** Aligning a usable region that has no whole page leaves the integer range. *)
Lemma as_aligned_small : as_aligned (mkRegion 0x1100 0x100 Usable) = Panic.
Proof. by vm_compute. Qed.

End BootMemory.
