(* ===== verification/PageTableNode.v ===== *)
(** * Page table nodes and entries

    [osxtd/src/mm/page_table/node/{mod,entry,child}.rs], the constants and the
    entry trait of [osxtd/src/mm/page_table/mod.rs] and [osxtd/src/mm/mod.rs].
    The page table is generic in the paging constants and in the architecture's
    entry format: both are type classes, with the laws the generic code relies
    on. Nodes live in a store indexed by physical address. *)

From S2P Require Import Prelude Align.
Local Open Scope Z_scope.

(** ** Interfaces *)

(** [PagingConstsTrait], with the two constants of [PageTableConfig]. *)
Class PagingConsts : Type := {
  BASE_PAGE_SIZE : Z;
  PTE_SIZE : Z;
  NR_LEVELS : nat;
  HIGHEST_TRANSLATION_LEVEL : nat;
  ADDRESS_WIDTH : Z;
  VA_SIGN_EXT : bool;
  TOP_LEVEL_INDEX_RANGE : Z * Z;
  TOP_LEVEL_CAN_UNMAP : bool
}.

Definition MAX_NR_LEVELS : nat := 4.

Definition nr_subpage_per_huge `{PagingConsts} : Z := BASE_PAGE_SIZE / PTE_SIZE.
Definition page_size `{PagingConsts} (level : nat) : Z :=
  Z.shiftl BASE_PAGE_SIZE (Z.log2 nr_subpage_per_huge * (Z.of_nat level - 1)).
Definition nr_pte_index_bits `{PagingConsts} : Z := Z.log2 nr_subpage_per_huge.
Definition pte_index_bit_offset `{PagingConsts} (level : nat) : Z :=
  Z.log2 BASE_PAGE_SIZE + nr_pte_index_bits * (Z.of_nat level - 1).
Definition pte_index `{PagingConsts} (va : Z) (level : nat) : Z :=
  Z.land (Z.shiftr va (pte_index_bit_offset level)) (nr_subpage_per_huge - 1).

(** What the implementations of the trait have in common: sizes are powers of
    two, the levels fit the cursor's path, the address space is 64 bits wide, the
    addresses of a table are those its levels index. *)
Class PagingLaws `{PagingConsts} : Prop := {
  base_pow2 : BASE_PAGE_SIZE = 2 ^ Z.log2 BASE_PAGE_SIZE;
  pte_pow2 : PTE_SIZE = 2 ^ Z.log2 PTE_SIZE;
  pte_small : 0 < PTE_SIZE < BASE_PAGE_SIZE;
  levels_ok : (1 ≤ HIGHEST_TRANSLATION_LEVEL ≤ NR_LEVELS)%nat ∧ (NR_LEVELS ≤ MAX_NR_LEVELS)%nat;
  width_ok : pte_index_bit_offset (S NR_LEVELS) < 64;
  nr_fits : nr_subpage_per_huge ≤ 2 ^ 15;
  index_range_ok : 0 ≤ TOP_LEVEL_INDEX_RANGE.1 < TOP_LEVEL_INDEX_RANGE.2 ∧
    TOP_LEVEL_INDEX_RANGE.2 ≤ nr_subpage_per_huge;
  address_width_ok : ADDRESS_WIDTH = pte_index_bit_offset (S NR_LEVELS)
}.

(** [PageTableEntryTrait]; [E] is the entry and [P] the page property. *)
Class PteOps (E P : Type) : Type := {
  new_absent : E;
  is_present : E → bool;
  new_page : Z → nat → P → outcome E;
  new_pt : Z → E;
  pte_paddr : E → Z;
  pte_prop : E → P;
  set_prop : E → P → outcome E;
  is_last : E → nat → bool
}.

(** The documented contract of an entry format: which physical addresses and
    properties it can hold, and that it gives back what was put in. *)
Class PteLaws `{PagingConsts} (E P : Type) `{PteOps E P} : Type := {
  PADDR_END : Z;
  prop_ok : P → Prop;
  absent_law : is_present new_absent = false;
  page_law : ∀ pa l p, 0 ≤ pa < PADDR_END → (BASE_PAGE_SIZE | pa) → prop_ok p →
    ∃ e, new_page pa l p = Done e ∧ is_present e = true ∧ is_last e l = true ∧
         pte_paddr e = pa ∧ pte_prop e = p;
  pt_law : ∀ pa l, 0 ≤ pa < PADDR_END → (BASE_PAGE_SIZE | pa) →
    is_present (new_pt pa) = true ∧ is_last (new_pt pa) l = false ∧ pte_paddr (new_pt pa) = pa;
  set_prop_law : ∀ e l p, is_present e = true → is_last e l = true → prop_ok p →
    ∃ e', set_prop e p = Done e' ∧ is_present e' = true ∧ is_last e' l = true ∧
          pte_paddr e' = pte_paddr e ∧ pte_prop e' = p
}.

Section Nodes.
Context `{PC : PagingConsts} {E P : Type} `{PO : PteOps E P} `{EqDecision P}.

(** ** Nodes *)

(** The page with the entries, and the frame's [PageTablePageMeta]. *)
Record PtNode : Type := mkNode {
  level : nat;
  nr_children : Z;
  stray : bool;
  lock : bool;
  ptes : list E
}.

(** The nodes by physical address, and the frames that a node allocation takes. *)
Record Store : Type := mkStore { nodes : gmap Z PtNode; pool : list Z }.

Definition set_node (s : Store) (n : Z) (nd : PtNode) : Store :=
  mkStore (<[n := nd]> (nodes s)) (pool s).

Definition get_node (s : Store) (n : Z) : outcome PtNode := unwrap (nodes s !! n).

Definition read_pte (s : Store) (n idx : Z) : outcome E :=
  get_node s n ≫= λ nd, unwrap (ptes nd !! Z.to_nat idx).

Definition write_pte (s : Store) (n idx : Z) (pte : E) : outcome Store :=
  get_node s n ≫= λ nd,
  Done (set_node s n (mkNode (level nd) (nr_children nd) (stray nd) (lock nd)
                             (<[Z.to_nat idx := pte]> (ptes nd)))).

Definition set_nr_children (s : Store) (n : Z) (v : Z) : outcome Store :=
  get_node s n ≫= λ nd,
  Done (set_node s n (mkNode (level nd) v (stray nd) (lock nd) (ptes nd))).

Definition set_stray (s : Store) (n : Z) (v : bool) : outcome Store :=
  get_node s n ≫= λ nd,
  Done (set_node s n (mkNode (level nd) (nr_children nd) v (lock nd) (ptes nd))).

Definition set_lock (s : Store) (n : Z) (v : bool) : outcome Store :=
  get_node s n ≫= λ nd,
  Done (set_node s n (mkNode (level nd) (nr_children nd) (stray nd) v (ptes nd))).

(** [PageTableNode::alloc]: a zeroed frame with fresh metadata. *)
Definition node_alloc (s : Store) (level : nat) : outcome (Z * Store) :=
  match pool s with
  | [] => Panic
  | pa :: pool =>
      Done (pa, mkStore (<[pa := mkNode level 0 false false
                             (replicate (Z.to_nat nr_subpage_per_huge) new_absent)]> (nodes s)) pool)
  end.

(** [PageTableNodeRef::lock]. With one cursor at a time a lock that is taken
    stays taken, so the spin loop does not end: the model stops. *)
Definition node_lock (s : Store) (n : Z) : outcome Store :=
  get_node s n ≫= λ nd, assert_that (negb (lock nd)) ≫= λ _, set_lock s n true.

(** Dropping a [PageTableGuard]. *)
Definition node_unlock (s : Store) (n : Z) : outcome Store := set_lock s n false.

(** ** Children and entries *)

Inductive Child : Type :=
| ChPageTable (pa : Z)
| ChFrame (pa : Z) (level : nat) (prop : P)
| ChNone.

Definition child_is_none (c : Child) : bool := match c with ChNone => true | _ => false end.

(** [Child::from_pte] and [ChildRef::from_pte] *)
Definition from_pte (pte : E) (level : nat) : Child :=
  if is_present pte then
    if is_last pte level then ChFrame (pte_paddr pte) level (pte_prop pte)
    else ChPageTable (pte_paddr pte)
  else ChNone.

Definition into_pte (c : Child) : outcome E :=
  match c with
  | ChPageTable pa => Done (new_pt pa)
  | ChFrame pa level prop => new_page pa level prop
  | ChNone => Done new_absent
  end.

(** [Entry]: the entry as read, its index and its node. *)
Record Entry : Type := mkEntry { e_pte : E; e_idx : Z; e_node : Z }.

(** [PageTableGuard::entry] *)
Definition entry (s : Store) (n idx : Z) : outcome Entry :=
  assert_that (idx <? nr_subpage_per_huge) ≫= λ _,
  read_pte s n idx ≫= λ pte, Done (mkEntry pte idx n).

Definition entry_level (s : Store) (e : Entry) : outcome nat :=
  get_node s (e_node e) ≫= λ nd, Done (level nd).

Definition to_ref (s : Store) (e : Entry) : outcome Child :=
  entry_level s e ≫= λ l, Done (from_pte (e_pte e) l).

Definition protect (s : Store) (e : Entry) (op : P → P) : outcome Store :=
  if negb (is_present (e_pte e)) then Done s
  else
    let prop := pte_prop (e_pte e) in
    let new_prop := op prop in
    if bool_decide (prop = new_prop) then Done s
    else set_prop (e_pte e) new_prop ≫= λ pte, write_pte s (e_node e) (e_idx e) pte.

Definition replace (s : Store) (e : Entry) (new_child : Child) : outcome (Child * Store) :=
  entry_level s e ≫= λ l,
  (match new_child with
   | ChPageTable node => get_node s node ≫= λ nd, assert_that (S (level nd) =? l)%nat
   | ChFrame _ level _ => assert_that (level =? l)%nat
   | ChNone => Done tt
   end) ≫= λ _,
  let old_child := from_pte (e_pte e) l in
  get_node s (e_node e) ≫= λ nd,
  (if child_is_none old_child && negb (child_is_none new_child) then
     unwrap (checked_add 16 (nr_children nd) 1) ≫= λ v, set_nr_children s (e_node e) v
   else if negb (child_is_none old_child) && child_is_none new_child then
     unwrap (checked_sub (nr_children nd) 1) ≫= λ v, set_nr_children s (e_node e) v
   else Done s) ≫= λ s,
  into_pte new_child ≫= λ pte,
  write_pte s (e_node e) (e_idx e) pte ≫= λ s,
  Done (old_child, s).

Definition alloc_if_none (s : Store) (e : Entry) : outcome (option Z * Store) :=
  entry_level s e ≫= λ l,
  if negb (negb (is_present (e_pte e)) && (1 <? l)%nat) then Done (None, s)
  else
    node_alloc s (l - 1) ≫= λ '(new_page, s),
    node_lock s new_page ≫= λ s,
    into_pte (ChPageTable new_page) ≫= λ pte,
    write_pte s (e_node e) (e_idx e) pte ≫= λ s,
    get_node s (e_node e) ≫= λ nd,
    unwrap (checked_add 16 (nr_children nd) 1) ≫= λ v,
    set_nr_children s (e_node e) v ≫= λ s,
    Done (Some new_page, s).

(** The loop of [split_if_mapped_huge] from index [i], [n] rounds to go. *)
Fixpoint split_loop (n : nat) (s : Store) (new_page pa : Z) (l : nat) (prop : P) (i : Z)
  : outcome Store :=
  match n with
  | O => Done s
  | S n =>
      let small_pa := pa + i * page_size (l - 1) in
      entry s new_page i ≫= λ e,
      replace s e (ChFrame small_pa (l - 1) prop) ≫= λ '(_, s),
      split_loop n s new_page pa l prop (i + 1)
  end.

Definition split_if_mapped_huge (s : Store) (e : Entry) : outcome (option Z * Store) :=
  entry_level s e ≫= λ l,
  if negb (is_last (e_pte e) l && (1 <? l)%nat) then Done (None, s)
  else
    let pa := pte_paddr (e_pte e) in
    let prop := pte_prop (e_pte e) in
    node_alloc s (l - 1) ≫= λ '(new_page, s),
    node_lock s new_page ≫= λ s,
    split_loop (Z.to_nat nr_subpage_per_huge) s new_page pa l prop 0 ≫= λ s,
    into_pte (ChPageTable new_page) ≫= λ pte,
    write_pte s (e_node e) (e_idx e) pte ≫= λ s,
    Done (Some new_page, s).

(** ** Translation *)

(** [page_walk] from the node [n] at level [l]. *)
Fixpoint page_walk (s : Store) (l : nat) (n va : Z) : outcome (option (Z * P)) :=
  match l with
  | O => Panic
  | S l' =>
      read_pte s n (pte_index va l) ≫= λ pte,
      if negb (is_present pte) then Done None
      else if is_last pte l
      then Done (Some (pte_paddr pte + Z.land va (page_size l - 1), pte_prop pte))
      else page_walk s l' (pte_paddr pte) va
  end.

End Nodes.

Arguments PtNode E : clear implicits.
Arguments Store E : clear implicits.
Arguments Child P : clear implicits.
Arguments Entry E : clear implicits.

(** ** Sizes and indices *)

Section Arith.
Context {PC : PagingConsts} {PL : @PagingLaws PC}.

Lemma nr_pow : nr_subpage_per_huge = 2 ^ nr_pte_index_bits ∧ 1 ≤ nr_pte_index_bits.
Proof.
  unfold nr_pte_index_bits, nr_subpage_per_huge. destruct pte_small as [Hp Hpb].
  pose proof (Z.log2_nonneg PTE_SIZE) as Hn.
  pose proof base_pow2 as Hb. pose proof pte_pow2 as Hq.
  set (b := Z.log2 BASE_PAGE_SIZE) in *. set (q := Z.log2 PTE_SIZE) in *.
  assert (0 ≤ b) by apply Z.log2_nonneg.
  assert (q < b) as Hlt by (apply (Z.pow_lt_mono_r_iff 2); lia).
  rewrite Hb, Hq, <- Z.pow_sub_r, Z.log2_pow2 by lia. split; [done | lia].
Qed.

Lemma nr_pos : 2 ≤ nr_subpage_per_huge.
Proof.
  destruct nr_pow as [-> H]. change 2 with (2 ^ 1) at 1. apply Z.pow_le_mono_r; lia.
Qed.

Lemma offset_nonneg l : (1 ≤ l)%nat → 0 ≤ pte_index_bit_offset l.
Proof.
  intros Hl. unfold pte_index_bit_offset. destruct nr_pow as [_ H].
  pose proof (Z.log2_nonneg BASE_PAGE_SIZE). nia.
Qed.

Lemma page_size_pow l : (1 ≤ l)%nat → page_size l = 2 ^ pte_index_bit_offset l.
Proof.
  intros Hl. unfold page_size. destruct nr_pow as [_ H]. fold nr_pte_index_bits.
  rewrite Z.shiftl_mul_pow2 by nia. rewrite base_pow2 at 1. unfold pte_index_bit_offset.
  rewrite Z.pow_add_r; [done | apply Z.log2_nonneg | nia].
Qed.

Lemma page_size_pos l : (1 ≤ l)%nat → 0 < page_size l.
Proof. intros Hl. rewrite page_size_pow by done. apply pow2_pos, offset_nonneg, Hl. Qed.

Lemma page_size_1 : page_size 1 = BASE_PAGE_SIZE.
Proof. unfold page_size. rewrite Z.mul_0_r. apply Z.shiftl_0_r. Qed.

Lemma page_size_S l : (1 ≤ l)%nat → page_size (S l) = nr_subpage_per_huge * page_size l.
Proof.
  intros Hl. rewrite !page_size_pow by lia. destruct nr_pow as [-> Hk].
  rewrite <- Z.pow_add_r; [| lia | by apply offset_nonneg].
  f_equal. unfold pte_index_bit_offset. lia.
Qed.

Lemma page_size_divide j l : (1 ≤ j ≤ l)%nat → (page_size j | page_size l).
Proof.
  intros [Hj Hl]. induction l as [|l IH]; [lia |].
  destruct (decide (j = S l)) as [->|]; [done |].
  rewrite page_size_S by lia. apply Z.divide_mul_r, IH; lia.
Qed.

Lemma page_size_64 l : (1 ≤ l ≤ S NR_LEVELS)%nat → page_size l < 2 ^ 64.
Proof.
  intros Hl. rewrite page_size_pow by lia. pose proof width_ok.
  pose proof (offset_nonneg l ltac:(lia)). apply Z.pow_lt_mono_r; [lia | lia |].
  eapply Z.le_lt_trans; [| done]. unfold pte_index_bit_offset. destruct nr_pow as [_ Hk]. nia.
Qed.

Lemma pte_index_eq va l : (1 ≤ l)%nat →
  pte_index va l = (va / page_size l) mod nr_subpage_per_huge.
Proof.
  intros Hl. unfold pte_index. rewrite Z.shiftr_div_pow2 by (by apply offset_nonneg).
  rewrite page_size_pow by done. destruct nr_pow as [-> Hk].
  replace (2 ^ nr_pte_index_bits - 1) with (Z.ones nr_pte_index_bits)
    by (rewrite Z.ones_equiv; lia).
  apply Z.land_ones. lia.
Qed.

Lemma pte_index_range va l : (1 ≤ l)%nat → 0 ≤ pte_index va l < nr_subpage_per_huge.
Proof. intros Hl. rewrite pte_index_eq by done. apply Z.mod_pos_bound. pose proof nr_pos. lia. Qed.

Lemma land_page_size va l : (1 ≤ l)%nat → Z.land va (page_size l - 1) = va mod page_size l.
Proof.
  intros Hl. rewrite page_size_pow by done.
  replace (2 ^ pte_index_bit_offset l - 1) with (Z.ones (pte_index_bit_offset l))
    by (rewrite Z.ones_equiv; lia).
  apply Z.land_ones, offset_nonneg, Hl.
Qed.

(** Two addresses use the same slots from level [NR] down to [l] exactly when
    they lie in the same page of level [l], given that they lie in the same
    page of the level above. *)
Lemma same_slot_step va v l : (1 ≤ l)%nat →
  va / page_size l = v / page_size l ↔
  va / page_size (S l) = v / page_size (S l) ∧ pte_index va l = pte_index v l.
Proof.
  intros Hl. rewrite !pte_index_eq by done. rewrite page_size_S by done.
  pose proof (page_size_pos l Hl) as Hp. pose proof nr_pos as Hn.
  rewrite !(Z.mul_comm nr_subpage_per_huge), <- !Z.div_div by lia.
  set (x := va / page_size l). set (y := v / page_size l). split; [intros ->; done |].
  intros [H1 H2]. rewrite (Z.div_mod x nr_subpage_per_huge), (Z.div_mod y nr_subpage_per_huge) by lia.
  by rewrite H1, H2.
Qed.

End Arith.

(** ** Trees *)

Section Trees.
Context {PC : PagingConsts} {E P : Type} {PO : PteOps E P}.
Context {PL : @PagingLaws PC} {EL : @PteLaws PC E P PO}.

(** The slots of a node that belong to this page table: the top-level node of
    a user page table also points to the kernel's tables, which it shares. *)
Definition managed (l : nat) (i : Z) : bool :=
  if (l =? NR_LEVELS)%nat
  then (TOP_LEVEL_INDEX_RANGE.1 <=? i) && (i <? TOP_LEVEL_INDEX_RANGE.2) else true.

(** The slot [i] of the node [n], at level [l]. *)
Definition child_at (s : Store E) (n : Z) (l : nat) (i : Z) : Child P :=
  match nodes s !! n with
  | Some nd => match ptes nd !! Z.to_nat i with Some pte => from_pte pte l | None => ChNone end
  | None => ChNone
  end.

Definition slots : list Z := seqZ 0 nr_subpage_per_huge.

(** [PageTablePageMeta::on_drop]: the children that go with the node [n] of level
    [l] when its last handle is dropped, those of its child tables included. *)
Fixpoint on_drop (s : Store E) (l : nat) (n : Z) : list (Child P) :=
  match l with
  | O => []
  | S l' =>
      match nodes s !! n with
      | Some nd =>
          if nr_children nd =? 0 then []
          else slots ≫= λ i,
            if managed l i
            then match child_at s n l i with
                 | ChPageTable c => ChPageTable c :: on_drop s l' c
                 | ChFrame pa lv p => [ChFrame pa lv p]
                 | ChNone => []
                 end
            else []
      | None => []
      end
  end.

(** The nodes of the subtree at [n], and those below its slot [i]. *)
Fixpoint owned (s : Store E) (l : nat) (n : Z) : list Z :=
  match l with
  | O => []
  | S l' => n :: (slots ≫= λ i,
      if managed l i
      then match child_at s n l i with ChPageTable c => owned s l' c | _ => [] end else [])
  end.
Definition child_owned (s : Store E) (l : nat) (c : Child P) : list Z :=
  match c with ChPageTable c => owned s l c | _ => [] end.
Definition slot_owned (s : Store E) (l : nat) (n i : Z) : list Z :=
  if managed l i then child_owned s (l - 1) (child_at s n l i) else [].

Definition addr_ok (pa : Z) : Prop := 0 ≤ pa < PADDR_END ∧ (BASE_PAGE_SIZE | pa).
Definition frame_ok (l : nat) (pa : Z) : Prop :=
  0 ≤ pa ∧ pa + page_size l ≤ PADDR_END ∧ (page_size l | pa) ∧
  (1 ≤ l ≤ HIGHEST_TRANSLATION_LEVEL)%nat.

Definition present_count (s : Store E) (n : Z) (l : nat) : nat :=
  length (filter (λ i, managed l i && negb (child_is_none (child_at s n l i)) = true) slots).

(** A node by itself: its metadata agrees with its entries. *)
Definition node_ok (s : Store E) (l : nat) (n : Z) : Prop :=
  ∃ nd, nodes s !! n = Some nd ∧ level nd = l ∧ Z.of_nat (length (ptes nd)) = nr_subpage_per_huge ∧
    stray nd = false ∧ nr_children nd = Z.of_nat (present_count s n l) ∧ addr_ok n.

(** A page table below [n], at level [l]. *)
Fixpoint tree_ok (s : Store E) (l : nat) (n : Z) : Prop :=
  match l with
  | O => False
  | S l' =>
      node_ok s l n ∧
      ∀ i, 0 ≤ i < nr_subpage_per_huge → managed l i = true →
        match child_at s n l i with
        | ChNone => True
        | ChFrame pa _ p => frame_ok l pa ∧ prop_ok p
        | ChPageTable c => tree_ok s l' c
        end
  end.
Definition child_ok (s : Store E) (l : nat) (c : Child P) : Prop :=
  match c with
  | ChNone => True
  | ChFrame pa l' p => l' = l ∧ frame_ok l pa ∧ prop_ok p
  | ChPageTable c => tree_ok s (l - 1) c
  end.

(** A whole page table: a tree without sharing, apart from the free frames. *)
Record pt_ok (s : Store E) (root : Z) : Prop := mkPtOk {
  pt_tree : tree_ok s NR_LEVELS root;
  pt_nodup : NoDup (owned s NR_LEVELS root ++ pool s);
  pt_pool : Forall addr_ok (pool s)
}.

(** The translation a subtree defines. *)
Fixpoint trans (s : Store E) (l : nat) (n v : Z) : option (Z * P) :=
  match l with
  | O => None
  | S l' =>
      match child_at s n l (pte_index v l) with
      | ChNone => None
      | ChFrame pa _ p => Some (pa + v mod page_size l, p)
      | ChPageTable c => trans s l' c v
      end
  end.
Definition child_trans (s : Store E) (l : nat) (c : Child P) (v : Z) : option (Z * P) :=
  match c with
  | ChNone => None
  | ChFrame pa _ p => Some (pa + v mod page_size l, p)
  | ChPageTable c => trans s (l - 1) c v
  end.

(** The node at level [target] on the way to [va]. *)
Fixpoint descend (s : Store E) (l : nat) (n va : Z) (target : nat) : option Z :=
  if (l =? target)%nat then Some n
  else match l with
       | O => None
       | S l' => match child_at s n l (pte_index va l) with
                 | ChPageTable c => descend s l' c va target
                 | _ => None
                 end
       end.

(** *** Unfolding *)

Lemma slot_elem i : i ∈ slots ↔ 0 ≤ i < nr_subpage_per_huge.
Proof. unfold slots. rewrite elem_of_seqZ. lia. Qed.

Lemma slots_nodup : NoDup slots.
Proof. apply NoDup_seqZ. Qed.

Lemma owned_S s l n : owned s (S l) n = n :: (slots ≫= slot_owned s (S l) n).
Proof.
  cbn [owned]. f_equal. apply list_bind_ext; [| done]. intros i. unfold slot_owned.
  replace (S l - 1)%nat with l by lia. done.
Qed.

Lemma trans_S s l n v : trans s (S l) n v = child_trans s (S l) (child_at s n (S l) (pte_index v (S l))) v.
Proof. cbn [trans]. unfold child_trans. by replace (S l - 1)%nat with l by lia. Qed.

Lemma child_at_frame s n l i pa l' p : child_at s n l i = ChFrame pa l' p → l' = l.
Proof.
  unfold child_at. destruct (nodes s !! n); [| done]. destruct (ptes _ !! _); [| done].
  unfold from_pte. destruct (is_present e), (is_last e l); naive_solver.
Qed.

Lemma tree_ok_S s l n : tree_ok s (S l) n ↔
  node_ok s (S l) n ∧ ∀ i, 0 ≤ i < nr_subpage_per_huge → managed (S l) i = true →
    child_ok s (S l) (child_at s n (S l) i).
Proof.
  cbn [tree_ok]. split; intros [H1 H2]; (split; [done |]); intros i Hi Hm; specialize (H2 i Hi Hm);
    unfold child_ok in *; replace (S l - 1)%nat with l in * by lia;
    destruct (child_at s n (S l) i) as [c|pa l' p|] eqn:Hc; try done.
  - split; [by eapply child_at_frame | done].
  - tauto.
Qed.

(** The nodes of a subtree, by slot. *)
Lemma owned_slot s l n i :
  0 ≤ i < nr_subpage_per_huge →
  owned s (S l) n ≡ₚ slot_owned s (S l) n i ++
    n :: (filter (λ j, j ≠ i) slots ≫= slot_owned s (S l) n).
Proof.
  intros Hi. rewrite owned_S. rewrite <- Permutation_middle. constructor.
  apply slot_elem in Hi. pose proof slots_nodup as Hnd. revert Hi Hnd.
  generalize slots as l0. induction l0 as [|j l0 IH]; [set_solver |].
  intros Hi [Hj Hnd]%NoDup_cons. rewrite filter_cons, bind_cons.
  destruct (decide (j ≠ i)) as [Hne|Heq].
  - rewrite bind_cons, IH by set_solver. rewrite !(assoc_L (++)).
    by rewrite (Permutation_app_comm (slot_owned s (S l) n i)).
  - assert (j = i) as -> by (destruct (decide (j = i)); tauto).
    f_equiv. rewrite filter_all; [done |]. apply Forall_forall. set_solver.
Qed.

Lemma owned_slot_elem s l n i x :
  0 ≤ i < nr_subpage_per_huge → x ∈ slot_owned s (S l) n i → x ∈ owned s (S l) n.
Proof. intros Hi Hx. rewrite (owned_slot s l n i Hi). set_solver. Qed.

(** Nodes outside of a subtree do not matter to it. *)
Lemma managed_low l i : (l < NR_LEVELS)%nat → managed l i = true.
Proof. intros Hl. unfold managed. by destruct (Nat.eqb_spec l NR_LEVELS); [lia |]. Qed.

Lemma child_at_agree s s' n l i : nodes s' !! n = nodes s !! n → child_at s' n l i = child_at s n l i.
Proof. unfold child_at. by intros ->. Qed.

Lemma node_ok_agree s s' l n : nodes s' !! n = nodes s !! n → node_ok s l n → node_ok s' l n.
Proof.
  intros Hn (nd & H1 & H2 & H3 & H4 & H5 & H6). exists nd. split_and!; try done; [congruence |].
  rewrite H5. unfold present_count. do 2 f_equal. apply list_filter_iff. intros i.
  by rewrite (child_at_agree s s').
Qed.

Lemma agree_slot s s' l n i :
  (∀ x, x ∈ owned s (S l) n → nodes s' !! x = nodes s !! x) →
  0 ≤ i < nr_subpage_per_huge → managed (S l) i = true →
  child_at s' n (S l) i = child_at s n (S l) i ∧
  ∀ c, child_at s n (S l) i = ChPageTable c →
    ∀ x, x ∈ owned s l c → nodes s' !! x = nodes s !! x.
Proof.
  intros Hag Hi Hm. split.
  - apply child_at_agree, Hag. rewrite owned_S. set_solver.
  - intros c Hc x Hx. apply Hag, (owned_slot_elem s l n i x Hi). unfold slot_owned.
    rewrite Hm, Hc. simpl. by rewrite Nat.sub_0_r.
Qed.

Lemma owned_agree s s' l n :
  (l ≤ NR_LEVELS)%nat → (∀ x, x ∈ owned s l n → nodes s' !! x = nodes s !! x) →
  owned s' l n = owned s l n.
Proof.
  revert n. induction l as [|l IH]; intros n Hl Hag; [done |]. rewrite !owned_S. f_equal.
  apply Forall_bind_ext, Forall_forall. intros i Hi%slot_elem. unfold slot_owned.
  destruct (managed (S l) i) eqn:Hm; [| done].
  destruct (agree_slot s s' l n i Hag Hi Hm) as [-> Hc].
  unfold child_owned. destruct (child_at s n (S l) i) as [c| |]; [| done | done].
  simpl. rewrite !Nat.sub_0_r. apply IH; [lia |]. by apply Hc.
Qed.

Lemma tree_ok_agree s s' l n :
  (l ≤ NR_LEVELS)%nat → (∀ x, x ∈ owned s l n → nodes s' !! x = nodes s !! x) →
  tree_ok s l n → tree_ok s' l n.
Proof.
  revert n. induction l as [|l IH]; intros n Hl Hag; [done |]. rewrite !tree_ok_S. intros [H1 H2].
  split; [apply (node_ok_agree s); [apply Hag; rewrite owned_S; set_solver | done] |].
  intros i Hi Hm. destruct (agree_slot s s' l n i Hag Hi Hm) as [-> Hc].
  specialize (H2 i Hi Hm). unfold child_ok in *.
  destruct (child_at s n (S l) i) as [c| |]; [| done | done].
  simpl in *. rewrite Nat.sub_0_r in *. apply IH; [lia | by apply Hc | done].
Qed.

Lemma trans_agree s s' l n v :
  (l ≤ NR_LEVELS)%nat → (∀ x, x ∈ owned s l n → nodes s' !! x = nodes s !! x) →
  managed l (pte_index v l) = true → trans s' l n v = trans s l n v.
Proof.
  revert n. induction l as [|l IH]; intros n Hl Hag Hm; [done |]. rewrite !trans_S.
  destruct (agree_slot s s' l n (pte_index v (S l)) Hag) as [-> Hc]; [apply pte_index_range; lia | done |].
  unfold child_trans. destruct (child_at s n (S l) _) as [c| |]; [| done | done].
  simpl. rewrite Nat.sub_0_r. apply IH; [lia | by apply Hc |]. apply managed_low. lia.
Qed.

Lemma descend_agree s s' l n v t :
  (l ≤ NR_LEVELS)%nat → (∀ x, x ∈ owned s l n → nodes s' !! x = nodes s !! x) →
  managed l (pte_index v l) = true → descend s' l n v t = descend s l n v t.
Proof.
  revert n. induction l as [|l IH]; intros n Hl Hag Hm; [done |]. cbn [descend].
  destruct (Nat.eqb_spec (S l) t); [done |].
  destruct (agree_slot s s' l n (pte_index v (S l)) Hag) as [-> Hc]; [apply pte_index_range; lia | done |].
  destruct (child_at s n (S l) _) as [c| |]; [| done | done].
  apply IH; [lia | by apply Hc |]. apply managed_low. lia.
Qed.

(** A page table does not depend on nodes that it does not own. *)
Lemma pt_ok_agree s s' root :
  pt_ok s root → pool s' = pool s →
  (∀ x, x ∈ owned s NR_LEVELS root → nodes s' !! x = nodes s !! x) → pt_ok s' root.
Proof.
  intros [Htree Hnd Hp] Hpool Hag. constructor.
  - by apply (tree_ok_agree s).
  - by rewrite (owned_agree s), Hpool.
  - by rewrite Hpool.
Qed.

(** The translation of the page walk. *)
Lemma page_walk_trans s l n v :
  (l ≤ NR_LEVELS)%nat → tree_ok s l n → managed l (pte_index v l) = true →
  page_walk s l n v = Done (trans s l n v).
Proof.
  revert n. induction l as [|l IH]; intros n Hl Ht Hm; [done |].
  apply tree_ok_S in Ht as [(nd & Hnd & _ & Hlen & _) Hch].
  assert (0 ≤ pte_index v (S l) < nr_subpage_per_huge) as Hi by (apply pte_index_range; lia).
  specialize (Hch _ Hi Hm). rewrite trans_S. cbn [page_walk]. unfold read_pte, get_node, child_at in *.
  rewrite Hnd in *. cbn [unwrap mbind outcome_bind].
  destruct (lookup_lt_is_Some_2 (ptes nd) (Z.to_nat (pte_index v (S l)))) as [pte Hp]; [lia |].
  rewrite Hp in *. cbn [unwrap mbind outcome_bind]. unfold from_pte in *.
  destruct (is_present pte); [| done]. cbn [negb].
  destruct (is_last pte (S l)); cbn [child_trans].
  - by rewrite land_page_size by lia.
  - simpl in Hch. rewrite Nat.sub_0_r in *. simpl. rewrite Nat.sub_0_r.
    apply IH; [lia | done |]. apply managed_low. lia.
Qed.

(** *** Changing one slot *)

Lemma descend_owned s l n va t m :
  (l ≤ NR_LEVELS)%nat → managed l (pte_index va l) = true → (1 ≤ t)%nat →
  descend s l n va t = Some m → m ∈ owned s l n ∧ (t ≤ l)%nat ∧ managed t (pte_index va t) = true ∧
    ∀ i, 0 ≤ i < nr_subpage_per_huge → slot_owned s t m i ⊆ owned s l n.
Proof.
  revert n. induction l as [|l IH]; intros n Hl Hm Ht; cbn [descend].
  - destruct (Nat.eqb_spec 0 t); [lia | done].
  - destruct (Nat.eqb_spec (S l) t) as [<-|Hne].
    + intros [= <-]. split; [rewrite owned_S; set_solver |]. split; [lia |]. split; [done |].
      intros i Hi x Hx. by eapply owned_slot_elem.
    + destruct (child_at s n (S l) (pte_index va (S l))) as [c| |] eqn:Hc; [| done | done].
      intros Hd. destruct (IH c) as (H1 & H2 & H3 & H4); [lia | apply managed_low; lia | done | done |].
      assert (owned s l c ⊆ owned s (S l) n) as Hsub.
      { intros x Hx. apply (owned_slot_elem s l n (pte_index va (S l))); [apply pte_index_range; lia |].
        unfold slot_owned. rewrite Hm, Hc. simpl. by rewrite Nat.sub_0_r. }
      split; [by apply Hsub |]. split; [lia |]. split; [done |]. set_solver.
Qed.

Lemma descend_above s l n va t : (l < t)%nat → descend s l n va t = None.
Proof.
  revert n. induction l as [|l IH]; intros n Hlt; cbn [descend].
  - by destruct (Nat.eqb_spec 0 t); [lia |].
  - destruct (Nat.eqb_spec (S l) t); [lia |]. destruct (child_at s _ _ _); [| done | done].
    apply IH. lia.
Qed.

Lemma descend_tree s l n va t m :
  (l ≤ NR_LEVELS)%nat → managed l (pte_index va l) = true → (1 ≤ t)%nat →
  tree_ok s l n → NoDup (owned s l n) → descend s l n va t = Some m →
  tree_ok s t m ∧ NoDup (owned s t m).
Proof.
  revert n. induction l as [|l IH]; intros n Hl Hm Ht; [done |]. intros Htree Hnd. cbn [descend].
  destruct (Nat.eqb_spec (S l) t) as [<-|Hne]; [by intros [= <-] |].
  apply tree_ok_S in Htree as [_ Hch].
  assert (0 ≤ pte_index va (S l) < nr_subpage_per_huge) as Hi by (apply pte_index_range; lia).
  specialize (Hch _ Hi Hm). rewrite (owned_slot s l n _ Hi) in Hnd. unfold slot_owned in Hnd.
  rewrite Hm in Hnd. apply NoDup_app in Hnd as [Hnd _].
  destruct (child_at s n (S l) (pte_index va (S l))) as [c| |]; [| done | done].
  simpl in Hch, Hnd. rewrite Nat.sub_0_r in *. apply IH; [lia | apply managed_low; lia | done..].
Qed.

(** [v] and [va] use the same slots from level [l] down to level [t]. *)
Definition same_slots (l t : nat) (va v : Z) : Prop :=
  ∀ j, (t ≤ j ≤ l)%nat → pte_index v j = pte_index va j.

#[global] Instance same_slots_dec l t va v : Decision (same_slots l t va v).
Proof.
  refine (cast_if (decide (Forall (λ j, pte_index v j = pte_index va j) (seq t (S l - t))))).
  - intros j Hj. rewrite Forall_forall in f. apply f. apply elem_of_seq. lia.
  - intros Hs. apply n. apply Forall_forall. intros j Hj%elem_of_seq. apply Hs. lia.
Defined.

(** The store [s'] differs from [s], below the node [n] at level [l], only in the
    slot of [va] in the node [m] at level [t] and in what hangs below it. *)
Record slot_update (s s' : Store E) (l : nat) (n va : Z) (t : nat) (m : Z) : Prop := mkUpdate {
  up_at : descend s l n va t = Some m;
  up_node : tree_ok s' t m;
  up_others : ∀ i, 0 ≤ i < nr_subpage_per_huge → i ≠ pte_index va t →
    child_at s' m t i = child_at s m t i;
  up_rest : ∀ x, x ∈ owned s l n → x ≠ m → x ∉ slot_owned s t m (pte_index va t) →
    nodes s' !! x = nodes s !! x
}.

Lemma nodup_slot s l n i :
  NoDup (owned s (S l) n) → 0 ≤ i < nr_subpage_per_huge →
  NoDup (slot_owned s (S l) n i) ∧ (n ∉ slot_owned s (S l) n i) ∧
  ∀ j x, 0 ≤ j < nr_subpage_per_huge → j ≠ i → x ∈ slot_owned s (S l) n i →
    x ∉ slot_owned s (S l) n j.
Proof.
  intros Hnd Hi. rewrite (owned_slot s l n i Hi) in Hnd.
  apply NoDup_app in Hnd as (H1 & H2 & [H3 H4]%NoDup_cons). split; [done |]. split.
  - intros Hn. apply (H2 n Hn). set_solver.
  - intros j x Hj Hne Hx Hxj. apply (H2 x Hx). apply elem_of_cons. right.
    apply list_elem_of_bind. exists j. split; [done |]. apply list_elem_of_filter.
    split; [done |]. by apply slot_elem.
Qed.

(** A slot whose subtree the two stores agree on. *)
Lemma slot_agree s s' l n i :
  (S l ≤ NR_LEVELS)%nat → managed (S l) i = true →
  child_at s' n (S l) i = child_at s n (S l) i →
  (∀ x, x ∈ slot_owned s (S l) n i → nodes s' !! x = nodes s !! x) →
  slot_owned s' (S l) n i = slot_owned s (S l) n i ∧
  (child_ok s (S l) (child_at s n (S l) i) → child_ok s' (S l) (child_at s n (S l) i)) ∧
  (∀ v, child_trans s' (S l) (child_at s n (S l) i) v = child_trans s (S l) (child_at s n (S l) i) v) ∧
  (∀ c v t, child_at s n (S l) i = ChPageTable c → descend s' l c v t = descend s l c v t).
Proof.
  intros Hl Hm Hc Hag. unfold slot_owned in *. rewrite Hm in *. rewrite Hc.
  destruct (child_at s n (S l) i) as [c|pa l' p|]; simpl in *; [| done | done].
  rewrite Nat.sub_0_r in *. split; [apply owned_agree; [lia | done] |].
  split; [apply tree_ok_agree; [lia | done] |]. split.
  - intros v. apply trans_agree; [lia | done | apply managed_low; lia].
  - intros c' v t [= <-]. apply descend_agree; [lia | done | apply managed_low; lia].
Qed.

(** The conclusion of the next lemmas: what a slot update does to the subtree. *)
Definition updated (s s' : Store E) (l : nat) (n va : Z) (t : nat) (m : Z) : Prop :=
  let i0 := pte_index va t in
  tree_ok s' l n ∧
  (∃ rest, owned s l n ≡ₚ slot_owned s t m i0 ++ rest ∧ owned s' l n ≡ₚ slot_owned s' t m i0 ++ rest) ∧
  (∀ v, managed l (pte_index v l) = true →
     (same_slots l t va v → trans s' l n v = child_trans s' t (child_at s' m t i0) v) ∧
     (¬ same_slots l t va v → trans s' l n v = trans s l n v)) ∧
  (∀ v j, managed l (pte_index v l) = true → (t ≤ j)%nat ∨ ¬ same_slots l t va v →
     descend s' l n v j = descend s l n v j).

Lemma updated_here s s' l n va :
  (S l ≤ NR_LEVELS)%nat → managed (S l) (pte_index va (S l)) = true →
  NoDup (owned s (S l) n) → slot_update s s' (S l) n va (S l) n →
  updated s s' (S l) n va (S l) n.
Proof.
  intros Hl Hm Hnd [_ Hnode Hoth Hrest]. set (i0 := pte_index va (S l)) in *.
  assert (0 ≤ i0 < nr_subpage_per_huge) as Hi0 by (apply pte_index_range; lia).
  assert (∀ i, 0 ≤ i < nr_subpage_per_huge → i ≠ i0 → managed (S l) i = true →
    ∀ x, x ∈ slot_owned s (S l) n i → nodes s' !! x = nodes s !! x) as Hag.
  { intros i Hi Hne Hmi x Hx. destruct (nodup_slot s l n i Hnd Hi) as (_ & Hn & Hd).
    apply Hrest; [by eapply owned_slot_elem | by intros -> | by apply (Hd i0)]. }
  split; [done |]. split; [| split].
  - exists (n :: (filter (λ j, j ≠ i0) slots ≫= slot_owned s (S l) n)).
    split; [by apply owned_slot |]. rewrite (owned_slot s' l n i0) by done.
    apply Permutation_app; [done |]. constructor. apply reflexive_eq, Forall_bind_ext, Forall_forall.
    intros i [Hne Hi%slot_elem]%list_elem_of_filter.
    destruct (managed (S l) i) eqn:Hmi; [| unfold slot_owned; by rewrite Hmi].
    apply slot_agree; [done | done | by apply Hoth | by apply Hag].
  - intros v Hv. rewrite !trans_S. split.
    + intros Hs. by rewrite (Hs (S l)) by lia.
    + intros Hs. assert (pte_index v (S l) ≠ i0) as Hne.
      { intros He. apply Hs. intros j Hj. by replace j with (S l) by lia. }
      assert (0 ≤ pte_index v (S l) < nr_subpage_per_huge) as Hi by (apply pte_index_range; lia).
      destruct (slot_agree s s' l n (pte_index v (S l))) as (_ & _ & Ht & _);
        [done | done | by apply Hoth | by apply Hag |].
      rewrite (Hoth _ Hi Hne). apply Ht.
  - intros v j Hv Hj. cbn [descend]. destruct (Nat.eqb_spec (S l) j); [done |].
    destruct (decide (pte_index v (S l) = i0)) as [Heq|Hne].
    + destruct Hj as [Hj|Hj].
      * destruct (child_at s' _ _ _), (child_at s _ _ _); rewrite ?descend_above by lia; done.
      * exfalso. apply Hj. intros k Hk. by replace k with (S l) by lia.
    + assert (0 ≤ pte_index v (S l) < nr_subpage_per_huge) as Hi by (apply pte_index_range; lia).
      rewrite (Hoth _ Hi Hne). destruct (child_at s n (S l) (pte_index v (S l))) as [c| |] eqn:Hc; [| done | done].
      destruct (slot_agree s s' l n (pte_index v (S l))) as (_ & _ & _ & Hde);
        [done | done | by apply Hoth | by apply Hag | by apply Hde].
Qed.

Lemma slot_update_below s s' l n va t m c :
  (S l ≤ NR_LEVELS)%nat → managed (S l) (pte_index va (S l)) = true → (1 ≤ t < S l)%nat →
  NoDup (owned s (S l) n) → slot_update s s' (S l) n va t m →
  child_at s n (S l) (pte_index va (S l)) = ChPageTable c →
  slot_update s s' l c va t m ∧ NoDup (owned s l c) ∧ nodes s' !! n = nodes s !! n ∧
  (∀ i x, 0 ≤ i < nr_subpage_per_huge → i ≠ pte_index va (S l) →
     x ∈ slot_owned s (S l) n i → nodes s' !! x = nodes s !! x).
Proof.
  intros Hl Hm Ht Hnd [Hat Hnode Hoth Hrest] Hc.
  assert (0 ≤ pte_index va (S l) < nr_subpage_per_huge) as Hi0 by (apply pte_index_range; lia).
  destruct (nodup_slot s l n _ Hnd Hi0) as (Hndc & Hn & Hd).
  assert (slot_owned s (S l) n (pte_index va (S l)) = owned s l c) as Hso.
  { unfold slot_owned. rewrite Hm, Hc. simpl. by rewrite Nat.sub_0_r. }
  cbn [descend] in Hat. destruct (Nat.eqb_spec (S l) t); [lia |]. rewrite Hc in Hat.
  destruct (descend_owned s l c va t m) as (Hmc & _ & _ & Hsub); [lia | apply managed_low; lia | lia | done |].
  specialize (Hsub (pte_index va t) ltac:(apply pte_index_range; lia)).
  rewrite Hso in *. split; [| split; [done |]].
  - constructor; [done | done | done |]. intros x Hx. apply Hrest.
    apply (owned_slot_elem s l n _ x Hi0). by rewrite Hso.
  - split.
    + apply Hrest; [rewrite owned_S; set_solver | by intros -> | set_solver].
    + intros i x Hi Hne Hx. destruct (nodup_slot s l n i Hnd Hi) as (_ & _ & Hd').
      specialize (Hd' _ x Hi0 ltac:(done) Hx). rewrite Hso in Hd'.
      apply Hrest; [by eapply owned_slot_elem | by intros -> | set_solver].
Qed.

(** Changing one slot of a page table changes exactly the translation of the
    addresses of that slot. *)
Lemma slot_update_spec s s' l n va t m :
  (l ≤ NR_LEVELS)%nat → (1 ≤ t)%nat → managed l (pte_index va l) = true →
  tree_ok s l n → NoDup (owned s l n) → slot_update s s' l n va t m →
  updated s s' l n va t m.
Proof.
  intros Hl Ht. revert n Hl. induction l as [|l IH]; intros n Hl Hm Htree Hnd Hup; [done |].
  pose proof (up_at _ _ _ _ _ _ _ Hup) as Hat. cbn [descend] in Hat.
  destruct (Nat.eqb_spec (S l) t) as [<-|Hne].
  { injection Hat as <-. by apply updated_here. }
  set (i1 := pte_index va (S l)) in *.
  destruct (child_at s n (S l) i1) as [c| |] eqn:Hc; [| done | done].
  assert (0 ≤ i1 < nr_subpage_per_huge) as Hi1 by (apply pte_index_range; lia).
  destruct (descend_owned s l c va t m) as (_ & Hle & _); [lia | apply managed_low; lia | lia | done |].
  destruct (slot_update_below s s' l n va t m c) as (Hupc & Hndc & Hn & Hoth); try done; [lia |].
  apply tree_ok_S in Htree as [Hnok Hch]. pose proof (Hch i1 Hi1 Hm) as Hcok.
  rewrite Hc in Hcok. simpl in Hcok. rewrite Nat.sub_0_r in Hcok.
  destruct (IH c) as (I1 & (rest & I2 & I2') & I3 & I4); [lia | apply managed_low; lia | done.. |].
  assert (∀ i, child_at s' n (S l) i = child_at s n (S l) i) as Hca by (intros; by apply child_at_agree).
  split; [| split; [| split]].
  - apply tree_ok_S. split; [by apply (node_ok_agree s) |]. intros i Hi Hmi. rewrite Hca.
    destruct (decide (i = i1)) as [->|Hni]; [rewrite Hc; simpl; by rewrite Nat.sub_0_r |].
    destruct (slot_agree s s' l n i) as (_ & Hok & _); [done | done | done | by eauto |].
    by apply Hok, Hch.
  - exists (rest ++ n :: (filter (λ j, j ≠ i1) slots ≫= slot_owned s (S l) n)).
    assert (∀ s0, child_at s0 n (S l) i1 = ChPageTable c →
      slot_owned s0 (S l) n i1 = owned s0 l c) as Hso.
    { intros s0 Hc0. unfold slot_owned. rewrite Hm, Hc0. simpl. by rewrite Nat.sub_0_r. }
    rewrite (owned_slot s l n i1 Hi1), (owned_slot s' l n i1 Hi1).
    rewrite !Hso by (by rewrite ?Hca). rewrite !(assoc_L (++)), <- I2, <- I2'. split; [done |].
    apply Permutation_app; [done |]. constructor. apply reflexive_eq, Forall_bind_ext, Forall_forall.
    intros i [Hni Hi%slot_elem]%list_elem_of_filter.
    destruct (managed (S l) i) eqn:Hmi; [| unfold slot_owned; by rewrite Hmi].
    apply slot_agree; [done | done | done | by eauto].
  - intros v Hv. rewrite !trans_S, Hca.
    destruct (decide (pte_index v (S l) = i1)) as [Heq|Hni].
    + rewrite Heq, Hc. simpl. rewrite Nat.sub_0_r.
      destruct (I3 v) as [J1 J2]; [apply managed_low; lia |]. split.
      * intros Hs. apply J1. intros j Hj. apply Hs. lia.
      * intros Hs. apply J2. intros Hs'. apply Hs. intros j Hj.
        destruct (decide (j = S l)) as [->|]; [done | apply Hs'; lia].
    + split; [intros Hs; exfalso; apply Hni, (Hs (S l)); lia |]. intros _.
      destruct (slot_agree s s' l n (pte_index v (S l))) as (_ & _ & Htr & _);
        [done | done | done | | apply Htr].
      intros x. apply Hoth; [apply pte_index_range; lia | done].
  - intros v j Hv Hj. cbn [descend]. destruct (Nat.eqb_spec (S l) j); [done |]. rewrite Hca.
    destruct (decide (pte_index v (S l) = i1)) as [Heq|Hni].
    + rewrite Heq, Hc. apply I4; [apply managed_low; lia |]. destruct Hj as [|Hj]; [by left | right].
      intros Hs. apply Hj. intros k Hk. destruct (decide (k = S l)) as [->|]; [done | apply Hs; lia].
    + destruct (child_at s n (S l) (pte_index v (S l))) as [c'| |] eqn:Hc'; [| done | done].
      destruct (slot_agree s s' l n (pte_index v (S l))) as (_ & _ & _ & Hde);
        [done | done | done | | by apply Hde].
      intros x. apply Hoth; [apply pte_index_range; lia | done].
Qed.

(** *** Writing one entry *)

Definition present (c : Child P) : Z := if child_is_none c then 0 else 1.

(** [s'] has at [m] the node of [s] with the entry [i] replaced by [pte] and the
    count of children adjusted. *)
Definition entry_written (s s' : Store E) (t : nat) (m i : Z) (pte : E) : Prop :=
  ∃ nd, nodes s !! m = Some nd ∧
    nodes s' !! m = Some (mkNode (level nd)
      (nr_children nd - present (child_at s m t i) + present (from_pte pte t))
      (stray nd) (lock nd) (<[Z.to_nat i := pte]> (ptes nd))).

Lemma entry_written_child s s' t m i pte :
  node_ok s t m → 0 ≤ i < nr_subpage_per_huge → entry_written s s' t m i pte →
  child_at s' m t i = from_pte pte t ∧
  ∀ j, 0 ≤ j < nr_subpage_per_huge → j ≠ i → child_at s' m t j = child_at s m t j.
Proof.
  intros (nd0 & H0 & _ & Hlen & _) Hi (nd & H1 & H2). rewrite H0 in H1. injection H1 as ->.
  unfold child_at. rewrite H0, H2. cbn [ptes]. split.
  - rewrite list_lookup_insert_eq by lia. done.
  - intros j Hj Hne. rewrite list_lookup_insert_ne by lia. done.
Qed.

Lemma count_change (f g : Z → bool) i (l : list Z) :
  NoDup l → i ∈ l → (∀ j, j ∈ l → j ≠ i → f j = g j) →
  Z.of_nat (length (filter (λ j, f j = true) l)) + (if g i then 1 else 0) =
  Z.of_nat (length (filter (λ j, g j = true) l)) + (if f i then 1 else 0).
Proof.
  induction l as [|x l IH]; [set_solver |]. intros [Hx Hnd]%NoDup_cons Hi Hfg.
  rewrite !filter_cons. destruct (decide (x = i)) as [->|Hne].
  - assert (length (filter (λ j, f j = true) l) = length (filter (λ j, g j = true) l)) as Heq.
    { clear IH Hi. induction l as [|y l IH]; [done |]. rewrite !filter_cons.
      apply NoDup_cons in Hnd as [Hy Hnd]. rewrite (Hfg y) by set_solver.
      assert (length (filter (λ j, f j = true) l) = length (filter (λ j, g j = true) l)) as E'.
      { apply IH; set_solver. }
      destruct (decide (g y = true)); simpl; congruence. }
    destruct (f i), (g i); repeat destruct (decide _); simpl; try done; lia.
  - rewrite (Hfg x) by set_solver. assert (i ∈ l) as Hil by set_solver.
    assert (Z.of_nat (length (filter (λ j, f j = true) l)) + (if g i then 1 else 0) =
            Z.of_nat (length (filter (λ j, g j = true) l)) + (if f i then 1 else 0)) as E'.
    { apply IH; set_solver. }
    destruct (decide (g x = true)); simpl; lia.
Qed.

Lemma entry_written_node s s' t m i pte :
  node_ok s t m → 0 ≤ i < nr_subpage_per_huge → managed t i = true →
  entry_written s s' t m i pte → node_ok s' t m.
Proof.
  intros Hok Hi Hm Hw. destruct (entry_written_child s s' t m i pte Hok Hi Hw) as [Hci Hcj].
  destruct Hok as (nd0 & H0 & Hl & Hlen & Hst & Hnr & Ha). destruct Hw as (nd & H1 & H2).
  rewrite H0 in H1. injection H1 as ->. eexists. split; [done |]. cbn [level ptes stray nr_children].
  rewrite length_insert. split_and!; try done. rewrite Hnr. unfold present_count, present.
  pose proof (count_change (λ j, managed t j && negb (child_is_none (child_at s' m t j)))
    (λ j, managed t j && negb (child_is_none (child_at s m t j))) i slots slots_nodup) as Hc.
  cbv beta in Hc. rewrite Hm, Hci, !andb_true_l in Hc.
  assert (∀ b : bool, (if negb b then 1 else 0) = (if b then 0 else 1)) as Hb by (by intros []).
  rewrite !Hb in Hc. specialize (Hc (proj2 (slot_elem i) Hi)).
  assert (∀ j, j ∈ slots → j ≠ i → managed t j && negb (child_is_none (child_at s' m t j)) =
    managed t j && negb (child_is_none (child_at s m t j))) as Hj.
  { intros j Hj%slot_elem Hne. by rewrite Hcj. }
  specialize (Hc Hj). lia.
Qed.

(** From an entry write to a slot update. *)
Lemma entry_written_update s s' l n va t m pte :
  (l ≤ NR_LEVELS)%nat → (1 ≤ t)%nat → managed l (pte_index va l) = true →
  NoDup (owned s l n) → tree_ok s l n → descend s l n va t = Some m →
  tree_ok s t m → NoDup (owned s t m) →
  entry_written s s' t m (pte_index va t) pte → child_ok s' t (from_pte pte t) →
  (∀ x, x ∈ owned s l n → x ≠ m → x ∉ slot_owned s t m (pte_index va t) →
     nodes s' !! x = nodes s !! x) →
  slot_update s s' l n va t m ∧ child_at s' m t (pte_index va t) = from_pte pte t.
Proof.
  intros Hl Ht Hm Hnd Htree Hd Htm Hndm Hw Hcok Hag. destruct t as [|t]; [lia |].
  destruct (descend_owned s l n va (S t) m) as (_ & Htl & Hmt & Hsub); try done.
  assert (0 ≤ pte_index va (S t) < nr_subpage_per_huge) as Hi by (apply pte_index_range; lia).
  apply tree_ok_S in Htm as [Hok Hch].
  destruct (entry_written_child s s' _ m _ pte Hok Hi Hw) as [Hci Hcj].
  split; [| done]. constructor; [done | | done | done].
  apply tree_ok_S. split; [by eapply entry_written_node |]. intros i Hir Hmi.
  destruct (decide (i = pte_index va (S t))) as [->|Hne]; [by rewrite Hci |].
  rewrite Hcj by done. destruct (slot_agree s s' t m i) as (_ & Hok' & _);
    [lia | done | by apply Hcj | | by apply Hok', Hch].
  intros x Hx. destruct (nodup_slot s t m i Hndm Hir) as (_ & Hn & Hdis).
  apply Hag; [by apply (Hsub i) | by intros -> | by apply (Hdis (pte_index va (S t)))].
Qed.

(** *** Steps of a whole page table *)

Definition lock_of (s : Store E) (x : Z) : bool :=
  match nodes s !! x with Some nd => lock nd | None => false end.

(** The slot of [va] at level [t], in the node [m], becomes [c]; new nodes are
    locked and nothing else changes. *)
Record pt_step (s s' : Store E) (root va : Z) (t : nat) (m : Z) (c : Child P) : Prop := mkStep {
  ps_ok : pt_ok s' root;
  ps_child : child_at s' m t (pte_index va t) = c;
  ps_in : ∀ v, managed NR_LEVELS (pte_index v NR_LEVELS) = true → same_slots NR_LEVELS t va v →
    trans s' NR_LEVELS root v = child_trans s' t c v;
  ps_out : ∀ v, managed NR_LEVELS (pte_index v NR_LEVELS) = true → ¬ same_slots NR_LEVELS t va v →
    trans s' NR_LEVELS root v = trans s NR_LEVELS root v;
  ps_descend : ∀ v j, managed NR_LEVELS (pte_index v NR_LEVELS) = true →
    (t ≤ j)%nat ∨ ¬ same_slots NR_LEVELS t va v →
    descend s' NR_LEVELS root v j = descend s NR_LEVELS root v j;
  ps_locks : ∀ x, x ∈ owned s' NR_LEVELS root →
    (x ∈ owned s NR_LEVELS root → lock_of s' x = lock_of s x) ∧
    (x ∉ owned s NR_LEVELS root → lock_of s' x = true);
  ps_owned : ∀ x, x ∈ owned s' NR_LEVELS root → x ∉ slot_owned s t m (pte_index va t);
  ps_new : ∀ x, x ∈ slot_owned s' t m (pte_index va t) → x ∉ owned s NR_LEVELS root;
  ps_old : ∀ x, x ∈ owned s' NR_LEVELS root → x ∉ owned s NR_LEVELS root →
    x ∈ slot_owned s' t m (pte_index va t)
}.

Lemma pt_step_intro s s' root va t m pte :
  pt_ok s root → managed NR_LEVELS (pte_index va NR_LEVELS) = true → (1 ≤ t)%nat →
  descend s NR_LEVELS root va t = Some m →
  entry_written s s' t m (pte_index va t) pte → child_ok s' t (from_pte pte t) →
  (∀ x, x ∈ owned s NR_LEVELS root → x ≠ m → x ∉ slot_owned s t m (pte_index va t) →
     nodes s' !! x = nodes s !! x) →
  child_owned s' (t - 1) (from_pte pte t) ++ pool s' = pool s →
  (∀ x, x ∈ child_owned s' (t - 1) (from_pte pte t) → lock_of s' x = true) →
  pt_step s s' root va t m (from_pte pte t).
Proof.
  intros [Htree Hnd Hpool] Hm Ht Hd Hw Hcok Hag Hp Hlk.
  apply NoDup_app in Hnd as Hnd'. destruct Hnd' as (Hndo & Hdis & Hndp).
  destruct (descend_tree s NR_LEVELS root va t m) as [Htm Hndm]; try done.
  destruct (descend_owned s NR_LEVELS root va t m) as (Hmo & _ & Hmt & Hsub); try done.
  destruct (entry_written_update s s' NR_LEVELS root va t m pte) as [Hup Hci]; try done.
  destruct (slot_update_spec s s' NR_LEVELS root va t m) as (U1 & (rest & U2 & U3) & U4 & U5); try done.
  assert (slot_owned s' t m (pte_index va t) = child_owned s' (t - 1) (from_pte pte t)) as Hso.
  { unfold slot_owned. by rewrite Hmt, Hci. }
  rewrite Hso in U3. constructor.
  - constructor; [done | | rewrite <- Hp in Hpool; by apply Forall_app in Hpool as [_ ?]].
    rewrite U3, <- (assoc_L (++)), (Permutation_app_comm rest), (assoc_L (++)), Hp.
    rewrite U2, <- (assoc_L (++)) in Hnd. apply NoDup_app in Hnd as (_ & _ & Hnd).
    by rewrite (Permutation_app_comm (pool s)).
  - done.
  - intros v Hv Hs. rewrite <- Hci. by apply U4.
  - intros v Hv Hs. by apply U4.
  - intros v j Hv Hj. by apply U5.
  - intros x Hx. rewrite U3 in Hx. apply elem_of_app in Hx as [Hx|Hx].
    + assert (x ∉ owned s NR_LEVELS root).
      { intros Hxo. apply (Hdis x Hxo). rewrite <- Hp. set_solver. }
      split; [done | by intros; apply Hlk].
    + assert (x ∈ owned s NR_LEVELS root) by (rewrite U2; set_solver). split; [intros _ | done].
      unfold lock_of. destruct (decide (x = m)) as [->|Hne].
      * destruct Hw as (nd & -> & ->). done.
      * rewrite Hag; [done | done | done |]. rewrite U2 in Hndo.
        apply NoDup_app in Hndo as (_ & Hdd & _). intros Hxs. by apply (Hdd x).
  - intros x Hx Hxs. assert (x ∈ owned s NR_LEVELS root) as Hxo by (rewrite U2; set_solver).
    rewrite U3 in Hx. apply elem_of_app in Hx as [Hx|Hx].
    + apply (Hdis x Hxo). rewrite <- Hp. set_solver.
    + rewrite U2 in Hndo. apply NoDup_app in Hndo as (_ & Hdd & _). by apply (Hdd x).
  - rewrite Hso. intros x Hx Hxo. apply (Hdis x Hxo). rewrite <- Hp. set_solver.
  - rewrite Hso. intros x Hx Hxo. rewrite U3 in Hx. apply elem_of_app in Hx as [|Hx]; [done |].
    exfalso. apply Hxo. rewrite U2. set_solver.
Qed.

Lemma entry_eq s t m i :
  node_ok s t m → 0 ≤ i < nr_subpage_per_huge →
  ∃ pte, entry s m i = Done (mkEntry pte i m) ∧ from_pte pte t = child_at s m t i ∧
    read_pte s m i = Done pte.
Proof.
  intros (nd & Hnd & _ & Hlen & _) Hi. unfold entry, read_pte, get_node, child_at. rewrite Hnd.
  destruct (lookup_lt_is_Some_2 (ptes nd) (Z.to_nat i)) as [pte Hp]; [lia |]. exists pte.
  cbn [unwrap mbind outcome_bind]. rewrite Hp.
  by destruct (Z.ltb_spec i nr_subpage_per_huge); [| lia].
Qed.

Lemma present_count_le s n l : Z.of_nat (present_count s n l) ≤ nr_subpage_per_huge.
Proof.
  unfold present_count. pose proof nr_pos. etransitivity.
  - apply inj_le, length_filter.
  - unfold slots. rewrite length_seqZ. lia.
Qed.

Lemma present_count_pos s n l i :
  0 ≤ i < nr_subpage_per_huge → managed l i = true → child_is_none (child_at s n l i) = false →
  (1 ≤ present_count s n l)%nat.
Proof.
  intros Hi Hm Hc. unfold present_count.
  assert (i ∈ filter (λ i, managed l i && negb (child_is_none (child_at s n l i)) = true) slots) as Hin.
  { apply list_elem_of_filter. rewrite Hm, Hc. split; [done | by apply slot_elem]. }
  destruct (filter _ _); [set_solver | simpl; lia].
Qed.

(** [into_pte] and [from_pte] are inverse on what a node may hold. *)
Lemma frame_into_pte t pa p :
  frame_ok t pa → prop_ok p →
  ∃ pte, into_pte (ChFrame pa t p) = Done pte ∧ from_pte pte t = ChFrame pa t p.
Proof.
  intros (H0 & H1 & H2 & H3) Hp. pose proof (page_size_pos t ltac:(lia)).
  destruct (page_law pa t p) as (e & E1 & E2 & E3 & E4 & E5); [lia | | done |].
  - etransitivity; [| done]. rewrite <- page_size_1. apply page_size_divide. lia.
  - exists e. split; [done |]. unfold from_pte. by rewrite E2, E3, E4, E5.
Qed.

Lemma table_into_pte t pa :
  addr_ok pa → from_pte (new_pt pa) t = ChPageTable pa.
Proof. intros [H1 H2]. unfold from_pte. destruct (pt_law pa t) as (-> & -> & ->); done. Qed.

Lemma absent_into_pte t : from_pte new_absent t = ChNone.
Proof. unfold from_pte. by rewrite absent_law. Qed.

(** The store after [Entry::replace] with a frame or nothing. *)
Lemma replace_eq s t m i pte c pte' :
  node_ok s t m → 0 ≤ i < nr_subpage_per_huge → managed t i = true → read_pte s m i = Done pte →
  from_pte pte t = child_at s m t i →
  into_pte c = Done pte' → from_pte pte' t = c →
  match c with ChPageTable _ => False | ChFrame _ l _ => l = t | ChNone => True end →
  ∃ s', replace s (mkEntry pte i m) c = Done (child_at s m t i, s') ∧
    entry_written s s' t m i pte' ∧ (∀ x, x ≠ m → nodes s' !! x = nodes s !! x) ∧ pool s' = pool s.
Proof.
  intros Hok Hi Hm Hr Hpte Hinto Hfrom Hkind.
  pose proof (present_count_le s m t) as Hle. pose proof nr_fits as Hfit.
  pose proof (present_count_pos s m t i Hi Hm) as Hpos.
  destruct Hok as (nd & Hnd & Hlv & Hlen & Hst & Hnr & Ha).
  unfold replace, entry_level, get_node. cbn [e_node e_pte e_idx]. rewrite Hnd.
  cbn [unwrap mbind outcome_bind]. rewrite Hlv, Hpte.
  assert (match c with
   | ChPageTable node => unwrap (nodes s !! node) ≫= λ nd, assert_that (S (level nd) =? t)%nat
   | ChFrame _ l _ => assert_that (l =? t)%nat
   | ChNone => Done tt
   end = Done tt) as ->.
  { destruct c; [done | subst; by rewrite Nat.eqb_refl | done]. }
  cbn [mbind outcome_bind]. set (d := present c - present (child_at s m t i)).
  assert ((if child_is_none (child_at s m t i) && negb (child_is_none c)
     then unwrap (checked_add 16 (nr_children nd) 1) ≫= λ v, set_nr_children s m v
     else if negb (child_is_none (child_at s m t i)) && child_is_none c
     then unwrap (checked_sub (nr_children nd) 1) ≫= λ v, set_nr_children s m v
     else Done s) = Done (if decide (d = 0) then s else
       set_node s m (mkNode t (nr_children nd + d) (stray nd) (lock nd) (ptes nd)))) as ->.
  { unfold set_nr_children, get_node, checked_add, checked_sub, d, present. rewrite Hnr, Hnd.
    destruct (child_is_none (child_at s m t i)) eqn:Ho, (child_is_none c); cbn; try done.
    - destruct (Z.ltb_spec (Z.of_nat (present_count s m t) + 1) (2 ^ 16)); [| lia].
      cbn. by rewrite Hlv.
    - specialize (Hpos eq_refl).
      destruct (Z.leb_spec 1 (Z.of_nat (present_count s m t))); [| lia]. cbn. rewrite Hlv.
      by replace (Z.of_nat (present_count s m t) - 1) with (Z.of_nat (present_count s m t) + -1) by lia. }
  cbn [mbind outcome_bind]. rewrite Hinto. cbn [mbind outcome_bind].
  unfold write_pte, get_node, entry_written. rewrite Hfrom.
  destruct (decide (d = 0)) as [Hd|Hd]; cbn [set_node nodes pool].
  - rewrite Hnd. cbn. eexists. split; [done |]. cbn. split_and!; [| | done].
    + exists nd. split; [done |]. rewrite lookup_insert_eq. do 2 f_equal. unfold d in Hd. lia.
    + intros x Hx. by rewrite lookup_insert_ne by done.
  - rewrite lookup_insert_eq. cbn. eexists. split; [done |]. cbn. split_and!; [| | done].
    + exists nd. split; [done |]. rewrite lookup_insert_eq, Hlv. do 2 f_equal. unfold d. lia.
    + intros x Hx. by rewrite !lookup_insert_ne by done.
Qed.

(** *** The entry operations on a page table *)

Lemma trans_descend s l n va t m v :
  (1 ≤ t)%nat → descend s l n va t = Some m → same_slots l t va v →
  trans s l n v = child_trans s t (child_at s m t (pte_index va t)) v.
Proof.
  intros Ht. revert n. induction l as [|l IH]; intros n; cbn [descend].
  - by destruct (Nat.eqb_spec 0 t); [lia |].
  - destruct (Nat.eqb_spec (S l) t) as [<-|Hne].
    + intros [= <-] Hs. rewrite trans_S. by rewrite (Hs (S l)) by lia.
    + destruct (child_at s n (S l) (pte_index va (S l))) as [c| |] eqn:Hc; [| done | done].
      intros Hd Hs. destruct (decide (l < t)%nat); [by rewrite descend_above in Hd |].
      rewrite trans_S, (Hs (S l)) by lia. rewrite Hc. simpl. rewrite Nat.sub_0_r.
      apply IH; [done |]. intros j Hj. apply Hs. lia.
Qed.

Lemma descend_child s l n va t m c :
  descend s l n va (S t) = Some m → child_at s m (S t) (pte_index va (S t)) = ChPageTable c →
  descend s l n va t = Some c.
Proof.
  revert n. induction l as [|l IH]; intros n; cbn [descend].
  - by destruct (Nat.eqb_spec 0 (S t)).
  - destruct (Nat.eqb_spec (S l) (S t)) as [[= <-]|Hne].
    + intros [= <-] Hc. destruct (Nat.eqb_spec (S l) l); [lia |]. rewrite Hc.
      destruct l; cbn [descend]; by rewrite Nat.eqb_refl.
    + destruct (child_at s n (S l) (pte_index va (S l))) as [c'| |]; [| done | done].
      intros Hd Hc. destruct (Nat.eqb_spec (S l) t) as [<-|]; [| by apply IH].
      by rewrite descend_above in Hd by lia.
Qed.

Section AtSlot.
Context (s : Store E) (root va : Z) (t : nat) (m : Z).
Hypotheses (Hpt : pt_ok s root) (Hm : managed NR_LEVELS (pte_index va NR_LEVELS) = true)
  (Ht : (1 ≤ t)%nat) (Hd : descend s NR_LEVELS root va t = Some m).

Lemma at_slot : tree_ok s t m ∧ NoDup (owned s t m) ∧ m ∈ owned s NR_LEVELS root ∧
  (t ≤ NR_LEVELS)%nat ∧ managed t (pte_index va t) = true ∧ node_ok s t m ∧
  0 ≤ pte_index va t < nr_subpage_per_huge ∧ child_ok s t (child_at s m t (pte_index va t)).
Proof.
  destruct Hpt as [Htree Hnd _]. apply NoDup_app in Hnd as (Hnd & _).
  destruct (descend_tree s NR_LEVELS root va t m) as [Htm Hndm]; try done.
  destruct (descend_owned s NR_LEVELS root va t m) as (Hmo & Htl & Hmt & _); try done.
  destruct t as [|t']; [lia |]. apply tree_ok_S in Htm as Htm'. destruct Htm' as [Hn Hc].
  pose proof (pte_index_range va (S t') ltac:(lia)). split_and!; auto; lia.
Qed.

Lemma entry_step : ∃ pte, entry s m (pte_index va t) = Done (mkEntry pte (pte_index va t) m) ∧
  from_pte pte t = child_at s m t (pte_index va t) ∧ read_pte s m (pte_index va t) = Done pte ∧
  to_ref s (mkEntry pte (pte_index va t) m) = Done (child_at s m t (pte_index va t)) ∧
  entry_level s (mkEntry pte (pte_index va t) m) = Done t.
Proof.
  destruct at_slot as (_ & _ & _ & _ & _ & Hok & Hi & _).
  destruct (entry_eq s t m _ Hok Hi) as (pte & E1 & E2 & E3). exists pte.
  destruct Hok as (nd & Hnd & Hlv & _). unfold to_ref, entry_level, get_node. cbn [e_node e_pte].
  rewrite Hnd. cbn. rewrite Hlv. split_and!; try done. by rewrite E2.
Qed.

(** [Entry::replace] with a frame or with nothing *)
Lemma replace_step pte c :
  entry s m (pte_index va t) = Done (mkEntry pte (pte_index va t) m) →
  c = ChNone ∨ (∃ pa p, c = ChFrame pa t p ∧ frame_ok t pa ∧ prop_ok p) →
  ∃ s', replace s (mkEntry pte (pte_index va t) m) c =
      Done (child_at s m t (pte_index va t), s') ∧
    pt_step s s' root va t m c ∧ pool s' = pool s ∧ ∀ x, x ≠ m → nodes s' !! x = nodes s !! x.
Proof.
  intros He Hc. destruct at_slot as (_ & _ & _ & _ & Hmt & Hok & Hi & _).
  destruct entry_step as (pte0 & E1 & E2 & E3 & _). rewrite He in E1. injection E1 as <-.
  assert (∃ pte', into_pte c = Done pte' ∧ from_pte pte' t = c) as (pte' & Hinto & Hfrom).
  { destruct Hc as [->|(pa & p & -> & Hf & Hp)].
    - exists new_absent. split; [done | apply absent_into_pte].
    - by apply frame_into_pte. }
  destruct (replace_eq s t m (pte_index va t) pte c pte') as (s' & R1 & R2 & R3 & R4); try done.
  { destruct Hc as [->|(pa & p & -> & _)]; done. }
  exists s'. split; [done |]. split; [| done]. rewrite <- Hfrom.
  apply pt_step_intro; try done; rewrite ?Hfrom.
  - destruct Hc as [->|(pa & p & -> & Hf & Hp)]; simpl; auto.
  - intros x _ Hx _. by apply R3.
  - destruct Hc as [->|(pa & p & -> & _)]; simpl; done.
  - destruct Hc as [->|(pa & p & -> & _)]; simpl; set_solver.
Qed.

End AtSlot.

(** *** New nodes *)

(** A freshly allocated and locked node. *)
Definition fresh_node (l : nat) : PtNode E :=
  mkNode l 0 false true (replicate (Z.to_nat nr_subpage_per_huge) new_absent).

Lemma node_alloc_lock s l new rest :
  pool s = new :: rest →
  ∃ s1, node_alloc s l = Done (new, s1) ∧
    node_lock s1 new = Done (mkStore (<[new := fresh_node l]> (nodes s)) rest).
Proof.
  intros Hp. unfold node_alloc. rewrite Hp. eexists. split; [done |].
  unfold node_lock, set_lock, get_node, set_node. cbn. rewrite lookup_insert_eq. cbn.
  by rewrite insert_insert_eq.
Qed.

Lemma fresh_child s l new i :
  nodes s !! new = Some (fresh_node l) → child_at s new l i = ChNone.
Proof.
  intros Hn. unfold child_at. rewrite Hn. cbn [ptes fresh_node].
  destruct (replicate _ _ !! _) as [e|] eqn:He; [| done].
  apply lookup_replicate in He as [-> _]. apply absent_into_pte.
Qed.

Lemma fresh_node_ok s l new :
  nodes s !! new = Some (fresh_node l) → addr_ok new → node_ok s l new.
Proof.
  intros Hn Ha. exists (fresh_node l). split; [done |]. cbn. rewrite length_replicate.
  pose proof nr_pos. split_and!; try done; [lia |]. unfold present_count.
  destruct (filter _ _) as [|x f] eqn:Hf; [done |].
  assert (x ∈ x :: f) as Hx by set_solver. rewrite <- Hf in Hx.
  apply list_elem_of_filter in Hx as [Hx _]. rewrite (fresh_child s l) in Hx by done.
  by rewrite andb_false_r in Hx.
Qed.

(** A node without tables below it. *)
Lemma flat_owned s l new :
  (∀ i, 0 ≤ i < nr_subpage_per_huge → ∀ c, child_at s new (S l) i ≠ ChPageTable c) →
  owned s (S l) new = [new].
Proof.
  intros Hflat. rewrite owned_S. f_equal.
  assert (∀ js : list Z, (∀ i, i ∈ js → 0 ≤ i < nr_subpage_per_huge) →
    js ≫= slot_owned s (S l) new = []) as Hnil.
  { intros js. induction js as [|i js IH]; intros His; [done |]. rewrite bind_cons, IH by set_solver.
    unfold slot_owned. specialize (Hflat i (His i ltac:(set_solver))).
    destruct (managed (S l) i); [| done]. destruct (child_at s new (S l) i); [naive_solver | done | done]. }
  apply Hnil. intros i. apply slot_elem.
Qed.

Lemma pool_fresh s root new rest :
  pt_ok s root → pool s = new :: rest → addr_ok new ∧ new ∉ owned s NR_LEVELS root.
Proof.
  intros [_ Hnd Hp] E1. rewrite E1 in *. apply Forall_cons in Hp as [Ha _]. split; [done |].
  apply NoDup_app in Hnd as (_ & Hd & _). intros Hn. apply (Hd new Hn). set_solver.
Qed.

(** Hanging a new table without children tables into a slot. *)
Lemma hang_table s s' root va t m new rest :
  pt_ok s root → managed NR_LEVELS (pte_index va NR_LEVELS) = true → (1 ≤ t)%nat →
  descend s NR_LEVELS root va (S t) = Some m → pool s = new :: rest → pool s' = rest →
  entry_written s s' (S t) m (pte_index va (S t)) (new_pt new) →
  (∀ x, x ∈ owned s NR_LEVELS root → x ≠ m → nodes s' !! x = nodes s !! x) →
  node_ok s' t new → lock_of s' new = true →
  (∀ i, 0 ≤ i < nr_subpage_per_huge → child_ok s' t (child_at s' new t i) ∧
     ∀ c, child_at s' new t i ≠ ChPageTable c) →
  pt_step s s' root va (S t) m (ChPageTable new) ∧
  (descend s' NR_LEVELS root va t = Some new ∧ slot_owned s' (S t) m (pte_index va (S t)) = [new]).
Proof.
  intros Hpt Hm Ht Hd Hp Hp' Hw Hag Hok Hlk Hflat.
  destruct (pool_fresh s root new rest Hpt Hp) as [Ha Hnew].
  destruct t as [|t]; [lia |].
  assert (owned s' (S t) new = [new]) as Hown by (apply flat_owned; intros i Hi; by apply Hflat).
  assert (tree_ok s' (S t) new) as Htree.
  { apply tree_ok_S. split; [done |]. intros i Hi _. by apply Hflat. }
  rewrite <- (table_into_pte (S (S t)) new) by done.
  assert (pt_step s s' root va (S (S t)) m (from_pte (new_pt new) (S (S t)))) as Hstep.
  { apply pt_step_intro; try done; rewrite ?table_into_pte by done; cbn [child_ok child_owned];
      replace (S (S t) - 1)%nat with (S t) by lia; rewrite ?Hown; try lia.
    - done.
    - intros x Hx Hne _. by apply Hag.
    - by rewrite Hp, Hp'.
    - intros x ->%list_elem_of_singleton. done. }
  split; [done |]. destruct Hstep as [_ Hc _ _ Hde _ _ _ _]. rewrite table_into_pte in Hc by done.
  split.
  - apply (descend_child s' NR_LEVELS root va (S t) m); [| done]. rewrite Hde; [done | done | left; lia].
  - unfold slot_owned. rewrite Hc. destruct (descend_owned s NR_LEVELS root va (S (S t)) m) as (_ & _ & Hmt & _);
      [done | done | lia | done |]. rewrite Hmt. cbn [child_owned]. by replace (S (S t) - 1)%nat with (S t) by lia.
Qed.

Lemma step_same_trans s s' root va t m c :
  (1 ≤ t)%nat → descend s NR_LEVELS root va t = Some m → pt_step s s' root va t m c →
  (∀ v, same_slots NR_LEVELS t va v →
     child_trans s' t c v = child_trans s t (child_at s m t (pte_index va t)) v) →
  ∀ v, managed NR_LEVELS (pte_index v NR_LEVELS) = true →
    trans s' NR_LEVELS root v = trans s NR_LEVELS root v.
Proof.
  intros Ht Hd Hst Heq v Hv. destruct (decide (same_slots NR_LEVELS t va v)) as [Hs|Hs].
  - rewrite (ps_in _ _ _ _ _ _ _ Hst v Hv Hs), (trans_descend s _ _ va t m v) by done. by apply Heq.
  - by apply (ps_out _ _ _ _ _ _ _ Hst).
Qed.

(** [Entry::alloc_if_none] on an empty slot *)
Lemma alloc_step s root va t m pte new rest :
  pt_ok s root → managed NR_LEVELS (pte_index va NR_LEVELS) = true → (1 ≤ t)%nat →
  descend s NR_LEVELS root va (S t) = Some m → pool s = new :: rest →
  child_at s m (S t) (pte_index va (S t)) = ChNone →
  entry s m (pte_index va (S t)) = Done (mkEntry pte (pte_index va (S t)) m) →
  ∃ s', alloc_if_none s (mkEntry pte (pte_index va (S t)) m) = Done (Some new, s') ∧
    pt_step s s' root va (S t) m (ChPageTable new) ∧ pool s' = rest ∧
    (descend s' NR_LEVELS root va t = Some new ∧ slot_owned s' (S t) m (pte_index va (S t)) = [new]) ∧
    ∀ v, managed NR_LEVELS (pte_index v NR_LEVELS) = true →
      trans s' NR_LEVELS root v = trans s NR_LEVELS root v.
Proof.
  intros Hpt Hm Ht Hd Hp Hnone He.
  destruct (at_slot s root va (S t) m) as (_ & _ & Hmo & _ & _ & Hok & Hi & _); try done; [lia |].
  destruct (entry_step s root va (S t) m) as (pte0 & E1 & E2 & E3 & _ & E5); try done; [lia |].
  rewrite He in E1. injection E1 as <-. destruct (pool_fresh s root new rest Hpt Hp) as [Ha Hnew].
  assert (new ≠ m) as Hne by (by intros ->).
  destruct (node_alloc_lock s t new rest Hp) as (s1 & A1 & A2).
  pose proof (present_count_le s m (S t)) as Hle. pose proof nr_fits as Hfit.
  pose proof Hok as (nd & Hnd & Hlv & Hlen & Hst & Hnr & _).
  unfold alloc_if_none. rewrite E5. cbn [mbind outcome_bind e_pte e_node e_idx].
  rewrite Hnone in E2. assert (is_present pte = false) as ->.
  { unfold from_pte in E2. destruct (is_present pte); [| done]. by destruct (is_last pte (S t)). }
  destruct (Nat.ltb_spec 1 (S t)); [| lia]. cbn [negb andb]. rewrite Nat.sub_succ, Nat.sub_0_r, A1.
  cbn [mbind outcome_bind]. rewrite A2. cbn [mbind outcome_bind into_pte].
  unfold write_pte, set_nr_children, get_node, set_node. cbn [nodes pool].
  rewrite lookup_insert_ne, Hnd by done. cbn. rewrite lookup_insert_eq. cbn. unfold checked_add.
  rewrite Hnr. destruct (Z.ltb_spec (Z.of_nat (present_count s m (S t)) + 1) (2 ^ 16)); [| lia].
  cbn. eexists. split; [done |]. cbn [nodes pool].
  set (s' := mkStore _ rest).
  assert (nodes s' !! new = Some (fresh_node t)) as Hfr.
  { unfold s'. cbn. rewrite !lookup_insert_ne by done. by rewrite lookup_insert_eq. }
  destruct (hang_table s s' root va t m new rest) as [Hstep Hdn]; try done.
  - exists nd. split; [done |]. unfold s'. cbn. rewrite lookup_insert_eq, Hnr, Hnone.
    unfold present. rewrite table_into_pte by done. cbn. do 2 f_equal. lia.
  - intros x Hx Hxm. unfold s'. cbn. rewrite !lookup_insert_ne by (done || by intros ->). done.
  - by apply fresh_node_ok.
  - unfold lock_of. by rewrite Hfr.
  - intros i _. rewrite (fresh_child s' t) by done. done.
  - split; [done |]. split; [done |]. split; [done |].
    apply (step_same_trans s s' root va (S t) m (ChPageTable new)); [lia | done | done |].
    intros v _. rewrite Hnone. cbn [child_trans]. rewrite Nat.sub_succ, Nat.sub_0_r.
    destruct t as [|t]; [lia |]. rewrite trans_S. by rewrite (fresh_child s' (S t)).
Qed.

(** *** Splitting a huge page *)

Lemma split_frame_ok t pa i :
  (1 ≤ t)%nat → frame_ok (S t) pa → 0 ≤ i < nr_subpage_per_huge →
  frame_ok t (pa + i * page_size t).
Proof.
  intros Ht (H0 & H1 & H2 & H3) Hi. pose proof (page_size_pos t Ht) as Hp.
  rewrite page_size_S in * by done. unfold frame_ok. split; [nia |]. split; [nia |].
  split; [| lia]. apply Z.divide_add_r; [| apply Z.divide_factor_r].
  etransitivity; [| exact H2]. apply Z.divide_factor_r.
Qed.

Lemma split_loop_exact t new pa p n : ∀ i s,
  (1 ≤ t < NR_LEVELS)%nat → i + Z.of_nat n = nr_subpage_per_huge → 0 ≤ i →
  frame_ok (S t) pa → prop_ok p → node_ok s t new →
  (∀ j, 0 ≤ j < nr_subpage_per_huge → child_at s new t j =
     if decide (j < i) then ChFrame (pa + j * page_size t) t p else ChNone) →
  ∃ s', split_loop n s new pa (S t) p i = Done s' ∧ node_ok s' t new ∧
    (∀ j, 0 ≤ j < nr_subpage_per_huge →
       child_at s' new t j = ChFrame (pa + j * page_size t) t p) ∧
    (∀ x, x ≠ new → nodes s' !! x = nodes s !! x) ∧ pool s' = pool s ∧
    lock_of s' new = lock_of s new.
Proof.
  induction n as [|n IH]; intros i s Ht Hin Hi Hf Hp Hok Hch.
  - exists s. split; [done |]. split; [done |]. split; [| done].
    intros j Hj. rewrite Hch by done. by destruct (decide (j < i)); [| lia].
  - assert (0 ≤ i < nr_subpage_per_huge) as Hir by lia. cbn [split_loop].
    rewrite Nat.sub_succ, Nat.sub_0_r.
    destruct (entry_eq s t new i Hok Hir) as (pte & -> & E2 & E3). cbn [mbind outcome_bind].
    pose proof (split_frame_ok t pa i ltac:(lia) Hf Hir) as Hfi.
    destruct (frame_into_pte t (pa + i * page_size t) p Hfi Hp) as (pte' & F1 & F2).
    destruct (replace_eq s t new i pte (ChFrame (pa + i * page_size t) t p) pte')
      as (s1 & -> & R2 & R3 & R4); try done; [apply managed_low; lia |]. cbn [mbind outcome_bind].
    destruct (entry_written_child s s1 t new i pte' Hok Hir R2) as [Hci Hcj].
    destruct (IH (i + 1) s1) as (s' & L1 & L2 & L3 & L4 & L5 & L6); try done; [lia | lia | | |].
    + eapply entry_written_node; [done | done | apply managed_low; lia | done].
    + intros j Hj. destruct (decide (j = i)) as [->|Hne].
      * rewrite Hci, F2. by destruct (decide (i < i + 1)); [| lia].
      * rewrite Hcj, Hch by done. destruct (decide (j < i)), (decide (j < i + 1)); try done; lia.
    + exists s'. split_and!; try done.
      * intros x Hx. by rewrite L4, R3.
      * congruence.
      * rewrite L6. destruct R2 as (nd & N1 & N2). unfold lock_of. by rewrite N1, N2.
Qed.

(** [Entry::split_if_mapped_huge] on a huge page *)
Lemma split_step s root va t m pte new rest pa l p :
  pt_ok s root → managed NR_LEVELS (pte_index va NR_LEVELS) = true → (1 ≤ t)%nat →
  descend s NR_LEVELS root va (S t) = Some m → pool s = new :: rest →
  child_at s m (S t) (pte_index va (S t)) = ChFrame pa l p →
  entry s m (pte_index va (S t)) = Done (mkEntry pte (pte_index va (S t)) m) →
  ∃ s', split_if_mapped_huge s (mkEntry pte (pte_index va (S t)) m) = Done (Some new, s') ∧
    pt_step s s' root va (S t) m (ChPageTable new) ∧ pool s' = rest ∧
    (descend s' NR_LEVELS root va t = Some new ∧ slot_owned s' (S t) m (pte_index va (S t)) = [new]) ∧
    (∀ i, 0 ≤ i < nr_subpage_per_huge →
       child_at s' new t i = ChFrame (pa + i * page_size t) t p) ∧
    ∀ v, managed NR_LEVELS (pte_index v NR_LEVELS) = true →
      trans s' NR_LEVELS root v = trans s NR_LEVELS root v.
Proof.
  intros Hpt Hm Ht Hd Hp Hfr He.
  destruct (at_slot s root va (S t) m) as (_ & _ & Hmo & Htl & _ & Hok & Hi & Hcok); try done; [lia |].
  rewrite Hfr in Hcok. destruct Hcok as (-> & Hf & Hpr).
  destruct (entry_step s root va (S t) m) as (pte0 & E1 & E2 & E3 & _ & E5); try done; [lia |].
  rewrite He in E1. injection E1 as <-. destruct (pool_fresh s root new rest Hpt Hp) as [Ha Hnew].
  assert (new ≠ m) as Hne by (by intros ->).
  destruct (node_alloc_lock s t new rest Hp) as (s1 & A1 & A2).
  unfold split_if_mapped_huge. rewrite E5. cbn [mbind outcome_bind e_pte e_node e_idx].
  rewrite Hfr in E2. unfold from_pte in E2.
  destruct (is_present pte) eqn:Hpres; [| done]. destruct (is_last pte (S t)) eqn:Hlast; [| done].
  injection E2 as Hpa Hprop. destruct (Nat.ltb_spec 1 (S t)); [| lia].
  cbn [negb andb]. rewrite Nat.sub_succ, Nat.sub_0_r, A1.
  cbn [mbind outcome_bind]. rewrite A2. cbn [mbind outcome_bind].
  set (s2 := mkStore (<[new:=fresh_node t]> (nodes s)) rest) in *.
  assert (nodes s2 !! new = Some (fresh_node t)) as Hfresh by apply lookup_insert_eq.
  pose proof nr_pos as Hnr. rewrite Hpa, Hprop.
  destruct (split_loop_exact t new pa p (Z.to_nat nr_subpage_per_huge) 0 s2)
    as (s3 & -> & L2 & L3 & L4 & L5 & L6); try done; [lia | by apply fresh_node_ok | |].
  { intros j Hj. rewrite (fresh_child s2 t) by done. by destruct (decide (j < 0)); [lia |]. }
  cbn [mbind outcome_bind into_pte]. pose proof Hok as (nd & Hnd & Hlv & Hlen & Hst & Hnrc & _).
  unfold write_pte, get_node, set_node. rewrite L4 by done. unfold s2 at 1. cbn [nodes].
  rewrite lookup_insert_ne, Hnd by done. cbn. eexists. split; [done |]. cbn [pool]. rewrite L5.
  set (s' := mkStore _ (pool s2)).
  assert (∀ x, x ≠ m → nodes s' !! x = nodes s3 !! x) as Hs'.
  { intros x Hx. unfold s'. cbn. by rewrite lookup_insert_ne. }
  assert (∀ j, child_at s' new t j = child_at s3 new t j) as Hcn.
  { intros j. apply child_at_agree, Hs'. done. }
  destruct (hang_table s s' root va t m new rest) as [Hstep Hdn]; try done.
  - exists nd. split; [done |]. unfold s'. cbn. rewrite lookup_insert_eq, Hfr.
    unfold present. rewrite table_into_pte by done. cbn. do 2 f_equal. lia.
  - intros x Hx Hxm. rewrite Hs', L4 by (done || by intros ->). unfold s2. cbn.
    by rewrite lookup_insert_ne by (by intros ->).
  - apply (node_ok_agree s3); [by apply Hs' | done].
  - unfold lock_of. rewrite Hs' by done. unfold lock_of in L6. rewrite L6, Hfresh. done.
  - intros i Hir. rewrite Hcn, L3 by done. split; [| done]. split; [done |].
    split; [by apply split_frame_ok | done].
  - split; [done |]. split; [done |]. split; [done |].
    split; [intros i Hir; by rewrite Hcn, L3 |].
    apply (step_same_trans s s' root va (S t) m (ChPageTable new)); [lia | done | done |].
    intros v _. rewrite Hfr. cbn [child_trans]. rewrite Nat.sub_succ, Nat.sub_0_r.
    destruct t as [|t]; [lia |]. rewrite trans_S, Hcn, L3 by (apply pte_index_range; lia).
    cbn [child_trans]. rewrite (page_size_S (S t)) by lia. rewrite pte_index_eq by lia.
    pose proof (page_size_pos (S t) ltac:(lia)).
    rewrite (Z.mul_comm nr_subpage_per_huge), (Z.rem_mul_r v) by lia. do 2 f_equal. lia.
Qed.

(** [Entry::protect] on a mapped page *)
Lemma pt_step_refl s root va t m :
  pt_ok s root → (1 ≤ t)%nat → descend s NR_LEVELS root va t = Some m →
  (∀ pt, child_at s m t (pte_index va t) ≠ ChPageTable pt) →
  pt_step s s root va t m (child_at s m t (pte_index va t)).
Proof.
  intros Hpt Ht Hd Hch. assert (slot_owned s t m (pte_index va t) = []) as Hso.
  { unfold slot_owned, child_owned. destruct (managed t (pte_index va t)); [| done].
    destruct (child_at s m t (pte_index va t)) as [pt| |]; [by destruct (Hch pt) | done..]. }
  constructor; try done.
  - intros v Hv Hs. by apply trans_descend with (n := root).
  - intros x _. rewrite Hso. set_solver.
  - intros x. rewrite Hso. set_solver.
Qed.

Lemma protect_step `{EqDecision P} s root va t m pte pa l p (op : P → P) :
  pt_ok s root → managed NR_LEVELS (pte_index va NR_LEVELS) = true → (1 ≤ t)%nat →
  descend s NR_LEVELS root va t = Some m →
  child_at s m t (pte_index va t) = ChFrame pa l p → prop_ok (op p) →
  entry s m (pte_index va t) = Done (mkEntry pte (pte_index va t) m) →
  ∃ s', protect s (mkEntry pte (pte_index va t) m) op = Done s' ∧
    pt_step s s' root va t m (ChFrame pa t (op p)) ∧ pool s' = pool s ∧
    ∀ x, x ≠ m → nodes s' !! x = nodes s !! x.
Proof.
  intros Hpt Hm Ht Hd Hfr Hop He.
  destruct (at_slot s root va t m) as (_ & _ & Hmo & Htl & _ & Hok & Hi & Hcok); try done.
  destruct (entry_step s root va t m) as (pte0 & E1 & E2 & E3 & _ & E5); try done.
  rewrite He in E1. injection E1 as <-. rewrite Hfr in Hcok. destruct Hcok as (-> & Hf & Hpr).
  rewrite Hfr in E2. unfold from_pte in E2. unfold protect. cbn [e_pte e_node e_idx].
  destruct (is_present pte) eqn:Hpres; [| done]. destruct (is_last pte t) eqn:Hlast; [| done].
  injection E2 as Hpa Hprop. cbn [negb]. rewrite Hprop. case_bool_decide as Heq.
  - exists s. split; [done |]. split; [| done]. rewrite <- Heq.
    replace (ChFrame pa t p) with (child_at s m t (pte_index va t)).
    apply pt_step_refl; try done. by rewrite Hfr.
  - destruct (set_prop_law pte t (op p)) as (pte' & -> & S1 & S2 & S3 & S4); try done.
    cbn [mbind outcome_bind]. pose proof Hok as (nd & Hnd & Hlv & _).
    unfold write_pte, get_node, set_node. rewrite Hnd. cbn. eexists. split; [done |]. cbn.
    assert (from_pte pte' t = ChFrame pa t (op p)) as Hfrom.
    { unfold from_pte. by rewrite S1, S2, S3, Hpa, S4. }
    split; [| split; [done | intros x Hx; by rewrite lookup_insert_ne]].
    rewrite <- Hfrom. apply pt_step_intro; try done; rewrite ?Hfrom.
    + exists nd. split; [done |]. cbn. rewrite lookup_insert_eq, Hfr, Hfrom. cbn. do 2 f_equal. lia.
    + done.
    + intros x _ Hx _. cbn. by rewrite lookup_insert_ne.
    + done.
    + cbn. set_solver.
Qed.
End Trees.
