(* ===== verification/X86Pte.v ===== *)
(** * Page table entries of x86-64

    [osxtd/src/arch/x86/mm/mod.rs] (the entry format and the paging constants),
    [osxtd/src/mm/page_prop.rs] (page properties) and the constants of the user
    and kernel page tables. The entry format implements the interface of
    [PageTableNode]. *)

From S2P Require Import Prelude Align PageTableNode.
Local Open Scope Z_scope.

Module X86Pte.

(** ** Page properties *)

Inductive CachePolicy : Type :=
| Uncacheable | WriteCombining | WriteProtected | Writethrough | Writeback.

#[global] Instance CachePolicy_eq_dec : EqDecision CachePolicy.
Proof. solve_decision. Defined.

(** [PageFlags] and [PrivilegedPageFlags]: the bits of a [u8]. *)
Definition PF_R : Z := 0x01.
Definition PF_W : Z := 0x02.
Definition PF_X : Z := 0x04.
Definition PF_ACCESSED : Z := 0x08.
Definition PF_DIRTY : Z := 0x10.
Definition PF_AVAIL2 : Z := 0x80.
Definition PF_ALL : Z := 0x9F.
Definition PRIV_USER : Z := 0x01.
Definition PRIV_GLOBAL : Z := 0x02.
Definition PRIV_AVAIL1 : Z := 0x40.
Definition PRIV_ALL : Z := 0x43.

Record PageProperty : Type := mkProp { flags : Z; cache : CachePolicy; priv_flags : Z }.

#[global] Instance PageProperty_eq_dec : EqDecision PageProperty.
Proof. solve_decision. Defined.

(** [from_bits] of a flag type with the defined bits [all]. *)
Definition from_bits (all v : Z) : option Z := if Z.ldiff v all =? 0 then Some v else None.

(** ** Entries *)

Definition PRESENT : Z := 2 ^ 0.
Definition WRITABLE : Z := 2 ^ 1.
Definition USER : Z := 2 ^ 2.
Definition WRITE_THROUGH : Z := 2 ^ 3.
Definition NO_CACHE : Z := 2 ^ 4.
Definition ACCESSED : Z := 2 ^ 5.
Definition DIRTY : Z := 2 ^ 6.
Definition HUGE : Z := 2 ^ 7.
Definition GLOBAL : Z := 2 ^ 8.
Definition HIGH_IGN1 : Z := 2 ^ 52.
Definition HIGH_IGN2 : Z := 2 ^ 53.
Definition NO_EXECUTE : Z := 2 ^ 63.

Definition PHYS_ADDR_MASK : Z := 0xFFFFFFFFFF000.
Definition PROP_MASK : Z := Z.land (bit_not 64 PHYS_ADDR_MASK) (bit_not 64 HUGE).

(** [parse_flags!] *)
Definition parse_flags (val from to : Z) : Z :=
  Z.shiftl (Z.shiftr (Z.land val from) (Z.log2 from)) (Z.log2 to).

Definition PageTableEntry : Type := Z.

Definition x86_is_present (e : PageTableEntry) : bool :=
  negb (Z.land e PRESENT =? 0) || negb (Z.land e HUGE =? 0).

Definition x86_is_last (e : PageTableEntry) (level : nat) : bool := negb (Z.land e HUGE =? 0).

Definition x86_paddr (e : PageTableEntry) : Z := Z.land e PHYS_ADDR_MASK.

Definition x86_new_pt (paddr : Z) : PageTableEntry :=
  Z.lor (Z.land paddr PHYS_ADDR_MASK) (Z.lor (Z.lor PRESENT WRITABLE) USER).

Definition x86_prop (e : PageTableEntry) : outcome PageProperty :=
  let fl :=
    Z.lor (Z.lor (Z.lor (Z.lor (Z.lor
      (parse_flags e PRESENT PF_R)
      (parse_flags e WRITABLE PF_W))
      (parse_flags (bit_not 64 e) NO_EXECUTE PF_X))
      (parse_flags e ACCESSED PF_ACCESSED))
      (parse_flags e DIRTY PF_DIRTY))
      (parse_flags e HIGH_IGN2 PF_AVAIL2) in
  let priv :=
    Z.lor (Z.lor
      (parse_flags e USER PRIV_USER)
      (parse_flags e GLOBAL PRIV_GLOBAL))
      (parse_flags e HIGH_IGN1 PRIV_AVAIL1) in
  let cache :=
    if negb (Z.land e NO_CACHE =? 0) then Uncacheable
    else if negb (Z.land e WRITE_THROUGH =? 0) then Writethrough
    else Writeback in
  unwrap (from_bits PF_ALL (fl mod 2 ^ 8)) ≫= λ flags,
  unwrap (from_bits PRIV_ALL (priv mod 2 ^ 8)) ≫= λ priv,
  Done (mkProp flags cache priv).

Definition x86_set_prop (e : PageTableEntry) (prop : PageProperty) : outcome PageTableEntry :=
  if negb (x86_is_present e) then Done e
  else
    let fl :=
      Z.lor (Z.lor (Z.lor (Z.lor (Z.lor (Z.lor (Z.lor (Z.lor
        (parse_flags (flags prop) PF_R PRESENT)
        (parse_flags (flags prop) PF_W WRITABLE))
        (parse_flags (bit_not 8 (flags prop)) PF_X NO_EXECUTE))
        (parse_flags (flags prop) PF_ACCESSED ACCESSED))
        (parse_flags (flags prop) PF_DIRTY DIRTY))
        (parse_flags (priv_flags prop) PRIV_AVAIL1 HIGH_IGN1))
        (parse_flags (flags prop) PF_AVAIL2 HIGH_IGN2))
        (parse_flags (priv_flags prop) PRIV_USER USER))
        (parse_flags (priv_flags prop) PRIV_GLOBAL GLOBAL) in
    (match cache prop with
     | Writeback => Done fl
     | Writethrough => Done (Z.lor fl WRITE_THROUGH)
     | Uncacheable => Done (Z.lor fl NO_CACHE)
     | WriteCombining | WriteProtected => Panic
     end) ≫= λ fl,
    Done (Z.lor (Z.land e (bit_not 64 PROP_MASK)) fl).

Definition x86_new_page (paddr : Z) (level : nat) (prop : PageProperty) : outcome PageTableEntry :=
  x86_set_prop (Z.lor (Z.land paddr PHYS_ADDR_MASK) HUGE) prop.

(** ** The paging constants of the user and of the kernel page table *)

Definition user_consts : PagingConsts := {|
  BASE_PAGE_SIZE := 4096; PTE_SIZE := 8; NR_LEVELS := 4; HIGHEST_TRANSLATION_LEVEL := 2;
  ADDRESS_WIDTH := 48; VA_SIGN_EXT := true;
  TOP_LEVEL_INDEX_RANGE := (0, 256); TOP_LEVEL_CAN_UNMAP := true |}.

Definition kernel_consts : PagingConsts := {|
  BASE_PAGE_SIZE := 4096; PTE_SIZE := 8; NR_LEVELS := 4; HIGHEST_TRANSLATION_LEVEL := 2;
  ADDRESS_WIDTH := 48; VA_SIGN_EXT := true;
  TOP_LEVEL_INDEX_RANGE := (256, 512); TOP_LEVEL_CAN_UNMAP := false |}.

(** [pte.prop()] in the interface has no failure: [x86_prop_total] shows that
    the two [unwrap]s never fail. *)
Definition x86_prop_value (e : PageTableEntry) : PageProperty :=
  match x86_prop e with Done p => p | Panic => mkProp 0 Writeback 0 end.

#[global] Instance x86_pte_ops : PteOps PageTableEntry PageProperty := {|
  new_absent := 0; is_present := x86_is_present; new_page := x86_new_page; new_pt := x86_new_pt;
  pte_paddr := x86_paddr; pte_prop := x86_prop_value; set_prop := x86_set_prop;
  is_last := x86_is_last |}.

(** ** Bits *)

Lemma parse_flags_bit val a b :
  0 ≤ a → 0 ≤ b → parse_flags val (2 ^ a) (2 ^ b) = if Z.testbit val a then 2 ^ b else 0.
Proof.
  intros Ha Hb. unfold parse_flags. rewrite !Z.log2_pow2 by done.
  apply Z.bits_inj'. intros n Hn. rewrite Z.shiftl_spec by done.
  destruct (Z.lt_ge_cases n b) as [Hlt|Hge].
  - rewrite Z.testbit_neg_r by lia. destruct (Z.testbit val a); [| by rewrite Z.bits_0].
    rewrite Z.pow2_bits_false by lia. done.
  - rewrite Z.shiftr_spec, Z.land_spec by lia. destruct (Z.eq_dec n b) as [->|Hne].
    + rewrite Z.sub_diag, Z.add_0_l, Z.pow2_bits_true by done. rewrite andb_true_r.
      destruct (Z.testbit val a); [by rewrite Z.pow2_bits_true | by rewrite Z.bits_0].
    + rewrite Z.pow2_bits_false by lia. rewrite andb_false_r.
      destruct (Z.testbit val a); [by rewrite Z.pow2_bits_false by lia | by rewrite Z.bits_0].
Qed.

Lemma flag_test e a : 0 ≤ a → negb (Z.land e (2 ^ a) =? 0) = Z.testbit e a.
Proof.
  intros Ha. destruct (Z.eqb_spec (Z.land e (2 ^ a)) 0) as [H0|H0]; simpl.
  - apply (f_equal (λ z, Z.testbit z a)) in H0.
    rewrite Z.land_spec, Z.pow2_bits_true, andb_true_r, Z.bits_0 in H0 by done. done.
  - destruct (Z.testbit e a) eqn:He; [done |]. exfalso. apply H0.
    apply Z.bits_inj'. intros n Hn. rewrite Z.land_spec, Z.bits_0.
    destruct (Z.eq_dec n a) as [->|]; [by rewrite He | by rewrite Z.pow2_bits_false, andb_false_r by lia].
Qed.

Lemma bit_if (b : bool) a n : 0 ≤ a → Z.testbit (if b then 2 ^ a else 0) n = b && (a =? n).
Proof.
  intros Ha. destruct b; [| by rewrite Z.bits_0]. rewrite Z.pow2_bits_eqb by done. done.
Qed.

Lemma bit_not_spec w e n : 0 ≤ n < w → Z.testbit (bit_not w e) n = negb (Z.testbit e n).
Proof.
  intros Hn. unfold bit_not. rewrite Z.ldiff_spec, Z.ones_spec_low by lia. done.
Qed.

(** The word of flags that a property turns into. *)
Definition prop_word (p : PageProperty) : Z :=
  let f := Z.testbit (flags p) in
  let q := Z.testbit (priv_flags p) in
  foldr Z.lor 0
    [(if f 0 then 2 ^ 0 else 0); (if f 1 then 2 ^ 1 else 0); (if negb (f 2) then 2 ^ 63 else 0);
     (if f 3 then 2 ^ 5 else 0); (if f 4 then 2 ^ 6 else 0); (if q 6 then 2 ^ 52 else 0);
     (if f 7 then 2 ^ 53 else 0); (if q 0 then 2 ^ 2 else 0); (if q 1 then 2 ^ 8 else 0);
     (if bool_decide (cache p = Writethrough) then 2 ^ 3 else 0);
     (if bool_decide (cache p = Uncacheable) then 2 ^ 4 else 0)].

Definition supported (c : CachePolicy) : bool :=
  match c with Writeback | Writethrough | Uncacheable => true | _ => false end.

(** The properties an entry can hold. *)
Definition x86_prop_ok (p : PageProperty) : Prop :=
  in_width 8 (flags p) ∧ from_bits PF_ALL (flags p) = Some (flags p) ∧
  in_width 8 (priv_flags p) ∧ from_bits PRIV_ALL (priv_flags p) = Some (priv_flags p) ∧
  supported (cache p) = true.

Lemma x86_is_present_bits e : x86_is_present e = Z.testbit e 0 || Z.testbit e 7.
Proof. unfold x86_is_present, PRESENT, HUGE. by rewrite !flag_test. Qed.

Lemma x86_is_last_bits e l : x86_is_last e l = Z.testbit e 7.
Proof. unfold x86_is_last, HUGE. by rewrite flag_test. Qed.

Lemma set_prop_eq e p :
  x86_is_present e = true → supported (cache p) = true →
  x86_set_prop e p = Done (Z.lor (Z.land e (bit_not 64 PROP_MASK)) (prop_word p)).
Proof.
  intros He Hc. unfold x86_set_prop. rewrite He. cbn [negb].
  change PF_R with (2 ^ 0). change PF_W with (2 ^ 1). change PF_X with (2 ^ 2).
  change PF_ACCESSED with (2 ^ 3). change PF_DIRTY with (2 ^ 4). change PF_AVAIL2 with (2 ^ 7).
  change PRIV_USER with (2 ^ 0). change PRIV_GLOBAL with (2 ^ 1). change PRIV_AVAIL1 with (2 ^ 6).
  unfold PRESENT, WRITABLE, NO_EXECUTE, ACCESSED, DIRTY, HIGH_IGN1, HIGH_IGN2, USER, GLOBAL.
  rewrite !parse_flags_bit by lia. rewrite bit_not_spec by lia.
  unfold prop_word, WRITE_THROUGH, NO_CACHE. cbn [foldr].
  destruct (cache p); try done; cbn [mbind outcome_bind]; do 2 f_equal;
    rewrite ?Z.lor_0_r, <- ?Z.lor_assoc; done.
Qed.

Lemma keep_bit e p n :
  0 ≤ n → Z.testbit (Z.lor (Z.land e (bit_not 64 PROP_MASK)) (prop_word p)) n =
  (Z.testbit e n && Z.testbit (bit_not 64 PROP_MASK) n) || Z.testbit (prop_word p) n.
Proof. intros. by rewrite Z.lor_spec, Z.land_spec. Qed.

Lemma prop_word_bit p n : Z.testbit (prop_word p) n =
  (Z.testbit (flags p) 0 && (0 =? n)) || ((Z.testbit (flags p) 1 && (1 =? n)) ||
  ((negb (Z.testbit (flags p) 2) && (63 =? n)) || ((Z.testbit (flags p) 3 && (5 =? n)) ||
  ((Z.testbit (flags p) 4 && (6 =? n)) || ((Z.testbit (priv_flags p) 6 && (52 =? n)) ||
  ((Z.testbit (flags p) 7 && (53 =? n)) || ((Z.testbit (priv_flags p) 0 && (2 =? n)) ||
  ((Z.testbit (priv_flags p) 1 && (8 =? n)) ||
  ((bool_decide (cache p = Writethrough) && (3 =? n)) ||
   (bool_decide (cache p = Uncacheable) && (4 =? n))))))))))).
Proof.
  unfold prop_word. cbn [foldr]. rewrite !Z.lor_spec, !bit_if by lia.
  by rewrite Z.bits_0, orb_false_r.
Qed.

(** The address part of an entry and its flags do not meet. *)
Lemma prop_word_addr p : Z.land (prop_word p) PHYS_ADDR_MASK = 0.
Proof.
  unfold prop_word. cbn [foldr]. rewrite !Z.land_lor_distr_l.
  repeat match goal with |- context [if ?b then _ else _] => destruct b end; done.
Qed.

Lemma keep_addr e p :
  x86_paddr (Z.lor (Z.land e (bit_not 64 PROP_MASK)) (prop_word p)) = x86_paddr e.
Proof.
  unfold x86_paddr. rewrite Z.land_lor_distr_l, prop_word_addr, Z.lor_0_r, <- Z.land_assoc. done.
Qed.

Lemma mask_addr pa : 0 ≤ pa < 2 ^ 52 → (4096 | pa) → Z.land pa PHYS_ADDR_MASK = pa.
Proof.
  intros Hpa [q ->]. change PHYS_ADDR_MASK with (Z.shiftl (Z.ones 40) 12).
  change 4096 with (2 ^ 12) in *. rewrite <- Z.shiftl_mul_pow2 by lia.
  rewrite <- Z.shiftl_land. rewrite Z.land_ones by lia. f_equal.
  apply Z.mod_small. lia.
Qed.

Definition recon (f : Z) : Z :=
  Z.lor (Z.lor (Z.lor (Z.lor (Z.lor (if Z.testbit f 0 then 2 ^ 0 else 0)
    (if Z.testbit f 1 then 2 ^ 1 else 0)) (if Z.testbit f 2 then 2 ^ 2 else 0))
    (if Z.testbit f 3 then 2 ^ 3 else 0)) (if Z.testbit f 4 then 2 ^ 4 else 0))
    (if Z.testbit f 7 then 2 ^ 7 else 0).
Definition recon_priv (f : Z) : Z :=
  Z.lor (Z.lor (if Z.testbit f 0 then 2 ^ 0 else 0) (if Z.testbit f 1 then 2 ^ 1 else 0))
    (if Z.testbit f 6 then 2 ^ 6 else 0).

Lemma recon_eq f : in_width 8 f → from_bits PF_ALL f = Some f → recon f = f.
Proof.
  intros Hw Hf. assert (forallb (λ f, negb (bool_decide (from_bits PF_ALL f = Some f)) || (recon f =? f))
    (seqZ 0 256) = true) as H by (vm_compute; reflexivity).
  rewrite forallb_forall in H. specialize (H f). apply Z.eqb_eq.
  rewrite <- list_elem_of_In, elem_of_seqZ in H. rewrite bool_decide_eq_true_2 in H by done.
  apply H. unfold in_width in Hw. lia.
Qed.

Lemma recon_priv_eq f : in_width 8 f → from_bits PRIV_ALL f = Some f → recon_priv f = f.
Proof.
  intros Hw Hf. assert (forallb (λ f, negb (bool_decide (from_bits PRIV_ALL f = Some f)) ||
    (recon_priv f =? f)) (seqZ 0 256) = true) as H by (vm_compute; reflexivity).
  rewrite forallb_forall in H. specialize (H f). apply Z.eqb_eq.
  rewrite <- list_elem_of_In, elem_of_seqZ in H. rewrite bool_decide_eq_true_2 in H by done.
  apply H. unfold in_width in Hw. lia.
Qed.

(** Reading the property back, as a function of the bits. *)
Definition pack_flags (r w x a d v : bool) : Z :=
  Z.lor (Z.lor (Z.lor (Z.lor (Z.lor (if r then 2 ^ 0 else 0) (if w then 2 ^ 1 else 0))
    (if x then 2 ^ 2 else 0)) (if a then 2 ^ 3 else 0)) (if d then 2 ^ 4 else 0))
    (if v then 2 ^ 7 else 0).
Definition pack_priv (u g a : bool) : Z :=
  Z.lor (Z.lor (if u then 2 ^ 0 else 0) (if g then 2 ^ 1 else 0)) (if a then 2 ^ 6 else 0).

Lemma x86_prop_bits e :
  x86_prop e = Done (mkProp
    (pack_flags (Z.testbit e 0) (Z.testbit e 1) (negb (Z.testbit e 63)) (Z.testbit e 5)
       (Z.testbit e 6) (Z.testbit e 53))
    (if Z.testbit e 4 then Uncacheable else if Z.testbit e 3 then Writethrough else Writeback)
    (pack_priv (Z.testbit e 2) (Z.testbit e 8) (Z.testbit e 52))).
Proof.
  unfold x86_prop.
  change PF_R with (2 ^ 0). change PF_W with (2 ^ 1). change PF_X with (2 ^ 2).
  change PF_ACCESSED with (2 ^ 3). change PF_DIRTY with (2 ^ 4). change PF_AVAIL2 with (2 ^ 7).
  change PRIV_USER with (2 ^ 0). change PRIV_GLOBAL with (2 ^ 1). change PRIV_AVAIL1 with (2 ^ 6).
  unfold PRESENT, WRITABLE, NO_EXECUTE, ACCESSED, DIRTY, HIGH_IGN1, HIGH_IGN2, USER, GLOBAL,
    NO_CACHE, WRITE_THROUGH.
  rewrite !parse_flags_bit, !flag_test by lia. rewrite bit_not_spec by lia.
  fold (pack_flags (Z.testbit e 0) (Z.testbit e 1) (negb (Z.testbit e 63)) (Z.testbit e 5)
       (Z.testbit e 6) (Z.testbit e 53)).
  fold (pack_priv (Z.testbit e 2) (Z.testbit e 8) (Z.testbit e 52)).
  assert (∀ r w x a d v, unwrap (from_bits PF_ALL (pack_flags r w x a d v mod 2 ^ 8)) =
    Done (pack_flags r w x a d v)) as -> by (by intros [] [] [] [] [] []).
  assert (∀ u g a, unwrap (from_bits PRIV_ALL (pack_priv u g a mod 2 ^ 8)) =
    Done (pack_priv u g a)) as -> by (by intros [] [] []).
  done.
Qed.

(** Reading the property of an entry never panics. *)
Lemma x86_prop_total e : x86_prop e = Done (x86_prop_value e).
Proof. unfold x86_prop_value. by rewrite x86_prop_bits. Qed.

(** The property that was put into an entry is read back. *)
Lemma prop_read_back e p :
  x86_prop_ok p → x86_prop (Z.lor (Z.land e (bit_not 64 PROP_MASK)) (prop_word p)) = Done p.
Proof.
  intros (W1 & F1 & W2 & F2 & Hc). rewrite x86_prop_bits, !keep_bit, !prop_word_bit by lia.
  cbn -[Z.testbit pack_flags pack_priv bool_decide bit_not PROP_MASK].
  change (Z.testbit (bit_not 64 PROP_MASK) 0) with false.
  change (Z.testbit (bit_not 64 PROP_MASK) 1) with false.
  change (Z.testbit (bit_not 64 PROP_MASK) 2) with false.
  change (Z.testbit (bit_not 64 PROP_MASK) 3) with false.
  change (Z.testbit (bit_not 64 PROP_MASK) 4) with false.
  change (Z.testbit (bit_not 64 PROP_MASK) 5) with false.
  change (Z.testbit (bit_not 64 PROP_MASK) 6) with false.
  change (Z.testbit (bit_not 64 PROP_MASK) 8) with false.
  change (Z.testbit (bit_not 64 PROP_MASK) 52) with false.
  change (Z.testbit (bit_not 64 PROP_MASK) 53) with false.
  change (Z.testbit (bit_not 64 PROP_MASK) 63) with false.
  rewrite ?andb_false_r, ?andb_true_r, ?orb_false_l, ?orb_false_r, ?negb_involutive.
  fold (recon (flags p)). fold (recon_priv (priv_flags p)).
  destruct p as [f c q]. cbn [flags priv_flags cache] in *. do 2 f_equal.
  - exact (recon_eq f W1 F1).
  - by destruct c.
  - exact (recon_priv_eq q W2 F2).
Qed.

(** Changing the property of a mapped page. *)
Lemma x86_set_prop_exact e l p :
  x86_is_last e l = true → x86_prop_ok p →
  ∃ e', x86_set_prop e p = Done e' ∧ x86_is_present e' = true ∧ x86_is_last e' l = true ∧
    x86_paddr e' = x86_paddr e ∧ x86_prop e' = Done p.
Proof.
  intros Hl Hp. rewrite x86_is_last_bits in Hl. eexists. split.
  - apply set_prop_eq; [| apply Hp]. rewrite x86_is_present_bits, Hl. apply orb_true_r.
  - assert (∀ l', x86_is_last (Z.lor (Z.land e (bit_not 64 PROP_MASK)) (prop_word p)) l' = true) as H7.
    { intros l'. rewrite x86_is_last_bits, keep_bit, Hl by lia. done. }
    split; [rewrite x86_is_present_bits, <- (x86_is_last_bits _ l), H7; apply orb_true_r |].
    split; [done |]. split; [apply keep_addr | by apply prop_read_back].
Qed.

Lemma x86_new_page_exact pa l p :
  0 ≤ pa < 2 ^ 52 → (4096 | pa) → x86_prop_ok p →
  ∃ e, x86_new_page pa l p = Done e ∧ x86_is_present e = true ∧ x86_is_last e l = true ∧
    x86_paddr e = pa ∧ x86_prop e = Done p.
Proof.
  intros Hpa Hal Hp. unfold x86_new_page. rewrite mask_addr by done.
  destruct (x86_set_prop_exact (Z.lor pa HUGE) l p) as (e & H1 & H2 & H3 & H4 & H5); [| done |].
  - rewrite x86_is_last_bits, Z.lor_spec. apply orb_true_r.
  - exists e. split_and!; try done. rewrite H4. unfold x86_paddr.
    rewrite Z.land_lor_distr_l, mask_addr by done. by rewrite Z.lor_0_r.
Qed.

Lemma x86_new_pt_exact pa l :
  0 ≤ pa < 2 ^ 52 → (4096 | pa) →
  x86_is_present (x86_new_pt pa) = true ∧ x86_is_last (x86_new_pt pa) l = false ∧
  x86_paddr (x86_new_pt pa) = pa.
Proof.
  intros Hpa Hal. unfold x86_new_pt. rewrite mask_addr by done. split_and!.
  - rewrite x86_is_present_bits, !Z.lor_spec. cbn. by rewrite !orb_true_r.
  - rewrite x86_is_last_bits, Z.lor_spec.
    assert (Z.testbit pa 7 = false) as ->; [| done].
    destruct Hal as [q ->]. change 4096 with (2 ^ 12). by rewrite Z.mul_pow2_bits_low.
  - unfold x86_paddr. rewrite Z.land_lor_distr_l, mask_addr by done. by rewrite Z.lor_0_r.
Qed.

(** ** The interface *)

(** Any page table with 4 KiB pages can use the format. *)
Definition x86_pte_laws `{PC : PagingConsts} (H : BASE_PAGE_SIZE = 4096) :
  @PteLaws PC PageTableEntry PageProperty x86_pte_ops.
Proof.
  refine {| PADDR_END := 2 ^ 52; prop_ok := x86_prop_ok |}; cbn; rewrite ?H.
  - done.
  - intros pa l p Hpa Hal Hp. destruct (x86_new_page_exact pa l p) as (e & H1 & H2 & H3 & H4 & H5);
      try done. exists e. split_and!; try done. unfold x86_prop_value. by rewrite H5.
  - intros pa l. apply x86_new_pt_exact.
  - intros e l p _ Hl Hp. destruct (x86_set_prop_exact e l p) as (e' & H1 & H2 & H3 & H4 & H5);
      try done. exists e'. split_and!; try done. unfold x86_prop_value. by rewrite H5.
Defined.

#[global] Instance user_pte_laws : @PteLaws user_consts _ _ x86_pte_ops :=
  x86_pte_laws (PC := user_consts) eq_refl.
#[global] Instance kernel_pte_laws : @PteLaws kernel_consts _ _ x86_pte_ops :=
  x86_pte_laws (PC := kernel_consts) eq_refl.

#[global] Instance user_laws : @PagingLaws user_consts.
Proof. split; cbn; unfold MAX_NR_LEVELS; done || lia. Qed.

#[global] Instance kernel_laws : @PagingLaws kernel_consts.
Proof. split; cbn; unfold MAX_NR_LEVELS; done || lia. Qed.

(** ** Properties *)

(** [C39] x86-64 page table entries. A page entry for any page-aligned physical
    address below [2 ^ 52] and any property with a supported cache policy is
    created without panic, is present and a leaf at every level, and gives back
    the address and the property; changing the property of a leaf keeps its
    address and gives back the new property; a table entry is present, is not a
    leaf, and gives back its address. Creating a page entry panics exactly for
    the unsupported cache policies. *)
Theorem x86_entry_roundtrip pa l p p' :
  0 ≤ pa < 2 ^ 52 → (4096 | pa) → x86_prop_ok p → x86_prop_ok p' →
  (∃ e e', x86_new_page pa l p = Done e ∧ x86_set_prop e p' = Done e' ∧
     x86_is_present e = true ∧ x86_is_last e l = true ∧ x86_paddr e = pa ∧ x86_prop e = Done p ∧
     x86_is_present e' = true ∧ x86_is_last e' l = true ∧ x86_paddr e' = pa ∧ x86_prop e' = Done p') ∧
  x86_is_present (x86_new_pt pa) = true ∧ x86_is_last (x86_new_pt pa) l = false ∧
  x86_paddr (x86_new_pt pa) = pa ∧
  ∀ c, x86_new_page pa l (mkProp (flags p) c (priv_flags p)) = Panic ↔ supported c = false.
Proof.
  intros Hpa Hal Hp Hp'. split.
  - destruct (x86_new_page_exact pa l p) as (e & H1 & H2 & H3 & H4 & H5); try done.
    destruct (x86_set_prop_exact e l p') as (e' & I1 & I2 & I3 & I4 & I5); try done.
    exists e, e'. split_and!; try done. congruence.
  - destruct (x86_new_pt_exact pa l) as (H1 & H2 & H3); try done. split_and!; try done.
    intros c. unfold x86_new_page. rewrite mask_addr by done.
    assert (x86_is_present (Z.lor pa HUGE) = true) as Hpr.
    { rewrite x86_is_present_bits, !Z.lor_spec. change (Z.testbit HUGE 7) with true.
      by rewrite !orb_true_r. }
    destruct (supported c) eqn:Hc.
    + rewrite set_prop_eq by done. done.
    + split; [done |]. intros _. unfold x86_set_prop. rewrite Hpr. by destruct c.
Qed.

Lemma x86_entry_roundtrip_witness :
  let p := mkProp 0x87 Writethrough 0x41 in
  let p' := mkProp 0x01 Writeback 0x03 in
  (∃ e e', x86_new_page 0xABCDE000 1 p = Done e ∧ x86_set_prop e p' = Done e' ∧
     x86_is_present e = true ∧ x86_is_last e 1 = true ∧ x86_paddr e = 0xABCDE000 ∧
     x86_prop e = Done p ∧ x86_is_present e' = true ∧ x86_is_last e' 1 = true ∧
     x86_paddr e' = 0xABCDE000 ∧ x86_prop e' = Done p') ∧
  x86_is_present (x86_new_pt 0xABCDE000) = true ∧ x86_is_last (x86_new_pt 0xABCDE000) 1 = false ∧
  x86_paddr (x86_new_pt 0xABCDE000) = 0xABCDE000 ∧
  ∀ c, x86_new_page 0xABCDE000 1 (mkProp (flags p) c (priv_flags p)) = Panic ↔ supported c = false.
Proof.
  apply (x86_entry_roundtrip 0xABCDE000 1 (mkProp 0x87 Writethrough 0x41) (mkProp 0x01 Writeback 0x03)).
  - lia.
  - exists 0xABCDE. reflexivity.
  - unfold x86_prop_ok, in_width. cbn. split_and!; reflexivity || lia.
  - unfold x86_prop_ok, in_width. cbn. split_and!; reflexivity || lia.
Defined.

End X86Pte.
