(* ===== verification/PageTableCursor.v ===== *)
(** * The page table cursor

    [osxtd/src/mm/page_table/cursor/{mod,locking}.rs] and the address ranges of
    [osxtd/src/mm/page_table/mod.rs]: creating a cursor over a range, moving it,
    querying, mapping, unmapping and protecting through it, dropping it. One
    cursor exists at a time. *)

From S2P Require Import Prelude Align PageTableNode.
Import Align.
Local Open Scope Z_scope.

Section Cursor.
Context `{PC : PagingConsts} {E P : Type} `{PO : PteOps E P} `{EqDecision P}.

(** What is mapped, [C::Item], with its conversions to and from an entry. *)
Context {Item : Type} (item_into_raw : Item → Z * nat * P) (item_from_raw : Z → nat → P → Item).

Record VRange : Type := mkRange { start : Z; end_ : Z }.

Record Cursor : Type := mkCursor {
  path : list (option Z);
  c_level : nat;
  guard_level : nat;
  va : Z;
  barrier_va : VRange
}.

Inductive PageTableFrag : Type :=
| FragMapped (va : Z) (item : Item)
| FragStray (pt va len num_frames : Z).

Inductive PageTableError : Type :=
| InvalidVaddrRange (a b : Z)
| InvalidVaddr (a : Z)
| UnalignedVaddr.

Definition set_va (c : Cursor) (v : Z) : Cursor :=
  mkCursor (path c) (c_level c) (guard_level c) v (barrier_va c).

(** ** Address ranges *)

(** [!0 ^ ((1 << C::ADDRESS_WIDTH) - 1)] *)
Definition sign_mask : Z := Z.lxor (2 ^ 64 - 1) (2 ^ ADDRESS_WIDTH - 1).
Definition sign_bit_of_va (v : Z) : bool :=
  negb (Z.land (Z.shiftr v (ADDRESS_WIDTH - 1)) 1 =? 0).
Definition pt_va_range_start : Z :=
  Z.shiftl TOP_LEVEL_INDEX_RANGE.1 (pte_index_bit_offset NR_LEVELS).
Definition pt_va_range_end : Z :=
  wrapping_sub 64 (Z.shiftl TOP_LEVEL_INDEX_RANGE.2 (pte_index_bit_offset NR_LEVELS)) 1.

(** [vaddr_range]: the first and the last managed address. *)
Definition vaddr_range : Z * Z :=
  if VA_SIGN_EXT && sign_bit_of_va pt_va_range_start
  then (Z.lor pt_va_range_start sign_mask, Z.lor pt_va_range_end sign_mask)
  else (pt_va_range_start, pt_va_range_end).

Definition is_valid_range (r : VRange) : outcome bool :=
  if (start r =? 0) && (end_ r =? 0) then Done true
  else if vaddr_range.1 <=? start r
  then unwrap (checked_sub (end_ r) 1) ≫= λ e, Done (e <=? vaddr_range.2)
  else Done false.

(** ** Locking *)

Definition dfs_get_idx_range (l : nat) (node_va : Z) (r : VRange) : Z * Z :=
  ((start r - node_va) / page_size l,
   (end_ r - node_va + (page_size l - 1)) / page_size l).

(** [for i in a..b] over a store. *)
Fixpoint for_range (n : nat) (i : Z) (f : Store E → Z → outcome (Store E)) (s : Store E)
  : outcome (Store E) :=
  match n with
  | O => Done s
  | S n => f s i ≫= for_range n (i + 1) f
  end.
Fixpoint for_range_rev (n : nat) (i : Z) (f : Store E → Z → outcome (Store E)) (s : Store E)
  : outcome (Store E) :=
  match n with
  | O => Done s
  | S n => for_range_rev n (i + 1) f s ≫= λ s, f s i
  end.

(** The part of [r] below the slot [i] of a node at [node_va], level [l]. *)
Definition child_range (l : nat) (node_va i : Z) (r : VRange) : VRange :=
  mkRange (Z.max (start r) (node_va + i * page_size l))
          (Z.min (end_ r) (node_va + i * page_size l + page_size l)).

(** [dfs_acquire_lock]; the recursion follows the levels. *)
Fixpoint dfs_acquire_lock (l : nat) (s : Store E) (n node_va : Z) (r : VRange)
  : outcome (Store E) :=
  match l with
  | O | S O => Done s
  | S l' =>
      let '(a, b) := dfs_get_idx_range l node_va r in
      for_range (Z.to_nat (b - a)) a (λ s i,
        entry s n i ≫= λ e, to_ref s e ≫= λ ch,
        match ch with
        | ChPageTable pt =>
            node_lock s pt ≫= λ s,
            dfs_acquire_lock l' s pt (node_va + i * page_size l) (child_range l node_va i r)
        | ChNone | ChFrame _ _ _ => Done s
        end) s
  end.

(** [dfs_release_lock]: the guard of [n] is dropped at the end. *)
Fixpoint dfs_release_lock (l : nat) (s : Store E) (n node_va : Z) (r : VRange)
  : outcome (Store E) :=
  match l with
  | O | S O => node_unlock s n
  | S l' =>
      let '(a, b) := dfs_get_idx_range l node_va r in
      for_range_rev (Z.to_nat (b - a)) a (λ s i,
        entry s n i ≫= λ e, to_ref s e ≫= λ ch,
        match ch with
        | ChPageTable pt =>
            dfs_release_lock l' s pt (node_va + i * page_size l) (child_range l node_va i r)
        | ChNone | ChFrame _ _ _ => Done s
        end) s ≫= λ s, node_unlock s n
  end.

(** The loop of [dfs_mark_stray_and_unlock] over the slots below [k], the highest
    first; [f] is the recursive call. *)
Fixpoint mark_children (f : Store E → Z → outcome (Z * Store E)) (k : nat) (n : Z) (s : Store E)
  : outcome (Z * Store E) :=
  match k with
  | O => Done (0, s)
  | S k =>
      entry s n (Z.of_nat k) ≫= λ e, to_ref s e ≫= λ ch,
      (match ch with
       | ChPageTable pt => f s pt
       | ChNone | ChFrame _ _ _ => Done (0, s)
       end) ≫= λ '(num, s),
      mark_children f k n s ≫= λ '(num', s), Done (num + num', s)
  end.

(** [dfs_mark_stray_and_unlock], with the number of frames. *)
Fixpoint dfs_mark_stray_and_unlock (l : nat) (s : Store E) (n : Z) : outcome (Z * Store E) :=
  set_stray s n true ≫= λ s,
  match l with
  | O | S O =>
      get_node s n ≫= λ nd, node_unlock s n ≫= λ s, Done (nr_children nd, s)
  | S l' =>
      mark_children (dfs_mark_stray_and_unlock l') (Z.to_nat nr_subpage_per_huge) n s
        ≫= λ '(num_frames, s),
      node_unlock s n ≫= λ s, Done (num_frames, s)
  end.

(** Dropping an optional guard. *)
Definition drop_guard (s : Store E) (g : option Z) : outcome (Store E) :=
  match g with Some n => node_unlock s n | None => Done s end.

(** After the loop of [try_traverse_and_lock_subtree_root]: take the guard and
    check that the node is attached. *)
Definition finish_traverse (s : Store E) (cur_pt_addr : Z) (cur_node_guard : option Z)
  : outcome (option Z * Store E) :=
  (match cur_node_guard with
   | Some g => Done (g, s)
   | None => node_lock s cur_pt_addr ≫= λ s, Done (cur_pt_addr, s)
   end) ≫= λ '(g, s),
  get_node s g ≫= λ nd,
  if stray nd then node_unlock s g ≫= λ s, Done (None, s) else Done (Some g, s).

(** The loop, from level [l] down. *)
Fixpoint traverse (l : nat) (s : Store E) (cur_pt_addr : Z) (cur_node_guard : option Z) (r : VRange)
  : outcome (option Z * Store E) :=
  match l with
  | O => finish_traverse s cur_pt_addr cur_node_guard
  | S l' =>
      let start_idx := pte_index (start r) l in
      let end_idx := pte_index (end_ r - 1) l in
      let level_too_high := (1 <? l)%nat && (start_idx =? end_idx) in
      if negb level_too_high then finish_traverse s cur_pt_addr cur_node_guard
      else
        read_pte s cur_pt_addr start_idx ≫= λ cur_pte,
        if is_present cur_pte then
          if is_last cur_pte l then finish_traverse s cur_pt_addr cur_node_guard
          else drop_guard s cur_node_guard ≫= λ s, traverse l' s (pte_paddr cur_pte) None r
        else
          (match cur_node_guard with
           | Some g => Done (g, s)
           | None => node_lock s cur_pt_addr ≫= λ s, Done (cur_pt_addr, s)
           end) ≫= λ '(pt_guard, s),
          get_node s pt_guard ≫= λ nd,
          if stray nd then node_unlock s pt_guard ≫= λ s, Done (None, s)
          else
            entry s pt_guard start_idx ≫= λ cur_entry,
            to_ref s cur_entry ≫= λ ch,
            match ch with
            | ChNone =>
                alloc_if_none s cur_entry ≫= λ '(a, s),
                unwrap a ≫= λ allocated,
                node_unlock s pt_guard ≫= λ s, traverse l' s allocated (Some allocated) r
            | ChPageTable pt => node_unlock s pt_guard ≫= λ s, traverse l' s pt None r
            | ChFrame _ _ _ => node_unlock s pt_guard ≫= λ s, finish_traverse s cur_pt_addr None
            end
  end.

(** The retry loop of [lock_range]. *)
Fixpoint lock_subtree_root (fuel : nat) (s : Store E) (root : Z) (r : VRange)
  : outcome (Z * Store E) :=
  match fuel with
  | O => Panic
  | S fuel =>
      traverse NR_LEVELS s root None r ≫= λ '(g, s),
      match g with Some g => Done (g, s) | None => lock_subtree_root fuel s root r end
  end.

Definition lock_range (fuel : nat) (s : Store E) (root : Z) (r : VRange)
  : outcome (Cursor * Store E) :=
  lock_subtree_root fuel s root r ≫= λ '(subtree_root, s),
  get_node s subtree_root ≫= λ nd,
  let gl := level nd in
  align_down 64 (start r) (page_size (S gl)) ≫= λ cur_node_va,
  dfs_acquire_lock gl s subtree_root cur_node_va r ≫= λ s,
  Done (mkCursor (<[(gl - 1)%nat := Some subtree_root]> (replicate MAX_NR_LEVELS None))
                 gl gl (start r) r, s).

(** [Cursor::new] *)
Definition cursor_new (fuel : nat) (s : Store E) (root : Z) (r : VRange)
  : outcome (result (Cursor * Store E) PageTableError) :=
  is_valid_range r ≫= λ ok,
  if negb ok || (end_ r <=? start r) then Done (RErr (InvalidVaddrRange (start r) (end_ r)))
  else if negb (start r mod BASE_PAGE_SIZE =? 0) || negb (end_ r mod BASE_PAGE_SIZE =? 0)
  then Done (RErr UnalignedVaddr)
  else lock_range fuel s root r ≫= λ cs, Done (ROk cs).

(** Dropping a cursor: [unlock_range]. *)
Definition unlock_range (c : Cursor) (s : Store E) : outcome (Store E) :=
  unwrap (path c !! (guard_level c - 1)%nat) ≫= λ g,
  unwrap g ≫= λ guard_node,
  align_down 64 (start (barrier_va c)) (page_size (S (guard_level c))) ≫= λ cur_node_va,
  dfs_release_lock (guard_level c) s guard_node cur_node_va (barrier_va c).

(** ** Moving *)

Definition pop_level (c : Cursor) : outcome Cursor :=
  unwrap (path c !! (c_level c - 1)%nat) ≫= λ g,
  unwrap g ≫= λ _,
  Done (mkCursor (<[(c_level c - 1)%nat := None]> (path c)) (S (c_level c)) (guard_level c)
                 (va c) (barrier_va c)).

Definition push_level (c : Cursor) (child_pt : Z) : outcome Cursor :=
  assert_that (2 <=? c_level c)%nat ≫= λ _,
  let l := (c_level c - 1)%nat in
  unwrap (path c !! (l - 1)%nat) ≫= λ _,
  Done (mkCursor (<[(l - 1)%nat := Some child_pt]> (path c)) l (guard_level c) (va c) (barrier_va c)).

Definition cur_entry (c : Cursor) (s : Store E) : outcome (Entry E) :=
  unwrap (path c !! (c_level c - 1)%nat) ≫= λ g,
  unwrap g ≫= λ node, entry s node (pte_index (va c) (c_level c)).

Definition cur_va_range (c : Cursor) : outcome VRange :=
  let entry_size := page_size (c_level c) in
  align_down 64 (va c) entry_size ≫= λ entry_start,
  unwrap (checked_add 64 entry_start entry_size) ≫= λ e, Done (mkRange entry_start e).

Fixpoint move_loop (fuel : nat) (c : Cursor) (next_va : Z) : outcome Cursor :=
  match fuel with
  | O => Panic
  | S fuel =>
      if (c_level c <? guard_level c)%nat && (pte_index next_va (c_level c) =? 0)
      then pop_level c ≫= λ c, move_loop fuel c next_va
      else Done c
  end.

Definition move_forward (c : Cursor) : outcome Cursor :=
  cur_va_range c ≫= λ r,
  move_loop (S MAX_NR_LEVELS) c (end_ r) ≫= λ c, Done (set_va c (end_ r)).

Fixpoint jump_loop (fuel : nat) (c : Cursor) (v : Z) : outcome Cursor :=
  match fuel with
  | O => Panic
  | S fuel =>
      let node_size := page_size (S (c_level c)) in
      align_down 64 (va c) node_size ≫= λ node_start,
      (if node_start <=? v
       then unwrap (checked_add 64 node_start node_size) ≫= λ e, Done (v <? e)
       else Done false) ≫= λ inside,
      if (inside : bool) then Done (set_va c v) else pop_level c ≫= λ c, jump_loop fuel c v
  end.

Definition jump (c : Cursor) (v : Z) : outcome (result Cursor PageTableError) :=
  assert_that (v mod BASE_PAGE_SIZE =? 0) ≫= λ _,
  if negb ((start (barrier_va c) <=? v) && (v <? end_ (barrier_va c)))
  then Done (RErr (InvalidVaddr v))
  else jump_loop (S MAX_NR_LEVELS) c v ≫= λ c, Done (ROk c).

(** ** Querying *)

Fixpoint query_loop (fuel : nat) (c : Cursor) (s : Store E)
  : outcome (VRange * option Item * Cursor) :=
  match fuel with
  | O => Panic
  | S fuel =>
      cur_entry c s ≫= λ e, to_ref s e ≫= λ ch,
      match ch with
      | ChPageTable pt => push_level c pt ≫= λ c, query_loop fuel c s
      | ChNone => cur_va_range c ≫= λ r, Done (r, None, c)
      | ChFrame pa _ prop =>
          cur_va_range c ≫= λ r, Done (r, Some (item_from_raw pa (c_level c) prop), c)
      end
  end.

Definition query (c : Cursor) (s : Store E)
  : outcome (result (VRange * option Item) PageTableError * Cursor) :=
  if end_ (barrier_va c) <=? va c then Done (RErr (InvalidVaddr (va c)), c)
  else query_loop (S MAX_NR_LEVELS) c s ≫= λ '(r, item, c), Done (ROk (r, item), c).

(** [Cursor::next] *)
Definition next (c : Cursor) (s : Store E) : outcome (option (VRange * option Item) * Cursor) :=
  query c s ≫= λ '(res, c),
  match res with
  | ROk r => move_forward c ≫= λ c, Done (Some r, c)
  | RErr _ => Done (None, c)
  end.

(** The loop of [find_next_impl]. *)
Fixpoint find_loop (fuel : nat) (find_unmap_subtree split_huge : bool) (e : Z)
    (c : Cursor) (s : Store E) : outcome (option Z * Cursor * Store E) :=
  match fuel with
  | O => Panic
  | S fuel =>
      if va c <? e then
        let cur_va := va c in
        cur_va_range c ≫= λ r,
        let fits := (cur_va =? start r) && (end_ r <=? e) in
        cur_entry c s ≫= λ ent, to_ref s ent ≫= λ ch,
        match ch with
        | ChPageTable pt =>
            if find_unmap_subtree && fits &&
               (TOP_LEVEL_CAN_UNMAP || negb (c_level c =? NR_LEVELS)%nat)
            then Done (Some cur_va, c, s)
            else
              get_node s pt ≫= λ nd,
              (if negb (nr_children nd =? 0) then push_level c pt else move_forward c) ≫= λ c,
              find_loop fuel find_unmap_subtree split_huge e c s
        | ChNone =>
            move_forward c ≫= λ c, find_loop fuel find_unmap_subtree split_huge e c s
        | ChFrame _ _ _ =>
            if fits || negb split_huge then Done (Some cur_va, c, s)
            else
              split_if_mapped_huge s ent ≫= λ '(child, s),
              unwrap child ≫= λ split_child,
              push_level c split_child ≫= λ c,
              find_loop fuel find_unmap_subtree split_huge e c s
        end
      else Done (None, c, s)
  end.

Definition find_next_impl (fuel : nat) (len : Z) (find_unmap_subtree split_huge : bool)
    (c : Cursor) (s : Store E) : outcome (option Z * Cursor * Store E) :=
  assert_that (len mod BASE_PAGE_SIZE =? 0) ≫= λ _,
  unwrap (checked_add 64 (va c) len) ≫= λ e,
  assert_that (e <=? end_ (barrier_va c)) ≫= λ _,
  find_loop fuel find_unmap_subtree split_huge e c s.

Definition find_next (fuel : nat) (len : Z) (c : Cursor) (s : Store E)
  : outcome (option Z * Cursor * Store E) :=
  find_next_impl fuel len false false c s.

(** ** Changing *)

Definition replace_cur_entry (c : Cursor) (s : Store E) (new_child : Child P)
  : outcome (option PageTableFrag * Store E) :=
  cur_entry c s ≫= λ ent,
  replace s ent new_child ≫= λ '(old, s),
  match old with
  | ChNone => Done (None, s)
  | ChFrame pa _ prop => Done (Some (FragMapped (va c) (item_from_raw pa (c_level c) prop)), s)
  | ChPageTable pt =>
      if negb TOP_LEVEL_CAN_UNMAP && (c_level c =? NR_LEVELS)%nat then Panic
      else
        dfs_mark_stray_and_unlock (c_level c - 1) s pt ≫= λ '(num_frames, s),
        Done (Some (FragStray pt (va c) (page_size (c_level c)) num_frames), s)
  end.

(** The loop of [map] that goes to the level of the item. *)
Fixpoint map_loop (fuel : nat) (l : nat) (c : Cursor) (s : Store E) : outcome (Cursor * Store E) :=
  match fuel with
  | O => Panic
  | S fuel =>
      if (c_level c =? l)%nat then Done (c, s)
      else if (c_level c <? l)%nat then pop_level c ≫= λ c, map_loop fuel l c s
      else
        cur_entry c s ≫= λ ent, to_ref s ent ≫= λ ch,
        match ch with
        | ChPageTable pt => push_level c pt ≫= λ c, map_loop fuel l c s
        | ChNone =>
            alloc_if_none s ent ≫= λ '(child, s),
            unwrap child ≫= λ child_guard,
            push_level c child_guard ≫= λ c, map_loop fuel l c s
        | ChFrame _ _ _ =>
            split_if_mapped_huge s ent ≫= λ '(child, s),
            unwrap child ≫= λ split_child,
            push_level c split_child ≫= λ c, map_loop fuel l c s
        end
  end.

Definition map (c : Cursor) (s : Store E) (item : Item)
  : outcome (result unit PageTableFrag * Cursor * Store E) :=
  assert_that (va c <? end_ (barrier_va c)) ≫= λ _,
  let '(pa, l, prop) := item_into_raw item in
  assert_that (l <=? HIGHEST_TRANSLATION_LEVEL)%nat ≫= λ _,
  let size := page_size l in
  assert_that (va c mod size =? 0) ≫= λ _,
  unwrap (checked_add 64 (va c) size) ≫= λ e,
  assert_that (e <=? end_ (barrier_va c)) ≫= λ _,
  map_loop (S MAX_NR_LEVELS) l c s ≫= λ '(c, s),
  replace_cur_entry c s (ChFrame pa l prop) ≫= λ '(frag, s),
  move_forward c ≫= λ c,
  Done (match frag with Some frag => RErr frag | None => ROk tt end, c, s).

Definition take_next (fuel : nat) (len : Z) (c : Cursor) (s : Store E)
  : outcome (option PageTableFrag * Cursor * Store E) :=
  find_next_impl fuel len true true c s ≫= λ '(found, c, s),
  match found with
  | None => Done (None, c, s)
  | Some _ =>
      replace_cur_entry c s ChNone ≫= λ '(frag, s),
      move_forward c ≫= λ c, Done (frag, c, s)
  end.

Definition protect_next (fuel : nat) (len : Z) (op : P → P) (c : Cursor) (s : Store E)
  : outcome (option VRange * Cursor * Store E) :=
  find_next_impl fuel len false true c s ≫= λ '(found, c, s),
  match found with
  | None => Done (None, c, s)
  | Some _ =>
      cur_entry c s ≫= λ ent,
      protect s ent op ≫= λ s,
      cur_va_range c ≫= λ protected_va,
      move_forward c ≫= λ c, Done (Some protected_va, c, s)
  end.

End Cursor.

Arguments PageTableFrag Item : clear implicits.

(** ** Pages and slots *)

Section Pages.
Context {PC : PagingConsts} {PL : @PagingLaws PC}.

Lemma same_page_up v u l j :
  (1 ≤ l ≤ j)%nat → v / page_size l = u / page_size l → v / page_size j = u / page_size j.
Proof.
  intros Hl Hv. destruct (page_size_divide l j Hl) as [q Hq].
  pose proof (page_size_pos l ltac:(lia)). pose proof (page_size_pos j ltac:(lia)).
  rewrite Hq, (Z.mul_comm q), <- !Z.div_div by nia. by rewrite Hv.
Qed.

Lemma same_page_index v u l : (1 ≤ l)%nat → v / page_size l = u / page_size l →
  pte_index v l = pte_index u l.
Proof. intros Hl Hv. by rewrite !pte_index_eq, Hv by done. Qed.

(** In one address space window, two addresses use the same slots down to level
    [t] exactly when they are in the same page of that level. *)
Lemma same_slots_iff t u v :
  (1 ≤ t ≤ NR_LEVELS)%nat → v / page_size (S NR_LEVELS) = u / page_size (S NR_LEVELS) →
  same_slots NR_LEVELS t u v ↔ v / page_size t = u / page_size t.
Proof.
  intros Ht Hw. split.
  - intros Hs. remember (NR_LEVELS - t)%nat as d eqn:Hd. revert t Ht Hd Hs.
    induction d as [|d IH]; intros t Ht Hd Hs; apply same_slot_step; try lia.
    + replace (S t) with (S NR_LEVELS) by lia. split; [done | apply Hs; lia].
    + split; [apply IH; [lia | lia |] | apply Hs; lia]. intros j Hj. apply Hs. lia.
  - intros Hp j Hj. apply same_page_index; [lia |]. apply (same_page_up v u t j); [lia | done].
Qed.

(** The page of level [l] around [v]. *)
Definition page_start (v : Z) (l : nat) : Z := v / page_size l * page_size l.

Lemma page_bounds v l : (1 ≤ l)%nat → page_start v l ≤ v < page_start v l + page_size l.
Proof.
  intros Hl. unfold page_start. pose proof (page_size_pos l Hl). set (w := page_size l) in *.
  pose proof (Z.div_mod v w ltac:(lia)). pose proof (Z.mod_pos_bound v w ltac:(lia)). lia.
Qed.

Lemma in_page u v l : (1 ≤ l)%nat →
  (page_start v l ≤ u < page_start v l + page_size l) ↔ u / page_size l = v / page_size l.
Proof.
  intros Hl. pose proof (page_size_pos l Hl) as Hp. split.
  - unfold page_start. intros Hu. symmetry. apply (Z.div_unique u _ _ (u - v / page_size l * page_size l)); lia.
  - intros Heq. unfold page_start. rewrite <- Heq. by apply page_bounds.
Qed.

Lemma page_mod u v l : (1 ≤ l)%nat → u / page_size l = v / page_size l →
  u mod page_size l = u - page_start v l.
Proof.
  intros Hl Heq. unfold page_start. rewrite <- Heq. pose proof (page_size_pos l Hl).
  rewrite Z.mod_eq by lia. lia.
Qed.

Lemma page_start_aligned v l : (1 ≤ l)%nat → (page_size l | v) → page_start v l = v.
Proof.
  intros Hl [q ->]. unfold page_start. pose proof (page_size_pos l Hl).
  by rewrite Z.div_mul by lia.
Qed.

(** The page of a level lies in the page of a higher one. *)
Lemma page_nested v l j : (1 ≤ l ≤ j)%nat →
  page_start v j ≤ page_start v l ∧ page_start v l + page_size l ≤ page_start v j + page_size j.
Proof.
  intros Hl. pose proof (page_size_pos l ltac:(lia)). pose proof (page_size_pos j ltac:(lia)).
  destruct (page_size_divide l j Hl) as [q Hq]. unfold page_start.
  rewrite Hq, (Z.mul_comm q), <- Z.div_div by nia. set (x := v / page_size l).
  assert (0 < q) by nia. pose proof (Z.div_mod x q ltac:(lia)). pose proof (Z.mod_pos_bound x q ltac:(lia)).
  split; nia.
Qed.

Lemma align_down_page v l : (1 ≤ l ≤ S NR_LEVELS)%nat → in_width 64 v →
  BASE_PAGE_SIZE ≠ 1 → align_down 64 v (page_size l) = Done (page_start v l).
Proof.
  intros Hl Hv Hb. rewrite align_down_eq; [| | done].
  - unfold round_down, page_start. pose proof (page_size_pos l ltac:(lia)).
    rewrite Z.mod_eq by lia. f_equal. lia.
  - split; [split; [pose proof (page_size_pos l ltac:(lia)); lia | by apply page_size_64] |].
    exists (pte_index_bit_offset l). split; [| apply page_size_pow; lia].
    pose proof (offset_nonneg l ltac:(lia)).
    destruct (decide (pte_index_bit_offset l = 0)) as [H0|]; [| lia]. exfalso.
    unfold pte_index_bit_offset in H0. destruct nr_pow as [_ Hk].
    pose proof (Z.log2_nonneg BASE_PAGE_SIZE) as Hn.
    assert (Z.log2 BASE_PAGE_SIZE = 0) as Hz by nia. apply Hb. by rewrite base_pow2, Hz.
Qed.

Lemma base_not_1 : BASE_PAGE_SIZE ≠ 1.
Proof. pose proof pte_small. lia. Qed.

(** The next page of level [l] after [v], by levels. *)
Lemma next_page_div v l : (1 ≤ l)%nat →
  (page_start v l + page_size l) / page_size l = v / page_size l + 1.
Proof.
  intros Hl. unfold page_start. pose proof (page_size_pos l Hl).
  replace (v / page_size l * page_size l + page_size l) with ((v / page_size l + 1) * page_size l) by lia.
  by apply Z.div_mul; lia.
Qed.

Lemma next_page_up v n l : (1 ≤ l)%nat → n / page_size l = v / page_size l + 1 →
  (pte_index n l = 0 → n / page_size (S l) = v / page_size (S l) + 1) ∧
  (pte_index n l ≠ 0 → n / page_size (S l) = v / page_size (S l)).
Proof.
  intros Hl Hn. rewrite pte_index_eq by done. rewrite page_size_S by done.
  pose proof (page_size_pos l Hl). pose proof nr_pos as Hnr.
  rewrite !(Z.mul_comm nr_subpage_per_huge), <- !Z.div_div by lia. rewrite Hn.
  set (x := v / page_size l). set (k := nr_subpage_per_huge) in *.
  pose proof (Z.div_mod x k ltac:(lia)) as D1. pose proof (Z.mod_pos_bound x k ltac:(lia)) as B1.
  pose proof (Z.div_mod (x + 1) k ltac:(lia)) as D2. pose proof (Z.mod_pos_bound (x + 1) k ltac:(lia)) as B2.
  split; intros H0; nia.
Qed.

End Pages.

(** ** The cursor invariant *)

Section CursorOk.
Context {PC : PagingConsts} {E P : Type} {PO : PteOps E P} {DP : EqDecision P}.
Context {PL : @PagingLaws PC} {EL : @PteLaws PC E P PO}.

(** The end of the addresses below the node that the cursor has locked. *)
Definition node_end (c : Cursor) : Z :=
  page_start (start (barrier_va c)) (S (guard_level c)) + page_size (S (guard_level c)).

Definition managed_va (v : Z) : Prop := managed NR_LEVELS (pte_index v NR_LEVELS) = true.

(** A locked range: page aligned, not empty, inside the managed addresses and
    inside one node at level [gl]. *)
Record range_ok (r : VRange) (gl : nat) : Prop := mkRangeOk {
  ro_bounds : 0 ≤ start r < end_ r ∧ end_ r ≤ page_start (start r) (S gl) + page_size (S gl) ∧
    page_start (start r) (S gl) + page_size (S gl) < 2 ^ 64;
  ro_aligned : (BASE_PAGE_SIZE | start r) ∧ (BASE_PAGE_SIZE | end_ r);
  ro_managed : ∀ v, start r ≤ v < end_ r → managed_va v
}.

(** The nodes at the levels up to [gl] on the way to some address of [r]. *)
Definition on_path (s : Store E) (root : Z) (r : VRange) (gl : nat) (x : Z) : Prop :=
  ∃ v t, start r ≤ v < end_ r ∧ (1 ≤ t ≤ gl)%nat ∧ descend s NR_LEVELS root v t = Some x.

(** Exactly these nodes of the page table are locked. *)
Definition locks_ok (s : Store E) (root : Z) (r : VRange) (gl : nat) : Prop :=
  ∀ x, x ∈ owned s NR_LEVELS root → lock_of s x = true ↔ on_path s root r gl x.

(** The path holds the nodes on the way to the current address. *)
Record cur_ok (s : Store E) (root : Z) (c : Cursor) : Prop := mkCurOk {
  co_pt : pt_ok s root;
  co_levels : (1 ≤ c_level c ≤ guard_level c)%nat ∧ (guard_level c ≤ NR_LEVELS)%nat;
  co_len : length (path c) = MAX_NR_LEVELS;
  co_guard : ∃ g, path c !! (guard_level c - 1)%nat = Some (Some g) ∧
    descend s NR_LEVELS root (start (barrier_va c)) (guard_level c) = Some g;
  co_path : ∀ j, (c_level c ≤ j < guard_level c)%nat →
    ∃ n, path c !! (j - 1)%nat = Some (Some n) ∧ descend s NR_LEVELS root (va c) j = Some n;
  co_va : start (barrier_va c) ≤ va c ≤ node_end c ∧ (BASE_PAGE_SIZE | va c);
  co_low : (c_level c < guard_level c)%nat → va c < node_end c ∧ managed_va (va c);
  co_range : range_ok (barrier_va c) (guard_level c);
  co_locks : locks_ok s root (barrier_va c) (guard_level c)
}.

Lemma descend_prefix s l n u v t :
  (∀ j, (t < j ≤ l)%nat → pte_index v j = pte_index u j) →
  descend s l n v t = descend s l n u t.
Proof.
  revert n. induction l as [|l IH]; intros n Hj; [done |]. cbn [descend].
  destruct (Nat.eqb_spec (S l) t); [done |]. destruct (decide (t < S l)%nat) as [Hlt|Hge].
  - rewrite (Hj (S l)) by lia. destruct (child_at s n (S l) _); [| done | done].
    apply IH. intros j Hj'. apply Hj. lia.
  - destruct (child_at s n (S l) _), (child_at s n (S l) _); rewrite ?descend_above by lia; done.
Qed.

Lemma descend_page s root u v t :
  (t ≤ NR_LEVELS)%nat → v / page_size (S t) = u / page_size (S t) →
  descend s NR_LEVELS root v t = descend s NR_LEVELS root u t.
Proof.
  intros Ht Hp. apply descend_prefix. intros j Hj. apply same_page_index; [lia |].
  apply (same_page_up v u (S t) j); [lia | done].
Qed.

Section Current.
Context (s : Store E) (root : Z) (c : Cursor).
Hypotheses (Hc : cur_ok s root c) (Hin : va c < node_end c) (Hm : managed_va (va c)).

Lemma va_width : in_width 64 (va c).
Proof. destruct Hc as [_ _ _ _ _ [Hv _] _ [[? [? ?]] _ _] _]. unfold node_end in *. split; lia. Qed.

Lemma va_node : va c / page_size (S (guard_level c)) =
  start (barrier_va c) / page_size (S (guard_level c)).
Proof.
  apply in_page; [lia |]. destruct Hc as [_ _ _ _ _ [Hv _] _ _ _].
  pose proof (page_bounds (start (barrier_va c)) (S (guard_level c)) ltac:(lia)).
  unfold node_end in *. lia.
Qed.

(** The node at the current level. *)
Lemma cur_node : ∃ n, path c !! (c_level c - 1)%nat = Some (Some n) ∧
  descend s NR_LEVELS root (va c) (c_level c) = Some n.
Proof.
  destruct Hc as [_ [Hl Hg] _ (g & Hg1 & Hg2) Hp _ _ _ _].
  destruct (decide (c_level c = guard_level c)) as [Heq|Hne].
  - exists g. rewrite Heq. split; [done |]. rewrite <- Hg2. apply descend_page; [done | apply va_node].
  - apply Hp. lia.
Qed.

Lemma all_path j : (c_level c ≤ j ≤ guard_level c)%nat →
  ∃ n, path c !! (j - 1)%nat = Some (Some n) ∧ descend s NR_LEVELS root (va c) j = Some n.
Proof.
  intros Hj. destruct Hc as [_ [Hl Hg] _ (g & Hg1 & Hg2) Hp _ _ _ _].
  destruct (decide (j = guard_level c)) as [->|Hne].
  - exists g. split; [done |]. rewrite <- Hg2. apply descend_page; [done | apply va_node].
  - apply Hp. lia.
Qed.

(** What the current entry is. *)
Lemma cur_entry_step : ∃ n pte,
  descend s NR_LEVELS root (va c) (c_level c) = Some n ∧
  cur_entry c s = Done (mkEntry pte (pte_index (va c) (c_level c)) n) ∧
  entry s n (pte_index (va c) (c_level c)) = Done (mkEntry pte (pte_index (va c) (c_level c)) n) ∧
  to_ref s (mkEntry pte (pte_index (va c) (c_level c)) n) =
    Done (child_at s n (c_level c) (pte_index (va c) (c_level c))) ∧
  child_ok s (c_level c) (child_at s n (c_level c) (pte_index (va c) (c_level c))).
Proof.
  destruct cur_node as (n & Hp & Hd). destruct (co_levels _ _ _ Hc) as [Hl _].
  destruct (entry_step s root (va c) (c_level c) n) as (pte & E1 & _ & _ & E4 & _);
    [by apply Hc | done | lia | done |].
  destruct (at_slot s root (va c) (c_level c) n) as (_ & _ & _ & _ & _ & _ & _ & Hok);
    [by apply Hc | done | lia | done |].
  exists n, pte. split_and!; try done. unfold cur_entry. by rewrite Hp.
Qed.

Definition slot_start : Z := page_start (va c) (c_level c).
Definition slot_end : Z := page_start (va c) (c_level c) + page_size (c_level c).

Lemma slot_bounds : slot_start ≤ va c < slot_end ∧ slot_end ≤ node_end c ∧ slot_end < 2 ^ 64 ∧
  0 ≤ slot_start.
Proof.
  destruct (co_levels _ _ _ Hc) as [Hl Hg]. unfold slot_start, slot_end.
  pose proof (page_bounds (va c) (c_level c) ltac:(lia)).
  destruct (page_nested (va c) (c_level c) (S (guard_level c)) ltac:(lia)) as [N1 N2].
  unfold node_end. assert (page_start (va c) (S (guard_level c)) =
    page_start (start (barrier_va c)) (S (guard_level c))) as Hps.
  { unfold page_start. by rewrite va_node. }
  rewrite Hps in *. destruct Hc as [_ _ _ _ _ _ _ [[? [? ?]] _ _] _].
  split; [lia |]. split; [lia |]. split; [lia |]. unfold page_start. pose proof va_width as [? _].
  pose proof (page_size_pos (c_level c) ltac:(lia)).
  pose proof (Z.div_pos (va c) (page_size (c_level c))). nia.
Qed.

Lemma cur_va_range_eq : cur_va_range c = Done (mkRange slot_start slot_end).
Proof.
  destruct (co_levels _ _ _ Hc) as [Hl Hg]. unfold cur_va_range.
  rewrite align_down_page; [| lia | apply va_width | apply base_not_1]. cbn [mbind outcome_bind].
  unfold checked_add. fold slot_start. fold slot_end. destruct slot_bounds as (_ & _ & H64 & _).
  unfold slot_end, slot_start in *.
  by destruct (Z.ltb_spec (page_start (va c) (c_level c) + page_size (c_level c)) (2 ^ 64)); [| lia].
Qed.
End Current.

(** *** Moving within the tree *)

(** The cursor keeps what it has locked. *)
Definition same_lock (c c' : Cursor) : Prop :=
  guard_level c' = guard_level c ∧ barrier_va c' = barrier_va c.

Lemma inside_range s root c :
  cur_ok s root c → va c < end_ (barrier_va c) → va c < node_end c ∧ managed_va (va c).
Proof.
  intros Hc Hlt. pose proof (co_va _ _ _ Hc) as [[? _] _]. pose proof (co_range _ _ _ Hc) as [[? [? ?]] _ Hman].
  unfold node_end. split; [lia | apply Hman; lia].
Qed.

Lemma push_level_ok s root c n pt :
  cur_ok s root c → va c < node_end c → managed_va (va c) →
  descend s NR_LEVELS root (va c) (c_level c) = Some n →
  child_at s n (c_level c) (pte_index (va c) (c_level c)) = ChPageTable pt →
  ∃ c', push_level c pt = Done c' ∧ cur_ok s root c' ∧ same_lock c c' ∧ va c' = va c ∧
    S (c_level c') = c_level c ∧ descend s NR_LEVELS root (va c) (c_level c') = Some pt.
Proof.
  intros Hc Hin Hm Hd Hch. pose proof Hc as [Hpt [Hl Hg] Hlen Hgd Hpath Hva Hlow Hr Hlk].
  destruct (at_slot s root (va c) (c_level c) n) as (_ & _ & _ & _ & _ & _ & _ & Hok);
    [done | done | lia | done |].
  rewrite Hch in Hok. cbn [child_ok] in Hok.
  destruct (c_level c) as [|[|l]] eqn:Hlv; [lia | done |].
  unfold push_level. rewrite Hlv. cbn [Nat.leb assert_that mbind outcome_bind].
  replace (S (S l) - 1)%nat with (S l) by lia.
  pose proof (proj2 levels_ok) as Hmax.
  destruct (lookup_lt_is_Some_2 (path c) (S l - 1)%nat) as [o Ho]; [lia |]. rewrite Ho.
  cbn [unwrap mbind outcome_bind]. eexists. split; [done |].
  assert (descend s NR_LEVELS root (va c) (S l) = Some pt) as Hdp by (by eapply descend_child).
  split; [| done]. constructor; cbn; try done.
  - lia.
  - by rewrite length_insert.
  - destruct Hgd as (g & G1 & G2). exists g. by rewrite list_lookup_insert_ne by lia.
  - intros j Hj. destruct (decide (j = S l)) as [->|Hne].
    + exists pt. rewrite list_lookup_insert_eq by lia. done.
    + destruct (all_path s root c Hc Hin j) as (n' & N1 & N2); [rewrite Hlv; lia |].
      exists n'. by rewrite list_lookup_insert_ne by lia.
Qed.

Lemma pop_level_ok s root c :
  cur_ok s root c → (c_level c < guard_level c)%nat →
  ∃ c', pop_level c = Done c' ∧ cur_ok s root c' ∧ same_lock c c' ∧ va c' = va c ∧
    c_level c' = S (c_level c).
Proof.
  intros Hc Hlt. pose proof Hc as [Hpt [Hl Hg] Hlen Hgd Hpath Hva Hlow Hr Hlk].
  destruct (Hpath (c_level c)) as (n & N1 & N2); [lia |].
  unfold pop_level. rewrite N1. cbn [unwrap mbind outcome_bind]. eexists. split; [done |].
  split; [| done]. constructor; cbn; try done.
  - lia.
  - by rewrite length_insert.
  - destruct Hgd as (g & G1 & G2). exists g. by rewrite list_lookup_insert_ne by lia.
  - intros j Hj. destruct (Hpath j) as (n' & M1 & M2); [lia |].
    exists n'. by rewrite list_lookup_insert_ne by lia.
  - intros _. apply Hlow. lia.
Qed.

(** The loop that leaves the nodes whose last slot was the current one. *)
Lemma move_loop_ok s root next fuel : ∀ c,
  cur_ok s root c → va c < node_end c → managed_va (va c) →
  (guard_level c - c_level c < fuel)%nat →
  next / page_size (c_level c) = va c / page_size (c_level c) + 1 →
  (page_size (c_level c) | next) →
  ∃ c', move_loop fuel c next = Done c' ∧ cur_ok s root c' ∧ same_lock c c' ∧ va c' = va c ∧
    (c_level c ≤ c_level c')%nat ∧
    ((c_level c' < guard_level c)%nat → next / page_size (S (c_level c')) = va c / page_size (S (c_level c'))) ∧
    next / page_size (c_level c') = va c / page_size (c_level c') + 1.
Proof.
  induction fuel as [|fuel IH]; intros c Hc Hin Hm Hf Hn Hdiv; [lia |].
  destruct (co_levels _ _ _ Hc) as [Hl Hg].
  destruct (next_page_up (va c) next (c_level c) ltac:(lia) Hn) as [Hup0 Hup1]. cbn [move_loop].
  destruct (Nat.ltb_spec (c_level c) (guard_level c)) as [Hlt|Hge]; cbn [andb].
  - destruct (Z.eqb_spec (pte_index next (c_level c)) 0) as [H0|H0].
    + destruct (pop_level_ok s root c Hc Hlt) as (c1 & -> & Hc1 & [L1 L2] & V1 & L3).
      cbn [mbind outcome_bind].
      assert (node_end c1 = node_end c) as Hne by (unfold node_end; by rewrite L1, L2).
      destruct (IH c1) as (c' & -> & Hc' & [M1 M2] & V2 & Hle & Hlow & Hdv).
      * done.
      * by rewrite Hne, V1.
      * by rewrite V1.
      * lia.
      * rewrite L3, V1. by apply Hup0.
      * rewrite L3, page_size_S by lia. rewrite pte_index_eq in H0 by lia.
        destruct Hdiv as [q Hq]. pose proof (page_size_pos (c_level c) ltac:(lia)).
        rewrite Hq, Z.div_mul in H0 by lia. pose proof nr_pos.
        apply Z.mod_divide in H0 as [q' ->]; [| lia]. exists q'. lia.
      * exists c'. split; [done |]. split; [done |]. split; [split; congruence |].
        split; [congruence |]. split; [lia |]. rewrite <- V1.
        split; [intros Hlt'; apply Hlow; lia | exact Hdv].
    + exists c. split_and!; try done; auto.
  - exists c. split_and!; try done; auto. lia.
Qed.

Lemma move_forward_ok s root c :
  cur_ok s root c → va c < node_end c → managed_va (va c) →
  ∃ c', move_forward c = Done c' ∧ cur_ok s root c' ∧ same_lock c c' ∧ va c' = slot_end c ∧
    (c_level c ≤ c_level c')%nat.
Proof.
  intros Hc Hin Hm. destruct (co_levels _ _ _ Hc) as [Hl Hg]. pose proof (proj2 levels_ok) as Hmax.
  unfold move_forward. rewrite (cur_va_range_eq s root c) by done. cbn [mbind outcome_bind end_].
  destruct (slot_bounds s root c) as (B1 & B2 & B3 & B4); try done.
  assert (page_size (c_level c) | slot_end c) as Hdv.
  { unfold slot_end, page_start. apply Z.divide_add_r; [apply Z.divide_factor_r | done]. }
  destruct (move_loop_ok s root (slot_end c) (S MAX_NR_LEVELS) c) as
    (c1 & -> & Hc1 & [M1 M2] & V & Hle & Hlow & Hdiv); try done; [lia | apply next_page_div; lia |].
  cbn [mbind outcome_bind]. eexists. split; [done |].
  split; [| by unfold same_lock, set_va; cbn].
  pose proof Hc1 as [Hpt [Hl1 Hg1] Hlen Hgd Hpath [Hva Hal] Hlw Hr Hlk].
  assert (∀ j, (c_level c1 ≤ j < guard_level c1)%nat →
    slot_end c / page_size (S j) = va c / page_size (S j)) as Hsame.
  { intros j Hj. apply (same_page_up _ _ (S (c_level c1))); [lia |]. apply Hlow. lia. }
  assert (node_end c1 = node_end c) as Hne by (unfold node_end; by rewrite M1, M2).
  constructor; cbn; try done.
  - intros j Hj. destruct (Hpath j Hj) as (n & N1 & N2). exists n. split; [done |].
    rewrite <- N2, V. apply descend_page; [lia | by apply Hsame].
  - unfold node_end in *. cbn. rewrite M1, M2 in *. split; [lia |].
    etransitivity; [| exact Hdv]. rewrite <- page_size_1. apply page_size_divide. lia.
  - intros Hlt. split.
    + assert (slot_end c / page_size (S (guard_level c1)) =
        start (barrier_va c1) / page_size (S (guard_level c1))) as He.
      { rewrite <- (va_node s root c1 Hc1) by (apply Hlw; done). rewrite V.
        apply (same_page_up _ _ (S (c_level c1))); [lia |]. apply Hsame. lia. }
      apply in_page in He; [| lia]. unfold node_end. cbn. lia.
    + unfold managed_va. rewrite (same_page_index (slot_end c) (va c) NR_LEVELS); [done | lia |].
      apply (same_page_up _ _ (S (c_level c1))); [lia |]. apply Hsame. lia.
Qed.

(** The current node contains the address exactly when the test of [jump] says so. *)
Lemma node_test s root c v :
  cur_ok s root c → va c < node_end c →
  (align_down 64 (va c) (page_size (S (c_level c))) ≫= λ node_start,
   if node_start <=? v
   then unwrap (checked_add 64 node_start (page_size (S (c_level c)))) ≫= λ e, Done (v <? e)
   else Done false) = Done (bool_decide (v / page_size (S (c_level c)) = va c / page_size (S (c_level c)))).
Proof.
  intros Hc Hin. destruct (co_levels _ _ _ Hc) as [Hl Hg].
  rewrite align_down_page; [| lia | by apply (va_width s root) | apply base_not_1]. cbn [mbind outcome_bind].
  pose proof (in_page v (va c) (S (c_level c)) ltac:(lia)) as Hp.
  pose proof (co_range _ _ _ Hc) as [[R1 [R2 R3]] _ _].
  assert (page_start (va c) (S (c_level c)) + page_size (S (c_level c)) < 2 ^ 64) as H64.
  { destruct (page_nested (va c) (S (c_level c)) (S (guard_level c)) ltac:(lia)) as [_ Hle].
    unfold page_start in *. rewrite (va_node s root c) in Hle by done. lia. }
  destruct (Z.leb_spec (page_start (va c) (S (c_level c))) v).
  - unfold checked_add. destruct (Z.ltb_spec (page_start (va c) (S (c_level c)) + page_size (S (c_level c))) (2 ^ 64)); [| lia].
    cbn [unwrap mbind outcome_bind]. f_equal. symmetry.
    destruct (Z.ltb_spec v (page_start (va c) (S (c_level c)) + page_size (S (c_level c)))).
    + apply bool_decide_eq_true. apply Hp. lia.
    + apply bool_decide_eq_false. rewrite <- Hp. lia.
  - f_equal. symmetry. apply bool_decide_eq_false. rewrite <- Hp. lia.
Qed.

Lemma jump_loop_ok s root v fuel : ∀ c,
  cur_ok s root c → va c < node_end c → (guard_level c - c_level c < fuel)%nat →
  start (barrier_va c) ≤ v < end_ (barrier_va c) → (BASE_PAGE_SIZE | v) →
  ∃ c', jump_loop fuel c v = Done c' ∧ cur_ok s root c' ∧ same_lock c c' ∧ va c' = v.
Proof.
  induction fuel as [|fuel IH]; intros c Hc Hin Hf Hv Hal; [lia |].
  destruct (co_levels _ _ _ Hc) as [Hl Hg]. pose proof (co_range _ _ _ Hc) as [[R1 [R2 R3]] _ Hman].
  cbn [jump_loop]. pose proof (node_test s root c v Hc Hin) as Ht.
  destruct (align_down 64 (va c) (page_size (S (c_level c)))) as [ns|]; [| done]. cbn [mbind outcome_bind] in *.
  rewrite Ht. cbn [mbind outcome_bind]. destruct (bool_decide_reflect (v / page_size (S (c_level c)) =
    va c / page_size (S (c_level c)))) as [Hsame|Hother].
  - eexists. split; [done |]. split; [| done].
    pose proof Hc as [Hpt [Hl1 Hg1] Hlen Hgd Hpath _ Hlw Hr Hlk].
    constructor; cbn; try done.
    + intros j Hj. destruct (Hpath j Hj) as (n & N1 & N2). exists n. split; [done |].
      rewrite <- N2. apply descend_page; [lia |]. apply (same_page_up _ _ (S (c_level c))); [lia | done].
    + unfold node_end in *. cbn. split; [lia | done].
    + intros _. split; [unfold node_end in *; cbn; lia | by apply Hman].
  - assert (c_level c < guard_level c)%nat as Hlt.
    { destruct (decide (c_level c = guard_level c)) as [He|]; [exfalso | lia]. apply Hother. rewrite He.
      rewrite (va_node s root c) by done. apply in_page; [lia |].
      pose proof (page_bounds (start (barrier_va c)) (S (guard_level c)) ltac:(lia)). unfold page_start in *. lia. }
    destruct (pop_level_ok s root c Hc Hlt) as (c1 & -> & Hc1 & [L1 L2] & V1 & L3). cbn [mbind outcome_bind].
    destruct (IH c1) as (c' & -> & Hc' & [M1 M2] & V2); try done.
    + unfold node_end in *. by rewrite L1, L2, V1.
    + lia.
    + by rewrite L2.
    + exists c'. split; [done |]. split; [done |]. split; [split; congruence | done].
Qed.

(** *** Steps and locks *)

Lemma descend_compose s l n v t m u :
  (u ≤ t)%nat → descend s l n v t = Some m → descend s l n v u = descend s t m v u.
Proof.
  intros Hu. revert n. induction l as [|l IH]; intros n; cbn [descend].
  - destruct (Nat.eqb_spec 0 t) as [<-|]; [| done]. by intros [= <-].
  - destruct (Nat.eqb_spec (S l) t) as [<-|Hne]; [by intros [= <-] |].
    destruct (child_at s n (S l) (pte_index v (S l))) as [c| |] eqn:Hc; [| done | done]. intros Hd.
    destruct (Nat.eqb_spec (S l) u) as [<-|Hnu]; [| by apply IH].
    by rewrite descend_above in Hd by lia.
Qed.

(** A node below level [T] on a path through a slot hangs below that slot. *)
Lemma descend_slot s root va v T m t x :
  (1 ≤ t < T)%nat → (T ≤ NR_LEVELS)%nat → managed_va va →
  descend s NR_LEVELS root va T = Some m → same_slots NR_LEVELS T va v →
  descend s NR_LEVELS root v t = Some x → x ∈ slot_owned s T m (pte_index va T).
Proof.
  intros Ht HT Hm Hd Hs Hx.
  assert (descend s NR_LEVELS root v T = Some m) as Hdv.
  { rewrite <- Hd. apply descend_prefix. intros j Hj. apply Hs. lia. }
  rewrite (descend_compose s _ _ v T m t) in Hx by (lia || done). destruct T as [|T]; [lia |].
  cbn [descend] in Hx. destruct (Nat.eqb_spec (S T) t); [lia |].
  rewrite (Hs (S T)) in Hx by lia.
  destruct (descend_owned s NR_LEVELS root va (S T) m) as (_ & _ & Hmt & _); [done | done | lia | done |].
  unfold slot_owned. rewrite Hmt. destruct (child_at s m (S T) (pte_index va (S T))) as [c| |]; [| done | done].
  cbn [child_owned]. rewrite Nat.sub_succ, Nat.sub_0_r.
  apply (descend_owned s T c v t x); [lia | apply managed_low; lia | lia | done].
Qed.

(** *** Page tables of base pages only *)

(** Every walk that finds a page gets to the lowest level. *)
Definition small (s : Store E) (root : Z) : Prop :=
  ∀ v, managed_va v → trans s NR_LEVELS root v ≠ None → is_Some (descend s NR_LEVELS root v 1).

Lemma small_leaf s root v T m pa l p :
  small s root → managed_va v → (1 ≤ T)%nat → descend s NR_LEVELS root v T = Some m →
  child_at s m T (pte_index v T) = ChFrame pa l p → T = 1%nat.
Proof.
  intros Hs Hv HT Hd Hc. destruct (Hs v Hv) as [x Hx].
  { rewrite (trans_descend s NR_LEVELS root v T m v) by done. by rewrite Hc. }
  destruct (decide (T = 1)%nat) as [|Hne]; [done | exfalso].
  rewrite (descend_compose s NR_LEVELS root v T m 1) in Hx by (lia || done). destruct T as [|T]; [done |].
  cbn [descend] in Hx. destruct (Nat.eqb_spec (S T) 1); [done |]. by rewrite Hc in Hx.
Qed.

Lemma small_step s s' root va T m ch :
  small s root → pt_step s s' root va T m ch → descend s NR_LEVELS root va T = Some m →
  match ch with
  | ChNone => True
  | ChFrame _ _ _ => T = 1%nat
  | ChPageTable _ => child_at s m T (pte_index va T) = ChNone ∧
      ∀ v, managed_va v → trans s' NR_LEVELS root v = trans s NR_LEVELS root v
  end → (1 ≤ T)%nat → small s' root.
Proof.
  intros Hs Hst Hd Hch HT v Hv Ht.
  destruct (decide (same_slots NR_LEVELS T va v)) as [Hsame|Hother].
  - destruct ch as [new|pa l p|].
    + destruct Hch as [Hnone Htr]. rewrite Htr in Ht by done.
      rewrite (trans_descend s NR_LEVELS root va T m v), Hnone in Ht by done. done.
    + subst T. exists m. rewrite (ps_descend _ _ _ _ _ _ _ Hst); [| done | by left].
      rewrite <- Hd. apply descend_prefix. intros j Hj. apply Hsame. lia.
    + by rewrite (ps_in _ _ _ _ _ _ _ Hst v Hv Hsame) in Ht.
  - rewrite (ps_out _ _ _ _ _ _ _ Hst v Hv Hother) in Ht.
    rewrite (ps_descend _ _ _ _ _ _ _ Hst); [by apply Hs | done | by right].
Qed.

Lemma small_agree s s' root :
  (∀ x, x ∈ owned s NR_LEVELS root → nodes s' !! x = nodes s !! x) → small s root → small s' root.
Proof.
  intros Hag Hs v Hv. rewrite (trans_agree s), (descend_agree s) by done. by apply Hs.
Qed.

Lemma locks_step s s' root r gl va T m ch :
  locks_ok s root r gl → pt_step s s' root va T m ch → (1 ≤ T ≤ NR_LEVELS)%nat → managed_va va →
  (∀ v, start r ≤ v < end_ r → managed_va v) → descend s NR_LEVELS root va T = Some m →
  (∀ x, x ∈ slot_owned s' T m (pte_index va T) → on_path s' root r gl x) →
  locks_ok s' root r gl.
Proof.
  intros Hlk Hst HT Hm Hman Hd Hnew x Hx.
  destruct (ps_locks _ _ _ _ _ _ _ Hst x Hx) as [Hold Hfresh].
  assert (descend s' NR_LEVELS root va T = Some m) as Hd'.
  { rewrite (ps_descend _ _ _ _ _ _ _ Hst); [done | done | left; lia]. }
  destruct (decide (x ∈ owned s NR_LEVELS root)) as [Hxo|Hxo].
  - rewrite Hold by done. rewrite (Hlk x Hxo). unfold on_path. split.
    + intros (v & t & Hv & Ht & Hdx). exists v, t. split; [done |]. split; [done |]. rewrite <- Hdx.
      apply (ps_descend _ _ _ _ _ _ _ Hst); [by apply Hman |].
      destruct (decide (T ≤ t)%nat); [by left | right]. intros Hs.
      apply (ps_owned _ _ _ _ _ _ _ Hst x Hx). apply (descend_slot s root va v T m t); (lia || done).
    + intros (v & t & Hv & Ht & Hdx). exists v, t. split; [done |]. split; [done |]. rewrite <- Hdx.
      symmetry. apply (ps_descend _ _ _ _ _ _ _ Hst); [by apply Hman |].
      destruct (decide (T ≤ t)%nat); [by left | right]. intros Hs.
      apply (ps_new _ _ _ _ _ _ _ Hst x); [| done]. apply (descend_slot s' root va v T m t); (lia || done).
  - rewrite Hfresh by done. split; [| done]. intros _. apply Hnew. by apply (ps_old _ _ _ _ _ _ _ Hst).
Qed.

(** A change of the current slot keeps the cursor valid. *)
Lemma cur_ok_step s s' root c n ch :
  cur_ok s root c → va c < end_ (barrier_va c) →
  descend s NR_LEVELS root (va c) (c_level c) = Some n →
  pt_step s s' root (va c) (c_level c) n ch →
  (∀ x, x ∈ slot_owned s' (c_level c) n (pte_index (va c) (c_level c)) →
     descend s' NR_LEVELS root (va c) (c_level c - 1) = Some x ∧ (2 ≤ c_level c)%nat) →
  cur_ok s' root c.
Proof.
  intros Hc Hlt Hd Hst Hnew. pose proof Hc as [Hpt [Hl Hg] Hlen (g & G1 & G2) Hpath [[V1 V2] V3] Hlow Hr Hlk].
  assert (managed_va (va c)) as Hm by (apply (ro_managed _ _ Hr); lia).
  constructor; try done.
  - apply Hst.
  - exists g. split; [done |]. rewrite (ps_descend _ _ _ _ _ _ _ Hst); [done | | left; lia].
    apply (ro_managed _ _ Hr). pose proof (ro_bounds _ _ Hr). lia.
  - intros j Hj. destruct (Hpath j Hj) as (m & M1 & M2). exists m. split; [done |].
    rewrite (ps_descend _ _ _ _ _ _ _ Hst); [done | done | left; lia].
  - apply (locks_step s s' root _ _ (va c) (c_level c) n ch); try done; [lia | apply (ro_managed _ _ Hr) |].
    intros x Hx. destruct (Hnew x Hx) as [Hdx Hl2]. exists (va c), (c_level c - 1)%nat.
    split; [lia |]. split; [lia | done].
Qed.

(** *** The current slot *)

(** The translation of the addresses of the current slot. *)
Lemma slot_trans s root c n v :
  cur_ok s root c → managed_va (va c) →
  descend s NR_LEVELS root (va c) (c_level c) = Some n → slot_start c ≤ v < slot_end c →
  managed_va v ∧
  trans s NR_LEVELS root v =
  match child_at s n (c_level c) (pte_index (va c) (c_level c)) with
  | ChNone => None
  | ChFrame pa _ p => Some (pa + (v - slot_start c), p)
  | ChPageTable pt => trans s (c_level c - 1) pt v
  end.
Proof.
  intros Hc Hm Hd Hv. destruct (co_levels _ _ _ Hc) as [Hl Hg].
  assert (v / page_size (c_level c) = va c / page_size (c_level c)) as Hpage
    by (apply in_page; [lia | exact Hv]).
  assert (∀ j, (c_level c ≤ j)%nat → pte_index v j = pte_index (va c) j) as Hidx.
  { intros j Hj. apply same_page_index; [lia |]. apply (same_page_up _ _ (c_level c)); [lia | done]. }
  split; [unfold managed_va; by rewrite Hidx by lia |].
  rewrite (trans_descend s NR_LEVELS root (va c) (c_level c) n v); [| lia | done | intros j Hj; apply Hidx; lia].
  unfold child_trans. destruct (child_at s n (c_level c) _) as [pt|pa l p|]; [done | | done].
  by rewrite (page_mod v (va c)) by (lia || done).
Qed.

Section Query.
Context {Item : Type} (item_from_raw : Z → nat → P → Item).

Lemma query_loop_ok s root fuel : ∀ c,
  cur_ok s root c → va c < node_end c → managed_va (va c) → (c_level c ≤ fuel)%nat →
  ∃ r item c', query_loop item_from_raw fuel c s = Done (r, item, c') ∧
    cur_ok s root c' ∧ same_lock c c' ∧ va c' = va c ∧ r = mkRange (slot_start c') (slot_end c') ∧
    match item with
    | None => ∀ v, start r ≤ v < end_ r → trans s NR_LEVELS root v = None
    | Some i => ∃ pa p, i = item_from_raw pa (c_level c') p ∧
        ∀ v, start r ≤ v < end_ r → trans s NR_LEVELS root v = Some (pa + (v - start r), p)
    end.
Proof.
  induction fuel as [|fuel IH]; intros c Hc Hin Hm Hf.
  { destruct (co_levels _ _ _ Hc). lia. }
  destruct (cur_entry_step s root c) as (n & pte & Hd & E1 & E2 & E3 & Hok); try done.
  cbn [query_loop]. rewrite E1. cbn [mbind outcome_bind]. rewrite E3. cbn [mbind outcome_bind].
  pose proof (slot_trans s root c n) as Htr.
  destruct (child_at s n (c_level c) (pte_index (va c) (c_level c))) as [pt|pa l p|] eqn:Hch.
  - destruct (push_level_ok s root c n pt) as (c1 & -> & Hc1 & [L1 L2] & V1 & Hlv & _); try done.
    cbn [mbind outcome_bind].
    destruct (IH c1) as (r & item & c' & -> & Hc' & [M1 M2] & V2 & Hr & Hitem); try done.
    + unfold node_end in *. by rewrite L1, L2, V1.
    + by rewrite V1.
    + lia.
    + exists r, item, c'. split; [done |]. split; [done |]. split; [split; congruence |].
      split; [congruence | done].
  - rewrite (cur_va_range_eq s root c) by done. cbn [mbind outcome_bind].
    eexists _, _, c. split; [done |]. split; [done |]. do 3 (split; [done |]).
    exists pa, p. split; [done |]. intros v Hv. by apply Htr.
  - rewrite (cur_va_range_eq s root c) by done. cbn [mbind outcome_bind].
    eexists _, _, c. split; [done |]. split; [done |]. do 3 (split; [done |]).
    intros v Hv. by apply Htr.
Qed.
End Query.

(** *** Going to a level *)

(** Making a table of an empty slot or of a huge page. *)
Lemma new_table_ok s root c n pte new rest :
  cur_ok s root c → va c < end_ (barrier_va c) → (2 ≤ c_level c)%nat →
  descend s NR_LEVELS root (va c) (c_level c) = Some n → pool s = new :: rest →
  entry s n (pte_index (va c) (c_level c)) = Done (mkEntry pte (pte_index (va c) (c_level c)) n) →
  let e := mkEntry pte (pte_index (va c) (c_level c)) n in
  let ch := child_at s n (c_level c) (pte_index (va c) (c_level c)) in
  (∀ pt, ch ≠ ChPageTable pt) →
  ∃ s', (if child_is_none ch then alloc_if_none s e else split_if_mapped_huge s e) = Done (Some new, s') ∧
    cur_ok s' root c ∧ descend s' NR_LEVELS root (va c) (c_level c) = Some n ∧
    child_at s' n (c_level c) (pte_index (va c) (c_level c)) = ChPageTable new ∧ pool s' = rest ∧
    pt_step s s' root (va c) (c_level c) n (ChPageTable new) ∧
    (descend s' NR_LEVELS root (va c) (c_level c - 1) = Some new ∧
     slot_owned s' (c_level c) n (pte_index (va c) (c_level c)) = [new]) ∧
    (child_is_none ch = false → ∀ i, 0 ≤ i < nr_subpage_per_huge →
       ∃ pa p, child_at s' new (c_level c - 1) i = ChFrame pa (c_level c - 1) p) ∧
    ∀ v, managed_va v → trans s' NR_LEVELS root v = trans s NR_LEVELS root v.
Proof.
  intros Hc Hlt Hl Hd Hp He e ch Hch. assert (managed_va (va c)) as Hm.
  { apply (ro_managed _ _ (co_range _ _ _ Hc)). pose proof (co_va _ _ _ Hc). lia. }
  destruct (c_level c) as [|t] eqn:Hlv; [lia |].
  assert (∃ s', (if child_is_none ch then alloc_if_none s e else split_if_mapped_huge s e) =
      Done (Some new, s') ∧ pt_step s s' root (va c) (S t) n (ChPageTable new) ∧ pool s' = rest ∧
      (descend s' NR_LEVELS root (va c) (S t - 1) = Some new ∧
       slot_owned s' (S t) n (pte_index (va c) (S t)) = [new]) ∧
      (child_is_none ch = false → ∀ i, 0 ≤ i < nr_subpage_per_huge →
         ∃ pa p, child_at s' new (S t - 1) i = ChFrame pa (S t - 1) p) ∧
      ∀ v, managed_va v → trans s' NR_LEVELS root v = trans s NR_LEVELS root v) as
    (s' & S1 & S2 & S3 & S4 & S5 & S6).
  { replace (S t - 1)%nat with t by lia.
    destruct ch as [pt|pa l p|] eqn:Hc0; cbn [child_is_none]; [by destruct (Hch pt) | |].
    - destruct (split_step s root (va c) t n pte new rest pa l p) as (s' & H1 & H2 & H3 & [H4 H4'] & H5 & H6);
        try done; [apply Hc | lia |]. exists s'. split_and!; try done. eauto.
    - destruct (alloc_step s root (va c) t n pte new rest) as (s' & H1 & H2 & H3 & [H4 H4'] & H5);
        try done; [apply Hc | lia |]. exists s'. split_and!; done. }
  exists s'. split; [done |]. split.
  { apply (cur_ok_step s s' root c n (ChPageTable new)); rewrite ?Hlv; try done.
    intros x Hx. destruct S4 as [S4 S4']. rewrite S4' in Hx. apply list_elem_of_singleton in Hx as ->. done. }
  split; [rewrite (ps_descend _ _ _ _ _ _ _ S2); [done | done | left; lia] |].
  split; [apply S2 |]. done.
Qed.

Lemma map_loop_ok root l fuel : ∀ c s,
  cur_ok s root c → va c < end_ (barrier_va c) →
  (1 ≤ l ≤ guard_level c)%nat → (c_level c - l + (l - c_level c) < fuel)%nat →
  (c_level c - l ≤ length (pool s))%nat →
  ∃ c' s', map_loop fuel l c s = Done (c', s') ∧ cur_ok s' root c' ∧ same_lock c c' ∧
    va c' = va c ∧ c_level c' = l ∧
    (length (pool s) ≤ length (pool s') + (c_level c - l))%nat ∧
    (∀ v, managed_va v → trans s' NR_LEVELS root v = trans s NR_LEVELS root v) ∧
    (small s root → small s' root).
Proof.
  induction fuel as [|fuel IH]; intros c s Hc Hlt Hl Hf Hpool; [lia |].
  destruct (co_levels _ _ _ Hc) as [Hlv Hg]. cbn [map_loop].
  destruct (inside_range s root c Hc Hlt) as [Hin Hm].
  destruct (Nat.eqb_spec (c_level c) l) as [Heq|Hne].
  { exists c, s. split_and!; try done. lia. }
  assert (∀ c1 s1, cur_ok s1 root c1 → same_lock c c1 → va c1 = va c →
    (c_level c1 - l + (l - c_level c1) < fuel)%nat →
    (c_level c1 - l ≤ length (pool s1))%nat →
    (length (pool s) + (c_level c1 - l) ≤ length (pool s1) + (c_level c - l))%nat →
    (∀ v, managed_va v → trans s1 NR_LEVELS root v = trans s NR_LEVELS root v) →
    (small s root → small s1 root) →
    ∃ c' s', map_loop fuel l c1 s1 = Done (c', s') ∧ cur_ok s' root c' ∧ same_lock c c' ∧
      va c' = va c ∧ c_level c' = l ∧
      (length (pool s) ≤ length (pool s') + (c_level c - l))%nat ∧
      (∀ v, managed_va v → trans s' NR_LEVELS root v = trans s NR_LEVELS root v) ∧
      (small s root → small s' root)) as Hgo.
  { intros c1 s1 Hc1 [L1 L2] V1 Hf1 Hp1 Hp2 Htr1 Hsm1.
    destruct (IH c1 s1) as (c' & s' & -> & Hc' & [M1 M2] & V2 & Hlv2 & Hp & Htr & Hsm); try done; try lia.
    - by rewrite L2, V1.
    - exists c', s'. split; [done |]. split; [done |]. split; [split; congruence |].
      split; [congruence |]. split; [done |]. split; [lia |].
      split; [intros v Hv; by rewrite Htr, Htr1 | auto]. }
  destruct (Nat.ltb_spec (c_level c) l) as [Hup|Hge].
  { destruct (pop_level_ok s root c) as (c1 & -> & Hc1 & L & V1 & Hlv1); [done | lia |].
    apply Hgo; try done; lia. }
  destruct (cur_entry_step s root c) as (n & pte & Hd & E1 & E2 & E3 & Hok); try done.
  rewrite E1. cbn [mbind outcome_bind]. rewrite E3. cbn [mbind outcome_bind].
  destruct (pool s) as [|new rest] eqn:Hp; [cbn in Hpool; lia |]. cbn [length] in *.
  pose proof (new_table_ok s root c n pte new rest Hc Hlt ltac:(lia) Hd Hp E2) as Hnew. cbv zeta in Hnew.
  destruct (child_at s n (c_level c) (pte_index (va c) (c_level c))) as [pt|pa l' p|] eqn:Hch.
  { destruct (push_level_ok s root c n pt) as (c1 & -> & Hc1 & L & V1 & Hlv1 & _); try done.
    apply Hgo; try done; rewrite ?Hp; cbn [length]; lia. }
  all: cbn [child_is_none] in Hnew; destruct Hnew as (s1 & -> & Hc1 & Hd1 & Hch1 & Hp1 & Hst & _ & _ & Htr1); [done |].
  all: cbn [mbind outcome_bind unwrap].
  all: destruct (push_level_ok s1 root c n new) as (c1 & -> & Hc1' & L & V1 & Hlv1 & _); try done.
  all: apply Hgo; try done; rewrite ?Hp1; try lia; intros Hsm.
  - assert (c_level c = 1)%nat; [| lia].
    by apply (small_leaf s root (va c) (c_level c) n pa l' p); try done; lia.
  - by apply (small_step s s1 root (va c) (c_level c) n (ChPageTable new)); try done; lia.
Qed.

(** *** Taking a subtree out *)

(** The number of pages mapped by the lowest level of a subtree. *)
Fixpoint base_pages (s : Store E) (l : nat) (n : Z) : Z :=
  match l with
  | O => 0
  | S l' =>
      if (l =? 1)%nat then match nodes s !! n with Some nd => nr_children nd | None => 0 end
      else foldr (λ i a, match child_at s n l i with
                         | ChPageTable c => base_pages s l' c
                         | _ => 0
                         end + a) 0 slots
  end.
Definition slot_pages (s : Store E) (l : nat) (n i : Z) : Z :=
  match child_at s n l i with ChPageTable c => base_pages s (l - 1) c | _ => 0 end.

Lemma base_pages_S s l n : (1 ≤ l)%nat →
  base_pages s (S l) n = foldr (λ i a, slot_pages s (S l) n i + a) 0 slots.
Proof.
  intros Hl. cbn [base_pages]. destruct (Nat.eqb_spec (S l) 1); [lia |].
  unfold slot_pages. by replace (S l - 1)%nat with l by lia.
Qed.

Lemma foldr_sum_ext (f g : Z → Z) (js : list Z) :
  (∀ i, i ∈ js → f i = g i) → foldr (λ i a, f i + a) 0 js = foldr (λ i a, g i + a) 0 js.
Proof.
  induction js as [|i js IH]; intros Hfg; [done |]. cbn. rewrite Hfg by set_solver.
  rewrite IH; [done | set_solver].
Qed.

Lemma base_pages_agree s s' l n :
  (l < NR_LEVELS)%nat → (∀ x, x ∈ owned s l n → nodes s' !! x = nodes s !! x) →
  base_pages s' l n = base_pages s l n.
Proof.
  revert n. induction l as [|l IH]; intros n Hl Hag; [done |].
  destruct (decide (l = 0)%nat) as [->|Hne].
  - cbn. rewrite Hag by (rewrite owned_S; set_solver). done.
  - rewrite !base_pages_S by lia. apply foldr_sum_ext. intros i Hi%slot_elem. unfold slot_pages.
    destruct (agree_slot s s' l n i Hag Hi) as [-> Hc]; [apply managed_low; lia |].
    destruct (child_at s n (S l) i) as [c| |] eqn:Hch; [| done | done].
    rewrite Nat.sub_succ, Nat.sub_0_r. apply IH; [lia | by apply Hc].
Qed.

(** The node [x] is marked stray and unlocked. *)
Definition stray_node (s s' : Store E) (x : Z) : Prop :=
  ∃ nd, nodes s !! x = Some nd ∧
    nodes s' !! x = Some (mkNode (level nd) (nr_children nd) true false (ptes nd)).

(** [s'] is [s] with the nodes of [xs] marked stray and unlocked. *)
Definition marked (s s' : Store E) (xs : list Z) : Prop :=
  (∀ x, x ∉ xs → nodes s' !! x = nodes s !! x) ∧ pool s' = pool s ∧
  ∀ x, x ∈ xs → stray_node s s' x.

Lemma marked_app s s1 s2 xs ys :
  (∀ x, x ∈ xs → x ∉ ys) → marked s s1 xs → marked s1 s2 ys → marked s s2 (xs ++ ys).
Proof.
  intros Hd (A1 & A2 & A3) (B1 & B2 & B3). split; [| split; [congruence |]].
  - intros x Hx. rewrite B1, A1; set_solver.
  - intros x [Hx|Hx]%elem_of_app.
    + destruct (A3 x Hx) as (nd & N1 & N2). exists nd. split; [done |]. by rewrite B1 by (by apply Hd).
    + destruct (B3 x Hx) as (nd & N1 & N2). exists nd. split; [| done].
      rewrite <- A1; [done |]. intros Hx'. by apply (Hd x).
Qed.

Lemma marked_nil s : marked s s [].
Proof. split; [done |]. split; [done |]. set_solver. Qed.

Lemma marked_perm s s' xs ys : xs ≡ₚ ys → marked s s' xs → marked s s' ys.
Proof.
  intros Hp (A1 & A2 & A3). split; [| split; [done |]]; intros x.
  - rewrite <- Hp. apply A1.
  - rewrite <- Hp. apply A3.
Qed.

(** The loop over the slots, for any recursive call that marks its subtree. *)
Lemma mark_children_ok l n (f : Store E → Z → outcome (Z * Store E)) :
  (S l < NR_LEVELS)%nat →
  (∀ s c, tree_ok s l c → NoDup (owned s l c) →
     ∃ num s', f s c = Done (num, s') ∧ marked s s' (owned s l c) ∧ num = base_pages s l c) →
  ∀ k s nd, nodes s !! n = Some nd → level nd = S l →
    Z.of_nat (length (ptes nd)) = nr_subpage_per_huge → Z.of_nat k ≤ nr_subpage_per_huge →
    (∀ i, 0 ≤ i < Z.of_nat k → child_ok s (S l) (child_at s n (S l) i)) →
    NoDup (n :: (seqZ 0 (Z.of_nat k) ≫= slot_owned s (S l) n)) →
    ∃ num s', mark_children f k n s = Done (num, s') ∧
      marked s s' (seqZ 0 (Z.of_nat k) ≫= slot_owned s (S l) n) ∧
      num = foldr (λ i a, slot_pages s (S l) n i + a) 0 (seqZ 0 (Z.of_nat k)).
Proof.
  intros Hl Hf. induction k as [|k IH]; intros s nd Hnd Hlv Hlen Hk Hch Hdup.
  { exists 0, s. split; [done |]. split; [apply marked_nil | done]. }
  rewrite seqZ_S, Z.add_0_l in *. rewrite bind_app in *. set (i := Z.of_nat k) in *.
  rewrite bind_cons, app_nil_r in *. apply NoDup_cons in Hdup as [Hn Hdup].
  apply NoDup_app in Hdup as (Hdup1 & Hdis & Hdup2).
  assert (mark_children f (S k) n s =
    (match child_at s n (S l) i with ChPageTable pt => f s pt | _ => Done (0, s) end) ≫= λ '(num, s1),
      mark_children f k n s1 ≫= λ '(num', s2), Done (num + num', s2)) as ->.
  { cbn [mark_children]. fold i. unfold entry, read_pte, to_ref, entry_level, get_node, child_at.
    rewrite Hnd. destruct (lookup_lt_is_Some_2 (ptes nd) (Z.to_nat i)) as [pte Hp]; [lia |].
    destruct (Z.ltb_spec i nr_subpage_per_huge); [| lia]. cbn. rewrite Hp. cbn. rewrite Hnd. cbn.
    rewrite Hlv. by destruct (from_pte pte (S l)). }
  assert (∃ c s1, (match child_at s n (S l) i with ChPageTable pt => f s pt | _ => Done (0, s) end) =
      Done (c, s1) ∧ marked s s1 (slot_owned s (S l) n i) ∧ c = slot_pages s (S l) n i)
    as (c & s1 & -> & Hmk & ->).
  { specialize (Hch i ltac:(lia)). unfold slot_owned, slot_pages in *.
    rewrite managed_low in * by lia. destruct (child_at s n (S l) i) as [pt| |]; cbn in *.
    - rewrite Nat.sub_0_r in *. destruct (Hf s pt Hch Hdup2) as (num & s1 & H1 & H2 & H3). eauto.
    - exists 0, s. split; [done |]. split; [apply marked_nil | done].
    - exists 0, s. split; [done |]. split; [apply marked_nil | done]. }
  cbn [mbind outcome_bind]. destruct Hmk as (M1 & M2 & M3).
  assert (nodes s1 !! n = nodes s !! n) as Hns by (apply M1; set_solver).
  assert (∀ j, 0 ≤ j < i → ∀ x, x ∈ slot_owned s (S l) n j → nodes s1 !! x = nodes s !! x) as Hag.
  { intros j Hj x Hx. apply M1. apply Hdis. apply list_elem_of_bind. exists j. split; [done |].
    apply elem_of_seqZ. lia. }
  assert (∀ j, 0 ≤ j < i → slot_owned s1 (S l) n j = slot_owned s (S l) n j ∧
    slot_pages s1 (S l) n j = slot_pages s (S l) n j ∧
    child_ok s1 (S l) (child_at s1 n (S l) j)) as Hsame.
  { intros j Hj. assert (child_at s1 n (S l) j = child_at s n (S l) j) as Hcj by (by apply child_at_agree).
    destruct (slot_agree s s1 l n j) as (S1 & S2 & _); [lia | apply managed_low; lia | done | by apply Hag |].
    split; [done |]. split; [| rewrite Hcj; apply S2, Hch; lia]. specialize (Hag j Hj).
    unfold slot_pages, slot_owned in *. rewrite Hcj, managed_low in * by lia.
    destruct (child_at s n (S l) j); cbn in *; [| done | done].
    rewrite Nat.sub_0_r in *. apply base_pages_agree; [lia | done]. }
  assert (seqZ 0 i ≫= slot_owned s1 (S l) n = seqZ 0 i ≫= slot_owned s (S l) n) as Hso.
  { apply Forall_bind_ext, Forall_forall. intros j Hj%elem_of_seqZ. apply Hsame. lia. }
  destruct (IH s1 nd) as (num' & s2 & -> & Hmk2 & ->); try done; try lia.
  - congruence.
  - intros j Hj. apply Hsame. lia.
  - rewrite Hso. apply NoDup_cons. split; [set_solver | done].
  - cbn [mbind outcome_bind]. eexists _, s2. split; [done |]. rewrite Hso in Hmk2. split.
    + apply (marked_perm s s2 (slot_owned s (S l) n i ++ (seqZ 0 i ≫= slot_owned s (S l) n)));
        [apply Permutation_app_comm |].
      apply (marked_app s s1); [| done | done]. intros x Hx Hy. by apply (Hdis x).
    + rewrite foldr_app. cbn [foldr]. rewrite Z.add_0_r.
      rewrite (foldr_sum_ext (slot_pages s1 (S l) n) (slot_pages s (S l) n)).
      * generalize (seqZ 0 i) as js. induction js as [|j js IHj]; cbn; [lia |]. rewrite <- IHj. lia.
      * intros j Hj%elem_of_seqZ. apply Hsame. lia.
Qed.

Lemma set_stray_eq (s : Store E) n nd v : nodes s !! n = Some nd →
  set_stray s n v = Done (set_node s n (mkNode (level nd) (nr_children nd) v (lock nd) (ptes nd))).
Proof. intros Hn. unfold set_stray, get_node. by rewrite Hn. Qed.

(** [dfs_mark_stray_and_unlock] marks and unlocks exactly the nodes of the
    subtree and counts the pages of its lowest level. *)
Lemma mark_stray_ok l : ∀ s n,
  (1 ≤ l < NR_LEVELS)%nat → tree_ok s l n → NoDup (owned s l n) →
  ∃ num s', dfs_mark_stray_and_unlock l s n = Done (num, s') ∧ marked s s' (owned s l n) ∧
    num = base_pages s l n.
Proof.
  induction l as [|l IH]; intros s n Hl Htree Hnd; [lia |].
  pose proof Htree as [(nd & Hn & Hlv & Hlen & Hst & Hnr & Ha) Hch]%tree_ok_S.
  set (s1 := set_node s n (mkNode (level nd) (nr_children nd) true (lock nd) (ptes nd))).
  assert (set_stray s n true = Done s1) as Hs1 by (by apply set_stray_eq).
  assert (∀ x, x ≠ n → nodes s1 !! x = nodes s !! x) as Hother.
  { intros x Hx. unfold s1. cbn. by rewrite lookup_insert_ne. }
  assert (nodes s1 !! n = Some (mkNode (level nd) (nr_children nd) true (lock nd) (ptes nd))) as Hn1
    by apply lookup_insert_eq.
  destruct (decide (l = 0)%nat) as [->|Hne].
  - cbn [dfs_mark_stray_and_unlock]. rewrite Hs1. cbn [mbind outcome_bind].
    unfold node_unlock, set_lock, get_node. rewrite Hn1. cbn -[owned base_pages].
    eexists _, _. split; [done |]. split; [| cbn; by rewrite Hn]. rewrite flat_owned.
    + split; [| split; [done |]].
      * intros x Hx. cbn. rewrite !lookup_insert_ne by set_solver. done.
      * intros x ->%list_elem_of_singleton. exists nd. split; [done |]. cbn. by rewrite lookup_insert_eq.
    + intros i Hi c Hc. specialize (Hch i Hi). rewrite managed_low, Hc in Hch by lia.
      by apply Hch.
  - assert (dfs_mark_stray_and_unlock (S l) s n =
      mark_children (dfs_mark_stray_and_unlock l) (Z.to_nat nr_subpage_per_huge) n s1
        ≫= λ '(num, s2), node_unlock s2 n ≫= λ s3, Done (num, s3)) as ->.
    { cbn [dfs_mark_stray_and_unlock]. rewrite Hs1. by destruct l. }
    assert (∀ i, child_at s1 n (S l) i = child_at s n (S l) i) as Hca.
    { intros i. unfold child_at. by rewrite Hn1, Hn. }
    assert (∀ i, 0 ≤ i < nr_subpage_per_huge → slot_owned s1 (S l) n i = slot_owned s (S l) n i ∧
      slot_pages s1 (S l) n i = slot_pages s (S l) n i ∧
      child_ok s1 (S l) (child_at s1 n (S l) i)) as Hsl.
    { intros i Hi. destruct (nodup_slot s l n i Hnd Hi) as (_ & Hni & _).
      assert (∀ x, x ∈ slot_owned s (S l) n i → nodes s1 !! x = nodes s !! x) as Hag
        by (intros x Hx; apply Hother; by intros ->).
      destruct (slot_agree s s1 l n i) as (S1 & S2 & _); [lia | apply managed_low; lia | done | done |].
      split; [done |]. split; [| rewrite Hca; apply S2, Hch; [done | apply managed_low; lia]].
      unfold slot_pages, slot_owned in *. rewrite Hca, managed_low in * by lia.
      destruct (child_at s n (S l) i); cbn in *; [| done | done].
      rewrite Nat.sub_0_r in *. apply base_pages_agree; [lia | done]. }
    pose proof nr_pos as Hpos.
    assert (slots ≫= slot_owned s1 (S l) n = slots ≫= slot_owned s (S l) n) as Hso.
    { apply Forall_bind_ext, Forall_forall. intros i Hi%slot_elem. by apply Hsl. }
    destruct (mark_children_ok l n (dfs_mark_stray_and_unlock l) ltac:(lia)) with
      (k := Z.to_nat nr_subpage_per_huge) (s := s1) (nd := mkNode (level nd) (nr_children nd) true (lock nd) (ptes nd))
      as (num & s2 & -> & Hmk & ->); rewrite ?Z2Nat.id by lia; try done.
    + intros s0 c Ht0 Hd0. apply IH; [lia | done | done].
    + intros i Hi. by apply Hsl.
    + fold slots. rewrite Hso. by rewrite <- owned_S.
    + rewrite Z2Nat.id in Hmk by lia. fold slots in Hmk. fold slots. rewrite Hso in Hmk.
      destruct Hmk as (M1 & M2 & M3). rewrite owned_S in Hnd. apply NoDup_cons in Hnd as [Hn0 _].
      cbn [mbind outcome_bind]. unfold node_unlock, set_lock, get_node. rewrite M1, Hn1 by done.
      cbn -[owned base_pages]. eexists _, _. split; [done |]. split.
      * rewrite owned_S. split; [| split; [done |]].
        -- intros x Hx. cbn. rewrite lookup_insert_ne, M1, Hother by set_solver. done.
        -- intros x Hx. cbn. destruct (decide (x = n)) as [->|Hxn].
           ++ exists nd. split; [done |]. cbn. by rewrite lookup_insert_eq.
           ++ destruct (M3 x) as (nd' & N1 & N2); [set_solver |]. exists nd'. cbn.
              rewrite lookup_insert_ne by done. split; [| done]. by rewrite <- Hother.
      * rewrite base_pages_S by lia. apply foldr_sum_ext. intros i Hi%slot_elem. by apply Hsl.
Qed.

(** *** Replacing the current entry *)

(** The addresses of the address space around the locked range. *)
Definition window (c : Cursor) (v : Z) : Prop :=
  managed_va v ∧ v / page_size (S NR_LEVELS) = start (barrier_va c) / page_size (S NR_LEVELS).

Lemma window_slot s root c v :
  cur_ok s root c → va c < node_end c → window c v →
  same_slots NR_LEVELS (c_level c) (va c) v ↔ slot_start c ≤ v < slot_end c.
Proof.
  intros Hc Hin [_ Hw]. destruct (co_levels _ _ _ Hc) as [Hl Hg].
  rewrite same_slots_iff; [| lia |].
  - symmetry. apply in_page. lia.
  - rewrite Hw. symmetry. apply (same_page_up _ _ (S (guard_level c))); [lia |].
    by apply (va_node s root c).
Qed.

Lemma cur_ok_agree s s' root c :
  cur_ok s root c → pool s' = pool s →
  (∀ x, x ∈ owned s NR_LEVELS root → nodes s' !! x = nodes s !! x) → cur_ok s' root c.
Proof.
  intros [Hpt Hl Hlen (g & G1 & G2) Hpath Hva Hlow Hr Hlk] Hp Hag. constructor; try done.
  - by apply (pt_ok_agree s).
  - exists g. split; [done |]. rewrite (descend_agree s); [done | done | done |].
    apply (ro_managed _ _ Hr). pose proof (ro_bounds _ _ Hr). lia.
  - intros j Hj. destruct (Hpath j Hj) as (n & N1 & N2). exists n. split; [done |].
    rewrite (descend_agree s); [done | done | done |]. apply Hlow. lia.
  - intros x. rewrite (owned_agree s) by done. intros Hx. unfold lock_of. rewrite Hag by done.
    change (lock_of s x = true ↔ on_path s' root (barrier_va c) (guard_level c) x).
    rewrite (Hlk x Hx). unfold on_path. do 2 (f_equiv; intros ?). split; intros (Hv & Ht & Hd);
      (split; [done |]); (split; [done |]); rewrite <- Hd; [| symmetry]; apply descend_agree; try done;
      by apply (ro_managed _ _ Hr).
Qed.

Section Replace.
Context {Item : Type} (item_from_raw : Z → nat → P → Item).

Lemma replace_cur_ok s root c new n :
  cur_ok s root c → va c < end_ (barrier_va c) →
  descend s NR_LEVELS root (va c) (c_level c) = Some n →
  new = ChNone ∨ (∃ pa p, new = ChFrame pa (c_level c) p ∧ frame_ok (c_level c) pa ∧ prop_ok p) →
  let old := child_at s n (c_level c) (pte_index (va c) (c_level c)) in
  (∀ pt, old = ChPageTable pt → TOP_LEVEL_CAN_UNMAP = true ∨ c_level c ≠ NR_LEVELS) →
  ∃ frag s', replace_cur_entry item_from_raw c s new = Done (frag, s') ∧ cur_ok s' root c ∧
    pool s' = pool s ∧
    (∀ v, window c v → trans s' NR_LEVELS root v =
       if decide (slot_start c ≤ v < slot_end c)
       then match new with ChFrame pa _ p => Some (pa + (v - slot_start c), p) | _ => None end
       else trans s NR_LEVELS root v) ∧
    frag = match old with
           | ChNone => None
           | ChFrame pa _ p => Some (FragMapped (va c) (item_from_raw pa (c_level c) p))
           | ChPageTable pt => Some (FragStray pt (va c) (page_size (c_level c))
                                               (base_pages s (c_level c - 1) pt))
           end ∧
    (∀ pt, old = ChPageTable pt → ∀ x, x ∈ owned s (c_level c - 1) pt → stray_node s s' x) ∧
    (small s root → (new = ChNone ∨ c_level c = 1%nat) → small s' root).
Proof.
  intros Hc Hlt Hd Hnew old Hold. destruct (co_levels _ _ _ Hc) as [Hl Hg].
  destruct (inside_range s root c Hc Hlt) as [Hin Hm].
  destruct (cur_entry_step s root c) as (n' & pte & Hd' & E1 & E2 & _ & Hok); try done.
  rewrite Hd in Hd'. injection Hd' as <-.
  destruct (replace_step s root (va c) (c_level c) n) with (pte := pte) (c := new)
    as (s1 & R1 & Hst & R3 & R4); [by apply Hc | done | lia | done | done | done |].
  assert (cur_ok s1 root c) as Hc1.
  { apply (cur_ok_step s s1 root c n new); try done. intros x. unfold slot_owned.
    destruct (managed _ _); [| set_solver]. rewrite (ps_child _ _ _ _ _ _ _ Hst).
    destruct Hnew as [->|(? & ? & -> & _)]; set_solver. }
  assert (∀ v, window c v → trans s1 NR_LEVELS root v =
       if decide (slot_start c ≤ v < slot_end c)
       then match new with ChFrame pa _ p => Some (pa + (v - slot_start c), p) | _ => None end
       else trans s NR_LEVELS root v) as Htr.
  { intros v Hv. pose proof (window_slot s root c v Hc Hin Hv) as Hslot. destruct (decide _) as [Hs|Hs].
    - rewrite (ps_in _ _ _ _ _ _ _ Hst v (proj1 Hv)) by tauto.
      destruct Hnew as [->|(pa & p & -> & _)]; [done |]. cbn [child_trans].
      rewrite (page_mod v (va c)); [done | lia | apply in_page; [lia | exact Hs]].
    - apply (ps_out _ _ _ _ _ _ _ Hst v (proj1 Hv)). tauto. }
  assert (small s root → (new = ChNone ∨ c_level c = 1%nat) → small s1 root) as Hsmall.
  { intros Hsm Hn1. apply (small_step s s1 root (va c) (c_level c) n new); try done; [| lia].
    destruct Hnew as [->|(pa & p & -> & _)]; [done |]. by destruct Hn1. }
  unfold replace_cur_entry. rewrite E1. cbn [mbind outcome_bind]. rewrite R1. cbn [mbind outcome_bind].
  fold old. destruct old as [pt|pa l p|] eqn:Ho.
  2-3: eexists _, s1; split; [done |]; do 4 (split; [done |]); by split.
  assert (negb TOP_LEVEL_CAN_UNMAP && (c_level c =? NR_LEVELS)%nat = false) as ->.
  { destruct (Hold pt eq_refl) as [->|Hne]; [done |].
    destruct (Nat.eqb_spec (c_level c) NR_LEVELS); [done | apply andb_false_r]. }
  destruct (at_slot s root (va c) (c_level c) n) as (_ & Hndn & _ & _ & Hmt & _ & Hi & Hok');
    [by apply Hc | done | lia | done |].
  change (child_at s n (c_level c) (pte_index (va c) (c_level c))) with old in Hok'. rewrite Ho in Hok'.
  cbn [child_ok] in Hok'. destruct (c_level c) as [|[|l]] eqn:Hlv; [lia | done |].
  replace (S (S l) - 1)%nat with (S l) in * by lia.
  assert (slot_owned s (S (S l)) n (pte_index (va c) (S (S l))) = owned s (S l) pt) as Hso.
  { unfold slot_owned. rewrite Hmt. unfold old in Ho. rewrite Ho. done. }
  destruct (nodup_slot s (S l) n _ Hndn Hi) as (Hndp & Hnp & _). rewrite Hso in Hndp, Hnp.
  assert (∀ x, x ∈ owned s (S l) pt → nodes s1 !! x = nodes s !! x) as Hag.
  { intros x Hx. apply R4. by intros ->. }
  destruct (mark_stray_ok (S l) s1 pt) as (num & s2 & -> & Hmk & ->).
  { lia. }
  { by apply (tree_ok_agree s); [lia | |]. }
  { rewrite (owned_agree s) by (lia || done). done. }
  cbn [mbind outcome_bind]. rewrite (owned_agree s) in Hmk by (lia || done).
  destruct Hmk as (M1 & M2 & M3).
  assert (∀ x, x ∈ owned s1 NR_LEVELS root → nodes s2 !! x = nodes s1 !! x) as Hag2.
  { intros x Hx. apply M1. rewrite <- Hso. by apply (ps_owned _ _ _ _ _ _ _ Hst). }
  eexists _, s2. split; [done |]. split; [by apply (cur_ok_agree s1) |]. split; [congruence |].
  split; [intros v Hv; rewrite (trans_agree s1) by (done || apply Hv); by apply Htr |].
  split; [by rewrite base_pages_agree with (s := s) by (lia || done) |].
  split; [| intros Hsm Hn1; apply (small_agree s1); [done | by apply Hsmall]].
  intros pt' [= <-] x Hx. destruct (M3 x Hx) as (nd & N1 & N2). exists nd. split; [| done]. by rewrite <- Hag.
Qed.
End Replace.
End CursorOk.

(** ** Properties *)

Section Navigation.
Context {PC : PagingConsts} {E P : Type} {PO : PteOps E P} {DP : EqDecision P}.
Context {PL : @PagingLaws PC} {EL : @PteLaws PC E P PO}.
Context {Item : Type} (item_from_raw : Z → nat → P → Item).

(** [Cursor::jump]: an address outside the range is refused with the cursor
    unchanged; to every page-aligned address of the range the cursor jumps,
    whatever the level it is at, if it is not behind the node that it locked.
    [Cursor::next] is [query], and moves behind the range that it reports. *)
Theorem jump_next_exact s root c v :
  cur_ok s root c → (BASE_PAGE_SIZE | v) → va c < node_end c →
  (if bool_decide (start (barrier_va c) ≤ v < end_ (barrier_va c))
   then ∃ c', jump c v = Done (ROk c') ∧ cur_ok s root c' ∧ same_lock c c' ∧ va c' = v
   else jump c v = Done (RErr (InvalidVaddr v))) ∧
  if end_ (barrier_va c) <=? va c
  then next item_from_raw c s = Done (None, c)
  else ∃ r item c1 c', query item_from_raw c s = Done (ROk (r, item), c1) ∧
    next item_from_raw c s = Done (Some (r, item), c') ∧
    cur_ok s root c' ∧ same_lock c c' ∧ start r ≤ va c < end_ r ∧ va c' = end_ r.
Proof.
  intros Hc Hal Hin. destruct (co_levels _ _ _ Hc) as [Hl Hg].
  pose proof (proj2 levels_ok) as Hmax. assert (0 < BASE_PAGE_SIZE) by (rewrite <- page_size_1; apply page_size_pos; lia). split.
  - unfold jump. apply Z.mod_divide in Hal as Hm; [| lia]. rewrite Hm. cbn [Z.eqb assert_that mbind outcome_bind].
    destruct (Z.leb_spec (start (barrier_va c)) v), (Z.ltb_spec v (end_ (barrier_va c))); cbn [andb negb].
    + rewrite bool_decide_eq_true_2 by lia.
      destruct (jump_loop_ok s root v (S MAX_NR_LEVELS) c) as (c' & -> & Hc'); try done; [lia |].
      by exists c'.
    + by rewrite bool_decide_eq_false_2 by lia.
    + by rewrite bool_decide_eq_false_2 by lia.
    + by rewrite bool_decide_eq_false_2 by lia.
  - unfold next, query. destruct (Z.leb_spec (end_ (barrier_va c)) (va c)) as [|Hlt]; [done |].
    destruct (inside_range s root c Hc Hlt) as [_ Hm].
    destruct (query_loop_ok item_from_raw s root (S MAX_NR_LEVELS) c) as
      (r & item & c1 & -> & Hc1 & [L1 L2] & V & -> & _); try done; [lia |].
    cbn [mbind outcome_bind]. rewrite <- V in Hlt, Hm. rewrite <- L2 in Hlt.
    destruct (inside_range s root c1 Hc1 Hlt) as [Hin1 _].
    destruct (move_forward_ok s root c1) as (c2 & -> & Hc2 & [M1 M2] & V2 & _); try done.
    destruct (slot_bounds s root c1) as (B1 & _); try done. rewrite V in B1.
    eexists _, item, c1, c2. do 3 (split; [done |]). split; [split; congruence | by split].
Qed.
End Navigation.
