(* ===== verification/PageTableMap.v ===== *)
(** * What the cursor does to the address space

    The operations of [osxtd/src/mm/page_table/cursor/mod.rs] against the page
    walk: mapping, querying, finding, unmapping and protecting change and report
    exactly the translations they should. *)

From S2P Require Import Prelude Align PageTableNode X86Pte PageTableCursor.
Import Align.
Local Open Scope Z_scope.

Section Find.
Context {PC : PagingConsts} {E P : Type} {PO : PteOps E P} {DP : EqDecision P}.
Context {PL : @PagingLaws PC} {EL : @PteLaws PC E P PO}.

(** An upper bound on the rounds of the loop of [find_next_impl]. *)
Definition find_measure (e : Z) (c : Cursor) : nat :=
  (Z.to_nat ((e - va c) / BASE_PAGE_SIZE) * S NR_LEVELS + c_level c)%nat.

(** A table that reports no children maps nothing. *)
Lemma empty_table s l pt nd v :
  (S l < NR_LEVELS)%nat → tree_ok s (S l) pt → nodes s !! pt = Some nd → nr_children nd = 0 →
  trans s (S l) pt v = None.
Proof.
  intros Hl Htree Hn Hz. rewrite trans_S. apply tree_ok_S in Htree as [(nd' & Hn' & _ & _ & _ & Hnr & _) _].
  rewrite Hn in Hn'. injection Hn' as <-. rewrite Hz in Hnr.
  destruct (child_is_none (child_at s pt (S l) (pte_index v (S l)))) eqn:Hc.
  - by destruct (child_at s pt (S l) (pte_index v (S l))).
  - pose proof (present_count_pos s pt (S l) (pte_index v (S l)) (pte_index_range v (S l) ltac:(lia))
      (managed_low (S l) _ Hl) Hc). lia.
Qed.

Lemma base_pos : 0 < BASE_PAGE_SIZE.
Proof. rewrite <- page_size_1. apply page_size_pos. lia. Qed.

(** Moving to the end of a slot makes progress. *)
Lemma move_measure e c c' :
  (1 ≤ c_level c)%nat → (c_level c' ≤ NR_LEVELS)%nat → va c < e → va c < va c' →
  (BASE_PAGE_SIZE | e) → (BASE_PAGE_SIZE | va c) → (BASE_PAGE_SIZE | va c') →
  (find_measure e c' < find_measure e c)%nat.
Proof.
  intros Hl Hl' Hlt Hmv [a ->] [b Hb] [b' Hb']. unfold find_measure. rewrite Hb, Hb' in *.
  pose proof base_pos as Hp. rewrite <- !Z.mul_sub_distr_r, !Z.div_mul by lia.
  assert (b < b') by nia. assert (b < a) by nia.
  assert (S (Z.to_nat (a - b')) ≤ Z.to_nat (a - b))%nat as Hle by lia. nia.
Qed.

(** What the loop found, relative to the state it was called in. *)
Definition find_post (root : Z) (fus split : bool) (e : Z) (c : Cursor) (s : Store E)
    (found : option Z) (c' : Cursor) (s' : Store E) : Prop :=
  cur_ok s' root c' ∧ same_lock c c' ∧ (split = false ∨ small s root → s' = s) ∧
  (∀ v, managed_va v → trans s' NR_LEVELS root v = trans s NR_LEVELS root v) ∧
  match found with
  | None => e ≤ va c' ∧ ∀ v, va c ≤ v < e → trans s NR_LEVELS root v = None
  | Some w =>
      w = va c' ∧ va c ≤ w < e ∧ (∀ v, va c ≤ v < w → trans s NR_LEVELS root v = None) ∧
      ∃ n, descend s' NR_LEVELS root w (c_level c') = Some n ∧
        match child_at s' n (c_level c') (pte_index w (c_level c')) with
        | ChNone => False
        | ChFrame _ _ _ => split = true → slot_start c' = w ∧ slot_end c' ≤ e
        | ChPageTable _ => fus = true ∧ slot_start c' = w ∧ slot_end c' ≤ e ∧
            (TOP_LEVEL_CAN_UNMAP = true ∨ c_level c' ≠ NR_LEVELS)
        end
  end.

(** One more round in front. *)
Lemma find_post_step root fus split e c s c1 s1 found c' s' :
  same_lock c c1 → va c ≤ va c1 → (split = false ∨ small s root → s1 = s) →
  (∀ v, managed_va v → trans s1 NR_LEVELS root v = trans s NR_LEVELS root v) →
  (∀ v, va c ≤ v < e → managed_va v) →
  (∀ v, va c ≤ v < va c1 → v < e → trans s NR_LEVELS root v = None) →
  find_post root fus split e c1 s1 found c' s' → find_post root fus split e c s found c' s'.
Proof.
  intros [L1 L2] Hva Hs Htr Hm Hun (Hc' & [M1 M2] & Hs' & Htr' & Hf).
  split; [done |]. split; [split; congruence |]. split; [intros Hsp; pose proof (Hs Hsp); subst s1; by apply Hs' |].
  split; [intros v Hv; rewrite Htr', Htr by done; done |].
  assert (∀ hi, (∀ v, va c1 ≤ v < hi → trans s1 NR_LEVELS root v = None) → hi ≤ e →
    ∀ v, va c ≤ v < hi → trans s NR_LEVELS root v = None) as Hall.
  { intros hi Hh Hle v Hv. destruct (decide (v < va c1)); [apply Hun; lia |].
    rewrite <- Htr by (apply Hm; lia). apply Hh. lia. }
  destruct found as [w|].
  - destruct Hf as (-> & Hw & Hu & Hn). split; [done |]. split; [lia |].
    split; [by apply Hall; [| lia] | done].
  - destruct Hf as [He Hu]. split; [done |]. by apply Hall.
Qed.

(** The free frames that the loop may need for splitting. *)
Definition frames_for (split : bool) (root : Z) (c : Cursor) (s : Store E) : Prop :=
  split = true → (NR_LEVELS ≤ length (pool s))%nat ∨
    ((c_level c ≤ length (pool s))%nat ∧
     ∀ n, descend s NR_LEVELS root (va c) (c_level c) = Some n →
       ∃ pa l p, child_at s n (c_level c) (pte_index (va c) (c_level c)) = ChFrame pa l p).

(** The frames that the loop has used: a huge page under the cursor is split at
    most once per level, and then the loop ends. *)
Definition at_frame (root : Z) (c : Cursor) (s : Store E) : Prop :=
  ∃ n pa l p, descend s NR_LEVELS root (va c) (c_level c) = Some n ∧
    child_at s n (c_level c) (pte_index (va c) (c_level c)) = ChFrame pa l p.
Definition used (root : Z) (c : Cursor) (s s' : Store E) : Prop :=
  (length (pool s) ≤ length (pool s') + NR_LEVELS)%nat ∧
  (at_frame root c s → (length (pool s) ≤ length (pool s') + c_level c)%nat).

Lemma used_same root c s : used root c s s.
Proof. split; [| intros _]; lia. Qed.

(** The loop is right from [c] and [s] on. *)
Definition find_right (root : Z) (fus split : bool) (e : Z) (fuel : nat) : Prop := ∀ c s,
  cur_ok s root c → e ≤ end_ (barrier_va c) → (BASE_PAGE_SIZE | e) →
  (find_measure e c < fuel)%nat → frames_for split root c s →
  ∃ found c' s', find_loop fuel fus split e c s = Done (found, c', s') ∧
    find_post root fus split e c s found c' s' ∧ used root c s s'.

Section Round.
Context (root : Z) (fus split : bool) (e : Z) (fuel : nat) (c : Cursor) (s : Store E) (n : Z).
Hypotheses (IH : find_right root fus split e fuel) (Hc : cur_ok s root c)
  (He : e ≤ end_ (barrier_va c)) (Hal : (BASE_PAGE_SIZE | e))
  (Hf : (find_measure e c < S fuel)%nat) (Hlt : va c < e)
  (Hd : descend s NR_LEVELS root (va c) (c_level c) = Some n).

Lemma round_in : va c < node_end c.
Proof using Hc He Hlt.
  pose proof (co_range _ _ _ Hc) as [[Hr1 [Hr2 Hr3]] _ Hman]. unfold node_end. clear Hf. lia.
Qed.

Lemma round_managed v : va c ≤ v < e → managed_va v.
Proof using Hc He.
  clear Hf. intros Hv. pose proof (co_range _ _ _ Hc) as [_ _ Hman]. pose proof (co_va _ _ _ Hc) as [[? _] _].
  apply Hman. lia.
Qed.

(** Moving over a slot that maps nothing. *)
Lemma round_move :
  (∀ v, slot_start c ≤ v < slot_end c → trans s NR_LEVELS root v = None) →
  (split = true → (NR_LEVELS ≤ length (pool s))%nat) →
  (∀ pa l p, child_at s n (c_level c) (pte_index (va c) (c_level c)) ≠ ChFrame pa l p) →
  ∃ found c' s', (move_forward c ≫= λ c, find_loop fuel fus split e c s) = Done (found, c', s') ∧
    find_post root fus split e c s found c' s' ∧ used root c s s'.
Proof using All.
  intros Hun Hpool Hnf. pose proof round_in as Hin. pose proof (round_managed (va c) ltac:(lia)) as Hm.
  destruct (slot_bounds s root c) as (B1 & B2 & B3 & B4); try done.
  destruct (move_forward_ok s root c) as (c1 & -> & Hc1 & L & V1 & _); try done.
  cbn [mbind outcome_bind]. pose proof (co_levels _ _ _ Hc1) as [? ?]. pose proof (co_levels _ _ _ Hc) as [? ?].
  destruct (IH c1 s) as (found & c' & s' & -> & Hpost & [Hu _]); try done.
  - by destruct L as [_ ->].
  - assert (find_measure e c1 < find_measure e c)%nat; [| lia].
    apply move_measure; try done; try lia; [apply Hc | apply Hc1].
  - intros Hsp. left. by apply Hpool.
  - exists found, c', s'. split; [done |]. split.
    + apply (find_post_step root fus split e c s c1 s); try done; [lia | apply round_managed |].
      intros v Hv _. apply Hun. lia.
    + split; [done |]. intros (n' & pa & l & p & Hd' & Hch). rewrite Hd in Hd'. injection Hd' as <-.
      by destruct (Hnf pa l p).
Qed.

(** Going down into a table, with a store that maps the same. *)
Lemma round_push s1 pt :
  cur_ok s1 root c → descend s1 NR_LEVELS root (va c) (c_level c) = Some n →
  child_at s1 n (c_level c) (pte_index (va c) (c_level c)) = ChPageTable pt →
  (split = false ∨ small s root → s1 = s) →
  (∀ v, managed_va v → trans s1 NR_LEVELS root v = trans s NR_LEVELS root v) →
  (∀ c1, S (c_level c1) = c_level c → va c1 = va c →
     descend s1 NR_LEVELS root (va c) (c_level c1) = Some pt → frames_for split root c1 s1) →
  (∀ c1 s', S (c_level c1) = c_level c → va c1 = va c →
     descend s1 NR_LEVELS root (va c) (c_level c1) = Some pt → used root c1 s1 s' → used root c s s') →
  ∃ found c' s', (push_level c pt ≫= λ c, find_loop fuel fus split e c s1) = Done (found, c', s') ∧
    find_post root fus split e c s found c' s' ∧ used root c s s'.
Proof.
  intros Hc1 Hd1 Hch Hs1 Htr Hfr Hused. pose proof round_in as Hin.
  pose proof (round_managed (va c) ltac:(lia)) as Hm.
  destruct (push_level_ok s1 root c n pt) as (c2 & -> & Hc2 & L & V2 & Hlv & Hdp); try done.
  cbn [mbind outcome_bind].
  destruct (IH c2 s1) as (found & c' & s' & -> & Hpost & Hu); try done.
  - by destruct L as [_ ->].
  - unfold find_measure in *. rewrite V2. lia.
  - by apply Hfr.
  - exists found, c', s'. split; [done |]. split; [| by apply (Hused c2)].
    apply (find_post_step root fus split e c s c2 s1); try done; [lia | apply round_managed |].
    intros v Hv _. lia.
Qed.

(** Splitting a huge page and going down. *)
Lemma round_split pte pa l p :
  frames_for split root c s → split = true →
  entry s n (pte_index (va c) (c_level c)) = Done (mkEntry pte (pte_index (va c) (c_level c)) n) →
  child_at s n (c_level c) (pte_index (va c) (c_level c)) = ChFrame pa l p →
  (va c =? slot_start c) && (slot_end c <=? e) = false →
  ∃ found c' s', (split_if_mapped_huge s (mkEntry pte (pte_index (va c) (c_level c)) n) ≫= λ '(child, s),
      unwrap child ≫= λ split_child, push_level c split_child ≫= λ c,
      find_loop fuel fus split e c s) = Done (found, c', s') ∧
    find_post root fus split e c s found c' s' ∧ used root c s s'.
Proof.
  intros Hfr Hsp He2 Hch Hfit. pose proof round_in as Hin.
  pose proof (round_managed (va c) ltac:(lia)) as Hm. destruct (co_levels _ _ _ Hc) as [Hl Hg].
  assert (2 ≤ c_level c)%nat as Hl2.
  { destruct (decide (c_level c = 1)%nat) as [H1|]; [exfalso | lia].
    pose proof (co_va _ _ _ Hc) as [_ Hva]. unfold slot_start, slot_end in Hfit. rewrite H1 in Hfit.
    rewrite page_start_aligned, page_size_1 in Hfit by (lia || by rewrite page_size_1).
    rewrite Z.eqb_refl in Hfit. destruct Hva as [q Hq], Hal as [q' Hq'].
    pose proof base_pos. assert (q < q') by nia.
    destruct (Z.leb_spec (va c + BASE_PAGE_SIZE) e); [done | nia]. }
  destruct (pool s) as [|new rest] eqn:Hp.
  { destruct (Hfr Hsp) as [Hx|[Hx _]]; rewrite Hp in Hx; cbn in Hx; lia. }
  destruct (new_table_ok s root c n pte new rest Hc ltac:(lia) Hl2 Hd Hp He2) as
    (s1 & H1 & H2 & H3 & H4 & H5 & _ & _ & H7 & H8); [by rewrite Hch |].
  rewrite Hch in H1, H7. cbn [child_is_none] in H1. rewrite H1. cbn [mbind outcome_bind unwrap].
  assert (∀ c1, S (c_level c1) = c_level c → ∃ pa' p',
    child_at s1 new (c_level c1) (pte_index (va c1) (c_level c1)) = ChFrame pa' (c_level c1) p') as Hsub.
  { intros c1 Hlv1. replace (c_level c - 1)%nat with (c_level c1) in H7 by lia.
    destruct (H7 eq_refl (pte_index (va c1) (c_level c1))) as (pa' & p' & Hx); [| eauto].
    apply pte_index_range. destruct (co_levels _ _ _ H2). lia. }
  apply (round_push s1 new); try done.
  { rewrite Hsp. intros [|Hsm]; [done |].
    assert (c_level c = 1)%nat; [| lia]. by apply (small_leaf s root (va c) (c_level c) n pa l p); try done; lia. }
  - intros c1 Hlv1 V1 Hd1 _. right. rewrite H5. split.
    + destruct (Hfr Hsp) as [Hx|[Hx _]]; rewrite Hp in Hx; cbn in Hx; lia.
    + intros n1 Hn1. rewrite V1 in Hn1. rewrite Hd1 in Hn1. injection Hn1 as <-.
      destruct (Hsub c1 Hlv1) as (pa' & p' & Hx). eauto.
  - intros c1 s' Hlv1 V1 Hd1 [_ Hu]. destruct (Hsub c1 Hlv1) as (pa' & p' & Hx).
    assert (at_frame root c1 s1) as Hat by (exists new, pa', (c_level c1), p'; by rewrite V1 in *).
    specialize (Hu Hat). rewrite H5 in Hu. unfold used. rewrite Hp. cbn. split; [| intros _]; lia.
Qed.
End Round.

Lemma find_loop_ok root fus split e fuel : find_right root fus split e fuel.
Proof.
  induction fuel as [|fuel IH]; intros c s Hc He Hal Hf Hfr; [lia |]. cbn [find_loop].
  destruct (Z.ltb_spec (va c) e) as [Hlt|Hge].
  2: { exists None, c, s. split; [done |]. split; [| apply used_same]. split; [done |]. split; [done |].
       split; [done |]. split; [done |]. split; [done |]. intros v Hv. lia. }
  pose proof (round_in root e c s Hc He Hlt) as Hin.
  pose proof (round_managed root e c s Hc He (va c) ltac:(lia)) as Hm.
  destruct (co_levels _ _ _ Hc) as [Hl Hg].
  rewrite (cur_va_range_eq s root c) by done. cbn [mbind outcome_bind start end_].
  destruct (cur_entry_step s root c) as (n & pte & Hd & E1 & E2 & E3 & Hok); try done.
  rewrite E1. cbn [mbind outcome_bind]. rewrite E3. cbn [mbind outcome_bind].
  pose proof (slot_trans s root c n) as Htr.
  assert (split = true → (∀ pa l p, child_at s n (c_level c) (pte_index (va c) (c_level c)) ≠ ChFrame pa l p) →
    (NR_LEVELS ≤ length (pool s))%nat) as Hpool.
  { intros Hsp Hnf. destruct (Hfr Hsp) as [|[_ Hx]]; [done |]. destruct (Hx n Hd) as (pa & l & p & Hxx).
    by destruct (Hnf pa l p). }
  assert (∀ b, (va c =? slot_start c) && (slot_end c <=? e) = b → b = true →
    slot_start c = va c ∧ slot_end c ≤ e) as Hfits.
  { intros b <- [Ha%Z.eqb_eq Hb%Z.leb_le]%andb_true_iff. done. }
  destruct (child_at s n (c_level c) (pte_index (va c) (c_level c))) as [pt|pa l p|] eqn:Hch.
  - destruct (fus && ((va c =? slot_start c) && (slot_end c <=? e)) &&
      (TOP_LEVEL_CAN_UNMAP || negb (c_level c =? NR_LEVELS)%nat)) eqn:Hstop.
    + apply andb_true_iff in Hstop as [[-> Hfit]%andb_true_iff Htop].
      exists (Some (va c)), c, s. split; [done |]. split; [| apply used_same]. do 4 (split; [done |]). split; [done |].
      split; [lia |]. split; [intros v Hv; lia |]. exists n. rewrite Hch. split; [done |].
      split; [done |]. destruct (Hfits _ eq_refl Hfit). split; [done |]. split; [done |].
      destruct TOP_LEVEL_CAN_UNMAP; [by left | right]. by destruct (Nat.eqb_spec (c_level c) NR_LEVELS).
    + cbn [child_ok] in Hok. destruct (c_level c) as [|[|l]] eqn:Hlv; [lia | done |].
      replace (S (S l) - 1)%nat with (S l) in * by lia.
      pose proof Hok as [(nd & Hnd & _) _]%tree_ok_S. unfold get_node. rewrite Hnd.
      cbn [unwrap mbind outcome_bind]. destruct (Z.eqb_spec (nr_children nd) 0) as [Hz|Hz]; cbn [negb].
      * apply round_move with n; rewrite ?Hlv; try done.
        -- intros v Hv. rewrite (proj2 (Htr v Hc Hm Hd Hv)). by apply (empty_table s l pt nd v); [lia | ..].
        -- intros Hsp. by apply Hpool.
        -- intros pa l0 p. by rewrite Hch.
      * apply round_push with n; try done; rewrite ?Hlv; try done.
        { intros c1 _ _ _ Hsp. left. by apply Hpool. }
        intros c1 s' _ _ _ [Hu _]. split; [done |]. intros (n' & pa & l0 & p & Hd' & Hch').
        rewrite Hlv in Hd', Hch'. rewrite Hd in Hd'. injection Hd' as <-. by rewrite Hch in Hch'.
  - destruct ((va c =? slot_start c) && (slot_end c <=? e)) eqn:Hfit; cbn [orb].
    + exists (Some (va c)), c, s. split; [done |]. split; [| apply used_same]. do 4 (split; [done |]). split; [done |].
      split; [lia |]. split; [intros v Hv; lia |]. exists n. rewrite Hch. split; [done |].
      intros _. by apply (Hfits _ eq_refl).
    + destruct split; cbn [negb].
      * by apply round_split with pa l p.
      * exists (Some (va c)), c, s. split; [done |]. split; [| apply used_same]. do 4 (split; [done |]). split; [done |].
        split; [lia |]. split; [intros v Hv; lia |]. exists n. rewrite Hch. done.
  - apply round_move with n; try done.
    + intros v Hv. by rewrite (proj2 (Htr v Hc Hm Hd Hv)).
    + intros Hsp. by apply Hpool.
    + intros pa l p. by rewrite Hch.
Qed.
End Find.

(** ** Operations *)

Section Operations.
Context {PC : PagingConsts} {E P : Type} {PO : PteOps E P} {DP : EqDecision P}.
Context {PL : @PagingLaws PC} {EL : @PteLaws PC E P PO}.
Context {Item : Type} (item_into_raw : Item → Z * nat * P) (item_from_raw : Z → nat → P → Item).

(** The translation of [v] that the hardware finds. *)
Definition walk (s : Store E) (root v : Z) : outcome (option (Z * P)) :=
  page_walk s NR_LEVELS root v.

Lemma walk_trans s root v : pt_ok s root → managed_va v →
  walk s root v = Done (trans s NR_LEVELS root v).
Proof. intros Hpt Hv. by apply page_walk_trans; [| apply Hpt |]. Qed.

Lemma range_window s root c v :
  cur_ok s root c → start (barrier_va c) ≤ v < end_ (barrier_va c) → window c v.
Proof.
  intros Hc Hv. pose proof (co_range _ _ _ Hc) as [[? [? ?]] _ Hman]. destruct (co_levels _ _ _ Hc).
  split; [by apply Hman |]. apply (same_page_up _ _ (S (guard_level c))); [lia |].
  apply in_page; [lia |]. pose proof (page_bounds (start (barrier_va c)) (S (guard_level c)) ltac:(lia)). lia.
Qed.

Lemma window_lock c c' v : same_lock c c' → window c v → window c' v.
Proof. intros [_ H2] [H3 H4]. split; [done | by rewrite H2]. Qed.

Lemma find_next_impl_ok root fus split fuel len c s :
  cur_ok s root c → 0 ≤ len → (BASE_PAGE_SIZE | len) → va c + len ≤ end_ (barrier_va c) →
  (find_measure (va c + len) c < fuel)%nat →
  (split = true → (NR_LEVELS ≤ length (pool s))%nat) →
  ∃ found c' s', find_next_impl fuel len fus split c s = Done (found, c', s') ∧
    find_post root fus split (va c + len) c s found c' s' ∧ used root c s s'.
Proof.
  intros Hc Hlen Hal He Hf Hp. unfold find_next_impl. pose proof base_pos as Hb.
  pose proof (co_range _ _ _ Hc) as [[? [? ?]] _ _]. pose proof (co_va _ _ _ Hc) as [_ Hva].
  apply Z.mod_divide in Hal as Hmod; [| lia]. rewrite Hmod. cbn [Z.eqb assert_that mbind outcome_bind].
  unfold checked_add. destruct (Z.ltb_spec (va c + len) (2 ^ 64)); [| lia]. cbn [unwrap mbind outcome_bind].
  destruct (Z.leb_spec (va c + len) (end_ (barrier_va c))); [| lia]. cbn [assert_that mbind outcome_bind].
  apply find_loop_ok; try done.
  - by apply Z.divide_add_r.
  - intros Hsp. left. by apply Hp.
Qed.

(** *** On the translation that the page table defines *)

Lemma stray_trans s s' l n v :
  (l < NR_LEVELS)%nat → (∀ x, x ∈ owned s l n → stray_node s s' x) → trans s' l n v = trans s l n v.
Proof.
  revert n. induction l as [|l IH]; intros n Hl Hst; [done |]. rewrite !trans_S.
  assert (child_at s' n (S l) (pte_index v (S l)) = child_at s n (S l) (pte_index v (S l))) as ->.
  { destruct (Hst n) as (nd & N1 & N2); [rewrite owned_S; set_solver |].
    unfold child_at. by rewrite N1, N2. }
  destruct (child_at s n (S l) (pte_index v (S l))) as [c| |] eqn:Hc; [| done | done]. cbn [child_trans].
  rewrite Nat.sub_succ, Nat.sub_0_r. apply IH; [lia |]. intros x Hx. apply Hst.
  apply (owned_slot_elem s l n (pte_index v (S l))); [apply pte_index_range; lia |].
  unfold slot_owned. rewrite managed_low, Hc by lia. cbn [child_owned]. by rewrite Nat.sub_succ, Nat.sub_0_r.
Qed.

(** The pages that a table out of the page table maps are dropped with it. *)
Lemma on_drop_trans s s' l n v pa p :
  (l < NR_LEVELS)%nat → tree_ok s l n → (∀ x, x ∈ owned s l n → stray_node s s' x) →
  trans s l n v = Some (pa, p) → is_Some (descend s l n v 1) →
  ∃ pa0, ChFrame pa0 1 p ∈ on_drop s' l n ∧ pa = pa0 + v mod page_size 1.
Proof using PL EL.
  clear item_into_raw item_from_raw Item. revert n. induction l as [|l IH]; intros n Hl Htree Hst Ht Hd; [done |].
  pose proof (pte_index_range v (S l) ltac:(lia)) as Hi.
  destruct (Hst n) as (nd & N1 & N2); [rewrite owned_S; set_solver |].
  assert (child_at s' n (S l) (pte_index v (S l)) = child_at s n (S l) (pte_index v (S l))) as Hch'.
  { unfold child_at. by rewrite N1, N2. }
  assert (nr_children nd ≠ 0) as Hz.
  { intros Hz. by rewrite (empty_table s l n nd v) in Ht. }
  cbn [on_drop]. rewrite N2. cbn [nr_children]. destruct (Z.eqb_spec (nr_children nd) 0) as [|_]; [done |].
  apply tree_ok_S in Htree as [_ Hkids]. specialize (Hkids (pte_index v (S l)) Hi (managed_low _ _ Hl)).
  rewrite trans_S in Ht. cbn [descend] in Hd.
  destruct (child_at s n (S l) (pte_index v (S l))) as [c|pa0 l0 p0|] eqn:Hc; [| | done].
  - cbn [child_trans child_ok] in *. rewrite Nat.sub_succ, Nat.sub_0_r in *.
    destruct (Nat.eqb_spec (S l) 1) as [[= ->]|]; [done |].
    destruct (IH c) as (pa0 & Hin & Hpa); try done; [lia | |].
    { intros x Hx. apply Hst, (owned_slot_elem s l n (pte_index v (S l))); [done |].
      unfold slot_owned. rewrite managed_low, Hc by lia. cbn [child_owned]. by rewrite Nat.sub_succ, Nat.sub_0_r. }
    exists pa0. split; [| done]. apply list_elem_of_bind. exists (pte_index v (S l)).
    rewrite managed_low, Hch' by done. split; [set_solver | by apply slot_elem].
  - cbn [child_trans child_ok] in *. destruct Hkids as (-> & _). injection Ht as <- <-.
    destruct (Nat.eqb_spec (S l) 1) as [[= ->]|]; [| by destruct Hd]. exists pa0. split; [| done].
    apply list_elem_of_bind. exists (pte_index v 1).
    rewrite managed_low, Hch' by done. split; [set_solver | by apply slot_elem].
Qed.

(** A table has at most as many base pages as fit the range of its slot. *)
Lemma sum_bound (f : Z → Z) (b m : Z) (js : list Z) :
  0 ≤ m → (∀ i, i ∈ js → 0 ≤ f i ∧ f i * b ≤ m) →
  0 ≤ foldr (λ i a, f i + a) 0 js ∧ foldr (λ i a, f i + a) 0 js * b ≤ Z.of_nat (length js) * m.
Proof using.
  clear. intros Hm. induction js as [|i js IH]; intros Hf; [cbn; lia |].
  destruct (Hf i) as [F1 F2]; [set_solver |]. destruct IH as [I1 I2]; [set_solver |].
  cbn [foldr length]. rewrite Nat2Z.inj_succ. nia.
Qed.

Lemma base_pages_bound s l n : (1 ≤ l < NR_LEVELS)%nat → tree_ok s l n →
  0 ≤ base_pages s l n ∧ base_pages s l n * BASE_PAGE_SIZE ≤ page_size (S l).
Proof using PL EL.
  clear item_into_raw item_from_raw Item. revert n. induction l as [|l IH]; intros n Hl Htree; [lia |].
  rewrite page_size_S by lia. pose proof (page_size_pos (S l) ltac:(lia)) as Hps.
  assert (Z.of_nat (length slots) = nr_subpage_per_huge) as Hlen.
  { unfold slots. rewrite length_seqZ. pose proof nr_pos. lia. }
  apply tree_ok_S in Htree as [(nd & Hn & _ & _ & _ & Hnr & _) Hkids].
  destruct (decide (l = 0)%nat) as [->|Hne].
  - cbn [base_pages Nat.eqb]. rewrite Hn, Hnr, page_size_1. pose proof base_pos.
    assert (present_count s n 1 ≤ length slots)%nat by apply length_filter. nia.
  - rewrite base_pages_S by lia. rewrite <- Hlen. apply sum_bound; [lia |].
    intros i Hi%slot_elem. specialize (Hkids i Hi (managed_low (S l) i (proj2 Hl))). unfold slot_pages.
    destruct (child_at s n (S l) i) as [c| |]; [| lia | lia]. cbn [child_ok] in Hkids.
    rewrite Nat.sub_succ, Nat.sub_0_r in *. destruct l as [|l]; [lia |]. apply IH; [lia | done].
Qed.

(** What [map] reports of the old mapping of the page [a], [l]. *)
Definition old_mapping (s : Store E) (root a : Z) (l : nat) (res : result unit (PageTableFrag Item)) : Prop :=
  match res with
  | ROk _ => ∀ v, a ≤ v < a + page_size l → trans s NR_LEVELS root v = None
  | RErr (FragMapped fva old) => fva = a ∧ ∃ pa0 p0, old = item_from_raw pa0 l p0 ∧
      ∀ v, a ≤ v < a + page_size l → trans s NR_LEVELS root v = Some (pa0 + (v - a), p0)
  | RErr (FragStray _ fva len _) => fva = a ∧ len = page_size l ∧ l ≠ 1%nat
  end.

Section Map.
Context (s : Store E) (root : Z) (c : Cursor) (pa : Z) (l : nat) (p : P).
Hypotheses (Hc : cur_ok s root c) (Hf : frame_ok l pa) (Hp : prop_ok p) (Hal : (page_size l | va c))
  (He : va c + page_size l ≤ end_ (barrier_va c)) (Hlg : (l ≤ guard_level c)%nat)
  (Hpool : (NR_LEVELS ≤ length (pool s))%nat) (Htop : TOP_LEVEL_CAN_UNMAP = true ∨ l ≠ NR_LEVELS).

(** The three steps of [map] after its assertions. *)
Lemma map_steps : ∃ res c' s',
  (map_loop (S MAX_NR_LEVELS) l c s ≫= λ '(c, s),
   replace_cur_entry item_from_raw c s (ChFrame pa l p) ≫= λ '(frag, s),
   move_forward c ≫= λ c,
   Done (match frag with Some frag => RErr frag | None => ROk tt end, c, s)) = Done (res, c', s') ∧
  cur_ok s' root c' ∧ same_lock c c' ∧ va c' = va c + page_size l ∧
  (length (pool s) ≤ length (pool s') + NR_LEVELS)%nat ∧
  (∀ v, window c v → trans s' NR_LEVELS root v =
     if decide (va c ≤ v < va c + page_size l) then Some (pa + (v - va c), p)
     else trans s NR_LEVELS root v) ∧
  old_mapping s root (va c) l res ∧ (l = 1%nat → small s root → small s' root).
Proof using All.
  pose proof (co_levels _ _ _ Hc) as [Hl Hg]. pose proof Hf as (_ & _ & _ & Hlh).
  pose proof (page_size_pos l ltac:(lia)) as Hps. pose proof (proj2 levels_ok) as Hmax.
  destruct (map_loop_ok root l (S MAX_NR_LEVELS) c s) as (c1 & s1 & -> & Hc1 & [L1 L2] & V1 & Hlv1 & Hp1 & Htr1 & Hsm1);
    try done; try lia.
  cbn [mbind outcome_bind]. assert (va c1 < end_ (barrier_va c1)) as Hlt1 by (rewrite L2, V1; lia).
  destruct (inside_range s1 root c1 Hc1 Hlt1) as [Hin1 Hm1].
  destruct (cur_node s1 root c1) as (n & _ & Hd); try done.
  destruct (replace_cur_ok item_from_raw s1 root c1 (ChFrame pa l p) n) as
    (frag & s2 & -> & Hc2 & Hp2 & Htr2 & -> & _ & Hsm2); try done.
  { right. exists pa, p. by rewrite Hlv1. }
  { intros pt _. by rewrite Hlv1. }
  cbn [mbind outcome_bind].
  destruct (move_forward_ok s2 root c1) as (c2 & -> & Hc3 & [M1 M2] & V2 & _); try done.
  assert (slot_start c1 = va c ∧ slot_end c1 = va c + page_size l) as [Hss Hse].
  { unfold slot_start, slot_end. rewrite Hlv1, V1, page_start_aligned by (lia || done). done. }
  eexists _, c2, s2. split; [done |]. split; [done |]. split; [split; congruence |].
  split; [congruence |]. split; [rewrite Hp2; lia |]. split; [| split].
  3: { intros Hl1 Hsm. apply Hsm2; [by apply Hsm1 |]. right. congruence. }
  - intros v Hv. rewrite Htr2 by (by apply (window_lock c)). rewrite Hss, Hse.
    destruct (decide _); [done |]. apply Htr1, Hv.
  - pose proof (slot_trans s1 root c1 n) as Hst. rewrite Hss, Hse, Hlv1 in Hst.
    destruct (cur_entry_step s1 root c1) as (n' & _ & Hd' & _ & _ & _ & Hok); try done.
    rewrite Hd in Hd'. injection Hd' as <-. rewrite Hlv1 in *. unfold old_mapping.
    assert (∀ v, va c ≤ v < va c + page_size l → trans s NR_LEVELS root v = trans s1 NR_LEVELS root v) as Hw.
    { intros v Hv. symmetry. apply Htr1. apply (range_window s root c v Hc). pose proof (co_va _ _ _ Hc). lia. }
    destruct (child_at s1 n l (pte_index (va c1) l)) as [pt|pa0 l0 p0|] eqn:Hch.
    + split; [done |]. split; [done |]. intros ->. done.
    + split; [done |]. exists pa0, p0. split; [done |]. intros v Hv. rewrite Hw by done. by apply Hst.
    + intros v Hv. rewrite Hw by done. by apply Hst.
Qed.
End Map.

Lemma map_ok s root c item pa l p :
  cur_ok s root c → item_into_raw item = (pa, l, p) → frame_ok l pa → prop_ok p →
  (page_size l | va c) → va c + page_size l ≤ end_ (barrier_va c) →
  (l ≤ guard_level c)%nat → (NR_LEVELS ≤ length (pool s))%nat →
  TOP_LEVEL_CAN_UNMAP = true ∨ l ≠ NR_LEVELS →
  ∃ res c' s', map item_into_raw item_from_raw c s item = Done (res, c', s') ∧
    cur_ok s' root c' ∧ same_lock c c' ∧ va c' = va c + page_size l ∧
    (length (pool s) ≤ length (pool s') + NR_LEVELS)%nat ∧
    (∀ v, window c v → trans s' NR_LEVELS root v =
       if decide (va c ≤ v < va c + page_size l) then Some (pa + (v - va c), p)
       else trans s NR_LEVELS root v) ∧
    old_mapping s root (va c) l res ∧ (l = 1%nat → small s root → small s' root).
Proof.
  intros Hc Hraw Hf Hp Hal He Hlg Hpool Htop. pose proof (co_levels _ _ _ Hc) as [Hl Hg].
  pose proof (co_range _ _ _ Hc) as [[R1 [R2 R3]] _ _]. pose proof (co_va _ _ _ Hc) as [[V0 _] _].
  pose proof Hf as (_ & _ & _ & Hlh). pose proof (page_size_pos l ltac:(lia)) as Hps.
  unfold map. destruct (Z.ltb_spec (va c) (end_ (barrier_va c))); [| lia].
  cbn [assert_that mbind outcome_bind]. rewrite Hraw. cbn [mbind outcome_bind].
  destruct (Nat.leb_spec l HIGHEST_TRANSLATION_LEVEL); [| lia]. cbn [assert_that mbind outcome_bind].
  apply Z.mod_divide in Hal as Hmod; [| lia]. rewrite Hmod. cbn [Z.eqb assert_that mbind outcome_bind].
  unfold checked_add. destruct (Z.ltb_spec (va c + page_size l) (2 ^ 64)); [| lia].
  cbn [unwrap mbind outcome_bind].
  destruct (Z.leb_spec (va c + page_size l) (end_ (barrier_va c))); [| lia].
  cbn [assert_that mbind outcome_bind]. by apply map_steps.
Qed.

(** What [take_next] hands out: the page [a], [l] with its old mapping. *)
Definition taken (s s' : Store E) (root a : Z) (l : nat) (f : PageTableFrag Item) : Prop :=
  match f with
  | FragMapped v0 item => v0 = a ∧ ∃ pa p, item = item_from_raw pa l p ∧
      (∀ v, a ≤ v < a + page_size l → trans s NR_LEVELS root v = Some (pa + (v - a), p)) ∧
      (small s root → l = 1%nat)
  | FragStray pt v0 len num => v0 = a ∧ len = page_size l ∧ (2 ≤ l)%nat ∧
      (∃ nd, nodes s' !! pt = Some nd ∧ level nd = (l - 1)%nat) ∧
      (0 ≤ num ∧ num * BASE_PAGE_SIZE ≤ len) ∧
      (∀ v, a ≤ v < a + page_size l → trans s NR_LEVELS root v = trans s' (l - 1) pt v) ∧
      (small s root → ∀ v pa p, a ≤ v < a + page_size l → trans s NR_LEVELS root v = Some (pa, p) →
         ∃ pa0, ChFrame pa0 1 p ∈ on_drop s' (l - 1) pt ∧ pa = pa0 + v mod page_size 1)
  end.

(** A page below a table that is taken out is dropped with the table. *)
Lemma taken_kept s s' root a l n pt v pa p :
  small s root → (1 ≤ l < NR_LEVELS)%nat → managed_va v → same_slots NR_LEVELS (S l) a v →
  descend s NR_LEVELS root a (S l) = Some n → child_at s n (S l) (pte_index a (S l)) = ChPageTable pt →
  tree_ok s l pt → (∀ x, x ∈ owned s l pt → stray_node s s' x) → trans s NR_LEVELS root v = Some (pa, p) →
  ∃ pa0, ChFrame pa0 1 p ∈ on_drop s' l pt ∧ pa = pa0 + v mod page_size 1.
Proof using PL EL.
  clear item_into_raw item_from_raw Item. intros Hs Hl Hv Hsame Hd Hch Htree Hst Ht.
  assert (descend s NR_LEVELS root v l = Some pt) as Hdv.
  { rewrite (descend_prefix s NR_LEVELS root a v l).
    - by apply (descend_child s NR_LEVELS root a l n pt).
    - intros j Hj. apply Hsame. lia. }
  apply (on_drop_trans s s' l pt v pa p); try done; [lia | |].
  - rewrite (trans_descend s NR_LEVELS root a (S l) n v), Hch in Ht by (lia || done).
    cbn [child_trans] in Ht. by rewrite Nat.sub_succ, Nat.sub_0_r in Ht.
  - rewrite <- (descend_compose s NR_LEVELS root v l pt 1) by (lia || done). apply Hs; [done | by rewrite Ht].
Qed.

Section Take.
Context (s s1 : Store E) (root : Z) (c c1 : Cursor) (n len : Z).
Hypotheses (Hc : cur_ok s root c) (Hc1 : cur_ok s1 root c1) (HL : same_lock c c1)
  (Hwr : va c ≤ va c1 < va c + len) (He : va c + len ≤ end_ (barrier_va c))
  (Htr1 : ∀ v, managed_va v → trans s1 NR_LEVELS root v = trans s NR_LEVELS root v)
  (Hsm : small s root → s1 = s)
  (Hd : descend s1 NR_LEVELS root (va c1) (c_level c1) = Some n)
  (Hkind : match child_at s1 n (c_level c1) (pte_index (va c1) (c_level c1)) with
    | ChNone => False
    | ChFrame _ _ _ => true = true → slot_start c1 = va c1 ∧ slot_end c1 ≤ va c + len
    | ChPageTable _ => true = true ∧ slot_start c1 = va c1 ∧ slot_end c1 ≤ va c + len ∧
        (TOP_LEVEL_CAN_UNMAP = true ∨ c_level c1 ≠ NR_LEVELS)
    end).

(** The slot under the cursor is inside the range and is cleared. *)
Lemma take_steps : ∃ f c' s',
  (replace_cur_entry item_from_raw c1 s1 ChNone ≫= λ '(frag, s),
   move_forward c1 ≫= λ c, Done (frag, c, s)) = Done (Some f, c', s') ∧
  cur_ok s' root c' ∧ same_lock c c' ∧ pool s' = pool s1 ∧
  (page_size (c_level c1) | va c1) ∧ va c' = va c1 + page_size (c_level c1) ∧ va c' ≤ va c + len ∧
  (∀ v, window c v → trans s' NR_LEVELS root v =
     if decide (va c1 ≤ v < va c') then None else trans s NR_LEVELS root v) ∧
  taken s s' root (va c1) (c_level c1) f ∧ (small s root → small s' root).
Proof using Hc Hc1 HL Hwr He Htr1 Hsm Hd Hkind DP PL.
  clear item_into_raw.
  destruct HL as [L1 L2]. pose proof (co_range _ _ _ Hc) as [[R1 [R2 R3]] _ Hman].
  pose proof (co_va _ _ _ Hc) as [[V0 _] _]. destruct (co_levels _ _ _ Hc1) as [Hl1 Hg1].
  destruct (inside_range s1 root c1 Hc1 ltac:(rewrite L2; lia)) as [Hin1 Hm1].
  assert (slot_start c1 = va c1 ∧ slot_end c1 ≤ va c + len ∧
    ∀ pt, child_at s1 n (c_level c1) (pte_index (va c1) (c_level c1)) = ChPageTable pt →
      TOP_LEVEL_CAN_UNMAP = true ∨ c_level c1 ≠ NR_LEVELS) as (Hss & Hse & Htop).
  { destruct (child_at s1 n (c_level c1) (pte_index (va c1) (c_level c1))); naive_solver. }
  destruct (replace_cur_ok item_from_raw s1 root c1 ChNone n) as
    (frag & s2 & -> & Hc2 & Hp2 & Htr2 & -> & Hstray & Hsm2); try done; [rewrite L2; lia | by left |].
  cbn [mbind outcome_bind].
  destruct (move_forward_ok s2 root c1) as (c2 & -> & Hc3 & [M1 M2] & V2 & _); try done.
  assert (slot_end c1 = va c1 + page_size (c_level c1)) as Hse'.
  { unfold slot_end. fold (slot_start c1). by rewrite Hss. }
  assert (∀ v, va c1 ≤ v < va c1 + page_size (c_level c1) →
    trans s NR_LEVELS root v = trans s1 NR_LEVELS root v) as Hw.
  { intros v Hv. symmetry. apply Htr1, Hman. lia. }
  pose proof (λ v Hv, proj2 (slot_trans s1 root c1 n v Hc1 Hm1 Hd Hv)) as Hst. rewrite Hss, Hse' in Hst.
  destruct (cur_entry_step s1 root c1) as (n' & pte & Hd' & _ & _ & _ & Hok); try done.
  rewrite Hd in Hd'. injection Hd' as <-.
  assert (∃ f, match child_at s1 n (c_level c1) (pte_index (va c1) (c_level c1)) with
    | ChNone => None
    | ChFrame pa _ p => Some (FragMapped (va c1) (item_from_raw pa (c_level c1) p))
    | ChPageTable pt => Some (FragStray pt (va c1) (page_size (c_level c1)) (base_pages s1 (c_level c1 - 1) pt))
    end = Some f ∧ taken s s2 root (va c1) (c_level c1) f) as (f & -> & Htk).
  { destruct (child_at s1 n (c_level c1) (pte_index (va c1) (c_level c1))) as [pt|pa l p|] eqn:Hch; [| | done].
    - eexists. split; [done |]. cbn [child_ok] in Hok. split; [done |]. split; [done |].
      specialize (Hstray pt eq_refl). destruct (c_level c1) as [|[|l]] eqn:Hlc; [lia | done |]. split; [lia |].
      replace (S (S l) - 1)%nat with (S l) in * by lia. split; [| split; [| split]].
      + pose proof Hok as [(nd & Hnd & Hlv & _) _]%tree_ok_S.
        destruct (Hstray pt) as (nd' & N1 & N2); [rewrite owned_S; set_solver |].
        eexists. split; [exact N2 |]. cbn. congruence.
      + by apply base_pages_bound; [lia |].
      + intros v Hv. rewrite (stray_trans s1 s2) by (lia || done). rewrite Hw by done. by apply Hst.
      + intros Hs v pa p Hv Ht. pose proof (Hsm Hs). subst s1.
        apply (taken_kept s s2 root (va c1) (S l) n pt v); try done; [lia | apply Hman; lia |].
        intros j Hj. apply same_page_index; [lia |]. apply (same_page_up _ _ (S (S l))); [lia |].
        apply in_page; [lia |]. unfold slot_start in Hss. rewrite Hlc in Hss. lia.
    - eexists. split; [done |]. split; [done |]. exists pa, p. split; [done |].
      split; [intros v Hv; rewrite Hw by done; by apply Hst |]. intros Hs. pose proof (Hsm Hs). subst s1.
      by apply (small_leaf s root (va c1) (c_level c1) n pa l p); try done; lia. }
  exists f, c2, s2. split; [done |]. split; [done |]. split; [split; congruence |]. split; [done |].
  split; [rewrite <- Hss; by eexists |]. split; [congruence |]. split; [congruence |].
  split; [| split; [done | intros Hs; pose proof (Hsm Hs); subst s1; apply Hsm2; [done | by left]]].
  intros v Hv. rewrite Htr2 by (by apply (window_lock c)). rewrite Hss, V2.
  destruct (decide _); [done |]. apply Htr1, Hv.
Qed.
End Take.

Lemma take_next_ok s root c len fuel :
  cur_ok s root c → 0 ≤ len → (BASE_PAGE_SIZE | len) → va c + len ≤ end_ (barrier_va c) →
  (NR_LEVELS ≤ length (pool s))%nat → (find_measure (va c + len) c < fuel)%nat →
  ∃ frag c' s', take_next item_from_raw fuel len c s = Done (frag, c', s') ∧
    cur_ok s' root c' ∧ same_lock c c' ∧ (length (pool s) ≤ length (pool s') + NR_LEVELS)%nat ∧
    (small s root → small s' root ∧ pool s' = pool s) ∧
    match frag with
    | None => va c + len ≤ va c' ∧ (∀ v, va c ≤ v < va c + len → trans s NR_LEVELS root v = None) ∧
        ∀ v, managed_va v → trans s' NR_LEVELS root v = trans s NR_LEVELS root v
    | Some f =>
        ∃ fva l, (1 ≤ l ≤ NR_LEVELS)%nat ∧ va c ≤ fva ∧ (page_size l | fva) ∧
        va c' = fva + page_size l ∧ va c' ≤ va c + len ∧
        (∀ v, va c ≤ v < fva → trans s NR_LEVELS root v = None) ∧
        (∀ v, window c v → trans s' NR_LEVELS root v =
           if decide (fva ≤ v < va c') then None else trans s NR_LEVELS root v) ∧
        taken s s' root fva l f
    end.
Proof using DP PL EL.
  clear item_into_raw. intros Hc Hlen Hal He Hpool Hf.
  destruct (find_next_impl_ok root true true fuel len c s) as (found & c1 & s1 & Hfind & Hpost & [Hused _]); try done.
  destruct Hpost as (Hc1 & HL & Hsm & Htr1 & Hres). unfold take_next. rewrite Hfind.
  cbn [mbind outcome_bind]. destruct found as [w|].
  2: { exists None, c1, s1. do 4 (split; [done |]). split; [intros Hs; by rewrite !Hsm by tauto |].
       destruct Hres as [H1 H2]. split; [done |]. by split. }
  destruct Hres as (-> & Hwr & Hun & n & Hd & Hkind).
  destruct (take_steps s s1 root c c1 n len) as (f & c' & s' & -> & T1 & T2 & T3 & T4 & T5 & T6 & T7 & T8 & T9); try done; [tauto |].
  destruct (co_levels _ _ _ Hc1) as [Hl Hg].
  exists (Some f), c', s'. split; [done |]. split; [done |]. split; [done |]. split; [by rewrite T3 |].
  split; [intros Hs; split; [by apply T9 | by rewrite T3, Hsm by tauto] |].
  exists (va c1), (c_level c1). split_and!; done || lia.
Qed.

Lemma protect_next_ok s root c len op fuel :
  cur_ok s root c → 0 ≤ len → (BASE_PAGE_SIZE | len) → va c + len ≤ end_ (barrier_va c) →
  (NR_LEVELS ≤ length (pool s))%nat → (∀ p, prop_ok p → prop_ok (op p)) →
  (find_measure (va c + len) c < fuel)%nat →
  ∃ r c' s', protect_next fuel len op c s = Done (r, c', s') ∧ cur_ok s' root c' ∧ same_lock c c' ∧
    (length (pool s) ≤ length (pool s') + NR_LEVELS)%nat ∧ (small s root → small s' root) ∧
    match r with
    | None => va c + len ≤ va c' ∧ (∀ v, va c ≤ v < va c + len → trans s NR_LEVELS root v = None) ∧
        ∀ v, managed_va v → trans s' NR_LEVELS root v = trans s NR_LEVELS root v
    | Some r =>
        va c ≤ start r ∧ start r < end_ r ≤ va c + len ∧ va c' = end_ r ∧
        (∀ v, va c ≤ v < start r → trans s NR_LEVELS root v = None) ∧
        ∃ pa p, ∀ v, window c v →
          if decide (start r ≤ v < end_ r)
          then trans s NR_LEVELS root v = Some (pa + (v - start r), p) ∧
               trans s' NR_LEVELS root v = Some (pa + (v - start r), op p)
          else trans s' NR_LEVELS root v = trans s NR_LEVELS root v
    end.
Proof using DP PL EL.
  clear item_into_raw item_from_raw Item. intros Hc Hlen Hal He Hpool Hop Hf.
  pose proof (co_range _ _ _ Hc) as [[R1 [R2 R3]] _ Hman]. pose proof (co_va _ _ _ Hc) as [[V0 _] _].
  destruct (find_next_impl_ok root false true fuel len c s) as (found & c1 & s1 & Hfind & Hpost & [Hused _]); try done.
  destruct Hpost as (Hc1 & [L1 L2] & Hsm & Htr1 & Hres). unfold protect_next. rewrite Hfind.
  cbn [mbind outcome_bind]. destruct found as [w|].
  2: { exists None, c1, s1. do 4 (split; [done |]). split; [intros Hs; by rewrite Hsm by tauto |].
       destruct Hres as [H1 H2]. split; [done |]. by split. }
  destruct Hres as (-> & Hwr & Hun & n & Hd & Hkind).
  destruct (inside_range s1 root c1 Hc1 ltac:(rewrite L2; lia)) as [Hin1 Hm1].
  destruct (cur_entry_step s1 root c1) as (n' & pte & Hd' & E1 & E2 & _ & Hok); try done.
  rewrite Hd in Hd'. injection Hd' as <-. rewrite E1. cbn [mbind outcome_bind].
  pose proof (co_levels _ _ _ Hc1) as [Hl1 Hg1]. pose proof (slot_trans s1 root c1 n) as Hst.
  destruct (child_at s1 n (c_level c1) (pte_index (va c1) (c_level c1))) as [pt|pa l p|] eqn:Hch;
    [naive_solver | | done].
  destruct (Hkind eq_refl) as [Hss Hse]. cbn [child_ok] in Hok. destruct Hok as (-> & _ & Hpok).
  destruct (protect_step s1 root (va c1) (c_level c1) n pte pa (c_level c1) p op) as
    (s2 & -> & Hst2 & Hp2 & _); try done; [by apply Hc1 | lia | by apply Hop |].
  cbn [mbind outcome_bind].
  assert (cur_ok s2 root c1) as Hc2.
  { apply (cur_ok_step s1 s2 root c1 n (ChFrame pa (c_level c1) (op p))); try done; [rewrite L2; lia |].
    intros x. unfold slot_owned. destruct (managed _ _); [| set_solver].
    rewrite (ps_child _ _ _ _ _ _ _ Hst2). set_solver. }
  rewrite (cur_va_range_eq s2 root c1) by done. cbn [mbind outcome_bind].
  destruct (move_forward_ok s2 root c1) as (c2 & -> & Hc3 & [M1 M2] & V2 & _); try done.
  destruct (slot_bounds s1 root c1) as (B1 & _); try done.
  eexists _, c2, s2. split; [done |]. split; [done |]. split; [split; congruence |].
  split; [by rewrite Hp2 |]. split.
  { intros Hs. rewrite <- (Hsm (or_intror Hs)) in Hs.
    apply (small_step s1 s2 root (va c1) (c_level c1) n (ChFrame pa (c_level c1) (op p))); try done; [| lia].
    by apply (small_leaf s1 root (va c1) (c_level c1) n pa (c_level c1) p); try done; lia. }
  cbn [start end_]. rewrite Hss in *. do 3 (split; [done || lia |]). split; [done |].
  exists pa, p. intros v Hv. pose proof (proj1 Hv) as Hmg.
  pose proof (window_slot s1 root c1 v Hc1 Hin1 (window_lock c c1 v (conj L1 L2) Hv)) as Hslot.
  rewrite Hss in Hslot. destruct (decide _) as [Hin|Hout].
  - rewrite <- (Htr1 v) by done. split; [by apply Hst |].
    rewrite (ps_in _ _ _ _ _ _ _ Hst2 v Hmg) by tauto. cbn [child_trans].
    rewrite (page_mod v (va c1)); [| lia | apply in_page; [lia |]].
    + fold (slot_start c1). by rewrite Hss.
    + unfold slot_end, slot_start in *. lia.
  - rewrite (ps_out _ _ _ _ _ _ _ Hst2 v Hmg) by tauto. by rewrite Htr1.
Qed.

(** ** Properties *)

(** [C20] [CursorMut::map] on any cursor over a locked range: if the item fits the
    remaining range and its size does not exceed the level that was locked, and
    one free frame per level is left, the call returns; afterwards the page walk
    translates every address of the item's range to the item and every other
    address of the address space as before; the cursor is behind the item; at most
    one free frame per level was taken; and the result tells what was mapped there before: nothing, one page of the same
    size whose item is handed back, or a table of smaller pages. *)
Theorem map_exact s root c item pa l p :
  cur_ok s root c → item_into_raw item = (pa, l, p) → frame_ok l pa → prop_ok p →
  (page_size l | va c) → va c + page_size l ≤ end_ (barrier_va c) →
  (l ≤ guard_level c)%nat → (NR_LEVELS ≤ length (pool s))%nat →
  TOP_LEVEL_CAN_UNMAP = true ∨ l ≠ NR_LEVELS →
  ∃ res c' s', map item_into_raw item_from_raw c s item = Done (res, c', s') ∧
    cur_ok s' root c' ∧ same_lock c c' ∧ va c' = va c + page_size l ∧
    (length (pool s) ≤ length (pool s') + NR_LEVELS)%nat ∧
    (∀ v, window c v → walk s' root v =
       if decide (va c ≤ v < va c + page_size l) then Done (Some (pa + (v - va c), p))
       else walk s root v) ∧
    match res with
    | ROk _ => ∀ v, va c ≤ v < va c + page_size l → walk s root v = Done None
    | RErr (FragMapped fva old) => fva = va c ∧ ∃ pa0 p0, old = item_from_raw pa0 l p0 ∧
        ∀ v, va c ≤ v < va c + page_size l → walk s root v = Done (Some (pa0 + (v - va c), p0))
    | RErr (FragStray _ fva len _) => fva = va c ∧ len = page_size l ∧ l ≠ 1%nat
    end.
Proof.
  intros Hc Hraw Hf Hp Hal He Hlg Hpool Htop.
  destruct (map_ok s root c item pa l p) as (res & c' & s' & Hrun & Hc' & HL & V & Hp' & Ht & Ho & _); try done.
  assert (∀ v, va c ≤ v < va c + page_size l → walk s root v = Done (trans s NR_LEVELS root v)) as Hw.
  { intros v Hv. apply walk_trans; [apply Hc |]. apply (range_window s root c v Hc).
    pose proof (co_va _ _ _ Hc). lia. }
  exists res, c', s'. do 5 (split; [done |]). split.
  - intros v Hv. rewrite !walk_trans by (apply Hv || apply Hc || apply Hc'). rewrite Ht by done.
    by destruct (decide _).
  - destruct res as [?|[fva old|pt fva len num]]; cbn [old_mapping] in Ho; [| | done].
    + intros v Hv. by rewrite Hw, Ho.
    + destruct Ho as (-> & pa0 & p0 & -> & Ho). split; [done |]. exists pa0, p0. split; [done |].
      intros v Hv. by rewrite Hw, Ho.
Qed.

(** [Cursor::query]: behind the locked range it reports the address as
    invalid; inside it returns without changing the page table a page-aligned
    range around the current address, with the item that the page walk finds for
    every address of that range, or with nothing when none of them is mapped. *)
Theorem query_exact s root c :
  cur_ok s root c →
  if end_ (barrier_va c) <=? va c
  then query item_from_raw c s = Done (RErr (InvalidVaddr (va c)), c)
  else ∃ r item c', query item_from_raw c s = Done (ROk (r, item), c') ∧
    cur_ok s root c' ∧ same_lock c c' ∧ va c' = va c ∧
    start r = page_start (va c) (c_level c') ∧ end_ r = start r + page_size (c_level c') ∧
    match item with
    | None => ∀ v, start r ≤ v < end_ r → walk s root v = Done None
    | Some i => ∃ pa p, i = item_from_raw pa (c_level c') p ∧
        ∀ v, start r ≤ v < end_ r → walk s root v = Done (Some (pa + (v - start r), p))
    end.
Proof.
  intros Hc. unfold query. destruct (Z.leb_spec (end_ (barrier_va c)) (va c)) as [|Hlt]; [done |].
  pose proof (co_levels _ _ _ Hc) as [Hl Hg]. pose proof (proj2 levels_ok) as Hmax.
  pose proof (co_range _ _ _ Hc) as [[R1 [R2 R3]] _ Hman]. pose proof (co_va _ _ _ Hc) as [[V0 _] _].
  destruct (query_loop_ok item_from_raw s root (S MAX_NR_LEVELS) c) as
    (r & item & c' & -> & Hc' & L & V & -> & Hitem); try done.
  { unfold node_end. lia. }
  { apply Hman. lia. }
  { lia. }
  cbn [mbind outcome_bind]. eexists _, item, c'. split; [done |]. do 3 (split; [done |]).
  cbn [start end_] in *. unfold slot_start, slot_end in *. rewrite V in *. do 2 (split; [done |]).
  assert (∀ v, page_start (va c) (c_level c') ≤ v < page_start (va c) (c_level c') + page_size (c_level c') →
    walk s root v = Done (trans s NR_LEVELS root v)) as Hw.
  { intros v Hv. apply walk_trans; [by apply Hc |]. destruct (co_levels _ _ _ Hc') as [Hl' Hg'].
    unfold managed_va. rewrite (same_page_index v (va c) NR_LEVELS); [apply Hman; lia | lia |].
    apply (same_page_up _ _ (c_level c')); [lia |]. apply in_page; [lia | done]. }
  destruct item as [i|].
  - destruct Hitem as (pa & p & -> & Hi). exists pa, p. split; [done |].
    intros v Hv. rewrite Hw by done. by rewrite Hi.
  - intros v Hv. rewrite Hw by done. by rewrite Hitem.
Qed.

(** [CursorMut::take_next] over any length that fits the locked range, with
    one free frame per level left: with enough rounds the call returns. If it
    returns nothing then no address of the range is mapped and the page walk is
    unchanged everywhere. Otherwise the fragment starts at the first address
    that is not known to be unmapped and ends at the cursor's new address, inside
    the range; the page walk finds nothing in it any more and is unchanged
    everywhere else; and a mapped page is handed back as the item the page walk
    found there. *)
Theorem take_next_exact s root c len :
  cur_ok s root c → 0 ≤ len → (BASE_PAGE_SIZE | len) → va c + len ≤ end_ (barrier_va c) →
  (NR_LEVELS ≤ length (pool s))%nat →
  ∃ fuel0, ∀ fuel, (fuel0 ≤ fuel)%nat →
  ∃ frag c' s', take_next item_from_raw fuel len c s = Done (frag, c', s') ∧
    cur_ok s' root c' ∧ same_lock c c' ∧ (length (pool s) ≤ length (pool s') + NR_LEVELS)%nat ∧
    match frag with
    | None => (∀ v, va c ≤ v < va c + len → walk s root v = Done None) ∧
        ∀ v, window c v → walk s' root v = walk s root v
    | Some f =>
        ∃ fva l, va c ≤ fva ∧ va c' = fva + page_size l ∧ va c' ≤ va c + len ∧
        (∀ v, va c ≤ v < fva → walk s root v = Done None) ∧
        (∀ v, window c v → walk s' root v =
           if decide (fva ≤ v < va c') then Done None else walk s root v) ∧
        match f with
        | FragMapped v0 item => v0 = fva ∧ ∃ pa p, item = item_from_raw pa l p ∧
            ∀ v, fva ≤ v < va c' → walk s root v = Done (Some (pa + (v - fva), p))
        | FragStray _ v0 flen _ => v0 = fva ∧ flen = page_size l
        end
    end.
Proof using DP PL EL.
  clear item_into_raw. intros Hc Hlen Hal He Hpool. exists (S (find_measure (va c + len) c)). intros fuel Hf.
  destruct (take_next_ok s root c len fuel) as (frag & c' & s' & Hrun & Hc' & HL & Hp & _ & Hres); try done.
  assert (∀ v, va c ≤ v < va c + len → walk s root v = Done (trans s NR_LEVELS root v)) as Hw.
  { intros v Hv. apply walk_trans; [apply Hc |]. apply (range_window s root c v Hc).
    pose proof (co_va _ _ _ Hc). lia. }
  exists frag, c', s'. do 4 (split; [done |]). destruct frag as [f|].
  - destruct Hres as (fva & l & H0 & H1 & _ & H2 & H3 & H4 & H5 & H6). exists fva, l.
    pose proof (page_size_pos l ltac:(lia)) as Hps.
    do 3 (split; [done |]). split; [intros v Hv; by rewrite Hw, H4 by lia |]. split.
    + intros v Hv. rewrite !walk_trans by (apply Hv || apply Hc || apply Hc'). rewrite H5 by done.
      by destruct (decide _).
    + destruct f as [v0 item|pt v0 flen num]; cbn [taken] in H6; [| tauto].
      destruct H6 as (-> & pa & p & -> & H6). split; [done |]. exists pa, p. split; [done |].
      intros v Hv. by rewrite Hw, (proj1 H6) by lia.
  - destruct Hres as (_ & H1 & H2). split; [intros v Hv; by rewrite Hw, H1 by done |].
    intros v Hv. rewrite !walk_trans by (apply Hv || apply Hc || apply Hc'). rewrite H2 by apply Hv. done.
Qed.

(** [CursorMut::protect_next], under the same conditions: it returns; if it
    found nothing then nothing in the range is mapped; otherwise it changed the
    property of exactly the first mapped page of the range, splitting a huge page
    that reaches out of the range, and nothing else. *)
Theorem protect_next_exact s root c len op :
  cur_ok s root c → 0 ≤ len → (BASE_PAGE_SIZE | len) → va c + len ≤ end_ (barrier_va c) →
  (NR_LEVELS ≤ length (pool s))%nat → (∀ p, prop_ok p → prop_ok (op p)) →
  ∃ fuel0, ∀ fuel, (fuel0 ≤ fuel)%nat →
  ∃ r c' s', protect_next fuel len op c s = Done (r, c', s') ∧ cur_ok s' root c' ∧ same_lock c c' ∧
    (length (pool s) ≤ length (pool s') + NR_LEVELS)%nat ∧
    match r with
    | None => (∀ v, va c ≤ v < va c + len → walk s root v = Done None) ∧
        ∀ v, window c v → walk s' root v = walk s root v
    | Some r =>
        va c ≤ start r ∧ end_ r ≤ va c + len ∧ va c' = end_ r ∧
        (∀ v, va c ≤ v < start r → walk s root v = Done None) ∧
        ∃ pa p, ∀ v, window c v →
          if decide (start r ≤ v < end_ r)
          then walk s root v = Done (Some (pa + (v - start r), p)) ∧
               walk s' root v = Done (Some (pa + (v - start r), op p))
          else walk s' root v = walk s root v
    end.
Proof using DP PL EL.
  clear item_into_raw item_from_raw Item. intros Hc Hlen Hal He Hpool Hop.
  exists (S (find_measure (va c + len) c)). intros fuel Hf.
  destruct (protect_next_ok s root c len op fuel) as (r & c' & s' & Hrun & Hc' & HL & Hp & _ & Hres); try done.
  assert (∀ v, va c ≤ v < va c + len → walk s root v = Done (trans s NR_LEVELS root v)) as Hw.
  { intros v Hv. apply walk_trans; [apply Hc |]. apply (range_window s root c v Hc).
    pose proof (co_va _ _ _ Hc). lia. }
  exists r, c', s'. do 4 (split; [done |]). destruct r as [r|].
  - destruct Hres as (H1 & H2 & H3 & H4 & pa & p & H5). split; [done |]. split; [lia |]. split; [done |].
    split; [intros v Hv; by rewrite Hw, H4 by lia |]. exists pa, p. intros v Hv. specialize (H5 v Hv).
    rewrite !walk_trans by (apply Hv || apply Hc || apply Hc'). destruct (decide _); [| by rewrite H5].
    destruct H5 as [-> ->]. done.
  - destruct Hres as (_ & H1 & H2). split; [intros v Hv; by rewrite Hw, H1 by done |].
    intros v Hv. rewrite !walk_trans by (apply Hv || apply Hc || apply Hc'). rewrite H2 by apply Hv. done.
Qed.
End Operations.
