(* ===== verification/PageTableLock.v ===== *)
(** * Locking a range of a page table

    The locking protocol of [osxtd/src/mm/page_table/cursor/locking.rs], for the
    definitions of [PageTableCursor]: [lock_range] locks exactly the nodes on the
    way to the addresses of the range, below the node that covers it, and
    [unlock_range] releases exactly these. *)

From S2P Require Import Prelude Align PageTableNode PageTableCursor PageTableMap.
Import Align.
Local Open Scope Z_scope.

(** ** Stores up to the lock bits *)

Section Shape.
Context {PC : PagingConsts} {E P : Type} {PO : PteOps E P} {DP : EqDecision P}.
Context {PL : @PagingLaws PC} {EL : @PteLaws PC E P PO}.

Definition unlocked_node (nd : PtNode E) : PtNode E :=
  mkNode (level nd) (nr_children nd) (stray nd) false (ptes nd).

Definition same_shape (s s' : Store E) : Prop :=
  pool s = pool s' ∧ ∀ x, unlocked_node <$> nodes s !! x = unlocked_node <$> nodes s' !! x.

#[global] Instance same_shape_equiv : Equivalence same_shape.
Proof.
  split; [done | |].
  - intros s s' [H1 H2]. split; [done |]. intros x. by rewrite H2.
  - intros s1 s2 s3 [H1 H2] [H3 H4]. split; [congruence |]. intros x. by rewrite H2.
Qed.

Lemma shape_node s s' n nd : same_shape s s' → nodes s !! n = Some nd →
  ∃ b, nodes s' !! n = Some (mkNode (level nd) (nr_children nd) (stray nd) b (ptes nd)).
Proof.
  intros [_ Hn] Hnd. specialize (Hn n). rewrite Hnd in Hn. cbn in Hn.
  destruct (nodes s' !! n) as [[l k st b ps]|]; [| done]. cbn in Hn.
  injection Hn as <- <- <- <-. by exists b.
Qed.

#[global] Instance child_at_proper : Proper (same_shape ==> eq ==> eq ==> eq ==> eq) child_at.
Proof.
  intros s s' Hs n ? <- l ? <- i ? <-. unfold child_at.
  destruct (nodes s !! n) as [nd|] eqn:Hn.
  - destruct (shape_node s s' n nd Hs Hn) as [b ->]. done.
  - destruct Hs as [_ Hx]. specialize (Hx n). rewrite Hn in Hx. by destruct (nodes s' !! n).
Qed.

#[global] Instance owned_proper : Proper (same_shape ==> eq ==> eq ==> eq) owned.
Proof.
  intros s s' Hs l ? <- n ? <-. revert n. induction l as [|l IH]; intros n; [done |].
  cbn [owned]. f_equal. apply Forall_bind_ext, Forall_forall. intros i _. rewrite Hs.
  destruct (managed _ _); [| done]. destruct (child_at s' n (S l) i); [apply IH | done | done].
Qed.

#[global] Instance slot_owned_proper : Proper (same_shape ==> eq ==> eq ==> eq ==> eq) slot_owned.
Proof.
  intros s s' Hs l ? <- n ? <- i ? <-. unfold slot_owned, child_owned. rewrite Hs.
  destruct (managed _ _); [| done]. destruct (child_at s' n l i); [by rewrite Hs | done | done].
Qed.

#[global] Instance trans_proper : Proper (same_shape ==> eq ==> eq ==> eq ==> eq) trans.
Proof.
  intros s s' Hs l ? <- n ? <- v ? <-. revert n. induction l as [|l IH]; intros n; [done |].
  cbn [trans]. rewrite Hs. by destruct (child_at s' n (S l) _).
Qed.

#[global] Instance descend_proper : Proper (same_shape ==> eq ==> eq ==> eq ==> eq ==> eq) descend.
Proof.
  intros s s' Hs l ? <- n ? <- v ? <- t ? <-. revert n. induction l as [|l IH]; intros n; [done |].
  cbn [descend]. rewrite Hs. destruct (_ =? _)%nat; [done |]. by destruct (child_at s' n (S l) _).
Qed.

Lemma shape_node_ok s s' l n : same_shape s s' → node_ok s l n → node_ok s' l n.
Proof.
  intros Hs (nd & H1 & H2 & H3 & H4 & H5 & H6). destruct (shape_node s s' n nd Hs H1) as [b Hb].
  eexists. split; [exact Hb |]. split_and!; try done. cbn. rewrite H5. unfold present_count.
  do 2 f_equal. apply list_filter_iff. intros i. by rewrite Hs.
Qed.

Lemma shape_tree_ok s s' l n : same_shape s s' → tree_ok s l n → tree_ok s' l n.
Proof.
  intros Hs. revert n. induction l as [|l IH]; intros n; [done |]. rewrite !tree_ok_S.
  intros [H1 H2]. split; [by apply (shape_node_ok s) |]. intros i Hi Hm. specialize (H2 i Hi Hm).
  assert (child_at s' n (S l) i = child_at s n (S l) i) as -> by (by rewrite Hs).
  unfold child_ok in *. destruct (child_at s n (S l) i); [| done | done].
  cbn in *. rewrite Nat.sub_0_r in *. by apply IH.
Qed.

#[global] Instance pt_ok_proper : Proper (same_shape ==> eq ==> iff) pt_ok.
Proof.
  assert (∀ s s' root, same_shape s s' → pt_ok s root → pt_ok s' root) as Hgo.
  { intros s s' root Hs [H1 H2 H3]. pose proof Hs as [Hp _].
    constructor; [by apply (shape_tree_ok s) | by rewrite <- Hp, <- Hs | by rewrite <- Hp]. }
  intros s s' Hs root ? <-. split; apply Hgo; [done | by symmetry].
Qed.

(** The lock bits after setting those of [C] to [b]. *)
Definition locks_set (b : bool) (C : Z → Prop) (s s' : Store E) : Prop :=
  same_shape s s' ∧
  ∀ x, lock_of s' x = true ↔ if b then lock_of s x = true ∨ C x else lock_of s x = true ∧ ¬ C x.

Lemma set_lock_eq s n b :
  is_Some (nodes s !! n) → ∃ s', set_lock s n b = Done s' ∧ locks_set b (λ x, x = n) s s'.
Proof.
  intros [nd Hn]. unfold set_lock, get_node. rewrite Hn. cbn [unwrap mbind outcome_bind].
  eexists. split; [done |]. unfold set_node. split; [split; [done |] |]; intros x; cbn.
  - destruct (decide (x = n)) as [->|Hne]; [by rewrite lookup_insert_eq, Hn | by rewrite lookup_insert_ne].
  - unfold lock_of. cbn. destruct (decide (x = n)) as [->|Hne].
    + rewrite lookup_insert_eq. cbn. destruct b; naive_solver.
    + rewrite lookup_insert_ne by done. destruct b; tauto.
Qed.

Lemma locks_set_refl b s : locks_set b (λ _, False) s s.
Proof. split; [done |]. intros x. destruct b; tauto. Qed.

Lemma locks_set_trans b C C' s s1 s2 :
  locks_set b C s s1 → locks_set b C' s1 s2 → locks_set b (λ x, C x ∨ C' x) s s2.
Proof.
  intros [S1 L1] [S2 L2]. split; [by rewrite S1 |]. intros x. specialize (L1 x). specialize (L2 x).
  destruct b; tauto.
Qed.

Lemma locks_set_iff b C C' s s' : (∀ x, C x ↔ C' x) → locks_set b C s s' → locks_set b C' s s'.
Proof.
  intros HC [S1 L1]. split; [done |]. intros x. specialize (L1 x). specialize (HC x).
  destruct b; tauto.
Qed.

(** A loop whose round [i] sets the bits of [C i]. *)
Definition sets (b : bool) (C : Z → Z → Prop) (f : Store E → Z → outcome (Store E)) (s : Store E) (i : Z)
  : Prop :=
  ∀ s', same_shape s s' → (b = true → ∀ x, C i x → lock_of s' x = false) →
  ∃ s'', f s' i = Done s'' ∧ locks_set b (C i) s' s''.

Lemma for_range_set b C f k : ∀ a s,
  (∀ i, a ≤ i < a + Z.of_nat k → sets b C f s i) → (∀ i j x, C i x → C j x → i = j) →
  (b = true → ∀ i x, a ≤ i < a + Z.of_nat k → C i x → lock_of s x = false) →
  ∃ s', for_range k a f s = Done s' ∧
    locks_set b (λ x, ∃ i, a ≤ i < a + Z.of_nat k ∧ C i x) s s'.
Proof.
  induction k as [|k IH]; intros a s Hf Hd Hl; cbn [for_range].
  - exists s. split; [done |]. eapply locks_set_iff, locks_set_refl. intros x. split; [done |].
    intros (i & ? & _). lia.
  - destruct (Hf a ltac:(lia) s) as (s1 & -> & H1); [done | intros Hb x; apply (Hl Hb); lia |].
    pose proof H1 as [Sh1 L1]. cbn [mbind outcome_bind].
    destruct (IH (a + 1) s1) as (s2 & -> & H2).
    + intros i Hi s' Hs'. apply Hf; [lia | by rewrite Sh1].
    + done.
    + intros Hb i x Hi Hx. apply not_true_is_false. intros Ht. apply L1 in Ht. rewrite Hb in Ht.
      destruct Ht as [Ht|Ht]; [by rewrite (Hl Hb i x) in Ht by (done || lia) |].
      specialize (Hd i a x Hx Ht). lia.
    + exists s2. split; [done |]. eapply locks_set_iff; [| exact (locks_set_trans b _ _ _ _ _ H1 H2)].
      intros x. split.
      * intros [Hx|(i & Hi & Hx)]; [exists a | exists i]; (split; [lia | done]).
      * intros (i & Hi & Hx). destruct (decide (i = a)) as [->|]; [by left | right].
        exists i. split; [lia | done].
Qed.

Lemma for_range_rev_set C f k : ∀ a s,
  (∀ i, a ≤ i < a + Z.of_nat k → sets false C f s i) →
  ∃ s', for_range_rev k a f s = Done s' ∧
    locks_set false (λ x, ∃ i, a ≤ i < a + Z.of_nat k ∧ C i x) s s'.
Proof.
  induction k as [|k IH]; intros a s Hf; cbn [for_range_rev].
  - exists s. split; [done |]. eapply locks_set_iff, locks_set_refl. intros x. split; [done |].
    intros (i & ? & _). lia.
  - destruct (IH (a + 1) s) as (s1 & -> & H1); [intros i Hi; apply Hf; lia |].
    cbn [mbind outcome_bind]. pose proof H1 as [Sh1 L1].
    destruct (Hf a ltac:(lia) s1) as (s2 & -> & H2); [done | done |].
    exists s2. split; [done |]. eapply locks_set_iff; [| exact (locks_set_trans _ _ _ _ _ _ H1 H2)].
    intros x. split.
    * intros [(i & Hi & Hx)|Hx]; [exists i | exists a]; (split; [lia | done]).
    * intros (i & Hi & Hx). destruct (decide (i = a)) as [->|]; [by right | left].
      exists i. split; [lia | done].
Qed.
End Shape.

(** ** The nodes of a range below a node *)

Section Below.
Context {PC : PagingConsts} {E P : Type} {PO : PteOps E P} {DP : EqDecision P}.
Context {PL : @PagingLaws PC} {EL : @PteLaws PC E P PO}.

(** The nodes strictly below [n], at level [l], on the way to the range [r]. *)
Definition below (s : Store E) (l : nat) (n : Z) (r : VRange) (x : Z) : Prop :=
  ∃ v t, start r ≤ v < end_ r ∧ (1 ≤ t < l)%nat ∧ descend s l n v t = Some x.

(** Those of them below the slot [i]. *)
Definition slot_below (s : Store E) (l : nat) (n : Z) (r : VRange) (i x : Z) : Prop :=
  ∃ v t, (start r ≤ v < end_ r ∧ pte_index v l = i) ∧ (1 ≤ t < l)%nat ∧ descend s l n v t = Some x.

(** The range [r] lies in the node of level [l] at [node_va]. *)
Record in_node (l : nat) (node_va : Z) (r : VRange) : Prop := mkInNode {
  in_align : (page_size (S l) | node_va);
  in_bounds : node_va ≤ start r < end_ r ∧ end_ r ≤ node_va + page_size (S l)
}.

#[global] Instance below_proper : Proper (same_shape ==> eq ==> eq ==> eq ==> eq ==> iff) below.
Proof.
  intros s s' Hs l ? <- n ? <- r ? <- x ? <-. unfold below. do 2 (f_equiv; intros ?). by rewrite Hs.
Qed.

Section InNode.
Context (l : nat) (node_va : Z) (r : VRange).
Hypotheses (Hl : (1 ≤ l)%nat) (Hin : in_node l node_va r).

Lemma node_index v : start r ≤ v < end_ r → pte_index v l = (v - node_va) / page_size l.
Proof.
  intros Hv. destruct Hin as [[q ->] Hb]. rewrite page_size_S in * by done.
  pose proof (page_size_pos l Hl). pose proof nr_pos. rewrite pte_index_eq by done.
  set (w := page_size l) in *. set (k := nr_subpage_per_huge) in *.
  replace (v - q * (k * w)) with (v + (- (q * k)) * w) by lia. rewrite Z.div_add by lia.
  symmetry. apply (Z.mod_unique_pos _ _ q); [| lia].
  assert (q * (k * w) / w = q * k) by (rewrite Z.mul_assoc; apply Z.div_mul; lia).
  pose proof (Z.div_le_mono (q * (k * w)) v w ltac:(lia) ltac:(lia)).
  pose proof (Z.div_lt_upper_bound v w (q * k + k)). nia.
Qed.

Lemma index_range i :
  (dfs_get_idx_range l node_va r).1 ≤ i < (dfs_get_idx_range l node_va r).2 ↔
  ∃ v, start r ≤ v < end_ r ∧ pte_index v l = i.
Proof.
  cbn [dfs_get_idx_range fst snd]. pose proof (page_size_pos l Hl) as Hp. set (w := page_size l) in *.
  destruct Hin as [_ Hb]. split.
  - intros [H1 H2]. exists (Z.max (start r) (node_va + i * w)).
    assert (start r ≤ Z.max (start r) (node_va + i * w) < end_ r) as Hv.
    { assert (i * w < end_ r - node_va); [| lia].
      pose proof (Z.mul_div_le (end_ r - node_va + (w - 1)) w ltac:(lia)). nia. }
    split; [done |]. rewrite node_index by done. symmetry.
    pose proof (Z.mul_succ_div_gt (start r - node_va) w ltac:(lia)).
    apply (Z.div_unique_pos _ _ _ (Z.max (start r) (node_va + i * w) - node_va - w * i)); nia.
  - intros (v & Hv & <-). rewrite node_index by done. fold w. split.
    + apply Z.div_le_mono; lia.
    + apply Z.div_lt_upper_bound; [lia |].
      pose proof (Z.mul_succ_div_gt (end_ r - node_va + (w - 1)) w ltac:(lia)). nia.
Qed.

Lemma child_range_elem i v :
  start (child_range l node_va i r) ≤ v < end_ (child_range l node_va i r) ↔
  start r ≤ v < end_ r ∧ pte_index v l = i.
Proof.
  cbn [child_range start end_]. pose proof (page_size_pos l Hl) as Hp. set (w := page_size l) in *. split.
  - intros Hv. split; [lia |]. rewrite node_index by lia. symmetry.
    apply (Z.div_unique_pos _ _ _ (v - node_va - w * i)); fold w; lia.
  - intros [Hv Hi]. rewrite node_index in Hi by done. fold w in Hi. subst i.
    pose proof (Z.mul_div_le (v - node_va) w ltac:(lia)).
    pose proof (Z.mul_succ_div_gt (v - node_va) w ltac:(lia)). lia.
Qed.

End InNode.

Lemma child_in_node l node_va r i : in_node (S l) node_va r →
  (∃ v, start r ≤ v < end_ r ∧ pte_index v (S l) = i) →
  in_node l (node_va + i * page_size (S l)) (child_range (S l) node_va i r).
Proof.
  intros Hin (v & Hv). apply (child_range_elem (S l) node_va r) in Hv; [| lia | done]. constructor.
  - apply Z.divide_add_r; [| by exists i].
    apply (Z.divide_trans _ (page_size (S (S l)))); [apply page_size_divide; lia | apply Hin].
  - cbn [child_range start end_] in *. lia.
Qed.

(** *** One slot of a node *)

Section Slot.
Context (s : Store E) (l : nat) (n node_va i : Z) (r : VRange).
Hypotheses (Hl : (1 ≤ l)%nat) (Hin : in_node (S l) node_va r)
  (Hi : ∃ v, start r ≤ v < end_ r ∧ pte_index v (S l) = i).

Lemma slot_below_table c x : child_at s n (S l) i = ChPageTable c →
  slot_below s (S l) n r i x ↔ x = c ∨ below s l c (child_range (S l) node_va i r) x.
Proof.
  intros Hc. unfold slot_below, below. setoid_rewrite (child_range_elem (S l) node_va r); [| lia | done].
  split.
  - intros (v & t & [Hv <-] & Ht & Hd). cbn [descend] in Hd. destruct (Nat.eqb_spec (S l) t); [lia |].
    rewrite Hc in Hd. destruct (decide (t = l)) as [->|]; [| right; exists v, t; split_and!; done || lia].
    left. destruct l; cbn in Hd; rewrite ?Nat.eqb_refl in Hd; congruence.
  - intros [->|(v & t & [Hv <-] & Ht & Hd)].
    + destruct Hi as (v & Hv). exists v, l. split; [done |]. split; [lia |]. destruct Hv as [_ Hv].
      cbn [descend]. destruct (Nat.eqb_spec (S l) l); [lia |]. rewrite Hv, Hc.
      destruct l; cbn; by rewrite ?Nat.eqb_refl.
    + exists v, t. split; [done |]. split; [lia |]. cbn [descend].
      destruct (Nat.eqb_spec (S l) t); [lia |]. by rewrite Hc.
Qed.

Lemma slot_below_leaf x : (∀ c, child_at s n (S l) i ≠ ChPageTable c) → ¬ slot_below s (S l) n r i x.
Proof.
  intros Hc (v & t & [Hv <-] & Ht & Hd). cbn [descend] in Hd. destruct (Nat.eqb_spec (S l) t); [lia |].
  destruct (child_at s n (S l) (pte_index v (S l))); naive_solver.
Qed.
End Slot.

Lemma slot_below_owned s l n r i x : (S l ≤ NR_LEVELS)%nat →
  (∀ v, start r ≤ v < end_ r → managed (S l) (pte_index v (S l)) = true) →
  slot_below s (S l) n r i x → x ∈ slot_owned s (S l) n i ∧ 0 ≤ i < nr_subpage_per_huge.
Proof.
  intros Hl Hm (v & t & [Hv <-] & Ht & Hd). split; [| apply pte_index_range; lia].
  cbn [descend] in Hd. destruct (Nat.eqb_spec (S l) t); [lia |].
  unfold slot_owned. rewrite Hm by done. destruct (child_at s n (S l) _) as [c| |]; [| done | done].
  cbn [child_owned]. rewrite Nat.sub_succ, Nat.sub_0_r.
  apply (descend_owned s l c v t x); [lia | apply managed_low; lia | lia | done].
Qed.

Lemma slot_below_disjoint s l n r i j x : (S l ≤ NR_LEVELS)%nat → NoDup (owned s (S l) n) →
  (∀ v, start r ≤ v < end_ r → managed (S l) (pte_index v (S l)) = true) →
  slot_below s (S l) n r i x → slot_below s (S l) n r j x → i = j.
Proof.
  intros Hl Hnd Hm Hi Hj. destruct (slot_below_owned s l n r i x Hl Hm Hi) as [Hxi Hi'].
  destruct (slot_below_owned s l n r j x Hl Hm Hj) as [Hxj Hj']. destruct (decide (i = j)) as [|Hne]; [done |].
  destruct (nodup_slot s l n i Hnd Hi') as (_ & _ & Hdis). by destruct (Hdis j x Hj' ltac:(done) Hxi).
Qed.

(** The slots of the index range hold exactly the nodes below the range. *)
Lemma below_slots s l n node_va r x : in_node (S l) node_va r →
  below s (S l) n r x ↔
  ∃ i, (dfs_get_idx_range (S l) node_va r).1 ≤ i < (dfs_get_idx_range (S l) node_va r).2 ∧
       slot_below s (S l) n r i x.
Proof.
  intros Hin. setoid_rewrite (index_range (S l) node_va r); [| lia | done]. split.
  - intros (v & t & Hv & Ht & Hd). exists (pte_index v (S l)). split; [by exists v |]. by exists v, t.
  - intros (i & _ & v & t & [Hv _] & Ht & Hd). by exists v, t.
Qed.

(** What the loops of the two traversals see of a slot. *)
Lemma slot_read s s' l n i : node_ok s l n → same_shape s s' → 0 ≤ i < nr_subpage_per_huge →
  ∃ e, entry s' n i = Done e ∧ to_ref s' e = Done (child_at s n l i).
Proof.
  intros Hok Hs Hi. apply (shape_node_ok s s' l n Hs) in Hok.
  destruct (entry_eq s' l n i Hok Hi) as (pte & E1 & E2 & E3). exists (mkEntry pte i n).
  split; [done |]. destruct Hok as (nd & Hnd & Hlv & _). unfold to_ref, entry_level, get_node.
  cbn [e_node e_pte]. rewrite Hnd. cbn. rewrite Hlv, Hs. by rewrite E2.
Qed.

(** *** The two traversals *)

Section Dfs.
Context (s : Store E) (l : nat) (n node_va : Z) (r : VRange).
Hypotheses (Hl : (1 ≤ l)%nat) (HL : (S l ≤ NR_LEVELS)%nat) (Htree : tree_ok s (S l) n)
  (Hin : in_node (S l) node_va r)
  (Hm : ∀ v, start r ≤ v < end_ r → managed (S l) (pte_index v (S l)) = true).

Lemma idx_count : let '(a, b) := dfs_get_idx_range (S l) node_va r in a + Z.of_nat (Z.to_nat (b - a)) = b.
Proof.
  cbn [dfs_get_idx_range]. pose proof (index_range (S l) node_va r ltac:(lia) Hin (pte_index (start r) (S l))) as Hi.
  cbn [dfs_get_idx_range fst snd] in Hi. pose proof (in_bounds _ _ _ Hin).
  assert (∃ v, start r ≤ v < end_ r ∧ pte_index v (S l) = pte_index (start r) (S l)) as Hex.
  { exists (start r). split; [lia | done]. }
  apply Hi in Hex. lia.
Qed.

(** A child on the way to the range. *)
Lemma child_tree i c : (∃ v, start r ≤ v < end_ r ∧ pte_index v (S l) = i) →
  child_at s n (S l) i = ChPageTable c → tree_ok s l c ∧ is_Some (nodes s !! c) ∧
  (NoDup (owned s (S l) n) → NoDup (owned s l c) ∧ c ∉ slots ≫= slot_owned s l c).
Proof using All.
  intros (v & Hv & <-) Hc. apply tree_ok_S in Htree as [_ Hch].
  pose proof (pte_index_range v (S l) ltac:(lia)) as Hi. specialize (Hch _ Hi (Hm v Hv)).
  rewrite Hc in Hch. cbn in Hch. rewrite Nat.sub_0_r in Hch. split; [done |].
  destruct l as [|l']; [lia |]. pose proof Hch as [(nd & Hnd & _) _]%tree_ok_S. split; [by exists nd |].
  intros Hnd'. destruct (nodup_slot s (S l') n _ Hnd' Hi) as (H1 & _). unfold slot_owned in H1.
  rewrite Hm, Hc in H1 by done. cbn [child_owned] in H1. rewrite Nat.sub_succ, Nat.sub_0_r in H1.
  split; [done |]. rewrite owned_S in H1. by apply NoDup_cons in H1 as [? _].
Qed.

Lemma below_child_not i c : NoDup (owned s (S l) n) →
  (∃ v, start r ≤ v < end_ r ∧ pte_index v (S l) = i) →
  child_at s n (S l) i = ChPageTable c → ¬ below s l c (child_range (S l) node_va i r) c.
Proof using All.
  intros Hnd Hi Hc (v & t & _ & Ht & Hd). destruct (child_tree i c Hi Hc) as (_ & _ & Hn).
  destruct (Hn Hnd) as [_ Hnot]. apply Hnot. destruct l as [|l']; [lia |].
  apply list_elem_of_bind. exists (pte_index v (S l')). split; [| apply slot_elem, pte_index_range; lia].
  cbn [descend] in Hd. destruct (Nat.eqb_spec (S l') t); [lia |]. unfold slot_owned.
  rewrite managed_low by lia. destruct (child_at s c (S l') _) as [c'| |]; [| done | done].
  cbn [child_owned]. rewrite Nat.sub_succ, Nat.sub_0_r.
  apply (descend_owned s l' c' v t c); [lia | apply managed_low; lia | lia | done].
Qed.
End Dfs.

(** What the traversals do below a node of level [l]. *)
Definition acquires (l : nat) : Prop := ∀ (s : Store E) n node_va r,
  tree_ok s l n → NoDup (owned s l n) → in_node l node_va r →
  (∀ v, start r ≤ v < end_ r → managed l (pte_index v l) = true) →
  (∀ x, below s l n r x → lock_of s x = false) →
  ∃ s', dfs_acquire_lock l s n node_va r = Done s' ∧ locks_set true (below s l n r) s s'.

Definition releases (l : nat) : Prop := ∀ (s : Store E) n node_va r,
  tree_ok s l n → NoDup (owned s l n) → in_node l node_va r →
  (∀ v, start r ≤ v < end_ r → managed l (pte_index v l) = true) →
  ∃ s', dfs_release_lock l s n node_va r = Done s' ∧
    locks_set false (λ x, x = n ∨ below s l n r x) s s'.

Section DfsStep.
Context (s : Store E) (l : nat) (n node_va : Z) (r : VRange).
Hypotheses (Hl : (1 ≤ l)%nat) (HL : (S l ≤ NR_LEVELS)%nat) (Htree : tree_ok s (S l) n)
  (Hnd : NoDup (owned s (S l) n)) (Hin : in_node (S l) node_va r)
  (Hm : ∀ v, start r ≤ v < end_ r → managed (S l) (pte_index v (S l)) = true).

Lemma acquire_slot i : acquires l → (∃ v, start r ≤ v < end_ r ∧ pte_index v (S l) = i) →
  sets true (slot_below s (S l) n r) (λ s0 i,
    entry s0 n i ≫= λ e, to_ref s0 e ≫= λ ch,
      match ch with
      | ChPageTable pt => node_lock s0 pt ≫= λ s1,
          dfs_acquire_lock l s1 pt (node_va + i * page_size (S l)) (child_range (S l) node_va i r)
      | ChNone | ChFrame _ _ _ => Done s0
      end) s i.
Proof using All.
  intros IH Hi s1 Sh1 Hl1.
  assert (0 ≤ i < nr_subpage_per_huge) as Hir by (destruct Hi as (v & _ & <-); apply pte_index_range; lia).
  apply tree_ok_S in Htree as Hok. destruct (slot_read s s1 _ n i (proj1 Hok) Sh1 Hir) as (e & -> & E2).
  cbn [mbind outcome_bind]. rewrite E2. cbn [mbind outcome_bind].
  destruct (child_at s n (S l) i) as [c| |] eqn:Hc;
    [| exists s1; (split; [done |]); eapply locks_set_iff, locks_set_refl; intros x; split; [done |];
       apply slot_below_leaf; congruence ..].
  pose proof (λ x, slot_below_table s l n node_va i r Hl Hin Hi c x Hc) as Hsb.
  destruct (child_tree s l n node_va r Hl HL Htree Hin Hm i c Hi Hc) as (Hct & [nd Hnc] & Hcn).
  destruct (Hcn Hnd) as [Hcnd _].
  pose proof (below_child_not s l n node_va r Hl HL Htree Hin Hm i c Hnd Hi Hc) as Hnb.
  destruct (shape_node s s1 c nd Sh1 Hnc) as [bb Hb].
  assert (lock_of s1 c = false) as Hfree by (apply Hl1; [done | apply Hsb; by left]).
  unfold lock_of in Hfree. rewrite Hb in Hfree. cbn [lock] in Hfree. subst bb.
  destruct (set_lock_eq s1 c true) as (s2 & Hs2 & H2); [by eexists |]. pose proof H2 as [Sh2 L2].
  unfold node_lock, get_node. rewrite Hb. cbn [unwrap lock negb assert_that mbind outcome_bind].
  rewrite Hs2. cbn [mbind outcome_bind]. assert (same_shape s s2) as Sh by (by rewrite Sh1).
  destruct (IH s2 c (node_va + i * page_size (S l)) (child_range (S l) node_va i r)) as (s3 & -> & H3).
  - by apply (shape_tree_ok s).
  - by rewrite <- Sh.
  - by apply child_in_node.
  - intros v _. apply managed_low. lia.
  - intros x Hx. rewrite <- Sh in Hx. apply not_true_is_false. intros Ht. apply L2 in Ht as [Ht| ->]; [| done].
    rewrite Hl1 in Ht; [done | done |]. apply Hsb. by right.
  - exists s3. split; [done |]. eapply locks_set_iff; [| exact (locks_set_trans _ _ _ _ _ _ H2 H3)].
    intros x. rewrite Hsb. cbn beta. by rewrite <- Sh.
Qed.

Lemma release_slot i : releases l → (∃ v, start r ≤ v < end_ r ∧ pte_index v (S l) = i) →
  sets false (slot_below s (S l) n r) (λ s0 i,
    entry s0 n i ≫= λ e, to_ref s0 e ≫= λ ch,
      match ch with
      | ChPageTable pt =>
          dfs_release_lock l s0 pt (node_va + i * page_size (S l)) (child_range (S l) node_va i r)
      | ChNone | ChFrame _ _ _ => Done s0
      end) s i.
Proof using All.
  intros IH Hi s1 Sh1 _.
  assert (0 ≤ i < nr_subpage_per_huge) as Hir by (destruct Hi as (v & _ & <-); apply pte_index_range; lia).
  apply tree_ok_S in Htree as Hok. destruct (slot_read s s1 _ n i (proj1 Hok) Sh1 Hir) as (e & -> & E2).
  cbn [mbind outcome_bind]. rewrite E2. cbn [mbind outcome_bind].
  destruct (child_at s n (S l) i) as [c| |] eqn:Hc;
    [| exists s1; (split; [done |]); eapply locks_set_iff, locks_set_refl; intros x; split; [done |];
       apply slot_below_leaf; congruence ..].
  pose proof (λ x, slot_below_table s l n node_va i r Hl Hin Hi c x Hc) as Hsb.
  destruct (child_tree s l n node_va r Hl HL Htree Hin Hm i c Hi Hc) as (Hct & _ & Hcn). destruct (Hcn Hnd) as [Hcnd _].
  destruct (IH s1 c (node_va + i * page_size (S l)) (child_range (S l) node_va i r)) as (s3 & -> & H3).
  - by apply (shape_tree_ok s).
  - by rewrite <- Sh1.
  - by apply child_in_node.
  - intros v _. apply managed_low. lia.
  - exists s3. split; [done |]. eapply locks_set_iff; [| exact H3].
    intros x. rewrite Hsb. cbn beta. by rewrite <- Sh1.
Qed.
End DfsStep.

Lemma dfs_acquire_S l (s : Store E) n node_va r : dfs_acquire_lock (S (S l)) s n node_va r =
  let '(a, b) := dfs_get_idx_range (S (S l)) node_va r in
  for_range (Z.to_nat (b - a)) a (λ s0 i,
    entry s0 n i ≫= λ e, to_ref s0 e ≫= λ ch,
      match ch with
      | ChPageTable pt => node_lock s0 pt ≫= λ s1,
          dfs_acquire_lock (S l) s1 pt (node_va + i * page_size (S (S l))) (child_range (S (S l)) node_va i r)
      | ChNone | ChFrame _ _ _ => Done s0
      end) s.
Proof. reflexivity. Qed.

Lemma dfs_release_S l (s : Store E) n node_va r : dfs_release_lock (S (S l)) s n node_va r =
  let '(a, b) := dfs_get_idx_range (S (S l)) node_va r in
  for_range_rev (Z.to_nat (b - a)) a (λ s0 i,
    entry s0 n i ≫= λ e, to_ref s0 e ≫= λ ch,
      match ch with
      | ChPageTable pt =>
          dfs_release_lock (S l) s0 pt (node_va + i * page_size (S (S l))) (child_range (S (S l)) node_va i r)
      | ChNone | ChFrame _ _ _ => Done s0
      end) s ≫= λ s, node_unlock s n.
Proof. reflexivity. Qed.

Lemma dfs_acquire_ok l : (1 ≤ l ≤ NR_LEVELS)%nat → acquires l.
Proof.
  induction l as [|[|l] IH]; intros Hl s n node_va r Htree Hnd Hin Hm Hlk; [lia | |].
  - exists s. split; [done |]. eapply locks_set_iff, locks_set_refl. intros x. split; [done |].
    intros (? & ? & _ & ? & _). lia.
  - pose proof (idx_count (S l) node_va r ltac:(lia) ltac:(lia) Hin) as Hcnt.
    pose proof (index_range (S (S l)) node_va r ltac:(lia) Hin) as Hidx.
    rewrite dfs_acquire_S. pose proof (λ x, below_slots s (S l) n node_va r x Hin) as Hbs.
    destruct (dfs_get_idx_range (S (S l)) node_va r) as [a b] eqn:Hab. cbn [fst snd] in *.
    destruct (for_range_set true (slot_below s (S (S l)) n r) _ (Z.to_nat (b - a)) a s
      (λ i Hi, acquire_slot s (S l) n node_va r ltac:(lia) ltac:(lia) Htree Hnd Hin Hm i (IH ltac:(lia))
         (proj1 (Hidx i) (eq_rect _ (λ z, a ≤ i < z) Hi _ Hcnt)))) as (s' & -> & Hset).
    + intros i j x. apply slot_below_disjoint; [lia | done | done].
    + intros _ i x Hi (v & t & [? _] & Hx). apply Hlk. by exists v, t.
    + exists s'. split; [done |]. eapply locks_set_iff; [| exact Hset]. intros x. cbn beta.
      by rewrite Hbs, Hcnt.
Qed.

Lemma dfs_release_ok l : (1 ≤ l ≤ NR_LEVELS)%nat → releases l.
Proof.
  induction l as [|[|l] IH]; intros Hl s n node_va r Htree Hnd Hin Hm; [lia | |];
    pose proof Htree as [(nd & Hn & _) _]%tree_ok_S.
  - destruct (set_lock_eq s n false) as (s' & Hs' & Hset); [by exists nd |]. exists s'. split; [done |].
    eapply locks_set_iff; [| exact Hset]. intros x. split; [by left |].
    intros [->|(? & ? & _ & ? & _)]; [done | lia].
  - pose proof (idx_count (S l) node_va r ltac:(lia) ltac:(lia) Hin) as Hcnt.
    pose proof (index_range (S (S l)) node_va r ltac:(lia) Hin) as Hidx.
    rewrite dfs_release_S. pose proof (λ x, below_slots s (S l) n node_va r x Hin) as Hbs.
    destruct (dfs_get_idx_range (S (S l)) node_va r) as [a b] eqn:Hab. cbn [fst snd] in *.
    destruct (for_range_rev_set (slot_below s (S (S l)) n r) _ (Z.to_nat (b - a)) a s
      (λ i Hi, release_slot s (S l) n node_va r ltac:(lia) ltac:(lia) Htree Hnd Hin Hm i (IH ltac:(lia))
         (proj1 (Hidx i) (eq_rect _ (λ z, a ≤ i < z) Hi _ Hcnt)))) as (s1 & -> & Hset).
    cbn [mbind outcome_bind]. destruct (shape_node s s1 n nd (proj1 Hset) Hn) as [bb Hb].
    destruct (set_lock_eq s1 n false) as (s' & Hs' & Hset'); [by eexists |]. exists s'. split; [done |].
    eapply locks_set_iff; [| exact (locks_set_trans _ _ _ _ _ _ Hset Hset')]. intros x. cbn beta.
    rewrite Hbs, Hcnt. tauto.
Qed.
End Below.

(** ** The managed addresses *)

Section Managed.
Context {PC : PagingConsts} {PL : @PagingLaws PC}.

Lemma top_page : page_size (S NR_LEVELS) = 2 ^ ADDRESS_WIDTH ∧
  page_size (S NR_LEVELS) = nr_subpage_per_huge * page_size NR_LEVELS ∧ 0 < page_size NR_LEVELS ∧
  0 ≤ ADDRESS_WIDTH < 64.
Proof.
  pose proof levels_ok. rewrite address_width_ok, page_size_pow by lia.
  pose proof width_ok. pose proof (offset_nonneg (S NR_LEVELS) ltac:(lia)).
  split; [done |]. rewrite <- page_size_pow by lia. split; [apply page_size_S; lia |].
  split; [apply page_size_pos; lia | lia].
Qed.

(** The index range, as addresses before sign extension. *)
Lemma pt_va_range_eq :
  pt_va_range_start = TOP_LEVEL_INDEX_RANGE.1 * page_size NR_LEVELS ∧
  pt_va_range_end = TOP_LEVEL_INDEX_RANGE.2 * page_size NR_LEVELS - 1 ∧
  0 ≤ pt_va_range_start ∧ pt_va_range_end < 2 ^ ADDRESS_WIDTH ∧ pt_va_range_start ≤ pt_va_range_end.
Proof.
  destruct top_page as (T1 & T2 & T3 & T4). pose proof index_range_ok as [? ?]. pose proof levels_ok.
  pose proof (offset_nonneg NR_LEVELS ltac:(lia)). assert (2 ^ ADDRESS_WIDTH ≤ 2 ^ 64) by (apply pow2_le; lia).
  assert (pt_va_range_start = TOP_LEVEL_INDEX_RANGE.1 * page_size NR_LEVELS) as Hs.
  { unfold pt_va_range_start. by rewrite Z.shiftl_mul_pow2, <- page_size_pow by lia. }
  assert (pt_va_range_end = TOP_LEVEL_INDEX_RANGE.2 * page_size NR_LEVELS - 1) as He.
  { unfold pt_va_range_end, wrapping_sub. rewrite Z.shiftl_mul_pow2, <- page_size_pow by lia.
    apply Z.mod_small. nia. }
  rewrite Hs, He. split; [done |]. split; [done |]. split; [nia |]. nia.
Qed.

Lemma lor_sign x : 0 ≤ x < 2 ^ ADDRESS_WIDTH → Z.lor x sign_mask = x + (2 ^ 64 - 2 ^ ADDRESS_WIDTH).
Proof.
  intros Hx. destruct top_page as (_ & _ & _ & Hw). unfold sign_mask.
  assert (Z.lxor (2 ^ 64 - 1) (2 ^ ADDRESS_WIDTH - 1) =
    Z.shiftl (Z.ones (64 - ADDRESS_WIDTH)) ADDRESS_WIDTH) as ->.
  { apply Z.bits_inj'. intros k Hk. rewrite Z.lxor_spec, Z.shiftl_spec by done.
    change (2 ^ 64 - 1) with (Z.ones 64). rewrite Z.sub_1_r, <- Z.ones_equiv.
    rewrite !Z.testbit_ones by lia.
    repeat match goal with |- context [?a <=? ?b] => destruct (Z.leb_spec a b) end;
    repeat match goal with |- context [?a <? ?b] => destruct (Z.ltb_spec a b) end; lia || done. }
  rewrite <- Z.add_nocarry_lor.
  - rewrite Z.shiftl_mul_pow2, Z.ones_equiv by lia. f_equal.
    rewrite <- Z.sub_1_r, Z.mul_sub_distr_r, <- Z.pow_add_r by lia.
    replace (64 - ADDRESS_WIDTH + ADDRESS_WIDTH) with 64 by lia. lia.
  - apply Z.bits_inj'. intros k Hk. rewrite Z.land_spec, Z.shiftl_spec, Z.bits_0 by done.
    destruct (decide (k < ADDRESS_WIDTH)).
    + rewrite (Z.testbit_neg_r _ (k - ADDRESS_WIDTH)) by lia. apply andb_false_r.
    + rewrite <- (Z.mod_small x (2 ^ ADDRESS_WIDTH)) by done. by rewrite Z.mod_pow2_bits_high by lia.
Qed.

Lemma managed_shift v m : 0 ≤ v - m * 2 ^ ADDRESS_WIDTH →
  pt_va_range_start ≤ v - m * 2 ^ ADDRESS_WIDTH ≤ pt_va_range_end → managed_va v.
Proof.
  intros H0 Hv. destruct top_page as (T1 & T2 & T3 & T4). destruct pt_va_range_eq as (-> & -> & _) in Hv.
  pose proof index_range_ok as [? ?]. pose proof levels_ok. unfold managed_va, managed.
  rewrite Nat.eqb_refl, pte_index_eq by lia. set (w := page_size NR_LEVELS) in *.
  set (x := v - m * 2 ^ ADDRESS_WIDTH) in *.
  assert (v = x + (m * nr_subpage_per_huge) * w) as Hx by (unfold x; rewrite <- T1, T2; lia).
  clearbody x. rewrite Hx, Z.div_add, Z.mod_add by lia.
  assert (TOP_LEVEL_INDEX_RANGE.1 ≤ x / w < TOP_LEVEL_INDEX_RANGE.2) as Hq.
  { split; [apply Z.div_le_lower_bound; lia | apply Z.div_lt_upper_bound; lia]. }
  rewrite Z.mod_small by lia. apply andb_true_iff. split; [apply Z.leb_le | apply Z.ltb_lt]; lia.
Qed.

Lemma valid_range_shift r : is_valid_range r = Done true → start r < end_ r →
  ∃ m, ∀ v, start r ≤ v < end_ r → pt_va_range_start ≤ v - m * 2 ^ ADDRESS_WIDTH ≤ pt_va_range_end.
Proof.
  unfold is_valid_range. intros Hr Hne. destruct pt_va_range_eq as (_ & _ & P1 & P2 & P3).
  destruct ((start r =? 0) && (end_ r =? 0)) eqn:H0.
  { apply andb_true_iff in H0 as [?%Z.eqb_eq ?%Z.eqb_eq]. lia. }
  destruct (Z.leb_spec vaddr_range.1 (start r)) as [Hs|]; [| done].
  apply bind_done in Hr as (e & He%unwrap_done & [= Hle]). apply Z.leb_le in Hle.
  unfold checked_sub in He. destruct (_ <=? _) eqn:Hle1 in He; [| done]. injection He as <-.
  unfold vaddr_range in *. destruct (VA_SIGN_EXT && _); cbn [fst snd] in *.
  - rewrite lor_sign in Hs by lia. rewrite lor_sign in Hle by lia.
    destruct top_page as (T1 & T2 & T3 & T4).
    assert (2 ^ 64 = 2 ^ (64 - ADDRESS_WIDTH) * 2 ^ ADDRESS_WIDTH) as Hp.
    { rewrite <- Z.pow_add_r by lia. f_equal. lia. }
    exists (2 ^ (64 - ADDRESS_WIDTH) - 1). lia.
  - exists 0. lia.
Qed.

(** Every address of a valid range is managed, and the range is in one window of
    the address space. *)
Lemma valid_range_managed r : is_valid_range r = Done true → start r < end_ r →
  (∀ v, start r ≤ v < end_ r → managed_va v) ∧
  (end_ r - 1) / page_size (S NR_LEVELS) = start r / page_size (S NR_LEVELS).
Proof.
  intros Hr Hne. destruct (valid_range_shift r Hr Hne) as [m Hm].
  destruct pt_va_range_eq as (_ & _ & P1 & P2 & P3). destruct top_page as (T1 & _ & T3 & T4).
  split; [intros v Hv; apply (managed_shift v m); specialize (Hm v Hv); lia |]. rewrite T1.
  assert (∀ v, start r ≤ v < end_ r → m = v / 2 ^ ADDRESS_WIDTH) as Hw.
  { intros v Hv. specialize (Hm v Hv). apply (Z.div_unique _ _ _ (v - m * 2 ^ ADDRESS_WIDTH)); lia. }
  rewrite <- (Hw (end_ r - 1)), <- (Hw (start r)) by lia. done.
Qed.
End Managed.

(** ** Finding the node to lock *)

Section Traverse.
Context {PC : PagingConsts} {E P : Type} {PO : PteOps E P} {DP : EqDecision P}.
Context {PL : @PagingLaws PC} {EL : @PteLaws PC E P PO}.
Context (root : Z) (r : VRange).
Hypothesis (Hm : managed_va (start r)).

(** Exactly the node [g] is locked, or none. *)
Definition only_locked (s : Store E) (g : option Z) : Prop :=
  ∀ x, x ∈ owned s NR_LEVELS root → lock_of s x = true ↔ g = Some x.

Definition covering (l : nat) : Prop :=
  ∀ j, (l < j ≤ NR_LEVELS)%nat → pte_index (end_ r - 1) j = pte_index (start r) j.

Lemma lock_one s l n g : (1 ≤ l)%nat →
  pt_ok s root → descend s NR_LEVELS root (start r) l = Some n →
  only_locked s g → g = None ∨ g = Some n →
  ∃ s', (match g with
         | Some g => Done (g, s)
         | None => node_lock s n ≫= λ s, Done (n, s)
         end) = Done (n, s') ∧ same_shape s s' ∧ only_locked s' (Some n).
Proof.
  intros Hl Hpt Hd Ho [->| ->]; [| by exists s].
  destruct (at_slot s root (start r) l n) as (_ & _ & Hno & _ & _ & (nd & Hnd & _) & _); try done.
  assert (lock nd = false) as Hf.
  { apply not_true_is_false. intros Ht. assert (None = Some n); [| done]. apply (Ho n Hno).
    unfold lock_of. by rewrite Hnd. }
  destruct (set_lock_eq s n true) as (s' & Hs' & Sh & L); [by exists nd |].
  unfold node_lock, get_node. rewrite Hnd. cbn [unwrap mbind outcome_bind]. rewrite Hf.
  cbn [negb assert_that mbind outcome_bind]. rewrite Hs'. exists s'. split; [done |]. split; [done |].
  intros x Hx. rewrite <- Sh in Hx. rewrite L. rewrite (Ho x Hx). naive_solver.
Qed.

Lemma unlock_one s l n : (1 ≤ l)%nat →
  pt_ok s root → descend s NR_LEVELS root (start r) l = Some n → only_locked s (Some n) →
  ∃ s', node_unlock s n = Done s' ∧ same_shape s s' ∧ only_locked s' None.
Proof.
  intros Hl Hpt Hd Ho.
  destruct (at_slot s root (start r) l n) as (_ & _ & Hno & _ & _ & (nd & Hnd & _) & _); try done.
  destruct (set_lock_eq s n false) as (s' & Hs' & Sh & L); [by exists nd |].
  exists s'. split; [done |]. split; [done |]. intros x Hx. rewrite <- Sh in Hx. rewrite L, (Ho x Hx).
  naive_solver.
Qed.

(** The outcome of a traversal: the node [g] at level [gl], not stray and locked. *)
Definition traversed (s : Store E) (l : nat) (g : Z) (s' : Store E) : Prop :=
  pt_ok s' root ∧ only_locked s' (Some g) ∧ (length (pool s) ≤ length (pool s') + l)%nat ∧
  (∀ v, managed_va v → trans s' NR_LEVELS root v = trans s NR_LEVELS root v) ∧
  ∃ gl, (1 ≤ gl ≤ NR_LEVELS)%nat ∧ descend s' NR_LEVELS root (start r) gl = Some g ∧ covering gl.

Lemma finish_traverse_ok s l n g : (1 ≤ l ≤ NR_LEVELS)%nat →
  pt_ok s root → descend s NR_LEVELS root (start r) l = Some n → only_locked s g →
  g = None ∨ g = Some n → covering l →
  ∃ s', finish_traverse s n g = Done (Some n, s') ∧ traversed s l n s'.
Proof.
  intros Hl Hpt Hd Ho Hg Hcov. unfold finish_traverse.
  destruct (lock_one s l n g ltac:(lia) Hpt Hd Ho Hg) as (s' & -> & Sh & Ho'). cbn [mbind outcome_bind].
  assert (pt_ok s' root) as Hpt' by (by rewrite <- Sh).
  assert (descend s' NR_LEVELS root (start r) l = Some n) as Hd' by (by rewrite <- Sh).
  destruct (at_slot s' root (start r) l n) as (_ & _ & _ & _ & _ & (nd & Hnd & _ & _ & Hst & _) & _);
    try done; [lia |].
  unfold get_node. rewrite Hnd. cbn [unwrap mbind outcome_bind]. rewrite Hst. exists s'. split; [done |].
  split; [done |]. split; [done |]. split; [rewrite (proj1 Sh); lia |].
  split; [intros v _; by rewrite Sh |]. by exists l.
Qed.

Lemma traversed_step s s1 l g s' :
  (length (pool s) ≤ S (length (pool s1)))%nat →
  (∀ v, managed_va v → trans s1 NR_LEVELS root v = trans s NR_LEVELS root v) →
  traversed s1 l g s' → traversed s (S l) g s'.
Proof.
  intros Hp Ht (H1 & H2 & H3 & H4 & H5). split; [done |]. split; [done |].
  split; [lia |]. split; [intros v Hv; rewrite H4 by done; by apply Ht | done].
Qed.

(** The absent child is allocated below the locked node, and locked instead of it. *)
Lemma traverse_alloc s l n pte new rest : (1 ≤ l)%nat →
  pt_ok s root → descend s NR_LEVELS root (start r) (S l) = Some n → only_locked s (Some n) →
  entry s n (pte_index (start r) (S l)) = Done (mkEntry pte (pte_index (start r) (S l)) n) →
  child_at s n (S l) (pte_index (start r) (S l)) = ChNone → pool s = new :: rest →
  ∃ s1 s2, alloc_if_none s (mkEntry pte (pte_index (start r) (S l)) n) = Done (Some new, s1) ∧
    node_unlock s1 n = Done s2 ∧ pt_ok s2 root ∧ only_locked s2 (Some new) ∧
    descend s2 NR_LEVELS root (start r) l = Some new ∧ pool s2 = rest ∧
    ∀ v, managed_va v → trans s2 NR_LEVELS root v = trans s NR_LEVELS root v.
Proof.
  intros Hl Hpt Hd Ho He Hc Hp.
  destruct (alloc_step s root (start r) l n pte new rest) as (s1 & A1 & Hst & A3 & [A4 A4'] & A5); try done.
  destruct (at_slot s root (start r) (S l) n) as (_ & _ & Hno & _ & Hmt & _); try done; [lia |].
  assert (descend s1 NR_LEVELS root (start r) (S l) = Some n) as Hd1.
  { rewrite (ps_descend _ _ _ _ _ _ _ Hst); [done | done | left; lia]. }
  pose proof (ps_ok _ _ _ _ _ _ _ Hst) as Hpt1.
  destruct (at_slot s1 root (start r) (S l) n) as (_ & _ & Hno1 & _ & _ & (nd & Hnd & _) & _); try done; [lia |].
  destruct (set_lock_eq s1 n false) as (s2 & U1 & Sh & L); [by exists nd |]. exists s1, s2.
  split; [done |]. split; [done |]. split; [by rewrite <- Sh |]. split.
  2: { split; [by rewrite <- Sh |]. split; [by rewrite <- (proj1 Sh) |].
       intros v Hv. rewrite <- Sh. by apply A5. }
  assert (new ∉ owned s NR_LEVELS root) as Hnew.
  { apply (ps_new _ _ _ _ _ _ _ Hst). rewrite A4'. set_solver. }
  intros x Hx. rewrite <- Sh in Hx. rewrite L.
  destruct (ps_locks _ _ _ _ _ _ _ Hst x Hx) as [L1 L2].
  destruct (decide (x ∈ owned s NR_LEVELS root)) as [Hxo|Hxo].
  - rewrite L1, (Ho x Hxo) by done. split; [intros [[= <-] []]; done |]. intros [= <-]. done.
  - rewrite L2 by done. pose proof (ps_old _ _ _ _ _ _ _ Hst x Hx Hxo) as Hxn. rewrite A4' in Hxn.
    apply list_elem_of_singleton in Hxn as ->. split; [done |]. intros _. split; [done |]. by intros ->.
Qed.

Definition traverses (l : nat) : Prop := ∀ (s : Store E) n g,
  pt_ok s root → descend s NR_LEVELS root (start r) l = Some n → only_locked s g →
  g = None ∨ g = Some n → covering l → (l ≤ S (length (pool s)))%nat →
  ∃ x s', traverse l s n g r = Done (Some x, s') ∧ traversed s l x s'.

Section Level.
Context (l : nat) (s : Store E) (n : Z) (g : option Z).
Hypotheses (IH : traverses l) (Hl : (1 ≤ l)%nat) (HL : (S l ≤ NR_LEVELS)%nat) (Hpt : pt_ok s root)
  (Hd : descend s NR_LEVELS root (start r) (S l) = Some n) (Ho : only_locked s g)
  (Hg : g = None ∨ g = Some n) (Hcov : covering l) (Hpool : (l ≤ length (pool s))%nat).

(** The child exists: go on below it. *)
Lemma traverse_down s1 c : same_shape s s1 → only_locked s1 None →
  child_at s n (S l) (pte_index (start r) (S l)) = ChPageTable c →
  ∃ x s', traverse l s1 c None r = Done (Some x, s') ∧ traversed s (S l) x s'.
Proof using All.
  intros Sh1 Ho1 Hc. destruct (IH s1 c None) as (x & s' & H1 & H2); try done.
  - by rewrite <- Sh1.
  - rewrite <- Sh1. by apply (descend_child s NR_LEVELS root (start r) l n c).
  - by left.
  - rewrite <- (proj1 Sh1). lia.
  - exists x, s'. split; [done |]. apply (traversed_step s s1); [rewrite (proj1 Sh1); lia | | done].
    intros v _. by rewrite Sh1.
Qed.

Lemma traverse_absent : child_at s n (S l) (pte_index (start r) (S l)) = ChNone →
  ∃ x s',
    (match g with
     | Some g => Done (g, s)
     | None => node_lock s n ≫= λ s, Done (n, s)
     end ≫= λ '(pt_guard, s),
     get_node s pt_guard ≫= λ nd,
     if stray nd then node_unlock s pt_guard ≫= λ s, Done (None, s)
     else
       entry s pt_guard (pte_index (start r) (S l)) ≫= λ cur_entry,
       to_ref s cur_entry ≫= λ ch,
       match ch with
       | ChNone =>
           alloc_if_none s cur_entry ≫= λ '(a, s),
           unwrap a ≫= λ allocated,
           node_unlock s pt_guard ≫= λ s, traverse l s allocated (Some allocated) r
       | ChPageTable pt => node_unlock s pt_guard ≫= λ s, traverse l s pt None r
       | ChFrame _ _ _ => node_unlock s pt_guard ≫= λ s, finish_traverse s n None
       end) = Done (Some x, s') ∧ traversed s (S l) x s'.
Proof using All.
  intros Hc. destruct (lock_one s (S l) n g ltac:(lia) Hpt Hd Ho Hg) as (s1 & -> & Sh1 & Ho1).
  cbn [mbind outcome_bind].
  assert (pt_ok s1 root) as Hpt1 by (by rewrite <- Sh1).
  assert (descend s1 NR_LEVELS root (start r) (S l) = Some n) as Hd1 by (by rewrite <- Sh1).
  assert (child_at s1 n (S l) (pte_index (start r) (S l)) = ChNone) as Hc1 by (by rewrite <- Sh1).
  destruct (at_slot s1 root (start r) (S l) n) as (_ & _ & _ & _ & _ & (nd & Hnd & _ & _ & Hst & _) & _);
    try done; [lia |].
  unfold get_node. rewrite Hnd. cbn [unwrap mbind outcome_bind]. rewrite Hst.
  destruct (entry_step s1 root (start r) (S l) n) as (pte & F1 & _ & _ & F4 & _); try done; [lia |].
  rewrite F1. cbn [mbind outcome_bind]. rewrite F4, Hc1. cbn [mbind outcome_bind].
  destruct (pool s) as [|new rest] eqn:Hp; [cbn in Hpool; lia |]. cbn in Hpool.
  destruct (traverse_alloc s1 l n pte new rest) as (s2 & s3 & -> & U & Hpt3 & Ho3 & Hd3 & Hp3 & Ht3); try done.
  { by rewrite <- (proj1 Sh1). }
  cbn [mbind outcome_bind unwrap]. rewrite U. cbn [mbind outcome_bind].
  destruct (IH s3 new (Some new)) as (x & s' & H1 & H2); try done; [by right | rewrite Hp3; lia |].
  exists x, s'. split; [done |]. apply (traversed_step s s3); [rewrite Hp, Hp3; cbn; lia | | done].
  intros v Hv. rewrite Ht3 by done. by rewrite Sh1.
Qed.
End Level.

Lemma traverse_ok l : (1 ≤ l ≤ NR_LEVELS)%nat → traverses l.
Proof.
  induction l as [|l IH]; intros Hl s n g Hpt Hd Ho Hg Hcov Hpool; [lia |]. cbn [traverse].
  assert (∃ x s', finish_traverse s n g = Done (Some x, s') ∧ traversed s (S l) x s') as Hfin.
  { destruct (finish_traverse_ok s (S l) n g) as (s' & H1 & H2); try done. by exists n, s'. }
  destruct ((1 <? S l)%nat && (pte_index (start r) (S l) =? pte_index (end_ r - 1) (S l))) eqn:Hhigh;
    cbn [negb]; [| exact Hfin].
  apply andb_true_iff in Hhigh as [Hl1%Nat.ltb_lt Hidx%Z.eqb_eq].
  assert (covering l) as Hcov'.
  { intros j Hj. destruct (decide (j = S l)) as [->|]; [done | apply Hcov; lia]. }
  specialize (IH ltac:(lia)). assert (1 ≤ l)%nat as Hl' by lia. assert (l ≤ length (pool s))%nat as Hp' by lia.
  destruct (entry_step s root (start r) (S l) n) as (pte & E1 & E2 & E3 & _); try done; [lia |].
  rewrite E3. cbn [mbind outcome_bind]. unfold from_pte in E2. symmetry in E2.
  destruct (is_present pte) eqn:Hpres; [| exact (traverse_absent l s n g IH Hl' (proj2 Hl) Hpt Hd Ho Hg Hcov' Hp' E2)].
  destruct (is_last pte (S l)); [exact Hfin |].
  destruct Hg as [->| ->]; cbn [drop_guard mbind outcome_bind].
  - by apply (traverse_down l s n None IH Hl' (proj2 Hl) Hpt Hd Ho (or_introl eq_refl) Hcov' Hp').
  - destruct (unlock_one s (S l) n) as (s1 & -> & Sh1 & Ho1); try done; [lia |].
    cbn [mbind outcome_bind].
    by apply (traverse_down l s n (Some n) IH Hl' (proj2 Hl) Hpt Hd Ho (or_intror eq_refl) Hcov' Hp').
Qed.
End Traverse.

(** ** Properties *)

Section Lifecycle.
Context {PC : PagingConsts} {E P : Type} {PO : PteOps E P} {DP : EqDecision P}.
Context {PL : @PagingLaws PC} {EL : @PteLaws PC E P PO}.

Lemma covering_page r gl : (1 ≤ gl ≤ NR_LEVELS)%nat → covering r gl →
  (end_ r - 1) / page_size (S NR_LEVELS) = start r / page_size (S NR_LEVELS) →
  (end_ r - 1) / page_size (S gl) = start r / page_size (S gl).
Proof.
  intros Hgl Hcov Hw. destruct (decide (gl = NR_LEVELS)) as [->|]; [done |].
  apply same_slots_iff; [lia | done |]. intros j Hj. apply Hcov. lia.
Qed.

(** The nodes on the way to a range below the node [g] that covers it. *)
Lemma on_path_below s root r gl g x : (1 ≤ gl ≤ NR_LEVELS)%nat → start r < end_ r →
  (∀ v, start r ≤ v < end_ r → v / page_size (S gl) = start r / page_size (S gl)) →
  descend s NR_LEVELS root (start r) gl = Some g →
  on_path s root r gl x ↔ x = g ∨ below s gl g r x.
Proof.
  intros Hgl Hne Hpg Hd. assert (∀ v, start r ≤ v < end_ r → descend s NR_LEVELS root v gl = Some g) as Hdv.
  { intros v Hv. rewrite <- Hd. apply descend_page; [lia | by apply Hpg]. }
  unfold on_path, below. split.
  - intros (v & t & Hv & Ht & Hx). destruct (decide (t = gl)) as [->|].
    + left. specialize (Hdv v Hv). congruence.
    + right. exists v, t. split; [done |]. split; [lia |].
      by rewrite <- (descend_compose s NR_LEVELS root v gl g t) by (lia || by apply Hdv).
  - intros [->|(v & t & Hv & Ht & Hx)].
    + exists (start r), gl. split; [lia |]. split; [lia | done].
    + exists v, t. split; [done |]. split; [lia |].
      by rewrite (descend_compose s NR_LEVELS root v gl g t) by (lia || by apply Hdv).
Qed.

Lemma range_in_node r gl : (1 ≤ gl)%nat → start r < end_ r →
  (end_ r - 1) / page_size (S gl) = start r / page_size (S gl) →
  in_node gl (page_start (start r) (S gl)) r.
Proof.
  intros Hgl Hne Hp. pose proof (page_bounds (start r) (S gl) ltac:(lia)).
  apply in_page in Hp; [| lia]. constructor; [by eexists | lia].
Qed.

(** All addresses of [r] are in the page of the first one. *)
Lemma range_page r l : (1 ≤ l)%nat → (end_ r - 1) / page_size l = start r / page_size l →
  ∀ v, start r ≤ v < end_ r → v / page_size l = start r / page_size l.
Proof.
  intros Hl Hp v Hv. apply in_page; [lia |]. apply in_page in Hp; [| lia].
  pose proof (page_bounds (start r) l Hl). lia.
Qed.

Section LockRange.
Context (r : VRange).
Hypotheses (Hb : 0 ≤ start r < end_ r)
  (Hal : (BASE_PAGE_SIZE | start r) ∧ (BASE_PAGE_SIZE | end_ r))
  (Hman : ∀ v, start r ≤ v < end_ r → managed_va v)
  (Hwin : (end_ r - 1) / page_size (S NR_LEVELS) = start r / page_size (S NR_LEVELS))
  (Htop : page_start (start r) (S NR_LEVELS) + page_size (S NR_LEVELS) < 2 ^ 64).

Lemma covered_range_ok gl : (1 ≤ gl ≤ NR_LEVELS)%nat → covering r gl → range_ok r gl.
Proof using All.
  intros Hgl Hcov. pose proof (covering_page r gl Hgl Hcov Hwin) as Hp.
  destruct (page_nested (start r) (S gl) (S NR_LEVELS) ltac:(lia)).
  constructor; [| done | done]. split; [done |]. apply in_page in Hp; [| lia]. lia.
Qed.

Lemma below_owned (s : Store E) root g gl x : pt_ok s root → (1 ≤ gl ≤ NR_LEVELS)%nat →
  (∀ v, start r ≤ v < end_ r → descend s NR_LEVELS root v gl = Some g) →
  below s gl g r x → x ∈ owned s NR_LEVELS root ∧ x ≠ g.
Proof using PL Hman.
  intros Hpt Hgl Hdv (v & t & Hv & Ht & Hx). specialize (Hdv v Hv). specialize (Hman v Hv).
  destruct (at_slot s root v gl g) as (Htree & Hnd & Hgo & _); try done; [lia |].
  destruct gl as [|l]; [lia |]. pose proof (pte_index_range v (S l) ltac:(lia)) as Hi.
  destruct (nodup_slot s l g (pte_index v (S l)) Hnd Hi) as (_ & Hng & _).
  assert (x ∈ slot_owned s (S l) g (pte_index v (S l))) as Hxs.
  { apply (descend_slot s root v v (S l) g t); try done; try lia.
    by rewrite (descend_compose s NR_LEVELS root v (S l) g t) by (lia || done). }
  destruct (descend_owned s NR_LEVELS root v (S l) g) as (_ & _ & _ & Hsub); [done | done | lia | done |].
  split; [by apply (Hsub _ Hi) | by intros ->].
Qed.

(** Below the locked subtree root: acquiring the locks gives a valid cursor. *)
Lemma lock_below_ok (s : Store E) root g gl : pt_ok s root → only_locked root s (Some g) → (1 ≤ gl ≤ NR_LEVELS)%nat →
  descend s NR_LEVELS root (start r) gl = Some g → covering r gl →
  ∃ s', dfs_acquire_lock gl s g (page_start (start r) (S gl)) r = Done s' ∧ same_shape s s' ∧
    cur_ok s' root (mkCursor (<[(gl - 1)%nat := Some g]> (replicate MAX_NR_LEVELS None))
                             gl gl (start r) r).
Proof using All.
  intros Hpt Ho Hgl Hd Hcov. pose proof (covering_page r gl Hgl Hcov Hwin) as Hp.
  pose proof (range_page r (S gl) ltac:(lia) Hp) as Hpg. pose proof (proj2 levels_ok) as Hmax.
  assert (managed_va (start r)) as Hm by (apply Hman; lia).
  destruct (at_slot s root (start r) gl g) as (Htree & Hnd & Hgo & _); try done; [lia |].
  pose proof (λ x, on_path_below s root r gl g x Hgl ltac:(lia) Hpg Hd) as Hon.
  assert (∀ v, start r ≤ v < end_ r → descend s NR_LEVELS root v gl = Some g) as Hdv.
  { intros v Hv. rewrite <- Hd. apply descend_page; [lia | by apply Hpg]. }
  destruct (dfs_acquire_ok gl Hgl s g (page_start (start r) (S gl)) r) as (s' & Hs' & Sh & L); try done.
  - apply range_in_node; [lia | lia | done].
  - intros v Hv. by eapply (descend_owned s NR_LEVELS root v gl g); [lia | apply Hman | lia | apply Hdv].
  - intros x Hx. apply not_true_is_false. intros Ht.
    destruct (below_owned s root g gl x Hpt Hgl Hdv Hx) as [Hxo Hxg]. apply Ho in Ht; [congruence | done].
  - exists s'. split; [done |]. split; [done |]. constructor;
      cbn [path c_level guard_level va barrier_va]; try lia; try done.
    + by rewrite <- Sh.
    + by rewrite length_insert, length_replicate.
    + exists g. rewrite list_lookup_insert_eq by (rewrite length_replicate; lia). by rewrite <- Sh.
    + unfold node_end. cbn. pose proof (page_bounds (start r) (S gl) ltac:(lia)). split; [lia | apply Hal].
    + by apply covered_range_ok.
    + intros x Hx. rewrite <- Sh in Hx. rewrite L, (Ho x Hx).
      assert (on_path s' root r gl x ↔ on_path s root r gl x) as ->.
      { unfold on_path. do 2 (f_equiv; intros ?). by rewrite Sh. }
      rewrite Hon. naive_solver.
Qed.

Lemma lock_range_ok (s : Store E) root fuel : pt_ok s root → only_locked root s None →
  (NR_LEVELS ≤ length (pool s))%nat →
  ∃ c s', lock_range (S fuel) s root r = Done (c, s') ∧ cur_ok s' root c ∧ va c = start r ∧
    barrier_va c = r ∧ (length (pool s) ≤ length (pool s') + NR_LEVELS)%nat ∧
    ∀ v, managed_va v → trans s' NR_LEVELS root v = trans s NR_LEVELS root v.
Proof using All.
  intros Hpt Ho Hpool. pose proof levels_ok as [? ?].
  assert (managed_va (start r)) as Hm by (apply Hman; lia).
  destruct (traverse_ok root r Hm NR_LEVELS ltac:(lia) s root None) as (g & s1 & Ht & H1 & H2 & H3 & H4 & gl & G1 & G2 & G3);
    try done; try lia.
  { destruct NR_LEVELS; cbn; by rewrite ?Nat.eqb_refl. }
  { by left. }
  { intros j Hj. lia. }
  unfold lock_range. cbn [lock_subtree_root]. rewrite Ht. cbn [mbind outcome_bind].
  destruct (at_slot s1 root (start r) gl g) as (_ & _ & _ & _ & _ & (nd & Hnd & Hlv & _) & _); try done; [lia |].
  unfold get_node. rewrite Hnd. cbn [unwrap mbind outcome_bind]. rewrite Hlv.
  pose proof (ro_bounds _ _ (covered_range_ok gl G1 G3)). pose proof (page_bounds (start r) (S gl) ltac:(lia)).
  rewrite align_down_page; [| lia | split; lia | apply base_not_1]. cbn [mbind outcome_bind].
  destruct (lock_below_ok s1 root g gl) as (s2 & -> & Sh & Hc); try done. cbn [mbind outcome_bind].
  eexists _, s2. split; [done |]. split; [exact Hc |]. split; [done |]. split; [done |].
  split; [by rewrite <- (proj1 Sh) |]. intros v Hv. rewrite <- Sh. by apply H4.
Qed.
End LockRange.

(** [Cursor::new] on a page table without a cursor, with one free frame per
    level: a range that is empty, reversed or not inside the managed addresses is
    refused as invalid and a range that is not page aligned as unaligned, without
    touching the page table; for every other range the call returns at the first
    attempt a cursor at the start of the range that satisfies the cursor's
    invariant, in particular holds the locks of exactly the nodes on the way to
    the range; at most one frame per level is taken and the page walk is
    unchanged. *)
Theorem cursor_new_exact s root r fuel ok :
  pt_ok s root → only_locked root s None → (NR_LEVELS ≤ length (pool s))%nat → 0 ≤ start r →
  page_start (start r) (S NR_LEVELS) + page_size (S NR_LEVELS) < 2 ^ 64 →
  is_valid_range r = Done ok →
  if ok && (start r <? end_ r) then
    if (start r mod BASE_PAGE_SIZE =? 0) && (end_ r mod BASE_PAGE_SIZE =? 0) then
      ∃ c s', cursor_new (S fuel) s root r = Done (ROk (c, s')) ∧ cur_ok s' root c ∧
        va c = start r ∧ barrier_va c = r ∧ (length (pool s) ≤ length (pool s') + NR_LEVELS)%nat ∧
        ∀ v, managed_va v → walk s' root v = walk s root v
    else cursor_new (S fuel) s root r = Done (RErr UnalignedVaddr)
  else cursor_new (S fuel) s root r = Done (RErr (InvalidVaddrRange (start r) (end_ r))).
Proof.
  intros Hpt Ho Hpool H0 Htop Hok. unfold cursor_new. rewrite Hok. cbn [mbind outcome_bind].
  pose proof base_pos as Hb. destruct ok; [| done]. cbn [negb orb andb].
  destruct (Z.leb_spec (end_ r) (start r)), (Z.ltb_spec (start r) (end_ r)); try lia; [done |].
  destruct (Z.eqb_spec (start r mod BASE_PAGE_SIZE) 0) as [Ha1|]; [| done].
  destruct (Z.eqb_spec (end_ r mod BASE_PAGE_SIZE) 0) as [Ha2|]; [| done]. cbn [negb orb andb].
  destruct (valid_range_managed r) as [Hman Hwin]; [done | done |].
  destruct (lock_range_ok r) with (s := s) (root := root) (fuel := fuel) as (c & s' & -> & Hc & Hva & Hr & Hpl & Ht); try done.
  { split; by apply Z.mod_divide; [lia |]. }
  exists c, s'. split; [done |]. do 4 (split; [done |]). intros v Hv.
  rewrite !walk_trans by (done || by apply Hc). by rewrite Ht.
Qed.

(** Dropping a cursor: [unlock_range] returns, every node of the page table
    is unlocked afterwards, the page table is well formed and the page walk is
    unchanged. *)
Theorem unlock_range_exact s root c :
  cur_ok s root c →
  ∃ s', unlock_range c s = Done s' ∧ pt_ok s' root ∧ only_locked root s' None ∧
    ∀ v, managed_va v → walk s' root v = walk s root v.
Proof.
  intros Hc. pose proof Hc as [Hpt [Hl Hg] Hlen (g & G1 & G2) _ _ _ Hr Hlk]. set (r := barrier_va c) in *.
  pose proof Hr as [[B1 [B2 B3]] _ Hman]. pose proof (page_bounds (start r) (S (guard_level c)) ltac:(lia)) as Hpb.
  unfold unlock_range. rewrite G1. cbn [unwrap mbind outcome_bind]. fold r.
  rewrite align_down_page; [| lia | split; lia | apply base_not_1]. cbn [mbind outcome_bind].
  assert ((end_ r - 1) / page_size (S (guard_level c)) = start r / page_size (S (guard_level c))) as Hp.
  { apply in_page; lia. }
  pose proof (range_page r (S (guard_level c)) ltac:(lia) Hp) as Hpg.
  assert (managed_va (start r)) as Hm by (apply Hman; lia).
  destruct (at_slot s root (start r) (guard_level c) g) as (Htree & Hnd & _); try done; [lia |].
  destruct (dfs_release_ok (guard_level c) ltac:(lia) s g (page_start (start r) (S (guard_level c))) r)
    as (s' & -> & Sh & L); try done.
  - apply range_in_node; [lia | lia | done].
  - intros v Hv. eapply (descend_owned s NR_LEVELS root v (guard_level c) g); [lia | by apply Hman | lia |].
    rewrite <- G2. apply descend_page; [lia | by apply Hpg].
  - assert (pt_ok s' root) as Hpt' by (by rewrite <- Sh).
    exists s'. split; [done |]. split; [done |]. split.
    + intros x Hx. rewrite <- Sh in Hx. rewrite L, (Hlk x Hx).
      rewrite (on_path_below s root r (guard_level c) g) by (done || lia). naive_solver.
    + intros v Hv. rewrite !walk_trans by done. by rewrite Sh.
Qed.
End Lifecycle.
