(* ===== verification/PageTable.v ===== *)
(** * Page tables

    The page tables of [osxtd/src/mm/page_table/mod.rs]: creating an empty one,
    creating a user page table that shares the kernel's half, and cutting a
    physical range into pages; with the items that the user and the kernel page
    table map, [osxtd/src/mm/vm_space.rs] and [osxtd/src/mm/kspace/mod.rs]. *)

From S2P Require Import Prelude Align PageTableNode X86Pte PageTableCursor PageTableMap PageTableLock.
Import Align X86Pte.
Local Open Scope Z_scope.

(** ** Items *)

Definition with_avail1 (p : PageProperty) : PageProperty :=
  mkProp (flags p) (cache p) (Z.lor (priv_flags p) PRIV_AVAIL1).
Definition without_avail1 (p : PageProperty) : PageProperty :=
  mkProp (flags p) (cache p) (Z.ldiff (priv_flags p) PRIV_AVAIL1).
Definition has_avail1 (p : PageProperty) : bool :=
  Z.land (priv_flags p) PRIV_AVAIL1 =? PRIV_AVAIL1.

(** [MappedItem] and [VmItem] of [vm_space.rs]; a frame is its address. *)
Inductive UserMapped : Type :=
| TrackedFrame (frame : Z)
| UntrackedIoMem (paddr : Z) (level : nat).
Record VmItem : Type := mkVmItem { item_prop : PageProperty; mapped_item : UserMapped }.

Definition new_tracked (frame : Z) (prop : PageProperty) : VmItem := mkVmItem prop (TrackedFrame frame).
Definition new_untracked_io (paddr : Z) (prop : PageProperty) : VmItem :=
  mkVmItem prop (UntrackedIoMem paddr 1).

(** [<UserPtConfig as PageTableConfig>::item_into_raw] and [item_from_raw];
    [Frame::map_level] is 1. *)
Definition user_into_raw (item : VmItem) : Z * nat * PageProperty :=
  match mapped_item item with
  | TrackedFrame frame => (frame, 1%nat, without_avail1 (item_prop item))
  | UntrackedIoMem paddr level => (paddr, level, with_avail1 (item_prop item))
  end.
Definition user_from_raw (paddr : Z) (level : nat) (prop : PageProperty) : VmItem :=
  if has_avail1 prop then new_untracked_io paddr prop else new_tracked paddr prop.

(** [MappedItem] of [kspace/mod.rs], and [KernelPtConfig]. *)
Inductive KernelItem : Type :=
| Tracked (frame : Z) (prop : PageProperty)
| Untracked (paddr : Z) (level : nat) (prop : PageProperty).

Definition kernel_into_raw (item : KernelItem) : Z * nat * PageProperty :=
  match item with
  | Tracked frame prop => (frame, 1%nat, with_avail1 prop)
  | Untracked pa level prop => (pa, level, without_avail1 prop)
  end.
Definition kernel_from_raw (paddr : Z) (level : nat) (prop : PageProperty) : KernelItem :=
  if has_avail1 prop then Tracked paddr prop else Untracked paddr level prop.

(** ** Creating page tables *)

Section Create.
Context `{PC : PagingConsts} {E P : Type} `{PO : PteOps E P}.

(** [PageTable::empty] *)
Definition empty (s : Store E) : outcome (Z * Store E) := node_alloc s NR_LEVELS.

(** The loop of [new_kernel_page_table]: every top-level slot gets a table, whose
    guard is dropped at once. *)
Fixpoint fill_slots (n : nat) (i root : Z) (s : Store E) : outcome (Store E) :=
  match n with
  | O => Done s
  | S n =>
      entry s root i ≫= λ root_entry,
      alloc_if_none s root_entry ≫= λ '(a, s),
      unwrap a ≫= λ child, node_unlock s child ≫= fill_slots n (i + 1) root
  end.

(** ** Pages of a physical range *)

(** The inner loop of [largest_pages]: the level is lowered until a page fits. *)
Fixpoint pick_level (level : nat) (va pa len : Z) : outcome nat :=
  match level with
  | O => Panic
  | S l =>
      if (len <? page_size level) || negb (va mod page_size level =? 0) ||
         negb (pa mod page_size level =? 0)
      then pick_level l va pa len else Done level
  end.

(** The items of the iterator, one per unit of fuel. *)
Fixpoint pages_from (fuel : nat) (va pa len : Z) : outcome (list (Z * nat)) :=
  match fuel with
  | O => Panic
  | S fuel =>
      if len =? 0 then Done []
      else
        pick_level HIGHEST_TRANSLATION_LEVEL va pa len ≫= λ level,
        unwrap (checked_add 64 va (page_size level)) ≫= λ va,
        unwrap (checked_add 64 pa (page_size level)) ≫= λ pa',
        unwrap (checked_sub len (page_size level)) ≫= λ len,
        pages_from fuel va pa' len ≫= λ rest, Done ((pa, level) :: rest)
  end.

Definition largest_pages (fuel : nat) (va pa len : Z) : outcome (list (Z * nat)) :=
  assert_that (va mod BASE_PAGE_SIZE =? 0) ≫= λ _,
  assert_that (pa mod BASE_PAGE_SIZE =? 0) ≫= λ _,
  assert_that (len mod BASE_PAGE_SIZE =? 0) ≫= λ _,
  unwrap (checked_add 64 va len) ≫= λ e,
  is_valid_range (mkRange va e) ≫= λ ok, assert_that ok ≫= λ _,
  pages_from fuel va pa len.
End Create.

(** The loop of [create_user_page_table] over the kernel's top-level slots. *)
Fixpoint share_slots (n : nat) (i : Z) (root new_node : Z) (s : Store PageTableEntry)
  : outcome (Store PageTableEntry) :=
  match n with
  | O => Done s
  | S n =>
      @entry kernel_consts _ s root i ≫= λ root_entry,
      to_ref s root_entry ≫= λ child,
      match child with
      | ChPageTable pt =>
          write_pte s new_node i (x86_new_pt pt) ≫= share_slots n (i + 1) root new_node
      | ChFrame _ _ _ | ChNone => Panic
      end
  end.

(** [PageTable::<KernelPtConfig>::create_user_page_table] *)
Definition create_user_page_table (s : Store PageTableEntry) (root : Z)
  : outcome (Z * Store PageTableEntry) :=
  @node_alloc user_consts _ _ _ s (@NR_LEVELS user_consts) ≫= λ '(new_root, s),
  node_lock s root ≫= λ s,
  node_lock s new_root ≫= λ s,
  let '(a, b) := @TOP_LEVEL_INDEX_RANGE kernel_consts in
  share_slots (Z.to_nat (b - a)) a root new_root s ≫= λ s,
  node_unlock s new_root ≫= λ s,
  node_unlock s root ≫= λ s, Done (new_root, s).

(** [PageTable::<KernelPtConfig>::new_kernel_page_table] *)
Definition new_kernel_page_table (s : Store PageTableEntry) : outcome (Z * Store PageTableEntry) :=
  @empty kernel_consts _ _ _ s ≫= λ '(root, s),
  node_lock s root ≫= λ s,
  let '(a, b) := @TOP_LEVEL_INDEX_RANGE kernel_consts in
  @fill_slots kernel_consts _ _ _ (Z.to_nat (b - a)) a root s ≫= λ s,
  node_unlock s root ≫= λ s, Done (root, s).

(** ** Lemmas *)

Section Empty.
Context {PC : PagingConsts} {E P : Type} {PO : PteOps E P} {DP : EqDecision P}.
Context {PL : @PagingLaws PC} {EL : @PteLaws PC E P PO}.

(** A node at the top level whose managed slots are all absent. *)
Lemma bare_root_ok (s : Store E) root nd :
  nodes s !! root = Some nd → level nd = NR_LEVELS →
  Z.of_nat (length (ptes nd)) = nr_subpage_per_huge → stray nd = false → nr_children nd = 0 →
  (∀ i, 0 ≤ i < nr_subpage_per_huge → managed NR_LEVELS i = true → child_at s root NR_LEVELS i = ChNone) →
  addr_ok root → NoDup (root :: pool s) → Forall addr_ok (pool s) →
  pt_ok s root ∧ owned s NR_LEVELS root = [root] ∧
  ∀ v, managed_va v → trans s NR_LEVELS root v = None.
Proof.
  intros Hn Hl Hlen Hst Hnr Hch Ha Hnd Hp. unfold managed_va.
  destruct NR_LEVELS as [|t] eqn:Ht; [pose proof levels_ok; lia |].
  assert (owned s (S t) root = [root]) as Hown.
  { rewrite owned_S. f_equal.
    assert (∀ js : list Z, (∀ i, i ∈ js → 0 ≤ i < nr_subpage_per_huge) →
      js ≫= slot_owned s (S t) root = []) as Hnil; [| apply Hnil; intros i; apply slot_elem].
    intros js. induction js as [|i js IH]; intros His; [done |]. rewrite bind_cons, IH by set_solver.
    unfold slot_owned. destruct (managed (S t) i) eqn:Hm; [| done]. rewrite Hch; [done | | done].
    apply His. set_solver. }
  split; [| split; [done |]].
  - constructor; rewrite ?Ht; [| by rewrite Hown | done]. apply tree_ok_S. split.
    + exists nd. split_and!; try done. rewrite Hnr. unfold present_count.
      destruct (filter _ _) as [|x f] eqn:Hf; [done |]. assert (x ∈ x :: f) as Hx by set_solver.
      rewrite <- Hf in Hx. apply list_elem_of_filter in Hx as [[Hm Hx]%andb_true_iff Hs%slot_elem].
      by rewrite Hch in Hx.
    + intros i Hi Hm. by rewrite Hch.
  - intros v Hv. rewrite trans_S, Hch; [done | apply pte_index_range; lia | done].
Qed.

Lemma empty_ok s new rest :
  pool s = new :: rest → NoDup (new :: rest) → Forall addr_ok (new :: rest) →
  ∃ s', empty s = Done (new, s') ∧ pt_ok s' new ∧ owned s' NR_LEVELS new = [new] ∧
    only_locked new s' None ∧ pool s' = rest ∧
    (∀ x, x ≠ new → nodes s' !! x = nodes s !! x) ∧
    (∀ i, child_at s' new NR_LEVELS i = ChNone) ∧
    ∀ v, managed_va v → trans s' NR_LEVELS new v = None.
Proof.
  intros Hp Hnd [Ha Hr]%Forall_cons. unfold empty, node_alloc. rewrite Hp. eexists. split; [done |].
  set (s' := mkStore _ _).
  assert (∀ i, child_at s' new NR_LEVELS i = ChNone) as Hch.
  { intros i. unfold child_at, s'. cbn [nodes]. rewrite lookup_insert_eq. cbn [ptes].
    destruct (replicate _ _ !! _) as [e|] eqn:He; [| done].
    apply lookup_replicate in He as [-> _]. apply absent_into_pte. }
  destruct (bare_root_ok s' new (mkNode NR_LEVELS 0 false false
    (replicate (Z.to_nat nr_subpage_per_huge) new_absent))) as (H1 & H2 & H3); try done.
  { unfold s'. cbn [nodes]. apply lookup_insert_eq. }
  { cbn [ptes]. rewrite length_replicate. pose proof nr_pos. lia. }
  split; [done |]. split; [done |]. split.
  { intros x Hx. rewrite H2 in Hx. apply list_elem_of_singleton in Hx as ->.
    unfold lock_of, s'. cbn [nodes]. by rewrite lookup_insert_eq. }
  split; [done |]. split; [| done]. intros x Hx. unfold s'. cbn [nodes]. by rewrite lookup_insert_ne.
Qed.
(** A page table does not change when another one is created from the pool. *)
Lemma pt_ok_other (s s' : Store E) kroot new rest :
  pt_ok s kroot → pool s = new :: rest → pool s' = rest →
  (∀ x, x ≠ new → nodes s' !! x = nodes s !! x) →
  pt_ok s' kroot ∧ (∀ x, x ∈ owned s NR_LEVELS kroot → nodes s' !! x = nodes s !! x) ∧
  owned s' NR_LEVELS kroot = owned s NR_LEVELS kroot.
Proof.
  intros Hpt Hp Hp' Hag. destruct (pool_fresh s kroot new rest Hpt Hp) as [_ Hnew].
  assert (∀ x, x ∈ owned s NR_LEVELS kroot → nodes s' !! x = nodes s !! x) as Hag'.
  { intros x Hx. apply Hag. by intros ->. }
  destruct Hpt as [Htree Hnd Hpool]. rewrite Hp in *. split; [| split; [done |]].
  - constructor; [by apply (tree_ok_agree s) | | rewrite Hp'; by apply Forall_cons in Hpool as [_ ?]].
    rewrite (owned_agree s), Hp' by done. apply NoDup_app in Hnd as (N1 & N2 & [_ N3]%NoDup_cons).
    apply NoDup_app. split; [done |]. split; [| done]. intros x Hx Hr. apply (N2 x Hx). set_solver.
  - by apply owned_agree.
Qed.

(** The root of a page table that nobody has locked. *)
Lemma root_unlocked (s : Store E) root : pt_ok s root → only_locked root s None →
  ∃ nd, nodes s !! root = Some nd ∧ lock nd = false ∧ node_ok s NR_LEVELS root ∧
    root ∈ owned s NR_LEVELS root.
Proof.
  intros Hpt Ho. destruct NR_LEVELS as [|t] eqn:Ht; [pose proof levels_ok; lia |].
  destruct Hpt as [Htree _ _]. rewrite Ht in Htree. apply tree_ok_S in Htree as [Hok _].
  assert (root ∈ owned s (S t) root) as Hin by (rewrite owned_S; set_solver).
  pose proof Hok as (nd & Hnd & _). exists nd. split; [done |]. split; [| done].
  apply not_true_is_false. intros Hl. assert (None = Some root); [| done].
  apply Ho; [by rewrite Ht |]. unfold lock_of. by rewrite Hnd.
Qed.

Lemma only_locked_agree (s s' : Store E) root g :
  owned s' NR_LEVELS root = owned s NR_LEVELS root →
  (∀ x, x ∈ owned s NR_LEVELS root → nodes s' !! x = nodes s !! x) →
  only_locked root s g → only_locked root s' g.
Proof. intros Hown Hag Ho x Hx. rewrite Hown in Hx. unfold lock_of. rewrite Hag by done. by apply Ho. Qed.

Lemma only_locked_one (s : Store E) root nd :
  owned s NR_LEVELS root = [root] → nodes s !! root = Some nd → lock nd = false → only_locked root s None.
Proof.
  intros Hown Hn Hl x Hx. rewrite Hown in Hx. apply list_elem_of_singleton in Hx as ->.
  unfold lock_of. by rewrite Hn, Hl.
Qed.
End Empty.

Section Fill.
Context {PC : PagingConsts} {E P : Type} {PO : PteOps E P} {DP : EqDecision P}.
Context {PL : @PagingLaws PC} {EL : @PteLaws PC E P PO}.
Context (root : Z).

(** An address below the top-level slot [i]. *)
Definition slot_va (i : Z) : Z := i * page_size NR_LEVELS.

Lemma slot_va_index i : 0 ≤ i < nr_subpage_per_huge → pte_index (slot_va i) NR_LEVELS = i.
Proof.
  intros Hi. pose proof levels_ok. rewrite pte_index_eq by lia. unfold slot_va.
  pose proof (page_size_pos NR_LEVELS ltac:(lia)). rewrite Z.div_mul by lia. by apply Z.mod_small.
Qed.

Lemma slot_va_managed i : TOP_LEVEL_INDEX_RANGE.1 ≤ i < TOP_LEVEL_INDEX_RANGE.2 → managed_va (slot_va i).
Proof.
  intros Hi. pose proof index_range_ok. unfold managed_va, managed. rewrite slot_va_index by lia.
  rewrite Nat.eqb_refl. apply andb_true_iff. split; [apply Z.leb_le | apply Z.ltb_lt]; lia.
Qed.

(** The top-level slots by themselves: present below [i], absent from [i] on. *)
Definition filled (s : Store E) (i : Z) : Prop :=
  (∀ j, TOP_LEVEL_INDEX_RANGE.1 ≤ j < i → ∃ c, child_at s root NR_LEVELS j = ChPageTable c) ∧
  ∀ j, i ≤ j < TOP_LEVEL_INDEX_RANGE.2 → child_at s root NR_LEVELS j = ChNone.

Record filling (s : Store E) (i : Z) : Prop := mkFilling {
  fl_ok : pt_ok s root;
  fl_lock : only_locked root s (Some root);
  fl_slots : filled s i;
  fl_trans : ∀ v, managed_va v → trans s NR_LEVELS root v = None
}.

Lemma top_child s j : 0 ≤ j < nr_subpage_per_huge →
  match child_at s root NR_LEVELS j with
  | ChPageTable c => descend s NR_LEVELS root (slot_va j) (NR_LEVELS - 1) = Some c
  | ChFrame pa _ p => ∃ x, trans s NR_LEVELS root (slot_va j) = Some x
  | ChNone => descend s NR_LEVELS root (slot_va j) (NR_LEVELS - 1) = None
  end.
Proof.
  intros Hj. pose proof (slot_va_index j Hj) as Hix.
  destruct NR_LEVELS as [|t] eqn:Ht; [pose proof levels_ok; lia |].
  cbn [descend]. rewrite trans_S, Hix, Nat.sub_succ, Nat.sub_0_r.
  destruct (Nat.eqb_spec (S t) t); [lia |].
  destruct (child_at s root (S t) j) as [c| |]; [| by eexists | done].
  destruct t; cbn; by rewrite ?Nat.eqb_refl.
Qed.

(** The slots that did not change. *)
Lemma other_slots s s' j :
  0 ≤ j < nr_subpage_per_huge → managed_va (slot_va j) →
  descend s' NR_LEVELS root (slot_va j) (NR_LEVELS - 1) =
    descend s NR_LEVELS root (slot_va j) (NR_LEVELS - 1) →
  (∀ v, managed_va v → trans s NR_LEVELS root v = None) →
  (∀ v, managed_va v → trans s' NR_LEVELS root v = None) →
  child_at s' root NR_LEVELS j = child_at s root NR_LEVELS j.
Proof.
  intros Hj Hm Hd T1 T2. pose proof (top_child s j Hj) as H1. pose proof (top_child s' j Hj) as H2.
  specialize (T1 _ Hm). specialize (T2 _ Hm).
  destruct (child_at s root NR_LEVELS j), (child_at s' root NR_LEVELS j); naive_solver congruence.
Qed.

Lemma root_here s v : descend s NR_LEVELS root v NR_LEVELS = Some root.
Proof. destruct NR_LEVELS; cbn; by rewrite ?Nat.eqb_refl. Qed.

Section FillOne.
Context (s : Store E) (i new : Z) (rest : list Z).
Hypotheses (H2 : (2 ≤ NR_LEVELS)%nat) (Hf : filling s i)
  (Hi : TOP_LEVEL_INDEX_RANGE.1 ≤ i < TOP_LEVEL_INDEX_RANGE.2) (Hp : pool s = new :: rest).

Lemma fill_one : ∃ e s1 s2, entry s root i = Done e ∧ alloc_if_none s e = Done (Some new, s1) ∧
  node_unlock s1 new = Done s2 ∧ filling s2 (i + 1) ∧ pool s2 = rest.
Proof using All.
  destruct Hf as [Hpt Hlk [F1 F2] Htr]. pose proof index_range_ok as [[R1 R2] R3].
  assert (managed_va (slot_va i)) as Hm by (apply slot_va_managed; lia).
  pose proof (slot_va_index i ltac:(lia)) as Hix. pose proof (root_here s (slot_va i)) as Hd.
  assert (managed NR_LEVELS i = true) as Hm' by (rewrite <- Hix; exact Hm).
  destruct (entry_step s root (slot_va i) NR_LEVELS root) as (pte & E1 & _); try done; [lia |].
  assert (∃ t, NR_LEVELS = S t ∧ (1 ≤ t)%nat) as (t & Ht & Ht1) by (exists (NR_LEVELS - 1)%nat; lia).
  destruct (alloc_step s root (slot_va i) t root pte new rest) as (s1 & A1 & Hst & A3 & [A4 A4'] & A5);
    rewrite <- ?Ht, ?Hix; try done.
  { apply F2; lia. }
  { by rewrite Hix in E1. }
  rewrite <- Ht, Hix in A1, A4'. rewrite Hix in E1. rewrite <- Ht in Hst.
  assert (∀ v, managed_va v → trans s1 NR_LEVELS root v = None) as T1.
  { intros v Hv. rewrite A5 by done. by apply Htr. }
  destruct (at_slot s1 root (slot_va i) t new) as (_ & _ & Hno & _ & _ & (nd & Hnd & _) & _);
    [apply Hst | done | lia | done |].
  destruct (set_lock_eq s1 new false) as (s2 & U1 & Sh & L); [by exists nd |].
  eexists _, s1, s2. split; [exact E1 |]. split; [exact A1 |]. split; [done |].
  split; [| by rewrite <- (proj1 Sh)]. constructor.
  - rewrite <- Sh. apply Hst.
  - intros x Hx. rewrite <- Sh in Hx. rewrite L. destruct (ps_locks _ _ _ _ _ _ _ Hst x Hx) as [L1 L2].
    assert (new ∉ owned s NR_LEVELS root) as Hnn.
    { apply (ps_new _ _ _ _ _ _ _ Hst). rewrite Hix, A4'. set_solver. }
    destruct (decide (x ∈ owned s NR_LEVELS root)) as [Hxo|Hxo].
    + rewrite L1, (Hlk x Hxo) by done. split; [tauto |]. intros Hr. split; [done |]. by intros ->.
    + rewrite L2 by done. pose proof (ps_old _ _ _ _ _ _ _ Hst x Hx Hxo) as Hxn.
      rewrite Hix, A4' in Hxn. apply list_elem_of_singleton in Hxn as ->. split; [tauto |].
      intros [= <-]. destruct Hxo. destruct NR_LEVELS; [lia |]. rewrite owned_S. set_solver.
  - assert (∀ j, TOP_LEVEL_INDEX_RANGE.1 ≤ j < TOP_LEVEL_INDEX_RANGE.2 → j ≠ i →
      child_at s2 root NR_LEVELS j = child_at s root NR_LEVELS j) as Hoth.
    { intros j Hj Hne. rewrite <- Sh. pose proof (slot_va_managed j Hj) as Hmj.
      apply other_slots; try done; [lia |]. apply (ps_descend _ _ _ _ _ _ _ Hst); [done |]. right.
      intros Hs. apply Hne. specialize (Hs NR_LEVELS ltac:(lia)). by rewrite !slot_va_index in Hs by lia. }
    split; intros j Hj.
    + destruct (decide (j = i)) as [->|]; [| rewrite Hoth by lia; apply F1; lia].
      exists new. rewrite <- Sh. pose proof (ps_child _ _ _ _ _ _ _ Hst) as Hc. by rewrite Hix in Hc.
    + rewrite Hoth by lia. apply F2. lia.
  - intros v Hv. rewrite <- Sh. by apply T1.
Qed.
End FillOne.

Lemma fill_slots_ok (H2 : (2 ≤ NR_LEVELS)%nat) k : ∀ i s,
  filling s i → TOP_LEVEL_INDEX_RANGE.1 ≤ i → i + Z.of_nat k = TOP_LEVEL_INDEX_RANGE.2 →
  (k ≤ length (pool s))%nat →
  ∃ s', fill_slots k i root s = Done s' ∧ filling s' TOP_LEVEL_INDEX_RANGE.2 ∧
    (length (pool s) = k + length (pool s'))%nat.
Proof.
  induction k as [|k IH]; intros i s Hf Hi Hk Hp; cbn [fill_slots].
  { exists s. split; [done |]. split; [| lia]. replace TOP_LEVEL_INDEX_RANGE.2 with i by lia. done. }
  destruct (pool s) as [|new rest] eqn:Hpool; [cbn in Hp; lia |]. cbn in Hp.
  destruct (fill_one s i new rest H2 Hf ltac:(lia) Hpool) as (e & s1 & s2 & -> & A & U & Hf2 & Hp2).
  cbn [mbind outcome_bind]. rewrite A. cbn [mbind outcome_bind unwrap]. rewrite U. cbn [mbind outcome_bind].
  destruct (IH (i + 1) s2) as (s' & -> & Hf' & Hl); [done | lia | lia | rewrite Hp2; lia |].
  exists s'. split; [done |]. split; [done |]. rewrite Hp2 in Hl. cbn. lia.
Qed.
End Fill.

(** ** Cutting a range into pages *)

Section Pages.
Context {PC : PagingConsts} {PL : @PagingLaws PC}.

(** A page of level [l] fits at both addresses. *)
Definition fits (va pa len : Z) (l : nat) : Prop :=
  page_size l ≤ len ∧ (page_size l | va) ∧ (page_size l | pa).

(** The pages one after the other, each of the highest level that fits there. *)
Inductive tiles : Z → Z → Z → list (Z * nat) → Prop :=
| tiles_nil va pa : tiles va pa 0 []
| tiles_cons va pa len l rest :
    (1 ≤ l ≤ HIGHEST_TRANSLATION_LEVEL)%nat → fits va pa len l →
    (∀ l', (l < l' ≤ HIGHEST_TRANSLATION_LEVEL)%nat → ¬ fits va pa len l') →
    tiles (va + page_size l) (pa + page_size l) (len - page_size l) rest →
    tiles va pa len ((pa, l) :: rest).

Lemma pick_level_ok va pa len : (BASE_PAGE_SIZE | va) → (BASE_PAGE_SIZE | pa) →
  BASE_PAGE_SIZE ≤ len → ∀ h, (1 ≤ h)%nat →
  ∃ l, pick_level h va pa len = Done l ∧ (1 ≤ l ≤ h)%nat ∧ fits va pa len l ∧
    ∀ l', (l < l' ≤ h)%nat → ¬ fits va pa len l'.
Proof.
  intros Hv Hp Hl h. induction h as [|h IH]; intros Hh; [lia |]. cbn [pick_level].
  pose proof (page_size_pos (S h) ltac:(lia)) as Hpos.
  destruct ((len <? page_size (S h)) || _ || _) eqn:Hc.
  - assert (¬ fits va pa len (S h)) as Hno.
    { intros (F1 & F2 & F3). apply Z.mod_divide in F2, F3; [| lia | lia]. rewrite F2, F3 in Hc.
      rewrite !orb_false_r in Hc. apply Z.ltb_lt in Hc. lia. }
    destruct h as [|h].
    { destruct Hno. unfold fits. by rewrite page_size_1. }
    destruct IH as (l & -> & H1 & H2 & H3); [lia |]. exists l. split; [done |]. split; [lia |].
    split; [done |]. intros l' Hl'. destruct (decide (l' = S (S h))) as [->|]; [done | apply H3; lia].
  - apply orb_false_iff in Hc as [[Hc1%Z.ltb_ge Hc2%negb_false_iff%Z.eqb_eq]%orb_false_iff
      Hc3%negb_false_iff%Z.eqb_eq].
    exists (S h). split; [done |]. split; [lia |]. split; [| intros; lia].
    apply Z.mod_divide in Hc2, Hc3; [| lia | lia]. done.
Qed.

Lemma pages_from_ok fuel : ∀ va pa len,
  (BASE_PAGE_SIZE | va) → (BASE_PAGE_SIZE | pa) → (BASE_PAGE_SIZE | len) →
  0 ≤ va → 0 ≤ pa → 0 ≤ len → va + len < 2 ^ 64 → pa + len < 2 ^ 64 →
  len / BASE_PAGE_SIZE < Z.of_nat fuel →
  ∃ items, pages_from fuel va pa len = Done items ∧ tiles va pa len items.
Proof.
  pose proof base_pos as Hb. pose proof levels_ok as Hlv.
  induction fuel as [|fuel IH]; intros va pa len Av Ap Al Hv Hp Hl Ov Op Hf; cbn [pages_from].
  { pose proof (Z.div_pos len BASE_PAGE_SIZE). lia. }
  destruct (Z.eqb_spec len 0) as [->|Hne]; [exists []; split; [done | constructor] |].
  assert (BASE_PAGE_SIZE ≤ len) as Hge by (apply Z.divide_pos_le; [lia | done]).
  destruct (pick_level_ok va pa len Av Ap Hge HIGHEST_TRANSLATION_LEVEL) as (l & -> & L1 & L2 & L3); [lia |].
  pose proof (page_size_pos l ltac:(lia)) as Hps. destruct L2 as (F1 & F2 & F3).
  assert (BASE_PAGE_SIZE | page_size l) as Hd by (rewrite <- page_size_1; apply page_size_divide; lia).
  cbn [mbind outcome_bind]. unfold checked_add, checked_sub.
  destruct (Z.ltb_spec (va + page_size l) (2 ^ 64)); [| lia].
  destruct (Z.ltb_spec (pa + page_size l) (2 ^ 64)); [| lia].
  destruct (Z.leb_spec (page_size l) len); [| lia]. cbn [unwrap mbind outcome_bind].
  destruct (IH (va + page_size l) (pa + page_size l) (len - page_size l)) as (items & -> & Ht);
    try (by apply Z.divide_add_r); try lia; [by apply Z.divide_sub_r | |].
  { apply Z.divide_pos_le in Hd; [| lia].
    assert ((len - page_size l) / BASE_PAGE_SIZE ≤ (len - BASE_PAGE_SIZE) / BASE_PAGE_SIZE)
      by (apply Z.div_le_mono; lia).
    assert ((len - BASE_PAGE_SIZE) / BASE_PAGE_SIZE = len / BASE_PAGE_SIZE - 1) as Hq; [| lia].
    replace (len - BASE_PAGE_SIZE) with (len + (-1) * BASE_PAGE_SIZE) by lia. rewrite Z.div_add by lia. lia. }
  exists ((pa, l) :: items). split; [done |]. constructor; [lia | done | done | done].
Qed.

(** [C40] [largest_pages]: for page-aligned addresses and length, with a valid
    virtual range and no overflow, the iterator ends, after at most one page per
    base page, and its pages cover the range from the start to the end one after
    the other, each page of the highest level that is aligned at both addresses
    and fits what is left. *)
Theorem largest_pages_tile va pa len fuel :
  (BASE_PAGE_SIZE | va) → (BASE_PAGE_SIZE | pa) → (BASE_PAGE_SIZE | len) →
  0 ≤ va → 0 ≤ pa → 0 ≤ len → va + len < 2 ^ 64 → pa + len < 2 ^ 64 →
  is_valid_range (mkRange va (va + len)) = Done true → len / BASE_PAGE_SIZE < Z.of_nat fuel →
  ∃ items, largest_pages fuel va pa len = Done items ∧ tiles va pa len items.
Proof.
  intros Av Ap Al Hv Hp Hl Ov Op Hr Hf. pose proof base_pos as Hb. unfold largest_pages.
  apply Z.mod_divide in Av as Mv, Ap as Mp, Al as Ml; [| lia ..]. rewrite Mv, Mp, Ml.
  cbn [Z.eqb assert_that mbind outcome_bind]. unfold checked_add.
  destruct (Z.ltb_spec (va + len) (2 ^ 64)); [| lia]. cbn [unwrap mbind outcome_bind].
  rewrite Hr. cbn [assert_that mbind outcome_bind]. by apply pages_from_ok.
Qed.
End Pages.

(** ** The kernel's half of a user page table *)

Section Share.
Context (kroot new : Z).

(** The shared tables. *)
Definition shared (s : Store PageTableEntry) : Prop :=
  ∀ i, 256 ≤ i < 512 → ∃ c, child_at s kroot 4 i = ChPageTable c.

Definition shared_entry (s : Store PageTableEntry) (i : Z) : PageTableEntry :=
  match child_at s kroot 4 i with ChPageTable c => x86_new_pt c | _ => 0 end.

Definition with_ptes (nd : PtNode PageTableEntry) (ps : list PageTableEntry) : PtNode PageTableEntry :=
  mkNode (level nd) (nr_children nd) (stray nd) (lock nd) ps.

Lemma share_slots_ok (Hne : new ≠ kroot) k : ∀ i s nd,
  @node_ok kernel_consts _ _ _ kernel_pte_laws s 4 kroot → shared s →
  nodes s !! new = Some nd → length (ptes nd) = 512%nat → 256 ≤ i → i + Z.of_nat k ≤ 512 →
  ∃ ps, share_slots k i kroot new s = Done (set_node s new (with_ptes nd ps)) ∧ length ps = 512%nat ∧
    ∀ j, 0 ≤ j < 512 → ps !! Z.to_nat j =
      if decide (i ≤ j < i + Z.of_nat k) then Some (shared_entry s j) else ptes nd !! Z.to_nat j.
Proof.
  induction k as [|k IH]; intros i s nd Hok Hsh Hn Hlen Hi Hk; cbn [share_slots].
  { exists (ptes nd). split; [| split; [done |]].
    - f_equal. unfold set_node, with_ptes. destruct s as [ns p], nd. cbn in *. f_equal. symmetry.
      by apply insert_id.
    - intros j Hj. destruct (decide _); [lia | done]. }
  destruct (entry_eq s 4 kroot i Hok) as (pte & E1 & E2 & _); [change (0 ≤ i < 512); lia |].
  rewrite E1. cbn [mbind outcome_bind]. pose proof Hok as (knd & Hkn & Hkl & _).
  unfold to_ref, entry_level, get_node at 1. cbn [e_node e_pte]. rewrite Hkn. cbn [unwrap mbind outcome_bind].
  rewrite Hkl, E2. destruct (Hsh i ltac:(lia)) as [c Hc]. rewrite Hc.
  unfold write_pte, get_node. rewrite Hn. cbn [unwrap mbind outcome_bind].
  set (nd1 := mkNode (level nd) (nr_children nd) (stray nd) (lock nd) (<[Z.to_nat i := x86_new_pt c]> (ptes nd))).
  assert (nodes (set_node s new nd1) !! kroot = nodes s !! kroot) as Hk1.
  { cbn. by rewrite lookup_insert_ne. }
  assert (∀ j, child_at (set_node s new nd1) kroot 4 j = child_at s kroot 4 j) as Hca.
  { intros j. by apply child_at_agree. }
  destruct (IH (i + 1) (set_node s new nd1) nd1) as (ps & -> & Hl & Hps).
  - by apply (node_ok_agree s).
  - intros j Hj. rewrite Hca. by apply Hsh.
  - cbn. apply lookup_insert_eq.
  - cbn. by rewrite length_insert.
  - lia.
  - lia.
  - exists ps. split; [| split; [done |]].
    + f_equal. unfold set_node, with_ptes, nd1. cbn. by rewrite insert_insert_eq.
    + intros j Hj. rewrite Hps by done. cbn [ptes nd1].
      destruct (decide (j = i)) as [->|Hji].
      * destruct (decide (i + 1 ≤ i < _)); [lia |]. destruct (decide _); [| lia].
        rewrite list_lookup_insert_eq by lia. unfold shared_entry. by rewrite Hc.
      * rewrite list_lookup_insert_ne by lia. unfold shared_entry. rewrite Hca.
        destruct (decide (i + 1 ≤ j < _)), (decide (i ≤ j < _)); lia || done.
Qed.

Definition with_lock (nd : PtNode PageTableEntry) (b : bool) : PtNode PageTableEntry :=
  mkNode (level nd) (nr_children nd) (stray nd) b (ptes nd).

Lemma node_lock_some (s : Store PageTableEntry) n nd : nodes s !! n = Some nd → lock nd = false →
  node_lock s n = Done (set_node s n (with_lock nd true)).
Proof. intros Hn Hl. unfold node_lock, set_lock, get_node. rewrite Hn. cbn. by rewrite Hl. Qed.

Lemma node_unlock_some (s : Store PageTableEntry) n nd : nodes s !! n = Some nd →
  node_unlock s n = Done (set_node s n (with_lock nd false)).
Proof. intros Hn. unfold node_unlock, set_lock, get_node. by rewrite Hn. Qed.

(** The store after the call: one new node, everything else as before. *)
Lemma create_user_store s knd rest :
  new ≠ kroot → nodes s !! kroot = Some knd → lock knd = false → pool s = new :: rest →
  @node_ok kernel_consts _ _ _ kernel_pte_laws s 4 kroot → shared s →
  ∃ s' ps, create_user_page_table s kroot = Done (new, s') ∧ pool s' = rest ∧
    nodes s' !! new = Some (mkNode 4 0 false false ps) ∧
    (∀ x, x ≠ new → nodes s' !! x = nodes s !! x) ∧ length ps = 512%nat ∧
    ∀ j, 0 ≤ j < 512 → ps !! Z.to_nat j = Some (if decide (256 ≤ j) then shared_entry s j else 0).
Proof.
  intros Hne Hk Hlk Hp Hok Hsh. unfold create_user_page_table, node_alloc. rewrite Hp.
  set (nd0 := mkNode _ 0 false false (replicate _ _)). cbn [mbind outcome_bind].
  set (s1 := mkStore (<[new := nd0]> (nodes s)) rest).
  assert (nodes s1 !! kroot = Some knd) as K1 by (unfold s1; cbn [nodes]; by rewrite lookup_insert_ne).
  assert (nodes s1 !! new = Some nd0) as N1 by (unfold s1; cbn [nodes]; apply lookup_insert_eq).
  rewrite (node_lock_some s1 kroot knd) by done. cbn [mbind outcome_bind].
  set (s2 := set_node s1 kroot (with_lock knd true)).
  assert (nodes s2 !! new = Some nd0) as N2 by (unfold s2; cbn [set_node nodes]; by rewrite lookup_insert_ne).
  rewrite (node_lock_some s2 new nd0) by done. cbn [mbind outcome_bind].
  set (s3 := set_node s2 new (with_lock nd0 true)).
  assert (nodes s3 !! kroot = Some (with_lock knd true)) as K3.
  { unfold s3, s2. cbn [set_node nodes]. by rewrite lookup_insert_ne, lookup_insert_eq. }
  assert (∀ j, child_at s3 kroot 4 j = child_at s kroot 4 j) as Hca.
  { intros j. unfold child_at. by rewrite K3, Hk. }
  assert (nodes s3 !! new = Some (with_lock nd0 true)) as N3 by (unfold s3; cbn [set_node nodes]; apply lookup_insert_eq).
  cbn [TOP_LEVEL_INDEX_RANGE kernel_consts].
  destruct (share_slots_ok Hne (Z.to_nat (512 - 256)) 256 s3 (with_lock nd0 true)) as (ps & Hrun & Hl & Hps);
    try done.
  { destruct Hok as (nd & H1 & H2 & H3 & H4 & H5 & H6). rewrite Hk in H1. injection H1 as <-.
    exists (with_lock knd true). split_and!; try done. cbn [nr_children with_lock]. rewrite H5.
    unfold present_count. do 2 f_equal. apply list_filter_iff. intros i. by rewrite Hca. }
  { intros j Hj. rewrite Hca. by apply Hsh. }
  rewrite Hrun. cbn [mbind outcome_bind]. set (s4 := set_node s3 new _).
  rewrite (node_unlock_some s4 new (with_ptes (with_lock nd0 true) ps)) by (unfold s4; cbn [set_node nodes]; apply lookup_insert_eq).
  cbn [mbind outcome_bind]. set (s5 := set_node s4 new _).
  rewrite (node_unlock_some s5 kroot (with_lock knd true))
    by (unfold s5, s4; cbn [set_node nodes]; rewrite !lookup_insert_ne by done; exact K3).
  eexists _, ps. split; [done |]. split; [done |]. unfold s5, s4, s3, s2, s1. cbn [set_node nodes].
  split; [by rewrite lookup_insert_ne, lookup_insert_eq |]. split; [| split; [done |]].
  - intros x Hx. destruct (decide (x = kroot)) as [->|].
    + rewrite lookup_insert_eq, Hk. f_equal. unfold with_lock. cbn. by destruct knd; cbn in *; subst.
    + by rewrite !lookup_insert_ne.
  - intros j Hj. rewrite Hps by done. unfold shared_entry. rewrite Hca.
    destruct (decide (256 ≤ j < _)), (decide (256 ≤ j)); try lia; try done.
    cbn [ptes with_lock nd0]. rewrite lookup_replicate_2; [done |]. change (Z.to_nat j < 512)%nat. lia.
Qed.
End Share.

(** ** Properties *)

Section Tables.
#[local] Existing Instance kernel_consts.

Lemma kernel_child s kroot i : pt_ok s kroot → 256 ≤ i < 512 → ∀ c,
  child_at s kroot 4 i = ChPageTable c → tree_ok s 3 c ∧ addr_ok c ∧
  ∀ x, x ∈ owned s 3 c → x ∈ owned s 4 kroot.
Proof.
  intros [Htree _ _] Hi c Hc. apply (tree_ok_S s 3 kroot) in Htree as [_ Hch].
  assert (managed 4 i = true) as Hm by (unfold managed; cbn; apply andb_true_iff; split; lia).
  specialize (Hch i ltac:(change (0 ≤ i < 512); lia) Hm). rewrite Hc in Hch. cbn [child_ok Nat.sub] in Hch.
  split; [done |]. split; [by apply (tree_ok_S s 2 c) in Hch as [(? & _ & _ & _ & _ & _ & Ha) _] |].
  intros x Hx. apply (owned_slot_elem s 3 kroot i); [change (0 ≤ i < 512); lia |].
  unfold slot_owned. rewrite Hm, Hc. exact Hx.
Qed.

(** The walk from the new root through a shared entry. *)
Lemma walk_shared s s' kroot new c v ps :
  pt_ok s kroot → managed_va v → child_at s kroot 4 (pte_index v 4) = ChPageTable c →
  (∀ x, x ∈ owned s 4 kroot → nodes s' !! x = nodes s !! x) →
  nodes s' !! new = Some (mkNode 4 0 false false ps) →
  ps !! Z.to_nat (pte_index v 4) = Some (x86_new_pt c) → 256 ≤ pte_index v 4 < 512 →
  walk s' new v = walk s kroot v.
Proof.
  intros Hpt Hm Hc Hag Hn Hps Hi. destruct (kernel_child s kroot _ Hpt Hi c Hc) as (Htr & [Ha1 Ha2] & Hsub).
  rewrite (walk_trans s) by done. unfold walk. cbn [NR_LEVELS kernel_consts].
  change (page_walk s' 4 new v) with
    (read_pte s' new (pte_index v 4) ≫= λ cur_pte,
      if negb (is_present cur_pte) then Done None
      else if is_last cur_pte 4
      then Done (Some (pte_paddr cur_pte + Z.land v (page_size 4 - 1), pte_prop cur_pte))
      else page_walk s' 3 (pte_paddr cur_pte) v).
  unfold read_pte, get_node. rewrite Hn. cbn [unwrap mbind outcome_bind ptes]. rewrite Hps.
  cbn [unwrap mbind outcome_bind]. destruct (pt_law c 4 Ha1 Ha2) as (P1 & P2 & P3).
  cbn [new_pt is_present is_last pte_paddr x86_pte_ops] in P1, P2, P3 |- *. rewrite P1, P2, P3. cbn [negb].
  rewrite (page_walk_trans s'); [| cbn; lia | | by apply managed_low; cbn; lia].
  - f_equal. rewrite (trans_S s 3 kroot), Hc. cbn [child_trans Nat.sub].
    apply trans_agree; [cbn; lia | by intros x Hx; apply Hag, Hsub | by apply managed_low; cbn; lia].
  - apply (tree_ok_agree s); [cbn; lia | by intros x Hx; apply Hag, Hsub | done].
Qed.

(** The tables of the kernel that are to be shared, and nobody in its tree. *)
Definition kernel_ready (s : Store PageTableEntry) (kroot : Z) : Prop :=
  pt_ok s kroot ∧ only_locked kroot s None ∧ shared kroot s.

(** The new user table by itself. *)
Lemma user_root_ok s kroot new rest s' ps :
  kernel_ready s kroot → pool s = new :: rest → pool s' = rest →
  nodes s' !! new = Some (mkNode 4 0 false false ps) → length ps = 512%nat →
  (∀ j, 0 ≤ j < 512 → ps !! Z.to_nat j = Some (if decide (256 ≤ j) then shared_entry kroot s j else 0)) →
  @pt_ok user_consts _ _ _ user_pte_laws s' new ∧ @owned user_consts _ _ _ s' 4 new = [new] ∧
  ∀ v, @managed_va user_consts v → @walk user_consts _ _ _ s' new v = Done None.
Proof.
  intros (Hpt & _ & _) Hp Hp' Hn Hlen Hps. destruct Hpt as [_ Hnd Hpool]. rewrite Hp in *.
  apply NoDup_app in Hnd as (_ & _ & Hnd).
  destruct (@bare_root_ok user_consts _ _ _ _ user_pte_laws s' new (mkNode 4 0 false false ps))
    as (H1 & H2 & H3); try done; try (rewrite Hp'; done).
  - cbn [ptes]. rewrite Hlen. done.
  - intros i Hi Hm. change (0 ≤ i < 512) in Hi. unfold child_at. rewrite Hn. cbn [ptes].
    rewrite Hps by done. unfold managed in Hm. cbn in Hm. apply andb_true_iff in Hm as [? ?%Z.ltb_lt].
    by destruct (decide _); [lia |].
  - by apply Forall_cons in Hpool as [? _].
  - rewrite Hp'. by apply Forall_cons in Hpool as [_ ?].
  - split; [done |]. split; [done |]. intros v Hv. rewrite walk_trans by done. by rewrite H3.
Qed.

(** [C30] [create_user_page_table], from a kernel page table whose upper half is
    filled with tables: the call returns a page table for the user's half, empty
    and well formed, in which every address of the kernel's half translates as in
    the kernel's page table; the kernel's page table is as before and nothing is
    left locked. *)
Theorem user_page_table_shares_kernel s kroot new rest :
  kernel_ready s kroot → pool s = new :: rest →
  ∃ s', create_user_page_table s kroot = Done (new, s') ∧ kernel_ready s' kroot ∧
    @pt_ok user_consts _ _ _ user_pte_laws s' new ∧ @only_locked user_consts _ _ _ new s' None ∧
    (∀ v, @managed_va user_consts v → @walk user_consts _ _ _ s' new v = Done None) ∧
    ∀ v, managed_va v → walk s' new v = walk s kroot v ∧ walk s' kroot v = walk s kroot v.
Proof.
  intros Hready Hp. pose proof Hready as (Hpt & Ho & Hsh).
  destruct (pool_fresh s kroot new rest Hpt Hp) as [_ Hnew].
  destruct (root_unlocked s kroot Hpt Ho) as (knd & Hkn & Hl & Hok & Hk).
  assert (new ≠ kroot) as Hne by (intros ->; exact (Hnew Hk)).
  destruct (create_user_store kroot new s knd rest) as (s' & ps & Hrun & Hp' & Hn & Hag & Hlen & Hps); try assumption.
  destruct (pt_ok_other s s' kroot new rest Hpt Hp Hp' Hag) as (Hpt' & Hag' & Hown).
  destruct (user_root_ok s kroot new rest s' ps) as (U1 & U2 & U3); try assumption.
  exists s'. split; [exact Hrun |]. split; [split; [exact Hpt' |]; split |].
  - exact (only_locked_agree s s' kroot None Hown Hag' Ho).
  - intros i Hi. rewrite (child_at_agree s s') by exact (Hag' kroot Hk). exact (Hsh i Hi).
  - split; [exact U1 |]. split; [| split; [exact U3 |]].
    + exact (@only_locked_one user_consts _ _ _ s' new _ U2 Hn eq_refl).
    + intros v Hv. pose proof (pte_index_range v 4 ltac:(lia)) as Hi. change (0 ≤ pte_index v 4 < 512) in Hi.
      assert (256 ≤ pte_index v 4 < 512) as Hi'.
      { unfold managed_va, managed in Hv. cbn [NR_LEVELS kernel_consts Nat.eqb TOP_LEVEL_INDEX_RANGE fst snd] in Hv.
        apply andb_true_iff in Hv as [?%Z.leb_le _]. lia. }
      split.
      * destruct (Hsh _ Hi') as [c Hc]. apply (walk_shared s s' kroot new c v ps); try assumption.
        rewrite Hps by exact Hi. destruct (decide _); [| lia]. unfold shared_entry. by rewrite Hc.
      * rewrite !walk_trans by assumption. f_equal. by apply (trans_agree s s'); [reflexivity | |].
Qed.

(** [new_kernel_page_table], with 257 frames in the pool: the call returns a
    well-formed page table that maps nothing, whose 256 top-level slots all hold a
    table, with no lock held: what [create_user_page_table] needs. *)
Lemma new_kernel_page_table_ready s :
  NoDup (pool s) → Forall addr_ok (pool s) → (257 ≤ length (pool s))%nat →
  ∃ root s', new_kernel_page_table s = Done (root, s') ∧ kernel_ready s' root ∧
    (length (pool s') = length (pool s) - 257)%nat ∧
    ∀ v, managed_va v → walk s' root v = Done None.
Proof.
  intros Hnd Hp Hlen. destruct (pool s) as [|root rest] eqn:Hpool; [cbn in Hlen; lia |]. cbn in Hlen.
  destruct (empty_ok s root rest Hpool Hnd Hp) as (s1 & Hrun & Hpt1 & Hown & Ho1 & Hp1 & _ & Hch & Htr).
  unfold new_kernel_page_table. rewrite Hrun. cbn [mbind outcome_bind].
  assert (managed_va (slot_va 256)) as Hm by (apply slot_va_managed; cbn; lia).
  assert (1 ≤ NR_LEVELS)%nat as Hl by (cbn; lia). assert (2 ≤ NR_LEVELS)%nat as Hl2 by (cbn; lia).
  destruct (lock_one root (mkRange (slot_va 256) 0) Hm s1 NR_LEVELS root None Hl Hpt1
    (root_here root s1 _) Ho1 (or_introl eq_refl)) as (s2 & L2 & Sh2 & Ho2).
  apply bind_done in L2 as (s2' & -> & [= ->]). cbn [mbind outcome_bind].
  cbn [TOP_LEVEL_INDEX_RANGE kernel_consts]. 
  assert (filling root s2 256) as Hf.
  { constructor; [by rewrite <- Sh2 | done | |].
    - split; intros j Hj; [cbn in Hj; lia |]. by rewrite <- Sh2.
    - intros v Hv. rewrite <- Sh2. by apply Htr. }
  destruct (fill_slots_ok root Hl2 (Z.to_nat (512 - 256)) 256 s2 Hf) as (s3 & -> & Hf3 & Hl3);
    [cbn; lia | done | rewrite <- (proj1 Sh2), Hp1; lia |].
  cbn [mbind outcome_bind]. destruct Hf3 as [Hpt3 Ho3 [F3 _] Ht3].
  destruct (unlock_one root (mkRange (slot_va 256) 0) Hm s3 NR_LEVELS root Hl Hpt3
    (root_here root s3 _) Ho3) as (s4 & -> & Sh4 & Ho4).
  assert (pt_ok s4 root) as Hpt4 by (by rewrite <- Sh4).
  exists root, s4. split; [done |]. split; [split; [done |]; split; [done |] |].
  - intros i Hi. destruct (F3 i Hi) as [c Hc]. exists c. by rewrite <- Sh4.
  - split; [rewrite <- (proj1 Sh4); rewrite <- (proj1 Sh2), Hp1 in Hl3; cbn; lia |].
    intros v Hv. rewrite walk_trans by done. rewrite <- Sh4. by rewrite Ht3.
Qed.
End Tables.

(** ** Witnesses *)

Section Witnesses.
#[local] Existing Instance user_consts.

(** The frames [0x1000], [0x2000], ... *)
Definition demo_pool (n : nat) : list Z := (λ i, 0x1000 * (Z.of_nat i + 1)) <$> seq 0 n.

Lemma demo_pool_nodup n : NoDup (demo_pool n).
Proof. apply NoDup_fmap_2; [intros i j; lia | apply NoDup_seq]. Qed.

Lemma demo_pool_addr n : (n ≤ 1000)%nat → Forall addr_ok (demo_pool n).
Proof.
  intros Hn. apply Forall_forall. intros x (i & -> & Hi%elem_of_seq)%list_elem_of_fmap.
  split; [| exists (Z.of_nat i + 1); cbn [BASE_PAGE_SIZE user_consts]; lia].
  assert (0x1000 * 1001 < PADDR_END) by (cbn; lia). lia.
Qed.

(** An empty user page table, and a cursor over 4 MiB of it. *)
Definition demo_user : Store PageTableEntry :=
  match empty (mkStore ∅ (demo_pool 20)) with Done (_, s) => s | Panic => mkStore ∅ [] end.
Definition demo_range : VRange := mkRange 0x400000 0x800000.

Lemma demo_user_ok : pt_ok demo_user 0x1000 ∧ only_locked 0x1000 demo_user None ∧
  length (pool demo_user) = 19%nat ∧ ∀ v, managed_va v → walk demo_user 0x1000 v = Done None.
Proof.
  destruct (empty_ok (mkStore ∅ (demo_pool 20)) 0x1000 (tail (demo_pool 20)))
    as (s & Hrun & H1 & _ & H3 & H4 & _ & _ & H7).
  - reflexivity.
  - exact (demo_pool_nodup 20).
  - apply (demo_pool_addr 20). lia.
  - assert (demo_user = s) as -> by (unfold demo_user; by rewrite Hrun).
    split; [exact H1 |]. split; [exact H3 |]. split; [by rewrite H4 |].
    intros v Hv. rewrite walk_trans by assumption. by rewrite H7.
Qed.

Lemma demo_cursor : ∃ c s, lock_range 1 demo_user 0x1000 demo_range = Done (c, s) ∧
  cur_ok s 0x1000 c ∧ va c = 0x400000 ∧ barrier_va c = demo_range ∧ (12 ≤ length (pool s))%nat ∧
  ∀ v, managed_va v → walk s 0x1000 v = Done None.
Proof.
  destruct demo_user_ok as (H1 & H2 & H3 & H4).
  destruct (valid_range_managed demo_range) as [Hman Hwin]; [reflexivity | reflexivity |].
  destruct (lock_range_ok demo_range) with (s := demo_user) (root := 0x1000) (fuel := 0%nat)
    as (c & s & Hrun & Hc & Hva & Hr & Hp & Ht); try assumption.
  - cbn. lia.
  - split; [exists 0x400 | exists 0x800]; reflexivity.
  - reflexivity.
  - rewrite H3. cbn. lia.
  - exists c, s. split; [exact Hrun |]. split; [exact Hc |]. split; [exact Hva |]. split; [exact Hr |].
    split; [rewrite H3 in Hp; cbn in Hp; lia |].
    intros v Hv. rewrite walk_trans by (assumption || apply Hc). rewrite Ht by assumption.
    pose proof (H4 v Hv) as Hw. rewrite walk_trans in Hw by assumption. exact Hw.
Qed.

Lemma cursor_new_exact_witness : ∃ c s,
  cursor_new 1 demo_user 0x1000 demo_range = Done (ROk (c, s)) ∧ cur_ok s 0x1000 c ∧
  va c = 0x400000 ∧ ∀ v, managed_va v → walk s 0x1000 v = walk demo_user 0x1000 v.
Proof.
  destruct demo_user_ok as (H1 & H2 & H3 & _).
  assert (4 ≤ length (pool demo_user))%nat as Hp by (rewrite H3; lia).
  destruct (cursor_new_exact demo_user 0x1000 demo_range 0 true H1 H2 Hp ltac:(cbn; lia)
    eq_refl eq_refl) as (c & s & Hrun & Hc & Hva & _ & _ & Hw).
  exists c, s. split; [exact Hrun |]. split; [exact Hc |]. split; [exact Hva | exact Hw].
Defined.

Lemma unlock_range_exact_witness : ∃ c s s',
  lock_range 1 demo_user 0x1000 demo_range = Done (c, s) ∧ unlock_range c s = Done s' ∧
  only_locked 0x1000 s' None.
Proof.
  destruct demo_cursor as (c & s & Hrun & Hc & _).
  destruct (unlock_range_exact s 0x1000 c Hc) as (s' & Hs' & _ & Ho & _).
  exists c, s, s'. split; [exact Hrun |]. split; [exact Hs' | exact Ho].
Defined.

Definition demo_prop : PageProperty := mkProp 0x07 Writeback 0x01.

Lemma demo_frame_ok : frame_ok 1 0xABC000 ∧ prop_ok demo_prop.
Proof.
  split.
  - split; [lia |]. split; [change (0xABC000 + 4096 ≤ 2 ^ 52); lia |].
    split; [exists 0xABC; reflexivity | cbn; lia].
  - split; [split; cbn; lia |]. split; [reflexivity |]. split; [split; cbn; lia |].
    split; reflexivity.
Qed.

(** Mapping a frame at the start of the range. *)
Lemma map_exact_witness : ∃ c s res c' s',
  lock_range 1 demo_user 0x1000 demo_range = Done (c, s) ∧
  map user_into_raw user_from_raw c s (new_tracked 0xABC000 demo_prop) = Done (res, c', s') ∧
  cur_ok s' 0x1000 c' ∧ va c' = 0x401000 ∧
  walk s' 0x1000 0x400123 = Done (Some (0xABC123, demo_prop)) ∧ walk s' 0x1000 0x401000 = Done None.
Proof.
  destruct demo_cursor as (c & s & Hrun & Hc & Hva & Hr & Hp & Hw). destruct demo_frame_ok as [Hf Hpr].
  destruct (co_levels _ _ _ Hc) as [[Hl1 Hl2] Hl3].
  destruct (map_exact user_into_raw user_from_raw s 0x1000 c (new_tracked 0xABC000 demo_prop) 0xABC000 1
    demo_prop Hc eq_refl Hf Hpr) as (res & c' & s' & Hmap & Hc' & _ & Hva' & _ & Hwalk & _).
  - rewrite Hva. exists 0x400. reflexivity.
  - rewrite Hva, Hr. vm_compute. discriminate.
  - lia.
  - change (4 ≤ length (pool s))%nat. lia.
  - left. reflexivity.
  - assert (∀ v, 0x400000 ≤ v < 0x800000 → window c v) as Hwin.
    { intros v Hv. apply (range_window s 0x1000 c v Hc). rewrite Hr. exact Hv. }
    assert (managed_va 0x401000) as Hm by reflexivity.
    exists c, s, res, c', s'. split; [exact Hrun |]. split; [exact Hmap |]. split; [exact Hc' |].
    split; [rewrite Hva', Hva; reflexivity |].
    change (page_size 1) with 4096 in Hwalk. rewrite !Hwalk by (apply Hwin; lia). rewrite Hva, (Hw _ Hm).
    split; destruct (decide _); lia || reflexivity.
Defined.

Lemma query_exact_witness : ∃ c s r item c',
  lock_range 1 demo_user 0x1000 demo_range = Done (c, s) ∧
  query user_from_raw c s = Done (ROk (r, item), c') ∧ cur_ok s 0x1000 c' ∧
  start r = page_start 0x400000 (c_level c') ∧ end_ r = start r + page_size (c_level c').
Proof.
  destruct demo_cursor as (c & s & Hrun & Hc & Hva & Hr & _).
  pose proof (query_exact user_from_raw s 0x1000 c Hc) as Hq. rewrite Hva, Hr in Hq.
  change (end_ demo_range <=? 0x400000) with false in Hq.
  destruct Hq as (r & item & c' & Hq & Hc' & _ & _ & Hs & He & _).
  exists c, s, r, item, c'. split; [exact Hrun |]. split; [exact Hq |]. split; [exact Hc' |].
  split; [exact Hs | exact He].
Defined.

Lemma jump_next_exact_witness : ∃ c s c' r item c1,
  lock_range 1 demo_user 0x1000 demo_range = Done (c, s) ∧
  jump c 0x7ff000 = Done (ROk c') ∧ va c' = 0x7ff000 ∧ jump c 0x800000 = Done (RErr (InvalidVaddr 0x800000)) ∧
  next user_from_raw c s = Done (Some (r, item), c1) ∧ va c1 = end_ r.
Proof.
  destruct demo_cursor as (c & s & Hrun & Hc & Hva & Hr & _).
  assert (va c < node_end c) as Hin.
  { apply (inside_range s 0x1000 c Hc). rewrite Hva, Hr. reflexivity. }
  assert (BASE_PAGE_SIZE | 0x7ff000) as H1 by (exists 0x7ff; reflexivity).
  assert (BASE_PAGE_SIZE | 0x800000) as H2 by (exists 0x800; reflexivity).
  pose proof (jump_next_exact user_from_raw s 0x1000 c 0x7ff000 Hc H1 Hin) as [Hj Hn].
  pose proof (jump_next_exact user_from_raw s 0x1000 c 0x800000 Hc H2 Hin) as [Hk _].
  rewrite Hr in Hj, Hk, Hn. rewrite Hva in Hn.
  destruct Hj as (c' & Hj & _ & _ & Hv). destruct Hn as (r & item & c1 & c2 & _ & Hn & _ & _ & _ & Hv2).
  exists c, s, c', r, item, c2. split; [exact Hrun |]. split; [exact Hj |]. split; [exact Hv |].
  split; [exact Hk |]. split; [exact Hn | exact Hv2].
Defined.

Lemma take_next_exact_witness : ∃ c s fuel0, lock_range 1 demo_user 0x1000 demo_range = Done (c, s) ∧
  ∀ fuel, (fuel0 ≤ fuel)%nat → ∃ frag c' s',
    take_next user_from_raw fuel 0x400000 c s = Done (frag, c', s') ∧ cur_ok s' 0x1000 c'.
Proof.
  destruct demo_cursor as (c & s & Hrun & Hc & Hva & Hr & Hp & _).
  destruct (take_next_exact user_from_raw s 0x1000 c 0x400000 Hc) as [fuel0 Ht].
  - lia.
  - exists 0x400. reflexivity.
  - rewrite Hva, Hr. vm_compute. discriminate.
  - change (4 ≤ length (pool s))%nat. lia.
  - exists c, s, fuel0. split; [exact Hrun |]. intros fuel Hf.
    destruct (Ht fuel Hf) as (frag & c' & s' & H1 & H2 & _). exists frag, c', s'. split; [exact H1 | exact H2].
Defined.

Lemma protect_next_exact_witness : ∃ c s fuel0, lock_range 1 demo_user 0x1000 demo_range = Done (c, s) ∧
  ∀ fuel, (fuel0 ≤ fuel)%nat → ∃ r c' s',
    protect_next fuel 0x400000 (λ p, mkProp 0x01 (cache p) (priv_flags p)) c s = Done (r, c', s') ∧
    cur_ok s' 0x1000 c'.
Proof.
  destruct demo_cursor as (c & s & Hrun & Hc & Hva & Hr & Hp & _).
  destruct (protect_next_exact s 0x1000 c 0x400000 (λ p, mkProp 0x01 (cache p) (priv_flags p)) Hc) as [fuel0 Ht].
  - lia.
  - exists 0x400. reflexivity.
  - rewrite Hva, Hr. vm_compute. discriminate.
  - change (4 ≤ length (pool s))%nat. lia.
  - intros p (_ & _ & P3). split; [split; cbn; lia |]. split; [reflexivity | exact P3].
  - exists c, s, fuel0. split; [exact Hrun |]. intros fuel Hf.
    destruct (Ht fuel Hf) as (r & c' & s' & H1 & H2 & _). exists r, c', s'. split; [exact H1 | exact H2].
Defined.

Lemma largest_pages_tile_witness : ∃ items,
  largest_pages 1025 0x1ff000 0x5ff000 0x401000 = Done items ∧ tiles 0x1ff000 0x5ff000 0x401000 items ∧
  items = [(0x5ff000, 1%nat); (0x600000, 2%nat); (0x800000, 2%nat)].
Proof.
  destruct (largest_pages_tile 0x1ff000 0x5ff000 0x401000 1026) as (items & Hrun & Ht);
    try lia; try (vm_compute; reflexivity).
  - exists 0x1ff. reflexivity.
  - exists 0x5ff. reflexivity.
  - exists 0x401. reflexivity.
  - exists [(0x5ff000, 1%nat); (0x600000, 2%nat); (0x800000, 2%nat)].
    split; [vm_compute; reflexivity |]. split; [| reflexivity].
    assert (items = [(0x5ff000, 1%nat); (0x600000, 2%nat); (0x800000, 2%nat)]) as <-; [| exact Ht].
    vm_compute in Hrun. injection Hrun as <-. reflexivity.
Defined.
End Witnesses.

(** From nothing: a kernel page table and a user page table next to it. *)
Lemma user_page_table_shares_kernel_witness : ∃ kroot s new s',
  new_kernel_page_table (mkStore ∅ (demo_pool 300)) = Done (kroot, s) ∧
  create_user_page_table s kroot = Done (new, s') ∧ kernel_ready s' kroot ∧
  @pt_ok user_consts _ _ _ user_pte_laws s' new.
Proof.
  destruct (new_kernel_page_table_ready (mkStore ∅ (demo_pool 300))) as (kroot & s & Hrun & Hr & Hp & _).
  - apply demo_pool_nodup.
  - apply (demo_pool_addr 300). lia.
  - vm_compute. lia.
  - destruct (pool s) as [|new rest] eqn:Hpool; [vm_compute in Hp; discriminate |].
    destruct (user_page_table_shares_kernel s kroot new rest Hr Hpool) as (s' & Hs' & Hk & Hu & _).
    exists kroot, s, new, s'. split; [exact Hrun |]. split; [exact Hs' |]. split; [exact Hk | exact Hu].
Defined.
