(* ===== verification/Tlb.v ===== *)
(** * TLB shootdown

    [osxtd/src/mm/tlb.rs]: the encoding of flush operations in one word, the
    bounded stack of pending operations with the frames it keeps alive, and the
    flusher that sends the operations of an unmapping CPU to every CPU that has
    the address space active. [World] is the machine: the page table, the CPUs
    with their TLBs and their queues, and the flushers, each of whose steps is
    one critical section of the code. *)

From stdpp Require Import functions.
From S2P Require Import Prelude.
Local Open Scope Z_scope.

Module Tlb.

Definition PAGE_SIZE : Z := 4096.
Definition FLUSH_ALL_PAGES_THRESHOLD : Z := 32.
Definition U32_MAX : Z := 2 ^ 32 - 1.

(** ** Flush operations *)

(** [TlbFlushOp]: an address, whose low bits hold a number of pages. *)
Definition TlbFlushOp : Type := Z.

Definition FLUSH_ALL_VAL : Z := 2 ^ 64 - 1.
(** [x.leading_zeros()] of a [usize] *)
Definition leading_zeros (x : Z) : Z := if x =? 0 then 64 else 63 - Z.log2 x.
Definition FLUSH_RANGE_NPAGES_MASK : Z :=
  Z.shiftl 1 (64 - leading_zeros FLUSH_ALL_PAGES_THRESHOLD) - 1.

Definition for_all : TlbFlushOp := FLUSH_ALL_VAL.
Definition for_single (addr : Z) : TlbFlushOp := Z.lor addr 1.
Definition for_range (a b : Z) : outcome TlbFlushOp :=
  assert_that (a mod PAGE_SIZE =? 0) ≫= λ _,
  assert_that (b mod PAGE_SIZE =? 0) ≫= λ _,
  assert_that (a <? b) ≫= λ _,
  let num_pages := (b - a) / PAGE_SIZE in
  if FLUSH_ALL_PAGES_THRESHOLD <=? num_pages then Done for_all
  else Done (Z.lor a num_pages).

Definition num_pages (op : TlbFlushOp) : Z :=
  if op =? FLUSH_ALL_VAL then U32_MAX else Z.land op FLUSH_RANGE_NPAGES_MASK mod 2 ^ 32.

(** A TLB: pages of user addresses with the frame they translate to. *)
Abbreviation TLB := (gset (Z * Z)).

(** [tlb_flush_addr], [tlb_flush_addr_range] and [tlb_flush_all_excluding_global]
    of [arch/x86/mm/mod.rs]; user pages are not global. *)
Definition tlb_flush_addr (a : Z) (t : TLB) : TLB := filter (λ e, e.1 ≠ a) t.
Fixpoint tlb_flush_pages (n : nat) (a : Z) (t : TLB) : TLB :=
  match n with
  | O => t
  | S n => tlb_flush_pages n (a + PAGE_SIZE) (tlb_flush_addr a t)
  end.
Definition tlb_flush_addr_range (a b : Z) (t : TLB) : TLB :=
  tlb_flush_pages (Z.to_nat ((b - a + (PAGE_SIZE - 1)) / PAGE_SIZE)) a t.
Definition tlb_flush_all_excluding_global (t : TLB) : TLB := ∅.

Definition perform_on_current (op : TlbFlushOp) (t : TLB) : TLB :=
  if op =? FLUSH_ALL_VAL then tlb_flush_all_excluding_global t
  else
    let start := Z.land op (bit_not 64 FLUSH_RANGE_NPAGES_MASK) in
    let num_pages := Z.land op FLUSH_RANGE_NPAGES_MASK in
    if num_pages =? 1 then tlb_flush_addr start t
    else tlb_flush_addr_range start (start + num_pages * PAGE_SIZE) t.

(** ** The stack of pending operations *)

(** A frame handle, given by the frames that it keeps alive: itself and, for a
    page table node, the frames that are mapped below it. *)
Abbreviation Handle := (list Z).

(** [OpsStack]; an entry of the array that is not initialised is [None]. *)
Record OpsStack : Type := mkOps {
  ops : list (option TlbFlushOp);
  num_ops : Z;
  num_pages_to_flush : Z;
  page_keeper : list Handle
}.

Definition ops_new : OpsStack :=
  mkOps (replicate (Z.to_nat FLUSH_ALL_PAGES_THRESHOLD) None) 0 0 [].

Definition is_empty (s : OpsStack) : bool := (num_ops s =? 0) && (num_pages_to_flush s =? 0).
Definition need_flush_all (s : OpsStack) : bool := num_pages_to_flush s =? U32_MAX.

(** [self.ops[self.num_ops as usize].write(op); self.num_ops += 1] *)
Definition write_op (s : OpsStack) (op : TlbFlushOp) : outcome OpsStack :=
  if num_ops s <? Z.of_nat (length (ops s)) then
    unwrap (checked_add 32 (num_ops s) 1) ≫= λ n,
    Done (mkOps (<[Z.to_nat (num_ops s) := Some op]> (ops s)) n (num_pages_to_flush s) (page_keeper s))
  else Panic.

Definition set_flush_all (s : OpsStack) : OpsStack := mkOps (ops s) 0 U32_MAX (page_keeper s).

Definition add_pages (s : OpsStack) (n : Z) : outcome OpsStack :=
  unwrap (checked_add 32 (num_pages_to_flush s) n) ≫= λ n,
  Done (mkOps (ops s) (num_ops s) n (page_keeper s)).

Definition push (s : OpsStack) (op : TlbFlushOp) (drop_after_flush : option Handle) : outcome OpsStack :=
  let s := match drop_after_flush with
           | Some frame => mkOps (ops s) (num_ops s) (num_pages_to_flush s) (page_keeper s ++ [frame])
           | None => s
           end in
  if need_flush_all s then Done s
  else
    let op_num_pages := num_pages op in
    (if op =? for_all then Done true
     else unwrap (checked_add 32 (num_pages_to_flush s) op_num_pages) ≫= λ n,
          Done (FLUSH_ALL_PAGES_THRESHOLD <=? n)) ≫= λ all,
    if (all : bool) then Done (set_flush_all s)
    else write_op s op ≫= λ s, add_pages s op_num_pages.

(** [ops_iter]: the initialised entries. *)
Fixpoint init_ops (l : list (option TlbFlushOp)) : outcome (list TlbFlushOp) :=
  match l with
  | [] => Done []
  | Some op :: l => init_ops l ≫= λ r, Done (op :: r)
  | None :: _ => Panic
  end.
Definition ops_iter (s : OpsStack) : outcome (list TlbFlushOp) :=
  init_ops (take (Z.to_nat (num_ops s)) (ops s)).

Fixpoint write_ops (s : OpsStack) (l : list TlbFlushOp) : outcome OpsStack :=
  match l with [] => Done s | op :: l => write_op s op ≫= λ s, write_ops s l end.

Definition push_from (s other : OpsStack) : outcome OpsStack :=
  let s := mkOps (ops s) (num_ops s) (num_pages_to_flush s) (page_keeper s ++ page_keeper other) in
  if need_flush_all s then Done s
  else
    (if need_flush_all other then Done true
     else unwrap (checked_add 32 (num_pages_to_flush s) (num_pages_to_flush other)) ≫= λ n,
          Done (FLUSH_ALL_PAGES_THRESHOLD <=? n)) ≫= λ all,
    if (all : bool) then Done (set_flush_all s)
    else ops_iter other ≫= λ l, write_ops s l ≫= λ s, add_pages s (num_pages_to_flush other).

Definition clear_without_flush (s : OpsStack) : OpsStack := mkOps (ops s) 0 0 [].

(** [flush_all], on the TLB of the CPU that runs it. *)
Definition flush_all (s : OpsStack) (t : TLB) : outcome (OpsStack * TLB) :=
  (if need_flush_all s then Done (tlb_flush_all_excluding_global t)
   else ops_iter s ≫= λ l, Done (fold_left (λ t op, perform_on_current op t) l t)) ≫= λ t,
  Done (clear_without_flush s, t).

(** ** The machine *)

(** A CPU as seen from one address space: it does not use it; it is in
    [VmSpace::activate], after the addition to [cpus]; it runs with it; it is in
    the [activate] of another one, after the removal from [cpus]. *)
Inductive Mode : Type := Inactive | Entering | Active | Leaving.

(** [handling] is the queue that [do_remote_flush] has taken and not yet flushed. *)
Record Cpu : Type := mkCpu {
  tlb : TLB; flush_ops : OpsStack; ack_remote_flush : bool; handling : option OpsStack; mode : Mode
}.

(** Where a flusher is in [dispatch_tlb_flush]. *)
Inductive Phase : Type := Idle | Dispatching (rest : gset nat) (need_flush_on_self : bool).

Record Flusher : Type := mkFlusher {
  ops_stack : OpsStack; have_unsynced_flush : gset nat; on_cpu : nat; phase : Phase
}.

Record World : Type := mkWorld {
  mapped : gmap Z Z;
  cpus : gset nat;
  cpu : nat → Cpu;
  flusher : nat → Flusher
}.

Definition set_cpu (w : World) (c : nat) (x : Cpu) : World :=
  mkWorld (mapped w) (cpus w) (<[c := x]> (cpu w)) (flusher w).
Definition set_flusher (w : World) (f : nat) (x : Flusher) : World :=
  mkWorld (mapped w) (cpus w) (cpu w) (<[f := x]> (flusher w)).

Definition init_cpu : Cpu := mkCpu ∅ ops_new true None Inactive.
Definition init_world (home : nat → nat) : World :=
  mkWorld ∅ ∅ (λ _, init_cpu) (λ f, mkFlusher ops_new ∅ (home f) Idle).

(** [issue_tlb_flush] and [issue_tlb_flush_with] *)
Definition issue (x : Flusher) (op : TlbFlushOp) (h : option Handle) : outcome Flusher :=
  push (ops_stack x) op h ≫= λ st,
  Done (mkFlusher st (have_unsynced_flush x) (on_cpu x) (phase x)).

(** [dispatch_tlb_flush] up to its loop *)
Definition dispatch_start (w : World) (f : nat) : World :=
  let x := flusher w f in
  if is_empty (ops_stack x) then w
  else
    let cur_cpu := on_cpu x in
    set_flusher w f (mkFlusher (ops_stack x) (have_unsynced_flush x) cur_cpu
                               (Dispatching (cpus w ∖ {[cur_cpu]}) (bool_decide (cur_cpu ∈ cpus w)))).

(** One round of the loop, for the CPU [c]. *)
Definition dispatch_push (w : World) (f c : nat) : outcome World :=
  let x := flusher w f in
  let y := cpu w c in
  push_from (flush_ops y) (ops_stack x) ≫= λ q,
  let w := set_cpu w c (mkCpu (tlb y) q false (handling y) (mode y)) in
  match phase x with
  | Dispatching rest self =>
      Done (set_flusher w f (mkFlusher (ops_stack x) (have_unsynced_flush x ∪ {[c]}) (on_cpu x)
                                       (Dispatching (rest ∖ {[c]}) self)))
  | Idle => Panic
  end.

(** After the loop. *)
Definition dispatch_end (w : World) (f : nat) (self : bool) : outcome World :=
  let x := flusher w f in
  let y := cpu w (on_cpu x) in
  (if self then flush_all (ops_stack x) (tlb y)
   else Done (clear_without_flush (ops_stack x), tlb y)) ≫= λ '(st, t),
  Done (set_flusher (set_cpu w (on_cpu x) (mkCpu t (flush_ops y) (ack_remote_flush y) (handling y) (mode y)))
                    f (mkFlusher st (have_unsynced_flush x) (on_cpu x) Idle)).

(** [sync_tlb_flush] passes the CPU [c]. *)
Definition sync_pass (w : World) (f c : nat) : World :=
  let x := flusher w f in
  set_flusher w f (mkFlusher (ops_stack x) (have_unsynced_flush x ∖ {[c]}) (on_cpu x) (phase x)).

(** [do_remote_flush]: the critical section, and the rest. *)
Definition remote_take (w : World) (c : nat) : World :=
  let y := cpu w c in
  set_cpu w c (mkCpu (tlb y) ops_new true (Some (flush_ops y)) (mode y)).
Definition remote_flush (w : World) (c : nat) (st : OpsStack) : outcome World :=
  let y := cpu w c in
  flush_all st (tlb y) ≫= λ '(_, t),
  Done (set_cpu w c (mkCpu t (flush_ops y) (ack_remote_flush y) None (mode y))).

(** [VmSpace::activate] of this address space: the addition to [cpus], and the
    switch; of another one: the removal from [cpus], and the switch. Loading the
    page table root empties the TLB. *)
Definition set_mode (w : World) (c : nat) (cs : gset nat) (t : TLB) (m : Mode) : World :=
  let y := cpu w c in
  mkWorld (mapped w) cs (<[c := mkCpu t (flush_ops y) (ack_remote_flush y) (handling y) m]> (cpu w))
          (flusher w).
Definition activate_add (w : World) (c : nat) : World :=
  set_mode w c (cpus w ∪ {[c]}) (tlb (cpu w c)) Entering.
Definition activate_switch (w : World) (c : nat) : World := set_mode w c (cpus w) ∅ Active.
Definition leave_remove (w : World) (c : nat) : World :=
  set_mode w c (cpus w ∖ {[c]}) (tlb (cpu w c)) Leaving.
Definition leave_switch (w : World) (c : nat) : World := set_mode w c (cpus w) ∅ Inactive.

(** The pages of [a, b) and their frames. *)
Definition outside (a b : Z) (m : gmap Z Z) : gmap Z Z := filter (λ e, ¬ (a ≤ e.1 < b)) m.
Definition frames_in (a b : Z) (m : gmap Z Z) : list Z :=
  (map_to_list (filter (λ e : Z * Z, a ≤ e.1 < b) m)).*2.

Definition page_ok (p : Z) : Prop := 0 ≤ p < 2 ^ 47 ∧ (PAGE_SIZE | p).

Inductive step : World → World → Prop :=
| step_map w p fr :
    page_ok p → mapped w !! p = None →
    step w (mkWorld (<[p := fr]> (mapped w)) (cpus w) (cpu w) (flusher w))
| step_unmap_page w f p fr x :
    phase (flusher w f) = Idle → mapped w !! p = Some fr →
    issue (flusher w f) (for_single p) (Some [fr]) = Done x →
    step w (set_flusher (mkWorld (delete p (mapped w)) (cpus w) (cpu w) (flusher w)) f x)
| step_unmap_table w f a b pt op x :
    phase (flusher w f) = Idle → page_ok a → (PAGE_SIZE | b) → for_range a b = Done op →
    issue (flusher w f) op (Some (pt :: frames_in a b (mapped w))) = Done x →
    step w (set_flusher (mkWorld (outside a b (mapped w)) (cpus w) (cpu w) (flusher w)) f x)
| step_dispatch_start w f :
    phase (flusher w f) = Idle → step w (dispatch_start w f)
| step_dispatch_push w f c rest self w' :
    phase (flusher w f) = Dispatching rest self → c ∈ rest → dispatch_push w f c = Done w' → step w w'
| step_dispatch_end w f self w' :
    phase (flusher w f) = Dispatching ∅ self → dispatch_end w f self = Done w' → step w w'
| step_sync w f c :
    c ∈ have_unsynced_flush (flusher w f) → ack_remote_flush (cpu w c) = true → step w (sync_pass w f c)
| step_remote_take w c :
    handling (cpu w c) = None → step w (remote_take w c)
| step_remote_flush w c st w' :
    handling (cpu w c) = Some st → remote_flush w c st = Done w' → step w w'
| step_fill w c p fr :
    mode (cpu w c) = Active ∨ mode (cpu w c) = Leaving → mapped w !! p = Some fr →
    step w (set_mode w c (cpus w) (tlb (cpu w c) ∪ {[(p, fr)]}) (mode (cpu w c)))
| step_activate_add w c :
    mode (cpu w c) = Inactive → step w (activate_add w c)
| step_activate_switch w c :
    mode (cpu w c) = Entering → step w (activate_switch w c)
| step_leave_remove w c :
    mode (cpu w c) = Active → step w (leave_remove w c)
| step_leave_switch w c :
    mode (cpu w c) = Leaving → step w (leave_switch w c).

Definition reachable (w : World) : Prop := ∃ home, rtc step (init_world home) w.

(** ** Lemmas on operations *)

(** An operation for the [n] pages from [a]. *)
Record op_for (op : TlbFlushOp) (a n : Z) : Prop := mkOpFor {
  of_start : 0 ≤ a < 2 ^ 47;
  of_align : (PAGE_SIZE | a);
  of_pages : 1 ≤ n < FLUSH_ALL_PAGES_THRESHOLD;
  of_eq : op = Z.lor a n
}.

Definition op_ok (op : TlbFlushOp) : Prop := ∃ a n, op_for op a n.

Lemma low_bits a n : (PAGE_SIZE | a) → 0 ≤ n < 64 → ∀ i, 0 ≤ i →
  Z.testbit (Z.lor a n) i = if i <? 6 then Z.testbit n i else Z.testbit a i.
Proof.
  intros [q ->] Hn i Hi. rewrite Z.lor_spec. change PAGE_SIZE with (2 ^ 12).
  destruct (Z.ltb_spec i 6).
  - by rewrite Z.mul_pow2_bits_low by lia.
  - rewrite <- (Z.mod_small n (2 ^ 6)) by lia. rewrite Z.mod_pow2_bits_high by lia. apply orb_false_r.
Qed.

Lemma mask_bits i : 0 ≤ i → Z.testbit FLUSH_RANGE_NPAGES_MASK i = (i <? 6).
Proof.
  intros Hi. change FLUSH_RANGE_NPAGES_MASK with (Z.ones 6). rewrite Z.testbit_ones by lia.
  by destruct (Z.leb_spec 0 i); [| lia].
Qed.

Lemma op_decode op a n : op_for op a n →
  Z.land op FLUSH_RANGE_NPAGES_MASK = n ∧
  Z.land op (bit_not 64 FLUSH_RANGE_NPAGES_MASK) = a ∧ op ≠ FLUSH_ALL_VAL ∧ num_pages op = n.
Proof.
  intros [Ha Hd Hn ->]. unfold FLUSH_ALL_PAGES_THRESHOLD in Hn.
  pose proof (low_bits a n Hd ltac:(lia)) as Hb.
  assert (∀ x k, 0 ≤ x < 2 ^ k → ∀ i, 0 ≤ k ≤ i → Z.testbit x i = false) as Hhigh.
  { intros x k Hx i Hi. rewrite <- (Z.mod_small x (2 ^ k)) by done. by apply Z.mod_pow2_bits_high. }
  assert (Z.land (Z.lor a n) FLUSH_RANGE_NPAGES_MASK = n) as E1.
  { apply Z.bits_inj'. intros i Hi. rewrite Z.land_spec, Hb, mask_bits by done.
    destruct (Z.ltb_spec i 6); [by rewrite andb_true_r |]. rewrite andb_false_r.
    symmetry. apply (Hhigh n 6); lia. }
  assert (Z.lor a n ≠ FLUSH_ALL_VAL) as E3.
  { intros He. assert (Z.land FLUSH_ALL_VAL FLUSH_RANGE_NPAGES_MASK = n) as E by congruence.
    vm_compute in E. lia. }
  split; [done |]. split; [| split; [done |]].
  - apply Z.bits_inj'. intros i Hi. unfold bit_not. rewrite Z.land_spec, Z.ldiff_spec, Hb, mask_bits by done.
    rewrite Z.testbit_ones by lia. destruct (Z.leb_spec 0 i); [| lia].
    destruct (Z.ltb_spec i 6); cbn [negb andb].
    + rewrite andb_false_r, andb_false_r. destruct Hd as [q ->]. change PAGE_SIZE with (2 ^ 12).
      by rewrite Z.mul_pow2_bits_low by lia.
    + rewrite andb_true_r. destruct (Z.ltb_spec i 64); [apply andb_true_r |].
      rewrite andb_false_r. symmetry. apply (Hhigh a 47); lia.
  - unfold num_pages. destruct (Z.eqb_spec (Z.lor a n) FLUSH_ALL_VAL); [done |].
    rewrite E1. apply Z.mod_small. lia.
Qed.

Lemma for_single_ok p : page_ok p → op_for (for_single p) p 1.
Proof. intros [H1 H2]. by constructor. Qed.

Lemma for_range_ok a b : page_ok a → (PAGE_SIZE | b) → a < b →
  for_range a b = Done for_all ∨
  ∃ op n, for_range a b = Done op ∧ op_for op a n ∧ b = a + n * PAGE_SIZE.
Proof.
  intros [A1 A2] B2 Hab. unfold for_range. apply Z.mod_divide in A2 as Am, B2 as Bm; [| done ..].
  rewrite Am, Bm. cbn [Z.eqb assert_that mbind outcome_bind].
  destruct (Z.ltb_spec a b); [| lia]. cbn [assert_that mbind outcome_bind].
  destruct (Z.leb_spec FLUSH_ALL_PAGES_THRESHOLD ((b - a) / PAGE_SIZE)) as [|Hlt]; [by left | right].
  assert (PAGE_SIZE | b - a) as Hd by (by apply Z.divide_sub_r).
  assert (b - a = (b - a) / PAGE_SIZE * PAGE_SIZE) as Heq.
  { rewrite Z.mul_comm. apply Z.div_exact; [done |]. by apply Z.mod_divide. }
  exists (Z.lor a ((b - a) / PAGE_SIZE)), ((b - a) / PAGE_SIZE). split; [done |]. split; [| lia].
  constructor; try done. split; [| done]. unfold PAGE_SIZE in *. lia.
Qed.

(** *** Their effect on a TLB *)

Lemma flush_pages_elem n : ∀ a t e,
  e ∈ tlb_flush_pages n a t ↔ e ∈ t ∧ ∀ k, 0 ≤ k < Z.of_nat n → e.1 ≠ a + k * PAGE_SIZE.
Proof.
  induction n as [|n IH]; intros a t e; cbn [tlb_flush_pages].
  - split; [intros He; split; [done | lia] | by intros [He _]].
  - rewrite IH. unfold tlb_flush_addr. rewrite elem_of_filter. split.
    + intros [[H1 H2] H3]. split; [done |]. intros k Hk. destruct (decide (k = 0)) as [->|]; [lia |].
      specialize (H3 (k - 1) ltac:(lia)). lia.
    + intros [H1 H2]. split; [split; [| done] |].
      * specialize (H2 0 ltac:(lia)). lia.
      * intros k Hk. specialize (H2 (k + 1) ltac:(lia)). lia.
Qed.

Lemma perform_elem op a n t e : op_for op a n →
  e ∈ perform_on_current op t ↔ e ∈ t ∧ ∀ k, 0 ≤ k < n → e.1 ≠ a + k * PAGE_SIZE.
Proof.
  intros Ho. destruct (op_decode op a n Ho) as (D1 & D2 & D3 & _). destruct Ho as [_ _ Hn _].
  unfold perform_on_current. destruct (Z.eqb_spec op FLUSH_ALL_VAL); [done |]. rewrite D1, D2.
  destruct (Z.eqb_spec n 1) as [->|].
  - unfold tlb_flush_addr. rewrite elem_of_filter. split.
    + intros [H1 H2]. split; [done |]. intros k Hk. replace k with 0 by lia. lia.
    + intros [H1 H2]. split; [| done]. specialize (H2 0 ltac:(lia)). lia.
  - unfold tlb_flush_addr_range.
    replace ((a + n * PAGE_SIZE - a + (PAGE_SIZE - 1)) / PAGE_SIZE) with n.
    + rewrite flush_pages_elem. by rewrite Z2Nat.id by (unfold FLUSH_ALL_PAGES_THRESHOLD in Hn; lia).
    + apply (Z.div_unique _ _ _ (PAGE_SIZE - 1)); unfold PAGE_SIZE; lia.
Qed.

(** The pages of an operation. *)
Definition in_op (op : TlbFlushOp) (p : Z) : Prop :=
  ∃ a n, op_for op a n ∧ a ≤ p < a + n * PAGE_SIZE.

Lemma perform_removes op p fr t : page_ok p → in_op op p → (p, fr) ∉ perform_on_current op t.
Proof.
  intros [_ [q Hq]] (a & n & Ho & Hr) Hin. apply (perform_elem op a n) in Hin as [_ Hno]; [| done].
  destruct (of_align _ _ _ Ho) as [q' Hq']. apply (Hno (q - q')); cbn; unfold PAGE_SIZE in *; lia.
Qed.

Lemma perform_subset op t : op_ok op → perform_on_current op t ⊆ t.
Proof. intros (a & n & Ho) e He. by apply (perform_elem op a n) in He as [? _]. Qed.

(** ** Lemmas on stacks *)

Definition sum_pages (l : list TlbFlushOp) : Z := foldr (λ op n, num_pages op + n) 0 l.

Lemma sum_pages_app l l' : sum_pages (l ++ l') = sum_pages l + sum_pages l'.
Proof. induction l as [|op l IH]; [done |]. cbn. unfold sum_pages in *. lia. Qed.

Lemma op_ok_pages op : op_ok op → 1 ≤ num_pages op < FLUSH_ALL_PAGES_THRESHOLD ∧ op ≠ for_all.
Proof.
  intros (a & n & Ho). destruct (op_decode op a n Ho) as (_ & _ & H3 & ->). split; [apply Ho | done].
Qed.

Lemma sum_pages_length l : Forall op_ok l → Z.of_nat (length l) ≤ sum_pages l.
Proof.
  induction 1 as [|op l Ho _ IH]; [done |]. apply op_ok_pages in Ho as [? _].
  cbn. unfold sum_pages in *. lia.
Qed.

(** The stack holds the operations [l] and does not ask to flush everything. *)
Record holds_list (s : OpsStack) (l : list TlbFlushOp) : Prop := mkHolds {
  hl_len : length (ops s) = Z.to_nat FLUSH_ALL_PAGES_THRESHOLD;
  hl_num : num_ops s = Z.of_nat (length l);
  hl_ops : take (length l) (ops s) = Some <$> l;
  hl_ok : Forall op_ok l
}.

Definition stack_ok (s : OpsStack) : Prop :=
  length (ops s) = Z.to_nat FLUSH_ALL_PAGES_THRESHOLD ∧
  ((need_flush_all s = true ∧ num_ops s = 0) ∨
   ∃ l, holds_list s l ∧ num_pages_to_flush s = sum_pages l ∧ sum_pages l < FLUSH_ALL_PAGES_THRESHOLD).

(** The page [p] will be flushed; the frame [fr] is kept alive until then. *)
Definition covers (s : OpsStack) (p : Z) : Prop :=
  need_flush_all s = true ∨
  ∃ op, Some op ∈ take (Z.to_nat (num_ops s)) (ops s) ∧ in_op op p.
Definition kept (s : OpsStack) (fr : Z) : Prop := ∃ h, h ∈ page_keeper s ∧ fr ∈ h.

Lemma holds_covers s l p : holds_list s l → need_flush_all s = false →
  covers s p ↔ ∃ op, op ∈ l ∧ in_op op p.
Proof.
  intros [_ H2 H3 _] Hf. unfold covers. rewrite Hf, H2, Nat2Z.id, H3. split.
  - intros [|(op & Ho & Hi)]; [done |]. apply list_elem_of_fmap in Ho as (op' & [= ->] & Ho). by exists op'.
  - intros (op & Ho & Hi). right. exists op. split; [| done]. by apply list_elem_of_fmap_2.
Qed.

Lemma write_op_ok s l op : holds_list s l → op_ok op →
  Z.of_nat (length l) < FLUSH_ALL_PAGES_THRESHOLD →
  ∃ s', write_op s op = Done s' ∧ holds_list s' (l ++ [op]) ∧
    num_pages_to_flush s' = num_pages_to_flush s ∧ page_keeper s' = page_keeper s.
Proof.
  intros [H1 H2 H3 H4] Ho Hl. unfold write_op. rewrite H1, H2. unfold FLUSH_ALL_PAGES_THRESHOLD in *.
  destruct (Z.ltb_spec (Z.of_nat (length l)) (Z.of_nat (Z.to_nat 32))); [| lia]. unfold checked_add.
  destruct (Z.ltb_spec (Z.of_nat (length l) + 1) (2 ^ 32)); [| lia]. cbn [unwrap mbind outcome_bind].
  eexists. split; [done |]. split; [| done]. constructor; cbn.
  - by rewrite length_insert.
  - rewrite length_app. cbn. lia.
  - rewrite length_app, Nat2Z.id. cbn. rewrite fmap_app, <- H3, Nat.add_1_r.
    rewrite (take_S_r _ _ (Some op)) by (apply list_lookup_insert_eq; lia).
    by rewrite take_insert_ge by lia.
  - apply Forall_app. split; [done | by constructor].
Qed.

Lemma write_ops_ok l' : ∀ s l, holds_list s l → Forall op_ok l' →
  Z.of_nat (length l) + Z.of_nat (length l') ≤ FLUSH_ALL_PAGES_THRESHOLD →
  ∃ s', write_ops s l' = Done s' ∧ holds_list s' (l ++ l') ∧
    num_pages_to_flush s' = num_pages_to_flush s ∧ page_keeper s' = page_keeper s.
Proof.
  induction l' as [|op l' IH]; intros s l Hs Hl' Hlen; cbn [write_ops].
  { exists s. by rewrite app_nil_r. }
  apply Forall_cons in Hl' as [Ho Hl']. cbn in Hlen.
  destruct (write_op_ok s l op Hs Ho ltac:(lia)) as (s1 & -> & H1 & H2 & H3). cbn [mbind outcome_bind].
  destruct (IH s1 (l ++ [op]) H1 Hl') as (s' & -> & H4 & H5 & H6); [rewrite length_app; cbn; lia |].
  exists s'. split; [done |]. rewrite <- app_assoc in H4. split; [done |]. split; congruence.
Qed.

Lemma holds_iter s l : holds_list s l → ops_iter s = Done l.
Proof.
  intros [_ H2 H3 _]. unfold ops_iter. rewrite H2, Nat2Z.id, H3. clear. induction l as [|op l IH]; [done |].
  cbn. by rewrite IH.
Qed.

Lemma holds_with s l n k : holds_list s l → holds_list (mkOps (ops s) (num_ops s) n k) l.
Proof. intros [H1 H2 H3 H4]. by constructor. Qed.

Lemma not_all s l : num_pages_to_flush s = sum_pages l → sum_pages l < FLUSH_ALL_PAGES_THRESHOLD →
  need_flush_all s = false.
Proof.
  intros Hs Hlt. apply Z.eqb_neq. unfold U32_MAX, FLUSH_ALL_PAGES_THRESHOLD in *. lia.
Qed.

Lemma set_flush_all_ok s : length (ops s) = Z.to_nat FLUSH_ALL_PAGES_THRESHOLD →
  stack_ok (set_flush_all s) ∧ ∀ p, covers (set_flush_all s) p.
Proof. intros Hl. split; [split; [done | by left] | by left]. Qed.

(** What an operation that is pushed must be. *)
Definition pushable (op : TlbFlushOp) : Prop := op = for_all ∨ op_ok op.
Definition op_covers (op : TlbFlushOp) (p : Z) : Prop := op = for_all ∨ in_op op p.
Definition handles (h : option Handle) : list Handle := match h with Some h => [h] | None => [] end.

(** The two outcomes of adding operations to a stack that does not flush
    everything: flush everything, or [l'] is appended. *)
Lemma append_ok s l l' n k :
  holds_list s l → num_pages_to_flush s = sum_pages l → Forall op_ok l' → n = sum_pages l' →
  sum_pages l + n < FLUSH_ALL_PAGES_THRESHOLD →
  let s0 := mkOps (ops s) (num_ops s) (num_pages_to_flush s) k in
  ∃ s', (write_ops s0 l' ≫= λ s, add_pages s n) = Done s' ∧ stack_ok s' ∧ page_keeper s' = k ∧
    (∀ p, covers s p → covers s' p) ∧ ∀ p op, op ∈ l' → in_op op p → covers s' p.
Proof.
  intros Hs Hn Hl' -> Hlt s0. pose proof (sum_pages_length l (hl_ok _ _ Hs)).
  pose proof (sum_pages_length l' Hl').
  destruct (write_ops_ok l' s0 l) as (s1 & -> & H1 & H2 & H3); [by apply holds_with | done | lia |].
  cbn [mbind outcome_bind]. unfold add_pages, checked_add. rewrite H2. cbn [num_pages_to_flush s0]. rewrite Hn.
  unfold FLUSH_ALL_PAGES_THRESHOLD in *.
  destruct (Z.ltb_spec (sum_pages l + sum_pages l') (2 ^ 32)); [| lia]. cbn [unwrap mbind outcome_bind].
  set (s2 := mkOps (ops s1) (num_ops s1) (sum_pages l + sum_pages l') (page_keeper s1)).
  assert (holds_list s2 (l ++ l')) as Hs2 by (by apply holds_with).
  assert (num_pages_to_flush s2 = sum_pages (l ++ l')) as Hn2 by (by rewrite sum_pages_app).
  assert (need_flush_all s2 = false) as Hf2.
  { apply (not_all s2 (l ++ l')); [done | rewrite sum_pages_app; unfold FLUSH_ALL_PAGES_THRESHOLD; lia]. }
  assert (need_flush_all s = false) as Hf by (apply (not_all s l); [done | unfold FLUSH_ALL_PAGES_THRESHOLD; lia]).
  exists s2. split; [done |]. split.
  { split; [apply Hs2 |]. right. exists (l ++ l'). split; [done |]. split; [done |].
    rewrite sum_pages_app. unfold FLUSH_ALL_PAGES_THRESHOLD. lia. }
  split; [exact H3 |]. split.
  - intros p. rewrite (holds_covers s l p), (holds_covers s2 (l ++ l') p) by done. set_solver.
  - intros p op Ho Hi. apply (holds_covers s2 (l ++ l') p); [done | done |]. exists op. set_solver.
Qed.

Lemma push_ok s op h : stack_ok s → pushable op →
  ∃ s', push s op h = Done s' ∧ stack_ok s' ∧ page_keeper s' = page_keeper s ++ handles h ∧
    (∀ p, covers s p → covers s' p) ∧ ∀ p, op_covers op p → covers s' p.
Proof.
  intros [Hlen Hs] Hop. unfold push.
  set (s0 := match h with Some _ => _ | None => s end).
  assert (s0 = mkOps (ops s) (num_ops s) (num_pages_to_flush s) (page_keeper s ++ handles h)) as ->.
  { unfold s0. destruct h; [done |]. cbn. rewrite app_nil_r. by destruct s. }
  unfold need_flush_all at 1. cbn [num_pages_to_flush]. fold (need_flush_all s).
  destruct Hs as [[Hf Hn]|(l & Hl & Hn & Hlt)].
  { rewrite Hf. eexists. split; [done |]. split; [split; [done | by left] |]. split; [done |].
    split; intros p _; by left. }
  rewrite (not_all s l) by done. set (s1 := mkOps _ _ _ _).
  destruct (set_flush_all_ok s1 Hlen) as [A1 A2].
  destruct (Z.eqb_spec op for_all) as [->|Hne]; cbn [mbind outcome_bind].
  { exists (set_flush_all s1). split; [done |]. split; [done |]. split; [done |]. split; intros; apply A2. }
  destruct Hop as [|Hop]; [done |]. apply op_ok_pages in Hop as Hp. destruct Hp as [Hp _].
  unfold checked_add. cbn [num_pages_to_flush s1]. rewrite Hn. unfold FLUSH_ALL_PAGES_THRESHOLD in *.
  destruct (Z.ltb_spec (sum_pages l + num_pages op) (2 ^ 32)); [| lia]. cbn [unwrap mbind outcome_bind].
  destruct (Z.leb_spec 32 (sum_pages l + num_pages op)).
  { exists (set_flush_all s1). split; [done |]. split; [done |]. split; [done |]. split; intros; apply A2. }
  destruct (append_ok s l [op] (num_pages op) (page_keeper s ++ handles h)) as (s' & Hrun & H1 & H2 & H3 & H4);
    try done; [by constructor | cbn; lia |].
  cbn [write_ops] in Hrun. fold s1 in Hrun. exists s'. split.
  - destruct (write_op s1 op); done.
  - split; [done |]. split; [done |]. split; [done |]. intros p [|Hi]; [done |].
    apply (H4 p op); [set_solver | done].
Qed.

Lemma push_from_ok s o : stack_ok s → stack_ok o →
  ∃ s', push_from s o = Done s' ∧ stack_ok s' ∧ page_keeper s' = page_keeper s ++ page_keeper o ∧
    ∀ p, covers s p ∨ covers o p → covers s' p.
Proof.
  intros [Hlen Hs] [_ Ho]. unfold push_from. unfold need_flush_all at 1. cbn [num_pages_to_flush].
  fold (need_flush_all s). set (s1 := mkOps _ _ _ _). destruct (set_flush_all_ok s1 Hlen) as [A1 A2].
  destruct Hs as [[Hf Hn]|(l & Hl & Hn & Hlt)].
  { rewrite Hf. eexists. split; [done |]. split; [split; [done | by left] |]. split; [done |].
    intros p _. by left. }
  rewrite (not_all s l) by done. destruct Ho as [[Hf Hno]|(l' & Hl' & Hn' & Hlt')].
  { rewrite Hf. cbn [mbind outcome_bind]. exists (set_flush_all s1). split; [done |]. split; [done |].
    split; [done |]. intros; apply A2. }
  rewrite (not_all o l') by done. unfold checked_add. cbn [num_pages_to_flush s1]. rewrite Hn, Hn'.
  unfold FLUSH_ALL_PAGES_THRESHOLD in *.
  destruct (Z.ltb_spec (sum_pages l + sum_pages l') (2 ^ 32)); [| lia]. cbn [unwrap mbind outcome_bind].
  destruct (Z.leb_spec 32 (sum_pages l + sum_pages l')).
  { exists (set_flush_all s1). split; [done |]. split; [done |]. split; [done |]. intros; apply A2. }
  rewrite (holds_iter o l') by done. cbn [mbind outcome_bind].
  destruct (append_ok s l l' (sum_pages l') (page_keeper s ++ page_keeper o)) as (s' & Hrun & H1 & H2 & H3 & H4);
    try done; [by apply Hl' |].
  exists s'. rewrite <- Hrun. unfold s1. rewrite Hn. split; [done |]. split; [done |]. split; [done |].
  intros p [Hp|Hp]; [by apply H3 |]. apply (holds_covers o l' p) in Hp as (op & Ho & Hi); [by apply (H4 p op) | done |].
  by apply (not_all o l').
Qed.

Lemma fold_perform l : ∀ t, Forall op_ok l →
  fold_left (λ t op, perform_on_current op t) l t ⊆ t ∧
  ∀ op p fr, op ∈ l → page_ok p → in_op op p → (p, fr) ∉ fold_left (λ t op, perform_on_current op t) l t.
Proof.
  induction l as [|o l IH]; intros t Hl; cbn [fold_left]; [set_solver |].
  apply Forall_cons in Hl as [Ho Hl]. destruct (IH (perform_on_current o t) Hl) as [H1 H2].
  pose proof (perform_subset o t Ho) as H3. split; [set_solver |].
  intros op p fr [->|Hop]%elem_of_cons Hp Hi; [| by apply (H2 op)].
  intros Hin%H1. by apply (perform_removes o p fr t).
Qed.

Lemma flush_all_ok s t : stack_ok s →
  ∃ t', flush_all s t = Done (clear_without_flush s, t') ∧ t' ⊆ t ∧
    ∀ p fr, page_ok p → covers s p → (p, fr) ∉ t'.
Proof.
  intros [Hlen [[Hf Hn]|(l & Hl & Hn & Hlt)]]; unfold flush_all.
  - rewrite Hf. exists ∅. split; [done |]. set_solver.
  - rewrite (not_all s l) by done. rewrite (holds_iter s l) by done. cbn [mbind outcome_bind].
    destruct (fold_perform l t (hl_ok _ _ Hl)) as [H1 H2]. eexists. split; [done |]. split; [done |].
    intros p fr Hp Hc. apply (holds_covers s l p) in Hc as (op & Ho & Hi); [by apply (H2 op) | done |].
    by apply (not_all s l).
Qed.

Lemma empty_stack s : is_empty s = true → ∀ p, ¬ covers s p.
Proof.
  intros [Hn%Z.eqb_eq Hp%Z.eqb_eq]%andb_true_iff p [Hf|(op & Ho & _)].
  - unfold need_flush_all in Hf. rewrite Hp in Hf. done.
  - rewrite Hn in Ho. cbn in Ho. set_solver.
Qed.

Lemma cleared_ok s : stack_ok s → stack_ok (clear_without_flush s).
Proof.
  intros [Hlen _]. split; [done |]. right. exists []. split; [| done]. by constructor.
Qed.

Lemma ops_new_ok : stack_ok ops_new.
Proof. split; [done |]. right. exists []. split; [| done]. by constructor. Qed.

(** ** The invariant *)

(** The entry [p], [fr] will be flushed from a CPU with the frame kept until then. *)
Definition holds (s : OpsStack) (p fr : Z) : Prop := covers s p ∧ kept s fr.

(** The flusher still has to send its operations to the CPU [c]. *)
Definition aimed (x : Flusher) (c : nat) : Prop :=
  match phase x with
  | Idle => True
  | Dispatching rest self => c ∈ rest ∨ (c = on_cpu x ∧ self = true)
  end.

Definition pending (w : World) (c : nat) (p fr : Z) : Prop :=
  mapped w !! p = Some fr ∨
  (∃ f, holds (ops_stack (flusher w f)) p fr ∧ aimed (flusher w f) c) ∨
  holds (flush_ops (cpu w c)) p fr ∨
  ∃ st, handling (cpu w c) = Some st ∧ holds st p fr.

Record cpu_ok (cs : gset nat) (c : nat) (y : Cpu) : Prop := mkCpuOk {
  ck_queue : stack_ok (flush_ops y);
  ck_handling : ∀ st, handling y = Some st → stack_ok st;
  ck_pages : ∀ p fr, (p, fr) ∈ tlb y → page_ok p;
  ck_ack : ack_remote_flush y = true → is_empty (flush_ops y) = true;
  ck_mode : mode y = Active ∨ mode y = Entering → c ∈ cs
}.

Record inv (w : World) : Prop := mkInv {
  in_mapped : ∀ p fr, mapped w !! p = Some fr → page_ok p;
  in_cpus : ∀ c, cpu_ok (cpus w) c (cpu w c);
  in_flushers : ∀ f, stack_ok (ops_stack (flusher w f));
  in_pending : ∀ c p fr, mode (cpu w c) = Active → (p, fr) ∈ tlb (cpu w c) → pending w c p fr
}.

Lemma cpu_set w c x c' : cpu (set_cpu w c x) c' = if decide (c' = c) then x else cpu w c'.
Proof. cbn. destruct (decide (c' = c)) as [->|]; [by rewrite fn_lookup_insert | by rewrite fn_lookup_insert_ne]. Qed.

Lemma flusher_set w f x f' : flusher (set_flusher w f x) f' = if decide (f' = f) then x else flusher w f'.
Proof. cbn. destruct (decide (f' = f)) as [->|]; [by rewrite fn_lookup_insert | by rewrite fn_lookup_insert_ne]. Qed.

Lemma holds_push s s' p fr h :
  (∀ p, covers s p → covers s' p) → page_keeper s' = page_keeper s ++ h → holds s p fr → holds s' p fr.
Proof.
  intros Hc Hk [H1 (x & H2 & H3)]. split; [by apply Hc |]. exists x. rewrite Hk. set_solver.
Qed.

Lemma for_range_pushable a b op : page_ok a → (PAGE_SIZE | b) → for_range a b = Done op → a < b ∧ pushable op.
Proof.
  intros Ha Hb Hop. assert (a < b) as Hab.
  { unfold for_range in Hop. apply bind_done in Hop as (_ & _ & Hop). apply bind_done in Hop as (_ & _ & Hop).
    apply bind_done in Hop as (_ & ?%assert_done%Z.ltb_lt & _). done. }
  split; [done |]. destruct (for_range_ok a b Ha Hb Hab) as [E|(op' & n & E & Ho & _)]; rewrite E in Hop; injection Hop as <-;
    [by left | right; by exists a, n].
Qed.

(** Pages are taken out of the page table and handed to a flusher. *)
Lemma inv_issue w f op h x m' :
  inv w → phase (flusher w f) = Idle → pushable op →
  (∀ p fr, m' !! p = Some fr → mapped w !! p = Some fr) →
  (∀ p fr, mapped w !! p = Some fr → m' !! p = Some fr ∨ (op_covers op p ∧ fr ∈ h)) →
  issue (flusher w f) op (Some h) = Done x →
  inv (set_flusher (mkWorld m' (cpus w) (cpu w) (flusher w)) f x).
Proof.
  intros [I1 I2 I3 I4] Hid Hop Hsub Hrem Hx. unfold issue in Hx.
  destruct (push_ok (ops_stack (flusher w f)) op (Some h) (I3 f) Hop) as (st & Hst & S1 & S2 & S3 & S4).
  rewrite Hst in Hx. injection Hx as <-. constructor.
  - intros p fr Hp. apply (I1 p fr). by apply Hsub.
  - exact I2.
  - intros f'. rewrite flusher_set. destruct (decide (f' = f)); [done | apply I3].
  - intros c p fr Hm Ht. destruct (I4 c p fr Hm Ht) as [Hp|[(f' & Hh & Ha)|Hq]].
    + destruct (Hrem p fr Hp) as [Hp'|[Hc Hf]]; [by left |]. right. left. exists f.
      rewrite flusher_set. destruct (decide _); [| done]. split; [| by cbn; rewrite Hid].
      split; [by apply S4 |]. exists h. cbn [ops_stack]. rewrite S2. set_solver.
    + right. left. exists f'. rewrite flusher_set. destruct (decide (f' = f)) as [->|]; [| done].
      split; [by apply (holds_push (ops_stack (flusher w f)) _ p fr (handles (Some h))) |].
      unfold aimed in *. cbn [phase on_cpu]. done.
    + by right; right.
Qed.

Lemma inv_start w f : inv w → phase (flusher w f) = Idle → inv (dispatch_start w f).
Proof.
  intros [I1 I2 I3 I4] Hid. unfold dispatch_start. destruct (is_empty _); [done |]. constructor; try done.
  - intros f'. rewrite flusher_set. destruct (decide (f' = f)); [apply I3 | apply I3].
  - intros c p fr Hm Ht. destruct (I4 c p fr Hm Ht) as [Hp|[(f' & Hh & Ha)|Hq]]; [by left | | by right; right].
    right. left. exists f'. rewrite flusher_set. destruct (decide (f' = f)) as [->|]; [| done].
    split; [done |]. unfold aimed. cbn [phase on_cpu].
    assert (c ∈ cpus w) as Hc by (apply (ck_mode _ _ _ (I2 c)); by left).
    destruct (decide (c = on_cpu (flusher w f))) as [->|]; [right | left; set_solver].
    split; [done |]. by apply bool_decide_eq_true_2.
Qed.

Lemma inv_dispatch_push w f c rest self w' :
  inv w → phase (flusher w f) = Dispatching rest self → dispatch_push w f c = Done w' → inv w'.
Proof.
  intros [I1 I2 I3 I4] Hph Hrun. unfold dispatch_push in Hrun. rewrite Hph in Hrun.
  destruct (push_from_ok (flush_ops (cpu w c)) (ops_stack (flusher w f))) as (q & Hq & Q1 & Q2 & Q3);
    [apply (I2 c) | apply I3 |].
  rewrite Hq in Hrun. injection Hrun as <-. pose proof (I2 c) as [C1 C2 C3 C4 C5]. constructor; try done.
  - intros c'. cbn [cpus set_flusher set_cpu]. change (cpu (set_flusher ?a f ?b) c') with (cpu a c').
    rewrite cpu_set. destruct (decide (c' = c)) as [->|]; [by constructor | apply I2].
  - intros f'. rewrite flusher_set. destruct (decide (f' = f)); [apply I3 | apply I3].
  - intros c' p fr. change (cpu (set_flusher ?a f ?b) c') with (cpu a c'). rewrite cpu_set. intros Hm Ht.
    assert (mode (cpu w c') = Active ∧ (p, fr) ∈ tlb (cpu w c')) as [Hm' Ht'].
    { destruct (decide (c' = c)) as [->|]; done. }
    unfold pending. change (cpu (set_flusher ?a f ?b) c') with (cpu a c'). rewrite cpu_set.
    destruct (I4 c' p fr Hm' Ht') as [Hp|[(f' & Hh & Ha)|[Hh|Hh]]]; [by left | | |].
    + destruct (decide (f' = f)) as [->|Hne].
      * unfold aimed in Ha. rewrite Hph in Ha. destruct (decide (c' = c)) as [->|Hcc].
        -- right. right. left. cbn [flush_ops]. destruct Hh as [H1 (h & H2 & H3)].
           split; [apply Q3; by right |]. exists h. rewrite Q2. set_solver.
        -- right. left. exists f. rewrite flusher_set. destruct (decide (f = f)); [| done].
           split; [done |]. unfold aimed. cbn [phase on_cpu]. set_solver.
      * right. left. exists f'. rewrite flusher_set. by destruct (decide (f' = f)).
    + right. right. left. destruct (decide (c' = c)) as [->|]; [| done].
      apply (holds_push (flush_ops (cpu w c)) _ p fr (page_keeper (ops_stack (flusher w f)))); try done.
      intros p' Hp'. apply Q3. by left.
    + right. right. right. destruct (decide (c' = c)) as [->|]; done.
Qed.

Lemma inv_dispatch_end w f self w' :
  inv w → phase (flusher w f) = Dispatching ∅ self → dispatch_end w f self = Done w' → inv w'.
Proof.
  intros [I1 I2 I3 I4] Hph Hrun. unfold dispatch_end in Hrun. set (x := flusher w f) in *.
  pose proof (I2 (on_cpu x)) as [C1 C2 C3 C4 C5].
  assert (∃ t', (if self then flush_all (ops_stack x) (tlb (cpu w (on_cpu x)))
    else Done (clear_without_flush (ops_stack x), tlb (cpu w (on_cpu x)))) =
    Done (clear_without_flush (ops_stack x), t') ∧ t' ⊆ tlb (cpu w (on_cpu x)) ∧
    (self = true → ∀ p fr, page_ok p → covers (ops_stack x) p → (p, fr) ∉ t')) as (t' & Ht' & Hsub & Hrem).
  { destruct self; [| by exists (tlb (cpu w (on_cpu x)))].
    destruct (flush_all_ok (ops_stack x) (tlb (cpu w (on_cpu x))) (I3 f)) as (t' & H1 & H2 & H3). by exists t'. }
  rewrite Ht' in Hrun. injection Hrun as <-. constructor; try done.
  - intros c'. cbn [cpus set_flusher set_cpu]. change (cpu (set_flusher ?a f ?b) c') with (cpu a c').
    rewrite cpu_set. destruct (decide (c' = on_cpu x)) as [->|]; [| apply I2].
    constructor; try done. cbn [tlb]. intros p fr Hp. by apply (C3 p fr), Hsub.
  - intros f'. rewrite flusher_set. destruct (decide (f' = f)); [apply cleared_ok, (I3 f) | apply I3].
  - intros c' p fr. change (cpu (set_flusher ?a f ?b) c') with (cpu a c'). rewrite cpu_set. intros Hm Ht.
    assert (mode (cpu w c') = Active ∧ (p, fr) ∈ tlb (cpu w c')) as [Hm' Hin].
    { destruct (decide (c' = on_cpu x)) as [->|]; [cbn in *; set_solver | done]. }
    unfold pending. change (cpu (set_flusher ?a f ?b) c') with (cpu a c'). rewrite cpu_set.
    destruct (I4 c' p fr Hm' Hin) as [Hp|[(f' & Hh & Ha)|[Hh|Hh]]]; [by left | | |].
    + destruct (decide (f' = f)) as [->|Hne].
      * exfalso. unfold aimed in Ha. fold x in Ha. rewrite Hph in Ha. destruct Ha as [Ha|[-> ->]]; [set_solver |].
        destruct (decide _); [| done]. cbn [tlb] in Ht. apply (Hrem eq_refl p fr); [| apply Hh | done].
        by apply (C3 p fr).
      * right. left. exists f'. rewrite flusher_set. by destruct (decide (f' = f)).
    + right. right. left. destruct (decide (c' = on_cpu x)) as [->|]; done.
    + right. right. right. destruct (decide (c' = on_cpu x)) as [->|]; done.
Qed.

(** A step of the CPU [c] alone that keeps what is pending for it. *)
Lemma inv_cpu w c cs y :
  inv w → (∀ c', c' ≠ c → c' ∈ cpus w → c' ∈ cs) → cpu_ok cs c y →
  (∀ p fr, mode y = Active → (p, fr) ∈ tlb y →
     mapped w !! p = Some fr ∨
     (∃ f, holds (ops_stack (flusher w f)) p fr ∧ aimed (flusher w f) c) ∨
     holds (flush_ops y) p fr ∨ ∃ st, handling y = Some st ∧ holds st p fr) →
  inv (mkWorld (mapped w) cs (<[c := y]> (cpu w)) (flusher w)).
Proof.
  intros [I1 I2 I3 I4] Hcs Hy Hp. constructor; try done; cbn [cpu cpus].
  - intros c'. destruct (decide (c' = c)) as [->|Hne]; [by rewrite fn_lookup_insert |].
    rewrite fn_lookup_insert_ne by done. destruct (I2 c') as [C1 C2 C3 C4 C5]. constructor; try done.
    intros Hm. by apply Hcs, C5.
  - intros c' p fr. unfold pending. cbn [cpu mapped flusher].
    destruct (decide (c' = c)) as [->|Hne]; [rewrite fn_lookup_insert; apply Hp |].
    rewrite fn_lookup_insert_ne by done. intros Hm Ht. by apply (I4 c' p fr).
Qed.

Lemma inv_remote_take w c : inv w → handling (cpu w c) = None → inv (remote_take w c).
Proof.
  intros Hi Hh. pose proof Hi as [_ I2 _ I4]. destruct (I2 c) as [C1 C2 C3 C4 C5].
  apply inv_cpu; [done | done | |].
  - constructor; cbn; try done; [apply ops_new_ok | by intros st [= <-]].
  - cbn. intros p fr Hm Ht. destruct (I4 c p fr Hm Ht) as [|[|[Hq|(st & Hst & _)]]]; [by left | by right; left | |].
    + right. right. right. by eexists.
    + congruence.
Qed.

Lemma inv_remote_flush w c st w' :
  inv w → handling (cpu w c) = Some st → remote_flush w c st = Done w' → inv w'.
Proof.
  intros Hi Hh Hrun. pose proof Hi as [_ I2 _ I4]. destruct (I2 c) as [C1 C2 C3 C4 C5].
  destruct (flush_all_ok st (tlb (cpu w c)) (C2 st Hh)) as (t' & Hf & Hsub & Hrem).
  unfold remote_flush in Hrun. rewrite Hf in Hrun. injection Hrun as <-.
  apply inv_cpu; [done | done | |].
  - constructor; cbn; try done. intros p fr Hp. by apply (C3 p fr), Hsub.
  - cbn. intros p fr Hm Ht. assert ((p, fr) ∈ tlb (cpu w c)) as Hin by set_solver.
    destruct (I4 c p fr Hm Hin) as [|[|[Hq|(st' & Hst & Hc)]]]; [by left | by right; left | by right; right; left |].
    exfalso. rewrite Hh in Hst. injection Hst as <-. apply (Hrem p fr); [by apply (C3 p fr) | apply Hc | done].
Qed.

Lemma inv_fill w c p fr : inv w → mode (cpu w c) = Active ∨ mode (cpu w c) = Leaving →
  mapped w !! p = Some fr →
  inv (set_mode w c (cpus w) (tlb (cpu w c) ∪ {[(p, fr)]}) (mode (cpu w c))).
Proof.
  intros Hi Hmode Hp. pose proof Hi as [I1 I2 _ I4]. destruct (I2 c) as [C1 C2 C3 C4 C5].
  apply inv_cpu; [done | done | |].
  - constructor; cbn; try done. intros p' fr' [Hin|[= -> ->]%elem_of_singleton]%elem_of_union;
      [by apply (C3 p' fr') | by apply (I1 p fr)].
  - cbn. intros p' fr' Hm [Hin|[= -> ->]%elem_of_singleton]%elem_of_union; [| by left].
    by apply (I4 c p' fr').
Qed.

(** Entering and leaving the address space. *)
Lemma inv_mode w c cs t m :
  inv w → (∀ c', c' ≠ c → c' ∈ cpus w → c' ∈ cs) → t ⊆ tlb (cpu w c) →
  (m = Active → t = ∅) → (m = Active ∨ m = Entering → c ∈ cs) → inv (set_mode w c cs t m).
Proof.
  intros Hi Hcs Ht Hm Hc. pose proof Hi as [_ I2 _ _]. destruct (I2 c) as [C1 C2 C3 C4 C5].
  apply inv_cpu; [done | done | |].
  - constructor; cbn; try done. intros p fr Hp. by apply (C3 p fr), Ht.
  - cbn. intros p fr Ha. rewrite (Hm Ha). set_solver.
Qed.

Lemma tlb_inv_step w w' : inv w → step w w' → inv w'.
Proof.
  intros Hi Hs. pose proof Hi as [I1 I2 I3 I4].
  destruct Hs as [w p fr Hok Hp|w f p fr x Hid Hp Hx|w f a b pt op x Hid Ha Hb Hop Hx|w f Hid
    |w f c rest self w' Hph Hc Hrun|w f self w' Hph Hrun|w f c Hc Hack|w c Hh|w c st w' Hh Hrun
    |w c p fr Hm Hp|w c Hm|w c Hm|w c Hm|w c Hm].
  - constructor; try done; cbn [mapped].
    + intros p' fr'. destruct (decide (p' = p)) as [->|]; [by rewrite lookup_insert_eq |].
      rewrite lookup_insert_ne by done. apply I1.
    + intros c p' fr' Hm Ht. destruct (I4 c p' fr' Hm Ht) as [Hp'|]; [left | by right].
      cbn. rewrite lookup_insert_ne; [done |]. by intros <-; rewrite Hp in Hp'.
  - apply (inv_issue w f (for_single p) [fr]); try done.
    + right. exists p, 1. by apply for_single_ok, (I1 p fr).
    + intros p' fr' Hp'. by apply lookup_delete_Some in Hp' as [_ ?].
    + intros p' fr' Hp'. destruct (decide (p' = p)) as [->|]; [right | left; by rewrite lookup_delete_ne].
      split; [| rewrite Hp in Hp'; injection Hp' as ->; set_solver]. right. exists p, 1.
      split; [by apply for_single_ok, (I1 p fr) | unfold PAGE_SIZE; lia].
  - destruct (for_range_pushable a b op Ha Hb Hop) as [Hab Hpu].
    apply (inv_issue w f op (pt :: frames_in a b (mapped w))); try done.
    + intros p fr Hp. by apply map_lookup_filter_Some in Hp as [? _].
    + intros p fr Hp. destruct (decide (a ≤ p < b)) as [Hr|Hr].
      * right. split.
        -- destruct (for_range_ok a b Ha Hb Hab) as [E|(op' & n & E & Ho & ->)]; rewrite E in Hop; injection Hop as <-;
             [by left | right; by exists a, n].
        -- apply elem_of_cons. right. apply list_elem_of_fmap. exists (p, fr). split; [done |].
           apply elem_of_map_to_list. by apply map_lookup_filter_Some.
      * left. by apply map_lookup_filter_Some.
  - by apply inv_start.
  - by apply (inv_dispatch_push w f c rest self).
  - by apply (inv_dispatch_end w f self).
  - constructor; try done.
    + intros f'. unfold sync_pass. rewrite flusher_set. destruct (decide (f' = f)); apply I3.
    + intros c' p fr Hm Ht. destruct (I4 c' p fr Hm Ht) as [Hp|[(f' & Hh & Ha)|Hq]]; [by left | | by right; right].
      right. left. exists f'. unfold sync_pass. rewrite flusher_set. by destruct (decide (f' = f)) as [->|].
  - by apply inv_remote_take.
  - by apply (inv_remote_flush w c st).
  - by apply inv_fill.
  - apply inv_mode; try done; set_solver.
  - apply inv_mode; try done. intros _. apply (I2 c). by right.
  - apply inv_mode; try done; set_solver.
  - apply inv_mode; try done; set_solver.
Qed.

Lemma inv_init home : inv (init_world home).
Proof.
  constructor; cbn; try done; [| intros f; apply ops_new_ok].
  intros c. constructor; cbn; try done; [apply ops_new_ok | by intros []].
Qed.

Lemma tlb_reachable_inv w : reachable w → inv w.
Proof.
  intros (home & Hr). apply (rtc_preserves step inv (init_world home)); [apply inv_init | apply tlb_inv_step | done].
Qed.

(** ** What a flusher is owed *)

(** A step after which the page table does not map [p] to [fr]. *)
Definition step_without (p fr : Z) (w w' : World) : Prop := step w w' ∧ mapped w' !! p ≠ Some fr.

(** A translation of [p] to [fr] in a TLB is one that [f] has yet to send, that [f]
    will wait for, or that the handler of the CPU is about to flush. *)
Definition owed (p fr : Z) (f : nat) (w : World) : Prop := ∀ c,
  mode (cpu w c) = Active → (p, fr) ∈ tlb (cpu w c) →
  (covers (ops_stack (flusher w f)) p ∧ aimed (flusher w f) c) ∨
  (c ∈ have_unsynced_flush (flusher w f) ∧ ack_remote_flush (cpu w c) = false ∧ covers (flush_ops (cpu w c)) p) ∨
  ∃ st, handling (cpu w c) = Some st ∧ covers st p.

Lemma owed_idle w f p fr : phase (flusher w f) = Idle → covers (ops_stack (flusher w f)) p → owed p fr f w.
Proof. intros Hid Hc c _ _. left. split; [done |]. unfold aimed. by rewrite Hid. Qed.

Lemma owed_issue p fr f w g op h x m' :
  stack_ok (ops_stack (flusher w g)) → pushable op → issue (flusher w g) op h = Done x →
  owed p fr f w → owed p fr f (set_flusher (mkWorld m' (cpus w) (cpu w) (flusher w)) g x).
Proof.
  intros Hs Hop Hx Ho. unfold issue in Hx.
  destruct (push_ok (ops_stack (flusher w g)) op h Hs Hop) as (st & Hst & _ & _ & Hcov & _).
  rewrite Hst in Hx. injection Hx as <-. intros c Hm Ht. rewrite flusher_set.
  destruct (Ho c Hm Ht) as [[Hc Ha]|[Hq|Hh]]; [left | right; left | by right; right];
    destruct (decide (f = g)) as [->|]; try done.
  split; [by apply Hcov | done].
Qed.

Lemma owed_start p fr f w g : inv w → owed p fr f w → phase (flusher w g) = Idle → owed p fr f (dispatch_start w g).
Proof.
  intros [_ I2 _ _] Ho Hid. unfold dispatch_start. destruct (is_empty _) eqn:He; [done |].
  intros c Hm Ht. rewrite flusher_set. destruct (decide (f = g)) as [->|]; [| by apply Ho].
  destruct (Ho c Hm Ht) as [[Hc _]|[Hq|Hh]]; [left | by right; left | by right; right]. split; [done |].
  unfold aimed. cbn [phase on_cpu]. assert (c ∈ cpus w) as Hin by (apply (ck_mode _ _ _ (I2 c)); by left).
  destruct (decide (c = on_cpu (flusher w g))) as [->|]; [right | left; set_solver].
  split; [done |]. by apply bool_decide_eq_true_2.
Qed.

Lemma owed_push p fr f w g c0 rest self w' : inv w → owed p fr f w →
  phase (flusher w g) = Dispatching rest self → dispatch_push w g c0 = Done w' → owed p fr f w'.
Proof.
  intros [_ I2 I3 _] Ho Hph Hrun. unfold dispatch_push in Hrun. rewrite Hph in Hrun.
  destruct (push_from_ok (flush_ops (cpu w c0)) (ops_stack (flusher w g))) as (q & Hq & _ & _ & Hcov);
    [apply (I2 c0) | apply I3 |].
  rewrite Hq in Hrun. injection Hrun as <-. intros c.
  change (cpu (set_flusher ?a g ?b) c) with (cpu a c). rewrite cpu_set, flusher_set. intros Hm Ht.
  assert (mode (cpu w c) = Active ∧ (p, fr) ∈ tlb (cpu w c)) as [Hm' Ht'] by (by destruct (decide (c = c0)) as [->|]).
  destruct (Ho c Hm' Ht') as [[Hc Ha]|[(Hu & Hack & Hc)|Hh]].
  - destruct (decide (f = g)) as [->|]; [| by left]. unfold aimed in Ha. rewrite Hph in Ha.
    destruct (decide (c = c0)) as [->|].
    + right. left. split_and!; [cbn; set_solver | done |]. apply Hcov. by right.
    + left. split; [done |]. unfold aimed. cbn [phase on_cpu]. set_solver.
  - right. left. split; [destruct (decide (f = g)) as [->|]; cbn; set_solver |].
    destruct (decide (c = c0)) as [->|]; [| done]. split; [done |]. apply Hcov. by left.
  - right. right. by destruct (decide (c = c0)) as [->|].
Qed.

Lemma owed_end p fr f w g self w' : inv w → page_ok p → owed p fr f w →
  phase (flusher w g) = Dispatching ∅ self → dispatch_end w g self = Done w' → owed p fr f w'.
Proof.
  intros [_ I2 I3 _] Hp Ho Hph Hrun. unfold dispatch_end in Hrun. set (x := flusher w g) in *.
  destruct (flush_all_ok (ops_stack x) (tlb (cpu w (on_cpu x))) (I3 g)) as (t' & Hfl & Hsub & Hrem).
  assert (∃ t, w' = set_flusher (set_cpu w (on_cpu x) (mkCpu t (flush_ops (cpu w (on_cpu x)))
      (ack_remote_flush (cpu w (on_cpu x))) (handling (cpu w (on_cpu x))) (mode (cpu w (on_cpu x))))) g
      (mkFlusher (clear_without_flush (ops_stack x)) (have_unsynced_flush x) (on_cpu x) Idle) ∧
    t ⊆ tlb (cpu w (on_cpu x)) ∧ (self = true → covers (ops_stack x) p → (p, fr) ∉ t)) as (t & -> & Ht & Hno).
  { destruct self; [rewrite Hfl in Hrun |]; injection Hrun as <-.
    - exists t'. split_and!; [done | done |]. intros _. by apply Hrem.
    - by exists (tlb (cpu w (on_cpu x))). }
  intros c. change (cpu (set_flusher ?a g ?b) c) with (cpu a c). rewrite cpu_set, flusher_set. intros Hm Htc.
  assert (mode (cpu w c) = Active ∧ (p, fr) ∈ tlb (cpu w c)) as [Hm' Ht'].
  { destruct (decide (c = on_cpu x)) as [->|]; [cbn in *; set_solver | done]. }
  destruct (Ho c Hm' Ht') as [[Hc Ha]|[Hq|Hh]].
  - destruct (decide (f = g)) as [->|]; [| by left]. exfalso. unfold aimed in Ha. fold x in Ha, Hc.
    rewrite Hph in Ha. destruct Ha as [Ha|[-> ->]]; [set_solver |].
    destruct (decide _); [| done]. by apply (Hno eq_refl Hc).
  - right. left. destruct (decide (f = g)) as [->|], (decide (c = on_cpu x)) as [->|]; done.
  - right. right. by destruct (decide (c = on_cpu x)) as [->|].
Qed.

Lemma owed_sync p fr f w g c0 : owed p fr f w → ack_remote_flush (cpu w c0) = true → owed p fr f (sync_pass w g c0).
Proof.
  intros Ho Hack c Hm Ht. unfold sync_pass. rewrite flusher_set.
  destruct (Ho c Hm Ht) as [Hc|[(Hu & Ha & Hc)|Hh]]; [left | right; left | by right; right];
    destruct (decide (f = g)) as [->|]; try done.
  split; [| done]. cbn in *. destruct (decide (c = c0)) as [->|]; [congruence | set_solver].
Qed.

(** A step of the CPU [c0] alone. *)
Lemma owed_cpu p fr f w c0 cs y : owed p fr f w →
  (mode y = Active → (p, fr) ∈ tlb y → mode (cpu w c0) = Active ∧ (p, fr) ∈ tlb (cpu w c0)) →
  (mode y = Active → (p, fr) ∈ tlb y → ∀ q, q = flush_ops (cpu w c0) → covers q p →
     (ack_remote_flush y = ack_remote_flush (cpu w c0) ∧ flush_ops y = q) ∨ handling y = Some q) →
  (mode y = Active → (p, fr) ∈ tlb y → ∀ st, handling (cpu w c0) = Some st → covers st p → handling y = Some st) →
  owed p fr f (mkWorld (mapped w) cs (<[c0 := y]> (cpu w)) (flusher w)).
Proof.
  intros Ho Hold Hq Hh c. cbn [cpu flusher].
  destruct (decide (c = c0)) as [->|]; [rewrite fn_lookup_insert | by rewrite fn_lookup_insert_ne by done; apply Ho].
  intros Hm Ht. destruct (Hold Hm Ht) as [Hm' Ht']. destruct (Ho c0 Hm' Ht') as [Hc|[(Hu & Ha & Hc)|(st & Hst & Hc)]].
  - by left.
  - destruct (Hq Hm Ht _ eq_refl Hc) as [[Ea Eq]|E]; [right; left | right; right; by eexists].
    split_and!; [done | congruence | by rewrite Eq].
  - right. right. exists st. split; [by apply Hh | done].
Qed.

Lemma owed_step p fr f w w' : inv w → page_ok p → owed p fr f w → step_without p fr w w' → owed p fr f w'.
Proof.
  intros Hi Hp Ho [Hs Hn]. pose proof Hi as [I1 I2 I3 _].
  destruct Hs as [w q fq Hok Hq|w g q fq x Hid Hq Hx|w g a b pt op x Hid Ha Hb Hop Hx|w g Hid
    |w g c rest self w' Hph Hc Hrun|w g self w' Hph Hrun|w g c Hc Hack|w c Hh|w c st w' Hh Hrun
    |w c q fq Hm Hq|w c Hm|w c Hm|w c Hm|w c Hm].
  - exact Ho.
  - apply (owed_issue p fr f w g (for_single q) (Some [fq])); try done.
    right. exists q, 1. by apply for_single_ok, (I1 q fq).
  - apply (owed_issue p fr f w g op (Some (pt :: frames_in a b (mapped w)))); try done; by apply (for_range_pushable a b).
  - by apply owed_start.
  - by apply (owed_push p fr f w g c rest self).
  - by apply (owed_end p fr f w g self).
  - by apply owed_sync.
  - apply owed_cpu; cbn; try done; [by intros _ _ ? -> ?; right | congruence].
  - destruct (flush_all_ok st (tlb (cpu w c)) (ck_handling _ _ _ (I2 c) st Hh)) as (t' & Hf & Hsub & Hrem).
    unfold remote_flush in Hrun. rewrite Hf in Hrun. injection Hrun as <-.
    apply owed_cpu; cbn; try done; [by intros ? ?%Hsub | by intros _ _ ? -> ?; left |].
    intros _ Ht st' Hst Hc. rewrite Hh in Hst. injection Hst as <-. by destruct (Hrem p fr Hp Hc).
  - apply owed_cpu; cbn in *; try done; [| by intros _ _ ? -> ?; left].
    intros Ha [Ht|[= -> ->]%elem_of_singleton]%elem_of_union; [done | congruence].
  - apply owed_cpu; cbn; try done.
  - apply owed_cpu; cbn; try done; set_solver.
  - apply owed_cpu; cbn; try done.
  - apply owed_cpu; cbn; try done.
Qed.

Lemma owed_run p fr f w w' : inv w → page_ok p → owed p fr f w → rtc (step_without p fr) w w' → owed p fr f w'.
Proof.
  intros Hi Hp Ho Hrun. induction Hrun as [|w w1 w' Hs _ IH]; [done |].
  apply IH; [by apply (tlb_inv_step w), Hs | by apply (owed_step p fr f w)].
Qed.

(** ** Properties *)

(** [C10] Memory safety of TLB shootdown, for any number of CPUs and flushers and
    any interleaving of mapping, unmapping, dispatching, remote flushing and
    address space switches: if a CPU that runs with the address space can still
    translate a page to a frame through its TLB, then the page table maps the page
    to this frame, or the frame is still kept alive by the operations of a
    flusher, of that CPU's queue or of the queue that its interrupt handler is
    flushing. No frame is released while such a translation exists. *)
Theorem tlb_frame_safe w c p fr :
  reachable w → mode (cpu w c) = Active → (p, fr) ∈ tlb (cpu w c) →
  mapped w !! p = Some fr ∨ (∃ f, kept (ops_stack (flusher w f)) fr) ∨
  kept (flush_ops (cpu w c)) fr ∨ ∃ st, handling (cpu w c) = Some st ∧ kept st fr.
Proof.
  intros Hr Hm Ht. destruct (in_pending w (tlb_reachable_inv w Hr) c p fr Hm Ht)
    as [|[(f & [_ Hk] & _)|[[_ Hk]|(st & Hst & _ & Hk)]]]; [by left | right; left; by exists f | by right; right; left |].
  right. right. right. by exists st.
Qed.

(** [C29] What [sync_tlb_flush] promises to its flusher, while other flushers, CPUs and
    the page table go on: let the flusher [f] hold an operation that covers the page
    [p], and let the page table not map [p] to the frame [fr] from then on. Once [f]
    has dispatched all its operations and its synchronisation has passed all the CPUs
    that it sent them to, no CPU that runs with the address space has the translation
    of [p] to [fr] in its TLB, unless it is still inside the interrupt handler with a
    queue that covers [p], before it returns to user space. *)
Theorem tlb_sync_flushes w w' f c p fr :
  reachable w → page_ok p → phase (flusher w f) = Idle → covers (ops_stack (flusher w f)) p →
  mapped w !! p ≠ Some fr → rtc (step_without p fr) w w' →
  phase (flusher w' f) = Idle → is_empty (ops_stack (flusher w' f)) = true →
  have_unsynced_flush (flusher w' f) = ∅ → mode (cpu w' c) = Active → (p, fr) ∈ tlb (cpu w' c) →
  ∃ st, handling (cpu w' c) = Some st ∧ covers st p.
Proof.
  intros Hr Hp Hid Hc Hn Hrun Hid' He Hu Hm Ht.
  destruct (owed_run p fr f w w' (tlb_reachable_inv w Hr) Hp (owed_idle w f p fr Hid Hc) Hrun c Hm Ht)
    as [[Hc' _]|[(Hc' & _)|H]]; [by apply empty_stack in Hc' | rewrite Hu in Hc'; set_solver | done].
Qed.


(** ** Witnesses *)

(** CPU 1 runs with the address space and has the page [0x1000] in its TLB when
    CPU 0 unmaps it. *)
Definition demo_home : nat → nat := λ _, 0%nat.
Definition demo_mapped : World :=
  let w := activate_switch (activate_add (init_world demo_home) 1) 1 in
  let w := mkWorld {[0x1000 := 0x5000]} (cpus w) (cpu w) (flusher w) in
  set_mode w 1 (cpus w) (tlb (cpu w 1) ∪ {[(0x1000, 0x5000)]}) Active.

Lemma demo_mapped_reachable : rtc step (init_world demo_home) demo_mapped.
Proof.
  eapply rtc_l; [apply (step_activate_add _ 1); reflexivity |].
  eapply rtc_l; [apply (step_activate_switch _ 1); reflexivity |].
  eapply rtc_l; [apply (step_map _ 0x1000 0x5000); [split; [lia | by exists 1] | reflexivity] |].
  eapply rtc_l; [apply (step_fill _ 1 0x1000 0x5000); [left; reflexivity | reflexivity] |].
  apply rtc_refl.
Qed.

Definition from_done {A} (d : A) (m : outcome A) : A := match m with Done a => a | Panic => d end.

Definition demo_unmapped : World :=
  let w := demo_mapped in
  set_flusher (mkWorld (delete 0x1000 (mapped w)) (cpus w) (cpu w) (flusher w)) 0
    (from_done (flusher w 0) (issue (flusher w 0) (for_single 0x1000) (Some [0x5000]))).

Lemma demo_unmapped_reachable : reachable demo_unmapped.
Proof.
  exists demo_home. eapply rtc_r; [apply demo_mapped_reachable |].
  apply (step_unmap_page _ 0 0x1000 0x5000); reflexivity.
Qed.

Lemma tlb_frame_safe_witness :
  mapped demo_unmapped !! 0x1000 = None ∧
  (mapped demo_unmapped !! 0x1000 = Some 0x5000 ∨
   (∃ f, kept (ops_stack (flusher demo_unmapped f)) 0x5000) ∨
   kept (flush_ops (cpu demo_unmapped 1)) 0x5000 ∨
   ∃ st, handling (cpu demo_unmapped 1) = Some st ∧ kept st 0x5000).
Proof.
  split; [reflexivity |].
  apply (tlb_frame_safe demo_unmapped 1 0x1000 0x5000 demo_unmapped_reachable); [reflexivity |].
  apply elem_of_union_r, elem_of_singleton. reflexivity.
Defined.

Lemma from_done_eq {A} (d : A) (m : outcome A) :
  match m with Done _ => true | Panic => false end = true → m = Done (from_done d m).
Proof. by destruct m. Qed.

(** The dispatch to CPU 1, its interrupt handler, and the synchronisation. *)
Definition demo_start : World := dispatch_start demo_unmapped 0.
Definition demo_push : World := from_done demo_start (dispatch_push demo_start 0 1).
Definition demo_end : World := from_done demo_push (dispatch_end demo_push 0 false).
Definition demo_take : World := remote_take demo_end 1.
Definition demo_queue : OpsStack := flush_ops (cpu demo_end 1).
Definition demo_flushed : World := from_done demo_take (remote_flush demo_take 1 demo_queue).
Definition demo_synced : World := sync_pass demo_flushed 0 1.

Ltac demo_step := split; [| vm_compute; congruence].

Lemma demo_synced_steps : rtc (step_without 0x1000 0x5000) demo_unmapped demo_synced.
Proof.
  apply rtc_l with demo_start; [demo_step; apply step_dispatch_start; vm_compute; reflexivity |].
  apply rtc_l with demo_push.
  { demo_step. apply (step_dispatch_push _ 0 1 (cpus demo_unmapped ∖ {[0%nat]}) false);
      [vm_compute; reflexivity | vm_compute; reflexivity |].
    apply from_done_eq. vm_compute. reflexivity. }
  apply rtc_l with demo_end.
  { demo_step. apply (step_dispatch_end _ 0 false); [vm_compute; reflexivity |].
    apply from_done_eq. vm_compute. reflexivity. }
  apply rtc_l with demo_take; [demo_step; apply step_remote_take; vm_compute; reflexivity |].
  apply rtc_l with demo_flushed.
  { demo_step. apply (step_remote_flush _ 1 demo_queue); [vm_compute; reflexivity |].
    apply from_done_eq. vm_compute. reflexivity. }
  apply rtc_once. demo_step. apply step_sync; vm_compute; reflexivity.
Qed.

Lemma tlb_sync_flushes_witness :
  (0x1000, 0x5000) ∈ tlb (cpu demo_unmapped 1) ∧ mode (cpu demo_synced 1) = Active ∧
  (0x1000, 0x5000) ∉ tlb (cpu demo_synced 1).
Proof.
  split_and!; [vm_compute; reflexivity | vm_compute; reflexivity |]. intros Ht.
  destruct (tlb_sync_flushes demo_unmapped demo_synced 0 1 0x1000 0x5000) as (st & Hst & _).
  - exact demo_unmapped_reachable.
  - split; [lia | by exists 1].
  - vm_compute. reflexivity.
  - right. exists (for_single 0x1000). split; [vm_compute; left |].
    exists 0x1000, 1. split; [apply for_single_ok; split; [lia | by exists 1] | unfold PAGE_SIZE; lia].
  - vm_compute. congruence.
  - exact demo_synced_steps.
  - vm_compute. reflexivity.
  - vm_compute. reflexivity.
  - vm_compute. reflexivity.
  - vm_compute. reflexivity.
  - exact Ht.
  - vm_compute in Hst. congruence.
Defined.

End Tlb.
