(* ===== verification/VmSpace.v ===== *)
(** * User address spaces

    [osxtd/src/mm/vm_space.rs]: the cursor over a range of a user address space,
    which changes the page table and collects the TLB flushes of what it removed.
    The page table operations are those of [PageTableCursor], the pending flushes
    those of [Tlb]; the stacks that the cursor has dispatched are logged, and
    [Tlb] shows what becomes of a stack that is dispatched. *)

From S2P Require Import Prelude PageTableNode X86Pte PageTableCursor PageTableMap PageTable Tlb.
Import X86Pte.
Local Open Scope Z_scope.

(** [IoMem]: a range of device memory. *)
Record IoMem : Type := mkIoMem { io_paddr : Z; io_size : Z }.

(** [VmQueriedItem], and its creation from a [VmItem] *)
Inductive VmQueriedItem : Type :=
| MappedRam (frame : Z) (prop : PageProperty)
| MappedIoMem (paddr : Z) (prop : PageProperty).

Definition queried_from (item : VmItem) : VmQueriedItem :=
  match mapped_item item with
  | TrackedFrame frame => MappedRam frame (item_prop item)
  | UntrackedIoMem paddr _ => MappedIoMem paddr (item_prop item)
  end.

Definition MAX_USERSPACE_VADDR : Z := 2 ^ 47 - 4096.

(** [VmSpace::reader], [writer] and [reader_writer]: the accepted range. [None]
    is [AccessDenied]. *)
Definition user_access (current_root root vaddr len : Z) : option (Z * Z) :=
  if negb (current_root =? root) then None
  else
    let e := match checked_add 64 vaddr len with Some e => e | None => 2 ^ 64 - 1 end in
    if MAX_USERSPACE_VADDR <? e then None else Some (vaddr, len).

(** [VmSpace::find_iomem_by_paddr] *)
Fixpoint find_iomem_by_paddr (iomems : list IoMem) (paddr : Z) : outcome (option (IoMem * Z)) :=
  match iomems with
  | [] => Done None
  | iomem :: iomems =>
      let start := io_paddr iomem in
      unwrap (checked_add 64 start (io_size iomem)) ≫= λ e,
      if (start <=? paddr) && (paddr <? e) then Done (Some (iomem, paddr - start))
      else find_iomem_by_paddr iomems paddr
  end.

(** The frames that a dropped child gives up: a table, and the frame of an item
    that tracks one. *)
Definition child_frames (c : Child PageProperty) : list Z :=
  match c with
  | ChPageTable pt => [pt]
  | ChFrame pa l p =>
      match mapped_item (user_from_raw pa l p) with TrackedFrame f => [f] | UntrackedIoMem _ _ => [] end
  | ChNone => []
  end.

Section VmSpace.
Context {PC : PagingConsts}.

(** [CursorMut]: the page table cursor with the memory of the tables, the flushes
    that are pending in the flusher, the stacks that it has dispatched, and the
    I/O memory of the address space. *)
Record VmCursor : Type := mkVm {
  pt_cursor : Cursor;
  store : Store PageTableEntry;
  pending_ops : Tlb.OpsStack;
  dispatched : list Tlb.OpsStack;
  iomems : list IoMem
}.

Definition set_pt (x : VmCursor) (c : Cursor) (s : Store PageTableEntry) : VmCursor :=
  mkVm c s (pending_ops x) (dispatched x) (iomems x).

(** [VmSpace::cursor_mut] *)
Definition cursor_mut (fuel : nat) (s : Store PageTableEntry) (root : Z) (io : list IoMem) (r : VRange)
  : outcome (result VmCursor PageTableError) :=
  cursor_new fuel s root r ≫= λ res,
  match res with
  | ROk (c, s) => Done (ROk (mkVm c s Tlb.ops_new [] io))
  | RErr e => Done (RErr e)
  end.

(** The flusher: [issue_tlb_flush], [issue_tlb_flush_with] and [dispatch_tlb_flush]. *)
Definition issue_tlb_flush (x : VmCursor) (op : Tlb.TlbFlushOp) (h : option Tlb.Handle) : outcome VmCursor :=
  Tlb.push (pending_ops x) op h ≫= λ st,
  Done (mkVm (pt_cursor x) (store x) st (dispatched x) (iomems x)).
Definition dispatch_tlb_flush (x : VmCursor) : VmCursor :=
  if Tlb.is_empty (pending_ops x) then x
  else mkVm (pt_cursor x) (store x) (Tlb.clear_without_flush (pending_ops x))
            (dispatched x ++ [pending_ops x]) (iomems x).

(** The handle of a table that was taken out of the page table. *)
Definition table_handle (s : Store PageTableEntry) (pt : Z) : Tlb.Handle :=
  pt :: match nodes s !! pt with
        | Some nd => on_drop s (level nd) pt ≫= child_frames
        | None => []
        end.

(** [CursorMut::query] *)
Definition vm_query (x : VmCursor)
  : outcome (result (VRange * option VmQueriedItem) PageTableError * VmCursor) :=
  query user_from_raw (pt_cursor x) (store x) ≫= λ '((res, c) : result (VRange * option VmItem) PageTableError * Cursor),
  let x := set_pt x c (store x) in
  match res with
  | ROk (r, item) => Done (ROk (r, option_map queried_from item), x)
  | RErr e => Done (RErr e, x)
  end.

(** [CursorMut::find_next] and [CursorMut::jump] *)
Definition vm_find_next (fuel : nat) (x : VmCursor) (len : Z) : outcome (option Z * VmCursor) :=
  find_next fuel len (pt_cursor x) (store x) ≫= λ '(found, c, s), Done (found, set_pt x c s).
Definition vm_jump (x : VmCursor) (v : Z) : outcome (result VmCursor PageTableError) :=
  jump (pt_cursor x) v ≫= λ res,
  match res with ROk c => Done (ROk (set_pt x c (store x))) | RErr e => Done (RErr e) end.

(** The flush of one item that was mapped at [v]. *)
Definition flush_item (x : VmCursor) (v : Z) (item : VmItem) : outcome VmCursor :=
  match mapped_item item with
  | TrackedFrame old_frame => issue_tlb_flush x (Tlb.for_single v) (Some [old_frame])
  | UntrackedIoMem _ _ => issue_tlb_flush x (Tlb.for_single v) None
  end.

Definition handle_remapped_frag (x : VmCursor) (frag : PageTableFrag VmItem) (start_va : Z)
  : outcome VmCursor :=
  match frag with
  | FragMapped _ item => flush_item x start_va item ≫= λ x, Done (dispatch_tlb_flush x)
  | FragStray _ _ _ _ => Panic
  end.

(** [self.pt_cursor.map(item)] with the handling of what it replaced. *)
Definition map_item (x : VmCursor) (item : VmItem) : outcome VmCursor :=
  let start_va := va (pt_cursor x) in
  map user_into_raw user_from_raw (pt_cursor x) (store x) item ≫= λ '(res, c, s),
  let x := set_pt x c s in
  match res with
  | ROk _ => Done x
  | RErr frag => handle_remapped_frag x frag start_va
  end.

(** [CursorMut::map] *)
Definition vm_map (x : VmCursor) (frame : Z) (prop : PageProperty) : outcome VmCursor :=
  map_item x (new_tracked frame prop).

(** The loop of [map_iomem] over [n] pages from [paddr] on. *)
Fixpoint map_io_pages (n : nat) (x : VmCursor) (paddr : Z) (prop : PageProperty) : outcome VmCursor :=
  match n with
  | O => Done x
  | S n =>
      map_item x (new_untracked_io paddr prop) ≫= λ x,
      map_io_pages n x (paddr + Tlb.PAGE_SIZE) prop
  end.

(** The number of rounds of [(a..b).step_by(PAGE_SIZE)]. *)
Definition page_steps (a b : Z) : nat := Z.to_nat ((b - a + (Tlb.PAGE_SIZE - 1)) / Tlb.PAGE_SIZE).

Definition same_io (a b : IoMem) : bool := (io_paddr a =? io_paddr b) && (io_size a =? io_size b).

Definition map_iomem (x : VmCursor) (io_mem : IoMem) (prop : PageProperty) (len offset : Z)
  : outcome VmCursor :=
  assert_that (len mod Tlb.PAGE_SIZE =? 0) ≫= λ _,
  assert_that (offset mod Tlb.PAGE_SIZE =? 0) ≫= λ _,
  if io_size io_mem <=? offset then Done x
  else
    unwrap (checked_add 64 (io_paddr io_mem) offset) ≫= λ paddr_begin,
    (if io_size io_mem - offset <? len
     then unwrap (checked_add 64 (io_paddr io_mem) (io_size io_mem))
     else unwrap (checked_add 64 (io_paddr io_mem) len) ≫= λ e, unwrap (checked_add 64 e offset))
    ≫= λ paddr_end,
    map_io_pages (page_steps paddr_begin paddr_end) x paddr_begin prop ≫= λ x,
    Done (if existsb (λ iomem, same_io iomem io_mem) (iomems x) then x
          else mkVm (pt_cursor x) (store x) (pending_ops x) (dispatched x) (iomems x ++ [io_mem])).

(** One fragment of [unmap]: the pages that it counts and the flush. *)
Definition unmap_frag (x : VmCursor) (frag : PageTableFrag VmItem) (num_unmapped : Z)
  : outcome (Z * VmCursor) :=
  match frag with
  | FragMapped v item =>
      match mapped_item item with
      | TrackedFrame _ => unwrap (checked_add 64 num_unmapped 1)
      | UntrackedIoMem _ _ => Done num_unmapped
      end ≫= λ num_unmapped,
      flush_item x v item ≫= λ x, Done (num_unmapped, x)
  | FragStray pt v len num_frames =>
      unwrap (checked_add 64 num_unmapped num_frames) ≫= λ num_unmapped,
      unwrap (checked_add 64 v len) ≫= λ e,
      Tlb.for_range v e ≫= λ op,
      issue_tlb_flush x op (Some (table_handle (store x) pt)) ≫= λ x, Done (num_unmapped, x)
  end.

Fixpoint unmap_loop (rounds fuel : nat) (end_va : Z) (x : VmCursor) (num_unmapped : Z)
  : outcome (Z * VmCursor) :=
  match rounds with
  | O => Panic
  | S rounds =>
      unwrap (checked_sub end_va (va (pt_cursor x))) ≫= λ len,
      take_next user_from_raw fuel len (pt_cursor x) (store x) ≫= λ '(frag, c, s),
      let x := set_pt x c s in
      match frag with
      | None => Done (num_unmapped, x)
      | Some frag =>
          unmap_frag x frag num_unmapped ≫= λ '(num_unmapped, x),
          unmap_loop rounds fuel end_va x num_unmapped
      end
  end.

(** [CursorMut::unmap] *)
Definition unmap (fuel : nat) (x : VmCursor) (len : Z) : outcome (Z * VmCursor) :=
  unwrap (checked_add 64 (va (pt_cursor x)) len) ≫= λ end_va,
  unmap_loop fuel fuel end_va x 0 ≫= λ '(num_unmapped, x),
  Done (num_unmapped, dispatch_tlb_flush x).

(** [CursorMut::protect_next]: the operation sees the flags and the cache policy. *)
Definition vm_protect_next (fuel : nat) (x : VmCursor) (len : Z) (op : Z → CachePolicy → Z * CachePolicy)
  : outcome (option VRange * VmCursor) :=
  protect_next fuel len
    (λ p, let '(f, c) := op (flags p) (cache p) in mkProp f c (priv_flags p)) (pt_cursor x) (store x)
  ≫= λ '(r, c, s), Done (r, set_pt x c s).

End VmSpace.

(** ** Lemmas *)

Section Theory.
Context {PC : PagingConsts} {PL : @PagingLaws PC}.
Context {EL : @PteLaws PC PageTableEntry PageProperty x86_pte_ops}.
Hypothesis Hbase : BASE_PAGE_SIZE = Tlb.PAGE_SIZE.

(** The invariant of a cursor: its part of the page table is well-formed and maps
    base pages only, its range is in user space, and the flusher's stack is
    well-formed. *)
Record vm_ok (root : Z) (x : VmCursor) : Prop := mkVmOk {
  vo_cur : cur_ok (store x) root (pt_cursor x);
  vo_small : small (store x) root;
  vo_user : end_ (barrier_va (pt_cursor x)) ≤ 2 ^ 47;
  vo_stack : Tlb.stack_ok (pending_ops x)
}.

(** The page [v], mapped to [pa] with [p], will be flushed; a frame that is
    tracked is kept until then. *)
Definition will_flush (st : Tlb.OpsStack) (v pa : Z) (p : PageProperty) : Prop :=
  Tlb.covers st v ∧ (has_avail1 p = false → Tlb.kept st pa).

(** The pending flushes have only grown. *)
Definition grown (x x' : VmCursor) : Prop :=
  dispatched x' = dispatched x ∧ iomems x' = iomems x ∧ Tlb.stack_ok (pending_ops x') ∧
  ∀ v pa p, will_flush (pending_ops x) v pa p → will_flush (pending_ops x') v pa p.

Lemma kept_grow st st' h fr :
  Tlb.page_keeper st' = Tlb.page_keeper st ++ h → Tlb.kept st fr → Tlb.kept st' fr.
Proof. intros Hk (h' & Hin & Hfr). exists h'. rewrite Hk. set_solver. Qed.

(** One flush. *)
Lemma issue_ok x op h : Tlb.stack_ok (pending_ops x) → Tlb.pushable op →
  ∃ x', issue_tlb_flush x op h = Done x' ∧ pt_cursor x' = pt_cursor x ∧ store x' = store x ∧ grown x x' ∧
    (∀ v, Tlb.op_covers op v → Tlb.covers (pending_ops x') v) ∧
    ∀ fr h', h = Some h' → fr ∈ h' → Tlb.kept (pending_ops x') fr.
Proof.
  intros Hst Hop. unfold issue_tlb_flush.
  destruct (Tlb.push_ok (pending_ops x) op h Hst Hop) as (st & -> & Hst' & Hk & Hc & Hcov).
  cbn [mbind outcome_bind]. eexists. split; [done |]. do 2 (split; [done |]). cbn [pending_ops]. split.
  - do 2 (split; [done |]). split; [done |]. intros v pa p [H1 H2]. split; [by apply Hc |].
    intros Hp. by apply (kept_grow (pending_ops x) st _ pa Hk), H2.
  - split; [done |]. intros fr h' -> Hin. exists h'. cbn in Hk. rewrite Hk. set_solver.
Qed.

Lemma flush_item_ok x v pa l p : Tlb.stack_ok (pending_ops x) → Tlb.page_ok v →
  ∃ x', flush_item x v (user_from_raw pa l p) = Done x' ∧ pt_cursor x' = pt_cursor x ∧
    store x' = store x ∧ grown x x' ∧ will_flush (pending_ops x') v pa p.
Proof.
  intros Hst Hv.
  assert (Tlb.op_for (Tlb.for_single v) v 1) as Hop by (by apply Tlb.for_single_ok).
  assert (Tlb.pushable (Tlb.for_single v)) as Hpush by (right; by exists v, 1).
  assert (Tlb.op_covers (Tlb.for_single v) v) as Hcov.
  { right. exists v, 1. split; [done |]. unfold Tlb.PAGE_SIZE. lia. }
  unfold flush_item, user_from_raw.
  destruct (has_avail1 p) eqn:Hio; cbn [mapped_item new_untracked_io new_tracked].
  - destruct (issue_ok x _ None Hst Hpush) as (x' & -> & H1 & H2 & H3 & H4 & _).
    exists x'. do 4 (split; [done |]). split; [by apply H4 | congruence].
  - destruct (issue_ok x _ (Some [pa]) Hst Hpush) as (x' & -> & H1 & H2 & H3 & H4 & H5).
    exists x'. do 4 (split; [done |]). split; [by apply H4 |]. intros _. apply (H5 pa [pa]); [done | set_solver].
Qed.

Lemma aligned_page fva v : (Tlb.PAGE_SIZE | fva) → (Tlb.PAGE_SIZE | v) → fva ≤ v < fva + Tlb.PAGE_SIZE → v = fva.
Proof. unfold Tlb.PAGE_SIZE. intros [q ->] [q' ->] Hv. lia. Qed.

Lemma aligned_mod v : (Tlb.PAGE_SIZE | v) → v mod page_size 1 = 0.
Proof using Hbase PL. intros Hv. rewrite page_size_1, Hbase. by apply Z.mod_divide. Qed.

(** The flush of a table takes care of every page that it maps. *)
Lemma table_handle_kept s pt nd pa0 p :
  nodes s !! pt = Some nd → ChFrame pa0 1 p ∈ on_drop s (level nd) pt → has_avail1 p = false →
  pa0 ∈ table_handle s pt.
Proof.
  intros Hn Hin Hp. unfold table_handle. rewrite Hn. right. apply list_elem_of_bind.
  eexists. split; [| exact Hin]. unfold child_frames, user_from_raw. rewrite Hp. cbn. set_solver.
Qed.

(** One fragment of [unmap], which was the page [a], [l] of the store [s]. *)
Lemma unmap_frag_ok s root x a l f num :
  small s root → Tlb.stack_ok (pending_ops x) → taken user_from_raw s (store x) root a l f →
  (1 ≤ l ≤ NR_LEVELS)%nat → 0 ≤ a → a + page_size l ≤ 2 ^ 47 → (page_size l | a) →
  0 ≤ num → num * Tlb.PAGE_SIZE ≤ a →
  ∃ num' x', unmap_frag x f num = Done (num', x') ∧ pt_cursor x' = pt_cursor x ∧ store x' = store x ∧
    grown x x' ∧ 0 ≤ num' ∧ (num' - num) * Tlb.PAGE_SIZE ≤ page_size l ∧
    ∀ v pa p, a ≤ v < a + page_size l → (Tlb.PAGE_SIZE | v) → trans s NR_LEVELS root v = Some (pa, p) →
      will_flush (pending_ops x') v pa p.
Proof using Hbase PL.
  intros Hsm Hst Htk Hl Ha He Hal Hn Hna. pose proof (page_size_pos l ltac:(lia)) as Hps.
  assert (page_size 1 | page_size l) as Hd1 by (apply page_size_divide; lia).
  rewrite page_size_1, Hbase in Hd1.
  assert (Tlb.page_ok a) as Hpa by (split; [lia | by etransitivity]).
  assert (∀ k, 0 ≤ k → k * Tlb.PAGE_SIZE ≤ page_size l → checked_add 64 num k = Some (num + k)) as Hadd.
  { intros k Hk Hkl. unfold checked_add, Tlb.PAGE_SIZE in *. destruct (Z.ltb_spec (num + k) (2 ^ 64)); [done | lia]. }
  destruct f as [v0 item|pt v0 len k]; cbn [taken unmap_frag] in *.
  - destruct Htk as (-> & pa & p & -> & Htr & Hl1). specialize (Hl1 Hsm) as ->.
    rewrite page_size_1, Hbase in *.
    destruct (flush_item_ok x a pa 1 p Hst Hpa) as (x' & Hfl & H1 & H2 & H3 & H4).
    assert (∃ k, (match mapped_item (user_from_raw pa 1 p) with
      | TrackedFrame _ => unwrap (checked_add 64 num 1) | UntrackedIoMem _ _ => Done num end) = Done (num + k) ∧
      0 ≤ k ≤ 1) as (k & -> & Hk).
    { destruct (mapped_item _); [exists 1; rewrite Hadd by lia; done |]. exists 0. by rewrite Z.add_0_r. }
    cbn [mbind outcome_bind]. rewrite Hfl. cbn [mbind outcome_bind]. exists (num + k), x'.
    do 4 (split; [done |]). split; [lia |]. split; [unfold Tlb.PAGE_SIZE; lia |].
    intros v pa' p' Hv Hva Ht. rewrite (Htr v Hv) in Ht. injection Ht as <- <-.
    rewrite (aligned_page a v) by (done || apply Hpa). by rewrite Z.sub_diag, Z.add_0_r.
  - destruct Htk as (-> & -> & Hl2 & (nd & Hnd & Hlv) & [Hk1 Hk2] & Htr & Hdrop). rewrite Hbase in Hk2.
    rewrite Hadd by done. cbn [unwrap mbind outcome_bind].
    unfold checked_add. destruct (Z.ltb_spec (a + page_size l) (2 ^ 64)); [| lia]. cbn [unwrap mbind outcome_bind].
    assert (∃ op, Tlb.for_range a (a + page_size l) = Done op ∧ Tlb.pushable op ∧
      ∀ v, a ≤ v < a + page_size l → Tlb.op_covers op v) as (op & -> & Hpush & Hcov).
    { destruct (Tlb.for_range_ok a (a + page_size l)) as [->|(op & n & -> & Hop & Hb)];
        [done | apply Z.divide_add_r; [apply Hpa | done] | lia | |].
      - eexists. split; [done |]. split; [by left |]. by left.
      - exists op. split; [done |]. split; [right; by exists a, n |]. intros v Hv. right. exists a, n. by rewrite <- Hb. }
    cbn [mbind outcome_bind].
    destruct (issue_ok x op (Some (table_handle (store x) pt)) Hst Hpush) as (x' & -> & H1 & H2 & H3 & H4 & H5).
    cbn [mbind outcome_bind]. exists (num + k), x'. do 4 (split; [done |]). split; [lia |]. split; [lia |].
    intros v pa p Hv Hva Ht. split; [by apply H4, Hcov |]. intros Hp.
    destruct (Hdrop Hsm v pa p Hv Ht) as (pa0 & Hin & ->). rewrite aligned_mod, Z.add_0_r by done.
    apply (H5 pa0 (table_handle (store x) pt)); [done |]. apply (table_handle_kept _ _ nd pa0 p); try done.
    by rewrite Hlv.
Qed.

(** What [unmap] does up to [e], before the final dispatch. *)
Record unmapped (root e : Z) (x x' : VmCursor) : Prop := mkUnmapped {
  um_ok : vm_ok root x';
  um_lock : same_lock (pt_cursor x) (pt_cursor x');
  um_end : e ≤ va (pt_cursor x');
  um_pool : pool (store x') = pool (store x);
  um_grown : grown x x';
  um_trans : ∀ v, window (pt_cursor x) v → trans (store x') NR_LEVELS root v =
    if decide (va (pt_cursor x) ≤ v < e) then None else trans (store x) NR_LEVELS root v;
  um_flush : ∀ v pa p, va (pt_cursor x) ≤ v < e → (Tlb.PAGE_SIZE | v) →
    trans (store x) NR_LEVELS root v = Some (pa, p) → will_flush (pending_ops x') v pa p
}.

Lemma flushes_grown_trans x x' x'' : grown x x' → grown x' x'' → grown x x''.
Proof.
  intros (A1 & A2 & A3 & A4) (B1 & B2 & B3 & B4). split; [congruence |]. split; [congruence |].
  split; [done |]. intros v pa p Hw. by apply B4, A4.
Qed.

(** One round in front: the fragment at [a], [l] is taken out. *)
Lemma unmapped_step root e x x1 x' a l :
  0 < page_size l → va (pt_cursor x) ≤ a → va (pt_cursor x1) = a + page_size l → va (pt_cursor x1) ≤ e →
  e ≤ end_ (barrier_va (pt_cursor x)) → cur_ok (store x) root (pt_cursor x) →
  same_lock (pt_cursor x) (pt_cursor x1) → pool (store x1) = pool (store x) → grown x x1 →
  (∀ v, va (pt_cursor x) ≤ v < a → trans (store x) NR_LEVELS root v = None) →
  (∀ v, window (pt_cursor x) v → trans (store x1) NR_LEVELS root v =
     if decide (a ≤ v < va (pt_cursor x1)) then None else trans (store x) NR_LEVELS root v) →
  (∀ v pa p, a ≤ v < a + page_size l → (Tlb.PAGE_SIZE | v) → trans (store x) NR_LEVELS root v = Some (pa, p) →
     will_flush (pending_ops x1) v pa p) →
  unmapped root e x1 x' → unmapped root e x x'.
Proof.
  intros Hps Ha Hv1 He Hend Hc [L1 L2] Hp Hg Hun Htr Hfl [U1 [M1 M2] U3 U4 U5 U6 U7].
  pose proof (co_va _ _ _ Hc) as [[V0 _] _].
  assert (∀ v, va (pt_cursor x) ≤ v < e → window (pt_cursor x) v) as Hw.
  { intros v Hv. apply (range_window (store x) root); [done | lia]. }
  split; [done | split; congruence | done | congruence | by eapply flushes_grown_trans | |].
  - intros v Hv. rewrite U6, Htr by (done || by apply (window_lock (pt_cursor x))). rewrite Hv1 in *.
    repeat case_decide; try done; try lia. apply Hun. lia.
  - intros v pa p Hv Hal Ht. destruct (decide (v < a)); [by rewrite Hun in Ht by lia |].
    destruct (decide (v < a + page_size l)).
    + apply U5. by apply Hfl; [lia | ..].
    + apply U7; [lia | done |]. rewrite Htr by (by apply Hw). rewrite decide_False by lia. done.
Qed.

Lemma unmap_loop_ok root e rounds fuel : ∀ x num,
  vm_ok root x → (NR_LEVELS ≤ length (pool (store x)))%nat →
  va (pt_cursor x) ≤ e ≤ end_ (barrier_va (pt_cursor x)) → (Tlb.PAGE_SIZE | e) →
  0 ≤ num → num * Tlb.PAGE_SIZE ≤ va (pt_cursor x) →
  (Z.to_nat ((e - va (pt_cursor x)) / Tlb.PAGE_SIZE) < rounds)%nat →
  (Z.to_nat (e / Tlb.PAGE_SIZE) * S NR_LEVELS + NR_LEVELS < fuel)%nat →
  ∃ num' x', unmap_loop rounds fuel e x num = Done (num', x') ∧ unmapped root e x x' ∧
    0 ≤ num' ∧ (num' - num) * Tlb.PAGE_SIZE ≤ e - va (pt_cursor x).
Proof using Hbase PL EL.
  induction rounds as [|rounds IH]; intros x num [Hc Hsm Hu Hst] Hpool He Hal Hn Hnv Hr Hf; [lia |].
  pose proof (co_va _ _ _ Hc) as [[V0 _] Vd]. pose proof (co_range _ _ _ Hc) as [[R1 [R2 R3]] _ _].
  pose proof (co_levels _ _ _ Hc) as [Hl Hg]. rewrite Hbase in Vd.
  assert (0 < Tlb.PAGE_SIZE) as Hpg by done.
  cbn [unmap_loop]. unfold checked_sub. destruct (Z.leb_spec (va (pt_cursor x)) e); [| lia].
  cbn [unwrap mbind outcome_bind].
  destruct (take_next_ok user_from_raw (store x) root (pt_cursor x) (e - va (pt_cursor x)) fuel)
    as (frag & c' & s' & -> & Hc' & [L1 L2] & _ & Hsm' & Hres); try done; try lia.
  { rewrite Hbase. by apply Z.divide_sub_r. }
  { unfold find_measure. rewrite Hbase. replace (va (pt_cursor x) + (e - va (pt_cursor x)) - va (pt_cursor x))
      with (e - va (pt_cursor x)) by lia.
    assert (Z.to_nat ((e - va (pt_cursor x)) / Tlb.PAGE_SIZE) ≤ Z.to_nat (e / Tlb.PAGE_SIZE))%nat; [| nia].
    apply Z2Nat.inj_le; [apply Z.div_pos; lia | apply Z.div_pos; lia |]. apply Z.div_le_mono; lia. }
  cbn [mbind outcome_bind]. destruct (Hsm' Hsm) as [Hsm1 Hp1].
  replace (va (pt_cursor x) + (e - va (pt_cursor x))) with e in Hres by lia.
  destruct frag as [f|].
  2: { destruct Hres as (H1 & H2 & H3). exists num, (set_pt x c' s'). split; [done |]. split; [| lia].
       split; [split; cbn; try done; by rewrite L2 | by split | done | done | | |].
       - split; [done |]. split; [done |]. by split.
       - intros v Hv. cbn [store set_pt]. rewrite H3 by apply Hv. destruct (decide _) as [Hin|]; [by apply H2 | done].
       - intros v pa p Hv _ Ht. by rewrite H2 in Ht. }
  destruct Hres as (a & l & Hl' & Ha & Hdiv & Hva & Hle & Hun & Htr & Htk).
  pose proof (page_size_pos l ltac:(lia)) as Hps.
  destruct (unmap_frag_ok (store x) root (set_pt x c' s') a l f num)
    as (num1 & x1 & -> & C1 & C2 & C3 & C4 & C5 & C6); try done; try lia.
  cbn [mbind outcome_bind]. cbn [pt_cursor store set_pt] in C1, C2.
  destruct (IH x1 num1) as (num' & x' & -> & Hum & N1 & N2).
  - split; rewrite ?C1, ?C2; try done; [by rewrite L2 | apply C3].
  - by rewrite C2, Hp1.
  - rewrite C1, L2, Hva. lia.
  - done.
  - done.
  - rewrite C1, Hva. lia.
  - rewrite C1, Hva.
    assert (Tlb.PAGE_SIZE ≤ page_size l) as Hbig.
    { apply Z.divide_pos_le; [lia |]. rewrite <- Hbase, <- page_size_1. apply page_size_divide. lia. }
    assert ((e - (a + page_size l)) / Tlb.PAGE_SIZE + 1 ≤ (e - va (pt_cursor x)) / Tlb.PAGE_SIZE) as Hdec.
    { rewrite <- Z.div_add by lia. apply Z.div_le_mono; lia. }
    assert (0 ≤ (e - (a + page_size l)) / Tlb.PAGE_SIZE) by (apply Z.div_pos; lia). lia.
  - done.
  - exists num', x'. split; [done |]. split; [| split; [done |]; rewrite C1, Hva in N2; nia].
    apply (unmapped_step root e x x1 x' a l); rewrite ?C1, ?C2; try done; try lia.
Qed.

(** The dispatch hands all pending flushes over. *)
Lemma dispatch_flush x v pa p : will_flush (pending_ops x) v pa p →
  ∃ st, st ∈ dispatched (dispatch_tlb_flush x) ∧ will_flush st v pa p.
Proof.
  intros Hw. unfold dispatch_tlb_flush. destruct (Tlb.is_empty (pending_ops x)) eqn:He.
  - destruct Hw as [Hw _]. by destruct (Tlb.empty_stack _ He v).
  - exists (pending_ops x). cbn. split; [set_solver | done].
Qed.

Lemma dispatch_ok root x : vm_ok root x → vm_ok root (dispatch_tlb_flush x).
Proof.
  intros [H1 H2 H3 H4]. unfold dispatch_tlb_flush. destruct (Tlb.is_empty (pending_ops x)); [done |].
  split; cbn; try done. by apply Tlb.cleared_ok.
Qed.

(** Nothing is left pending. *)
Lemma dispatch_empty x : Tlb.is_empty (pending_ops (dispatch_tlb_flush x)) = true.
Proof. unfold dispatch_tlb_flush. by destruct (Tlb.is_empty (pending_ops x)) eqn:He. Qed.

Lemma dispatch_same x : pt_cursor (dispatch_tlb_flush x) = pt_cursor x ∧
  store (dispatch_tlb_flush x) = store x ∧ iomems (dispatch_tlb_flush x) = iomems x ∧
  ∀ st, st ∈ dispatched x → st ∈ dispatched (dispatch_tlb_flush x).
Proof.
  unfold dispatch_tlb_flush. destruct (Tlb.is_empty (pending_ops x)); [done |].
  do 3 (split; [done |]). cbn. set_solver.
Qed.

(** *** Mapping *)

(** What mapping [n] pages from [pa] on with [p] does. *)
Record mapped_pages (root pa n : Z) (p : PageProperty) (x x' : VmCursor) : Prop := mkMapped {
  mp_ok : vm_ok root x';
  mp_lock : same_lock (pt_cursor x) (pt_cursor x');
  mp_va : va (pt_cursor x') = va (pt_cursor x) + n * Tlb.PAGE_SIZE;
  mp_io : iomems x' = iomems x;
  mp_log : ∀ st, st ∈ dispatched x → st ∈ dispatched x';
  mp_trans : ∀ v, window (pt_cursor x) v → trans (store x') NR_LEVELS root v =
    if decide (va (pt_cursor x) ≤ v < va (pt_cursor x) + n * Tlb.PAGE_SIZE)
    then Some (pa + (v - va (pt_cursor x)), p) else trans (store x) NR_LEVELS root v;
  mp_flush : ∀ v pa0 p0, va (pt_cursor x) ≤ v < va (pt_cursor x) + n * Tlb.PAGE_SIZE → (Tlb.PAGE_SIZE | v) →
    trans (store x) NR_LEVELS root v = Some (pa0, p0) →
    ∃ st, st ∈ dispatched x' ∧ will_flush st v pa0 p0
}.

Lemma map_item_ok root x item pa p :
  (2 ≤ NR_LEVELS)%nat → vm_ok root x → user_into_raw item = (pa, 1%nat, p) → frame_ok 1 pa → prop_ok p →
  va (pt_cursor x) + Tlb.PAGE_SIZE ≤ end_ (barrier_va (pt_cursor x)) →
  (NR_LEVELS ≤ length (pool (store x)))%nat →
  ∃ x', map_item x item = Done x' ∧ mapped_pages root pa 1 p x x' ∧
    (length (pool (store x)) ≤ length (pool (store x')) + NR_LEVELS)%nat.
Proof using Hbase PL EL.
  intros H2 [Hc Hsm Hu Hst] Hraw Hf Hp He Hpool.
  destruct (co_levels _ _ _ Hc) as [Hl Hg]. pose proof (co_va _ _ _ Hc) as [[V0 _] Vd].
  pose proof (co_range _ _ _ Hc) as [[R1 _] _ _]. rewrite Hbase in Vd.
  assert (0 < Tlb.PAGE_SIZE) as Hpg by done. unfold map_item. rewrite <- Hbase, <- page_size_1 in He.
  destruct (map_ok user_into_raw user_from_raw (store x) root (pt_cursor x) item pa 1 p)
    as (res & c' & s' & -> & Hc' & [L1 L2] & V & Hp' & Ht & Ho & Hs'); try done; try lia.
  { rewrite page_size_1, Hbase. done. }
  specialize (Hs' eq_refl Hsm). rewrite page_size_1, Hbase in *. cbn [mbind outcome_bind].
  assert (vm_ok root (set_pt x c' s')) as Hx by (split; cbn; try done; by rewrite L2).
  assert (∀ x', vm_ok root x' → pt_cursor x' = c' → store x' = s' → iomems x' = iomems x →
    (∀ st, st ∈ dispatched x → st ∈ dispatched x') →
    (∀ pa0 p0, trans (store x) NR_LEVELS root (va (pt_cursor x)) = Some (pa0, p0) →
       ∃ st, st ∈ dispatched x' ∧ will_flush st (va (pt_cursor x)) pa0 p0) →
    mapped_pages root pa 1 p x x' ∧ (length (pool (store x)) ≤ length (pool (store x')) + NR_LEVELS)%nat) as Hgo.
  { intros x' X1 X2 X3 X4 X5 X6. split; [| by rewrite X3]. rewrite <- X2 in L1, L2, V.
    split; try done; rewrite ?Z.mul_1_l; try done; [by rewrite X3 |].
    intros v pa0 p0 Hv Hal Htv. rewrite (aligned_page (va (pt_cursor x)) v) in * by done. by apply X6. }
  assert (0 < page_size 1) as Hps by (apply page_size_pos; lia).
  destruct res as [?|[fva old|]]; cbn [old_mapping handle_remapped_frag] in *.
  - eexists. split; [done |]. apply Hgo; try done. intros pa0 p0 Htv. by rewrite Ho in Htv by lia.
  - destruct Ho as (-> & pa0 & p0 & -> & Ho).
    destruct (flush_item_ok (set_pt x c' s') (va (pt_cursor x)) pa0 1 p0) as (x' & -> & X1 & X2 & X3 & X4);
      [done | split; [lia | done] |].
    cbn [mbind outcome_bind]. eexists. split; [done |]. destruct (dispatch_same x') as (D1 & D2 & D3 & D4).
    apply Hgo; rewrite ?D1, ?D2, ?D3; try done.
    + apply dispatch_ok. split; rewrite ?X1, ?X2; [done | done | by apply Hx | apply X3].
    + by destruct X3 as (_ & -> & _).
    + intros st Hst'. apply D4. by destruct X3 as (-> & _).
    + intros pa1 p1 Htv. rewrite Ho, Z.sub_diag, Z.add_0_r in Htv by lia. injection Htv as <- <-.
      by apply dispatch_flush.
  - by destruct Ho as (_ & _ & ?).
Qed.

Lemma mapped_pages_app root pa n p x x1 x' :
  0 ≤ n → va (pt_cursor x) + Tlb.PAGE_SIZE ≤ end_ (barrier_va (pt_cursor x)) →
  va (pt_cursor x) + (1 + n) * Tlb.PAGE_SIZE ≤ end_ (barrier_va (pt_cursor x)) → vm_ok root x →
  mapped_pages root pa 1 p x x1 → mapped_pages root (pa + Tlb.PAGE_SIZE) n p x1 x' →
  mapped_pages root pa (1 + n) p x x'.
Proof.
  intros Hn He1 He [Hc _ _ _] [A1 [L1 L2] A3 A4 A5 A6 A7] [B1 [M1 M2] B3 B4 B5 B6 B7].
  pose proof (co_va _ _ _ Hc) as [[V0 _] _]. assert (Tlb.PAGE_SIZE = 4096) as Hpg by done.
  split; [done | split; congruence | lia | congruence | auto | |].
  - intros v Hv. rewrite B6, A6 by (done || by apply (window_lock (pt_cursor x))). rewrite A3.
    repeat case_decide; try done; try lia. do 2 f_equal. lia.
  - intros v pa0 p0 Hv Hal Ht. destruct (decide (v < va (pt_cursor x) + Tlb.PAGE_SIZE)).
    + destruct (A7 v pa0 p0) as (st & H1 & H2); try done; [lia |]. exists st. auto.
    + apply B7; [lia | done |]. rewrite A6 by (apply (range_window (store x) root); [done | lia]).
      rewrite decide_False by lia. done.
Qed.

Lemma map_io_pages_ok root prop n : ∀ x pa,
  (2 ≤ NR_LEVELS)%nat → vm_ok root x → 0 ≤ pa → (Tlb.PAGE_SIZE | pa) →
  pa + Z.of_nat n * Tlb.PAGE_SIZE ≤ PADDR_END → prop_ok (with_avail1 prop) →
  va (pt_cursor x) + Z.of_nat n * Tlb.PAGE_SIZE ≤ end_ (barrier_va (pt_cursor x)) →
  (n * NR_LEVELS ≤ length (pool (store x)))%nat →
  ∃ x', map_io_pages n x pa prop = Done x' ∧
    mapped_pages root pa (Z.of_nat n) (with_avail1 prop) x x'.
Proof using Hbase PL EL.
  assert (Tlb.PAGE_SIZE = 4096) as Hpg by done.
  induction n as [|n IH]; intros x pa H2 Hx Hpa Hal Hend Hp He Hpool.
  { exists x. split; [done |]. split; try done; [lia | |].
    - intros v _. by rewrite decide_False by lia.
    - intros v pa0 p0 Hv. lia. }
  cbn [map_io_pages]. pose proof (proj1 levels_ok).
  destruct (map_item_ok root x (new_untracked_io pa prop) pa (with_avail1 prop)) as (x1 & -> & Hm & Hp1);
    try done; try lia.
  { split; [done |]. rewrite page_size_1, Hbase. split; [lia |]. split; [done | lia]. }
  cbn [mbind outcome_bind]. pose proof (mp_va _ _ _ _ _ _ Hm) as Hva. destruct (mp_lock _ _ _ _ _ _ Hm) as [_ L2].
  destruct (IH x1 (pa + Tlb.PAGE_SIZE)) as (x' & -> & Hm'); try done; try lia.
  - apply Hm.
  - apply Z.divide_add_r; [done | by exists 1].
  - rewrite L2. lia.
  - exists x'. split; [done |]. replace (Z.of_nat (S n)) with (1 + Z.of_nat n) by lia.
    apply (mapped_pages_app root pa (Z.of_nat n) _ x x1 x'); try done; lia.
Qed.

(** *** I/O memory *)

Lemma without_avail1_off p : has_avail1 (without_avail1 p) = false.
Proof.
  unfold has_avail1, without_avail1. cbn [priv_flags]. apply Z.eqb_neq.
  assert (Z.land (Z.ldiff (priv_flags p) PRIV_AVAIL1) PRIV_AVAIL1 = 0) as ->; [| done].
  apply Z.bits_inj'. intros i _. rewrite Z.land_spec, Z.ldiff_spec, Z.bits_0.
  destruct (Z.testbit (priv_flags p) i), (Z.testbit PRIV_AVAIL1 i); done.
Qed.

(** The I/O memory of [pa] can be found. *)
Definition io_found (l : list IoMem) (pa : Z) : Prop :=
  ∃ io off, find_iomem_by_paddr l pa = Done (Some (io, off)) ∧ io ∈ l ∧ io_paddr io + off = pa ∧
    0 ≤ off < io_size io.

Lemma io_found_in l io pa :
  Forall (λ io, io_paddr io + io_size io < 2 ^ 64) l → io ∈ l →
  io_paddr io ≤ pa < io_paddr io + io_size io → io_found l pa.
Proof.
  induction 1 as [|io' l Hio _ IH]; [set_solver |]. intros Hin Hpa. unfold io_found. cbn [find_iomem_by_paddr].
  unfold checked_add. destruct (Z.ltb_spec (io_paddr io' + io_size io') (2 ^ 64)); [| lia].
  cbn [unwrap mbind outcome_bind].
  destruct (Z.leb_spec (io_paddr io') pa), (Z.ltb_spec pa (io_paddr io' + io_size io')); cbn [andb].
  { exists io', (pa - io_paddr io'). split; [done |]. split; [set_solver | lia]. }
  all: assert (io ∈ l) as Hl by (apply elem_of_cons in Hin as [->|]; [lia | done]).
  all: destruct (IH Hl Hpa) as (io1 & off & F1 & F2 & F3); exists io1, off; split; [done |].
  all: split; [set_solver | done].
Qed.

Lemma io_found_app l l' pa : io_found l pa → io_found (l ++ l') pa.
Proof.
  intros (io & off & Hf & Hin & Hpa). exists io, off. split; [| split; [set_solver | done]].
  clear Hin Hpa. induction l as [|io' l IH]; [done |]. cbn [find_iomem_by_paddr app] in *.
  destruct (unwrap (checked_add 64 (io_paddr io') (io_size io'))) as [e|]; [| done].
  cbn [mbind outcome_bind] in *. destruct (_ && _); [done | by apply IH].
Qed.

(** The I/O memory of every I/O page of the cursor's window can be found. *)
Definition io_known (root : Z) (x : VmCursor) : Prop := ∀ v pa p,
  window (pt_cursor x) v → (Tlb.PAGE_SIZE | v) → trans (store x) NR_LEVELS root v = Some (pa, p) →
  has_avail1 p = true → io_found (iomems x) pa.

(** The pages that [map_iomem] maps. *)
Definition io_pages (io : IoMem) (len offset : Z) : Z :=
  if io_size io <=? offset then 0 else (Z.min len (io_size io - offset) + (Tlb.PAGE_SIZE - 1)) / Tlb.PAGE_SIZE.

Lemma same_io_eq a b : same_io a b = true → a = b.
Proof.
  destruct a, b. unfold same_io. cbn. intros [->%Z.eqb_eq ->%Z.eqb_eq]%andb_true_iff. done.
Qed.

(** The end of [map_iomem]: the I/O memory is on the list. *)
Lemma io_listed (l : list IoMem) io :
  io ∈ (if existsb (λ i, same_io i io) l then l else l ++ [io]).
Proof.
  destruct (existsb (λ i, same_io i io) l) eqn:He; [| set_solver].
  apply existsb_exists in He as (i & Hi & ->%same_io_eq). by apply list_elem_of_In.
Qed.

Lemma page_round n : 0 ≤ n → n ≤ (n + (Tlb.PAGE_SIZE - 1)) / Tlb.PAGE_SIZE * Tlb.PAGE_SIZE < n + Tlb.PAGE_SIZE.
Proof.
  unfold Tlb.PAGE_SIZE. intros Hn. pose proof (Z.div_mod (n + (4096 - 1)) 4096 ltac:(lia)).
  pose proof (Z.mod_pos_bound (n + (4096 - 1)) 4096 ltac:(lia)). lia.
Qed.

(** The physical range that [map_iomem] goes through. *)
Lemma io_span io len offset :
  0 ≤ io_paddr io → 0 ≤ len → 0 ≤ offset < io_size io → io_paddr io + io_size io + Tlb.PAGE_SIZE < 2 ^ 64 →
  checked_add 64 (io_paddr io) offset = Some (io_paddr io + offset) ∧
  ∃ e, (if io_size io - offset <? len
     then unwrap (checked_add 64 (io_paddr io) (io_size io))
     else unwrap (checked_add 64 (io_paddr io) len) ≫= λ e, unwrap (checked_add 64 e offset)) = Done e ∧
   page_steps (io_paddr io + offset) e = Z.to_nat (io_pages io len offset) ∧
   0 ≤ io_pages io len offset ∧
   io_pages io len offset * Tlb.PAGE_SIZE < Z.min len (io_size io - offset) + Tlb.PAGE_SIZE.
Proof.
  intros Hp Hl Ho Hs. assert (0 < Tlb.PAGE_SIZE) as Hpg by done.
  assert (∀ a, a ≤ io_paddr io + io_size io → (a <? 2 ^ 64) = true) as Hlt by (intros a Ha; apply Z.ltb_lt; lia).
  unfold checked_add, io_pages, page_steps. destruct (Z.leb_spec (io_size io) offset); [lia |].
  rewrite Hlt by lia. split; [done |].
  pose proof (page_round (Z.min len (io_size io - offset)) ltac:(lia)) as [_ Hr].
  assert (0 ≤ (Z.min len (io_size io - offset) + (Tlb.PAGE_SIZE - 1)) / Tlb.PAGE_SIZE) by (apply Z.div_pos; lia).
  destruct (Z.ltb_spec (io_size io - offset) len).
  - rewrite Hlt by lia. eexists. split; [done |]. split; [| done]. do 2 f_equal. lia.
  - rewrite Hlt by lia. cbn [unwrap mbind outcome_bind]. rewrite Hlt by lia. eexists. split; [done |].
    split; [| done]. do 2 f_equal. lia.
Qed.

(** ** Properties *)

(** [C16] [CursorMut::unmap] on any cursor over a range of user space, for any
    page-aligned length that fits the range and with one free frame per level
    left: with enough rounds the call returns; afterwards the page walk finds
    nothing in the range and is unchanged everywhere else; no flush is left
    pending; and every page of the range that was mapped is covered by a stack of
    flushes that was dispatched and that keeps its frame alive if the frame is
    tracked. The count it returns is at most the number of pages of the range. *)
Theorem unmap_exact root x len :
  vm_ok root x → (NR_LEVELS ≤ length (pool (store x)))%nat → 0 ≤ len → (Tlb.PAGE_SIZE | len) →
  va (pt_cursor x) + len ≤ end_ (barrier_va (pt_cursor x)) →
  ∃ fuel0, ∀ fuel, (fuel0 ≤ fuel)%nat → ∃ n x', unmap fuel x len = Done (n, x') ∧
    vm_ok root x' ∧ same_lock (pt_cursor x) (pt_cursor x') ∧ va (pt_cursor x) + len ≤ va (pt_cursor x') ∧
    pool (store x') = pool (store x) ∧ 0 ≤ n ∧ n * Tlb.PAGE_SIZE ≤ len ∧
    Tlb.is_empty (pending_ops x') = true ∧ (io_known root x → io_known root x') ∧
    (∀ v, window (pt_cursor x) v → walk (store x') root v =
       if decide (va (pt_cursor x) ≤ v < va (pt_cursor x) + len) then Done None else walk (store x) root v) ∧
    ∀ v pa p, va (pt_cursor x) ≤ v < va (pt_cursor x) + len → (Tlb.PAGE_SIZE | v) →
      walk (store x) root v = Done (Some (pa, p)) →
      ∃ st, st ∈ dispatched x' ∧ Tlb.covers st v ∧ (has_avail1 p = false → Tlb.kept st pa).
Proof using Hbase PL EL.
  intros Hx Hpool Hlen Hal He. pose proof (vo_cur _ _ Hx) as Hc.
  pose proof (co_va _ _ _ Hc) as [[V0 _] Vd]. pose proof (co_range _ _ _ Hc) as [[R1 [R2 R3]] _ _].
  rewrite Hbase in Vd. set (e := va (pt_cursor x) + len) in *.
  exists (S (Z.to_nat (e / Tlb.PAGE_SIZE) * S NR_LEVELS + NR_LEVELS + Z.to_nat (len / Tlb.PAGE_SIZE))).
  intros fuel Hf. unfold unmap, checked_add. fold e.
  destruct (Z.ltb_spec e (2 ^ 64)); [| lia]. cbn [unwrap mbind outcome_bind].
  destruct (unmap_loop_ok root e fuel fuel x 0) as (n & x' & -> & [U1 U2 U3 U4 U5 U6 U7] & N1 & N2); try done.
  { lia. }
  { by apply Z.divide_add_r. }
  { lia. }
  { replace (e - va (pt_cursor x)) with len by lia. lia. }
  { lia. }
  cbn [mbind outcome_bind]. exists n, (dispatch_tlb_flush x'). destruct (dispatch_same x') as (D1 & D2 & D3 & _).
  pose proof (dispatch_ok root x' U1) as Hok. rewrite D1, D2 in *. split; [done |]. do 4 (split; [done |]).
  split; [done |]. split; [lia |]. split; [apply dispatch_empty |]. destruct U5 as (_ & Hio & _). split; [| split].
  - intros Hk v pa p Hw Hal' Ht Hp. rewrite D3, Hio. rewrite D1 in Hw. rewrite D2 in Ht.
    assert (window (pt_cursor x) v) as Hw'.
    { apply (window_lock (pt_cursor x')); [| done]. destruct U2 as [A B]. by split. }
    rewrite U6 in Ht by done. destruct (decide _); [done |]. by apply (Hk v pa p).
  - intros v Hv. rewrite !walk_trans by (apply Hv || apply Hc || apply U1). rewrite U6 by done. by destruct (decide _).
  - intros v pa p Hv Hva Ht. apply dispatch_flush, (U7 v); try done.
    rewrite walk_trans in Ht; [congruence | apply Hc |]. apply (range_window (store x) root (pt_cursor x)); [done | lia].
Qed.

(** [CursorMut::map] of a user frame, on any cursor with room for one page:
    it returns; the page walk translates the page at the cursor to the frame and
    every other address as before; the cursor is one page further; and if a page
    was mapped there, its flush was dispatched with its frame kept alive. *)
Theorem vm_map_exact root x frame prop :
  (2 ≤ NR_LEVELS)%nat → vm_ok root x → frame_ok 1 frame → prop_ok (without_avail1 prop) →
  va (pt_cursor x) + Tlb.PAGE_SIZE ≤ end_ (barrier_va (pt_cursor x)) →
  (NR_LEVELS ≤ length (pool (store x)))%nat →
  ∃ x', vm_map x frame prop = Done x' ∧ vm_ok root x' ∧ same_lock (pt_cursor x) (pt_cursor x') ∧
    va (pt_cursor x') = va (pt_cursor x) + Tlb.PAGE_SIZE ∧ (io_known root x → io_known root x') ∧
    (length (pool (store x)) ≤ length (pool (store x')) + NR_LEVELS)%nat ∧
    (∀ v, window (pt_cursor x) v → walk (store x') root v =
       if decide (va (pt_cursor x) ≤ v < va (pt_cursor x) + Tlb.PAGE_SIZE)
       then Done (Some (frame + (v - va (pt_cursor x)), without_avail1 prop)) else walk (store x) root v) ∧
    ∀ pa p, walk (store x) root (va (pt_cursor x)) = Done (Some (pa, p)) →
      ∃ st, st ∈ dispatched x' ∧ Tlb.covers st (va (pt_cursor x)) ∧ (has_avail1 p = false → Tlb.kept st pa).
Proof using Hbase PL EL.
  intros H2 Hx Hf Hp He Hpool. pose proof (vo_cur _ _ Hx) as Hc.
  pose proof (co_va _ _ _ Hc) as [[V0 _] Vd]. rewrite Hbase in Vd. assert (0 < Tlb.PAGE_SIZE) as Hpg by done.
  destruct (map_item_ok root x (new_tracked frame prop) frame (without_avail1 prop))
    as (x' & Hrun & [M1 M2 M3 M4 M5 M6 M7] & Hp'); try done. rewrite Z.mul_1_l in *.
  exists x'. do 4 (split; [done |]). split; [| split; [done | split]].
  - intros Hk v pa p Hw Hal Ht Hio. rewrite M4.
    assert (window (pt_cursor x) v) as Hw'.
    { apply (window_lock (pt_cursor x')); [| done]. destruct M2 as [A B]. by split. }
    rewrite M6 in Ht by done. destruct (decide _); [| by apply (Hk v pa p)].
    injection Ht as <- <-. by rewrite without_avail1_off in Hio.
  - intros v Hv. rewrite !walk_trans by (apply Hv || apply Hc || apply M1). rewrite M6 by done. by destruct (decide _).
  - intros pa p Ht. apply (M7 (va (pt_cursor x)) pa p); [lia | done |].
    rewrite walk_trans in Ht; [congruence | apply Hc |]. apply (range_window (store x) root (pt_cursor x)); [done | lia].
Qed.

(** [CursorMut::map_iomem]: for page-aligned I/O memory, length and offset,
    with room for the pages, it returns; exactly the pages of the I/O memory from
    [offset] on, up to [len] bytes or its end, are mapped from the cursor's
    address on, everything else is mapped as before; and if before the call
    [find_iomem_by_paddr] found the I/O memory of every page that is mapped as
    I/O memory, it does so afterwards, the new pages included. *)
Theorem map_iomem_exact root x io prop len offset :
  (2 ≤ NR_LEVELS)%nat → vm_ok root x → prop_ok (with_avail1 prop) →
  0 ≤ io_paddr io → (Tlb.PAGE_SIZE | io_paddr io) → 0 ≤ io_size io →
  io_paddr io + io_size io + Tlb.PAGE_SIZE ≤ PADDR_END → PADDR_END < 2 ^ 64 →
  0 ≤ len → (Tlb.PAGE_SIZE | len) → 0 ≤ offset → (Tlb.PAGE_SIZE | offset) →
  let n := io_pages io len offset in
  va (pt_cursor x) + n * Tlb.PAGE_SIZE ≤ end_ (barrier_va (pt_cursor x)) →
  (Z.to_nat n * NR_LEVELS ≤ length (pool (store x)))%nat →
  Forall (λ io, io_paddr io + io_size io < 2 ^ 64) (iomems x) → io_known root x →
  ∃ x', map_iomem x io prop len offset = Done x' ∧ vm_ok root x' ∧
    va (pt_cursor x') = va (pt_cursor x) + n * Tlb.PAGE_SIZE ∧ io_known root x' ∧
    ∀ v, window (pt_cursor x) v → walk (store x') root v =
      if decide (va (pt_cursor x) ≤ v < va (pt_cursor x) + n * Tlb.PAGE_SIZE)
      then Done (Some (io_paddr io + offset + (v - va (pt_cursor x)), with_avail1 prop))
      else walk (store x) root v.
Proof using Hbase PL EL.
  intros H2 Hx Hp I1 I2 I3 I4 I5 L1 L2 O1 O2 n He Hpool Hios Hk. pose proof (vo_cur _ _ Hx) as Hc.
  pose proof (co_va _ _ _ Hc) as [_ Vd]. rewrite Hbase in Vd.
  unfold map_iomem. apply Z.mod_divide in L2 as L2', O2 as O2'; [| done ..]. rewrite L2', O2'.
  cbn [Z.eqb assert_that mbind outcome_bind].
  destruct (Z.leb_spec (io_size io) offset) as [Hoff|Hoff].
  { assert (n = 0) as -> by (unfold n, io_pages; by destruct (Z.leb_spec (io_size io) offset); [| lia]).
    exists x. split; [done |]. split; [done |]. split; [lia |]. split; [done |].
    intros v _. by rewrite decide_False by lia. }
  assert (0 < Tlb.PAGE_SIZE) as Hpg by done.
  destruct (io_span io len offset) as (-> & e & -> & Hst & N1 & N2); try lia. fold n in Hst, N1, N2.
  cbn [unwrap mbind outcome_bind]. rewrite Hst.
  destruct (map_io_pages_ok root prop (Z.to_nat n) x (io_paddr io + offset)) as (x' & -> & [M1 M2 M3 M4 M5 M6 M7]);
    try done; rewrite ?Z2Nat.id by done; try lia; [by apply Z.divide_add_r |].
  rewrite Z2Nat.id in * by done. cbn [mbind outcome_bind].
  set (x'' := if existsb _ _ then x' else _).
  assert (pt_cursor x'' = pt_cursor x' ∧ store x'' = store x' ∧ pending_ops x'' = pending_ops x' ∧
    iomems x'' = if existsb (λ i, same_io i io) (iomems x') then iomems x' else iomems x' ++ [io])
    as (X1 & X2 & X3 & X4) by (unfold x''; by destruct (existsb _ _)).
  exists x''. split; [done |]. clearbody x''. rewrite M4 in X4. rewrite X1, X2. split; [split; rewrite ?X1, ?X2, ?X3; apply M1 |].
  split; [done |]. split.
  - intros v pa p Hw Hal Ht Hio. rewrite X1 in Hw. rewrite X2 in Ht.
    assert (window (pt_cursor x) v) as Hw'.
    { apply (window_lock (pt_cursor x')); [| done]. destruct M2 as [A B]. by split. }
    rewrite X4. rewrite M6 in Ht by done. destruct (decide _) as [Hin|].
    + injection Ht as <- <-. apply (io_found_in _ io).
      * destruct (existsb _ _); [done |]. apply Forall_app. split; [done |]. apply Forall_singleton. lia.
      * apply io_listed.
      * destruct Vd as [q Hq], Hal as [q' Hq']. unfold Tlb.PAGE_SIZE in *. nia.
    + specialize (Hk v pa p Hw' Hal Ht Hio). destruct (existsb _ _); [done | by apply io_found_app].
  - intros v Hv. rewrite !walk_trans by (apply Hv || apply Hc || apply M1). rewrite M6 by done. by destruct (decide _).
Qed.
End Theory.

(** ** Witnesses *)

Section Witnesses.
#[local] Existing Instance user_consts.

(** A page table that maps nothing maps only base pages. *)
Lemma small_empty {PC : PagingConsts} {PL : @PagingLaws PC}
  {EL : @PteLaws PC PageTableEntry PageProperty x86_pte_ops} (s : Store PageTableEntry) root :
  pt_ok s root → (∀ v, managed_va v → walk s root v = Done None) → small s root.
Proof.
  intros Hpt Hw v Hv Ht. pose proof (Hw v Hv) as H. rewrite walk_trans in H by done. by injection H.
Qed.

Lemma user_base : BASE_PAGE_SIZE = Tlb.PAGE_SIZE.
Proof. reflexivity. Qed.

Definition demo_vm (x : VmCursor) : Prop :=
  vm_ok 0x1000 x ∧ va (pt_cursor x) = 0x400000 ∧ barrier_va (pt_cursor x) = demo_range ∧
  (12 ≤ length (pool (store x)))%nat ∧ iomems x = [] ∧
  ∀ v, managed_va v → walk (store x) 0x1000 v = Done None.

Lemma demo_vm_exists : ∃ x, demo_vm x.
Proof.
  destruct demo_cursor as (c & s & _ & Hc & Hva & Hr & Hp & Hw).
  exists (mkVm c s Tlb.ops_new [] []). split; [| split; [exact Hva | split; [exact Hr | split; [exact Hp | split; [reflexivity | exact Hw]]]]].
  split; cbn [pt_cursor store pending_ops].
  - exact Hc.
  - apply small_empty; [apply Hc | exact Hw].
  - rewrite Hr. vm_compute. discriminate.
  - apply Tlb.ops_new_ok.
Qed.

Lemma demo_page_ok : frame_ok 1 0xABC000 ∧ prop_ok (without_avail1 demo_prop).
Proof. exact demo_frame_ok. Qed.

Lemma vm_map_exact_witness : ∃ x x', demo_vm x ∧ vm_map x 0xABC000 demo_prop = Done x' ∧
  vm_ok 0x1000 x' ∧ walk (store x') 0x1000 0x400123 = Done (Some (0xABC123, demo_prop)) ∧
  walk (store x') 0x1000 0x401000 = Done None.
Proof.
  destruct demo_vm_exists as (x & Hd). pose proof Hd as (Hx & Hva & Hr & Hp & _ & Hw).
  destruct demo_page_ok as [Hf Hpr].
  destruct (vm_map_exact user_base 0x1000 x 0xABC000 demo_prop) as (x' & Hrun & Hx' & _ & _ & _ & _ & Ht & _).
  - change (2 ≤ 4)%nat. lia.
  - exact Hx.
  - exact Hf.
  - exact Hpr.
  - rewrite Hva, Hr. vm_compute. discriminate.
  - change (4 ≤ length (pool (store x)))%nat. lia.
  - exists x, x'. split; [exact Hd |]. split; [exact Hrun |]. split; [exact Hx' |].
    assert (∀ v, 0x400000 ≤ v < 0x800000 → window (pt_cursor x) v) as Hwin.
    { intros v Hv. apply (range_window (store x) 0x1000 (pt_cursor x) v (vo_cur _ _ Hx)). rewrite Hr. exact Hv. }
    assert (managed_va 0x401000) as Hm by reflexivity.
    rewrite !Ht by (apply Hwin; lia). rewrite Hva, (Hw _ Hm). unfold Tlb.PAGE_SIZE.
    split; destruct (decide _); lia || reflexivity.
Defined.

(** The frame of a page that was mapped and is unmapped is kept by the flush. *)
Lemma unmap_exact_witness : ∃ x fuel0, vm_ok 0x1000 x ∧
  ∀ fuel, (fuel0 ≤ fuel)%nat → ∃ n x' st, unmap fuel x 0x400000 = Done (n, x') ∧
    walk (store x') 0x1000 0x400000 = Done None ∧ st ∈ dispatched x' ∧
    Tlb.covers st 0x400000 ∧ Tlb.kept st 0xABC000.
Proof.
  destruct demo_vm_exists as (x0 & Hx0 & Hva0 & Hr0 & Hp0 & _ & _). destruct demo_page_ok as [Hf Hpr].
  destruct (map_item_ok user_base 0x1000 x0 (new_tracked 0xABC000 demo_prop) 0xABC000 (without_avail1 demo_prop))
    as (x1 & _ & [M1 [_ L1] M3 _ _ M6 _] & Hp1).
  { change (2 ≤ 4)%nat. lia. }
  { exact Hx0. }
  { reflexivity. }
  { exact Hf. }
  { exact Hpr. }
  { rewrite Hva0, Hr0. vm_compute. discriminate. }
  { change (4 ≤ length (pool (store x0)))%nat. lia. }
  assert (va (pt_cursor x1) < node_end (pt_cursor x1)) as Hin.
  { apply (inside_range (store x1) 0x1000 _ (vo_cur _ _ M1)). rewrite M3, L1, Hva0, Hr0. reflexivity. }
  destruct (jump_loop_ok (store x1) 0x1000 0x400000 5 (pt_cursor x1) (vo_cur _ _ M1) Hin) as (c2 & _ & Hc2 & [_ L2] & Hva2).
  { pose proof (co_levels _ _ _ (vo_cur _ _ M1)) as [Hl Hg]. change (@NR_LEVELS user_consts) with 4%nat in Hg. lia. }
  { rewrite L1, Hr0. vm_compute. split; [discriminate | reflexivity]. }
  { exists 0x400. reflexivity. }
  assert (vm_ok 0x1000 (set_pt x1 c2 (store x1))) as Hx2.
  { split; cbn [pt_cursor store pending_ops set_pt]; [exact Hc2 | apply M1 | rewrite L2; apply M1 | apply M1]. }
  destruct (unmap_exact user_base 0x1000 (set_pt x1 c2 (store x1)) 0x400000 Hx2) as (fuel0 & Hu);
    cbn [pt_cursor store set_pt].
  { change (@NR_LEVELS user_consts) with 4%nat in *. lia. }
  { lia. }
  { exists 0x400. reflexivity. }
  { rewrite Hva2, L2, L1, Hr0. vm_compute. discriminate. }
  exists (set_pt x1 c2 (store x1)), fuel0. split; [exact Hx2 |]. intros fuel Hfuel.
  destruct (Hu fuel Hfuel) as (n & x' & Hrun & _ & _ & _ & _ & _ & _ & _ & _ & Ht & Hfl).
  cbn [pt_cursor store set_pt] in Ht, Hfl. rewrite Hva2 in Ht, Hfl.
  assert (window (pt_cursor x0) 0x400000) as Hw0.
  { apply (range_window (store x0) 0x1000 _ _ (vo_cur _ _ Hx0)). rewrite Hr0. vm_compute. split; [discriminate | reflexivity]. }
  assert (window c2 0x400000) as Hw2.
  { apply (range_window (store x1) 0x1000 _ _ Hc2). rewrite L2, L1, Hr0. vm_compute. split; [discriminate | reflexivity]. }
  destruct (Hfl 0x400000 0xABC000 demo_prop) as (st & S1 & S2 & S3).
  - lia.
  - exists 0x400. reflexivity.
  - rewrite walk_trans by (apply (co_pt _ _ _ (vo_cur _ _ M1)) || apply Hw0).
    rewrite (M6 _ Hw0), Hva0. reflexivity.
  - exists n, x', st. split; [exact Hrun |]. split; [rewrite (Ht _ Hw2); reflexivity |].
    split; [exact S1 |]. split; [exact S2 | apply S3; reflexivity].
Defined.

(** One and a half pages of I/O memory. *)
Definition demo_io : IoMem := mkIoMem 0xFEC00000 0x1800.

Lemma map_iomem_exact_witness : ∃ x x', demo_vm x ∧ map_iomem x demo_io demo_prop 0x3000 0 = Done x' ∧
  va (pt_cursor x') = 0x402000 ∧ io_known 0x1000 x' ∧
  walk (store x') 0x1000 0x401000 = Done (Some (0xFEC01000, with_avail1 demo_prop)).
Proof.
  destruct demo_vm_exists as (x & Hd). pose proof Hd as (Hx & Hva & Hr & Hp & Hio & Hw).
  assert (∀ v, 0x400000 ≤ v < 0x800000 → window (pt_cursor x) v) as Hwin.
  { intros v Hv. apply (range_window (store x) 0x1000 (pt_cursor x) v (vo_cur _ _ Hx)). rewrite Hr. exact Hv. }
  destruct (map_iomem_exact user_base 0x1000 x demo_io demo_prop 0x3000 0) as (x' & Hrun & Hx' & Hva' & Hk & Ht).
  - change (2 ≤ 4)%nat. lia.
  - exact Hx.
  - vm_compute. repeat split; discriminate || reflexivity.
  - cbn. lia.
  - exists 0xFEC00. reflexivity.
  - cbn. lia.
  - vm_compute. discriminate.
  - vm_compute. reflexivity.
  - lia.
  - exists 3. reflexivity.
  - lia.
  - exists 0. reflexivity.
  - rewrite Hva, Hr. vm_compute. discriminate.
  - change (8 ≤ length (pool (store x)))%nat. lia.
  - rewrite Hio. constructor.
  - intros v pa p Hv _ Htv _. pose proof (Hw v (proj1 Hv)) as Hn.
    rewrite walk_trans in Hn by (apply (co_pt _ _ _ (vo_cur _ _ Hx)) || apply Hv). rewrite Htv in Hn. discriminate.
  - exists x, x'. split; [exact Hd |]. split; [exact Hrun |]. rewrite Hva' , Hva. split; [reflexivity |].
    split; [exact Hk |]. rewrite Ht by (apply Hwin; lia). rewrite Hva. reflexivity.
Defined.
End Witnesses.
