(* ===== verification/IntervalSet.v ===== *)
(** * Interval sets

    [kernel/src/vm/vmar/interval_set.rs]: items with disjoint ranges, kept in a
    B-tree by the start of their range. The B-tree is the list of its items in the
    order of their keys; its cursors point between two items. *)

From S2P Require Import Prelude.
Local Open Scope Z_scope.

(** [trait Interval]: an item has a range. *)
Class Interval (V : Type) : Type := { rstart : V → Z; rend : V → Z }.

Module IntervalSet.
Section Set_.
Context {V : Type} `{Interval V}.

(** [BTreeMap::insert] with the start of the item as its key *)
Fixpoint insert (item : V) (l : list V) : list V :=
  match l with
  | [] => [item]
  | v :: r =>
      if rstart item <? rstart v then item :: l
      else if rstart item =? rstart v then item :: r
      else v :: insert item r
  end.

Fixpoint remove (key : Z) (l : list V) : option V * list V :=
  match l with
  | [] => (None, [])
  | v :: r =>
      if rstart v =? key then (Some v, r)
      else let '(o, r') := remove key r in (o, v :: r')
  end.

(** The cursor behind the leading items that satisfy [p]: the item before it,
    and those after it. *)
Fixpoint seek (p : V → bool) (prev : option V) (l : list V) : option V * list V :=
  match l with
  | [] => (prev, [])
  | v :: r => if p v then seek p (Some v) r else (prev, l)
  end.

(** [lower_bound(Excluded(point))] and [upper_bound(Excluded(point))] *)
Definition lower_bound_excluded (point : Z) (l : list V) : option V * list V :=
  seek (λ v, rstart v <=? point) None l.
Definition upper_bound_excluded (point : Z) (l : list V) : option V * list V :=
  seek (λ v, rstart v <? point) None l.

Definition find_one (point : Z) (l : list V) : option V :=
  match (lower_bound_excluded point l).1 with
  | Some v => if point <? rend v then Some v else None
  | None => None
  end.

(** The rest of [IntervalIter] after the previous item. *)
Fixpoint until_end (b : Z) (l : list V) : list V :=
  match l with
  | [] => []
  | v :: r => if b <=? rstart v then [] else v :: until_end b r
  end.

Definition find (a b : Z) (l : list V) : list V :=
  let '(prev, rest) := lower_bound_excluded a l in
  match prev with
  | Some v => if a <? rend v then v :: until_end b rest else until_end b rest
  | None => until_end b rest
  end.

Definition find_prev (point : Z) (l : list V) : option V := (upper_bound_excluded point l).1.
Definition find_next (point : Z) (l : list V) : option V := head (lower_bound_excluded point l).2.

(** ** Lemmas *)

(** The items are in order and disjoint, and none starts below [lo]. *)
Fixpoint chain (lo : Z) (l : list V) : Prop :=
  match l with
  | [] => True
  | v :: r => lo ≤ rstart v ∧ rstart v < rend v ∧ chain (rend v) r
  end.

Definition disjoint (v w : V) : Prop := rend v ≤ rstart w ∨ rend w ≤ rstart v.

Lemma chain_weaken lo lo' l : lo' ≤ lo → chain lo l → chain lo' l.
Proof. destruct l as [|v l]; [done |]. cbn. intros ? (? & ? & ?). split; [lia | done]. Qed.

Lemma chain_elem lo l v : chain lo l → v ∈ l → lo ≤ rstart v ∧ rstart v < rend v.
Proof.
  revert lo. induction l as [|w l IH]; intros lo; [by intros _ ?%not_elem_of_nil |].
  intros (H1 & H2 & H3) [->|Hv]%elem_of_cons; [done |].
  destruct (IH _ H3 Hv). lia.
Qed.

Lemma chain_app lo l l' : chain lo (l ++ l') ↔
  chain lo l ∧ chain (from_option rend lo (last l)) l'.
Proof.
  revert lo. induction l as [|v l IH]; intros lo; cbn [app chain]; [naive_solver |].
  rewrite IH. destruct l as [|w l]; cbn [last]; [naive_solver |].
  destruct (last (w :: l)) eqn:Hl; [naive_solver |]. by apply last_None in Hl.
Qed.

Lemma chain_app_le lo l l' v w : chain lo (l ++ l') → v ∈ l → w ∈ l' → rend v ≤ rstart w.
Proof.
  revert lo. induction l as [|u l IH]; intros lo; [by intros _ ?%not_elem_of_nil |].
  intros (H1 & H2 & H3) [->|Hv]%elem_of_cons Hw; [| by apply (IH (rend u))].
  destruct (chain_elem (rend u) (l ++ l') w H3); [set_solver | done].
Qed.

(** The position of an item in the chain. *)
Lemma chain_split lo l v : chain lo l → v ∈ l →
  ∃ l1 l2, l = l1 ++ v :: l2 ∧ chain lo l1 ∧ chain (rend v) l2 ∧
    (∀ w, w ∈ l1 → rend w ≤ rstart v) ∧ ∀ w, w ∈ l2 → rend v ≤ rstart w.
Proof.
  revert lo. induction l as [|w l IH]; intros lo Hc Hv; [by apply not_elem_of_nil in Hv |].
  destruct Hc as (H1 & H2 & H3). apply elem_of_cons in Hv as [->|Hv].
  - exists [], l. split; [done |]. split; [done |]. split; [done |]. split; [set_solver |].
    intros w' Hw'. by destruct (chain_elem _ _ _ H3 Hw').
  - destruct (IH _ H3 Hv) as (l1 & l2 & -> & C1 & C2 & D1 & D2).
    exists (w :: l1), l2. split; [done |]. split; [done |]. split; [done |]. split; [| done].
    intros w' [->|Hw']%elem_of_cons; [| by apply D1].
    by destruct (chain_elem _ _ _ H3 Hv).
Qed.

Lemma chain_disjoint lo l v w : chain lo l → v ∈ l → w ∈ l → v = w ∨ disjoint v w.
Proof.
  intros Hc Hv Hw. destruct (chain_split lo l v Hc Hv) as (l1 & l2 & -> & _ & _ & D1 & D2).
  apply elem_of_app in Hw as [Hw|[->|Hw]%elem_of_cons]; unfold disjoint; auto.
Qed.

Lemma chain_unique lo l v w p : chain lo l → v ∈ l → w ∈ l →
  rstart v ≤ p < rend v → rstart w ≤ p < rend w → v = w.
Proof. intros Hc Hv Hw Hp Hq. destruct (chain_disjoint lo l v w Hc Hv Hw) as [|[|]]; [done | lia | lia]. Qed.

(** *** Seeking *)

(** The predicate holds on a prefix of the items. *)
Lemma seek_spec (p : V → bool) prev l : ∃ l1 l2, l = l1 ++ l2 ∧
  seek p prev l = (match last l1 with Some v => Some v | None => prev end, l2) ∧
  (∀ v, v ∈ l1 → p v = true) ∧ (∀ v r, l2 = v :: r → p v = false).
Proof.
  revert prev. induction l as [|v l IH]; intros prev; cbn [seek].
  { exists [], []. split; [done |]. split; [done |]. split; [set_solver | done]. }
  destruct (p v) eqn:Hp.
  - destruct (IH (Some v)) as (l1 & l2 & -> & -> & H1 & H2). exists (v :: l1), l2.
    split; [done |]. split; [| split; [set_solver | done]].
    f_equal. destruct l1 as [|w l1]; [done |]. cbn [last].
    destruct (last (w :: l1)) eqn:Hl; [done | by apply last_None in Hl].
  - exists [], (v :: l). split; [done |]. split; [done |]. split; [set_solver |]. by intros ? ? [= <- <-].
Qed.

(** All items behind a cursor that stopped satisfy the negation, for a test that
    is monotone in the start. *)
Lemma lower_bound_spec lo l p : chain lo l → ∃ l1 l2, l = l1 ++ l2 ∧
  lower_bound_excluded p l = (last l1, l2) ∧
  (∀ v, v ∈ l1 → rstart v ≤ p) ∧ (∀ v, v ∈ l2 → p < rstart v).
Proof.
  intros Hc. unfold lower_bound_excluded.
  destruct (seek_spec (λ v, rstart v <=? p) None l) as (l1 & l2 & -> & -> & H1 & H2).
  exists l1, l2. split; [done |]. split; [by destruct (last l1) |].
  split; [intros v Hv; apply Z.leb_le; by apply H1 |].
  destruct l2 as [|w l2]; [set_solver |]. specialize (H2 w l2 eq_refl). apply Z.leb_gt in H2.
  apply chain_app in Hc as [_ (_ & H3 & H4)]. intros v [->|Hv]%elem_of_cons; [done |].
  destruct (chain_elem _ _ _ H4 Hv). lia.
Qed.

Lemma upper_bound_spec lo l p : chain lo l → ∃ l1 l2, l = l1 ++ l2 ∧
  upper_bound_excluded p l = (last l1, l2) ∧
  (∀ v, v ∈ l1 → rstart v < p) ∧ (∀ v, v ∈ l2 → p ≤ rstart v).
Proof.
  intros Hc. unfold upper_bound_excluded.
  destruct (seek_spec (λ v, rstart v <? p) None l) as (l1 & l2 & -> & -> & H1 & H2).
  exists l1, l2. split; [done |]. split; [by destruct (last l1) |].
  split; [intros v Hv; apply Z.ltb_lt; by apply H1 |].
  destruct l2 as [|w l2]; [set_solver |]. specialize (H2 w l2 eq_refl). apply Z.ltb_ge in H2.
  apply chain_app in Hc as [_ (_ & H3 & H4)]. intros v [->|Hv]%elem_of_cons; [done |].
  destruct (chain_elem _ _ _ H4 Hv). lia.
Qed.

(** Only the last item before a cursor can reach behind it. *)
Lemma chain_before lo l1 l2 v w : chain lo (l1 ++ l2) → last l1 = Some v → w ∈ l1 →
  w = v ∨ rend w ≤ rstart v.
Proof.
  intros Hc [l' ->]%last_Some Hw. rewrite <- app_assoc in Hc.
  apply elem_of_app in Hw as [Hw|[->|?%not_elem_of_nil]%elem_of_cons]; [right | by left | done].
  apply (chain_app_le lo l' ([v] ++ l2)); [done | done | set_solver].
Qed.

Lemma find_one_exact lo l p v : chain lo l →
  find_one p l = Some v ↔ v ∈ l ∧ rstart v ≤ p < rend v.
Proof.
  intros Hc. unfold find_one. destruct (lower_bound_spec lo l p Hc) as (l1 & l2 & -> & -> & H1 & H2). cbn [fst].
  destruct (last l1) as [u|] eqn:Hu.
  - assert (u ∈ l1) as Hin by (apply last_Some in Hu as [l' ->]; set_solver).
    destruct (Z.ltb_spec p (rend u)) as [Hp|Hp].
    + split; [intros [= <-]; split; [set_solver | split; [by apply H1 | done]] |].
      intros [Hv Hr]. f_equal. apply (chain_unique lo (l1 ++ l2) u v p); try done; [set_solver |].
      split; [by apply H1 | done].
    + split; [done |]. intros [[Hv|Hv]%elem_of_app Hr]; [| specialize (H2 v Hv); lia].
      destruct (chain_before lo l1 l2 u v Hc Hu Hv) as [->|]; [lia |]. specialize (H1 u Hin). lia.
  - apply last_None in Hu as ->. split; [done |]. intros [Hv Hr]. specialize (H2 v Hv). lia.
Qed.

Lemma find_one_none lo l p : chain lo l →
  find_one p l = None ↔ ∀ v, v ∈ l → ¬ (rstart v ≤ p < rend v).
Proof.
  intros Hc. split.
  - intros Hn v Hv Hr. assert (find_one p l = Some v) as Hs by (by apply (find_one_exact lo)). congruence.
  - intros Hno. destruct (find_one p l) as [v|] eqn:Hf; [| done].
    apply (find_one_exact lo) in Hf as [Hv Hr]; [| done]. by destruct (Hno v Hv).
Qed.

(** *** Range queries *)

Definition meets (a b : Z) (v : V) : Prop := rstart v < b ∧ a < rend v.
#[global] Instance meets_dec a b v : Decision (meets a b v).
Proof. unfold meets. apply _. Defined.

Lemma until_end_exact lo b l : chain lo l → until_end b l = filter (λ v, rstart v < b) l.
Proof.
  revert lo. induction l as [|v l IH]; intros lo Hc; [done |]. destruct Hc as (H1 & H2 & H3).
  cbn [until_end]. rewrite filter_cons. destruct (Z.leb_spec b (rstart v)) as [Hb|Hb].
  - rewrite decide_False by lia. symmetry. apply filter_none, Forall_forall. intros w Hw. destruct (chain_elem _ _ _ H3 Hw). lia.
  - rewrite decide_True by done. f_equal. by apply (IH (rend v)).
Qed.

Lemma find_exact lo a b l : chain lo l → a < b → find a b l = filter (meets a b) l.
Proof.
  intros Hc Hab. unfold find. destruct (lower_bound_spec lo l a Hc) as (l1 & l2 & -> & -> & H1 & H2).
  assert (∃ lo', chain lo' l2) as [lo' Hc2] by (apply chain_app in Hc as [_ Hc]; by eexists).
  assert (until_end b l2 = filter (meets a b) l2) as Hrest.
  { rewrite (until_end_exact lo') by done. apply filter_ext, Forall_forall. intros v Hv.
    specialize (H2 v Hv). destruct (chain_elem lo' l2 v Hc2 Hv). unfold meets. lia. }
  rewrite filter_app, Hrest. destruct (last l1) as [u|] eqn:Hu.
  - pose proof Hu as [l' Hl']%last_Some. subst l1. rewrite filter_app.
    rewrite (filter_none (meets a b) l'), filter_cons, filter_nil; cbn [app].
    + specialize (H1 u ltac:(set_solver)). unfold meets.
      destruct (Z.ltb_spec a (rend u)); [rewrite decide_True by lia | rewrite decide_False by lia]; done.
    + apply Forall_forall. intros v Hv. specialize (H1 u ltac:(set_solver)). rewrite <- app_assoc in Hc.
      assert (rend v ≤ rstart u) by (apply (chain_app_le lo l' ([u] ++ l2)); [done | done | set_solver]).
      unfold meets. lia.
  - apply last_None in Hu as ->. done.
Qed.

Lemma find_elem lo a b l v : chain lo l → a < b → v ∈ find a b l ↔ v ∈ l ∧ meets a b v.
Proof. intros Hc Hab. rewrite (find_exact lo) by done. rewrite list_elem_of_filter. tauto. Qed.

Lemma chain_filter lo l (P : V → Prop) `{∀ v, Decision (P v)} : chain lo l → chain lo (filter P l).
Proof.
  revert lo. induction l as [|v l IH]; intros lo Hc; [done |]. destruct Hc as (H1 & H2 & H3).
  rewrite filter_cons. case_decide; [split; [done |]; split; [done | by apply IH] |].
  apply IH, (chain_weaken (rend v)); [lia | done].
Qed.

(** *** Insertion and removal *)

Lemma chain_mid lo l1 x l2 : chain lo (l1 ++ x :: l2) ↔
  chain lo l1 ∧ chain (rend x) l2 ∧ lo ≤ rstart x ∧ rstart x < rend x ∧ (∀ v, v ∈ l1 → rend v ≤ rstart x).
Proof.
  split.
  - intros Hc. pose proof Hc as [H1 (H2 & H3 & H4)]%chain_app. split; [done |]. split; [done |].
    split; [by destruct (chain_elem lo _ x Hc); [set_solver |] |]. split; [done |].
    intros v Hv. apply (chain_app_le lo l1 (x :: l2)); [done | done | set_solver].
  - intros (H1 & H2 & H3 & H4 & H5). apply chain_app. split; [done |]. cbn. split; [| done].
    destruct (last l1) as [u|] eqn:Hu; cbn; [| done]. apply H5. apply last_Some in Hu as [l' ->]. set_solver.
Qed.

Lemma insert_spec lo x l : chain lo l → lo ≤ rstart x → rstart x < rend x →
  (∀ v, v ∈ l → disjoint v x) →
  ∃ l1 l2, l = l1 ++ l2 ∧ insert x l = l1 ++ x :: l2 ∧ chain lo (l1 ++ x :: l2).
Proof.
  revert lo. induction l as [|v l IH]; intros lo Hc Hlo Hx Hd.
  { exists [], []. done. }
  destruct Hc as (H1 & H2 & H3). cbn [insert].
  destruct (Hd v) as [Hv|Hv]; [set_solver | |].
  - destruct (Z.ltb_spec (rstart x) (rstart v)); [lia |].
    destruct (Z.eqb_spec (rstart x) (rstart v)); [lia |].
    destruct (IH (rend v)) as (l1 & l2 & -> & -> & Hc'); try done; [set_solver |].
    exists (v :: l1), l2. split; [done |]. split; [done |]. done.
  - destruct (Z.ltb_spec (rstart x) (rstart v)); [| lia].
    exists [], (v :: l). split; [done |]. split; [done |]. cbn. split; [done |]. split; [done |]. done.
Qed.

Lemma insert_ok lo x l : chain lo l → lo ≤ rstart x → rstart x < rend x →
  (∀ v, v ∈ l → disjoint v x) → chain lo (insert x l) ∧ insert x l ≡ₚ x :: l.
Proof.
  intros Hc Hlo Hx Hd. destruct (insert_spec lo x l) as (l1 & l2 & -> & -> & Hc'); try done.
  split; [done |]. by rewrite Permutation_middle.
Qed.

Lemma remove_ok lo v l : chain lo l → v ∈ l →
  ∃ l', remove (rstart v) l = (Some v, l') ∧ chain lo l' ∧ l ≡ₚ v :: l' ∧ ∀ w, w ∈ l' → disjoint w v.
Proof.
  revert lo. induction l as [|u l IH]; intros lo Hc Hv; [by apply not_elem_of_nil in Hv |].
  destruct Hc as (H1 & H2 & H3). cbn [remove]. apply elem_of_cons in Hv as [->|Hv].
  - rewrite Z.eqb_refl. exists l. split; [done |]. split; [by apply (chain_weaken (rend u)); [lia |] |].
    split; [done |]. intros w Hw. right. by destruct (chain_elem _ _ _ H3 Hw).
  - destruct (chain_elem _ _ _ H3 Hv) as [Hlo Hlt].
    destruct (Z.eqb_spec (rstart u) (rstart v)); [lia |].
    destruct (IH _ H3 Hv) as (l' & -> & Hc' & Hp & Hd). exists (u :: l').
    split; [done |]. split; [done |]. split; [rewrite Hp; apply Permutation_swap |].
    intros w [->|Hw]%elem_of_cons; [by left | by apply Hd].
Qed.

Lemma find_prev_in p l v : find_prev p l = Some v → v ∈ l.
Proof.
  unfold find_prev, upper_bound_excluded.
  destruct (seek_spec (λ v, rstart v <? p) None l) as (l1 & l2 & -> & -> & _). cbn.
  destruct (last l1) as [u|] eqn:Hu; [| done]. intros [= <-].
  apply last_Some in Hu as [l' ->]. set_solver.
Qed.

Lemma find_next_in p l v : find_next p l = Some v → v ∈ l.
Proof.
  unfold find_next, lower_bound_excluded.
  destruct (seek_spec (λ v, rstart v <=? p) None l) as (l1 & l2 & -> & -> & _). cbn.
  destruct l2; [done |]. intros [= <-]. set_solver.
Qed.

(** The item found depends only on the set of items. *)
Lemma find_one_perm lo lo' l l' p : chain lo l → chain lo' l' → l ≡ₚ l' → find_one p l = find_one p l'.
Proof.
  intros Hc Hc' Hp. apply option_eq. intros v. rewrite !find_one_exact by done. by rewrite Hp.
Qed.
End Set_.
End IntervalSet.
