(* ===== verification/VmMapping.v ===== *)
(** * Memory mappings of a process

    [kernel/src/vm/perms.rs] and the mappings of [kernel/src/vm/vmar/vm_mapping.rs]:
    the permission bits, the mapping and its transformations (splitting, merging,
    enlarging), and the effect of a mapping's [unmap] and [protect] on the pages of
    the address space. The page table is seen through the view that the cursors of
    [VmSpace] implement: the base page at each address. *)

From stdpp Require Import gmap.
From S2P Require Import Prelude IntervalSet.
Local Open Scope Z_scope.

Definition PAGE_SIZE : Z := 4096.

(** ** Permissions *)

Module VmPerms.
Definition READ : Z := 1.
Definition WRITE : Z := 2.
Definition EXEC : Z := 4.
Definition MAY_READ : Z := 8.
Definition MAY_WRITE : Z := 16.
Definition MAY_EXEC : Z := 32.
Definition ALL_PERMS : Z := Z.lor (Z.lor READ WRITE) EXEC.
Definition ALL_MAY_PERMS : Z := Z.lor (Z.lor MAY_READ MAY_WRITE) MAY_EXEC.

(** [self.contains(other)] of bitflags *)
Definition contains (self other : Z) : bool := Z.land self other =? other.

(** [VmPerms::check]: every requested permission has its [MAY_*] bit. *)
Definition check (self : Z) : bool :=
  let requested := Z.land self ALL_PERMS in
  let allowed := Z.shiftr (Z.land self ALL_MAY_PERMS) 3 in
  contains allowed requested.
End VmPerms.

Module PageFlags.
Definition R : Z := 1.
Definition W : Z := 2.
Definition X : Z := 4.
Definition ACCESSED : Z := 8.
Definition DIRTY : Z := 16.
End PageFlags.

(** [impl From<VmPerms> for PageFlags] and back *)
Definition flags_of_perms (val : Z) : Z :=
  let flags := if VmPerms.contains val VmPerms.READ then PageFlags.R else 0 in
  let flags := if VmPerms.contains val VmPerms.WRITE then Z.lor flags PageFlags.W else flags in
  if VmPerms.contains val VmPerms.EXEC then Z.lor flags PageFlags.X else flags.
Definition perms_of_flags (flags : Z) : Z :=
  let perms := if VmPerms.contains flags PageFlags.R then VmPerms.READ else 0 in
  let perms := if VmPerms.contains flags PageFlags.W then Z.lor perms VmPerms.WRITE else perms in
  if VmPerms.contains flags PageFlags.X then Z.lor perms VmPerms.EXEC else perms.

(** ** Mappings *)

(** [MappedMemory], with the fields of [MappedVmo]; a [Vmo] stands for its
    allocation, so that equality is [Arc::ptr_eq]. *)
Inductive MappedMemory : Type :=
| Anonymous
| Vmo (vmo offset : Z) (is_writable_tracked : bool)
| Device.
#[global] Instance mapped_memory_eq_dec : EqDecision MappedMemory.
Proof. solve_decision. Defined.

Record VmMapping : Type := mkMapping {
  map_size : Z;
  map_to_addr : Z;
  mapped_mem : MappedMemory;
  inode : option Z;
  is_shared : bool;
  handle_page_faults_around : bool;
  perms : Z
}.
#[global] Instance vm_mapping_eq_dec : EqDecision VmMapping.
Proof. solve_decision. Defined.

Definition map_end (m : VmMapping) : Z := map_to_addr m + map_size m.
#[global] Instance vm_mapping_interval : Interval VmMapping :=
  {| rstart := map_to_addr; rend := map_end |}.

(** The mapping with another place, size and memory: [Self { .., ..self }]. *)
Definition with_range (m : VmMapping) (addr size : Z) (mem : MappedMemory) : VmMapping :=
  mkMapping size addr mem (inode m) (is_shared m) (handle_page_faults_around m) (perms m).

Definition with_perms (m : VmMapping) (p : Z) : VmMapping :=
  mkMapping (map_size m) (map_to_addr m) (mapped_mem m) (inode m) (is_shared m)
    (handle_page_faults_around m) p.

Definition new_fork (m : VmMapping) : VmMapping :=
  with_range m (map_to_addr m) (map_size m) (mapped_mem m).

Definition clone_for_remap_at (m : VmMapping) (va : Z) : VmMapping :=
  with_range (new_fork m) va (map_size m) (mapped_mem m).

Definition can_expand (m : VmMapping) : bool :=
  match mapped_mem m with Device => false | _ => true end.

Definition is_cow (m : VmMapping) : bool :=
  negb (is_shared m) && VmPerms.contains (perms m) VmPerms.MAY_WRITE.

Definition enlarge (m : VmMapping) (extra_size : Z) : outcome VmMapping :=
  unwrap (checked_add USIZE_BITS (map_size m) extra_size) ≫= λ size,
  Done (with_range m (map_to_addr m) size (mapped_mem m)).

(** [NonZeroUsize::new(size).unwrap()] *)
Definition non_zero (size : Z) : outcome Z :=
  assert_that (negb (size =? 0)) ≫= λ _, Done size.

Definition split (m : VmMapping) (at_ : Z) : outcome (VmMapping * VmMapping) :=
  unwrap (checked_sub at_ (map_to_addr m)) ≫= λ d,
  (match mapped_mem m with
   | Vmo vmo offset t =>
       unwrap (checked_add USIZE_BITS offset d) ≫= λ at_offset,
       Done (Vmo vmo at_offset t)
   | Anonymous => Done Anonymous
   | Device => Done Device
   end) ≫= λ r_mapped_mem,
  unwrap (checked_sub (map_size m) d) ≫= λ right,
  non_zero d ≫= λ left_size,
  non_zero right ≫= λ right_size,
  Done (with_range m (map_to_addr m) left_size (mapped_mem m),
        with_range m at_ right_size r_mapped_mem).

Definition split_range (m : VmMapping) (a b : Z)
  : outcome (option VmMapping * VmMapping * option VmMapping) :=
  if (a <=? map_to_addr m) && (map_end m <=? b) then Done (None, m, None)
  else if map_to_addr m <? a then
    split m a ≫= λ '(l, within),
    if b <? map_end m then
      split within b ≫= λ '(within, r), Done (Some l, within, Some r)
    else Done (Some l, within, None)
  else if (map_to_addr m <=? b) && (b <? map_end m) then
    split m b ≫= λ '(within, r), Done (None, within, Some r)
  else Panic.

(** The memory of a merged mapping, where the two sides have compatible ones. *)
Definition merged_mem (left right : VmMapping) : outcome (option MappedMemory) :=
  match mapped_mem left, mapped_mem right with
  | Anonymous, Anonymous => Done (Some Anonymous)
  | Vmo l lo t, Vmo r ro _ =>
      if l =? r then
        unwrap (checked_add USIZE_BITS lo (map_size left)) ≫= λ e,
        Done (if e =? ro then Some (Vmo l lo t) else None)
      else Done None
  | _, _ => Done None
  end.

Definition try_merge (left right : VmMapping) : outcome (option VmMapping) :=
  let is_adjacent := map_end left =? map_to_addr right in
  let is_type_equal :=
    Bool.eqb (is_shared left) (is_shared right)
    && Bool.eqb (handle_page_faults_around left) (handle_page_faults_around right)
    && (perms left =? perms right) in
  if negb is_adjacent || negb is_type_equal then Done None
  else
    merged_mem left right ≫= λ o,
    match o with
    | None => Done None
    | Some mem =>
        unwrap (checked_add USIZE_BITS (map_size left) (map_size right)) ≫= λ s,
        non_zero s ≫= λ size,
        Done (Some (with_range left (map_to_addr left) size mem))
    end.

Definition try_merge_with (m vm_mapping : VmMapping) : outcome (VmMapping * option Z) :=
  (if map_to_addr m <? map_to_addr vm_mapping then try_merge m vm_mapping
   else try_merge vm_mapping m) ≫= λ o,
  Done (match o with
        | Some merged => (merged, Some (map_to_addr vm_mapping))
        | None => (m, None)
        end).

(** ** Pages *)

(** The item mapped at a page and the flags of its entry. *)
Inductive PageItem : Type := Ram (frame : Z) | Io (paddr : Z).
Record Pte : Type := mkPte { item : PageItem; flags : Z }.
#[global] Instance page_item_eq_dec : EqDecision PageItem.
Proof. solve_decision. Defined.
#[global] Instance pte_eq_dec : EqDecision Pte.
Proof. solve_decision. Defined.

(** The page table is the map from the address of a base page to its entry.
    [cursor.unmap(len)] over [a, b): *)
Definition pt_unmap (a b : Z) (pt : gmap Z Pte) : gmap Z Pte :=
  filter (λ kv, ¬ (a ≤ kv.1 < b)) pt.

(** [while .. { cursor.protect_next(.., op) }] over [a, b) *)
Definition pt_protect (a b : Z) (op : Z → Z) (pt : gmap Z Pte) : gmap Z Pte :=
  map_imap (λ k e, Some (if (a <=? k) && (k <? b) then mkPte (item e) (op (flags e)) else e)) pt.

(** [VmMapping::unmap] *)
Definition mapping_unmap (m : VmMapping) (pt : gmap Z Pte) : gmap Z Pte :=
  pt_unmap (map_to_addr m) (map_end m) pt.

(** [VmMapping::protect] *)
Definition mapping_protect (m : VmMapping) (p : Z) (pt : gmap Z Pte) : VmMapping * gmap Z Pte :=
  let new_flags := flags_of_perms p in
  let new_flags :=
    if is_cow m && negb (VmPerms.contains (perms m) VmPerms.WRITE)
    then Z.ldiff new_flags PageFlags.W else new_flags in
  (with_perms m p, pt_protect (map_to_addr m) (map_end m) (λ _, new_flags) pt).

(** ** Lemmas *)

(** The mappings end below [MAX_USERSPACE_VADDR]. *)
Definition VMAR_CAP_ADDR : Z := 2 ^ 47 - PAGE_SIZE.

(** A mapping is a nonempty range of user pages; its part of the VMO has aligned offsets
    below [2 ^ 64]; it may be accessed only as its [MAY_*] bits allow. *)
Record mapping_ok (m : VmMapping) : Prop := {
  ok_start : (PAGE_SIZE | map_to_addr m);
  ok_size : (PAGE_SIZE | map_size m);
  ok_pos : 0 < map_size m;
  ok_low : 0 ≤ map_to_addr m;
  ok_high : map_end m ≤ VMAR_CAP_ADDR;
  ok_mem : match mapped_mem m with
           | Vmo _ offset _ => 0 ≤ offset ∧ offset + map_size m < 2 ^ USIZE_BITS ∧ (PAGE_SIZE | offset)
           | _ => True
           end;
  ok_perms : 0 ≤ perms m < 64 ∧ VmPerms.check (perms m) = true
}.

(** What a mapping says of an address in it: where its memory comes from, and how
    it may be accessed. *)
Inductive Backing : Type := BAnonymous | BVmo (vmo offset : Z) | BDevice.
Record Attr : Type := mkAttr {
  a_backing : Backing; a_shared : bool; a_around : bool; a_perms : Z }.

Definition backing (m : VmMapping) (p : Z) : Backing :=
  match mapped_mem m with
  | Anonymous => BAnonymous
  | Vmo vmo offset _ => BVmo vmo (offset + (p - map_to_addr m))
  | Device => BDevice
  end.

Definition attr (m : VmMapping) (p : Z) : Attr :=
  mkAttr (backing m p) (is_shared m) (handle_page_faults_around m) (perms m).

(** [m'] is the part [a, b) of [m]. *)
Definition piece (m : VmMapping) (a b : Z) (m' : VmMapping) : Prop :=
  mapping_ok m' ∧ map_to_addr m' = a ∧ map_end m' = b ∧ ∀ p, attr m' p = attr m p.

Lemma piece_self m : mapping_ok m → piece m (map_to_addr m) (map_end m) m.
Proof. done. Qed.

Lemma piece_trans m a b m' a' b' m'' : piece m a b m' → piece m' a' b' m'' → piece m a' b' m''.
Proof.
  intros (_ & _ & _ & E1) (? & ? & ? & E2). split; [done |]. split; [done |]. split; [done |].
  intros p. by rewrite E2, E1.
Qed.

(** The part [addr, addr + size) of a mapping, with its memory advanced. *)
Lemma with_range_piece m addr size mem : mapping_ok m →
  map_to_addr m ≤ addr → addr + size ≤ map_end m → 0 < size →
  (PAGE_SIZE | addr) → (PAGE_SIZE | size) →
  mem = match mapped_mem m with
        | Vmo v o t => Vmo v (o + (addr - map_to_addr m)) t
        | other => other
        end →
  piece m addr (addr + size) (with_range m addr size mem).
Proof.
  intros [H1 H2 H3 H4 H5 H6 H7] Ha Hb Hs Da Ds ->. unfold map_end in *.
  split; [split; cbn; unfold map_end; cbn; try done; try lia |].
  { destruct (mapped_mem m); cbn; [done | | done]. split_and!; [lia | lia |].
    apply Z.divide_add_r; [tauto | by apply Z.divide_sub_r]. }
  split; [done |]. split; [done |]. intros p. unfold attr, backing. cbn. f_equal.
  destruct (mapped_mem m); [done | f_equal; lia | done].
Qed.

Lemma split_ok m at_ : mapping_ok m → map_to_addr m < at_ < map_end m → (PAGE_SIZE | at_) →
  ∃ l r, split m at_ = Done (l, r) ∧ piece m (map_to_addr m) at_ l ∧ piece m at_ (map_end m) r.
Proof.
  intros Hm Hat Hd. pose proof Hm as [H1 H2 H3 H4 H5 H6 _]. unfold map_end in *.
  set (d := at_ - map_to_addr m).
  set (mem := match mapped_mem m with Vmo v o t => Vmo v (o + d) t | other => other end).
  exists (with_range m (map_to_addr m) d (mapped_mem m)), (with_range m at_ (map_size m - d) mem).
  assert ((PAGE_SIZE | d)) as Dd by (by apply Z.divide_sub_r).
  split; [| split].
  - unfold split, checked_sub, checked_add, non_zero.
    rewrite (proj2 (Z.leb_le (map_to_addr m) at_)) by lia. cbn [unwrap mbind outcome_bind]. fold d.
    assert (match mapped_mem m with
            | Vmo vmo offset t => unwrap (if offset + d <? 2 ^ USIZE_BITS then Some (offset + d) else None)
                ≫= λ at_offset, Done (Vmo vmo at_offset t)
            | Anonymous => Done Anonymous | Device => Done Device end = Done mem) as ->.
    { unfold mem. destruct (mapped_mem m); [done | | done].
      rewrite (proj2 (Z.ltb_lt _ _)); [done | lia]. }
    cbn [unwrap mbind outcome_bind]. rewrite (proj2 (Z.leb_le d (map_size m))) by lia.
    cbn [unwrap mbind outcome_bind].
    destruct (Z.eqb_spec d 0); [lia |]. destruct (Z.eqb_spec (map_size m - d) 0); [lia |]. done.
  - replace at_ with (map_to_addr m + d) at 1 by lia. apply with_range_piece; unfold map_end; try done; [lia | lia |].
    destruct (mapped_mem m); [done | f_equal; lia | done].
  - replace (map_to_addr m + map_size m) with (at_ + (map_size m - d)) by lia.
    apply with_range_piece; unfold map_end; try done; [lia | lia | lia |].
    by apply Z.divide_sub_r.
Qed.

(** The outer parts are present when they are not empty. *)
Definition left_piece (m : VmMapping) (a : Z) (o : option VmMapping) : Prop :=
  match o with
  | None => map_to_addr m = a
  | Some l => map_to_addr m < a ∧ piece m (map_to_addr m) a l
  end.
Definition right_piece (m : VmMapping) (b : Z) (o : option VmMapping) : Prop :=
  match o with
  | None => map_end m = b
  | Some r => b < map_end m ∧ piece m b (map_end m) r
  end.

Lemma split_range_ok m a b : mapping_ok m → map_to_addr m ≤ a → a < b → b ≤ map_end m →
  (PAGE_SIZE | a) → (PAGE_SIZE | b) →
  ∃ lo t ro, split_range m a b = Done (lo, t, ro) ∧
    left_piece m a lo ∧ piece m a b t ∧ right_piece m b ro.
Proof.
  intros Hm Ha Hab Hb Da Db. unfold split_range.
  destruct (Z.leb_spec a (map_to_addr m)) as [E1|E1]; cbn [andb].
  - assert (a = map_to_addr m) as -> by lia. rewrite (proj2 (Z.ltb_ge _ _)) by lia.
    rewrite (proj2 (Z.leb_le (map_to_addr m) b)) by lia.
    destruct (Z.leb_spec (map_end m) b) as [E2|E2]; cbn [andb].
    + assert (b = map_end m) as -> by lia. exists None, m, None. done.
    + rewrite (proj2 (Z.ltb_lt _ _)) by lia.
      destruct (split_ok m b) as (l & r & -> & Hl & Hr); [done | lia | done |].
      exists None, l, (Some r). done.
  - rewrite (proj2 (Z.ltb_lt _ _)) by lia.
    destruct (split_ok m a) as (l & w & -> & Hl & Hw); [done | lia | done |].
    cbn [mbind outcome_bind]. pose proof Hw as (Hok & Hs & He & _).
    destruct (Z.ltb_spec b (map_end m)) as [E2|E2].
    + destruct (split_ok w b) as (t & r & -> & Ht & Hr); [done | lia | done |].
      rewrite Hs in Ht. rewrite He in Hr. exists (Some l), t, (Some r). split; [done |].
      split; [done |]. split; [by apply (piece_trans m _ _ w _ _ t Hw) |].
      split; [done |]. by apply (piece_trans m _ _ w _ _ r Hw).
    + assert (b = map_end m) as -> by lia. exists (Some l), w, None. done.
Qed.

(** Two mappings merge into one that says the same of every address. *)
Lemma try_merge_ok l r : mapping_ok l → mapping_ok r → ∃ o, try_merge l r = Done o ∧
  ∀ m, o = Some m → map_end l = map_to_addr r ∧ mapping_ok m ∧
    map_to_addr m = map_to_addr l ∧ map_end m = map_end r ∧
    map_size m = map_size l + map_size r ∧ perms l = perms r ∧
    (∀ p, attr m p = attr l p) ∧ ∀ p, attr m p = attr r p.
Proof.
  intros Hl Hr. unfold try_merge.
  destruct (Z.eqb_spec (map_end l) (map_to_addr r)) as [Ha|]; cbn [negb orb]; [| by exists None].
  destruct (Bool.eqb (is_shared l) (is_shared r)) eqn:E1; cbn [andb negb]; [| by exists None].
  destruct (Bool.eqb (handle_page_faults_around l) _) eqn:E2; cbn [andb negb]; [| by exists None].
  destruct (Z.eqb_spec (perms l) (perms r)) as [E3|]; cbn [andb negb]; [| by exists None].
  apply eqb_prop in E1, E2. destruct Hl as [L1 L2 L3 L4 L5 L6 L7], Hr as [R1 R2 R3 R4 R5 R6 R7].
  unfold map_end in *.
  assert (merged_mem l r = Done None ∨ ∃ mem, merged_mem l r = Done (Some mem) ∧
    match mapped_mem l, mapped_mem r with
    | Anonymous, Anonymous => mem = Anonymous
    | Vmo a x t, Vmo b y _ => a = b ∧ y = x + map_size l ∧ mem = Vmo a x t
    | _, _ => False
    end) as [->|(mem & -> & Hmem)]; [| by exists None |].
  { unfold merged_mem, checked_add. destruct (mapped_mem l) as [|a x t|], (mapped_mem r) as [|b y t'|]; eauto.
    destruct (Z.eqb_spec a b); [| by left]. rewrite (proj2 (Z.ltb_lt _ _)) by lia. cbn.
    destruct (Z.eqb_spec (x + map_size l) y); [right; eauto | by left]. }
  cbn [mbind outcome_bind]. unfold checked_add, VMAR_CAP_ADDR, USIZE_BITS, PAGE_SIZE in *.
  rewrite (proj2 (Z.ltb_lt _ _)) by lia. cbn [unwrap mbind outcome_bind]. unfold non_zero.
  destruct (Z.eqb_spec (map_size l + map_size r) 0); [lia |]. cbn.
  eexists. split; [done |]. intros m [= <-]. split; [lia |].
  split; [split; cbn; unfold map_end; cbn; try done; try lia |].
  { by apply Z.divide_add_r. }
  { unfold VMAR_CAP_ADDR, PAGE_SIZE. lia. }
  { destruct (mapped_mem l), (mapped_mem r); try done; try by subst mem.
    destruct Hmem as (-> & -> & ->). unfold USIZE_BITS. split_and!; [lia | lia | tauto]. }
  split; [done |]. split; [cbn; lia |]. split; [done |]. split; [done |].
  unfold attr, backing; cbn. rewrite <- E1, <- E2, <- E3.
  split; intros p; f_equal; destruct (mapped_mem l), (mapped_mem r); try done; try (by subst mem);
    destruct Hmem as (-> & -> & ->); first [done | f_equal; lia].
Qed.

(** *** Pages *)

Lemma pt_unmap_lookup a b pt k :
  pt_unmap a b pt !! k = if decide (a ≤ k < b) then None else pt !! k.
Proof.
  unfold pt_unmap. destruct (decide (a ≤ k < b)) as [Hk|Hk].
  - apply map_lookup_filter_None_2. right. by intros x _ [].
  - destruct (pt !! k) as [e|] eqn:He.
    + by apply map_lookup_filter_Some_2.
    + apply map_lookup_filter_None_2. by left.
Qed.

Lemma pt_protect_lookup a b op pt k :
  pt_protect a b op pt !! k =
    (λ e, if decide (a ≤ k < b) then mkPte (item e) (op (flags e)) else e) <$> (pt !! k).
Proof.
  unfold pt_protect. rewrite map_lookup_imap. destruct (pt !! k) as [e|]; cbn; [| done].
  destruct (decide (a ≤ k < b)) as [?|Hn]; destruct (Z.leb_spec a k), (Z.ltb_spec k b); cbn [andb];
    first [done | lia].
Qed.

(** The access bits of an entry agree with the permissions of its mapping, except
    that writing may be withheld until a page fault. *)
Definition RWX : Z := Z.lor (Z.lor PageFlags.R PageFlags.W) PageFlags.X.
Definition entry_ok (p : Z) (e : Pte) : Prop :=
  Z.land (flags e) RWX = flags_of_perms p ∨
  Z.land (flags e) RWX = Z.ldiff (flags_of_perms p) PageFlags.W.

Lemma flags_of_perms_cases p :
  flags_of_perms p ∈ [0; 1; 2; 3; 4; 5; 6; 7].
Proof.
  unfold flags_of_perms. destruct (VmPerms.contains p VmPerms.READ), (VmPerms.contains p VmPerms.WRITE),
    (VmPerms.contains p VmPerms.EXEC); cbn; set_solver.
Qed.

(** [protect] leaves the entries of the mapping as its new permissions ask. *)
Lemma protect_entry_ok m p pt m' pt' k e : mapping_protect m p pt = (m', pt') →
  pt' !! k = Some e → map_to_addr m ≤ k < map_end m → entry_ok p e.
Proof.
  unfold mapping_protect. intros [= <- <-] Hk Hr. rewrite pt_protect_lookup in Hk.
  apply fmap_Some in Hk as (e0 & _ & ->). rewrite decide_True by done. unfold entry_ok. cbn [flags].
  destruct (is_cow m && _); [right | left];
    pose proof (flags_of_perms_cases p) as Hc; unfold RWX;
    repeat (apply elem_of_cons in Hc as [->|Hc]; [done |]); by apply not_elem_of_nil in Hc.
Qed.
