(* ===== verification/Vmar.v ===== *)
(** * The address space of a process

    [kernel/src/vm/vmar/mod.rs]: the mappings of a process and its operations,
    which keep the mappings, the accounted size and the pages in step. The lock of
    the address space is held throughout an operation, so an operation is a
    function on the state. The resident-set counters and the TLB flushes (see
    [VmSpace]) are left out. *)

From stdpp Require Import gmap.
From S2P Require Import Prelude Align IntervalSet VmMapping.
Local Open Scope Z_scope.

Module Vmar.
Import Align.

Inductive Errno : Type := EACCES | EFAULT | EINVAL | EIO | ENOMEM | EOVERFLOW | EPERM.
#[global] Instance errno_eq_dec : EqDecision Errno.
Proof. solve_decision. Defined.

(** [VmarInner] and the pages of the [VmSpace] *)
Record Vmar : Type := mkVmar {
  vm_mappings : list VmMapping;
  total_vm : Z;
  pt : gmap Z Pte
}.

(** ** Operations on an address space

    They may change it, return an error after having changed it, or panic. *)
Definition M (A : Type) : Type := Vmar → outcome (result A Errno * Vmar).

#[global] Instance M_ret : MRet M := λ A a v, Done (ROk a, v).
#[global] Instance M_bind : MBind M := λ A B f m v,
  match m v with
  | Done (ROk a, v') => f a v'
  | Done (RErr e, v') => Done (RErr e, v')
  | Panic => Panic
  end.

Definition fail {A} (e : Errno) : M A := λ v, Done (RErr e, v).
Definition get : M Vmar := λ v, Done (ROk v, v).
Definition put (v : Vmar) : M unit := λ _, Done (ROk tt, v).
Definition lift {A} (o : outcome A) : M A := λ v,
  match o with Done a => Done (ROk a, v) | Panic => Panic end.
Definition ensure (b : bool) (e : Errno) : M unit := if b then mret tt else fail e.

Definition set_mappings (l : list VmMapping) (v : Vmar) : Vmar := mkVmar l (total_vm v) (pt v).
Definition set_total (n : Z) (v : Vmar) : Vmar := mkVmar (vm_mappings v) n (pt v).
Definition set_pt (p : gmap Z Pte) (v : Vmar) : Vmar := mkVmar (vm_mappings v) (total_vm v) p.

(** [usize] arithmetic *)
Definition add (a b : Z) : M Z := lift (unwrap (checked_add USIZE_BITS a b)).
Definition sub (a b : Z) : M Z := lift (unwrap (checked_sub a b)).

Definition VMAR_LOWEST_ADDR : Z := 0x10000.
Definition is_userspace_vaddr (vaddr : Z) : bool :=
  (VMAR_LOWEST_ADDR <=? vaddr) && (vaddr <? VMAR_CAP_ADDR).

Definition is_intersected (a b a' b' : Z) : bool := Z.max a a' <? Z.min b b'.
Definition get_intersected_range (a b a' b' : Z) : Z * Z := (Z.max a a', Z.min b b').

(** *** [VmarInner] *)

Definition new : Vmar := mkVmar [] 0 ∅.

(** [rlimit] is the limit [RLIMIT_AS] of the current process, if there is one. *)
Definition check_extra_size_fits_rlimit (rlimit : option Z) (expand_size : Z) : M unit :=
  match rlimit with
  | None => mret tt
  | Some rlimit_as =>
      v ← get;
      match checked_add USIZE_BITS (total_vm v) expand_size with
      | None => fail ENOMEM
      | Some new_total_vm => ensure (new_total_vm <=? rlimit_as) ENOMEM
      end
  end.

Definition check_lies_in_single_mapping (addr size : Z) : M Z :=
  v ← get;
  match IntervalSet.find_one addr (vm_mappings v) with
  | Some m => if size <=? map_end m - addr then mret (map_to_addr m) else fail EFAULT
  | None => fail EFAULT
  end.

Definition insert_without_try_merge (m : VmMapping) : M unit :=
  v ← get;
  total ← add (total_vm v) (map_size m);
  put (mkVmar (IntervalSet.insert m (vm_mappings v)) total (pt v)).

(** One neighbour in [insert_try_merge]: the mapping to insert, merged with it or not. *)
Definition merge_neighbour (o : option VmMapping) (m : VmMapping) : M VmMapping :=
  match o with
  | None => mret m
  | Some neighbour =>
      '(m', to_remove) ← lift (try_merge_with m neighbour);
      match to_remove with
      | Some addr =>
          v ← get;
          put (set_mappings (IntervalSet.remove addr (vm_mappings v)).2 v);; mret m'
      | None => mret m'
      end
  end.

Definition insert_try_merge (m : VmMapping) : M unit :=
  v ← get;
  total ← add (total_vm v) (map_size m);
  put (set_total total v);;
  let addr := map_to_addr m in
  v ← get;
  m ← merge_neighbour (IntervalSet.find_prev addr (vm_mappings v)) m;
  v ← get;
  m ← merge_neighbour (IntervalSet.find_next addr (vm_mappings v)) m;
  v ← get;
  put (set_mappings (IntervalSet.insert m (vm_mappings v)) v).

Definition remove (key : Z) : M (option VmMapping) :=
  v ← get;
  match IntervalSet.remove key (vm_mappings v) with
  | (None, _) => mret None
  | (Some m, l) =>
      total ← sub (total_vm v) (map_size m);
      put (mkVmar l total (pt v));; mret (Some m)
  end.

Fixpoint overlap_sum (a b : Z) (l : list VmMapping) : Z :=
  match l with
  | [] => 0
  | m :: r =>
      let '(x, y) := get_intersected_range a b (map_to_addr m) (map_end m) in
      (y - x) + overlap_sum a b r
  end.
Definition count_overlap_size (a b : Z) (v : Vmar) : Z :=
  overlap_sum a b (IntervalSet.find a b (vm_mappings v)).

(** [if let Some(m) = o { self.insert_without_try_merge(m) }] *)
Definition put_back (o : option VmMapping) : M unit :=
  match o with Some m => insert_without_try_merge m | None => mret tt end.

(** Taking the part of the mapping at [addr] that lies in [a, b) out of the set;
    the rest is put back. *)
Definition take_part (a b addr : Z) : M VmMapping :=
  o ← remove addr;
  m ← lift (unwrap o);
  let '(x, y) := get_intersected_range a b (map_to_addr m) (map_end m) in
  '(l, taken, r) ← lift (split_range m x y);
  put_back l;;
  put_back r;;
  mret taken.

Definition alloc_free_region_exact (offset size : Z) : M Z :=
  e ← add offset size;
  v ← get;
  match IntervalSet.find offset e (vm_mappings v) with
  | [] => mret offset
  | _ => fail EACCES
  end.

Fixpoint truncate_loop (a b : Z) (mappings_to_remove : list Z) : M unit :=
  match mappings_to_remove with
  | [] => mret tt
  | vm_mapping_addr :: rest =>
      taken ← take_part a b vm_mapping_addr;
      v ← get;
      put (set_pt (mapping_unmap taken (pt v)) v);;
      truncate_loop a b rest
  end.

Definition alloc_free_region_exact_truncate (offset size : Z) : M Z :=
  e ← add offset size;
  v ← get;
  truncate_loop offset e (map_to_addr <$> IntervalSet.find offset e (vm_mappings v));;
  mret offset.

(** The slow path of [alloc_free_region]. *)
Fixpoint first_fit (size align last_end : Z) (l : list VmMapping) : M Z :=
  match l with
  | [] => fail ENOMEM
  | m :: r =>
      last_aligned ← lift (align_up USIZE_BITS last_end align);
      match checked_add USIZE_BITS last_aligned size with
      | None => fail ENOMEM
      | Some needed_end =>
          if needed_end <=? map_to_addr m then mret last_aligned
          else first_fit size align (map_end m) r
      end
  end.

Definition alloc_free_region (size align : Z) : M Z :=
  v ← get;
  let highest_occupied := match last (vm_mappings v) with
                          | Some m => map_end m
                          | None => VMAR_LOWEST_ADDR
                          end in
  last_occupied_aligned ← lift (align_up USIZE_BITS highest_occupied align);
  match checked_add USIZE_BITS last_occupied_aligned size with
  | Some e =>
      if e <=? VMAR_CAP_ADDR then mret last_occupied_aligned
      else first_fit size align VMAR_LOWEST_ADDR (vm_mappings v)
  | None => first_fit size align VMAR_LOWEST_ADDR (vm_mappings v)
  end.

(** [a.checked_add(b).ok_or(e)?] *)
Definition add_or (e : Errno) (a b : Z) : M Z :=
  match checked_add USIZE_BITS a b with Some c => mret c | None => fail e end.

(** [VmarInner::resize_mapping] *)
Definition inner_resize_mapping (rlimit : option Z) (map_addr old_size new_size : Z) : M unit :=
  if new_size =? 0 then fail EINVAL
  else if new_size =? old_size then mret tt
  else
    old_map_end ← add_or EINVAL map_addr old_size;
    new_map_end ← add_or EINVAL map_addr new_size;
    ensure (is_userspace_vaddr (new_map_end - 1)) EINVAL;;
    if new_size <? old_size then
      alloc_free_region_exact_truncate new_map_end (old_map_end - new_map_end);; mret tt
    else
      alloc_free_region_exact old_map_end (new_map_end - old_map_end);;
      v ← get;
      x ← sub old_map_end 1;
      last_mapping ← lift (unwrap (IntervalSet.find_one x (vm_mappings v)));
      check_extra_size_fits_rlimit rlimit (new_map_end - old_map_end);;
      o ← remove (map_to_addr last_mapping);
      last_mapping ← lift (unwrap o);
      last_mapping ← lift (enlarge last_mapping (new_map_end - old_map_end));
      insert_try_merge last_mapping.

(** *** [Vmar] *)

Fixpoint protect_loop (perms_ a b : Z) (protect_mappings : list (Z * Z)) : M unit :=
  match protect_mappings with
  | [] => mret tt
  | (vm_mapping_addr, vm_mapping_perms) :: rest =>
      if perms_ =? Z.land vm_mapping_perms VmPerms.ALL_PERMS then protect_loop perms_ a b rest
      else
        let new_perms := Z.lor perms_ (Z.land vm_mapping_perms VmPerms.ALL_MAY_PERMS) in
        ensure (VmPerms.check new_perms) EACCES;;
        taken ← take_part a b vm_mapping_addr;
        v ← get;
        let '(taken, pt') := mapping_protect taken new_perms (pt v) in
        put (set_pt pt' v);;
        insert_try_merge taken;;
        protect_loop perms_ a b rest
  end.

Definition protect (perms_ a b : Z) : M unit :=
  lift (assert_that (a mod PAGE_SIZE =? 0));;
  lift (assert_that (b mod PAGE_SIZE =? 0));;
  v ← get;
  protect_loop perms_ a b ((λ m, (map_to_addr m, perms m)) <$> IntervalSet.find a b (vm_mappings v)).

Definition query (a b : Z) (v : Vmar) : list VmMapping := IntervalSet.find a b (vm_mappings v).

Definition clear : M unit :=
  v ← get; put (mkVmar [] (total_vm v) (pt_unmap 0 VMAR_CAP_ADDR (pt v))).

(** [range.len()] *)
Definition range_len (a b : Z) : Z := if a <=? b then b - a else 0.

Definition remove_mapping (a b : Z) : M unit :=
  alloc_free_region_exact_truncate a (range_len a b);; mret tt.

Definition resize_mapping (rlimit : option Z) (map_addr old_size new_size : Z)
    (check_single_mapping : bool) : M unit :=
  (if check_single_mapping then check_lies_in_single_mapping map_addr old_size;; mret tt
   else v ← get;
        match IntervalSet.find_one map_addr (vm_mappings v) with
        | Some _ => mret tt
        | None => fail EFAULT
        end);;
  inner_resize_mapping rlimit map_addr old_size new_size.

(** **** Moving pages

    A cursor over [a, b) holds the smallest page-table node that covers the range.
    It returns to an address only if that lies in the same node as its position:
    [jump] past the node is followed by a panic in the next use of the cursor. *)

Definition node_spans : list Z := [2 ^ 21; 2 ^ 30; 2 ^ 39; 2 ^ 48].
Definition guard_span (a b : Z) : Z :=
  match List.find (λ span, a / span =? (b - 1) / span) node_spans with
  | Some span => span
  | None => 2 ^ 48
  end.

Definition cursor_jump (span position target : Z) : outcome unit :=
  assert_that (position / span =? target / span).

(** [cursor.find_next(len)]: the first mapped page among [n] pages from [va] on *)
Fixpoint find_next (n : nat) (va : Z) (p : gmap Z Pte) : option (Z * Pte) :=
  match n with
  | O => None
  | S n => match p !! va with
           | Some e => Some (va, e)
           | None => find_next n (va + PAGE_SIZE) p
           end
  end.

Definition page_count (len : Z) : nat := Z.to_nat (len / PAGE_SIZE).

(** The loop of [remap]; the fuel exceeds the number of pages of the old range. *)
Fixpoint move_pages (fuel : nat) (span old_start old_size new_start position current_offset : Z)
    (p : gmap Z Pte) : outcome (gmap Z Pte) :=
  match fuel with
  | O => Panic
  | S fuel =>
      if current_offset <? old_size then
        cursor_jump span position (old_start + current_offset) ≫= λ _,
        match find_next (page_count (old_size - current_offset)) (old_start + current_offset) p with
        | None => Done p
        | Some (mapped_va, e) =>
            let p := delete mapped_va p in
            let offset := mapped_va - old_start in
            cursor_jump span (mapped_va + PAGE_SIZE) (new_start + offset) ≫= λ _,
            let p := <[new_start + offset := e]> p in
            move_pages fuel span old_start old_size new_start
              (new_start + offset + PAGE_SIZE) (offset + PAGE_SIZE) p
        end
      else Done p
  end.

(** The new range of [remap]. *)
Definition remap_target (old_addr old_end : Z) (new_addr : option Z) (new_size : Z) : M Z :=
  match new_addr with
  | Some new_addr =>
      new_end ← add_or EINVAL new_addr new_size;
      ensure ((new_addr mod PAGE_SIZE =? 0) && is_userspace_vaddr new_addr
              && is_userspace_vaddr (new_end - 1)) EINVAL;;
      ensure (negb (is_intersected old_addr old_end new_addr new_end)) EINVAL;;
      alloc_free_region_exact_truncate new_addr new_size
  | None => alloc_free_region new_size PAGE_SIZE
  end.

Definition remap (old_addr old_size : Z) (new_addr : option Z) (new_size : Z) : M Z :=
  v ← get;
  match IntervalSet.find_one old_addr (vm_mappings v) with
  | None => fail EFAULT
  | Some old_mapping =>
      ensure (negb ((old_size <? new_size) && negb (can_expand old_mapping))) EFAULT;;
      old_end ← add_or EINVAL old_addr old_size;
      '(old_size, old_end) ←
        (if new_size <? old_size then
           alloc_free_region_exact_truncate (old_addr + new_size) (old_size - new_size);;
           mret (new_size, old_addr + new_size)
         else mret (old_size, old_end));
      new_start ← remap_target old_addr old_end new_addr new_size;
      old_mapping_addr ← check_lies_in_single_mapping old_addr old_size;
      o ← remove old_mapping_addr;
      vm_mapping ← lift (unwrap o);
      '(l, old_mapping, r) ← lift (split_range vm_mapping old_addr old_end);
      put_back l;;
      put_back r;;
      extra ← sub new_size old_size;
      new_mapping ← lift (enlarge (clone_for_remap_at old_mapping new_start) extra);
      insert_try_merge new_mapping;;
      let a := Z.min old_addr new_start in
      let b := Z.max old_end (new_start + new_size) in
      v ← get;
      p ← lift (move_pages (S (page_count old_size)) (guard_span a b) old_addr old_size new_start a 0 (pt v));
      put (set_pt p v);;
      mret new_start
  end.

(** **** Forking

    [cow_copy_pt]: both page tables get the entries without write access; I/O pages
    are shared as they are. The cursors cover [VMAR_LOWEST_ADDR, VMAR_CAP_ADDR). *)
Fixpoint cow_copy_pt (fuel : nat) (va end_va : Z) (src dst : gmap Z Pte)
  : outcome (gmap Z Pte * gmap Z Pte) :=
  match fuel with
  | O => Panic
  | S fuel =>
      match find_next (page_count (end_va - va)) va src with
      | None => Done (src, dst)
      | Some (mapped_va, e) =>
          match item e with
          | Ram _ =>
              let e' := mkPte (item e) (Z.ldiff (flags e) PageFlags.W) in
              cow_copy_pt fuel (mapped_va + PAGE_SIZE) end_va
                (<[mapped_va := e']> src) (<[mapped_va := e']> dst)
          | Io _ =>
              assert_that (mapped_va + PAGE_SIZE <? VMAR_CAP_ADDR) ≫= λ _,
              cow_copy_pt fuel (mapped_va + PAGE_SIZE) end_va src (<[mapped_va := e]> dst)
          end
      end
  end.

(** The loop of [fork_from] over the mappings: the pages of the parent and the child. *)
Fixpoint fork_loop (l : list VmMapping) (src : gmap Z Pte) : Vmar → outcome (gmap Z Pte * Vmar) :=
  λ child,
  match l with
  | [] => Done (src, child)
  | m :: r =>
      match insert_without_try_merge (new_fork m) child with
      | Done (_, child) =>
          assert_that (is_userspace_vaddr (map_to_addr m)) ≫= λ _,
          cow_copy_pt (S (page_count (map_size m))) (map_to_addr m) (map_end m) src (pt child)
            ≫= λ '(src, dst),
          fork_loop r src (set_pt dst child)
      | Panic => Panic
      end
  end.

(** [Vmar::fork_from]: the parent and the child *)
Definition fork_from (v : Vmar) : outcome (Vmar * Vmar) :=
  fork_loop (vm_mappings v) (pt v) new ≫= λ '(src, child), Done (set_pt src v, child).

(** **** New mappings *)

(** [Mappable]: an inode with its page cache (a memfd also has its seals and the
    status of its writable mappings), or I/O memory. *)
Record Memfd : Type := mkMemfd { sealed : bool; writable_mapping_status : Z }.
Inductive Mappable : Type :=
| Inode (ino page_cache : Z) (memfd : option Memfd)
| IoMem (paddr size : Z).

Record VmarMapOptions : Type := mkOptions {
  o_vmo : option Z;
  o_mappable : option Mappable;
  o_perms : Z;
  o_may_perms : Z;
  o_vmo_offset : Z;
  o_size : Z;
  o_offset : option Z;
  o_align : Z;
  o_can_overwrite : bool;
  o_is_shared : bool;
  o_around : bool
}.

(** [Vmar::new_map] with [VmarMapOptions::new] *)
Definition new_map (size perms_ : Z) : VmarMapOptions :=
  mkOptions None None perms_ VmPerms.ALL_MAY_PERMS 0 size None PAGE_SIZE false false false.

Definition check_perms (o : VmarMapOptions) : M unit :=
  ensure (VmPerms.contains VmPerms.ALL_MAY_PERMS (o_may_perms o)
          && VmPerms.contains VmPerms.ALL_PERMS (o_perms o)) EACCES;;
  ensure (VmPerms.check (Z.lor (o_perms o) (o_may_perms o))) EACCES.

Definition check_options (o : VmarMapOptions) : M unit :=
  ensure ((o_align o mod PAGE_SIZE =? 0) && is_power_of_two (o_align o)) EINVAL;;
  ensure (o_size o mod o_align o =? 0) EINVAL;;
  ensure (o_vmo_offset o mod o_align o =? 0) EINVAL;;
  ensure (match o_offset o with Some offset => offset mod o_align o =? 0 | None => true end) EINVAL;;
  check_perms o.

(** [MemfdInode::check_writable]: the restricted may-permissions *)
Definition check_writable (f : Memfd) (perms_ may_perms : Z) : result Z Errno :=
  if sealed f then
    if VmPerms.contains perms_ VmPerms.WRITE then RErr EPERM
    else ROk (Z.ldiff may_perms VmPerms.MAY_WRITE)
  else ROk may_perms.

(** The memory, the inode, the I/O memory and the may-permissions of the mapping. *)
Definition prepare_memory (o : VmarMapOptions)
  : M (MappedMemory * option Z * option (Z * Z) * Z) :=
  match o_mappable o with
  | Some (Inode ino vmo memfd) =>
      match memfd with
      | Some f =>
          if o_is_shared o && VmPerms.contains (o_may_perms o) VmPerms.MAY_WRITE then
            match check_writable f (o_perms o) (o_may_perms o) with
            | RErr e => fail e
            | ROk may_perms =>
                ensure (0 <=? writable_mapping_status f) EPERM;;
                mret (Vmo vmo (o_vmo_offset o) true, Some ino, None, may_perms)
            end
          else mret (Vmo vmo (o_vmo_offset o) false, Some ino, None, o_may_perms o)
      | None => mret (Vmo vmo (o_vmo_offset o) false, Some ino, None, o_may_perms o)
      end
  | Some (IoMem paddr size) => mret (Device, None, Some (paddr, size), o_may_perms o)
  | None =>
      match o_vmo o with
      | Some vmo => mret (Vmo vmo (o_vmo_offset o) false, None, None, o_may_perms o)
      | None => mret (Anonymous, None, None, o_may_perms o)
      end
  end.

Fixpoint map_io_pages (n : nat) (va paddr flags_ : Z) (p : gmap Z Pte) : gmap Z Pte :=
  match n with
  | O => p
  | S n => map_io_pages n (va + PAGE_SIZE) (paddr + PAGE_SIZE) flags_
             (<[va := mkPte (Io paddr) flags_]> p)
  end.

(** [VmMapping::populate_device]; the number of pages is that of [CursorMut::map_iomem]. *)
Definition populate_device (m : VmMapping) (io_paddr io_size vmo_offset : Z) (p : gmap Z Pte)
  : gmap Z Pte :=
  if io_size <=? vmo_offset then p
  else map_io_pages (Z.to_nat ((Z.min (map_size m) (io_size - vmo_offset) + (PAGE_SIZE - 1)) / PAGE_SIZE))
         (map_to_addr m) (io_paddr + vmo_offset) (flags_of_perms (perms m)) p.

(** The place of a new mapping. *)
Definition choose_address (o : VmarMapOptions) : M Z :=
  if o_can_overwrite o then
    match o_offset o with
    | None => fail EINVAL
    | Some offset => alloc_free_region_exact_truncate offset (o_size o)
    end
  else
    match o_offset o with
    | Some offset => alloc_free_region_exact offset (o_size o)
    | None => alloc_free_region (o_size o) (o_align o)
    end.

(** The check of the limit: an overwriting mapping counts only its growth. *)
Definition check_limit (rlimit : option Z) (o : VmarMapOptions) : M unit := λ v,
  match check_extra_size_fits_rlimit rlimit (o_size o) v with
  | Done (RErr e, v) =>
      if o_can_overwrite o then
        match o_offset o with
        | None => Done (RErr EINVAL, v)
        | Some offset =>
            (e ← add offset (o_size o);
             expand_size ← sub (o_size o) (count_overlap_size offset e v);
             check_extra_size_fits_rlimit rlimit expand_size) v
        end
      else Done (RErr e, v)
  | other => other
  end.

Definition build (rlimit : option Z) (o : VmarMapOptions) : M Z :=
  check_options o;;
  check_limit rlimit o;;
  addr ← choose_address o;
  '(mem, ino, io_mem, may_perms) ← prepare_memory o;
  size ← lift (non_zero (o_size o));
  let m := mkMapping size addr mem ino (o_is_shared o) (o_around o) (Z.lor (o_perms o) may_perms) in
  match io_mem with
  | Some (paddr, io_size) =>
      v ← get; put (set_pt (populate_device m paddr io_size (o_vmo_offset o) (pt v)) v)
  | None => mret tt
  end;;
  insert_try_merge m;;
  mret addr.
End Vmar.
