(* ===== verification/VmarMaps.v ===== *)
(** * The mappings of an address space: invariant and basic operations

    The invariant of [Vmar], what the mappings say of each address, and the effect
    of the operations on the set of mappings: inserting with and without merging,
    removing, taking a part out, and truncating a range. *)

From stdpp Require Import gmap.
From S2P Require Import Prelude IntervalSet VmMapping Vmar.
Local Open Scope Z_scope.

Module VmarMaps.
Import Vmar.

(** ** The invariant *)

Fixpoint sizes (l : list VmMapping) : Z :=
  match l with [] => 0 | m :: r => map_size m + sizes r end.

Definition maps_ok (l : list VmMapping) : Prop :=
  IntervalSet.chain VMAR_LOWEST_ADDR l ∧ ∀ m, m ∈ l → mapping_ok m.

(** [m] covers the address. *)
Definition covers (m : VmMapping) (p : Z) : Prop := map_to_addr m ≤ p < map_end m.

#[global] Instance covers_dec m p : Decision (covers m p).
Proof. unfold covers. apply _. Defined.

Record wf_maps (v : Vmar) : Prop := {
  wf_ok : maps_ok (vm_mappings v);
  wf_total : total_vm v = sizes (vm_mappings v)
}.

(** Every page lies in a mapping, with the access that it allows. *)
Definition page_ok (l : list VmMapping) (k : Z) (e : Pte) : Prop :=
  (PAGE_SIZE | k) ∧ ∃ m, m ∈ l ∧ covers m k ∧ entry_ok (perms m) e.

Record wf (v : Vmar) : Prop := {
  wf_wf_maps : wf_maps v;
  wf_pages : ∀ k e, pt v !! k = Some e → page_ok (vm_mappings v) k e
}.

(** What the address space says of an address. *)
Definition view (v : Vmar) (p : Z) : option Attr :=
  (λ m, attr m p) <$> IntervalSet.find_one p (vm_mappings v).

Definition has (l : list VmMapping) (p : Z) (x : Attr) : Prop :=
  ∃ m, m ∈ l ∧ covers m p ∧ attr m p = x.

Lemma view_has v p x : maps_ok (vm_mappings v) → view v p = Some x ↔ has (vm_mappings v) p x.
Proof.
  intros [Hc _]. unfold view, has, covers. rewrite fmap_Some. split.
  - intros (m & Hf & ->). apply (IntervalSet.find_one_exact VMAR_LOWEST_ADDR) in Hf as [Hm Hp]; [| done]. by exists m.
  - intros (m & Hm & Hp & <-). exists m. split; [| done]. by apply (IntervalSet.find_one_exact VMAR_LOWEST_ADDR).
Qed.

Lemma view_none v p : maps_ok (vm_mappings v) →
  view v p = None ↔ ∀ m, m ∈ vm_mappings v → ¬ covers m p.
Proof.
  intros [Hc _]. unfold view. rewrite fmap_None. by rewrite (IntervalSet.find_one_none VMAR_LOWEST_ADDR).
Qed.

Lemma has_unique l p x y : maps_ok l → has l p x → has l p y → x = y.
Proof.
  intros [Hc _] (m & Hm & Hp & <-) (n & Hn & Hq & <-).
  by rewrite (IntervalSet.chain_unique _ l m n p Hc Hm Hn Hp Hq).
Qed.

(** Two address spaces say the same, up to a change of each address. *)
Lemma view_change v v' (f : Z → Attr → option Attr) :
  maps_ok (vm_mappings v) → maps_ok (vm_mappings v') →
  (∀ p y, has (vm_mappings v') p y ↔ ∃ x, has (vm_mappings v) p x ∧ f p x = Some y) →
  ∀ p, view v' p = view v p ≫= f p.
Proof.
  intros H H' Hf p. apply option_eq. intros y. rewrite bind_Some.
  rewrite view_has by done. rewrite Hf. by setoid_rewrite view_has.
Qed.

Lemma has_app l l' p x : has (l ++ l') p x ↔ has l p x ∨ has l' p x.
Proof. unfold has. set_solver. Qed.

Lemma has_cons m l p x : has (m :: l) p x ↔ (covers m p ∧ attr m p = x) ∨ has l p x.
Proof. unfold has. set_solver. Qed.

Lemma has_perm l l' p x : l ≡ₚ l' → has l p x ↔ has l' p x.
Proof. intros Hp. unfold has. by setoid_rewrite Hp. Qed.

Lemma sizes_perm l l' : l ≡ₚ l' → sizes l = sizes l'.
Proof. induction 1; cbn; lia. Qed.

Lemma sizes_app l l' : sizes (l ++ l') = sizes l + sizes l'.
Proof. induction l as [|m l IH]; cbn; lia. Qed.

(** The sizes fit in the user address space, so their sums do not overflow. *)
Lemma sizes_bound lo l : IntervalSet.chain lo l → lo ≤ VMAR_CAP_ADDR →
  (∀ m, m ∈ l → mapping_ok m) → 0 ≤ sizes l ≤ VMAR_CAP_ADDR - lo.
Proof.
  revert lo. induction l as [|m l IH]; intros lo Hc Hlo Hok; cbn; [lia |].
  destruct Hc as (H1 & H2 & H3). pose proof (Hok m ltac:(set_solver)) as [_ _ Hp _ Hh _ _].
  cbn in H1. destruct (IH (map_end m)); [done | done | set_solver |]. unfold map_end in *. lia.
Qed.

Lemma maps_sizes l : maps_ok l → 0 ≤ sizes l ≤ VMAR_CAP_ADDR.
Proof.
  intros [Hc Hok]. pose proof (sizes_bound VMAR_LOWEST_ADDR l Hc) as Hb.
  unfold VMAR_CAP_ADDR, VMAR_LOWEST_ADDR, PAGE_SIZE in *. specialize (Hb ltac:(lia) Hok). lia.
Qed.

(** ** Sequencing *)

Lemma bind_ok {A B} (m : M A) (f : A → M B) v a v' :
  m v = Done (ROk a, v') → (m ≫= f) v = f a v'.
Proof. intros H. unfold mbind, M_bind. by rewrite H. Qed.

Lemma bind_err {A B} (m : M A) (f : A → M B) v e v' :
  m v = Done (RErr e, v') → (m ≫= f) v = Done (RErr e, v').
Proof. intros H. unfold mbind, M_bind. by rewrite H. Qed.

Lemma lift_ok {A} (o : outcome A) a v : o = Done a → lift o v = Done (ROk a, v).
Proof. by intros ->. Qed.

Lemma ensure_true b e v : b = true → ensure b e v = Done (ROk tt, v).
Proof. by intros ->. Qed.

Lemma ensure_false b e v : b = false → ensure b e v = Done (RErr e, v).
Proof. by intros ->. Qed.

Lemma add_ok a b v : a + b < 2 ^ USIZE_BITS → add a b v = Done (ROk (a + b), v).
Proof. intros H. unfold add, checked_add. by rewrite (proj2 (Z.ltb_lt _ _)). Qed.

Lemma sub_ok a b v : b ≤ a → sub a b v = Done (ROk (a - b), v).
Proof. intros H. unfold sub, checked_sub. by rewrite (proj2 (Z.leb_le _ _)). Qed.

Lemma add_or_ok e a b v : a + b < 2 ^ USIZE_BITS → add_or e a b v = Done (ROk (a + b), v).
Proof. intros H. unfold add_or, checked_add. by rewrite (proj2 (Z.ltb_lt _ _)). Qed.

(** ** Inserting and removing *)

Lemma maps_insert l m : maps_ok l → mapping_ok m → VMAR_LOWEST_ADDR ≤ map_to_addr m →
  (∀ n, n ∈ l → IntervalSet.disjoint n m) →
  maps_ok (IntervalSet.insert m l) ∧ IntervalSet.insert m l ≡ₚ m :: l.
Proof.
  intros [Hc Hok] Hm Hlo Hd. pose proof Hm as [_ _ Hp _ _ _ _].
  destruct (IntervalSet.insert_ok VMAR_LOWEST_ADDR m l) as [Hc' Hperm]; [done | done | | done |].
  { cbn. unfold map_end. lia. }
  split; [split; [done |] | done]. intros n. rewrite Hperm. intros [->|Hn]%elem_of_cons; auto.
Qed.

Lemma maps_remove l m : maps_ok l → m ∈ l →
  ∃ l', IntervalSet.remove (map_to_addr m) l = (Some m, l') ∧ maps_ok l' ∧ l ≡ₚ m :: l' ∧
    ∀ n, n ∈ l' → IntervalSet.disjoint n m.
Proof.
  intros [Hc Hok] Hm. destruct (IntervalSet.remove_ok VMAR_LOWEST_ADDR m l) as (l' & Hr & Hc' & Hp & Hd); [done | done |].
  exists l'. split; [done |]. split; [| done]. split; [done |]. intros n Hn. apply Hok. rewrite Hp. set_solver.
Qed.

Lemma insert_plain_ok v m : wf_maps v → mapping_ok m → VMAR_LOWEST_ADDR ≤ map_to_addr m →
  (∀ n, n ∈ vm_mappings v → IntervalSet.disjoint n m) →
  ∃ v', insert_without_try_merge m v = Done (ROk tt, v') ∧ wf_maps v' ∧
    vm_mappings v' ≡ₚ m :: vm_mappings v ∧ pt v' = pt v.
Proof.
  intros [Hok Ht] Hm Hlo Hd. destruct (maps_insert (vm_mappings v) m) as [Hok' Hperm]; try done.
  pose proof (maps_sizes _ Hok') as Hs. rewrite (sizes_perm _ _ Hperm) in Hs. cbn in Hs.
  exists (mkVmar (IntervalSet.insert m (vm_mappings v)) (total_vm v + map_size m) (pt v)).
  split; [| split; [split; [done |] | done]].
  - unfold insert_without_try_merge. rewrite (bind_ok _ _ _ v v) by done.
    rewrite (bind_ok _ _ _ (total_vm v + map_size m) v); [done |].
    apply add_ok. rewrite Ht. unfold VMAR_CAP_ADDR, PAGE_SIZE, USIZE_BITS in *. lia.
  - cbn. rewrite (sizes_perm _ _ Hperm), Ht. cbn. lia.
Qed.

Lemma remove_mem_ok v m : wf_maps v → m ∈ vm_mappings v →
  ∃ v', remove (map_to_addr m) v = Done (ROk (Some m), v') ∧ wf_maps v' ∧
    vm_mappings v ≡ₚ m :: vm_mappings v' ∧ pt v' = pt v ∧
    ∀ n, n ∈ vm_mappings v' → IntervalSet.disjoint n m.
Proof.
  intros [Hok Ht] Hm. destruct (maps_remove (vm_mappings v) m) as (l' & Hr & Hok' & Hperm & Hd); try done.
  pose proof (maps_sizes _ Hok') as Hs. pose proof (sizes_perm _ _ Hperm) as Hs'. cbn in Hs'.
  exists (mkVmar l' (total_vm v - map_size m) (pt v)).
  split; [| split; [split; [done | cbn; lia] | done]].
  unfold remove. rewrite (bind_ok _ _ _ v v) by done. rewrite Hr.
  rewrite (bind_ok _ _ _ (total_vm v - map_size m) v); [done |]. apply sub_ok. lia.
Qed.

Lemma put_back_ok v o : wf_maps v →
  (∀ n, o = Some n → mapping_ok n ∧ VMAR_LOWEST_ADDR ≤ map_to_addr n ∧
     ∀ k, k ∈ vm_mappings v → IntervalSet.disjoint k n) →
  ∃ v', put_back o v = Done (ROk tt, v') ∧ wf_maps v' ∧
    vm_mappings v' ≡ₚ option_list o ++ vm_mappings v ∧ pt v' = pt v.
Proof.
  intros Hwf Ho. destruct o as [n|]; cbn; [| by exists v].
  destruct (Ho n eq_refl) as (? & ? & ?). by apply insert_plain_ok.
Qed.

(** ** Taking a part out *)

(** The parts of a split mapping say together what the mapping said. *)
Lemma pieces_has m a b lo t ro p x : map_to_addr m ≤ a → a < b → b ≤ map_end m →
  left_piece m a lo → piece m a b t → right_piece m b ro →
  (covers m p ∧ attr m p = x) ↔
    has (option_list lo) p x ∨ (covers t p ∧ attr t p = x) ∨ has (option_list ro) p x.
Proof.
  intros Ha Hab Hb Hl (_ & Ht1 & Ht2 & Ht) Hr.
  assert (has (option_list lo) p x ↔ map_to_addr m ≤ p < a ∧ attr m p = x) as ->.
  { destruct lo as [l|]; cbn in *.
    - destruct Hl as (_ & _ & E1 & E2 & E3). rewrite has_cons. unfold covers. rewrite E1, E2, E3.
      unfold has. set_solver.
    - split; [intros (? & ?%not_elem_of_nil & _); done | intros [? _]; lia]. }
  assert (has (option_list ro) p x ↔ b ≤ p < map_end m ∧ attr m p = x) as ->.
  { destruct ro as [r|]; cbn in *.
    - destruct Hr as (_ & _ & E1 & E2 & E3). rewrite has_cons. unfold covers. rewrite E1, E2, E3.
      unfold has. set_solver.
    - split; [intros (? & ?%not_elem_of_nil & _); done | intros [? _]; lia]. }
  unfold covers. rewrite Ht1, Ht2, Ht. split.
  - intros [Hp Hx]. destruct (decide (p < a)); [left; split; [lia | done] |].
    destruct (decide (p < b)); [right; left | right; right]; (split; [lia | done]).
  - intros [[? ?]|[[? ?]|[? ?]]]; (split; [lia | done]).
Qed.

Lemma pieces_sizes m a b lo t ro :
  left_piece m a lo → piece m a b t → right_piece m b ro →
  map_size m = sizes (option_list lo) + map_size t + sizes (option_list ro).
Proof.
  intros Hl (_ & Ht1 & Ht2 & _) Hr. destruct lo as [l|], ro as [r|]; cbn in *;
    try destruct Hl as (_ & _ & ? & ? & _); try destruct Hr as (_ & _ & ? & ? & _); unfold map_end in *; lia.
Qed.

(** The outer parts lie in the mapping, outside the range. *)
Lemma left_part m x lo n : left_piece m x lo → n ∈ option_list lo →
  mapping_ok n ∧ map_to_addr n = map_to_addr m ∧ map_end n = x ∧ map_to_addr m < x.
Proof.
  destruct lo as [l|]; cbn; [| by intros _ ?%not_elem_of_nil].
  intros (? & ? & ? & ? & _) ->%list_elem_of_singleton. done.
Qed.
Lemma right_part m y ro n : right_piece m y ro → n ∈ option_list ro →
  mapping_ok n ∧ map_to_addr n = y ∧ map_end n = map_end m ∧ y < map_end m.
Proof.
  destruct ro as [r|]; cbn; [| by intros _ ?%not_elem_of_nil].
  intros (? & ? & ? & ? & _) ->%list_elem_of_singleton. done.
Qed.

(** The part of a mapping in a range, and the mappings without it. *)
Lemma take_part_ok v a b m : wf_maps v → m ∈ vm_mappings v → IntervalSet.meets a b m →
  a < b → (PAGE_SIZE | a) → (PAGE_SIZE | b) →
  ∃ t v', take_part a b (map_to_addr m) v = Done (ROk t, v') ∧ wf_maps v' ∧ pt v' = pt v ∧
    piece m (Z.max a (map_to_addr m)) (Z.min b (map_end m)) t ∧
    VMAR_LOWEST_ADDR ≤ map_to_addr t ∧
    (∀ p x, has (vm_mappings v) p x ↔ (covers t p ∧ attr t p = x) ∨ has (vm_mappings v') p x) ∧
    (∀ n, n ∈ vm_mappings v' → IntervalSet.disjoint n t) ∧
    (∀ n, n ∈ vm_mappings v → n = m ∨ n ∈ vm_mappings v') ∧
    (∀ n, n ∈ vm_mappings v' → (n ∈ vm_mappings v ∧ n ≠ m) ∨ ¬ IntervalSet.meets a b n) ∧
    sizes (vm_mappings v) = map_size t + sizes (vm_mappings v').
Proof.
  intros Hwf Hm [Hm1 Hm2] Hab Da Db. cbn in Hm1, Hm2.
  pose proof Hwf as [[Hc Hok] _]. pose proof (Hok m Hm) as Hmok. pose proof Hmok as [M1 M2 M3 M4 M5 _ _].
  destruct (IntervalSet.chain_elem _ _ _ Hc Hm) as [Hlo _]. cbn in Hlo.
  assert ((PAGE_SIZE | map_end m)) as Me by (unfold map_end; by apply Z.divide_add_r).
  destruct (remove_mem_ok v m) as (v1 & E1 & Hwf1 & Hp1 & Hpt1 & Hd1); try done.
  set (x := Z.max a (map_to_addr m)). set (y := Z.min b (map_end m)).
  assert ((PAGE_SIZE | x) ∧ (PAGE_SIZE | y)) as [Dx Dy].
  { unfold x, y. destruct (Z.max_spec a (map_to_addr m)) as [[_ ->]|[_ ->]],
      (Z.min_spec b (map_end m)) as [[_ ->]|[_ ->]]; done. }
  assert (map_to_addr m < map_end m) by (unfold map_end; lia).
  destruct (split_range_ok m x y) as (lo & t & ro & E2 & Hl & Ht & Hr); try done; [lia | lia | lia |].
  pose proof Ht as (Htok & Ht1 & Ht2 & _).
  destruct (put_back_ok v1 lo) as (v2 & E3 & Hwf2 & Hp2 & Hpt2); [done | |].
  { intros l ->. destruct (left_part m x (Some l) l) as (? & ? & ? & ?); [done | set_solver |].
    split; [done |]. split; [lia |].
    intros k Hk. specialize (Hd1 k Hk). unfold IntervalSet.disjoint in *. cbn in *. lia. }
  destruct (put_back_ok v2 ro) as (v3 & E4 & Hwf3 & Hp3 & Hpt3); [done | |].
  { intros r ->. destruct (right_part m y (Some r) r) as (? & ? & ? & ?); [done | set_solver |].
    split; [done |]. split; [lia |].
    intros k. rewrite Hp2. intros [Hk|Hk]%elem_of_app.
    - destruct (left_part m x lo k Hl Hk) as (? & ? & ? & ?). left. cbn. lia.
    - specialize (Hd1 k Hk). unfold IntervalSet.disjoint in *. cbn in *. lia. }
  exists t, v3. split.
  { unfold take_part. rewrite (bind_ok _ _ _ _ _ E1), (bind_ok _ _ _ m v1) by done. cbn [get_intersected_range].
    fold x y. rewrite (bind_ok _ _ _ (lo, t, ro) v1) by (by apply lift_ok).
    rewrite (bind_ok _ _ _ _ _ E3), (bind_ok _ _ _ _ _ E4). done. }
  split; [done |]. split; [congruence |]. split; [done |]. split; [lia |].
  assert (∀ n, n ∈ vm_mappings v3 ↔ n ∈ option_list ro ∨ n ∈ option_list lo ∨ n ∈ vm_mappings v1) as Hin3.
  { intros n. rewrite Hp3, elem_of_app, Hp2, elem_of_app. done. }
  split_and!.
  - intros p z. rewrite (has_perm _ _ _ _ Hp1), has_cons.
    rewrite (pieces_has m x y lo t ro p z) by (done || lia).
    rewrite (has_perm _ _ _ _ Hp3), has_app, (has_perm _ _ _ _ Hp2), has_app. tauto.
  - intros n [Hn|[Hn|Hn]]%Hin3.
    + destruct (right_part m y ro n Hr Hn) as (? & ? & ? & ?). right. cbn. lia.
    + destruct (left_part m x lo n Hl Hn) as (? & ? & ? & ?). left. cbn. lia.
    + specialize (Hd1 n Hn). unfold IntervalSet.disjoint in *. cbn in *. lia.
  - intros n. rewrite Hp1. intros [->|Hn]%elem_of_cons; [by left | right; apply Hin3; auto].
  - intros n [Hn|[Hn|Hn]]%Hin3.
    + right. destruct (right_part m y ro n Hr Hn) as (? & ? & ? & ?). intros [? ?]. cbn in *. lia.
    + right. destruct (left_part m x lo n Hl Hn) as (? & ? & ? & ?). intros [? ?]. cbn in *. lia.
    + left. split; [rewrite Hp1; set_solver |]. intros ->. specialize (Hd1 m Hn).
      unfold IntervalSet.disjoint in Hd1. cbn in Hd1. lia.
  - rewrite (sizes_perm _ _ Hp1), (sizes_perm _ _ Hp3), sizes_app, (sizes_perm _ _ Hp2), sizes_app. cbn [sizes].
    pose proof (pieces_sizes m x y lo t ro Hl Ht Hr). lia.
Qed.

(** ** Truncating a range *)

Lemma truncate_loop_ok a b ms v : a < b → (PAGE_SIZE | a) → (PAGE_SIZE | b) →
  wf_maps v → NoDup ms → (∀ m, m ∈ ms ↔ m ∈ vm_mappings v ∧ IntervalSet.meets a b m) →
  ∃ v', truncate_loop a b (map_to_addr <$> ms) v = Done (ROk tt, v') ∧ wf_maps v' ∧
    (∀ p x, has (vm_mappings v') p x ↔ has (vm_mappings v) p x ∧ ¬ (a ≤ p < b)) ∧
    (∀ k, pt v' !! k = if decide (a ≤ k < b ∧ is_Some (view v k)) then None else pt v !! k) ∧
    sizes (vm_mappings v) = overlap_sum a b ms + sizes (vm_mappings v').
Proof.
  intros Hab Da Db. revert v. induction ms as [|m ms IH]; intros v Hwf Hnd Hms.
  { exists v. split; [done |]. split; [done |].
    assert (∀ p x, has (vm_mappings v) p x → ¬ (a ≤ p < b)) as Hno.
    { intros p x (m & Hm & Hp & _) Hr. apply (not_elem_of_nil m), Hms. split; [done |].
      unfold covers in Hp. split; cbn; lia. }
    split; [intros p x; split; [eauto | tauto] |]. split; [| done].
    intros k. destruct (decide (a ≤ k < b ∧ is_Some (view v k))) as [[Hk [x Hx]]|]; [| done].
    apply view_has in Hx; [| apply Hwf]. by destruct (Hno _ _ Hx). }
  destruct (proj1 (Hms m)) as [Hm Hmeet]; [set_solver |]. apply NoDup_cons in Hnd as [Hnm Hnd].
  destruct (take_part_ok v a b m) as (t & v1 & E1 & Hwf1 & Hpt1 & (Htok & Ht1 & Ht2 & _) & _ & Hhas & Hdis & Hkeep & Hnew & Hsz); try done.
  set (v2 := set_pt (mapping_unmap t (pt v1)) v1).
  destruct (IH v2) as (v' & E2 & Hwf' & Hhas' & Hpt' & Hsz'); [split; apply Hwf1 | done | |].
  { intros n. cbn. split.
    - intros Hn. destruct (proj1 (Hms n)) as [Hn1 Hn2]; [set_solver |]. split; [| done].
      destruct (Hkeep n Hn1) as [->|]; done.
    - intros [Hn Hmt]. destruct (Hnew n Hn) as [[Hn1 Hn2]|]; [| done].
      destruct (elem_of_cons ms n m) as [[?|?] _]; [by apply Hms | done | done]. }
  exists v'. split.
  { cbn [fmap list_fmap truncate_loop]. rewrite (bind_ok _ _ _ _ _ E1). done. }
  split; [done |]. cbn in Hhas'. destruct Hmeet as [Hm1 Hm2]. cbn in Hm1, Hm2.
  assert (∀ p, covers t p → a ≤ p < b) as Hcov by (intros p; unfold covers; lia).
  split_and!.
  - intros p x. rewrite Hhas', Hhas. split; [tauto |]. intros [[[Hp _]|?] ?]; [| done].
    specialize (Hcov p Hp). tauto.
  - intros k. rewrite Hpt'. cbn. unfold mapping_unmap. rewrite Hpt1, pt_unmap_lookup.
    assert (is_Some (view v k) ↔ covers t k ∨ is_Some (view v2 k)) as Hv.
    { unfold is_Some. setoid_rewrite (view_has v); [| apply Hwf]. setoid_rewrite (view_has v2); [| apply Hwf1].
      setoid_rewrite Hhas. naive_solver. }
    specialize (Hcov k). unfold covers in *.
    repeat case_decide; try done; exfalso; tauto.
  - cbn [overlap_sum get_intersected_range]. cbn in Hsz'. unfold map_end in *. lia.
Qed.

Lemma page_ok_has l k e :
  page_ok l k e ↔ (PAGE_SIZE | k) ∧ ∃ x, has l k x ∧ entry_ok (a_perms x) e.
Proof. unfold page_ok, has. naive_solver. Qed.

Lemma maps_nodup l : maps_ok l → NoDup l.
Proof.
  intros [Hc _]. revert Hc. generalize VMAR_LOWEST_ADDR. induction l as [|m l IH]; intros lo Hc; [constructor |].
  destruct Hc as (H1 & H2 & H3). constructor; [| by eapply IH].
  intros Hm. destruct (IntervalSet.chain_elem _ _ _ H3 Hm). lia.
Qed.

Lemma find_todo l a b : maps_ok l → a < b → NoDup (IntervalSet.find a b l) ∧
  ∀ m, m ∈ IntervalSet.find a b l ↔ m ∈ l ∧ IntervalSet.meets a b m.
Proof.
  intros Hok Hab. split; [| intros m; by apply (IntervalSet.find_elem VMAR_LOWEST_ADDR), Hab; apply Hok].
  rewrite (IntervalSet.find_exact VMAR_LOWEST_ADDR) by (done || apply Hok). by apply NoDup_filter, maps_nodup.
Qed.

Lemma truncate_ok v offset size : wf v → 0 < size → (PAGE_SIZE | offset) → (PAGE_SIZE | size) →
  offset + size < 2 ^ USIZE_BITS →
  ∃ v', alloc_free_region_exact_truncate offset size v = Done (ROk offset, v') ∧ wf v' ∧
    (∀ p, view v' p = if decide (offset ≤ p < offset + size) then None else view v p) ∧
    (∀ k, pt v' !! k = if decide (offset ≤ k < offset + size) then None else pt v !! k) ∧
    total_vm v' = total_vm v - count_overlap_size offset (offset + size) v.
Proof.
  intros [Hwf Hpg] Hs Do Ds Hov.
  destruct (find_todo (vm_mappings v) offset (offset + size)) as [Hnd Hin]; [apply Hwf | lia |].
  destruct (truncate_loop_ok offset (offset + size) (IntervalSet.find offset (offset + size) (vm_mappings v)) v)
    as (v' & E & Hwf' & Hhas & Hpt & Hsz); try done; [lia | by apply Z.divide_add_r |].
  assert (∀ p, view v' p = if decide (offset ≤ p < offset + size) then None else view v p) as Hview.
  { intros p. apply option_eq. intros x. rewrite view_has, Hhas by apply Hwf'.
    rewrite <- view_has by apply Hwf. case_decide; naive_solver. }
  assert (∀ k, pt v' !! k = if decide (offset ≤ k < offset + size) then None else pt v !! k) as Hpt'.
  { intros k. rewrite Hpt. repeat case_decide; try tauto. destruct (pt v !! k) as [e|] eqn:He; [| done].
    apply Hpg, page_ok_has in He as (_ & x & Hx & _). exfalso. apply H. split; [done |]. exists x.
    apply view_has; [apply Hwf | done]. }
  exists v'. split.
  { unfold alloc_free_region_exact_truncate. rewrite (bind_ok _ _ _ (offset + size) v) by (by apply add_ok).
    rewrite (bind_ok _ _ _ v v) by done. by rewrite (bind_ok _ _ _ _ _ E). }
  split; [split; [done |] | split_and!; try done].
  2: { rewrite (wf_total _ Hwf), (wf_total _ Hwf'). unfold count_overlap_size. lia. }
  intros k e. rewrite Hpt'. case_decide as Hk; [done |]. intros He. apply Hpg, page_ok_has in He as (Hd & x & Hx & He).
  apply page_ok_has. split; [done |]. exists x. split; [| done]. apply Hhas. done.
Qed.

(** ** Inserting with merging *)

(** Merging with a neighbour keeps what the mappings say and their sizes. *)
Lemma merge_neighbour_ok v m o : maps_ok (vm_mappings v) → mapping_ok m →
  VMAR_LOWEST_ADDR ≤ map_to_addr m →
  (∀ n, n ∈ vm_mappings v → IntervalSet.disjoint n m) →
  (∀ n, o = Some n → n ∈ vm_mappings v) →
  ∃ m' v', merge_neighbour o m v = Done (ROk m', v') ∧ maps_ok (vm_mappings v') ∧ mapping_ok m' ∧
    VMAR_LOWEST_ADDR ≤ map_to_addr m' ∧
    (∀ n, n ∈ vm_mappings v' → IntervalSet.disjoint n m') ∧
    (∀ p x, has (m' :: vm_mappings v') p x ↔ has (m :: vm_mappings v) p x) ∧
    sizes (m' :: vm_mappings v') = sizes (m :: vm_mappings v) ∧
    perms m' = perms m ∧ (∀ n, n ∈ vm_mappings v → n ∈ vm_mappings v' ∨ perms n = perms m) ∧
    total_vm v' = total_vm v ∧ pt v' = pt v.
Proof.
  intros Hok Hm Hlo Hd Ho. destruct o as [n|]; cbn [merge_neighbour]; [| by exists m, v; split_and!; eauto].
  specialize (Ho n eq_refl). pose proof Hok as [Hc Hall]. specialize (Hall n Ho).
  assert (∃ o, (if map_to_addr m <? map_to_addr n then try_merge m n else try_merge n m) = Done o ∧
    ∀ m', o = Some m' → mapping_ok m' ∧ perms m' = perms m ∧ perms n = perms m ∧
      map_size m' = map_size m + map_size n ∧
      ((map_end m = map_to_addr n ∧ map_to_addr m' = map_to_addr m ∧ map_end m' = map_end n) ∨
       (map_end n = map_to_addr m ∧ map_to_addr m' = map_to_addr n ∧ map_end m' = map_end m)) ∧
      (∀ p, attr m' p = attr m p) ∧ ∀ p, attr m' p = attr n p) as (o & Eo & Hmo).
  { destruct (Z.ltb_spec (map_to_addr m) (map_to_addr n)).
    - destruct (try_merge_ok m n) as (o & -> & Hmo); try done. exists o. split; [done |].
      intros m' ->. destruct (Hmo m' eq_refl) as (? & ? & ? & ? & ? & ? & Ha & ?).
      pose proof (f_equal a_perms (Ha 0)). split_and!; try done; lia.
    - destruct (try_merge_ok n m) as (o & -> & Hmo); try done. exists o. split; [done |].
      intros m' ->. destruct (Hmo m' eq_refl) as (? & ? & ? & ? & ? & ? & ? & Ha).
      pose proof (f_equal a_perms (Ha 0)). split_and!; try done; lia. }
  assert (try_merge_with m n = Done (match o with Some m' => (m', Some (map_to_addr n)) | None => (m, None) end))
    as -> by (unfold try_merge_with; by rewrite Eo).
  destruct o as [m'|]; [| exists m, v; split_and!; eauto].
  destruct (Hmo m' eq_refl) as (H1 & H2 & H3 & H4 & H5 & H6 & H7).
  destruct (maps_remove (vm_mappings v) n) as (l' & Er & Hok' & Hp & Hdn); try done.
  exists m', (set_mappings l' v). split.
  { rewrite (bind_ok _ _ _ (m', Some (map_to_addr n)) v), (bind_ok _ _ _ v v) by done. by rewrite Er. }
  assert (VMAR_LOWEST_ADDR ≤ map_to_addr n) by (by apply (IntervalSet.chain_elem _ _ _ Hc Ho)).
  split_and!; try done; cbn [vm_mappings set_mappings].
  - lia.
  - intros k Hk. pose proof (Hdn k Hk) as K1. assert (k ∈ vm_mappings v) as Hkv by (rewrite Hp; set_solver).
    pose proof (Hd k Hkv) as K2. destruct (IntervalSet.chain_elem _ _ _ Hc Hkv) as [_ K3].
    unfold IntervalSet.disjoint in *. cbn in *. lia.
  - intros p x. rewrite !has_cons, (has_perm _ _ _ _ Hp), has_cons. rewrite <- H6, <- H7.
    assert (covers m' p ↔ covers m p ∨ covers n p) as ->; [| tauto].
    destruct Hm as [_ _ ? _ _ _ _], Hall as [_ _ ? _ _ _ _]. unfold covers, map_end in *. lia.
  - cbn. rewrite (sizes_perm _ _ Hp). cbn. lia.
  - intros k. rewrite Hp. intros [->|Hk]%elem_of_cons; auto.
Qed.

(** A mapping put in a free place: only its addresses change, whether or not it
    merges with its neighbours. *)
Lemma insert_merge_ok v m : wf_maps v → mapping_ok m → VMAR_LOWEST_ADDR ≤ map_to_addr m →
  (∀ n, n ∈ vm_mappings v → IntervalSet.disjoint n m) →
  ∃ v', insert_try_merge m v = Done (ROk tt, v') ∧ wf_maps v' ∧ pt v' = pt v ∧
    (∀ p x, has (vm_mappings v') p x ↔ (covers m p ∧ attr m p = x) ∨ has (vm_mappings v) p x) ∧
    (∀ n, n ∈ vm_mappings v → n ∈ vm_mappings v' ∨ perms n = perms m) ∧
    total_vm v' = total_vm v + map_size m.
Proof.
  intros [Hok Ht] Hm Hlo Hd.
  destruct (maps_insert (vm_mappings v) m) as [Hok' Hperm]; try done.
  pose proof (maps_sizes _ Hok') as Hs. rewrite (sizes_perm _ _ Hperm) in Hs. cbn in Hs.
  set (v1 := set_total (total_vm v + map_size m) v).
  destruct (merge_neighbour_ok v1 m (IntervalSet.find_prev (map_to_addr m) (vm_mappings v1)))
    as (m2 & v2 & E2 & Hok2 & Hm2 & Hlo2 & Hd2 & Hhas2 & Hs2 & Hq2 & Hk2 & Ht2 & Hp2); try done.
  { intros n. apply IntervalSet.find_prev_in. }
  destruct (merge_neighbour_ok v2 m2 (IntervalSet.find_next (map_to_addr m) (vm_mappings v2)))
    as (m3 & v3 & E3 & Hok3 & Hm3 & Hlo3 & Hd3 & Hhas3 & Hs3 & Hq3 & Hk3 & Ht3 & Hp3); try done.
  { intros n. apply IntervalSet.find_next_in. }
  destruct (maps_insert (vm_mappings v3) m3) as [Hok4 Hp4]; try done.
  exists (set_mappings (IntervalSet.insert m3 (vm_mappings v3)) v3). split.
  { unfold insert_try_merge. rewrite (bind_ok _ _ _ v v) by done.
    rewrite (bind_ok _ _ _ (total_vm v + map_size m) v).
    2: { apply add_ok. rewrite Ht. unfold VMAR_CAP_ADDR, PAGE_SIZE, USIZE_BITS in *. lia. }
    rewrite (bind_ok _ _ _ tt v1), (bind_ok _ _ _ v1 v1), (bind_ok _ _ _ _ _ E2) by done.
    rewrite (bind_ok _ _ _ v2 v2), (bind_ok _ _ _ _ _ E3) by done. done. }
  cbn in Hs2, Hs3. split; [split; [done |] |].
  { cbn. rewrite (sizes_perm _ _ Hp4). cbn. rewrite Ht3, Ht2. cbn. lia. }
  split; [cbn; by rewrite Hp3, Hp2 |]. split_and!; [| | cbn; by rewrite Ht3, Ht2].
  - intros p x. cbn. rewrite (has_perm _ _ _ _ Hp4), Hhas3, Hhas2, has_cons. done.
  - intros n Hn. cbn. setoid_rewrite Hp4. destruct (Hk2 n Hn) as [Hn2|?]; [| by right].
    destruct (Hk3 n Hn2) as [?|?]; [left; set_solver | right; congruence].
Qed.

(** An address space with four pages of private anonymous memory, one of them present. *)
Definition sample : Vmar :=
  mkVmar [mkMapping (4 * PAGE_SIZE) VMAR_LOWEST_ADDR Anonymous None false false 0x3b] (4 * PAGE_SIZE)
    {[VMAR_LOWEST_ADDR := mkPte (Ram 3) 3]}.

Lemma sample_wf : wf sample.
Proof.
  assert (mapping_ok (mkMapping (4 * PAGE_SIZE) VMAR_LOWEST_ADDR Anonymous None false false 0x3b)) as Hok.
  { split; cbn; try done; first [by exists 4 | by exists 16]. }
  split; [split; [split |] |].
  - vm_compute. intuition congruence.
  - by intros m ->%list_elem_of_singleton.
  - done.
  - intros k e. cbn [pt sample]. intros [<- <-]%lookup_singleton_Some. split; [by exists 16 |].
    eexists. split; [by left |]. split; [vm_compute; intuition congruence | by left].
Qed.
End VmarMaps.
