(* ===== verification/VmarOps.v ===== *)
(** * Operations on an address space

    What [remove_mapping], [protect], [alloc_free_region] and [build] do to the
    mappings and the pages, on every branch. *)

From stdpp Require Import gmap.
From S2P Require Import Prelude Align IntervalSet VmMapping Vmar VmarMaps.
Local Open Scope Z_scope.

Module VmarOps.
Import Vmar VmarMaps.

(** ** Unmapping *)

(** [Vmar::remove_mapping] of a page-aligned range. *)
Lemma remove_mapping_ok v a b : wf v → (PAGE_SIZE | a) → (PAGE_SIZE | b) →
  a < b → b < 2 ^ USIZE_BITS →
  ∃ v', remove_mapping a b v = Done (ROk tt, v') ∧ wf v' ∧
    (∀ p, view v' p = if decide (a ≤ p < b) then None else view v p) ∧
    ∀ k, pt v' !! k = if decide (a ≤ k < b) then None else pt v !! k.
Proof.
  intros Hwf Da Db Hab Hb. destruct (truncate_ok v a (b - a)) as (v' & E & Hwf' & Hv & Hp & _);
    [done | lia | done | by apply Z.divide_sub_r | lia |].
  replace (a + (b - a)) with b in Hv, Hp by lia. exists v'. split; [| done].
  unfold remove_mapping, range_len. rewrite (proj2 (Z.leb_le a b)) by lia.
  by rewrite (bind_ok _ _ _ _ _ E).
Qed.

(** ** Changing permissions *)

Definition set_perms (x : Attr) (q : Z) : Attr := mkAttr (a_backing x) (a_shared x) (a_around x) q.

(** The permissions of a mapping after [protect]: its [MAY_*] bits stay. *)
Definition protected (q w : Z) : Z := Z.lor q (Z.land w VmPerms.ALL_MAY_PERMS).

Lemma perms_table : forallb (λ q, forallb (λ w,
    (0 <=? protected q w) && (protected q w <? 64)
    && (Z.land (protected q w) VmPerms.ALL_PERMS =? q)
    && implb (q =? Z.land w VmPerms.ALL_PERMS) (protected q w =? w)) (seqZ 0 64)) (seqZ 0 8) = true.
Proof. by vm_compute. Qed.

Lemma plain_perms q : VmPerms.contains VmPerms.ALL_PERMS q = true → 0 ≤ q < 8.
Proof.
  unfold VmPerms.contains. intros <-%Z.eqb_eq. change VmPerms.ALL_PERMS with (Z.ones 3).
  rewrite Z.land_comm, Z.land_ones by lia. apply Z.mod_pos_bound. lia.
Qed.

Lemma protected_spec q w : VmPerms.contains VmPerms.ALL_PERMS q = true → 0 ≤ w < 64 →
  0 ≤ protected q w < 64 ∧ Z.land (protected q w) VmPerms.ALL_PERMS = q ∧
  (q = Z.land w VmPerms.ALL_PERMS → protected q w = w).
Proof.
  intros Hq%plain_perms Hw. pose proof perms_table as T. rewrite forallb_forall in T.
  specialize (T q). rewrite <- list_elem_of_In, elem_of_seqZ in T. specialize (T ltac:(lia)).
  rewrite forallb_forall in T. specialize (T w). rewrite <- list_elem_of_In, elem_of_seqZ in T.
  specialize (T ltac:(lia)). apply andb_true_iff in T as [[[H1 H2]%andb_true_iff H3]%andb_true_iff H4].
  apply Z.leb_le in H1. apply Z.ltb_lt in H2. apply Z.eqb_eq in H3. split; [lia |]. split; [done |].
  intros E. rewrite (proj2 (Z.eqb_eq _ _) E) in H4. by apply Z.eqb_eq in H4.
Qed.

(** The change of one address by protecting the mappings [ms] in [a, b). *)
Definition retag (a b q : Z) (ms : list VmMapping) (p : Z) (x : Attr) : Attr :=
  if decide (a ≤ p < b ∧ Exists (λ m, covers m p) ms)
  then set_perms x (protected q (a_perms x)) else x.

(** The pages keep to the mappings while a part of one changes its permissions. *)
Lemma protect_pages v l' t new :
  (∀ k e, pt v !! k = Some e → page_ok (vm_mappings v) k e) →
  (∀ k x, has (vm_mappings v) k x → ¬ covers t k → has l' k x) →
  (∀ k, covers t k → has l' k (attr (with_perms t new) k)) →
  ∀ k e, (mapping_protect t new (pt v)).2 !! k = Some e → page_ok l' k e.
Proof.
  intros Hpg Hout Hin k e He. apply page_ok_has. destruct (decide (covers t k)) as [Hc|Hc].
  - pose proof (protect_entry_ok t new (pt v) _ _ k e (surjective_pairing _) He Hc) as Hent.
    cbn in He. rewrite pt_protect_lookup in He. apply fmap_Some in He as (e0 & He0 & _).
    apply Hpg in He0 as [Hd _]. split; [done |]. eexists. split; [by apply Hin | done].
  - cbn in He. rewrite pt_protect_lookup in He. apply fmap_Some in He as (e0 & He0 & ->).
    rewrite decide_False by done. apply Hpg, page_ok_has in He0 as (Hd & x & Hx & He0).
    split; [done |]. exists x. split; [by apply Hout | done].
Qed.

(** One mapping of [protect]. *)
Lemma protect_one a b q v m : a < b → (PAGE_SIZE | a) → (PAGE_SIZE | b) →
  0 ≤ protected q (perms m) < 64 → wf v → m ∈ vm_mappings v →
  IntervalSet.meets a b m → VmPerms.check (protected q (perms m)) = true →
  ∃ t v1 v', take_part a b (map_to_addr m) v = Done (ROk t, v1) ∧
    insert_try_merge (mapping_protect t (protected q (perms m)) (pt v1)).1
      (set_pt (mapping_protect t (protected q (perms m)) (pt v1)).2 v1) = Done (ROk tt, v') ∧
    wf v' ∧ (∀ p y, has (vm_mappings v') p y ↔
      ∃ x, has (vm_mappings v) p x ∧ y = retag a b q [m] p x) ∧
    (∀ k, item <$> pt v' !! k = item <$> pt v !! k) ∧
    (∀ n, n ∈ vm_mappings v → n = m ∨ n ∈ vm_mappings v' ∨ perms n = protected q (perms m)) ∧
    (∀ p, covers t p ↔ a ≤ p < b ∧ covers m p) ∧ (∀ p, attr t p = attr m p) ∧
    pt v' = (mapping_protect t (protected q (perms m)) (pt v)).2.
Proof.
  intros Hab Da Db Hnew [Hwf Hpg] Hm Hmeet Hchk.
  destruct (take_part_ok v a b m) as (t & v1 & E1 & Hwf1 & Hpt1 & (Htok & Ht1 & Ht2 & Hta) & Hlo & Hhas & Hdis & Hkeep & _ & _); try done.
  exists t, v1. set (new := protected q (perms m)).
  fold new in Hnew.
  assert (perms t = perms m) as Htp by (by apply (f_equal a_perms (Hta 0))).
  set (t' := (mapping_protect t new (pt v1)).1). set (p' := (mapping_protect t new (pt v1)).2).
  assert (mapping_ok t') as Htok' by (destruct Htok; split; done).
  destruct (insert_merge_ok (set_pt p' v1) t') as (v' & E2 & Hwf' & Hpt' & Hhas' & Hkeep' & _); try done.
  { split; apply Hwf1. }
  exists v'. split; [done |]. split; [done |].
  change (vm_mappings (set_pt p' v1)) with (vm_mappings v1) in Hhas', Hkeep'. change (pt (set_pt p' v1)) with p' in Hpt'.
  assert (∀ p, covers t p ↔ a ≤ p < b ∧ covers m p) as Hcov.
  { intros p. destruct Hmeet as [? ?]. cbn in *. unfold covers. rewrite Ht1, Ht2. lia. }
  assert (∀ p x, covers t p → ¬ has (vm_mappings v1) p x) as Hno.
  { intros p x Hp (n & Hn & Hc & _). specialize (Hdis n Hn). unfold IntervalSet.disjoint, covers in *. cbn in *. lia. }
  assert (∀ p x, retag a b q [m] p x = if decide (covers t p) then set_perms x (protected q (a_perms x)) else x) as Hre.
  { intros p x. unfold retag. pose proof (Exists_cons (λ m, covers m p) m []) as Hex. rewrite Exists_nil in Hex.
    specialize (Hcov p). repeat case_decide; done || tauto. }
  assert (∀ p y, has (vm_mappings v') p y ↔ ∃ x, has (vm_mappings v) p x ∧ y = retag a b q [m] p x) as Hhv.
  { intros p y. rewrite Hhas'. setoid_rewrite Hhas. setoid_rewrite Hre.
    change (covers t' p) with (covers t p). case_decide as Hc.
    - assert (attr t' p = set_perms (attr t p) (protected q (a_perms (attr t p)))) as Ha
        by (unfold set_perms; cbn; rewrite Htp; done).
      rewrite Ha. split; [intros [[_ <-]|[]%Hno] | intros (x & [[_ <-]|[]%Hno] & ->)]; eauto.
    - naive_solver. }
  split; [split; [done |] |].
  - intros k e. rewrite Hpt'. unfold p'. rewrite Hpt1. apply protect_pages; [done | |].
    + intros k' x Hx Hc. apply Hhas'. right. apply Hhas in Hx as [[Hx _]|]; done.
    + intros k' Hc. apply Hhas'. by left.
  - split; [done |]. split_and!; try done.
    + intros k. rewrite Hpt'. unfold p'. cbn. rewrite pt_protect_lookup, Hpt1.
      destruct (pt v !! k); cbn; [| done]. by case_decide.
    + intros n Hn. destruct (Hkeep n Hn) as [->|Hn1]; [by left |]. right.
      destruct (Hkeep' n Hn1) as [|Hp]; [by left | by right].
    + rewrite Hpt'. unfold p'. by rewrite Hpt1.
Qed.

(** The entry lets the process write. *)
Definition may_write (e : Pte) : bool := Z.testbit (flags e) 1.

Lemma flags_write p : Z.testbit (flags_of_perms p) 1 = VmPerms.contains p VmPerms.WRITE.
Proof.
  unfold flags_of_perms. by destruct (VmPerms.contains p VmPerms.READ), (VmPerms.contains p VmPerms.WRITE),
    (VmPerms.contains p VmPerms.EXEC).
Qed.

(** How [protect] changes an entry of an address with the attributes [x]: it becomes
    writable only if its mapping was, or is shared. *)
Definition entry_change (q : Z) (x : Attr) (e e' : Pte) : Prop :=
  q ≠ Z.land (a_perms x) VmPerms.ALL_PERMS ∧
  (may_write e' = true → VmPerms.contains (protected q (a_perms x)) VmPerms.WRITE = true ∧
     (a_shared x = true ∨ VmPerms.contains (a_perms x) VmPerms.MAY_WRITE = false ∨
      VmPerms.contains (a_perms x) VmPerms.WRITE = true)).

Definition pages_change (a b q : Z) (ms : list VmMapping) (p p' : gmap Z Pte) : Prop :=
  ∀ k e', p' !! k = Some e' → ∃ e, p !! k = Some e ∧ item e' = item e ∧
    (e' = e ∨ a ≤ k < b ∧ ∃ m, m ∈ ms ∧ covers m k ∧ entry_change q (attr m k) e e').

Lemma pages_change_refl a b q ms p : pages_change a b q ms p p.
Proof. intros k e' He. exists e'. auto. Qed.

Lemma pages_change_step a b q m ms p p' p'' : (∀ n k, n ∈ ms → covers n k → ¬ covers m k) →
  pages_change a b q [m] p p' → pages_change a b q ms p' p'' → pages_change a b q (m :: ms) p p''.
Proof.
  intros Hsep H1 H2 k e'' He''. destruct (H2 k e'' He'') as (e' & He' & Hi' & Hc').
  destruct (H1 k e' He') as (e & He & Hi & Hc). exists e. split; [done |]. split; [congruence |].
  destruct Hc as [->|(Hr & n & ->%list_elem_of_singleton & Hn & Hch)].
  - destruct Hc' as [|(Hr & n & Hn & Hk & Hch)]; [by left | right]. split; [done |]. exists n. split_and!; try done. by right.
  - destruct Hc' as [->|(_ & n & Hn' & Hk & _)]; [| by destruct (Hsep n k Hn' Hk)].
    right. split; [done |]. exists m. split_and!; try done. by left.
Qed.

(** The entries that the part [t] of [m] leaves. *)
Lemma protect_change a b q m t p : q ≠ Z.land (perms m) VmPerms.ALL_PERMS →
  (∀ k, covers t k ↔ a ≤ k < b ∧ covers m k) → (∀ k, attr t k = attr m k) →
  pages_change a b q [m] p (mapping_protect t (protected q (perms m)) p).2.
Proof.
  intros Hq Hcov Hat k e' He'. unfold mapping_protect in He'. cbn [snd] in He'. rewrite pt_protect_lookup in He'.
  apply fmap_Some in He' as (e & He & ->). exists e. split; [done |].
  destruct (decide (map_to_addr t ≤ k < map_end t)) as [Hk|Hk]; [| by split; [| left]].
  apply Hcov in Hk as [Hr Hk]. split; [done |]. right. split; [done |]. exists m. split; [by left |]. split; [done |].
  pose proof (f_equal a_perms (Hat 0)) as Hp. pose proof (f_equal a_shared (Hat 0)) as Hs. cbn in Hp, Hs.
  split; [done |]. unfold may_write, is_cow. cbn [flags attr a_perms a_shared]. rewrite Hp, Hs.
  destruct (is_shared m), (VmPerms.contains (perms m) VmPerms.MAY_WRITE), (VmPerms.contains (perms m) VmPerms.WRITE);
    cbn [negb andb]; rewrite ?Z.ldiff_spec, flags_write; rewrite ?andb_false_r; auto; done.
Qed.

Definition allowed (q : Z) (m : VmMapping) : Prop := VmPerms.check (protected q (perms m)) = true.

Lemma retag_cons a b q m ms p x : retag a b q (m :: ms) p x =
  if decide (a ≤ p < b ∧ covers m p) then set_perms x (protected q (a_perms x)) else retag a b q ms p x.
Proof.
  unfold retag. pose proof (Exists_cons (λ m, covers m p) m ms) as Hex.
  repeat case_decide; done || tauto.
Qed.

Lemma retag_none a b q ms p x : (∀ m, m ∈ ms → ¬ covers m p) → retag a b q ms p x = x.
Proof.
  intros Hn. unfold retag. rewrite decide_False; [done |]. intros [_ (m & Hm & Hc)%Exists_exists]. by apply (Hn m).
Qed.

(** Changing the first mapping and then the others, which it does not overlap. *)
Lemma retag_step a b q m ms p x : (∀ n, n ∈ ms → covers n p → ¬ covers m p) →
  retag a b q ms p (retag a b q [m] p x) = retag a b q (m :: ms) p x.
Proof.
  intros Hsep. rewrite !retag_cons. case_decide as Hc.
  - apply retag_none. intros n Hn Hcn. apply (Hsep n Hn Hcn), Hc.
  - by rewrite (retag_none a b q [] p x) by (by intros ? ?%not_elem_of_nil).
Qed.

(** The loop of [protect]: the mappings up to the first one that may not get the
    permissions are changed. A mapping that was merged away has them already. *)
Lemma protect_loop_ok a b q ms v : a < b → (PAGE_SIZE | a) → (PAGE_SIZE | b) →
  VmPerms.contains VmPerms.ALL_PERMS q = true → wf v → NoDup ms →
  (∀ m n, m ∈ ms → n ∈ ms → m = n ∨ IntervalSet.disjoint m n) →
  (∀ m, m ∈ ms → IntervalSet.meets a b m ∧ mapping_ok m ∧
     (m ∈ vm_mappings v ∨ q = Z.land (perms m) VmPerms.ALL_PERMS) ∧
     ∀ p, covers m p → has (vm_mappings v) p (attr m p)) →
  ∃ ms1 ms2 r v', ms = ms1 ++ ms2 ∧
    protect_loop q a b ((λ m, (map_to_addr m, perms m)) <$> ms) v = Done (r, v') ∧ wf v' ∧
    (∀ m, m ∈ ms1 → allowed q m) ∧
    match r with
    | ROk _ => ms2 = []
    | RErr e => e = EACCES ∧ ∃ m ms3, ms2 = m :: ms3 ∧ ¬ allowed q m
    end ∧
    (∀ p y, has (vm_mappings v') p y ↔ ∃ x, has (vm_mappings v) p x ∧ y = retag a b q ms1 p x) ∧
    (∀ k, item <$> pt v' !! k = item <$> pt v !! k) ∧ pages_change a b q ms1 (pt v) (pt v').
Proof.
  intros Hab Da Db Hq. revert v. induction ms as [|m ms IH]; intros v Hwf Hnd Hdis Hms.
  { exists [], [], (ROk tt), v. split_and!; try done; [by intros ? ?%not_elem_of_nil | | apply pages_change_refl].
    intros p y. setoid_rewrite retag_none; [| by intros ? ?%not_elem_of_nil]. naive_solver. }
  apply NoDup_cons in Hnd as [Hnm Hnd].
  destruct (Hms m (list_elem_of_here _ _)) as (Hmeet & Hmok & Hin & Hatt).
  assert (∀ n p, n ∈ ms → covers n p → ¬ covers m p) as Hsep.
  { intros n p Hn Hc1 Hc2. destruct (Hdis n m) as [->|[?|?]]; [by right | by left | done | |];
      unfold covers in *; cbn in *; lia. }
  assert (∀ n k, n ∈ ms → k ∈ ms → n = k ∨ IntervalSet.disjoint n k) as Hdis'
    by (intros n k Hn Hk; apply Hdis; by right).
  pose proof Hmok as [_ _ _ _ _ _ [Hw Hchk]].
  destruct (protected_spec q (perms m) Hq Hw) as (Hnew & Hnew7 & Hsame).
  cbn [fmap list_fmap protect_loop].
  destruct (Z.eqb_spec q (Z.land (perms m) VmPerms.ALL_PERMS)) as [Hskip|Hne].
  - destruct (IH v) as (ms1 & ms2 & r & v' & -> & E & Hwf' & Hall & Hr & Hhas & Hit & Hpc); try done; [by intros n Hn; apply Hms; right |].
    exists (m :: ms1), ms2, r, v'. split_and!; try done.
    + intros n [->|Hn]%elem_of_cons; [| by apply Hall]. unfold allowed. by rewrite Hsame.
    + intros p y. rewrite Hhas. assert (∀ x, has (vm_mappings v) p x →
        retag a b q ms1 p x = retag a b q (m :: ms1) p x) as Heq; [| naive_solver].
      intros x Hx. rewrite retag_cons. case_decide as Hc; [| done]. destruct Hc as [_ Hc].
      rewrite retag_none; [| intros n Hn Hcn; apply (Hsep n p); [apply elem_of_app; by left | done | done]].
      rewrite (has_unique (vm_mappings v) p x (attr m p)); [| apply Hwf | done | by apply Hatt].
      cbn. rewrite Hsame by done. done.
    + intros k e' He'. destruct (Hpc k e' He') as (e & He & Hi & [->|(Hr' & n & Hn & ?)]); exists e; eauto.
      split_and!; try done. right. split; [done |]. exists n. split; [by right | done].
  - destruct (VmPerms.check (protected q (perms m))) eqn:Hck.
    2: { exists [], (m :: ms), (RErr EACCES), v. split_and!; try done.
         - by rewrite (bind_err _ _ _ EACCES v) by (by apply ensure_false).
         - by intros ? ?%not_elem_of_nil.
         - exists m, ms. split; [done |]. unfold allowed. by rewrite Hck.
         - intros p y. setoid_rewrite retag_none; [| by intros ? ?%not_elem_of_nil]. naive_solver.
         - apply pages_change_refl. }
    destruct Hin as [Hin|]; [| done].
    destruct (protect_one a b q v m) as (t & v1 & v2 & E1 & E2 & Hwf2 & Hhas2 & Hit2 & Hkeep2 & Hct & Hat & Hpt2); try done.
    destruct (IH v2) as (ms1 & ms2 & r & v' & -> & E & Hwf' & Hall & Hr & Hhas & Hit & Hpc); try done.
    { intros n Hn. destruct (Hms n) as (N1 & N2 & N3 & N4); [by right |]. split_and!; try done.
      - destruct N3 as [N3|?]; [| by right]. destruct (Hkeep2 n N3) as [->|[|Hp]]; [done | by left | right; by rewrite Hp].
      - intros p Hp. apply Hhas2. exists (attr n p). split; [by apply N4 |]. symmetry. apply retag_none.
        intros k ->%list_elem_of_singleton. by apply (Hsep n). }
    exists (m :: ms1), ms2, r, v'. split_and!; try done.
    + rewrite (bind_ok _ _ _ tt v) by (by apply ensure_true). rewrite (bind_ok _ _ _ _ _ E1), (bind_ok _ _ _ v1 v1) by done.
      destruct (mapping_protect t (protected q (perms m)) (pt v1)) as [t' p'] eqn:Emp. cbn in E2.
      unfold protected in Emp. rewrite Emp. by rewrite (bind_ok _ _ _ tt (set_pt p' v1)), (bind_ok _ _ _ _ _ E2) by done.
    + intros n [->|Hn]%elem_of_cons; [done | by apply Hall].
    + intros p y. rewrite Hhas. setoid_rewrite Hhas2.
      assert (∀ x, retag a b q ms1 p (retag a b q [m] p x) = retag a b q (m :: ms1) p x) as Hst; [| naive_solver].
      intros x. apply retag_step. intros n Hn. apply Hsep. apply elem_of_app. by left.
    + intros k. by rewrite Hit, Hit2.
    + apply (pages_change_step a b q m ms1 _ (pt v2)); [| rewrite Hpt2; by apply protect_change | done].
      intros n k Hn. apply Hsep. apply elem_of_app. by left.
Qed.

(** The mappings before and from a place of a range query. *)
Lemma find_cut l a b ms1 m ms2 p n : maps_ok l → a < b →
  IntervalSet.find a b l = ms1 ++ m :: ms2 → n ∈ l → covers n p → a ≤ p < b →
  n ∈ ms1 ↔ p < Z.max a (map_to_addr m).
Proof.
  intros [Hc Hok] Hab Hf Hn Hp Hr.
  assert (n ∈ ms1 ++ m :: ms2) as Hin.
  { rewrite <- Hf. apply (IntervalSet.find_elem VMAR_LOWEST_ADDR); [done | done |]. split; [done |].
    unfold covers in Hp. split; cbn; lia. }
  rewrite (IntervalSet.find_exact VMAR_LOWEST_ADDR) in Hf by done.
  pose proof (IntervalSet.chain_filter VMAR_LOWEST_ADDR l (IntervalSet.meets a b) Hc) as Hc'. rewrite Hf in Hc'.
  unfold covers in Hp. split.
  - intros Hn1. pose proof (IntervalSet.chain_app_le _ ms1 (m :: ms2) n m Hc' Hn1 ltac:(by left)). cbn in *. lia.
  - intros Hlt. apply elem_of_app in Hin as [?|Hin]; [done | exfalso].
    apply elem_of_cons in Hin as [->|Hin]; [lia |].
    apply IntervalSet.chain_app in Hc' as [_ Hc']. destruct Hc' as (_ & _ & Hc').
    destruct (IntervalSet.chain_elem _ _ _ Hc' Hin) as [? _]. assert (m ∈ l) as Hm.
    { apply (list_elem_of_filter (IntervalSet.meets a b) l). rewrite Hf. set_solver. }
    pose proof (Hok m Hm) as [_ _ ? _ _ _ _]. cbn in *. unfold map_end in *. lia.
Qed.

(** [Vmar::protect] with plain permissions changes the range up to the first address
    where a [MAY_*] bit forbids one. *)
Lemma protect_ok v q a b : wf v → (PAGE_SIZE | a) → (PAGE_SIZE | b) → a < b →
  VmPerms.contains VmPerms.ALL_PERMS q = true →
  ∃ r v' c, protect q a b v = Done (r, v') ∧ wf v' ∧ a ≤ c ≤ b ∧
    (∀ p, view v' p = if decide (a ≤ p < c)
                      then (λ x, set_perms x (protected q (a_perms x))) <$> view v p else view v p) ∧
    (∀ k, item <$> pt v' !! k = item <$> pt v !! k) ∧
    (∀ p x, a ≤ p < c → view v p = Some x → VmPerms.check (protected q (a_perms x)) = true) ∧
    match r with
    | ROk _ => c = b
    | RErr e => e = EACCES ∧ c < b ∧
        ∃ x, view v c = Some x ∧ VmPerms.check (protected q (a_perms x)) = false
    end ∧
    ∀ k e', pt v' !! k = Some e' → ∃ e x, pt v !! k = Some e ∧ view v k = Some x ∧ item e' = item e ∧
      (e' = e ∨ a ≤ k < c ∧ entry_change q x e e').
Proof.
  intros Hwf Da Db Hab Hq. pose proof Hwf as [[Hmaps _] _]. pose proof Hmaps as [Hc Hok].
  destruct (find_todo (vm_mappings v) a b Hmaps Hab) as [Hnd Hin].
  destruct (protect_loop_ok a b q (IntervalSet.find a b (vm_mappings v)) v) as
    (ms1 & ms2 & r & v' & Hms & E & Hwf' & Hall & Hr & Hhas & Hit & Hpc); try done.
  { intros m n [Hm _]%Hin [Hn _]%Hin. by apply (IntervalSet.chain_disjoint VMAR_LOWEST_ADDR (vm_mappings v)). }
  { intros m [Hm Hmt]%Hin. split_and!; [done | by apply Hok | by left |]. intros p Hp. by exists m. }
  set (c := match ms2 with m :: _ => Z.max a (map_to_addr m) | [] => b end).
  assert (∀ n p, n ∈ vm_mappings v → covers n p → a ≤ p < b → (n ∈ ms1 ↔ p < c)) as Hcut.
  { intros n p Hn Hp Hpr. unfold c. destruct ms2 as [|m ms2]; [| by apply (find_cut (vm_mappings v) a b ms1 m ms2)].
    rewrite app_nil_r in Hms. rewrite <- Hms, Hin. unfold covers in Hp. split; [lia |]. intros _. split; [done |]. split; cbn; lia. }
  assert (a ≤ c ≤ b) as Hcb.
  { unfold c. destruct ms2 as [|m ms2]; [lia |]. destruct (proj1 (Hin m)) as [Hm [Hm1 Hm2]]; [rewrite Hms; set_solver |]. cbn in *. lia. }
  assert (∀ p x, has (vm_mappings v) p x → retag a b q ms1 p x =
    if decide (a ≤ p < c) then set_perms x (protected q (a_perms x)) else x) as Hre.
  { intros p x (n & Hn & Hp & <-). unfold retag. assert (a ≤ p < b → Exists (λ m, covers m p) ms1 ↔ p < c) as Hex.
    { intros Hpr. rewrite Exists_exists. rewrite <- (Hcut n p) by done. split; [| eauto]. intros (n' & Hn' & Hp').
      assert (n' ∈ vm_mappings v) as Hv by (apply Hin; rewrite Hms; set_solver).
      by rewrite (IntervalSet.chain_unique _ _ n n' p Hc Hn Hv Hp Hp'). }
    repeat case_decide; try done; exfalso; naive_solver lia. }
  exists r, v', c. split_and!; try done; try lia.
  - unfold protect. rewrite (bind_ok _ _ _ tt v) by (apply lift_ok, assert_done, Z.eqb_eq, Z.mod_divide; done).
    rewrite (bind_ok _ _ _ tt v) by (apply lift_ok, assert_done, Z.eqb_eq, Z.mod_divide; done).
    by rewrite (bind_ok _ _ _ v v).
  - intros p. apply option_eq. intros y. rewrite view_has, Hhas by apply Hwf'.
    assert (∀ x, has (vm_mappings v) p x ↔ view v p = Some x) as Hvh by (intros x; by rewrite view_has).
    case_decide as Hd; [rewrite fmap_Some |]; setoid_rewrite <- Hvh; split.
    + intros (x & Hx & ->). exists x. rewrite Hre by done. by rewrite decide_True.
    + intros (x & Hx & ->). exists x. rewrite Hre by done. by rewrite decide_True.
    + intros (x & Hx & ->). rewrite Hre by done. by rewrite decide_False.
    + intros Hx. exists y. rewrite Hre by done. by rewrite decide_False.
  - intros p x Hpx Hx. apply view_has in Hx as (n & Hn & Hp & <-); [| done]. apply (Hall n), (Hcut n p); [done | done | lia | lia].
  - destruct r as [|e].
    + unfold c. by rewrite Hr.
    + destruct Hr as (-> & m & ms3 & -> & Hna). destruct (proj1 (Hin m)) as [Hm [Hm1 Hm2]]; [rewrite Hms; set_solver |].
      cbn in Hm1, Hm2, c. split; [done |]. split; [lia |]. exists (attr m c). split.
      * apply view_has; [done |]. exists m. split; [done |]. split; [| done]. unfold covers, c.
        pose proof (Hok m Hm) as [_ _ ? _ _ _ _]. unfold map_end in *. lia.
      * unfold allowed in Hna. cbn. by apply not_true_is_false.
  - intros k e' He'. destruct (Hpc k e' He') as (e & He & Hi & Hch).
    pose proof (wf_pages v Hwf k e He) as (_ & m & Hm & Hk & _). exists e, (attr m k). split; [done |].
    split; [apply view_has; [done |]; by exists m |]. split; [done |].
    destruct Hch as [|(Hr' & n & Hn & Hkn & Hch)]; [by left | right].
    assert (n ∈ vm_mappings v) as Hnv by (apply Hin; rewrite Hms; set_solver).
    split; [split; [lia |]; by apply (Hcut n k) |]. by rewrite (IntervalSet.chain_unique _ _ m n k Hc Hm Hnv Hk Hkn).
Qed.

(** ** Free regions *)

Lemma cap_width x : 0 ≤ x ≤ VMAR_CAP_ADDR → in_width USIZE_BITS x.
Proof. unfold VMAR_CAP_ADDR, PAGE_SIZE, in_width, USIZE_BITS. lia. Qed.

(** Aligning an address of user space up does not overflow. *)
Lemma align_up_user x align : Align.valid_align USIZE_BITS align → 0 ≤ x ≤ VMAR_CAP_ADDR →
  ∃ y, Align.align_up USIZE_BITS x align = Done y ∧ (align | y) ∧ x ≤ y ∧
    ∀ m, (align | m) → x ≤ m → y ≤ m.
Proof.
  intros Hv Hx. rewrite Align.align_up_eq by (done || by apply cap_width).
  destruct (Align.valid_align_width _ _ Hv) as (k & Hk & ->). pose proof (pow2_pos k ltac:(lia)).
  destruct (Align.round_up_least x (2 ^ k)) as (H1 & H2 & H3); [done |].
  rewrite (proj2 (Z.ltb_lt _ _)); [eauto |]. destruct Hv as [[_ Hv] _].
  apply (Z.le_lt_trans _ (2 ^ 63)); [| unfold USIZE_BITS; lia].
  apply H3; [| unfold VMAR_CAP_ADDR, PAGE_SIZE in Hx; lia].
  assert (k ≤ 63) by (destruct (Z.le_gt_cases k 63); [done |]; pose proof (pow2_le 64 k ltac:(lia)); unfold USIZE_BITS in Hv; lia).
  exists (2 ^ (63 - k)). rewrite <- Z.pow_add_r by lia. f_equal. lia.
Qed.

Definition free_at (l : list VmMapping) (r size : Z) : Prop :=
  ∀ m, m ∈ l → ¬ IntervalSet.meets r (r + size) m.

Lemma first_fit_ok size align lo l v : Align.valid_align USIZE_BITS align → 0 < size →
  IntervalSet.chain lo l → 0 ≤ lo ≤ VMAR_CAP_ADDR → (∀ m, m ∈ l → mapping_ok m) →
  (∃ r, first_fit size align lo l v = Done (ROk r, v) ∧ (align | r) ∧ lo ≤ r ∧
     r + size ≤ VMAR_CAP_ADDR ∧ free_at l r size) ∨
  (first_fit size align lo l v = Done (RErr ENOMEM, v) ∧
   ∀ r, (align | r) → lo ≤ r → r + size ≤ VMAR_CAP_ADDR → free_at l r size →
     ∀ m, m ∈ l → map_end m ≤ r).
Proof.
  intros Hv Hs. revert lo. induction l as [|m l IH]; intros lo Hc Hlo Hok.
  { right. split; [done |]. by intros ? ? ? ? ? ? ?%not_elem_of_nil. }
  destruct Hc as (H1 & H2 & H3). cbn in H1, H2. pose proof (Hok m ltac:(by left)) as [_ _ _ _ Hcap _ _].
  destruct (align_up_user lo align) as (y & Ey & Dy & Hy & Hmin); [done | done |].
  cbn [first_fit]. rewrite (bind_ok _ _ _ y v) by (by apply lift_ok). unfold checked_add.
  assert (∀ r, (align | r) → lo ≤ r → r + size ≤ VMAR_CAP_ADDR → free_at (m :: l) r size →
    y + size ≤ map_to_addr m ∨ map_end m ≤ r) as Hfirst.
  { intros r Dr Hr Hrc Hf. specialize (Hf m ltac:(by left)). specialize (Hmin r Dr Hr).
    unfold IntervalSet.meets in Hf. cbn in Hf. lia. }
  destruct (Z.ltb_spec (y + size) (2 ^ USIZE_BITS)) as [Hw|Hw].
  - destruct (Z.leb_spec (y + size) (map_to_addr m)) as [Hfit|Hfit].
    + left. exists y. split_and!; [done | done | done | lia |]. intros n Hn [Hn1 Hn2]. cbn in Hn1, Hn2.
      apply elem_of_cons in Hn as [->|Hn]; [lia |]. destruct (IntervalSet.chain_elem _ _ _ H3 Hn). cbn in *. lia.
    + destruct (IH (map_end m)) as [(r & Er & Dr & Hr & Hrc & Hf)|[Er Hno]]; [done | lia | by intros n Hn; apply Hok; right | |].
      * left. exists r. split_and!; [done | done | lia | done |]. intros n [->|Hn]%elem_of_cons; [| by apply Hf].
        intros [? ?]. cbn in *. lia.
      * right. split; [done |]. intros r Dr Hr Hrc Hf. destruct (Hfirst r) as [|Hm]; try done; [lia |].
        intros n [->|Hn]%elem_of_cons; [done |]. apply (Hno r); try done. intros k Hk. apply Hf. by right.
  - right. split; [done |]. intros r Dr Hr Hrc Hf. specialize (Hmin r Dr Hr).
    unfold VMAR_CAP_ADDR, PAGE_SIZE, USIZE_BITS in *. lia.
Qed.

(** The end of the last mapping bounds all of them. *)
Lemma highest_bound l : maps_ok l →
  let h := match last l with Some m => map_end m | None => VMAR_LOWEST_ADDR end in
  VMAR_LOWEST_ADDR ≤ h ≤ VMAR_CAP_ADDR ∧ ∀ m, m ∈ l → map_end m ≤ h.
Proof.
  intros [Hc Hok] h. unfold h. destruct (last l) as [m|] eqn:Hl.
  - pose proof Hl as [l' ->]%last_Some. pose proof (Hok m ltac:(set_solver)) as [_ _ ? _ ? _ _].
    destruct (IntervalSet.chain_elem _ _ m Hc) as [? _]; [set_solver |]. cbn in *. unfold map_end in *.
    split; [lia |]. intros n [Hn|Hn]%elem_of_app; [| apply list_elem_of_singleton in Hn as ->; lia].
    pose proof (IntervalSet.chain_app_le _ l' [m] n m Hc Hn ltac:(by left)). cbn in *. unfold map_end in *. lia.
  - apply last_None in Hl as ->. unfold VMAR_LOWEST_ADDR, VMAR_CAP_ADDR, PAGE_SIZE.
    split; [lia |]. by intros ? ?%not_elem_of_nil.
Qed.

Lemma alloc_free_region_ok v size align :
  maps_ok (vm_mappings v) → 0 < size → Align.valid_align USIZE_BITS align →
  (∃ r, alloc_free_region size align v = Done (ROk r, v) ∧ (align | r) ∧
     VMAR_LOWEST_ADDR ≤ r ∧ r + size ≤ VMAR_CAP_ADDR ∧ free_at (vm_mappings v) r size) ∨
  (alloc_free_region size align v = Done (RErr ENOMEM, v) ∧
   ∀ r, (align | r) → VMAR_LOWEST_ADDR ≤ r → r + size ≤ VMAR_CAP_ADDR →
     ¬ free_at (vm_mappings v) r size).
Proof.
  intros Hmaps Hs Hv. destruct (highest_bound _ Hmaps) as [Hh Hall]. pose proof Hmaps as [Hc Hok].
  set (h := match last (vm_mappings v) with Some m => map_end m | None => VMAR_LOWEST_ADDR end) in *.
  assert (0 ≤ VMAR_LOWEST_ADDR ≤ VMAR_CAP_ADDR) as Hlc by (unfold VMAR_LOWEST_ADDR, VMAR_CAP_ADDR, PAGE_SIZE; lia).
  destruct (align_up_user h align) as (y & Ey & Dy & Hy & Hmin); [done | lia |].
  unfold alloc_free_region. rewrite (bind_ok _ _ _ v v) by done. fold h.
  rewrite (bind_ok _ _ _ y v) by (by apply lift_ok).
  destruct (decide (y + size ≤ VMAR_CAP_ADDR)) as [Hfit|Hno].
  - left. exists y. split_and!; [| done | lia | done |].
    + unfold checked_add. rewrite (proj2 (Z.ltb_lt _ _)); [| unfold VMAR_CAP_ADDR, PAGE_SIZE, USIZE_BITS in *; lia].
      by rewrite (proj2 (Z.leb_le _ _)).
    + intros m Hm [? ?]. specialize (Hall m Hm). cbn in *. lia.
  - assert (match checked_add USIZE_BITS y size with
            | Some e => if e <=? VMAR_CAP_ADDR then mret y else first_fit size align VMAR_LOWEST_ADDR (vm_mappings v)
            | None => first_fit size align VMAR_LOWEST_ADDR (vm_mappings v)
            end = first_fit size align VMAR_LOWEST_ADDR (vm_mappings v)) as ->.
    { unfold checked_add. destruct (_ <? 2 ^ USIZE_BITS); [| done]. by rewrite (proj2 (Z.leb_gt _ _)) by lia. }
    destruct (first_fit_ok size align VMAR_LOWEST_ADDR (vm_mappings v) v) as [(r & ?)|[E Hnone]]; try done; [left; eauto |].
    right. split; [done |]. intros r Dr Hr Hrc Hf. specialize (Hnone r Dr Hr Hrc Hf).
    assert (h ≤ r). { unfold h. destruct (last (vm_mappings v)) as [m|] eqn:Hl; [| done]. apply Hnone.
      apply last_Some in Hl as [l' ->]. set_solver. }
    specialize (Hmin r Dr ltac:(done)). lia.
Qed.

(** [VmarInner::alloc_free_region] finds a free region: the region it returns is
    aligned, in user space and meets no mapping, and it fails, with [ENOMEM], only
    when no such region exists. It never panics and changes nothing. *)
Theorem alloc_free_region_complete v size align :
  maps_ok (vm_mappings v) → 0 < size → Align.valid_align USIZE_BITS align →
  (∃ r, alloc_free_region size align v = Done (ROk r, v) ∧ (align | r) ∧
     VMAR_LOWEST_ADDR ≤ r ∧ r + size ≤ VMAR_CAP_ADDR ∧ free_at (vm_mappings v) r size) ∨
  (alloc_free_region size align v = Done (RErr ENOMEM, v) ∧
   ∀ r, (align | r) → VMAR_LOWEST_ADDR ≤ r → r + size ≤ VMAR_CAP_ADDR →
     ¬ free_at (vm_mappings v) r size).
Proof. apply alloc_free_region_ok. Qed.

Lemma alloc_free_region_complete_witness : ∃ r, alloc_free_region 0x3000 0x2000 sample = Done (ROk r, sample) ∧
  (0x2000 | r) ∧ free_at (vm_mappings sample) r 0x3000.
Proof.
  destruct (alloc_free_region_complete sample 0x3000 0x2000) as [(r & E & Hd & _ & _ & Hf)|[E _]].
  - apply sample_wf.
  - done.
  - split; [done |]. by exists 13.
  - by exists r.
  - by vm_compute in E.
Defined.
End VmarOps.
