(* ===== verification/VmarBuild.v ===== *)
(** * New mappings

    What [VmarMapOptions::build] does: where the mapping is placed, what the
    address space says afterwards, and what remains when it fails. *)

From stdpp Require Import gmap.
From S2P Require Import Prelude Align IntervalSet VmMapping Vmar VmarMaps VmarOps.
Local Open Scope Z_scope.

Module VmarBuild.
Import Vmar VmarMaps VmarOps.

(** The numbers of the options are in range, and an aligned fixed place is in user
    space. *)
Record opts_ok (o : VmarMapOptions) : Prop := {
  oo_size : 0 < o_size o;
  oo_vmo_offset : 0 ≤ o_vmo_offset o;
  oo_end : o_vmo_offset o + o_size o < 2 ^ USIZE_BITS;
  oo_align : in_width USIZE_BITS (o_align o);
  oo_place : match o_offset o with
             | Some offset => (o_align o | offset) →
                 VMAR_LOWEST_ADDR ≤ offset ∧ offset + o_size o ≤ VMAR_CAP_ADDR
             | None => True
             end
}.

(** The memory that the options ask for. *)
Definition mem_matches (o : VmarMapOptions) (mem : MappedMemory) : Prop :=
  match o_mappable o, mem with
  | Some (Inode _ vmo _), Vmo vmo' offset _ => vmo' = vmo ∧ offset = o_vmo_offset o
  | Some (IoMem _ _), Device => True
  | None, Vmo vmo offset _ => o_vmo o = Some vmo ∧ offset = o_vmo_offset o
  | None, Anonymous => o_vmo o = None
  | _, _ => False
  end.

(** The mapping is the one that the options describe. *)
Record built (o : VmarMapOptions) (addr : Z) (m : VmMapping) : Prop := {
  b_addr : map_to_addr m = addr;
  b_size : map_size m = o_size o;
  b_mem : mem_matches o (mapped_mem m);
  b_shared : is_shared m = o_is_shared o;
  b_perms : Z.land (perms m) VmPerms.ALL_PERMS = o_perms o;
  b_may : VmPerms.contains (o_may_perms o) (Z.land (perms m) VmPerms.ALL_MAY_PERMS) = true
}.

(** ** The limit *)

Lemma overlap_bound a b lo l : IntervalSet.chain lo l → (∀ m, m ∈ l → IntervalSet.meets a b m) →
  a ≤ b → 0 ≤ overlap_sum a b l ≤ b - Z.min b (Z.max a lo).
Proof.
  revert lo. induction l as [|m l IH]; intros lo Hc Hm Hab; cbn; [lia |].
  destruct Hc as (H1 & H2 & H3). destruct (Hm m ltac:(by left)) as [M1 M2]. cbn in *.
  destruct (IH (map_end m)); [done | by intros n Hn; apply Hm; right | done |]. lia.
Qed.

(** The check passes only if the mapping fits under the limit, and fails otherwise. *)
Lemma check_extra_ok rlimit expand v :
  (check_extra_size_fits_rlimit rlimit expand v = Done (ROk tt, v) ∧
   ∀ lim, rlimit = Some lim → total_vm v + expand ≤ lim) ∨
  check_extra_size_fits_rlimit rlimit expand v = Done (RErr ENOMEM, v).
Proof.
  destruct rlimit as [lim|]; cbn [check_extra_size_fits_rlimit]; [| by left].
  rewrite (bind_ok _ _ _ v v) by done. unfold checked_add.
  destruct (_ <? 2 ^ USIZE_BITS); [| by right]. destruct (Z.leb_spec (total_vm v + expand) lim); [left | by right].
  split; [done |]. by intros ? [= <-].
Qed.

Lemma count_overlap_bound v a b : maps_ok (vm_mappings v) → a < b →
  0 ≤ count_overlap_size a b v ≤ b - a.
Proof.
  intros Hmaps Hab. pose proof Hmaps as [Hc _]. destruct (find_todo (vm_mappings v) a b Hmaps Hab) as [_ Hin].
  unfold count_overlap_size. pose proof (overlap_bound a b VMAR_LOWEST_ADDR (IntervalSet.find a b (vm_mappings v))) as Hb.
  assert (IntervalSet.chain VMAR_LOWEST_ADDR (IntervalSet.find a b (vm_mappings v))) as Hch.
  { rewrite (IntervalSet.find_exact VMAR_LOWEST_ADDR) by done. by apply IntervalSet.chain_filter. }
  specialize (Hb Hch ltac:(intros m Hm; by apply Hin) ltac:(lia)). lia.
Qed.

Lemma check_limit_ok rlimit o v : maps_ok (vm_mappings v) → opts_ok o →
  (∀ offset, o_offset o = Some offset → (o_align o | offset)) →
  (check_limit rlimit o v = Done (ROk tt, v) ∧
   ∀ lim, rlimit = Some lim → total_vm v + o_size o ≤ lim ∨
     ∃ offset, o_can_overwrite o = true ∧ o_offset o = Some offset ∧
       total_vm v - count_overlap_size offset (offset + o_size o) v + o_size o ≤ lim) ∨
  ∃ e, check_limit rlimit o v = Done (RErr e, v).
Proof.
  intros Hmaps [O1 O2 O3 O4 O5] Hal. unfold check_limit.
  destruct (check_extra_ok rlimit (o_size o) v) as [[-> Hl]| ->]; [left; split; [done |]; eauto |].
  destruct (o_can_overwrite o); [| eauto]. destruct (o_offset o) as [offset|]; [| eauto].
  destruct (count_overlap_bound v offset (offset + o_size o)) as [B1 B2]; [done | lia |].
  specialize (O5 (Hal offset eq_refl)).
  rewrite (bind_ok _ _ _ (offset + o_size o) v).
  2: { apply add_ok. unfold VMAR_CAP_ADDR, PAGE_SIZE, USIZE_BITS in *. lia. }
  rewrite (bind_ok _ _ _ (o_size o - count_overlap_size offset (offset + o_size o) v) v) by (apply sub_ok; lia).
  destruct (check_extra_ok rlimit (o_size o - count_overlap_size offset (offset + o_size o) v) v) as [[-> Hl]| ->]; [| eauto].
  left. split; [done |]. intros lim Hlim. right. exists offset. specialize (Hl lim Hlim). split_and!; [done | done | lia].
Qed.

(** ** Options *)

Lemma options_table : forallb (λ q, forallb (λ j, let w := j * 8 in
    let p := Z.lor q w in let w' := Z.ldiff w VmPerms.MAY_WRITE in let p' := Z.lor q w' in
    (p <? 64) && (0 <=? p) && (Z.land p VmPerms.ALL_PERMS =? q)
    && VmPerms.contains w (Z.land p VmPerms.ALL_MAY_PERMS)
    && (p' <? 64) && (0 <=? p') && (Z.land p' VmPerms.ALL_PERMS =? q)
    && VmPerms.contains w (Z.land p' VmPerms.ALL_MAY_PERMS)
    && (VmPerms.contains q VmPerms.WRITE || implb (VmPerms.check p) (VmPerms.check p')))
    (seqZ 0 8)) (seqZ 0 8) = true.
Proof. by vm_compute. Qed.

(** The permissions of a mapping with the may-permissions [w]. *)
Definition perms_fit (q w0 w : Z) : Prop :=
  0 ≤ Z.lor q w < 64 ∧ VmPerms.check (Z.lor q w) = true ∧
  Z.land (Z.lor q w) VmPerms.ALL_PERMS = q ∧
  VmPerms.contains w0 (Z.land (Z.lor q w) VmPerms.ALL_MAY_PERMS) = true.

Lemma may_perms_shape w : VmPerms.contains VmPerms.ALL_MAY_PERMS w = true → ∃ j, 0 ≤ j < 8 ∧ w = j * 8.
Proof.
  unfold VmPerms.contains. intros Hw%Z.eqb_eq. exists (Z.shiftr w 3).
  assert (w = Z.shiftl (Z.shiftr w 3) 3 ∧ 0 ≤ Z.shiftr w 3 < 8) as [Hs Hb].
  { rewrite <- Hw. change VmPerms.ALL_MAY_PERMS with (Z.shiftl (Z.ones 3) 3).
    rewrite Z.shiftr_land, Z.shiftr_shiftl_l by lia. cbn [Z.sub Z.shiftl]. change (3 - 3) with 0. rewrite Z.shiftl_0_r. split.
    - rewrite Z.shiftl_land. apply Z.bits_inj'. intros n Hn. rewrite !Z.land_spec.
      destruct (Z.lt_ge_cases n 3); [rewrite !Z.shiftl_spec_low by lia; done |].
      rewrite !Z.shiftl_spec by lia. rewrite Z.shiftr_spec by lia. f_equal. f_equal. lia.
    - rewrite Z.land_comm, Z.land_ones by lia. apply Z.mod_pos_bound. lia. }
  split; [done |]. rewrite Hs at 1. rewrite Z.shiftl_mul_pow2 by lia. done.
Qed.

Lemma perms_fit_ok q w : VmPerms.contains VmPerms.ALL_PERMS q = true →
  VmPerms.contains VmPerms.ALL_MAY_PERMS w = true → VmPerms.check (Z.lor q w) = true →
  perms_fit q w w ∧ (VmPerms.contains q VmPerms.WRITE = false → perms_fit q w (Z.ldiff w VmPerms.MAY_WRITE)).
Proof.
  intros Hq%plain_perms (j & Hj & ->)%may_perms_shape Hc. pose proof options_table as T.
  rewrite forallb_forall in T. specialize (T q). rewrite <- list_elem_of_In, elem_of_seqZ in T. specialize (T ltac:(lia)).
  rewrite forallb_forall in T. specialize (T j). rewrite <- list_elem_of_In, elem_of_seqZ in T. specialize (T ltac:(lia)).
  cbv zeta in T. rewrite !andb_true_iff, !Z.eqb_eq, !Z.leb_le, !Z.ltb_lt in T.
  destruct T as ((((((((T1 & T2) & T3) & T4) & T5) & T6) & T7) & T8) & T9).
  split; [split_and!; try done; lia |]. intros Hw. rewrite Hw, Hc in T9. split_and!; try done; lia.
Qed.

Lemma ensure_cases b e v :
  (b = true ∧ ensure b e v = Done (ROk tt, v)) ∨ ensure b e v = Done (RErr e, v).
Proof. destruct b; [left | right]; done. Qed.

(** The next check of a sequence: it fails, or its condition holds. *)
Ltac next_check H :=
  match goal with
  | |- context [(ensure ?b ?e ≫= ?f) ?v] =>
      destruct (ensure_cases b e v) as [[H ?E]|?E];
      [rewrite (bind_ok _ _ _ _ _ E); clear E | right; rewrite (bind_err _ _ _ _ _ E); by eauto]
  end.

(** What the options satisfy when they are accepted. *)
Record accepted (o : VmarMapOptions) : Prop := {
  ac_align : Align.valid_align USIZE_BITS (o_align o);
  ac_page : (PAGE_SIZE | o_align o);
  ac_size : (o_align o | o_size o);
  ac_vmo : (o_align o | o_vmo_offset o);
  ac_offset : ∀ offset, o_offset o = Some offset → (o_align o | offset);
  ac_may : VmPerms.contains VmPerms.ALL_MAY_PERMS (o_may_perms o) = true;
  ac_perms : VmPerms.contains VmPerms.ALL_PERMS (o_perms o) = true;
  ac_check : VmPerms.check (Z.lor (o_perms o) (o_may_perms o)) = true
}.

Lemma check_options_ok o v : opts_ok o →
  (accepted o ∧ check_options o v = Done (ROk tt, v)) ∨ ∃ e, check_options o v = Done (RErr e, v).
Proof.
  intros [O1 O2 O3 O4 O5]. unfold check_options.
  next_check H1. apply andb_true_iff in H1 as [Hp%Z.eqb_eq H2%is_power_of_two_spec].
  next_check Hs. next_check Hv. next_check Ho. unfold check_perms.
  next_check Hq. apply andb_true_iff in Hq as [Hq1 Hq2].
  destruct (ensure_cases (VmPerms.check (Z.lor (o_perms o) (o_may_perms o))) EACCES v) as [[Hc ->]| ->]; [| eauto].
  left. split; [| done].
  assert (0 < o_align o) as Hpos by (destruct H2 as (k & Hk & ->); by apply pow2_pos).
  apply Z.eqb_eq in Hs, Hv. split; try done; try (apply Z.mod_divide; done || lia).
  - split; [done |]. destruct H2 as (k & Hk & Hal). exists k. split; [| done].
    destruct (Z.eq_dec k 0) as [->|]; [| lia]. rewrite Hal in Hp. by vm_compute in Hp.
  - intros offset Hoff. rewrite Hoff in Ho. apply Z.eqb_eq in Ho. apply Z.mod_divide; [lia | done].
Qed.

Lemma prepare_ok o v : accepted o →
  (∃ mem ino io may, prepare_memory o v = Done (ROk (mem, ino, io, may), v) ∧
     mem_matches o mem ∧ perms_fit (o_perms o) (o_may_perms o) may ∧
     (match mem with Vmo _ offset _ => offset = o_vmo_offset o | _ => True end) ∧
     io = match o_mappable o with Some (IoMem paddr size) => Some (paddr, size) | _ => None end) ∨
  prepare_memory o v = Done (RErr EPERM, v).
Proof.
  intros [_ _ _ _ _ A1 A2 A3]. destruct (perms_fit_ok _ _ A2 A1 A3) as [F1 F2].
  unfold prepare_memory, mem_matches. destruct (o_mappable o) as [[ino vmo memfd|paddr size]|].
  - destruct memfd as [f|]; [| left; by eexists _, _, _, _].
    destruct (o_is_shared o && _); [| left; by eexists _, _, _, _].
    unfold check_writable. destruct (sealed f).
    + destruct (VmPerms.contains (o_perms o) VmPerms.WRITE) eqn:Hw; [by right |].
      next_check Hs. left. eexists _, _, _, _. split_and!; try done. by apply F2.
    + next_check Hs. left. by eexists _, _, _, _.
  - left. by eexists _, _, _, _.
  - destruct (o_vmo o) as [vmo|]; left; by eexists _, _, _, _.
Qed.

(** ** The place of the mapping *)

Lemma free_disjoint l r size m : maps_ok l → free_at l r size → map_to_addr m = r → map_size m = size →
  ∀ n, n ∈ l → IntervalSet.disjoint n m.
Proof.
  intros _ Hf <- <- n Hn. specialize (Hf n Hn). unfold IntervalSet.meets, IntervalSet.disjoint in *.
  cbn in *. unfold map_end in *. lia.
Qed.

Lemma free_view v r size : maps_ok (vm_mappings v) → 0 < size →
  free_at (vm_mappings v) r size ↔ ∀ p, r ≤ p < r + size → view v p = None.
Proof.
  intros Hmaps Hs. split.
  - intros Hf p Hp. apply view_none; [done |]. intros m Hm Hc. apply (Hf m Hm). unfold covers in Hc.
    split; cbn; lia.
  - intros Hv m Hm [H1 H2]. cbn in H1, H2. destruct Hmaps as [Hc Hok]. pose proof (Hok m Hm) as [_ _ ? _ _ _ _].
    specialize (Hv (Z.max r (map_to_addr m))). rewrite view_none in Hv by done.
    apply (Hv ltac:(lia) m Hm). unfold covers, map_end in *. lia.
Qed.

Lemma exact_free_ok v offset size : maps_ok (vm_mappings v) → 0 < size →
  0 ≤ offset → offset + size ≤ VMAR_CAP_ADDR →
  (alloc_free_region_exact offset size v = Done (ROk offset, v) ∧ free_at (vm_mappings v) offset size) ∨
  (alloc_free_region_exact offset size v = Done (RErr EACCES, v) ∧ ¬ free_at (vm_mappings v) offset size).
Proof.
  intros Hmaps Hs Ho Hcap. unfold alloc_free_region_exact.
  rewrite (bind_ok _ _ _ (offset + size) v).
  2: { apply add_ok. unfold VMAR_CAP_ADDR, PAGE_SIZE, USIZE_BITS in *. lia. }
  rewrite (bind_ok _ _ _ v v) by done.
  destruct (find_todo (vm_mappings v) offset (offset + size)) as [_ Hin]; [done | lia |].
  destruct (IntervalSet.find offset (offset + size) (vm_mappings v)) as [|m ms].
  - left. split; [done |]. intros m Hm Hmt. by apply (not_elem_of_nil m), Hin.
  - right. split; [done |]. intros Hf. destruct (proj1 (Hin m)) as [Hm Hmt]; [by left |]. by apply (Hf m Hm).
Qed.

(** The region for the mapping is free once the address is chosen; only an
    overwriting mapping changes the address space for it. *)
Record chosen (o : VmarMapOptions) (v : Vmar) (addr : Z) (v1 : Vmar) : Prop := {
  ch_wf : wf v1;
  ch_align : (o_align o | addr);
  ch_low : VMAR_LOWEST_ADDR ≤ addr;
  ch_high : addr + o_size o ≤ VMAR_CAP_ADDR;
  ch_free : free_at (vm_mappings v1) addr (o_size o);
  ch_view : ∀ p, view v1 p = if decide (addr ≤ p < addr + o_size o) then None else view v p;
  ch_pt : ∀ k, pt v1 !! k = if decide (addr ≤ k < addr + o_size o) then None else pt v !! k;
  ch_fixed : ∀ offset, o_offset o = Some offset → addr = offset;
  ch_same : o_can_overwrite o = false → v1 = v;
  ch_total : total_vm v1 ≤ total_vm v;
  ch_overwrite : ∀ offset, o_can_overwrite o = true → o_offset o = Some offset →
    total_vm v1 = total_vm v - count_overlap_size offset (offset + o_size o) v
}.

(** A free region has no pages. *)
Lemma free_pages v r size : wf v → free_at (vm_mappings v) r size →
  ∀ k, r ≤ k < r + size → pt v !! k = None.
Proof.
  intros [_ Hpg] Hf k Hk. destruct (pt v !! k) as [e|] eqn:He; [| done].
  apply Hpg in He as (_ & m & Hm & Hc & _). destruct (Hf m Hm). unfold covers in Hc. split; cbn; lia.
Qed.

(** Nothing changes for a region that was free. *)
Lemma chosen_free o v addr : wf v → opts_ok o → o_can_overwrite o = false →
  (o_align o | addr) → VMAR_LOWEST_ADDR ≤ addr → addr + o_size o ≤ VMAR_CAP_ADDR →
  free_at (vm_mappings v) addr (o_size o) → (∀ offset, o_offset o = Some offset → addr = offset) →
  chosen o v addr v.
Proof.
  intros Hwf [O1 _ _ _ _] Hov Hal Hlo Hhi Hf Hfix. split; try done.
  - intros p. case_decide; [| done]. apply (free_view v addr (o_size o)); try done. apply Hwf.
  - intros k. case_decide; [| done]. by apply (free_pages v addr (o_size o)).
  - by rewrite Hov.
Qed.

Lemma choose_ok o v : wf v → opts_ok o → accepted o →
  (∃ addr v1, choose_address o v = Done (ROk addr, v1) ∧ chosen o v addr v1) ∨
  ∃ e, choose_address o v = Done (RErr e, v).
Proof.
  intros Hwf Hoo [A1 A2 A3 A4 A5 _ _ _]. pose proof Hoo as [O1 O2 O3 O4 O5].
  assert (maps_ok (vm_mappings v)) as Hmaps by apply Hwf.
  assert (0 ≤ VMAR_LOWEST_ADDR) as Hlo by (unfold VMAR_LOWEST_ADDR; lia).
  unfold choose_address. destruct (o_can_overwrite o) eqn:Hov.
  - destruct (o_offset o) as [offset|] eqn:Ho; [| eauto].
    specialize (O5 (A5 offset eq_refl)).
    destruct (truncate_ok v offset (o_size o)) as (v1 & E & Hwf1 & Hv1 & Hp1 & Ht1); try done.
    { by apply (Z.divide_trans _ (o_align o)), A5. }
    { by apply (Z.divide_trans _ (o_align o)). }
    { unfold VMAR_CAP_ADDR, PAGE_SIZE, USIZE_BITS in *. lia. }
    left. exists offset, v1. split; [done |]. destruct (count_overlap_bound v offset (offset + o_size o)); [done | lia |].
    split; try done; try lia.
    + by apply A5.
    + apply free_view; [apply Hwf1 | done |]. intros p Hp. rewrite Hv1. by rewrite decide_True.
    + intros off Hoff. congruence.
    + by rewrite Hov.
    + intros off _ Hoff. rewrite Ho in Hoff. injection Hoff as <-. done.
  - destruct (o_offset o) as [offset|] eqn:Ho.
    + specialize (O5 (A5 offset eq_refl)). destruct (exact_free_ok v offset (o_size o)) as [[E Hf]|[E _]]; try done; [lia | lia | | eauto].
      left. exists offset, v. split; [done |]. apply chosen_free; try done; [by apply A5 | lia | lia |].
      intros off Hoff. congruence.
    + destruct (alloc_free_region_ok v (o_size o) (o_align o)) as [(r & E & H1 & H2 & H3 & H4)|[E _]]; try done; [| eauto].
      left. exists r, v. split; [done |]. apply chosen_free; try done. by rewrite Ho.
Qed.

(** ** Device pages *)

#[local] Instance divide_dec (a b : Z) : Decision (a | b).
Proof.
  destruct (decide (b mod a = 0)) as [H|H]; [left | right]; (destruct (Z.eq_dec a 0) as [->|Ha]).
  - rewrite Z.mod_0_r in H. by rewrite H.
  - by apply Z.mod_divide.
  - intros [z Hz]. rewrite Z.mod_0_r in H. lia.
  - intros Hd. by apply H, Z.mod_divide.
Defined.

Lemma map_io_pages_lookup n va pa f p k : map_io_pages n va pa f p !! k =
  if decide (va ≤ k < va + Z.of_nat n * PAGE_SIZE ∧ (PAGE_SIZE | k - va))
  then Some (mkPte (Io (pa + (k - va))) f) else p !! k.
Proof.
  revert va pa p. induction n as [|n IH]; intros va pa p; cbn [map_io_pages].
  { rewrite decide_False; [done | lia]. }
  rewrite IH. destruct (decide (k = va)) as [->|Hne].
  - rewrite decide_False by (unfold PAGE_SIZE; lia). rewrite lookup_insert, decide_True by done.
    rewrite decide_True; [by replace (pa + (va - va)) with pa by lia |]. split; [unfold PAGE_SIZE; lia |]. exists 0. lia.
  - rewrite lookup_insert_ne by done.
    assert (va + PAGE_SIZE ≤ k < va + PAGE_SIZE + Z.of_nat n * PAGE_SIZE ∧ (PAGE_SIZE | k - (va + PAGE_SIZE)) ↔
      va ≤ k < va + Z.of_nat (S n) * PAGE_SIZE ∧ (PAGE_SIZE | k - va)) as Hiff.
    { split; intros [Hr [z Hz]]; unfold PAGE_SIZE in *; (split; [lia |]); [exists (z + 1) | exists (z - 1)]; lia. }
    repeat case_decide; try tauto.
    by replace (pa + PAGE_SIZE + (k - (va + PAGE_SIZE))) with (pa + (k - va)) by lia.
Qed.

(** The pages of I/O memory that the new mapping shows. *)
Definition device_page (o : VmarMapOptions) (flags_ addr k : Z) : option Pte :=
  match o_mappable o with
  | Some (IoMem paddr size) =>
      if decide ((PAGE_SIZE | k) ∧ o_vmo_offset o + (k - addr) < size)
      then Some (mkPte (Io (paddr + o_vmo_offset o + (k - addr))) flags_) else None
  | _ => None
  end.

Lemma populate_lookup m paddr size offset p k : mapping_ok m → 0 ≤ offset →
  populate_device m paddr size offset p !! k =
  if decide (covers m k ∧ (PAGE_SIZE | k) ∧ offset + (k - map_to_addr m) < size)
  then Some (mkPte (Io (paddr + offset + (k - map_to_addr m))) (flags_of_perms (perms m))) else p !! k.
Proof.
  intros [M1 M2 M3 _ _ _ _] Ho. unfold populate_device, covers, map_end.
  destruct (Z.leb_spec size offset) as [Hle|Hlt]; [rewrite decide_False; [done | lia] |].
  rewrite map_io_pages_lookup.
  set (x := Z.min (map_size m) (size - offset)). assert (0 < x) as Hx by lia.
  rewrite Z2Nat.id by (apply Z.div_pos; unfold PAGE_SIZE; lia).
  assert (map_to_addr m ≤ k < map_to_addr m + (x + (PAGE_SIZE - 1)) / PAGE_SIZE * PAGE_SIZE ∧ (PAGE_SIZE | k - map_to_addr m) ↔
    map_to_addr m ≤ k < map_to_addr m + map_size m ∧ (PAGE_SIZE | k) ∧ offset + (k - map_to_addr m) < size) as Hiff.
  { destruct M1 as [a Ha], M2 as [b Hb]. unfold PAGE_SIZE in *.
    pose proof (Z.div_mod (x + (4096 - 1)) 4096 ltac:(lia)). pose proof (Z.mod_pos_bound (x + (4096 - 1)) 4096 ltac:(lia)).
    split.
    - intros [Hr [z Hz]]. split; [| split; [exists (z + a); lia |]]; lia.
    - intros (Hr & [z Hz] & Hs). split; [lia | exists (z - a); lia]. }
  repeat case_decide; try tauto.
Qed.

(** ** Building *)

(** The pages that the new mapping adds are its device pages. *)
Definition add_device (o : VmarMapOptions) (m : VmMapping) (v : Vmar) : Vmar :=
  match o_mappable o with
  | Some (IoMem paddr size) => set_pt (populate_device m paddr size (o_vmo_offset o) (pt v)) v
  | _ => v
  end.

Lemma add_device_maps o m v : vm_mappings (add_device o m v) = vm_mappings v ∧ total_vm (add_device o m v) = total_vm v.
Proof. unfold add_device. by destruct (o_mappable o) as [[]|]. Qed.

Lemma add_device_lookup o m v k : mapping_ok m → 0 ≤ o_vmo_offset o →
  (covers m k → pt v !! k = None) →
  pt (add_device o m v) !! k =
    if decide (covers m k) then device_page o (flags_of_perms (perms m)) (map_to_addr m) k else pt v !! k.
Proof.
  intros Hm Ho Hfree. unfold add_device, device_page.
  destruct (o_mappable o) as [[ino vmo f|paddr size]|]; [by case_decide; auto | | by case_decide; auto].
  cbn [pt set_pt]. rewrite populate_lookup by done. repeat case_decide; try tauto.
Qed.

Lemma device_entry_ok o p addr k e : device_page o (flags_of_perms p) addr k = Some e →
  (PAGE_SIZE | k) ∧ entry_ok p e.
Proof.
  unfold device_page. destruct (o_mappable o) as [[|paddr size]|]; [done | | done].
  case_decide as Hd; [| done]. intros [= <-]. split; [apply Hd |]. left. cbn [flags].
  pose proof (flags_of_perms_cases p) as Hc.
  repeat (apply elem_of_cons in Hc as [->|Hc]; [done |]). by apply not_elem_of_nil in Hc.
Qed.

(** Inserting the mapping in the free region. *)
Lemma place_ok o v1 m : wf v1 → mapping_ok m → VMAR_LOWEST_ADDR ≤ map_to_addr m →
  0 ≤ o_vmo_offset o → free_at (vm_mappings v1) (map_to_addr m) (map_size m) →
  ∃ v', insert_try_merge m (add_device o m v1) = Done (ROk tt, v') ∧ wf v' ∧
    total_vm v' = total_vm v1 + map_size m ∧
    (∀ p, view v' p = if decide (covers m p) then Some (attr m p) else view v1 p) ∧
    ∀ k, pt v' !! k = if decide (covers m k)
      then device_page o (flags_of_perms (perms m)) (map_to_addr m) k else pt v1 !! k.
Proof.
  intros Hwf Hm Hlo Ho Hf. destruct (add_device_maps o m v1) as [Hdm Hdt].
  pose proof Hwf as [[Hmaps Htot] Hpg]. destruct (insert_merge_ok (add_device o m v1) m) as (v' & E & Hwf' & Hpt' & Hhas & _ & Ht'); try done.
  { split; rewrite Hdm; [done | by rewrite Hdt]. }
  { rewrite Hdm. by apply (free_disjoint _ (map_to_addr m) (map_size m)). }
  rewrite Hdm in Hhas. exists v'.
  assert (∀ p x, covers m p → ¬ has (vm_mappings v1) p x) as Hno.
  { intros p x Hp (n & Hn & Hc & _). apply (Hf n Hn). unfold covers, map_end in *. split; cbn; unfold map_end; lia. }
  assert (∀ k, pt v' !! k = if decide (covers m k)
    then device_page o (flags_of_perms (perms m)) (map_to_addr m) k else pt v1 !! k) as Hptk.
  { intros k. rewrite Hpt'. apply add_device_lookup; [done | done |]. intros Hc.
    by apply (free_pages v1 (map_to_addr m) (map_size m)). }
  split; [done |]. split; [split; [done |] |]; [| split_and!; [| | done]].
  - intros k e. rewrite Hptk. intros He. apply page_ok_has. case_decide as Hc.
    + apply device_entry_ok in He as [Hd He]. split; [done |]. exists (attr m k). split; [apply Hhas; by left | done].
    + apply Hpg, page_ok_has in He as (Hd & x & Hx & He). split; [done |]. exists x. split; [apply Hhas; by right | done].
  - by rewrite Ht', Hdt.
  - intros p. apply option_eq. intros y. rewrite view_has, Hhas by apply Hwf'. case_decide as Hc.
    + split; [intros [[_ ->]|Hx]; [done |] | intros [= <-]; by left]. by apply Hno in Hx.
    + rewrite view_has by done. naive_solver.
Qed.

(** The mapping that [build] makes of the accepted options. *)
Lemma mapping_of_ok o v addr v1 mem ino may : opts_ok o → accepted o → chosen o v addr v1 →
  mem_matches o mem → perms_fit (o_perms o) (o_may_perms o) may →
  (match mem with Vmo _ offset _ => offset = o_vmo_offset o | _ => True end) →
  let m := mkMapping (o_size o) addr mem ino (o_is_shared o) (o_around o) (Z.lor (o_perms o) may) in
  mapping_ok m ∧ built o addr m.
Proof.
  intros [O1 O2 O3 O4 O5] [A1 A2 A3 A4 A5 _ _ _] [C1 C2 C3 C4 _ _ _ _ _ _ _] Hmem (P1 & P2 & P3 & P4) Hoff m.
  assert (0 ≤ VMAR_LOWEST_ADDR) by (unfold VMAR_LOWEST_ADDR; lia).
  split; split; cbn; try done; try lia.
  - by apply (Z.divide_trans _ (o_align o)).
  - by apply (Z.divide_trans _ (o_align o)).
  - destruct mem; try done. split_and!; [lia | lia |]. rewrite Hoff. by apply (Z.divide_trans _ (o_align o)).
Qed.

(** [VmarMapOptions::build] with in-range options: the mapping and its place, or an
    error that changes nothing, except that a denied memfd may have cleared the
    range to be overwritten. *)
Lemma build_ok rlimit o v : wf v → opts_ok o →
  ∃ r v', build rlimit o v = Done (r, v') ∧ wf v' ∧
  match r with
  | ROk addr => ∃ m, built o addr m ∧ (o_align o | addr) ∧
      VMAR_LOWEST_ADDR ≤ addr ∧ addr + o_size o ≤ VMAR_CAP_ADDR ∧
      (∀ offset, o_offset o = Some offset → addr = offset) ∧
      (o_can_overwrite o = false → free_at (vm_mappings v) addr (o_size o)) ∧
      (∀ lim, rlimit = Some lim → total_vm v' ≤ lim) ∧
      (∀ p, view v' p = if decide (addr ≤ p < addr + o_size o) then Some (attr m p) else view v p) ∧
      ∀ k, pt v' !! k = if decide (addr ≤ k < addr + o_size o)
                        then device_page o (flags_of_perms (perms m)) addr k else pt v !! k
  | RErr e => v' = v ∨ (e = EPERM ∧ o_can_overwrite o = true ∧ ∃ offset, chosen o v offset v')
  end.
Proof.
  intros Hwf Hoo. assert (maps_ok (vm_mappings v)) as Hmaps by apply Hwf. unfold build.
  destruct (check_options_ok o v Hoo) as [[Hac E1]|[e E1]].
  2: { exists (RErr e), v. rewrite (bind_err _ _ _ _ _ E1). eauto. }
  rewrite (bind_ok _ _ _ _ _ E1).
  destruct (check_limit_ok rlimit o v Hmaps Hoo (ac_offset o Hac)) as [[E2 Hlim]|[e E2]].
  2: { exists (RErr e), v. rewrite (bind_err _ _ _ _ _ E2). eauto. }
  rewrite (bind_ok _ _ _ _ _ E2).
  destruct (choose_ok o v Hwf Hoo Hac) as [(addr & v1 & E3 & Hch)|[e E3]].
  2: { exists (RErr e), v. rewrite (bind_err _ _ _ _ _ E3). eauto. }
  rewrite (bind_ok _ _ _ _ _ E3). pose proof Hch as [C1 C2 C3 C4 C5 C6 C7 C8 C9 C10 C11].
  destruct (prepare_ok o v1 Hac) as [(mem & ino & io & may & E4 & Hmem & Hpf & Hoff & Hio)|E4].
  2: { exists (RErr EPERM), v1. rewrite (bind_err _ _ _ _ _ E4). split_and!; [done | done |].
       destruct (o_can_overwrite o); [right; eauto | left; auto]. }
  rewrite (bind_ok _ _ _ _ _ E4). pose proof Hoo as [O1 O2 _ _ _].
  rewrite (bind_ok _ _ _ (o_size o) v1).
  2: { apply lift_ok. unfold non_zero. destruct (Z.eqb_spec (o_size o) 0); [lia | done]. }
  set (m := mkMapping (o_size o) addr mem ino (o_is_shared o) (o_around o) (Z.lor (o_perms o) may)).
  destruct (mapping_of_ok o v addr v1 mem ino may) as [Hm Hb]; try done. fold m in Hm, Hb.
  destruct (place_ok o v1 m) as (v' & E5 & Hwf' & Ht' & Hv' & Hp'); try done.
  exists (ROk addr), v'. split; [| split; [done |]].
  - rewrite (bind_ok _ _ _ tt (add_device o m v1)).
    + by rewrite (bind_ok _ _ _ _ _ E5).
    + unfold add_device. rewrite Hio. by destruct (o_mappable o) as [[]|].
  - exists m. cbn in Ht'. split_and!; try done.
    + intros Hov. by rewrite <- (C9 Hov).
    + intros lim Hl. rewrite Ht'. destruct (Hlim lim Hl) as [?|(off & Ho1 & Ho2 & ?)]; [lia |].
      rewrite (C11 off Ho1 Ho2). lia.
    + intros p. rewrite Hv', C6. unfold covers, map_end. cbn. by repeat case_decide.
    + intros k. rewrite Hp', C7. unfold covers, map_end. cbn. by repeat case_decide.
Qed.
End VmarBuild.
