(* ===== verification/VmarFork.v ===== *)
(** * Forking an address space

    [Vmar::fork_from]: the child gets the mappings of its parent, and both page
    tables keep the pages of the parent without write access. *)

From stdpp Require Import gmap.
From S2P Require Import Prelude IntervalSet VmMapping Vmar VmarMaps.
Local Open Scope Z_scope.

Module VmarFork.
Import Vmar VmarMaps.

Definition aligned_keys (p : gmap Z Pte) : Prop := ∀ k e, p !! k = Some e → (PAGE_SIZE | k).

(** ** Finding the next page *)

(** Between two multiples of the page size there is none. *)
Lemma page_gap va k : (PAGE_SIZE | va) → (PAGE_SIZE | k) → va < k → va + PAGE_SIZE ≤ k.
Proof. intros [a ->] [b ->]. unfold PAGE_SIZE. lia. Qed.

Lemma find_next_ok n va p : aligned_keys p → (PAGE_SIZE | va) →
  match find_next n va p with
  | Some (k, e) => va ≤ k < va + Z.of_nat n * PAGE_SIZE ∧ p !! k = Some e ∧ ∀ k', va ≤ k' < k → p !! k' = None
  | None => ∀ k', va ≤ k' < va + Z.of_nat n * PAGE_SIZE → p !! k' = None
  end.
Proof.
  intros Hal. revert va. induction n as [|n IH]; intros va Hva; cbn [find_next].
  { intros k' Hk. lia. }
  destruct (p !! va) as [e|] eqn:He.
  { split; [unfold PAGE_SIZE; lia |]. split; [done | lia]. }
  assert (∀ k', va ≤ k' < va + PAGE_SIZE → p !! k' = None) as Hnone.
  { intros k' Hk. destruct (decide (k' = va)) as [->|Hne]; [done |]. destruct (p !! k') as [e|] eqn:Hk'; [| done].
    pose proof (page_gap va k' Hva (Hal _ _ Hk')). lia. }
  specialize (IH (va + PAGE_SIZE) ltac:(apply Z.divide_add_r; [done | reflexivity])).
  destruct (find_next n (va + PAGE_SIZE) p) as [[k e]|].
  - destruct IH as (H1 & H2 & H3). split; [unfold PAGE_SIZE in *; lia |]. split; [done |].
    intros k' Hk. destruct (decide (k' < va + PAGE_SIZE)); [apply Hnone | apply H3]; lia.
  - intros k' Hk. destruct (decide (k' < va + PAGE_SIZE)); [apply Hnone | apply IH]; lia.
Qed.

Lemma page_count_mul len : (PAGE_SIZE | len) → 0 ≤ len → Z.of_nat (page_count len) * PAGE_SIZE = len.
Proof. intros [z ->] H. unfold page_count. rewrite Z.div_mul by done. unfold PAGE_SIZE in *. lia. Qed.

(** ** Copying the pages of a mapping *)

(** The entry without write access; I/O pages are shared as they are. *)
Definition readonly (e : Pte) : Pte :=
  match item e with
  | Ram _ => mkPte (item e) (Z.ldiff (flags e) PageFlags.W)
  | Io _ => e
  end.

(** No I/O page is the last page of user space. *)
Definition io_below (p : gmap Z Pte) : Prop :=
  ∀ k e, p !! k = Some e → match item e with Io _ => k + PAGE_SIZE < VMAR_CAP_ADDR | Ram _ => True end.

Lemma readonly_idem e : readonly (readonly e) = readonly e.
Proof.
  destruct e as [[f|a] fl]; cbn; [| done]. unfold readonly; cbn. f_equal. rewrite Z.ldiff_ldiff_l. f_equal.
Qed.

Lemma readonly_entry_ok p e : entry_ok p e → entry_ok p (readonly e).
Proof.
  unfold readonly. destruct (item e) as [f|a] eqn:Hi; [| done]. intros He. right. cbn [flags].
  assert (Z.land (Z.ldiff (flags e) PageFlags.W) RWX = Z.ldiff (Z.land (flags e) RWX) PageFlags.W) as ->.
  { rewrite !Z.ldiff_land. rewrite <- !Z.land_assoc. by f_equal. }
  destruct He as [-> | ->]; [done |]. rewrite Z.ldiff_ldiff_l. done.
Qed.

Definition ro_keys (a b : Z) (src : gmap Z Pte) (k : Z) : option Pte :=
  if decide (a ≤ k < b) then readonly <$> src !! k else None.

Lemma cow_copy_ok fuel va end_va src dst : aligned_keys src → io_below src →
  (PAGE_SIZE | va) → (PAGE_SIZE | end_va) → va ≤ end_va → (page_count (end_va - va) < fuel)%nat →
  ∃ src' dst', cow_copy_pt fuel va end_va src dst = Done (src', dst') ∧
    (∀ k, src' !! k = if decide (va ≤ k < end_va) then readonly <$> src !! k else src !! k) ∧
    ∀ k, dst' !! k = match ro_keys va end_va src k with Some e => Some e | None => dst !! k end.
Proof.
  revert va src dst. induction fuel as [|fuel IH]; intros va src dst Hal Hio Dv De Hle Hf; [lia |].
  cbn [cow_copy_pt]. pose proof (find_next_ok (page_count (end_va - va)) va src Hal Dv) as Hfn.
  rewrite page_count_mul in Hfn by (try apply Z.divide_sub_r; done || lia).
  replace (va + (end_va - va)) with end_va in Hfn by lia.
  destruct (find_next (page_count (end_va - va)) va src) as [[k0 e]|].
  2: { exists src, dst. split; [done |]. unfold ro_keys.
       split; intros k; case_decide as Hk; try done; by rewrite (Hfn k Hk). }
  destruct Hfn as (Hk0 & He & Hnone). assert (0 < PAGE_SIZE) as Hps by (unfold PAGE_SIZE; lia). assert ((PAGE_SIZE | k0)) as Dk by (by eapply Hal).
  pose proof (Hio k0 e He) as Hlast.
  assert ((PAGE_SIZE | k0 + PAGE_SIZE)) as Dk' by (apply Z.divide_add_r; [done | reflexivity]).
  pose proof (page_gap k0 end_va Dk De ltac:(lia)) as Hgap.
  assert (page_count (end_va - (k0 + PAGE_SIZE)) < fuel)%nat as Hf'.
  { pose proof (page_count_mul (end_va - va) ltac:(by apply Z.divide_sub_r) ltac:(lia)).
    pose proof (page_count_mul (end_va - (k0 + PAGE_SIZE)) ltac:(by apply Z.divide_sub_r) ltac:(lia)).
    unfold PAGE_SIZE in *. lia. }
  set (e' := readonly e). set (src1 := <[k0 := e']> src).
  assert (∀ k, src1 !! k = if decide (k = k0) then Some e' else src !! k) as Hsrc1.
  { intros k. unfold src1. case_decide as Hk; [subst k; by rewrite lookup_insert, decide_True | by rewrite lookup_insert_ne]. }
  destruct (IH (k0 + PAGE_SIZE) src1 (<[k0 := e']> dst)) as (src' & dst' & E & Hs & Hd); try done.
  { intros k x. rewrite Hsrc1. case_decide; [by subst | apply Hal]. }
  { intros k x. rewrite Hsrc1. case_decide; [| apply Hio]. intros [= <-]. subst k. unfold e', readonly.
    destruct (item e) as [f|a] eqn:Hit; cbn; rewrite ?Hit; done. }
  exists src', dst'. split.
  { unfold src1, e', readonly in E. destruct (item e) as [f|a] eqn:Hit; [exact E |].
    rewrite (proj2 (Z.ltb_lt _ _)) by done. cbn [assert_that mbind outcome_bind].
    by rewrite insert_id in E. }
  assert (∀ k, k ≠ k0 → k0 ≤ k < k0 + PAGE_SIZE → src !! k = None) as Hin.
  { intros k Hne Hk. destruct (src !! k) as [x|] eqn:Hx; [| done].
    pose proof (page_gap k0 k Dk (Hal _ _ Hx) ltac:(lia)). lia. }
  split; intros k.
  - rewrite Hs, Hsrc1. destruct (decide (k = k0)) as [->|Hne].
    + rewrite decide_False by (unfold PAGE_SIZE; lia). rewrite decide_True by done. by rewrite He.
    + destruct (decide (va ≤ k < end_va)) as [Hk|Hk]; [| by rewrite decide_False by lia].
      destruct (decide (k0 + PAGE_SIZE ≤ k < end_va)); [done |].
      destruct (decide (k < k0)); [by rewrite Hnone by lia | by rewrite Hin by lia].
  - rewrite Hd. unfold ro_keys. rewrite Hsrc1. destruct (decide (k = k0)) as [->|Hne].
    + rewrite decide_False by (unfold PAGE_SIZE; lia). rewrite (decide_True _ _ Hk0), He, lookup_insert, decide_True by done. done.
    + rewrite lookup_insert_ne by done.
      destruct (decide (va ≤ k < end_va)) as [Hk|Hk]; [| by rewrite decide_False by lia].
      destruct (decide (k0 + PAGE_SIZE ≤ k < end_va)); [done |].
      destruct (decide (k < k0)); [by rewrite Hnone by lia | by rewrite Hin by lia].
Qed.

(** ** The loop over the mappings *)

Lemma new_fork_eq m : new_fork m = m.
Proof. by destruct m. Qed.

Definition covered (l : list VmMapping) (k : Z) : Prop := Exists (λ m, covers m k) l.
#[global] Instance covered_dec l k : Decision (covered l k).
Proof. unfold covered. apply _. Defined.

Lemma fork_loop_ok l src child : (∀ m, m ∈ l → mapping_ok m ∧ VMAR_LOWEST_ADDR ≤ map_to_addr m) →
  (∀ m n, m ∈ l → n ∈ l → m = n ∨ IntervalSet.disjoint m n) → NoDup l →
  (∀ m n, m ∈ l → n ∈ vm_mappings child → IntervalSet.disjoint n m) →
  aligned_keys src → io_below src → wf_maps child →
  ∃ src' child', fork_loop l src child = Done (src', child') ∧ wf_maps child' ∧
    vm_mappings child' ≡ₚ l ++ vm_mappings child ∧
    (∀ k, src' !! k = if decide (covered l k) then readonly <$> src !! k else src !! k) ∧
    ∀ k, pt child' !! k = if decide (covered l k)
      then match src !! k with Some e => Some (readonly e) | None => pt child !! k end
      else pt child !! k.
Proof.
  revert src child. induction l as [|m l IH]; intros src child Hl Hdl Hnd Hdis Hal Hio Hwf.
  { exists src, child. split_and!; try done; intros k; by rewrite decide_False by (apply Exists_nil). }
  apply NoDup_cons in Hnd as [Hnm Hnd]. destruct (Hl m (list_elem_of_here _ _)) as [Hm Hlo].
  destruct (insert_plain_ok child m) as (c1 & E1 & Hwf1 & Hp1 & Hpt1); try done; [by intros n; apply Hdis; left |].
  pose proof Hm as [M1 M2 M3 M4 M5 _ _].
  assert ((PAGE_SIZE | map_end m)) as Me by (unfold map_end; by apply Z.divide_add_r).
  destruct (cow_copy_ok (S (page_count (map_size m))) (map_to_addr m) (map_end m) src (pt c1))
    as (src1 & dst1 & E2 & Hs1 & Hd1); try done; [unfold map_end; lia | |].
  { unfold map_end. replace (map_to_addr m + map_size m - map_to_addr m) with (map_size m) by lia. lia. }
  assert (∀ k, (if decide (map_to_addr m ≤ k < map_end m) then readonly <$> src !! k else src !! k) = src1 !! k) as Hs1' by done.
  destruct (IH src1 (set_pt dst1 c1)) as (src' & child' & E3 & Hwf' & Hp' & Hs' & Hd'); try done.
  { intros n Hn. apply Hl. by right. }
  { intros n k Hn Hk. apply Hdl; by right. }
  { intros n k Hn. cbn. rewrite Hp1. intros [->|Hk]%elem_of_cons; [| apply Hdis; [by right | done]].
    destruct (Hdl m n) as [->|Hd]; [by left | by right | done | done]. }
  { intros k e. rewrite Hs1. case_decide; [| apply Hal]. intros (x & Hx & _)%fmap_Some. by eapply Hal. }
  { intros k e. rewrite Hs1. case_decide; [| apply Hio]. intros (x & Hx & ->)%fmap_Some. pose proof (Hio k x Hx) as Hx'.
    unfold readonly. destruct (item x) eqn:Hi; cbn; rewrite ?Hi; done. }
  { split; apply Hwf1. }
  exists src', child'. split.
  { cbn [fork_loop]. rewrite new_fork_eq, E1. assert (is_userspace_vaddr (map_to_addr m) = true) as ->.
    { unfold is_userspace_vaddr. apply andb_true_iff. split; [by apply Z.leb_le | apply Z.ltb_lt; unfold map_end in M5; lia]. }
    cbn [assert_that mbind outcome_bind]. rewrite E2. done. }
  split; [done |]. split; [cbn in Hp'; rewrite Hp', Hp1; cbn; symmetry; apply Permutation_middle |].
  assert (∀ k, covered (m :: l) k ↔ covers m k ∨ covered l k) as Hcov by (intros k; apply Exists_cons).
  assert (∀ k, covers m k → ¬ covered l k) as Hsep.
  { intros k Hk (n & Hn & Hnk)%Exists_exists. destruct (Hdl m n) as [->|[?|?]]; [by left | by right | done | |];
      unfold covers in *; cbn in *; lia. }
  split; intros k; specialize (Hcov k); specialize (Hsep k).
  - rewrite Hs', Hs1. fold (covers m k). destruct (decide (covers m k)); repeat case_decide; tauto || done.
  - rewrite Hd'. cbn. rewrite Hs1, Hd1, Hpt1. unfold ro_keys. fold (covers m k).
    destruct (decide (covers m k)); repeat case_decide; try tauto; by destruct (src !! k).
Qed.

(** [Vmar::fork_from]: the child has the mappings of its parent, at the same
    addresses with the same access, and the parent keeps its own; both keep the
    parent's pages, none of which stays writable, and both satisfy the invariant.
    The fork does not panic, provided the last page of user space is not an I/O
    page. *)
Lemma fork_ok v : wf v → io_below (pt v) →
  ∃ parent child, fork_from v = Done (parent, child) ∧ wf parent ∧ wf child ∧
    vm_mappings parent = vm_mappings v ∧ (∀ p, view child p = view v p) ∧
    (∀ k, pt parent !! k = readonly <$> pt v !! k) ∧ (∀ k, pt child !! k = readonly <$> pt v !! k).
Proof.
  intros [[[Hc Hok] Ht] Hpg] Hio.
  destruct (fork_loop_ok (vm_mappings v) (pt v) new) as (src' & child & E & Hwf' & Hp & Hs & Hd); try done.
  { intros m Hm. split; [by apply Hok |]. by destruct (IntervalSet.chain_elem _ _ _ Hc Hm). }
  { intros m n Hm Hn. by apply (IntervalSet.chain_disjoint VMAR_LOWEST_ADDR (vm_mappings v)). }
  { by apply maps_nodup. }
  { by intros m n _ ?%not_elem_of_nil. }
  { intros k e He. by destruct (Hpg k e He). }
  { split; [split; [done | by intros ? ?%not_elem_of_nil] | done]. }
  assert (∀ k e, pt v !! k = Some e → covered (vm_mappings v) k) as Hcv.
  { intros k e He. apply Hpg in He as (_ & m & Hm & Hk & _). apply Exists_exists. eauto. }
  assert (∀ k, src' !! k = readonly <$> pt v !! k) as Hs2.
  { intros k. rewrite Hs. case_decide as Hk; [done |]. destruct (pt v !! k) eqn:He; [| done]. by apply Hcv in He. }
  assert (∀ k, pt child !! k = readonly <$> pt v !! k) as Hd2.
  { intros k. rewrite Hd. cbn. destruct (pt v !! k) as [e|] eqn:He; [| by case_decide].
    rewrite decide_True; [done | by eapply Hcv]. }
  assert (∀ k e, readonly <$> pt v !! k = Some e → page_ok (vm_mappings v) k e) as Hpg2.
  { intros k e (x & Hx & ->)%fmap_Some. apply Hpg in Hx as (Hdv & m & Hm & Hk & He). split; [done |]. exists m.
    split_and!; [done | done |]. by apply readonly_entry_ok. }
  cbn in Hp. rewrite app_nil_r in Hp.
  exists (set_pt src' v), child. split; [unfold fork_from; by rewrite E |]. split_and!; try done.
  - split; [done |]. intros k e. cbn. rewrite Hs2. apply Hpg2.
  - split; [done |]. intros k e. rewrite Hd2. intros (? & m & Hm & ? & ?)%Hpg2. split; [done |].
    exists m. by rewrite Hp.
  - intros p. unfold view. by rewrite (IntervalSet.find_one_perm _ _ _ _ p (proj1 (wf_ok _ Hwf')) Hc Hp).
Qed.
End VmarFork.
