(* ===== verification/VmarCalls.v ===== *)
(** * System calls on the address space

    [kernel/src/syscall/{mmap,munmap,mprotect,mremap,madvise,brk}.rs] and the heap
    of [kernel/src/process/process_vm/heap.rs], on top of [Vmar]. *)

From stdpp Require Import gmap.
From S2P Require Import Prelude Align IntervalSet VmMapping Vmar VmarMaps VmarOps VmarBuild.
Local Open Scope Z_scope.

Module VmarCalls.
Import Vmar VmarMaps VmarOps VmarBuild.

Definition ISIZE_MAX : Z := 2 ^ 63 - 1.

(** [len.align_up(PAGE_SIZE)] *)
Definition page_up (len : Z) : M Z := lift (Align.align_up USIZE_BITS len PAGE_SIZE).

Definition sys_munmap (addr len : Z) : M unit :=
  ensure (addr mod PAGE_SIZE =? 0) EINVAL;;
  ensure (negb (len =? 0)) EINVAL;;
  ensure (len <=? ISIZE_MAX) ENOMEM;;
  len ← page_up len;
  e ← add_or EINVAL addr len;
  remove_mapping addr e.

(** [VmPerms::from_bits_truncate] keeps all the named bits, the [MAY_*] ones too. The
    callers pass [perms as u32]; the named bits are all below bit 32. *)
Definition from_bits_truncate (bits : Z) : Z := Z.land bits (Z.lor VmPerms.ALL_PERMS VmPerms.ALL_MAY_PERMS).

(** Write access implies read access on x86-64. *)
Definition write_implies_read (vm_perms : Z) : Z :=
  if negb (VmPerms.contains vm_perms VmPerms.READ) && VmPerms.contains vm_perms VmPerms.WRITE
  then Z.lor vm_perms VmPerms.READ else vm_perms.

Definition sys_mprotect (addr len perms_ : Z) : M unit :=
  let vm_perms := from_bits_truncate perms_ in
  ensure (addr mod PAGE_SIZE =? 0) EINVAL;;
  if len =? 0 then mret tt
  else
    ensure (len <=? ISIZE_MAX) ENOMEM;;
    len ← page_up len;
    e ← add_or ENOMEM addr len;
    protect (write_implies_read vm_perms) addr e.

(** The errors of [remove_mapping] are dropped. *)
Definition madv_free (start e : Z) : M unit := λ v,
  remove_mapping start e v ≫= λ '(_, v), Done (ROk tt, v).

(** [MadviseBehavior::try_from] *)
Definition is_behavior (b : Z) : bool :=
  ((0 <=? b) && (b <=? 4)) || ((8 <=? b) && (b <=? 24)) || (b =? 100) || (b =? 101).

Definition MADV_RANDOM : Z := 1.
Definition MADV_DONTNEED : Z := 4.
Definition MADV_FREE : Z := 8.
Definition MADV_NOHUGEPAGE : Z := 15.

Definition returns {A} (r : result A Errno) : M A := λ v, Done (r, v).
Definition todo {A} : M A := λ _, Panic.

(** A page fault gives the page at [k] the entry [e], as far as the mapping there
    allows it. *)
Definition fault_in (v : Vmar) '((k, e) : Z * Pte) : Vmar :=
  match IntervalSet.find_one k (vm_mappings v) with
  | Some m => if (k mod PAGE_SIZE =? 0) && bool_decide (entry_ok (perms m) e) then set_pt (<[k := e]> (pt v)) v else v
  | None => v
  end.

(** What the kernel does to read user memory for madvise: whether its heap can hold
    the buffer, the entries that page faults make meanwhile, and the result. *)
Record UserRead : Type := mkRead { heap_holds : Z → bool; faults : list (Z * Pte); read_result : result unit Errno }.

(** [vec![0u8; len]], which panics if the heap cannot hold it, and [read_bytes] *)
Definition read_range (read : UserRead) (len : Z) : M unit := λ v,
  if heap_holds read len then Done (read_result read, foldl fault_in v (faults read)) else Panic.

(** Behaviours without an arm are a [todo!()]. *)
Definition sys_madvise (read : UserRead) (start len behavior : Z) : M unit :=
  ensure (is_behavior behavior) EINVAL;;
  ensure (start mod PAGE_SIZE =? 0) EINVAL;;
  ensure (len <=? ISIZE_MAX) EINVAL;;
  if len =? 0 then mret tt
  else
    len ← page_up len;
    e ← add_or EINVAL start len;
    if (behavior =? 0) || (behavior =? 2) || (behavior =? 3) then read_range read len
    else if behavior =? MADV_DONTNEED then mret tt
    else if behavior =? MADV_FREE then madv_free start e
    else if behavior =? MADV_NOHUGEPAGE then mret tt
    else todo.

(** ** mremap *)

Definition MREMAP_MAYMOVE : Z := 1.
Definition MREMAP_FIXED : Z := 2.

Definition do_sys_mremap (rlimit : option Z) (old_addr old_size new_size flags_ new_addr : Z) : M Z :=
  ensure (old_addr mod PAGE_SIZE =? 0) EINVAL;;
  ensure (negb (new_size =? 0)) EINVAL;;
  ensure (negb (old_size =? 0)) EINVAL;;
  old_size ← page_up old_size;
  new_size ← page_up new_size;
  if negb (VmPerms.contains flags_ MREMAP_FIXED) && (new_size <=? old_size) then
    resize_mapping rlimit old_addr old_size new_size false;; mret old_addr
  else if VmPerms.contains flags_ MREMAP_MAYMOVE then
    if VmPerms.contains flags_ MREMAP_FIXED then remap old_addr old_size (Some new_addr) new_size
    else remap old_addr old_size None new_size
  else
    ensure (negb (VmPerms.contains flags_ MREMAP_FIXED)) EINVAL;;
    resize_mapping rlimit old_addr old_size new_size true;; mret old_addr.

Definition sys_mremap (rlimit : option Z) (old_addr old_size new_size flags_ new_addr : Z) : M Z :=
  ensure (Z.land flags_ (Z.lor MREMAP_MAYMOVE MREMAP_FIXED) =? flags_) EINVAL;;
  do_sys_mremap rlimit old_addr old_size new_size flags_ new_addr.

(** ** mmap *)

Inductive MMapType : Type := File | Shared | Private | SharedValidate.
#[global] Instance mmap_type_eq_dec : EqDecision MMapType.
Proof. solve_decision. Defined.

Definition MAP_FIXED : Z := 0x10.
Definition MAP_ANONYMOUS : Z := 0x20.
Definition MAP_FIXED_NOREPLACE : Z := 0x100000.
(** The bits of [MMapFlags] *)
Definition MMAP_FLAGS : Z := 0x1ff970.

(** [MMapOptions::try_from] *)
Definition mmap_options (value : Z) : option (MMapType * Z) :=
  let typ_raw := Z.land value 0xf in
  let flags_raw := Z.ldiff value 0xf in
  match List.find (λ t, t.1 =? typ_raw) [(0, File); (1, Shared); (2, Private); (3, SharedValidate)] with
  | None => None
  | Some (_, typ) => if Z.land flags_raw MMAP_FLAGS =? flags_raw then Some (typ, flags_raw) else None
  end.

Definition check_option (addr size : Z) (typ : MMapType) (flags_ : Z) : M unit :=
  ensure (negb (bool_decide (typ = File))) EINVAL;;
  map_end_ ← add_or EINVAL addr size;
  ensure (negb (VmPerms.contains flags_ MAP_FIXED)
          || (is_userspace_vaddr addr && is_userspace_vaddr (map_end_ - 1))) EINVAL.

(** The file of a descriptor: its access mode and what can be mapped of it. *)
Record OpenFile : Type := mkFile { is_readable : bool; is_writable : bool; mappable : Mappable }.

(** The options for the mapping of a file. *)
Definition file_options (f : OpenFile) (typ : MMapType) (vm_perms offset : Z) (o : VmarMapOptions)
  : M VmarMapOptions :=
  ensure (negb (VmPerms.contains vm_perms VmPerms.READ) || is_readable f) EACCES;;
  vm_may_perms ←
    (if bool_decide (typ = Shared) && negb (is_writable f) then
       ensure (negb (VmPerms.contains vm_perms VmPerms.WRITE)) EACCES;;
       mret (Z.ldiff VmPerms.ALL_MAY_PERMS VmPerms.MAY_WRITE)
     else mret VmPerms.ALL_MAY_PERMS);
  mret (mkOptions (match mappable f with Inode _ vmo _ => Some vmo | IoMem _ _ => o_vmo o end)
          (Some (mappable f)) (o_perms o) vm_may_perms offset (o_size o) (o_offset o) (o_align o)
          (o_can_overwrite o) (o_is_shared o) true).

(** [file] is the mappable file of the descriptor, if there is one ([error] is what
    the lookup or [mappable] returns otherwise); [new_vmo] is a fresh VMO of the
    given length. *)
Definition do_sys_mmap (rlimit : option Z) (file : result OpenFile Errno) (new_vmo : Z)
    (addr len vm_perms : Z) (typ : MMapType) (flags_ offset : Z) : M Z :=
  let flags_ := if VmPerms.contains flags_ MAP_FIXED_NOREPLACE then Z.lor flags_ MAP_FIXED else flags_ in
  check_option addr len typ flags_;;
  ensure (negb (len =? 0)) EINVAL;;
  ensure (len <=? ISIZE_MAX) ENOMEM;;
  len ← page_up len;
  ensure (offset mod PAGE_SIZE =? 0) EINVAL;;
  add_or EOVERFLOW offset len;;
  room ← sub ISIZE_MAX len;
  ensure (addr <=? room) ENOMEM;;
  let vm_perms := write_implies_read vm_perms in
  let o := new_map len vm_perms in
  let fixed := VmPerms.contains flags_ MAP_FIXED in
  let o := mkOptions None None (o_perms o) (o_may_perms o) (o_vmo_offset o) len
             (if fixed then Some addr else None) (o_align o) fixed (bool_decide (typ = Shared)) false in
  o ← (if VmPerms.contains flags_ MAP_ANONYMOUS then
         ensure (offset =? 0) EINVAL;;
         mret (mkOptions (if bool_decide (typ = Shared) then Some new_vmo else None) None (o_perms o)
                 (o_may_perms o) (o_vmo_offset o) len (o_offset o) (o_align o) fixed (o_is_shared o) false)
       else
         match file with
         | RErr e => fail e
         | ROk f => file_options f typ vm_perms offset o
         end);
  build rlimit o.

Definition sys_mmap (rlimit : option Z) (file : result OpenFile Errno) (new_vmo : Z)
    (addr len perms_ flags_ offset : Z) : M Z :=
  match mmap_options (flags_ mod 2 ^ 32) with
  | None => fail EINVAL
  | Some (typ, flags_) => do_sys_mmap rlimit file new_vmo addr len (from_bits_truncate perms_) typ flags_ offset
  end.

(** ** The heap *)

Definition USER_HEAP_BASE : Z := 0x10000000.
Definition USER_HEAP_SIZE_LIMIT : Z := 16 * 1024 * PAGE_SIZE.

(** The options with a fixed offset. *)
Definition at_offset (o : VmarMapOptions) (offset : Z) : VmarMapOptions :=
  mkOptions (o_vmo o) (o_mappable o) (o_perms o) (o_may_perms o) (o_vmo_offset o) (o_size o)
    (Some offset) (o_align o) (o_can_overwrite o) (o_is_shared o) (o_around o).

(** [Heap::alloc_and_map]: the end of the heap *)
Definition heap_alloc_and_map (rlimit : option Z) : M Z :=
  build rlimit (at_offset (new_map PAGE_SIZE (Z.lor VmPerms.READ VmPerms.WRITE)) USER_HEAP_BASE);;
  build rlimit (at_offset (new_map (USER_HEAP_SIZE_LIMIT - PAGE_SIZE) 0) (USER_HEAP_BASE + PAGE_SIZE));;
  mret (USER_HEAP_BASE + PAGE_SIZE).

(** [Heap::brk] with a new end: the end of the heap after the call *)
Definition brk (rlimit : option Z) (current_heap_end new_heap_end : Z) : M Z :=
  ensure (new_heap_end <=? USER_HEAP_BASE + USER_HEAP_SIZE_LIMIT) ENOMEM;;
  if new_heap_end <=? current_heap_end then mret current_heap_end
  else
    current ← page_up current_heap_end;
    new_ ← page_up new_heap_end;
    remove_mapping current new_;;
    old_size ← sub current USER_HEAP_BASE;
    new_size ← sub new_ USER_HEAP_BASE;
    resize_mapping rlimit USER_HEAP_BASE old_size new_size false;;
    mret new_.

(** ** Theorems *)

Lemma page_align_valid : Align.valid_align USIZE_BITS PAGE_SIZE.
Proof. split; [unfold in_width, USIZE_BITS, PAGE_SIZE; lia |]. exists 12. split; [lia | done]. Qed.

(** The length in whole pages. *)
Definition pages_of (len : Z) : Z := Align.round_up len PAGE_SIZE.

Lemma pages_of_spec len : (PAGE_SIZE | pages_of len) ∧ len ≤ pages_of len < len + PAGE_SIZE.
Proof.
  destruct (Align.round_up_least len PAGE_SIZE) as (H1 & H2 & _); [unfold PAGE_SIZE; lia |].
  split; [done |]. split; [done |]. unfold pages_of, Align.round_up, Align.round_down.
  pose proof (Z.mod_pos_bound (len + (PAGE_SIZE - 1)) PAGE_SIZE). unfold PAGE_SIZE in *. lia.
Qed.

Lemma page_up_ok len v : 0 ≤ len ≤ ISIZE_MAX → page_up len v = Done (ROk (pages_of len), v).
Proof.
  intros Hl. pose proof (pages_of_spec len) as [_ Hb]. unfold page_up. apply lift_ok.
  unfold ISIZE_MAX in Hl. unfold PAGE_SIZE in Hb. rewrite Align.align_up_eq.
  - fold (pages_of len). rewrite (proj2 (Z.ltb_lt _ _)); [done |]. unfold USIZE_BITS. lia.
  - apply page_align_valid.
  - unfold in_width, USIZE_BITS. lia.
Qed.

Lemma add_or_cases e a b v :
  (a + b < 2 ^ USIZE_BITS ∧ add_or e a b v = Done (ROk (a + b), v)) ∨
  (2 ^ USIZE_BITS ≤ a + b ∧ add_or e a b v = Done (RErr e, v)).
Proof.
  unfold add_or, checked_add. destruct (Z.ltb_spec (a + b) (2 ^ USIZE_BITS)); [left | right]; done.
Qed.

Lemma ensure_split b e v :
  (b = true ∧ ensure b e v = Done (ROk tt, v)) ∨ (b = false ∧ ensure b e v = Done (RErr e, v)).
Proof. destruct b; [left | right]; done. Qed.

(** A guard of a system call: the rest under its condition, or its error. *)
Ltac take_guard H :=
  match goal with
  | |- context [(ensure ?b ?e ≫= ?f) ?v] =>
      let E := fresh "E" in
      destruct (ensure_split b e v) as [[H E]|[H E]];
      [rewrite (bind_ok _ _ _ _ _ E); clear E
      | exists (RErr e), v; rewrite (bind_err _ _ _ _ _ E); clear E]
  | |- context [(add_or ?e ?a ?b ≫= ?f) ?v] =>
      let E := fresh "E" in
      destruct (add_or_cases e a b v) as [[H E]|[H E]];
      [rewrite (bind_ok _ _ _ _ _ E); clear E
      | exists (RErr e), v; rewrite (bind_err _ _ _ _ _ E); clear E]
  end.

Lemma sys_munmap_ok v addr len : wf v → in_width USIZE_BITS addr → in_width USIZE_BITS len →
  ∃ r v', sys_munmap addr len v = Done (r, v') ∧ wf v' ∧
  let e := addr + pages_of len in
  match r with
  | ROk _ => (PAGE_SIZE | addr) ∧ 0 < len ∧
      (∀ p, view v' p = if decide (addr ≤ p < e) then None else view v p) ∧
      (∀ k, pt v' !! k = if decide (addr ≤ k < e) then None else pt v !! k)
  | RErr _ => v' = v ∧ (¬ (PAGE_SIZE | addr) ∨ len = 0 ∨ ISIZE_MAX < len ∨ 2 ^ USIZE_BITS ≤ e)
  end.
Proof.
  intros Hwf [Ha _] [Hl _]. unfold sys_munmap. pose proof (pages_of_spec len) as [Dp Hp].
  take_guard H1; [apply Z.eqb_eq, Z.mod_divide in H1; [| done] |].
  2: { split_and!; try done. left. intros Hd. apply Z.mod_divide in Hd; [| done]. by rewrite Hd in H1. }
  take_guard H2; [apply negb_true_iff, Z.eqb_neq in H2 |].
  2: { split_and!; try done. right. left. by apply negb_false_iff, Z.eqb_eq in H2. }
  take_guard H3; [apply Z.leb_le in H3 |].
  2: { split_and!; try done. right. right. left. by apply Z.leb_gt in H3. }
  rewrite (bind_ok _ _ _ _ _ (page_up_ok len v ltac:(lia))).
  take_guard H4; [| split_and!; try done; by right; right; right].
  destruct (remove_mapping_ok v addr (addr + pages_of len)) as (v' & E & Hwf' & Hv & Hpt); try done.
  { by apply Z.divide_add_r. }
  { lia. }
  exists (ROk tt), v'. split; [done |]. split; [done |]. cbn. split_and!; try done. lia.
Qed.

(** [C15] munmap: a call with an aligned address, a nonzero length and an end that
    fits in the address width leaves no mapping and no page in the range rounded
    up to whole pages, and every other address keeps its mapping, its access and
    its page; any other call fails and changes nothing. The accounted size stays
    that of the mappings. *)
Theorem sys_munmap_exact v addr len : wf v → in_width USIZE_BITS addr → in_width USIZE_BITS len →
  ∃ r v', sys_munmap addr len v = Done (r, v') ∧ wf v' ∧
  let e := addr + pages_of len in
  match r with
  | ROk _ => (PAGE_SIZE | addr) ∧ 0 < len ∧
      (∀ p, view v' p = if decide (addr ≤ p < e) then None else view v p) ∧
      (∀ k, pt v' !! k = if decide (addr ≤ k < e) then None else pt v !! k)
  | RErr _ => v' = v ∧ (¬ (PAGE_SIZE | addr) ∨ len = 0 ∨ ISIZE_MAX < len ∨ 2 ^ USIZE_BITS ≤ e)
  end.
Proof. apply sys_munmap_ok. Qed.

Lemma sys_munmap_exact_witness : ∃ v', sys_munmap 0x11000 1 sample = Done (ROk tt, v') ∧ wf v' ∧
  view v' 0x11000 = None ∧ view v' 0x12000 = view sample 0x12000 ∧ pt v' !! 0x10000 = Some (mkPte (Ram 3) 3).
Proof.
  destruct (sys_munmap_exact sample 0x11000 1 sample_wf) as (r & v' & E & Hwf & Hr); [done | done |].
  destruct r as [[]|e]; [| by vm_compute in E]. destruct Hr as (_ & _ & Hv & Hp). exists v'.
  by rewrite !Hv, Hp.
Defined.

Lemma plain_bits q : 0 ≤ q < 8 → from_bits_truncate q = q ∧
  VmPerms.contains VmPerms.ALL_PERMS (write_implies_read q) = true.
Proof.
  intros Hq. assert (q ∈ seqZ 0 8) as Hin by (apply elem_of_seqZ; lia).
  revert Hin. cbn. intros Hin. repeat (apply elem_of_cons in Hin as [->|Hin]; [done |]). by apply not_elem_of_nil in Hin.
Qed.

(** mprotect with the permissions of POSIX ([PROT_READ], [PROT_WRITE],
    [PROT_EXEC]): the mappings of the range get the permissions, with their
    [MAY_*] bits unchanged, up to the first address whose [MAY_*] bits forbid them;
    there the call fails with [EACCES], and it succeeds exactly when no mapping of
    the range forbids it. Nothing else changes, every page stays mapped to its
    item, and its entry allows no more than the permissions of its mapping. *)
Theorem sys_mprotect_exact v addr len q : wf v → (PAGE_SIZE | addr) → 0 ≤ addr →
  0 < len ≤ ISIZE_MAX → addr + pages_of len < 2 ^ USIZE_BITS → 0 ≤ q < 8 →
  let q' := write_implies_read q in
  ∃ r v' c, sys_mprotect addr len q v = Done (r, v') ∧ wf v' ∧ addr ≤ c ≤ addr + pages_of len ∧
    (∀ p, view v' p = if decide (addr ≤ p < c)
                      then (λ x, set_perms x (protected q' (a_perms x))) <$> view v p else view v p) ∧
    (∀ k, item <$> pt v' !! k = item <$> pt v !! k) ∧
    (∀ p x, addr ≤ p < c → view v p = Some x → VmPerms.check (protected q' (a_perms x)) = true) ∧
    match r with
    | ROk _ => c = addr + pages_of len
    | RErr e => e = EACCES ∧ c < addr + pages_of len ∧
        ∃ x, view v c = Some x ∧ VmPerms.check (protected q' (a_perms x)) = false
    end.
Proof.
  intros Hwf Da Ha Hl He Hq q'. destruct (plain_bits q Hq) as [Hb Hc]. pose proof (pages_of_spec len) as [Dp Hp].
  destruct (protect_ok v q' addr (addr + pages_of len)) as (r & v' & c & E & H1 & H2 & H3 & H4 & H5 & H6 & _); try done.
  { by apply Z.divide_add_r. }
  { lia. }
  exists r, v', c. split; [| done]. unfold sys_mprotect. rewrite Hb.
  rewrite (bind_ok _ _ _ tt v) by (apply ensure_true, Z.eqb_eq, Z.mod_divide; done).
  rewrite (proj2 (Z.eqb_neq len 0)) by lia.
  rewrite (bind_ok _ _ _ tt v) by (apply ensure_true, Z.leb_le; lia).
  rewrite (bind_ok _ _ _ _ _ (page_up_ok len v ltac:(lia))).
  rewrite (bind_ok _ _ _ (addr + pages_of len) v) by (by apply add_or_ok). done.
Qed.

Lemma sys_mprotect_exact_witness : ∃ v', sys_mprotect 0x10000 5000 5 sample = Done (ROk tt, v') ∧ wf v' ∧
  a_perms <$> view v' 0x11fff = Some 0x3d ∧ a_perms <$> view v' 0x12000 = Some 0x3b.
Proof.
  destruct (sys_mprotect_exact sample 0x10000 5000 5 sample_wf) as (r & v' & c & E & Hwf & Hc & Hv & _ & _ & Hr);
    [by exists 16 | done | done | done | done |].
  destruct r as [[]|e]; [| by vm_compute in E]. exists v'. rewrite Hr in Hv. rewrite !Hv. by vm_compute.
Defined.

(** *** mmap *)

(** The memory that the arguments of mmap name. *)
Definition mmap_mem (file : result OpenFile Errno) (new_vmo : Z) (typ : MMapType) (flags_ offset : Z)
    (mem : MappedMemory) : Prop :=
  if VmPerms.contains flags_ MAP_ANONYMOUS then
    match mem with
    | Vmo vmo off _ => typ = Shared ∧ vmo = new_vmo ∧ off = 0
    | Anonymous => typ ≠ Shared
    | Device => False
    end
  else match file with
  | ROk f => match mappable f, mem with
             | Inode _ vmo _, Vmo vmo' off _ => vmo' = vmo ∧ off = offset
             | IoMem _ _, Device => True
             | _, _ => False
             end
  | RErr _ => False
  end.

(** The access mode of the file allows the mapping. *)
Definition mmap_access (file : result OpenFile Errno) (typ : MMapType) (flags_ q p : Z) : Prop :=
  ∀ f, VmPerms.contains flags_ MAP_ANONYMOUS = false → file = ROk f →
    (VmPerms.contains q VmPerms.READ = true → is_readable f = true) ∧
    (typ = Shared → is_writable f = false → VmPerms.contains p VmPerms.MAY_WRITE = false).

(** The options that mmap builds: for the rounded length and the fixed place. *)
Record mmap_built (file : result OpenFile Errno) (new_vmo len : Z) (typ : MMapType) (flags_ q offset : Z)
    (fixed : option Z) (o : VmarMapOptions) : Prop := {
  mo_size : o_size o = pages_of len;
  mo_offset : o_offset o = fixed;
  mo_align : o_align o = PAGE_SIZE;
  mo_overwrite : o_can_overwrite o = bool_decide (is_Some fixed);
  mo_shared : o_is_shared o = bool_decide (typ = Shared);
  mo_perms : o_perms o = q;
  mo_vmo_offset : o_vmo_offset o = 0 ∨ o_vmo_offset o = offset;
  mo_mem : ∀ mem, mem_matches o mem → mmap_mem file new_vmo typ flags_ offset mem;
  mo_access : ∀ p, VmPerms.contains (o_may_perms o) (Z.land p VmPerms.ALL_MAY_PERMS) = true →
    mmap_access file typ flags_ q p
}.

Lemma may_write_removed p :
  VmPerms.contains (Z.ldiff VmPerms.ALL_MAY_PERMS VmPerms.MAY_WRITE) (Z.land p VmPerms.ALL_MAY_PERMS) = true →
  VmPerms.contains p VmPerms.MAY_WRITE = false.
Proof.
  unfold VmPerms.contains. intros H%Z.eqb_eq. apply Z.eqb_neq.
  change VmPerms.MAY_WRITE with (Z.land VmPerms.ALL_MAY_PERMS 16) at 1. rewrite Z.land_assoc, <- H.
  rewrite <- Z.land_assoc, (Z.land_comm _ 16), Z.land_assoc. done.
Qed.

Lemma file_options_ok file f new_vmo len typ flags_ q offset fixed o v :
  VmPerms.contains flags_ MAP_ANONYMOUS = false → file = ROk f →
  o = mkOptions None None q VmPerms.ALL_MAY_PERMS 0 (pages_of len) fixed PAGE_SIZE
        (bool_decide (is_Some fixed)) (bool_decide (typ = Shared)) false →
  (∃ o', file_options f typ q offset o v = Done (ROk o', v) ∧
     mmap_built file new_vmo len typ flags_ q offset fixed o') ∨
  ∃ e, file_options f typ q offset o v = Done (RErr e, v).
Proof.
  intros Ha -> ->. unfold file_options.
  destruct (ensure_split (negb (VmPerms.contains q VmPerms.READ) || is_readable f) EACCES v) as [[H1 E]|[_ E]].
  2: { right. eexists. by rewrite (bind_err _ _ _ _ _ E). }
  rewrite (bind_ok _ _ _ _ _ E). clear E.
  assert (VmPerms.contains q VmPerms.READ = true → is_readable f = true) as Hr by (intros Hq; by rewrite Hq in H1).
  assert (∀ mem, mem_matches (mkOptions (match mappable f with Inode _ vmo _ => Some vmo | IoMem _ _ => None end)
      (Some (mappable f)) q VmPerms.ALL_MAY_PERMS offset (pages_of len) fixed PAGE_SIZE
      (bool_decide (is_Some fixed)) (bool_decide (typ = Shared)) true) mem →
    mmap_mem (ROk f) new_vmo typ flags_ offset mem) as Hmem.
  { intros mem. unfold mem_matches, mmap_mem. rewrite Ha. cbn. destruct (mappable f), mem; try done. }
  destruct (bool_decide (typ = Shared) && negb (is_writable f)) eqn:Hw.
  - destruct (ensure_split (negb (VmPerms.contains q VmPerms.WRITE)) EACCES v) as [[H2 E]|[_ E]].
    + left. eexists. rewrite (bind_ok _ _ _ (Z.ldiff VmPerms.ALL_MAY_PERMS VmPerms.MAY_WRITE) v).
      2: { by rewrite (bind_ok _ _ _ _ _ E). }
      split; [done |]. split; try done; [by right |].
      intros p Hp f' _ [= <-]. split; [done |]. intros _ _. by apply may_write_removed.
    + right. eexists. rewrite (bind_err _ _ _ EACCES v); [done |]. by rewrite (bind_err _ _ _ _ _ E).
  - left. eexists. rewrite (bind_ok _ _ _ VmPerms.ALL_MAY_PERMS v) by done. split; [done |]. split; try done; [by right |].
    intros p _ f' _ [= <-]. split; [done |]. intros -> Hn. rewrite Hn in Hw. by rewrite bool_decide_true in Hw.
Qed.

(** The result of a successful mmap: the mapping [m] at [a], of whole pages. *)
Record mapped_at (rlimit : option Z) (file : result OpenFile Errno) (new_vmo len : Z) (typ : MMapType)
    (flags_ q offset : Z) (fixed : option Z) (v v' : Vmar) (a : Z) (m : VmMapping) : Prop := {
  at_place : (PAGE_SIZE | a) ∧ VMAR_LOWEST_ADDR ≤ a ∧ a + pages_of len ≤ VMAR_CAP_ADDR;
  at_fixed : match fixed with
             | Some addr => a = addr
             | None => free_at (vm_mappings v) a (pages_of len)
             end;
  at_mapping : map_to_addr m = a ∧ map_size m = pages_of len ∧ is_shared m = bool_decide (typ = Shared) ∧
    Z.land (perms m) VmPerms.ALL_PERMS = q;
  at_mem : mmap_mem file new_vmo typ flags_ offset (mapped_mem m);
  at_access : mmap_access file typ flags_ q (perms m);
  at_limit : ∀ lim, rlimit = Some lim → total_vm v' ≤ lim;
  at_view : ∀ p, view v' p = if decide (a ≤ p < a + pages_of len) then Some (attr m p) else view v p;
  at_pages : ∀ k, if decide (a ≤ k < a + pages_of len)
                  then ∀ e, pt v' !! k = Some e → ∃ pa, item e = Io pa
                  else pt v' !! k = pt v !! k
}.

(** The range that a failed overwriting mmap may have cleared. *)
Definition cleared (v v' : Vmar) (addr len : Z) : Prop :=
  (∀ p, view v' p = if decide (addr ≤ p < addr + pages_of len) then None else view v p) ∧
  ∀ k, pt v' !! k = if decide (addr ≤ k < addr + pages_of len) then None else pt v !! k.

Lemma mmap_build_ok rlimit file new_vmo len typ flags_ q offset fixed o v : wf v →
  mmap_built file new_vmo len typ flags_ q offset fixed o → 0 < len → 0 ≤ offset →
  offset + pages_of len < 2 ^ USIZE_BITS →
  (∀ addr, fixed = Some addr → VMAR_LOWEST_ADDR ≤ addr ∧ addr + len ≤ VMAR_CAP_ADDR) →
  ∃ r v', build rlimit o v = Done (r, v') ∧ wf v' ∧
  match r with
  | ROk a => ∃ m, mapped_at rlimit file new_vmo len typ flags_ q offset fixed v v' a m
  | RErr e => v' = v ∨ (e = EPERM ∧ ∃ addr, fixed = Some addr ∧ cleared v v' addr len)
  end.
Proof.
  intros Hwf [B1 B2 B3 B4 B5 B6 B7 B8 B9] Hl Ho Hov Hfix. pose proof (pages_of_spec len) as [Dp Hp].
  assert (opts_ok o) as Hoo.
  { split; rewrite ?B1, ?B2, ?B3; try lia.
    - unfold in_width, PAGE_SIZE, USIZE_BITS. lia.
    - destruct fixed as [addr|]; [| done]. intros Da. destruct (Hfix addr eq_refl). split; [done |].
      assert (pages_of len ≤ VMAR_CAP_ADDR - addr); [| lia].
      apply Align.round_up_least; [unfold PAGE_SIZE; lia | | lia]. apply Z.divide_sub_r; [| done].
      exists (2 ^ 35 - 1). unfold VMAR_CAP_ADDR, PAGE_SIZE. lia. }
  destruct (build_ok rlimit o v Hwf Hoo) as (r & v' & E & Hwf' & Hr). exists r, v'. split; [done |]. split; [done |].
  destruct r as [a|e].
  - destruct Hr as (m & [M1 M2 M3 M4 M5 M6] & R1 & R2 & R3 & R4 & R5 & R6 & R7 & R8). exists m.
    rewrite B1, ?B3 in *. split; try done.
    + rewrite B2 in R4. destruct fixed as [addr|]; [by apply R4 |]. apply R5. by rewrite B4.
    + split_and!; try done; congruence.
    + by apply B8.
    + by apply B9.
    + intros k. specialize (R8 k). case_decide; [| done]. intros e He. rewrite R8 in He. unfold device_page in He.
      destruct (o_mappable o) as [[|paddr sz]|]; [done | | done]. case_decide; [| done]. injection He as <-. by eexists.
  - destruct Hr as [->|(-> & Hc & off & [_ _ _ _ _ C6 C7 C8 _ _ _])]; [by left | right]. split; [done |].
    rewrite B4 in Hc. apply bool_decide_eq_true in Hc as [addr ->]. exists addr. split; [done |].
    rewrite B1 in C6, C7. specialize (C8 addr B2) as ->. done.
Qed.

(** [MAP_FIXED_NOREPLACE] is treated as [MAP_FIXED]. *)
Definition is_fixed (flags_ : Z) : bool :=
  VmPerms.contains flags_ MAP_FIXED_NOREPLACE || VmPerms.contains flags_ MAP_FIXED.

Lemma fixed_flag fl :
  VmPerms.contains (if VmPerms.contains fl MAP_FIXED_NOREPLACE then Z.lor fl MAP_FIXED else fl) MAP_FIXED = is_fixed fl.
Proof.
  unfold is_fixed. destruct (VmPerms.contains fl MAP_FIXED_NOREPLACE); cbn [orb]; [| done].
  unfold VmPerms.contains. apply Z.eqb_eq, Z.bits_inj'. intros n _. rewrite Z.land_spec, Z.lor_spec.
  by destruct (Z.testbit fl n), (Z.testbit MAP_FIXED n).
Qed.

Lemma check_option_ok addr len typ fl v :
  (check_option addr len typ fl v = Done (ROk tt, v) ∧
   (VmPerms.contains fl MAP_FIXED = true → VMAR_LOWEST_ADDR ≤ addr ∧ addr + len ≤ VMAR_CAP_ADDR)) ∨
  ∃ e, check_option addr len typ fl v = Done (RErr e, v).
Proof.
  unfold check_option.
  destruct (ensure_split (negb (bool_decide (typ = File))) EINVAL v) as [[_ E]|[_ E]].
  2: { right. rewrite (bind_err _ _ _ _ _ E). eauto. }
  rewrite (bind_ok _ _ _ _ _ E). clear E. destruct (add_or_cases EINVAL addr len v) as [[_ E]|[_ E]].
  2: { right. rewrite (bind_err _ _ _ _ _ E). eauto. }
  rewrite (bind_ok _ _ _ _ _ E). clear E.
  destruct (VmPerms.contains fl MAP_FIXED); cbn [negb orb]; [| by left].
  destruct (is_userspace_vaddr addr) eqn:H1; cbn [andb]; [| right; eauto].
  destruct (is_userspace_vaddr (addr + len - 1)) eqn:H2; [left | right; eauto].
  split; [done |]. intros _. unfold is_userspace_vaddr in *.
  apply andb_true_iff in H1 as [H1%Z.leb_le _], H2 as [_ H2%Z.ltb_lt]. lia.
Qed.

Lemma sys_mmap_ok rlimit file new_vmo addr len perms_ flags_ offset v : wf v →
  in_width USIZE_BITS addr → in_width USIZE_BITS offset → 0 ≤ len → pages_of len ≤ ISIZE_MAX →
  ∃ r v', sys_mmap rlimit file new_vmo addr len perms_ flags_ offset v = Done (r, v') ∧ wf v' ∧
  match r with
  | ROk a => ∃ typ fl m, mmap_options (flags_ mod 2 ^ 32) = Some (typ, fl) ∧
      mapped_at rlimit file new_vmo len typ
        (if VmPerms.contains fl MAP_FIXED_NOREPLACE then Z.lor fl MAP_FIXED else fl)
        (write_implies_read (from_bits_truncate perms_)) offset
        (if is_fixed fl then Some addr else None) v v' a m
  | RErr e => v' = v ∨ (e = EPERM ∧ cleared v v' addr len)
  end.
Proof.
  intros Hwf [Ha _] [Ho _] Hl Hroom. unfold sys_mmap. pose proof (pages_of_spec len) as [Dp Hp].
  destruct (mmap_options (flags_ mod 2 ^ 32)) as [[typ fl]|]; [| exists (RErr EINVAL), v; by split_and!; [| | left]].
  unfold do_sys_mmap. set (fl' := if VmPerms.contains fl MAP_FIXED_NOREPLACE then Z.lor fl MAP_FIXED else fl).
  set (q := write_implies_read (from_bits_truncate perms_)). rewrite (fixed_flag fl : VmPerms.contains fl' MAP_FIXED = is_fixed fl).
  destruct (check_option_ok addr len typ fl' v) as [[E Hco]|[e E]].
  2: { exists (RErr e), v. rewrite (bind_err _ _ _ _ _ E). split_and!; [done | done | by left]. }
  rewrite (bind_ok _ _ _ _ _ E). clear E. rewrite (fixed_flag fl : VmPerms.contains fl' MAP_FIXED = is_fixed fl) in Hco.
  take_guard H1; [apply negb_true_iff, Z.eqb_neq in H1 | split_and!; [done | done | by left]].
  take_guard H2; [| split_and!; [done | done | by left]].
  rewrite (bind_ok _ _ _ _ _ (page_up_ok len v ltac:(lia))).
  take_guard H3; [| split_and!; [done | done | by left]].
  take_guard H4; [| split_and!; [done | done | by left]].
  rewrite (bind_ok _ _ _ (ISIZE_MAX - pages_of len) v) by (by apply sub_ok).
  take_guard H5; [| split_and!; [done | done | by left]]. cbv zeta.
  set (fixed := if is_fixed fl then Some addr else None).
  assert (is_fixed fl = bool_decide (is_Some fixed)) as Hbf by (unfold fixed; by destruct (is_fixed fl)).
  match goal with |- context [(?mo ≫= _) v] =>
    assert ((∃ o, mo v = Done (ROk o, v) ∧ mmap_built file new_vmo len typ fl' q offset fixed o) ∨
            ∃ e, mo v = Done (RErr e, v)) as [(o & E & Hb)|[e E]] end.
  - destruct (VmPerms.contains fl' MAP_ANONYMOUS) eqn:Han.
    + destruct (ensure_split (offset =? 0) EINVAL v) as [[Hz E]|[_ E]].
      2: { right. eexists. by rewrite (bind_err _ _ _ _ _ E). }
      left. eexists. rewrite (bind_ok _ _ _ _ _ E). split; [done |]. split; try done; [by left | |].
      * intros mem. unfold mem_matches, mmap_mem. rewrite Han. cbn.
        destruct (decide (typ = Shared)) as [Ht|Ht]; [rewrite bool_decide_true by done | rewrite bool_decide_false by done];
          destruct mem; naive_solver.
      * intros p _ f Hf. by rewrite Han in Hf.
    + destruct file as [f|e]; [| right; by eexists]. apply file_options_ok; [done | done |]. cbn. by rewrite Hbf.
  - rewrite (bind_ok _ _ _ _ _ E).
    destruct (mmap_build_ok rlimit file new_vmo len typ fl' q offset fixed o v) as (r & v' & Eb & Hwf' & Hr); try done; [lia | |].
    { intros a Hf. unfold fixed in Hf. destruct (is_fixed fl); [| done]. injection Hf as <-. by apply Hco. }
    exists r, v'. split; [done |]. split; [done |]. destruct r as [a|e].
    + destruct Hr as [m Hm]. by exists typ, fl, m.
    + destruct Hr as [?|(-> & a & Hf & Hc)]; [by left | right]. split; [done |].
      unfold fixed in Hf. destruct (is_fixed fl); [| done]. by injection Hf as <-.
  - exists (RErr e), v. rewrite (bind_err _ _ _ _ _ E). split_and!; [done | done | by left].
Qed.

(** [C14] mmap in a well-formed address space, for all arguments whose length rounded
    up to pages is at most [isize::MAX] (it panics above): on success the
    new mapping of whole pages lies at the returned page in user space, at the given
    address if it is fixed and else in a region that was free; it maps the memory
    that the arguments name with the permissions asked for; a file is readable if
    reading is asked for, and a shared mapping of a file that is not writable has no
    [MAY_WRITE] bit; the limit of the address space is kept; every other address
    keeps its mapping and page. Only [MAP_SHARED] makes a shared mapping: one with
    [MAP_SHARED_VALIDATE] is private. On an error nothing changes, except that a
    denied memfd may have cleared the fixed range. The call does not panic. *)
Theorem sys_mmap_exact rlimit file new_vmo addr len perms_ flags_ offset v : wf v →
  in_width USIZE_BITS addr → in_width USIZE_BITS offset → 0 ≤ len → pages_of len ≤ ISIZE_MAX →
  ∃ r v', sys_mmap rlimit file new_vmo addr len perms_ flags_ offset v = Done (r, v') ∧ wf v' ∧
  match r with
  | ROk a => ∃ typ fl m, mmap_options (flags_ mod 2 ^ 32) = Some (typ, fl) ∧
      mapped_at rlimit file new_vmo len typ
        (if VmPerms.contains fl MAP_FIXED_NOREPLACE then Z.lor fl MAP_FIXED else fl)
        (write_implies_read (from_bits_truncate perms_)) offset
        (if is_fixed fl then Some addr else None) v v' a m
  | RErr e => v' = v ∨ (e = EPERM ∧ cleared v v' addr len)
  end.
Proof. apply sys_mmap_ok. Qed.

(** *** Permission bits from user space *)

Lemma find_self l m : maps_ok l → m ∈ l → IntervalSet.find (map_to_addr m) (map_end m) l = [m].
Proof.
  intros Hmaps Hm. pose proof Hmaps as [Hc Hok]. pose proof (Hok m Hm) as [_ _ Hp _ _ _ _].
  destruct (find_todo l (map_to_addr m) (map_end m) Hmaps) as [Hnd Hin]; [unfold map_end; lia |].
  assert (∀ n, n ∈ IntervalSet.find (map_to_addr m) (map_end m) l ↔ n = m) as Hall.
  { intros n. rewrite Hin. split.
    - intros [Hn [H1 H2]]. cbn in H1, H2. destruct (IntervalSet.chain_disjoint _ l n m Hc Hn Hm) as [|[?|?]]; [done | |]; cbn in *; lia.
    - intros ->. split; [done |]. unfold map_end. split; cbn; unfold map_end; lia. }
  destruct (IntervalSet.find (map_to_addr m) (map_end m) l) as [|n [|n' ms]].
  - exfalso. by apply (not_elem_of_nil m), Hall.
  - f_equal. apply Hall. by left.
  - exfalso. assert (n = m) as -> by (apply Hall; by left). assert (n' = m) as -> by (apply Hall; right; by left).
    apply NoDup_cons in Hnd as [Hn _]. apply Hn. by left.
Qed.

(** mprotect of exactly one mapping. *)
Lemma sys_mprotect_self v m q : maps_ok (vm_mappings v) → m ∈ vm_mappings v →
  sys_mprotect (map_to_addr m) (map_size m) q v =
  protect_loop (write_implies_read (from_bits_truncate q)) (map_to_addr m) (map_end m)
    [(map_to_addr m, perms m)] v.
Proof.
  intros Hmaps Hm. pose proof Hmaps as [_ Hok]. pose proof (Hok m Hm) as [M1 M2 M3 M4 M5 _ _].
  assert ((PAGE_SIZE | map_end m)) as Me by (unfold map_end; by apply Z.divide_add_r).
  assert (pages_of (map_size m) = map_size m) as Hpo.
  { pose proof (pages_of_spec (map_size m)) as [_ Hb]. destruct (Align.round_up_least (map_size m) PAGE_SIZE) as (_ & _ & Hl);
      [unfold PAGE_SIZE; lia |]. specialize (Hl (map_size m) M2 ltac:(lia)). unfold pages_of in *. lia. }
  unfold sys_mprotect. rewrite (bind_ok _ _ _ tt v) by (apply ensure_true, Z.eqb_eq, Z.mod_divide; done).
  rewrite (proj2 (Z.eqb_neq (map_size m) 0)) by lia.
  assert (map_size m ≤ ISIZE_MAX ∧ map_end m < 2 ^ USIZE_BITS) as [Hs Hw].
  { unfold ISIZE_MAX, USIZE_BITS, map_end, VMAR_CAP_ADDR, PAGE_SIZE in *. lia. }
  rewrite (bind_ok _ _ _ tt v) by (apply ensure_true, Z.leb_le; lia).
  rewrite (bind_ok _ _ _ _ _ (page_up_ok (map_size m) v ltac:(lia))), Hpo.
  rewrite (bind_ok _ _ _ (map_end m) v) by (by apply add_or_ok). unfold protect.
  rewrite (bind_ok _ _ _ tt v) by (apply lift_ok, assert_done, Z.eqb_eq, Z.mod_divide; done).
  rewrite (bind_ok _ _ _ tt v) by (apply lift_ok, assert_done, Z.eqb_eq, Z.mod_divide; done).
  rewrite (bind_ok _ _ _ v v) by done. by rewrite find_self by done.
Qed.

Lemma sys_mmap_exact_witness : ∃ v', sys_mmap None (RErr EACCES) 0 0x11000 1 3 0x32 0 sample = Done (ROk 0x11000, v') ∧
  wf v' ∧ a_perms <$> view v' 0x11abc = Some 0x3b ∧ view v' 0x12000 = view sample 0x12000 ∧
  pt v' !! 0x10000 = Some (mkPte (Ram 3) 3).
Proof.
  destruct (sys_mmap_exact None (RErr EACCES) 0 0x11000 1 3 0x32 0 sample sample_wf) as (r & v' & E & Hwf & Hr);
    [done | done | done | by vm_compute |].
  destruct r as [a|e]; [| by vm_compute in E]. assert (a = 0x11000) as -> by (vm_compute in E; congruence).
  destruct Hr as (typ & fl & m & _ & [_ _ (Hm1 & Hm2 & _ & _) _ _ _ Hv Hp]). exists v'. split_and!; try done.
  - vm_compute in E. injection E as <-. done.
  - exact (Hp 0x10000).
Defined.

(** *** Runs of calls *)

Lemma sys_mprotect_wf v addr len q : wf v → in_width USIZE_BITS addr → in_width USIZE_BITS len → 0 ≤ q < 8 →
  ∃ r v', sys_mprotect addr len q v = Done (r, v') ∧ wf v'.
Proof.
  intros Hwf [Ha _] [Hl _] Hq. destruct (plain_bits q Hq) as [Hb Hc]. pose proof (pages_of_spec len) as [Dp Hp].
  unfold sys_mprotect. rewrite Hb. take_guard H1; [apply Z.eqb_eq, Z.mod_divide in H1; [| done] | done].
  destruct (Z.eqb_spec len 0); [by exists (ROk tt), v |].
  take_guard H2; [apply Z.leb_le in H2 | done].
  rewrite (bind_ok _ _ _ _ _ (page_up_ok len v ltac:(lia))). take_guard H3; [| done].
  destruct (protect_ok v (write_implies_read q) addr (addr + pages_of len)) as (r & v' & c & E & Hwf' & _); try done.
  - by apply Z.divide_add_r.
  - lia.
  - by exists r, v'.
Qed.

(** The behaviours that are implemented. *)
Definition implemented (behavior : Z) : Prop :=
  is_behavior behavior = true → behavior ∈ [0; 2; 3; MADV_DONTNEED; MADV_FREE; MADV_NOHUGEPAGE].

(** The behaviours that read the range into a buffer. *)
Definition reads (behavior : Z) : Prop := behavior ∈ [0; 2; 3].

Lemma fault_in_wf l : ∀ v, wf v → wf (foldl fault_in v l).
Proof.
  induction l as [|[k e] l IH]; intros v Hwf; cbn [foldl]; [done |]. apply IH. unfold fault_in.
  destruct (IntervalSet.find_one k (vm_mappings v)) as [m|] eqn:Hm; [| done].
  destruct ((k mod PAGE_SIZE =? 0) && bool_decide (entry_ok (perms m) e)) eqn:Hk; [| done].
  apply andb_true_iff in Hk as [Hk%Z.eqb_eq He%bool_decide_eq_true]. destruct Hwf as [Hmaps Hpages].
  split; [by destruct Hmaps |]. intros k' e'. cbn. rewrite lookup_insert_Some. intros [[<- <-]|[_ H']]; [| by apply Hpages].
  destruct Hmaps as [[Hc _] _]. apply (IntervalSet.find_one_exact VMAR_LOWEST_ADDR) in Hm as [Hin Hcov]; [| done].
  split; [by apply Z.mod_divide | by exists m].
Qed.

Lemma sys_madvise_wf v read start len behavior : wf v → in_width USIZE_BITS start → in_width USIZE_BITS len →
  implemented behavior → (reads behavior → heap_holds read (pages_of len) = true) → ∃ r v', sys_madvise read start len behavior v = Done (r, v') ∧ wf v'.
Proof.
  intros Hwf [Ha _] [Hl _] Hi Hh. pose proof (pages_of_spec len) as [Dp Hp]. unfold sys_madvise.
  take_guard H0; [| done]. specialize (Hi H0).
  take_guard H1; [apply Z.eqb_eq, Z.mod_divide in H1; [| done] | done].
  take_guard H2; [apply Z.leb_le in H2 | done].
  destruct (Z.eqb_spec len 0); [by exists (ROk tt), v |].
  rewrite (bind_ok _ _ _ _ _ (page_up_ok len v ltac:(lia))). take_guard H3; [| done].
  assert (∃ v', madv_free start (start + pages_of len) v = Done (ROk tt, v') ∧ wf v') as (v' & E & Hwf').
  { destruct (remove_mapping_ok v start (start + pages_of len)) as (v' & E & Hwf' & _); try done.
    - by apply Z.divide_add_r.
    - lia.
    - exists v'. unfold madv_free. by rewrite E. }
  assert (reads behavior → ∃ r v', read_range read (pages_of len) v = Done (r, v') ∧ wf v') as Hread.
  { intros Hb. unfold read_range. rewrite (Hh Hb). eexists _, _. split; [done |]. by apply fault_in_wf. }
  repeat (apply elem_of_cons in Hi as [->|Hi]); [apply Hread; unfold reads; set_solver ..| by exists (ROk tt), v | by exists (ROk tt), v'
    | by exists (ROk tt), v | by apply not_elem_of_nil in Hi].
Qed.

Inductive call : Type :=
| Munmap (addr len : Z)
| Mprotect (addr len prot : Z)
| Madvise (read : UserRead) (start len behavior : Z)
| Mmap (file : result OpenFile Errno) (new_vmo addr len prot flags_ offset : Z).

(** Any arguments, except that mprotect gets only the bits of POSIX, madvise an
    implemented behaviour with a range that the kernel heap can hold where it is
    read, and the rounded length of mmap fits in [isize]. *)
Definition arguments_ok (c : call) : Prop :=
  match c with
  | Munmap addr len => in_width USIZE_BITS addr ∧ in_width USIZE_BITS len
  | Madvise read start len behavior => in_width USIZE_BITS start ∧ in_width USIZE_BITS len ∧ implemented behavior ∧
      (reads behavior → heap_holds read (pages_of len) = true)
  | Mprotect addr len prot => in_width USIZE_BITS addr ∧ in_width USIZE_BITS len ∧ 0 ≤ prot < 8
  | Mmap _ _ addr len _ _ offset => in_width USIZE_BITS addr ∧ in_width USIZE_BITS offset ∧ 0 ≤ len ∧ pages_of len ≤ ISIZE_MAX
  end.

Definition forget {A} (o : outcome (result A Errno * Vmar)) : outcome Vmar := o ≫= λ '(_, v), Done v.

(** The address space after a call, whether it succeeds or not. *)
Definition run_call (rlimit : option Z) (c : call) (v : Vmar) : outcome Vmar :=
  match c with
  | Munmap addr len => forget (sys_munmap addr len v)
  | Mprotect addr len prot => forget (sys_mprotect addr len prot v)
  | Madvise read start len behavior => forget (sys_madvise read start len behavior v)
  | Mmap file new_vmo addr len prot flags_ offset => forget (sys_mmap rlimit file new_vmo addr len prot flags_ offset v)
  end.

Fixpoint run_calls (rlimit : option Z) (l : list call) (v : Vmar) : outcome Vmar :=
  match l with
  | [] => Done v
  | c :: l => run_call rlimit c v ≫= run_calls rlimit l
  end.

Lemma run_call_wf rlimit c v : wf v → arguments_ok c → ∃ v', run_call rlimit c v = Done v' ∧ wf v'.
Proof.
  intros Hwf Hc. destruct c; cbn in Hc |- *.
  - destruct (sys_munmap_ok v addr len Hwf) as (r & v' & -> & Hwf' & _); [tauto .. |]. by exists v'.
  - destruct (sys_mprotect_wf v addr len prot Hwf) as (r & v' & -> & Hwf'); [tauto .. |]. by exists v'.
  - destruct (sys_madvise_wf v read start len behavior Hwf) as (r & v' & -> & Hwf'); [tauto .. |]. by exists v'.
  - destruct (sys_mmap_ok rlimit file new_vmo addr len prot flags_ offset v Hwf) as (r & v' & -> & Hwf' & _); [tauto .. |].
    by exists v'.
Qed.

(** [C13] The address space of a process is well-formed after any sequence of munmap,
    mprotect, madvise and mmap calls on a fresh one, if mprotect gets no bits above
    [PROT_EXEC], madvise no behaviour that is named but not implemented and, where it
    reads the range, one that fits in the kernel heap, and mmap a length that rounds
    up to at most [isize::MAX]: no call panics, whether it succeeds or not; the
    mappings are sorted, disjoint ranges of whole user pages, with consistent
    permissions and VMO offsets that do not overflow; the accounted size is their
    sum; and every page lies in a mapping and allows no access that its mapping
    does not. *)
Theorem vmar_calls_wf rlimit calls : Forall arguments_ok calls →
  ∃ v, run_calls rlimit calls new = Done v ∧ wf v.
Proof.
  assert (wf new) as Hnew.
  { split; [split; [split; [done | by intros ? ?%not_elem_of_nil] | done] |].
    intros k e He. by destruct (lookup_empty_Some (M := gmap Z) k e). }
  revert Hnew. generalize new. induction calls as [|c calls IH]; intros v Hwf Hall; [by exists v |].
  apply Forall_cons in Hall as [Hc Hall]. cbn. destruct (run_call_wf rlimit c v Hwf Hc) as (v' & -> & Hwf').
  by apply IH.
Qed.

Lemma vmar_calls_wf_witness : ∃ v,
  run_calls None [Mmap (RErr EACCES) 0 0x20000 0x5000 3 0x32 0; Mprotect 0x21000 0x1000 1; Munmap 0x23000 1] new = Done v ∧
  wf v ∧ length (vm_mappings v) = 4%nat.
Proof.
  destruct (vmar_calls_wf None
    [Mmap (RErr EACCES) 0 0x20000 0x5000 3 0x32 0; Mprotect 0x21000 0x1000 1; Munmap 0x23000 1]) as (v & E & Hwf).
  - repeat apply Forall_cons_2; [| | | apply Forall_nil_2]; vm_compute; intuition congruence.
  - exists v. split; [done |]. split; [done |]. vm_compute in E. by injection E as <-.
Defined.

(** mprotect accepts the kernel's own [MAY_*] bits from user space: with them, any
    mapping becomes readable, writable and executable, whatever its [MAY_*] bits
    were. In particular a shared mapping of a file opened for reading gets writable
    entries for the pages of the file. *)
Theorem mprotect_bypasses_may v m : wf v → m ∈ vm_mappings v →
  perms m ≠ Z.lor VmPerms.ALL_PERMS VmPerms.ALL_MAY_PERMS →
  ∃ v', sys_mprotect (map_to_addr m) (map_size m) (Z.lor VmPerms.ALL_PERMS VmPerms.ALL_MAY_PERMS) v
      = Done (ROk tt, v') ∧ wf v' ∧
    (∀ p, covers m p → view v' p = Some (set_perms (attr m p) (Z.lor VmPerms.ALL_PERMS VmPerms.ALL_MAY_PERMS))) ∧
    (is_shared m = true → ∀ k e, covers m k → pt v !! k = Some e → pt v' !! k = Some (mkPte (item e) RWX)).
Proof.
  intros Hwf Hm Hne. pose proof Hwf as [[Hmaps Htot] Hpg]. pose proof Hmaps as [Hc Hok].
  pose proof (Hok m Hm) as Hmok. pose proof Hmok as [M1 M2 M3 M4 M5 _ [M7 _]].
  change (Z.lor VmPerms.ALL_PERMS VmPerms.ALL_MAY_PERMS) with 63 in *.
  assert (protected 63 (perms m) = 63) as Hpr.
  { unfold protected. change VmPerms.ALL_MAY_PERMS with 56. assert (perms m ∈ seqZ 0 64) as Hin by (apply elem_of_seqZ; lia).
    revert Hin. cbn. intros Hin. repeat (apply elem_of_cons in Hin as [->|Hin]; [done |]). by apply not_elem_of_nil in Hin. }
  assert ((PAGE_SIZE | map_end m)) as Me by (unfold map_end; by apply Z.divide_add_r).
  assert (map_to_addr m < map_end m) as Hlt by (unfold map_end; lia).
  assert (IntervalSet.meets (map_to_addr m) (map_end m) m) as Hmeet by (split; cbn; done).
  destruct (protect_one (map_to_addr m) (map_end m) 63 v m) as (t & v1 & v' & E1 & E2 & Hwf' & Hhas & _ & _ & Hct & Hat & Hpt); try done.
  { rewrite Hpr. lia. }
  { by rewrite Hpr. }
  exists v'. split_and!; try done.
  - rewrite sys_mprotect_self by done. change (write_implies_read (from_bits_truncate 63)) with 63. cbn [protect_loop].
    assert (Z.land (perms m) VmPerms.ALL_PERMS < 8) by (change VmPerms.ALL_PERMS with (Z.ones 3); rewrite Z.land_ones by lia; apply Z.mod_pos_bound; lia).
    rewrite (proj2 (Z.eqb_neq 63 _)) by lia. fold (protected 63 (perms m)).
    rewrite (bind_ok _ _ _ tt v) by (apply ensure_true; by rewrite Hpr).
    rewrite (bind_ok _ _ _ _ _ E1), (bind_ok _ _ _ v1 v1) by done.
    destruct (mapping_protect t (protected 63 (perms m)) (pt v1)) as [t' p'] eqn:Emp. cbn in E2.
    by rewrite (bind_ok _ _ _ tt (set_pt p' v1)), (bind_ok _ _ _ _ _ E2) by done.
  - intros p Hp. apply view_has; [apply Hwf' |]. apply Hhas. exists (attr m p). split; [by exists m |].
    rewrite VmarOps.retag_cons, decide_True by (split; [unfold covers in Hp; lia | done]). cbn. by rewrite Hpr.
  - intros Hsh k e Hk He. rewrite Hpt. unfold mapping_protect. cbn [snd]. rewrite pt_protect_lookup, He. cbn.
    assert (covers t k) as Hk' by (apply Hct; unfold covers in *; split; [lia | done]). unfold covers in Hk'.
    rewrite decide_True by done. assert (is_shared t = true) as Hst by (rewrite <- Hsh; apply (f_equal a_shared (Hat 0))).
    unfold is_cow. rewrite Hst, Hpr. done.
Qed.

Lemma mprotect_bypasses_may_witness : ∃ v', sys_mprotect 0x10000 0x4000 63 sample = Done (ROk tt, v') ∧ wf v' ∧
  a_perms <$> view v' 0x10000 = Some 63.
Proof.
  destruct (mprotect_bypasses_may sample (mkMapping (4 * PAGE_SIZE) VMAR_LOWEST_ADDR Anonymous None false false 0x3b) sample_wf)
    as (v' & E & Hwf & Hv & _); [by left | done |].
  exists v'. split_and!; try done. rewrite Hv; [done |]. vm_compute. intuition congruence.
Defined.

(** *** Panics that a process can cause *)

(** Private anonymous memory, for reading and writing. *)
Definition mmap_anon (addr len : Z) : M Z :=
  sys_mmap None (RErr EACCES) 0 addr len (Z.lor VmPerms.READ VmPerms.WRITE) (Z.lor 2 MAP_ANONYMOUS) 0.

(** The page at an address is touched, so that it is mapped. *)
Definition touch (k frame : Z) : M unit :=
  v ← get;
  put (set_pt (<[k := mkPte (Ram frame) (flags_of_perms (Z.lor VmPerms.READ VmPerms.WRITE))]> (pt v)) v).

(** System calls of an unprivileged process that panic the kernel, each from a
    fresh address space: (1) mprotect with a [MAY_*] bit over two mappings of which
    the second already has the permissions, because the first one is merged with it
    and its removal then fails; (2) brk after the last page of the heap was
    unmapped, because the mapping to enlarge is looked up there; (3) mremap with a
    length near [2 ^ 64], for any address space, because it is rounded up unchecked;
    (4) mremap that moves the last page below a node boundary of the page table to a
    lower address in the same node, because the cursor cannot return; (5) mmap with
    a length of [isize::MAX], because the rounded length is subtracted from it;
    (6) madvise with [MADV_RANDOM], for any address space, which is not implemented;
    (7) madvise with [MADV_NORMAL] of a range that the kernel heap cannot hold. *)
Theorem calls_panic :
  (a ← mmap_anon 0 (2 * PAGE_SIZE);
   sys_mprotect (a + PAGE_SIZE) PAGE_SIZE (Z.lor VmPerms.READ VmPerms.ALL_MAY_PERMS);;
   sys_mprotect a (2 * PAGE_SIZE) (Z.lor VmPerms.READ VmPerms.ALL_MAY_PERMS)) new = Panic ∧
  (e ← heap_alloc_and_map None;
   e ← brk None e (e + 2 * PAGE_SIZE);
   sys_munmap (e - PAGE_SIZE) PAGE_SIZE;;
   brk None e (e + PAGE_SIZE)) new = Panic ∧
  (∀ v rlimit new_size new_addr, new_size ≠ 0 →
     sys_mremap rlimit 0 (2 ^ USIZE_BITS - 1) new_size 0 new_addr v = Panic) ∧
  (a ← sys_mmap None (RErr EACCES) 0 0x3ff000 PAGE_SIZE 3 (Z.lor (Z.lor 2 MAP_ANONYMOUS) MAP_FIXED) 0;
   touch a 5;;
   sys_mremap None a PAGE_SIZE PAGE_SIZE (Z.lor MREMAP_MAYMOVE MREMAP_FIXED) 0x300000) new = Panic ∧
  mmap_anon 0 ISIZE_MAX new = Panic ∧
  (∀ v read, sys_madvise read 0 PAGE_SIZE MADV_RANDOM v = Panic) ∧
  (∀ v read, heap_holds read PAGE_SIZE = false → sys_madvise read 0 PAGE_SIZE 0 v = Panic).
Proof.
  split_and!; try by vm_compute.
  2: { intros v read Hh. unfold sys_madvise. do 3 rewrite (bind_ok _ _ _ tt v) by done.
       change (PAGE_SIZE =? 0) with false. cbv iota. rewrite (bind_ok _ _ _ PAGE_SIZE v), (bind_ok _ _ _ PAGE_SIZE v) by done.
       cbn. unfold read_range. by rewrite Hh. }
  intros v rlimit new_size new_addr Hn.
  unfold sys_mremap, do_sys_mremap. rewrite (bind_ok _ _ _ tt v), (bind_ok _ _ _ tt v) by done.
  rewrite (bind_ok _ _ _ tt v), (bind_ok _ _ _ tt v) by (done || (apply ensure_true, negb_true_iff, Z.eqb_neq; done)). done.
Qed.
End VmarCalls.
