(* ===== verification/VmarRemap.v ===== *)
(** * Resizing and moving mappings

    [resize_mapping] and [remap] of [Vmar], and with them mremap and brk: when they
    return, the address space is well-formed, and every page of it is one that was
    there before, under a mapping of the same kind, at the same or a moved address. *)

From stdpp Require Import gmap.
From S2P Require Import Prelude Align IntervalSet VmMapping Vmar VmarMaps VmarOps VmarBuild VmarFork VmarCalls.
Local Open Scope Z_scope.

Module VmarRemap.
Import Vmar VmarMaps VmarOps VmarBuild VmarFork VmarCalls.

(** ** Moved pages *)

(** The page at [k] of [v'] is the one at [g k] of [v]. *)
Record moved_by (g : Z → Z) (v v' : Vmar) : Prop := {
  mv_page : ∀ k e x', pt v' !! k = Some e → view v' k = Some x' → pt v !! g k = Some e ∧
    ∃ x, view v (g k) = Some x ∧ a_shared x' = a_shared x ∧ a_backing x' = a_backing x;
  mv_inj : ∀ k k' e e', pt v' !! k = Some e → pt v' !! k' = Some e' → g k = g k' → k = k';
  mv_kind : ∀ p x', view v' p = Some x' → ∃ q x, view v q = Some x ∧ a_shared x' = a_shared x ∧
    (a_backing x' = BAnonymous → a_backing x = BAnonymous)
}.
Definition moved (v v' : Vmar) : Prop := wf v' ∧ ∃ g, moved_by g v v'.

(** Mappings and pages were only removed. *)
Definition cut (v v' : Vmar) : Prop := wf v' ∧
  (∀ p x, view v' p = Some x → view v p = Some x) ∧ ∀ k e, pt v' !! k = Some e → pt v !! k = Some e.

Lemma cut_refl v : wf v → cut v v.
Proof. done. Qed.

Lemma cut_trans v v1 v2 : cut v v1 → cut v1 v2 → cut v v2.
Proof. intros (_ & C1 & C2) (Hwf & D1 & D2). split; [done |]. split; auto. Qed.

Lemma cut_moved v v1 v2 : cut v v1 → moved v1 v2 → moved v v2.
Proof.
  intros (_ & C1 & C2) [Hwf [g [G1 G2 G3]]]. split; [done |]. exists g. split; [| done |].
  - intros k e x' He Hx. destruct (G1 k e x' He Hx) as (He1 & x & Hx1 & Hs & Hb). split; [by apply C2 |].
    exists x. split_and!; [by apply C1 | done | done].
  - intros p x' Hx. destruct (G3 p x' Hx) as (q & x & Hx1 & Hs & Hb). exists q, x. split_and!; [by apply C1 | done | done].
Qed.

Lemma moved_refl v : wf v → moved v v.
Proof.
  intros Hwf. split; [done |]. exists id. split; [| done |].
  - intros k e x He Hx. split; [done |]. by exists x.
  - intros p x Hx. by exists p, x.
Qed.

Lemma cut_is_moved v v' : cut v v' → moved v v'.
Proof. intros Hc. apply (cut_moved v v'); [done | apply moved_refl, Hc]. Qed.

(** The offsets of the mapped parts of VMOs leave room for an address space behind them. *)
Definition roomy (v : Vmar) : Prop := ∀ p x vmo off, view v p = Some x → a_backing x = BVmo vmo off →
  off + VMAR_CAP_ADDR < 2 ^ USIZE_BITS.

Lemma cut_roomy v v' : cut v v' → roomy v → roomy v'.
Proof. intros (_ & C1 & _) Hr p x vmo off Hx. apply (Hr p), C1, Hx. Qed.

(** ** Running the operations *)

Lemma get_bind {B} (f : Vmar → M B) v : (get ≫= f) v = f v v.
Proof. done. Qed.

Lemma ensure_bind {B} b e (f : unit → M B) v : (ensure b e ≫= f) v = if b then f tt v else Done (RErr e, v).
Proof. by destruct b. Qed.

Lemma lift_bind {A B} (o : outcome A) (f : A → M B) v : (lift o ≫= f) v = match o with Done a => f a v | Panic => Panic end.
Proof. by destruct o. Qed.

Lemma add_or_bind {B} e a b (f : Z → M B) v :
  (add_or e a b ≫= f) v = if a + b <? 2 ^ USIZE_BITS then f (a + b) v else Done (RErr e, v).
Proof. unfold add_or, checked_add. by destruct (_ <? _). Qed.

Lemma sub_bind {B} a b (f : Z → M B) v : (sub a b ≫= f) v = if b <=? a then f (a - b) v else Panic.
Proof. unfold sub, checked_sub. by destruct (_ <=? _). Qed.

Lemma page_up_bind {B} len (f : Z → M B) v : in_width USIZE_BITS len →
  (page_up len ≫= f) v = if pages_of len <? 2 ^ USIZE_BITS then f (pages_of len) v else Panic.
Proof.
  intros Hl. unfold page_up. rewrite lift_bind, Align.align_up_eq by (done || apply page_align_valid).
  fold (pages_of len). by destruct (_ <? _).
Qed.

(** ** Truncation *)

Lemma find_nothing l a : maps_ok l → ∀ m, m ∈ IntervalSet.find a a l → m ∈ l ∧ map_to_addr m ≤ a < map_end m.
Proof.
  intros [Hc _] m. unfold IntervalSet.find.
  destruct (IntervalSet.lower_bound_spec VMAR_LOWEST_ADDR l a Hc) as (l1 & l2 & -> & -> & H1 & H2).
  assert (IntervalSet.until_end a l2 = []) as ->.
  { destruct l2 as [|n l2]; [done |]. specialize (H2 n ltac:(by left)). cbn in *. by rewrite (proj2 (Z.leb_le _ _)) by lia. }
  destruct (last l1) as [u|] eqn:Hu; [| by intros ?%not_elem_of_nil].
  apply last_Some in Hu as [l' ->]. specialize (H1 u ltac:(set_solver)). cbn in *.
  destruct (Z.ltb_spec a (map_end u)); [| by intros ?%not_elem_of_nil].
  intros ->%list_elem_of_singleton. split; [set_solver | lia].
Qed.

Lemma split_range_nothing m a : map_to_addr m ≤ a < map_end m → split_range m a a = Panic.
Proof.
  intros Hm. unfold split_range. rewrite (proj2 (Z.leb_gt (map_end m) a)), andb_false_r by lia.
  destruct (Z.ltb_spec (map_to_addr m) a).
  - destruct (split m a) as [[l w]|] eqn:Hs; [| done]. cbn.
    assert (map_to_addr w = a) as Hw.
    { unfold split in Hs. destruct (unwrap (checked_sub a (map_to_addr m))) as [d|]; [| done]. cbn in Hs.
      destruct (match mapped_mem m with Vmo vmo offset t => _ | Anonymous => _ | Device => _ end) as [mem|]; [| done]. cbn in Hs.
      destruct (unwrap (checked_sub (map_size m) d)) as [r|]; [| done]. cbn in Hs.
      destruct (non_zero d); [| done]. cbn in Hs. destruct (non_zero r); [| done]. cbn in Hs. by injection Hs as _ <-. }
    rewrite (proj2 (Z.ltb_lt a (map_end m))) by lia. unfold split, checked_sub. rewrite Hw, Z.leb_refl, Z.sub_diag. cbn.
    destruct (mapped_mem w); cbn; [| unfold checked_add; destruct (_ <? _); cbn; [| done] |]; by destruct (0 <=? map_size w).
  - assert (map_to_addr m = a) as Ha by lia. rewrite Ha, Z.leb_refl, (proj2 (Z.ltb_lt a (map_end m))) by lia. cbn.
    unfold split, checked_sub. rewrite Ha, Z.leb_refl, Z.sub_diag. cbn.
    destruct (mapped_mem m); cbn; [| unfold checked_add; destruct (_ <? _); cbn; [| done] |]; by destruct (0 <=? map_size m).
Qed.

(** Truncating an empty range changes nothing, if it returns. *)
Lemma truncate_nothing v offset r v' : wf v →
  alloc_free_region_exact_truncate offset 0 v = Done (r, v') → r = ROk offset ∧ v' = v.
Proof.
  intros [Hwf _] E. unfold alloc_free_region_exact_truncate, add in E. rewrite lift_bind in E.
  destruct (unwrap _) as [e|] eqn:He; [| done].
  assert (e = offset) as ->.
  { unfold checked_add in He. destruct (_ <? _); [| done]. injection He as <-. lia. }
  rewrite get_bind in E. pose proof (find_nothing (vm_mappings v) offset (wf_ok v Hwf)) as Hin.
  destruct (IntervalSet.find offset offset (vm_mappings v)) as [|m ms]; [by injection E as <- <- |].
  destruct (Hin m ltac:(by left)) as [Hm Hc]. exfalso. cbn [fmap list_fmap truncate_loop] in E.
  destruct (remove_mem_ok v m Hwf Hm) as (v1 & E1 & _).
  assert (take_part offset offset (map_to_addr m) v = Panic) as Ht.
  { unfold take_part. rewrite (bind_ok _ _ _ _ _ E1), lift_bind. cbn [unwrap get_intersected_range].
    rewrite Z.max_l, Z.min_l by lia. by rewrite lift_bind, split_range_nothing. }
  unfold mbind, M_bind in E. by rewrite Ht in E.
Qed.

Lemma truncate_cut v offset size r v' : wf v → 0 ≤ size → (PAGE_SIZE | offset) → (PAGE_SIZE | size) →
  alloc_free_region_exact_truncate offset size v = Done (r, v') →
  r = ROk offset ∧ cut v v' ∧ ∀ p, offset ≤ p < offset + size → view v' p = None.
Proof.
  intros Hwf Hs Do Ds E. destruct (decide (size = 0)) as [->|Hne].
  { destruct (truncate_nothing v offset r v' Hwf E) as [-> ->]. split; [done |]. split; [by apply cut_refl | lia]. }
  destruct (decide (offset + size < 2 ^ USIZE_BITS)) as [Hov|Hov].
  - destruct (truncate_ok v offset size) as (v0 & E0 & Hwf' & Hview & Hpt & _); try done; [lia |].
    rewrite E in E0. injection E0 as -> <-. split; [done |]. split; [split; [done | split] |].
    + intros p x. rewrite Hview. by case_decide.
    + intros k e. rewrite Hpt. by case_decide.
    + intros p Hp. rewrite Hview. by rewrite decide_True.
  - exfalso. unfold alloc_free_region_exact_truncate, add, checked_add in E. rewrite lift_bind in E.
    by rewrite (proj2 (Z.ltb_ge _ _)) in E by lia.
Qed.

Lemma truncate_bind {B} offset size (f : Z → M B) v r v' : wf v → 0 ≤ size → (PAGE_SIZE | offset) → (PAGE_SIZE | size) →
  (alloc_free_region_exact_truncate offset size ≫= f) v = Done (r, v') →
  ∃ v1, cut v v1 ∧ (∀ p, offset ≤ p < offset + size → view v1 p = None) ∧ f offset v1 = Done (r, v').
Proof.
  intros Hwf Hs Do Ds E. unfold mbind, M_bind in E.
  destruct (alloc_free_region_exact_truncate offset size v) as [[r1 v1]|] eqn:E1; [| done].
  destruct (truncate_cut v offset size r1 v1) as (-> & Hc & Hn); try done. by exists v1.
Qed.

(** ** Growing a mapping in place *)

Lemma wf_view v k e : wf v → pt v !! k = Some e →
  (PAGE_SIZE | k) ∧ ∃ x, view v k = Some x ∧ entry_ok (a_perms x) e.
Proof.
  intros [[Hok _] Hpg] He. apply Hpg, page_ok_has in He as (Hd & x & Hx & He). split; [done |]. exists x.
  split; [by apply view_has | done].
Qed.

(** Mappings that say nothing about the addresses of [m] are disjoint from it. *)
Lemma uncovered_disjoint l m : maps_ok l → mapping_ok m → (∀ p x, covers m p → ¬ has l p x) →
  ∀ n, n ∈ l → IntervalSet.disjoint n m.
Proof.
  intros [_ Hok] [_ _ Hm _ _ _ _] Hno n Hn. pose proof (Hok n Hn) as [_ _ Hp _ _ _ _].
  unfold IntervalSet.disjoint. cbn. destruct (decide (map_end n ≤ map_to_addr m)); [by left |].
  destruct (decide (map_end m ≤ map_to_addr n)); [by right |]. exfalso.
  assert (covers m (Z.max (map_to_addr m) (map_to_addr n))) as Hc by (unfold covers, map_end in *; lia).
  apply (Hno _ (attr n (Z.max (map_to_addr m) (map_to_addr n))) Hc). exists n. split; [done |]. split; [| done].
  unfold covers, map_end in *. lia.
Qed.

Lemma enlarge_inv m extra m' : enlarge m extra = Done m' →
  m' = with_range m (map_to_addr m) (map_size m + extra) (mapped_mem m).
Proof. unfold enlarge, checked_add. destruct (_ <? _); [| done]. by intros [= <-]. Qed.

(** A mapping of [v] may take any room that is left in user space. *)
Lemma with_range_ok v m addr size : roomy v → mapping_ok m → (∀ p, covers m p → view v p = Some (attr m p)) →
  (PAGE_SIZE | addr) → (PAGE_SIZE | size) → 0 ≤ addr → 0 < size → addr + size ≤ VMAR_CAP_ADDR →
  mapping_ok (with_range m addr size (mapped_mem m)).
Proof.
  intros Hr [M1 M2 M3 M4 M5 M6 M7] Hv Da Ds Ha Hs Hcap. split; cbn; try done.
  destruct (mapped_mem m) as [|vmo off t|] eqn:Hmem; [done | | done]. destruct M6 as (O1 & O2 & O3).
  split_and!; [done | | done].
  specialize (Hr (map_to_addr m) (attr m (map_to_addr m)) vmo off). cbn in Hr. unfold backing in Hr.
  rewrite Hmem, Z.sub_diag, Z.add_0_r in Hr.
  specialize (Hr (Hv (map_to_addr m) ltac:(unfold covers, map_end; lia)) eq_refl). lia.
Qed.

(** A mapping grows into the free region behind it. *)
Lemma grow_moved v v1 r v2 m extra : wf v → roomy v → m ∈ vm_mappings v → (PAGE_SIZE | extra) → 0 < extra →
  map_end m + extra ≤ VMAR_CAP_ADDR → free_at (vm_mappings v) (map_end m) extra →
  remove (map_to_addr m) v = Done (ROk (Some m), v1) →
  insert_try_merge (with_range m (map_to_addr m) (map_size m + extra) (mapped_mem m)) v1 = Done (r, v2) →
  moved v v2.
Proof.
  intros Hwf Hr Hm De He Hcap Hfree E1 E2. pose proof Hwf as [Hwm _]. pose proof Hwm as [Hok _].
  pose proof Hok as [Hc Hall]. pose proof (Hall m Hm) as Hmok. pose proof Hmok as [M1 M2 M3 M4 M5 _ _].
  destruct (remove_mem_ok v m Hwm Hm) as (w & E1' & Hw1 & Hp1 & Hpt1 & Hd1). rewrite E1 in E1'. injection E1' as <-.
  set (m2 := with_range m (map_to_addr m) (map_size m + extra) (mapped_mem m)) in *.
  assert (mapping_ok m2) as Hm2.
  { apply (with_range_ok v); try done; [| by apply Z.divide_add_r | lia | unfold map_end in *; lia].
    intros p Hp. apply view_has; [done |]. by exists m. }
  destruct (insert_merge_ok v1 m2) as (w & E2' & Hw2 & Hpt2 & Hhas & _); try done.
  { by destruct (IntervalSet.chain_elem _ _ _ Hc Hm). }
  { intros n Hn. specialize (Hd1 n Hn). assert (n ∈ vm_mappings v) as Hnv by (rewrite Hp1; by right).
    specialize (Hfree n Hnv). pose proof (Hall n Hnv) as [_ _ ? _ _ _ _].
    unfold IntervalSet.disjoint, IntervalSet.meets, m2, map_end in *. cbn in *. unfold map_end in *. cbn in *. lia. }
  rewrite E2 in E2'. injection E2' as -> <-.
  assert (∀ p x, has (vm_mappings v) p x → has (vm_mappings v2) p x) as Hkeep.
  { intros p x Hx. apply Hhas. apply (has_perm _ _ _ _ Hp1), has_cons in Hx as [[Hcv Ha]|Hx]; [left | by right].
    split; [| done]. unfold covers, map_end in *. cbn. lia. }
  assert (pt v2 = pt v) as Hpt by congruence.
  split; [split; [done |] | exists id; split; [| done |]].
  - intros k e. rewrite Hpt. intros Hk. apply (wf_pages v Hwf), page_ok_has in Hk as (Hd & x & Hx & Hx').
    apply page_ok_has. split; [done |]. exists x. split; [by apply Hkeep | done].
  - intros k e x'. rewrite Hpt. intros Hk Hx'. split; [done |]. destruct (wf_view v k e Hwf Hk) as (_ & x & Hx & _).
    exists x. split; [done |]. assert (x' = x) as ->; [| done]. apply (has_unique (vm_mappings v2) k); [apply Hw2 | | ].
    + apply view_has; [apply Hw2 | done].
    + apply Hkeep, view_has; done.
  - intros p x' Hx'. apply view_has, Hhas in Hx' as [[_ <-]|Hx]; [| | apply Hw2].
    + exists (map_to_addr m), (attr m (map_to_addr m)). split_and!; [| done |].
      * apply view_has; [done |]. exists m. split; [done |]. unfold covers, map_end. split; [lia | done].
      * cbn. unfold backing, m2. cbn. by destruct (mapped_mem m).
    + exists p, x'. split; [| done]. apply view_has; [done |]. apply (has_perm _ _ _ _ Hp1), has_cons. by right.
Qed.

Lemma alloc_exact_bind {B} offset size (f : Z → M B) v r v' : wf v → 0 < size → 0 ≤ offset → offset + size ≤ VMAR_CAP_ADDR →
  (alloc_free_region_exact offset size ≫= f) v = Done (r, v') →
  v' = v ∨ (free_at (vm_mappings v) offset size ∧ f offset v = Done (r, v')).
Proof.
  intros Hwf Hs Ho Hcap E. destruct (exact_free_ok v offset size) as [[E1 Hf]|[E1 _]]; try done; [apply Hwf | |].
  - rewrite (bind_ok _ _ _ _ _ E1) in E. by right.
  - rewrite (bind_err _ _ _ _ _ E1) in E. injection E as _ <-. by left.
Qed.

Lemma inner_resize_moved rlimit map_addr old_size new_size v r v' : wf v → roomy v →
  (PAGE_SIZE | map_addr) → (PAGE_SIZE | old_size) → (PAGE_SIZE | new_size) →
  0 ≤ map_addr → 0 ≤ old_size → 0 ≤ new_size →
  inner_resize_mapping rlimit map_addr old_size new_size v = Done (r, v') → moved v v'.
Proof.
  intros Hwf Hr Da Do Dn Pa Po Pn E. unfold inner_resize_mapping in E.
  destruct (Z.eqb_spec new_size 0) as [|N0]; [injection E as _ <-; by apply moved_refl |].
  destruct (Z.eqb_spec new_size old_size) as [|N1]; [injection E as _ <-; by apply moved_refl |].
  rewrite add_or_bind in E. destruct (_ <? 2 ^ USIZE_BITS); [| injection E as _ <-; by apply moved_refl].
  rewrite add_or_bind in E. destruct (_ <? 2 ^ USIZE_BITS); [| injection E as _ <-; by apply moved_refl].
  rewrite ensure_bind in E. destruct (is_userspace_vaddr _) eqn:Hu; [| injection E as _ <-; by apply moved_refl].
  unfold is_userspace_vaddr in Hu. apply andb_true_iff in Hu as [U1%Z.leb_le U2%Z.ltb_lt].
  destruct (Z.ltb_spec new_size old_size) as [Hlt|Hge].
  { apply truncate_bind in E as (v1 & Hc & _ & E); [| done | lia | by apply Z.divide_add_r |].
    2: { apply Z.divide_sub_r; by apply Z.divide_add_r. }
    injection E as _ <-. by apply cut_is_moved. }
  apply alloc_exact_bind in E as [->|[Hf E]]; [by apply moved_refl | | done | lia | lia | lia].
  rewrite get_bind, sub_bind in E. destruct (_ <=? _) eqn:H1; [| done]. rewrite lift_bind in E.
  destruct (IntervalSet.find_one _ (vm_mappings v)) as [m|] eqn:Hm; [| done]. cbn [unwrap] in E.
  apply (IntervalSet.find_one_exact VMAR_LOWEST_ADDR) in Hm as [Hm Hcov]; [| apply Hwf]. cbn in Hcov.
  assert (map_end m = map_addr + old_size) as He.
  { specialize (Hf m Hm). unfold IntervalSet.meets in Hf. cbn in Hf. lia. }
  destruct (check_extra_ok rlimit (map_addr + new_size - (map_addr + old_size)) v) as [[E1 _]|E1].
  2: { rewrite (bind_err _ _ _ _ _ E1) in E. injection E as _ <-. by apply moved_refl. }
  rewrite (bind_ok _ _ _ _ _ E1) in E.
  destruct (remove_mem_ok v m) as (v1 & E2 & Hw1 & _); [apply Hwf | done |].
  rewrite (bind_ok _ _ _ _ _ E2), lift_bind in E. cbn [unwrap] in E. rewrite lift_bind in E.
  destruct (enlarge m _) as [m2|] eqn:Hen; [| done]. apply enlarge_inv in Hen as ->.
  apply (grow_moved v v1 r v' m (map_addr + new_size - (map_addr + old_size))); try done; [| lia | lia | by rewrite He].
  apply Z.divide_sub_r; by apply Z.divide_add_r.
Qed.

Lemma resize_moved rlimit map_addr old_size new_size single v r v' : wf v → roomy v →
  (PAGE_SIZE | map_addr) → (PAGE_SIZE | old_size) → (PAGE_SIZE | new_size) →
  0 ≤ map_addr → 0 ≤ old_size → 0 ≤ new_size →
  resize_mapping rlimit map_addr old_size new_size single v = Done (r, v') → moved v v'.
Proof.
  intros Hwf Hr Da Do Dn Pa Po Pn E. unfold resize_mapping in E.
  assert (∀ m : M unit, (∃ r0, m v = Done (r0, v)) → (m ≫= λ _, inner_resize_mapping rlimit map_addr old_size new_size) v = Done (r, v') →
    moved v v') as Hafter.
  { intros m [[[]|e] Em] Eb; [rewrite (bind_ok _ _ _ _ _ Em) in Eb; by eapply inner_resize_moved in Eb |].
    rewrite (bind_err _ _ _ _ _ Em) in Eb. injection Eb as _ <-. by apply moved_refl. }
  apply Hafter in E; [done |]. destruct single.
  - unfold check_lies_in_single_mapping. unfold mbind, M_bind, get.
    destruct (IntervalSet.find_one map_addr (vm_mappings v)) as [m|]; [destruct (_ <=? _) |]; by eexists.
  - rewrite get_bind. destruct (IntervalSet.find_one map_addr (vm_mappings v)); by eexists.
Qed.

(** ** Moving pages *)

Lemma move_pages_ok fuel span old size new position c p p' : aligned_keys p →
  (PAGE_SIZE | old) → (PAGE_SIZE | new) → (PAGE_SIZE | size) → (PAGE_SIZE | c) → 0 ≤ c →
  old + size ≤ new ∨ new + size ≤ old → (∀ k, new + c ≤ k < new + size → p !! k = None) →
  move_pages fuel span old size new position c p = Done p' →
  ∀ k, p' !! k = if decide (new + c ≤ k < new + size) then p !! (k - new + old)
                 else if decide (old + c ≤ k < old + size) then None else p !! k.
Proof.
  intros Hal Do Dn Ds Dc Pc Hdis. revert position c p p' Hal Dc Pc.
  induction fuel as [|fuel IH]; intros position c p p' Hal Dc Pc Hfree; cbn [move_pages]; [done |].
  destruct (Z.ltb_spec c size) as [Hc|Hc].
  2: { intros [= <-] k. by rewrite !decide_False by lia. }
  destruct (cursor_jump _ _ _); [| done]. cbn [mbind outcome_bind].
  assert (Z.of_nat (page_count (size - c)) * PAGE_SIZE = size - c) as Hn.
  { assert ((PAGE_SIZE | size - c)) as [q Hq] by (by apply Z.divide_sub_r). unfold page_count. rewrite Hq, Z.div_mul by done.
    unfold PAGE_SIZE in *. lia. }
  assert ((PAGE_SIZE | old + c)) as Dva by (by apply Z.divide_add_r).
  pose proof (find_next_ok (page_count (size - c)) (old + c) p Hal Dva) as Hfn.
  destruct (find_next _ _ p) as [[w e]|]; rewrite Hn in Hfn.
  2: { intros [= <-] k. repeat case_decide; [rewrite Hfree, Hfn by lia; done | apply Hfn; lia | done]. }
  destruct Hfn as (Hw & He & Hbefore). destruct (cursor_jump _ _ _); [| done]. cbn [mbind outcome_bind].
  pose proof (Hal w e He) as Dw. set (p1 := <[new + (w - old) := e]> (delete w p)).
  assert (∀ k, p1 !! k = if decide (k = new + (w - old)) then Some e else if decide (k = w) then None else p !! k) as Hp1.
  { intros k. unfold p1. rewrite lookup_insert, lookup_delete. repeat case_decide; congruence. }
  assert (∀ k, old + c ≤ k < w + PAGE_SIZE → k ≠ w → p !! k = None) as Hgap.
  { intros k Hk Hne. destruct (decide (k < w)); [apply Hbefore; lia |]. destruct (p !! k) as [e'|] eqn:Hk'; [| done].
    pose proof (page_gap w k Dw (Hal k e' Hk') ltac:(lia)). lia. }
  intros E. assert (aligned_keys p1) as Hal1.
  { intros k e'. rewrite Hp1. repeat case_decide; subst; [| done | apply Hal].
    intros _. apply Z.divide_add_r; [done |]. by apply Z.divide_sub_r. }
  pose proof (λ pos, IH pos (w - old + PAGE_SIZE) p1 p' Hal1) as IHk.
  assert (∀ k, new + (w - old + PAGE_SIZE) ≤ k < new + size → p1 !! k = None) as Hfree1.
  { intros k Hk. rewrite Hp1. unfold PAGE_SIZE in *. rewrite !decide_False by lia. apply Hfree. lia. }
  assert (w + PAGE_SIZE ≤ old + size) as Hwe by (apply page_gap; [done | by apply Z.divide_add_r | lia]).
  assert ((PAGE_SIZE | w - old + PAGE_SIZE)) as Dc1 by (apply Z.divide_add_r; [by apply Z.divide_sub_r | done]).
  intros k. rewrite (IHk _ Dc1 ltac:(unfold PAGE_SIZE; lia) Hfree1 E), !Hp1. clear IH IHk E.
  unfold PAGE_SIZE in *. repeat case_decide; subst; try lia; try done;
      try (by rewrite Hfree by lia); try (by rewrite Hgap by lia).
  - rewrite <- He. f_equal. lia.
  - by rewrite Hfree, Hgap by lia.
Qed.

(** ** Moving a mapping *)

(** The range of [remap] is inside the mapping, whose part in it is taken out. *)
Lemma take_part_bind {B} (f : VmMapping → M B) v m a b : wf_maps v → m ∈ vm_mappings v →
  map_to_addr m ≤ a → b ≤ map_end m →
  (o ← remove (map_to_addr m);
   vm_mapping ← lift (unwrap o);
   '(l, t, r) ← lift (split_range vm_mapping a b);
   put_back l;; put_back r;; f t) v = (take_part a b (map_to_addr m) ≫= f) v.
Proof.
  intros Hwf Hm Ha Hb. destruct (remove_mem_ok v m Hwf Hm) as (v1 & E & _).
  unfold take_part, mbind, M_bind, lift, get_intersected_range. rewrite E. cbn [unwrap]. rewrite Z.max_l, Z.min_l by done.
  destruct (split_range m a b) as [[[l t] r]|]; [| done].
  destruct (put_back l v1) as [[[] v2]|]; [| done | done]. by destruct (put_back r v2) as [[[] v3]|].
Qed.

Lemma lies_in_bind {B} addr size (f : Z → M B) v r v' : wf v →
  (check_lies_in_single_mapping addr size ≫= f) v = Done (r, v') →
  v' = v ∨ ∃ m, m ∈ vm_mappings v ∧ covers m addr ∧ addr + size ≤ map_end m ∧ f (map_to_addr m) v = Done (r, v').
Proof.
  intros Hwf. unfold check_lies_in_single_mapping, mbind, M_bind, get.
  destruct (IntervalSet.find_one addr (vm_mappings v)) as [m|] eqn:Hm; [| intros [= _ <-]; by left].
  apply (IntervalSet.find_one_exact VMAR_LOWEST_ADDR) in Hm as [Hm Hc]; [| apply Hwf].
  destruct (Z.leb_spec size (map_end m - addr)); [| intros [= _ <-]; by left].
  intros E. right. exists m. split_and!; [done | done | lia | done].
Qed.

(** The target is free, and the rest was at most cut. *)
Lemma target_bind {B} old_addr old_end new_addr size (f : Z → M B) v r v' : wf v → 0 < size → (PAGE_SIZE | size) →
  (remap_target old_addr old_end new_addr size ≫= f) v = Done (r, v') → v' = v ∨
  ∃ a v1, cut v v1 ∧ (PAGE_SIZE | a) ∧ VMAR_LOWEST_ADDR ≤ a ∧ a + size ≤ VMAR_CAP_ADDR ∧
    free_at (vm_mappings v1) a size ∧ f a v1 = Done (r, v').
Proof.
  intros Hwf Hs Ds. destruct new_addr as [a|]; cbn [remap_target].
  - unfold mbind at 1. unfold M_bind at 1. rewrite add_or_bind.
    destruct (_ <? _); [| intros [= _ <-]; by left]. rewrite ensure_bind.
    destruct (_ && _ && _) eqn:Hu; [| intros [= _ <-]; by left]. rewrite ensure_bind.
    destruct (negb _); [| intros [= _ <-]; by left]. intros E. right.
    apply andb_true_iff in Hu as [[Da%Z.eqb_eq U1]%andb_true_iff U2]. unfold is_userspace_vaddr in U1, U2.
    apply andb_true_iff in U1 as [U1%Z.leb_le _], U2 as [_ U2%Z.ltb_lt]. apply Z.mod_divide in Da; [| done].
    destruct (alloc_free_region_exact_truncate a size v) as [[r1 v1]|] eqn:E1; [| done].
    destruct (truncate_cut v a size r1 v1) as (-> & Hc & Hn); try done; [lia |]. exists a, v1.
    split_and!; [done | done | done | lia | | done]. apply free_view; [apply Hc | done | done].
  - destruct (alloc_free_region_ok v size PAGE_SIZE) as [(a & E1 & Da & Hl & Hh & Hf)|[E1 _]]; [apply Hwf | done | apply page_align_valid | |].
    + rewrite (bind_ok _ _ _ _ _ E1). intros E. right. exists a, v. split_and!; [by apply cut_refl | done ..].
    + rewrite (bind_err _ _ _ _ _ E1). intros [= _ <-]. by left.
Qed.

(** The part [t] of [v], at [old], becomes the mapping [t'] at [new], where [v] has
    nothing, and its pages follow. *)
Section relocate.
Context (v v' : Vmar) (t t' : VmMapping) (rest : list VmMapping).
Context (old new size : Z) (Hold : map_to_addr t = old) (Hto : map_to_addr t' = new) (Hsize : map_size t = size).
Hypothesis Hwf : wf v.
Hypothesis Hmaps : wf_maps v'.
Hypothesis Ht : mapping_ok t.
Hypothesis Hnew : (PAGE_SIZE | new).
Hypothesis Hgrow : map_size t ≤ map_size t'.
Hypothesis Hfree : free_at (vm_mappings v) new (map_size t').
Hypothesis Hattr : ∀ p, attr t' (p - old + new) = attr t p.
Hypothesis Hsplit : ∀ p x, has (vm_mappings v) p x ↔ (covers t p ∧ attr t p = x) ∨ has rest p x.
Hypothesis Hjoin : ∀ p x, has (vm_mappings v') p x ↔ (covers t' p ∧ attr t' p = x) ∨ has rest p x.
Hypothesis Hpages : ∀ k, pt v' !! k =
  if decide (new ≤ k < new + size) then pt v !! (k - new + old)
  else if decide (old ≤ k < old + size) then None else pt v !! k.

Lemma relocate_origin k e : pt v' !! k = Some e →
  (new ≤ k < new + size ∧ pt v !! (k - new + old) = Some e ∧
     has (vm_mappings v) (k - new + old) (attr t (k - new + old)) ∧ has (vm_mappings v') k (attr t (k - new + old))) ∨
  (¬ new ≤ k < new + size ∧ ¬ old ≤ k < old + size ∧ pt v !! k = Some e ∧
     ∀ x, has (vm_mappings v) k x → has (vm_mappings v') k x).
Proof.
  rewrite Hpages. case_decide as Hn; [| case_decide as Ho; [done |]]; intros He.
  - left. split; [done |]. split; [done |]. split.
    + apply Hsplit. left. split; [| done]. unfold covers, map_end. rewrite Hold, Hsize. lia.
    + apply Hjoin. left. split; [unfold covers, map_end; rewrite Hto; lia |].
      rewrite <- Hattr. f_equal. lia.
  - right. split; [done |]. split; [done |]. split; [done |]. intros x Hx. apply Hjoin. right. apply Hsplit in Hx as [[Hc _]|]; [| done].
    unfold covers, map_end in Hc. rewrite Hold, Hsize in Hc. lia.
Qed.

Lemma relocate_page k e : pt v' !! k = Some e → (PAGE_SIZE | k) ∧ ∃ q x, pt v !! q = Some e ∧
  q = (if decide (new ≤ k < new + size) then k - new + old else k) ∧
  has (vm_mappings v) q x ∧ has (vm_mappings v') k x ∧ entry_ok (a_perms x) e.
Proof.
  intros He. destruct (relocate_origin k e He) as [(Hn & He0 & H1 & H2)|(Hn & Ho & He0 & Hx)];
    destruct (wf_view v _ e Hwf He0) as (Hd & x & Hx0 & Hen); apply view_has in Hx0; try apply Hwf.
  - split.
    { replace k with ((k - new + old) - old + new) by lia. apply Z.divide_add_r; [| done]. apply Z.divide_sub_r; [done |]. rewrite <- Hold. apply Ht. }
    assert (x = attr t (k - new + old)) as -> by (by apply (has_unique (vm_mappings v) (k - new + old)); [apply Hwf | ..]).
    exists (k - new + old), (attr t (k - new + old)). by rewrite decide_True.
  - split; [done |]. exists k, x. rewrite decide_False by done. auto 6.
Qed.

Lemma relocate_moved : moved v v'.
Proof.
  pose proof Ht as [T1 T2 T3 T4 _ _ _]. rewrite ?Hold, ?Hsize in T1, T2, T3, T4.
  assert (old + size ≤ new ∨ new + size ≤ old) as Hdis.
  { destruct (decide (old + size ≤ new)); [by left |]. destruct (decide (new + size ≤ old)); [by right |]. exfalso.
    assert (has (vm_mappings v) (Z.max old new) (attr t (Z.max old new))) as (m & Hm & Hc & _).
    { apply Hsplit. left. split; [| done]. unfold covers, map_end. rewrite Hold, Hsize. lia. }
    apply (Hfree m Hm). unfold covers in Hc. split; cbn; lia. }
  split; [split; [done |] | exists (λ k, if decide (new ≤ k < new + size) then k - new + old else k); split].
  - intros k e He. destruct (relocate_page k e He) as (Hd & q & x & _ & _ & _ & Hx & Hen).
    apply page_ok_has. split; [done |]. by exists x.
  - intros k e x' He Hx'. destruct (relocate_page k e He) as (_ & q & x & Hq & <- & Hx & Hx2 & _). split; [done |].
    exists x. split; [by apply view_has; [apply Hwf |] |]. apply view_has in Hx'; [| apply Hmaps].
    by rewrite (has_unique (vm_mappings v') k x' x) by (done || apply Hmaps).
  - intros k k' e e' He He'. destruct (relocate_origin k e He) as [(? & _)|(? & ? & _)];
      destruct (relocate_origin k' e' He') as [(? & _)|(? & ? & _)]; repeat case_decide; lia.
  - intros p x' Hx'. apply view_has, Hjoin in Hx' as [[_ <-]|Hx]; [| | apply Hmaps].
    + exists old, (attr t old). split.
      { apply view_has; [apply Hwf |]. apply Hsplit. left. split; [| done]. unfold covers, map_end. rewrite Hold, Hsize. lia. }
      pose proof (Hattr old) as Ha. unfold attr in Ha. injection Ha as Hb Hs _ _. split; [done |].
      cbn. rewrite <- Hb. unfold backing. by destruct (mapped_mem t').
    + exists p, x'. split; [| done]. apply view_has; [apply Hwf |]. apply Hsplit. by right.
Qed.
End relocate.

(** The last part of [remap]: the mapping around the old range is known, the target is free. *)
Lemma remap_tail v m old size new nsize r v' : wf v → roomy v → m ∈ vm_mappings v →
  covers m old → old + size ≤ map_end m → 0 < size → size ≤ nsize →
  (PAGE_SIZE | old) → (PAGE_SIZE | size) → (PAGE_SIZE | nsize) → (PAGE_SIZE | new) →
  VMAR_LOWEST_ADDR ≤ new → new + nsize ≤ VMAR_CAP_ADDR → free_at (vm_mappings v) new nsize →
  (take_part old (old + size) (map_to_addr m) ≫= λ old_mapping,
   extra ← sub nsize size;
   new_mapping ← lift (enlarge (clone_for_remap_at old_mapping new) extra);
   insert_try_merge new_mapping;;
   let a := Z.min old new in
   let b := Z.max (old + size) (new + nsize) in
   v ← get;
   p ← lift (move_pages (S (page_count size)) (guard_span a b) old size new a 0 (pt v));
   put (set_pt p v);;
   mret new) v = Done (r, v') → moved v v'.
Proof.
  intros Hwf Hr Hm Hc He Hs Hns Do Ds Dns Dn Hlo Hhi Hfree E. unfold covers in Hc.
  destruct (take_part_ok v old (old + size) m) as (t & v3 & E1 & Hw3 & Hpt3 & (Htok & T1 & T2 & Ta) & _ & Hhas & _);
    [apply Hwf | done | split; cbn; lia | lia | done | by apply Z.divide_add_r |].
  rewrite Z.max_l in T1 by lia. rewrite Z.min_l in T2 by lia.
  assert (map_size t = size) as T3 by (unfold map_end in T2; lia).
  rewrite (bind_ok _ _ _ _ _ E1), sub_bind, (proj2 (Z.leb_le _ _)), lift_bind in E by done.
  destruct (enlarge _ _) as [t'|] eqn:Hen; [| done]. apply enlarge_inv in Hen. cbn in Hen.
  assert (t' = with_range t new nsize (mapped_mem t)) as ->.
  { rewrite Hen. unfold with_range. cbn. f_equal. lia. }
  clear Hen. set (t' := with_range t new nsize (mapped_mem t)) in *.
  assert (mapping_ok t') as Ht'.
  { apply (with_range_ok v); try done; [| unfold VMAR_LOWEST_ADDR in *; lia | lia].
    intros p Hp. apply view_has; [apply Hwf |]. apply Hhas. by left. }
  assert (∀ p x, covers t' p → ¬ has (vm_mappings v3) p x) as Hno.
  { intros p x Hp Hx. assert (has (vm_mappings v) p x) as (n & Hn & Hcn & _) by (apply Hhas; by right).
    apply (Hfree n Hn). unfold covers, map_end in *. cbn in Hp. split; cbn; unfold map_end; lia. }
  destruct (insert_merge_ok v3 t') as (v4 & E4 & Hw4 & Hpt4 & Hhas4 & _); [done | done | done | |].
  { apply uncovered_disjoint; [apply Hw3 | done | done]. }
  rewrite (bind_ok _ _ _ _ _ E4), get_bind, lift_bind in E.
  destruct (move_pages _ _ _ _ _ _ _ _) as [p'|] eqn:Hmp; [| done]. injection E as _ <-.
  assert (old + size ≤ new ∨ new + size ≤ old) as Hdis.
  { specialize (Hfree m Hm). unfold IntervalSet.meets in Hfree. cbn in Hfree. lia. }
  apply (relocate_moved v (set_pt p' v4) t t' (vm_mappings v3) old new size); try done.
  - split; [apply Hw4 | apply Hw4].
  - cbn. lia.
  - intros p. unfold attr, backing, t'. cbn. f_equal. destruct (mapped_mem t); [done | f_equal; lia | done].
  - intros k. cbn. eapply move_pages_ok in Hmp; [rewrite Hmp, !Z.add_0_r | ..]; try done.
    + by rewrite Hpt4, Hpt3.
    + rewrite Hpt4, Hpt3. intros k' e He'. by apply (wf_view v k' e).
    + by exists 0.
    + intros k' Hk. rewrite Hpt4, Hpt3. apply (free_pages v new nsize); [done | done | lia].
Qed.

Lemma bind_assoc {A B C} (m : M A) (g : A → M B) (f : B → M C) v : ((m ≫= g) ≫= f) v = (m ≫= λ a, g a ≫= f) v.
Proof. unfold mbind, M_bind. by destruct (m v) as [[[] ?]|]. Qed.

(** [remap] once the old range is no longer than the new one *)
Lemma remap_rest old_addr old_size new_addr new_size v r v' : wf v → roomy v →
  (PAGE_SIZE | old_addr) → (PAGE_SIZE | old_size) → (PAGE_SIZE | new_size) →
  0 < old_size → old_size ≤ new_size →
  (new_start ← remap_target old_addr (old_addr + old_size) new_addr new_size;
   old_mapping_addr ← check_lies_in_single_mapping old_addr old_size;
   o ← remove old_mapping_addr;
   vm_mapping ← lift (unwrap o);
   '(l, old_mapping, r) ← lift (split_range vm_mapping old_addr (old_addr + old_size));
   put_back l;;
   put_back r;;
   extra ← sub new_size old_size;
   new_mapping ← lift (enlarge (clone_for_remap_at old_mapping new_start) extra);
   insert_try_merge new_mapping;;
   let a := Z.min old_addr new_start in
   let b := Z.max (old_addr + old_size) (new_start + new_size) in
   v ← get;
   p ← lift (move_pages (S (page_count old_size)) (guard_span a b) old_addr old_size new_start a 0 (pt v));
   put (set_pt p v);;
   mret new_start) v = Done (r, v') → moved v v'.
Proof.
  intros Hwf Hr Da Do Dn Po Hle E.
  apply target_bind in E as [->|(new & v1 & Hcut & Dnew & Hlo & Hhi & Hfree & E)]; [by apply moved_refl | | done | lia | done].
  apply (cut_moved v v1); [done |]. pose proof Hcut as [Hwf1 _].
  apply lies_in_bind in E as [->|(m & Hm & Hc & He & E)]; [by apply moved_refl | | done].
  rewrite take_part_bind in E; [| apply Hwf1 | done | apply Hc | done].
  apply (remap_tail v1 m old_addr old_size new new_size r v'); try done. by apply (cut_roomy v).
Qed.

Lemma remap_moved old_addr old_size new_addr new_size v r v' : wf v → roomy v →
  (PAGE_SIZE | old_addr) → (PAGE_SIZE | old_size) → (PAGE_SIZE | new_size) →
  0 < old_size → 0 < new_size →
  remap old_addr old_size new_addr new_size v = Done (r, v') → moved v v'.
Proof.
  intros Hwf Hr Da Do Dn Po Pn E. unfold remap in E. rewrite get_bind in E.
  destruct (IntervalSet.find_one old_addr (vm_mappings v)) as [m0|]; [| injection E as _ <-; by apply moved_refl].
  rewrite ensure_bind in E. destruct (negb _); [| injection E as _ <-; by apply moved_refl].
  rewrite add_or_bind in E. destruct (_ <? 2 ^ USIZE_BITS); [| injection E as _ <-; by apply moved_refl].
  destruct (Z.ltb_spec new_size old_size) as [Hlt|Hge].
  - rewrite bind_assoc in E. apply truncate_bind in E as (v1 & Hcut & _ & E);
      [| done | lia | by apply Z.divide_add_r | by apply Z.divide_sub_r].
    apply (cut_moved v v1); [done |]. pose proof Hcut as [Hwf1 _].
    apply (remap_rest old_addr new_size new_addr new_size v1 r v'); try done. by apply (cut_roomy v).
  - by apply (remap_rest old_addr old_size new_addr new_size v r v').
Qed.

(** ** The system calls *)

Lemma pages_of_pos len : 0 ≤ len → 0 ≤ pages_of len ∧ (len ≠ 0 → 0 < pages_of len) ∧ (PAGE_SIZE | pages_of len).
Proof. intros Hl. destruct (pages_of_spec len) as [Hd Hb]. split; [lia |]. split; [lia | done]. Qed.

(** The arguments of mremap are machine words. *)
Lemma mremap_moved rlimit old_addr old_size new_size flags_ new_addr v r v' : wf v → roomy v →
  0 ≤ old_addr → in_width USIZE_BITS old_size → in_width USIZE_BITS new_size →
  sys_mremap rlimit old_addr old_size new_size flags_ new_addr v = Done (r, v') → moved v v'.
Proof.
  intros Hwf Hr Ha Ho Hn E. unfold sys_mremap, do_sys_mremap in E.
  rewrite ensure_bind in E. destruct (_ =? flags_); [| injection E as _ <-; by apply moved_refl].
  rewrite ensure_bind in E. destruct (Z.eqb_spec (old_addr mod PAGE_SIZE) 0) as [Da|]; [| injection E as _ <-; by apply moved_refl].
  apply Z.mod_divide in Da; [| done].
  rewrite ensure_bind in E. destruct (Z.eqb_spec new_size 0) as [|N0]; [injection E as _ <-; by apply moved_refl |].
  rewrite ensure_bind in E. destruct (Z.eqb_spec old_size 0) as [|N1]; [injection E as _ <-; by apply moved_refl |].
  cbn [negb] in E. rewrite page_up_bind in E by done. destruct (_ <? 2 ^ USIZE_BITS); [| done].
  rewrite page_up_bind in E by done. destruct (_ <? 2 ^ USIZE_BITS); [| done].
  destruct (pages_of_pos old_size) as (O1 & O2 & O3); [apply Ho |]. destruct (pages_of_pos new_size) as (P1 & P2 & P3); [apply Hn |].
  specialize (O2 N1). specialize (P2 N0).
  assert (∀ single, (resize_mapping rlimit old_addr (pages_of old_size) (pages_of new_size) single;; mret old_addr) v = Done (r, v') →
    moved v v') as Hresize.
  { intros single Er. unfold mbind, M_bind in Er. destruct (resize_mapping _ _ _ _ _ v) as [[[] v1]|] eqn:E1; [| | done];
      injection Er as _ <-; by eapply resize_moved in E1. }
  destruct (_ && _); [by eapply Hresize |]. destruct (VmPerms.contains flags_ MREMAP_MAYMOVE).
  - destruct (VmPerms.contains flags_ MREMAP_FIXED); by eapply remap_moved in E.
  - rewrite ensure_bind in E. destruct (negb _); [by eapply Hresize | injection E as _ <-; by apply moved_refl].
Qed.

Lemma brk_moved rlimit current new_ v r v' : wf v → roomy v →
  in_width USIZE_BITS current → in_width USIZE_BITS new_ →
  brk rlimit current new_ v = Done (r, v') → moved v v'.
Proof.
  intros Hwf Hr Hc Hn E. unfold brk in E. rewrite ensure_bind in E.
  destruct (_ <=? _); [| injection E as _ <-; by apply moved_refl].
  destruct (Z.leb_spec new_ current) as [|Hlt]; [injection E as _ <-; by apply moved_refl |].
  rewrite page_up_bind in E by done. destruct (_ <? 2 ^ USIZE_BITS); [| done].
  rewrite page_up_bind in E by done. destruct (_ <? 2 ^ USIZE_BITS); [| done].
  destruct (pages_of_pos current) as (C1 & _ & C3); [apply Hc |]. destruct (pages_of_pos new_) as (N1 & _ & N3); [apply Hn |].
  unfold remove_mapping in E. rewrite bind_assoc in E.
  apply truncate_bind in E as (v1 & Hcut & _ & E); [| done | | done |].
  2: { unfold range_len. destruct (Z.leb_spec (pages_of current) (pages_of new_)); lia. }
  2: { unfold range_len. destruct (_ <=? _); [by apply Z.divide_sub_r | by exists 0]. }
  apply (cut_moved v v1); [done |]. pose proof Hcut as [Hwf1 _].
  rewrite (bind_ok _ _ _ tt v1), sub_bind in E by done. destruct (Z.leb_spec USER_HEAP_BASE (pages_of current)); [| done].
  rewrite sub_bind in E. destruct (Z.leb_spec USER_HEAP_BASE (pages_of new_)); [| done].
  assert ((PAGE_SIZE | USER_HEAP_BASE)) as Db by (by exists 0x10000).
  unfold mbind, M_bind in E. destruct (resize_mapping _ _ _ _ _ v1) as [[[] v2]|] eqn:E1; [| | done];
    injection E as _ <-; eapply resize_moved in E1; try done; try (by apply (cut_roomy v)); try (by apply Z.divide_sub_r); lia.
Qed.
End VmarRemap.
