(* ===== verification/PageFault.v ===== *)
(** * Page faults

    The page fault handler of [kernel/src/vm/vmar/vm_mapping.rs] with the VMOs of
    [kernel/src/vm/vmo/mod.rs] that it takes pages from. The state has the address
    spaces of all processes, because the handler counts the references to a frame:
    a frame is referenced by the page table entries that map it, by the VMOs that
    hold it and by the page caches of their pagers. A frame's content is one number. *)

From stdpp Require Import gmap.
From S2P Require Import Prelude IntervalSet VmMapping Vmar.
Local Open Scope Z_scope.

Module PageFault.
Import Vmar.

(** The state of a page of the page cache *)
Inductive PageState : Type := Uninit | UpToDate | Dirty.

(** [BioStatus] of a request that the device has answered; before, it is [Submit] *)
Inductive BioStatus : Type := Complete | NotSupported | NoSpace | IoError.

Record ReadaheadWindow : Type := mkWindow { window_start : Z; window_end : Z; lookahead_index : Z }.

(** [waiter] has the answer that each of the requests gets. *)
Record ReadaheadState : Type := mkRa {
  ra_window : option ReadaheadWindow;
  max_size : Z;
  prev_page : option Z;
  waiter : list BioStatus
}.

Definition DEFAULT_MAX_SIZE : Z := 32.
Definition INIT_WINDOW_SIZE : Z := 4.
Definition ra_new : ReadaheadState := mkRa None DEFAULT_MAX_SIZE None [].

(** [Vmo]: its size, its committed pages, and, if it has a pager, the pages that
    the pager holds with their states, and the state of its readahead *)
Record VmoState : Type := mkVmo {
  v_size : Z;
  has_pager : bool;
  v_pages : gmap Z Z;
  pager_pages : gmap Z Z;
  page_states : gmap Z PageState;
  ra_state : ReadaheadState
}.

(** [Vmo] as it is created *)
Definition vmo_new (size : Z) (pager : bool) : VmoState := mkVmo size pager ∅ ∅ ∅ ra_new.

Record Sys : Type := mkSys {
  procs : gmap Z Vmar;
  vmos : gmap Z VmoState;
  contents : gmap Z Z;
  free : list Z
}.

Definition set_procs (p : gmap Z Vmar) (s : Sys) : Sys := mkSys p (vmos s) (contents s) (free s).
Definition set_vmos (w : gmap Z VmoState) (s : Sys) : Sys := mkSys (procs s) w (contents s) (free s).

(** ** Frames *)

Definition content (s : Sys) (f : Z) : Z := default 0 (contents s !! f).

(** [FrameAllocOptions::alloc_frame], with the content of the new frame *)
Definition alloc_frame (c : Z) (s : Sys) : option (Z * Sys) :=
  match free s with
  | [] => None
  | f :: r => Some (f, mkSys (procs s) (vmos s) (<[f := c]> (contents s)) r)
  end.

Definition duplicate_frame (src : Z) (s : Sys) : option (Z * Sys) := alloc_frame (content s src) s.

Definition maps_frame (f : Z) (e : Pte) : bool :=
  match item e with Ram g => g =? f | Io _ => false end.

Definition pt_refs (f : Z) (p : gmap Z Pte) : nat :=
  length (List.filter (λ kv, maps_frame f kv.2) (map_to_list p)).
Definition vmo_refs (f : Z) (w : VmoState) : nat :=
  length (List.filter (λ kv, kv.2 =? f) (map_to_list (v_pages w)))
  + length (List.filter (λ kv, kv.2 =? f) (map_to_list (pager_pages w))).

(** The references of the page tables, the VMOs and the pagers to a frame. *)
Definition references (f : Z) (s : Sys) : nat :=
  (sum_list_with (λ iv, pt_refs f (pt iv.2)) (map_to_list (procs s))
   + sum_list_with (λ iw, vmo_refs f iw.2) (map_to_list (vmos s)))%nat.

(** [frame.reference_count()], held in a handle; [extra] counts handles elsewhere. *)
Definition reference_count (extra : nat) (f : Z) (s : Sys) : nat := S (references f s + extra).

(** ** VMOs *)

Inductive VmoCommitError : Type := CommitErr (e : Errno) | NeedIo (index : Z).

Definition vmo_of (s : Sys) (vmo : Z) : VmoState := default (vmo_new 0 false) (vmos s !! vmo).
Definition put_vmo (vmo : Z) (w : VmoState) (s : Sys) : Sys := set_vmos (<[vmo := w]> (vmos s)) s.

(** *** The page cache

    Page indices are below [2 ^ 52], so that sums of them do not overflow. *)

(** [PageCacheBackend]: the number of pages of the file; the requests for the read of a
    page with the answers that they get, or an error; the content that the read gives; and
    whether the device has answered all pending requests of a file at some moment. The
    file keeps its length while a page is committed. *)
Record Backend : Type := mkBackend {
  npages : Z → Z;
  read_page_async : Z → Z → result (list BioStatus) Errno;
  page_data : Z → Z → Z;
  answered : Sys → Z → bool
}.

(** [BioWaiter::wait] *)
Definition is_complete (b : BioStatus) : bool := match b with Complete => true | _ => false end.
Definition wait (bios : list BioStatus) : option BioStatus :=
  if forallb is_complete bios then Some Complete else None.

Definition set_pages (v p : gmap Z Z) (st : gmap Z PageState) (w : VmoState) : VmoState :=
  mkVmo (v_size w) (has_pager w) v p st (ra_state w).
Definition set_ra (ra : ReadaheadState) (w : VmoState) : VmoState :=
  mkVmo (v_size w) (has_pager w) (v_pages w) (pager_pages w) (page_states w) ra.

Definition load_state (w : VmoState) (idx : Z) : PageState := default Uninit (page_states w !! idx).

(** [pages.put(idx, page)] of the page cache *)
Definition put_page (vmo idx f : Z) (st : PageState) (s : Sys) : Sys :=
  let w := vmo_of s vmo in
  put_vmo vmo (set_pages (v_pages w) (<[idx := f]> (pager_pages w)) (<[idx := st]> (page_states w)) w) s.
Definition put_ra (vmo : Z) (ra : ReadaheadState) (s : Sys) : Sys := put_vmo vmo (set_ra ra (vmo_of s vmo)) s.

(** [PageCacheBackend::read_page] into a page of [CachePage::alloc_uninit] *)
Definition read_new_page (disk : Backend) (vmo idx : Z) (s : Sys) : result (Z * Sys) Errno :=
  match alloc_frame (page_data disk vmo idx) s with
  | None => RErr ENOMEM
  | Some fs => match read_page_async disk vmo idx with
               | RErr e => RErr e
               | ROk bios => match wait bios with Some Complete => ROk fs | _ => RErr EIO end
               end
  end.

Definition window_pages (win : ReadaheadWindow) : list Z :=
  seqZ (window_start win) (window_end win - window_start win).

Definition is_sequential (ra : ReadaheadState) (idx : Z) : bool :=
  match prev_page ra with Some prev => (idx =? prev) || (idx =? prev + 1) | None => false end.

Definition request_number (ra : ReadaheadState) : Z := Z.of_nat (length (waiter ra)).

Definition prev_readahead_is_completed (disk : Backend) (vmo : Z) (s : Sys) : bool :=
  negb (request_number (ra_state (vmo_of s vmo)) =? 0) && answered disk s vmo.

(** The pages of the window that the cache has become ready. *)
Definition mark_ready (win : ReadaheadWindow) (w : VmoState) : VmoState :=
  set_pages (v_pages w) (pager_pages w)
    (foldr (λ idx st, if bool_decide (is_Some (pager_pages w !! idx)) then <[idx := UpToDate]> st else st)
       (page_states w) (window_pages win)) w.

Definition wait_for_prev_readahead (vmo : Z) (s : Sys) : result unit Errno * Sys :=
  let w := vmo_of s vmo in
  let ra := ra_state w in
  match wait (waiter ra) with
  | Some Complete =>
      match ra_window ra with
      | None => (RErr EINVAL, s)
      | Some win => (ROk tt, put_vmo vmo (set_ra (mkRa (Some win) (max_size ra) (prev_page ra) []) (mark_ready win w)) s)
      end
  | _ => (RErr EIO, s)
  end.

Definition should_readahead (ra : ReadaheadState) (idx max_page : Z) : bool :=
  if (request_number ra =? 0) && is_sequential ra idx then
    match ra_window ra with
    | Some cur_window =>
        ((idx =? lookahead_index cur_window) || (idx =? window_end cur_window)) && (window_end cur_window <? max_page)
    | None => idx + 1 <? max_page
    end
  else false.

(** [ReadaheadWindow::next] *)
Definition next_window (win : ReadaheadWindow) (max_size max_page : Z) : outcome ReadaheadWindow :=
  let new_start := window_end win in
  unwrap (checked_sub (window_end win) (window_start win)) ≫= λ cur_size,
  unwrap (checked_sub max_page new_start) ≫= λ room,
  let new_size := Z.min (Z.min (cur_size * 2) max_size) room in
  Done (mkWindow new_start (new_start + new_size) new_start).

Definition setup_window (ra : ReadaheadState) (idx max_page : Z) : outcome ReadaheadState :=
  (match ra_window ra with
   | Some cur_window => next_window cur_window (max_size ra) max_page
   | None =>
       let start_idx := idx + 1 in
       let end_idx := Z.min (start_idx + Z.min INIT_WINDOW_SIZE (max_size ra)) max_page in
       Done (mkWindow start_idx end_idx start_idx)
   end) ≫= λ new_window,
  Done (mkRa (Some new_window) (max_size ra) (prev_page ra) (waiter ra)).

(** The loop of [ReadaheadState::conduct_readahead]. The device writes the page until
    its requests are answered; before, the page is [Uninit] and not handed out. *)
Fixpoint readahead_loop (disk : Backend) (vmo : Z) (window : list Z) (s : Sys) : result unit Errno * Sys :=
  match window with
  | [] => (ROk tt, s)
  | async_idx :: window =>
      match alloc_frame (page_data disk vmo async_idx) s with
      | None => (RErr ENOMEM, s)
      | Some (f, s1) =>
          match read_page_async disk vmo async_idx with
          | RErr e => (RErr e, s)
          | ROk bios =>
              let ra := ra_state (vmo_of s1 vmo) in
              let s2 := put_ra vmo (mkRa (ra_window ra) (max_size ra) (prev_page ra) (waiter ra ++ bios)) s1 in
              readahead_loop disk vmo window
                (put_page vmo async_idx f (match bios with [] => UpToDate | _ => Uninit end) s2)
          end
      end
  end.

Definition conduct_readahead (disk : Backend) (vmo : Z) (s : Sys) : result unit Errno * Sys :=
  match ra_window (ra_state (vmo_of s vmo)) with
  | None => (RErr EINVAL, s)
  | Some win => readahead_loop disk vmo (window_pages win) s
  end.

(** The page in the cache, awaited if it is being read, or read now, or a page of zeros
    behind the end of the file, which is left [Uninit]. *)
Definition cache_page (disk : Backend) (vmo idx : Z) (s : Sys) : outcome (result Z Errno * Sys) :=
  let w := vmo_of s vmo in
  match pager_pages w !! idx with
  | Some page =>
      match load_state w idx with
      | Uninit =>
          assert_that (negb (request_number (ra_state w) =? 0)) ≫= λ _,
          match wait_for_prev_readahead vmo s with
          | (RErr e, s) => Done (RErr e, s)
          | (ROk _, s) => unwrap (pager_pages (vmo_of s vmo) !! idx) ≫= λ page, Done (ROk page, s)
          end
      | _ => Done (ROk page, s)
      end
  | None =>
      if idx <? npages disk vmo then
        match read_new_page disk vmo idx s with
        | ROk (f, s) => Done (ROk f, put_page vmo idx f UpToDate s)
        | RErr e => Done (RErr e, s)
        end
      else
        match alloc_frame 0 s with
        | Some (f, s) => Done (ROk f, put_page vmo idx f Uninit s)
        | None => Done (RErr ENOMEM, s)
        end
  end.

(** What follows the page: the readahead, and the last page visited. *)
Definition read_ahead (disk : Backend) (vmo idx : Z) (s : Sys) : outcome (result unit Errno * Sys) :=
  let ra := ra_state (vmo_of s vmo) in
  (if should_readahead ra idx (npages disk vmo) then
     setup_window ra idx (npages disk vmo) ≫= λ ra,
     Done (conduct_readahead disk vmo (put_ra vmo ra s))
   else Done (ROk tt, s)) ≫= λ '(r, s),
  match r with
  | RErr e => Done (RErr e, s)
  | ROk _ =>
      let ra := ra_state (vmo_of s vmo) in
      Done (ROk tt, put_ra vmo (mkRa (ra_window ra) (max_size ra) (Some idx) (waiter ra)) s)
  end.

(** [PageCacheManager::commit_page], which is [ondemand_readahead] *)
Definition commit_page (disk : Backend) (vmo idx : Z) (s : Sys) : outcome (result Z Errno * Sys) :=
  let '(r, s) := if prev_readahead_is_completed disk vmo s then wait_for_prev_readahead vmo s else (ROk tt, s) in
  match r with
  | RErr e => Done (RErr e, s)
  | ROk _ =>
      cache_page disk vmo idx s ≫= λ '(page, s),
      match page with
      | RErr e => Done (RErr e, s)
      | ROk f =>
          read_ahead disk vmo idx s ≫= λ '(r, s),
          match r with RErr e => Done (RErr e, s) | ROk _ => Done (ROk f, s) end
      end
  end.

(** [Vmo::prepare_page] without [WILL_OVERWRITE]: the page, the state with it, and the
    state after it is dropped again *)
Definition prepare_vmo_page (disk : Backend) (vmo idx : Z) (s : Sys) : outcome (result Z Errno * Sys * Sys) :=
  if has_pager (vmo_of s vmo) then
    commit_page disk vmo idx s ≫= λ '(r, s1), Done (r, s1, s1)
  else
    match alloc_frame 0 s with Some (f, s1) => Done (ROk f, s1, s) | None => Done (RErr ENOMEM, s, s) end.

Definition commit_on (disk : Backend) (vmo page_idx : Z) (s : Sys) : outcome (result Z Errno * Sys) :=
  prepare_vmo_page disk vmo page_idx s ≫= λ '(r, s1, dropped),
  match r with
  | RErr e => Done (RErr e, dropped)
  | ROk new_page =>
      let w := vmo_of s1 vmo in
      if v_size w <? page_idx * PAGE_SIZE then Done (RErr EINVAL, dropped)
      else match v_pages w !! page_idx with
           | Some page => Done (ROk page, dropped)
           | None =>
               Done (ROk new_page,
                     put_vmo vmo (set_pages (<[page_idx := new_page]> (v_pages w)) (pager_pages w) (page_states w) w) s1)
           end
  end.

Definition try_commit_with_cursor (disk : Backend) (vmo index : Z) (s : Sys)
  : outcome (result Z VmoCommitError * Sys) :=
  let w := vmo_of s vmo in
  match v_pages w !! index with
  | Some committed_page => Done (ROk committed_page, s)
  | None =>
      if has_pager w then Done (RErr (NeedIo index), s)
      else commit_on disk vmo index s ≫= λ '(r, s),
           match r with
           | ROk f => Done (ROk f, s)
           | RErr e => Done (RErr (CommitErr e), s)
           end
  end.

Definition try_commit_page (disk : Backend) (vmo offset : Z) (s : Sys)
  : outcome (result Z VmoCommitError * Sys) :=
  if v_size (vmo_of s vmo) <=? offset then Done (RErr (CommitErr EINVAL), s)
  else try_commit_with_cursor disk vmo (offset / PAGE_SIZE) s.

(** [MappedVmo::valid_size]: the length of [offset..vmo_size] *)
Definition valid_size (s : Sys) (vmo offset : Z) : Z := Z.max 0 (v_size (vmo_of s vmo) - offset).

(** ** The handler *)

Definition vmar_of (s : Sys) (i : Z) : Vmar := default new (procs s !! i).
Definition entry_at (s : Sys) (i k : Z) : option Pte := pt (vmar_of s i) !! k.

(** The range that [vm_space.cursor_mut] accepts; its error becomes [EFAULT]. *)
Definition cursor_range (a b : Z) : bool :=
  (a <? b) && (0 <=? a) && (b <=? 2 ^ 47) && (a mod PAGE_SIZE =? 0) && (b mod PAGE_SIZE =? 0).

(** [cursor.map] or [cursor.protect_next] on one page *)
Definition put_entry (i k : Z) (e : Pte) (s : Sys) : Sys :=
  set_procs (<[i := set_pt (<[k := e]> (pt (vmar_of s i))) (vmar_of s i)]> (procs s)) s.

Definition from_alloc {E} (err : E) (ro : bool) (s : Sys) (o : option (Z * Sys)) : result (Z * bool) E * Sys :=
  match o with Some (f, s) => (ROk (f, ro), s) | None => (RErr err, s) end.

Definition prepare_page (disk : Backend) (m : VmMapping) (page_aligned_addr : Z) (write : bool) (s : Sys)
  : outcome (result (Z * bool) VmoCommitError * Sys) :=
  match mapped_mem m with
  | Anonymous => Done (from_alloc (CommitErr ENOMEM) false s (alloc_frame 0 s))
  | Device => Done (RErr (CommitErr EFAULT), s)
  | Vmo vmo offset _ =>
      let page_offset := page_aligned_addr - map_to_addr m in
      if negb (is_shared m) && (valid_size s vmo offset <=? page_offset) then
        Done (from_alloc (CommitErr ENOMEM) false s (alloc_frame 0 s))
      else
        try_commit_page disk vmo (offset + page_offset) s ≫= λ '(r, s),
        match r with
        | RErr e => Done (RErr e, s)
        | ROk page =>
            if negb (is_shared m) && write
            then Done (from_alloc (CommitErr ENOMEM) false s (duplicate_frame page s))
            else Done (ROk (page, negb (is_shared m)), s)
        end
  end.

(** The flags of the entry for a new page. *)
Definition fault_flags (m : VmMapping) (is_readonly is_write : bool) : Z :=
  let vm_perms := if is_readonly then Z.ldiff (perms m) VmPerms.WRITE else perms m in
  let page_flags := Z.lor (flags_of_perms vm_perms) PageFlags.ACCESSED in
  if is_write then Z.lor page_flags PageFlags.DIRTY else page_flags.

(** The mapped page: it was handled already, or it is made writable or copied. *)
Definition handle_mapped (extra : nat) (i : Z) (m : VmMapping) (k : Z) (e : Pte) (required_perms : Z) (s : Sys)
  : outcome (result unit Errno * Sys) :=
  match item e with
  | Io _ => Done (RErr EFAULT, s)
  | Ram frame =>
      if VmPerms.contains (perms_of_flags (flags e)) required_perms then Done (ROk tt, s)
      else
        assert_that (VmPerms.contains required_perms VmPerms.WRITE) ≫= λ _,
        if VmPerms.contains (flags e) PageFlags.W then Done (ROk tt, s)
        else
          let only_reference := (reference_count extra frame s =? 2)%nat in
          let new_flags := Z.lor (Z.lor PageFlags.W PageFlags.ACCESSED) PageFlags.DIRTY in
          if is_shared m || only_reference then
            Done (ROk tt, put_entry i k (mkPte (Ram frame) (Z.lor (flags e) new_flags)) s)
          else
            match duplicate_frame frame s with
            | None => Done (RErr ENOMEM, s)
            | Some (new_frame, s) =>
                Done (ROk tt, put_entry i k (mkPte (Ram new_frame) (Z.lor (flags e) new_flags)) s)
            end
  end.

(** The loop retries after a page was read from the disk. *)
Fixpoint handle_single_page_fault (fuel : nat) (disk : Backend) (extra : nat) (i : Z) (m : VmMapping)
    (k required_perms : Z) (s : Sys) : outcome (result unit Errno * Sys) :=
  match fuel with
  | O => Panic
  | S fuel =>
      let is_write := VmPerms.contains required_perms VmPerms.WRITE in
      if negb (cursor_range k (k + PAGE_SIZE)) then Done (RErr EFAULT, s)
      else match entry_at s i k with
      | Some e => handle_mapped extra i m k e required_perms s
      | None =>
          prepare_page disk m k is_write s ≫= λ '(r, s),
          match r with
          | ROk (frame, is_readonly) =>
              Done (ROk tt, put_entry i k (mkPte (Ram frame) (fault_flags m is_readonly is_write)) s)
          | RErr (CommitErr e) => Done (RErr e, s)
          | RErr (NeedIo index) =>
              match mapped_mem m with
              | Vmo vmo _ _ =>
                  commit_on disk vmo index s ≫= λ '(r, s),
                  match r with
                  | RErr e => Done (RErr e, s)
                  | ROk _ => handle_single_page_fault fuel disk extra i m k required_perms s
                  end
              | _ => Panic
              end
          end
      end
  end.

Definition SURROUNDING_PAGE_NUM : Z := 16.

(** The pages of [try_operate_on_range] from the address [va] on. *)
Fixpoint around_pages (n : nat) (disk : Backend) (i : Z) (m : VmMapping) (vmo offset va : Z) (s : Sys)
  : outcome (result unit VmoCommitError * Sys) :=
  match n with
  | O => Done (ROk tt, s)
  | S n =>
      match entry_at s i va with
      | Some _ => around_pages n disk i m vmo offset (va + PAGE_SIZE) s
      | None =>
          try_commit_with_cursor disk vmo ((offset + (va - map_to_addr m)) / PAGE_SIZE) s ≫= λ '(r, s),
          match r with
          | RErr e => Done (RErr e, s)
          | ROk frame =>
              let page_flags := Z.lor (flags_of_perms (Z.ldiff (perms m) VmPerms.WRITE)) PageFlags.ACCESSED in
              around_pages n disk i m vmo offset (va + PAGE_SIZE)
                (put_entry i va (mkPte (Ram frame) page_flags) s)
          end
      end
  end.

Fixpoint around_loop (fuel : nat) (disk : Backend) (i : Z) (m : VmMapping) (vmo offset start_addr end_addr : Z)
    (s : Sys) : outcome (result unit Errno * Sys) :=
  match fuel with
  | O => Panic
  | S fuel =>
      if negb (cursor_range start_addr end_addr) then Done (RErr EFAULT, s)
      else if v_size (vmo_of s vmo) <? offset + (end_addr - map_to_addr m) then Done (RErr EINVAL, s)
      else
        around_pages (Z.to_nat ((end_addr - start_addr) / PAGE_SIZE)) disk i m vmo offset start_addr s ≫= λ '(r, s),
        match r with
        | ROk _ => Done (ROk tt, s)
        | RErr (CommitErr e) => Done (RErr e, s)
        | RErr (NeedIo index) =>
            commit_on disk vmo index s ≫= λ '(r, s),
            match r with
            | RErr e => Done (RErr e, s)
            | ROk _ =>
                unwrap (checked_sub (index * PAGE_SIZE) offset) ≫= λ d,
                around_loop fuel disk i m vmo offset (d + map_to_addr m) end_addr s
            end
        end
  end.

Definition handle_page_faults_around_ (disk : Backend) (extra : nat) (i : Z) (m : VmMapping) (vmo offset : Z)
    (page_aligned_addr required_perms : Z) (s : Sys) : outcome (result unit Errno * Sys) :=
  let around_page_addr := Z.land page_aligned_addr (bit_not USIZE_BITS (SURROUNDING_PAGE_NUM * PAGE_SIZE - 1)) in
  let size := Z.min (valid_size s vmo offset) (map_size m) in
  let start_addr := Z.max around_page_addr (map_to_addr m) in
  let end_addr := Z.min (start_addr + SURROUNDING_PAGE_NUM * PAGE_SIZE) (map_to_addr m + size) in
  if end_addr <=? page_aligned_addr
  then handle_single_page_fault 2 disk extra i m page_aligned_addr required_perms s
  else around_loop 17 disk i m vmo offset start_addr end_addr s.

(** [VmMapping::handle_page_fault] *)
Definition handle_mapping_fault (disk : Backend) (extra : nat) (i : Z) (m : VmMapping) (address required_perms : Z)
    (s : Sys) : outcome (result unit Errno * Sys) :=
  if negb (VmPerms.contains (perms m) required_perms) then Done (RErr EACCES, s)
  else
    let page_aligned_addr := address - address mod PAGE_SIZE in
    let is_write := VmPerms.contains required_perms VmPerms.WRITE in
    let single := handle_single_page_fault 2 disk extra i m page_aligned_addr required_perms s in
    match mapped_mem m with
    | Vmo vmo offset _ =>
        if negb is_write && handle_page_faults_around m then
          handle_page_faults_around_ disk extra i m vmo offset page_aligned_addr required_perms s ≫= λ '(res, s),
          match res with
          | ROk _ => Done (ROk tt, s)
          | RErr e => match entry_at s i page_aligned_addr with
                      | Some _ => Done (ROk tt, s)
                      | None => Done (RErr e, s)
                      end
          end
        else single
    | _ => single
    end.

(** [Vmar::handle_page_fault] of process [i] *)
Definition handle_page_fault (disk : Backend) (extra : nat) (i address required_perms : Z) (s : Sys)
  : outcome (result unit Errno * Sys) :=
  match IntervalSet.find_one address (vm_mappings (vmar_of s i)) with
  | Some m => handle_mapping_fault disk extra i m address required_perms s
  | None => Done (RErr EACCES, s)
  end.
End PageFault.
