(* ===== verification/PageCache.v ===== *)
(** * The page cache

    [kernel/src/fs/utils/page_cache.rs], as [PageFault] models it. A page that is left
    [Uninit] in the cache is committed to the VMO or awaited by a readahead, as long as
    the pages that are committed are missing in the VMO; then committing a page does not
    panic. Three flaws of the cache are shown on concrete runs. *)

From stdpp Require Import gmap.
From S2P Require Import Prelude VmMapping Vmar PageFault.
Local Open Scope Z_scope.

Module PageCache.
Import Vmar PageFault.

(** ** The invariant *)

(** A readahead is pending, and the page lies in its window. *)
Definition awaited (w : VmoState) (idx : Z) : Prop :=
  waiter (ra_state w) ≠ [] ∧
  ∃ win, ra_window (ra_state w) = Some win ∧ window_start win ≤ idx < window_end win.

Definition page_ready (w : VmoState) (idx : Z) : Prop :=
  load_state w idx = Uninit → is_Some (pager_pages w !! idx) → is_Some (v_pages w !! idx) ∨ awaited w idx.

Definition window_ok (ra : ReadaheadState) : Prop :=
  ∀ win, ra_window ra = Some win → window_start win ≤ window_end win ∧ lookahead_index win = window_start win.

(** Every page of the cache, except the given one, is ready. *)
Record cache_but (o : option Z) (w : VmoState) : Prop := {
  cb_pages : ∀ idx, o ≠ Some idx → page_ready w idx;
  cb_window : window_ok (ra_state w);
  cb_max : 0 ≤ max_size (ra_state w)
}.
Abbreviation cache_ok := (cache_but None).

Definition caches_ok (s : Sys) : Prop := ∀ vmo, cache_ok (vmo_of s vmo).

Lemma vmo_new_ok size pager : cache_ok (vmo_new size pager).
Proof. split; [intros idx _ _ Hp; by destruct (is_Some_None Hp) | by intros win | done]. Qed.

(** ** Steps on one VMO *)

(** Only the cache of one VMO changes. *)
Record touches (vmo : Z) (s s' : Sys) : Prop := {
  t_others : ∀ v, v ≠ vmo → vmo_of s' v = vmo_of s v;
  t_size : v_size (vmo_of s' vmo) = v_size (vmo_of s vmo);
  t_pager : has_pager (vmo_of s' vmo) = has_pager (vmo_of s vmo);
  t_pages : v_pages (vmo_of s' vmo) = v_pages (vmo_of s vmo)
}.

Lemma touches_refl vmo s : touches vmo s s.
Proof. done. Qed.

Lemma touches_trans vmo s s1 s2 : touches vmo s s1 → touches vmo s1 s2 → touches vmo s s2.
Proof.
  intros [H1 H2 H3 H4] [G1 G2 G3 G4]. split; try congruence. intros v Hv. by rewrite G1, H1.
Qed.

Lemma vmo_of_put_eq vmo w s : vmo_of (put_vmo vmo w s) vmo = w.
Proof. unfold vmo_of, put_vmo. cbn. by rewrite lookup_insert, decide_True. Qed.

Lemma vmo_of_put_ne vmo v w s : v ≠ vmo → vmo_of (put_vmo vmo w s) v = vmo_of s v.
Proof. intros Hv. unfold vmo_of, put_vmo. cbn. by rewrite lookup_insert_ne. Qed.

Lemma put_touches vmo w s : v_size w = v_size (vmo_of s vmo) → has_pager w = has_pager (vmo_of s vmo) →
  v_pages w = v_pages (vmo_of s vmo) → touches vmo s (put_vmo vmo w s).
Proof. intros H1 H2 H3. split; rewrite ?vmo_of_put_eq; try done. intros v Hv. by apply vmo_of_put_ne. Qed.

Lemma alloc_vmos c s f s1 : alloc_frame c s = Some (f, s1) → vmos s1 = vmos s.
Proof. unfold alloc_frame. destruct (free s); [done |]. by intros [= <- <-]. Qed.

Lemma alloc_vmo_of c s f s1 v : alloc_frame c s = Some (f, s1) → vmo_of s1 v = vmo_of s v.
Proof. intros Ha. unfold vmo_of. by rewrite (alloc_vmos c s f s1). Qed.

Lemma alloc_touches vmo c s f s1 : alloc_frame c s = Some (f, s1) → touches vmo s s1.
Proof. intros Ha. split; [intros v _ | ..]; by rewrite (alloc_vmo_of c s f s1). Qed.

(** *** Pages that are put into the cache *)

Lemma put_ready o w idx f st : cache_but o w →
  (st = Uninit → o = Some idx ∨ awaited w idx) →
  cache_but o (set_pages (v_pages w) (<[idx := f]> (pager_pages w)) (<[idx := st]> (page_states w)) w).
Proof.
  intros [H1 H2 H3] Hst. split; try done. intros j Hj. unfold page_ready, load_state, awaited in *. cbn.
  destruct (decide (j = idx)) as [->|Hne].
  - rewrite lookup_insert, decide_True by done. cbn. intros -> _. destruct (Hst eq_refl) as [|Ha]; [done | by right].
  - rewrite !lookup_insert_ne by done. by apply H1.
Qed.

Lemma put_zero w idx f : cache_ok w →
  cache_but (Some idx) (set_pages (v_pages w) (<[idx := f]> (pager_pages w)) (<[idx := Uninit]> (page_states w)) w).
Proof.
  intros [H1 H2 H3]. apply put_ready; [split; try done; intros j _; by apply H1 | by left].
Qed.

Lemma store_ready w idx f : cache_but (Some idx) w →
  cache_ok (set_pages (<[idx := f]> (v_pages w)) (pager_pages w) (page_states w) w).
Proof.
  intros [H1 H2 H3]. split; try done. intros j _. unfold page_ready, load_state, awaited in *. cbn. intros Hst Hp.
  destruct (decide (j = idx)) as [->|Hne].
  - rewrite lookup_insert, decide_True by done. left. by eexists.
  - rewrite lookup_insert_ne by done. apply H1; congruence.
Qed.

Lemma cache_weaken o w : cache_ok w → cache_but o w.
Proof. intros [H1 H2 H3]. split; try done. intros j _. by apply H1. Qed.

(** *** The state of the readahead *)

(** More requests, or a page more that was visited *)
Lemma ra_ready o w ra : cache_but o w → ra_window ra = ra_window (ra_state w) →
  (waiter (ra_state w) ≠ [] → waiter ra ≠ []) → max_size ra = max_size (ra_state w) → cache_but o (set_ra ra w).
Proof.
  intros [H1 H2 H3] Hw Hq Hm. split; cbn.
  - intros j Hj Hst Hp. destruct (H1 j Hj Hst Hp) as [|[Ha Hb]]; [by left |]. right. split; [by apply Hq |]. cbn. by rewrite Hw.
  - intros win. rewrite Hw. apply H2.
  - by rewrite Hm.
Qed.

(** A new window, when nothing is pending *)
Lemma window_ready o w ra : cache_but o w → waiter (ra_state w) = [] → window_ok ra → 0 ≤ max_size ra →
  cache_but o (set_ra ra w).
Proof.
  intros [H1 H2 H3] Hq Hw Hm. split; try done. intros j Hj Hst Hp.
  destruct (H1 j Hj Hst Hp) as [|[Ha _]]; [by left | done].
Qed.

Lemma mark_states (P : Z → bool) l st idx :
  foldr (λ idx st, if P idx then <[idx := UpToDate]> st else st) st l !! idx =
  if bool_decide (idx ∈ l) && P idx then Some UpToDate else (st : gmap Z PageState) !! idx.
Proof.
  induction l as [|j l IH]; cbn [foldr]; [done |]. destruct (decide (idx = j)) as [->|Hne].
  - rewrite (bool_decide_true (j ∈ j :: l)) by (by left). cbn. destruct (P j) eqn:Hj.
    + by rewrite lookup_insert, decide_True.
    + rewrite IH. by rewrite ?Hj, andb_false_r.
  - assert (bool_decide (idx ∈ j :: l) = bool_decide (idx ∈ l)) as ->.
    { apply bool_decide_ext. rewrite elem_of_cons. naive_solver. }
    destruct (P j); [rewrite lookup_insert_ne by done |]; apply IH.
Qed.

Lemma wait_ready o w win : cache_but o w → ra_window (ra_state w) = Some win →
  cache_but o (set_ra (mkRa (Some win) (max_size (ra_state w)) (prev_page (ra_state w)) []) (mark_ready win w)).
Proof.
  intros [H1 H2 H3] Hwin. split; cbn; [| intros win' [= <-]; by apply H2 | done].
  intros j Hj. unfold page_ready, load_state. cbn. rewrite mark_states. intros Hst Hp. left.
  rewrite (bool_decide_true (is_Some _)), andb_true_r in Hst by done.
  destruct (bool_decide (j ∈ window_pages win)) eqn:Hin; [done |]. apply bool_decide_eq_false in Hin.
  destruct (H1 j Hj Hst Hp) as [|(_ & win' & Hw & Hr)]; [done |]. rewrite Hwin in Hw. injection Hw as <-.
  destruct Hin. unfold window_pages. apply elem_of_seqZ. lia.
Qed.

Lemma wait_touches vmo s r s' o : wait_for_prev_readahead vmo s = (r, s') → cache_but o (vmo_of s vmo) →
  touches vmo s s' ∧ cache_but o (vmo_of s' vmo) ∧ pager_pages (vmo_of s' vmo) = pager_pages (vmo_of s vmo).
Proof.
  unfold wait_for_prev_readahead. intros H Hc.
  destruct (wait _) as [[]|], (ra_window (ra_state (vmo_of s vmo))) as [win|] eqn:Hw; injection H as <- <-; try done.
  split; [by apply put_touches |]. rewrite vmo_of_put_eq. split; [by apply wait_ready | done].
Qed.

(** ** The readahead *)

Lemma should_readahead_end ra idx max_page : window_ok ra → max_page ≤ idx → should_readahead ra idx max_page = false.
Proof.
  intros Hw Hm. unfold should_readahead. destruct (_ && _); [| done].
  destruct (ra_window ra) as [win|] eqn:Hwin; [| apply Z.ltb_ge; lia].
  destruct (Hw win Hwin) as [H1 H2]. apply andb_false_iff.
  destruct (Z.ltb_spec (window_end win) max_page); [left | by right].
  apply orb_false_iff. rewrite H2. split; apply Z.eqb_neq; lia.
Qed.

Lemma setup_window_done ra idx max_page : window_ok ra → 0 ≤ max_size ra → should_readahead ra idx max_page = true →
  ∃ ra', setup_window ra idx max_page = Done ra' ∧ window_ok ra' ∧ max_size ra' = max_size ra ∧ waiter ra' = [] ∧ waiter ra = [].
Proof.
  intros Hw Hm Hs. unfold should_readahead in Hs.
  destruct ((request_number ra =? 0) && is_sequential ra idx) eqn:Hq; [| done].
  apply andb_true_iff in Hq as [Hq%Z.eqb_eq _]. unfold request_number in Hq.
  assert (waiter ra = []) as Hnil by (destruct (waiter ra); [done | cbn in Hq; lia]). unfold setup_window.
  destruct (ra_window ra) as [win|] eqn:Hwin.
  - apply andb_true_iff in Hs as [_ Hs%Z.ltb_lt]. destruct (Hw win Hwin) as [H1 _]. unfold next_window, checked_sub.
    rewrite (proj2 (Z.leb_le _ _)) by lia. cbn [unwrap mbind outcome_bind].
    rewrite (proj2 (Z.leb_le _ _)) by lia. cbn [unwrap mbind outcome_bind]. eexists. split_and!; try done.
    intros win' [= <-]. cbn. lia.
  - apply Z.ltb_lt in Hs. eexists. split_and!; try done. intros win' [= <-]. cbn. unfold INIT_WINDOW_SIZE. lia.
Qed.

Lemma readahead_loop_ready disk vmo win o l : ∀ s r s', readahead_loop disk vmo l s = (r, s') →
  cache_but o (vmo_of s vmo) → ra_window (ra_state (vmo_of s vmo)) = Some win →
  (∀ idx, idx ∈ l → window_start win ≤ idx < window_end win) →
  touches vmo s s' ∧ cache_but o (vmo_of s' vmo).
Proof.
  induction l as [|idx l IH]; intros s r s' H Hc Hwin Hl; cbn [readahead_loop] in H.
  { by injection H as <- <-. }
  destruct (alloc_frame _ s) as [[f s1]|] eqn:Ha; [| by injection H as <- <-].
  destruct (read_page_async disk vmo idx) as [bios|e]; [| by injection H as <- <-].
  pose proof (alloc_vmo_of _ s f s1 vmo Ha) as Hv. rewrite Hv in H.
  set (ra := mkRa _ _ _ _) in H. set (st := match bios with [] => UpToDate | _ => Uninit end) in H.
  assert (cache_but o (set_ra ra (vmo_of s vmo))) as Hc1.
  { apply ra_ready; try done. cbn. intros Hne Hnil. apply app_eq_nil in Hnil as [? _]. done. }
  assert (vmo_of (put_ra vmo ra s1) vmo = set_ra ra (vmo_of s vmo)) as Hv1.
  { unfold put_ra. by rewrite vmo_of_put_eq, Hv. }
  assert (touches vmo s (put_page vmo idx f st (put_ra vmo ra s1))) as Ht.
  { apply (touches_trans vmo s s1); [by eapply alloc_touches |].
    apply (touches_trans vmo s1 (put_ra vmo ra s1)); by apply put_touches. }
  apply IH in H as [Ht' Hc']; [split; [by eapply touches_trans | done] | | | set_solver].
  - unfold put_page. rewrite vmo_of_put_eq, Hv1. apply put_ready; [done |]. intros Hst. right. split; cbn.
    + destruct bios; [done |]. intros Hnil. apply app_eq_nil in Hnil as [_ ?]. done.
    + exists win. split; [done |]. apply Hl. by left.
  - unfold put_page. rewrite vmo_of_put_eq, Hv1. done.
Qed.

Lemma read_ahead_ready disk vmo idx o s : cache_but o (vmo_of s vmo) → (o ≠ None → npages disk vmo ≤ idx) →
  ∃ r s', read_ahead disk vmo idx s = Done (r, s') ∧ touches vmo s s' ∧ cache_but o (vmo_of s' vmo) ∧
    (o ≠ None → r = ROk tt).
Proof.
  intros Hc Ho. pose proof Hc as [_ Hwin Hmax]. unfold read_ahead.
  assert (∀ s1, touches vmo s s1 → cache_but o (vmo_of s1 vmo) →
    let ra := ra_state (vmo_of s1 vmo) in
    let s2 := put_ra vmo (mkRa (ra_window ra) (max_size ra) (Some idx) (waiter ra)) s1 in
    touches vmo s s2 ∧ cache_but o (vmo_of s2 vmo)) as Hlast.
  { intros s1 Ht1 Hc1 ra s2. split; [apply (touches_trans vmo s s1); [done | by apply put_touches] |].
    unfold s2, put_ra. rewrite vmo_of_put_eq. by apply ra_ready. }
  destruct (should_readahead _ idx _) eqn:Hs.
  - destruct o as [j|]; [rewrite should_readahead_end in Hs; [done | done | by apply Ho] |].
    destruct (setup_window_done _ idx _ Hwin Hmax Hs) as (ra & -> & Hwok & Hm & _ & Hnil). cbn [mbind outcome_bind].
    unfold conduct_readahead. unfold put_ra at 1. rewrite vmo_of_put_eq. cbn [set_ra ra_state].
    assert (cache_ok (set_ra ra (vmo_of s vmo))) as Hc1 by (apply window_ready; [done | done | done | lia]).
    assert (touches vmo s (put_ra vmo ra s)) as Ht1 by (by apply put_touches).
    destruct (ra_window ra) as [win|] eqn:Hw.
    2: { eexists _, _. split; [done |]. split_and!; [done | unfold put_ra; by rewrite vmo_of_put_eq | done]. }
    destruct (readahead_loop disk vmo (window_pages win) (put_ra vmo ra s)) as [r1 s1] eqn:Hl.
    destruct (readahead_loop_ready disk vmo win None _ _ r1 s1 Hl) as [Ht2 Hc2].
    { unfold put_ra. by rewrite vmo_of_put_eq. }
    { unfold put_ra. by rewrite vmo_of_put_eq. }
    { intros j. unfold window_pages. rewrite elem_of_seqZ. lia. }
    pose proof (touches_trans vmo s _ s1 Ht1 Ht2) as Ht.
    destruct r1 as [[]|e]; eexists _, _; (split; [reflexivity |]); [| done].
    destruct (Hlast s1 Ht Hc2) as [? ?]. done.
  - cbn [mbind outcome_bind]. eexists _, _. split; [reflexivity |]. destruct (Hlast s (touches_refl vmo s) Hc). done.
Qed.

(** ** Committing a page *)

Lemma cache_page_done disk vmo idx s : cache_ok (vmo_of s vmo) → v_pages (vmo_of s vmo) !! idx = None →
  ∃ r s' o, cache_page disk vmo idx s = Done (r, s') ∧ touches vmo s s' ∧ cache_but o (vmo_of s' vmo) ∧
    (o = None ∨ o = Some idx ∧ npages disk vmo ≤ idx ∧ ∃ f, r = ROk f).
Proof.
  intros Hc Hn. unfold cache_page. destruct (pager_pages (vmo_of s vmo) !! idx) as [page|] eqn:Hp.
  - destruct (load_state (vmo_of s vmo) idx) eqn:Hst; [| eexists _, _, None; by split_and!; [| | | left] ..].
    destruct (cb_pages _ _ Hc idx ltac:(done) Hst) as [Hv|[Hq _]]; [by eexists | rewrite Hn in Hv; by destruct Hv |].
    assert ((request_number (ra_state (vmo_of s vmo)) =? 0) = false) as ->.
    { apply Z.eqb_neq. unfold request_number. destruct (waiter _); [done | cbn; lia]. }
    cbn [negb assert_that mbind outcome_bind]. destruct (wait_for_prev_readahead vmo s) as [r1 s1] eqn:Hw.
    destruct (wait_touches vmo s r1 s1 None Hw Hc) as (Ht & Hc1 & Hpp).
    destruct r1; [rewrite Hpp, Hp; cbn |]; eexists _, _, None; by split_and!; [| | | left].
  - destruct (Z.ltb_spec idx (npages disk vmo)) as [Hlt|Hge].
    + unfold read_new_page. destruct (alloc_frame _ s) as [[f s1]|] eqn:Ha; [| eexists _, _, None; by split_and!; [| | | left]].
      destruct (read_page_async disk vmo idx) as [bios|]; [| eexists _, _, None; by split_and!; [| | | left]].
      destruct (wait bios) as [[]|]; (eexists _, _, None; split; [reflexivity |]); try by split_and!; [| | left].
      split_and!; [| | by left].
      * apply (touches_trans vmo s s1); [by eapply alloc_touches | by apply put_touches].
      * unfold put_page. rewrite vmo_of_put_eq, (alloc_vmo_of _ s f s1 vmo Ha). by apply put_ready.
    + destruct (alloc_frame 0 s) as [[f s1]|] eqn:Ha; [| eexists _, _, None; by split_and!; [| | | left]].
      eexists _, _, (Some idx). split; [reflexivity |]. split_and!; [| | right; split_and!; [done | done | by eexists]].
      * apply (touches_trans vmo s s1); [by eapply alloc_touches | by apply put_touches].
      * unfold put_page. rewrite vmo_of_put_eq, (alloc_vmo_of _ s f s1 vmo Ha). by apply put_zero.
Qed.

(** A page that the VMO lacks can be committed; afterwards every page but this one is
    ready, and after an error every page. *)
Lemma commit_page_done disk vmo idx s : cache_ok (vmo_of s vmo) → v_pages (vmo_of s vmo) !! idx = None →
  ∃ r s', commit_page disk vmo idx s = Done (r, s') ∧ touches vmo s s' ∧
    cache_but (match r with ROk _ => Some idx | RErr _ => None end) (vmo_of s' vmo).
Proof.
  intros Hc Hn. unfold commit_page.
  destruct (if prev_readahead_is_completed disk vmo s then _ else _) as [r0 s0] eqn:H0.
  assert (touches vmo s s0 ∧ cache_ok (vmo_of s0 vmo)) as [Ht0 Hc0].
  { destruct (prev_readahead_is_completed disk vmo s); [by destruct (wait_touches vmo s r0 s0 None H0 Hc) as (? & ? & _) |].
    by injection H0 as <- <-. }
  destruct r0 as [u|e]; [| by eexists _, _].
  destruct (cache_page_done disk vmo idx s0 Hc0) as (r1 & s1 & o & -> & Ht1 & Hc1 & Ho).
  { by rewrite (t_pages vmo s s0 Ht0). }
  cbn [mbind outcome_bind]. pose proof (touches_trans vmo s s0 s1 Ht0 Ht1) as Ht.
  destruct r1 as [f|e].
  2: { eexists _, _. split_and!; [done | done |]. by destruct Ho as [->|(_ & _ & ? & ?)]. }
  destruct (read_ahead_ready disk vmo idx o s1 Hc1) as (r2 & s2 & -> & Ht2 & Hc2 & Hr2).
  { intros Hne. by destruct Ho as [->|(_ & ? & _)]. }
  cbn [mbind outcome_bind]. pose proof (touches_trans vmo s s1 s2 Ht Ht2) as Ht'.
  destruct Ho as [->|(-> & _ & _)].
  - destruct r2; eexists _, _; (split_and!; [done | done |]); [by apply cache_weaken | done].
  - rewrite Hr2 by done. by eexists _, _.
Qed.

Lemma commit_on_done disk vmo idx s : caches_ok s → v_pages (vmo_of s vmo) !! idx = None →
  idx * PAGE_SIZE ≤ v_size (vmo_of s vmo) → ∃ r s', commit_on disk vmo idx s = Done (r, s') ∧ caches_ok s'.
Proof.
  intros Hc Hn Hs. unfold commit_on, prepare_vmo_page.
  assert (∀ s1, touches vmo s s1 → cache_ok (vmo_of s1 vmo) → caches_ok s1) as Hall.
  { intros s1 Ht Hc1 v. destruct (decide (v = vmo)) as [->|Hv]; [done |]. by rewrite (t_others vmo s s1 Ht). }
  assert (∀ s1 f, touches vmo s s1 → cache_but (Some idx) (vmo_of s1 vmo) →
    caches_ok (put_vmo vmo (set_pages (<[idx := f]> (v_pages (vmo_of s1 vmo))) (pager_pages (vmo_of s1 vmo))
      (page_states (vmo_of s1 vmo)) (vmo_of s1 vmo)) s1)) as Hstore.
  { intros s1 f Ht Hc1 v. destruct (decide (v = vmo)) as [->|Hv].
    - rewrite vmo_of_put_eq. by apply store_ready.
    - rewrite vmo_of_put_ne by done. by rewrite (t_others vmo s s1 Ht). }
  destruct (has_pager (vmo_of s vmo)).
  - destruct (commit_page_done disk vmo idx s (Hc vmo) Hn) as (r & s1 & -> & Ht & Hc1). cbn [mbind outcome_bind].
    destruct r as [f|e]; [| eexists _, _; by split; [| apply Hall]].
    rewrite (t_size vmo s s1 Ht), (proj2 (Z.ltb_ge _ _)) by lia. rewrite (t_pages vmo s s1 Ht), Hn.
    eexists _, _. split; [done |]. rewrite <- (t_pages vmo s s1 Ht). by apply Hstore.
  - destruct (alloc_frame 0 s) as [[f s1]|] eqn:Ha; cbn [mbind outcome_bind]; [| by eexists _, _].
    pose proof (alloc_touches vmo 0 s f s1 Ha) as Ht.
    rewrite (t_size vmo s s1 Ht), (proj2 (Z.ltb_ge _ _)) by lia. rewrite (t_pages vmo s s1 Ht), Hn.
    eexists _, _. split; [done |]. rewrite <- (t_pages vmo s s1 Ht). apply Hstore; [done |]. apply cache_weaken.
    rewrite (alloc_vmo_of 0 s f s1 vmo Ha). apply Hc.
Qed.

Lemma try_commit_done disk vmo idx s : caches_ok s → (has_pager (vmo_of s vmo) = false → idx * PAGE_SIZE ≤ v_size (vmo_of s vmo)) →
  ∃ r s', try_commit_with_cursor disk vmo idx s = Done (r, s') ∧ caches_ok s'.
Proof.
  intros Hc Hs. unfold try_commit_with_cursor. destruct (v_pages (vmo_of s vmo) !! idx) as [f|] eqn:Hl; [by eexists _, _ |].
  destruct (has_pager (vmo_of s vmo)); [by eexists _, _ |].
  destruct (commit_on_done disk vmo idx s Hc Hl (Hs eq_refl)) as (r & s' & -> & Hc'). cbn [mbind outcome_bind].
  destruct r; by eexists _, _.
Qed.
(** ** Flaws *)

(** [page.store_state(st)] *)
Definition mark_page (idx : Z) (st : PageState) (w : VmoState) : VmoState :=
  set_pages (v_pages w) (pager_pages w) (<[idx := st]> (page_states w)) w.

(** A disk with files of eight pages, whose pages from [bad] on cannot be read *)
Definition disk_with (bad : Z) : Backend :=
  mkBackend (λ _, 8) (λ _ idx, ROk [if idx <? bad then Complete else IoError]) (λ _ idx, 100 + idx) (λ _ _, true).

(** A file of eight pages in a VMO of sixteen *)
Definition file : Sys := mkSys ∅ {[0 := vmo_new (16 * PAGE_SIZE) true]} ∅ (seqZ 1 20).

Fixpoint commit_all (disk : Backend) (l : list Z) (s : Sys) : outcome Sys :=
  match l with
  | [] => Done s
  | idx :: l => commit_on disk 0 idx s ≫= λ '(_, s), commit_all disk l s
  end.
Definition state_of (o : outcome Sys) : Sys := match o with Done s => s | Panic => file end.

(** Page 3 is committed and written, then pages 0 and 1 are read. *)
Definition written : Sys := Eval vm_compute in
  let s := state_of (commit_all (disk_with 8) [3] file) in put_vmo 0 (mark_page 3 Dirty (vmo_of s 0)) s.
Definition overtaken : Sys := Eval vm_compute in state_of (commit_all (disk_with 8) [0; 1; 2] written).
(** The readahead that the read of page 1 starts fails. *)
Definition failed : Sys := Eval vm_compute in state_of (commit_all (disk_with 2) [0; 1] file).

(** After a readahead that failed, nothing else happens. *)
Lemma commit_stuck disk vmo idx s : wait (waiter (ra_state (vmo_of s vmo))) = None → answered disk s vmo = true →
  commit_page disk vmo idx s = Done (RErr EIO, s).
Proof.
  intros Hw Ha. unfold commit_page, prev_readahead_is_completed, request_number. rewrite Ha.
  destruct (waiter (ra_state (vmo_of s vmo))) as [|b bs] eqn:E; [done |]. cbn [length].
  rewrite (proj2 (Z.eqb_neq _ _)) by lia. cbn [negb andb]. unfold wait_for_prev_readahead. by rewrite E, Hw.
Qed.

(** Flaws of the page cache. (1) Readahead replaces pages that are already cached:
    a page that was written and is dirty is replaced by the old data of the disk and is
    no longer dirty, while the VMO keeps the written one, which is then never written
    back. (2) After a readahead that failed, the failure is never cleared: every later
    commit of any page of the file fails with [EIO], also when the disk works again.
    (3) The page that is committed behind the end of the file is left uninitialised: when
    a second task that also found it missing commits it, the kernel panics. *)
Theorem page_cache_flaws :
  (commit_all (disk_with 8) [0; 1; 2] written = Done overtaken ∧
   load_state (vmo_of written 0) 3 = Dirty ∧ v_pages (vmo_of overtaken 0) !! 3 = pager_pages (vmo_of written 0) !! 3 ∧
   pager_pages (vmo_of overtaken 0) !! 3 ≠ pager_pages (vmo_of written 0) !! 3 ∧
   load_state (vmo_of overtaken 0) 3 = UpToDate) ∧
  (commit_all (disk_with 2) [0; 1] file = Done failed ∧
   ∀ disk idx, answered disk failed 0 = true → commit_on disk 0 idx failed = Done (RErr EIO, failed)) ∧
  (∃ f s, commit_on (disk_with 8) 0 9 file = Done (ROk f, s) ∧ commit_on (disk_with 8) 0 9 s = Panic).
Proof.
  split; [by vm_compute |]. split; [split; [by vm_compute |] |].
  - intros disk idx Ha. unfold commit_on, prepare_vmo_page. change (has_pager (vmo_of failed 0)) with true. cbv iota.
    by rewrite commit_stuck.
  - set (o := commit_on (disk_with 8) 0 9 file).
    assert (match o with Done (ROk f, s) => commit_on (disk_with 8) 0 9 s = Panic | _ => False end) as H by (by vm_compute).
    destruct o as [[[f|e] s]|]; [by exists f, s | done | done].
Qed.
End PageCache.
