(* ===== verification/Cow.v ===== *)
(** * Copy-on-write isolation of processes

    The invariant of copy-on-write on the state of [PageFault]: a page that a process
    can write through a private mapping is referenced by nothing else. It is kept by
    changes that add no page, by new frames and by new entries under the conditions
    that the page fault handler establishes. *)

From stdpp Require Import gmap.
From S2P Require Import Prelude IntervalSet VmMapping Vmar VmarMaps VmarOps VmarBuild VmarFork PageFault.
Local Open Scope Z_scope.

Module Cow.
Import Vmar VmarMaps VmarOps VmarBuild VmarFork PageFault.

(** ** Counting references *)

Lemma sum_elem {A} (g : A → nat) l x : x ∈ l → (g x ≤ sum_list_with g l)%nat.
Proof. intros (l1 & l2 & ->)%list_elem_of_split. rewrite sum_list_with_app. cbn. lia. Qed.

Lemma sum_two {A} (g : A → nat) l x y : x ∈ l → y ∈ l → x ≠ y → (g x + g y ≤ sum_list_with g l)%nat.
Proof.
  intros (l1 & l2 & ->)%list_elem_of_split Hy Hne. rewrite sum_list_with_app. cbn.
  apply elem_of_app in Hy as [Hy|[->|Hy]%elem_of_cons]; [| done |];
    pose proof (sum_elem g _ y Hy); lia.
Qed.

Lemma filter_len_pos {A} (P : A → bool) l x : x ∈ l → P x = true → (1 ≤ length (List.filter P l))%nat.
Proof.
  intros (l1 & l2 & ->)%list_elem_of_split Hp. rewrite List.filter_app, length_app. cbn. rewrite Hp. cbn. lia.
Qed.

Lemma filter_len_two {A} (P : A → bool) l x y : x ∈ l → y ∈ l → x ≠ y → P x = true → P y = true →
  (2 ≤ length (List.filter P l))%nat.
Proof.
  intros (l1 & l2 & ->)%list_elem_of_split Hy Hne Hp Hq. rewrite List.filter_app, length_app. cbn. rewrite Hp. cbn.
  apply elem_of_app in Hy as [Hy|[->|Hy]%elem_of_cons]; [| done |];
    pose proof (filter_len_pos P _ y Hy Hq); lia.
Qed.

(** ** The mapped pages of the system *)

(** Process [i] maps the page at [k] by the entry [e], under attributes [x]. *)
Definition maps (s : Sys) (i k : Z) (e : Pte) (x : Attr) : Prop :=
  ∃ v, procs s !! i = Some v ∧ pt v !! k = Some e ∧ view v k = Some x.

(** A VMO or a pager holds the frame. *)
Definition held (s : Sys) (f : Z) : Prop :=
  ∃ vmo w idx, vmos s !! vmo = Some w ∧ (v_pages w !! idx = Some f ∨ pager_pages w !! idx = Some f).

(** Nothing but the entry of process [i] at [k] refers to the frame. *)
Definition sole (s : Sys) (i k f : Z) : Prop :=
  ¬ held s f ∧ ∀ j k' e' x', maps s j k' e' x' → item e' = Ram f → j = i ∧ k' = k.

Lemma pt_refs_pos f p k e : p !! k = Some e → item e = Ram f → (1 ≤ pt_refs f p)%nat.
Proof.
  intros Hk Hi. apply (filter_len_pos _ _ (k, e)); [by apply elem_of_map_to_list |].
  unfold maps_frame. cbn. by rewrite Hi, Z.eqb_refl.
Qed.

Lemma pt_refs_two f p k e k' e' : p !! k = Some e → p !! k' = Some e' → k ≠ k' →
  item e = Ram f → item e' = Ram f → (2 ≤ pt_refs f p)%nat.
Proof.
  intros Hk Hk' Hne Hi Hi'. apply (filter_len_two _ _ (k, e) (k', e')); try (by apply elem_of_map_to_list); [congruence | |];
    unfold maps_frame; cbn; by rewrite ?Hi, ?Hi', Z.eqb_refl.
Qed.

(** A frame with one reference, which an entry has, is referenced only there. *)
Lemma only_reference_sole s i k e x f : maps s i k e x → item e = Ram f →
  (references f s ≤ 1)%nat → sole s i k f.
Proof.
  intros (v & Hi & He & _) Hf Href. unfold references in Href.
  assert ((i, v) ∈ map_to_list (procs s)) as Hin by (by apply elem_of_map_to_list).
  pose proof (pt_refs_pos f (pt v) k e He Hf) as Hpos.
  pose proof (sum_elem (λ iv, pt_refs f (pt iv.2)) _ _ Hin) as Hsum. cbn in Hsum. split.
  - intros (vmo & w & idx & Hw & Hheld).
    assert ((vmo, w) ∈ map_to_list (vmos s)) as Hw' by (by apply elem_of_map_to_list).
    pose proof (sum_elem (λ iw, vmo_refs f iw.2) _ _ Hw') as Hsw. cbn in Hsw.
    assert (1 ≤ vmo_refs f w)%nat; [| lia]. unfold vmo_refs.
    destruct Hheld as [Hp|Hp];
      pose proof (filter_len_pos (λ kv, kv.2 =? f) _ (idx, f) (proj2 (elem_of_map_to_list _ _ _) Hp) (Z.eqb_refl f)); lia.
  - intros j k' e' x' (v' & Hj & He' & _) Hf'. destruct (decide (j = i)) as [->|Hne].
    + assert (v' = v) as -> by congruence. split; [done |]. destruct (decide (k' = k)) as [|Hk]; [done |].
      pose proof (pt_refs_two f (pt v) k e k' e' He He' ltac:(done) Hf Hf'). lia.
    + assert ((j, v') ∈ map_to_list (procs s)) as Hin' by (by apply elem_of_map_to_list).
      pose proof (sum_two (λ iv, pt_refs f (pt iv.2)) _ _ _ Hin Hin' ltac:(congruence)) as H2. cbn in H2.
      pose proof (pt_refs_pos f (pt v') k' e' He' Hf'). lia.
Qed.

(** ** The invariant *)

Record inv (s : Sys) : Prop := {
  i_wf : ∀ i v, procs s !! i = Some v → wf v;
  i_kinds : ∀ i v p x, procs s !! i = Some v → view v p = Some x → a_shared x = true → a_backing x ≠ BAnonymous;
  i_free_nodup : NoDup (free s);
  i_free : ∀ f, f ∈ free s → ¬ held s f ∧ ∀ i k e x, maps s i k e x → item e ≠ Ram f;
  i_cow : ∀ i k e x f, maps s i k e x → item e = Ram f → may_write e = true → a_shared x = false → sole s i k f;
  i_anon : ∀ i k e x f, maps s i k e x → item e = Ram f → a_backing x = BAnonymous →
    ¬ held s f ∧ ∀ j k' e' x', maps s j k' e' x' → item e' = Ram f → a_shared x' = false
}.

Definition init : Sys := mkSys ∅ ∅ ∅ [].

(** No entry maps the frame. *)
Definition unmapped (s : Sys) (f : Z) : Prop := ∀ i k e x, maps s i k e x → item e ≠ Ram f.

(** *** Steps that add no RAM page *)

(** Every RAM page of [s'] was there, under the same kind of mapping, and a private
    one did not become writable. *)
Definition shrinks (s s' : Sys) : Prop :=
  (∀ i k e' x' f, maps s' i k e' x' → item e' = Ram f → ∃ e x, maps s i k e x ∧ item e = Ram f ∧
     a_shared x' = a_shared x ∧ a_backing x' = a_backing x ∧
     (may_write e' = true → may_write e = true ∨ a_shared x = true)) ∧
  (∀ f, held s' f → held s f).

Lemma shrinks_sole s s' i k f : shrinks s s' → sole s i k f → sole s' i k f.
Proof.
  intros [Hm Hh] [H1 H2]. split; [eauto |]. intros j k' e' x' Hmap Hi.
  destruct (Hm j k' e' x' f Hmap Hi) as (e & x & He & Hi' & _). by apply (H2 j k' e x).
Qed.

Lemma shrink_inv s s' : inv s → shrinks s s' →
  (∀ i v, procs s' !! i = Some v → wf v) →
  (∀ i v p x, procs s' !! i = Some v → view v p = Some x → a_shared x = true → a_backing x ≠ BAnonymous) →
  NoDup (free s') → (∀ f, f ∈ free s' → ¬ held s' f ∧ unmapped s' f) → inv s'.
Proof.
  intros [I1 I2 I3 I4 I5 I6] [Hm Hh] Hwf Hk Hnd Hfree. split; try done.
  - intros i k e' x' f Hmap Hi Hw Hs. destruct (Hm i k e' x' f Hmap Hi) as (e & x & He & Hi' & Hsh & _ & Hwr).
    apply (shrinks_sole s); [done |]. apply (I5 i k e x f); try done; [| congruence].
    destruct (Hwr Hw) as [|Hs']; [done | congruence].
  - intros i k e' x' f Hmap Hi Hb. destruct (Hm i k e' x' f Hmap Hi) as (e & x & He & Hi' & Hsh & Hbk & _).
    destruct (I6 i k e x f He Hi') as [H1 H2]; [congruence |]. split; [eauto |].
    intros j k' e2 x2 Hmap2 Hi2. destruct (Hm j k' e2 x2 f Hmap2 Hi2) as (e3 & x3 & He3 & Hi3 & Hsh3 & _).
    rewrite Hsh3. by apply (H2 j k' e3 x3).
Qed.

(** The free frames stay unreferenced. *)
Lemma shrinks_free s s' : inv s → shrinks s s' → free s' = free s →
  ∀ f, f ∈ free s' → ¬ held s' f ∧ unmapped s' f.
Proof.
  intros HI [Hm Hh] Hf f Hin. rewrite Hf in Hin. destruct (i_free s HI f Hin) as [H1 H2]. split; [eauto |].
  intros i k e x Hmap Hi. destruct (Hm i k e x f Hmap Hi) as (e0 & x0 & He & Hi0 & _). by apply (H2 i k e0 x0).
Qed.

(** One process changes its address space without new RAM pages. *)
Lemma proc_inv s i v v' : inv s → procs s !! i = Some v → wf v' →
  (∀ p x, view v' p = Some x → a_shared x = true → a_backing x ≠ BAnonymous) →
  (∀ k e' x' f, pt v' !! k = Some e' → view v' k = Some x' → item e' = Ram f →
     ∃ e x, pt v !! k = Some e ∧ view v k = Some x ∧ item e = Ram f ∧
       a_shared x' = a_shared x ∧ a_backing x' = a_backing x ∧
       (may_write e' = true → may_write e = true ∨ a_shared x = true)) →
  inv (set_procs (<[i := v']> (procs s)) s).
Proof.
  intros HI Hi Hwf' Hk Hpg. set (s' := set_procs _ s). assert (shrinks s s') as Hsh.
  { split; [| done]. intros j k e' x' f (v0 & Hj & He & Hx) Hf. cbn in Hj. destruct (decide (j = i)) as [->|Hne].
    - rewrite lookup_insert, decide_True in Hj by done. injection Hj as <-.
      destruct (Hpg k e' x' f He Hx Hf) as (e & x & H1 & H2 & H3). exists e, x. split; [by exists v | done].
    - rewrite lookup_insert_ne in Hj by done. exists e', x'. split; [by exists v0 |]. auto. }
  apply (shrink_inv s s' HI Hsh).
  - intros j w. cbn. destruct (decide (j = i)) as [->|Hne]; [rewrite lookup_insert, decide_True by done | rewrite lookup_insert_ne by done].
    + by intros [= <-].
    + apply (i_wf s HI).
  - intros j w p x. cbn. destruct (decide (j = i)) as [->|Hne]; [rewrite lookup_insert, decide_True by done | rewrite lookup_insert_ne by done].
    + intros [= <-]. apply Hk.
    + apply (i_kinds s HI).
  - apply (i_free_nodup s HI).
  - by apply (shrinks_free s s').
Qed.

(** *** Frames *)

Lemma alloc_ok c s f s1 : inv s → alloc_frame c s = Some (f, s1) →
  inv s1 ∧ procs s1 = procs s ∧ vmos s1 = vmos s ∧ f ∈ free s ∧ (f ∉ free s1) ∧
  (∀ g, g ≠ f → content s1 g = content s g) ∧ (content s1 f = c).
Proof.
  intros HI. unfold alloc_frame. destruct (free s) as [|f0 r] eqn:Hf; [done |]. intros [= <- <-].
  pose proof (i_free_nodup s HI) as Hnd. rewrite Hf in Hnd. apply NoDup_cons in Hnd as [Hn1 Hn2].
  split_and!; try done.
  - apply (shrink_inv s); try done; [| apply (i_wf s HI) | apply (i_kinds s HI) |].
    + split; [| done]. intros i k e' x' f Hm Hi. exists e', x'. split_and!; auto.
    + intros f Hin. destruct (i_free s HI f) as [H1 H2]; [rewrite Hf; by right |]. done.
  - by left.
  - intros g Hg. unfold content. cbn. by rewrite lookup_insert_ne.
  - unfold content. cbn. by rewrite lookup_insert, decide_True.
Qed.

(** The frame is in use, but not as private memory: a VMO may hold it. *)
Definition holdable (s : Sys) (f : Z) : Prop :=
  (f ∉ free s) ∧ ∀ i k e x, maps s i k e x → item e = Ram f →
    a_backing x ≠ BAnonymous ∧ (may_write e = true → a_shared x = true).

Lemma held_holdable s f : inv s → held s f → holdable s f.
Proof.
  intros HI Hh. split; [intros Hf; by destruct (i_free s HI f Hf) |]. intros i k e x Hm Hi. split.
  - intros Hb. by destruct (i_anon s HI i k e x f Hm Hi Hb).
  - intros Hw. destruct (a_shared x) eqn:Hs; [done |]. by destruct (i_cow s HI i k e x f Hm Hi Hw Hs).
Qed.

Lemma unmapped_holdable s f : unmapped s f → (f ∉ free s) → holdable s f.
Proof. intros Hu Hf. split; [done |]. intros i k e x Hm Hi. by destruct (Hu i k e x Hm). Qed.

(** The VMOs change: the frames that they hold can be held. *)
Lemma vmos_inv s w : inv s → (∀ f, held (set_vmos w s) f → holdable s f) → inv (set_vmos w s).
Proof.
  intros [I1 I2 I3 I4 I5 I6] Hh. split; try done.
  - intros f Hf. destruct (I4 f Hf) as [H1 H2]. split; [| done]. by intros [? _]%Hh.
  - intros i k e x f Hm Hi Hw Hs. destruct (I5 i k e x f Hm Hi Hw Hs) as [H1 H2]. split; [| done].
    intros [_ Hu]%Hh. destruct (Hu i k e x Hm Hi) as [_ Hsh]. specialize (Hsh Hw). congruence.
  - intros i k e x f Hm Hi Hb. destruct (I6 i k e x f Hm Hi Hb) as [H1 H2]. split; [| done].
    intros [_ Hu]%Hh. by destruct (Hu i k e x Hm Hi).
Qed.

(** *** New pages *)

Lemma put_entry_procs i k e s v : procs s !! i = Some v →
  procs (put_entry i k e s) = <[i := set_pt (<[k := e]> (pt v)) v]> (procs s).
Proof. intros Hv. unfold put_entry, vmar_of. cbn. by rewrite Hv. Qed.

Lemma put_entry_maps i k e s v x j k' e' x' : procs s !! i = Some v → view v k = Some x →
  maps (put_entry i k e s) j k' e' x' ↔
  (j = i ∧ k' = k ∧ e' = e ∧ x' = x) ∨ (¬ (j = i ∧ k' = k) ∧ maps s j k' e' x').
Proof.
  intros Hv Hx. unfold maps. rewrite (put_entry_procs i k e s v Hv). destruct (decide (j = i)) as [->|Hne].
  - rewrite lookup_insert, decide_True by done. rewrite Hv. split.
    + intros (w & [= <-] & He & Hvw). change (view (set_pt _ v) k') with (view v k') in Hvw. cbn in He.
      destruct (decide (k' = k)) as [->|Hk].
      * rewrite lookup_insert, decide_True in He by done. left. split_and!; congruence.
      * rewrite lookup_insert_ne in He by done. right. split; [naive_solver |]. by exists v.
    + intros [(_ & -> & -> & ->)|[Hn (w & [= <-] & He & Hvw)]].
      * eexists. split; [done |]. cbn. by rewrite lookup_insert, decide_True.
      * eexists. split; [done |]. cbn. rewrite lookup_insert_ne; [done | naive_solver].
  - rewrite lookup_insert_ne by done. naive_solver.
Qed.

Lemma put_entry_held i k e s f : held (put_entry i k e s) f ↔ held s f.
Proof. done. Qed.

(** A new entry for a frame keeps the invariant, if it is the only reference to it
    when a private mapping can write it, and if anonymous pages stay apart from
    those of VMOs and shared mappings. *)
Lemma put_entry_inv i k e s v x f : inv s → procs s !! i = Some v → view v k = Some x →
  (PAGE_SIZE | k) → entry_ok (a_perms x) e → item e = Ram f → (f ∉ free s) →
  (may_write e = true → a_shared x = false → sole s i k f) →
  (∀ j k' e' x', maps s j k' e' x' → item e' = Ram f → ¬ (j = i ∧ k' = k) →
     ¬ (may_write e' = true ∧ a_shared x' = false)) →
  (a_backing x = BAnonymous → ¬ held s f ∧ ∀ j k' e' x', maps s j k' e' x' → item e' = Ram f → a_shared x' = false) →
  (a_shared x = true → ∀ j k' e' x', maps s j k' e' x' → item e' = Ram f → a_backing x' ≠ BAnonymous) →
  inv (put_entry i k e s).
Proof.
  intros HI Hv Hx Dk He Hf Hnf Hsole Hexcl Hanon Hshr. pose proof HI as [I1 I2 I3 I4 I5 I6].
  pose proof (put_entry_maps i k e s v x) as Hmaps.
  assert (∀ j k' e' x', maps (put_entry i k e s) j k' e' x' ↔
    (j = i ∧ k' = k ∧ e' = e ∧ x' = x) ∨ (¬ (j = i ∧ k' = k) ∧ maps s j k' e' x')) as Hm by (intros; by apply Hmaps).
  clear Hmaps. split; try done.
  - intros j w. rewrite (put_entry_procs i k e s v Hv). destruct (decide (j = i)) as [->|Hne].
    2: { rewrite lookup_insert_ne by done. apply I1. }
    rewrite lookup_insert, decide_True by done. intros [= <-]. specialize (I1 i v Hv) as [Hwf Hpg].
    split; [split; apply Hwf |]. intros k' e'. cbn. destruct (decide (k' = k)) as [->|Hk]; [| rewrite lookup_insert_ne by done; apply Hpg].
    rewrite lookup_insert, decide_True by done. intros [= <-]. apply page_ok_has. split; [done |].
    exists x. split; [| done]. apply view_has; [apply Hwf | done].
  - intros j w p y. rewrite (put_entry_procs i k e s v Hv). destruct (decide (j = i)) as [->|Hne].
    + rewrite lookup_insert, decide_True by done. intros [= <-]. by apply (I2 i v p y).
    + rewrite lookup_insert_ne by done. apply I2.
  - intros g Hg. destruct (I4 g Hg) as [H1 H2]. split; [done |]. intros j k' e' x' [(_ & _ & -> & _)|[_ Hmp]]%Hm.
    + rewrite Hf. intros [= ->]. done.
    + by apply (H2 j k' e' x').
  - intros j k' e' x' g [(-> & -> & -> & ->)|[Hn Hmp]]%Hm Hi Hw Hs.
    + assert (g = f) as -> by congruence. destruct (Hsole Hw Hs) as [H1 H2]. split; [done |].
      intros j2 k2 e2 x2 [(-> & -> & _ & _)|[Hn2 Hmp2]]%Hm Hi2; [done |]. by apply (H2 j2 k2 e2 x2).
    + destruct (I5 j k' e' x' g Hmp Hi Hw Hs) as [H1 H2]. split; [done |].
      intros j2 k2 e2 x2 [(-> & -> & -> & ->)|[Hn2 Hmp2]]%Hm Hi2; [| by apply (H2 j2 k2 e2 x2)].
      assert (g = f) as -> by congruence. exfalso. by apply (Hexcl j k' e' x').
  - intros j k' e' x' g [(-> & -> & -> & ->)|[Hn Hmp]]%Hm Hi Hb.
    + assert (g = f) as -> by congruence. destruct (Hanon Hb) as [H1 H2]. split; [done |].
      intros j2 k2 e2 x2 [(-> & -> & -> & ->)|[Hn2 Hmp2]]%Hm Hi2; [| by apply (H2 j2 k2 e2 x2)].
      destruct (a_shared x) eqn:Hsx; [| done]. by destruct (I2 i v k x Hv Hx).
    + destruct (I6 j k' e' x' g Hmp Hi Hb) as [H1 H2]. split; [done |].
      intros j2 k2 e2 x2 [(-> & -> & -> & ->)|[Hn2 Hmp2]]%Hm Hi2; [| by apply (H2 j2 k2 e2 x2)].
      assert (g = f) as -> by congruence. destruct (a_shared x) eqn:Hsx; [| done].
      exfalso. by apply (Hshr eq_refl j k' e' x').
Qed.

(** A frame that nothing refers to can be mapped anywhere, in any way. *)
Lemma put_fresh_inv i k e s v x f : inv s → procs s !! i = Some v → view v k = Some x →
  (PAGE_SIZE | k) → entry_ok (a_perms x) e → item e = Ram f → (f ∉ free s) → ¬ held s f → unmapped s f →
  inv (put_entry i k e s).
Proof.
  intros HI Hv Hx Dk He Hf Hnf Hnh Hu. apply (put_entry_inv i k e s v x f); try done.
  - intros _ _. split; [done |]. intros j k' e' x' Hm Hi. by destruct (Hu j k' e' x' Hm).
  - intros j k' e' x' Hm Hi. by destruct (Hu j k' e' x' Hm).
  - intros _. split; [done |]. intros j k' e' x' Hm Hi. by destruct (Hu j k' e' x' Hm).
  - intros _ j k' e' x' Hm Hi. by destruct (Hu j k' e' x' Hm).
Qed.

(** A frame of a VMO can be mapped without write access by a private mapping, and in
    any way by a shared one. *)
Lemma put_held_inv i k e s v x f : inv s → procs s !! i = Some v → view v k = Some x →
  (PAGE_SIZE | k) → entry_ok (a_perms x) e → item e = Ram f → held s f → a_backing x ≠ BAnonymous →
  (may_write e = true → a_shared x = true) → inv (put_entry i k e s).
Proof.
  intros HI Hv Hx Dk He Hf Hh Hb Hw. apply (put_entry_inv i k e s v x f); try done.
  - intros Hin. by destruct (i_free s HI f Hin).
  - intros Hmw Hs. rewrite (Hw Hmw) in Hs. done.
  - intros j k' e' x' Hm Hi _ [Hw' Hs']. by destruct (i_cow s HI j k' e' x' f Hm Hi Hw' Hs').
  - intros _ j k' e' x' Hm Hi Hbx. by destruct (i_anon s HI j k' e' x' f Hm Hi Hbx).
Qed.
End Cow.
