(* ===== verification/CowFault.v ===== *)
(** * Page faults keep copy-on-write

    The page fault handler never panics, keeps the invariant of [Cow] and the content
    of every mapped page, and, when it succeeds, leaves the page mapped with the
    access that was asked for. *)

From stdpp Require Import gmap.
From S2P Require Import Prelude IntervalSet VmMapping Vmar VmarMaps VmarOps PageFault PageCache Cow.
Local Open Scope Z_scope.

Module CowFault.
Import Vmar VmarMaps VmarOps PageFault PageCache Cow.

(** What process [j] reads at the page [k]. *)
Definition reads (s : Sys) (j k : Z) : option Z :=
  match entry_at s j k with
  | Some e => match item e with Ram f => Some (content s f) | Io _ => None end
  | None => None
  end.

(** The steps of a fault of process [i]. *)
Record faulted (i : Z) (s s' : Sys) : Prop := {
  fa_inv : inv s';
  fa_others : ∀ j, j ≠ i → procs s' !! j = procs s !! j;
  fa_self : ∃ p, procs s' !! i = set_pt p <$> procs s !! i;
  fa_free : ∀ f, f ∈ free s' → f ∈ free s;
  fa_content : ∀ f, f ∉ free s → content s' f = content s f;
  fa_present : ∀ k, is_Some (entry_at s i k) → is_Some (entry_at s' i k);
  fa_reads : ∀ j k c, reads s j k = Some c → reads s' j k = Some c
}.

Lemma set_pt_pt v : set_pt (pt v) v = v.
Proof. by destruct v. Qed.

Lemma faulted_refl i s : inv s → faulted i s s.
Proof.
  intros HI. split; try done. exists (pt (vmar_of s i)). unfold vmar_of.
  destruct (procs s !! i) as [v|]; cbn; [by rewrite set_pt_pt | done].
Qed.

Lemma faulted_trans i s s1 s2 : faulted i s s1 → faulted i s1 s2 → faulted i s s2.
Proof.
  intros [_ H2 [p H3] H4 H5 H6 H7] [G1 G2 [q G3] G4 G5 G6 G7]. split; auto.
  - intros j Hj. by rewrite G2, H2.
  - exists q. rewrite G3, H3. by destruct (procs s !! i).
  - intros f Hf. rewrite G5, H5; auto.
Qed.

(** Every entry of a page table lies in a mapping. *)
Lemma entry_maps s j k e : inv s → entry_at s j k = Some e →
  (PAGE_SIZE | k) ∧ ∃ x, maps s j k e x ∧ entry_ok (a_perms x) e.
Proof.
  intros HI He. unfold entry_at, vmar_of in He. destruct (procs s !! j) as [v|] eqn:Hv; [| done]. cbn in He.
  destruct (i_wf s HI j v Hv) as [Hwf Hpg].
  destruct (proj1 (page_ok_has _ _ _) (Hpg k e He)) as [Dk (x & Hx & Hok)]. split; [done |].
  exists x. split; [| done]. exists v. split_and!; try done. apply view_has; [apply Hwf | done].
Qed.

Lemma mapped_not_free s j k e f : inv s → entry_at s j k = Some e → item e = Ram f → f ∉ free s.
Proof.
  intros HI He Hf Hin. destruct (entry_maps s j k e HI He) as (_ & x & Hm & _).
  by apply (proj2 (i_free s HI f Hin) j k e x).
Qed.

Lemma reads_content s s' j k : inv s → procs s' !! j = procs s !! j →
  (∀ f, f ∉ free s → content s' f = content s f) → reads s' j k = reads s j k.
Proof.
  intros HI Hp Hc. unfold reads, entry_at, vmar_of. rewrite Hp.
  destruct (pt (default new (procs s !! j)) !! k) as [e|] eqn:He; [| done].
  destruct (item e) as [f|] eqn:Hf; [| done]. rewrite Hc; [done |].
  by apply (mapped_not_free s j k e f).
Qed.

(** Steps that leave the address spaces as they are. *)
Lemma same_procs i s s' : inv s → inv s' → procs s' = procs s →
  (∀ f, f ∈ free s' → f ∈ free s) → (∀ f, f ∉ free s → content s' f = content s f) → faulted i s s'.
Proof.
  intros HI HI' Hp Hf Hc. split; try done.
  - intros j _. by rewrite Hp.
  - destruct (faulted_refl i s HI) as [_ _ H _ _ _ _]. by rewrite Hp.
  - intros k. unfold entry_at, vmar_of. by rewrite Hp.
  - intros j k c <-. apply reads_content; [done | by rewrite Hp | done].
Qed.

Lemma alloc_faulted i c s f s1 : inv s → alloc_frame c s = Some (f, s1) →
  faulted i s s1 ∧ procs s1 = procs s ∧ vmos s1 = vmos s ∧ f ∈ free s ∧ (f ∉ free s1) ∧ content s1 f = c ∧
  ¬ held s1 f ∧ unmapped s1 f.
Proof.
  intros HI Ha. destruct (alloc_ok c s f s1 HI Ha) as (HI1 & Hp & Hv & Hin & Hout & Hoth & Hc).
  assert (∀ g, g ∈ free s1 → g ∈ free s) as Hsub.
  { unfold alloc_frame in Ha. destruct (free s); [done |]. injection Ha as <- <-. cbn. by right. }
  destruct (i_free s HI f Hin) as [H1 H2]. split_and!; try done.
  - apply same_procs; try done. intros g Hg. apply Hoth. by intros ->.
  - unfold held. by rewrite Hv.
  - intros i0 k e x (v & Hpv & Hev). rewrite Hp in Hpv. apply (H2 i0 k e x). by exists v.
Qed.

(** ** Pages of VMOs *)

Lemma vmo_held s vmo idx f :
  v_pages (vmo_of s vmo) !! idx = Some f ∨ pager_pages (vmo_of s vmo) !! idx = Some f → held s f.
Proof.
  unfold vmo_of. destruct (vmos s !! vmo) as [w|] eqn:Hw; cbn; [| by intros [?|?]].
  intros H. by exists vmo, w, idx.
Qed.

Lemma vmo_of_put vmo w s : vmo_of (put_vmo vmo w s) vmo = w.
Proof. unfold vmo_of, put_vmo. cbn. by rewrite lookup_insert, decide_True. Qed.

(** A VMO may take a page that is not private memory. *)
Lemma put_vmo_faulted i vmo w s f : inv s → holdable s f →
  (∀ idx g, v_pages w !! idx = Some g ∨ pager_pages w !! idx = Some g →
     g = f ∨ ∃ idx, v_pages (vmo_of s vmo) !! idx = Some g ∨ pager_pages (vmo_of s vmo) !! idx = Some g) →
  faulted i s (put_vmo vmo w s).
Proof.
  intros HI Hf Hw. apply same_procs; try done. apply vmos_inv; [done |].
  intros g (vmo' & w' & idx & Hl & Hg). cbn in Hl. destruct (decide (vmo' = vmo)) as [->|Hne].
  - rewrite lookup_insert, decide_True in Hl by done. injection Hl as <-.
    destruct (Hw idx g Hg) as [->|[idx' Hin]]; [done |]. apply held_holdable; [done |]. by apply (vmo_held s vmo idx').
  - rewrite lookup_insert_ne in Hl by done. apply held_holdable; [done |]. by exists vmo', w', idx.
Qed.

(** The page cache takes pages, and leaves the VMO as it is. *)
Definition cached (i vmo : Z) (s s' : Sys) : Prop :=
  faulted i s s' ∧ procs s' = procs s ∧ v_size (vmo_of s' vmo) = v_size (vmo_of s vmo) ∧
  has_pager (vmo_of s' vmo) = has_pager (vmo_of s vmo) ∧ v_pages (vmo_of s' vmo) = v_pages (vmo_of s vmo).

Lemma cached_refl i vmo s : inv s → cached i vmo s s.
Proof. intros HI. split; [by apply faulted_refl | done]. Qed.

Lemma cached_trans i vmo s s1 s2 : cached i vmo s s1 → cached i vmo s1 s2 → cached i vmo s s2.
Proof.
  intros (H1 & H2 & H3 & H4 & H5) (G1 & G2 & G3 & G4 & G5).
  split; [by apply (faulted_trans i s s1) |]. split_and!; congruence.
Qed.

Lemma holdable_faulted i s s' f : inv s → faulted i s s' → procs s' = procs s → holdable s f → holdable s' f.
Proof.
  intros HI Hfa Hp [Hf Hm]. split; [by intros ?%(fa_free i s s' Hfa) |]. intros j k e x (v & Hv & Hev).
  rewrite Hp in Hv. apply (Hm j k e x). by exists v.
Qed.

(** The state of the cache changes, and no page of it. *)
Lemma same_pages_ok i vmo w s : inv s → v_size w = v_size (vmo_of s vmo) → has_pager w = has_pager (vmo_of s vmo) →
  v_pages w = v_pages (vmo_of s vmo) → pager_pages w = pager_pages (vmo_of s vmo) → cached i vmo s (put_vmo vmo w s).
Proof.
  intros HI H1 H2 H3 H4. split; [| by rewrite vmo_of_put]. apply same_procs; try done. apply vmos_inv; [done |].
  intros g (vmo' & w' & idx & Hl & Hg). apply held_holdable; [done |]. cbn in Hl. destruct (decide (vmo' = vmo)) as [->|Hne].
  - rewrite lookup_insert, decide_True in Hl by done. injection Hl as <-. rewrite H3, H4 in Hg. by apply (vmo_held s vmo idx).
  - rewrite lookup_insert_ne in Hl by done. by exists vmo', w', idx.
Qed.

Lemma put_ra_ok i vmo ra s : inv s → cached i vmo s (put_ra vmo ra s).
Proof. intros HI. by apply same_pages_ok. Qed.

(** A new page is put into the cache. *)
Lemma put_page_ok i vmo idx f st s : inv s → holdable s f →
  cached i vmo s (put_page vmo idx f st s) ∧ holdable (put_page vmo idx f st s) f.
Proof.
  intros HI Hf. assert (faulted i s (put_page vmo idx f st s)) as Hfa.
  { apply (put_vmo_faulted i vmo _ s f); [done | done |]. cbn. intros idx' h. destruct (decide (idx' = idx)) as [->|Hne].
    - rewrite lookup_insert, decide_True by done. intros [?|[= ->]]; [right; eauto | by left].
    - rewrite lookup_insert_ne by done. eauto. }
  split; [| by apply (holdable_faulted i s)]. split; [done |]. unfold put_page. by rewrite vmo_of_put.
Qed.

Lemma alloc_cached i vmo c s f s1 : inv s → alloc_frame c s = Some (f, s1) → cached i vmo s s1 ∧ holdable s1 f.
Proof.
  intros HI Ha. destruct (alloc_faulted i c s f s1 HI Ha) as (Hfa & Hp & Hv & _ & Hnf & _ & _ & Hu).
  split; [| by apply unmapped_holdable]. split; [done |]. unfold vmo_of. by rewrite Hv.
Qed.

Lemma cached_inv i vmo s s' : cached i vmo s s' → inv s'.
Proof. intros [Hfa _]. apply Hfa. Qed.

Lemma cached_holdable i vmo s s' f : inv s → cached i vmo s s' → holdable s f → holdable s' f.
Proof. intros HI (Hfa & Hp & _). by apply (holdable_faulted i s). Qed.

Lemma new_page_ok i vmo idx c st s f s1 : inv s → alloc_frame c s = Some (f, s1) →
  cached i vmo s (put_page vmo idx f st s1) ∧ holdable (put_page vmo idx f st s1) f.
Proof.
  intros HI Ha. destruct (alloc_cached i vmo c s f s1 HI Ha) as [Hc Hf].
  destruct (put_page_ok i vmo idx f st s1 (cached_inv _ _ _ _ Hc) Hf) as [Hc' Hf']. split; [| done].
  by apply (cached_trans i vmo s s1).
Qed.

Lemma wait_cached i vmo s r s' : inv s → wait_for_prev_readahead vmo s = (r, s') → cached i vmo s s'.
Proof.
  intros HI. unfold wait_for_prev_readahead. repeat case_match; intros [= <- <-]; try by apply cached_refl.
  by apply same_pages_ok.
Qed.

Lemma readahead_cached i disk vmo window s r s' : inv s → readahead_loop disk vmo window s = (r, s') → cached i vmo s s'.
Proof.
  revert s. induction window as [|idx window IH]; intros s HI; cbn [readahead_loop].
  { intros [= <- <-]. by apply cached_refl. }
  destruct (alloc_frame _ s) as [[f s1]|] eqn:Ha; [| intros [= <- <-]; by apply cached_refl].
  destruct (read_page_async disk vmo idx) as [bios|e]; [| intros [= <- <-]; by apply cached_refl].
  destruct (alloc_cached i vmo _ s f s1 HI Ha) as [Hc1 Hf1]. pose proof (cached_inv _ _ _ _ Hc1) as HI1.
  set (ra := mkRa _ _ _ _). pose proof (put_ra_ok i vmo ra s1 HI1) as Hc2. pose proof (cached_inv _ _ _ _ Hc2) as HI2.
  destruct (put_page_ok i vmo idx f (match bios with [] => UpToDate | _ => Uninit end) (put_ra vmo ra s1) HI2) as [Hc3 _];
    [by apply (cached_holdable i vmo s1) |]. intros E.
  apply (cached_trans i vmo s s1); [done |]. apply (cached_trans i vmo s1 (put_ra vmo ra s1)); [done |].
  eapply cached_trans; [exact Hc3 |]. apply IH; [by eapply cached_inv | done].
Qed.

Lemma read_ahead_cached i disk vmo idx s r s' : inv s → read_ahead disk vmo idx s = Done (r, s') → cached i vmo s s'.
Proof.
  intros HI H. apply bind_done in H as ([r1 s1] & H1 & H2).
  assert (cached i vmo s s1) as Hc1.
  { destruct (should_readahead _ idx _); [| injection H1 as <- <-; by apply cached_refl].
    apply bind_done in H1 as (ra & _ & [= H1]). unfold conduct_readahead in H1.
    pose proof (put_ra_ok i vmo ra s HI) as Hc. apply (cached_trans i vmo s (put_ra vmo ra s)); [done |].
    destruct (ra_window (ra_state (vmo_of (put_ra vmo ra s) vmo)));
      [| injection H1 as <- <-; by apply cached_refl, (cached_inv i vmo s)].
    exact (readahead_cached i disk vmo _ _ r1 s1 (cached_inv _ _ _ _ Hc) H1). }
  destruct r1; injection H2 as <- <-; [| done]. apply (cached_trans i vmo s s1); [done |].
  apply put_ra_ok. by apply (cached_inv i vmo s).
Qed.

Lemma cache_page_ok i disk vmo idx s r s' : inv s → cache_page disk vmo idx s = Done (r, s') →
  cached i vmo s s' ∧ ∀ f, r = ROk f → holdable s' f.
Proof.
  intros HI. unfold cache_page.
  assert (∀ s1 g, inv s1 → pager_pages (vmo_of s1 vmo) !! idx = Some g → holdable s1 g) as Hold.
  { intros s1 g HI1 Hg. apply held_holdable; [done |]. apply (vmo_held s1 vmo idx). by right. }
  assert (∀ s1 g, cached i vmo s s1 → holdable s1 g → cached i vmo s s1 ∧ ∀ f, @ROk Z Errno g = ROk f → holdable s1 f) as Hok.
  { intros s1 g Hc Hg. split; [done |]. by intros f [= <-]. }
  assert (∀ s1 e, cached i vmo s s1 → cached i vmo s s1 ∧ ∀ f, @RErr Z Errno e = ROk f → holdable s1 f) as Herr by done.
  pose proof (cached_refl i vmo s HI) as Hrefl.
  destruct (pager_pages (vmo_of s vmo) !! idx) as [g|] eqn:Hg.
  - destruct (load_state (vmo_of s vmo) idx); try (intros [= <- <-]; by apply Hok, (Hold s g)).
    intros (_ & _ & H)%bind_done. destruct (wait_for_prev_readahead vmo s) as [r1 s1] eqn:Hw.
    pose proof (wait_cached i vmo s r1 s1 HI Hw) as Hc. destruct r1; [| injection H as <- <-; by apply Herr].
    apply bind_done in H as (g1 & Hg1 & [= <- <-]). apply Hok; [done |]. apply Hold; [by apply (cached_inv i vmo s) |].
    destruct (pager_pages (vmo_of s1 vmo) !! idx); [by injection Hg1 as -> | done].
  - destruct (idx <? npages disk vmo).
    + unfold read_new_page. destruct (alloc_frame _ s) as [[f s1]|] eqn:Ha; [| intros [= <- <-]; by apply Herr].
      destruct (read_page_async disk vmo idx) as [bios|]; [| intros [= <- <-]; by apply Herr].
      destruct (wait bios) as [[]|]; intros [= <- <-]; try by apply Herr.
      destruct (new_page_ok i vmo idx _ UpToDate s f s1 HI Ha). by apply Hok.
    + destruct (alloc_frame 0 s) as [[f s1]|] eqn:Ha; intros [= <- <-]; [| by apply Herr].
      destruct (new_page_ok i vmo idx _ Uninit s f s1 HI Ha). by apply Hok.
Qed.

Lemma pager_commit_ok i disk vmo idx s r s1 : inv s → commit_page disk vmo idx s = Done (r, s1) →
  cached i vmo s s1 ∧ ∀ f, r = ROk f → holdable s1 f.
Proof.
  intros HI. unfold commit_page.
  destruct (if prev_readahead_is_completed disk vmo s then _ else _) as [r0 s0] eqn:H0.
  assert (cached i vmo s s0) as Hc0.
  { destruct (prev_readahead_is_completed disk vmo s); [by apply (wait_cached i vmo s r0) |].
    injection H0 as <- <-. by apply cached_refl. }
  pose proof (cached_inv i vmo s s0 Hc0) as HI0. destruct r0; [| by intros [= <- <-]].
  intros ([r2 s2] & H2 & H)%bind_done. destruct (cache_page_ok i disk vmo idx s0 r2 s2 HI0 H2) as [Hc2 Hf2].
  pose proof (cached_trans i vmo s s0 s2 Hc0 Hc2) as Hc. destruct r2 as [f|e]; [| by injection H as <- <-].
  apply bind_done in H as ([r3 s3] & H3 & H).
  pose proof (read_ahead_cached i disk vmo idx s2 r3 s3 (cached_inv i vmo s s2 Hc) H3) as Hc3.
  destruct r3; injection H as <- <-; (split; [by apply (cached_trans i vmo s s2) |]); [| done].
  intros f' [= <-]. apply (cached_holdable i vmo s2); [by apply (cached_inv i vmo s) | done | by apply Hf2].
Qed.

(** What a commit leaves of a VMO. *)
Definition committed (vmo idx : Z) (s s' : Sys) (r : result Z Errno) : Prop :=
  procs s' = procs s ∧ v_size (vmo_of s' vmo) = v_size (vmo_of s vmo) ∧
  has_pager (vmo_of s' vmo) = has_pager (vmo_of s vmo) ∧
  ∀ f, r = ROk f → held s' f ∧ v_pages (vmo_of s' vmo) !! idx = Some f.

Lemma store_page_ok i vmo idx s1 f : inv s1 → holdable s1 f →
  let w := vmo_of s1 vmo in
  let s2 := put_vmo vmo (set_pages (<[idx := f]> (v_pages w)) (pager_pages w) (page_states w) w) s1 in
  faulted i s1 s2 ∧ held s2 f ∧ v_pages (vmo_of s2 vmo) !! idx = Some f.
Proof.
  intros HI Hf w s2. split_and!.
  - apply (put_vmo_faulted i vmo _ s1 f); try done. cbn. intros idx' g. destruct (decide (idx' = idx)) as [->|Hne].
    + rewrite lookup_insert, decide_True by done. intros [[= ->]|?]; [by left | right; eauto].
    + rewrite lookup_insert_ne by done. eauto.
  - apply (vmo_held s2 vmo idx). left. unfold s2. rewrite vmo_of_put. cbn. by rewrite lookup_insert, decide_True.
  - unfold s2. rewrite vmo_of_put. cbn. by rewrite lookup_insert, decide_True.
Qed.

Lemma commit_on_ok i disk vmo idx s r s' : inv s → commit_on disk vmo idx s = Done (r, s') →
  faulted i s s' ∧ committed vmo idx s s' r.
Proof.
  intros HI ([[r1 s1] s2] & Hpre & H)%bind_done.
  assert (cached i vmo s s1 ∧ cached i vmo s s2 ∧ ∀ f, r1 = ROk f → holdable s1 f) as (Hc1 & (Hfa2 & Hp2 & Hs2 & Hg2 & Hv2) & Hf).
  { pose proof (cached_refl i vmo s HI) as Hrefl. unfold prepare_vmo_page in Hpre.
    destruct (has_pager (vmo_of s vmo)) eqn:Hpg.
    - apply bind_done in Hpre as ([r0 s0] & Hco & [= -> -> <-]).
      by destruct (pager_commit_ok i disk vmo idx s r1 s1 HI Hco) as [Hc Hf].
    - destruct (alloc_frame 0 s) as [[f s0]|] eqn:Ha; injection Hpre as <- <- <-; [| done].
      destruct (alloc_cached i vmo 0 s f s0 HI Ha) as [Hc Hf]. split_and!; try done. by intros f' [= <-]. }
  destruct r1 as [f|e]; [| by injection H as <- <-]. pose proof Hc1 as (Hfa & Hp & Hs & Hg & Hv). cbv zeta in H.
  destruct (v_size (vmo_of s1 vmo) <? idx * PAGE_SIZE); [by injection H as <- <- |].
  destruct (v_pages (vmo_of s1 vmo) !! idx) as [pg|] eqn:Hl; injection H as <- <-.
  - split; [done |]. split_and!; try done. intros f' [= <-]. rewrite Hv in Hl. rewrite Hv2. split; [| done].
    apply (vmo_held s2 vmo idx). left. congruence.
  - destruct (store_page_ok i vmo idx s1 f (fa_inv i s s1 Hfa) (Hf f eq_refl)) as (H1 & H2 & H3).
    split; [by apply (faulted_trans i s s1) |]. unfold committed. rewrite !vmo_of_put in *. split_and!; try done.
    by intros f' [= <-].
Qed.

(** [try_commit_with_cursor] gives a page of the VMO, or asks for a read of the page
    that is missing, with nothing changed. *)
Lemma try_commit_ok i disk vmo idx s r s' : inv s → try_commit_with_cursor disk vmo idx s = Done (r, s') →
  faulted i s s' ∧ procs s' = procs s ∧ v_size (vmo_of s' vmo) = v_size (vmo_of s vmo) ∧
  has_pager (vmo_of s' vmo) = has_pager (vmo_of s vmo) ∧
  match r with
  | ROk f => held s' f
  | RErr (NeedIo n) => n = idx ∧ s' = s ∧ v_pages (vmo_of s vmo) !! idx = None
  | RErr (CommitErr _) => True
  end.
Proof.
  intros HI. unfold try_commit_with_cursor. destruct (v_pages (vmo_of s vmo) !! idx) as [pg|] eqn:Hl.
  - intros [= <- <-]. split_and!; try done; [by apply faulted_refl |]. apply (vmo_held s vmo idx). by left.
  - destruct (has_pager (vmo_of s vmo)) eqn:Hpg.
    + intros [= <- <-]. split_and!; try done. by apply faulted_refl.
    + intros ([r1 s1] & Hco & H)%bind_done.
      destruct (commit_on_ok i disk vmo idx s r1 s1 HI Hco) as (Hfa & Hp & Hs & Hp' & Hr).
      destruct r1 as [f|e]; injection H as <- <-; rewrite Hpg in Hp'; split_and!; try done.
      by destruct (Hr f eq_refl).
Qed.

(** ** Access bits *)

Lemma all8 (P : Z → bool) : forallb P [0; 1; 2; 3; 4; 5; 6; 7] = true → ∀ x, 0 ≤ x < 8 → P x = true.
Proof.
  intros H x Hx. rewrite forallb_forall in H. apply H.
  assert (x = 0 ∨ x = 1 ∨ x = 2 ∨ x = 3 ∨ x = 4 ∨ x = 5 ∨ x = 6 ∨ x = 7) as Hc by lia.
  repeat (destruct Hc as [->|Hc]; [cbn; tauto |]). subst x. cbn. tauto.
Qed.

Lemma low_range x : 0 ≤ Z.land x RWX < 8.
Proof. change RWX with (Z.ones 3). rewrite Z.land_ones by lia. apply Z.mod_pos_bound. done. Qed.

Lemma low_low x y : 0 ≤ y < 8 → Z.land x y = Z.land (Z.land x RWX) y.
Proof.
  intros Hy. rewrite <- Z.land_assoc. f_equal. apply Z.eqb_eq.
  exact (all8 (λ y, y =? Z.land RWX y) eq_refl y Hy).
Qed.

(** Permissions and page flags have the same access bits. *)
Lemma flags_of_perms_low p : flags_of_perms p = Z.land p RWX.
Proof.
  unfold flags_of_perms, VmPerms.contains. rewrite (low_low p VmPerms.READ), (low_low p VmPerms.WRITE), (low_low p VmPerms.EXEC) by done.
  generalize (Z.land p RWX) (low_range p). intros x Hx. apply Z.eqb_eq.
  exact (all8 (λ x, flags_of_perms x =? x) eq_refl x Hx).
Qed.

Lemma entry_ok_low p e : entry_ok p e ↔
  Z.land (flags e) RWX = Z.land p RWX ∨ Z.land (flags e) RWX = Z.ldiff (Z.land p RWX) PageFlags.W.
Proof. unfold entry_ok. by rewrite flags_of_perms_low. Qed.

Lemma may_write_low e : may_write e = Z.testbit (Z.land (flags e) RWX) 1.
Proof. unfold may_write. rewrite Z.land_spec. by rewrite andb_true_r. Qed.

(** Entries withhold no access but writing. *)
Lemma entry_allows p e req : entry_ok p e → VmPerms.contains p req = true → 0 ≤ req < 8 →
  VmPerms.contains req VmPerms.WRITE = false ∨ may_write e = true →
  VmPerms.contains (perms_of_flags (flags e)) req = true.
Proof.
  intros He%entry_ok_low Hp Hr Hw. change perms_of_flags with flags_of_perms.
  rewrite flags_of_perms_low. unfold VmPerms.contains in *. rewrite (low_low p) in Hp by done.
  rewrite may_write_low in Hw. revert He Hp Hw.
  generalize (Z.land (flags e) RWX) (low_range (flags e)) (Z.land p RWX) (low_range p). intros x Hx y Hy.
  pose proof (all8 (λ x, forallb (λ y, forallb (λ r,
    implb (((x =? y) || (x =? Z.ldiff y 2)) && (Z.land y r =? r) && (negb (Z.land r 2 =? 2) || Z.testbit x 1))
      (Z.land x r =? r)) [0; 1; 2; 3; 4; 5; 6; 7]) [0; 1; 2; 3; 4; 5; 6; 7]) eq_refl x Hx) as H1.
  apply (all8 _) with (x := y) in H1; [| done]. apply (all8 _) with (x := req) in H1; [| done].
  intros He Hp Hw. rewrite Hp in H1.
  assert ((x =? y) || (x =? Z.ldiff y 2) = true) as E1.
  { apply orb_true_iff. by destruct He as [He|He]; [left | right]; apply Z.eqb_eq. }
  assert (negb (Z.land req 2 =? 2) || Z.testbit x 1 = true) as E2.
  { apply orb_true_iff. destruct Hw as [Hw|Hw]; [left | by right]. by apply negb_true_iff. }
  by rewrite E1, E2 in H1.
Qed.

(** The flags of a page that was made writable. *)
Lemma lor_low x : Z.land (Z.lor x (Z.lor (Z.lor PageFlags.W PageFlags.ACCESSED) PageFlags.DIRTY)) RWX =
  Z.lor (Z.land x RWX) PageFlags.W.
Proof. by rewrite Z.land_lor_distr_l. Qed.

Lemma writable_ok p e f : entry_ok p e → VmPerms.contains p VmPerms.WRITE = true →
  let e' := mkPte (Ram f) (Z.lor (flags e) (Z.lor (Z.lor PageFlags.W PageFlags.ACCESSED) PageFlags.DIRTY)) in
  entry_ok p e' ∧ may_write e' = true.
Proof.
  intros He%entry_ok_low Hp e'. rewrite entry_ok_low, may_write_low. cbn [flags e']. rewrite lor_low.
  unfold VmPerms.contains in Hp. rewrite (low_low p) in Hp by done. revert He Hp.
  generalize (Z.land (flags e) RWX) (Z.land p RWX) (low_range p). intros x y Hy He Hp.
  change ((Z.land y 2 =? 2) = true) in Hp. assert (Z.lor x PageFlags.W = y) as ->.
  { pose proof (all8 (λ y, implb (Z.land y 2 =? 2) ((Z.lor y 2 =? y) && (Z.lor (Z.ldiff y 2) 2 =? y))) eq_refl y Hy) as H.
    cbn beta in H. rewrite Hp in H. apply andb_true_iff in H as [H1%Z.eqb_eq H2%Z.eqb_eq]. by destruct He as [->| ->]. }
  split; [by left |]. pose proof (all8 (λ y, implb (Z.land y 2 =? 2) (Z.testbit y 1)) eq_refl y Hy) as H.
  cbn beta in H. by rewrite Hp in H.
Qed.

(** The flags of a new page. *)
Lemma without_write_ok p x f : Z.land x RWX = 0 → let e := mkPte (Ram f) (Z.lor (flags_of_perms (Z.ldiff p VmPerms.WRITE)) x) in
  entry_ok p e ∧ may_write e = false.
Proof.
  intros Hx e. rewrite entry_ok_low, may_write_low. cbn [flags e]. rewrite Z.land_lor_distr_l, Hx, Z.lor_0_r, flags_of_perms_low.
  assert (Z.land (Z.land (Z.ldiff p VmPerms.WRITE) RWX) RWX = Z.ldiff (Z.land p RWX) PageFlags.W) as ->.
  { apply Z.bits_inj'. intros n _. rewrite !Z.land_spec, !Z.ldiff_spec, !Z.land_spec. unfold VmPerms.WRITE, PageFlags.W.
    destruct (Z.testbit p n), (Z.testbit RWX n), (Z.testbit 2 n); done. }
  split; [by right |]. rewrite Z.ldiff_spec. apply andb_false_r.
Qed.

Lemma with_write_ok p x f : Z.land x RWX = 0 → entry_ok p (mkPte (Ram f) (Z.lor (flags_of_perms p) x)) ∧
  may_write (mkPte (Ram f) (Z.lor (flags_of_perms p) x)) = VmPerms.contains p VmPerms.WRITE.
Proof.
  intros Hx. rewrite entry_ok_low, may_write_low. cbn [flags]. rewrite Z.land_lor_distr_l, Hx, Z.lor_0_r, flags_of_perms_low.
  rewrite <- Z.land_assoc. change (Z.land RWX RWX) with RWX. split; [by left |].
  rewrite <- flags_of_perms_low. apply flags_write.
Qed.

(** ** The handler *)

(** Process [i] has the mapping. *)
Definition in_map (s : Sys) (i : Z) (m : VmMapping) : Prop :=
  ∃ v, procs s !! i = Some v ∧ m ∈ vm_mappings v.

(** The page is mapped with the access. *)
Definition access (s : Sys) (i k req : Z) : Prop :=
  ∃ e, entry_at s i k = Some e ∧ VmPerms.contains (perms_of_flags (flags e)) req = true.

Lemma in_map_faulted s s' i m : faulted i s s' → in_map s i m → in_map s' i m.
Proof. intros [_ _ [p Hp] _ _ _ _] (v & Hv & Hm). rewrite Hv in Hp. cbn in Hp. by exists (set_pt p v). Qed.

Lemma in_map_view s i m k : inv s → in_map s i m → covers m k →
  ∃ v, procs s !! i = Some v ∧ view v k = Some (attr m k) ∧ mapping_ok m.
Proof.
  intros HI (v & Hv & Hm) Hk. exists v. destruct (i_wf s HI i v Hv) as [[Hok _] _].
  split_and!; [done | | by apply Hok]. apply view_has; [done |]. by exists m.
Qed.

Lemma entry_at_put i k e s j k' :
  entry_at (put_entry i k e s) j k' = if decide (j = i ∧ k' = k) then Some e else entry_at s j k'.
Proof.
  unfold entry_at, put_entry. cbn. unfold vmar_of at 1. cbn. destruct (decide (j = i)) as [->|Hj].
  - rewrite lookup_insert, decide_True by done. cbn. destruct (decide (k' = k)) as [->|Hk].
    + by rewrite lookup_insert, !decide_True.
    + rewrite lookup_insert_ne by done. by rewrite decide_False by (by intros [_ ?]).
  - rewrite lookup_insert_ne by done. by rewrite decide_False by (by intros [? _]).
Qed.

Lemma put_faulted i k e s v f : inv (put_entry i k e s) → procs s !! i = Some v → item e = Ram f →
  (∀ c, reads s i k = Some c → content s f = c) → faulted i s (put_entry i k e s).
Proof.
  intros HI Hv Hf Hc. split; try done.
  - intros j Hj. rewrite (put_entry_procs i k e s v Hv). by rewrite lookup_insert_ne.
  - eexists. rewrite (put_entry_procs i k e s v Hv). rewrite lookup_insert, decide_True by done. by rewrite Hv.
  - intros k' Hs. rewrite entry_at_put. by case_decide.
  - intros j k' c Hr. unfold reads. rewrite entry_at_put. case_decide as Hd; [| done].
    destruct Hd as [-> ->]. rewrite Hf. f_equal. by apply Hc.
Qed.

Lemma contains_trans p q r : VmPerms.contains p q = true → VmPerms.contains q r = true → VmPerms.contains p r = true.
Proof.
  unfold VmPerms.contains. intros H1%Z.eqb_eq H2%Z.eqb_eq. apply Z.eqb_eq. rewrite <- H2 at 2.
  rewrite <- H1 at 1. by rewrite <- Z.land_assoc, H2.
Qed.

(** A page becomes writable in place if its mapping is shared or nothing else refers
    to its frame. *)
Lemma make_writable_inv extra i m k e s v frame : inv s → procs s !! i = Some v → view v k = Some (attr m k) →
  maps s i k e (attr m k) → (PAGE_SIZE | k) → entry_ok (perms m) e → VmPerms.contains (perms m) VmPerms.WRITE = true →
  item e = Ram frame → (frame ∉ free s) → is_shared m || (reference_count extra frame s =? 2)%nat = true →
  inv (put_entry i k (mkPte (Ram frame) (Z.lor (flags e) (Z.lor (Z.lor PageFlags.W PageFlags.ACCESSED) PageFlags.DIRTY))) s).
Proof.
  intros HI Hv Hx Hm Dk He Hpw Hf Hnf Hso.
  apply (put_entry_inv i k _ s v (attr m k) frame); try done.
  - by apply (writable_ok (perms m) e frame).
  - intros _ Hs. cbn in Hs. rewrite Hs in Hso. cbn in Hso. apply Nat.eqb_eq in Hso. unfold reference_count in Hso.
    apply (only_reference_sole s i k e (attr m k)); try done. lia.
  - intros j k' e' x' Hm' Hf' Hne [Hw' Hs']. destruct (i_cow s HI j k' e' x' frame Hm' Hf' Hw' Hs') as [_ H2].
    destruct (H2 i k e (attr m k) Hm Hf) as [-> ->]. by apply Hne.
  - intros Hb. by apply (i_anon s HI i k e (attr m k) frame).
  - intros Hs j k' e' x' Hm' Hf' Hb. destruct (i_anon s HI j k' e' x' frame Hm' Hf' Hb) as [_ H2].
    specialize (H2 i k e (attr m k) Hm Hf). congruence.
Qed.

(** The handler returns; when it succeeds, the access is possible. *)
Definition handled (i k req : Z) (s : Sys) (o : outcome (result unit Errno * Sys)) : Prop :=
  ∃ r s', o = Done (r, s') ∧ faulted i s s' ∧ caches_ok s' ∧ (r = ROk tt → access s' i k req).

Lemma caches_vmos s s' : vmos s' = vmos s → caches_ok s → caches_ok s'.
Proof. intros Hv Hc vmo. unfold vmo_of. rewrite Hv. apply Hc. Qed.

Lemma handled_err i k req s s' e : faulted i s s' → caches_ok s' → handled i k req s (Done (RErr e, s')).
Proof. intros H Hc. by exists (RErr e), s'. Qed.

Lemma handled_after i k req s s1 o : faulted i s s1 → handled i k req s1 o → handled i k req s o.
Proof. intros H (r & s' & -> & H1 & H2 & H3). exists r, s'. split_and!; try done. by apply (faulted_trans i s s1). Qed.

(** A write fault on a mapped page: it becomes writable, as it is or as a copy. *)
Lemma handle_mapped_ok extra i m k e req s : inv s → caches_ok s → in_map s i m → covers m k → entry_at s i k = Some e →
  VmPerms.contains (perms m) req = true → 0 ≤ req < 8 →
  handled i k req s (handle_mapped extra i m k e req s).
Proof.
  intros HI Hca Hm Hk He Hp Hreq. unfold handled. destruct (in_map_view s i m k HI Hm Hk) as (v & Hv & Hvw & Hok).
  destruct (entry_maps s i k e HI He) as (Dk & x & (v0 & Hv0 & He0 & Hx) & Hent).
  assert (v0 = v) as -> by congruence. assert (x = attr m k) as -> by congruence. cbn [a_perms attr] in Hent.
  assert (maps s i k e (attr m k)) as Hmaps by (by exists v).
  unfold handle_mapped. destruct (item e) as [frame|] eqn:Hf; [| eexists _, _; split_and!; [done | by apply faulted_refl | done | done]].
  destruct (VmPerms.contains (perms_of_flags (flags e)) req) eqn:Hall.
  { eexists _, _. split_and!; [done | by apply faulted_refl | done |]. intros _. by exists e. }
  destruct (VmPerms.contains req VmPerms.WRITE) eqn:Hw.
  2: { by rewrite (entry_allows (perms m) e req Hent Hp Hreq (or_introl Hw)) in Hall. }
  cbn [assert_that mbind outcome_bind].
  destruct (VmPerms.contains (flags e) PageFlags.W) eqn:HW.
  { exfalso. assert (may_write e = true) as Hmw.
    { unfold may_write. apply Z.eqb_eq in HW. apply (f_equal (λ z, Z.testbit z 1)) in HW. rewrite Z.land_spec in HW.
      by rewrite andb_true_r in HW. }
    by rewrite (entry_allows (perms m) e req Hent Hp Hreq (or_intror Hmw)) in Hall. }
  assert (VmPerms.contains (perms m) VmPerms.WRITE = true) as Hpw by (by apply (contains_trans _ req)).
  assert (∀ f s1, access (put_entry i k (mkPte (Ram f) (Z.lor (flags e) (Z.lor (Z.lor PageFlags.W PageFlags.ACCESSED) PageFlags.DIRTY))) s1) i k req) as Hacc.
  { intros f s1. eexists. rewrite entry_at_put, decide_True by done. split; [done |].
    destruct (writable_ok (perms m) e f Hent Hpw) as [H1 H2]. by apply (entry_allows (perms m) _ req H1 Hp Hreq (or_intror H2)). }
  pose proof (mapped_not_free s i k e frame HI He Hf) as Hnf.
  assert (reads s i k = Some (content s frame)) as Hrd by (unfold reads; by rewrite He, Hf).
  destruct (is_shared m || _) eqn:Hso.
  - eexists _, _. split_and!; [done | | done | auto].
    apply (put_faulted i k _ s v frame); [| done | done | intros c Hc; congruence].
    by apply (make_writable_inv extra i m k e s v frame).
  - destruct (duplicate_frame frame s) as [[nf s1]|] eqn:Hd.
    2: { eexists _, _. split_and!; [done | by apply faulted_refl | done | done]. }
    destruct (alloc_faulted i _ s nf s1 HI Hd) as (Hfa & Hps & Hvm & _ & Hnf1 & Hc & Hnh & Hu).
    eexists _, _. split_and!; [done | | by apply (caches_vmos s) | auto]. apply (faulted_trans i s s1); [done |].
    apply (put_faulted i k _ s1 v nf); [| by rewrite Hps | done |].
    + apply (put_fresh_inv i k _ s1 v (attr m k) nf); try done; [apply Hfa | by rewrite Hps |].
      by apply (writable_ok (perms m) e nf).
    + intros c Hr. rewrite Hc. apply (fa_reads i s s1 Hfa) in Hrd. congruence.
Qed.

Lemma fault_flags_ok m ro write f : let e := mkPte (Ram f) (fault_flags m ro write) in
  entry_ok (perms m) e ∧ may_write e = negb ro && VmPerms.contains (perms m) VmPerms.WRITE.
Proof.
  assert (∃ x, Z.land x RWX = 0 ∧
    fault_flags m ro write = Z.lor (flags_of_perms (if ro then Z.ldiff (perms m) VmPerms.WRITE else perms m)) x) as (x & Hx & ->).
  { unfold fault_flags. destruct write; eexists; (split; [| by rewrite <- ?Z.lor_assoc]); done. }
  destruct ro; [by apply without_write_ok | by apply with_write_ok].
Qed.

Lemma put_access i m k f fl req s : entry_ok (perms m) (mkPte (Ram f) fl) → VmPerms.contains (perms m) req = true →
  0 ≤ req < 8 → VmPerms.contains req VmPerms.WRITE = false ∨ may_write (mkPte (Ram f) fl) = true →
  access (put_entry i k (mkPte (Ram f) fl) s) i k req.
Proof.
  intros He Hp Hr Hw. eexists. rewrite entry_at_put, decide_True by done. split; [done |].
  by apply (entry_allows (perms m)).
Qed.

(** A page that is taken from the allocator for the fault. *)
Lemma fresh_page i m k write req c s f s1 : inv s → in_map s i m → covers m k → (PAGE_SIZE | k) → entry_at s i k = None →
  VmPerms.contains (perms m) req = true → 0 ≤ req < 8 → alloc_frame c s = Some (f, s1) →
  let s2 := put_entry i k (mkPte (Ram f) (fault_flags m false write)) s1 in
  faulted i s s1 ∧ faulted i s1 s2 ∧ access s2 i k req.
Proof.
  intros HI Hm Hk Dk Hno Hp Hr Ha s2. destruct (in_map_view s i m k HI Hm Hk) as (v & Hv & Hvw & _).
  destruct (alloc_faulted i c s f s1 HI Ha) as (Hfa & Hps & _ & _ & Hnf1 & Hc & Hnh & Hu).
  destruct (fault_flags_ok m false write f) as [He Hw]. split_and!; [done | |].
  - apply (put_faulted i k _ s1 v f); [| by rewrite Hps | done |].
    + apply (put_fresh_inv i k _ s1 v (attr m k) f); try done; [apply Hfa | by rewrite Hps].
    + intros c'. unfold reads, entry_at, vmar_of. rewrite Hps. fold (vmar_of s i) (entry_at s i k). by rewrite Hno.
  - apply (put_access i m); try done. rewrite Hw. destruct (VmPerms.contains req VmPerms.WRITE) eqn:Hw'; [right | by left].
    by apply (contains_trans _ req).
Qed.

(** A page of a VMO that is mapped for the fault. *)
Lemma vmo_page i m k fl req f s : inv s → in_map s i m → covers m k → (PAGE_SIZE | k) → entry_at s i k = None →
  VmPerms.contains (perms m) req = true → 0 ≤ req < 8 → held s f → mapped_mem m ≠ Anonymous →
  let e := mkPte (Ram f) fl in
  entry_ok (perms m) e → (may_write e = true → is_shared m = true) →
  faulted i s (put_entry i k e s) ∧
  (VmPerms.contains req VmPerms.WRITE = false ∨ may_write e = true → access (put_entry i k e s) i k req).
Proof.
  intros HI Hm Hk Dk Hno Hp Hr Hh Hmem e He Hw. destruct (in_map_view s i m k HI Hm Hk) as (v & Hv & Hvw & _). split.
  - apply (put_faulted i k _ s v f); try done.
    + apply (put_held_inv i k _ s v (attr m k) f); try done. unfold attr, backing. cbn. by destruct (mapped_mem m).
    + intros c. unfold reads. by rewrite Hno.
  - intros Hor. by apply (put_access i m).
Qed.

Definition vmo_index (m : VmMapping) (offset k : Z) : Z := (offset + (k - map_to_addr m)) / PAGE_SIZE.

(** A page that can be mapped with the access, an error, or a missing page of a VMO. *)
Definition prepared (i : Z) (m : VmMapping) (k req : Z) (s1 : Sys) (need : Z → Prop)
    (r : result (Z * bool) VmoCommitError) : Prop :=
  match r with
  | ROk (f, ro) =>
      let s2 := put_entry i k (mkPte (Ram f) (fault_flags m ro (VmPerms.contains req VmPerms.WRITE))) s1 in
      faulted i s1 s2 ∧ access s2 i k req
  | RErr (NeedIo n) => need n
  | RErr (CommitErr _) => True
  end.

Lemma prepare_fresh i m k req s s0 c r s1 (need : Z → Prop) : covers m k → (PAGE_SIZE | k) →
  VmPerms.contains (perms m) req = true → 0 ≤ req < 8 →
  in_map s0 i m → entry_at s0 i k = None → faulted i s s0 → caches_ok s0 →
  from_alloc (CommitErr ENOMEM) false s0 (alloc_frame c s0) = (r, s1) →
  faulted i s s1 ∧ caches_ok s1 ∧ prepared i m k req s1 need r.
Proof.
  intros Hk Dk Hp Hr Hm0 Hno0 Hfa0 Hca0. unfold from_alloc. destruct (alloc_frame c s0) as [[f s2]|] eqn:Ha; intros [= <- <-]; [| done].
  destruct (fresh_page i m k (VmPerms.contains req VmPerms.WRITE) req c s0 f s2) as (H1 & H2 & H3); try done; [apply Hfa0 |].
  split_and!; [by apply (faulted_trans i s s0) | | done].
  apply (caches_vmos s0); [by apply (alloc_vmos c s0 f) | done].
Qed.

Lemma index_below m offset k size : 0 ≤ offset + (k - map_to_addr m) < size → vmo_index m offset k * PAGE_SIZE ≤ size.
Proof. intros H. unfold vmo_index. pose proof (Z.mul_div_le (offset + (k - map_to_addr m)) PAGE_SIZE ltac:(done)). lia. Qed.

Lemma prepare_page_ok disk i m k req s : inv s → caches_ok s → in_map s i m → covers m k → (PAGE_SIZE | k) →
  entry_at s i k = None → VmPerms.contains (perms m) req = true → 0 ≤ req < 8 →
  ∃ r s1, prepare_page disk m k (VmPerms.contains req VmPerms.WRITE) s = Done (r, s1) ∧ faulted i s s1 ∧ caches_ok s1 ∧
  prepared i m k req s1 (λ n, s1 = s ∧ ∃ vmo offset t, mapped_mem m = Vmo vmo offset t ∧ n = vmo_index m offset k ∧
      v_pages (vmo_of s vmo) !! n = None ∧ n * PAGE_SIZE ≤ v_size (vmo_of s vmo)) r.
Proof.
  intros HI Hca Hm Hk Dk Hno Hp Hr. unfold prepare_page. pose proof (faulted_refl i s HI) as Hrefl.
  destruct (in_map_view s i m k HI Hm Hk) as (_ & _ & _ & Hok). pose proof (ok_mem m Hok) as Hmm.
  destruct (mapped_mem m) as [|vmo offset t|] eqn:Hmem.
  - destruct (from_alloc _ _ _ _) as [r s1] eqn:E. exists r, s1. split; [done |]. by apply (prepare_fresh i m k req s s 0).
  - destruct (negb (is_shared m) && (valid_size s vmo offset <=? k - map_to_addr m)).
    { destruct (from_alloc _ _ _ _) as [r s1] eqn:E. exists r, s1. split; [done |]. by apply (prepare_fresh i m k req s s 0). }
    unfold try_commit_page. destruct (Z.leb_spec (v_size (vmo_of s vmo)) (offset + (k - map_to_addr m))) as [|Hlt].
    { eexists _, _. split_and!; done. }
    assert (vmo_index m offset k * PAGE_SIZE ≤ v_size (vmo_of s vmo)) as Hsz by (apply index_below; unfold covers in Hk; lia).
    fold (vmo_index m offset k).
    destruct (try_commit_done disk vmo (vmo_index m offset k) s Hca (λ _, Hsz)) as (r0 & s0 & Htc & Hca0). rewrite Htc.
    cbn [mbind outcome_bind]. destruct (try_commit_ok i disk vmo _ s r0 s0 HI Htc) as (Hfa & Hps & _ & _ & Hres).
    assert (entry_at s0 i k = None) as Hno0 by (unfold entry_at, vmar_of; rewrite Hps; exact Hno).
    destruct r0 as [page|[e|n]]; [| by eexists _, _ |].
    2: { eexists _, _. split; [done |]. split; [done |]. split; [done |]. destruct Hres as (-> & -> & Hn). split; [done |].
         by exists vmo, offset, t. }
    pose proof (in_map_faulted s s0 i m Hfa Hm) as Hm0.
    set (write := VmPerms.contains req VmPerms.WRITE). destruct (negb (is_shared m) && write) eqn:Hpw.
    { destruct (from_alloc _ _ _ _) as [r s1] eqn:E. exists r, s1. split; [done |]. by apply (prepare_fresh i m k req s s0 (content s0 page)). }
    eexists _, _. split; [done |]. split; [done |]. split; [done |].
    destruct (fault_flags_ok m (negb (is_shared m)) write page) as [He Hw].
    destruct (vmo_page i m k (fault_flags m (negb (is_shared m)) write) req page s0) as [H1 H2]; try done.
    + apply Hfa.
    + by rewrite Hmem.
    + rewrite Hw. by destruct (is_shared m).
    + split; [done |]. apply H2. rewrite Hw. fold write. destruct (is_shared m); cbn in Hpw |- *; [| by left].
      destruct write eqn:Hwr; [right | by left]. by apply (contains_trans _ req).
  - eexists _, _. split_and!; done.
Qed.

Lemma page_range m k : mapping_ok m → covers m k → (PAGE_SIZE | k) → cursor_range k (k + PAGE_SIZE) = true.
Proof.
  intros [H1 H2 H3 H4 H5 _ _] Hk Dk. unfold covers, map_end in *.
  assert (0 < PAGE_SIZE) by done. assert (VMAR_CAP_ADDR + PAGE_SIZE ≤ 2 ^ 47) by done.
  unfold cursor_range. rewrite !andb_true_iff. repeat split; try (apply Z.ltb_lt; lia); try (apply Z.leb_le; lia);
    apply Z.eqb_eq, Z.mod_divide; try done. by apply Z.divide_add_r.
Qed.

Section fault.
Context (disk : Backend) (extra : nat) (i : Z) (m : VmMapping) (req : Z).
Context (Hp : VmPerms.contains (perms m) req = true) (Hr : 0 ≤ req < 8).

(** One iteration, given that a missing page is dealt with. *)
Lemma single_iter fuel k s : inv s → caches_ok s → in_map s i m → covers m k → (PAGE_SIZE | k) →
  (∀ vmo offset t s2 f, mapped_mem m = Vmo vmo offset t → v_pages (vmo_of s vmo) !! vmo_index m offset k = None →
     commit_on disk vmo (vmo_index m offset k) s = Done (ROk f, s2) → caches_ok s2 →
     handled i k req s2 (handle_single_page_fault fuel disk extra i m k req s2)) →
  handled i k req s (handle_single_page_fault (S fuel) disk extra i m k req s).
Proof.
  intros HI Hca Hm Hk Dk Hnext. cbn [handle_single_page_fault].
  destruct (in_map_view s i m k HI Hm Hk) as (v & Hv & _ & Hok). rewrite (page_range m k Hok Hk Dk). cbn [negb].
  destruct (entry_at s i k) as [e|] eqn:He; [by apply handle_mapped_ok |].
  destruct (prepare_page_ok disk i m k req s HI Hca Hm Hk Dk He Hp Hr) as (r & s1 & -> & Hfa & Hca1 & Hres).
  cbn [mbind outcome_bind]. destruct r as [[f ro]|[e|n]]; cbn in Hres.
  - destruct Hres as [H1 H2]. eexists _, _. split_and!; [done | by apply (faulted_trans i s s1) | done | done].
  - by apply handled_err.
  - destruct Hres as (-> & vmo & offset & t & Hmem & -> & Hn & Hsz). rewrite Hmem.
    destruct (commit_on_done disk vmo _ s Hca Hn Hsz) as (r2 & s2 & Hco & Hca2). rewrite Hco. cbn [mbind outcome_bind].
    destruct (commit_on_ok i disk vmo _ s r2 s2 HI Hco) as [Hfa2 _].
    destruct r2 as [f|e]; [| by apply handled_err].
    apply (handled_after i k req s s2); [done |]. by apply (Hnext vmo offset t s2 f).
Qed.

(** After the read the page is there: two iterations are enough. *)
Lemma single_ok fuel k s : inv s → caches_ok s → in_map s i m → covers m k → (PAGE_SIZE | k) →
  handled i k req s (handle_single_page_fault (S (S fuel)) disk extra i m k req s).
Proof.
  intros HI Hca Hm Hk Dk. apply single_iter; try done.
  intros vmo offset t s2 f Hmem _ Hco Hca2.
  destruct (commit_on_ok i disk vmo _ s _ s2 HI Hco) as (Hfa2 & _ & _ & _ & Hf).
  apply single_iter; try done; [apply Hfa2 | by apply (in_map_faulted s) |].
  intros vmo' offset' t' s4 f' Hmem' Hn _ _. exfalso. rewrite Hmem in Hmem'. injection Hmem' as <- <- <-.
  destruct (Hf f eq_refl) as [_ Hf']. congruence.
Qed.

(** *** Faults around an address *)

Context (vmo offset : Z) (t : bool) (Hmem : mapped_mem m = Vmo vmo offset t).
Context (Hread : VmPerms.contains req VmPerms.WRITE = false).

(** The pages from [va] on are mapped, or all before the one that has to be read. *)
Definition around_result (n va : Z) (s : Sys) (r : result unit VmoCommitError) (s' : Sys) : Prop :=
  match r with
  | ROk _ => ∀ k, (PAGE_SIZE | k) → va ≤ k < va + n * PAGE_SIZE → is_Some (entry_at s' i k)
  | RErr (NeedIo idx) => ∃ k, (PAGE_SIZE | k) ∧ va ≤ k < va + n * PAGE_SIZE ∧ idx = vmo_index m offset k ∧
      (k = va → v_pages (vmo_of s vmo) !! idx = None) ∧ v_pages (vmo_of s' vmo) !! idx = None ∧
      ∀ k', (PAGE_SIZE | k') → va ≤ k' < k → is_Some (entry_at s' i k')
  | RErr (CommitErr _) => True
  end.

Lemma around_pages_ok (n : nat) va s : inv s → caches_ok s → in_map s i m → (PAGE_SIZE | va) →
  map_to_addr m ≤ va → va + Z.of_nat n * PAGE_SIZE ≤ map_end m →
  offset + (va + Z.of_nat n * PAGE_SIZE - map_to_addr m) ≤ v_size (vmo_of s vmo) →
  ∃ r s', around_pages n disk i m vmo offset va s = Done (r, s') ∧ faulted i s s' ∧ caches_ok s' ∧
    v_size (vmo_of s' vmo) = v_size (vmo_of s vmo) ∧ around_result (Z.of_nat n) va s r s'.
Proof.
  revert va s. induction n as [|n IH]; intros va s HI Hca Hm Dva Hlo Hhi Hsz; cbn [around_pages].
  { eexists _, _. split_and!; [done | by apply faulted_refl | done | done |]. cbn. lia. }
  assert (0 < PAGE_SIZE) as HP by done.
  destruct (in_map_view s i m va HI Hm ltac:(unfold covers; lia)) as (_ & _ & _ & Hok).
  pose proof (ok_mem m Hok) as Hmm. rewrite Hmem in Hmm.
  assert (∀ s1, faulted i s s1 → caches_ok s1 → v_size (vmo_of s1 vmo) = v_size (vmo_of s vmo) → is_Some (entry_at s1 i va) →
    ∃ r s', around_pages n disk i m vmo offset (va + PAGE_SIZE) s1 = Done (r, s') ∧ faulted i s s' ∧ caches_ok s' ∧
      v_size (vmo_of s' vmo) = v_size (vmo_of s vmo) ∧ around_result (Z.of_nat (S n)) va s r s') as Hstep.
  { intros s1 Hfa Hca1 Hs1 Hpres.
    assert (∀ k, (PAGE_SIZE | k) → va ≤ k → k = va ∨ va + PAGE_SIZE ≤ k) as Hnext.
    { intros k [q ->] Hle. destruct Dva as [q0 ->]. unfold PAGE_SIZE in *. lia. }
    destruct (IH (va + PAGE_SIZE) s1) as (r & s' & Ha & H1 & Hca' & Hs' & H2); try done; try lia;
      [apply Hfa | by apply (in_map_faulted s) | apply Z.divide_add_r; [done | by exists 1] |].
    pose proof (fa_present i s1 s' H1 va Hpres) as Hva. exists r, s'.
    split_and!; [done | by apply (faulted_trans i s s1) | done | congruence |]. unfold around_result in *.
    destruct r as [u|[e|idx]]; [| done |].
    - intros k Dk Hk. destruct (Hnext k Dk) as [->|Hge]; [lia | done |]. apply H2; [done | lia].
    - destruct H2 as (k & Dk & Hk & -> & _ & Hno & Hbef). exists k. split_and!; try done; try lia.
      intros k' Dk' Hk'. destruct (Hnext k' Dk') as [->|Hge]; [lia | done |]. apply Hbef; [done | lia]. }
  destruct (entry_at s i va) as [e|] eqn:He.
  { apply Hstep; [by apply faulted_refl | done | done | by rewrite He]. }
  fold (vmo_index m offset va).
  destruct (try_commit_done disk vmo (vmo_index m offset va) s Hca) as (r0 & s0 & Htc & Hca0).
  { intros _. apply index_below. lia. }
  rewrite Htc. cbn [mbind outcome_bind]. destruct (try_commit_ok i disk vmo _ s r0 s0 HI Htc) as (Hfa & Hps & Hs0 & _ & Hres).
  destruct r0 as [f|[e|idx]].
  - assert (entry_at s0 i va = None) as He0 by (unfold entry_at, vmar_of; rewrite Hps; exact He).
    destruct (without_write_ok (perms m) PageFlags.ACCESSED f eq_refl) as [Hent Hmw].
    destruct (vmo_page i m va (Z.lor (flags_of_perms (Z.ldiff (perms m) VmPerms.WRITE)) PageFlags.ACCESSED) req f s0)
      as [Hput _]; try done; [apply Hfa | by apply (in_map_faulted s) | unfold covers; lia | by rewrite Hmem | by rewrite Hmw |].
    apply Hstep; [by apply (faulted_trans i s s0) | done | done |]. rewrite entry_at_put, decide_True by done. done.
  - eexists _, _. by split_and!.
  - destruct Hres as (-> & -> & Hn). eexists _, _. split_and!; try done. exists va. split_and!; try done; lia.
Qed.

(** A mapped page can be read. *)
Lemma present_access s k : inv s → in_map s i m → covers m k → is_Some (entry_at s i k) → access s i k req.
Proof.
  intros HI Hm Hk [e He]. destruct (in_map_view s i m k HI Hm Hk) as (v & Hv & Hvw & _).
  destruct (entry_maps s i k e HI He) as (_ & x & (v0 & Hv0 & He0 & Hx) & Hent).
  assert (v0 = v) as -> by congruence. assert (x = attr m k) as -> by congruence.
  exists e. split; [done |]. apply (entry_allows (perms m)); auto.
Qed.

(** The retry goes on at the page that was read. *)
Lemma retry_address k : mapping_ok m → covers m k → (PAGE_SIZE | k) →
  checked_sub (vmo_index m offset k * PAGE_SIZE) offset = Some (k - map_to_addr m).
Proof.
  intros [[q1 H1] _ _ _ _ Hmm _] [Hk _] [q ->]. rewrite Hmem in Hmm. destruct Hmm as (_ & _ & [q0 H0]).
  unfold vmo_index. rewrite H1, H0 in *.
  replace (q0 * PAGE_SIZE + (q * PAGE_SIZE - q1 * PAGE_SIZE)) with ((q0 + (q - q1)) * PAGE_SIZE) by ring.
  rewrite Z.div_mul by done. unfold checked_sub. rewrite (proj2 (Z.leb_le _ _)) by (unfold PAGE_SIZE in *; lia).
  f_equal. ring.
Qed.

Lemma cursor_range_true a b : cursor_range a b = true → a < b ∧ (PAGE_SIZE | b).
Proof.
  unfold cursor_range. rewrite !andb_true_iff. intros [[[[H1 _] _] _] H5]. split; [by apply Z.ltb_lt |].
  apply Z.mod_divide; [done |]. by apply Z.eqb_eq.
Qed.

(** Every retry makes progress by a page. *)
Lemma around_loop_ok fuel start end_ k s : inv s → caches_ok s → in_map s i m → covers m k → (PAGE_SIZE | k) →
  (PAGE_SIZE | start) → map_to_addr m ≤ start → end_ ≤ map_end m → k < end_ →
  (k < start → is_Some (entry_at s i k)) →
  (end_ - start) / PAGE_SIZE < Z.of_nat fuel ∨
  1 ≤ (end_ - start) / PAGE_SIZE ≤ Z.of_nat fuel ∧ is_Some (v_pages (vmo_of s vmo) !! vmo_index m offset start) →
  0 ≤ (end_ - start) / PAGE_SIZE →
  handled i k req s (around_loop fuel disk i m vmo offset start end_ s).
Proof.
  assert (0 < PAGE_SIZE) as HP by done.
  revert start s. induction fuel as [|fuel IH]; intros start s HI Hca Hm Hk Dk Ds Hlo Hhi Hke Hpre Hfuel Hn0; [lia |].
  destruct (in_map_view s i m k HI Hm Hk) as (_ & _ & _ & Hok).
  cbn [around_loop]. destruct (cursor_range start end_) eqn:Hcr; cbn [negb]; [| by apply handled_err; [apply faulted_refl |]].
  apply cursor_range_true in Hcr as [Hse De].
  destruct (Z.ltb_spec (v_size (vmo_of s vmo)) (offset + (end_ - map_to_addr m))) as [|Hsz];
    [by apply handled_err; [apply faulted_refl |] |].
  assert (end_ = start + (end_ - start) / PAGE_SIZE * PAGE_SIZE) as Hend.
  { rewrite Z.mul_comm, <- Z_div_exact_full_2; [lia | lia |]. apply Z.mod_divide; [lia |]. by apply Z.divide_sub_r. }
  set (n := (end_ - start) / PAGE_SIZE) in *.
  destruct (around_pages_ok (Z.to_nat n) start s) as (r & s1 & -> & Hfa & Hca1 & Hs1 & Hres); try done;
    [rewrite Z2Nat.id; lia .. |].
  cbn [mbind outcome_bind]. rewrite Z2Nat.id in Hres by lia. pose proof (fa_inv i s s1 Hfa) as HI1. pose proof (in_map_faulted s s1 i m Hfa Hm) as Hm1.
  destruct r as [u|[e|idx]]; cbn in Hres.
  - eexists _, _. split_and!; [done | done | done |]. intros _. apply present_access; try done.
    destruct (Z_lt_le_dec k start); [by apply (fa_present i s s1), Hpre | apply Hres; [done | lia]].
  - by apply handled_err.
  - destruct Hres as (k1 & Dk1 & Hk1 & -> & Hfirst & Hno1 & Hbef).
    pose proof (ok_mem m Hok) as Hmm. rewrite Hmem in Hmm.
    destruct (commit_on_done disk vmo (vmo_index m offset k1) s1 Hca1 Hno1) as (r2 & s2 & Hco & Hca2).
    { rewrite Hs1. apply index_below. lia. }
    rewrite Hco. cbn [mbind outcome_bind].
    destruct (commit_on_ok i disk vmo _ s1 r2 s2 HI1 Hco) as (Hfa2 & _ & _ & _ & Hf).
    pose proof (faulted_trans i s s1 s2 Hfa Hfa2) as Hfa12.
    destruct r2 as [f|e]; [| by apply handled_err].
    rewrite retry_address; [| done | unfold covers; lia | done]. cbn [unwrap mbind outcome_bind].
    replace (k1 - map_to_addr m + map_to_addr m) with k1 by lia.
    apply (handled_after i k req s s2); [done |].
    assert ((end_ - k1) / PAGE_SIZE = n - (k1 - start) / PAGE_SIZE) as Hn1.
    { destruct Dk1 as [q1 ->], Ds as [q0 ->]. rewrite <- Z.mul_sub_distr_r, Z.div_mul by lia.
      replace (end_ - q1 * PAGE_SIZE) with ((n - (q1 - q0)) * PAGE_SIZE) by lia. by rewrite Z.div_mul by lia. }
    assert (k1 = start ∨ 1 ≤ (k1 - start) / PAGE_SIZE) as Hprog.
    { destruct Dk1 as [q1 ->], Ds as [q0 ->]. rewrite <- Z.mul_sub_distr_r, Z.div_mul by lia. unfold PAGE_SIZE in *. lia. }
    assert (0 ≤ (k1 - start) / PAGE_SIZE < n) as Hpos.
    { split; [apply Z.div_pos; lia | apply Z.div_lt_upper_bound; lia]. }
    destruct (Hf f eq_refl) as [_ Hcom].
    apply IH; try done; try lia; [apply Hfa2 | by apply (in_map_faulted s) | |].
    + intros Hlt. destruct (Z_lt_le_dec k start); [by apply (fa_present i s s2 Hfa12), Hpre |].
      apply (fa_present i s1 s2 Hfa2), Hbef; [done | lia].
    + right. split; [| by rewrite Hcom]. rewrite Hn1. destruct Hfuel as [Hfuel|[Hfuel [f0 Hc]]]; [lia |].
      destruct Hprog as [->|]; [| lia]. by rewrite Hfirst in Hc.
Qed.

Lemma around_ok k s : inv s → caches_ok s → in_map s i m → covers m k → (PAGE_SIZE | k) →
  handled i k req s (handle_page_faults_around_ disk extra i m vmo offset k req s).
Proof.
  intros HI Hca Hm Hk Dk. unfold handle_page_faults_around_.
  destruct (in_map_view s i m k HI Hm Hk) as (_ & _ & _ & Hok). pose proof Hok as [H1 H2 H3 H4 H5 _ _].
  set (a := Z.land k _).
  assert (a = k - k mod 2 ^ 16) as Ha.
  { unfold a. apply (land_not_low USIZE_BITS 16 k); [done |]. unfold covers in Hk.
    assert (VMAR_CAP_ADDR < 2 ^ USIZE_BITS) by done. unfold in_width. lia. }
  assert ((PAGE_SIZE | a) ∧ a ≤ k) as [Da Hak].
  { rewrite Ha. split; [| pose proof (Z.mod_pos_bound k (2 ^ 16)); lia].
    apply Z.divide_sub_r; [done |]. rewrite Z.mod_eq by done. apply Z.divide_sub_r; [done |].
    apply Z.divide_mul_l. by exists 16. }
  clearbody a. set (start := Z.max a (map_to_addr m)). set (end_ := Z.min _ _).
  destruct (Z.leb_spec end_ k) as [Hle|Hlt]; [by apply single_ok |].
  assert (start ≤ k) by (unfold covers in Hk; lia).
  assert (0 < PAGE_SIZE) by done.
  apply around_loop_ok; try done; try (unfold covers, map_end, start, end_, valid_size in *; lia).
  - unfold start. destruct (Z.max_spec a (map_to_addr m)) as [[_ ->]|[_ ->]]; done.
  - left. apply Z.div_lt_upper_bound; [done |]. unfold end_, SURROUNDING_PAGE_NUM. lia.
  - apply Z.div_pos; lia.
Qed.
End fault.

Lemma mapping_fault_ok disk extra i m address req s : inv s → caches_ok s → in_map s i m → covers m address → 0 ≤ req < 8 →
  VmPerms.contains (perms m) req = true →
  handled i (address - address mod PAGE_SIZE) req s (handle_mapping_fault disk extra i m address req s).
Proof.
  intros HI Hca Hm Hc Hr Hp. unfold handle_mapping_fault. rewrite Hp. cbn [negb].
  destruct (in_map_view s i m address HI Hm Hc) as (_ & _ & _ & Hok). pose proof Hok as [[q H1] _ _ H4 _ _ _].
  set (k := address - address mod PAGE_SIZE). assert (0 < PAGE_SIZE) as HP by done.
  assert ((PAGE_SIZE | k)) as Dk.
  { exists (address / PAGE_SIZE). unfold k. rewrite Z.mod_eq by lia. ring. }
  assert (covers m k) as Hk.
  { destruct Hc as [Hc1 Hc2]. pose proof (Z.mod_pos_bound address PAGE_SIZE HP). split; [| lia].
    destruct Dk as [q' Hq']. rewrite Hq', H1. rewrite H1 in Hc1. apply Z.mul_le_mono_nonneg_r; [lia |].
    apply Z.lt_succ_r, (Z.mul_lt_mono_pos_r PAGE_SIZE); lia. }
  pose proof (single_ok disk extra i m req Hp Hr 0 k s HI Hca Hm Hk Dk) as Hsingle.
  destruct (mapped_mem m) as [|vmo offset t|] eqn:Hmem; try done.
  destruct (VmPerms.contains req VmPerms.WRITE) eqn:Hw; cbn [negb andb]; [done |].
  destruct (handle_page_faults_around m); [| done].
  destruct (around_ok disk extra i m req Hp Hr vmo offset t Hmem Hw k s HI Hca Hm Hk Dk) as (r & s' & -> & Hfa & Hca' & Hacc).
  cbn [mbind outcome_bind]. destruct r as [[]|e]; [by exists (ROk tt), s' |].
  destruct (entry_at s' i k) as [e'|] eqn:He; [| by apply handled_err].
  exists (ROk tt), s'. split_and!; [done | done | done |]. intros _.
  apply (present_access i m req Hp Hr Hw); try done; [apply Hfa | by apply (in_map_faulted s)].
Qed.

Lemma page_fault_ok disk extra i address req s : inv s → caches_ok s → 0 ≤ req < 8 →
  ∃ r s', handle_page_fault disk extra i address req s = Done (r, s') ∧ faulted i s s' ∧ caches_ok s' ∧
  match view (vmar_of s i) address with
  | Some x => if VmPerms.contains (a_perms x) req
              then r = ROk tt → access s' i (address - address mod PAGE_SIZE) req
              else r = RErr EACCES ∧ s' = s
  | None => r = RErr EACCES ∧ s' = s
  end.
Proof.
  intros HI Hca Hr. unfold handle_page_fault, view.
  destruct (IntervalSet.find_one address (vm_mappings (vmar_of s i))) as [m|] eqn:Hf; cbn.
  2: { eexists _, _. split_and!; [done | by apply faulted_refl | done | done | done]. }
  destruct (procs s !! i) as [v|] eqn:Hv; unfold vmar_of in Hf; rewrite Hv in Hf; [| done]. cbn in Hf.
  destruct (i_wf s HI i v Hv) as [[[Hch _] _] _].
  apply (IntervalSet.find_one_exact VMAR_LOWEST_ADDR) in Hf as [Hm Hc]; [| done].
  destruct (VmPerms.contains (perms m) req) eqn:Hp.
  - destruct (mapping_fault_ok disk extra i m address req s) as (r & s' & -> & Hfa & Hca' & Hacc); try done; [by exists v |].
    by exists r, s'.
  - eexists _, _. unfold handle_mapping_fault. rewrite Hp. split_and!; [done | by apply faulted_refl | done | done | done].
Qed.

(** [C12] A page fault with any access, in any state in which copy-on-write is intact and
    every page of a page cache that is not yet read is awaited by a readahead or
    committed to its VMO, returns without a panic. It fails with [EACCES] and changes
    nothing if the address is not mapped or its mapping does not allow the access.
    Otherwise, if it succeeds, the page is mapped with that access. In every case
    copy-on-write and the page caches stay intact, no other process's address space and
    no mapping changes, and every page that was mapped anywhere still has the content
    that it had. *)
Theorem page_fault_exact disk extra i address req s : inv s → caches_ok s → 0 ≤ req < 8 →
  ∃ r s', handle_page_fault disk extra i address req s = Done (r, s') ∧ inv s' ∧ caches_ok s' ∧
  (∀ j, j ≠ i → procs s' !! j = procs s !! j) ∧
  (vm_mappings (vmar_of s' i) = vm_mappings (vmar_of s i)) ∧
  (∀ j k c, reads s j k = Some c → reads s' j k = Some c) ∧
  match view (vmar_of s i) address with
  | Some x => if VmPerms.contains (a_perms x) req
              then r = ROk tt → access s' i (address - address mod PAGE_SIZE) req
              else r = RErr EACCES ∧ s' = s
  | None => r = RErr EACCES ∧ s' = s
  end.
Proof.
  intros HI Hca Hr.
  destruct (page_fault_ok disk extra i address req s HI Hca Hr) as (r & s' & Heq & [F1 F2 [p F3] _ _ _ F7] & Hca' & Hres).
  exists r, s'. split_and!; try done. unfold vmar_of. rewrite F3. by destruct (procs s !! i).
Qed.

(** A process with one private anonymous page, not yet touched. *)
Definition one_page : Vmar :=
  mkVmar [mkMapping PAGE_SIZE VMAR_LOWEST_ADDR Anonymous None false false 0x1b] PAGE_SIZE ∅.
Definition one_proc : Sys := mkSys {[0 := one_page]} ∅ ∅ [7].

Lemma one_page_wf : wf one_page.
Proof.
  split; [split; [split |] |].
  - vm_compute. intuition congruence.
  - intros m ->%list_elem_of_singleton. split; cbn; try done; first [by exists 1 | by exists 16].
  - done.
  - intros k e He. by destruct (lookup_empty_Some (M := gmap Z) k e).
Qed.

Lemma one_proc_inv : inv one_proc.
Proof.
  assert (∀ i v, procs one_proc !! i = Some v → v = one_page) as Hv.
  { intros i v. cbn. rewrite lookup_singleton_Some. by intros [_ <-]. }
  assert (∀ i k e x, ¬ maps one_proc i k e x) as Hm.
  { intros i k e x (v & ->%Hv & He & _). by destruct (lookup_empty_Some (M := gmap Z) k e). }
  split.
  - intros i v ->%Hv. apply one_page_wf.
  - intros i v p x ->%Hv. unfold view. destruct (IntervalSet.find_one p _) as [m|] eqn:Hf; [| done].
    apply (IntervalSet.find_one_exact VMAR_LOWEST_ADDR) in Hf as [->%list_elem_of_singleton _]; [| apply one_page_wf].
    by intros [= <-].
  - apply NoDup_singleton.
  - intros f _. split; [by intros (? & ? & ? & ? & _) |]. intros i k e x Hmm. by apply Hm in Hmm.
  - intros i k e x f Hmm. by apply Hm in Hmm.
  - intros i k e x f Hmm. by apply Hm in Hmm.
Qed.

(** A file of one page whose device answers at once. *)
Definition one_file : Backend := mkBackend (λ _, 1) (λ _ _, ROk [Complete]) (λ _ idx, 40 + idx) (λ _ _, true).

Lemma page_fault_exact_witness : ∃ r s',
  handle_page_fault one_file 0 0 0x10123 2 one_proc = Done (r, s') ∧ r = ROk tt ∧ access s' 0 0x10000 2 ∧
  reads s' 0 0x10000 = Some 0.
Proof.
  destruct (page_fault_exact one_file 0 0 0x10123 2 one_proc one_proc_inv) as (r & s' & H & _ & _ & _ & _ & _ & Hv).
  - intros vmo. apply vmo_new_ok.
  - lia.
  - exists r, s'. split; [done |]. vm_compute in H. injection H as <- <-. split; [done |].
    split; [exact (Hv eq_refl) | done].
Defined.
End CowFault.
