(* ===== verification/CowSteps.v ===== *)
(** * Runs of processes that share memory

    The steps that change the memory of processes: mmap, munmap, mprotect, mremap and
    brk on their address spaces, page faults with any behaviour of the devices, forks and
    exits, stores of the processors, and the kernel's work on VMOs and free frames; exec
    is not among them. In every run in which mprotect does not change the permissions of
    a private mapping that is and stays writable, processes are isolated; one such call
    breaks the isolation. *)

From stdpp Require Import gmap relations.
From S2P Require Import Prelude IntervalSet VmMapping Vmar VmarMaps VmarOps VmarBuild VmarFork VmarCalls VmarRemap PageFault PageCache Cow CowFault.
Local Open Scope Z_scope.

Module CowSteps.
Import Vmar VmarMaps VmarOps VmarBuild VmarFork VmarCalls VmarRemap PageFault PageCache Cow CowFault.

Definition set_proc (i : Z) (v : Vmar) (s : Sys) : Sys := set_procs (<[i := v]> (procs s)) s.
Definition set_content (f c : Z) (s : Sys) : Sys := mkSys (procs s) (vmos s) (<[f := c]> (contents s)) (free s).
Definition set_free (l : list Z) (s : Sys) : Sys := mkSys (procs s) (vmos s) (contents s) l.

(** Shared mappings have a VMO or a device: a shared anonymous one gets a VMO of its own. *)
Definition backed (o : VmarMapOptions) : Prop :=
  o_is_shared o = true → o_vmo o ≠ None ∨ o_mappable o ≠ None.

(** No private mapping of the range is and stays writable with other permissions. *)
Definition cow_safe (v : Vmar) (q a b : Z) : Prop :=
  ∀ p x, a ≤ p < b → view v p = Some x → a_shared x = false →
    VmPerms.contains (a_perms x) VmPerms.WRITE = true → VmPerms.contains q VmPerms.WRITE = true →
    q = Z.land (a_perms x) VmPerms.ALL_PERMS.

(** The VMO [w] with the given size, without the pages [out], and its pager without the
    pages [gone] *)
Definition drop_pages (size : Z) (out gone : gset Z) (w : VmoState) : VmoState :=
  mkVmo size (has_pager w) (filter (λ e, e.1 ∉ out) (v_pages w)) (filter (λ e, e.1 ∉ gone) (pager_pages w))
    (page_states w) (ra_state w).

(** A step of a process, [Some i], or of the kernel, [None]. A device behaves as any of
    [disks] in each step. *)
Inductive step (disks : Backend → Prop) (safe : bool) (s : Sys) : option Z → Sys → Prop :=
| step_spawn i : procs s !! i = None → step disks safe s None (set_proc i new s)
| step_fault disk i extra address req r s' : disks disk → 0 ≤ req < 8 →
    handle_page_fault disk extra i address req s = Done (r, s') → step disks safe s (Some i) s'
| step_map i v rlimit o r v' : procs s !! i = Some v → opts_ok o → backed o →
    build rlimit o v = Done (r, v') → step disks safe s (Some i) (set_proc i v' s)
| step_unmap i v a b r v' : procs s !! i = Some v → (PAGE_SIZE | a) → (PAGE_SIZE | b) → a < b → b < 2 ^ USIZE_BITS →
    remove_mapping a b v = Done (r, v') → step disks safe s (Some i) (set_proc i v' s)
| step_protect i v q a b r v' : procs s !! i = Some v → (PAGE_SIZE | a) → (PAGE_SIZE | b) → a < b →
    VmPerms.contains VmPerms.ALL_PERMS q = true → (safe = true → cow_safe v q a b) →
    protect q a b v = Done (r, v') → step disks safe s (Some i) (set_proc i v' s)
| step_mremap i v rlimit old_addr old_size new_size flags_ new_addr r v' : procs s !! i = Some v → roomy v →
    0 ≤ old_addr → in_width USIZE_BITS old_size → in_width USIZE_BITS new_size →
    sys_mremap rlimit old_addr old_size new_size flags_ new_addr v = Done (r, v') → step disks safe s (Some i) (set_proc i v' s)
| step_brk i v rlimit current new_ r v' : procs s !! i = Some v → roomy v →
    in_width USIZE_BITS current → in_width USIZE_BITS new_ →
    brk rlimit current new_ v = Done (r, v') → step disks safe s (Some i) (set_proc i v' s)
| step_fork i j v parent child : procs s !! i = Some v → procs s !! j = None → io_below (pt v) →
    fork_from v = Done (parent, child) → step disks safe s (Some i) (set_proc j child (set_proc i parent s))
| step_exit i : step disks safe s (Some i) (set_procs (delete i (procs s)) s)
| step_store i k e f c : entry_at s i k = Some e → item e = Ram f → may_write e = true →
    step disks safe s (Some i) (set_content f c s)
(** [Vmo::operate_on_range] commits a page that it found missing. *)
| step_commit disk vmo idx r s' : disks disk → v_pages (vmo_of s vmo) !! idx = None →
    idx * PAGE_SIZE ≤ v_size (vmo_of s vmo) → commit_on disk vmo idx s = Done (r, s') → step disks safe s None s'
| step_new_vmo vmo size pager : vmos s !! vmo = None → step disks safe s None (put_vmo vmo (vmo_new size pager) s)
(** [Vmo::resize], [Vmo::decommit] and [PageCache::discard_range] *)
| step_drop vmo w size out gone : vmos s !! vmo = Some w →
    (∀ idx, idx ∈ out → (idx ∉ gone) → is_Some (pager_pages w !! idx) → load_state w idx ≠ Uninit) →
    step disks safe s None (put_vmo vmo (drop_pages size out gone w) s)
(** [PageCacheManager::update_page] and the write-back of [evict_range] *)
| step_mark vmo w idx st : vmos s !! vmo = Some w → st ≠ Uninit →
    step disks safe s None (put_vmo vmo (mark_page idx st w) s)
| step_write f c : held s f → step disks safe s None (set_content f c s)
| step_reclaim f : ¬ held s f → unmapped s f → (f ∉ free s) → step disks safe s None (set_free (f :: free s) s).

(** The states that the machine reaches from the one with no process and the given
    free frames. *)
Inductive reachable (disks : Backend → Prop) (safe : bool) (frames : list Z) : Sys → Prop :=
| reach_init : reachable disks safe frames (mkSys ∅ ∅ ∅ frames)
| reach_step s a s' : reachable disks safe frames s → step disks safe s a s' → reachable disks safe frames s'.

(** ** Every step keeps the invariant *)

Lemma content_inv f c s : inv s → inv (set_content f c s).
Proof. by intros [I1 I2 I3 I4 I5 I6]. Qed.

Lemma spawn_inv i s : inv s → procs s !! i = None → inv (set_proc i new s).
Proof.
  intros HI Hi. assert (shrinks s (set_proc i new s)) as Hsh.
  { split; [| done]. intros j k e' x' f (v & Hj & He & Hx) Hf. cbn in Hj. destruct (decide (j = i)) as [->|Hne].
    - rewrite lookup_insert, decide_True in Hj by done. injection Hj as <-.
      by destruct (lookup_empty_Some (M := gmap Z) k e').
    - rewrite lookup_insert_ne in Hj by done. exists e', x'. split; [by exists v |]. auto. }
  assert (∀ j v, procs (set_proc i new s) !! j = Some v → v = new ∨ procs s !! j = Some v) as Hp.
  { intros j v. cbn. destruct (decide (j = i)) as [->|Hne].
    - rewrite lookup_insert, decide_True by done. intros [= <-]. by left.
    - rewrite lookup_insert_ne by done. by right. }
  apply (shrink_inv s); try done.
  - intros j v [->|Hv]%Hp; [| by apply (i_wf s HI j)].
    split; [split; [split; [done | by intros ? ?%not_elem_of_nil] | done] |].
    intros k e He. by destruct (lookup_empty_Some (M := gmap Z) k e).
  - intros j v p x [->|Hv]%Hp; [done | by apply (i_kinds s HI j v p)].
  - apply (i_free_nodup s HI).
  - by apply (shrinks_free s).
Qed.

Lemma exit_inv i s : inv s → inv (set_procs (delete i (procs s)) s).
Proof.
  intros HI. set (s' := set_procs _ s).
  assert (∀ j v, procs s' !! j = Some v → procs s !! j = Some v) as Hp.
  { intros j v. cbn. by intros [_ Hv]%lookup_delete_Some. }
  assert (shrinks s s') as Hsh.
  { split; [| done]. intros j k e' x' f (v & Hj%Hp & He & Hx) Hf. exists e', x'. split; [by exists v |]. auto. }
  apply (shrink_inv s); try done.
  - intros j v Hv%Hp. by apply (i_wf s HI j).
  - intros j v p x Hv%Hp. by apply (i_kinds s HI j v p).
  - apply (i_free_nodup s HI).
  - by apply (shrinks_free s).
Qed.

Lemma map_inv s i v rlimit o r v' : inv s → procs s !! i = Some v → opts_ok o → backed o →
  build rlimit o v = Done (r, v') → inv (set_proc i v' s).
Proof.
  intros HI Hi Ho Hb E. destruct (build_ok rlimit o v (i_wf s HI i v Hi) Ho) as (r0 & v0 & E0 & Hwf & Hres).
  rewrite E in E0. injection E0 as <- <-. pose proof (λ p x, i_kinds s HI i v p x Hi) as Hk.
  destruct r as [addr|e].
  - destruct Hres as (m & Hbm & _ & _ & _ & _ & _ & _ & Hview & Hpt). pose proof Hbm as [B1 B2 B3 B4 _ _].
    apply (proc_inv s i v v'); try done.
    + intros p x. rewrite Hview. case_decide; [| apply Hk]. intros [= <-]. cbn. rewrite B4. intros Hs Hba.
      unfold backing in Hba. unfold mem_matches in B3. specialize (Hb Hs).
      destruct (o_mappable o) as [[]|], (mapped_mem m); try done. rewrite B3 in Hb. by destruct Hb.
    + intros k e' x' f. rewrite Hpt, Hview. case_decide; [| eauto 10].
      unfold device_page. destruct (o_mappable o) as [[]|]; try done. case_decide; [| done]. by intros [= <-].
  - destruct Hres as [->|(_ & _ & offset & [_ _ _ _ _ Hview Hpt _ _ _ _])].
    + apply (proc_inv s i v v); try done. intros k e' x' f He Hx Hf. exists e', x'. auto 10.
    + apply (proc_inv s i v v'); try done.
      * intros p x. rewrite Hview. case_decide; [done | apply Hk].
      * intros k e' x' f. rewrite Hpt, Hview. case_decide; [done |]. intros He Hx Hf. exists e', x'. auto 10.
Qed.

Lemma unmap_inv s i v a b r v' : inv s → procs s !! i = Some v → (PAGE_SIZE | a) → (PAGE_SIZE | b) → a < b →
  b < 2 ^ USIZE_BITS → remove_mapping a b v = Done (r, v') → inv (set_proc i v' s).
Proof.
  intros HI Hi Da Db Hab Hb E. destruct (remove_mapping_ok v a b (i_wf s HI i v Hi) Da Db Hab Hb) as (v0 & E0 & Hwf & Hview & Hpt).
  rewrite E in E0. injection E0 as -> <-. apply (proc_inv s i v v'); try done.
  - intros p x. rewrite Hview. case_decide; [done |]. by apply (i_kinds s HI i v).
  - intros k e' x' f. rewrite Hpt, Hview. case_decide; [done |]. intros He Hx Hf. exists e', x'. auto 10.
Qed.

(** Writing can be granted by [protect] only if it is asked for and the mapping may
    be written. *)
Lemma protected_write q w : 0 ≤ q < 8 → 0 ≤ w < 64 → VmPerms.contains (protected q w) VmPerms.WRITE = true →
  VmPerms.contains q VmPerms.WRITE = true ∧
  (VmPerms.check (protected q w) = true → VmPerms.contains w VmPerms.MAY_WRITE = true).
Proof.
  intros Hq Hw.
  assert (forallb (λ q, forallb (λ w, implb (VmPerms.contains (protected q w) VmPerms.WRITE)
    (VmPerms.contains q VmPerms.WRITE && implb (VmPerms.check (protected q w)) (VmPerms.contains w VmPerms.MAY_WRITE)))
    (seqZ 0 64)) (seqZ 0 8) = true) as T by (by vm_compute).
  rewrite forallb_forall in T. specialize (T q). rewrite <- list_elem_of_In, elem_of_seqZ in T. specialize (T ltac:(lia)).
  rewrite forallb_forall in T. specialize (T w). rewrite <- list_elem_of_In, elem_of_seqZ in T. specialize (T ltac:(lia)).
  intros H. rewrite H in T. cbn [implb] in T. apply andb_true_iff in T as [T1 T2]. split; [done |].
  intros Hc. by rewrite Hc in T2.
Qed.

Lemma view_perms v p x : wf v → view v p = Some x → 0 ≤ a_perms x < 64.
Proof.
  intros [[Hok _] _] Hx. apply view_has in Hx as (m & Hm & _ & <-); [| done]. by apply Hok.
Qed.

Lemma protect_inv s i v q a b r v' : inv s → procs s !! i = Some v → (PAGE_SIZE | a) → (PAGE_SIZE | b) → a < b →
  VmPerms.contains VmPerms.ALL_PERMS q = true → cow_safe v q a b →
  protect q a b v = Done (r, v') → inv (set_proc i v' s).
Proof.
  intros HI Hi Da Db Hab Hq Hsafe E. pose proof (i_wf s HI i v Hi) as Hwf0.
  destruct (protect_ok v q a b Hwf0 Da Db Hab Hq) as (r0 & v0 & c & E0 & Hwf & Hc & Hview & _ & Hchk & _ & Hpt).
  rewrite E in E0. injection E0 as <- <-. apply (proc_inv s i v v'); try done.
  - intros p x. rewrite Hview. case_decide; [| by apply (i_kinds s HI i v)].
    intros (y & Hy & ->)%fmap_Some. exact (i_kinds s HI i v p y Hi Hy).
  - intros k e' x' f He Hx Hf. destruct (Hpt k e' He) as (e & x & He0 & Hx0 & Hit & Hch). exists e, x.
    assert (a_shared x' = a_shared x ∧ a_backing x' = a_backing x) as [Hs Hb].
    { rewrite Hview, Hx0 in Hx. case_decide; by injection Hx as <-. }
    split_and!; try done; [congruence |]. intros Hmw. destruct Hch as [->|[Hk [Hne Hgr]]]; [by left |].
    destruct (Hgr Hmw) as [Hpw Hor]. destruct (a_shared x) eqn:Hsx; [by right |]. exfalso.
    destruct (protected_write q (a_perms x)) as [Hqw Hmay]; [by apply plain_perms | by apply (view_perms v k) | done |].
    specialize (Hmay (Hchk k x Hk Hx0)). destruct Hor as [?|[?|Hw]]; [done | congruence |].
    apply Hne, (Hsafe k x); try done. lia.
Qed.

(** Pages that move to other addresses of their process stay as they are. *)
Lemma relocated_inv s i v v' : inv s → procs s !! i = Some v → moved v v' → inv (set_proc i v' s).
Proof.
  intros HI Hi [Hwf' [g [G1 G2 G3]]]. pose proof HI as [I1 I2 I3 I4 I5 I6]. set (s' := set_proc i v' s).
  assert (∀ q w, procs s' !! q = Some w → (q = i ∧ w = v') ∨ (q ≠ i ∧ procs s !! q = Some w)) as Hpr.
  { intros q w. cbn. destruct (decide (q = i)) as [->|Hq]; [rewrite lookup_insert, decide_True by done | rewrite lookup_insert_ne by done; auto].
    intros [= <-]. by left. }
  set (h := λ q k, if decide (q = i) then g k else k).
  assert (∀ q k e x', maps s' q k e x' → ∃ x, maps s q (h q k) e x ∧ a_shared x' = a_shared x ∧ a_backing x' = a_backing x) as Horig.
  { intros q k e x' (w & Hw & He & Hx). unfold h. destruct (Hpr q w Hw) as [[-> ->]|[Hq Hw']].
    - rewrite decide_True by done. destruct (G1 k e x' He Hx) as (He0 & x & Hx0 & Hs & Hb). exists x. split; [by exists v | done].
    - rewrite decide_False by done. exists x'. split; [by exists w | done]. }
  assert (∀ q k k' e e' x x', maps s' q k e x → maps s' q k' e' x' → h q k = h q k' → k = k') as Hinj.
  { intros q k k' e e' x x' (w & Hw & He & _) (w' & Hw' & He' & _). assert (w' = w) as -> by congruence. unfold h.
    destruct (Hpr q w Hw) as [[-> ->]|[Hq _]]; [rewrite !decide_True by done | by rewrite !decide_False by done].
    by apply (G2 k k' e e'). }
  split.
  - intros q w [[-> ->]|[_ Hq]]%Hpr; [done | by apply (I1 q)].
  - intros q w p x' [[-> ->]|[_ Hq]]%Hpr; [| by apply (I2 q w p)]. intros Hx Hs Hb.
    destruct (G3 p x' Hx) as (p0 & x & Hx0 & Hs0 & Hb0). apply (I2 i v p0 x Hi Hx0); [congruence | auto].
  - done.
  - intros f Hf. destruct (I4 f Hf) as [H1 H2]. split; [done |]. intros q k e x' Hm Hfe.
    destruct (Horig q k e x' Hm) as (x & Hm0 & _). by apply (H2 q (h q k) e x).
  - intros q k e x' f Hm Hf Hw Hs. destruct (Horig q k e x' Hm) as (x & Hm0 & Hs0 & _).
    destruct (I5 q (h q k) e x f Hm0 Hf Hw ltac:(congruence)) as [H1 H2]. split; [done |]. intros q2 k2 e2 x2 Hm2 Hf2.
    destruct (Horig q2 k2 e2 x2 Hm2) as (x3 & Hm3 & _). destruct (H2 q2 (h q2 k2) e2 x3 Hm3 Hf2) as [-> Hk].
    split; [done |]. by apply (Hinj q k2 k e2 e x2 x').
  - intros q k e x' f Hm Hf Hb. destruct (Horig q k e x' Hm) as (x & Hm0 & _ & Hb0).
    destruct (I6 q (h q k) e x f Hm0 Hf ltac:(congruence)) as [H1 H2]. split; [done |]. intros q2 k2 e2 x2 Hm2 Hf2.
    destruct (Horig q2 k2 e2 x2 Hm2) as (x3 & Hm3 & Hs3 & _). rewrite Hs3. by apply (H2 q2 (h q2 k2) e2 x3).
Qed.

Lemma readonly_item e : item (readonly e) = item e.
Proof. by destruct e as [[] ?]. Qed.

Lemma readonly_write e f : item e = Ram f → may_write (readonly e) = false.
Proof. intros Hf. unfold readonly, may_write. rewrite Hf. cbn [flags]. by rewrite Z.ldiff_spec, andb_false_r. Qed.

(** Parent and child map the frames of the parent, without write access. *)
Lemma fork_inv s i j v parent child : inv s → procs s !! i = Some v → procs s !! j = None → io_below (pt v) →
  fork_from v = Done (parent, child) → inv (set_proc j child (set_proc i parent s)).
Proof.
  intros HI Hi Hj Hio E. pose proof HI as [I1 I2 I3 I4 I5 I6].
  destruct (fork_ok v (I1 i v Hi) Hio) as (p0 & c0 & E0 & Hwp & Hwc & Hvp & Hvc & Hpp & Hpc).
  rewrite E in E0. injection E0 as <- <-. set (s' := set_proc j child _).
  assert (∀ q w, procs s' !! q = Some w → (q ≠ i ∧ q ≠ j ∧ procs s !! q = Some w) ∨
    ((q = i ∨ q = j) ∧ wf w ∧ (∀ p, view w p = view v p) ∧ ∀ k, pt w !! k = readonly <$> pt v !! k)) as Hpr.
  { intros q w. cbn. destruct (decide (q = j)) as [->|Hqj]; [rewrite lookup_insert, decide_True by done | rewrite lookup_insert_ne by done].
    { intros [= <-]. auto. }
    destruct (decide (q = i)) as [->|Hqi]; [rewrite lookup_insert, decide_True by done | rewrite lookup_insert_ne by done; auto].
    intros [= <-]. right. split_and!; auto. intros p. unfold view. by rewrite Hvp. }
  assert (∀ q k e' x f, maps s' q k e' x → item e' = Ram f →
    ∃ q0 e, maps s q0 k e x ∧ item e = Ram f ∧ (may_write e' = true → q0 = q ∧ e = e') ∧ (q0 ≠ i → q = q0)) as Horig.
  { intros q k e' x f (w & Hw & He & Hx) Hf. destruct (Hpr q w Hw) as [(_ & _ & Hq)|(_ & _ & Hvw & Hptw)].
    - exists q, e'. split_and!; auto. by exists w.
    - rewrite Hptw in He. apply fmap_Some in He as (e & He & ->). rewrite Hvw in Hx. exists i, e.
      pose proof Hf as Hfe. rewrite readonly_item in Hfe.
      split_and!; [by exists v | done | | done]. by rewrite (readonly_write e f Hfe). }
  split.
  - intros q w [(_ & _ & Hq)|(_ & Hw & _)]%Hpr; [by apply (I1 q) | done].
  - intros q w p x [(_ & _ & Hq)|(_ & _ & Hvw & _)]%Hpr; [by apply (I2 q w p) | rewrite Hvw; by apply (I2 i v p)].
  - done.
  - intros f Hf. destruct (I4 f Hf) as [H1 H2]. split; [done |]. intros q k e' x Hm Hfe.
    destruct (Horig q k e' x f Hm Hfe) as (q0 & e & Hm0 & Hf0 & _). by apply (H2 q0 k e x).
  - intros q k e' x f Hm Hf Hw Hs. destruct (Horig q k e' x f Hm Hf) as (q0 & e & Hm0 & Hf0 & Heq & _).
    destruct (Heq Hw) as [-> ->]. assert (q ≠ i) as Hqi.
    { intros ->. destruct Hm as (w & Hpw & He & _). destruct (Hpr i w Hpw) as [(? & _)|(_ & _ & _ & Hptw)]; [done |].
      rewrite Hptw in He. apply fmap_Some in He as (e1 & _ & ->). rewrite readonly_item in Hf.
      by rewrite (readonly_write e1 f Hf) in Hw. }
    destruct (I5 q k e' x f Hm0 Hf0 Hw Hs) as [H1 H2]. split; [done |]. intros q2 k2 e2 x2 Hm2 Hf2.
    destruct (Horig q2 k2 e2 x2 f Hm2 Hf2) as (q3 & e3 & Hm3 & Hf3 & _ & Hback).
    destruct (H2 q3 k2 e3 x2 Hm3 Hf3) as [-> ->]. split; [by apply Hback | done].
  - intros q k e' x f Hm Hf Hb. destruct (Horig q k e' x f Hm Hf) as (q0 & e & Hm0 & Hf0 & _).
    destruct (I6 q0 k e x f Hm0 Hf0 Hb) as [H1 H2]. split; [done |]. intros q2 k2 e2 x2 Hm2 Hf2.
    destruct (Horig q2 k2 e2 x2 f Hm2 Hf2) as (q3 & e3 & Hm3 & Hf3 & _). by apply (H2 q3 k2 e3 x2).
Qed.

Lemma drop_inv s vmo w' : inv s →
  (∀ idx g, v_pages w' !! idx = Some g ∨ pager_pages w' !! idx = Some g → held s g) → inv (put_vmo vmo w' s).
Proof.
  intros HI Hw. apply vmos_inv; [done |]. intros g (vmo' & w0 & idx & Hl & Hg). apply held_holdable; [done |]. cbn in Hl.
  destruct (decide (vmo' = vmo)) as [->|Hne].
  - rewrite lookup_insert, decide_True in Hl by done. injection Hl as <-. by apply (Hw idx).
  - rewrite lookup_insert_ne in Hl by done. by exists vmo', w0, idx.
Qed.

Lemma reclaim_inv s f : inv s → ¬ held s f → unmapped s f → (f ∉ free s) → inv (set_free (f :: free s) s).
Proof.
  intros [I1 I2 I3 I4 I5 I6] Hh Hu Hf. split; try done.
  - by constructor.
  - intros g [->|Hg]%elem_of_cons; [done | by apply I4].
Qed.

Lemma drop_ready size out gone w : cache_ok w →
  (∀ idx, idx ∈ out → (idx ∉ gone) → is_Some (pager_pages w !! idx) → load_state w idx ≠ Uninit) →
  cache_ok (drop_pages size out gone w).
Proof.
  intros [H1 H2 H3] Hout. split; try done. intros idx _ Hst [f Hp]. cbn in Hp.
  apply map_lookup_filter_Some in Hp as [Hp Hg]. cbn in Hg.
  destruct (H1 idx ltac:(done) Hst ltac:(by eexists)) as [[f' Hv]|Ha]; [left | by right].
  exists f'. apply map_lookup_filter_Some. split; [done |]. cbn. intros Hin. by destruct (Hout idx Hin Hg); [eexists |].
Qed.

Lemma mark_page_ready idx st w : cache_ok w → st ≠ Uninit → cache_ok (mark_page idx st w).
Proof.
  intros [H1 H2 H3] Hst. split; try done. intros j _. unfold page_ready, load_state, awaited. cbn.
  destruct (decide (j = idx)) as [->|Hne]; [by rewrite lookup_insert, decide_True |].
  rewrite lookup_insert_ne by done. by apply H1.
Qed.

Lemma put_vmo_caches vmo w s : caches_ok s → cache_ok w → caches_ok (put_vmo vmo w s).
Proof.
  intros Hc Hw v. destruct (decide (v = vmo)) as [->|Hne]; [by rewrite vmo_of_put_eq | by rewrite vmo_of_put_ne].
Qed.

Lemma vmo_of_lookup s vmo w : vmos s !! vmo = Some w → vmo_of s vmo = w.
Proof. intros H. unfold vmo_of. by rewrite H. Qed.

Lemma step_inv disks s a s' : inv s → caches_ok s → step disks true s a s' → inv s' ∧ caches_ok s'.
Proof.
  intros HI Hca Hst. destruct Hst as [|disk ? ? ? ? ? ? Hd Hr Hf| | | | | | | | |disk ? ? ? ? Hd Hno Hsz Hco| |vmo w size out gone Hw Hout|vmo w idx st Hw Hm| |].
  - split; [by apply spawn_inv | done].
  - destruct (page_fault_ok disk extra i address req s) as (r0 & s0 & E0 & Hfa & Hca' & _); try done.
    assert (s' = s0) as -> by congruence. split; [apply Hfa | done].
  - split; [eapply map_inv; eauto | done].
  - split; [by apply (unmap_inv s i v a b r v') | done].
  - split; [apply (protect_inv s i v q a b r v'); auto | done].
  - split; [| done]. apply (relocated_inv s i v); [done | done |].
    by apply (mremap_moved rlimit old_addr old_size new_size flags_ new_addr v r v'); [apply (i_wf s HI i) | ..].
  - split; [| done]. apply (relocated_inv s i v); [done | done |].
    by apply (brk_moved rlimit current new_ v r v'); [apply (i_wf s HI i) | ..].
  - split; [eapply fork_inv; eauto | done].
  - split; [by apply exit_inv | done].
  - split; [by apply content_inv | done].
  - destruct (commit_on_ok 0 disk vmo idx s r s' HI Hco) as [[Hs' _ _ _ _ _ _] _]. split; [done |].
    destruct (commit_on_done disk vmo idx s Hca Hno Hsz) as (r0 & s0 & E0 & Hc0). rewrite Hco in E0. by injection E0 as <- <-.
  - split; [| apply put_vmo_caches; [done | apply vmo_new_ok]].
    apply drop_inv; [done |]. cbn. intros idx g [Hg|Hg]; by destruct (lookup_empty_Some (M := gmap Z) idx g).
  - split; [| apply put_vmo_caches; [done |]; apply drop_ready; [rewrite <- (vmo_of_lookup s vmo w Hw); apply Hca | done]].
    apply drop_inv; [done |]. intros idx g Hg. exists vmo, w, idx. split; [done |]. cbn in Hg.
    rewrite !map_lookup_filter_Some in Hg. naive_solver.
  - split; [| apply put_vmo_caches; [done |]; apply mark_page_ready; [rewrite <- (vmo_of_lookup s vmo w Hw); apply Hca | done]].
    apply drop_inv; [done |]. intros j g Hg. by exists vmo, w, j.
  - split; [by apply content_inv | done].
  - split; [by apply reclaim_inv | done].
Qed.

Lemma cow_reachable_inv disks frames s : NoDup frames → reachable disks true frames s → inv s ∧ caches_ok s.
Proof.
  intros Hnd. induction 1 as [|s a s' _ [IH1 IH2] Hst]; [| by eapply step_inv].
  assert (∀ i k e x, ¬ maps (mkSys ∅ ∅ ∅ frames) i k e x) as Hm.
  { intros i k e x (v & Hv & _). by destruct (lookup_empty_Some (M := gmap Z) i v). }
  assert (∀ i v, (∅ : gmap Z Vmar) !! i ≠ Some v) as Hn by (intros i v; apply lookup_empty_Some).
  split; [split | intros vmo; apply vmo_new_ok].
  - intros i v Hv. by apply Hn in Hv.
  - intros i v p x Hv. by apply Hn in Hv.
  - done.
  - intros f Hf. split; [by intros (? & ? & ? & ? & _) |]. intros i k e x Hmm. by apply Hm in Hmm.
  - intros i k e x f Hmm. by apply Hm in Hmm.
  - intros i k e x f Hmm. by apply Hm in Hmm.
Qed.

(** ** Isolation *)

Lemma reads_set_content s f c j k : (∀ e, entry_at s j k = Some e → item e ≠ Ram f) →
  reads (set_content f c s) j k = reads s j k.
Proof.
  intros Hne. unfold reads. change (entry_at (set_content f c s) j k) with (entry_at s j k).
  destruct (entry_at s j k) as [e|]; [| done]. specialize (Hne e eq_refl). destruct (item e) as [g|]; [| done].
  unfold content. cbn. rewrite lookup_insert_ne; [done | congruence].
Qed.

(** No step of another process, and none of the kernel, changes the address space or
    the private anonymous pages of a process. *)
Lemma others_keep disks s a s' p v : inv s → caches_ok s → step disks true s a s' → a ≠ Some p → procs s !! p = Some v →
  procs s' !! p = Some v ∧
  ∀ k x, view v k = Some x → a_backing x = BAnonymous → reads s' p k = reads s p k.
Proof.
  intros HI Hca Hst Ha Hp.
  assert (∀ i w, i ≠ p → procs (set_proc i w s) !! p = Some v) as Hset.
  { intros i w Hi. cbn. by rewrite lookup_insert_ne. }
  assert (∀ s1, procs s1 !! p = Some v → (∀ f, f ∉ free s → content s1 f = content s f) →
    procs s1 !! p = Some v ∧ ∀ k x, view v k = Some x → a_backing x = BAnonymous → reads s1 p k = reads s p k) as Hsame.
  { intros s1 Hp1 Hc. split; [done |]. intros k x _ _. apply reads_content; [done | congruence | done]. }
  assert (∀ i s1, faulted i s s1 → procs s1 !! p = Some v →
    procs s1 !! p = Some v ∧ ∀ k x, view v k = Some x → a_backing x = BAnonymous → reads s1 p k = reads s p k) as Hfault.
  { intros i s1 Hfa Hp1. apply Hsame; [done | apply Hfa]. }
  assert (∀ f c, (∀ k' e' x', maps s p k' e' x' → a_backing x' = BAnonymous → item e' ≠ Ram f) →
    procs (set_content f c s) !! p = Some v ∧
    ∀ k x, view v k = Some x → a_backing x = BAnonymous → reads (set_content f c s) p k = reads s p k) as Hcont.
  { intros f c Hno. split; [done |]. intros k' x' Hx' Hb. apply reads_set_content. intros e' He' Hf'.
    apply (Hno k' e' x'); [| done | done]. unfold entry_at, vmar_of in He'. rewrite Hp in He'. by exists v. }
  destruct Hst as [|disk i extra address req r s' Hd Hr Hf| | | | | | | |i k e f c He Hf Hw|disk vmo idx r s' Hd Hno Hsz Hco| | | |f c Hh|];
    try (apply Hsame; [apply Hset; congruence | done]); try (by apply Hsame).
  - destruct (page_fault_ok disk extra i address req s) as (r0 & s0 & E0 & Hfa & _); try done.
    assert (s' = s0) as -> by congruence. apply (Hfault i); [done |]. rewrite (fa_others i s s0 Hfa); [done | congruence].
  - apply Hsame; [| done]. cbn. rewrite !lookup_insert_ne; [done | congruence | congruence].
  - apply Hsame; [| done]. cbn. rewrite lookup_delete_ne; [done | congruence].
  - apply Hcont. intros k' e' x' Hm' Hb Hf'. destruct (entry_maps s i k e HI) as (_ & x & Hm & _); [done |].
    destruct (i_anon s HI p k' e' x' f Hm' Hf' Hb) as [_ Hpriv].
    specialize (Hpriv i k e x Hm Hf). destruct (i_cow s HI i k e x f Hm Hf Hw Hpriv) as [_ Hsole].
    destruct (Hsole p k' e' x' Hm' Hf'). congruence.
  - destruct (commit_on_ok p disk vmo idx s r s' HI Hco) as [Hfa [Hps _]]. apply (Hfault p); [done | by rewrite Hps].
  - apply Hcont. intros k' e' x' Hm' Hb Hf'. by destruct (i_anon s HI p k' e' x' f Hm' Hf' Hb).
Qed.

(** [C3] In every state that is reached with mmap, munmap, mremap, brk, forks, exits,
    page faults, stores, the kernel's work on VMOs, and only those mprotect calls that
    do not change the permissions of a private mapping that is and stays writable, a
    store through a private mapping changes what that process reads at that page, and
    nothing that any other process, or the process itself, reads at another page, nor
    any page of a file. mremap and brk are steps while the offsets of the mapped files
    stay [VMAR_CAP_ADDR] below [2 ^ 64], forks while I/O pages lie below the last page. *)
Theorem cow_isolation disks frames s i k e x f c : NoDup frames → reachable disks true frames s →
  entry_at s i k = Some e → view (vmar_of s i) k = Some x → a_shared x = false →
  item e = Ram f → may_write e = true →
  let s' := set_content f c s in
  step disks true s (Some i) s' ∧ reads s' i k = Some c ∧
  (∀ j k', (j, k') ≠ (i, k) → reads s' j k' = reads s j k') ∧
  (∀ g, held s g → content s' g = content s g).
Proof.
  intros Hnd Hre He Hx Hs Hf Hw s'. destruct (cow_reachable_inv disks frames s Hnd Hre) as [HI _].
  destruct (entry_maps s i k e HI He) as (_ & y & Hm & _).
  assert (y = x) as ->. { destruct Hm as (v & Hv & _ & Hy). unfold vmar_of in Hx. rewrite Hv in Hx. cbn in Hx. congruence. }
  destruct (i_cow s HI i k e x f Hm Hf Hw Hs) as [Hnh Hsole]. split_and!.
  - by apply (step_store disks true s i k e).
  - unfold reads, s'. change (entry_at (set_content f c s) i k) with (entry_at s i k). rewrite He, Hf.
    unfold content. cbn. by rewrite lookup_insert, decide_True.
  - intros j k' Hne. apply reads_set_content. intros e' He' Hf'.
    destruct (entry_maps s j k' e' HI He') as (_ & x' & Hm' & _). destruct (Hsole j k' e' x' Hm' Hf'). congruence.
  - intros g Hg. unfold s', content. cbn. rewrite lookup_insert_ne; [done |]. by intros ->.
Qed.

(** [C2] A fork takes a snapshot: after it, parent and child each still read at every
    private anonymous address what the parent read there before the fork, for as long as
    they take no step themselves, whatever the other process, further processes and the
    kernel do. Before and after the fork no mprotect call changes the permissions of a
    private mapping that is and stays writable; the other steps are those of [step]. *)
Theorem fork_snapshot disks frames s i j v parent child p s2 : NoDup frames → reachable disks true frames s →
  procs s !! i = Some v → procs s !! j = None → io_below (pt v) → fork_from v = Done (parent, child) →
  p = i ∨ p = j →
  rtc (λ t t', ∃ a, a ≠ Some p ∧ step disks true t a t') (set_proc j child (set_proc i parent s)) s2 →
  ∀ k x, view v k = Some x → a_backing x = BAnonymous → reads s2 p k = reads s i k.
Proof.
  intros Hnd Hre Hi Hj Hio E Hpij Hrun. destruct (cow_reachable_inv disks frames s Hnd Hre) as [HI Hca].
  pose proof (fork_inv s i j v parent child HI Hi Hj Hio E) as HI1.
  destruct (fork_ok v (i_wf s HI i v Hi) Hio) as (p0 & c0 & E0 & _ & _ & Hvp & Hvc & Hpp & Hpc).
  rewrite E in E0. injection E0 as <- <-. set (s1 := set_proc j child _) in *.
  assert (∃ w, procs s1 !! p = Some w ∧ (∀ k, view w k = view v k) ∧ ∀ k, pt w !! k = readonly <$> pt v !! k) as (w & Hw & Hvw & Hpw).
  { assert (i ≠ j) by congruence. destruct Hpij as [->| ->]; cbn.
    - exists parent. rewrite lookup_insert_ne, lookup_insert, decide_True by done. split_and!; [done | | done].
      intros k. unfold view. by rewrite Hvp.
    - exists child. by rewrite lookup_insert, decide_True. }
  assert (∀ k, reads s1 p k = reads s i k) as Hrd.
  { intros k. unfold reads, entry_at, vmar_of. rewrite Hw, Hi. cbn. rewrite Hpw. destruct (pt v !! k) as [e|]; [| done].
    cbn. by rewrite readonly_item. }
  intros k x Hx Hb. rewrite <- Hrd. rewrite <- Hvw in Hx. assert (caches_ok s1) as Hca1 by done.
  clear - HI1 Hca1 Hw Hrun Hx Hb. induction Hrun as [|t t1 t2 (a & Ha & Hst) _ IH]; [done |].
  destruct (others_keep disks t a t1 p w HI1 Hca1 Hst Ha Hw) as [Hw1 Hk].
  destruct (step_inv disks t a t1 HI1 Hca1 Hst) as [HI2 Hca2]. by rewrite IH; [apply (Hk k x) | ..].
Qed.

(** ** A run

    Process 0 maps a private anonymous page, writes 5 to it and forks process 1. *)

Definition no_disk : Backend := mkBackend (λ _, 0) (λ _ _, RErr EIO) (λ _ _, 0) (λ _ _, true).
Definition no_disks : Backend → Prop := eq no_disk.
Definition vmar_result {A} (o : outcome (result A Errno * Vmar)) : Vmar :=
  match o with Done (_, v) => v | Panic => new end.
Definition sys_result (o : outcome (result unit Errno * Sys)) : Sys :=
  match o with Done (_, s) => s | Panic => mkSys ∅ ∅ ∅ [] end.

Definition page_options : VmarMapOptions :=
  mkOptions None None 3 VmPerms.ALL_MAY_PERMS 0 PAGE_SIZE (Some VMAR_LOWEST_ADDR) PAGE_SIZE true false false.

Definition run0 : Sys := set_proc 0 new (mkSys ∅ ∅ ∅ [7; 8; 9]).
Definition run1 : Sys := Eval vm_compute in set_proc 0 (vmar_result (build None page_options new)) run0.
Definition run2 : Sys := Eval vm_compute in sys_result (handle_page_fault no_disk 0 0 VMAR_LOWEST_ADDR 3 run1).
Definition run3 : Sys := Eval vm_compute in set_content 7 5 run2.

Lemma page_options_ok : opts_ok page_options.
Proof. split; cbn; try done. Qed.

Lemma run3_reachable : reachable no_disks true [7; 8; 9] run3.
Proof.
  apply (reach_step _ _ _ run2 (Some 0)); [apply (reach_step _ _ _ run1 (Some 0)); [apply (reach_step _ _ _ run0 (Some 0)) |] |].
  - apply (reach_step _ _ _ _ None _ (reach_init _ _ _)). by apply step_spawn.
  - apply (step_map no_disks true run0 0 new None page_options (ROk VMAR_LOWEST_ADDR)); [done | apply page_options_ok | done | by vm_compute].
  - apply (step_fault no_disks true run1 no_disk 0 0 VMAR_LOWEST_ADDR 3 (ROk tt)); [done | lia | by vm_compute].
  - by apply (step_store no_disks true run2 0 VMAR_LOWEST_ADDR (mkPte (Ram 7) 27) 7 5).
Qed.

(** The fork, and the child's own copy after a write. *)
Definition parent_of (s : Sys) : Vmar := match fork_from (vmar_of s 0) with Done (p, _) => p | Panic => new end.
Definition child_of (s : Sys) : Vmar := match fork_from (vmar_of s 0) with Done (_, c) => c | Panic => new end.
Definition run4 : Sys := Eval vm_compute in set_proc 1 (child_of run3) (set_proc 0 (parent_of run3) run3).
Definition run5 : Sys := Eval vm_compute in sys_result (handle_page_fault no_disk 0 1 VMAR_LOWEST_ADDR 3 run4).
Definition run6 : Sys := Eval vm_compute in set_content 8 6 run5.

Lemma run3_io : io_below (pt (vmar_of run3 0)).
Proof.
  intros k e He. change (({[VMAR_LOWEST_ADDR := mkPte (Ram 7) 27]} : gmap Z Pte) !! k = Some e) in He.
  apply lookup_singleton_Some in He as [_ <-]. done.
Qed.

Lemma run4_reachable : reachable no_disks true [7; 8; 9] run4.
Proof.
  apply (reach_step _ _ _ run3 (Some 0)); [apply run3_reachable |].
  apply (step_fork no_disks true run3 0 1 (vmar_of run3 0) (parent_of run3) (child_of run3)); [done | done | apply run3_io | by vm_compute].
Qed.

Lemma NoDup_run : NoDup [7; 8; 9].
Proof. by apply (bool_decide_unpack _). Qed.

Lemma cow_isolation_witness :
  let s := run6 in let s' := set_content 8 11 s in
  step no_disks true s (Some 1) s' ∧ reads s' 1 VMAR_LOWEST_ADDR = Some 11 ∧ reads s' 0 VMAR_LOWEST_ADDR = Some 5.
Proof.
  assert (reachable no_disks true [7; 8; 9] run6) as Hre.
  { apply (reach_step _ _ _ run5 (Some 1)); [apply (reach_step _ _ _ run4 (Some 1)); [apply run4_reachable |] |].
    - apply (step_fault no_disks true run4 no_disk 1 0 VMAR_LOWEST_ADDR 3 (ROk tt)); [done | lia | by vm_compute].
    - by apply (step_store no_disks true run5 1 VMAR_LOWEST_ADDR (mkPte (Ram 8) 27) 8 6). }
  destruct (cow_isolation no_disks [7; 8; 9] run6 1 VMAR_LOWEST_ADDR (mkPte (Ram 8) 27) (mkAttr BAnonymous false false 0x3b) 8 11)
    as (H1 & H2 & H3 & _); [apply NoDup_run | done .. |].
  split_and!; [done | done |]. rewrite H3; [by vm_compute | done].
Defined.

Lemma fork_snapshot_witness : reads run6 0 VMAR_LOWEST_ADDR = Some 5 ∧ reads run6 1 VMAR_LOWEST_ADDR = Some 6.
Proof.
  split; [| by vm_compute].
  rewrite (fork_snapshot no_disks [7; 8; 9] run3 0 1 (vmar_of run3 0) (parent_of run3) (child_of run3) 0 run6) with
    (x := mkAttr BAnonymous false false 0x3b); try done.
  - apply NoDup_run.
  - apply run3_reachable.
  - apply run3_io.
  - by left.
  - apply (rtc_l _ _ run5); [exists (Some 1); split; [done |] | apply rtc_once; exists (Some 1); split; [done |]].
    + apply (step_fault no_disks true run4 no_disk 1 0 VMAR_LOWEST_ADDR 3 (ROk tt)); [done | lia | by vm_compute].
    + by apply (step_store no_disks true run5 1 VMAR_LOWEST_ADDR (mkPte (Ram 8) 27) 8 6).
Defined.

(** [C37] Copy-on-write is broken by mprotect: in a reachable state with a parent and a
    child that share a private anonymous page, the child asks for read, write and
    execute access where it had read and write access, and is granted it with a
    writable page; what it stores then is read by the parent. *)
Theorem mprotect_breaks_cow : ∃ s v v' e,
  reachable no_disks true [7; 8; 9] s ∧ procs s !! 1 = Some v ∧
  protect 7 VMAR_LOWEST_ADDR (VMAR_LOWEST_ADDR + PAGE_SIZE) v = Done (ROk tt, v') ∧
  (∃ x, view (vmar_of s 0) VMAR_LOWEST_ADDR = Some x ∧ a_shared x = false ∧ a_backing x = BAnonymous) ∧
  reads s 0 VMAR_LOWEST_ADDR = Some 5 ∧
  let s1 := set_proc 1 v' s in
  entry_at s1 1 VMAR_LOWEST_ADDR = Some e ∧ item e = Ram 7 ∧ may_write e = true ∧
  reads (set_content 7 9 s1) 0 VMAR_LOWEST_ADDR = Some 9.
Proof.
  exists run4, (vmar_of run4 1), (vmar_result (protect 7 VMAR_LOWEST_ADDR (VMAR_LOWEST_ADDR + PAGE_SIZE) (vmar_of run4 1))), (mkPte (Ram 7) 7).
  split_and!; [apply run4_reachable | done | by vm_compute | | by vm_compute ..].
  exists (mkAttr BAnonymous false false 0x3b). by vm_compute.
Qed.
End CowSteps.
