(* ===== verification/Signals.v ===== *)
(** * Signals

    [kernel/src/process/signal/]: signal sets ([sig_mask.rs]), actions and dispositions
    ([sig_action.rs], [sig_disposition.rs]), the queues of pending signals
    ([sig_queues.rs], [pending.rs]), the choice of the next signal, the mask of a handler
    and its frame on the user stack ([mod.rs]), temporary masks ([pause.rs]); and the
    system calls on them. The
    lock of a queue is held throughout an operation. *)

From S2P Require Import Prelude Align.
Import Align.
Local Open Scope Z_scope.

Module Signals.

(** ** Numbers and sets *)

Definition MIN_STD_SIG_NUM : Z := 1.
Definition MAX_STD_SIG_NUM : Z := 31.
Definition MIN_RT_SIG_NUM : Z := 32.
Definition MAX_RT_SIG_NUM : Z := 64.
Definition COUNT_STD_SIGS : nat := 31.
Definition COUNT_RT_SIGS : nat := 33.
Definition COUNT_ALL_SIGS : nat := 64.

Definition SIGKILL : Z := 9.
Definition SIGSTOP : Z := 19.
Definition SIGSEGV : Z := 11.

(** [SigNum::try_from] accepts it. *)
Definition valid (n : Z) : Prop := MIN_STD_SIG_NUM ≤ n ≤ MAX_RT_SIG_NUM.
Definition is_std (n : Z) : bool := n <=? MAX_STD_SIG_NUM.

(** [SigSet] is its 64 bits. *)
Definition of_num (n : Z) : Z := Z.shiftl 1 (n - MIN_STD_SIG_NUM).
Definition set_add (s t : Z) : Z := Z.lor s t.
Definition set_sub (s t : Z) : Z := Z.land s (bit_not 64 t).
Definition new_full : Z := bit_not 64 0.
Definition contains (s n : Z) : bool := Z.land s (of_num n) =? of_num n.

(** ** Actions *)

Inductive SigAction : Type :=
| Dfl
| Ign
| User (handler_addr flags restorer_addr mask : Z).

Definition SA_NODEFER : Z := 0x40000000.
Definition SA_RESETHAND : Z := 0x80000000.
Definition SA_RESTORER : Z := 0x04000000.
Definition SA_SIGINFO : Z := 0x00000004.
Definition SA_ONSTACK : Z := 0x08000000.
Definition SA_RESTART : Z := 0x10000000.
Definition SA_ALL : Z := 0xDC000007.

(** [sigaction_t] *)
Record sigaction_t : Type := mkSigaction { handler_ptr : Z; sa_flags : Z; restorer_ptr : Z; sa_mask : Z }.

Definition action_of (input : sigaction_t) : SigAction :=
  if handler_ptr input =? 0 then Dfl
  else if handler_ptr input =? 1 then Ign
  else User (handler_ptr input) (Z.land (sa_flags input) SA_ALL) (restorer_ptr input)
         (set_sub (set_sub (sa_mask input) (of_num SIGSTOP)) (of_num SIGKILL)).

Definition as_c_type (a : SigAction) : sigaction_t :=
  match a with
  | Dfl => mkSigaction 0 0 0 0
  | Ign => mkSigaction 1 0 0 0
  | User handler_addr flags restorer_addr mask => mkSigaction handler_addr flags restorer_addr mask
  end.

Inductive SigDefaultAction : Type := Term | IgnDefault | Core | Stop | Cont.

Definition from_signum (n : Z) : SigDefaultAction :=
  if bool_decide (n ∈ [6; 7; 8; 4; 3; 11; 31; 5; 24; 25]) then Core
  else if bool_decide (n ∈ [17; 23; 28]) then IgnDefault
  else if n =? 18 then Cont
  else if bool_decide (n ∈ [19; 20; 21; 22]) then Stop
  else Term.

(** [SigAction::will_ignore] *)
Definition action_ignores (a : SigAction) (n : Z) : bool :=
  match a with
  | Dfl => match from_signum n with IgnDefault => true | _ => false end
  | Ign => true
  | User _ _ _ _ => false
  end.

Definition idx (n base : Z) : nat := Z.to_nat (n - base).

(** [SigDispositions] *)
Definition new_dispositions : list SigAction := replicate COUNT_ALL_SIGS Dfl.
Definition get (d : list SigAction) (n : Z) : outcome SigAction := unwrap (d !! idx n MIN_STD_SIG_NUM).
Definition set_default (n : Z) (d : list SigAction) : list SigAction := <[idx n MIN_STD_SIG_NUM := Dfl]> d.

(** [check_sigaction] on x86-64 *)
Definition check_sigaction (a : SigAction) : bool :=
  match a with
  | User _ flags restorer_addr _ => (Z.land flags SA_RESTORER =? SA_RESTORER) && negb (restorer_addr =? 0)
  | _ => true
  end.

(** [SigDispositions::set]; [None] is [EINVAL] *)
Definition set (n : Z) (a : SigAction) (d : list SigAction) : option (list SigAction) :=
  if check_sigaction a then Some (<[idx n MIN_STD_SIG_NUM := a]> d) else None.

(** [SigDispositions::inherit], on execve *)
Definition inherit (d : list SigAction) : list SigAction :=
  (λ a, match a with User _ _ _ _ => Dfl | a => a end) <$> d.

Definition will_ignore (d : list SigAction) (n : Z) : outcome bool :=
  get d n ≫= λ a, Done (action_ignores a n).

(** ** Queues *)

Record Signal : Type := mkSignal { num : Z; info : Z }.

#[export] Instance Signal_eq_dec : EqDecision Signal.
Proof. solve_decision. Defined.

Record Queues : Type := mkQueues {
  std_queues : list (option Signal);
  rt_queues : list (list Signal)
}.

Definition new_queues : Queues := mkQueues (replicate COUNT_STD_SIGS None) (replicate COUNT_RT_SIGS []).

Definition get_std_queue (n : Z) (q : Queues) : outcome (option Signal) :=
  unwrap (std_queues q !! idx n MIN_STD_SIG_NUM).
Definition put_std_queue (n : Z) (o : option Signal) (q : Queues) : Queues :=
  mkQueues (<[idx n MIN_STD_SIG_NUM := o]> (std_queues q)) (rt_queues q).
Definition get_rt_queue (n : Z) (q : Queues) : outcome (list Signal) :=
  unwrap (rt_queues q !! idx n MIN_RT_SIG_NUM).
Definition put_rt_queue (n : Z) (l : list Signal) (q : Queues) : Queues :=
  mkQueues (std_queues q) (<[idx n MIN_RT_SIG_NUM := l]> (rt_queues q)).

Definition enqueue (s : Signal) (q : Queues) : outcome (bool * Queues) :=
  let signum := num s in
  if is_std signum then
    get_std_queue signum q ≫= λ queue,
    match queue with
    | Some _ => Done (false, q)
    | None => Done (true, put_std_queue signum (Some s) q)
    end
  else
    get_rt_queue signum q ≫= λ queue, Done (true, put_rt_queue signum (queue ++ [s]) q).

Definition ORDERED_STD_SIGS : list Z :=
  [9; 15; 19; 11; 4; 1; 18; 2; 3; 5; 6; 7; 8; 10; 12; 13; 14; 16; 17; 20; 21; 22; 23; 24; 25; 26; 27; 28;
   29; 30; 31].

Fixpoint dequeue_std (l : list Z) (blocked : Z) (q : Queues) : outcome (option Signal * Queues) :=
  match l with
  | [] => Done (None, q)
  | signum :: l =>
      if contains blocked signum then dequeue_std l blocked q
      else
        get_std_queue signum q ≫= λ queue,
        match queue with
        | Some s => Done (Some s, put_std_queue signum None q)
        | None => dequeue_std l blocked q
        end
  end.

Fixpoint dequeue_rt (l : list Z) (blocked : Z) (q : Queues) : outcome (option Signal * Queues) :=
  match l with
  | [] => Done (None, q)
  | signum :: l =>
      if contains blocked signum then dequeue_rt l blocked q
      else
        get_rt_queue signum q ≫= λ queue,
        match queue with
        | s :: queue => Done (Some s, put_rt_queue signum queue q)
        | [] => dequeue_rt l blocked q
        end
  end.

Definition RT_SIGS : list Z := seqZ MIN_RT_SIG_NUM (MAX_RT_SIG_NUM - MIN_RT_SIG_NUM + 1).

Definition dequeue (blocked : Z) (q : Queues) : outcome (option Signal * Queues) :=
  dequeue_std ORDERED_STD_SIGS blocked q ≫= λ '(o, q),
  match o with Some s => Done (Some s, q) | None => dequeue_rt RT_SIGS blocked q end.

(** [any] over the queues: the number of dropped signals, whether one is pending, and
    the queues; it stops at the first that is. *)
Fixpoint any_std (blocked : Z) (d : list SigAction) (l : list (option Signal))
  : outcome (Z * bool * list (option Signal)) :=
  match l with
  | [] => Done (0, false, [])
  | None :: l => any_std blocked d l ≫= λ '(k, b, l), Done (k, b, None :: l)
  | Some s :: l =>
      if contains blocked (num s) then any_std blocked d l ≫= λ '(k, b, l), Done (k, b, Some s :: l)
      else
        will_ignore d (num s) ≫= λ ign,
        if ign : bool then any_std blocked d l ≫= λ '(k, b, l), Done (k + 1, b, None :: l)
        else Done (0, true, Some s :: l)
  end.

Fixpoint any_rt (blocked : Z) (d : list SigAction) (l : list (list Signal))
  : outcome (Z * bool * list (list Signal)) :=
  match l with
  | [] => Done (0, false, [])
  | [] :: l => any_rt blocked d l ≫= λ '(k, b, l), Done (k, b, [] :: l)
  | (s :: queue) :: l =>
      if contains blocked (num s) then any_rt blocked d l ≫= λ '(k, b, l), Done (k, b, (s :: queue) :: l)
      else
        will_ignore d (num s) ≫= λ ign,
        if ign : bool then any_rt blocked d l ≫= λ '(k, b, l), Done (k + Z.of_nat (length (s :: queue)), b, [] :: l)
        else Done (0, true, (s :: queue) :: l)
  end.

Definition queues_has_pending (blocked : Z) (d : list SigAction) (q : Queues) : outcome (Z * bool * Queues) :=
  any_std blocked d (std_queues q) ≫= λ '(k, b, std),
  if b : bool then Done (k, true, mkQueues std (rt_queues q))
  else any_rt blocked d (rt_queues q) ≫= λ '(k', b, rt), Done (k + k', b, mkQueues std rt).

(** *** With the count of pending signals *)

Record SigQueues : Type := mkSigQueues { count : Z; queues : Queues }.

Definition new_sig_queues : SigQueues := mkSigQueues 0 new_queues.
Definition is_empty (q : SigQueues) : bool := count q =? 0.

(** [fetch_add] and [fetch_sub] wrap around. *)
Definition fetch_add (n : Z) (q : SigQueues) : SigQueues := mkSigQueues ((count q + n) mod 2 ^ USIZE_BITS) (queues q).

Definition sig_enqueue (s : Signal) (q : SigQueues) : outcome SigQueues :=
  enqueue s (queues q) ≫= λ '(added, qs),
  let q := mkSigQueues (count q) qs in
  Done (if added : bool then fetch_add 1 q else q).

Definition sig_dequeue (blocked : Z) (q : SigQueues) : outcome (option Signal * SigQueues) :=
  if is_empty q then Done (None, q)
  else
    dequeue blocked (queues q) ≫= λ '(o, qs),
    let q := mkSigQueues (count q) qs in
    Done (o, match o with Some _ => fetch_add (-1) q | None => q end).

Definition sig_has_pending (blocked : Z) (d : list SigAction) (q : SigQueues) : outcome (bool * SigQueues) :=
  queues_has_pending blocked d (queues q) ≫= λ '(k, b, qs), Done (b, fetch_add (- k) (mkSigQueues (count q) qs)).

(** [sig_pending] and [has_pending_signal] *)
Definition add_pending (base : Z) (filled : list bool) (s : Z) : Z :=
  foldl (λ s '(i, b), if b : bool then set_add s (of_num (Z.of_nat i + base)) else s) s (imap pair filled).

Definition sig_pending (q : SigQueues) : Z :=
  add_pending MIN_RT_SIG_NUM ((λ l, negb (bool_decide (l = []))) <$> rt_queues (queues q))
    (add_pending MIN_STD_SIG_NUM ((λ o, negb (bool_decide (o = None))) <$> std_queues (queues q)) 0).

Definition has_pending_signal (n : Z) (q : SigQueues) : outcome bool :=
  if is_std n then get_std_queue n (queues q) ≫= λ o, Done (negb (bool_decide (o = None)))
  else get_rt_queue n (queues q) ≫= λ l, Done (negb (bool_decide (l = []))).

(** ** A thread and its process *)

Record Thread : Type := mkThread {
  t_queues : SigQueues;
  p_queues : SigQueues;
  dispositions : list SigAction;
  sig_mask : Z
}.

(** [dequeue_signal]: first the signals of the thread, then those of the process *)
Definition dequeue_signal (mask : Z) (t : Thread) : outcome (option Signal * Thread) :=
  sig_dequeue mask (t_queues t) ≫= λ '(o, tq),
  let t := mkThread tq (p_queues t) (dispositions t) (sig_mask t) in
  match o with
  | Some s => Done (Some s, t)
  | None =>
      sig_dequeue mask (p_queues t) ≫= λ '(o, pq),
      Done (o, mkThread (t_queues t) pq (dispositions t) (sig_mask t))
  end.

Definition has_pending (t : Thread) : outcome (bool * Thread) :=
  if is_empty (t_queues t) && is_empty (p_queues t) then Done (false, t)
  else
    sig_has_pending (sig_mask t) (dispositions t) (t_queues t) ≫= λ '(b, tq),
    let t := mkThread tq (p_queues t) (dispositions t) (sig_mask t) in
    if b : bool then Done (true, t)
    else
      sig_has_pending (sig_mask t) (dispositions t) (p_queues t) ≫= λ '(b, pq),
      Done (b, mkThread (t_queues t) pq (dispositions t) (sig_mask t)).

(** The loop of [dequeue_pending_signal]; the fuel exceeds the pending signals. *)
Fixpoint next_signal (fuel : nat) (t : Thread) : outcome (option (Signal * SigAction) * Thread) :=
  match fuel with
  | O => Panic
  | S fuel =>
      dequeue_signal (sig_mask t) t ≫= λ '(o, t),
      match o with
      | None => Done (None, t)
      | Some s =>
          get (dispositions t) (num s) ≫= λ a,
          if action_ignores a (num s) then next_signal fuel t else Done (Some (s, a), t)
      end
  end.

Definition set_dispositions (d : list SigAction) (t : Thread) : Thread :=
  mkThread (t_queues t) (p_queues t) d (sig_mask t).
Definition set_sig_mask (m : Z) (t : Thread) : Thread :=
  mkThread (t_queues t) (p_queues t) (dispositions t) m.

Definition dequeue_pending_signal (t : Thread) : outcome (option (Signal * SigAction) * Thread) :=
  next_signal (S (Z.to_nat (count (t_queues t) + count (p_queues t)))) t ≫= λ '(o, t),
  match o with
  | Some (s, User h flags r m) =>
      if Z.land flags SA_RESETHAND =? SA_RESETHAND
      then Done (o, set_dispositions (set_default (num s) (dispositions t)) t)
      else Done (o, t)
  | _ => Done (o, t)
  end.

(** ** Masks *)

(** The alternate stack of signals ([sig_stack.rs]) *)
Record SigStack : Type := mkStack { ss_base : Z; ss_flags : Z; ss_size : Z }.
Inductive SigStackStatus : Type := Inactive | Active | Disable.

Definition SS_DISABLE : Z := 0x2.
Definition SS_AUTODISARM : Z := 0x80000000.

Definition has_flag (flags bit : Z) : bool := Z.land flags bit =? bit.

(** [SigStack::contains] *)
Definition on_stack (st : SigStack) (sp : Z) : outcome bool :=
  if has_flag (ss_flags st) SS_AUTODISARM then Done false
  else if ss_base st <? sp then unwrap (checked_add 64 (ss_base st) (ss_size st)) ≫= λ top, Done (sp <=? top)
  else Done false.

Definition active_status (st : SigStack) (sp : Z) : outcome SigStackStatus :=
  if ss_size st =? 0 then Done Disable else on_stack st sp ≫= λ b, Done (if b : bool then Active else Inactive).

Definition use_alternate_signal_stack (flags : Z) (st : SigStack) (sp : Z) : outcome (option Z) :=
  if negb (has_flag flags SA_ONSTACK) then Done None
  else
    active_status st sp ≫= λ status,
    match status with
    | Inactive => unwrap (checked_add 64 (ss_base st) (ss_size st)) ≫= λ top, align_down 64 top 16 ≫= λ sp, Done (Some sp)
    | _ => Done None
    end.

Definition alloc_aligned_in_user_stack (rsp size align : Z) : outcome Z :=
  unwrap (checked_sub rsp size) ≫= λ start, align_down 64 start align.

(** The registers of the user program that signals change, the stack and the context of
    its signal handlers, the size of its floating point state, and which writes to its
    memory succeed *)
Record Frame : Type := mkFrame {
  f_sp : Z; f_ip : Z; f_ret : Z; f_args : Z * Z * Z;
  f_stack : SigStack; f_context : option Z; f_fpu_len : Z; f_writable : Z → Z → bool;
}.

(** What the handler finds in [ucontext_t] *)
Record Ucontext : Type := mkUcontext {
  uc_sigmask : Z; uc_link : Z; uc_stack : SigStack; uc_sp : Z; uc_ip : Z; uc_ret : Z; uc_fpu : Z;
}.

(** The sizes of [siginfo_t] and [ucontext_t] on x86-64 *)
Definition SIGINFO_SIZE : Z := 128.
Definition UCONTEXT_SIZE : Z := 304.

(** [handle_user_signal] on x86-64: the context it saves, the registers with which the
    handler starts, and the thread; [None] is an error *)
Definition enter_handler (n handler_addr flags restorer_addr mask : Z) (f : Frame) (t : Thread)
  : outcome (option (Ucontext * Frame) * Thread) :=
  let mask := if has_flag flags SA_NODEFER then mask else set_add mask (of_num n) in
  let t := set_sig_mask (set_add (sig_mask t) mask) t in
  use_alternate_signal_stack flags (f_stack f) (f_sp f) ≫= λ alt,
  unwrap (checked_sub (default (f_sp f) alt) 128) ≫= λ sp,
  unwrap (checked_sub sp SIGINFO_SIZE) ≫= λ siginfo_addr,
  if negb (f_writable f siginfo_addr SIGINFO_SIZE) then Done (None, t)
  else
    let stack := if has_flag (ss_flags (f_stack f)) SS_AUTODISARM then mkStack 0 SS_DISABLE 0 else f_stack f in
    alloc_aligned_in_user_stack siginfo_addr (f_fpu_len f) 64 ≫= λ fpu_addr,
    alloc_aligned_in_user_stack fpu_addr UCONTEXT_SIZE 8 ≫= λ ucontext_addr,
    let uc := mkUcontext mask (default 0 (f_context f)) (f_stack f) (f_sp f) (f_ip f) (f_ret f) fpu_addr in
    if negb (f_writable f fpu_addr (f_fpu_len f)) || negb (f_writable f ucontext_addr UCONTEXT_SIZE) then Done (None, t)
    else
      (if has_flag flags SA_RESTORER
       then unwrap (checked_sub ucontext_addr 8) ≫= λ sp : Z, Done (if f_writable f sp 8 then Some sp else None)
       else Done (Some ucontext_addr)) ≫= λ o : option Z,
      let args := if has_flag flags SA_SIGINFO then (n, siginfo_addr, ucontext_addr) else (n, 0, 0) in
      match o with
      | Some sp => Done (Some (uc, mkFrame sp handler_addr (f_ret f) args stack (Some ucontext_addr) (f_fpu_len f) (f_writable f)), t)
      | None => Done (None, t)
      end.

(** [sys_rt_sigreturn] with the saved mask, which it reads from user memory *)
Definition sigreturn (uc_sigmask : Z) (t : Thread) : Thread :=
  set_sig_mask (set_sub (sig_mask t) uc_sigmask) t.

Inductive MaskOp : Type := Block | Unblock | SetMask.

Definition do_rt_sigprocmask (op : MaskOp) (read_mask : Z) (t : Thread) : Thread :=
  let unblockable m := set_sub (set_sub m (of_num SIGKILL)) (of_num SIGSTOP) in
  match op with
  | Block => set_sig_mask (set_add (sig_mask t) (unblockable read_mask)) t
  | Unblock => set_sig_mask (set_sub (sig_mask t) read_mask) t
  | SetMask => set_sig_mask (unblockable read_mask) t
  end.

(** The mask during [rt_sigsuspend] and during [ppoll]. *)
Definition suspend_mask (sigmask old_mask : Z) : Z :=
  set_add old_mask (set_sub (set_sub sigmask (of_num SIGKILL)) (of_num SIGSTOP)).
Definition ppoll_mask (sigmask old_mask : Z) : Z := sigmask.

(** [with_sigmask_changed] *)
Definition with_sigmask_changed {R} (mask_op : Z → Z) (operate : Thread → outcome (R * Thread)) (t : Thread)
  : outcome (R * Thread) :=
  let old_mask := sig_mask t in
  operate (set_sig_mask (mask_op old_mask) t) ≫= λ '(res, t), Done (res, set_sig_mask old_mask t).

(** [discard_signals_if_ignored] on the thread and its process *)
Fixpoint discard (fuel : nat) (mask : Z) (t : Thread) : outcome Thread :=
  match fuel with
  | O => Panic
  | S fuel => dequeue_signal mask t ≫= λ '(o, t), match o with Some _ => discard fuel mask t | None => Done t end
  end.

(** [sys_rt_sigaction] for a process of one thread, with the new action as read from user
    memory, if any; the old action is the result, and [None] an error *)
Definition sys_rt_sigaction (n sigset_size : Z) (new : option sigaction_t) (t : Thread) : outcome (option SigAction * Thread) :=
  if negb (bool_decide (valid n)) then Done (None, t)
  else if negb (sigset_size =? 8) then Done (None, t)
  else
    match new with
    | Some c =>
        if (n =? SIGKILL) || (n =? SIGSTOP) then Done (None, t)
        else
          let a := action_of c in
          (if action_ignores a n
           then discard (S (Z.to_nat (count (t_queues t) + count (p_queues t)))) (set_sub new_full (of_num n)) t
           else Done t) ≫= λ t,
          match set n a (dispositions t) with
          | Some d => get (dispositions t) n ≫= λ old, Done (Some old, set_dispositions d t)
          | None => Done (None, t)
          end
    | None => get (dispositions t) n ≫= λ a, Done (Some a, t)
    end.

(** What [handle_pending_signal] does: nothing, it enters a handler, or it takes the default
    action, of which the end of the process is one *)
Inductive Handled : Type :=
| NoSignal
| Entered (s : Signal) (uc : Ucontext)
| Killed (n : Z)
| Defaulted (a : SigDefaultAction) (s : Signal).

Definition ERESTARTSYS : Z := 512.
Definition EINTR : Z := 4.
Definition SYSCALL_INSTR_LEN : Z := 2.

Definition set_regs (ret ip : Z) (f : Frame) : Frame :=
  mkFrame (f_sp f) ip ret (f_args f) (f_stack f) (f_context f) (f_fpu_len f) (f_writable f).

Definition handle_pending_signal (pre_syscall_ret : option Z) (f : Frame) (t : Thread) : outcome (Handled * Frame * Thread) :=
  let '(syscall_restart, f) :=
    match pre_syscall_ret with
    | Some r => if f_ret f =? 2 ^ 64 - ERESTARTSYS then (Some r, set_regs (2 ^ 64 - EINTR) (f_ip f) f) else (None, f)
    | None => (None, f)
    end in
  dequeue_pending_signal t ≫= λ '(o, t),
  match o with
  | None => Done (NoSignal, f, t)
  | Some (s, Ign) => Done (NoSignal, f, t)
  | Some (s, User handler_addr flags restorer_addr mask) =>
      (match syscall_restart with
       | Some r =>
           if has_flag flags SA_RESTART
           then unwrap (checked_sub (f_ip f) SYSCALL_INSTR_LEN) ≫= λ ip, Done (set_regs r ip f)
           else Done f
       | None => Done f
       end) ≫= λ f,
      enter_handler (num s) handler_addr flags restorer_addr mask f t ≫= λ '(e, t),
      match e with
      | Some (uc, f) => Done (Entered s uc, f, t)
      | None => Done (Killed SIGSEGV, f, t)
      end
  | Some (s, Dfl) =>
      match from_signum (num s) with
      | Core | Term => Done (Killed (num s), f, t)
      | a => Done (Defaulted a s, f, t)
      end
  end.

(** What happens to a thread. *)
Inductive Event : Type :=
| ToThread (s : Signal)
| ToProcess (s : Signal)
| HasPending
| HandlePending (pre_syscall_ret : option Z) (f : Frame)
| Sigreturn (uc_sigmask : Z)
| Sigprocmask (op : MaskOp) (read_mask : Z)
| Sigaction (n sigset_size : Z) (new : option sigaction_t)
| Sigsuspend (sigmask : Z)
| Ppoll (sigmask : Z)
| Execve.

Definition happen (e : Event) (t : Thread) : outcome Thread :=
  match e with
  | ToThread s => sig_enqueue s (t_queues t) ≫= λ q, Done (mkThread q (p_queues t) (dispositions t) (sig_mask t))
  | ToProcess s => sig_enqueue s (p_queues t) ≫= λ q, Done (mkThread (t_queues t) q (dispositions t) (sig_mask t))
  | HasPending => has_pending t ≫= λ '(_, t), Done t
  | HandlePending pre f => handle_pending_signal pre f t ≫= λ '(_, t), Done t
  | Sigreturn m => Done (sigreturn m t)
  | Sigprocmask op m => Done (do_rt_sigprocmask op m t)
  | Sigaction n size new => sys_rt_sigaction n size new t ≫= λ '(_, t), Done t
  | Sigsuspend m => with_sigmask_changed (suspend_mask m) has_pending t ≫= λ '(_, t), Done t
  | Ppoll m => with_sigmask_changed (ppoll_mask m) has_pending t ≫= λ '(_, t), Done t
  | Execve => Done (set_dispositions (inherit (dispositions t)) t)
  end.

Fixpoint happens (es : list Event) (t : Thread) : outcome Thread :=
  match es with [] => Done t | e :: es => happen e t ≫= happens es end.

Definition new_thread : Thread := mkThread new_sig_queues new_sig_queues new_dispositions 0.

(** ** The pending signals *)

(** The pending signals of a number, oldest first. *)
Definition pend (q : Queues) (n : Z) : list Signal :=
  if is_std n
  then match std_queues q !! idx n MIN_STD_SIG_NUM with Some (Some s) => [s] | _ => [] end
  else default [] (rt_queues q !! idx n MIN_RT_SIG_NUM).

Record wf_queues (q : Queues) : Prop := {
  wq_std : length (std_queues q) = COUNT_STD_SIGS;
  wq_rt : length (rt_queues q) = COUNT_RT_SIGS;
  wq_num : ∀ n s, valid n → s ∈ pend q n → num s = n
}.

Definition ALL_SIGS : list Z := seqZ 1 64.

Lemma all_sigs n : n ∈ ALL_SIGS ↔ valid n.
Proof. unfold ALL_SIGS, valid, MIN_STD_SIG_NUM, MAX_RT_SIG_NUM. rewrite elem_of_seqZ. lia. Qed.

Definition olength (o : option Signal) : nat := length (option_list o).
Definition total (q : Queues) : nat :=
  (sum_list_with olength (std_queues q) + sum_list_with length (rt_queues q))%nat.

Lemma is_std_true n : is_std n = true ↔ n ≤ 31.
Proof. apply Z.leb_le. Qed.

Lemma is_std_false n : 31 < n → is_std n = false.
Proof. apply Z.leb_gt. Qed.

Lemma get_std_ok n q : wf_queues q → valid n → is_std n = true →
  ∃ o, get_std_queue n q = Done o ∧ pend q n = option_list o.
Proof.
  intros Hq Hn Hs. unfold get_std_queue, pend. rewrite Hs. apply is_std_true in Hs.
  destruct (lookup_lt_is_Some_2 (std_queues q) (idx n MIN_STD_SIG_NUM)) as [o Ho].
  { rewrite (wq_std q Hq). unfold idx, valid, MIN_STD_SIG_NUM, COUNT_STD_SIGS in *. lia. }
  rewrite Ho. exists o. split; [done |]. by destruct o.
Qed.

Lemma get_rt_ok n q : wf_queues q → valid n → is_std n = false → get_rt_queue n q = Done (pend q n).
Proof.
  intros Hq Hn Hs. unfold get_rt_queue, pend. rewrite Hs. apply Z.leb_gt in Hs.
  destruct (lookup_lt_is_Some_2 (rt_queues q) (idx n MIN_RT_SIG_NUM)) as [o Ho].
  { rewrite (wq_rt q Hq). unfold idx, valid, MIN_RT_SIG_NUM, MAX_RT_SIG_NUM, MAX_STD_SIG_NUM, COUNT_RT_SIGS in *. lia. }
  by rewrite Ho.
Qed.

(** The queue of a number replaced. *)
Definition put_pend (n : Z) (l : list Signal) (q : Queues) : Queues :=
  if is_std n then put_std_queue n (head l) q else put_rt_queue n l q.

Lemma pend_put n l q m : wf_queues q → valid n → valid m → (is_std n = true → (length l ≤ 1)%nat) →
  pend (put_pend n l q) m = if decide (m = n) then l else pend q m.
Proof.
  intros Hq Hn Hm Hl. unfold put_pend, pend. unfold valid, MIN_STD_SIG_NUM, MAX_RT_SIG_NUM in *.
  destruct (is_std n) eqn:Hsn; [specialize (Hl eq_refl); apply is_std_true in Hsn | apply Z.leb_gt in Hsn; unfold MAX_STD_SIG_NUM in Hsn].
  - destruct (is_std m) eqn:Hsm; [apply is_std_true in Hsm | apply Z.leb_gt in Hsm; unfold MAX_STD_SIG_NUM in Hsm].
    + cbn. destruct (decide (m = n)) as [->|Hne].
      * rewrite list_lookup_insert, decide_True; [destruct l as [|? []]; cbn in *; done || lia |].
        split; [done |]. rewrite (wq_std q Hq). unfold idx, MIN_STD_SIG_NUM, COUNT_STD_SIGS. lia.
      * rewrite list_lookup_insert_ne; [done |]. unfold idx, MIN_STD_SIG_NUM. lia.
    + cbn. rewrite decide_False by lia. done.
  - destruct (is_std m) eqn:Hsm; [apply is_std_true in Hsm | apply Z.leb_gt in Hsm; unfold MAX_STD_SIG_NUM in Hsm].
    + cbn. rewrite decide_False by lia. done.
    + cbn. destruct (decide (m = n)) as [->|Hne].
      * rewrite list_lookup_insert, decide_True; [done |]. split; [done |].
        rewrite (wq_rt q Hq). unfold idx, MIN_RT_SIG_NUM, COUNT_RT_SIGS. lia.
      * rewrite list_lookup_insert_ne; [done |]. unfold idx, MIN_RT_SIG_NUM. lia.
Qed.

Lemma put_pend_wf n l q : wf_queues q → valid n → (is_std n = true → (length l ≤ 1)%nat) →
  (∀ s, s ∈ l → num s = n) → wf_queues (put_pend n l q).
Proof.
  intros Hq Hn Hl Hnum. split.
  - rewrite <- (wq_std q Hq). unfold put_pend. destruct (is_std n); cbn; by rewrite ?length_insert.
  - rewrite <- (wq_rt q Hq). unfold put_pend. destruct (is_std n); cbn; by rewrite ?length_insert.
  - intros m s Hm. rewrite pend_put by done. destruct (decide (m = n)) as [->|Hne]; [apply Hnum | by apply (wq_num q Hq)].
Qed.

Lemma sum_insert {A} (f : A → nat) l i x y : l !! i = Some y →
  (sum_list_with f (<[i := x]> l) + f y = sum_list_with f l + f x)%nat.
Proof.
  revert i. induction l as [|z l IH]; intros [|i]; try done; simpl.
  - intros [= ->]. lia.
  - intros Hi. specialize (IH i Hi). change (sum_list_with f (<[S i := x]> (z :: l))) with (f z + sum_list_with f (<[i := x]> l))%nat. lia.
Qed.

Lemma total_put n l q : wf_queues q → valid n → (is_std n = true → (length l ≤ 1)%nat) →
  (total (put_pend n l q) + length (pend q n) = total q + length l)%nat.
Proof.
  intros Hq Hn Hl. unfold total, put_pend. destruct (is_std n) eqn:Hs.
  - destruct (get_std_ok n q Hq Hn Hs) as (o & Ho & ->). unfold get_std_queue in Ho.
    destruct (std_queues q !! idx n MIN_STD_SIG_NUM) as [o'|] eqn:E; [| done]. injection Ho as ->. cbn [std_queues rt_queues put_std_queue].
    pose proof (sum_insert olength _ _ (head l) o E) as Hsum. fold (olength o).
    assert (olength (head l) = length l) by (specialize (Hl eq_refl); destruct l as [|? []]; cbn in *; done || lia). lia.
  - pose proof (get_rt_ok n q Hq Hn Hs) as Ho. unfold get_rt_queue in Ho.
    destruct (rt_queues q !! idx n MIN_RT_SIG_NUM) as [r|] eqn:E; [| done]. injection Ho as <-. cbn [std_queues rt_queues put_rt_queue].
    pose proof (sum_insert length _ _ l r E) as Hsum. lia.
Qed.

Lemma new_queues_wf : wf_queues new_queues ∧ ∀ n, pend new_queues n = [].
Proof.
  assert (∀ n, pend new_queues n = []) as Hp.
  { intros n. unfold pend, new_queues. cbn [std_queues rt_queues].
    destruct (is_std n).
    - destruct (_ !! _) as [o|] eqn:E; [| done]. by apply lookup_replicate in E as [-> _].
    - destruct (_ !! _) as [l|] eqn:E; [| done]. by apply lookup_replicate in E as [-> _]. }
  split; [| done]. split; [done | done |]. intros n s _. rewrite Hp. by intros ?%not_elem_of_nil.
Qed.

(** *** Enqueueing *)


(** *** Dequeueing *)

(** The order of delivery. *)
Definition PRIORITY : list Z := ORDERED_STD_SIGS ++ RT_SIGS.

(** A signal of the number is pending and not blocked. *)
Definition ready (blocked : Z) (q : Queues) (n : Z) : bool :=
  negb (contains blocked n) && match pend q n with [] => false | _ => true end.

(** The number whose signal is delivered next. *)
Definition next (blocked : Z) (q : Queues) : option Z := List.find (ready blocked q) PRIORITY.

Lemma find_app_l {A} (f : A → bool) l k :
  List.find f (l ++ k) = match List.find f l with Some x => Some x | None => List.find f k end.
Proof. induction l as [|x l IH]; cbn; [done |]. by destruct (f x). Qed.

Definition pop (n : Z) (q : Queues) : option Signal * Queues := (head (pend q n), put_pend n (tail (pend q n)) q).

Lemma std_pend_tail n q : wf_queues q → valid n → is_std n = true → tail (pend q n) = [].
Proof. intros Hq Hn Hs. destruct (get_std_ok n q Hq Hn Hs) as (o & _ & ->). by destruct o. Qed.

Lemma dequeue_std_ok l blocked q : wf_queues q → (∀ n, n ∈ l → valid n ∧ is_std n = true) →
  dequeue_std l blocked q = Done (match List.find (ready blocked q) l with Some n => pop n q | None => (None, q) end).
Proof.
  intros Hq. induction l as [|n l IH]; intros Hl; cbn [dequeue_std List.find]; [done |].
  destruct (Hl n ltac:(by left)) as [Hn Hs]. rewrite IH by (intros m Hm; apply Hl; by right).
  assert (ready blocked q n = negb (contains blocked n) && match pend q n with [] => false | _ => true end) as -> by done.
  destruct (contains blocked n); cbn [negb andb]; [done |].
  pose proof (std_pend_tail n q Hq Hn Hs) as Ht. destruct (get_std_ok n q Hq Hn Hs) as (o & -> & Hp). cbn [mbind outcome_bind].
  destruct o as [x|]; rewrite Hp; cbn; [| done]. unfold pop, put_pend. by rewrite Hs, Ht, Hp.
Qed.

Lemma dequeue_rt_ok l blocked q : wf_queues q → (∀ n, n ∈ l → valid n ∧ is_std n = false) →
  dequeue_rt l blocked q = Done (match List.find (ready blocked q) l with Some n => pop n q | None => (None, q) end).
Proof.
  intros Hq. induction l as [|n l IH]; intros Hl; cbn [dequeue_rt List.find]; [done |].
  destruct (Hl n ltac:(by left)) as [Hn Hs]. rewrite IH by (intros m Hm; apply Hl; by right).
  assert (ready blocked q n = negb (contains blocked n) && match pend q n with [] => false | _ => true end) as -> by done.
  destruct (contains blocked n); cbn [negb andb]; [done |].
  rewrite get_rt_ok by done. cbn [mbind outcome_bind].
  destruct (pend q n) as [|x r] eqn:Hp; [done |]. unfold pop, put_pend. by rewrite Hs, Hp.
Qed.

Lemma priority_sigs : (∀ n, n ∈ ORDERED_STD_SIGS → valid n ∧ is_std n = true) ∧
  (∀ n, n ∈ RT_SIGS → valid n ∧ is_std n = false) ∧ ∀ n, valid n → n ∈ PRIORITY.
Proof.
  split; [| split].
  - intros n Hn. repeat (apply elem_of_cons in Hn as [->|Hn]; [done |]). by apply not_elem_of_nil in Hn.
  - intros n Hn. unfold RT_SIGS, MIN_RT_SIG_NUM, MAX_RT_SIG_NUM in Hn. apply elem_of_seqZ in Hn.
    unfold valid, MIN_STD_SIG_NUM, MAX_RT_SIG_NUM. split; [lia |]. apply Z.leb_gt. unfold MAX_STD_SIG_NUM. lia.
  - intros n Hn%all_sigs. assert (forallb (λ n, bool_decide (n ∈ PRIORITY)) ALL_SIGS = true) as T by (by vm_compute).
    rewrite forallb_forall in T. specialize (T n). rewrite <- list_elem_of_In in T. specialize (T Hn).
    by apply bool_decide_eq_true in T.
Qed.

Lemma dequeue_ok blocked q : wf_queues q →
  dequeue blocked q = Done (match next blocked q with Some n => pop n q | None => (None, q) end).
Proof.
  intros Hq. destruct priority_sigs as (H1 & H2 & _). unfold dequeue. rewrite dequeue_std_ok by done.
  unfold next, PRIORITY. rewrite find_app_l. cbn [mbind outcome_bind].
  destruct (List.find (ready blocked q) ORDERED_STD_SIGS) as [n|] eqn:Hf.
  - apply List.find_some in Hf as [_ Hr]. unfold pop. unfold ready in Hr. by destruct (pend q n), (contains blocked n).
  - by rewrite dequeue_rt_ok.
Qed.

(** [next] finds a signal exactly when one is pending and not blocked. *)
Lemma next_some blocked q n : next blocked q = Some n →
  valid n ∧ contains blocked n = false ∧ pend q n ≠ [].
Proof.
  intros [Hin Hr]%List.find_some. destruct priority_sigs as (H1 & H2 & _). split.
  - unfold PRIORITY in Hin. rewrite <- list_elem_of_In in Hin. apply elem_of_app in Hin as [?|?]; [by apply H1 | by apply H2].
  - unfold ready in Hr. apply andb_true_iff in Hr as [Hc%negb_true_iff Hp]. by destruct (pend q n).
Qed.

Lemma next_none blocked q : next blocked q = None ↔ ∀ n, valid n → pend q n ≠ [] → contains blocked n = true.
Proof.
  split.
  - intros Hf n Hn Hp. destruct priority_sigs as (_ & _ & H3). apply H3, list_elem_of_In in Hn.
    pose proof (List.find_none _ _ Hf n Hn) as Hr. unfold ready in Hr. destruct (contains blocked n); [done |].
    by destruct (pend q n).
  - intros Hall. destruct (next blocked q) as [n|] eqn:Hn; [| done].
    destruct (next_some blocked q n Hn) as (H1 & H2 & H3). by rewrite Hall in H2.
Qed.

Lemma pop_ok n q : wf_queues q → valid n → pend q n ≠ [] →
  ∃ s q', pop n q = (Some s, q') ∧ num s = n ∧ pend q n = s :: pend q' n ∧ wf_queues q' ∧
    (∀ m, valid m → m ≠ n → pend q' m = pend q m) ∧ total q = S (total q').
Proof.
  intros Hq Hn Hp. unfold pop. destruct (pend q n) as [|s l] eqn:E; [done |]. cbn [head tail].
  assert (is_std n = true → (length l ≤ 1)%nat) as Hl.
  { intros Hs. pose proof (std_pend_tail n q Hq Hn Hs) as Ht. rewrite E in Ht. cbn in Ht. subst l. cbn. lia. }
  pose proof (wq_num q Hq n) as Hnum. rewrite E in Hnum.
  exists s, (put_pend n l q). split_and!; try done.
  - apply Hnum; [done | by left].
  - rewrite pend_put by done. by rewrite decide_True.
  - apply put_pend_wf; try done. intros x Hx. apply Hnum; [done | by right].
  - intros m Hm Hne. rewrite pend_put by done. by rewrite decide_False.
  - pose proof (total_put n l q Hq Hn Hl) as Ht. rewrite E in Ht. cbn in Ht. lia.
Qed.

(** *** Pending signals that are not ignored *)

Definition ignored (d : list SigAction) (n : Z) : bool :=
  match get d n with Done a => action_ignores a n | Panic => false end.

Lemma will_ignore_ok d n : length d = COUNT_ALL_SIGS → valid n → will_ignore d n = Done (ignored d n).
Proof.
  intros Hd Hn. unfold will_ignore, ignored, get.
  destruct (d !! idx n MIN_STD_SIG_NUM) as [a|] eqn:Ha; [done |]. apply lookup_ge_None_1 in Ha.
  rewrite Hd in Ha. exfalso. unfold idx, valid, MIN_STD_SIG_NUM, MAX_RT_SIG_NUM, COUNT_ALL_SIGS in *. lia.
Qed.

(** The signals of [l'] are those of [l], but for some that are ignored and not blocked. *)
Section any.
Context (blocked : Z) (d : list SigAction) (Hd : length d = COUNT_ALL_SIGS).

Definition droppable (n : Z) : Prop := contains blocked n = false ∧ ignored d n = true.
Definition deliverable (n : Z) : Prop := contains blocked n = false ∧ ignored d n = false.

Definition scanned {A} (signals : A → list Signal) (l l' : list A) (k : Z) (b : bool) : Prop :=
  length l' = length l ∧
  (∀ j x', l' !! j = Some x' → ∃ x, l !! j = Some x ∧
     (x' = x ∨ signals x' = [] ∧ ∃ s, head (signals x) = Some s ∧ droppable (num s))) ∧
  (b = true ↔ ∃ j x s, l !! j = Some x ∧ head (signals x) = Some s ∧ deliverable (num s)) ∧
  k + Z.of_nat (sum_list_with (λ x, length (signals x)) l') = Z.of_nat (sum_list_with (λ x, length (signals x)) l) ∧
  0 ≤ k.

Lemma scanned_cons {A} (signals : A → list Signal) l l' k b x x' n : scanned signals l l' k b →
  (x' = x ∨ signals x' = [] ∧ ∃ s, head (signals x) = Some s ∧ droppable (num s)) →
  (∀ s, head (signals x) = Some s → ¬ deliverable (num s)) →
  n = Z.of_nat (length (signals x)) - Z.of_nat (length (signals x')) → 0 ≤ n →
  scanned signals (x :: l) (x' :: l') (k + n) b.
Proof.
  intros (H1 & H2 & H3 & H4 & H5) Hx Hnd -> Hn. split_and!; cbn; try lia.
  - intros [|j] y'; [intros [= <-]; by exists x | apply H2].
  - rewrite H3. split.
    + intros (j & y & s & Hj & Hs & Hdl). by exists (S j), y, s.
    + intros (j & y & s & Hj & Hs & Hdl). destruct j as [|j]; [injection Hj as <-; by apply Hnd in Hs | by exists j, y, s].
Qed.

Lemma scanned_stop {A} (signals : A → list Signal) l x s : head (signals x) = Some s → deliverable (num s) →
  scanned signals (x :: l) (x :: l) 0 true.
Proof.
  intros Hs Hdl. split_and!; try lia; try done.
  - intros j y' Hy. exists y'. auto.
  - split; [| done]. intros _. by exists 0%nat, x, s.
Qed.

Lemma scanned_nil {A} (signals : A → list Signal) : scanned signals [] [] 0 false.
Proof. split_and!; try done. split; [done |]. by intros (? & ? & ? & ? & _). Qed.

Lemma any_std_ok l : (∀ s, Some s ∈ l → valid (num s)) →
  ∃ k b l', any_std blocked d l = Done (k, b, l') ∧ scanned option_list l l' k b.
Proof.
  induction l as [|o l IH]; intros Hl; cbn [any_std]; [eexists _, _, _; split; [done | apply scanned_nil] |].
  destruct IH as (k & b & l' & -> & Hsc); [intros s Hs; apply Hl; by right |].
  destruct o as [s|]; cbn [mbind outcome_bind].
  2: { eexists _, _, _. split; [done |]. rewrite <- (Z.add_0_r k). apply scanned_cons; [done | by left | by intros ? | cbn; lia | lia]. }
  destruct (contains blocked (num s)) eqn:Hc.
  { eexists _, _, _. split; [done |]. rewrite <- (Z.add_0_r k). apply scanned_cons; [done | by left | | cbn; lia | lia].
    intros s' [= <-] [? _]. congruence. }
  rewrite will_ignore_ok by (done || apply Hl; by left). cbn [mbind outcome_bind].
  destruct (ignored d (num s)) eqn:Hi.
  - eexists _, _, _. split; [done |]. apply scanned_cons; [done | | | done | lia].
    + right. split; [done |]. by exists s.
    + intros s' [= <-] [_ ?]. congruence.
  - eexists _, _, _. split; [done |]. by apply (scanned_stop _ _ _ s).
Qed.

Lemma any_rt_ok l : (∀ q s, q ∈ l → s ∈ q → valid (num s)) →
  ∃ k b l', any_rt blocked d l = Done (k, b, l') ∧ scanned id l l' k b.
Proof.
  induction l as [|o l IH]; intros Hl; cbn [any_rt]; [eexists _, _, _; split; [done | apply scanned_nil] |].
  destruct IH as (k & b & l' & -> & Hsc); [intros q s Hq; apply Hl; by right |].
  destruct o as [|s o]; cbn [mbind outcome_bind].
  { eexists _, _, _. split; [done |]. rewrite <- (Z.add_0_r k). apply scanned_cons; [done | by left | by intros ? | cbn; lia | lia]. }
  destruct (contains blocked (num s)) eqn:Hc.
  { eexists _, _, _. split; [done |]. rewrite <- (Z.add_0_r k). apply scanned_cons; [done | by left | | cbn; lia | lia].
    intros s' [= <-] [? _]. congruence. }
  rewrite will_ignore_ok by (done || (apply (Hl (s :: o)); by left)). cbn [mbind outcome_bind].
  destruct (ignored d (num s)) eqn:Hi.
  - eexists _, _, _. split; [done |]. apply scanned_cons; [done | | | cbn; lia | lia].
    + right. split; [done |]. by exists s.
    + intros s' [= <-] [_ ?]. congruence.
  - eexists _, _, _. split; [done |]. by apply (scanned_stop _ _ _ s).
Qed.
End any.

Lemma pend_of_std q j o : wf_queues q → std_queues q !! j = Some o →
  let n := Z.of_nat j + MIN_STD_SIG_NUM in valid n ∧ pend q n = option_list o ∧ ∀ s, o = Some s → num s = n.
Proof.
  intros Hq Hj n. pose proof (lookup_lt_Some _ _ _ Hj) as Hlt. rewrite (wq_std q Hq) in Hlt.
  assert (valid n) as Hn by (unfold valid, n, MIN_STD_SIG_NUM, MAX_RT_SIG_NUM, COUNT_STD_SIGS in *; lia).
  assert (pend q n = option_list o) as Hp.
  { unfold pend. rewrite (proj2 (is_std_true n)) by (unfold n, MIN_STD_SIG_NUM, COUNT_STD_SIGS in *; lia).
    replace (idx n MIN_STD_SIG_NUM) with j by (unfold idx, n; lia). rewrite Hj. by destruct o. }
  split_and!; try done. intros s ->. apply (wq_num q Hq); [done |]. rewrite Hp. by left.
Qed.

Lemma pend_of_rt q j l : wf_queues q → rt_queues q !! j = Some l →
  let n := Z.of_nat j + MIN_RT_SIG_NUM in valid n ∧ pend q n = l ∧ ∀ s, s ∈ l → num s = n.
Proof.
  intros Hq Hj n. pose proof (lookup_lt_Some _ _ _ Hj) as Hlt. rewrite (wq_rt q Hq) in Hlt.
  assert (valid n) as Hn by (unfold valid, n, MIN_RT_SIG_NUM, MIN_STD_SIG_NUM, MAX_RT_SIG_NUM, COUNT_RT_SIGS in *; lia).
  assert (pend q n = l) as Hp.
  { unfold pend. rewrite is_std_false by (unfold n, MIN_RT_SIG_NUM; lia).
    replace (idx n MIN_RT_SIG_NUM) with j by (unfold idx, n; lia). by rewrite Hj. }
  split_and!; try done. intros s Hs. apply (wq_num q Hq); [done |]. by rewrite Hp.
Qed.

(** Every number has its queue. *)
Lemma pend_slot q n : wf_queues q → valid n →
  (∃ j o, n = Z.of_nat j + MIN_STD_SIG_NUM ∧ std_queues q !! j = Some o) ∨
  (∃ j l, n = Z.of_nat j + MIN_RT_SIG_NUM ∧ rt_queues q !! j = Some l).
Proof.
  intros Hq [Hl Hh]. unfold MIN_STD_SIG_NUM, MAX_RT_SIG_NUM in *. destruct (Z_le_gt_dec n 31).
  - left. destruct (lookup_lt_is_Some_2 (std_queues q) (Z.to_nat (n - 1))) as [o Ho].
    { rewrite (wq_std q Hq). unfold COUNT_STD_SIGS. lia. }
    exists (Z.to_nat (n - 1)), o. split; [lia | done].
  - right. destruct (lookup_lt_is_Some_2 (rt_queues q) (Z.to_nat (n - 32))) as [l Ho].
    { rewrite (wq_rt q Hq). unfold COUNT_RT_SIGS. lia. }
    exists (Z.to_nat (n - 32)), l. split; [unfold MIN_RT_SIG_NUM; lia | done].
Qed.

(** The two scans together, in terms of the pending signals. *)
Lemma scan_queues blocked d q std rt k k' b b' : wf_queues q →
  scanned blocked d option_list (std_queues q) std k b → scanned blocked d id (rt_queues q) rt k' b' →
  let q' := mkQueues std rt in
  wf_queues q' ∧
  (∀ n, valid n → pend q' n = pend q n ∨ (pend q' n = [] ∧ droppable blocked d n)) ∧
  (b = true ∨ b' = true ↔ ∃ n, valid n ∧ pend q n ≠ [] ∧ deliverable blocked d n) ∧
  k + k' + Z.of_nat (total q') = Z.of_nat (total q) ∧ 0 ≤ k + k'.
Proof.
  intros Hq (S1 & S2 & S3 & S4 & S5) (R1 & R2 & R3 & R4 & R5) q'.
  assert (∀ n, valid n → pend q' n = pend q n ∨ (pend q' n = [] ∧ droppable blocked d n)) as Hp.
  { intros n Hn. destruct (pend_slot q n Hq Hn) as [(j & o & -> & Hj)|(j & l & -> & Hj)].
    - destruct (pend_of_std q j o Hq Hj) as (_ & -> & Hnum).
      assert (∃ o', std !! j = Some o') as [o' Ho'] by (apply lookup_lt_is_Some_2; rewrite S1; by eapply lookup_lt_Some).
      destruct (S2 j o' Ho') as (o0 & Ho0 & Hor). assert (o0 = o) as -> by congruence.
      assert (pend q' (Z.of_nat j + MIN_STD_SIG_NUM) = option_list o') as ->.
      { unfold pend. rewrite (proj2 (is_std_true _)).
        - replace (idx _ MIN_STD_SIG_NUM) with j by (unfold idx; lia). cbn. rewrite Ho'. by destruct o'.
        - apply lookup_lt_Some in Hj. rewrite (wq_std q Hq) in Hj. unfold MIN_STD_SIG_NUM, COUNT_STD_SIGS in *. lia. }
      destruct Hor as [->|(Hnil & s & Hs & Hdr)]; [by left |]. right. split; [done |].
      rewrite <- (Hnum s); [done |]. by destruct o; cbn in Hs; simplify_eq.
    - destruct (pend_of_rt q j l Hq Hj) as (_ & -> & Hnum).
      assert (∃ o', rt !! j = Some o') as [o' Ho'] by (apply lookup_lt_is_Some_2; rewrite R1; by eapply lookup_lt_Some).
      destruct (R2 j o' Ho') as (o0 & Ho0 & Hor). assert (o0 = l) as -> by congruence.
      assert (pend q' (Z.of_nat j + MIN_RT_SIG_NUM) = o') as ->.
      { unfold pend. rewrite is_std_false by (unfold MIN_RT_SIG_NUM; lia).
        replace (idx _ MIN_RT_SIG_NUM) with j by (unfold idx; lia). cbn. by rewrite Ho'. }
      destruct Hor as [->|(Hnil & s & Hs & Hdr)]; [by left |]. right. split; [done |].
      rewrite <- (Hnum s); [done |]. destruct l; cbn in Hs; simplify_eq. by left. }
  split_and!.
  - split; cbn; [by rewrite S1, (wq_std q Hq) | by rewrite R1, (wq_rt q Hq) |].
    intros n s Hn. destruct (Hp n Hn) as [->|[-> _]]; [by apply (wq_num q Hq) | by intros ?%not_elem_of_nil].
  - done.
  - rewrite S3, R3. split.
    + intros [(j & o & s & Hj & Hs & Hdl)|(j & l & s & Hj & Hs & Hdl)].
      * destruct (pend_of_std q j o Hq Hj) as (Hv & Hpe & Hnum). destruct o as [s'|]; [| done]. cbn in Hs. injection Hs as <-.
        exists (Z.of_nat j + MIN_STD_SIG_NUM). rewrite <- (Hnum s' eq_refl) at 3. by rewrite Hpe.
      * destruct (pend_of_rt q j l Hq Hj) as (Hv & Hpe & Hnum). destruct l as [|s' l]; [done |]. cbn in Hs. injection Hs as <-.
        exists (Z.of_nat j + MIN_RT_SIG_NUM). rewrite <- (Hnum s') at 3 by (by left). by rewrite Hpe.
    + intros (n & Hn & Hne & Hdl). destruct (pend_slot q n Hq Hn) as [(j & o & -> & Hj)|(j & l & -> & Hj)].
      * left. destruct (pend_of_std q j o Hq Hj) as (_ & Hpe & Hnum). rewrite Hpe in Hne. destruct o as [s|]; [| done].
        exists j, (Some s), s. split_and!; try done. by rewrite (Hnum s eq_refl).
      * right. destruct (pend_of_rt q j l Hq Hj) as (_ & Hpe & Hnum). rewrite Hpe in Hne. destruct l as [|s l]; [done |].
        exists j, (s :: l), s. split_and!; try done. rewrite (Hnum s) by (by left). done.
  - unfold total. cbn [std_queues rt_queues q']. unfold id in R4.
    change (sum_list_with olength) with (sum_list_with (λ x : option Signal, length (option_list x))).
    change (sum_list_with (@length Signal)) with (sum_list_with (λ x : list Signal, length x)). lia.
  - lia.
Qed.

Lemma queues_has_pending_ok blocked d q : wf_queues q → length d = COUNT_ALL_SIGS →
  ∃ k b q', queues_has_pending blocked d q = Done (k, b, q') ∧ wf_queues q' ∧
    (∀ n, valid n → pend q' n = pend q n ∨ (pend q' n = [] ∧ droppable blocked d n)) ∧
    (b = true ↔ ∃ n, valid n ∧ pend q n ≠ [] ∧ deliverable blocked d n) ∧
    k + Z.of_nat (total q') = Z.of_nat (total q) ∧ 0 ≤ k.
Proof.
  intros Hq Hd. unfold queues_has_pending.
  destruct (any_std_ok blocked d Hd (std_queues q)) as (k & b & std & -> & Hs).
  { intros s [j Hj]%list_elem_of_lookup. destruct (pend_of_std q j _ Hq Hj) as (Hv & _ & Hnum). by rewrite (Hnum s eq_refl). }
  destruct (any_rt_ok blocked d Hd (rt_queues q)) as (k' & b' & rt & Er & Hr).
  { intros l s [j Hj]%list_elem_of_lookup Hin. destruct (pend_of_rt q j _ Hq Hj) as (Hv & _ & Hnum). by rewrite (Hnum s Hin). }
  cbn [mbind outcome_bind]. destruct b.
  - destruct (scan_queues blocked d q std (rt_queues q) k 0 true b' Hq Hs) as (H1 & H2 & H3 & H4 & H5).
    { destruct Hr as (_ & _ & R3 & _). split_and!; try done. intros j x Hx. exists x. auto. }
    eexists _, _, _. split_and!; [done | done | done | | lia | lia]. rewrite <- H3. tauto.
  - rewrite Er. cbn [mbind outcome_bind].
    destruct (scan_queues blocked d q std rt k k' false b' Hq Hs Hr) as (H1 & H2 & H3 & H4 & H5).
    eexists _, _, _. split_and!; [done | done | done | | lia | lia]. rewrite <- H3. naive_solver.
Qed.

(** ** The count *)

Record sq_ok (q : SigQueues) : Prop := {
  sq_wf : wf_queues (queues q);
  sq_count : count q = Z.of_nat (total (queues q));
  sq_bound : count q < 2 ^ USIZE_BITS
}.

Definition pending (q : SigQueues) (n : Z) : list Signal := pend (queues q) n.

(** The oldest signal of the number [n] is taken. *)
Definition takes (n : Z) (s : Signal) (q q' : SigQueues) : Prop :=
  num s = n ∧ pending q n = s :: pending q' n ∧ ∀ m, valid m → m ≠ n → pending q' m = pending q m.

Lemma fetch_add_ok n c qs : 0 ≤ c + n < 2 ^ USIZE_BITS → fetch_add n (mkSigQueues c qs) = mkSigQueues (c + n) qs.
Proof. intros Hb. unfold fetch_add. cbn. by rewrite Z.mod_small. Qed.


Lemma total_zero q n : wf_queues q → total q = 0%nat → valid n → pend q n = [].
Proof.
  intros Hq Ht Hn. destruct (pend q n) as [|s l] eqn:E; [done |].
  destruct (pop_ok n q Hq Hn) as (? & ? & _ & _ & _ & _ & _ & Hs); [by rewrite E | lia].
Qed.

Lemma sig_dequeue_ok blocked q : sq_ok q → ∃ o q', sig_dequeue blocked q = Done (o, q') ∧ sq_ok q' ∧
  match next blocked (queues q) with
  | Some n => ∃ s, o = Some s ∧ takes n s q q' ∧ count q = count q' + 1
  | None => o = None ∧ q' = q
  end.
Proof.
  intros Hq. pose proof Hq as [Hwf Hc Hb]. unfold sig_dequeue, is_empty.
  destruct (Z.eqb_spec (count q) 0) as [Hz|Hnz].
  { exists None, q. split; [done |]. split; [done |].
    rewrite (proj2 (next_none blocked (queues q))); [done |]. intros n Hn Hp. rewrite total_zero in Hp; done || lia. }
  rewrite dequeue_ok by done. destruct (next blocked (queues q)) as [n|] eqn:Hn.
  - destruct (next_some blocked _ n Hn) as (Hv & _ & Hp).
    destruct (pop_ok n (queues q) Hwf Hv Hp) as (s & q' & -> & Hs & He & Hwf' & Ho & Ht). cbn [mbind outcome_bind].
    rewrite fetch_add_ok by lia. eexists _, _. split; [done |]. split; [split; cbn; done || lia |].
    exists s. split_and!; [done | done | cbn; lia].
  - cbn [mbind outcome_bind]. eexists _, _. split; [done |]. by destruct q.
Qed.

Lemma sig_has_pending_ok blocked d q : sq_ok q → length d = COUNT_ALL_SIGS →
  ∃ b q', sig_has_pending blocked d q = Done (b, q') ∧ sq_ok q' ∧
    (∀ n, valid n → pending q' n = pending q n ∨ (pending q' n = [] ∧ droppable blocked d n)) ∧
    (b = true ↔ ∃ n, valid n ∧ pending q n ≠ [] ∧ deliverable blocked d n) ∧ count q' ≤ count q.
Proof.
  intros [Hwf Hc Hb] Hd. destruct (queues_has_pending_ok blocked d (queues q) Hwf Hd) as (k & b & q' & E & Hwf' & Hp & Hbt & Ht & Hk).
  unfold sig_has_pending. rewrite E. cbn [mbind outcome_bind]. rewrite fetch_add_ok by lia.
  eexists _, _. split; [done |]. split; [split; cbn; done || lia |]. split_and!; try done; cbn; lia.
Qed.

(** ** The next signal of a thread *)

Record thread_ok (t : Thread) : Prop := {
  to_thread : sq_ok (t_queues t);
  to_process : sq_ok (p_queues t);
  to_dispositions : length (dispositions t) = COUNT_ALL_SIGS
}.

(** The number of the signal to deliver: the first in the order of delivery that is
    pending, not blocked and not ignored. *)
Definition choice (mask : Z) (d : list SigAction) (q : SigQueues) : option Z :=
  List.find (λ n, ready mask (queues q) n && negb (ignored d n)) PRIORITY.

(** Signals that are ignored and not blocked may be dropped. *)
Definition dropped (mask : Z) (d : list SigAction) (q q' : SigQueues) : Prop :=
  ∀ n, valid n → pending q' n = pending q n ∨ (droppable mask d n ∧ pending q' n `suffix_of` pending q n).

Lemma dropped_refl mask d q : dropped mask d q q.
Proof. intros n _. by left. Qed.

Lemma dropped_trans mask d q1 q2 q3 : dropped mask d q1 q2 → dropped mask d q2 q3 → dropped mask d q1 q3.
Proof.
  intros H12 H23 n Hn. destruct (H12 n Hn) as [E|[Hd Hs]], (H23 n Hn) as [E'|[Hd' Hs']].
  - left. congruence.
  - right. split; [done |]. by rewrite <- E.
  - right. split; [done |]. by rewrite E'.
  - right. split; [done |]. by etrans.
Qed.

Lemma find_ext_in {A} (f g : A → bool) l : (∀ x, x ∈ l → f x = g x) → List.find f l = List.find g l.
Proof.
  induction l as [|x l IH]; intros H; cbn; [done |]. rewrite (H x) by (by left). rewrite IH; [done |].
  intros y Hy. apply H. by right.
Qed.

Lemma priority_valid n : n ∈ PRIORITY → valid n.
Proof. destruct priority_sigs as (H1 & H2 & _). intros [?|?]%elem_of_app; [by apply H1 | by apply H2]. Qed.

Lemma dropped_choice mask d q q' : dropped mask d q q' → choice mask d q' = choice mask d q.
Proof.
  intros Hd. apply find_ext_in. intros n Hn%priority_valid. unfold ready. fold (pending q n) (pending q' n).
  destruct (Hd n Hn) as [->|[[_ Hi] _]]; [done |]. by rewrite Hi, !andb_false_r.
Qed.

Lemma find_refine {A} (f g : A → bool) l x : List.find f l = Some x → g x = true → List.find (λ y, f y && g y) l = Some x.
Proof.
  induction l as [|y l IH]; cbn; [done |]. destruct (f y) eqn:Hf; cbn; [intros [= <-] ->; done | auto].
Qed.

Lemma next_choice mask d q n : next mask (queues q) = Some n → ignored d n = false → choice mask d q = Some n.
Proof. intros Hn Hi. apply find_refine; [done | by rewrite Hi]. Qed.

Lemma next_none_choice mask d q : next mask (queues q) = None → choice mask d q = None.
Proof.
  intros Hn. destruct (choice mask d q) as [n|] eqn:Hc; [| done].
  apply List.find_some in Hc as [Hin Hr%andb_true_iff]. destruct Hr as [Hr _].
  pose proof (List.find_none _ _ Hn n Hin). congruence.
Qed.

Lemma takes_dropped mask d n s q q' : valid n → takes n s q q' → contains mask n = false → ignored d n = true → dropped mask d q q'.
Proof.
  intros Hv (Hs & He & Ho) Hc Hi m Hm. destruct (decide (m = n)) as [->|Hne]; [right | left; by apply Ho].
  split; [done |]. exists [s]. by rewrite He.
Qed.

(** The signal that [f] selects is taken, from the thread if it selects one there, else
    from the process. *)
Definition took (f : SigQueues → option Z) (t : Thread) (o : option Signal) (t' : Thread) : Prop :=
  dispositions t' = dispositions t ∧ sig_mask t' = sig_mask t ∧
  match f (t_queues t), f (p_queues t) with
  | Some n, _ => ∃ s, o = Some s ∧ takes n s (t_queues t) (t_queues t') ∧ p_queues t' = p_queues t
  | None, Some n => ∃ s, o = Some s ∧ takes n s (p_queues t) (p_queues t') ∧ t_queues t' = t_queues t
  | None, None => o = None ∧ t' = t
  end.

Definition counts (t : Thread) : Z := count (t_queues t) + count (p_queues t).

Lemma dequeue_signal_ok mask t : thread_ok t → ∃ o t', dequeue_signal mask t = Done (o, t') ∧ thread_ok t' ∧
  took (λ q, next mask (queues q)) t o t' ∧ (o = None ∨ counts t = counts t' + 1).
Proof.
  intros [Ht Hp Hd]. unfold dequeue_signal, took, counts.
  destruct (sig_dequeue_ok mask (t_queues t) Ht) as (o & q' & -> & Hq' & Hm). cbn [mbind outcome_bind].
  destruct (next mask (queues (t_queues t))) as [n|].
  - destruct Hm as (s & -> & Hs & Hc). eexists _, _. split; [done |]. split; [done |]. split; [| right; cbn; lia].
    split_and!; try done. by exists s.
  - destruct Hm as [-> ->]. cbn [p_queues t_queues dispositions sig_mask].
    destruct (sig_dequeue_ok mask (p_queues t) Hp) as (o & p' & -> & Hp' & Hm). cbn [mbind outcome_bind].
    eexists _, _. split; [done |]. split; [done |]. split; [split_and!; try done |].
    + destruct (next mask (queues (p_queues t))) as [n|]; [destruct Hm as (s & ? & ? & _); by exists s |].
      destruct Hm as [-> ->]. by destruct t.
    + destruct (next mask (queues (p_queues t))) as [n|]; [destruct Hm as (s & _ & _ & Hc); right; cbn; lia | left; by apply Hm].
Qed.

Lemma get_ok d n : length d = COUNT_ALL_SIGS → valid n → ∃ a, get d n = Done a ∧ action_ignores a n = ignored d n.
Proof.
  intros Hd Hn. unfold ignored, get. destruct (lookup_lt_is_Some_2 d (idx n MIN_STD_SIG_NUM)) as [a ->]; [| by exists a].
  rewrite Hd. unfold idx, valid, MIN_STD_SIG_NUM, MAX_RT_SIG_NUM, COUNT_ALL_SIGS in *. lia.
Qed.

Definition t_dropped (t t' : Thread) : Prop :=
  dispositions t' = dispositions t ∧ sig_mask t' = sig_mask t ∧
  dropped (sig_mask t) (dispositions t) (t_queues t) (t_queues t') ∧
  dropped (sig_mask t) (dispositions t) (p_queues t) (p_queues t').

(** The actions belong to the signals. *)
Definition with_action (d : list SigAction) (o : option (Signal * SigAction)) : Prop :=
  ∀ s a, o = Some (s, a) → get d (num s) = Done a ∧ ignored d (num s) = false.

Lemma took_next t o t' : thread_ok t' → took (λ q, next (sig_mask t) (queues q)) t o t' →
  match o with
  | None => t' = t ∧ took (choice (sig_mask t) (dispositions t)) t None t
  | Some s => ∃ a, get (dispositions t) (num s) = Done a ∧ action_ignores a (num s) = ignored (dispositions t) (num s) ∧
      if ignored (dispositions t) (num s) then t_dropped t t' else took (choice (sig_mask t) (dispositions t)) t o t'
  end.
Proof.
  intros [_ _ Hd'] (Hd & Hm & Hn). unfold took.
  assert (∀ n s q q', next (sig_mask t) (queues q) = Some n → takes n s q q' →
    ∃ a, get (dispositions t) (num s) = Done a ∧ action_ignores a (num s) = ignored (dispositions t) (num s) ∧
    if ignored (dispositions t) (num s) then dropped (sig_mask t) (dispositions t) q q' else choice (sig_mask t) (dispositions t) q = Some n) as H1.
  { intros n s q q' Hq Hs. destruct (next_some _ _ _ Hq) as (Hv & Hc & _). pose proof Hs as (Hns & _). rewrite Hns.
    destruct (get_ok (dispositions t) n) as (a & Ha & Hi); [congruence | done |]. exists a. split_and!; try done.
    destruct (ignored _ n) eqn:E; [by eapply takes_dropped | by apply next_choice]. }
  destruct (next _ (queues (t_queues t))) as [n|] eqn:Ht.
  - destruct Hn as (s & -> & Hs & Hp). destruct (H1 n s _ _ Ht Hs) as (a & Ha & Hi & H2). exists a. split_and!; try done.
    destruct (ignored _ _); [split_and!; try done; rewrite Hp; apply dropped_refl |]. rewrite H2. split_and!; try done. by exists s.
  - destruct (next _ (queues (p_queues t))) as [n|] eqn:Hp.
    + destruct Hn as (s & -> & Hs & Hq). destruct (H1 n s _ _ Hp Hs) as (a & Ha & Hi & H2). exists a. split_and!; try done.
      destruct (ignored _ _); [split_and!; try done; rewrite Hq; apply dropped_refl |].
      rewrite H2, next_none_choice by done. split_and!; try done. by exists s.
    + destruct Hn as [-> ->]. split; [done |]. rewrite (next_none_choice _ _ _ Ht), (next_none_choice _ _ _ Hp).
      split_and!; reflexivity.
Qed.

Lemma next_signal_ok fuel t : thread_ok t → counts t < Z.of_nat fuel → ∃ o t1 t', next_signal fuel t = Done (o, t') ∧
  thread_ok t' ∧ t_dropped t t1 ∧ took (choice (sig_mask t) (dispositions t)) t1 (fst <$> o) t' ∧ with_action (dispositions t) o ∧
  counts t' ≤ counts t.
Proof.
  revert t. induction fuel as [|fuel IH]; intros t Hok Hf.
  { exfalso. destruct Hok as [[_ H1 _] [_ H2 _] _]. unfold counts in Hf. lia. }
  cbn [next_signal]. destruct (dequeue_signal_ok (sig_mask t) t Hok) as (o & t' & -> & Hok' & Htook & Hc). cbn [mbind outcome_bind].
  pose proof Htook as (Hd & Hm & _). apply took_next in Htook; [| done].
  assert (t_dropped t t) as Hrefl by (split_and!; try done; apply dropped_refl). destruct o as [s|].
  - destruct Htook as (a & Ha & Hi & Hs). rewrite Hd, Ha. cbn [mbind outcome_bind]. rewrite Hi. destruct (ignored _ _) eqn:E.
    + destruct Hc as [|Hc]; [done |]. destruct (IH t') as (o & t1 & t2 & -> & Hok2 & (D1 & D2 & D3 & D4) & Hr & Ha2 & Hc2); [done | lia |].
      rewrite Hd, Hm in *. destruct Hs as (S1 & S2 & S3 & S4). exists o, t1, t2. split_and!; try done; try lia.
      split_and!; try congruence; by eapply dropped_trans.
    + destruct Hc as [|Hc]; [done |]. exists (Some (s, a)), t, t'. split_and!; try done; [by intros ? ? [= <- <-] | lia].
  - destruct Htook as [-> Hs]. exists None, t, t. by split_and!.
Qed.

(** ** The operations on a thread *)

Lemma choice_none mask d q : choice mask d q = None ↔ ∀ n, valid n → deliverable mask d n → pending q n = [].
Proof.
  split.
  - intros Hf n Hn [Hb Hi]. destruct priority_sigs as (_ & _ & H3). apply H3, list_elem_of_In in Hn.
    pose proof (List.find_none _ _ Hf n Hn) as Hr. cbn in Hr. unfold ready in Hr. rewrite Hb, Hi in Hr.
    unfold pending. by destruct (pend (queues q) n).
  - intros Hall. destruct (choice mask d q) as [n|] eqn:Hn; [| done]. apply List.find_some in Hn as [Hin Hr].
    apply list_elem_of_In, priority_valid in Hin. unfold ready in Hr. specialize (Hall n Hin). unfold pending in Hall.
    destruct (contains mask n) eqn:Hb; [done |]. destruct (ignored d n) eqn:Hi; [by rewrite andb_false_r in Hr |].
    by rewrite Hall in Hr by done.
Qed.

Definition after_reset (o : option (Signal * SigAction)) (d : list SigAction) : list SigAction :=
  match o with
  | Some (s, User _ flags _ _) => if Z.land flags SA_RESETHAND =? SA_RESETHAND then set_default (num s) d else d
  | _ => d
  end.

Lemma after_reset_length o d : length (after_reset o d) = length d.
Proof. destruct o as [[s []]|]; cbn; try done. destruct (_ =? _); [apply length_insert | done]. Qed.

Lemma set_dispositions_same t : set_dispositions (dispositions t) t = t.
Proof. by destruct t. Qed.

Lemma dequeue_pending_ok t : thread_ok t → ∃ o t1 t2, 
  dequeue_pending_signal t = Done (o, set_dispositions (after_reset o (dispositions t)) t2) ∧
  thread_ok (set_dispositions (after_reset o (dispositions t)) t2) ∧
  t_dropped t t1 ∧ took (choice (sig_mask t) (dispositions t)) t1 (fst <$> o) t2 ∧ with_action (dispositions t) o ∧
  counts t2 ≤ counts t.
Proof.
  intros Hok. unfold dequeue_pending_signal. fold (counts t).
  destruct (next_signal_ok (S (Z.to_nat (counts t))) t Hok) as (o & t1 & t2 & -> & Hok2 & Hd & Ht & Ha & Hc); [lia |]. cbn [mbind outcome_bind].
  exists o, t1, t2. assert (dispositions t2 = dispositions t) as Hd2 by (destruct Ht as (-> & _), Hd as (-> & _); done).
  split_and!; try done.
  - destruct o as [[s a]|]; [destruct a |]; cbn [after_reset]; rewrite <- ?Hd2; [| | destruct (_ =? _) |]; by rewrite ?set_dispositions_same.
  - destruct Hok2 as [H1 H2 H3]. split; try done. cbn. rewrite after_reset_length. congruence.
Qed.

Lemma sig_pending_dropped mask d q q' :
  (∀ n, valid n → pending q' n = pending q n ∨ (pending q' n = [] ∧ droppable mask d n)) → dropped mask d q q'.
Proof.
  intros H n Hn. destruct (H n Hn) as [?|[-> ?]]; [by left | right]. split; [done | apply suffix_nil].
Qed.

Lemma has_pending_ok t : thread_ok t → ∃ b t', has_pending t = Done (b, t') ∧ thread_ok t' ∧ t_dropped t t' ∧
  (b = true ↔ ∃ n, valid n ∧ deliverable (sig_mask t) (dispositions t) n ∧ (pending (t_queues t) n ≠ [] ∨ pending (p_queues t) n ≠ [])) ∧
  counts t' ≤ counts t.
Proof.
  intros Hok. pose proof Hok as [Ht Hp Hd]. unfold has_pending, counts. destruct (is_empty (t_queues t) && is_empty (p_queues t)) eqn:He.
  { apply andb_true_iff in He as [H1%Z.eqb_eq H2%Z.eqb_eq].
    exists false, t. split; [done |]. split; [done |]. split; [split_and!; try done; apply dropped_refl |].
    split; [| lia]. split; [done |]. intros (n & Hn & _ & Hne). exfalso. destruct Ht as [Hw Hc _], Hp as [Hw' Hc' _]. unfold pending in Hne.
    rewrite !total_zero in Hne by (done || lia). by destruct Hne. }
  destruct (sig_has_pending_ok (sig_mask t) (dispositions t) (t_queues t) Ht Hd) as (b & q' & -> & Hq' & Hdrop%sig_pending_dropped & Hb & Hc).
  destruct b; cbn [mbind outcome_bind p_queues t_queues dispositions sig_mask].
  - exists true. eexists. split; [done |]. split; [done |]. split; [split_and!; try done; apply dropped_refl |].
    split; [| cbn; lia]. split; [intros _ | done]. destruct Hb as [Hb _]. destruct (Hb eq_refl) as (n & Hn & Hne & Hdl). exists n. auto.
  - destruct (sig_has_pending_ok (sig_mask t) (dispositions t) (p_queues t) Hp Hd) as (b & p' & -> & Hp' & Hdrop'%sig_pending_dropped & Hb' & Hc').
    cbn [mbind outcome_bind]. eexists _, _. split; [done |]. split; [done |]. split; [by split_and! |].
    split; [| cbn; lia]. rewrite Hb'. split; [intros (n & Hn & Hne & Hdl); exists n; auto |].
    intros (n & Hn & Hdl & [Hne|Hne]); [destruct Hb as [_ Hb]; discriminate Hb; by exists n | by exists n].
Qed.

(** ** Sets *)

Lemma of_num_bit n i : valid n → 0 ≤ i → Z.testbit (of_num n) i = (i =? n - 1).
Proof.
  unfold valid, of_num, MIN_STD_SIG_NUM. intros Hn Hi. rewrite Z.shiftl_1_l, Z.pow2_bits_eqb by lia. apply Z.eqb_sym.
Qed.

Lemma set_add_bit s t i : Z.testbit (set_add s t) i = Z.testbit s i || Z.testbit t i.
Proof. apply Z.lor_spec. Qed.

Lemma set_sub_bit s t i : 0 ≤ i < 64 → Z.testbit (set_sub s t) i = Z.testbit s i && negb (Z.testbit t i).
Proof. intros Hi. unfold set_sub, bit_not. rewrite Z.land_spec, Z.ldiff_spec, Z.ones_spec_low by lia. done. Qed.

Lemma contains_ok s n : valid n → contains s n = Z.testbit s (n - 1).
Proof.
  intros Hn. assert (Z.land s (of_num n) = if Z.testbit s (n - 1) then of_num n else 0) as E.
  { apply Z.bits_inj'. intros i Hi. rewrite Z.land_spec, of_num_bit by done. destruct (Z.eqb_spec i (n - 1)) as [->|Hne].
    - rewrite andb_true_r. destruct (Z.testbit s (n - 1)); [| by rewrite Z.testbit_0_l]. by rewrite of_num_bit, Z.eqb_refl.
    - rewrite andb_false_r. destruct (Z.testbit s (n - 1)); [| by rewrite Z.testbit_0_l]. rewrite of_num_bit by done. symmetry. by apply Z.eqb_neq. }
  unfold contains. rewrite E. destruct (Z.testbit s (n - 1)); [apply Z.eqb_refl |]. apply Z.eqb_neq. intros H0.
  assert (Z.testbit (of_num n) (n - 1) = false) as Hb by (by rewrite <- H0, Z.testbit_0_l).
  rewrite of_num_bit, Z.eqb_refl in Hb; unfold valid, MIN_STD_SIG_NUM in *; done || lia.
Qed.

Lemma full_minus n m : valid n → valid m → contains (set_sub new_full (of_num n)) m = negb (m =? n).
Proof.
  intros Hn Hm. rewrite contains_ok by done. unfold valid, MIN_STD_SIG_NUM, MAX_RT_SIG_NUM in *.
  rewrite set_sub_bit, of_num_bit by (done || lia). unfold new_full, bit_not. rewrite Z.ldiff_0_r, Z.ones_spec_low by lia. cbn. f_equal.
  destruct (Z.eqb_spec (m - 1) (n - 1)), (Z.eqb_spec m n); done || lia.
Qed.

Lemma add_pending_bit base filled s i : 1 ≤ base → base + Z.of_nat (length filled) ≤ 65 → 0 ≤ i →
  Z.testbit (add_pending base filled s) i = Z.testbit s i || bool_decide (filled !! Z.to_nat (i + 1 - base) = Some true ∧ base ≤ i + 1).
Proof.
  intros Hb Hl Hi. unfold add_pending.
  induction filled as [|b filled IH] using rev_ind; [rewrite bool_decide_false, orb_false_r by (by intros []); done |].
  rewrite imap_app, foldl_app. rewrite length_app in Hl. cbn in Hl |- *. rewrite Nat.add_0_r.
  assert (bool_decide ((filled ++ [b]) !! Z.to_nat (i + 1 - base) = Some true ∧ base ≤ i + 1) =
    bool_decide (filled !! Z.to_nat (i + 1 - base) = Some true ∧ base ≤ i + 1) || (b && (i =? Z.of_nat (length filled) + base - 1))) as ->.
  { apply eq_true_iff_eq. rewrite orb_true_iff, andb_true_iff, !bool_decide_eq_true, Z.eqb_eq, lookup_snoc_Some. split.
    - intros [[[_ ?]|[? ->]] ?]; [by left | right; split; [done | lia]].
    - intros [[Hf ?]|[-> ->]]; [| split; [right; split; [lia | done] | lia]].
      split; [left; split; [by apply lookup_lt_Some in Hf | done] | done]. }
  rewrite orb_assoc, <- IH by lia. destruct b; [| by rewrite orb_false_r].
  rewrite set_add_bit, of_num_bit; [done | | done]. unfold valid, MIN_STD_SIG_NUM, MAX_RT_SIG_NUM. lia.
Qed.

Lemma sig_pending_ok q n : wf_queues (queues q) → valid n → contains (sig_pending q) n = negb (bool_decide (pending q n = [])).
Proof.
  intros [H1 H2 _] Hn. rewrite contains_ok by done. unfold sig_pending, pending, pend, idx.
  unfold valid, MIN_STD_SIG_NUM, MAX_RT_SIG_NUM, MIN_RT_SIG_NUM, COUNT_STD_SIGS, COUNT_RT_SIGS in *.
  rewrite !add_pending_bit, Z.testbit_0_l by (rewrite ?length_fmap, ?H1, ?H2; lia). rewrite orb_false_l, Z.sub_add.
  apply eq_true_iff_eq. rewrite orb_true_iff, negb_true_iff, !bool_decide_eq_true, bool_decide_eq_false, !list_lookup_fmap_Some.
  destruct (is_std n) eqn:Hs; [apply is_std_true in Hs | apply Z.leb_gt in Hs; unfold MAX_STD_SIG_NUM in Hs].
  - destruct (lookup_lt_is_Some_2 (std_queues (queues q)) (Z.to_nat (n - 1))) as [o Ho]; [lia |]. rewrite Ho.
    split; [intros [[(? & ? & [= <-]) _]|[_ ?]]; [by destruct o | lia] |]. intros Hne. left. split; [| lia]. exists o. by destruct o.
  - destruct (lookup_lt_is_Some_2 (rt_queues (queues q)) (Z.to_nat (n - 32))) as [l Hl]; [lia |]. rewrite Hl. cbn.
    split; [intros [[(o & _ & Ho) _]|[(? & ? & [= <-]) _]] |].
    + apply lookup_lt_Some in Ho. lia.
    + by destruct l.
    + intros Hne. right. split; [| lia]. exists l. by destruct l.
Qed.

(** ** Discarding *)

(** The pending signals not in the mask are gone, the others are kept. *)
Definition discarded (mask : Z) (q q' : SigQueues) : Prop :=
  ∀ n, valid n → pending q' n = if contains mask n then pending q n else [].

Definition kept (mask : Z) (q q' : SigQueues) : Prop :=
  ∀ n, valid n → contains mask n = true → pending q' n = pending q n.

Lemma takes_kept mask n s q q' : contains mask n = false → takes n s q q' → kept mask q q'.
Proof. intros Hn (_ & _ & Ho) m Hm Hc. apply Ho; [done |]. congruence. Qed.

Lemma took_kept mask t o t' : took (λ q, next mask (queues q)) t o t' →
  kept mask (t_queues t) (t_queues t') ∧ kept mask (p_queues t) (p_queues t').
Proof.
  intros (_ & _ & Hn). destruct (next _ (queues (t_queues t))) as [n|] eqn:E1.
  - destruct Hn as (s & _ & Hs & ->). split; [| done]. eapply takes_kept; [by eapply next_some | done].
  - destruct (next _ (queues (p_queues t))) as [n|] eqn:E2; [| by destruct Hn as [_ ->]].
    destruct Hn as (s & _ & Hs & ->). split; [done |]. eapply takes_kept; [by eapply next_some | done].
Qed.

Lemma kept_discarded mask q : next mask (queues q) = None → discarded mask q q.
Proof.
  intros Hn n Hv. pose proof (proj1 (next_none mask (queues q)) Hn n Hv) as H. unfold pending.
  destruct (pend (queues q) n); [by destruct (contains mask n) |]. by rewrite H.
Qed.

Lemma discarded_kept mask q1 q2 q3 : kept mask q1 q2 → discarded mask q2 q3 → discarded mask q1 q3.
Proof. intros Hk Hd n Hn. rewrite (Hd n Hn). destruct (contains mask n) eqn:E; [by apply Hk | done]. Qed.

Lemma discard_ok mask fuel t : thread_ok t → counts t < Z.of_nat fuel → ∃ t', discard fuel mask t = Done t' ∧ thread_ok t' ∧
  dispositions t' = dispositions t ∧ sig_mask t' = sig_mask t ∧ counts t' ≤ counts t ∧
  discarded mask (t_queues t) (t_queues t') ∧ discarded mask (p_queues t) (p_queues t').
Proof.
  revert t. induction fuel as [|fuel IH]; intros t Hok Hf.
  { exfalso. destruct Hok as [[_ H1 _] [_ H2 _] _]. unfold counts in Hf. lia. }
  cbn [discard]. destruct (dequeue_signal_ok mask t Hok) as (o & t' & -> & Hok' & Ht & Hc). cbn [mbind outcome_bind].
  destruct (took_kept _ _ _ _ Ht) as [K1 K2]. pose proof Ht as (Hd & Hm & Hn). destruct o as [s|].
  - destruct Hc as [|Hc]; [done |]. destruct (IH t') as (t2 & -> & Hok2 & D & M & C & Q1 & Q2); [done | lia |].
    exists t2. split_and!; try done; try congruence; try lia; by eapply discarded_kept.
  - exists t'. destruct (next _ (queues (t_queues t))) eqn:E1; [by destruct Hn as (? & ? & _) |].
    destruct (next _ (queues (p_queues t))) eqn:E2; [by destruct Hn as (? & ? & _) |]. destruct Hn as [_ ->].
    split_and!; [done | done | done | done | lia | exact (kept_discarded _ _ E1) | exact (kept_discarded _ _ E2)].
Qed.

Definition accepted (n sigset_size : Z) (new : option sigaction_t) : bool :=
  bool_decide (valid n) && (sigset_size =? 8) &&
  match new with Some c => negb ((n =? SIGKILL) || (n =? SIGSTOP)) && check_sigaction (action_of c) | None => true end.

(** The new action ignores the signal. *)
Definition discards (n sigset_size : Z) (new : option sigaction_t) : bool :=
  accepted n sigset_size new && match new with Some c => action_ignores (action_of c) n | None => false end.

Definition new_actions (n sigset_size : Z) (new : option sigaction_t) (d : list SigAction) : list SigAction :=
  if accepted n sigset_size new
  then match new with Some c => <[idx n MIN_STD_SIG_NUM := action_of c]> d | None => d end
  else d.

Lemma get_lookup d n : length d = COUNT_ALL_SIGS → valid n → ∃ a, d !! idx n MIN_STD_SIG_NUM = Some a ∧ get d n = Done a.
Proof.
  intros Hd Hn. destruct (get_ok d n Hd Hn) as (a & Ha & _). exists a. split; [| done]. unfold get in Ha.
  destruct (d !! idx n MIN_STD_SIG_NUM); cbn in Ha; congruence.
Qed.

Lemma sigaction_ok n size new t : thread_ok t → ∃ t',
  sys_rt_sigaction n size new t =
    Done (if accepted n size new then dispositions t !! idx n MIN_STD_SIG_NUM else None, t') ∧
  thread_ok t' ∧ sig_mask t' = sig_mask t ∧ counts t' ≤ counts t ∧
  dispositions t' = new_actions n size new (dispositions t) ∧
  ∀ m, valid m →
    let gone := discards n size new && (m =? n) in
    pending (t_queues t') m = (if gone then [] else pending (t_queues t) m) ∧
    pending (p_queues t') m = (if gone then [] else pending (p_queues t) m).
Proof.
  intros Hok. unfold sys_rt_sigaction, discards, new_actions, accepted. case_bool_decide as Hn; cbn [negb andb]; [| exists t; by split_and!].
  destruct (size =? 8); cbn [negb andb]; [| exists t; by split_and!].
  destruct (get_lookup (dispositions t) n) as (old & Hl & Hg); [apply Hok | done |].
  destruct new as [c|]; [| rewrite Hg, Hl; exists t; by split_and!].
  destruct ((n =? SIGKILL) || (n =? SIGSTOP)); cbn [negb andb]; [exists t; by split_and! |].
  set (a := action_of c). unfold set. destruct (action_ignores a n) eqn:Hi.
  - fold (counts t). destruct (discard_ok (set_sub new_full (of_num n)) (S (Z.to_nat (counts t))) t Hok)
      as (t' & -> & Hok' & D & M & C & Q1 & Q2); [lia |]. cbn [mbind outcome_bind].
    assert (check_sigaction a = true) as Hca by (by destruct a). rewrite Hca, D, Hg, Hl. eexists. split; [done |].
    cbn [sig_mask set_dispositions dispositions t_queues p_queues andb]. split_and!; try done.
    { destruct Hok' as [? ? ?]. split; try done. cbn. rewrite length_insert. congruence. }
    intros m Hm. rewrite (Q1 m Hm), (Q2 m Hm), full_minus by done. by destruct (m =? n).
  - cbn [mbind outcome_bind]. rewrite Hg, Hl. destruct (check_sigaction a); [| exists t; by split_and!].
    eexists. split; [done |]. cbn. split_and!; try done. destruct Hok as [? ? ?]. split; try done. cbn. by rewrite length_insert.
Qed.

(** What [rt_sigaction] returns as the old action sets the same action again. *)
Lemma as_c_type_ok c : action_of (as_c_type (action_of c)) = action_of c.
Proof.
  unfold action_of. destruct (handler_ptr c =? 0) eqn:H0; [done |]. destruct (handler_ptr c =? 1) eqn:H1; [done |].
  cbn [as_c_type handler_ptr sa_flags restorer_ptr sa_mask]. rewrite H0, H1. f_equal.
  - by rewrite <- Z.land_assoc, Z.land_diag.
  - unfold set_sub. apply Z.bits_inj'. intros i Hi. rewrite !Z.land_spec. by repeat destruct (Z.testbit _ i).
Qed.

(** ** SIGKILL and SIGSTOP *)

(** The set has neither signal. *)
Definition clear (m : Z) : Prop := Z.testbit m 8 = false ∧ Z.testbit m 18 = false.

Record unblockable (t : Thread) : Prop := {
  ub_mask : clear (sig_mask t);
  ub_kill : dispositions t !! 8%nat = Some Dfl;
  ub_stop : dispositions t !! 18%nat = Some Dfl;
  ub_user : ∀ h f r m, User h f r m ∈ dispositions t → clear m
}.











Lemma choice_valid mask d q n : choice mask d q = Some n → valid n ∧ deliverable mask d n ∧ pending q n ≠ [].
Proof.
  intros [Hin Hr]%List.find_some. apply list_elem_of_In, priority_valid in Hin. apply andb_true_iff in Hr as [Hr Hi%negb_true_iff].
  unfold ready in Hr. apply andb_true_iff in Hr as [Hc%negb_true_iff Hp]. split; [done |]. split; [done |].
  unfold pending. by destruct (pend (queues q) n).
Qed.


(** There is room for the frame of a handler below the stack pointer and below the top of the
    alternate stack, the alternate stack is one that [sigaltstack] accepts, and the
    instruction pointer is behind a system call instruction. *)
Definition FRAME_ROOM (f : Frame) : Z := 128 + SIGINFO_SIZE + f_fpu_len f + 63 + UCONTEXT_SIZE + 7 + 8.

Record room_ok (f : Frame) : Prop := {
  fr_sp : FRAME_ROOM f ≤ f_sp f < 2 ^ 64;
  fr_fpu : 0 ≤ f_fpu_len f;
  fr_alt : 0 ≤ ss_base (f_stack f) ∧ 0 ≤ ss_size (f_stack f) ∧ ss_base (f_stack f) + ss_size (f_stack f) < 2 ^ 64;
  fr_top : ss_size (f_stack f) = 0 ∨ FRAME_ROOM f + 15 ≤ ss_base (f_stack f) + ss_size (f_stack f);
}.



Lemma checked_sub_eq x y : y ≤ x → checked_sub x y = Some (x - y).
Proof. intros H. unfold checked_sub. by rewrite (proj2 (Z.leb_le y x) H). Qed.

Lemma align_down_near x a : valid_align 64 a → in_width 64 x → ∃ y, align_down 64 x a = Done y ∧ x - a < y ≤ x ∧ 0 ≤ y.
Proof.
  intros Ha Hx. exists (round_down x a). split; [by apply align_down_eq|]. unfold round_down.
  assert (0 < a) by (destruct Ha as (_ & k & Hk & ->); apply pow2_pos; lia).
  pose proof (Z.mod_pos_bound x a ltac:(lia)). pose proof (Z.mod_le x a (proj1 Hx) ltac:(lia)). lia.
Qed.

Lemma valid_8 : valid_align 64 8.
Proof. split; [done|]. exists 3. split; [lia|done]. Qed.
Lemma valid_16 : valid_align 64 16.
Proof. split; [done|]. exists 4. split; [lia|done]. Qed.
Lemma valid_64 : valid_align 64 64.
Proof. split; [done|]. exists 6. split; [lia|done]. Qed.

Lemma alloc_aligned_near rsp size a :
  valid_align 64 a → 0 ≤ size ≤ rsp → rsp < 2 ^ 64 →
  ∃ y, alloc_aligned_in_user_stack rsp size a = Done y ∧ rsp - size - a < y ≤ rsp - size ∧ 0 ≤ y.
Proof.
  intros Ha Hs Hr. unfold alloc_aligned_in_user_stack. rewrite checked_sub_eq by lia. cbn [unwrap mbind outcome_bind].
  apply align_down_near; [done|]. unfold in_width. lia.
Qed.

Lemma alternate_ok flags f : room_ok f → ∃ o, use_alternate_signal_stack flags (f_stack f) (f_sp f) = Done o ∧
  FRAME_ROOM f ≤ default (f_sp f) o < 2 ^ 64.
Proof.
  intros [H1 H3 (B1 & B2 & B3) H5]. unfold use_alternate_signal_stack, active_status, on_stack.
  destruct (has_flag flags SA_ONSTACK); [|by eexists]. cbn [negb]. destruct (Z.eqb_spec (ss_size (f_stack f)) 0) as [|Hne]; [by eexists|].
  destruct H5 as [|H5]; [done|]. assert (checked_add 64 (ss_base (f_stack f)) (ss_size (f_stack f)) = Some (ss_base (f_stack f) + ss_size (f_stack f))) as ->.
  { unfold checked_add. by rewrite (proj2 (Z.ltb_lt _ _) B3). }
  cbn [unwrap mbind outcome_bind]. assert (∃ o : option Z, align_down 64 (ss_base (f_stack f) + ss_size (f_stack f)) 16 ≫= (λ sp, Done (Some sp)) = Done o ∧
    FRAME_ROOM f ≤ default (f_sp f) o < 2 ^ 64) as Halt.
  { destruct (align_down_near (ss_base (f_stack f) + ss_size (f_stack f)) 16 valid_16 ltac:(unfold in_width; lia)) as (y & -> & Hy & _).
    exists (Some y). split; [done|]. cbn. lia. }
  destruct (has_flag _ SS_AUTODISARM); cbn [mbind outcome_bind]; [done|].
  destruct (ss_base (f_stack f) <? f_sp f); cbn [mbind outcome_bind]; [|done]. destruct (f_sp f <=? _); [by eexists|done].
Qed.

(** The mask in a handler *)
Definition handler_mask (n flags mask : Z) : Z := if has_flag flags SA_NODEFER then mask else set_add mask (of_num n).

Lemma enter_handler_ok n h flags r mask f t : room_ok f →
  ∃ e, enter_handler n h flags r mask f t = Done (e, set_sig_mask (set_add (sig_mask t) (handler_mask n flags mask)) t) ∧
    ∀ uc f', e = Some (uc, f') → uc_sigmask uc = handler_mask n flags mask ∧ uc_sp uc = f_sp f ∧ uc_ip uc = f_ip f ∧
      uc_ret uc = f_ret f ∧ uc_stack uc = f_stack f ∧ uc_link uc = default 0 (f_context f) ∧ f_ip f' = h.
Proof.
  intros Hf. unfold enter_handler. fold (handler_mask n flags mask). destruct (alternate_ok flags f Hf) as (o & -> & Ho).
  cbn [mbind outcome_bind]. set (sp := default (f_sp f) o) in *. pose proof (fr_fpu f Hf) as Hl.
  unfold FRAME_ROOM, SIGINFO_SIZE, UCONTEXT_SIZE in *. rewrite !checked_sub_eq by lia. cbn [unwrap mbind outcome_bind].
  rewrite checked_sub_eq by lia. cbn [unwrap mbind outcome_bind].
  destruct (f_writable f (sp - 128 - 128) 128); cbn [negb]; [|by eexists].
  destruct (alloc_aligned_near (sp - 128 - 128) (f_fpu_len f) 64 valid_64) as (x & -> & Hx & Hx0); [lia..|]. cbn [mbind outcome_bind].
  destruct (alloc_aligned_near x 304 8 valid_8) as (y & -> & Hy & Hy0); [lia..|]. cbn [mbind outcome_bind].
  destruct (negb _ || negb _); [by eexists|]. destruct (has_flag flags SA_RESTORER).
  - rewrite checked_sub_eq by lia. cbn [unwrap mbind outcome_bind]. destruct (f_writable f (y - 8) 8); [|by eexists].
    eexists. split; [done|]. by intros uc f' [= <- <-].
  - cbn [mbind outcome_bind]. eexists. split; [done|]. by intros uc f' [= <- <-].
Qed.






Lemma new_thread_ok : thread_ok new_thread ∧ unblockable new_thread ∧ counts new_thread = 0.
Proof.
  assert (sq_ok new_sig_queues) as Hq by (split; [apply new_queues_wf | done | done]).
  split; [done |]. split; [| done]. split; [done | done | done |]. intros h f r m H.
  apply elem_of_replicate in H as [H _]. done.
Qed.



(** ** The properties *)


(** [C18] [dequeue_pending_signal] returns, and delivers the first pending signal, in the
    order of delivery, that is neither blocked nor ignored: the oldest of its number, of
    the thread before those of the process. It removes nothing else but signals that are
    ignored and not blocked, and resets the action of a one-shot handler. It delivers
    something exactly when [has_pending] says that there is something to deliver. *)
Theorem signal_delivery_exact t : thread_ok t → ∃ o t1 t2,
  dequeue_pending_signal t = Done (o, set_dispositions (after_reset o (dispositions t)) t2) ∧
  t_dropped t t1 ∧ took (choice (sig_mask t) (dispositions t)) t1 (fst <$> o) t2 ∧ with_action (dispositions t) o ∧
  ∃ b t', has_pending t = Done (b, t') ∧ t_dropped t t' ∧ (b = true ↔ o ≠ None).
Proof.
  intros Hok. destruct (dequeue_pending_ok t Hok) as (o & t1 & t2 & E & _ & Hd & Ht & Ha & _).
  destruct (has_pending_ok t Hok) as (b & t' & Eb & _ & Hd' & Hb & _). exists o, t1, t2. split_and!; try done.
  exists b, t'. split_and!; try done. rewrite Hb. destruct Hd as (_ & _ & Q1 & Q2), Ht as (_ & _ & Ht).
  rewrite (dropped_choice _ _ _ _ Q1), (dropped_choice _ _ _ _ Q2) in Ht.
  destruct (choice _ _ (t_queues t)) as [n|] eqn:E1; [| destruct (choice _ _ (p_queues t)) as [n|] eqn:E2].
  - destruct Ht as (s & Hs & _). destruct (choice_valid _ _ _ _ E1) as (? & ? & ?). split; [by destruct o | intros _; exists n; auto].
  - destruct Ht as (s & Hs & _). destruct (choice_valid _ _ _ _ E2) as (? & ? & ?). split; [by destruct o | intros _; exists n; auto].
  - destruct Ht as [Hs _]. destruct o; [done |]. split; [| done]. intros (n & Hn & Hdl & Hne).
    rewrite choice_none in E1, E2. by destruct Hne as [Hne|Hne]; rewrite ?E1, ?E2 in Hne.
Qed.

(** [rt_sigaction] returns the old action, and sets a new one, exactly when the number
    is valid, a new action is not for SIGKILL or SIGSTOP, and a handler comes with a
    restorer; else it is an error. A new action that ignores the signal discards its
    pending signals, blocked or not, of the thread and of the process. No other pending
    signal and no other action changes, and nothing on an error. *)
Theorem sigaction_exact n size new t : thread_ok t → ∃ t',
  sys_rt_sigaction n size new t =
    Done (if accepted n size new then dispositions t !! idx n MIN_STD_SIG_NUM else None, t') ∧
  thread_ok t' ∧ sig_mask t' = sig_mask t ∧ dispositions t' = new_actions n size new (dispositions t) ∧
  ∀ m, valid m →
    let gone := discards n size new && (m =? n) in
    pending (t_queues t') m = (if gone then [] else pending (t_queues t) m) ∧
    pending (p_queues t') m = (if gone then [] else pending (p_queues t) m).
Proof.
  intros Hok. destruct (sigaction_ok n size new t Hok) as (t' & E & H1 & H2 & _ & H3 & H4). exists t'. by split_and!.
Qed.

(** In a handler the blocked signals are those blocked before, those of the action,
    and, unless the action says otherwise, the signal itself. On return, the signals
    blocked are those blocked before that are not among the ones the handler blocked: a
    signal blocked before and in the mask of the action ends up unblocked. *)
Theorem handler_mask_exact n h flags r mask f t uc f' t' m : valid n → valid m → room_ok f →
  enter_handler n h flags r mask f t = Done (Some (uc, f'), t') →
  contains (uc_sigmask uc) m = contains mask m || ((m =? n) && negb (has_flag flags SA_NODEFER)) ∧
  contains (sig_mask t') m = contains (sig_mask t) m || contains (uc_sigmask uc) m ∧
  contains (sig_mask (sigreturn (uc_sigmask uc) t')) m = contains (sig_mask t) m && negb (contains (uc_sigmask uc) m).
Proof.
  intros Hn Hm Hf E. destruct (enter_handler_ok n h flags r mask f t Hf) as (e & E' & He). rewrite E in E'. injection E' as <- ->.
  destruct (He uc f' eq_refl) as (-> & _). unfold sigreturn. cbn [sig_mask set_sig_mask]. rewrite !contains_ok by done.
  assert (0 ≤ m - 1 < 64) by (unfold valid, MIN_STD_SIG_NUM, MAX_RT_SIG_NUM in *; lia).
  rewrite set_sub_bit, !set_add_bit by done. unfold handler_mask.
  set (saved := if has_flag flags SA_NODEFER then mask else set_add mask (of_num n)). split_and!; [| done |].
  - unfold saved. destruct (has_flag flags SA_NODEFER); [by rewrite andb_false_r, orb_false_r |].
    rewrite set_add_bit, of_num_bit, andb_true_r by (done || lia). f_equal.
    destruct (Z.eqb_spec (m - 1) (n - 1)), (Z.eqb_spec m n); done || lia.
  - by destruct (Z.testbit (sig_mask t) (m - 1)), (Z.testbit saved (m - 1)).
Qed.

(** A handler for SIGUSR1, which is then blocked and sent. *)
Definition SIGUSR1 : Z := 10.
Definition SIGUSR2 : Z := 12.
Definition handler : sigaction_t := mkSigaction 0x1000 SA_RESTORER 0x2000 (of_num SIGUSR1).
Definition blocked_usr1 : outcome Thread :=
  happens [Sigaction SIGUSR1 8 (Some handler); Sigaction SIGUSR2 8 (Some handler); Sigprocmask Block (of_num SIGUSR1); ToThread (mkSignal SIGUSR1 0)] new_thread.

(** A stack with room and one without *)
Definition frame_at (sp : Z) : Frame := mkFrame sp 0x400000 0 (0, 0, 0) (mkStack 0 0 0) None 832 (λ _ _, true).
Definition roomy : Frame := frame_at 0x7fff00000000.

(** A handler entered with a stack pointer near zero panics the kernel: its frame would be
    below address zero. *)
Theorem handler_stack_panics :
  match blocked_usr1 with
  | Done t => happens [ToThread (mkSignal SIGUSR2 0); HandlePending None (frame_at 1000)] t = Panic
  | Panic => False
  end.
Proof. vm_compute. reflexivity. Qed.

(** Signals lost by the calls that change the mask. (1) SIGUSR1 is blocked and its
    handler set; [rt_sigsuspend] with the empty mask does not see it, and sleeps. (2)
    [ppoll] with the empty mask does see it and is interrupted, but the mask is restored
    before signals are handled, so that its handler does not run. (3) [ppoll] with the
    full mask sleeps through a SIGKILL. (4) The return from the handler of SIGUSR2, whose
    mask has SIGUSR1, unblocks SIGUSR1, which was blocked before: it is delivered next. *)
Theorem mask_calls_lose_signals : ∃ t, blocked_usr1 = Done t ∧
  (∃ t', with_sigmask_changed (suspend_mask 0) has_pending t = Done (false, t')) ∧
  (∃ t', with_sigmask_changed (ppoll_mask 0) has_pending t = Done (true, t') ∧ handle_pending_signal None roomy t' = Done (NoSignal, roomy, t')) ∧
  (∃ t' t'', happen (ToThread (mkSignal SIGKILL 0)) t = Done t' ∧
     with_sigmask_changed (ppoll_mask new_full) has_pending t' = Done (false, t'')) ∧
  (∃ t' s uc f t'', happen (ToThread (mkSignal SIGUSR2 0)) t = Done t' ∧
     handle_pending_signal None roomy t' = Done (Entered s uc, f, t'') ∧ num s = SIGUSR2 ∧
     ∃ s' uc' f' t3, num s' = SIGUSR1 ∧ handle_pending_signal None f (sigreturn (uc_sigmask uc) t'') = Done (Entered s' uc', f', t3)).
Proof.
  eexists. split; [vm_compute; reflexivity |]. split; [eexists; vm_compute; reflexivity |]. split; [eexists; split; [vm_compute; reflexivity | vm_compute; reflexivity] |].
  split; [eexists _, _; split; [vm_compute; reflexivity | vm_compute; reflexivity] |].
  eexists _, (mkSignal SIGUSR2 0), _, _, _. split; [vm_compute; reflexivity |]. split; [vm_compute; reflexivity |]. split; [done |].
  eexists (mkSignal SIGUSR1 0), _, _, _. split; [done |]. vm_compute. reflexivity.
Qed.

(** ** Witnesses *)


Lemma signal_delivery_exact_witness : ∃ o t2, dequeue_pending_signal new_thread = Done (o, t2) ∧ ∃ b t', has_pending new_thread = Done (b, t') ∧ (b = true ↔ o ≠ None).
Proof.
  destruct (signal_delivery_exact new_thread) as (o & t1 & t2 & E & _ & _ & _ & b & t' & Eb & _ & H); [apply new_thread_ok |].
  eexists _, _. split; [exact E |]. by exists b, t'.
Defined.

Lemma sigaction_exact_witness : ∃ t', sys_rt_sigaction SIGUSR1 8 (Some handler) new_thread = Done (Some Dfl, t') ∧
  dispositions t' = <[9%nat := action_of handler]> new_dispositions.
Proof.
  destruct (sigaction_exact SIGUSR1 8 (Some handler) new_thread) as (t' & E & _ & _ & Hd & _); [apply new_thread_ok |].
  by exists t'.
Defined.
End Signals.
