(* ===== verification/Semaphore.v ===== *)
(** * System V semaphores

    [kernel/src/ipc/]: semaphores and the operations on them that wait
    ([semaphore/system_v/sem.rs]), semaphore sets and their identifiers
    ([semaphore/system_v/sem_set.rs]), and the system calls [semget], [semctl] and
    [semop] ([kernel/src/syscall/]). A call runs under the locks of the sets and of its
    set, up to where it sleeps. The times of the last operations are left out. *)

From S2P Require Import Prelude IdAlloc.
Local Open Scope Z_scope.

Module Semaphore.

Inductive Errno : Type := EINVAL | ENOENT | EEXIST | ENOSPC | EFBIG | EAGAIN | ERANGE | EIDRM | EPERM | E2BIG.

Definition SEMMNI : Z := 32000.
Definition SEMMSL : Z := 32000.
Definition SEMOPM : Z := 500.
Definition SEMVMX : Z := 32767.

(** [IpcFlags] *)
Definition IPC_CREAT : Z := 2 ^ 9.
Definition IPC_EXCL : Z := 2 ^ 10.
Definition IPC_NOWAIT : Z := 2 ^ 11.
Definition SEM_UNDO : Z := 2 ^ 12.
Definition has_flag (flags f : Z) : bool := Z.land flags f =? f.

(** ** Semaphores *)

Record SemBuf : Type := mkSemBuf { sem_num : Z; sop : Z; sem_flags : Z }.

Inductive Status : Type := Normal | Pending | Removed.

(** A pending operation; [op_id] names its status cell and its waker. *)
Record PendingOp : Type := mkOp { sops : list SemBuf; op_id : nat; op_pid : Z }.

Record Sem : Type := mkSem { val : Z; latest_modified_pid : Z }.

Definition idx (op : SemBuf) : nat := Z.to_nat (sem_num op).

(** [a + b] on [i32] *)
Definition i32_add (a b : Z) : outcome Z :=
  if (- 2 ^ 31 <=? a + b) && (a + b <? 2 ^ 31) then Done (a + b) else Panic.

(** [get_sops_flags]: whether an operation alters a semaphore, and whether a semaphore
    may be used twice *)
Fixpoint get_sops_flags (l : list SemBuf) (alter dupsop : bool) (dup : Z) : bool * bool :=
  match l with
  | [] => (alter, dupsop)
  | op :: l =>
      let mask := Z.shiftl 1 (sem_num op mod 64) in
      let dupsop := if Z.land dup mask =? 0 then dupsop else true in
      if sop op =? 0 then get_sops_flags l alter dupsop dup else get_sops_flags l true dupsop (Z.lor dup mask)
  end.

(** The first loop of [perform_atomic_semop]; an adjustment on exit ([SEM_UNDO]) is not
    implemented and panics *)
Fixpoint check_sops (sems : list Sem) (l : list SemBuf) : outcome (result bool Errno) :=
  match l with
  | [] => Done (ROk true)
  | op :: l =>
      match sems !! idx op with
      | None => Done (RErr EFBIG)
      | Some sem =>
          let wait := if has_flag (sem_flags op) IPC_NOWAIT then RErr EAGAIN else ROk false in
          if (sop op =? 0) && negb (val sem =? 0) then Done wait
          else
            i32_add (val sem) (sop op) ≫= λ r,
            if r <? 0 then Done wait
            else if SEMVMX <? r then Done (RErr ERANGE)
            else if has_flag (sem_flags op) SEM_UNDO then Panic
            else check_sops sems l
      end
  end.

(** Its second loop *)
Fixpoint apply_sops (pid : Z) (l : list SemBuf) (sems : list Sem) : outcome (list Sem) :=
  match l with
  | [] => Done sems
  | op :: l =>
      unwrap (sems !! idx op) ≫= λ sem,
      if sop op =? 0 then apply_sops pid l sems
      else i32_add (val sem) (sop op) ≫= λ v, apply_sops pid l (<[idx op := mkSem v pid]> sems)
  end.

Definition perform_atomic_semop (sems : list Sem) (op : PendingOp) : outcome (result bool Errno * list Sem) :=
  check_sops sems (sops op) ≫= λ r,
  match r with
  | ROk true => apply_sops (op_pid op) (sops op) sems ≫= λ sems, Done (ROk true, sems)
  | r => Done (r, sems)
  end.

(** [wake_const_ops]: the semaphores, the operations still pending, and those to wake *)
Fixpoint wake_const_ops (pending_const : list PendingOp) (sems : list Sem)
  : outcome (list Sem * list PendingOp * list PendingOp) :=
  match pending_const with
  | [] => Done (sems, [], [])
  | op :: l =>
      perform_atomic_semop sems op ≫= λ '(r, sems),
      wake_const_ops l sems ≫= λ '(sems, kept, woken),
      Done (match r with ROk true => (sems, kept, op :: woken) | _ => (sems, op :: kept, woken) end)
  end.

(** A semaphore of the operations is zero. *)
Fixpoint any_zero (l : list SemBuf) (sems : list Sem) : outcome bool :=
  match l with
  | [] => Done false
  | op :: l => unwrap (sems !! idx op) ≫= λ sem, if val sem =? 0 then Done true else any_zero l sems
  end.

Definition do_smart_wakeup_zero (op : PendingOp) (pending_const : list PendingOp) (sems : list Sem)
  : outcome (list Sem * list PendingOp * list PendingOp) :=
  any_zero (sops op) sems ≫= λ z, if z : bool then wake_const_ops pending_const sems else Done (sems, pending_const, []).

Fixpoint update_pending_alter (pending_alter pending_const : list PendingOp) (sems : list Sem)
  : outcome (list Sem * list PendingOp * list PendingOp * list PendingOp) :=
  match pending_alter with
  | [] => Done (sems, [], pending_const, [])
  | op :: l =>
      perform_atomic_semop sems op ≫= λ '(r, sems),
      match r with
      | ROk true =>
          do_smart_wakeup_zero op pending_const sems ≫= λ '(sems, pending_const, woken),
          update_pending_alter l pending_const sems ≫= λ '(sems, alter, pending_const, woken'),
          Done (sems, alter, pending_const, woken ++ op :: woken')
      | _ =>
          update_pending_alter l pending_const sems ≫= λ '(sems, alter, pending_const, woken),
          Done (sems, op :: alter, pending_const, woken)
      end
  end.

(** ** Semaphore sets *)

Record IpcPermission : Type := mkPerm { key : Z; uid : Z; gid : Z; cuid : Z; cguid : Z; mode : Z }.

Record SemSet : Type := mkSet {
  nsems : Z;
  sems : list Sem;
  pending_alter : list PendingOp;
  pending_const : list PendingOp;
  permission : IpcPermission
}.

Definition set_inner (s : list Sem) (alter const : list PendingOp) (x : SemSet) : SemSet :=
  mkSet (nsems x) s alter const (permission x).

Definition new_set (id n mode euid egid pid : Z) : SemSet :=
  mkSet n (replicate (Z.to_nat n) (mkSem 0 pid)) [] [] (mkPerm id euid egid euid egid mode).

Definition do_smart_update (op : PendingOp) (x : SemSet) : outcome (SemSet * list PendingOp) :=
  (if bool_decide (pending_const x = []) then Done (sems x, pending_const x, [])
   else do_smart_wakeup_zero op (pending_const x) (sems x)) ≫= λ '(s, const, woken),
  if bool_decide (pending_alter x = []) then Done (set_inner s [] const x, woken)
  else
    update_pending_alter (pending_alter x) const s ≫= λ '(s, alter, const, woken'),
    Done (set_inner s alter const x, woken ++ woken').

Definition setval (num v pid : Z) (x : SemSet) : outcome (result unit Errno * SemSet * list PendingOp) :=
  if negb ((0 <=? v) && (v <? SEMVMX)) then Done (RErr ERANGE, x, [])
  else
    match sems x !! Z.to_nat num with
    | None => Done (RErr EINVAL, x, [])
    | Some _ =>
        let s := <[Z.to_nat num := mkSem v pid]> (sems x) in
        if v =? 0 then
          wake_const_ops (pending_const x) s ≫= λ '(s, const, woken),
          Done (ROk tt, set_inner s (pending_alter x) const x, woken)
        else
          update_pending_alter (pending_alter x) (pending_const x) s ≫= λ '(s, alter, const, woken),
          Done (ROk tt, set_inner s alter const x, woken)
    end.

(** [pending_const_count] and [pending_alter_count] *)
Definition pending_count (num : Z) (l : list PendingOp) : Z :=
  Z.of_nat (length (filter (λ op, sem_num op = num) (mjoin (sops <$> l)))).

(** ** The system *)

Record World : Type := mkWorld {
  ids : IdAlloc.t;
  sem_sets : gmap Z SemSet;
  statuses : gmap nat Status;
  awake : gset nat;
  next_op : nat
}.

Definition init : outcome World :=
  IdAlloc.alloc (IdAlloc.with_capacity (Z.to_nat (SEMMNI + 1))) ≫= λ '(_, ids), Done (mkWorld ids ∅ ∅ ∅ 0).

Definition put_set (id : Z) (x : SemSet) (w : World) : World :=
  mkWorld (ids w) (<[id := x]> (sem_sets w)) (statuses w) (awake w) (next_op w).

(** The status of the operations set, and their wakers woken. *)
Definition wake_all (st : Status) (l : list PendingOp) (w : World) : World :=
  foldr (λ op w, mkWorld (ids w) (sem_sets w) (<[op_id op := st]> (statuses w)) ({[op_id op]} ∪ awake w) (next_op w)) w l.

Definition create_sem_set_with_id (id n mode euid egid pid : Z) (w : World) : outcome (result unit Errno * World) :=
  if SEMMNI <? id then Done (RErr ENOENT, w)
  else
    IdAlloc.alloc_specific (ids w) (Z.to_nat id) ≫= λ '(o, i),
    match o with
    | None => Done (RErr EEXIST, w)
    | Some _ =>
        Done (ROk tt, put_set id (new_set id n mode euid egid pid) (mkWorld i (sem_sets w) (statuses w) (awake w) (next_op w)))
    end.

Definition create_sem_set (n mode euid egid pid : Z) (w : World) : outcome (result Z Errno * World) :=
  IdAlloc.alloc (ids w) ≫= λ '(o, i),
  match o with
  | None => Done (RErr ENOSPC, w)
  | Some id =>
      let id := Z.of_nat id in
      Done (ROk id, put_set id (new_set id n mode euid egid pid) (mkWorld i (sem_sets w) (statuses w) (awake w) (next_op w)))
  end.

Definition check_sem (id : Z) (n : option Z) (w : World) : result unit Errno :=
  match sem_sets w !! id with
  | None => RErr ENOENT
  | Some x => match n with Some n => if nsems x <? n then RErr EINVAL else ROk tt | None => ROk tt end
  end.

(** [SemaphoreSet::drop], of the set that was removed *)
Definition drop_set (debug : bool) (x : SemSet) (w : World) : outcome World :=
  let w := wake_all Removed (pending_const x) (wake_all Removed (pending_alter x) w) in
  IdAlloc.free debug (ids w) (Z.to_nat (key (permission x))) ≫= λ i,
  Done (mkWorld i (sem_sets w) (statuses w) (awake w) (next_op w)).

(** ** System calls *)

(** [arg as i32] *)
Definition as_i32 (arg : Z) : Z := (arg + 2 ^ 31) mod 2 ^ 32 - 2 ^ 31.

Definition sys_semget (k n semflags euid egid pid : Z) (w : World) : outcome (result Z Errno * World) :=
  if (n <? 0) || (SEMMSL <? n) then Done (RErr EINVAL, w)
  else if k <? 0 then Done (RErr EINVAL, w)
  else
    let mode := Z.land semflags 0x1FF in
    if (k =? 0) || ((SEMMNI <? k) && has_flag semflags IPC_CREAT) then
      if n =? 0 then Done (RErr EINVAL, w) else create_sem_set n mode euid egid pid w
    else
      match check_sem k (Some n) w with
      | ROk _ => Done (if has_flag semflags (Z.lor IPC_CREAT IPC_EXCL) then RErr EEXIST else ROk k, w)
      | RErr ENOENT =>
          if has_flag semflags IPC_CREAT then
            if n =? 0 then Done (RErr EINVAL, w)
            else
              create_sem_set_with_id k n mode euid egid pid w ≫= λ '(r, w),
              Done (match r with ROk _ => ROk k | RErr e => RErr e end, w)
          else Done (RErr ENOENT, w)
      | RErr e => Done (RErr e, w)
      end.

(** [check_and_ctl] *)
Definition check_and_ctl {T} (semid : Z) (ctl_func : SemSet → outcome (result T Errno * World)) (w : World)
  : outcome (result T Errno * World) :=
  match check_sem semid None w with
  | RErr e => Done (RErr e, w)
  | ROk _ => match sem_sets w !! semid with Some x => ctl_func x | None => Done (RErr EINVAL, w) end
  end.

Inductive IpcControlCmd : Type :=
| IPC_RMID | IPC_SET | IPC_STAT | SEM_GETPID | SEM_GETVAL | SEM_GETALL | SEM_GETNCNT | SEM_GETZCNT | SEM_SETVAL | SEM_SETALL.

Definition cmd_of (cmd : Z) : option IpcControlCmd :=
  if cmd =? 0 then Some IPC_RMID else if cmd =? 1 then Some IPC_SET else if cmd =? 2 then Some IPC_STAT
  else if cmd =? 11 then Some SEM_GETPID else if cmd =? 12 then Some SEM_GETVAL else if cmd =? 13 then Some SEM_GETALL
  else if cmd =? 14 then Some SEM_GETNCNT else if cmd =? 15 then Some SEM_GETZCNT else if cmd =? 16 then Some SEM_SETVAL
  else if cmd =? 17 then Some SEM_SETALL else None.

(** [SemaphoreSet::get] *)
Definition get_sem (num : Z) (f : Sem → Z) (x : SemSet) : result Z Errno :=
  match sems x !! Z.to_nat num with Some s => ROk (f s) | None => RErr EINVAL end.

(** [IPC_STAT] writes the permission and the size of the set to user memory. *)
Definition sys_semctl (debug : bool) (semid semnum cmd arg euid pid : Z) (w : World) : outcome (result Z Errno * World) :=
  if (semid <=? 0) || (semnum <? 0) then Done (RErr EINVAL, w)
  else
    match cmd_of cmd with
    | None => Done (RErr EINVAL, w)
    | Some IPC_RMID =>
        match sem_sets w !! semid with
        | None => Done (RErr EINVAL, w)
        | Some x =>
            if (euid =? uid (permission x)) || (euid =? cuid (permission x)) then
              drop_set debug x (mkWorld (ids w) (delete semid (sem_sets w)) (statuses w) (awake w) (next_op w)) ≫= λ w, Done (ROk 0, w)
            else Done (RErr EPERM, w)
        end
    | Some SEM_SETVAL =>
        let v := as_i32 arg in
        if v <? 0 then Done (RErr ERANGE, w)
        else
          check_and_ctl semid (λ x,
            setval semnum v pid x ≫= λ '(r, x, woken),
            Done (match r with ROk _ => ROk 0 | RErr e => RErr e end, wake_all Normal woken (put_set semid x w))) w
    | Some SEM_GETVAL => check_and_ctl semid (λ x, Done (get_sem semnum val x, w)) w
    | Some SEM_GETPID => check_and_ctl semid (λ x, Done (get_sem semnum latest_modified_pid x, w)) w
    | Some SEM_GETZCNT => check_and_ctl semid (λ x, Done (ROk (pending_count (semnum mod 2 ^ 16) (pending_const x)), w)) w
    | Some SEM_GETNCNT => check_and_ctl semid (λ x, Done (ROk (pending_count (semnum mod 2 ^ 16) (pending_alter x)), w)) w
    | Some IPC_STAT => check_and_ctl semid (λ x, Done (ROk 0, w)) w
    | Some (IPC_SET | SEM_GETALL | SEM_SETALL) => Panic
    end.

(** [sem_op] returns, or sleeps with its pending operation queued. *)
Inductive Reply : Type :=
| Returned (r : result unit Errno)
| Sleeps (op : nat) (alter : bool).

Definition sem_op (sem_id : Z) (l : list SemBuf) (pid : Z) (w : World) : outcome (Reply * World) :=
  let op := mkOp l (next_op w) pid in
  let w := mkWorld (ids w) (sem_sets w) (<[next_op w := Pending]> (statuses w)) (awake w) (S (next_op w)) in
  let alter := (get_sops_flags l false false 0).1 in
  match sem_sets w !! sem_id with
  | None => Done (Returned (RErr EINVAL), w)
  | Some x =>
      perform_atomic_semop (sems x) op ≫= λ '(r, s),
      match r with
      | RErr e => Done (Returned (RErr e), w)
      | ROk true =>
          let x := set_inner s (pending_alter x) (pending_const x) x in
          if alter then
            do_smart_update op x ≫= λ '(x, woken),
            Done (Returned (ROk tt), wake_all Normal woken (put_set sem_id x w))
          else Done (Returned (ROk tt), put_set sem_id x w)
      | ROk false =>
          let x := if alter then set_inner s (pending_alter x ++ [op]) (pending_const x) x
                   else set_inner s (pending_alter x) (pending_const x ++ [op]) x in
          Done (Sleeps (op_id op) alter, put_set sem_id x w)
      end
  end.

(** [do_sys_semtimedop] with the operations read from user memory *)
Definition do_sys_semtimedop (sem_id : Z) (l : list SemBuf) (pid : Z) (w : World) : outcome (Reply * World) :=
  let nsops := Z.of_nat (length l) in
  if (sem_id <=? 0) || (nsops =? 0) then Done (Returned (RErr EINVAL), w)
  else if SEMOPM <? nsops then Done (Returned (RErr E2BIG), w)
  else sem_op sem_id l pid w.

(** The timer of a call with a timeout wakes it. *)
Definition expire (op : nat) (w : World) : World :=
  mkWorld (ids w) (sem_sets w) (statuses w) ({[op]} ∪ awake w) (next_op w).

(** The rest of [sem_op], after it woke and loaded its status *)
Definition finish (sem_id pid : Z) (alter : bool) (status : Status) (w : World) : result unit Errno * World :=
  match status with
  | Normal => (ROk tt, w)
  | Removed => (RErr EIDRM, w)
  | Pending =>
      match sem_sets w !! sem_id with
      | None => (RErr EINVAL, w)
      | Some x =>
          let retain := filter (λ op, op_pid op ≠ pid) in
          let x := if alter then set_inner (sems x) (retain (pending_alter x)) (pending_const x) x
                   else set_inner (sems x) (pending_alter x) (retain (pending_const x)) x in
          (RErr EAGAIN, put_set sem_id x w)
      end
  end.

Inductive Call : Type :=
| Semget (k n semflags euid egid pid : Z)
| Semctl (semid semnum cmd arg euid pid : Z)
| Semop (sem_id : Z) (l : list SemBuf) (pid : Z)
| Expire (op : nat)
| Finish (sem_id pid : Z) (alter : bool) (status : Status).

Definition call (debug : bool) (c : Call) (w : World) : outcome World :=
  match c with
  | Semget k n semflags euid egid pid => sys_semget k n semflags euid egid pid w ≫= λ '(_, w), Done w
  | Semctl semid semnum cmd arg euid pid => sys_semctl debug semid semnum cmd arg euid pid w ≫= λ '(_, w), Done w
  | Semop sem_id l pid => do_sys_semtimedop sem_id l pid w ≫= λ '(_, w), Done w
  | Expire op => Done (expire op w)
  | Finish sem_id pid alter status => Done (finish sem_id pid alter status w).2
  end.

Fixpoint calls (debug : bool) (cs : list Call) (w : World) : outcome World :=
  match cs with [] => Done w | c :: cs => call debug c w ≫= calls debug cs end.

(** ** Single operations *)

(** What the fields of a [SemBuf] can hold, without [SEM_UNDO]. *)
Record sop_ok (op : SemBuf) : Prop := {
  so_num : 0 ≤ sem_num op < 2 ^ 16;
  so_op : - 2 ^ 15 ≤ sop op < 2 ^ 15;
  so_undo : has_flag (sem_flags op) SEM_UNDO = false
}.

Definition sops_ok (l : list SemBuf) : Prop := Forall sop_ok l ∧ Z.of_nat (length l) ≤ SEMOPM.

(** All values are far from the limits of an [i32]. *)
Definition LIMIT : Z := 2 ^ 25.
Definition bounded (s : list Sem) : Prop := ∀ i x, s !! i = Some x → - LIMIT ≤ val x ≤ LIMIT.

(** The operation can be done on the semaphore now. *)
Definition sop_fits (s : list Sem) (op : SemBuf) : Prop :=
  ∃ x, s !! idx op = Some x ∧ (sop op = 0 → val x = 0) ∧ 0 ≤ val x + sop op ≤ SEMVMX.

#[export] Instance sop_fits_dec s op : Decision (sop_fits s op).
Proof.
  unfold sop_fits. destruct (s !! idx op) as [x|] eqn:E; [| right; by intros (? & ? & _)].
  destruct (decide ((sop op = 0 → val x = 0) ∧ 0 ≤ val x + sop op ≤ SEMVMX)) as [H|H]; [left; by exists x |].
  right. intros (y & [= <-] & Hy). by apply H.
Defined.

(** All operations can be done now. *)
Definition fits (s : list Sem) (l : list SemBuf) : Prop := Forall (sop_fits s) l.

Lemma i32_add_ok a b : - 2 ^ 31 ≤ a + b < 2 ^ 31 → i32_add a b = Done (a + b).
Proof. intros H. unfold i32_add. by rewrite (proj2 (Z.leb_le _ _)), (proj2 (Z.ltb_lt _ _)) by lia. Qed.

Lemma check_sops_ok s l : bounded s → Forall sop_ok l →
  ∃ r, check_sops s l = Done r ∧ (r = ROk true ↔ fits s l).
Proof.
  intros Hs. induction 1 as [|op l Hop Hl IH]; cbn [check_sops]; [exists (ROk true); split; [done | split; [constructor | done]] |].
  assert (∀ r : result bool Errno, r ≠ ROk true → ¬ sop_fits s op → ∃ r', Done r = Done r' ∧ (r' = ROk true ↔ fits s (op :: l))) as Hno.
  { intros r Hr Hf. exists r. split; [done |]. split; [done |]. by inversion 1. }
  destruct (s !! idx op) as [x|] eqn:E; [| apply Hno; [done | intros (? & ? & _); congruence]].
  set (wait := if has_flag _ _ then _ else _). assert (wait ≠ ROk true) as Hw by (unfold wait; by destruct (has_flag _ _)).
  pose proof (Hs _ _ E) as Hb. destruct Hop as [Hnum Ho Hu]. unfold LIMIT in Hb.
  destruct ((sop op =? 0) && negb (val x =? 0)) eqn:Hz.
  { apply Hno; [done |]. intros (y & ? & Hy & _). simplify_eq. apply andb_true_iff in Hz as [H1%Z.eqb_eq H2%negb_true_iff%Z.eqb_neq]. auto. }
  rewrite i32_add_ok by lia. cbn [mbind outcome_bind].
  destruct (Z.ltb_spec (val x + sop op) 0); [apply Hno; [done |]; intros (y & ? & _ & ?); simplify_eq; lia |].
  destruct (Z.ltb_spec SEMVMX (val x + sop op)); [apply Hno; [done |]; intros (y & ? & _ & ?); simplify_eq; lia |].
  rewrite Hu. destruct IH as (r & -> & Hr). exists r. split; [done |]. rewrite Hr. unfold fits. rewrite Forall_cons. split; [| by intros []].
  intros Hf. split; [| done]. exists x. split_and!; try done. intros Hop0. rewrite Hop0 in Hz. cbn in Hz. by apply negb_false_iff, Z.eqb_eq in Hz.
Qed.

(** The sum of the operations on a semaphore. *)
Definition delta (i : nat) (l : list SemBuf) : Z := foldr (λ op d, if decide (idx op = i) then sop op + d else d) 0 l.

Lemma delta_bound i l : Forall sop_ok l → - 2 ^ 15 * Z.of_nat (length l) ≤ delta i l ≤ 2 ^ 15 * Z.of_nat (length l).
Proof. induction 1 as [|op l [_ Hop _] Hl IH]; cbn [delta foldr length]; [lia |]. fold (delta i l). case_decide; lia. Qed.

Lemma apply_sops_ok pid l s : Forall sop_ok l → Forall (λ op, is_Some (s !! idx op)) l →
  (∀ i x k, s !! i = Some x → (k ≤ length l)%nat → - 2 ^ 31 ≤ val x + delta i (take k l) < 2 ^ 31) →
  ∃ s', apply_sops pid l s = Done s' ∧ length s' = length s ∧
    ∀ i x', s' !! i = Some x' → ∃ x, s !! i = Some x ∧ val x' = val x + delta i l ∧
      (x' = x ∨ ∃ op, op ∈ l ∧ idx op = i ∧ sop op ≠ 0).
Proof.
  revert s. induction l as [|op l IH]; intros s Hok Hin Hb; cbn [apply_sops].
  { exists s. split; [done |]. split; [done |]. intros i x Hx. exists x. cbn. split_and!; [done | lia | by left]. }
  apply Forall_cons in Hok as [Hop Hok]. apply Forall_cons in Hin as [[x Hx] Hin']. rewrite Hx. cbn [unwrap mbind outcome_bind].
  destruct (Z.eqb_spec (sop op) 0) as [H0|H0].
  - destruct (IH s) as (s' & -> & Hlen & Hs'); [done | done | |].
    { intros i y k Hy Hk. pose proof (Hb i y (S k) Hy) as Hbk. cbn [take delta foldr length] in Hbk. fold (delta i (take k l)) in Hbk.
      case_decide; [rewrite H0 in Hbk |]; apply Hbk; lia. }
    exists s'. split_and!; try done. intros i x' Hx'. destruct (Hs' i x' Hx') as (y & Hy & Hv & Hc). exists y. split; [done |].
    cbn [delta foldr]. fold (delta i l). split; [case_decide; lia |]. destruct Hc as [?|(o & ? & ? & ?)]; [by left | right; exists o; split_and!; [by right | done | done]].
  - rewrite i32_add_ok. 2: { pose proof (Hb _ _ 1%nat Hx ltac:(cbn; lia)) as H1. cbn in H1. rewrite take_0 in H1. cbn in H1. rewrite decide_True in H1 by done. lia. }
    cbn [mbind outcome_bind]. set (s1 := <[idx op := mkSem (val x + sop op) pid]> s).
    assert (∀ i y', s1 !! i = Some y' → ∃ y, s !! i = Some y ∧ val y' = val y + (if decide (idx op = i) then sop op else 0) ∧ (y' = y ∨ idx op = i)) as H1.
    { intros i y'. unfold s1. rewrite list_lookup_insert_Some. intros [(<- & <- & _)|[Hne Hy]].
      - exists x. cbn. rewrite decide_True by done. auto.
      - exists y'. rewrite decide_False by done. split_and!; [done | lia | by left]. }
    destruct (IH s1) as (s' & -> & Hlen & Hs').
    + done.
    + eapply Forall_impl; [exact Hin' |]. intros o [y Hy]. unfold s1. destruct (decide (idx op = idx o)) as [Ho|Ho].
      * rewrite Ho, list_lookup_insert, decide_True; [done |]. split; [done |]. by apply lookup_lt_Some in Hy.
      * by rewrite list_lookup_insert_ne.
    + intros i y' k Hy' Hk. destruct (H1 i y' Hy') as (y & Hy & Hv & _). pose proof (Hb i y (S k) Hy) as Hbk. cbn [take delta foldr length] in Hbk.
      fold (delta i (take k l)) in Hbk. rewrite Hv. specialize (Hbk ltac:(lia)). case_decide; lia.
    + exists s'. split; [done |]. split; [rewrite Hlen; apply length_insert |]. intros i x' Hx'. destruct (Hs' i x' Hx') as (y' & Hy' & Hv' & Hc).
      destruct (H1 i y' Hy') as (y & Hy & Hv & Hc'). exists y. split; [done |]. cbn [delta foldr]. fold (delta i l).
      split; [case_decide; lia |]. destruct Hc as [->|(o & ? & ? & ?)]; [| right; exists o; split_and!; [by right | done | done]].
      destruct Hc' as [->|Hi]; [by left | right; exists op; split_and!; [by left | done | done]].
Qed.

Lemma delta_untouched i l : (∀ op, op ∈ l → idx op = i → sop op = 0) → delta i l = 0.
Proof.
  induction l as [|op l IH]; intros H; cbn [delta foldr]; [done |]. fold (delta i l).
  rewrite IH by (intros o Ho; apply H; by right). case_decide; [| done]. rewrite (H op); [done | by left | done].
Qed.

(** A semaphore of operations that fit has a small value. *)
Lemma fits_small s l i x op : Forall sop_ok l → fits s l → op ∈ l → idx op = i → s !! i = Some x → - 2 ^ 15 ≤ val x ≤ 2 ^ 16.
Proof.
  intros Hok Hf Hop <- Hx. unfold fits in Hf. rewrite Forall_forall in Hok, Hf. destruct (Hf op Hop) as (y & Hy & _ & Hv). simplify_eq.
  destruct (Hok op Hop) as [_ ? _]. unfold SEMVMX in Hv. lia.
Qed.

Lemma fits_sum s l i x k : sops_ok l → bounded s → fits s l → s !! i = Some x → - LIMIT ≤ val x + delta i (take k l) ≤ LIMIT.
Proof.
  intros [Hok Hlen] Hb Hf Hx. unfold LIMIT, SEMOPM in *. destruct (decide (Exists (λ op, idx op = i) (take k l))) as [He|He].
  - apply Exists_exists in He as (op & Hop & Hi). apply list_elem_of_lookup in Hop as [j Hj].
    apply lookup_take_Some in Hj as [Hj Hjk]. assert (op ∈ l) as Hin by (apply list_elem_of_lookup; by exists j).
    pose proof (fits_small s l i x op Hok Hf Hin Hi Hx). pose proof (delta_bound i (take k l) (Forall_take _ _ _ Hok)) as Hd.
    rewrite length_take in Hd. lia.
  - rewrite delta_untouched; [pose proof (Hb i x Hx); unfold LIMIT in *; lia |]. intros op Hop Hi. exfalso. apply He, Exists_exists. by exists op.
Qed.

(** [perform_atomic_semop] did the operations. *)
Definition performed (l : list SemBuf) (s s' : list Sem) : Prop :=
  length s' = length s ∧ ∀ i x', s' !! i = Some x' → ∃ x, s !! i = Some x ∧ val x' = val x + delta i l ∧
    (x' = x ∨ ∃ op, op ∈ l ∧ idx op = i ∧ sop op ≠ 0).

Lemma perform_ok s op : bounded s → sops_ok (sops op) →
  if decide (fits s (sops op))
  then ∃ s', perform_atomic_semop s op = Done (ROk true, s') ∧ performed (sops op) s s' ∧ bounded s'
  else ∃ r, perform_atomic_semop s op = Done (r, s) ∧ r ≠ ROk true.
Proof.
  intros Hb Hok. unfold perform_atomic_semop. destruct (check_sops_ok s (sops op) Hb) as (r & -> & Hr); [apply Hok |].
  cbn [mbind outcome_bind]. case_decide as Hf.
  - pose proof Hf as Hf'. apply Hr in Hf as ->.
    destruct (apply_sops_ok (op_pid op) (sops op) s) as (s' & -> & Hlen & Hs').
    + apply Hok.
    + eapply Forall_impl; [exact Hf' |]. intros o (x & Hx & _). by exists x.
    + intros i x k Hx _. pose proof (fits_sum s (sops op) i x k Hok Hb Hf' Hx). unfold LIMIT in *. lia.
    + exists s'. split; [done |]. split; [done |]. intros i x' Hx'. destruct (Hs' i x' Hx') as (x & Hx & -> & _).
      rewrite <- (firstn_all (sops op)). by apply (fits_sum s).
  - assert (r ≠ ROk true) as Hne by (intros ->; by apply Hf, Hr). exists r. destruct r as [[]|]; done.
Qed.

(** ** Waiting for zero *)

Definition const_op (op : PendingOp) : Prop := Forall (λ o, sop o = 0) (sops op).
Definition op_ok (op : PendingOp) : Prop := sops_ok (sops op).
Definition stuck (s : list Sem) (op : PendingOp) : Prop := ¬ fits s (sops op).

Lemma performed_const l s s' : Forall (λ o, sop o = 0) l → performed l s s' → s' = s.
Proof.
  intros Hc [Hlen Hs]. apply list_eq. intros i. destruct (s' !! i) as [x'|] eqn:E.
  - destruct (Hs i x' E) as (x & Hx & _ & [->|(o & Ho & _ & Hne)]); [by rewrite Hx |]. rewrite Forall_forall in Hc. by rewrite Hc in Hne.
  - symmetry. apply lookup_ge_None. rewrite <- Hlen. by apply lookup_ge_None.
Qed.

Lemma wake_const_ops_ok l s : bounded s → Forall op_ok l → Forall const_op l →
  ∃ woken, wake_const_ops l s = Done (s, filter (stuck s) l, woken) ∧ woken = filter (λ op, fits s (sops op)) l.
Proof.
  intros Hb Hok Hc. induction l as [|op l IH]; cbn [wake_const_ops]; [by eexists |].
  apply Forall_cons in Hok as [Ho Hok], Hc as [Hcl Hc]. destruct (IH Hok Hc) as (w & E & ->). pose proof (perform_ok s op Hb Ho) as Hp.
  rewrite !filter_cons. destruct (decide (fits s (sops op))) as [Hf|Hf].
  - destruct Hp as (s' & -> & Hs' & _). apply performed_const in Hs' as ->; [| done]. cbn [mbind outcome_bind]. rewrite E. cbn.
    eexists. split; [| done]. unfold stuck at 3. rewrite decide_False by (intros H; by apply H). done.
  - destruct Hp as (r & -> & Hr). cbn [mbind outcome_bind]. rewrite E. cbn. eexists. split; [| done].
    rewrite decide_True by done. destruct r as [[]|]; done.
Qed.

Lemma any_zero_ok l s : Forall (λ op, is_Some (s !! idx op)) l →
  ∃ z, any_zero l s = Done z ∧ (z = true ↔ ∃ op x, op ∈ l ∧ s !! idx op = Some x ∧ val x = 0).
Proof.
  induction 1 as [|op l [x Hx] Hl IH]; cbn [any_zero].
  { exists false. split; [done |]. split; [done |]. by intros (? & ? & ?%not_elem_of_nil & _). }
  rewrite Hx. cbn [unwrap mbind outcome_bind]. destruct (Z.eqb_spec (val x) 0) as [H0|H0].
  - exists true. split; [done |]. split; [| done]. intros _. exists op, x. split_and!; [by left | done | done].
  - destruct IH as (z & -> & Hz). exists z. split; [done |]. rewrite Hz. split.
    + intros (o & y & Ho & Hy). exists o, y. split; [by right | done].
    + intros (o & y & [->|Ho]%elem_of_cons & Hy & Hv); [congruence |]. by exists o, y.
Qed.

(** Operations that do not leave a semaphore at zero let no operation go on that waits for zero. *)
Lemma stuck_kept c l s s' : const_op c → performed l s s' → (∀ op x, op ∈ l → s' !! idx op = Some x → val x ≠ 0) →
  stuck s c → stuck s' c.
Proof.
  intros Hc [_ Hp] Hz Hs Hf. apply Hs. unfold fits, const_op in *. rewrite Forall_forall in Hf, Hc |- *. intros o Ho.
  destruct (Hf o Ho) as (x' & Hx' & H0 & Hr). destruct (Hp _ _ Hx') as (x & Hx & _ & [->|(op & Hop & Hi & _)]); [by exists x |].
  exfalso. eapply (Hz op x' Hop); [by rewrite Hi |]. by apply H0, Hc.
Qed.

Lemma performed_some l s s' : fits s l → performed l s s' → Forall (λ op, is_Some (s' !! idx op)) l.
Proof.
  intros Hf [Hlen _]. eapply Forall_impl; [exact Hf |]. intros op (x & Hx & _). apply lookup_lt_is_Some. rewrite Hlen. by apply lookup_lt_Some in Hx.
Qed.

Lemma smart_zero_ok op const s s' : bounded s' → fits s (sops op) → performed (sops op) s s' →
  Forall op_ok const → Forall const_op const → Forall (stuck s) const →
  ∃ woken, do_smart_wakeup_zero op const s' = Done (s', filter (stuck s') const, woken).
Proof.
  intros Hb Hf Hp Hok Hc Hst. unfold do_smart_wakeup_zero.
  destruct (any_zero_ok (sops op) s') as (z & -> & Hz); [by eapply performed_some |]. cbn [mbind outcome_bind]. destruct z.
  - destruct (wake_const_ops_ok const s' Hb Hok Hc) as (w & -> & _). by eexists.
  - eexists. rewrite filter_all; [done |]. rewrite Forall_forall in Hc, Hst |- *. intros c Hcin.
    eapply stuck_kept; [by apply Hc | done | | by apply Hst]. intros o x Ho Hx H0. destruct Hz as [_ Hz]. discriminate Hz. by exists o, x.
Qed.

Lemma Forall_filter {A} (P Q : A → Prop) `{∀ x, Decision (Q x)} l : Forall P l → Forall P (filter Q l).
Proof. rewrite !Forall_forall. intros H1 x [_ Hx]%list_elem_of_filter. by apply H1. Qed.

Lemma Forall_filter_self {A} (Q : A → Prop) `{∀ x, Decision (Q x)} l : Forall Q (filter Q l).
Proof. rewrite Forall_forall. by intros x [Hx _]%list_elem_of_filter. Qed.

(** The operations that wait for zero, of a set with these semaphores. *)
Record consts_ok (s : list Sem) (const : list PendingOp) : Prop := {
  co_ok : Forall op_ok const;
  co_const : Forall const_op const;
  co_stuck : Forall (stuck s) const
}.

Lemma consts_filter s s' const : consts_ok s const → consts_ok s' (filter (stuck s') const).
Proof. intros [H1 H2 _]. split; [by apply Forall_filter | by apply Forall_filter | apply Forall_filter_self]. Qed.

Lemma update_alter_ok alter const s : bounded s → Forall op_ok alter → consts_ok s const →
  ∃ s' alter' const' woken, update_pending_alter alter const s = Done (s', alter', const', woken) ∧
    bounded s' ∧ length s' = length s ∧ Forall op_ok alter' ∧ consts_ok s' const'.
Proof.
  revert const s. induction alter as [|op l IH]; intros const s Hb Hok Hc; cbn [update_pending_alter].
  { eexists _, _, _, _. by split_and!. }
  apply Forall_cons in Hok as [Ho Hok]. pose proof (perform_ok s op Hb Ho) as Hp. destruct (decide _) as [Hf|Hf].
  - destruct Hp as (s1 & -> & Hp & Hb1). cbn [mbind outcome_bind]. pose proof Hc as [C1 C2 C3].
    destruct (smart_zero_ok op const s s1) as (w & ->); try done. cbn [mbind outcome_bind].
    destruct (IH (filter (stuck s1) const) s1) as (s' & a' & c' & w' & -> & Hb' & Hlen & Ha & Hc'); [done | done | by eapply consts_filter |].
    cbn. eexists _, _, _, _. split; [done |]. split_and!; try done. rewrite Hlen. apply Hp.
  - destruct Hp as (r & -> & Hr). cbn [mbind outcome_bind]. destruct (IH const s) as (s' & a' & c' & w' & E & Hb' & Hlen & Ha & Hc'); try done.
    exists s', (op :: a'), c', w'. rewrite E. split; [by destruct r as [[]|] |]. split_and!; try done. by constructor.
Qed.

(** ** Semaphore sets *)

Record set_ok (x : SemSet) : Prop := {
  se_bounded : bounded (sems x);
  se_nsems : Z.of_nat (length (sems x)) = nsems x;
  se_alter : Forall op_ok (pending_alter x);
  se_consts : consts_ok (sems x) (pending_const x)
}.

Lemma smart_update_ok op s x : set_ok x → fits (sems x) (sops op) → performed (sops op) (sems x) s → bounded s →
  ∃ x' woken, do_smart_update op (set_inner s (pending_alter x) (pending_const x) x) = Done (x', woken) ∧
    set_ok x' ∧ permission x' = permission x.
Proof.
  intros [H1 H2 H3 H4] Hf Hp Hb. unfold do_smart_update. cbn [sems pending_const pending_alter set_inner]. pose proof H4 as [C1 C2 C3].
  assert (∃ w, (if bool_decide (pending_const x = []) then Done (s, pending_const x, [])
    else do_smart_wakeup_zero op (pending_const x) s) = Done (s, filter (stuck s) (pending_const x), w)) as (w & ->).
  { case_bool_decide as Hn; [rewrite Hn; by eexists |]. by apply (smart_zero_ok op _ (sems x) s). }
  cbn [mbind outcome_bind]. pose proof (consts_filter _ s _ H4) as Hc. destruct Hp as [Hlen _].
  case_bool_decide as Hn.
  - eexists _, _. split; [done |]. split; [| done]. split; [done | cbn; by rewrite Hlen | constructor | done].
  - destruct (update_alter_ok (pending_alter x) (filter (stuck s) (pending_const x)) s) as (s' & a' & c' & w' & -> & Hb' & Hl & Ha & Hc'); try done.
    cbn. eexists _, _. split; [done |]. split; [| done]. split; [done | cbn; by rewrite Hl, Hlen | done | done].
Qed.

(** A semaphore set to a value that is not zero keeps the operations that wait for zero stuck. *)
Lemma setval_inv num v pid x : set_ok x → 0 ≤ v ≤ SEMVMX → is_Some (sems x !! Z.to_nat num) →
  let s := <[Z.to_nat num := mkSem v pid]> (sems x) in
  bounded s ∧ length s = length (sems x) ∧ (v ≠ 0 → consts_ok s (pending_const x)).
Proof.
  intros [H1 H2 H3 [C1 C2 C3]] Hv Hn s. unfold SEMVMX in Hv. split; [| split; [apply length_insert |]].
  { intros i z. unfold s. rewrite list_lookup_insert_Some. intros [(_ & <- & _)|[_ Hz]]; [unfold LIMIT; cbn; lia | by eapply H1]. }
  intros H0. split; [done | done |]. rewrite Forall_forall in C2, C3 |- *. intros c Hc Hf. apply (C3 c Hc). pose proof (C2 c Hc) as Hcc.
  unfold fits, const_op in *. rewrite Forall_forall in Hf, Hcc |- *. intros o Ho. destruct (Hf o Ho) as (z & Hz & Hz0 & Hzr).
  unfold s in Hz. rewrite list_lookup_insert_Some in Hz. destruct Hz as [(_ & <- & _)|[_ Hz]]; [| by exists z].
  exfalso. apply H0. cbn in Hz0. by apply Hz0, Hcc.
Qed.

Lemma setval_ok num v pid x : set_ok x → ∃ r x' woken, setval num v pid x = Done (r, x', woken) ∧ set_ok x' ∧ permission x' = permission x.
Proof.
  intros Hx. pose proof Hx as [H1 H2 H3 H4]. unfold setval. destruct (negb _) eqn:Hr; [by eexists _, _, _ |].
  apply negb_false_iff, andb_true_iff in Hr as [Hr1%Z.leb_le Hr2%Z.ltb_lt].
  destruct (sems x !! Z.to_nat num) as [y|] eqn:E; [| by eexists _, _, _].
  destruct (setval_inv num v pid x) as (Hb & Hlen & Hc); [done | lia | by eexists |]. set (s := <[Z.to_nat num := mkSem v pid]> (sems x)) in *.
  destruct (Z.eqb_spec v 0) as [H0|H0].
  - destruct (wake_const_ops_ok (pending_const x) s) as (w & -> & _); [done | apply H4 | apply H4 |]. cbn. eexists _, _, _. split; [done |].
    split; [| done]. split; [done | cbn; by rewrite Hlen | done | by eapply consts_filter].
  - destruct (update_alter_ok (pending_alter x) (pending_const x) s) as (s' & a' & c' & w & -> & Hb' & Hl & Ha & Hc'); [done | done | by apply Hc |].
    cbn. eexists _, _, _. split; [done |]. split; [| done]. split; [done | cbn; by rewrite Hl, Hlen | done | done].
Qed.

(** ** The system *)

Record world_ok (w : World) : Prop := {
  wo_wf : IdAlloc.wf (ids w);
  wo_length : Z.of_nat (length (IdAlloc.bitset (ids w))) = SEMMNI + 1;
  wo_ids : ∀ i, IdAlloc.taken (ids w) i ↔ i = 0%nat ∨ is_Some (sem_sets w !! Z.of_nat i);
  wo_sets : ∀ id x, sem_sets w !! id = Some x → set_ok x ∧ key (permission x) = id ∧ 0 < id ≤ SEMMNI
}.

(** Only the identifiers and the sets matter. *)
Lemma world_ok_same w w' : ids w' = ids w → sem_sets w' = sem_sets w → world_ok w → world_ok w'.
Proof. intros H1 H2 [? ? ? ?]. split; by rewrite ?H1, ?H2. Qed.

Lemma wake_all_same st l w : ids (wake_all st l w) = ids w ∧ sem_sets (wake_all st l w) = sem_sets w.
Proof. by induction l. Qed.

Lemma world_ok_wake st l w : world_ok w → world_ok (wake_all st l w).
Proof. destruct (wake_all_same st l w). by apply world_ok_same. Qed.

Lemma world_ok_put id x x' w : world_ok w → sem_sets w !! id = Some x → set_ok x' → permission x' = permission x →
  world_ok (put_set id x' w).
Proof.
  intros [H1 H2 H3 H4] Hx Hok Hp. split; cbn; [done | done | |].
  - intros i. rewrite H3. destruct (decide (Z.of_nat i = id)) as [<-|Hne]; [| by rewrite lookup_insert_ne].
    rewrite lookup_insert, decide_True by done. rewrite Hx. naive_solver.
  - intros id' y. rewrite lookup_insert_Some. intros [[<- <-]|[_ Hy]]; [| by apply H4]. destruct (H4 id x Hx) as (_ & Hk & Hr).
    split; [done |]. by rewrite Hp.
Qed.

Lemma new_set_ok id n mode euid egid pid : 0 ≤ n → set_ok (new_set id n mode euid egid pid).
Proof.
  intros Hn. split; cbn; [| rewrite length_replicate; lia | constructor | split; constructor].
  intros i x Hx. apply lookup_replicate in Hx as [-> _]. unfold LIMIT. cbn. lia.
Qed.

(** A set is created under a free identifier. *)
Lemma world_ok_create i i' w x : world_ok w → IdAlloc.available (ids w) i → IdAlloc.wf i' →
  IdAlloc.bitset i' = <[i := true]> (IdAlloc.bitset (ids w)) → set_ok x → key (permission x) = Z.of_nat i →
  world_ok (put_set (Z.of_nat i) x (mkWorld i' (sem_sets w) (statuses w) (awake w) (next_op w))).
Proof.
  intros [H1 H2 H3 H4] Ha Hw Hb Hx Hk. pose proof (lookup_lt_Some _ _ _ Ha) as Hlt.
  assert (i ≠ 0%nat) as Hi. { intros ->. assert (IdAlloc.taken (ids w) 0) as Ht by (apply H3; by left). unfold IdAlloc.taken, IdAlloc.available in *. congruence. }
  split; cbn; [done | by rewrite Hb, length_insert | |].
  - intros j. unfold IdAlloc.taken. rewrite Hb. destruct (decide (j = i)) as [->|Hne].
    + rewrite list_lookup_insert, decide_True by done. rewrite lookup_insert, decide_True by done. naive_solver.
    + rewrite list_lookup_insert_ne, lookup_insert_ne by (done || lia). apply H3.
  - intros id y. rewrite lookup_insert_Some. intros [[<- <-]|[_ Hy]]; [| by apply H4]. unfold SEMMNI in *. split_and!; [done | done | lia | lia].
Qed.

Lemma create_sem_set_ok n mode euid egid pid w : world_ok w → 0 ≤ n →
  (create_sem_set n mode euid egid pid w = Done (RErr ENOSPC, w) ∧ ∀ i, 0 < i ≤ SEMMNI → is_Some (sem_sets w !! i)) ∨
  ∃ id w', create_sem_set n mode euid egid pid w = Done (ROk id, w') ∧ world_ok w' ∧ 0 < id ≤ SEMMNI ∧
    sem_sets w !! id = None ∧ sem_sets w' = <[id := new_set id n mode euid egid pid]> (sem_sets w).
Proof.
  intros Hok Hn. pose proof Hok as [H1 H2 H3 H4]. unfold create_sem_set.
  destruct (IdAlloc.alloc_effect (ids w) H1) as [[-> Hno]|(i' & -> & Hw & Ha & Hb)]; cbn [mbind outcome_bind].
  - left. split; [done |]. intros i Hi. destruct (lookup_lt_is_Some_2 (IdAlloc.bitset (ids w)) (Z.to_nat i)) as [b E]; [unfold SEMMNI in *; lia |].
    destruct b; [| by destruct (Hno (Z.to_nat i))]. destruct (proj1 (H3 (Z.to_nat i)) E) as [|Hs]; [lia |]. by rewrite Z2Nat.id in Hs by lia.
  - right. set (i := IdAlloc.first_available_id (ids w)) in *. pose proof (world_ok_create i i' w (new_set (Z.of_nat i) n mode euid egid pid)) as Hc.
    eexists _, _. split; [done |]. assert (sem_sets w !! Z.of_nat i = None) as Hnone.
    { apply eq_None_not_Some. intros Hs. assert (IdAlloc.taken (ids w) i) as Ht by (apply H3; by right). unfold IdAlloc.taken, IdAlloc.available in *. congruence. }
    assert (world_ok (put_set (Z.of_nat i) (new_set (Z.of_nat i) n mode euid egid pid) (mkWorld i' (sem_sets w) (statuses w) (awake w) (next_op w)))) as Hw'
      by (apply Hc; try done; by apply new_set_ok).
    split; [done |]. split; [| done]. eapply (wo_sets _ Hw'). cbn. by rewrite lookup_insert, decide_True.
Qed.

Lemma create_with_id_ok id n mode euid egid pid w : world_ok w → 0 ≤ n → 0 < id → sem_sets w !! id = None →
  ∃ r w', create_sem_set_with_id id n mode euid egid pid w = Done (r, w') ∧ world_ok w' ∧
    if SEMMNI <? id then r = RErr ENOENT ∧ w' = w
    else r = ROk tt ∧ sem_sets w' = <[id := new_set id n mode euid egid pid]> (sem_sets w).
Proof.
  intros Hok Hn Hid Hnone. pose proof Hok as [H1 H2 H3 H4]. unfold create_sem_set_with_id. destruct (Z.ltb_spec SEMMNI id); [by eexists _, _ |].
  destruct (lookup_lt_is_Some_2 (IdAlloc.bitset (ids w)) (Z.to_nat id)) as [b E]; [unfold SEMMNI in *; lia |].
  assert (b = false) as ->. { destruct b; [| done]. destruct (proj1 (H3 (Z.to_nat id)) E) as [|[? Hs]]; [lia |]. rewrite Z2Nat.id in Hs by lia. congruence. }
  destruct (IdAlloc.alloc_specific (ids w) (Z.to_nat id)) as [[o i']|] eqn:Ea.
  2: { unfold IdAlloc.alloc_specific, IdAlloc.bit_get, IdAlloc.bit_set in Ea. rewrite E in Ea. cbn in Ea. apply lookup_lt_Some in E. by rewrite decide_True in Ea. }
  pose proof (IdAlloc.wf_alloc_specific _ _ _ _ H1 Ea) as Hw.
  unfold IdAlloc.alloc_specific, IdAlloc.bit_get, IdAlloc.bit_set in Ea. rewrite E in Ea. cbn in Ea. pose proof (lookup_lt_Some _ _ _ E) as Hlt.
  rewrite decide_True in Ea by done. cbn in Ea. injection Ea as <- Hi'. cbn [mbind outcome_bind].
  eexists _, _. split; [done |]. split; [| done].
  pose proof (world_ok_create (Z.to_nat id) i' w (new_set id n mode euid egid pid)) as Hc. rewrite Z2Nat.id in Hc by lia.
  apply Hc; try done; [by rewrite <- Hi' | by apply new_set_ok].
Qed.

Lemma free_ok debug s i : IdAlloc.taken s i → ∃ s', IdAlloc.free debug s i = Done s'.
Proof.
  intros Ht. unfold IdAlloc.free, IdAlloc.debug_assert, IdAlloc.is_allocated, IdAlloc.bit_get, IdAlloc.bit_set.
  rewrite Ht. pose proof (lookup_lt_Some _ _ _ Ht) as Hlt.
  destruct (decide (i < length (IdAlloc.bitset s))%nat) as [_|]; [| done]. destruct debug; by eexists.
Qed.

Lemma drop_set_ok debug id x w : world_ok w → sem_sets w !! id = Some x →
  ∃ w', drop_set debug x (mkWorld (ids w) (delete id (sem_sets w)) (statuses w) (awake w) (next_op w)) = Done w' ∧
    world_ok w' ∧ sem_sets w' = delete id (sem_sets w) ∧
    ∀ op, op ∈ pending_alter x ∨ op ∈ pending_const x → statuses w' !! op_id op = Some Removed ∧ op_id op ∈ awake w'.
Proof.
  intros [H1 H2 H3 H4] Hx. destruct (H4 id x Hx) as (_ & Hk & Hr). unfold drop_set. set (w1 := mkWorld _ _ _ _ _).
  set (w2 := wake_all Removed (pending_const x) (wake_all Removed (pending_alter x) w1)).
  assert (ids w2 = ids w ∧ sem_sets w2 = delete id (sem_sets w)) as [E1 E2].
  { unfold w2. destruct (wake_all_same Removed (pending_const x) (wake_all Removed (pending_alter x) w1)) as [-> ->].
    destruct (wake_all_same Removed (pending_alter x) w1) as [-> ->]. done. }
  assert (∀ l u op, op ∈ l ∨ statuses u !! op_id op = Some Removed ∧ op_id op ∈ awake u →
    statuses (wake_all Removed l u) !! op_id op = Some Removed ∧ op_id op ∈ awake (wake_all Removed l u)) as Hwake.
  { intros l u op. induction l as [|o l IH]; intros Ho; cbn [wake_all foldr statuses awake]; [destruct Ho as [?%not_elem_of_nil|]; done |].
    fold (wake_all Removed l u). destruct (decide (op_id o = op_id op)) as [->|Hne]; [rewrite lookup_insert, decide_True by done; set_solver |].
    rewrite lookup_insert_ne by done. destruct IH as [IH1 IH2]; [destruct Ho as [[->|Ho]%elem_of_cons|]; [done | by left | by right] |].
    split; [done | set_solver]. }
  rewrite E1, E2, Hk. assert (IdAlloc.taken (ids w) (Z.to_nat id)) as Ht by (apply H3; right; rewrite Z2Nat.id by lia; by eexists).
  destruct (free_ok debug _ _ Ht) as (i' & E). rewrite E. cbn. eexists. split; [done |].
  pose proof (IdAlloc.wf_free _ _ _ _ H1 E) as Hw. destruct (IdAlloc.free_effect _ _ _ _ E) as (Hlt & Hb & _).
  split; [| split; [done | intros op Hop; apply Hwake; destruct Hop as [Hop|Hop]; [right; apply Hwake; by left | by left]]].
  split; cbn; [done | by rewrite Hb, length_insert | |].
  - intros j. unfold IdAlloc.taken. rewrite Hb. destruct (decide (Z.to_nat id = j)) as [<-|Hne].
    + rewrite list_lookup_insert, decide_True, Z2Nat.id by (done || lia). rewrite lookup_delete, decide_True by done.
      split; [done |]. intros [?|[? ?]]; [lia | done].
    + rewrite list_lookup_insert_ne, lookup_delete_ne by (done || lia). apply H3.
  - intros j y. rewrite lookup_delete_Some. intros [_ Hy]. by apply H4.
Qed.

Definition call_ok (c : Call) : Prop :=
  match c with
  | Semctl _ _ cmd _ _ _ => cmd_of cmd ≠ Some IPC_SET ∧ cmd_of cmd ≠ Some SEM_GETALL ∧ cmd_of cmd ≠ Some SEM_SETALL
  | Semop _ l _ => Forall sop_ok l
  | _ => True
  end.

Lemma semget_ok k n fl euid egid pid w : world_ok w → ∃ r w', sys_semget k n fl euid egid pid w = Done (r, w') ∧ world_ok w'.
Proof.
  intros Hok. unfold sys_semget. destruct ((n <? 0) || (SEMMSL <? n)) eqn:Hn; [by eexists _, _ |].
  apply orb_false_iff in Hn as [Hn%Z.ltb_ge _]. destruct (Z.ltb_spec k 0); [by eexists _, _ |].
  destruct ((k =? 0) || _) eqn:Hk.
  - destruct (n =? 0); [by eexists _, _ |]. destruct (create_sem_set_ok n (Z.land fl 0x1FF) euid egid pid w Hok) as [[-> _]|(id & w' & -> & Hw & _)]; [done | by eexists _, _ ..].
  - apply orb_false_iff in Hk as [Hk%Z.eqb_neq _]. unfold check_sem. destruct (sem_sets w !! k) as [x|] eqn:E.
    + destruct (nsems x <? n); by eexists _, _.
    + destruct (has_flag fl IPC_CREAT); [| by eexists _, _]. destruct (n =? 0); [by eexists _, _ |].
      destruct (create_with_id_ok k n (Z.land fl 0x1FF) euid egid pid w Hok) as (r & w' & -> & Hw & _); [lia | lia | done |]. by eexists _, _.
Qed.

Lemma check_and_ctl_ok {T} semid (f : SemSet → outcome (result T Errno * World)) w : world_ok w →
  (∀ x, sem_sets w !! semid = Some x → ∃ r w', f x = Done (r, w') ∧ world_ok w') →
  ∃ r w', check_and_ctl semid f w = Done (r, w') ∧ world_ok w'.
Proof.
  intros Hok Hf. unfold check_and_ctl, check_sem. destruct (sem_sets w !! semid) as [x|]; [by apply Hf | by eexists _, _].
Qed.

Lemma semctl_ok debug semid semnum cmd arg euid pid w : world_ok w → call_ok (Semctl semid semnum cmd arg euid pid) →
  ∃ r w', sys_semctl debug semid semnum cmd arg euid pid w = Done (r, w') ∧ world_ok w'.
Proof.
  intros Hok (C1 & C2 & C3). unfold sys_semctl. destruct (_ || _); [by eexists _, _ |].
  destruct (cmd_of cmd) as [[]|]; try done; [.. | by eexists _, _]; try (apply check_and_ctl_ok; [done | intros; by eexists _, _]).
  - destruct (sem_sets w !! semid) as [x|] eqn:E; [| by eexists _, _]. destruct (_ || _); [| by eexists _, _].
    destruct (drop_set_ok debug semid x w Hok E) as (w' & -> & Hw & _). by eexists _, _.
  - destruct (as_i32 arg <? 0); [by eexists _, _ |]. apply check_and_ctl_ok; [done |]. intros x Hx.
    destruct (setval_ok semnum (as_i32 arg) pid x) as (r & x' & wk & -> & Hs & Hp); [by eapply wo_sets |]. cbn.
    eexists _, _. split; [done |]. apply world_ok_wake. by eapply world_ok_put.
Qed.

Lemma sops_flags_spec l a d m : (get_sops_flags l a d m).1 = a || negb (forallb (λ op, sop op =? 0) l).
Proof.
  revert a d m. induction l as [|op l IH]; intros a d m; cbn; [by rewrite orb_false_r |].
  destruct (sop op =? 0); rewrite IH; [done |]. by rewrite orb_true_r.
Qed.

Lemma forallb_zero l : forallb (λ op, sop op =? 0) l = true → Forall (λ o, sop o = 0) l.
Proof. induction l as [|op l IH]; cbn; [constructor |]. intros [?%Z.eqb_eq ?]%andb_true_iff. constructor; auto. Qed.

Lemma semop_ok sem_id l pid w : world_ok w → Forall sop_ok l → ∃ r w', do_sys_semtimedop sem_id l pid w = Done (r, w') ∧ world_ok w'.
Proof.
  intros Hok Hl. unfold do_sys_semtimedop. destruct (_ || _); [by eexists _, _ |]. destruct (Z.ltb_spec SEMOPM (Z.of_nat (length l))) as [|Hlen]; [by eexists _, _ |].
  assert (sops_ok l) as Hso by done. unfold sem_op. rewrite sops_flags_spec. cbn [orb sem_sets].
  set (w1 := mkWorld _ _ _ _ _). assert (world_ok w1) as Hw1 by (by apply (world_ok_same w)).
  destruct (sem_sets w !! sem_id) as [x|] eqn:E; [| by eexists _, _]. destruct (wo_sets w Hok sem_id x E) as (Hx & _ & _).
  set (op := mkOp l (next_op w) pid). pose proof (perform_ok (sems x) op) as Hp. specialize (Hp (se_bounded x Hx) Hso).
  destruct (decide (fits (sems x) (sops op))) as [Hf|Hf].
  - destruct Hp as (s & -> & Hp & Hb). cbn [mbind outcome_bind]. destruct (negb _) eqn:Ha.
    + destruct (smart_update_ok op s x Hx Hf Hp Hb) as (x' & wk & -> & Hx' & Hperm). cbn. eexists _, _. split; [done |].
      apply world_ok_wake. by apply (world_ok_put sem_id x x' w1).
    + apply negb_false_iff, forallb_zero in Ha. assert (s = sems x) as -> by (by eapply performed_const).
      eexists _, _. split; [done |]. apply (world_ok_put sem_id x _ w1); [done | done | | done]. by destruct x.
  - destruct Hp as (r & -> & Hr). cbn [mbind outcome_bind]. destruct r as [[]|e]; [done | | by eexists _, _].
    eexists _, _. split; [done |]. apply (world_ok_put sem_id x _ w1); [done | done | | by destruct (negb _)]. destruct Hx as [X1 X2 X3 [C1 C2 C3]].
    destruct (negb _) eqn:Ha.
    + split; cbn; try done. apply Forall_app. split; [done | by constructor].
    + apply negb_false_iff, forallb_zero in Ha. split; cbn; try done. by split; apply Forall_app; (split; [| constructor]).
Qed.

Lemma finish_ok sem_id pid alter st w : world_ok w → world_ok (finish sem_id pid alter st w).2.
Proof.
  intros Hok. unfold finish. destruct st; [done | | done]. destruct (sem_sets w !! sem_id) as [x|] eqn:E; [| done]. cbn.
  destruct (wo_sets w Hok sem_id x E) as ([X1 X2 X3 [C1 C2 C3]] & _ & _).
  apply (world_ok_put sem_id x); [done | done | | by destruct alter]. destruct alter; split; cbn; try done.
  - by apply Forall_filter.
  - split; by apply Forall_filter.
Qed.

Lemma call_keeps_ok debug c w : world_ok w → call_ok c → ∃ w', call debug c w = Done w' ∧ world_ok w'.
Proof.
  intros Hok Hc. destruct c as [k n fl eu eg p|i n cmd a eu p|i l p|op|i p al st]; cbn [call].
  - destruct (semget_ok k n fl eu eg p w Hok) as (r & w' & -> & Hw). by eexists.
  - destruct (semctl_ok debug i n cmd a eu p w Hok Hc) as (r & w' & -> & Hw). by eexists.
  - destruct (semop_ok i l p w Hok Hc) as (r & w' & -> & Hw). by eexists.
  - eexists. split; [done |]. by apply (world_ok_same w).
  - eexists. split; [done |]. by apply finish_ok.
Qed.


(** ** Simple operations *)

Definition in_range (s : list Sem) : Prop := ∀ i y, s !! i = Some y → 0 ≤ val y ≤ SEMVMX.

(** The values only went down. *)
Definition lower (s s' : list Sem) : Prop := ∀ i y', s' !! i = Some y' → ∃ y, s !! i = Some y ∧ val y' ≤ val y.

Definition dec_op (op : PendingOp) : Prop := ∃ o, sops op = [o] ∧ sop o < 0.

Lemma lower_trans s1 s2 s3 : lower s1 s2 → lower s2 s3 → lower s1 s3.
Proof.
  intros H12 H23 i y3 H3. destruct (H23 i y3 H3) as (y2 & H2 & ?). destruct (H12 i y2 H2) as (y1 & H1 & ?). exists y1. split; [done | lia].
Qed.

Lemma stuck_lower s s' op : in_range s → dec_op op → lower s s' → stuck s op → stuck s' op.
Proof.
  intros Hr (o & Ho & Hneg) Hl Hs Hf. apply Hs. unfold fits in *. rewrite Ho in *. rewrite Forall_singleton in *.
  destruct Hf as (y' & Hy' & _ & Hv). destruct (Hl _ _ Hy') as (y & Hy & Hle). pose proof (Hr _ _ Hy). exists y. split; [done |]. split; lia.
Qed.

Lemma performed_single o s s' : fits s [o] → performed [o] s s' → in_range s →
  in_range s' ∧ (sop o < 0 → lower s s').
Proof.
  intros Hf [_ Hp] Hr. unfold fits in Hf. rewrite Forall_singleton in Hf. destruct Hf as (x & Hx & _ & Hv).
  assert (∀ i y', s' !! i = Some y' → ∃ y, s !! i = Some y ∧ val y' = val y + (if decide (idx o = i) then sop o else 0)) as H.
  { intros i y' Hy'. destruct (Hp i y' Hy') as (y & Hy & Hd & _). exists y. split; [done |]. rewrite Hd. cbn. case_decide; lia. }
  split.
  - intros i y' Hy'. destruct (H i y' Hy') as (y & Hy & ->). case_decide as Hi; [subst; simplify_eq; lia |]. pose proof (Hr i y Hy). lia.
  - intros Hneg i y' Hy'. destruct (H i y' Hy') as (y & Hy & ->). exists y. split; [done |]. case_decide; lia.
Qed.

Lemma update_dec_ok alter const s s' alter' const' woken : bounded s → Forall op_ok alter → consts_ok s const →
  in_range s → Forall dec_op alter → update_pending_alter alter const s = Done (s', alter', const', woken) →
  in_range s' ∧ lower s s' ∧ Forall dec_op alter' ∧ Forall (stuck s') alter'.
Proof.
  revert const s s' alter' const' woken. induction alter as [|op l IH]; intros const s s' alter' const' woken Hb Hok Hc Hr Hd; cbn [update_pending_alter].
  { intros [= <- <- <- <-]. split_and!; [done | | constructor | constructor]. intros i y Hy. exists y. split; [done | lia]. }
  apply Forall_cons in Hok as [Ho Hok], Hd as [Hop Hd]. pose proof (perform_ok s op Hb Ho) as Hp. destruct (decide _) as [Hf|Hf].
  - destruct Hp as (s1 & -> & Hp & Hb1). cbn [mbind outcome_bind]. pose proof Hc as [C1 C2 C3].
    destruct (smart_zero_ok op const s s1) as (w & ->); try done. cbn [mbind outcome_bind].
    destruct Hop as (o & Eo & Hneg). rewrite Eo in Hf, Hp. destruct (performed_single o s s1 Hf Hp Hr) as [Hr1 Hl1].
    destruct (update_pending_alter l _ s1) as [[[[s2 a2] c2] w2]|] eqn:E; [| done]. intros [= <- <- <- <-].
    destruct (IH _ _ _ _ _ _ Hb1 Hok (consts_filter _ s1 _ Hc) Hr1 Hd E) as (R1 & R2 & R3 & R4).
    split_and!; try done. eapply lower_trans; [by apply Hl1 | done].
  - destruct Hp as (r & -> & Hrr). cbn [mbind outcome_bind]. destruct (update_pending_alter l const s) as [[[[s2 a2] c2] w2]|] eqn:E; [| by destruct r as [[]|]].
    destruct (IH _ _ _ _ _ _ Hb Hok Hc Hr Hd E) as (R1 & R2 & R3 & R4). intros Heq.
    assert (s2 = s' ∧ alter' = op :: a2) as [-> ->] by (destruct r as [[]|]; cbn in Heq; by simplify_eq).
    split_and!; [done | done | by constructor |]. constructor; [| done]. by apply (stuck_lower s).
Qed.

Record simple_set (x : SemSet) : Prop := {
  ss_range : in_range (sems x);
  ss_dec : Forall dec_op (pending_alter x);
  ss_stuck : Forall (stuck (sems x)) (pending_alter x)
}.

Lemma setval_simple num v pid x r x' woken : set_ok x → simple_set x → setval num v pid x = Done (r, x', woken) → simple_set x'.
Proof.
  intros [X1 X2 X3 X4] Hx. pose proof Hx as [H1 H2 H3]. unfold setval. destruct (negb _) eqn:Hr; [by intros [= <- <- <-] |].
  apply negb_false_iff, andb_true_iff in Hr as [Hr1%Z.leb_le Hr2%Z.ltb_lt]. unfold SEMVMX in Hr2.
  destruct (sems x !! Z.to_nat num) as [y|] eqn:E; [| by intros [= <- <- <-]].
  destruct (setval_inv num v pid x) as (Hb & _ & Hc1); [done | unfold SEMVMX; lia | by eexists |]. set (s := <[Z.to_nat num := mkSem v pid]> (sems x)) in *.
  assert (in_range s) as Hrs.
  { intros i z. unfold s. rewrite list_lookup_insert_Some. intros [(_ & <- & _)|[_ Hz]]; [unfold SEMVMX; cbn; lia | by eapply H1]. }
  destruct (Z.eqb_spec v 0) as [H0|H0].
  - destruct (wake_const_ops_ok (pending_const x) s) as (w & -> & _); [done | apply X4 | apply X4 |]. cbn. intros [= <- <- <-].
    split; [done | done |]. cbn. rewrite Forall_forall in H2, H3 |- *. intros op Hop. apply (stuck_lower (sems x)); [done | by apply H2 | | by apply H3].
    intros i z. unfold s. rewrite list_lookup_insert_Some. intros [(<- & <- & _)|[_ Hz]]; [| exists z; split; [done | lia]].
    exists y. split; [done |]. pose proof (H1 _ _ E). cbn. lia.
  - destruct (update_pending_alter _ _ s) as [[[[s2 a2] c2] w2]|] eqn:E2; [| done]. cbn. intros [= <- <- <-].
    destruct (update_dec_ok _ _ _ _ _ _ _ Hb X3 (Hc1 H0) Hrs H2 E2) as (R1 & R2 & R3 & R4). by split.
Qed.

Lemma smart_update_simple op o s x x' woken : set_ok x → simple_set x → sops op = [o] → fits (sems x) [o] → performed [o] (sems x) s → bounded s →
  do_smart_update op (set_inner s (pending_alter x) (pending_const x) x) = Done (x', woken) → simple_set x'.
Proof.
  intros [X1 X2 X3 X4] [S1 S2 S3] Eo Hf Hp Hb. unfold do_smart_update. cbn [sems pending_const pending_alter set_inner]. pose proof X4 as [C1 C2 C3].
  assert (∃ w, (if bool_decide (pending_const x = []) then Done (s, pending_const x, [])
    else do_smart_wakeup_zero op (pending_const x) s) = Done (s, filter (stuck s) (pending_const x), w)) as (w & ->).
  { case_bool_decide as Hn; [rewrite Hn; by eexists |]. apply (smart_zero_ok op _ (sems x) s); by rewrite ?Eo. }
  cbn [mbind outcome_bind]. pose proof (consts_filter _ s _ X4) as Hc. destruct (performed_single o (sems x) s Hf Hp S1) as [Hr _].
  case_bool_decide as Hn; [intros [= <- <-]; by split |].
  destruct (update_pending_alter _ _ s) as [[[[s2 a2] c2] w2]|] eqn:E2; [| done]. cbn. intros [= <- <-].
  destruct (update_dec_ok _ _ _ _ _ _ _ Hb X3 Hc Hr S2 E2) as (R1 & R2 & R3 & R4). by split.
Qed.

Definition simple_call (c : Call) : Prop :=
  call_ok c ∧ match c with Semop _ l _ => length l = 1%nat | _ => True end.

Definition simple_world (w : World) : Prop := ∀ id x, sem_sets w !! id = Some x → simple_set x.

Lemma simple_put id x w : simple_world w → simple_set x → simple_world (put_set id x w).
Proof. intros Hw Hx i y. cbn. rewrite lookup_insert_Some. intros [[_ <-]|[_ Hy]]; [done | by eapply Hw]. Qed.

Lemma simple_wake st l w : simple_world w → simple_world (wake_all st l w).
Proof. unfold simple_world. by destruct (wake_all_same st l w) as [_ ->]. Qed.

Lemma simple_new id n mode euid egid pid : simple_set (new_set id n mode euid egid pid).
Proof. split; [| constructor | constructor]. intros i x Hx. apply lookup_replicate in Hx as [-> _]. unfold SEMVMX. cbn. lia. Qed.

Lemma semget_simple k n fl euid egid pid w r w' : simple_world w → sys_semget k n fl euid egid pid w = Done (r, w') → simple_world w'.
Proof.
  intros Hw. unfold sys_semget, create_sem_set, create_sem_set_with_id.
  repeat (case_match; simplify_eq/=; try (by intros [= <- <-]));
    try (destruct (IdAlloc.alloc _) as [[[i|] i']|]; cbn; intros [= <- <-]; [by apply simple_put; [| apply simple_new] | done]);
    try (destruct (IdAlloc.alloc_specific _ _) as [[[i|] i']|]; cbn; intros [= <- <-]; [by apply simple_put; [| apply simple_new] | done]).
Qed.

Lemma check_and_ctl_simple {T} semid (f : SemSet → outcome (result T Errno * World)) w r w' : simple_world w →
  (∀ x, sem_sets w !! semid = Some x → f x = Done (r, w') → simple_world w') →
  check_and_ctl semid f w = Done (r, w') → simple_world w'.
Proof.
  intros Hw Hf. unfold check_and_ctl, check_sem. destruct (sem_sets w !! semid) as [x|]; [by apply Hf | by intros [= <- <-]].
Qed.

Lemma semctl_simple debug semid semnum cmd arg euid pid w r w' : world_ok w → simple_world w →
  sys_semctl debug semid semnum cmd arg euid pid w = Done (r, w') → simple_world w'.
Proof.
  intros Hok Hw. unfold sys_semctl. destruct (_ || _); [by intros [= <- <-] |].
  destruct (cmd_of cmd) as [[]|]; try done; [.. | by intros [= <- <-]]; try (apply check_and_ctl_simple; [done | by intros x _ [= <- <-]]).
  - destruct (sem_sets w !! semid) as [x|] eqn:E; [| by intros [= <- <-]]. destruct (_ || _); [| by intros [= <- <-]].
    destruct (drop_set_ok debug semid x w Hok E) as (w1 & -> & _ & Hs & _). intros [= <- <-].
    intros id y. rewrite Hs, lookup_delete_Some. intros [_ Hy]. by eapply Hw.
  - destruct (as_i32 arg <? 0); [by intros [= <- <-] |]. apply check_and_ctl_simple; [done |]. intros x Hx.
    destruct (setval semnum (as_i32 arg) pid x) as [[[r1 x1] wk]|] eqn:E; [| done]. cbn. intros [= <- <-].
    apply simple_wake, simple_put; [done |]. eapply setval_simple; [by eapply wo_sets | by eapply Hw | done].
Qed.

(** A single operation that has to wait takes from the semaphore, or waits for zero. *)
Lemma check_single_wait s o : in_range s → check_sops s [o] = Done (ROk false) → sop o ≤ 0.
Proof.
  intros Hr. cbn [check_sops]. destruct (s !! idx o) as [x|] eqn:E; [| done]. pose proof (Hr _ _ E).
  destruct ((sop o =? 0) && _) eqn:Hz; [apply andb_true_iff in Hz as [?%Z.eqb_eq _]; lia |].
  unfold i32_add. destruct ((- 2 ^ 31 <=? _) && _); [| done]. cbn [mbind outcome_bind]. destruct (Z.ltb_spec (val x + sop o) 0); [lia |].
  destruct (SEMVMX <? val x + sop o); [done |]. by destruct (has_flag _ SEM_UNDO).
Qed.

Lemma semop_simple sem_id l pid w r w' : world_ok w → simple_world w → Forall sop_ok l → length l = 1%nat →
  do_sys_semtimedop sem_id l pid w = Done (r, w') → simple_world w'.
Proof.
  intros Hok Hw Hl H1. destruct l as [|o []]; try done. unfold do_sys_semtimedop. destruct (_ || _); [by intros [= <- <-] |].
  destruct (SEMOPM <? _); [by intros [= <- <-] |]. assert (sops_ok [o]) as Hso by (split; [done | cbn; unfold SEMOPM; lia]).
  unfold sem_op. rewrite sops_flags_spec. cbn [orb sem_sets]. set (w1 := mkWorld _ _ _ _ _). assert (simple_world w1) as Hw1 by done.
  destruct (sem_sets w !! sem_id) as [x|] eqn:E; [| by intros [= <- <-]]. destruct (wo_sets w Hok sem_id x E) as (Hx & _ & _).
  pose proof (Hw sem_id x E) as Hs. pose proof Hs as [S1 S2 S3]. set (op := mkOp [o] (next_op w) pid).
  pose proof (perform_ok (sems x) op (se_bounded x Hx) Hso) as Hp. destruct (decide (fits (sems x) (sops op))) as [Hf|Hf].
  - destruct Hp as (s & -> & Hp & Hb). cbn [mbind outcome_bind]. destruct (negb _) eqn:Ha.
    + destruct (do_smart_update _ _) as [[x' wk]|] eqn:Eu; [| done]. cbn. intros [= <- <-]. apply simple_wake, simple_put; [done |].
      exact (smart_update_simple op o s x x' wk Hx Hs eq_refl Hf Hp Hb Eu).
    + apply negb_false_iff, forallb_zero in Ha. assert (s = sems x) as -> by (by eapply performed_const).
      intros [= <- <-]. apply simple_put; [done |]. by split.
  - destruct Hp as (rr & Ep & Hr). rewrite Ep. cbn [mbind outcome_bind]. destruct rr as [[]|e]; [done | | by intros [= <- <-]].
    intros [= <- <-]. apply simple_put; [done |]. assert (sop o ≤ 0) as Hneg.
    { unfold perform_atomic_semop in Ep. apply (check_single_wait (sems x)); [done |]. change (sops op) with [o] in Ep.
      destruct (check_sops (sems x) [o]) as [[[]|]|]; cbn [mbind outcome_bind] in Ep; [| done | done | done].
      by destruct (apply_sops (op_pid op) [o] (sems x)). }
    destruct (negb _) eqn:Ha; [| by split]. apply negb_true_iff in Ha. cbn in Ha. rewrite andb_true_r in Ha. apply Z.eqb_neq in Ha.
    split; cbn; [done | |]; apply Forall_app; (split; [done | constructor; [| constructor]]); [exists o; split; [done | lia] | done].
Qed.

Lemma finish_simple sem_id pid alter st w : simple_world w → simple_world (finish sem_id pid alter st w).2.
Proof.
  intros Hw. unfold finish. destruct st; [done | | done]. destruct (sem_sets w !! sem_id) as [x|] eqn:E; [| done]. cbn.
  pose proof (Hw sem_id x E) as [S1 S2 S3]. apply simple_put; [done |]. destruct alter; split; cbn; try done; by apply Forall_filter.
Qed.

Lemma call_simple debug c w w' : world_ok w → simple_world w → simple_call c → call debug c w = Done w' → simple_world w'.
Proof.
  intros Hok Hw [Hc Hs]. destruct c as [k n fl eu eg p|i n cmd a eu p|i l p|op|i p al st]; cbn [call].
  - destruct (sys_semget k n fl eu eg p w) as [[r w1]|] eqn:E; [| done]. intros [= <-]. by eapply semget_simple.
  - destruct (sys_semctl debug i n cmd a eu p w) as [[r w1]|] eqn:E; [| done]. intros [= <-]. by eapply semctl_simple.
  - destruct (do_sys_semtimedop i l p w) as [[r w1]|] eqn:E; [| done]. intros [= <-]. by eapply semop_simple.
  - by intros [= <-].
  - intros [= <-]. by apply finish_simple.
Qed.

Lemma calls_simple debug cs w : world_ok w → simple_world w → Forall simple_call cs →
  ∃ w', calls debug cs w = Done w' ∧ world_ok w' ∧ simple_world w'.
Proof.
  intros Hok Hw Hc. revert w Hok Hw. induction Hc as [|c cs Hc Hcs IH]; intros w Hok Hw; cbn [calls]; [by eexists |].
  destruct (call_keeps_ok debug c w Hok (proj1 Hc)) as (w1 & E & H1). rewrite E. cbn. apply IH; [done |]. exact (call_simple debug c w w1 Hok Hw Hc E).
Qed.

Lemma init_ok : ∃ w, init = Done w ∧ world_ok w ∧ simple_world w.
Proof.
  unfold init. pose proof (IdAlloc.wf_with_capacity (Z.to_nat (SEMMNI + 1))) as Hw. set (n := Z.to_nat (SEMMNI + 1)) in *.
  assert (Z.of_nat n = SEMMNI + 1 ∧ (0 < n)%nat) as [Hn H0] by (unfold n, SEMMNI; lia). clearbody n.
  assert (IdAlloc.bitset (IdAlloc.with_capacity n) = replicate n false) as Hb.
  { cbn. unfold IdAlloc.resize_false. by rewrite take_nil, Nat.sub_0_r. }
  destruct (IdAlloc.alloc_effect _ Hw) as [[_ Hno]|(s & -> & Hws & _ & Hs)].
  - exfalso. apply (Hno 0%nat). unfold IdAlloc.available. rewrite Hb. by apply lookup_replicate_2.
  - cbn. eexists. split; [done |]. split; [| intros id x Hx; by destruct (lookup_empty_Some (M := gmap Z) id x)]. change (IdAlloc.first_available_id _) with 0%nat in Hs.
    split; cbn; [done | by rewrite Hs, length_insert, Hb, length_replicate | |].
    + intros i. unfold IdAlloc.taken. rewrite Hs, Hb. rewrite lookup_empty. destruct i as [|i].
      * rewrite list_lookup_insert, decide_True; [naive_solver |]. rewrite length_replicate. done.
      * rewrite list_lookup_insert_ne by done. rewrite lookup_replicate. split; [by intros [? _] |]. intros [?|[? ?]]; done.
    + intros id x Hx. by destruct (lookup_empty_Some (M := gmap Z) id x).
Qed.

Lemma delta_nodup l op : NoDup (idx <$> l) → op ∈ l → delta (idx op) l = sop op.
Proof.
  induction l as [|o l IH]; intros Hnd Hop; [by apply not_elem_of_nil in Hop |]. cbn [fmap list_fmap] in Hnd. apply NoDup_cons in Hnd as [Hni Hnd].
  cbn [delta foldr]. fold (delta (idx op) l). apply elem_of_cons in Hop as [->|Hop].
  - rewrite decide_True by done. rewrite delta_untouched; [lia |]. intros o' Ho' Hi. exfalso. apply Hni. rewrite <- Hi. by apply list_elem_of_fmap_2.
  - rewrite decide_False; [by apply IH |]. intros Hi. apply Hni. rewrite Hi. by apply list_elem_of_fmap_2.
Qed.

Lemma performed_nodup l s s' : NoDup (idx <$> l) → fits s l → performed l s s' → in_range s → in_range s'.
Proof.
  intros Hnd Hf [_ Hp] Hr i y' Hy'. destruct (Hp i y' Hy') as (y & Hy & -> & _). destruct (decide (Exists (λ op, idx op = i) l)) as [He|He].
  - apply Exists_exists in He as (op & Hop & <-). rewrite delta_nodup by done. unfold fits in Hf. rewrite Forall_forall in Hf.
    destruct (Hf op Hop) as (z & Hz & _ & Hv). by simplify_eq.
  - rewrite delta_untouched; [pose proof (Hr i y Hy); lia |]. intros op Hop Hi. exfalso. apply He, Exists_exists. by exists op.
Qed.

(** ** The properties *)

Definition run (cs : list Call) : outcome World := init ≫= calls true cs.

(** A [semop] is atomic: [perform_atomic_semop] succeeds exactly when every operation
    fits the values at the start, then adds to every semaphore the sum of the operations
    on it, and else changes nothing; no addition overflows. With at most one operation per
    semaphore all values stay between 0 and [SEMVMX]. *)
Theorem semop_atomic s op : bounded s → sops_ok (sops op) →
  ∃ r s', perform_atomic_semop s op = Done (r, s') ∧ bounded s' ∧ (r = ROk true ↔ fits s (sops op)) ∧
    (r = ROk true → performed (sops op) s s') ∧ (r ≠ ROk true → s' = s) ∧
    (NoDup (idx <$> sops op) → in_range s → in_range s').
Proof.
  intros Hb Hok. pose proof (perform_ok s op Hb Hok) as Hp. destruct (decide (fits s (sops op))) as [Hf|Hf].
  - destruct Hp as (s' & -> & Hp & Hb'). exists (ROk true), s'. split_and!; try done. intros Hnd Hr. by eapply performed_nodup.
  - destruct Hp as (r & -> & Hr). exists r, s. by split_and!.
Qed.


(** As long as every [semop] has a single operation, no sleeping operation of any kind
    could go on, and all values are between 0 and [SEMVMX]: no wake-up is lost. *)
Theorem simple_waiters_woken debug cs : Forall simple_call cs → ∃ w, (init ≫= calls debug cs) = Done w ∧
  ∀ id x, sem_sets w !! id = Some x → in_range (sems x) ∧
    ∀ op, op ∈ pending_alter x ++ pending_const x → ¬ fits (sems x) (sops op).
Proof.
  intros Hc. destruct init_ok as (w0 & -> & H0 & S0). cbn. destruct (calls_simple debug cs w0 H0 S0 Hc) as (w & -> & [W1 W2 W3 W4] & Hs).
  exists w. split; [done |]. intros id x Hx. destruct (W4 id x Hx) as ([X1 X2 X3 [C1 C2 C3]] & _). destruct (Hs id x Hx) as [S1 S2 S3].
  split; [done |]. rewrite Forall_forall in C3, S3. intros op [Hop|Hop]%elem_of_app; [by apply S3 | by apply C3].
Qed.

(** A set of two semaphores, of the values 0 and 0; operations on them. *)
Definition two : list Call := [Semget 0 2 0x1FF 0 0 1].
Definition set_to (num v : Z) : Call := Semctl 1 num 16 v 0 1.
Definition sop_of (num n : Z) : SemBuf := mkSemBuf num n 0.

(** The set 1 after the calls. *)
Definition the_set (cs : list Call) : option SemSet :=
  match run cs with Done w => sem_sets w !! 1 | Panic => None end.
Definition values (cs : list Call) : option (list Z) := (λ x, val <$> sems x) <$> the_set cs.

Definition after (cs : list Call) (P : World → Prop) : Prop := match run cs with Done w => P w | Panic => False end.

(** An operation of the set sleeps although it could go on. *)
Definition strands (cs : list Call) : Prop :=
  ∃ x op, the_set cs = Some x ∧ op ∈ pending_alter x ∧ fits (sems x) (sops op).

(** What goes wrong with several operations in one [semop] and with timeouts. (1) Two
    decrements of one semaphore are checked one by one, and leave it negative; two
    increments leave it above [SEMVMX]. (2) An operation asleep is not tried again after
    one behind it in the queue made it possible, nor after a semaphore is set to zero. (3)
    A timeout of one thread discards the operations of the other threads of its process,
    which are never woken. (4) A call that read its status before the operation was done
    reports a timeout afterwards. (5) [SEM_UNDO] and three commands of [semctl] panic. *)
Theorem semop_flaws :
  values (two ++ [set_to 0 1; Semop 1 [sop_of 0 (-1); sop_of 0 (-1)] 1]) = Some [-1; 0] ∧
  values (two ++ [Semop 1 [sop_of 0 32767; sop_of 0 32767] 1]) = Some [65534; 0] ∧
  strands (two ++ [Semop 1 [sop_of 1 (-1)] 1; Semop 1 [sop_of 0 (-1); sop_of 1 1] 2; set_to 0 1]) ∧
  strands (two ++ [set_to 0 1; Semop 1 [sop_of 0 0; sop_of 1 1] 1; set_to 0 0]) ∧
  after (two ++ [Semop 1 [sop_of 0 (-1)] 7; Semop 1 [sop_of 1 (-1)] 7; Expire 0; Finish 1 7 true Pending]) (λ w,
    match sem_sets w !! 1 with Some x => length (pending_alter x) = 0%nat | None => False end ∧
    statuses w !! 1%nat = Some Pending ∧ 1%nat ∉ awake w) ∧
  after (two ++ [Semop 1 [sop_of 0 (-1)] 7; Expire 0]) (λ w,
    statuses w !! 0%nat = Some Pending ∧
    match do_sys_semtimedop 1 [sop_of 0 1] 8 w with
    | Done (Returned (ROk tt), w') => statuses w' !! 0%nat = Some Normal ∧ (finish 1 7 true Pending w').1 = RErr EAGAIN
    | _ => False
    end) ∧
  run (two ++ [Semop 1 [mkSemBuf 0 1 SEM_UNDO] 1]) = Panic ∧
  Forall (λ cmd, run [Semctl 1 0 cmd 0 0 1] = Panic) [1; 13; 17].
Proof.
  split; [vm_compute; reflexivity |]. split; [vm_compute; reflexivity |].
  split; [eexists _, _; split; [vm_compute; reflexivity | split; [left | apply (bool_decide_unpack _); vm_compute; exact I]] |].
  split; [eexists _, _; split; [vm_compute; reflexivity | split; [left | apply (bool_decide_unpack _); vm_compute; exact I]] |].
  split; [unfold after; vm_compute; split_and!; [reflexivity .. | congruence] |].
  split; [vm_compute; split_and!; reflexivity |].
  split; [vm_compute; reflexivity |]. repeat constructor; vm_compute; reflexivity.
Qed.

(** ** Witnesses *)

Lemma semop_atomic_witness : ∃ r s', perform_atomic_semop [mkSem 1 0] (mkOp [sop_of 0 (-1)] 0 7) = Done (r, s') ∧ in_range s'.
Proof.
  destruct (semop_atomic [mkSem 1 0] (mkOp [sop_of 0 (-1)] 0 7)) as (r & s' & E & _ & _ & _ & _ & H).
  - intros [|i] x [= <-]. unfold LIMIT. cbn. lia.
  - split; [constructor; [by split | constructor] | by vm_compute].
  - exists r, s'. split; [done |]. apply H; [repeat constructor; set_solver |]. intros [|i] x [= <-]. unfold SEMVMX. cbn. lia.
Defined.


Lemma simple_waiters_woken_witness : ∃ w, (init ≫= calls true [Semget 0 2 0x1FF 0 0 1; Semop 1 [sop_of 0 (-1)] 1]) = Done w ∧
  ∀ id x, sem_sets w !! id = Some x → in_range (sems x).
Proof.
  destruct (simple_waiters_woken true [Semget 0 2 0x1FF 0 0 1; Semop 1 [sop_of 0 (-1)] 1]) as (w & E & H).
  - repeat constructor; done.
  - exists w. split; [done |]. intros id x Hx. by apply (H id x).
Defined.
End Semaphore.
