(* ===== verification/Credentials.v ===== *)
(** * Credentials

    The identities and capabilities of a thread ([kernel/src/process/credentials/]), the
    system calls and the part of [execve] that change them, and the two checks that rest
    on them: the permission to access a file ([kernel/src/fs/utils/inode.rs]) and to send
    a signal ([kernel/src/process/kill.rs]). A thread alone changes its credentials. *)

From S2P Require Import Prelude.
Local Open Scope Z_scope.

Module Credentials.

Inductive Errno : Type := EINVAL | EPERM | EACCES.

(** [CapSet], by its bits *)
Definition CHOWN : Z := 2 ^ 0.
Definition DAC_OVERRIDE : Z := 2 ^ 1.
Definition DAC_READ_SEARCH : Z := 2 ^ 2.
Definition FOWNER : Z := 2 ^ 3.
Definition FSETID : Z := 2 ^ 4.
Definition KILL : Z := 2 ^ 5.
Definition SETPCAP : Z := 2 ^ 8.
Definition LINUX_IMMUTABLE : Z := 2 ^ 9.
Definition MKNOD : Z := 2 ^ 27.
Definition MAC_OVERRIDE : Z := 2 ^ 32.
Definition ALL_CAPS : Z := Z.ones 41.
Definition has_cap (s c : Z) : bool := Z.land s c =? c.

Record Cred : Type := mkCred {
  ruid : Z; euid : Z; suid : Z; fsuid : Z;
  rgid : Z; egid : Z; sgid : Z; fsgid : Z;
  groups : gset Z;
  inheritable : Z; permitted : Z; effective : Z;
  keep_capabilities : bool
}.

Definition is_root (uid : Z) : bool := uid =? 0.

Definition new (uid gid capset : Z) : Cred :=
  mkCred uid uid uid uid gid gid gid gid {[gid]} capset capset capset false.
Definition new_root : Cred := new 0 0 ALL_CAPS.

Definition is_privileged (c : Cred) : bool := is_root (euid c).

(** ** Setters of single fields *)

Definition set_resuid_fields (r e s : Z) (c : Cred) : Cred :=
  mkCred r e s (fsuid c) (rgid c) (egid c) (sgid c) (fsgid c) (groups c) (inheritable c) (permitted c) (effective c) (keep_capabilities c).
Definition set_fsuid_field (f : Z) (c : Cred) : Cred :=
  mkCred (ruid c) (euid c) (suid c) f (rgid c) (egid c) (sgid c) (fsgid c) (groups c) (inheritable c) (permitted c) (effective c) (keep_capabilities c).
Definition set_gids (r e s f : Z) (c : Cred) : Cred :=
  mkCred (ruid c) (euid c) (suid c) (fsuid c) r e s f (groups c) (inheritable c) (permitted c) (effective c) (keep_capabilities c).
Definition set_groups (g : gset Z) (c : Cred) : Cred :=
  mkCred (ruid c) (euid c) (suid c) (fsuid c) (rgid c) (egid c) (sgid c) (fsgid c) g (inheritable c) (permitted c) (effective c) (keep_capabilities c).
Definition set_caps (i p e : Z) (c : Cred) : Cred :=
  mkCred (ruid c) (euid c) (suid c) (fsuid c) (rgid c) (egid c) (sgid c) (fsgid c) (groups c) i p e (keep_capabilities c).
Definition set_keep_capabilities (k : bool) (c : Cred) : Cred :=
  mkCred (ruid c) (euid c) (suid c) (fsuid c) (rgid c) (egid c) (sgid c) (fsgid c) (groups c) (inheritable c) (permitted c) (effective c) k.

(** ** User identities *)

Definition set_resuid_unchecked (r e s : option Z) (c : Cred) : Cred :=
  let new_ruid := default (ruid c) r in
  let new_euid := default (euid c) e in
  let new_suid := default (suid c) s in
  let had_root := is_root (ruid c) || is_root (euid c) || is_root (suid c) in
  let all_nonroot := negb (is_root new_ruid) && negb (is_root new_euid) && negb (is_root new_suid) in
  let old_euid := euid c in
  let c := set_resuid_fields new_ruid new_euid new_suid c in
  if had_root && all_nonroot then
    let c := if keep_capabilities c then c else set_caps 0 0 (effective c) c in
    set_caps (inheritable c) (permitted c) 0 c
  else
    let c := if is_root old_euid && negb (is_root new_euid) then set_caps (inheritable c) (permitted c) 0 c else c in
    if negb (is_root old_euid) && is_root new_euid then set_caps (inheritable c) (permitted c) (permitted c) c else c.

(** The capabilities on files that a change of [fsuid] takes away. *)
Definition FS_CAPS : Z :=
  Z.lor CHOWN (Z.lor DAC_OVERRIDE (Z.lor FOWNER (Z.lor DAC_READ_SEARCH (Z.lor FSETID (Z.lor LINUX_IMMUTABLE (Z.lor MAC_OVERRIDE MKNOD)))))).

Definition set_fsuid_unchecked (f : Z) (c : Cred) : Cred :=
  let old := fsuid c in
  let c := set_fsuid_field f c in
  if is_root old && negb (is_root f) then set_caps (inheritable c) (permitted c) (Z.ldiff (effective c) FS_CAPS) c else c.

Definition set_uid (uid : Z) (c : Cred) : Cred :=
  if is_privileged c then set_fsuid_unchecked uid (set_resuid_unchecked (Some uid) (Some uid) (Some uid) c)
  else if negb (uid =? ruid c) && negb (uid =? euid c) && negb (uid =? suid c) then c
  else set_fsuid_unchecked uid (set_resuid_unchecked None (Some uid) None c).

(** The argument is one of the identities, if it is given. *)
Definition among (o : option Z) (l : list Z) : bool :=
  match o with Some x => bool_decide (x ∈ l) | None => true end.

(** [check_uid_perm]; [false] is [EPERM] *)
Definition check_uid_perm (r e s : option Z) (ruid_may_be_old_suid : bool) (c : Cred) : bool :=
  is_privileged c ||
  (among r (if ruid_may_be_old_suid then [ruid c; euid c; suid c] else [ruid c; euid c]) &&
   among e [ruid c; euid c; suid c] && among s [ruid c; euid c; suid c]).

Definition set_reuid (r e : option Z) (c : Cred) : option Cred :=
  if check_uid_perm r e None false c then
    let should_set_suid := bool_decide (is_Some r) || match e with Some e => negb (e =? ruid c) | None => false end in
    let c := set_resuid_unchecked r e None c in
    let c := if should_set_suid then set_resuid_fields (ruid c) (euid c) (euid c) c else c in
    Some (set_fsuid_unchecked (euid c) c)
  else None.

Definition set_resuid (r e s : option Z) (c : Cred) : option Cred :=
  if check_uid_perm r e s true c then
    let c := set_resuid_unchecked r e s c in Some (set_fsuid_unchecked (euid c) c)
  else None.

Definition set_fsuid (f : option Z) (c : Cred) : option Cred :=
  match f with
  | None => Some c
  | Some f =>
      if is_privileged c then Some (set_fsuid_field f c)
      else if among (Some f) [ruid c; euid c; suid c] then Some (set_fsuid_unchecked f c) else None
  end.

Definition set_euid (e : Z) (c : Cred) : Cred := set_resuid_unchecked None (Some e) None c.
Definition reset_suid (c : Cred) : Cred := set_resuid_unchecked None None (Some (euid c)) c.

(** ** Group identities *)

Definition set_gid (g : Z) (c : Cred) : Cred :=
  if is_privileged c then set_gids g g g g c else set_gids (rgid c) g (sgid c) g c.

Definition check_gid_perm (r e s : option Z) (rgid_may_be_old_sgid : bool) (c : Cred) : bool :=
  is_privileged c ||
  (among r (if rgid_may_be_old_sgid then [rgid c; egid c; sgid c] else [rgid c; egid c]) &&
   among e [rgid c; egid c; sgid c] && among s [rgid c; egid c; sgid c]).

Definition set_resgid_unchecked (r e s : option Z) (c : Cred) : Cred :=
  set_gids (default (rgid c) r) (default (egid c) e) (default (sgid c) s) (fsgid c) c.

Definition set_regid (r e : option Z) (c : Cred) : option Cred :=
  if check_gid_perm r e None false c then
    let should_set_sgid := bool_decide (is_Some r) || match e with Some e => negb (e =? rgid c) | None => false end in
    let c := set_resgid_unchecked r e None c in
    let c := if should_set_sgid then set_gids (rgid c) (egid c) (egid c) (fsgid c) c else c in
    Some (set_gids (rgid c) (egid c) (sgid c) (egid c) c)
  else None.

Definition set_resgid (r e s : option Z) (c : Cred) : option Cred :=
  if check_gid_perm r e s true c then
    let c := set_resgid_unchecked r e s c in Some (set_gids (rgid c) (egid c) (sgid c) (egid c) c)
  else None.

Definition set_fsgid (f : option Z) (c : Cred) : option Cred :=
  match f with
  | None => Some c
  | Some f =>
      if is_privileged c || among (Some f) [rgid c; egid c; sgid c]
      then Some (set_gids (rgid c) (egid c) (sgid c) f c) else None
  end.

(** ** System calls *)

(** [None] for an argument that is not positive *)
Definition positive (n : Z) : option Z := if 0 <? n then Some n else None.
Definition nonnegative (n : Z) : option Z := if n <? 0 then None else Some n.

(** A call returns its result, or an error and the old credentials. *)
Definition returns (v : Z) (o : option Cred) (c : Cred) : result Z Errno * Cred :=
  match o with Some c' => (ROk v, c') | None => (RErr EPERM, c) end.

Definition sys_setuid (uid : Z) (c : Cred) : result Z Errno * Cred :=
  if uid <? 0 then (RErr EINVAL, c) else (ROk 0, set_uid uid c).
Definition sys_setreuid (r e : Z) (c : Cred) : result Z Errno * Cred :=
  returns 0 (set_reuid (positive r) (positive e) c) c.
Definition sys_setresuid (r e s : Z) (c : Cred) : result Z Errno * Cred :=
  returns 0 (set_resuid (positive r) (positive e) (positive s) c) c.
Definition sys_setfsuid (uid : Z) (c : Cred) : result Z Errno * Cred :=
  returns (fsuid c) (set_fsuid (nonnegative uid) c) c.
Definition sys_setgid (gid : Z) (c : Cred) : result Z Errno * Cred :=
  if gid <? 0 then (RErr EINVAL, c) else (ROk 0, set_gid gid c).
Definition sys_setregid (r e : Z) (c : Cred) : result Z Errno * Cred :=
  returns 0 (set_regid (positive r) (positive e) c) c.
Definition sys_setresgid (r e s : Z) (c : Cred) : result Z Errno * Cred :=
  returns 0 (set_resgid (positive r) (positive e) (positive s) c) c.
Definition sys_setfsgid (gid : Z) (c : Cred) : result Z Errno * Cred :=
  returns (fsgid c) (set_fsgid (nonnegative gid) c) c.

Definition NGROUPS_MAX : Z := 65536.

(** [sys_setgroups] with the list read from user memory *)
Definition sys_setgroups (l : list Z) (c : Cred) : result Z Errno * Cred :=
  if NGROUPS_MAX <? Z.of_nat (length l) then (RErr EINVAL, c) else (ROk 0, set_groups (list_to_set l) c).

Definition LINUX_CAPABILITY_VERSION_3 : Z := 0x20080522.
Definition make_kernel_cap (low high : Z) : Z := Z.land (Z.lor low (Z.shiftl high 32)) (Z.shiftl 1 (40 + 1) - 1).

(** [sys_capset] with its header and data read from user memory *)
Definition sys_capset (version header_pid pid : Z) (eff perm inh : Z) (c : Cred) : result Z Errno * Cred :=
  if negb (version =? LINUX_CAPABILITY_VERSION_3) then (RErr EINVAL, c)
  else if negb (header_pid =? 0) && negb (header_pid =? pid) then (RErr EINVAL, c)
  else if negb (has_cap (permitted c) SETPCAP) then (RErr EPERM, c)
  else (ROk 0, set_caps (make_kernel_cap inh 0) (make_kernel_cap perm 0) (make_kernel_cap eff 0) c).

(** [prctl] with [PR_SET_KEEPCAPS] *)
Definition prctl_set_keepcaps (keep : Z) (c : Cred) : result Z Errno * Cred :=
  if 1 <? keep then (RErr EINVAL, c) else (ROk 0, set_keep_capabilities (negb (keep =? 0)) c).

(** [apply_caps_from_exec] for a file with these owners, if its set-user-ID and
    set-group-ID bits are set *)
Definition apply_caps_from_exec (setuid setgid : option Z) (c : Cred) : Cred :=
  let c := match setuid with Some uid => set_euid uid c | None => c end in
  let c := reset_suid c in
  let c := match setgid with Some gid => set_gids (rgid c) gid (sgid c) (fsgid c) c | None => c end in
  let c := set_gids (rgid c) (egid c) (egid c) (fsgid c) c in
  set_keep_capabilities false c.

(** ** Checks *)

Record Metadata : Type := mkMetadata { m_mode : Z; m_uid : Z; m_gid : Z }.

Definition MAY_EXEC : Z := 1.
Definition MAY_WRITE : Z := 2.
Definition MAY_READ : Z := 4.

(** One class of the mode, in bits 0 to 2, grants the access. *)
Definition class_grants (perm class : Z) : bool :=
  negb (has_cap perm MAY_READ && negb (Z.testbit class 2) ||
        has_cap perm MAY_WRITE && negb (Z.testbit class 1) ||
        has_cap perm MAY_EXEC && negb (Z.testbit class 0)).

(** [check_permission]; [false] is [EACCES] *)
Definition check_permission (perm : Z) (m : Metadata) (c : Cred) : bool :=
  let some_exec := Z.testbit (m_mode m) 6 || Z.testbit (m_mode m) 3 || Z.testbit (m_mode m) 0 in
  let override := has_cap (effective c) DAC_OVERRIDE in
  let perm1 := if override then Z.ldiff perm (Z.lor MAY_READ MAY_WRITE) else perm in
  if override && has_cap perm1 MAY_EXEC && negb some_exec then false
  else
    let perm := if override && has_cap perm1 MAY_EXEC then Z.ldiff perm1 MAY_EXEC else perm1 in
    let perm := Z.land perm (Z.lor MAY_READ (Z.lor MAY_WRITE MAY_EXEC)) in
    if m_uid m =? fsuid c then class_grants perm (Z.shiftr (m_mode m) 6)
    else if m_gid m =? fsgid c then class_grants perm (Z.shiftr (m_mode m) 3)
    else class_grants perm (m_mode m).

Definition SIGCONT : Z := 18.

(** [check_signal_perm] to another process; [false] is [EPERM] *)
Definition check_signal_perm (target : Cred) (same_session : bool) (signum : option Z) (c : Cred) : bool :=
  (euid c =? suid target) || (euid c =? ruid target) || (ruid c =? suid target) || (ruid c =? ruid target) ||
  has_cap (effective c) KILL ||
  match signum with Some n => (n =? SIGCONT) && same_session | None => false end.

(** ** Runs *)

Inductive Call : Type :=
| Setuid (uid : Z) | Setreuid (r e : Z) | Setresuid (r e s : Z) | Setfsuid (uid : Z)
| Setgid (gid : Z) | Setregid (r e : Z) | Setresgid (r e s : Z) | Setfsgid (gid : Z)
| Setgroups (l : list Z)
| Capset (version header_pid pid eff perm inh : Z)
| Keepcaps (keep : Z)
| Execve (setuid setgid : option Z).

Definition call (x : Call) (c : Cred) : result Z Errno * Cred :=
  match x with
  | Setuid uid => sys_setuid uid c
  | Setreuid r e => sys_setreuid r e c
  | Setresuid r e s => sys_setresuid r e s c
  | Setfsuid uid => sys_setfsuid uid c
  | Setgid gid => sys_setgid gid c
  | Setregid r e => sys_setregid r e c
  | Setresgid r e s => sys_setresgid r e s c
  | Setfsgid gid => sys_setfsgid gid c
  | Setgroups l => sys_setgroups l c
  | Capset v h p e pe i => sys_capset v h p e pe i c
  | Keepcaps k => prctl_set_keepcaps k c
  | Execve u g => (ROk 0, apply_caps_from_exec u g c)
  end.

Definition calls (xs : list Call) (c : Cred) : Cred := foldl (λ c x, (call x c).2) c xs.

(** The owners of the set-user-ID programs that were run. *)
Definition owners (xs : list Call) : list Z :=
  omap (λ x, match x with Execve u _ => u | _ => None end) xs.

(** ** Ordinary credentials *)

Definition ids (c : Cred) : list Z := [ruid c; euid c; suid c; fsuid c].

(** No identity is root, and capabilities cannot be given. *)
Record ordinary (c : Cred) : Prop := {
  or_ids : 0 ∉ ids c;
  or_caps : has_cap (permitted c) SETPCAP = false
}.

Definition same_caps (c c' : Cred) : Prop :=
  inheritable c' = inheritable c ∧ permitted c' = permitted c ∧ effective c' = effective c.

(** The call kept the capabilities, and brought in no identity but these. *)
Definition plain (l : list Z) (c c' : Cred) : Prop := same_caps c c' ∧ ids c' ⊆ ids c ++ l.

Lemma is_root_false u : u ≠ 0 → is_root u = false.
Proof. apply Z.eqb_neq. Qed.

Lemma unchecked_plain r e s c : 0 ∉ ids c → default (euid c) e ≠ 0 →
  set_resuid_unchecked r e s c = set_resuid_fields (default (ruid c) r) (default (euid c) e) (default (suid c) s) c.
Proof.
  intros Hc He. unfold ids in Hc. rewrite !not_elem_of_cons in Hc. unfold set_resuid_unchecked.
  rewrite !(is_root_false (ruid c)), !(is_root_false (euid c)), !(is_root_false (suid c)), !(is_root_false (default (euid c) e)) by (intuition congruence).
  done.
Qed.

Lemma fsuid_plain f c : 0 ∉ ids c → set_fsuid_unchecked f c = set_fsuid_field f c.
Proof.
  intros Hc. unfold ids in Hc. rewrite !not_elem_of_cons in Hc. unfold set_fsuid_unchecked. by rewrite (is_root_false (fsuid c)) by (intuition congruence).
Qed.

Lemma ordinary_unprivileged c : ordinary c → is_privileged c = false.
Proof. intros [Hi _]. unfold ids in Hi. rewrite !not_elem_of_cons in Hi. apply is_root_false. intuition congruence. Qed.

(** A plain change to these user identities. *)
Lemma plain_fields r e s f c l : ordinary c → [r; e; s; f] ⊆ ids c ++ l → 0 ∉ l →
  let c' := set_fsuid_field f (set_resuid_fields r e s c) in ordinary c' ∧ plain l c c'.
Proof.
  intros [H1 H2] Hsub H0 c'. split; [| done]. split; [| done]. intros Hin. apply Hsub in Hin. apply elem_of_app in Hin as [?|?]; done.
Qed.

Lemma among_sub o l x : among o l = true → x ∈ l → default x o ∈ l.
Proof. destruct o as [y|]; cbn; [| done]. by intros H%bool_decide_eq_true. Qed.

Lemma positive_default x n : x ≠ 0 → default x (positive n) ≠ 0.
Proof. intros Hx. unfold positive. destruct (Z.ltb_spec 0 n); cbn; [lia | done]. Qed.

Lemma uid_sub c x : x ∈ [ruid c; euid c; suid c] → x ∈ ids c ++ [].
Proof. unfold ids. set_solver. Qed.

Lemma sub_nonzero c x : ordinary c → x ∈ ids c ++ [] → x ≠ 0.
Proof. intros [Hi _]. rewrite app_nil_r. intros Hx ->. done. Qed.

Lemma plain_same c c' l : ids c' = ids c → same_caps c c' → ordinary c → ordinary c' ∧ plain l c c'.
Proof.
  intros Hi (E1 & E2 & E3) [H1 H2]. split; [split; [by rewrite Hi | by rewrite E2] |]. split; [done |]. rewrite Hi. set_solver.
Qed.

(** A change through [set_resuid_unchecked] and [set_fsuid_unchecked]. *)
Lemma plain_unchecked r e s c l : ordinary c → 0 ∉ l → default (ruid c) r ∈ ids c ++ l → default (euid c) e ∈ ids c ++ l → default (suid c) s ∈ ids c ++ l →
  ∀ s', s' = default (suid c) s ∨ s' = default (euid c) e → ∀ f, f ∈ ids c ++ l →
  let c1 := set_resuid_unchecked r e s c in
  let c2 := set_resuid_fields (ruid c1) (euid c1) s' c1 in
  ordinary (set_fsuid_unchecked f c2) ∧ plain l c (set_fsuid_unchecked f c2) ∧
  ruid c1 = default (ruid c) r ∧ euid c1 = default (euid c) e ∧ suid c1 = default (suid c) s.
Proof.
  intros Hc H0 Hr He Hs s' Hs' f Hf c1 c2. assert (∀ x, x ∈ ids c ++ l → x ≠ 0) as Hne.
  { intros x Hx ->. apply elem_of_app in Hx as [Hx|Hx]; [by destruct Hc | done]. }
  assert (c1 = set_resuid_fields (default (ruid c) r) (default (euid c) e) (default (suid c) s) c) as E
    by (apply unchecked_plain; [apply Hc | by apply Hne]).
  assert (s' ∈ ids c ++ l) as Hs'' by (destruct Hs' as [-> | ->]; done).
    unfold c2. rewrite E. cbn [ruid euid suid set_resuid_fields].
  assert (∀ y, y ∈ ids c ++ l → 0 ≠ y) as Hne' by (intros y Hy Hz; by apply (Hne y Hy)).
  rewrite fsuid_plain.
  - pose proof (plain_fields (default (ruid c) r) (default (euid c) e) s' f c l Hc) as [P1 P2]; [| done | by split_and!].
    intros x. rewrite !elem_of_cons. intros [->|[->|[->|[->|[]%not_elem_of_nil]]]]; done.
  - unfold ids. cbn. rewrite !not_elem_of_cons. split_and!; auto; [| apply not_elem_of_nil]. apply Hne', elem_of_app. left. unfold ids. rewrite !elem_of_cons. auto.
Qed.

Definition call_ok (x : Call) : Prop := match x with Execve (Some u) _ => u ≠ 0 | _ => True end.

Lemma setuid_plain uid c : ordinary c → ordinary (sys_setuid uid c).2 ∧ plain [] c (sys_setuid uid c).2.
Proof.
  intros Hc. unfold sys_setuid. destruct (uid <? 0); cbn [snd]; [by apply plain_same |]. unfold set_uid. rewrite ordinary_unprivileged by done.
  destruct (negb (uid =? ruid c) && negb (uid =? euid c) && negb (uid =? suid c)) eqn:E; [by apply plain_same |].
  assert (uid ∈ ids c ++ []) as Hu.
  { apply uid_sub. rewrite !elem_of_cons. destruct (Z.eqb_spec uid (ruid c)); [auto |]. destruct (Z.eqb_spec uid (euid c)); [auto |].
    destruct (Z.eqb_spec uid (suid c)); [auto | done]. }
  destruct (plain_unchecked None (Some uid) None c [] Hc) with (s' := suid c) (f := uid) as (P1 & P2 & E1 & E2 & E3); try done; try (cbn; apply uid_sub; set_solver); [set_solver | by left |].
  cbn [default] in *. rewrite <- E3 in P1, P2. by destruct (set_resuid_unchecked None (Some uid) None c).
Qed.

Lemma ids_in c l x : x = ruid c ∨ x = euid c ∨ x = suid c ∨ x = fsuid c → x ∈ ids c ++ l.
Proof. intros H. apply elem_of_app. left. unfold ids. rewrite !elem_of_cons. tauto. Qed.

Lemma among_in o c l x : among o [ruid c; euid c; suid c] = true → x ∈ ids c ++ l → default x o ∈ ids c ++ l.
Proof.
  destruct o as [y|]; cbn; [| done]. intros H%bool_decide_eq_true _. apply ids_in. rewrite !elem_of_cons in H.
  destruct H as [?|[?|[?|[]%not_elem_of_nil]]]; auto.
Qed.

Lemma among_weaken o c : among o [ruid c; euid c] = true → among o [ruid c; euid c; suid c] = true.
Proof. destruct o as [y|]; cbn; [| done]. rewrite !bool_decide_eq_true, !elem_of_cons. tauto. Qed.

Lemma setreuid_plain r e c : ordinary c → ordinary (sys_setreuid r e c).2 ∧ plain [] c (sys_setreuid r e c).2.
Proof.
  intros Hc. unfold sys_setreuid, set_reuid, check_uid_perm. rewrite ordinary_unprivileged by done. cbn [orb].
  destruct (among _ _ && _ && _) eqn:Ha; cbn [returns snd]; [| by apply plain_same].
  apply andb_true_iff in Ha as [[Hr%among_weaken He]%andb_true_iff _].
  set (c1 := set_resuid_unchecked (positive r) (positive e) None c).
  set (s' := if bool_decide (is_Some (positive r)) || match positive e with Some e => negb (e =? ruid c) | None => false end then euid c1 else suid c1).
  assert (default (euid c) (positive e) ∈ ids c ++ []) as He' by (apply among_in; [done | apply ids_in; auto]).
  assert (euid c1 = default (euid c) (positive e) ∧ suid c1 = suid c) as [E2 E3].
  { unfold c1. rewrite unchecked_plain; [done | apply Hc |]. by apply (sub_nonzero c). }
  destruct (plain_unchecked (positive r) (positive e) None c [] Hc) with (s' := s') (f := euid c1) as (P1 & P2 & _).
  - apply not_elem_of_nil.
  - apply among_in; [done | apply ids_in; auto].
  - done.
  - apply ids_in. auto.
  - unfold s'. rewrite E2, E3. destruct (_ || _); auto.
  - by rewrite E2.
  - fold c1 in P1, P2. unfold s' in P1, P2. destruct (_ || _); [done |]. by destruct c1.
Qed.

Lemma setresuid_plain r e s c : ordinary c → ordinary (sys_setresuid r e s c).2 ∧ plain [] c (sys_setresuid r e s c).2.
Proof.
  intros Hc. unfold sys_setresuid, set_resuid, check_uid_perm. rewrite ordinary_unprivileged by done. cbn [orb].
  destruct (among _ _ && _ && _) eqn:Ha; cbn [returns snd]; [| by apply plain_same].
  apply andb_true_iff in Ha as [[Hr He]%andb_true_iff Hs]. set (c1 := set_resuid_unchecked (positive r) (positive e) (positive s) c).
  assert (default (euid c) (positive e) ∈ ids c ++ []) as He' by (apply among_in; [done | apply ids_in; auto]).
  assert (euid c1 = default (euid c) (positive e) ∧ suid c1 = default (suid c) (positive s)) as [E2 E3].
  { unfold c1. rewrite unchecked_plain; [done | apply Hc |]. by apply (sub_nonzero c). }
  destruct (plain_unchecked (positive r) (positive e) (positive s) c [] Hc) with (s' := suid c1) (f := euid c1) as (P1 & P2 & _).
  - apply not_elem_of_nil.
  - apply among_in; [done | apply ids_in; auto].
  - done.
  - apply among_in; [done | apply ids_in; auto].
  - auto.
  - by rewrite E2.
  - fold c1 in P1, P2. by destruct c1.
Qed.

Lemma setfsuid_plain uid c : ordinary c → ordinary (sys_setfsuid uid c).2 ∧ plain [] c (sys_setfsuid uid c).2.
Proof.
  intros Hc. unfold sys_setfsuid, set_fsuid. destruct (nonnegative uid) as [f|]; [| by apply plain_same].
  rewrite ordinary_unprivileged by done. destruct (among (Some f) _) eqn:Ha; cbn [returns snd]; [| by apply plain_same].
  pose proof (among_in (Some f) c [] f Ha) as Hf. cbn in Hf, Ha. apply bool_decide_eq_true in Ha. rewrite fsuid_plain by apply Hc.
  pose proof (plain_fields (ruid c) (euid c) (suid c) f c [] Hc) as P. destruct c. apply P; [| apply not_elem_of_nil].
  intros x. rewrite !elem_of_cons. intros [->|[->|[->|[->|[]%not_elem_of_nil]]]]; [apply ids_in; auto .. |].
  apply ids_in. rewrite !elem_of_cons in Ha. destruct Ha as [?|[?|[?|[]%not_elem_of_nil]]]; auto.
Qed.

Lemma exec_plain u g c : ordinary c → call_ok (Execve u g) → ordinary (apply_caps_from_exec u g c) ∧ plain (owners [Execve u g]) c (apply_caps_from_exec u g c).
Proof.
  intros Hc Hu. set (e := default (euid c) u). assert (e ∈ ids c ++ owners [Execve u g]) as He.
  { unfold e. destruct u as [u|]; [apply elem_of_app; right; by left | apply ids_in; auto]. }
  assert (0 ∉ owners [Execve u g]) as H0 by (destruct u as [u|]; cbn in *; set_solver).
  assert (e ≠ 0) as Hne by (intros E; rewrite E in He; apply elem_of_app in He as [?|?]; [by destruct Hc | done]).
  pose proof (plain_fields (ruid c) e e (fsuid c) c (owners [Execve u g]) Hc) as [P1 P2]; [| done |].
  { intros x. rewrite !elem_of_cons. intros [->|[->|[->|[->|[]%not_elem_of_nil]]]]; try done; apply ids_in; auto. }
  assert (reset_suid (match u with Some uid => set_euid uid c | None => c end) = set_fsuid_field (fsuid c) (set_resuid_fields (ruid c) e e c)) as E.
  { unfold reset_suid, set_euid. destruct u as [u|]; cbn [default e] in *.
    - rewrite (unchecked_plain None (Some u) None c); [| apply Hc | done]. rewrite unchecked_plain; [done | | done].
      destruct Hc as [Hi _]. unfold ids in *. cbn. rewrite !not_elem_of_cons in *. unfold e in Hne. intuition congruence.
    - rewrite unchecked_plain; [by destruct c | apply Hc | done]. }
  unfold apply_caps_from_exec. rewrite E. set (c1 := set_fsuid_field _ _) in *.
  destruct P1 as [P11 P12], P2 as [(S1 & S2 & S3) P22]. split; [split | split]; destruct g; done.
Qed.

Lemma call_plain x c : ordinary c → call_ok x → ordinary (call x c).2 ∧ plain (owners [x]) c (call x c).2.
Proof.
  intros Hc Hx. destruct x; cbn [call]; try (by apply exec_plain).
  - by apply setuid_plain.
  - by apply setreuid_plain.
  - by apply setresuid_plain.
  - by apply setfsuid_plain.
  - apply plain_same; [.. | done]; unfold sys_setgid, set_gid; by repeat case_match.
  - apply plain_same; [.. | done]; unfold sys_setregid, set_regid; destruct (check_gid_perm _ _ _ _ _); by try destruct (_ || _).
  - apply plain_same; [.. | done]; unfold sys_setresgid, set_resgid; by destruct (check_gid_perm _ _ _ _ _).
  - apply plain_same; [.. | done]; unfold sys_setfsgid, set_fsgid; (destruct (nonnegative _); [by destruct (_ || _) | done]).
  - apply plain_same; [.. | done]; unfold sys_setgroups; by case_match.
  - unfold sys_capset. rewrite (or_caps c Hc). cbn [negb]. apply plain_same; [.. | done]; by repeat case_match.
  - apply plain_same; [.. | done]; unfold prctl_set_keepcaps; by case_match.
Qed.

Lemma calls_plain xs c : ordinary c → Forall call_ok xs → ordinary (calls xs c) ∧ plain (owners xs) c (calls xs c).
Proof.
  revert c. induction xs as [|x xs IH]; intros c Hc Hx; [by apply plain_same |]. apply Forall_cons in Hx as [Hx Hxs].
  destruct (call_plain x c Hc Hx) as [H1 [(A1 & A2 & A3) S1]]. destruct (IH _ H1 Hxs) as [H2 [(B1 & B2 & B3) S2]].
  cbn [calls foldl]. fold (calls xs (call x c).2). split; [done |]. split; [split_and!; congruence |].
  assert (owners (x :: xs) = owners [x] ++ owners xs) as ->.
  { cbn. by destruct x as [| | | | | | | | | | |[u|] g]. }
  intros y Hy. apply S2, elem_of_app in Hy as [Hy|Hy]; [apply S1 in Hy |]; rewrite !elem_of_app in *; tauto.
Qed.

(** ** Access *)

Lemma class_grants_none perm class : Z.testbit class 0 = false → Z.testbit class 1 = false → Z.testbit class 2 = false →
  Z.land perm 7 ≠ 0 → class_grants (Z.land perm 7) class = false.
Proof.
  intros H0 H1 H2 Hp. assert (0 ≤ Z.land perm 7 < 8) as Hb. { change 7 with (Z.ones 3). rewrite Z.land_ones by lia. apply Z.mod_pos_bound. lia. }
  unfold class_grants. rewrite H0, H1, H2. set (p := Z.land perm 7) in *.
  assert (p = 1 ∨ p = 2 ∨ p = 3 ∨ p = 4 ∨ p = 5 ∨ p = 6 ∨ p = 7) as Hc by lia. by destruct Hc as [->|[->|[->|[->|[->|[->| ->]]]]]].
Qed.

(** A file open to its owner only. *)
Definition owner_only (m : Metadata) : Prop := Z.land (m_mode m) 0x3F = 0.

Lemma owner_only_bit m i : owner_only m → 0 ≤ i < 6 → Z.testbit (m_mode m) i = false.
Proof.
  intros Ho Hi. assert (Z.testbit (Z.land (m_mode m) 0x3F) i = false) as H by (by rewrite Ho, Z.testbit_0_l).
  change 0x3F with (Z.ones 6) in H. by rewrite Z.land_spec, Z.ones_spec_low, andb_true_r in H by lia.
Qed.

Lemma owner_only_denied perm m c : effective c = 0 → owner_only m → m_uid m ≠ fsuid c → Z.land perm 7 ≠ 0 → check_permission perm m c = false.
Proof.
  intros He Ho Hu Hp. unfold check_permission. rewrite He. change (has_cap 0 DAC_OVERRIDE) with false. cbn [andb].
  change (Z.lor MAY_READ (Z.lor MAY_WRITE MAY_EXEC)) with 7. rewrite (proj2 (Z.eqb_neq (m_uid m) (fsuid c))) by done.
  destruct (m_gid m =? fsgid c); apply class_grants_none; rewrite ?Z.shiftr_spec by lia; try done; apply owner_only_bit; done || lia.
Qed.

(** ** The properties *)

(** [C4] A thread without a root identity, and without the capability to give capabilities,
    never gains anything by the system calls on credentials, and by executing programs
    that are not set-user-ID root: its capabilities stay the same, and its user identities
    are those it had and those of the owners of set-user-ID programs that it ran. *)
Theorem no_privilege_gain c xs : ordinary c → Forall call_ok xs →
  ordinary (calls xs c) ∧ same_caps c (calls xs c) ∧ ids (calls xs c) ⊆ ids c ++ owners xs.
Proof. intros Hc Hx. destruct (calls_plain xs c Hc Hx) as [H1 [H2 H3]]. by split_and!. Qed.

(** [C5] When a privileged thread calls [setuid] with another user, that drops root for
    good: all its identities are that user and all its capabilities are gone, and
    whatever it calls and executes then (but for set-user-ID root programs), it can not
    access a file that is open to its owner only and whose owner is neither the user nor
    one of a set-user-ID program that it ran, nor signal the processes of such an owner,
    but for SIGCONT within its session. *)
Theorem dropped_privileges_stay uid c xs : is_privileged c = true → keep_capabilities c = false → 0 < uid → Forall call_ok xs →
  ∃ c1, sys_setuid uid c = (ROk 0, c1) ∧ ids c1 = [uid; uid; uid; uid] ∧
    (∀ m perm, owner_only m → m_uid m ∉ uid :: owners xs → Z.land perm 7 ≠ 0 → check_permission perm m (calls xs c1) = false) ∧
    (∀ target same_session n, ruid target ∉ uid :: owners xs → suid target ∉ uid :: owners xs →
      check_signal_perm target same_session (Some n) (calls xs c1) = (n =? SIGCONT) && same_session).
Proof.
  intros Hp Hk Hu Hx. unfold sys_setuid. rewrite (proj2 (Z.ltb_ge uid 0)) by lia. eexists. split; [done |].
  set (c1 := set_uid uid c). assert (ids c1 = [uid; uid; uid; uid] ∧ permitted c1 = 0 ∧ effective c1 = 0) as (Hi & Hpe & He).
  { unfold c1, set_uid. rewrite Hp. unfold set_resuid_unchecked. unfold is_privileged in Hp. rewrite Hp. cbn [from_option id].
    rewrite !(is_root_false uid) by lia. rewrite orb_true_r. cbn [orb negb andb keep_capabilities set_resuid_fields]. rewrite Hk.
    unfold set_fsuid_unchecked. cbn. destruct (is_root (fsuid c)); rewrite ?(is_root_false uid) by lia; done. }
  assert (ordinary c1) as Ho. { split; [rewrite Hi, !not_elem_of_cons; split_and!; try lia; apply not_elem_of_nil | by rewrite Hpe]. }
  destruct (calls_plain xs c1 Ho Hx) as [_ [(_ & _ & E) Hsub]]. rewrite He in E. rewrite Hi in Hsub.
  assert (∀ y, y ∈ ids (calls xs c1) → y ∈ uid :: owners xs) as Hin by (intros y Hy%Hsub; set_solver).
  set (c2 := calls xs c1) in *. split; [done |]. split.
  - intros m perm Hm Hmu Hperm. apply owner_only_denied; try done. intros Heq. apply Hmu. rewrite Heq. apply Hin. unfold ids. set_solver.
  - intros target ss n Hr Hs. unfold check_signal_perm. rewrite E. change (has_cap 0 KILL) with false.
    assert (∀ t y, y ∈ ids c2 → t ∉ uid :: owners xs → (y =? t) = false) as Hne by (intros t y Hy Ht; apply Z.eqb_neq; intros ->; by apply Ht, Hin).
    rewrite !(Hne (suid target)), !(Hne (ruid target)) by (done || (unfold ids; set_solver)). done.
Qed.

(** What goes wrong. (1) [setreuid] of root to another user keeps the permitted
    capabilities, because the saved identity changes after they are adjusted; [capset]
    then gives them back, and a file of root can be read. (2) [setgid] of an ordinary user
    takes any group, and its files can be read; so does [setgroups]. (3) [setuid] of an
    ordinary user to root is refused with success; [setresuid] ignores the identity 0, so
    that a saved root identity cannot be taken back. (4) [setfsuid] of root keeps the
    capabilities on files. (5) Supplementary groups give no access. *)
Theorem credentials_flaws :
  let secret := mkMetadata 0x180 0 0 in
  let group_file g := mkMetadata 0x20 0 g in
  let user := new 1000 1000 0 in
  let dropped := calls [Setreuid 1000 1000] new_root in
  (ids dropped = [1000; 1000; 1000; 1000] ∧ effective dropped = 0 ∧ check_permission MAY_READ secret dropped = false ∧
   check_permission MAY_READ secret (calls [Capset LINUX_CAPABILITY_VERSION_3 0 1 DAC_OVERRIDE 0 0] dropped) = true) ∧
  ((call (Setgid 0) user).1 = ROk 0 ∧ check_permission MAY_READ (group_file 0) user = false ∧
   check_permission MAY_READ (group_file 0) (calls [Setgid 0] user) = true ∧ 0 ∈ groups (calls [Setgroups [0]] user)) ∧
  (call (Setuid 0) user = (ROk 0, user) ∧
   let saved := set_resuid_fields 1000 1000 0 user in call (Setresuid (-1) 0 (-1)) saved = (ROk 0, saved)) ∧
  check_permission MAY_READ (mkMetadata 0x180 5 5) (calls [Setfsuid 1000] new_root) = true ∧
  check_permission MAY_READ (group_file 7) (calls [Setgroups [7]] user) = false.
Proof. by vm_compute. Qed.

(** ** Witnesses *)

Lemma no_privilege_gain_witness : ids (calls [Setuid 0; Setresuid 1000 1 2; Execve (Some 7) None] (new 1000 1000 0)) ⊆ ids (new 1000 1000 0) ++ [7].
Proof.
  apply (no_privilege_gain (new 1000 1000 0) [Setuid 0; Setresuid 1000 1 2; Execve (Some 7) None]); [| repeat constructor; done].
  split; [apply (bool_decide_unpack _); vm_compute; exact I | done].
Defined.

Lemma dropped_privileges_stay_witness : ∃ c1, sys_setuid 1000 new_root = (ROk 0, c1) ∧ ids c1 = [1000; 1000; 1000; 1000].
Proof.
  destruct (dropped_privileges_stay 1000 new_root []) as (c1 & E & H & _); [done | done | lia | constructor |]. by exists c1.
Defined.
End Credentials.
