(* ===== verification/SchedPolicy.v ===== *)
(** * Scheduling policies and their system calls

    [kernel/src/sched/]: nice values ([nice.rs]), policies ([sched_class/policy.rs]), the
    scheduling attributes of a thread with their real-time and fair parts
    ([sched_class/mod.rs], [real_time.rs], [fair.rs]), the clock units of time slices
    ([time.rs]), and the system calls that read and set them
    ([kernel/src/syscall/sched_*.rs]). An attribute is changed under the lock of its
    policy; the words of a fair weight, which the scheduler takes without that lock, are
    taken apart into their atomic accesses in [Weight]. *)

From S2P Require Import Prelude.
Local Open Scope Z_scope.

Module SchedPolicy.

(** [u64] arithmetic under overflow checks *)
Definition u64_add (a b : Z) : outcome Z := unwrap (checked_add 64 a b).
Definition u64_sub (a b : Z) : outcome Z := unwrap (checked_sub a b).
Definition u64_mul (a b : Z) : outcome Z := unwrap (checked_mul 64 a b).
Definition u64_div (a b : Z) : outcome Z := if b =? 0 then Panic else Done (a / b).

(** ** Policies *)

Inductive RealTimePolicy : Type := Fifo | RoundRobin (base_slice_factor : option Z).

Inductive SchedPolicy : Type :=
| Stop
| RealTime (rt_prio : Z) (rt_policy : RealTimePolicy)
| Fair (nice : Z)
| Idle.

Inductive SchedPolicyKind : Type := KStop | KRealTime | KFair | KIdle.

#[global] Instance RealTimePolicy_eq_dec : EqDecision RealTimePolicy.
Proof. solve_decision. Defined.
#[global] Instance SchedPolicy_eq_dec : EqDecision SchedPolicy.
Proof. solve_decision. Defined.
#[global] Instance SchedPolicyKind_eq_dec : EqDecision SchedPolicyKind.
Proof. solve_decision. Defined.

Definition kind (p : SchedPolicy) : SchedPolicyKind :=
  match p with Stop => KStop | RealTime _ _ => KRealTime | Fair _ => KFair | Idle => KIdle end.

(** The ranges of [RealTimePriority] and [NiceValue], and [Nice::MAX] *)
Definition is_rt_prio (p : Z) : bool := (1 <=? p) && (p <=? 99).
Definition NICE_MIN : Z := -20.
Definition NICE_MAX : Z := 19.
Definition is_nice (n : Z) : bool := (NICE_MIN <=? n) && (n <=? NICE_MAX).

(** [Ord] of [RealTimePolicy] and of [SchedPolicy], as derived: the constructors in the
    order they are declared, then their fields from left to right *)
Definition rt_policy_compare (a b : RealTimePolicy) : comparison :=
  match a, b with
  | Fifo, Fifo => Eq
  | Fifo, RoundRobin _ => Lt
  | RoundRobin _, Fifo => Gt
  | RoundRobin None, RoundRobin None => Eq
  | RoundRobin None, RoundRobin (Some _) => Lt
  | RoundRobin (Some _), RoundRobin None => Gt
  | RoundRobin (Some x), RoundRobin (Some y) => x ?= y
  end.

Definition class_rank (k : SchedPolicyKind) : Z :=
  match k with KStop => 0 | KRealTime => 1 | KFair => 2 | KIdle => 3 end.

Definition policy_compare (a b : SchedPolicy) : comparison :=
  match a, b with
  | RealTime p x, RealTime q y => match p ?= q with Eq => rt_policy_compare x y | c => c end
  | Fair m, Fair n => m ?= n
  | a, b => class_rank (kind a) ?= class_rank (kind b)
  end.

Definition policy_lt (a b : SchedPolicy) : bool :=
  match policy_compare a b with Lt => true | _ => false end.

(** ** Clock units *)

(** The loop of [tsc_factors], Euclid's algorithm stopped at 1; a round halves the
    product, which is below [2 ^ 94] ([gcd_loop_ends]) *)
Fixpoint gcd_loop (fuel : nat) (a b : Z) : Z * Z :=
  match fuel with
  | O => (a, b)
  | S fuel => if (1 <? a) && (1 <? b) then gcd_loop fuel b (a mod b) else (a, b)
  end.

Definition tsc_factors (freq : Z) : outcome (Z * Z) :=
  assert_that (negb (freq =? 0)) ≫= λ _,
  let '(a, b) := if 1000000000 <? freq then (freq, 1000000000) else (1000000000, freq) in
  let '(a, b) := gcd_loop 100 a b in
  let gcd := if a <=? 1 then b else a in
  Done (1000000000 / gcd, freq / gcd).

Definition BASE_SLICE_NS : Z := 750000.
Definition MIN_PERIOD_NS : Z := 6000000.

(** [base_slice_clocks()] and [min_period_clocks()], for a clock of [freq] Hz *)
Definition consts (freq : Z) : outcome (Z * Z) :=
  tsc_factors freq ≫= λ '(a, b),
  u64_mul BASE_SLICE_NS b ≫= λ x, u64_div x a ≫= λ base,
  u64_mul MIN_PERIOD_NS b ≫= λ x, u64_div x a ≫= λ period,
  Done (base, period).

(** ** Attributes *)

Definition WEIGHT_0 : Z := 1024.
Definition HAS_PENDING : Z := 2 ^ 63.

Definition nice_to_weight (nice : Z) : Z :=
  if nice =? 0 then WEIGHT_0
  else if 1 <=? nice then WEIGHT_0 * 4 ^ nice / 5 ^ nice
  else WEIGHT_0 * 5 ^ (- nice) / 4 ^ (- nice).

Record RealTimeAttr : Type := mkRt { prio : Z; time_slice : Z }.
Record FairAttr : Type := mkFair { weight : Z; pending_weight : Z; vruntime : Z }.

Record SchedAttr : Type := mkAttr {
  policy : SchedPolicy;
  policy_kind : SchedPolicyKind;
  last_cpu : option nat;
  real_time : RealTimeAttr;
  fair : FairAttr;
}.

Definition DEFAULT_BASE_SLICE_FACTOR : Z := 20.

(** [RealTimePolicy::to_time_slice]; [base] is [base_slice_clocks()] *)
Definition to_time_slice (base : Z) (p : RealTimePolicy) : outcome Z :=
  match p with
  | RoundRobin f => u64_mul base (default DEFAULT_BASE_SLICE_FACTOR f)
  | Fifo => Done 0
  end.

(** [RealTimeAttr::new] and [update]: both store the priority and the slice *)
Definition rt_attr (base prio : Z) (p : RealTimePolicy) : outcome RealTimeAttr :=
  to_time_slice base p ≫= λ ts, Done (mkRt prio ts).

Definition fair_new (nice : Z) : FairAttr := mkFair (nice_to_weight nice) 0 0.

(** [FairAttr::update] *)
Definition fair_update (f : FairAttr) (nice : Z) : FairAttr :=
  mkFair (Z.lor (weight f) HAS_PENDING) (nice_to_weight nice) (vruntime f).

(** [SchedAttr::new] *)
Definition attr_new (base : Z) (p : SchedPolicy) : outcome SchedAttr :=
  let '(pr, rp) := match p with RealTime pr rp => (pr, rp) | _ => (99, RoundRobin None) end in
  rt_attr base pr rp ≫= λ rt,
  Done (mkAttr p (kind p) None rt (fair_new (match p with Fair n => n | _ => 0 end))).

(** The updates of the parts of an attribute that follow its policy *)
Definition update_parts (base : Z) (a : SchedAttr) (p : SchedPolicy) : outcome SchedAttr :=
  match p with
  | RealTime pr rp =>
      rt_attr base pr rp ≫= λ rt, Done (mkAttr (policy a) (policy_kind a) (last_cpu a) rt (fair a))
  | Fair n => Done (mkAttr (policy a) (policy_kind a) (last_cpu a) (real_time a) (fair_update (fair a) n))
  | _ => Done a
  end.

(** The policy that [SchedPolicyState::set] installs: a slice factor in place stays *)
Definition keep_slice (old new : SchedPolicy) : SchedPolicy :=
  match old, new with
  | RealTime _ (RoundRobin slot), RealTime pr (RoundRobin f) =>
      RealTime pr (RoundRobin (match slot with Some s => Some s | None => f end))
  | _, _ => new
  end.

(** [SchedAttr::set_policy] *)
Definition set_policy (base : Z) (a : SchedAttr) (new : SchedPolicy) : outcome SchedAttr :=
  let new := keep_slice (policy a) new in
  update_parts base a new ≫= λ a,
  Done (mkAttr new (kind new) (last_cpu a) (real_time a) (fair a)).

(** [SchedAttr::update_policy]: the closure [f] changes the policy in place, and the kind
    of the policy is not stored again *)
Definition update_policy {T} (base : Z) (a : SchedAttr) (f : SchedPolicy → T * SchedPolicy) : outcome (T * SchedAttr) :=
  let '(ret, new) := f (policy a) in
  update_parts base a new ≫= λ a,
  Done (ret, mkAttr new (policy_kind a) (last_cpu a) (real_time a) (fair a)).

(** [SchedAttr::set_last_cpu] *)
Definition set_last_cpu (a : SchedAttr) (c : nat) : SchedAttr :=
  mkAttr (policy a) (policy_kind a) (Some c) (real_time a) (fair a).

(** [FairAttr::fetch_weight], not interrupted: the weight so far and the weight from now on *)
Definition fetch_weight (f : FairAttr) : Z * Z * FairAttr :=
  if Z.land (weight f) HAS_PENDING =? 0 then (weight f, weight f, f)
  else (Z.ldiff (weight f) HAS_PENDING, pending_weight f, mkFair (pending_weight f) (pending_weight f) (vruntime f)).

(** [FairAttr::update_vruntime]: the new virtual run time *)
Definition update_vruntime (f : FairAttr) (delta w : Z) : outcome (Z * FairAttr) :=
  u64_mul delta WEIGHT_0 ≫= λ x, u64_div x w ≫= λ d,
  u64_add (vruntime f) d ≫= λ v,
  Done (v, mkFair (weight f) (pending_weight f) (wrapping_add 64 (vruntime f) d)).

(** [vruntime.fetch_max(v).max(v)] *)
Definition raise_vruntime (f : FairAttr) (v : Z) : Z * FairAttr :=
  (Z.max (vruntime f) v, mkFair (weight f) (pending_weight f) (Z.max (vruntime f) v)).

(** ** System calls *)

Inductive Errno : Type := EINVAL | EACCES | ESRCH.

Definition SCHED_NORMAL : Z := 0.
Definition SCHED_FIFO : Z := 1.
Definition SCHED_RR : Z := 2.
Definition SCHED_IDLE : Z := 5.

(** The fields of [LinuxSchedAttr] that the kernel reads *)
Record LinuxSchedAttr : Type := mkLinux { sched_policy : Z; sched_nice : Z; sched_priority : Z }.

Definition rt_to_static (p : Z) : Z := 100 - p.
Definition static_to_rt (p : Z) : result Z Errno :=
  if (rt_to_static 99 <=? p) && (p <=? rt_to_static 1) then ROk (100 - p) else RErr EINVAL.

(** [SCHED_PRIORITY_RANGE] *)
Definition priority_range (policy : Z) : option (Z * Z) :=
  if (policy =? SCHED_FIFO) || (policy =? SCHED_RR) then Some (rt_to_static 99, rt_to_static 1)
  else if (0 <=? policy) && (policy <=? 7) then Some (0, 0)
  else None.

Definition sys_sched_get_priority_max (policy : Z) : result Z Errno :=
  match priority_range policy with Some r => ROk r.2 | None => RErr EINVAL end.
Definition sys_sched_get_priority_min (policy : Z) : result Z Errno :=
  match priority_range policy with Some r => ROk r.1 | None => RErr EINVAL end.

(** [TryFrom<SchedPolicy> for LinuxSchedAttr] *)
Definition linux_of_policy (p : SchedPolicy) : result LinuxSchedAttr Errno :=
  match p with
  | Stop => ROk (mkLinux SCHED_FIFO 0 99)
  | RealTime pr rp =>
      ROk (mkLinux (match rp with Fifo => SCHED_FIFO | RoundRobin _ => SCHED_RR end) 0 (rt_to_static pr))
  | Fair n => if n =? NICE_MAX then ROk (mkLinux SCHED_IDLE 0 0) else ROk (mkLinux SCHED_NORMAL n 0)
  | Idle => RErr EACCES
  end.

(** [TryFrom<LinuxSchedAttr> for SchedPolicy] *)
Definition policy_of_linux (l : LinuxSchedAttr) : result SchedPolicy Errno :=
  if (sched_policy l =? SCHED_FIFO) || (sched_policy l =? SCHED_RR) then
    match static_to_rt (sched_priority l) with
    | ROk pr => ROk (RealTime pr (if sched_policy l =? SCHED_FIFO then Fifo else RoundRobin None))
    | RErr e => RErr e
    end
  else if negb (sched_priority l =? 0) then RErr EINVAL
  else if sched_policy l =? SCHED_NORMAL then
    if is_nice (sched_nice l) then ROk (Fair (sched_nice l)) else RErr EINVAL
  else if sched_policy l =? SCHED_IDLE then ROk (Fair NICE_MAX)
  else RErr EINVAL.

(** The attributes of the threads by thread identifier; a call is made by [cur]. *)
Abbreviation Threads := (gmap Z SchedAttr).

(** [access_sched_attr_with]: which attribute a call is about *)
Definition access_sched_attr (ts : Threads) (cur tid : Z) : result (Z * SchedAttr) Errno :=
  if tid =? 0 then match ts !! cur with Some a => ROk (cur, a) | None => RErr ESRCH end
  else if 2 ^ 31 - 1 <? tid then RErr EINVAL
  else match ts !! tid with Some a => ROk (tid, a) | None => RErr ESRCH end.

Definition sys_sched_getscheduler (ts : Threads) (cur tid : Z) : result Z Errno :=
  match access_sched_attr ts cur tid with
  | RErr e => RErr e
  | ROk (_, a) => match linux_of_policy (policy a) with ROk l => ROk (sched_policy l) | RErr e => RErr e end
  end.

(** [sys_sched_getattr] up to the copy to the user *)
Definition sys_sched_getattr (ts : Threads) (cur tid flags : Z) : result LinuxSchedAttr Errno :=
  if negb (flags =? 0) then RErr EINVAL
  else match access_sched_attr ts cur tid with RErr e => RErr e | ROk (_, a) => linux_of_policy (policy a) end.

Definition sys_sched_getparam (ts : Threads) (cur tid : Z) : result Z Errno :=
  match access_sched_attr ts cur tid with
  | RErr e => RErr e
  | ROk (_, a) => ROk (match policy a with RealTime pr _ => pr | _ => 0 end)
  end.

(** The end of [sys_sched_setattr] and [sys_sched_setscheduler] *)
Definition install (base : Z) (ts : Threads) (cur tid : Z) (l : LinuxSchedAttr) : outcome (result unit Errno * Threads) :=
  match policy_of_linux l with
  | RErr e => Done (RErr e, ts)
  | ROk p =>
      match access_sched_attr ts cur tid with
      | RErr e => Done (RErr e, ts)
      | ROk (t, a) => set_policy base a p ≫= λ a, Done (ROk tt, <[t := a]> ts)
      end
  end.

(** [user] is what the copy from the user returns, [None] when it faults. *)
Definition sys_sched_setattr (base : Z) (ts : Threads) (cur tid : Z) (user : option LinuxSchedAttr) (flags : Z)
  : outcome (result unit Errno * Threads) :=
  if negb (flags =? 0) then Done (RErr EINVAL, ts)
  else match user with None => Done (RErr EINVAL, ts) | Some l => install base ts cur tid l end.

Definition sys_sched_setscheduler (base : Z) (ts : Threads) (cur tid policy : Z) (user : option Z)
  : outcome (result unit Errno * Threads) :=
  match user with
  | None => Done (RErr EINVAL, ts)
  | Some prio => install base ts cur tid (mkLinux (policy mod 2 ^ 32) 0 prio)
  end.

(** The closure of [sys_sched_setparam] *)
Definition set_rt_prio (prio : Z) (p : SchedPolicy) : result unit Errno * SchedPolicy :=
  match p with
  | RealTime _ rp => if is_rt_prio prio then (ROk tt, RealTime prio rp) else (RErr EINVAL, p)
  | p => (if prio =? 0 then ROk tt else RErr EINVAL, p)
  end.

Definition sys_sched_setparam (base : Z) (ts : Threads) (cur tid : Z) (user : option Z)
  : outcome (result unit Errno * Threads) :=
  match user with
  | None => Done (RErr EINVAL, ts)
  | Some prio =>
      match access_sched_attr ts cur tid with
      | RErr e => Done (RErr e, ts)
      | ROk (t, a) => update_policy base a (set_rt_prio prio) ≫= λ '(r, a), Done (r, <[t := a]> ts)
      end
  end.

(** ** The fair weight, one atomic access at a time *)

Module Weight.

(** The next access of [fetch_weight]: none is running, the weight is loaded with its
    flag set, the pending weight is loaded too. *)
Inductive fpc : Type := FIdle | FLoaded (w : Z) | FReady (w new : Z).

(** [storing]: an [update] has stored the pending weight and not yet set the flag. The
    lock of the policy admits one [update] at a time, the lock of the run queue one
    [fetch_weight]. [requested] is the weight of the last [update] that returned. *)
Record state : Type := mk { w_weight : Z; w_pending : Z; storing : option Z; fetcher : fpc; requested : Z }.

Inductive access : Type :=
| UStore (w : Z)              (** [pending_weight.store(w)] *)
| UOr                         (** [weight.fetch_or(HAS_PENDING)] *)
| FLoad                       (** [weight.load] *)
| FPending                    (** [pending_weight.load] *)
| FCas (spurious : bool).     (** [weight.compare_exchange_weak] *)

Definition has_pending (w : Z) : bool := negb (Z.land w HAS_PENDING =? 0).

Definition step (s : state) (a : access) : option state :=
  match a, storing s, fetcher s with
  | UStore w, None, _ => Some (mk (w_weight s) w (Some w) (fetcher s) (requested s))
  | UOr, Some w, _ => Some (mk (Z.lor (w_weight s) HAS_PENDING) (w_pending s) None (fetcher s) w)
  | FLoad, _, FIdle =>
      Some (mk (w_weight s) (w_pending s) (storing s)
              (if has_pending (w_weight s) then FLoaded (w_weight s) else FIdle) (requested s))
  | FPending, _, FLoaded w => Some (mk (w_weight s) (w_pending s) (storing s) (FReady w (w_pending s)) (requested s))
  | FCas spurious, _, FReady w new =>
      if (w_weight s =? w) && negb spurious then Some (mk new (w_pending s) (storing s) FIdle (requested s))
      else Some (mk (w_weight s) (w_pending s) (storing s)
                   (if has_pending (w_weight s) then FLoaded (w_weight s) else FIdle) (requested s))
  | _, _, _ => None
  end.

Definition run (s : state) (l : list access) : option state :=
  foldl (λ o a, match o with Some s => step s a | None => None end) (Some s) l.

(** The state of a new attribute *)
Definition init (nice : Z) : state := mk (nice_to_weight nice) 0 None FIdle (nice_to_weight nice).

(** No access is under way. *)
Definition quiet (s : state) : Prop := storing s = None ∧ fetcher s = FIdle.

End Weight.

(** ** Properties *)

Lemma gcd_loop_ends fuel a b x y :
  0 ≤ b ≤ a → a * b < 2 ^ Z.of_nat fuel → gcd_loop fuel a b = (x, y) → x ≤ 1 ∨ y ≤ 1.
Proof.
  revert a b; induction fuel as [|fuel IH]; intros a b Hb Hf Hg.
  - change (Z.of_nat 0) with 0 in Hf. injection Hg as <- <-. rewrite Z.pow_0_r in Hf. nia.
  - cbn [gcd_loop] in Hg.
    destruct (Z.ltb_spec 1 a), (Z.ltb_spec 1 b); cbn [andb] in Hg; try (injection Hg as <- <-; lia).
    pose proof (Z.mod_pos_bound a b ltac:(lia)). pose proof (Z.div_mod a b ltac:(lia)).
    refine (IH b (a mod b) ltac:(lia) _ Hg).
    rewrite Nat2Z.inj_succ, Z.pow_succ_r in Hf by lia.
    assert (1 ≤ a / b) by (apply Z.div_le_lower_bound; lia). nia.
Qed.

(** The loop of [tsc_factors] ends before its fuel, for every frequency of 64 bits. *)
Lemma tsc_factors_ends freq x y :
  0 < freq < 2 ^ 64 →
  (if 1000000000 <? freq then gcd_loop 100 freq 1000000000 else gcd_loop 100 1000000000 freq) = (x, y) →
  x ≤ 1 ∨ y ≤ 1.
Proof.
  intros Hf H. pose proof (eq_refl : (2 ^ 64 * 1000000000 <? 2 ^ 100) = true).
  destruct (Z.ltb_spec 1000000000 freq); (eapply gcd_loop_ends; [| |exact H]); try lia;
    change (Z.of_nat 100) with 100; lia.
Qed.

Lemma tsc_factors_done freq : 0 < freq → is_done (tsc_factors freq).
Proof.
  intros H. unfold tsc_factors, is_done.
  destruct (Z.eqb_spec freq 0); [lia|]. cbn [negb assert_that mbind outcome_bind].
  destruct (if _ <? _ then _ else _) as [a b]. destruct (gcd_loop 100 a b) as [c d]. eauto.
Qed.

(** Every nice value has a positive weight below [HAS_PENDING]. *)
Lemma nice_to_weight_bound n : is_nice n = true → 14 ≤ nice_to_weight n ≤ 88817.
Proof.
  unfold is_nice, NICE_MIN, NICE_MAX. intros H.
  assert (Hn : n ∈ map (λ k, Z.of_nat k - 20) (seq 0 40)).
  { apply list_elem_of_In, in_map_iff. exists (Z.to_nat (n + 20)). rewrite in_seq.
    bool_cases; cbn [andb] in H; try discriminate; lia. }
  assert (Hall : Forall (λ m, 14 ≤ nice_to_weight m ≤ 88817) (map (λ k, Z.of_nat k - 20) (seq 0 40))).
  { apply (bool_decide_unpack _). vm_compute. reflexivity. }
  rewrite Forall_forall in Hall. apply Hall, Hn.
Qed.

(** The policies and priorities that [sched_setscheduler] accepts *)
Definition accepted (pol prio : Z) : bool :=
  ((pol =? SCHED_FIFO) || (pol =? SCHED_RR)) && ((1 <=? prio) && (prio <=? 99))
  || ((pol =? SCHED_NORMAL) || (pol =? SCHED_IDLE)) && (prio =? 0).

(** The slice factor of a policy, a [NonZero<u32>], keeps the slice in 64 bits. *)
Definition slice_fits (base : Z) (p : SchedPolicy) : Prop :=
  match p with RealTime _ (RoundRobin (Some f)) => base * f < 2 ^ 64 | _ => True end.

Lemma set_policy_done base a p :
  0 ≤ base < 2 ^ 59 → slice_fits base (policy a) → slice_fits base p →
  ∃ a', set_policy base a p = Done a' ∧ policy a' = keep_slice (policy a) p ∧ last_cpu a' = last_cpu a ∧
    policy_kind a' = kind p.
Proof.
  intros Hb Hs Hp. unfold set_policy.
  assert (Hd : ∀ pr rp, keep_slice (policy a) p = RealTime pr rp → is_done (to_time_slice base rp)).
  { intros pr rp Hk. unfold is_done, to_time_slice. destruct rp as [|f]; [eauto|].
    unfold u64_mul, checked_mul, unwrap, DEFAULT_BASE_SLICE_FACTOR.
    assert (base * default 20 f < 2 ^ 64); [|destruct (Z.ltb_spec (base * default 20 f) (2 ^ 64)); [eauto|lia]].
    destruct f as [f|]; [|cbn; lia]. cbn [from_option default id].
    destruct (policy a) as [| ? [|[?|]] | |], p as [| ? [|[?|]] | |]; cbn in Hk, Hs, Hp; simplify_eq; done. }
  assert (Hkind : kind (keep_slice (policy a) p) = kind p).
  { destruct (policy a) as [| ? [|?] | |], p as [| ? [|?] | |]; done. }
  destruct (keep_slice (policy a) p) as [|pr rp|n|]; cbn; eauto.
  destruct (Hd _ _ eq_refl) as [ts Hts]. unfold rt_attr. rewrite Hts. cbn. eauto.
Qed.

Lemma policy_of_linux_accepted pol prio :
  match policy_of_linux (mkLinux pol 0 prio) with
  | ROk p => accepted pol prio = true ∧ linux_of_policy p = ROk (mkLinux pol 0 prio) ∧
             (∀ old, linux_of_policy (keep_slice old p) = ROk (mkLinux pol 0 prio)) ∧ (∀ base, slice_fits base p)
  | RErr e => accepted pol prio = false ∧ e = EINVAL
  end.
Proof.
  unfold policy_of_linux, accepted, static_to_rt, rt_to_static, SCHED_FIFO, SCHED_RR, SCHED_NORMAL, SCHED_IDLE.
  cbn [sched_policy sched_nice sched_priority]. change (is_nice 0) with true.
  bool_cases; subst; cbn; try lia; try (split; done);
    (split; [done|split; [|split; [intros [| ? [|?] | |]|done]]]); cbn; unfold rt_to_static; f_equal; f_equal; lia.
Qed.

(** [C34] For a thread that exists, [sched_setscheduler] accepts SCHED_FIFO and SCHED_RR with a
    priority from 1 to 99 and SCHED_NORMAL and SCHED_IDLE with priority 0, and then
    [sched_getscheduler] and [sched_getattr] report what was set, for this thread alone;
    it refuses everything else with EINVAL and changes nothing. That includes
    SCHED_BATCH, which the documentation lists as supported. The base time slice is
    below 2^59 clocks, and the slice of the old policy below 2^64. *)
Theorem setscheduler_exact base ts cur tid t a pol prio :
  0 ≤ base < 2 ^ 59 → 0 ≤ pol < 2 ^ 31 →
  access_sched_attr ts cur tid = ROk (t, a) → slice_fits base (policy a) →
  match sys_sched_setscheduler base ts cur tid pol (Some prio) with
  | Done (ROk _, ts') =>
      accepted pol prio = true ∧
      sys_sched_getscheduler ts' cur tid = ROk pol ∧
      sys_sched_getattr ts' cur tid 0 = ROk (mkLinux pol 0 prio) ∧
      (∀ u, u ≠ t → ts' !! u = ts !! u)
  | Done (RErr e, ts') => accepted pol prio = false ∧ e = EINVAL ∧ ts' = ts
  | Panic => False
  end.
Proof.
  intros Hb Hp Ha Hs. unfold sys_sched_setscheduler, install. rewrite Z.mod_small by lia.
  pose proof (policy_of_linux_accepted pol prio) as Hl.
  destruct (policy_of_linux (mkLinux pol 0 prio)) as [p|e]; [|naive_solver].
  destruct Hl as (Hacc & _ & Hk & Hf). rewrite Ha.
  destruct (set_policy_done base a p Hb Hs (Hf base)) as (a' & Hset & Hpol & _ & _). rewrite Hset.
  cbn [mbind outcome_bind].
  assert (Hacc' : access_sched_attr (<[t := a']> ts) cur tid = ROk (t, a')).
  { revert Ha. unfold access_sched_attr.
    destruct (tid =? 0); [|destruct (2 ^ 31 - 1 <? tid); [done|]];
      (destruct (ts !! _); [|done]); intros [= <- <-]; by rewrite (lookup_insert_eq). }
  unfold sys_sched_getscheduler, sys_sched_getattr. rewrite Hacc', Hpol, Hk.
  repeat split; try done. intros u Hu. by rewrite (lookup_insert_ne).
Qed.

Lemma setscheduler_exact_witness :
  match sys_sched_setscheduler 2250000 {[7 := mkAttr (Fair 0) KFair None (mkRt 99 0) (fair_new 0)]} 7 0 SCHED_RR (Some 40) with
  | Done (ROk _, ts') => sys_sched_getscheduler ts' 7 0 = ROk SCHED_RR
  | _ => False
  end.
Proof.
  pose proof (setscheduler_exact 2250000 {[7 := mkAttr (Fair 0) KFair None (mkRt 99 0) (fair_new 0)]} 7 0 7
    (mkAttr (Fair 0) KFair None (mkRt 99 0) (fair_new 0)) SCHED_RR 40 ltac:(lia)
    ltac:(vm_compute; split; [discriminate|reflexivity]) ltac:(vm_compute; reflexivity) I) as H.
  revert H. destruct (sys_sched_setscheduler _ _ _ _ _ _) as [[[[]|] ?]|]; intros H.
  - exact (proj1 (proj2 H)).
  - destruct H as [H _]. vm_compute in H. discriminate.
  - exact H.
Defined.

(** Two threads: one in the real-time class with Linux priority 99, one with 98 *)
Definition two_fifos : outcome (result unit Errno * Threads) :=
  attr_new 2250000 (Fair 0) ≫= λ a,
  sys_sched_setscheduler 2250000 {[1 := a; 2 := a]} 1 1 SCHED_FIFO (Some 99) ≫= λ '(_, ts),
  sys_sched_setscheduler 2250000 ts 1 2 SCHED_FIFO (Some 98).

Definition prio_of (ts : Threads) (tid : Z) : option Z := prio ∘ real_time <$> ts !! tid.

(** [sched_getparam] and [sched_setparam] take the internal priority, where 1 is the
    most urgent, for the Linux one, where 99 is: a thread set to 99 reads back 1, the two
    calls disagree with [sched_getattr], and writing back the 99 that [sched_setscheduler]
    took moves the thread from the most to the least urgent priority. A slice factor in
    place wins over the one of a new policy, and a thread set to SCHED_NORMAL at nice 19
    reports SCHED_IDLE. *)
Theorem sched_param_flaws :
  match two_fifos with
  | Done (ROk _, ts) =>
      sys_sched_getattr ts 1 1 0 = ROk (mkLinux SCHED_FIFO 0 99) ∧ sys_sched_getparam ts 1 1 = ROk 1 ∧
      prio_of ts 1 = Some 1 ∧ prio_of ts 2 = Some 2 ∧
      match sys_sched_setparam 2250000 ts 1 1 (Some 99) with
      | Done (ROk _, ts') => prio_of ts' 1 = Some 99 ∧ sys_sched_getattr ts' 1 1 0 = ROk (mkLinux SCHED_FIFO 0 1)
      | _ => False
      end
  | _ => False
  end ∧
  (∀ pr pr' f g, keep_slice (RealTime pr (RoundRobin (Some f))) (RealTime pr' (RoundRobin (Some g)))
     = RealTime pr' (RoundRobin (Some f))) ∧
  policy_of_linux (mkLinux SCHED_NORMAL 19 0) = ROk (Fair 19) ∧
  linux_of_policy (Fair 19) = ROk (mkLinux SCHED_IDLE 0 0).
Proof.
  split; [|repeat split; reflexivity]. vm_compute. repeat split.
Qed.

(** A weight set while the scheduler takes the one before can be lost for good: the
    flag is set already when the second [update] sets it, so the exchange of [fetch_weight]
    does not notice the update and clears the flag with the older weight; then nothing is
    under way, no flag is set, and the weight is not the one last asked for. *)
Theorem weight_update_lost n m k :
  is_nice n = true → is_nice m = true → is_nice k = true → nice_to_weight m ≠ nice_to_weight k →
  ∃ l s, Weight.run (Weight.init n) l = Some s ∧ Weight.quiet s ∧ Weight.has_pending (Weight.w_weight s) = false ∧
    Weight.requested s = nice_to_weight k ∧ Weight.w_weight s = nice_to_weight m.
Proof.
  intros Hn%nice_to_weight_bound Hm%nice_to_weight_bound Hk%nice_to_weight_bound Hne.
  set (w := nice_to_weight n) in *. set (x := nice_to_weight m) in *. set (y := nice_to_weight k) in *.
  assert (Hl : ∀ v, Weight.has_pending (Z.lor v HAS_PENDING) = true).
  { intros v. unfold Weight.has_pending. apply negb_true_iff, Z.eqb_neq. intros H%(f_equal (λ z, Z.testbit z 63)).
    by rewrite Z.land_spec, Z.lor_spec, orb_true_r in H. }
  exists [Weight.UStore x; Weight.UOr; Weight.FLoad; Weight.FPending; Weight.UStore y; Weight.UOr; Weight.FCas false].
  unfold Weight.run, Weight.init. fold w. cbn [foldl Weight.step Weight.storing Weight.fetcher Weight.w_weight Weight.w_pending Weight.requested].
  rewrite Hl. cbn [foldl Weight.step Weight.storing Weight.fetcher Weight.w_weight Weight.w_pending Weight.requested].
  rewrite <- Z.lor_assoc, Z.lor_diag, Z.eqb_refl. cbn [negb andb].
  eexists. split; [reflexivity|]. repeat split.
  unfold Weight.has_pending. apply negb_false_iff, Z.eqb_eq. apply Z.bits_inj'. intros i Hi.
  rewrite Z.land_spec, Z.bits_0. unfold HAS_PENDING. rewrite Z.pow2_bits_eqb by lia.
  destruct (Z.eqb_spec 63 i); [|apply andb_false_r]. subst i.
  change (Z.testbit x 63 && true = false). rewrite (Z.bits_above_log2 x 63); [done|lia|]. apply Z.log2_lt_pow2; lia.
Qed.

Lemma weight_update_lost_witness : ∃ l s, Weight.run (Weight.init 0) l = Some s ∧ Weight.quiet s ∧
  Weight.has_pending (Weight.w_weight s) = false ∧
  Weight.requested s = nice_to_weight 10 ∧ Weight.w_weight s = nice_to_weight (-5).
Proof. apply (weight_update_lost 0 (-5) 10); vm_compute; [reflexivity|reflexivity|reflexivity|discriminate]. Defined.

End SchedPolicy.
