(* ===== verification/SchedClass.v ===== *)
(** * The scheduling classes and the run queues of one CPU

    [kernel/src/sched/sched_class/]: the run queues of the stop, real-time, fair and idle
    classes ([stop.rs], [real_time.rs], [fair.rs], [idle.rs]), and the run queue of a CPU
    that is made of them, [PerCpuClassRqSet] ([mod.rs]). A task is named by a number; its
    attributes are in a map, and a task that is not there is not a thread. Every operation
    runs under the lock of its run queue; the time is an argument. *)

From S2P Require Import Prelude SchedPolicy.
Import SchedPolicy.
Local Open Scope Z_scope.

Module SchedClass.

Abbreviation Attrs := (gmap Z SchedAttr).

Inductive EnqueueFlags : Type := Spawn | Wake.
Inductive UpdateFlags : Type := Tick | Wait | Yield | Exit.

#[global] Instance EnqueueFlags_eq_dec : EqDecision EnqueueFlags.
Proof. solve_decision. Defined.
#[global] Instance UpdateFlags_eq_dec : EqDecision UpdateFlags.
Proof. solve_decision. Defined.

(** [base_slice_clocks()], [min_period_clocks()] and [num_cpus()] *)
Record Clk : Type := mkClk { base_slice : Z; min_period : Z; ncpus : Z }.

(** ** The real-time class *)

Record PrioArray : Type := mkPrio { map : list bool; queue : list (list Z) }.

Definition prio_new : PrioArray := mkPrio (replicate 100 false) (replicate 100 []).

(** [map.iter_ones().next()] *)
Definition first_one (m : list bool) : option nat := fst <$> list_find (λ b, b = true) m.

Definition prio_enqueue (a : PrioArray) (t : Z) (prio : Z) : outcome PrioArray :=
  let i := Z.to_nat prio in
  unwrap (queue a !! i) ≫= λ q,
  Done (mkPrio (match q with [] => <[i := true]> (map a) | _ => map a end) (<[i := q ++ [t]]> (queue a))).

Definition prio_pop (a : PrioArray) : outcome (option Z * PrioArray) :=
  match first_one (map a) with
  | None => Done (None, a)
  | Some i =>
      unwrap (queue a !! i) ≫= λ q,
      match q with
      | [] => Panic
      | t :: q => Done (Some t, mkPrio (match q with [] => <[i := false]> (map a) | _ => map a end) (<[i := q]> (queue a)))
      end
  end.

Definition peek_prio (a : PrioArray) : option Z := Z.of_nat <$> first_one (map a).

(** [array[0]] and [array[1]] by [index]: the active array is [array[index]]. *)
Record RealTimeClassRq : Type := mkRtRq { index : bool; array0 : PrioArray; array1 : PrioArray; nr_running : Z }.

Definition rt_new : RealTimeClassRq := mkRtRq false prio_new prio_new 0.

Definition array_at (rq : RealTimeClassRq) (i : bool) : PrioArray := if i then array1 rq else array0 rq.
Definition set_array (rq : RealTimeClassRq) (i : bool) (a : PrioArray) : RealTimeClassRq :=
  if i then mkRtRq (index rq) (array0 rq) a (nr_running rq) else mkRtRq (index rq) a (array1 rq) (nr_running rq).

Definition active_array (rq : RealTimeClassRq) : PrioArray := array_at rq (index rq).
Definition inactive_array (rq : RealTimeClassRq) : PrioArray := array_at rq (negb (index rq)).
Definition swap_arrays (rq : RealTimeClassRq) : RealTimeClassRq :=
  mkRtRq (negb (index rq)) (array0 rq) (array1 rq) (nr_running rq).
Definition set_nr (rq : RealTimeClassRq) (n : Z) : RealTimeClassRq :=
  mkRtRq (index rq) (array0 rq) (array1 rq) n.

Definition rt_enqueue (at_ : Attrs) (rq : RealTimeClassRq) (t : Z) : outcome RealTimeClassRq :=
  unwrap (at_ !! t) ≫= λ a,
  prio_enqueue (inactive_array rq) t (prio (real_time a)) ≫= λ p,
  let rq := set_array rq (negb (index rq)) p in
  u64_add (nr_running rq) 1 ≫= λ n, Done (set_nr rq n).

Definition rt_is_empty (rq : RealTimeClassRq) : bool := nr_running rq =? 0.

(** [active_array().pop()] *)
Definition pop_active (rq : RealTimeClassRq) : outcome (option Z * RealTimeClassRq) :=
  prio_pop (active_array rq) ≫= λ '(o, p), Done (o, set_array rq (index rq) p).

Definition rt_pick_next (rq : RealTimeClassRq) : outcome (option Z * RealTimeClassRq) :=
  if nr_running rq =? 0 then Done (None, rq)
  else
    pop_active rq ≫= λ '(o, rq),
    (match o with Some t => Done (Some t, rq) | None => pop_active (swap_arrays rq) end) ≫= λ '(o, rq),
    match o with
    | Some t => u64_sub (nr_running rq) 1 ≫= λ n, Done (Some t, set_nr rq n)
    | None => Done (None, rq)
    end.

(** [CurrentRuntime]: how long the current task has run *)
Record CurrentRuntime : Type := mkRun { start : Z; delta : Z; period_delta : Z }.

Definition runtime_new (now : Z) : CurrentRuntime := mkRun now 0 0.
Definition runtime_update (rt : CurrentRuntime) (now : Z) : outcome CurrentRuntime :=
  u64_sub now (start rt) ≫= λ d, u64_add (period_delta rt) d ≫= λ p, Done (mkRun now d p).

Definition rt_update_current (rq : RealTimeClassRq) (rt : CurrentRuntime) (a : RealTimeAttr) (flags : UpdateFlags) : bool :=
  match flags with
  | Tick | Yield =>
      if time_slice a =? 0 then
        match peek_prio (active_array rq) with
        | Some _ => true
        | None => match peek_prio (inactive_array rq) with Some p => p <? prio a | None => false end
        end
      else (time_slice a <=? period_delta rt) && negb (rt_is_empty rq)
  | Wait | Exit => negb (rt_is_empty rq)
  end.

(** ** The fair class *)

(** [entities]: the items of the heap, a task with its key, in no order *)
Record FairClassRq : Type := mkFairRq { entities : list (Z * Z); min_vruntime : Z; total_weight : Z }.

Definition fair_rq_new : FairClassRq := mkFairRq [] 0 0.

Definition entities_len (rq : FairClassRq) : Z := Z.of_nat (length (entities rq)).

Definition period (ck : Clk) (rq : FairClassRq) : outcome Z :=
  u64_mul (base_slice ck) (entities_len rq + 1) ≫= λ p,
  u64_mul (Z.max p (min_period ck)) (Z.log2 (1 + ncpus ck)).

Definition vtime_slice (ck : Clk) (rq : FairClassRq) : outcome Z :=
  period ck rq ≫= λ p, Done (p / (entities_len rq + 1)).

Definition fair_time_slice (ck : Clk) (rq : FairClassRq) (w : Z) : outcome Z :=
  period ck rq ≫= λ p, u64_mul p w ≫= λ x, u64_add (total_weight rq) w ≫= λ y, u64_div x y.

(** The attribute of a thread with another fair part *)
Definition set_fair (a : SchedAttr) (f : FairAttr) : SchedAttr :=
  mkAttr (policy a) (policy_kind a) (last_cpu a) (real_time a) f.

Definition fair_enqueue (ck : Clk) (at_ : Attrs) (rq : FairClassRq) (t : Z) (flags : option EnqueueFlags)
  : outcome (FairClassRq * Attrs) :=
  unwrap (at_ !! t) ≫= λ a,
  (match flags with
   | Some Spawn => vtime_slice ck rq ≫= λ v, u64_add (min_vruntime rq) v
   | _ => Done (min_vruntime rq)
   end) ≫= λ v,
  let '(_, w, f) := fetch_weight (fair a) in
  let '(v, f) := raise_vruntime f v in
  u64_add (total_weight rq) w ≫= λ tw,
  Done (mkFairRq (entities rq ++ [(t, v)]) (min_vruntime rq) tw, <[t := set_fair a f]> at_).

(** The smallest key: that of [entities.peek()] *)
Definition min_key (l : list (Z * Z)) : option Z :=
  match l with [] => None | e :: l => Some (foldr (λ e m, Z.min (snd e) m) (snd e) l) end.

(** [entities.pop()]: an item with the smallest key, the [tie]-th of them; which one the
    heap returns is not documented *)
Definition heap_pop (tie : nat) (l : list (Z * Z)) : option (Z * list (Z * Z)) :=
  match min_key l with
  | None => None
  | Some k =>
      let js := filter (λ i, snd <$> l !! i = Some k) (seq 0 (length l)) in
      match js !! (tie mod length js)%nat with
      | Some i => match l !! i with Some e => Some (e.1, delete i l) | None => None end
      | None => None
      end
  end.

Definition fair_pick_next (tie : nat) (at_ : Attrs) (rq : FairClassRq) : outcome (option Z * FairClassRq * Attrs) :=
  match heap_pop tie (entities rq) with
  | None => Done (None, rq, at_)
  | Some (t, l) =>
      unwrap (at_ !! t) ≫= λ a,
      let '(old, _, f) := fetch_weight (fair a) in
      u64_sub (total_weight rq) old ≫= λ tw,
      Done (Some t, mkFairRq l (min_vruntime rq) tw, <[t := set_fair a f]> at_)
  end.

Definition fair_update_current (ck : Clk) (rq : FairClassRq) (rt : CurrentRuntime) (f : FairAttr) (flags : UpdateFlags)
  : outcome (bool * FairClassRq * FairAttr) :=
  match flags with
  | Exit => Done (negb (match entities rq with [] => true | _ => false end), rq, f)
  | _ =>
      let '(_, w, f) := fetch_weight f in
      update_vruntime f (delta rt) w ≫= λ '(v, f),
      let leftmost := min_key (entities rq) in
      let rq := mkFairRq (entities rq) (match leftmost with Some k => Z.min v k | None => v end) (total_weight rq) in
      match leftmost with
      | None => Done (false, rq, f)
      | Some _ =>
          match flags with
          | Wait => Done (true, rq, f)
          | _ =>
              fair_time_slice ck rq w ≫= λ ts,
              if ts <? period_delta rt then Done (true, rq, f)
              else
                vtime_slice ck rq ≫= λ vs, u64_add (min_vruntime rq) vs ≫= λ lim,
                Done (lim <? v, rq, f)
          end
      end
  end.

(** ** The run queue of a CPU *)

(** [stop] and [idle] are the slots of [StopClassRq] and [IdleClassRq]. *)
Record PerCpuClassRqSet : Type := mkRq {
  stop : option Z;
  real_time_rq : RealTimeClassRq;
  fair_rq : FairClassRq;
  idle : option Z;
  current : option (Z * CurrentRuntime);
}.

Definition rq_new : PerCpuClassRqSet := mkRq None rt_new fair_rq_new None None.

Definition is_some {A} (o : option A) : bool := match o with Some _ => true | None => false end.
Definition fair_is_empty (rq : FairClassRq) : bool := match entities rq with [] => true | _ => false end.

Definition set_rt (rq : PerCpuClassRqSet) (r : RealTimeClassRq) : PerCpuClassRqSet :=
  mkRq (stop rq) r (fair_rq rq) (idle rq) (current rq).
Definition set_fair_rq (rq : PerCpuClassRqSet) (f : FairClassRq) : PerCpuClassRqSet :=
  mkRq (stop rq) (real_time_rq rq) f (idle rq) (current rq).
Definition set_current (rq : PerCpuClassRqSet) (c : option (Z * CurrentRuntime)) : PerCpuClassRqSet :=
  mkRq (stop rq) (real_time_rq rq) (fair_rq rq) (idle rq) c.

(** [pick_next_entity] *)
Definition pick_next_entity (tie : nat) (at_ : Attrs) (rq : PerCpuClassRqSet) : outcome (option Z * PerCpuClassRqSet * Attrs) :=
  let entity t := if is_some (at_ !! t) then Some t else None in
  match stop rq with
  | Some t => Done (entity t, mkRq None (real_time_rq rq) (fair_rq rq) (idle rq) (current rq), at_)
  | None =>
      rt_pick_next (real_time_rq rq) ≫= λ '(o, r),
      let rq := set_rt rq r in
      match o with
      | Some t => Done (entity t, rq, at_)
      | None =>
          fair_pick_next tie at_ (fair_rq rq) ≫= λ '(o, f, at_),
          let rq := set_fair_rq rq f in
          match o with
          | Some t => Done (entity t, rq, at_)
          | None =>
              Done (match idle rq with Some t => entity t | None => None end,
                    mkRq (stop rq) (real_time_rq rq) (fair_rq rq) None (current rq), at_)
          end
      end
  end.

(** [enqueue_entity]; the slots of the stop and the idle class hold one task, a task in
    the slot is dropped *)
Definition enqueue_entity (ck : Clk) (at_ : Attrs) (rq : PerCpuClassRqSet) (t : Z) (flags : option EnqueueFlags)
  : outcome (PerCpuClassRqSet * Attrs) :=
  unwrap (at_ !! t) ≫= λ a,
  match policy_kind a with
  | KStop => Done (mkRq (Some t) (real_time_rq rq) (fair_rq rq) (idle rq) (current rq), at_)
  | KRealTime => rt_enqueue at_ (real_time_rq rq) t ≫= λ r, Done (set_rt rq r, at_)
  | KFair => fair_enqueue ck at_ (fair_rq rq) t flags ≫= λ '(f, at_), Done (set_fair_rq rq f, at_)
  | KIdle => Done (mkRq (stop rq) (real_time_rq rq) (fair_rq rq) (Some t) (current rq), at_)
  end.

(** [load_stats]: the length of the queue without the idle task, and whether the CPU idles *)
Definition load_stats (at_ : Attrs) (rq : PerCpuClassRqSet) : Z * bool :=
  (((if is_some (stop rq) then 1 else 0) + nr_running (real_time_rq rq) + entities_len (fair_rq rq)) mod 2 ^ 32,
   match current rq with
   | Some (t, _) => match at_ !! t with Some a => bool_decide (policy_kind a = KIdle) | None => true end
   | None => true
   end).

Definition try_pick_next (ck : Clk) (tie : nat) (now : Z) (at_ : Attrs) (rq : PerCpuClassRqSet)
  : outcome (option Z * PerCpuClassRqSet * Attrs) :=
  pick_next_entity tie at_ rq ≫= λ '(o, rq, at_),
  match o with
  | None => Done (None, rq, at_)
  | Some t =>
      let old := current rq in
      let rq := set_current rq (Some (t, runtime_new now)) in
      match old with
      | None => Done (Some t, rq, at_)
      | Some (u, _) => enqueue_entity ck at_ rq u None ≫= λ '(rq, at_), Done (Some t, rq, at_)
      end
  end.

(** The first half of [update_current]: the answer of the class of the current task, and
    how many classes above it can take over from it *)
Definition update_class (ck : Clk) (now : Z) (at_ : Attrs) (rq : PerCpuClassRqSet) (flags : UpdateFlags)
  : outcome (bool * Z * PerCpuClassRqSet * Attrs) :=
  match current rq with
  | None => Done (false, 4, rq, at_)
  | Some (t, rt) =>
      runtime_update rt now ≫= λ rt,
      let rq := set_current rq (Some (t, rt)) in
      unwrap (at_ !! t) ≫= λ a,
      match policy_kind a with
      | KStop => Done (false, 0, rq, at_)
      | KRealTime => Done (rt_update_current (real_time_rq rq) rt (real_time a) flags, 1, rq, at_)
      | KFair =>
          fair_update_current ck (fair_rq rq) rt (fair a) flags ≫= λ '(b, f, fa),
          Done (b, 2, set_fair_rq rq f, <[t := set_fair a fa]> at_)
      | KIdle => Done (is_some (idle rq), 3, rq, at_)
      end
  end.

Definition update_current (ck : Clk) (now : Z) (at_ : Attrs) (rq : PerCpuClassRqSet) (flags : UpdateFlags)
  : outcome (bool * PerCpuClassRqSet * Attrs) :=
  update_class ck now at_ rq flags ≫= λ '(should_preempt, lookahead, rq, at_),
  let lookahead := match flags with Wait | Exit => 4 | _ => lookahead end in
  Done (should_preempt
        || ((1 <=? lookahead) && is_some (stop rq))
        || ((2 <=? lookahead) && negb (rt_is_empty (real_time_rq rq)))
        || ((3 <=? lookahead) && negb (fair_is_empty (fair_rq rq)))
        || ((4 <=? lookahead) && is_some (idle rq)), rq, at_).

(** [dequeue_current]; the caller clears the CPU of the task *)
Definition dequeue_current (rq : PerCpuClassRqSet) : option Z * PerCpuClassRqSet :=
  (fst <$> current rq, set_current rq None).

(** ** The tasks of a run queue *)

Definition prio_tasks (a : PrioArray) : list Z := concat (queue a).
Definition rt_tasks (rq : RealTimeClassRq) : list Z := prio_tasks (array0 rq) ++ prio_tasks (array1 rq).
Definition fair_tasks (rq : FairClassRq) : list Z := fst <$> entities rq.

(** The tasks that wait, and all tasks with the current one *)
Definition queued (rq : PerCpuClassRqSet) : list Z :=
  option_list (stop rq) ++ rt_tasks (real_time_rq rq) ++ fair_tasks (fair_rq rq) ++ option_list (idle rq).
Definition members (rq : PerCpuClassRqSet) : list Z := option_list (fst <$> current rq) ++ queued rq.

(** Queueing a task of the stop or the idle class does not overwrite another one, what
    [debug_assert!] checks in [StopClassRq::enqueue] and [IdleClassRq::enqueue]. *)
Definition slot_free (at_ : Attrs) (rq : PerCpuClassRqSet) (t : Z) : bool :=
  match policy_kind <$> at_ !! t with
  | Some KStop => negb (is_some (stop rq))
  | Some KIdle => negb (is_some (idle rq))
  | _ => true
  end.

(** ** No task is lost or doubled *)

Lemma prio_enqueue_tasks a t p a' :
  prio_enqueue a t p = Done a' → prio_tasks a' ≡ₚ t :: prio_tasks a.
Proof.
  unfold prio_enqueue. intros (q & Hq%unwrap_done & [= <-])%bind_done.
  unfold prio_tasks. cbn [queue]. destruct (concat_insert _ _ _ Hq) as (r & Hr & Hi).
  rewrite Hi, Hr. rewrite <- app_assoc. cbn. symmetry. apply Permutation_middle.
Qed.

Lemma prio_pop_tasks a o a' :
  prio_pop a = Done (o, a') → prio_tasks a ≡ₚ option_list o ++ prio_tasks a'.
Proof.
  unfold prio_pop. destruct (first_one (map a)) as [i|]; [|by intros [= <- <-]].
  intros (q & Hq%unwrap_done & H)%bind_done. destruct q as [|t q]; [done|]. injection H as <- <-.
  unfold prio_tasks. cbn [queue]. destruct (concat_insert _ _ _ Hq) as (r & Hr & Hi). by rewrite Hi, Hr.
Qed.

Lemma set_array_tasks rq i a :
  rt_tasks (set_array rq i a) ≡ₚ prio_tasks a ++ prio_tasks (array_at rq (negb i)).
Proof. destruct i; cbn; [apply Permutation_app_comm|done]. Qed.

Lemma array_at_tasks rq i : rt_tasks rq ≡ₚ prio_tasks (array_at rq i) ++ prio_tasks (array_at rq (negb i)).
Proof. destruct i; cbn; [apply Permutation_app_comm|done]. Qed.

Lemma rt_enqueue_tasks at_ rq t rq' : rt_enqueue at_ rq t = Done rq' → rt_tasks rq' ≡ₚ t :: rt_tasks rq.
Proof.
  unfold rt_enqueue. intros (a & _ & (p & Hp%prio_enqueue_tasks & (n & _ & [= <-])%bind_done)%bind_done)%bind_done.
  change (rt_tasks (set_array rq (negb (index rq)) p) ≡ₚ t :: rt_tasks rq).
  by rewrite set_array_tasks, Hp, (array_at_tasks rq (negb (index rq))).
Qed.

Lemma pop_active_tasks rq o rq' : pop_active rq = Done (o, rq') → rt_tasks rq ≡ₚ option_list o ++ rt_tasks rq'.
Proof.
  unfold pop_active. intros ([o' p] & Hp%prio_pop_tasks & [= <- <-])%bind_done.
  rewrite set_array_tasks, (array_at_tasks rq (index rq)). unfold active_array in Hp. by rewrite Hp, <- app_assoc.
Qed.

Lemma rt_pick_next_tasks rq o rq' : rt_pick_next rq = Done (o, rq') → rt_tasks rq ≡ₚ option_list o ++ rt_tasks rq'.
Proof.
  unfold rt_pick_next. destruct (nr_running rq =? 0); [by intros [= <- <-]|].
  intros ([o1 r1] & H1%pop_active_tasks & ([o2 r2] & H2 & H3)%bind_done)%bind_done.
  assert (H : rt_tasks rq ≡ₚ option_list o2 ++ rt_tasks r2).
  { destruct o1 as [t|]; [by injection H2 as <- <-|]. rewrite H1. exact (pop_active_tasks _ _ _ H2). }
  rewrite H. destruct o2 as [t|]; [|by injection H3 as <- <-].
  apply bind_done in H3 as (n & _ & [= <- <-]). done.
Qed.

Lemma fair_enqueue_tasks ck at_ rq t flags rq' at' :
  fair_enqueue ck at_ rq t flags = Done (rq', at') → fair_tasks rq' = fair_tasks rq ++ [t].
Proof.
  unfold fair_enqueue. intros (a & _ & (v & _ & H)%bind_done)%bind_done.
  destruct (fetch_weight (fair a)) as [[? w] f]. destruct (raise_vruntime f v) as [v' f'].
  apply bind_done in H as (tw & _ & [= <- <-]). unfold fair_tasks. cbn. by rewrite fmap_app.
Qed.

Lemma heap_pop_some tie l t l' :
  heap_pop tie l = Some (t, l') → ∃ i k, l !! i = Some (t, k) ∧ l' = delete i l ∧ min_key l = Some k.
Proof.
  unfold heap_pop. destruct (min_key l) as [k|]; [|done].
  destruct (filter _ _ !! _) as [i|] eqn:Hj; [|done].
  destruct (l !! i) as [[u k']|] eqn:Hi; [|done]. intros [= <- <-].
  apply list_elem_of_lookup_2, list_elem_of_filter in Hj as [Hj _]. rewrite Hi in Hj. injection Hj as ->.
  by exists i, k.
Qed.

Lemma fair_pick_next_tasks tie at_ rq o rq' at' :
  fair_pick_next tie at_ rq = Done (o, rq', at') → fair_tasks rq ≡ₚ option_list o ++ fair_tasks rq'.
Proof.
  unfold fair_pick_next. destruct (heap_pop tie (entities rq)) as [[t l]|] eqn:Hp; [|by intros [= <- <- <-]].
  intros (a & _ & H)%bind_done. destruct (fetch_weight (fair a)) as [[old ?] f].
  apply bind_done in H as (tw & _ & [= <- <- <-]).
  destruct (heap_pop_some _ _ _ _ Hp) as (i & k & Hi & -> & _).
  unfold fair_tasks. cbn [entities option_list]. exact (fmap_Permutation fst _ _ (delete_Permutation _ _ _ Hi)).
Qed.

Lemma enqueue_entity_tasks ck at_ rq t flags rq' at' :
  slot_free at_ rq t = true → enqueue_entity ck at_ rq t flags = Done (rq', at') →
  queued rq' ≡ₚ t :: queued rq ∧ current rq' = current rq.
Proof.
  unfold enqueue_entity, slot_free. intros Hs (a & Ha%unwrap_done & H)%bind_done. rewrite Ha in Hs. cbn in Hs.
  destruct (policy_kind a).
  - injection H as <- <-. split; [|done]. unfold queued. cbn. by destruct (stop rq).
  - apply bind_done in H as (r & Hr%rt_enqueue_tasks & [= <- <-]). split; [|done].
    unfold queued. cbn. rewrite Hr. solve_Permutation.
  - apply bind_done in H as ([f at2] & Hf%fair_enqueue_tasks & [= <- <-]). split; [|done].
    unfold queued. cbn. rewrite Hf. solve_Permutation.
  - injection H as <- <-. split; [|done]. unfold queued. cbn. destruct (idle rq); [done|]. cbn. solve_Permutation.
Qed.

End SchedClass.
