(* ===== verification/SchedRun.v ===== *)
(** * Runs of the run queue of a CPU

    What the operations of [SchedClass] promise, the contract of [LocalRunQueue]
    ([osxtd/src/task/scheduler/mod.rs]) among them: no task is lost or doubled, the order
    in which tasks are picked, the accounts of the fair class, and that no operation
    panics for as long as the clock and the number of threads are bounded. *)

From S2P Require Import Prelude SchedPolicy SchedClass.
Import SchedPolicy SchedClass.
Local Open Scope Z_scope.

Module SchedRun.

Lemma u64_add_done a b : a + b < 2 ^ 64 → u64_add a b = Done (a + b).
Proof. intros H. unfold u64_add, checked_add. destruct (Z.ltb_spec (a + b) (2 ^ 64)); [done|lia]. Qed.
Lemma u64_sub_done a b : b ≤ a → u64_sub a b = Done (a - b).
Proof. intros H. unfold u64_sub, checked_sub. destruct (Z.leb_spec b a); [done|lia]. Qed.
Lemma u64_mul_done a b : a * b < 2 ^ 64 → u64_mul a b = Done (a * b).
Proof. intros H. unfold u64_mul, checked_mul. destruct (Z.ltb_spec (a * b) (2 ^ 64)); [done|lia]. Qed.
Lemma u64_div_done a b : 0 < b → u64_div a b = Done (a / b).
Proof. intros H. unfold u64_div. destruct (Z.eqb_spec b 0); [lia|done]. Qed.

Lemma concat_nils {A} (ls : list (list A)) : (∀ q, q ∈ ls → q = []) → concat ls = [].
Proof.
  induction ls as [|q l IH]; intros Hn; [done|].
  cbn. rewrite (Hn q ltac:(left)), IH; [done|]. intros r Hr. apply Hn. by right.
Qed.

(** ** The arrays of the real-time class *)

(** The bit of a priority is set when its queue is not empty. *)
Definition prio_wf (a : PrioArray) : Prop :=
  length (map a) = 100%nat ∧ length (queue a) = 100%nat ∧
  ∀ i q, queue a !! i = Some q → map a !! i = Some (bool_decide (q ≠ [])).

Lemma prio_new_wf : prio_wf prio_new.
Proof.
  split; [done|]. split; [done|]. unfold prio_new. cbn [queue map]. intros i q [-> Hi]%lookup_replicate.
  by apply lookup_replicate.
Qed.

(** The first priority whose bit is set holds the first task of the array. *)
Lemma first_one_some a i :
  prio_wf a → first_one (map a) = Some i →
  ∃ t q, queue a !! i = Some (t :: q) ∧ ∀ j, (j < i)%nat → queue a !! j = Some [].
Proof.
  intros (Hm & Hq & Hw). unfold first_one. destruct (list_find _ _) as [[j b]|] eqn:Hf; [|done].
  intros [= <-]. apply list_find_Some in Hf as (Hb & -> & Hlt).
  assert (Hex : ∀ k, (k ≤ j)%nat → ∃ q, queue a !! k = Some q).
  { intros k Hk. apply lookup_lt_is_Some. rewrite Hq. apply lookup_lt_Some in Hb. lia. }
  destruct (Hex j (le_n _)) as [q Hj]. pose proof (Hw _ _ Hj) as Hb'. rewrite Hb in Hb'. injection Hb' as Hb'.
  destruct q as [|t q]; [by rewrite bool_decide_false in Hb' by (by intros [])|].
  exists t, q. split; [done|]. intros k Hk. destruct (Hex k ltac:(lia)) as [[|u r] Hr]; [done|].
  pose proof (Hw _ _ Hr) as Hb2. rewrite bool_decide_true in Hb2 by done. by destruct (Hlt k true Hb2).
Qed.

Lemma first_one_none a : prio_wf a → first_one (map a) = None → prio_tasks a = [].
Proof.
  intros (Hm & Hq & Hw). unfold first_one. destruct (list_find _ _) as [[j b]|] eqn:Hf; [done|]. intros _.
  apply list_find_None in Hf. rewrite Forall_lookup in Hf.
  apply concat_nils. intros q [i Hi]%list_elem_of_lookup. destruct q as [|t q]; [done|].
  pose proof (Hw _ _ Hi) as Hb. rewrite bool_decide_true in Hb by done. by destruct (Hf _ _ Hb).
Qed.

(** Storing a queue with its bit *)
Lemma prio_store_wf a i q :
  prio_wf a → (i < 100)%nat → prio_wf (mkPrio (<[i := bool_decide (q ≠ [])]> (map a)) (<[i := q]> (queue a))).
Proof.
  intros (Hm & Hq & Hw) Hi. split; [cbn [map]; by rewrite length_insert|]. split; [cbn [queue]; by rewrite length_insert|].
  cbn [queue map]. intros j r Hj. destruct (decide (i = j)) as [<-|Hne].
  - rewrite list_lookup_insert_eq in Hj by lia. injection Hj as <-. apply list_lookup_insert_eq. lia.
  - rewrite list_lookup_insert_ne in Hj by done. rewrite list_lookup_insert_ne by done. auto.
Qed.

(** Storing a queue whose bit stays *)
Lemma prio_keep_wf a i q r :
  prio_wf a → queue a !! i = Some q → bool_decide (q ≠ []) = bool_decide (r ≠ []) →
  prio_wf (mkPrio (map a) (<[i := r]> (queue a))).
Proof.
  intros (Hm & Hq & Hw) Hi Hb. split; [done|]. split; [cbn [queue]; by rewrite length_insert|].
  cbn [queue map]. intros j s Hj. destruct (decide (i = j)) as [<-|Hne].
  - rewrite list_lookup_insert_eq in Hj by (by eapply lookup_lt_Some). injection Hj as <-. rewrite <- Hb. auto.
  - rewrite list_lookup_insert_ne in Hj by done. auto.
Qed.

Lemma prio_enqueue_done a t p :
  prio_wf a → 0 ≤ p < 100 → ∃ a', prio_enqueue a t p = Done a' ∧ prio_wf a'.
Proof.
  intros Ha Hp. pose proof Ha as (Hm & Hq & Hw).
  destruct (lookup_lt_is_Some_2 (queue a) (Z.to_nat p)) as [q Hl]; [lia|].
  unfold prio_enqueue. rewrite Hl. cbn. eexists. split; [done|]. destruct q as [|u q].
  - apply (prio_store_wf a (Z.to_nat p) [t]); [done|lia].
  - by apply (prio_keep_wf a _ (u :: q)).
Qed.

Lemma prio_pop_done a :
  prio_wf a → ∃ o a', prio_pop a = Done (o, a') ∧ prio_wf a' ∧ (o = None → a' = a ∧ prio_tasks a = []).
Proof.
  intros Ha. unfold prio_pop. destruct (first_one (map a)) as [i|] eqn:Hf.
  - destruct (first_one_some _ _ Ha Hf) as (t & q & Hq & _). rewrite Hq. cbn.
    eexists _, _. split; [done|]. split; [|done].
    pose proof Ha as (_ & Hl & _). apply lookup_lt_Some in Hq as Hi.
    destruct q as [|u q]; [apply (prio_store_wf a i []); [done|lia]|by apply (prio_keep_wf a i (t :: u :: q))].
  - eexists _, _. split; [done|]. split; [done|]. intros _. split; [done|]. by apply first_one_none.
Qed.

(** [pop] takes the first task in the order of the priorities. *)
Lemma prio_pop_head a o a' :
  prio_wf a → prio_pop a = Done (o, a') → o = head (prio_tasks a) ∧ prio_tasks a' = tail (prio_tasks a).
Proof.
  intros Ha. unfold prio_pop. destruct (first_one (map a)) as [i|] eqn:Hf.
  - destruct (first_one_some _ _ Ha Hf) as (t & q & Hq & Hlt). rewrite Hq. cbn. intros [= <- <-].
    assert (Hc : concat (take i (queue a)) = []).
    { apply concat_nils. intros r [j Hj]%list_elem_of_lookup. apply lookup_take_Some in Hj as [Hj Hji]. specialize (Hlt j Hji). by simplify_eq. }
    unfold prio_tasks. cbn [queue].
    rewrite insert_take_drop by (by eapply lookup_lt_Some).
    assert (Hall : concat (queue a) = (t :: q) ++ concat (drop (S i) (queue a))).
    { rewrite <- (take_drop_middle _ _ _ Hq) at 1. by rewrite concat_app, Hc. }
    by rewrite Hall, concat_app, Hc.
  - intros [= <- <-]. by rewrite (first_one_none _ Ha Hf).
Qed.

(** A reference for the array: the items in the order they came, of which the first with
    the smallest priority goes out *)
Definition ref_pop (l : list (Z * Z)) : option (Z * list (Z * Z)) :=
  match l with
  | [] => None
  | e :: l' =>
      let p := foldr (λ e m, Z.min (fst e) m) (fst e) l' in
      match list_find (λ e, fst e = p) l with Some (i, e) => Some (snd e, delete i l) | None => None end
  end.

(** The array stands for the items [l]: the queue of a priority holds its tasks in the
    order they came. *)
Definition prio_abs (a : PrioArray) (l : list (Z * Z)) : Prop :=
  prio_wf a ∧ Forall (λ e, 0 ≤ fst e < 100) l ∧
  ∀ i q, queue a !! i = Some q → q = snd <$> filter (λ e, fst e = Z.of_nat i) l.

Inductive PrioOp : Type := PEnqueue (t prio : Z) | PPop.

Definition prio_do (a : PrioArray) (op : PrioOp) : outcome (option Z * PrioArray) :=
  match op with
  | PEnqueue t p => prio_enqueue a t p ≫= λ a, Done (None, a)
  | PPop => prio_pop a
  end.

Definition ref_do (l : list (Z * Z)) (op : PrioOp) : option Z * list (Z * Z) :=
  match op with
  | PEnqueue t p => (None, l ++ [(p, t)])
  | PPop => match ref_pop l with Some (t, l) => (Some t, l) | None => (None, l) end
  end.

Fixpoint prio_run (a : PrioArray) (ops : list PrioOp) : outcome (list (option Z)) :=
  match ops with
  | [] => Done []
  | op :: ops => prio_do a op ≫= λ '(o, a), prio_run a ops ≫= λ r, Done (o :: r)
  end.

Fixpoint ref_run (l : list (Z * Z)) (ops : list PrioOp) : list (option Z) :=
  match ops with [] => [] | op :: ops => let '(o, l) := ref_do l op in o :: ref_run l ops end.

Definition prio_op_ok (op : PrioOp) : Prop :=
  match op with PEnqueue _ p => 0 ≤ p < 100 | PPop => True end.

Lemma foldr_min_spec (g : Z * Z → Z) (l : list (Z * Z)) (m : Z) :
  let r := foldr (λ e n, Z.min (g e) n) m l in
  (r = m ∨ ∃ e, e ∈ l ∧ g e = r) ∧ r ≤ m ∧ ∀ e, e ∈ l → r ≤ g e.
Proof.
  induction l as [|x l IH]; cbn; [split; [by left|]; split; [lia|]; set_solver|].
  destruct IH as (H1 & H2 & H3). set (r := foldr _ m l) in *. split; [|split; [lia|]].
  - destruct (Z.min_spec (g x) r) as [[_ ->]|[_ ->]]; [right; exists x; set_solver|].
    destruct H1 as [->|(e & He & ?)]; [by left|right; exists e; set_solver].
  - intros e [->|He]%elem_of_cons; [lia|]. specialize (H3 e He). lia.
Qed.

Lemma filter_delete_first (P : Z * Z → Prop) `{∀ e, Decision (P e)} l i e :
  list_find P l = Some (i, e) → filter P l = e :: filter P (delete i l).
Proof.
  revert i; induction l as [|x l IH]; intros i; [done|]. cbn [list_find].
  destruct (decide (P x)) as [Hp|Hp].
  - intros [= <- <-]. by rewrite filter_cons_True.
  - destruct (list_find P l) as [[j y]|]; [|done]. intros [= <- <-].
    change (filter P (x :: l) = y :: filter P (x :: delete j l)).
    rewrite !(filter_cons_False P x) by done. by apply IH.
Qed.

Lemma filter_delete_other (P : Z * Z → Prop) `{∀ e, Decision (P e)} (l : list (Z * Z)) (i : nat) e :
  l !! i = Some e → ¬ P e → filter P (delete i l) = filter P l.
Proof.
  revert i; induction l as [|x l IH]; intros [|i] Hi Hp; [done|done| |].
  - injection Hi as ->. change (filter P l = filter P (e :: l)). by rewrite filter_cons_False.
  - change (filter P (x :: delete i l) = filter P (x :: l)). rewrite !filter_cons. by rewrite (IH i).
Qed.

Lemma prio_enqueue_abs a l t p :
  prio_abs a l → 0 ≤ p < 100 → ∃ a', prio_enqueue a t p = Done a' ∧ prio_abs a' (l ++ [(p, t)]).
Proof.
  intros (Ha & Hl & Hq) Hp. destruct (prio_enqueue_done a t p Ha Hp) as (a' & He & Ha').
  exists a'. split; [done|]. split; [done|]. split; [apply Forall_app; by rewrite Forall_singleton|].
  unfold prio_enqueue in He. apply bind_done in He as (q & Hi%unwrap_done & [= <-]). cbn [queue].
  intros j r Hj. rewrite filter_app, fmap_app. destruct (decide (Z.to_nat p = j)) as [<-|Hne].
  - rewrite list_lookup_insert_eq in Hj by (by eapply lookup_lt_Some). injection Hj as <-.
    rewrite (Hq _ _ Hi). rewrite (filter_cons_True _ (p, t)) by (cbn; lia). done.
  - rewrite list_lookup_insert_ne in Hj by done. rewrite (Hq _ _ Hj).
    rewrite (filter_cons_False _ (p, t)) by (cbn; lia). by rewrite app_nil_r.
Qed.

(** The first priority whose bit is set is the smallest of the items. *)
Lemma ref_pop_first a l i t q :
  prio_abs a l → queue a !! i = Some (t :: q) → (∀ j, (j < i)%nat → queue a !! j = Some []) →
  ∃ k e, ref_pop l = Some (t, delete k l) ∧ list_find (λ e, fst e = Z.of_nat i) l = Some (k, e) ∧ snd e = t.
Proof.
  intros (Ha & Hl & Hq) Hi Hlt. pose proof (Hq _ _ Hi) as Hf.
  destruct l as [|x l]; [done|]. set (p := foldr (λ e m, Z.min (fst e) m) (fst x) l).
  destruct (foldr_min_spec fst l (fst x)) as (H1 & H2 & H3). fold p in H1, H2, H3.
  assert (Hmin : ∀ e, e ∈ x :: l → p ≤ fst e) by (intros e [->|He]%elem_of_cons; auto).
  assert (Hin : ∃ e, e ∈ x :: l ∧ fst e = p).
  { destruct H1 as [->|(e & He & ?)]; [exists x|exists e]; set_solver. }
  assert (Hpi : p = Z.of_nat i).
  { destruct Hin as (e & He & Hep). rewrite Forall_forall in Hl. pose proof (Hl e He) as Hr.
    assert (He2 : (t :: q) ≠ []) by done. rewrite Hf in He2.
    destruct (filter (λ e, fst e = Z.of_nat i) (x :: l)) as [|y r] eqn:Hfy; [done|].
    assert (Hy : y ∈ filter (λ e, fst e = Z.of_nat i) (x :: l)) by (rewrite Hfy; left).
    apply list_elem_of_filter in Hy as [Hyi Hy]. pose proof (Hmin y Hy).
    destruct (decide (p < Z.of_nat i)); [|lia].
    assert (Hlt' := Hlt (Z.to_nat p) ltac:(lia)). apply Hq in Hlt'.
    assert (He3 : e ∈ filter (λ e, fst e = Z.of_nat (Z.to_nat p)) (x :: l)) by (apply list_elem_of_filter; split; [lia|done]).
    destruct (filter (λ e, fst e = Z.of_nat (Z.to_nat p)) (x :: l)); [by apply not_elem_of_nil in He3|done]. }
  unfold ref_pop. fold p. rewrite Hpi.
  destruct (list_find (λ e, fst e = Z.of_nat i) (x :: l)) as [[k e]|] eqn:Hfd.
  - exists k, e. rewrite (filter_delete_first _ _ _ _ Hfd) in Hf. injection Hf as -> _. done.
  - apply list_find_None in Hfd. rewrite (filter_none _ _ Hfd) in Hf. done.
Qed.

Lemma prio_pop_abs a l :
  prio_abs a l → ∃ a', prio_pop a = Done ((ref_do l PPop).1, a') ∧ prio_abs a' (ref_do l PPop).2.
Proof.
  intros Habs. pose proof Habs as (Ha & Hl & Hq).
  destruct (prio_pop_done a Ha) as (o & a' & Hp & Ha' & Hnone). rewrite Hp. exists a'.
  unfold prio_pop in Hp. destruct (first_one (map a)) as [i|] eqn:Hf.
  - destruct (first_one_some _ _ Ha Hf) as (t & q & Hi & Hlt). rewrite Hi in Hp. cbn in Hp. injection Hp as <- <-.
    destruct (ref_pop_first a l i t q Habs Hi Hlt) as (k & e & Hr & Hfd & He). unfold ref_do. rewrite Hr.
    split; [done|]. split; [done|]. apply list_find_Some in Hfd as Hk. destruct Hk as (Hk & Hki & _).
    split; [by apply Forall_delete|]. cbn [queue]. intros j r Hj. destruct (decide (i = j)) as [<-|Hne].
    + rewrite list_lookup_insert_eq in Hj by (by eapply lookup_lt_Some). injection Hj as <-.
      pose proof (Hq _ _ Hi) as Hf'. rewrite (filter_delete_first _ _ _ _ Hfd) in Hf'. by injection Hf' as _ ->.
    + rewrite list_lookup_insert_ne in Hj by done. rewrite (filter_delete_other _ _ _ _ Hk); [by apply Hq|]. cbn. lia.
  - injection Hp as <- <-. destruct l as [|x l]; [done|]. exfalso.
    apply Forall_cons in Hl as [Hx _]. destruct (Hnone eq_refl) as [_ Hnil].
    pose proof Ha as (_ & Hlen & _). destruct (lookup_lt_is_Some_2 (queue a) (Z.to_nat (fst x))) as [q Hi]; [lia|].
    pose proof (Hq _ _ Hi) as Hf'. rewrite filter_cons_True in Hf' by lia.
    assert (Hin : snd x ∈ prio_tasks a).
    { apply elem_of_concat. exists q. split; [by eapply list_elem_of_lookup_2|]. rewrite Hf'. left. }
    rewrite Hnil in Hin. by apply not_elem_of_nil in Hin.
Qed.

(** [C32] The array of queues with its bit map behaves as one queue ordered by priority:
    for every sequence of [enqueue] (with a priority below 100) and [pop], it never panics
    and returns what the reference returns, the task that came first among those with the
    smallest priority value. *)
Theorem prio_array_refines ops :
  Forall prio_op_ok ops → prio_run prio_new ops = Done (ref_run [] ops).
Proof.
  intros Hok. assert (Habs : prio_abs prio_new []).
  { split; [apply prio_new_wf|]. split; [constructor|]. intros i q [-> _]%lookup_replicate. done. }
  revert Habs. generalize prio_new (@nil (Z * Z)). induction Hok as [|op ops Hop _ IH]; intros a l Habs; [done|].
  assert (Hstep : ∃ a', prio_do a op = Done ((ref_do l op).1, a') ∧ prio_abs a' (ref_do l op).2).
  { destruct op as [t p|]; [|by apply prio_pop_abs].
    destruct (prio_enqueue_abs a l t p Habs Hop) as (a' & He & Ha'). exists a'. cbn. by rewrite He. }
  destruct Hstep as (a' & Hd & Ha'). cbn [prio_run ref_run]. rewrite Hd. destruct (ref_do l op) as [o l'].
  cbn. cbn in Ha'. by rewrite (IH a' l' Ha').
Qed.

Lemma prio_array_refines_witness :
  prio_run prio_new [PEnqueue 1 50; PEnqueue 2 10; PEnqueue 3 10; PPop; PPop; PPop; PPop]
  = Done [None; None; None; Some 2; Some 3; Some 1; None].
Proof.
  rewrite (prio_array_refines [PEnqueue 1 50; PEnqueue 2 10; PEnqueue 3 10; PPop; PPop; PPop; PPop]).
  - vm_compute. reflexivity.
  - repeat constructor; lia.
Defined.

(** ** The real-time class *)

Definition rt_wf (rq : RealTimeClassRq) : Prop :=
  prio_wf (array0 rq) ∧ prio_wf (array1 rq) ∧ nr_running rq = Z.of_nat (length (rt_tasks rq)).

(** The order in which the tasks are picked: the active array, then the inactive one *)
Definition rt_order (rq : RealTimeClassRq) : list Z := prio_tasks (active_array rq) ++ prio_tasks (inactive_array rq).

Lemma rt_order_tasks rq : rt_order rq ≡ₚ rt_tasks rq.
Proof. unfold rt_order, rt_tasks, active_array, inactive_array. destruct (index rq); cbn; [apply Permutation_app_comm|done]. Qed.

Lemma array_at_wf rq i : rt_wf rq → prio_wf (array_at rq i).
Proof. intros (H0 & H1 & _). by destruct i. Qed.

Lemma rt_new_wf : rt_wf rt_new.
Proof. split; [apply prio_new_wf|]. split; [apply prio_new_wf|]. vm_compute. reflexivity. Qed.

Lemma rt_enqueue_done at_ rq t a :
  rt_wf rq → at_ !! t = Some a → 0 ≤ prio (real_time a) < 100 → nr_running rq + 1 < 2 ^ 64 →
  ∃ rq', rt_enqueue at_ rq t = Done rq' ∧ rt_wf rq'.
Proof.
  intros Hw Ha Hp Hn. unfold rt_enqueue. rewrite Ha. cbn [unwrap mbind outcome_bind].
  destruct (prio_enqueue_done _ t _ (array_at_wf rq (negb (index rq)) Hw) Hp) as (p & He & Hp').
  unfold inactive_array. rewrite He. cbn [mbind outcome_bind].
  assert (Hnr : nr_running (set_array rq (negb (index rq)) p) = nr_running rq) by (by destruct (index rq)).
  rewrite Hnr, u64_add_done by done. cbn. eexists. split; [done|].
  assert (Ht : rt_tasks (set_nr (set_array rq (negb (index rq)) p) (nr_running rq + 1)) ≡ₚ t :: rt_tasks rq).
  { change (rt_tasks (set_array rq (negb (index rq)) p) ≡ₚ t :: rt_tasks rq).
    by rewrite set_array_tasks, (prio_enqueue_tasks _ _ _ _ He), (array_at_tasks rq (negb (index rq))). }
  destruct Hw as (H0 & H1 & Hlen). split; [|split].
  - by destruct (index rq).
  - by destruct (index rq).
  - rewrite (Permutation_length Ht). cbn [set_nr nr_running length]. rewrite Hlen. lia.
Qed.

Lemma pop_active_done rq :
  rt_wf rq → ∃ o rq', pop_active rq = Done (o, rq') ∧ index rq' = index rq ∧ nr_running rq' = nr_running rq ∧
    prio_wf (array0 rq') ∧ prio_wf (array1 rq') ∧ inactive_array rq' = inactive_array rq ∧
    o = head (prio_tasks (active_array rq)) ∧ prio_tasks (active_array rq') = tail (prio_tasks (active_array rq)).
Proof.
  intros Hw. pose proof (array_at_wf rq (index rq) Hw) as Ha. destruct Hw as (H0 & H1 & _).
  destruct (prio_pop_done _ Ha) as (o & a' & Hp & Ha' & _). destruct (prio_pop_head _ _ _ Ha Hp) as [Ho Ht].
  unfold pop_active, active_array, inactive_array. rewrite Hp. cbn [mbind outcome_bind].
  eexists _, _. split; [done|]. by destruct (index rq) eqn:Hi; cbn; rewrite Hi; cbn.
Qed.

Lemma rt_pick_next_done rq :
  rt_wf rq → ∃ o rq', rt_pick_next rq = Done (o, rq') ∧ rt_wf rq' ∧
    o = head (rt_order rq) ∧ rt_order rq' = tail (rt_order rq).
Proof.
  intros Hw. pose proof Hw as (H0 & H1 & Hn). pose proof (Permutation_length (rt_order_tasks rq)) as Hlen.
  unfold rt_pick_next. destruct (Z.eqb_spec (nr_running rq) 0) as [Hz|Hz].
  { exists None, rq. destruct (rt_order rq) eqn:Ho; [done|cbn in Hlen; lia]. }
  destruct (pop_active_done rq Hw) as (o1 & r1 & Hp1 & Hi1 & Hn1 & Ha0 & Ha1 & Hin1 & Ho1 & Ht1).
  rewrite Hp1. cbn [mbind outcome_bind].
  assert (Hfin : ∃ t r2, (match o1 with Some t => Done (Some t, r1) | None => pop_active (swap_arrays r1) end)
      = Done (Some t, r2) ∧ prio_wf (array0 r2) ∧ prio_wf (array1 r2) ∧ nr_running r2 = nr_running rq ∧
      rt_order rq = t :: rt_order r2).
  { unfold rt_order in Hlen |- *. destruct (prio_tasks (active_array rq)) as [|t l] eqn:Hact.
    - cbn in Ho1, Ht1, Hlen. subst o1.
      assert (Hw1 : rt_wf (swap_arrays r1)).
      { split; [done|]. split; [done|]. cbn [swap_arrays nr_running]. rewrite Hn1, Hn.
        assert (Hp : rt_tasks (swap_arrays r1) ≡ₚ rt_tasks rq).
        { rewrite <- (rt_order_tasks rq), <- (rt_order_tasks r1). unfold rt_order. by rewrite Hin1, Ht1, Hact. }
        by rewrite (Permutation_length Hp). }
      destruct (pop_active_done _ Hw1) as (o2 & r2 & Hp2 & Hi2 & Hn2 & Hb0 & Hb1 & Hin2 & Ho2 & Ht2).
      assert (Ha2 : active_array (swap_arrays r1) = inactive_array rq).
      { unfold active_array, inactive_array in *. by rewrite <- Hin1. }
      assert (Hi3 : prio_tasks (inactive_array (swap_arrays r1)) = []).
      { unfold inactive_array, active_array in *. cbn. rewrite negb_involutive. exact Ht1. }
      rewrite Ha2 in Ho2, Ht2. destruct (prio_tasks (inactive_array rq)) as [|t l]; [cbn in Hlen; lia|].
      exists t, r2. rewrite Hp2, Hin2, Hi3, app_nil_r, Ho2, Ht2. cbn. rewrite Hn2. done.
    - cbn in Ho1, Ht1. subst o1. exists t, r1. by rewrite Hin1, Ht1. }
  destruct Hfin as (t & r2 & -> & Hb0 & Hb1 & Hn2 & Hord). cbn [mbind outcome_bind].
  rewrite u64_sub_done by lia. cbn. exists (Some t), (set_nr r2 (nr_running r2 - 1)). rewrite Hord.
  split; [done|]. split; [|done]. split; [done|]. split; [done|].
  change (rt_tasks (set_nr r2 (nr_running r2 - 1))) with (rt_tasks r2).
  rewrite <- (Permutation_length (rt_order_tasks r2)). cbn [nr_running set_nr]. rewrite Hn2, Hn, <- Hlen, Hord. cbn. lia.
Qed.

(** ** The fair class *)

(** The weight without its flag, which counts in the run queue *)
Definition cur_weight (f : FairAttr) : Z := Z.ldiff (weight f) HAS_PENDING.

Definition weight_ok (w : Z) : Prop := 14 ≤ w ≤ 88817.

Definition weight_wf (f : FairAttr) : Prop :=
  ∃ w, weight_ok w ∧ (weight f = w ∨ weight f = Z.lor w HAS_PENDING ∧ weight_ok (pending_weight f)).

Lemma small_no_flag w : weight_ok w → Z.land w HAS_PENDING = 0.
Proof.
  intros Hw. unfold weight_ok in Hw. apply Z.bits_inj'. intros i Hi. rewrite Z.land_spec, Z.bits_0.
  unfold HAS_PENDING. rewrite Z.pow2_bits_eqb by lia. destruct (Z.eqb_spec 63 i) as [<-|]; [|apply andb_false_r].
  rewrite Z.bits_above_log2; [done|lia|]. apply Z.log2_lt_pow2; lia.
Qed.

Lemma ldiff_small w : weight_ok w → Z.ldiff w HAS_PENDING = w.
Proof.
  intros Hw%small_no_flag. apply Z.bits_inj'. intros i Hi. rewrite Z.ldiff_spec.
  assert (H : Z.testbit (Z.land w HAS_PENDING) i = false) by (by rewrite Hw, Z.bits_0).
  rewrite Z.land_spec in H. destruct (Z.testbit w i), (Z.testbit HAS_PENDING i); done.
Qed.

Lemma ldiff_lor_flag w : Z.ldiff (Z.lor w HAS_PENDING) HAS_PENDING = Z.ldiff w HAS_PENDING.
Proof.
  apply Z.bits_inj'. intros i Hi. rewrite !Z.ldiff_spec, Z.lor_spec.
  destruct (Z.testbit w i), (Z.testbit HAS_PENDING i); done.
Qed.

Lemma land_lor_flag w : Z.land (Z.lor w HAS_PENDING) HAS_PENDING = HAS_PENDING.
Proof.
  apply Z.bits_inj'. intros i Hi. rewrite Z.land_spec, Z.lor_spec.
  destruct (Z.testbit w i), (Z.testbit HAS_PENDING i); done.
Qed.

Lemma cur_weight_ok f : weight_wf f → weight_ok (cur_weight f).
Proof.
  unfold cur_weight. intros (w & Hw & [->|[-> _]]); [by rewrite ldiff_small|]. by rewrite ldiff_lor_flag, ldiff_small.
Qed.

(** [fetch_weight] returns the weight that counts so far and installs the one that counts
    from now on. *)
Lemma fetch_weight_spec f :
  weight_wf f → ∃ w f', fetch_weight f = (cur_weight f, w, f') ∧ weight_ok w ∧ cur_weight f' = w ∧ weight_wf f' ∧
    vruntime f' = vruntime f.
Proof.
  intros (w & Hw & Hf). unfold fetch_weight, cur_weight. destruct Hf as [Hf|[Hf Hp]]; rewrite Hf.
  - rewrite small_no_flag by done. cbn [Z.eqb]. exists w, f. rewrite Hf, ldiff_small by done.
    repeat split; try apply Hw. exists w. auto.
  - rewrite land_lor_flag. change (HAS_PENDING =? 0) with false.
    exists (pending_weight f), (mkFair (pending_weight f) (pending_weight f) (vruntime f)). cbn [weight vruntime].
    rewrite (ldiff_small (pending_weight f)) by done. repeat split; try apply Hp. exists (pending_weight f). auto.
Qed.

Lemma fair_update_wf f n :
  weight_wf f → is_nice n = true → weight_wf (fair_update f n) ∧ cur_weight (fair_update f n) = cur_weight f.
Proof.
  intros (w & Hw & Hf) Hn%nice_to_weight_bound. unfold fair_update, cur_weight. cbn [weight]. split.
  - exists w. split; [done|]. right. cbn. split; [|done]. destruct Hf as [->|[-> _]]; [done|].
    by rewrite <- Z.lor_assoc, Z.lor_diag.
  - apply ldiff_lor_flag.
Qed.

(** *** The clock of the run queue *)

Definition clk_ok (ck : Clk) : Prop :=
  0 ≤ base_slice ck ≤ 2 ^ 22 ∧ 0 ≤ min_period ck ≤ 2 ^ 25 ∧ 1 ≤ ncpus ck < 2 ^ 15.

Lemma period_done ck rq :
  clk_ok ck → entities_len rq < 2 ^ 20 →
  ∃ p, period ck rq = Done p ∧ 0 ≤ p < 2 ^ 46 ∧ p / (entities_len rq + 1) ≤ 2 ^ 29.
Proof.
  intros (Hb & Hm & Hc) Hn. unfold period. set (n := entities_len rq) in *.
  assert (Hn0 : 0 ≤ n) by (unfold n, entities_len; lia).
  assert (Hlog : 1 ≤ Z.log2 (1 + ncpus ck) ≤ 15).
  { split; [apply Z.log2_le_pow2; lia|]. pose proof (Z.log2_le_mono (1 + ncpus ck) (2 ^ 15) ltac:(lia)) as H.
    by rewrite Z.log2_pow2 in H by lia. }
  assert (Hbn : 0 ≤ base_slice ck * (n + 1) ≤ 2 ^ 22 * 2 ^ 20) by nia.
  rewrite u64_mul_done by lia. cbn [mbind outcome_bind].
  assert (Hmax : 0 ≤ Z.max (base_slice ck * (n + 1)) (min_period ck) ≤ 2 ^ 42) by lia.
  set (M := Z.max (base_slice ck * (n + 1)) (min_period ck)) in *.
  rewrite u64_mul_done by nia. eexists. split; [done|]. split; [nia|].
  assert (HM : M ≤ 2 ^ 25 * (n + 1)) by (unfold M; nia).
  transitivity ((2 ^ 25 * 15 * (n + 1)) / (n + 1)); [apply Z.div_le_mono; nia|]. rewrite Z.div_mul by lia. lia.
Qed.

Lemma vtime_slice_done ck rq :
  clk_ok ck → entities_len rq < 2 ^ 20 → ∃ v, vtime_slice ck rq = Done v ∧ 0 ≤ v ≤ 2 ^ 29.
Proof.
  intros Hc Hn. destruct (period_done ck rq Hc Hn) as (p & Hp & Hp1 & Hp2). unfold vtime_slice. rewrite Hp. cbn.
  eexists. split; [done|]. split; [|done]. apply Z.div_pos; [lia|]. unfold entities_len. lia.
Qed.

Lemma fair_time_slice_done ck rq w :
  clk_ok ck → entities_len rq < 2 ^ 20 → weight_ok w → 0 ≤ total_weight rq < 2 ^ 40 →
  ∃ ts, fair_time_slice ck rq w = Done ts.
Proof.
  intros Hc Hn Hw Ht. destruct (period_done ck rq Hc Hn) as (p & Hp & Hp1 & _). unfold fair_time_slice, weight_ok in *.
  rewrite Hp. cbn [mbind outcome_bind]. rewrite u64_mul_done by nia. cbn [mbind outcome_bind].
  rewrite u64_add_done by lia. cbn [mbind outcome_bind]. rewrite u64_div_done by lia. eauto.
Qed.

(** *** The heap *)

Lemma min_key_some l k : min_key l = Some k → (∃ t, (t, k) ∈ l) ∧ ∀ e, e ∈ l → k ≤ snd e.
Proof.
  destruct l as [|x l]; [done|]. cbn. intros [= <-]. destruct (foldr_min_spec snd l (snd x)) as (H1 & H2 & H3).
  set (r := foldr _ _ l) in *. split.
  - destruct H1 as [->|([t k] & He & <-)]; [exists (fst x); destruct x; left|exists t; by right].
  - intros e [->|He]%elem_of_cons; auto.
Qed.

Lemma heap_pop_none tie l : heap_pop tie l = None → l = [].
Proof.
  unfold heap_pop. destruct (min_key l) as [k|] eqn:Hk; [|by destruct l].
  destruct (min_key_some _ _ Hk) as [[t [i Hi]%list_elem_of_lookup] _].
  set (js := filter (λ i, snd <$> l !! i = Some k) (seq 0 (length l))).
  assert (Hin : i ∈ js).
  { apply list_elem_of_filter. rewrite Hi. split; [done|]. apply elem_of_seq. apply lookup_lt_Some in Hi. lia. }
  assert (Hpos : (0 < length js)%nat) by (destruct js; [by apply not_elem_of_nil in Hin|cbn; lia]).
  destruct (lookup_lt_is_Some_2 js (tie mod length js)) as [j Hj]; [apply Nat.mod_upper_bound; lia|].
  rewrite Hj. apply list_elem_of_lookup_2, list_elem_of_filter in Hj as [Hj _]. by destruct (l !! j).
Qed.

(** *** The accounts of the run queue *)

Definition weight_of (at_ : Attrs) (t : Z) : Z := match at_ !! t with Some a => cur_weight (fair a) | None => 0 end.
Definition sum_weights (at_ : Attrs) (l : list Z) : Z := foldr (λ t s, weight_of at_ t + s) 0 l.

Lemma sum_weights_perm at_ l l' : l ≡ₚ l' → sum_weights at_ l = sum_weights at_ l'.
Proof. unfold sum_weights. induction 1; cbn in *; lia. Qed.

Lemma sum_weights_app at_ l l' : sum_weights at_ (l ++ l') = sum_weights at_ l + sum_weights at_ l'.
Proof. unfold sum_weights. induction l; cbn in *; lia. Qed.

Lemma sum_weights_insert at_ t x l : t ∉ l → sum_weights (<[t := x]> at_) l = sum_weights at_ l.
Proof.
  induction l as [|u l IH]; intros Ht; [done|]. apply not_elem_of_cons in Ht as [Hne Ht].
  cbn. unfold sum_weights in IH. rewrite IH by done. unfold weight_of. by rewrite lookup_insert_ne.
Qed.

(** [total_weight] is the weight of the queued tasks, their keys are their virtual run
    times, and [min_vruntime] is at most each of them; [V] bounds all virtual run times. *)
Definition fair_wf (V : Z) (at_ : Attrs) (rq : FairClassRq) : Prop :=
  total_weight rq = sum_weights at_ (fair_tasks rq) ∧ 0 ≤ min_vruntime rq ≤ V ∧
  ∀ t k, (t, k) ∈ entities rq → min_vruntime rq ≤ k ∧ ∃ a, at_ !! t = Some a ∧ vruntime (fair a) = k.

Lemma fair_wf_insert V V' at_ rq t x :
  fair_wf V at_ rq → V ≤ V' → t ∉ fair_tasks rq → fair_wf V' (<[t := x]> at_) rq.
Proof.
  intros (Hw & Hm & Hk) HV Ht. split; [by rewrite sum_weights_insert|]. split; [lia|].
  intros u k Hu. destruct (Hk u k Hu) as (Hle & a & Ha & Hv). split; [done|]. exists a.
  rewrite lookup_insert_ne; [done|]. intros <-. apply Ht. unfold fair_tasks. apply list_elem_of_fmap. by exists (t, k).
Qed.

Section Ids.

(** The only threads of the idle and of the stop class on the CPU *)
Context (idle_task stop_task : Z).

Definition factor_ok (p : SchedPolicy) : Prop :=
  match p with RealTime _ (RoundRobin (Some f)) => 0 < f < 2 ^ 32 | _ => True end.

Definition attr_ok (V t : Z) (a : SchedAttr) : Prop :=
  (factor_ok (policy a) ∧ 0 ≤ prio (real_time a) < 100) ∧ weight_wf (fair a) ∧ 0 ≤ vruntime (fair a) ≤ V ∧
  (policy_kind a = KIdle → t = idle_task) ∧ (policy_kind a = KStop → t = stop_task).

Definition attrs_ok (V : Z) (at_ : Attrs) : Prop := ∀ t a, at_ !! t = Some a → attr_ok V t a.

Lemma attrs_ok_insert V V' at_ t a f :
  attrs_ok V at_ → V ≤ V' → at_ !! t = Some a → weight_wf f → 0 ≤ vruntime f ≤ V' →
  attrs_ok V' (<[t := set_fair a f]> at_).
Proof.
  intros Hok HV Ha Hf Hv u b Hb. destruct (decide (t = u)) as [<-|Hne].
  - rewrite lookup_insert_eq in Hb. injection Hb as <-. destruct (Hok t a Ha) as (? & _ & _ & ? & ?).
    split; [done|]. split; [done|]. split; [cbn; lia|]. split; done.
  - rewrite lookup_insert_ne in Hb by done. destruct (Hok u b Hb) as (? & ? & ? & ? & ?).
    split; [done|]. split; [done|]. split; [lia|]. split; done.
Qed.

Lemma sum_weights_bound V at_ l :
  attrs_ok V at_ → 0 ≤ sum_weights at_ l ≤ 88817 * Z.of_nat (length l).
Proof.
  intros Hok. unfold sum_weights. induction l as [|t l IH]; cbn [foldr length]; [lia|]. unfold weight_of at 1 3.
  destruct (at_ !! t) as [a|] eqn:Ha; [|lia].
  destruct (Hok t a Ha) as (_ & Hw%cur_weight_ok & _). unfold weight_ok in Hw. lia.
Qed.

(** How much an enqueueing may raise the virtual run times *)
Definition raise_of (flags : option EnqueueFlags) : Z := match flags with Some Spawn => 2 ^ 29 | _ => 0 end.

Lemma fair_tasks_len rq : Z.of_nat (length (fair_tasks rq)) = entities_len rq.
Proof. unfold fair_tasks, entities_len. by rewrite length_fmap. Qed.

Lemma total_weight_bound V at_ rq :
  attrs_ok V at_ → fair_wf V at_ rq → entities_len rq < 2 ^ 20 → 0 ≤ total_weight rq < 2 ^ 40.
Proof.
  intros Hok (-> & _) Hn. pose proof (sum_weights_bound V at_ (fair_tasks rq) Hok) as H.
  rewrite fair_tasks_len in H. lia.
Qed.

Lemma fair_enqueue_done ck V at_ rq t a flags :
  clk_ok ck → attrs_ok V at_ → fair_wf V at_ rq → V < 2 ^ 62 → entities_len rq < 2 ^ 20 →
  at_ !! t = Some a → t ∉ fair_tasks rq →
  ∃ rq' f, fair_enqueue ck at_ rq t flags = Done (rq', <[t := set_fair a f]> at_) ∧
    attrs_ok (V + raise_of flags) (<[t := set_fair a f]> at_) ∧
    fair_wf (V + raise_of flags) (<[t := set_fair a f]> at_) rq'.
Proof.
  intros Hc Hok Hwf HV Hn Ha Ht. pose proof Hwf as (Hw & Hm & Hk).
  pose proof (total_weight_bound _ _ _ Hok Hwf Hn) as Htw.
  assert (Hr : 0 ≤ raise_of flags ≤ 2 ^ 29) by (destruct flags as [[]|]; cbn; lia).
  unfold fair_enqueue. rewrite Ha. cbn [unwrap mbind outcome_bind].
  assert (Hv : ∃ v, (match flags with
       | Some Spawn => vtime_slice ck rq ≫= λ v, u64_add (min_vruntime rq) v
       | _ => Done (min_vruntime rq) end) = Done v ∧ min_vruntime rq ≤ v ≤ V + raise_of flags).
  { destruct flags as [[]|]; cbn [raise_of]; [|exists (min_vruntime rq); (split; [done|lia]).. ].
    destruct (vtime_slice_done ck rq Hc Hn) as (v & -> & Hv). cbn. rewrite u64_add_done by lia. eexists. split; [done|]. lia. }
  destruct Hv as (v & Hv & Hvr). unfold mbind, outcome_bind in Hv |- *. rewrite Hv.
  destruct (Hok t a Ha) as (_ & Hwt & Hvt & _). destruct (fetch_weight_spec _ Hwt) as (w & f & -> & Hw1 & Hw2 & Hw3 & Hv1).
  unfold raise_vruntime. rewrite u64_add_done by (unfold weight_ok in Hw1; lia).
  set (f' := mkFair (weight f) (pending_weight f) (Z.max (vruntime f) v)).
  exists (mkFairRq (entities rq ++ [(t, Z.max (vruntime f) v)]) (min_vruntime rq) (total_weight rq + w)), f'.
  split; [done|]. split; [apply (attrs_ok_insert V); [done|lia|done|done|cbn; lia]|].
  split; [|split; [cbn; lia|]].
  - unfold fair_tasks. cbn [entities total_weight]. rewrite fmap_app, sum_weights_app.
    fold (fair_tasks rq). rewrite sum_weights_insert, <- Hw by done.
    cbn [fmap list_fmap fst sum_weights foldr]. unfold sum_weights, weight_of. cbn [foldr]. rewrite lookup_insert_eq.
    cbn [fair set_fair].
    change (cur_weight f') with (cur_weight f). lia.
  - cbn [entities min_vruntime]. intros u k [Hu|Hu]%elem_of_app.
    + destruct (fair_wf_insert V (V + raise_of flags) at_ rq t (set_fair a f') Hwf ltac:(lia) Ht) as (_ & _ & H). by apply H.
    + apply list_elem_of_singleton in Hu as [= -> ->]. split; [lia|]. eexists. by rewrite lookup_insert_eq.
Qed.

Lemma fair_pick_next_done tie V at_ rq :
  attrs_ok V at_ → fair_wf V at_ rq → NoDup (fair_tasks rq) →
  (entities rq = [] ∧ fair_pick_next tie at_ rq = Done (None, rq, at_)) ∨
  ∃ t k a rq' f, fair_pick_next tie at_ rq = Done (Some t, rq', <[t := set_fair a f]> at_) ∧
    at_ !! t = Some a ∧ (t, k) ∈ entities rq ∧ (∀ e, e ∈ entities rq → k ≤ snd e) ∧
    attrs_ok V (<[t := set_fair a f]> at_) ∧ fair_wf V (<[t := set_fair a f]> at_) rq'.
Proof.
  intros Hok Hwf Hnd. pose proof Hwf as (Hw & Hm & Hk). unfold fair_pick_next.
  destruct (heap_pop tie (entities rq)) as [[t l]|] eqn:Hp; [right|left; split; [by eapply heap_pop_none|done]].
  destruct (heap_pop_some _ _ _ _ Hp) as (i & k & Hi & -> & Hmin).
  apply list_elem_of_lookup_2 in Hi as Hin. destruct (Hk t k Hin) as (Hle & a & Ha & Hv).
  rewrite Ha. cbn [unwrap mbind outcome_bind].
  destruct (Hok t a Ha) as (_ & Hwt & Hvt & _). destruct (fetch_weight_spec _ Hwt) as (w & f & -> & Hw1 & Hw2 & Hw3 & Hv1).
  pose proof (fmap_Permutation fst _ _ (delete_Permutation _ _ _ Hi)) as Hperm. cbn in Hperm.
  set (rq' := mkFairRq (delete i (entities rq)) (min_vruntime rq) (total_weight rq - cur_weight (fair a))).
  assert (Hsum : total_weight rq = cur_weight (fair a) + sum_weights at_ (fair_tasks rq')).
  { rewrite Hw. unfold fair_tasks. rewrite (sum_weights_perm at_ _ _ Hperm). cbn. unfold weight_of at 1. by rewrite Ha. }
  pose proof (sum_weights_bound V at_ (fair_tasks rq') Hok). rewrite u64_sub_done by lia.
  assert (Hnt : t ∉ fair_tasks rq').
  { unfold fair_tasks in Hnd |- *. rewrite Hperm in Hnd. by apply NoDup_cons in Hnd as [? _]. }
  exists t, k, a, rq', f. split; [done|]. split; [done|]. split; [done|]. split; [by apply min_key_some|].
  split; [apply (attrs_ok_insert V); [done|lia|done|done|lia]|].
  apply (fair_wf_insert V); [|lia|done]. split; [cbn [total_weight rq']; lia|]. split; [done|].
  intros u k' Hu. apply Hk. cbn in Hu. rewrite (delete_Permutation _ _ _ Hi). by right.
Qed.

Lemma update_vruntime_done f d w :
  0 ≤ vruntime f → weight_ok w → 0 ≤ d → vruntime f + 74 * d < 2 ^ 60 →
  ∃ v, update_vruntime f d w = Done (v, mkFair (weight f) (pending_weight f) v) ∧ vruntime f ≤ v ≤ vruntime f + 74 * d.
Proof.
  intros Hf Hw Hd Hb. unfold weight_ok in Hw. unfold update_vruntime, WEIGHT_0.
  rewrite u64_mul_done by lia. cbn [mbind outcome_bind]. rewrite u64_div_done by lia. cbn [mbind outcome_bind].
  assert (Hq : 0 ≤ d * 1024 / w ≤ 74 * d).
  { split; [apply Z.div_pos; lia|]. apply Z.div_le_upper_bound; nia. }
  rewrite u64_add_done by lia. cbn. unfold wrapping_add. rewrite Z.mod_small by lia. eexists. split; [done|]. lia.
Qed.

(** The account of the current task, and the new [min_vruntime] *)
Lemma fair_settle V V' at_ rq t a f v :
  attrs_ok V at_ → fair_wf V at_ rq → at_ !! t = Some a → t ∉ fair_tasks rq → V ≤ V' →
  weight_wf f → 0 ≤ v ≤ V' →
  let at' := <[t := set_fair a (mkFair (weight f) (pending_weight f) v)]> at_ in
  attrs_ok V' at' ∧
  fair_wf V' at' (mkFairRq (entities rq) (match min_key (entities rq) with Some k => Z.min v k | None => v end) (total_weight rq)).
Proof.
  intros Hok Hwf Ha Ht HV Hf Hv. split; [apply (attrs_ok_insert V); done|].
  apply (fair_wf_insert V'); [|lia|done]. destruct Hwf as (Hw & Hm & Hk). split; [done|]. cbn [entities min_vruntime].
  destruct (min_key (entities rq)) as [k|] eqn:Hmk.
  - destruct (min_key_some _ _ Hmk) as [[u Hu] Hall]. destruct (Hk u k Hu) as [? (b & Hb & ?)].
    destruct (Hok u b Hb) as (_ & _ & ? & _). split; [lia|]. intros u' k' Hu'. destruct (Hk u' k' Hu') as [? Hx].
    split; [|done]. specialize (Hall _ Hu'). cbn in Hall. lia.
  - split; [done|]. intros u k Hu. destruct (entities rq); [by apply not_elem_of_nil in Hu|done].
Qed.

(** The answer of [update_current] of the fair class, and what it leaves *)
Lemma fair_update_current_done ck V at_ rq rt t a flags :
  clk_ok ck → attrs_ok V at_ → fair_wf V at_ rq → entities_len rq < 2 ^ 20 → at_ !! t = Some a → t ∉ fair_tasks rq →
  0 ≤ delta rt → V + 74 * delta rt < 2 ^ 60 →
  ∃ b rq' f, fair_update_current ck rq rt (fair a) flags = Done (b, rq', f) ∧
    entities rq' = entities rq ∧ (b = true → entities rq ≠ []) ∧
    (flags = Wait ∨ flags = Exit → b = negb (fair_is_empty rq)) ∧
    attrs_ok (V + 74 * delta rt) (<[t := set_fair a f]> at_) ∧
    fair_wf (V + 74 * delta rt) (<[t := set_fair a f]> at_) rq'.
Proof.
  intros Hc Hok Hwf Hn Ha Ht Hd HV. pose proof (total_weight_bound _ _ _ Hok Hwf Hn) as Htw.
  destruct (Hok t a Ha) as (Hprio & Hwt & Hvt & _). unfold fair_is_empty.
  destruct (decide (flags = Exit)) as [->|Hne].
  { exists (negb (fair_is_empty rq)), rq, (fair a). split; [done|]. split; [done|].
    split; [unfold fair_is_empty; by destruct (entities rq)|]. split; [done|].
    split; [apply (attrs_ok_insert V); [done|lia|done|done|lia]|apply (fair_wf_insert V); [done|lia|done]]. }
  destruct (fetch_weight_spec _ Hwt) as (w & f & Hfw & Hw1 & Hw2 & Hw3 & Hv1).
  destruct (update_vruntime_done f (delta rt) w ltac:(lia) Hw1 Hd ltac:(lia)) as (v & Huv & Hv).
  destruct (fair_settle V (V + 74 * delta rt) at_ rq t a f v Hok Hwf Ha Ht ltac:(lia) Hw3 ltac:(lia)) as [Hok' Hwf'].
  set (rq' := mkFairRq _ _ _) in Hwf'. set (f' := mkFair (weight f) (pending_weight f) v) in *.
  assert (Hall : ∃ b, fair_update_current ck rq rt (fair a) flags = Done (b, rq', f') ∧
      (b = true → entities rq ≠ []) ∧ (flags = Wait → b = negb (fair_is_empty rq))).
  { assert (Hn' : entities_len rq' < 2 ^ 20) by done. assert (Htw' : 0 ≤ total_weight rq' < 2 ^ 40) by done.
    unfold fair_update_current, fair_is_empty.
    destruct flags; try done; rewrite Hfw, Huv; cbn [mbind outcome_bind]; fold rq' f'; clearbody rq';
      (destruct (entities rq) as [|e l] eqn:He; [by exists false|]); cbn [min_key];
      [|by exists true|].
    all: destruct (fair_time_slice_done ck rq' w Hc Hn' Hw1 Htw') as [ts ->]; cbn [mbind outcome_bind];
      (destruct (ts <? period_delta rt); [by exists true|]);
      destruct (vtime_slice_done ck rq' Hc Hn') as (vs & -> & Hvs); cbn [mbind outcome_bind];
      destruct Hwf' as (_ & Hm' & _); rewrite u64_add_done by lia; cbn; eexists; done. }
  destruct Hall as (b & Hb & Hb1 & Hb2). exists b, rq', f'. split; [done|]. split; [done|]. split; [done|].
  split; [intros [H|H]; [by apply Hb2|done]|]. split; done.
Qed.

(** ** The run queue of a CPU *)

(** A task is in the run queue once, the tasks in it are threads, the classes are in
    order, and the slots of the stop and the idle class hold their tasks. *)
Definition rq_wf (V : Z) (at_ : Attrs) (rq : PerCpuClassRqSet) : Prop :=
  attrs_ok V at_ ∧ NoDup (members rq) ∧ (∀ t, t ∈ members rq → is_Some (at_ !! t)) ∧
  rt_wf (real_time_rq rq) ∧ fair_wf V at_ (fair_rq rq) ∧
  (∀ t, stop rq = Some t → t = stop_task) ∧ (∀ t, idle rq = Some t → t = idle_task).

(** Two states of the attributes that differ in fair parts only *)
Definition not_fair (a : SchedAttr) : SchedAttr := set_fair a (fair_new 0).
Definition same_but_fair (at_ at' : Attrs) : Prop := ∀ t, not_fair <$> at' !! t = not_fair <$> at_ !! t.

Lemma same_but_fair_insert at_ t a f : at_ !! t = Some a → same_but_fair at_ (<[t := set_fair a f]> at_).
Proof.
  intros Ha u. destruct (decide (t = u)) as [<-|Hne]; [by rewrite lookup_insert_eq, Ha|by rewrite lookup_insert_ne].
Qed.

Lemma same_but_fair_trans at1 at2 at3 : same_but_fair at1 at2 → same_but_fair at2 at3 → same_but_fair at1 at3.
Proof. intros H1 H2 t. by rewrite H2, H1. Qed.

Lemma same_but_fair_some at_ at' t : same_but_fair at_ at' → is_Some (at' !! t) ↔ is_Some (at_ !! t).
Proof. intros H. rewrite <- (fmap_is_Some not_fair (at' !! t)), H, fmap_is_Some. done. Qed.

Lemma same_but_fair_kind at_ at' t : same_but_fair at_ at' → policy_kind <$> at' !! t = policy_kind <$> at_ !! t.
Proof. intros H. specialize (H t). apply (f_equal (fmap policy_kind)) in H. by destruct (at' !! t), (at_ !! t). Qed.

Lemma same_but_fair_size at_ at' : same_but_fair at_ at' → size at' = size at_.
Proof.
  intros H. rewrite <- !size_dom. f_equal. apply set_eq. intros t. rewrite !elem_of_dom. by apply same_but_fair_some.
Qed.

Lemma members_len V at_ rq : rq_wf V at_ rq → (length (members rq) ≤ size at_)%nat.
Proof.
  intros (_ & Hnd & Hin & _). rewrite <- (size_list_to_set (C := gset Z)) by done. rewrite <- size_dom.
  apply subseteq_size. intros t Ht%elem_of_list_to_set. apply elem_of_dom. auto.
Qed.

Lemma queued_len V at_ rq :
  rq_wf V at_ rq → Z.of_nat (size at_) < 2 ^ 20 →
  nr_running (real_time_rq rq) + 1 < 2 ^ 64 ∧ entities_len (fair_rq rq) < 2 ^ 20.
Proof.
  intros Hw Hs. pose proof (members_len _ _ _ Hw) as H. destruct Hw as (_ & _ & _ & (_ & _ & ->) & _).
  unfold members, queued in H. rewrite !length_app in H. rewrite <- fair_tasks_len. lia.
Qed.

Lemma fair_task_member rq t : t ∈ fair_tasks (fair_rq rq) → t ∈ members rq.
Proof. unfold members, queued. set_solver. Qed.

(** What the next task is: the stop task, else the first in the order of the real-time
    class, else one with the smallest virtual run time, else the idle task *)
Definition first_choice (rq : PerCpuClassRqSet) (o : option Z) : Prop :=
  match stop rq, rt_order (real_time_rq rq), entities (fair_rq rq) with
  | Some t, _, _ => o = Some t
  | None, t :: _, _ => o = Some t
  | None, [], [] => o = idle rq
  | None, [], l => ∃ t k, o = Some t ∧ (t, k) ∈ l ∧ ∀ e, e ∈ l → k ≤ snd e
  end.

(** The invariant of what is left when a task is taken out *)
Lemma rq_wf_take V V' at_ rq o rq' at' :
  rq_wf V at_ rq → queued rq ≡ₚ option_list o ++ queued rq' → current rq' = current rq →
  same_but_fair at_ at' → attrs_ok V' at' →
  rt_wf (real_time_rq rq') → fair_wf V' at' (fair_rq rq') →
  (∀ t, stop rq' = Some t → stop rq = Some t) → (∀ t, idle rq' = Some t → idle rq = Some t) → rq_wf V' at' rq'.
Proof.
  intros (_ & Hnd & Hin & _ & _ & Hs & Hi) Hq Hc Hsame Hok Hrt Hf Hs' Hi'.
  assert (Hp : members rq ≡ₚ option_list o ++ members rq') by (unfold members; rewrite Hc, Hq; solve_Permutation).
  split; [done|]. split.
  { rewrite Hp in Hnd. by apply NoDup_app in Hnd as (_ & _ & ?). }
  split; [|naive_solver]. intros t Ht. apply (same_but_fair_some _ _ _ Hsame), Hin. rewrite Hp. set_solver.
Qed.

Lemma entity_some V at_ rq t :
  rq_wf V at_ rq → t ∈ queued rq → (if is_some (at_ !! t) then Some t else None) = Some t.
Proof.
  intros (_ & _ & Hin & _) Ht. destruct (Hin t) as [a ->]; [|done]. unfold members. set_solver.
Qed.

Lemma same_but_fair_refl at_ : same_but_fair at_ at_.
Proof. done. Qed.

Lemma pick_next_entity_done tie V at_ rq :
  rq_wf V at_ rq →
  ∃ o rq' at', pick_next_entity tie at_ rq = Done (o, rq', at') ∧ first_choice rq o ∧
    queued rq ≡ₚ option_list o ++ queued rq' ∧ current rq' = current rq ∧ stop rq' = None ∧
    same_but_fair at_ at' ∧ rq_wf V at' rq'.
Proof.
  intros Hw. pose proof Hw as (Hok & Hnd & Hin & Hrt & Hf & Hs & Hi). unfold pick_next_entity, first_choice.
  destruct (stop rq) as [t|] eqn:Hst.
  { set (rq' := mkRq None _ _ _ _).
    assert (Hq : queued rq = t :: queued rq') by (unfold queued; rewrite Hst; done).
    rewrite (entity_some V at_ rq t Hw) by (rewrite Hq; left).
    exists (Some t), rq', at_. split; [done|]. split; [done|]. split; [by rewrite Hq|]. split; [done|]. split; [done|].
    split; [apply same_but_fair_refl|].
    apply (rq_wf_take V _ at_ rq (Some t)); try done; by rewrite Hq. }
  destruct (rt_pick_next_done _ Hrt) as (o & r & Hr & Hrw & Ho & Hord). rewrite Hr. cbn [mbind outcome_bind].
  pose proof (rt_pick_next_tasks _ _ _ Hr) as Htasks.
  destruct (rt_order (real_time_rq rq)) as [|t l] eqn:Hro; cbn in Ho, Hord; subst o.
  2:{ set (rq' := set_rt rq r).
    assert (Hq : queued rq ≡ₚ t :: queued rq').
    { unfold queued. cbn [rq' set_rt stop real_time_rq fair_rq idle]. rewrite Hst. cbn. rewrite Htasks. done. }
    rewrite (entity_some V at_ rq t Hw) by (rewrite Hq; left).
    exists (Some t), rq', at_. do 5 (split; [done|]). split; [apply same_but_fair_refl|].
    apply (rq_wf_take V _ at_ rq (Some t)); try done; by rewrite Hq. }
  change (fair_rq (set_rt rq r)) with (fair_rq rq).
  assert (Hndf : NoDup (fair_tasks (fair_rq rq))).
  { unfold members, queued in Hnd. rewrite !NoDup_app in Hnd. naive_solver. }
  destruct (fair_pick_next_done tie V at_ _ Hok Hf Hndf) as [[He Hp]|(t & k & a & f & fa & Hp & Ha & Hk & Hall & Hok' & Hf')].
  - rewrite Hp. cbn [mbind outcome_bind]. cbn [set_fair_rq set_rt idle stop real_time_rq fair_rq current].
    set (rq' := mkRq (stop rq) r (fair_rq rq) None (current rq)).
    assert (Hq : queued rq ≡ₚ option_list (idle rq) ++ queued rq').
    { unfold queued. cbn [rq' stop real_time_rq fair_rq idle]. rewrite Hst, Htasks. cbn. solve_Permutation. }
    assert (Hent : match idle rq with Some t => if is_some (at_ !! t) then Some t else None | None => None end = idle rq).
    { destruct (idle rq) as [t|]; [|done]. apply (entity_some V at_ rq t Hw). rewrite Hq. left. }
    rewrite Hent, He. exists (idle rq), rq', at_. do 5 (split; [done|]). split; [apply same_but_fair_refl|]. apply (rq_wf_take V _ at_ rq (idle rq)); try done; by rewrite Hq.
  - pose proof (fair_pick_next_tasks _ _ _ _ _ _ Hp) as Hft. rewrite Hp. cbn [mbind outcome_bind].
    set (rq' := set_fair_rq (set_rt rq r) f).
    assert (Hq : queued rq ≡ₚ t :: queued rq').
    { unfold queued. cbn [rq' set_fair_rq set_rt stop real_time_rq fair_rq idle]. rewrite Hst, Htasks, Hft. cbn. solve_Permutation. }
    rewrite (entity_some V at_ rq t Hw) by (rewrite Hq; left).
    exists (Some t), rq', (<[t := set_fair a fa]> at_). split; [done|].
    split; [destruct (entities (fair_rq rq)); [by apply not_elem_of_nil in Hk|by exists t, k]|].
    split; [done|]. split; [done|]. split; [done|].
    assert (Hsame := same_but_fair_insert at_ t a fa Ha). split; [done|].
    apply (rq_wf_take V _ at_ rq (Some t)); try done; by rewrite Hq.
Qed.

Lemma rq_wf_mono V V' at_ rq : rq_wf V at_ rq → V ≤ V' → rq_wf V' at_ rq.
Proof.
  intros (Hok & Hnd & Hin & Hrt & (Hf1 & Hf2 & Hf3) & Hs & Hi) HV. split; [|split; [done|]; split; [done|]; split; [done|]; split; [|done]].
  - intros t a Ha. destruct (Hok t a Ha) as (? & ? & ? & ?). split; [done|]. split; [done|]. split; [lia|done].
  - split; [done|]. split; [lia|done].
Qed.

(** A task that is not in the run queue does not overwrite another one. *)
Lemma slot_free_wf V at_ rq t : rq_wf V at_ rq → t ∉ members rq → slot_free at_ rq t = true.
Proof.
  intros (Hok & _ & _ & _ & _ & Hs & Hi) Ht. unfold slot_free.
  destruct (at_ !! t) as [a|] eqn:Ha; [|done]. cbn. destruct (Hok t a Ha) as (_ & _ & _ & Hki & Hks).
  unfold members, queued in Ht. destruct (policy_kind a); try done.
  - destruct (stop rq) as [u|] eqn:Hu; [|done]. rewrite (Hs u eq_refl), <- (Hks eq_refl) in Ht. exfalso. apply Ht. cbn. set_solver.
  - destruct (idle rq) as [u|] eqn:Hu; [|done]. rewrite (Hi u eq_refl), <- (Hki eq_refl) in Ht. exfalso. apply Ht. cbn. set_solver.
Qed.

(** The invariant when a task comes in *)
Lemma rq_wf_put V V' at_ rq t rq' at' :
  rq_wf V at_ rq → t ∉ members rq → is_Some (at_ !! t) →
  queued rq' ≡ₚ t :: queued rq → current rq' = current rq → same_but_fair at_ at' → attrs_ok V' at' →
  rt_wf (real_time_rq rq') → fair_wf V' at' (fair_rq rq') →
  (∀ u, stop rq' = Some u → u = stop_task) → (∀ u, idle rq' = Some u → u = idle_task) → rq_wf V' at' rq'.
Proof.
  intros (_ & Hnd & Hin & _) Ht Hta Hq Hc Hsame Hok Hrt Hf Hs Hi.
  assert (Hp : members rq' ≡ₚ t :: members rq) by (unfold members; rewrite Hc, Hq; solve_Permutation).
  split; [done|]. split; [rewrite Hp; by constructor|]. split; [|done].
  intros u Hu. apply (same_but_fair_some _ _ _ Hsame). rewrite Hp in Hu. apply elem_of_cons in Hu as [->|Hu]; auto.
Qed.

Lemma enqueue_entity_done ck V at_ rq t flags :
  clk_ok ck → rq_wf V at_ rq → V < 2 ^ 62 → Z.of_nat (size at_) < 2 ^ 20 → is_Some (at_ !! t) → t ∉ members rq →
  ∃ rq' at', enqueue_entity ck at_ rq t flags = Done (rq', at') ∧ queued rq' ≡ₚ t :: queued rq ∧
    current rq' = current rq ∧ same_but_fair at_ at' ∧ rq_wf (V + raise_of flags) at' rq'.
Proof.
  intros Hc Hw HV Hsz [a Ha] Ht. pose proof (slot_free_wf _ _ _ _ Hw Ht) as Hslot.
  pose proof (queued_len _ _ _ Hw Hsz) as [Hn1 Hn2]. pose proof Hw as (Hok & Hnd & Hin & Hrt & Hf & Hs & Hi).
  assert (Hr : 0 ≤ raise_of flags) by (destruct flags as [[]|]; cbn; lia).
  assert (Hdone : ∃ rq' at', enqueue_entity ck at_ rq t flags = Done (rq', at') ∧ same_but_fair at_ at' ∧
     attrs_ok (V + raise_of flags) at' ∧ rt_wf (real_time_rq rq') ∧ fair_wf (V + raise_of flags) at' (fair_rq rq') ∧
     (∀ u, stop rq' = Some u → u = stop_task) ∧ (∀ u, idle rq' = Some u → u = idle_task)).
  { destruct (rq_wf_mono V (V + raise_of flags) at_ rq Hw ltac:(lia)) as (Hok' & _ & _ & _ & Hf' & _).
    destruct (Hok t a Ha) as ([_ Hprio] & _ & _ & Hki & Hks). unfold enqueue_entity. rewrite Ha. cbn [unwrap mbind outcome_bind].
    destruct (policy_kind a).
    - eexists _, _. do 5 (split; [done|]). split; [|done]. cbn. intros u [= <-]. auto.
    - destruct (rt_enqueue_done at_ _ t a Hrt Ha Hprio Hn1) as (r & -> & Hr'). cbn. eexists _, _. by do 6 (split; [done|]).
    - destruct (fair_enqueue_done ck V at_ _ t a flags Hc Hok Hf HV Hn2 Ha) as (f & fa & -> & Hok2 & Hf2).
      { intros Hx. by apply Ht, fair_task_member. }
      cbn. eexists _, _. split; [done|]. split; [by apply same_but_fair_insert|]. by do 4 (split; [done|]).
    - eexists _, _. do 6 (split; [done|]). cbn. intros u [= <-]. auto. }
  destruct Hdone as (rq' & at' & Henq & Hsame & Hok' & Hrt' & Hf' & Hs' & Hi').
  destruct (enqueue_entity_tasks _ _ _ _ _ _ _ Hslot Henq) as [Hq Hcur].
  exists rq', at'. do 4 (split; [done|]). by apply (rq_wf_put V _ at_ rq t).
Qed.

(** Another task becomes the current one; the old one is no longer counted. *)
Lemma rq_wf_switch V at_ rq c :
  rq_wf V at_ rq → NoDup (option_list (fst <$> c) ++ queued rq) → (∀ t, fst <$> c = Some t → is_Some (at_ !! t)) →
  rq_wf V at_ (set_current rq c).
Proof.
  intros (Hok & Hnd & Hin & Hrt & Hf & Hs & Hi) Hnd' Hc. split; [done|]. split; [done|]. split; [|done].
  intros t. unfold members. cbn [set_current current]. rewrite elem_of_app. intros [Ht|Ht].
  - apply Hc. destruct (fst <$> c); [by apply list_elem_of_singleton in Ht as ->|by apply not_elem_of_nil in Ht].
  - apply Hin. unfold members. set_solver.
Qed.

Lemma first_choice_none rq o : first_choice rq o → o = None ↔ queued rq = [].
Proof.
  unfold first_choice, queued. destruct (stop rq) as [t|]; [intros ->; split; done|].
  pose proof (rt_order_tasks (real_time_rq rq)) as Ho. destruct (rt_order (real_time_rq rq)) as [|t l].
  2:{ intros ->. split; [done|]. intros H. destruct (rt_tasks (real_time_rq rq)); [|done]. by apply Permutation_nil_r in Ho. }
  apply Permutation_nil_l in Ho. rewrite <- Ho. unfold fair_tasks. destruct (entities (fair_rq rq)) as [|e l].
  - intros ->. destruct (idle rq); cbn; split; done.
  - intros (t & k & -> & _). cbn. split; done.
Qed.

Lemma try_pick_next_done ck tie now V at_ rq :
  clk_ok ck → rq_wf V at_ rq → V < 2 ^ 62 → Z.of_nat (size at_) < 2 ^ 20 →
  ∃ o rq' at', try_pick_next ck tie now at_ rq = Done (o, rq', at') ∧ first_choice rq o ∧
    members rq' ≡ₚ members rq ∧
    current rq' = match o with Some t => Some (t, runtime_new now) | None => current rq end ∧
    same_but_fair at_ at' ∧ rq_wf V at' rq'.
Proof.
  intros Hck Hw HV Hsz. destruct (pick_next_entity_done tie V at_ rq Hw) as (o & rq1 & at1 & Hp & Hfc & Hq & Hc & _ & Hsame & Hw1).
  unfold try_pick_next. rewrite Hp. cbn [mbind outcome_bind]. pose proof Hw as (_ & Hnd & Hin & _).
  destruct o as [t|].
  2:{ exists None, rq1, at1. split; [done|]. split; [done|]. split; [unfold members; by rewrite Hc, Hq|done]. }
  assert (Hmem : members rq ≡ₚ option_list (fst <$> current rq) ++ t :: queued rq1) by (unfold members; by rewrite Hq).
  assert (Hw2 : rq_wf V at1 (set_current rq1 (Some (t, runtime_new now)))).
  { apply rq_wf_switch; [done| |].
    - rewrite Hmem in Hnd. by apply NoDup_app in Hnd as (_ & _ & ?).
    - intros u [= <-]. apply (same_but_fair_some _ _ _ Hsame), Hin. rewrite Hmem. set_solver. }
  rewrite Hc. destruct (current rq) as [[u rt]|] eqn:Hcur; cbn [fmap option_fmap option_map fst option_list app] in Hmem.
  - assert (Hu : u ∉ members (set_current rq1 (Some (t, runtime_new now)))).
    { rewrite Hmem in Hnd. by apply NoDup_cons in Hnd as [? _]. }
    destruct (enqueue_entity_done ck V at1 _ u None Hck Hw2 HV) as (rq2 & at2 & -> & Hq2 & Hc2 & Hsame2 & Hw3).
    { by rewrite (same_but_fair_size _ _ Hsame). }
    { apply (same_but_fair_some _ _ _ Hsame), Hin. rewrite Hmem. left. }
    { done. }
    cbn. exists (Some t), rq2, at2. split; [done|]. split; [done|].
    split; [rewrite Hmem; unfold members; rewrite Hc2, Hq2; cbn; solve_Permutation|].
    split; [by rewrite Hc2|]. split; [by apply (same_but_fair_trans _ at1)|]. by rewrite Z.add_0_r in Hw3.
  - eexists (Some t), _, at1. split; [done|]. split; [done|]. split; [by rewrite Hmem|]. done.
Qed.

(** When the run time of the current task is in order at time [T] *)
Definition runtime_ok (T : Z) (rq : PerCpuClassRqSet) : Prop :=
  ∀ t rt, current rq = Some (t, rt) → 0 ≤ period_delta rt ≤ start rt ∧ start rt ≤ T.

(** The bound on virtual run times after the current task is accounted for at [now] *)
Definition grown (V now : Z) (rq : PerCpuClassRqSet) : Z :=
  match current rq with Some (_, rt) => V + 74 * (now - start rt) | None => V end.

Lemma look_ahead_queued rq (p q r s : bool) :
  (p && is_some (stop rq)) || (q && negb (rt_is_empty (real_time_rq rq)))
  || (r && negb (fair_is_empty (fair_rq rq))) || (s && is_some (idle rq)) = true →
  rt_wf (real_time_rq rq) → queued rq ≠ [].
Proof.
  intros H (_ & _ & Hn) Hq. unfold queued in Hq. unfold rt_is_empty in H. rewrite Hn in H.
  apply app_eq_nil in Hq as [H1 Hq]. apply app_eq_nil in Hq as [H2 Hq]. apply app_eq_nil in Hq as [H3 H4].
  rewrite H2 in H. unfold fair_tasks in H3. unfold fair_is_empty in H.
  destruct (stop rq); [done|]. destruct (entities (fair_rq rq)); [|done]. destruct (idle rq); [done|].
  cbn in H. by rewrite !andb_false_r in H.
Qed.

Lemma look_all rq :
  rt_wf (real_time_rq rq) →
  is_some (stop rq) || negb (rt_is_empty (real_time_rq rq)) || negb (fair_is_empty (fair_rq rq)) || is_some (idle rq) = true
  ↔ queued rq ≠ [].
Proof.
  intros Hw. split.
  - intros H. by apply (look_ahead_queued rq true true true true).
  - intros Hq. destruct Hw as (_ & _ & Hn). unfold rt_is_empty, fair_is_empty. rewrite Hn.
    unfold queued, fair_tasks in Hq. destruct (stop rq); [done|]. destruct (rt_tasks (real_time_rq rq)); [|done].
    destruct (entities (fair_rq rq)); [|done]. by destruct (idle rq).
Qed.

Lemma peek_prio_some a p : prio_wf a → peek_prio a = Some p → prio_tasks a ≠ [].
Proof.
  intros Ha Hp. unfold peek_prio in Hp. destruct (first_one (map a)) as [i|] eqn:Hf; [|done].
  destruct (first_one_some _ _ Ha Hf) as (t & q & Hq & _). intros Hn.
  assert (Hin : t ∈ prio_tasks a); [|rewrite Hn in Hin; by apply not_elem_of_nil in Hin].
  apply elem_of_concat. exists (t :: q). split; [by eapply list_elem_of_lookup_2|left].
Qed.

Lemma rt_update_current_queued rq rt a flags :
  rt_wf rq → rt_update_current rq rt a flags = true → rt_tasks rq ≠ [].
Proof.
  intros Hw H Hn. pose proof (array_at_wf rq (index rq) Hw) as H0. pose proof (array_at_wf rq (negb (index rq)) Hw) as H1.
  assert (He : rt_is_empty rq = true) by (unfold rt_is_empty; destruct Hw as (_ & _ & ->); by rewrite Hn).
  assert (Ho : rt_order rq = []) by (apply Permutation_nil_r; by rewrite <- Hn, rt_order_tasks).
  unfold rt_order in Ho. apply app_eq_nil in Ho as [Ha Hi].
  assert (Hc : rt_update_current rq rt a flags = false); [|congruence].
  unfold rt_update_current. rewrite He. cbn [negb]. rewrite andb_false_r.
  destruct (peek_prio (active_array rq)) eqn:Hp; [by destruct (peek_prio_some _ _ H0 Hp)|].
  destruct (peek_prio (inactive_array rq)) eqn:Hp'; [by destruct (peek_prio_some _ _ H1 Hp')|].
  by destruct flags, (time_slice a =? 0).
Qed.

(** What the class of the current task answers *)
Lemma update_class_some ck now V at_ rq flags t rt :
  clk_ok ck → rq_wf V at_ rq → Z.of_nat (size at_) < 2 ^ 20 → current rq = Some (t, rt) → runtime_ok now rq →
  grown V now rq < 2 ^ 60 → now < 2 ^ 63 →
  ∃ b look rq' at' rt', update_class ck now at_ rq flags = Done (b, look, rq', at') ∧
    start rt' = now ∧ 0 ≤ period_delta rt' ≤ now ∧
    (b = true → queued rq ≠ []) ∧ queued rq' = queued rq ∧ current rq' = Some (t, rt') ∧
    same_but_fair at_ at' ∧ rq_wf (grown V now rq) at' rq'.
Proof.
  intros Hck Hw Hsz Hc Hrt HG Hnow. destruct (Hrt t rt Hc) as (Hp & Hst).
  pose proof (queued_len _ _ _ Hw Hsz) as [_ Hn]. pose proof Hw as (Hok & Hnd & Hin & Hrw & Hf & Hs & Hi).
  assert (Htm : t ∈ members rq) by (unfold members; rewrite Hc; left). destruct (Hin t Htm) as [a Ha].
  set (rt' := mkRun now (now - start rt) (period_delta rt + (now - start rt))).
  assert (Hru : runtime_update rt now = Done rt').
  { unfold runtime_update. rewrite u64_sub_done by lia. cbn. by rewrite u64_add_done by lia. }
  assert (Hg : grown V now rq = V + 74 * delta rt') by (unfold grown; by rewrite Hc).
  assert (Hw' : rq_wf (grown V now rq) at_ (set_current rq (Some (t, rt')))).
  { apply (rq_wf_mono V); [|rewrite Hg; cbn; lia]. apply rq_wf_switch; [done| |].
    - unfold members in Hnd. by rewrite Hc in Hnd.
    - intros u [= <-]. eauto. }
  unfold update_class. rewrite Hc, Hru. cbn [mbind outcome_bind]. rewrite Ha. cbn [unwrap mbind outcome_bind].
  destruct (policy_kind a) eqn:Hk.
  - eexists _, _, _, _, rt'. do 2 (split; [done|]). split; [cbn; lia|]. by do 4 (split; [done|]).
  - eexists _, _, _, _, rt'. do 2 (split; [done|]). split; [cbn; lia|]. split; [|by do 3 (split; [done|])].
    cbn [set_current real_time_rq]. intros H%rt_update_current_queued; [|done]. unfold queued. by destruct (stop rq), (rt_tasks (real_time_rq rq)).
  - destruct (fair_update_current_done ck V at_ (fair_rq rq) rt' t a flags Hck Hok Hf Hn Ha) as (b & f & fa & Hfu & He & Hb & _ & Hok' & Hf').
    { intros Hx. unfold members, queued in Hnd. rewrite Hc in Hnd. cbn in Hnd. apply NoDup_cons in Hnd as [Hnd _]. set_solver. }
    { cbn; lia. }
    { by rewrite <- Hg. }
    change (fair_rq (set_current rq (Some (t, rt')))) with (fair_rq rq). rewrite Hfu. cbn [mbind outcome_bind].
    eexists _, _, _, _, rt'. do 2 (split; [done|]). split; [cbn; lia|].
    assert (Hq : queued (set_fair_rq (set_current rq (Some (t, rt'))) f) = queued rq).
    { unfold queued, fair_tasks. cbn [set_fair_rq set_current stop real_time_rq fair_rq idle]. by rewrite He. }
    split; [|split; [done|]; split; [done|]; split; [by apply same_but_fair_insert|]].
    + intros H%Hb. unfold queued, fair_tasks. destruct (stop rq), (rt_tasks (real_time_rq rq)), (entities (fair_rq rq)); done.
    + rewrite Hg. refine (rq_wf_take _ _ at_ _ None _ _ Hw' _ _ _ _ _ _ _ _); try done.
      * by rewrite Hq.
      * by apply same_but_fair_insert.
  - eexists _, _, _, _, rt'. do 2 (split; [done|]). split; [cbn; lia|]. split; [|by do 3 (split; [done|])].
    unfold queued. cbn [set_current idle]. destruct (stop rq), (rt_tasks (real_time_rq rq)), (fair_tasks (fair_rq rq)), (idle rq); done.
Qed.

Lemma update_current_done ck now V at_ rq flags :
  clk_ok ck → rq_wf V at_ rq → Z.of_nat (size at_) < 2 ^ 20 → runtime_ok now rq →
  grown V now rq < 2 ^ 60 → now < 2 ^ 63 →
  ∃ b rq' at', update_current ck now at_ rq flags = Done (b, rq', at') ∧
    queued rq' = queued rq ∧ fst <$> current rq' = fst <$> current rq ∧
    (∀ t rt, current rq' = Some (t, rt) → start rt = now ∧ 0 ≤ period_delta rt ≤ now) ∧
    (b = true → queued rq ≠ []) ∧
    (flags = Wait ∨ flags = Exit ∨ current rq = None → b = true ↔ queued rq ≠ []) ∧
    same_but_fair at_ at' ∧ rq_wf (grown V now rq) at' rq'.
Proof.
  intros Hck Hw Hsz Hrt HG Hnow. unfold update_current.
  assert (Hcls : ∃ b look rq' at', update_class ck now at_ rq flags = Done (b, look, rq', at') ∧
     (b = true → queued rq ≠ []) ∧ (current rq = None → look = 4) ∧
     queued rq' = queued rq ∧ fst <$> current rq' = fst <$> current rq ∧
     (∀ t rt, current rq' = Some (t, rt) → start rt = now ∧ 0 ≤ period_delta rt ≤ now) ∧
     same_but_fair at_ at' ∧ rq_wf (grown V now rq) at' rq').
  { destruct (current rq) as [[t rt]|] eqn:Hc.
    - destruct (update_class_some ck now V at_ rq flags t rt Hck Hw Hsz Hc Hrt HG Hnow)
        as (b & look & rq' & at' & rt' & Hcl & Hst & Hpd & Hb & Hq & Hc' & Hsame & Hw').
      exists b, look, rq', at'. do 4 (split; [done|]). rewrite Hc'. split; [done|]. split; [|done].
      intros ? ? [= <- <-]. done.
    - exists false, 4, rq, at_. unfold update_class, grown. rewrite Hc. by do 7 (split; [done|]). }
  destruct Hcls as (b & look & rq' & at' & -> & Hb & Hl & Hq & Hcur & Hst & Hsame & Hw').
  cbn [mbind outcome_bind]. eexists _, rq', at'. split; [reflexivity|]. split; [done|]. split; [done|]. split; [done|].
  pose proof Hw' as (_ & _ & _ & Hrw & _). split; [|split; [|done]].
  - rewrite <- !orb_assoc, orb_true_iff. intros [H|H]; [auto|]. rewrite <- Hq.
    rewrite !orb_assoc in H. exact (look_ahead_queued _ _ _ _ _ H Hrw).
  - intros Hf. assert (Hlook : match flags with Wait | Exit => 4 | _ => look end = 4).
    { destruct Hf as [->|[->|Hn]]; [done|done|]. rewrite (Hl Hn). by destruct flags. }
    rewrite Hlook. cbn [andb Z.leb Z.compare]. rewrite <- !orb_assoc, orb_true_iff, !orb_assoc.
    pose proof (look_all rq' Hrw) as Hall. rewrite Hq in Hall. cbn in Hall |- *. rewrite Hall. naive_solver.
Qed.

(** [C26] The contract that [LocalRunQueue] asks for: [update_current] answers yes only when
    another task waits, so that the [pick_next] which follows finds one and does not panic;
    when the current task is about to block or to exit, or there is none, it answers yes
    exactly when a task waits. It moves no task, and keeps the invariant of the run queue. *)
Theorem update_current_contract ck now V at_ rq flags :
  clk_ok ck → rq_wf V at_ rq → Z.of_nat (size at_) < 2 ^ 20 → runtime_ok now rq →
  grown V now rq < 2 ^ 60 → now < 2 ^ 63 →
  ∃ b rq' at', update_current ck now at_ rq flags = Done (b, rq', at') ∧
    queued rq' = queued rq ∧ fst <$> current rq' = fst <$> current rq ∧
    rq_wf (grown V now rq) at' rq' ∧
    (flags = Wait ∨ flags = Exit ∨ current rq = None → b = true ↔ queued rq ≠ []) ∧
    (b = true → ∀ tie, ∃ t rq2 at2, try_pick_next ck tie now at' rq' = Done (Some t, rq2, at2)).
Proof.
  intros Hck Hw Hsz Hrt HG Hnow.
  destruct (update_current_done ck now V at_ rq flags Hck Hw Hsz Hrt HG Hnow)
    as (b & rq' & at' & Hu & Hq & Hc & _ & Hb & Hex & Hsame & Hw').
  exists b, rq', at'. do 5 (split; [done|]). intros Hbt tie.
  destruct (try_pick_next_done ck tie now _ at' rq' Hck Hw' ltac:(lia)) as (o & rq2 & at2 & Hp & Hfc & _).
  { by rewrite (same_but_fair_size _ _ Hsame). }
  destruct o as [t|]; [eauto|]. destruct (Hb Hbt). rewrite <- Hq. by apply (first_choice_none rq' None).
Qed.

(** [C27] Picking the next task: it is the stop task, else the first of the real-time class
    (its active array before its inactive one, each by priority and then by arrival), else
    a task of the fair class with the smallest virtual run time, else the idle task; there
    is none exactly when no task waits. The picked task becomes the current one with its
    clock started, the old one waits again, and no task is lost or doubled. *)
Theorem try_pick_next_exact ck tie now V at_ rq :
  clk_ok ck → rq_wf V at_ rq → V < 2 ^ 62 → Z.of_nat (size at_) < 2 ^ 20 →
  ∃ o rq' at', try_pick_next ck tie now at_ rq = Done (o, rq', at') ∧
    first_choice rq o ∧ (o = None ↔ queued rq = []) ∧ members rq' ≡ₚ members rq ∧
    current rq' = match o with Some t => Some (t, runtime_new now) | None => current rq end ∧
    rq_wf V at' rq'.
Proof.
  intros Hck Hw HV Hsz. destruct (try_pick_next_done ck tie now V at_ rq Hck Hw HV Hsz) as (o & rq' & at' & Hp & Hfc & Hm & Hc & _ & Hw').
  exists o, rq', at'. do 2 (split; [done|]). split; [by apply first_choice_none|]. done.
Qed.

(** ** Runs *)

(** The policies that a system call can set *)
Definition policy_ok (p : SchedPolicy) : Prop :=
  match p with
  | RealTime pr rp => is_rt_prio pr = true ∧ factor_ok p
  | Fair n => is_nice n = true
  | _ => False
  end.

Lemma set_policy_ok base V t a p :
  0 ≤ base ≤ 2 ^ 22 → attr_ok V t a → policy_ok p →
  ∃ a', set_policy base a p = Done a' ∧ attr_ok V t a' ∧ cur_weight (fair a') = cur_weight (fair a) ∧
    vruntime (fair a') = vruntime (fair a).
Proof.
  intros Hb ((Hfa & Hpr) & Hwt & Hv & Hk) Hp.
  assert (Hkeep : factor_ok (keep_slice (policy a) p) ∧ kind (keep_slice (policy a) p) = kind p).
  { destruct p as [|pr [|[f|]]|n|]; try done; destruct (policy a) as [|? [|[?|]]| |]; cbn in *; naive_solver. }
  destruct Hkeep as [Hfk Hkk]. unfold set_policy, update_parts.
  destruct (keep_slice (policy a) p) as [|pr rp|n|] eqn:He; cbn in Hkk.
  - destruct p; done.
  - assert (Hts : ∃ ts, to_time_slice base rp = Done ts).
    { unfold to_time_slice. destruct rp as [|[f|]]; [eauto| |]; cbn [factor_ok] in Hfk; cbn [default from_option id];
        rewrite u64_mul_done by (unfold DEFAULT_BASE_SLICE_FACTOR; nia); eauto. }
    destruct Hts as [ts Hts]. unfold rt_attr. rewrite Hts. cbn. eexists. split; [done|]. split; [|done].
    assert (Hpr' : is_rt_prio pr = true).
    { destruct p as [|pr' [|[f|]]|n|]; try done; destruct (policy a) as [|? [|[?|]]| |]; cbn in *; naive_solver. }
    split; [split; [done|]|split; [done|]; split; [done|]; split; done].
    cbn. unfold is_rt_prio in Hpr'. apply andb_true_iff in Hpr' as [?%Z.leb_le ?%Z.leb_le]. lia.
  - cbn. eexists. split; [done|]. assert (Hn : is_nice n = true).
    { destruct p as [|pr' [|[f|]]|m|]; try done; destruct (policy a) as [|? [|[?|]]| |]; cbn in *; naive_solver. }
    destruct (fair_update_wf (fair a) n Hwt Hn) as [Hw1 Hw2]. split; [|done].
    split; [done|]. split; [done|]. split; [done|]. split; done.
  - destruct p; done.
Qed.

Lemma rq_wf_set_policy V at_ rq t a a' :
  rq_wf V at_ rq → at_ !! t = Some a → attr_ok V t a' → cur_weight (fair a') = cur_weight (fair a) →
  vruntime (fair a') = vruntime (fair a) → rq_wf V (<[t := a']> at_) rq.
Proof.
  intros (Hok & Hnd & Hin & Hrt & (Hf1 & Hf2 & Hf3) & Hs) Ha Ha' Hcw Hv.
  assert (Hl : ∀ u, is_Some (at_ !! u) → is_Some (<[t := a']> at_ !! u)).
  { intros u Hu. destruct (decide (t = u)) as [<-|]; [by rewrite lookup_insert_eq|by rewrite lookup_insert_ne]. }
  split; [|split; [done|]; split; [auto|]; split; [done|]; split; [|done]].
  - intros u b Hb. destruct (decide (t = u)) as [<-|].
    + rewrite lookup_insert_eq in Hb. by injection Hb as <-.
    + rewrite lookup_insert_ne in Hb by done. auto.
  - split; [|split; [done|]].
    + rewrite Hf1. clear -Ha Hcw. unfold sum_weights. induction (fair_tasks (fair_rq rq)) as [|u l IH]; [done|]. cbn. rewrite IH.
      f_equal. unfold weight_of. destruct (decide (t = u)) as [<-|]; [by rewrite lookup_insert_eq, Ha|by rewrite lookup_insert_ne].
    + intros u k Hu. destruct (Hf3 u k Hu) as (Hle & b & Hb & Hk). split; [done|]. destruct (decide (t = u)) as [<-|].
      * exists a'. rewrite lookup_insert_eq. split; [done|]. rewrite Ha in Hb. injection Hb as <-. lia.
      * exists b. by rewrite lookup_insert_ne.
Qed.

(** What happens to a run queue; a time passes before the clock is read. A task that is in
    the run queue is not queued again, and a task that is no thread is not queued
    ([ClassScheduler::enqueue]). *)
Inductive Event : Type :=
| EEnqueue (t : Z) (flags : EnqueueFlags)
| EUpdate (flags : UpdateFlags) (dt : Z)
| EPick (tie : nat) (dt : Z)
| EDequeue
| ESetPolicy (t : Z) (p : SchedPolicy).

Record Cpu : Type := mkCpu { c_rq : PerCpuClassRqSet; c_at : Attrs; c_now : Z }.

Definition do_event (ck : Clk) (s : Cpu) (e : Event) : outcome Cpu :=
  match e with
  | EEnqueue t flags =>
      if bool_decide (t ∈ members (c_rq s)) || negb (is_some (c_at s !! t)) then Done s
      else enqueue_entity ck (c_at s) (c_rq s) t (Some flags) ≫= λ '(rq, at_), Done (mkCpu rq at_ (c_now s))
  | EUpdate flags dt =>
      update_current ck (c_now s + dt) (c_at s) (c_rq s) flags ≫= λ '(_, rq, at_), Done (mkCpu rq at_ (c_now s + dt))
  | EPick tie dt =>
      try_pick_next ck tie (c_now s + dt) (c_at s) (c_rq s) ≫= λ '(_, rq, at_), Done (mkCpu rq at_ (c_now s + dt))
  | EDequeue => Done (mkCpu (dequeue_current (c_rq s)).2 (c_at s) (c_now s))
  | ESetPolicy t p =>
      match c_at s !! t with
      | None => Done s
      | Some a => set_policy (base_slice ck) a p ≫= λ a, Done (mkCpu (c_rq s) (<[t := a]> (c_at s)) (c_now s))
      end
  end.

Definition run_events (ck : Clk) (s : Cpu) (es : list Event) : outcome Cpu :=
  foldl (λ o e, o ≫= λ s, do_event ck s e) (Done s) es.

Definition event_ok (e : Event) : Prop :=
  match e with EUpdate _ dt | EPick _ dt => 0 ≤ dt | ESetPolicy _ p => policy_ok p | _ => True end.
Definition elapsed (e : Event) : Z := match e with EUpdate _ dt | EPick _ dt => dt | _ => 0 end.
Definition spawned (e : Event) : Z := match e with EEnqueue _ Spawn => 1 | _ => 0 end.
Definition total (g : Event → Z) (es : list Event) : Z := foldr (λ e n, g e + n) 0 es.

(** Up to when the current task is accounted for *)
Definition accounted (s : Cpu) : Z := match current (c_rq s) with Some (_, rt) => start rt | None => c_now s end.

(** The invariant of a run with [k] spawns so far *)
Definition run_inv (k : Z) (s : Cpu) : Prop :=
  rq_wf (2 ^ 29 * k + 74 * accounted s) (c_at s) (c_rq s) ∧ runtime_ok (c_now s) (c_rq s) ∧
  Z.of_nat (size (c_at s)) < 2 ^ 20 ∧ 0 ≤ accounted s ≤ c_now s.

Lemma size_insert_some (at_ : Attrs) t a a' : at_ !! t = Some a → size (<[t := a']> at_) = size at_.
Proof. intros Ha. rewrite <- !size_dom, dom_insert_L. f_equal. apply elem_of_dom_2 in Ha. set_solver. Qed.

Lemma do_event_inv ck k s e :
  clk_ok ck → event_ok e → run_inv k s → 0 ≤ k → k + spawned e ≤ 2 ^ 29 → c_now s + elapsed e < 2 ^ 53 →
  ∃ s', do_event ck s e = Done s' ∧ run_inv (k + spawned e) s' ∧ c_now s' = c_now s + elapsed e.
Proof.
  intros Hck He (Hw & Hrt & Hsz & Hacc) Hk Hsp Hnow. set (V := 2 ^ 29 * k + 74 * accounted s) in *.
  assert (HV : 0 ≤ V < 2 ^ 60) by (unfold V; destruct e as [? []| | | |]; cbn in *; lia).
  destruct s as [rq at_ now]. cbn [c_rq c_at c_now] in *. destruct e as [t flags|flags dt|tie dt| |t p]; cbn [do_event event_ok elapsed spawned c_rq c_at c_now] in *.
  - destruct (bool_decide (t ∈ members rq)) eqn:Ht; [|destruct (at_ !! t) as [a|] eqn:Ha]; cbn [orb negb is_some].
    2:{ apply bool_decide_eq_false in Ht.
        destruct (enqueue_entity_done ck V at_ rq t (Some flags) Hck Hw ltac:(lia) Hsz (mk_is_Some _ _ Ha) Ht) as (rq' & at' & -> & Hq & Hc & Hsame & Hw').
        cbn. eexists. split; [done|]. split; [|cbn; lia]. unfold run_inv, accounted, runtime_ok in *. cbn [c_rq c_at c_now] in *.
        rewrite Hc, (same_but_fair_size _ _ Hsame). split; [|done].
        eapply rq_wf_mono; [exact Hw'|]. unfold V. destruct flags; cbn; lia. }
    all: eexists; split; [done|]; split; [|cbn; lia]; split; [|done]; eapply rq_wf_mono; [exact Hw|]; unfold V, accounted; cbn; destruct flags; cbn; lia.
  - assert (Hg : grown V (now + dt) rq ≤ 2 ^ 29 * k + 74 * (now + dt) ∧ accounted (mkCpu rq at_ now) ≤ now + dt).
    { unfold grown, V, accounted in *. cbn [c_rq c_now] in *. destruct (current rq) as [[u rt]|]; lia. }
    assert (Hrt' : runtime_ok (now + dt) rq) by (intros u rt Hu; destruct (Hrt u rt Hu); lia).
    destruct (update_current_done ck (now + dt) V at_ rq flags Hck Hw Hsz Hrt' ltac:(lia) ltac:(lia)) as (b & rq' & at' & -> & Hq & Hc & Hst & _ & _ & Hsame & Hw').
    cbn. eexists. split; [done|]. split; [|cbn; lia].
    assert (Ha' : accounted (mkCpu rq' at' (now + dt)) = now + dt).
    { unfold accounted. cbn. destruct (current rq') as [[u rt]|] eqn:Hu; [|done]. by destruct (Hst u rt eq_refl). }
    unfold run_inv. rewrite Ha'. cbn [c_rq c_at c_now]. rewrite (same_but_fair_size _ _ Hsame).
    split; [eapply rq_wf_mono; [exact Hw'|lia]|]. split; [|lia]. intros u rt Hu. destruct (Hst u rt Hu). lia.
  - destruct (try_pick_next_done ck tie (now + dt) V at_ rq Hck Hw ltac:(lia) Hsz) as (o & rq' & at' & -> & _ & Hm & Hc & Hsame & Hw').
    cbn. eexists. split; [done|]. split; [|cbn; lia].
    assert (Ha' : accounted (mkCpu rq at_ now) ≤ accounted (mkCpu rq' at' (now + dt)) ≤ now + dt).
    { unfold accounted in *. cbn [c_rq c_now] in *. rewrite Hc. destruct o; cbn; [lia|]. destruct (current rq) as [[u rt]|]; lia. }
    unfold run_inv. cbn [c_rq c_at c_now]. rewrite (same_but_fair_size _ _ Hsame).
    split; [eapply rq_wf_mono; [exact Hw'|]; unfold V; lia|]. split; [|lia].
    intros u rt Hu. rewrite Hc in Hu. destruct o; [injection Hu as <- <-; cbn; lia|]. destruct (Hrt u rt Hu). lia.
  - eexists. split; [done|]. split; [|cbn; lia]. unfold run_inv, accounted. cbn [c_rq c_at c_now dequeue_current snd set_current current].
    split; [|split; [done|]; split; [done|]; unfold accounted in Hacc; cbn in Hacc; lia].
    apply rq_wf_switch; [eapply rq_wf_mono; [exact Hw|]; unfold V; lia| |done].
    destruct Hw as (_ & Hnd & _). unfold members in Hnd. by apply NoDup_app in Hnd as (_ & _ & ?).
  - destruct (at_ !! t) as [a|] eqn:Ha.
    + pose proof Hw as (Hok & _). destruct Hck as (Hb & Hck).
      destruct (set_policy_ok (base_slice ck) V t a p Hb (Hok t a Ha) He) as (a' & -> & Ha' & Hcw & Hv).
      cbn. eexists. split; [done|]. split; [|cbn; lia]. unfold run_inv, accounted in *. cbn [c_rq c_at c_now] in *.
      rewrite (size_insert_some _ _ a) by done. split; [|done]. rewrite Z.add_0_r. by eapply rq_wf_set_policy.
    + eexists. split; [done|]. split; [|cbn; lia]. rewrite Z.add_0_r. done.
Qed.

Lemma run_events_inv ck es k s :
  clk_ok ck → Forall event_ok es → run_inv k s → 0 ≤ k → k + total spawned es ≤ 2 ^ 29 →
  c_now s + total elapsed es < 2 ^ 53 →
  ∃ s', run_events ck s es = Done s' ∧ run_inv (k + total spawned es) s' ∧ c_now s' = c_now s + total elapsed es.
Proof.
  intros Hck Hes. revert k s. induction Hes as [|e es He Hes IH]; intros k s Hi Hk Hsp Hnow; cbn [total foldr] in *.
  - exists s. rewrite !Z.add_0_r. done.
  - assert (Hpos : 0 ≤ total spawned es ∧ 0 ≤ total elapsed es ∧ 0 ≤ spawned e ∧ 0 ≤ elapsed e).
    { split; [|split; [|split; [by destruct e as [? []| | | |]|by destruct e]]].
      - clear. unfold total. induction es as [|[? []| | | |] es IH]; cbn in *; lia.
      - clear -Hes. unfold total. induction Hes as [|[] es' Hd _ IH]; cbn in *; lia. }
    change (foldr (λ e n, spawned e + n) 0 es) with (total spawned es) in *.
    change (foldr (λ e n, elapsed e + n) 0 es) with (total elapsed es) in *.
    destruct (do_event_inv ck k s e Hck He Hi Hk ltac:(lia) ltac:(lia)) as (s1 & H1 & Hi1 & Hn1).
    destruct (IH _ s1 Hi1 ltac:(lia) ltac:(lia) ltac:(lia)) as (s2 & H2 & Hi2 & Hn2).
    exists s2. unfold run_events in *. cbn [foldl mbind outcome_bind]. rewrite H1.
    split; [done|]. rewrite Z.add_assoc. split; [done|]. lia.
Qed.

(** [min_vruntime] is the least virtual run time of a current task with [v] and of the
    waiting ones. *)
Definition min_exact (v : Z) (rq : FairClassRq) : Prop :=
  min_vruntime rq ≤ v ∧ (∀ e, e ∈ entities rq → min_vruntime rq ≤ e.2) ∧
  (min_vruntime rq = v ∨ ∃ t, (t, min_vruntime rq) ∈ entities rq).

Lemma fair_update_min ck rq rt f flags b rq' f' :
  weight_wf f → 0 ≤ vruntime f → 0 ≤ delta rt → flags ≠ Exit →
  fair_update_current ck rq rt f flags = Done (b, rq', f') → min_exact (vruntime f') rq'.
Proof.
  intros Hf Hv Hd Hne H. unfold fair_update_current in H.
  destruct (fetch_weight_spec _ Hf) as (w & f1 & Hfw & Hw1 & _ & _ & Hv1). rewrite Hfw in H.
  assert (∀ v f2, update_vruntime f1 (delta rt) w = Done (v, f2) → vruntime f2 = v) as Hup.
  { clear H. intros v f2 Hx.
    apply bind_done in Hx as (x & Hx & (d & Hdv & (v' & Hadd & [= <- <-])%bind_done)%bind_done).
    cbn. unfold u64_add, checked_add in Hadd. unfold u64_mul, checked_mul in Hx. unfold u64_div in Hdv. unfold weight_ok in Hw1.
    repeat case_match; simplify_eq/=. unfold wrapping_add. apply Z.mod_small.
    assert (0 ≤ delta rt * WEIGHT_0 / w) by (apply Z.div_pos; unfold WEIGHT_0; lia). split; [lia|by apply Z.ltb_lt]. }
  assert (min_vruntime rq' = match min_key (entities rq) with Some k => Z.min (vruntime f') k | None => vruntime f' end ∧
    entities rq' = entities rq) as [Hm He].
  { destruct flags; [| | |done]; apply bind_done in H as ([v f2] & Hu & H); rewrite <- (Hup v f2 Hu) in *;
      destruct (min_key (entities rq)); try by injection H as _ <- <-.
    all: apply bind_done in H as (ts & _ & H); destruct (ts <? period_delta rt); [by injection H as _ <- <-|];
      by apply bind_done in H as (vs & _ & (lim & _ & [= _ <- <-])%bind_done). }
  unfold min_exact. rewrite Hm, He. destruct (min_key (entities rq)) as [k|] eqn:Hk.
  - destruct (min_key_some _ _ Hk) as [[u Hu] Hall]. split; [lia|].
    split; [intros e Hin; specialize (Hall e Hin); lia|].
    destruct (Z.min_spec (vruntime f') k) as [[_ ->]|[_ ->]]; [by left|right; by exists u].
  - split; [lia|]. split; [|by left]. intros e Hin. destruct (entities rq); [by apply not_elem_of_nil in Hin|done].
Qed.

(** After an update other than at an exit, if the current task is of the fair class *)
Definition min_settled (s : Cpu) : Prop := ∀ t rt a,
  current (c_rq s) = Some (t, rt) → c_at s !! t = Some a → policy_kind a = KFair →
  min_exact (vruntime (fair a)) (fair_rq (c_rq s)).

Lemma update_min ck k s flags dt s' :
  run_inv k s → flags ≠ Exit → do_event ck s (EUpdate flags dt) = Done s' → min_settled s'.
Proof.
  intros ((Hok & _) & Hrt & _) Hne H t rt a Hc Ha Hp.
  apply bind_done in H as ([[b rq'] at'] & H & [= <-]). cbn in *.
  apply bind_done in H as ([[[b0 look] rq1] at1] & H & [= _ -> ->]). unfold update_class in H.
  destruct (current (c_rq s)) as [[u ru]|] eqn:Hcur; [|injection H as _ _ <- _; congruence].
  apply bind_done in H as (r1 & Hr1 & H). apply bind_done in H as (x & Hx & H).
  assert (at_u : c_at s !! u = Some x) by (destruct (c_at s !! u); [by injection Hx as ->|done]).
  assert (0 ≤ delta r1) as Hd.
  { apply bind_done in Hr1 as (d & Hs & (p & _ & [= <-])%bind_done). cbn. unfold u64_sub, checked_sub in Hs.
    destruct (Z.leb_spec (start ru) (c_now s + dt)); [injection Hs as <-; lia|done]. }
  destruct (Hok u x at_u) as (_ & Hw & Hv & _).
  destruct (policy_kind x) eqn:Hk; [injection H as _ _ <- <-; cbn in Hc; injection Hc as <- <-; congruence ..| |
    injection H as _ _ <- <-; cbn in Hc; injection Hc as <- <-; congruence].
  apply bind_done in H as ([[b1 f] fa] & Hfu & [= _ _ <- <-]). cbn in Hc. injection Hc as <- <-.
  rewrite lookup_insert_eq in Ha. injection Ha as <-. apply (fair_update_min ck (fair_rq (c_rq s)) r1 (fair x) flags b1); [done|lia|done..].
Qed.

Lemma total_snoc g es e : total g (es ++ [e]) = total g es + g e.
Proof. unfold total. induction es as [|x es IH]; cbn; lia. Qed.

(** [C25] The run queue of a CPU in every run that lasts less than [2 ^ 53] clock cycles, with
    fewer than [2 ^ 20] threads and at most [2 ^ 29] spawns: whatever is queued, picked,
    ticked, blocked or given another policy, nothing panics or overflows, every task is in
    the run queue at most once, the bits and the count of the real-time class agree with
    its queues, and the fair class has the sum of the weights of its tasks and a minimum
    that no waiting task is below. At the end of a run whose last event is an update
    other than at an exit, with a current task of the fair class, [min_vruntime] is the
    least virtual run time of this task and the waiting ones. *)
Theorem rq_run_safe ck at0 es :
  clk_ok ck → attrs_ok 0 at0 → Z.of_nat (size at0) < 2 ^ 20 → Forall event_ok es →
  total elapsed es < 2 ^ 53 → total spawned es ≤ 2 ^ 29 →
  ∃ s V, run_events ck (mkCpu rq_new at0 0) es = Done s ∧ V < 2 ^ 60 ∧ rq_wf V (c_at s) (c_rq s) ∧
    ∀ flags dt, last es = Some (EUpdate flags dt) → flags ≠ Exit → min_settled s.
Proof.
  intros Hck Hat Hsz Hes Hel Hsp.
  assert (Hinit : run_inv 0 (mkCpu rq_new at0 0)).
  { split; [|split; [done|]; split; [done|]; cbn; lia]. split; [done|]. split; [constructor|].
    split; [intros t Ht; by apply not_elem_of_nil in Ht|]. split; [apply rt_new_wf|].
    split; [|done]. split; [done|]. split; [cbn; lia|]. intros t k Hk. by apply not_elem_of_nil in Hk. }
  destruct (run_events_inv ck es 0 _ Hck Hes Hinit ltac:(lia) ltac:(lia) ltac:(cbn; lia)) as (s & Hr & (Hw & _ & _ & Hacc) & Hn).
  cbn in Hn. eexists s, _. split; [done|]. split; [|split; [exact Hw|]]; [lia|].
  intros flags dt [es0 ->]%last_Some Hne. rewrite total_snoc in *. apply Forall_app in Hes as [Hes He]. apply (Forall_singleton event_ok) in He.
  cbn [elapsed spawned event_ok] in Hel, Hsp, He.
  destruct (run_events_inv ck es0 0 _ Hck Hes Hinit ltac:(lia) ltac:(lia) ltac:(cbn; lia)) as (s1 & Hr1 & Hi1 & _).
  unfold run_events in *. rewrite foldl_app, Hr1 in Hr. exact (update_min ck _ s1 flags dt s Hi1 Hne Hr).
Qed.

End Ids.

(** ** What the classes get wrong *)

(** A clock of 3 GHz on four CPUs *)
Definition ck3 : Clk := mkClk 2250000 18000000 4.

(** The two threads of [two_fifos] on one CPU: which runs first, what the next tick says,
    which runs then, and the same once more *)
Definition fifo_trace : outcome (option Z * bool * option Z * bool * option Z) :=
  two_fifos ≫= λ '(_, at_),
  enqueue_entity ck3 at_ rq_new 1 (Some Wake) ≫= λ '(rq, at_),
  enqueue_entity ck3 at_ rq 2 (Some Wake) ≫= λ '(rq, at_),
  try_pick_next ck3 0 0 at_ rq ≫= λ '(o1, rq, at_),
  update_current ck3 1000 at_ rq Tick ≫= λ '(b1, rq, at_),
  try_pick_next ck3 0 1000 at_ rq ≫= λ '(o2, rq, at_),
  update_current ck3 2000 at_ rq Tick ≫= λ '(b2, rq, at_),
  try_pick_next ck3 0 2000 at_ rq ≫= λ '(o3, _, _),
  Done (o1, b1, o2, b2, o3).

(** Three threads, the third one in the real-time class *)
Definition three_threads : outcome Attrs :=
  attr_new 2250000 (Fair 0) ≫= λ a, attr_new 2250000 (RealTime 50 (RoundRobin None)) ≫= λ b,
  Done {[1 := a; 2 := a; 3 := b]}.

(** Thread 1 runs in the fair class, thread 2 joins it, thread 3 takes over and leaves the
    real-time class while it runs *)
Definition leave_rt : list Event :=
  [EEnqueue 1 Spawn; EPick 0 0; EUpdate Tick 1000000000000; EEnqueue 2 Wake; EEnqueue 3 Spawn; EPick 0 0].
Definition left_rt : list Event := leave_rt ++ [ESetPolicy 3 (Fair 0); EUpdate Tick 1000].

Definition min_after (es : list Event) : outcome Z :=
  three_threads ≫= λ at_, run_events ck3 (mkCpu rq_new at_ 0) es ≫= λ s, Done (min_vruntime (fair_rq (c_rq s))).

(** Who runs after [es] and the next pick, and whether a tick one clock later ends it *)
Definition preempted_after (es : list Event) : outcome (option Z * bool) :=
  three_threads ≫= λ at_,
  run_events ck3 (mkCpu rq_new at_ 0) (es ++ [EPick 0 0]) ≫= λ s,
  update_current ck3 (c_now s + 1) (c_at s) (c_rq s) Tick ≫= λ '(b, rq, _),
  Done (fst <$> current rq, b).

(** [C38] Two flaws. A FIFO thread is not run until a more urgent one comes: of two FIFO
    threads the one with the better priority runs first, but the first tick hands the CPU
    to the other one, and so on in turns, because any thread left in the active array
    preempts and the preempted thread goes to the inactive array. And a thread that leaves
    the real-time class while it runs keeps the virtual run time it had, here 0: the
    minimum of the run queue falls back from over [10 ^ 12], and the other threads, far ahead of
    it, are each preempted at the first tick, which they were not before, until the
    newcomer has caught up. *)
Theorem sched_class_flaws :
  (match two_fifos with Done (_, ts) => prio_of ts 1 = Some 1 ∧ prio_of ts 2 = Some 2 | Panic => False end ∧
   fifo_trace = Done (Some 1, true, Some 2, true, Some 1)) ∧
  min_after leave_rt = Done 1000036000000 ∧ min_after left_rt = Done 1000 ∧
  preempted_after (take 4 leave_rt) = Done (Some 2, false) ∧ preempted_after left_rt = Done (Some 2, true).
Proof.
  split; [split; [vm_compute; repeat split|vm_compute; reflexivity]|].
  do 3 (split; [vm_compute; reflexivity|]). vm_compute. reflexivity.
Qed.

(** ** Examples *)

(** Thread 1 runs, thread 2 waits, both in the fair class; 8 and 9 would be the stop and
    the idle task. *)
Definition fair_attr0 : SchedAttr := mkAttr (Fair 0) KFair None (mkRt 99 0) (mkFair 1024 0 0).
Definition at_sample : Attrs := {[1 := fair_attr0; 2 := fair_attr0]}.
Definition rq_sample : PerCpuClassRqSet :=
  mkRq None rt_new (mkFairRq [(2, 0)] 0 1024) None (Some (1, mkRun 0 0 0)).

Lemma ck3_ok : clk_ok ck3.
Proof. vm_compute. repeat split; discriminate. Qed.

Lemma at_sample_ok : attrs_ok 9 8 0 at_sample.
Proof.
  intros t a Ha. assert (a = fair_attr0) as ->.
  { unfold at_sample in Ha. rewrite lookup_insert_Some, lookup_singleton_Some in Ha. naive_solver. }
  split; [split; [done|cbn; lia]|]. split; [exists 1024; split; [unfold weight_ok; lia|by left]|].
  split; [cbn; lia|]. split; done.
Qed.

Lemma rq_sample_wf : rq_wf 9 8 0 at_sample rq_sample.
Proof.
  split; [apply at_sample_ok|]. split; [apply (bool_decide_unpack _); vm_compute; reflexivity|].
  split; [intros t Ht; apply elem_of_cons in Ht as [->|Ht]; [|apply list_elem_of_singleton in Ht as ->]; vm_compute; eauto|].
  split; [apply rt_new_wf|]. split; [|done]. split; [vm_compute; reflexivity|]. split; [cbn; lia|].
  intros t k Hk. apply list_elem_of_singleton in Hk as [= -> ->]. split; [cbn; lia|]. exists fair_attr0. split; [vm_compute; reflexivity|done].
Qed.

Lemma rq_run_safe_witness :
  ∃ s V, run_events ck3 (mkCpu rq_new at_sample 0)
    [EEnqueue 1 Spawn; EEnqueue 2 Spawn; EPick 0 5; EUpdate Tick 1000] = Done s ∧ V < 2 ^ 60 ∧
    rq_wf 9 8 V (c_at s) (c_rq s) ∧
    ∀ flags dt, last [EEnqueue 1 Spawn; EEnqueue 2 Spawn; EPick 0 5; EUpdate Tick 1000] = Some (EUpdate flags dt) →
      flags ≠ Exit → min_settled s.
Proof.
  apply (rq_run_safe 9 8 ck3 at_sample).
  - exact ck3_ok.
  - exact at_sample_ok.
  - vm_compute. reflexivity.
  - repeat constructor; vm_compute; try discriminate; try reflexivity.
  - vm_compute. reflexivity.
  - vm_compute. discriminate.
Defined.

Lemma update_current_contract_witness :
  ∃ b rq' at', update_current ck3 1000 at_sample rq_sample Wait = Done (b, rq', at') ∧
    queued rq' = queued rq_sample ∧ fst <$> current rq' = fst <$> current rq_sample ∧
    rq_wf 9 8 (grown 0 1000 rq_sample) at' rq' ∧
    (Wait = Wait ∨ Wait = Exit ∨ current rq_sample = None → b = true ↔ queued rq_sample ≠ []) ∧
    (b = true → ∀ tie, ∃ t rq2 at2, try_pick_next ck3 tie 1000 at' rq' = Done (Some t, rq2, at2)).
Proof.
  apply (update_current_contract 9 8 ck3 1000 0 at_sample rq_sample Wait).
  - exact ck3_ok.
  - exact rq_sample_wf.
  - vm_compute. reflexivity.
  - intros t rt [= <- <-]. vm_compute. repeat split; discriminate.
  - vm_compute. reflexivity.
  - vm_compute. reflexivity.
Defined.

Lemma try_pick_next_exact_witness :
  ∃ o rq' at', try_pick_next ck3 0 1000 at_sample rq_sample = Done (o, rq', at') ∧
    first_choice rq_sample o ∧ (o = None ↔ queued rq_sample = []) ∧ members rq' ≡ₚ members rq_sample ∧
    current rq' = match o with Some t => Some (t, runtime_new 1000) | None => current rq_sample end ∧
    rq_wf 9 8 0 at' rq'.
Proof.
  apply (try_pick_next_exact 9 8 ck3 0 1000 0 at_sample rq_sample).
  - exact ck3_ok.
  - exact rq_sample_wf.
  - vm_compute. reflexivity.
  - vm_compute. reflexivity.
Defined.

End SchedRun.
