(* ===== verification/SchedCpu.v ===== *)
(** * Tasks on several CPUs

    [osxtd/src/task/scheduler/mod.rs]: how tasks are woken, parked, preempted and ended over
    the run queues of all CPUs, against the interface [LocalRunQueue], which the FIFO
    scheduler ([fifo_scheduler.rs]) and the run queue of the scheduling classes
    ([SchedClass]) implement; [osxtd/src/task/scheduler/info.rs]: the CPU of a task;
    [osxtd/src/task/processor.rs]: the switch of a CPU to a task. A closure that runs under
    the lock of a run queue is one step, and so is each access to an atomic word. *)

From S2P Require Import Prelude SchedPolicy SchedClass SchedRun.
Import SchedClass.
Local Open Scope Z_scope.

Module SchedCpu.

(** ** The interface of a run queue *)

(** [LocalRunQueue], and the enqueueing under the lock of a run queue that [Scheduler]
    adds; the relations say what an operation may answer and leave. *)
Class LocalRunQueue (Q : Type) : Type := {
  rq_members : Q → list Z;          (** the tasks in it, the current one included *)
  rq_current : Q → option Z;
  rq_empty : Q → Prop;
  rq_enqueue : Q → Z → Q → Prop;
  rq_update : Q → UpdateFlags → bool → Q → Prop;
  rq_pick : Q → option Z → Q → Prop;
  rq_dequeue : Q → Q;
}.

(** What an implementation promises *)
Class LawfulRunQueue (Q : Type) `{!LocalRunQueue Q} : Prop := {
  empty_members q : rq_empty q → rq_members q = [];
  current_member q t : rq_current q = Some t → t ∈ rq_members q;
  enqueue_members q t q' :
    rq_enqueue q t q' → t ∉ rq_members q → rq_members q' ≡ₚ t :: rq_members q ∧ rq_current q' = rq_current q;
  update_members q f b q' : rq_update q f b q' → rq_members q' ≡ₚ rq_members q ∧ rq_current q' = rq_current q;
  pick_members q o q' :
    rq_pick q o q' → rq_members q' ≡ₚ rq_members q ∧
    rq_current q' = match o with Some t => Some t | None => rq_current q end;
  dequeue_members q : rq_members q ≡ₚ option_list (rq_current q) ++ rq_members (rq_dequeue q);
}.

(** ** The FIFO scheduler *)

Record FifoRunQueue : Type := mkFifo { f_current : option Z; f_queue : list Z }.

Definition fifo_new : FifoRunQueue := mkFifo None [].

Definition fifo_enqueue (q : FifoRunQueue) (t : Z) : FifoRunQueue := mkFifo (f_current q) (f_queue q ++ [t]).

Definition fifo_update (q : FifoRunQueue) (f : UpdateFlags) : bool :=
  match f with Tick => false | Wait | Yield | Exit => match f_queue q with [] => false | _ => true end end.

Definition fifo_try_pick_next (q : FifoRunQueue) : option Z * FifoRunQueue :=
  match f_queue q with
  | [] => (None, q)
  | t :: l => (Some t, mkFifo (Some t) (match f_current q with Some u => l ++ [u] | None => l end))
  end.

Definition fifo_dequeue (q : FifoRunQueue) : FifoRunQueue := mkFifo None (f_queue q).

#[global] Instance fifo_run_queue : LocalRunQueue FifoRunQueue := {
  rq_members q := option_list (f_current q) ++ f_queue q;
  rq_current q := f_current q;
  rq_empty q := q = fifo_new;
  rq_enqueue q t q' := q' = fifo_enqueue q t;
  rq_update q f b q' := b = fifo_update q f ∧ q' = q;
  rq_pick q o q' := fifo_try_pick_next q = (o, q');
  rq_dequeue q := fifo_dequeue q;
}.

(** ** The scheduling classes *)

(** The attributes of the threads are changed by every CPU and by system calls; here an
    operation may find any attributes that agree with its run queue. *)
#[global] Instance class_run_queue : LocalRunQueue PerCpuClassRqSet := {
  rq_members q := members q;
  rq_current q := fst <$> current q;
  rq_empty q := q = rq_new;
  rq_enqueue q t q' := ∃ i s V at_ at' ck flags,
    SchedRun.rq_wf i s V at_ q ∧ enqueue_entity ck at_ q t flags = Done (q', at');
  rq_update q f b q' := ∃ i s V at_ at' ck now,
    SchedRun.clk_ok ck ∧ SchedRun.rq_wf i s V at_ q ∧ Z.of_nat (size at_) < 2 ^ 20 ∧ SchedRun.runtime_ok now q ∧
    SchedRun.grown V now q < 2 ^ 60 ∧ now < 2 ^ 63 ∧ update_current ck now at_ q f = Done (b, q', at');
  rq_pick q o q' := ∃ i s V at_ at' ck tie now,
    SchedRun.clk_ok ck ∧ SchedRun.rq_wf i s V at_ q ∧ V < 2 ^ 62 ∧ Z.of_nat (size at_) < 2 ^ 20 ∧
    try_pick_next ck tie now at_ q = Done (o, q', at');
  rq_dequeue q := (dequeue_current q).2;
}.

(** [ClassScheduler::cycle_after], and all CPUs when none was chosen before *)
Definition candidates (last : option nat) (affinity : list nat) : list nat :=
  match last with
  | Some c => filter (λ x, (c < x)%nat) affinity ++ filter (λ x, (x ≤ c)%nat) affinity
  | None => affinity
  end.

Definition test_candidate (loads : nat → Z) (best : nat * Z) (c : nat) : nat * Z :=
  if loads c <? best.2 then (c, loads c) else best.

(** [ClassScheduler::select_cpu]: the CPU and the new [last_chosen_cpu]; [here] is the CPU
    that runs it, [loads] the lengths of the run queues as they are read one by one *)
Definition select_cpu (a : SchedPolicy.SchedAttr) (here : nat) (last : option nat) (affinity : list nat) (loads : nat → Z)
  : nat * option nat :=
  match SchedPolicy.last_cpu a with
  | Some c => (c, last)
  | None =>
      let c := (foldl (test_candidate loads) (here, 2 ^ 32 - 1) (candidates last affinity)).1 in
      (c, Some c)
  end.

(** [ClassScheduler::enqueue], what it answers: whether the task on the CPU is to be preempted *)
Definition should_preempt (at_ : Attrs) (rq : PerCpuClassRqSet) (t : Z) : bool :=
  match current rq with
  | None => true
  | Some (u, _) =>
      match at_ !! t, at_ !! u with
      | Some a, Some b => SchedPolicy.policy_lt (SchedPolicy.policy a) (SchedPolicy.policy b)
      | _, _ => false
      end
  end.

#[global] Instance fifo_lawful : LawfulRunQueue FifoRunQueue.
Proof.
  split; cbn.
  - by intros q ->.
  - intros q t ->. left.
  - intros q t q' -> _. cbn. split; [solve_Permutation|done].
  - by intros q f b q' [_ ->].
  - intros q o q'. unfold fifo_try_pick_next. destruct (f_queue q) as [|t l] eqn:Hl; intros [= <- <-]; [by rewrite Hl|].
    cbn. split; [|done]. destruct (f_current q); cbn; solve_Permutation.
  - done.
Qed.

#[global] Instance class_lawful : LawfulRunQueue PerCpuClassRqSet.
Proof.
  split; cbn.
  - by intros q ->.
  - intros q t Hc. unfold members. rewrite Hc. left.
  - intros q t q' (i & s & V & at_ & at' & ck & flags & Hw & He) Ht.
    destruct (enqueue_entity_tasks _ _ _ _ _ _ _ (SchedRun.slot_free_wf _ _ _ _ _ _ Hw Ht) He) as [Hq Hc].
    unfold members. rewrite Hc, Hq. split; [solve_Permutation|done].
  - intros q f b q' (i & s & V & at_ & at' & ck & now & Hck & Hw & Hsz & Hrt & HG & Hn & Hu).
    destruct (SchedRun.update_current_done i s ck now V at_ q f Hck Hw Hsz Hrt HG Hn) as (b' & rq' & at2 & Hu' & Hq & Hc & _).
    rewrite Hu in Hu'. injection Hu' as <- <- <-. unfold members. by rewrite Hq, Hc.
  - intros q o q' (i & s & V & at_ & at' & ck & tie & now & Hck & Hw & HV & Hsz & Hp).
    destruct (SchedRun.try_pick_next_done i s ck tie now V at_ q Hck Hw HV Hsz) as (o' & rq' & at2 & Hp' & _ & Hm & Hc & _).
    rewrite Hp in Hp'. injection Hp' as <- <- <-. split; [done|]. rewrite Hc. by destruct o.
  - done.
Qed.

(** ** The world *)

(** A call of [Scheduler::enqueue] under way (calls have numbers): before its first exchange on the CPU of the
    task, and after it, with [still_in_rq] and the CPU it goes to *)
Inductive Call : Type :=
| Called (t : Z)
| Chosen (t : Z) (still_in_rq : bool) (cpu : nat).

Section World.

Context {Q : Type} `{!LocalRunQueue Q} `{!LawfulRunQueue Q}.

(** [cpu_of]: the [AtomicCpuId] of a task, absent when it is [NONE]; [wakers]: the task of
    each waker whose waiter is not dropped, and [has_woken] its flag; [parking]: the task
    and the waker of a CPU that is in [park_current], with the lock of its run queue, between
    its look at the flag and [dequeue_current]; [parked]: the waker a task last blocked on. *)
Record World : Type := mkW {
  rqs : gmap nat Q;
  cpu_of : gmap Z nat;
  calls : gmap nat Call;
  wakers : gmap nat Z;
  has_woken : gset nat;
  parking : gmap nat (Z * nat);
  parked : gmap Z nat;
  spawned : gset Z;
  exited : gset Z;
}.

Definition set_rq (w : World) (c : nat) (q : Q) : World :=
  mkW (<[c := q]> (rqs w)) (cpu_of w) (calls w) (wakers w) (has_woken w) (parking w) (parked w) (spawned w) (exited w).
Definition set_cpu (w : World) (m : gmap Z nat) : World :=
  mkW (rqs w) m (calls w) (wakers w) (has_woken w) (parking w) (parked w) (spawned w) (exited w).
Definition set_calls (w : World) (l : gmap nat Call) : World :=
  mkW (rqs w) (cpu_of w) l (wakers w) (has_woken w) (parking w) (parked w) (spawned w) (exited w).
Definition set_wakers (w : World) (m : gmap nat Z) (s : gset nat) (p : gmap Z nat) : World :=
  mkW (rqs w) (cpu_of w) (calls w) m s (parking w) p (spawned w) (exited w).

Definition set_parking (w : World) (m : gmap nat (Z * nat)) (p : gmap Z nat) : World :=
  mkW (rqs w) (cpu_of w) (calls w) (wakers w) (has_woken w) m p (spawned w) (exited w).

(** A step that needs the lock of the run queue of a CPU finds the run queue. *)
Definition locks (w : World) (c : nat) (q : Q) : Prop := rqs w !! c = Some q ∧ parking w !! c = None.

(** [update_current] followed by [dequeue_current] and, if it answered yes, [pick_next]:
    the first try of [park_current] and of [exit_current] *)
Definition leave (f : UpdateFlags) (q q' : Q) : Prop :=
  ∃ b q1, rq_update q f b q1 ∧
    if b then ∃ t, rq_pick (rq_dequeue q1) (Some t) q' else q' = rq_dequeue q1.

Inductive sstep (w : World) : World → Prop :=
(** [run_new_task] *)
| s_spawn i t :
    t ∉ spawned w → calls w !! i = None →
    sstep w (mkW (rqs w) (cpu_of w) (<[i := Called t]> (calls w)) (wakers w) (has_woken w) (parking w) (parked w) ({[t]} ∪ spawned w) (exited w))
(** [Waiter::new_pair] by the current task of a CPU *)
| s_new_pair c q t k :
    locks w c q → rq_current q = Some t → wakers w !! k = None →
    sstep w (set_wakers w (<[k := t]> (wakers w)) (has_woken w ∖ {[k]}) (parked w))
(** [Waker::wake_up] up to its call of [unpark_target]; it does nothing when the flag is set *)
| s_wake_up i k t :
    wakers w !! k = Some t → k ∉ has_woken w → calls w !! i = None →
    sstep w (set_calls (set_wakers w (wakers w) ({[k]} ∪ has_woken w) (parked w)) (<[i := Called t]> (calls w)))
(** [enqueue]: [set_if_is_none] on the CPU of the task, before the lock *)
| s_choose i t c :
    calls w !! i = Some (Called t) → cpu_of w !! t = None → is_Some (rqs w !! c) →
    sstep w (set_calls (set_cpu w (<[t := c]> (cpu_of w))) (<[i := Chosen t false c]> (calls w)))
| s_still i t c :
    calls w !! i = Some (Called t) → cpu_of w !! t = Some c →
    sstep w (set_calls w (<[i := Chosen t true c]> (calls w)))
(** [enqueue] under the lock of the run queue *)
| s_enqueue i t still c q q' :
    calls w !! i = Some (Chosen t still c) → locks w c q → (still = true → cpu_of w !! t = None) →
    rq_enqueue q t q' →
    sstep w (set_calls (set_cpu (set_rq w c q') (<[t := c]> (cpu_of w))) (delete i (calls w)))
| s_in_rq i t c c' :
    calls w !! i = Some (Chosen t true c) → parking w !! c = None → cpu_of w !! t = Some c' →
    sstep w (set_calls w (delete i (calls w)))
(** the callback of the timer *)
| s_tick c q b q' :
    locks w c q → rq_update q Tick b q' → sstep w (set_rq w c q')
(** [might_preempt], and a further try of [park_current] or [exit_current] *)
| s_pick c q o q' :
    locks w c q → rq_pick q o q' → sstep w (set_rq w c q')
(** [yield_now] *)
| s_yield c q b q1 q' :
    locks w c q → rq_update q Yield b q1 → (if b then ∃ t, rq_pick q1 (Some t) q' else q' = q1) →
    sstep w (set_rq w c q')
(** [do_wait] finds its flag set *)
| s_consume c q t k :
    locks w c q → rq_current q = Some t → wakers w !! k = Some t → k ∈ has_woken w →
    sstep w (set_wakers w (wakers w) (has_woken w ∖ {[k]}) (delete t (parked w)))
(** [park_current], the first try: the flag is not set, [dequeue_current] follows *)
| s_check c q t k :
    locks w c q → rq_current q = Some t → wakers w !! k = Some t → k ∉ has_woken w →
    sstep w (set_parking w (<[c := (t, k)]> (parking w)) (parked w))
| s_park c q t k q' :
    rqs w !! c = Some q → parking w !! c = Some (t, k) → leave Wait q q' →
    sstep w (set_parking (set_cpu (set_rq w c q') (delete t (cpu_of w))) (delete c (parking w)) (<[t := k]> (parked w)))
(** [Waiter::drop] closes the waker *)
| s_close c q t k :
    locks w c q → rq_current q = Some t → wakers w !! k = Some t →
    sstep w (set_wakers w (delete k (wakers w)) (has_woken w) (delete t (parked w)))
(** [exit_current]: the first try; the waiters of the task are dropped by then *)
| s_exit c q t q' :
    locks w c q → rq_current q = Some t → (∀ k, wakers w !! k ≠ Some t) → leave Exit q q' →
    sstep w (mkW (<[c := q']> (rqs w)) (delete t (cpu_of w)) (calls w) (wakers w) (has_woken w)
               (parking w) (delete t (parked w)) (spawned w) ({[t]} ∪ exited w)).

(** The start: every CPU with an empty run queue *)
Definition initial (w : World) : Prop :=
  (∀ c q, rqs w !! c = Some q → rq_empty q) ∧
  w = mkW (rqs w) ∅ ∅ ∅ ∅ ∅ ∅ ∅ ∅.

(** ** The invariant *)

(** A task is queued by a call that has claimed it. *)
Definition claims (w : World) (t : Z) (c : nat) : Prop := ∃ i, calls w !! i = Some (Chosen t false c).
(** A call for the task that has not claimed it is under way. *)
Definition asks (w : World) (t : Z) : Prop :=
  ∃ i, calls w !! i = Some (Called t) ∨ ∃ c, calls w !! i = Some (Chosen t true c).

Definition queued_on (w : World) (t : Z) (c : nat) : Prop := ∃ q, rqs w !! c = Some q ∧ t ∈ rq_members q.

Record inv (w : World) : Prop := {
  inv_nodup : ∀ c q, rqs w !! c = Some q → NoDup (rq_members q);
  inv_cpu : ∀ t c, queued_on w t c → cpu_of w !! t = Some c;
  inv_claim : ∀ t c, claims w t c → cpu_of w !! t = Some c ∧ is_Some (rqs w !! c) ∧ ∀ c', ¬ queued_on w t c';
  inv_once : ∀ i j t c c', calls w !! i = Some (Chosen t false c) → calls w !! j = Some (Chosen t false c') → i = j;
  inv_somewhere : ∀ t c, cpu_of w !! t = Some c → queued_on w t c ∨ claims w t c;
  inv_parking : ∀ c t k, parking w !! c = Some (t, k) →
    (∃ q, rqs w !! c = Some q ∧ rq_current q = Some t) ∧ wakers w !! k = Some t ∧
    (k ∈ has_woken w → ∃ i, calls w !! i = Some (Called t) ∨ calls w !! i = Some (Chosen t true c));
  inv_parked : ∀ t k, parked w !! t = Some k → wakers w !! k = Some t;
  inv_woken : ∀ t k, parked w !! t = Some k → k ∈ has_woken w → is_Some (cpu_of w !! t) ∨ asks w t;
}.

(** *** Which step keeps what *)

Lemma leave_members f q q' t :
  leave f q q' → rq_current q = Some t → rq_members q ≡ₚ t :: rq_members q'.
Proof.
  intros (b & q1 & Hu & Hl) Hc. destruct (update_members _ _ _ _ Hu) as [Hm Hc1].
  rewrite <- Hm, (dequeue_members q1), Hc1, Hc. cbn. destruct b; [|by subst q'].
  destruct Hl as [u Hp]. by destruct (pick_members _ _ _ Hp) as [-> _].
Qed.

Lemma queued_on_insert (w w' : World) c q' u d :
  rqs w' = <[c := q']> (rqs w) → queued_on w' u d ↔ (d = c ∧ u ∈ rq_members q') ∨ (d ≠ c ∧ queued_on w u d).
Proof.
  intros Hr. unfold queued_on. rewrite Hr. destruct (decide (d = c)) as [->|Hne].
  - rewrite lookup_insert_eq. naive_solver.
  - rewrite lookup_insert_ne by done. naive_solver.
Qed.

(** A run queue whose tasks stay, apart from their order *)
Lemma inv_set_rq w c q q' :
  locks w c q → rq_members q' ≡ₚ rq_members q → inv w → inv (set_rq w c q').
Proof.
  intros [Hq Hpk] Hm [H1 H2 H3 H4 H5 H6 H7 H8].
  assert (Hon : ∀ u d, queued_on (set_rq w c q') u d ↔ queued_on w u d).
  { intros u d. rewrite (queued_on_insert w _ c q') by done. split.
    - intros [[-> Hu]|[_ Hu]]; [|done]. exists q. by rewrite <- Hm.
    - destruct (decide (d = c)) as [->|]; [|by right]. intros (q2 & Hq2 & Hu). left. rewrite Hm. by simplify_eq. }
  split; unfold claims in *; cbn [set_rq rqs cpu_of calls wakers has_woken parking parked]; try done.
  - intros d q2 [[<- <-]|[_ Hd]]%lookup_insert_Some; [rewrite Hm; by eapply H1|by eapply H1].
  - intros t d Hd. apply H2. by apply Hon.
  - intros t d Hd. destruct (H3 t d Hd) as (Ha & Hb & Hc). split; [done|]. split.
    + destruct (decide (c = d)) as [<-|]; [by rewrite lookup_insert_eq|by rewrite lookup_insert_ne].
    + intros d'. by rewrite Hon.
  - intros t d Hd. rewrite Hon. by apply H5.
  - intros d t k Hd. destruct (H6 d t k Hd) as (Ha & Hb). split; [|done].
    assert (c ≠ d) by (intros ->; congruence). by rewrite lookup_insert_ne.
Qed.

(** One more call that has not claimed a task *)
Lemma inv_called w i t hw :
  inv w → calls w !! i = None → (∀ u k, wakers w !! k = Some u → k ∈ hw → k ∈ has_woken w ∨ u = t) →
  inv (set_calls (set_wakers w (wakers w) hw (parked w)) (<[i := Called t]> (calls w))).
Proof.
  intros [H1 H2 H3 H4 H5 H6 H7 H8] Hi Hhw.
  assert (Hold : ∀ j x, calls w !! j = Some x → <[i := Called t]> (calls w) !! j = Some x).
  { intros j x Hj. rewrite lookup_insert_ne; [done|]. intros <-. congruence. }
  assert (Hcl : ∀ j u c, <[i := Called t]> (calls w) !! j = Some (Chosen u false c) → calls w !! j = Some (Chosen u false c)).
  { intros j u c [[_ ?]|[_ ?]]%lookup_insert_Some; done. }
  split; unfold claims in *; cbn [set_calls set_wakers rqs cpu_of calls wakers has_woken parking parked]; try done.
  - intros u c [j Hj%Hcl]. by apply H3; exists j.
  - intros j j' u c c' Hj%Hcl Hj'%Hcl. by eapply H4.
  - intros u c Hu. destruct (H5 u c Hu) as [|[j Hj]]; [by left|right]. exists j. auto.
  - intros c u k Hc. destruct (H6 c u k Hc) as (Ha & Hb & Hd). do 2 (split; [done|]). intros Hk.
    destruct (Hhw u k Hb Hk) as [Hk'| ->]; [destruct (Hd Hk') as (j & [Hj|Hj]); exists j; auto|].
    exists i. left. apply lookup_insert_eq.
  - intros u k Hu Hk. destruct (Hhw u k (H7 u k Hu) Hk) as [Hk'| ->].
    + destruct (H8 u k Hu Hk') as [|(j & [Hj|[c Hj]])]; [by left|right; exists j..]; [left|right; exists c]; auto.
    + right. exists i. left. apply lookup_insert_eq.
Qed.

(** [spawned] and [exited] do not count. *)
Lemma inv_irrelevant r cp ca wk hw pk pd sp ex sp' ex' :
  inv (mkW r cp ca wk hw pk pd sp ex) → inv (mkW r cp ca wk hw pk pd sp' ex').
Proof. intros [H1 H2 H3 H4 H5 H6 H7 H8]. by split. Qed.

(** A task that runs is not claimed, and it is nowhere else. *)
Lemma inv_current w c q t : inv w → rqs w !! c = Some q → rq_current q = Some t → cpu_of w !! t = Some c.
Proof. intros Hi Hq Hc. apply (inv_cpu _ Hi). exists q. split; [done|]. by apply current_member. Qed.

Lemma inv_choose w i t c :
  inv w → calls w !! i = Some (Called t) → cpu_of w !! t = None → is_Some (rqs w !! c) →
  inv (set_calls (set_cpu w (<[t := c]> (cpu_of w))) (<[i := Chosen t false c]> (calls w))).
Proof.
  intros Hinv Hi Ht Hc. pose proof Hinv as [H1 H2 H3 H4 H5 H6 H7 H8].
  assert (Hcl : ∀ j u d, <[i := Chosen t false c]> (calls w) !! j = Some (Chosen u false d) →
     (j = i ∧ u = t ∧ d = c) ∨ (j ≠ i ∧ u ≠ t ∧ calls w !! j = Some (Chosen u false d))).
  { intros j u d [[<- [= -> ->]]|[Hj Hx]]%lookup_insert_Some; [by left|right]. split; [done|]. split; [|done].
    intros ->. destruct (H3 t d) as [Hd _]; [by exists j|congruence]. }
  assert (Hno : ∀ d, ¬ queued_on w t d) by (intros d Hd%H2; congruence).
  assert (Hne : ∀ u, is_Some (cpu_of w !! u) → u ≠ t) by (intros u [? Hu] ->; congruence).
  split; unfold claims in *; cbn [set_calls set_cpu rqs cpu_of calls wakers has_woken parking parked]; try done.
  - intros u d Hu. rewrite lookup_insert_ne; [by apply H2|]. intros <-. by eapply Hno.
  - intros u d [j [(-> & -> & ->)|(Hj & Hu & Hx)]%Hcl]; [by rewrite lookup_insert_eq|].
    rewrite lookup_insert_ne by done. by apply H3; exists j.
  - intros j j' u d d' [(-> & -> & ->)|(Hj & Hu & Hx)]%Hcl [(-> & Hu' & ->)|(Hj' & Hu' & Hx')]%Hcl; try done. by eapply H4.
  - intros u d [[<- <-]|[Hu Hd]]%lookup_insert_Some; [right; exists i; apply lookup_insert_eq|].
    destruct (H5 u d Hd) as [|[j Hj]]; [by left|right]. exists j. cbn [set_calls calls].
    rewrite lookup_insert_ne; [done|]. intros <-. congruence.
  - intros d u k Hd. destruct (H6 d u k Hd) as ((q & Hq & Hcu) & Hb & Hw). split; [by exists q|]. split; [done|].
    intros Hk. destruct (Hw Hk) as (j & Hj). exists j.
    assert (u ≠ t) by (apply Hne; rewrite (inv_current w d q u); done).
    rewrite lookup_insert_ne; [done|]. intros <-. destruct Hj as [Hj|Hj]; congruence.
  - intros u k Hu Hk. destruct (decide (u = t)) as [->|Hut]; [left; by rewrite lookup_insert_eq|].
    rewrite lookup_insert_ne by done. destruct (H8 u k Hu Hk) as [|(j & Hj)]; [by left|right]. exists j.
    cbn [set_calls calls]. rewrite lookup_insert_ne; [done|]. intros <-. destruct Hj as [Hj|[? Hj]]; congruence.
Qed.

Lemma inv_still w i t c :
  inv w → calls w !! i = Some (Called t) → cpu_of w !! t = Some c →
  inv (set_calls w (<[i := Chosen t true c]> (calls w))).
Proof.
  intros Hinv Hi Ht. pose proof Hinv as [H1 H2 H3 H4 H5 H6 H7 H8].
  assert (Hcl : ∀ j u d, <[i := Chosen t true c]> (calls w) !! j = Some (Chosen u false d) ↔ calls w !! j = Some (Chosen u false d)).
  { intros j u d. rewrite lookup_insert_Some. split; [naive_solver|]. intros Hj. right. split; [|done]. intros <-. congruence. }
  split; unfold claims in *; cbn [set_calls rqs cpu_of calls wakers has_woken parking parked]; try done.
  - intros u d [j Hj%Hcl]. by apply H3; exists j.
  - intros j j' u d d' Hj%Hcl Hj'%Hcl. by eapply H4.
  - intros u d Hu. destruct (H5 u d Hu) as [|[j Hj]]; [by left|right]. exists j. by apply Hcl.
  - intros d u k Hd. destruct (H6 d u k Hd) as ((q & Hq & Hcu) & Hb & Hw). split; [by exists q|]. split; [done|].
    intros Hk. destruct (Hw Hk) as (j & Hj). exists j. destruct (decide (i = j)) as [<-|]; [|by rewrite lookup_insert_ne].
    rewrite lookup_insert_eq. right. assert (u = t) as -> by (destruct Hj; congruence).
    pose proof (inv_current w d q t Hinv Hq Hcu). congruence.
  - intros u k Hu Hk. destruct (H8 u k Hu Hk) as [|(j & Hj)]; [by left|right]. exists j. cbn [set_calls calls].
    destruct (decide (i = j)) as [<-|]; [|by rewrite lookup_insert_ne].
    rewrite lookup_insert_eq. right. exists c. destruct Hj as [|[? ?]]; congruence.
Qed.

(** A call that ends without having claimed the task *)
Lemma inv_in_rq w i t c c' :
  inv w → calls w !! i = Some (Chosen t true c) → parking w !! c = None → cpu_of w !! t = Some c' →
  inv (set_calls w (delete i (calls w))).
Proof.
  intros Hinv Hi Hpk Ht. pose proof Hinv as [H1 H2 H3 H4 H5 H6 H7 H8].
  assert (Hcl : ∀ j u d, delete i (calls w) !! j = Some (Chosen u false d) ↔ calls w !! j = Some (Chosen u false d)).
  { intros j u d. rewrite lookup_delete_Some. split; [naive_solver|]. intros Hj. split; [|done]. intros <-. congruence. }
  split; unfold claims in *; cbn [set_calls rqs cpu_of calls wakers has_woken parking parked]; try done.
  - intros u d [j Hj%Hcl]. by apply H3; exists j.
  - intros j j' u d d' Hj%Hcl Hj'%Hcl. by eapply H4.
  - intros u d Hu. destruct (H5 u d Hu) as [|[j Hj]]; [by left|right]. exists j. by apply Hcl.
  - intros d u k Hd. destruct (H6 d u k Hd) as (Ha & Hb & Hw). do 2 (split; [done|]).
    intros Hk. destruct (Hw Hk) as (j & Hj). exists j. rewrite lookup_delete_ne; [done|]. intros <-.
    destruct Hj as [Hj|Hj]; [congruence|]. assert (c = d) as -> by congruence. congruence.
  - intros u k Hu Hk. destruct (decide (u = t)) as [->|Hut]; [left; by rewrite Ht|].
    destruct (H8 u k Hu Hk) as [|(j & Hj)]; [by left|right]. exists j. cbn [set_calls calls].
    rewrite lookup_delete_ne; [done|]. intros <-. destruct Hj as [|[? ?]]; congruence.
Qed.

Lemma inv_enqueue w i t still c q q' :
  inv w → calls w !! i = Some (Chosen t still c) → locks w c q → (still = true → cpu_of w !! t = None) →
  rq_enqueue q t q' →
  inv (set_calls (set_cpu (set_rq w c q') (<[t := c]> (cpu_of w))) (delete i (calls w))).
Proof.
  intros Hinv Hi [Hq Hpk] Hst He. pose proof Hinv as [H1 H2 H3 H4 H5 H6 H7 H8].
  assert (Hno : ∀ d, ¬ queued_on w t d).
  { destruct still; [|by destruct (H3 t c) as (_ & _ & ?); [exists i|]]. intros d Hd%H2. rewrite Hst in Hd; done. }
  assert (Hcl : ∀ j d, j ≠ i → calls w !! j ≠ Some (Chosen t false d)).
  { intros j d Hj Hx. destruct still; [|by apply Hj; eapply H4].
    destruct (H3 t d) as (Hd & _); [by exists j|]. rewrite Hst in Hd; done. }
  assert (Ht : t ∉ rq_members q) by (intros Hx; apply (Hno c); by exists q).
  destruct (enqueue_members _ _ _ He Ht) as [Hm Hcur].
  assert (Hon : ∀ u d, queued_on (set_rq w c q') u d ↔ (u = t ∧ d = c) ∨ queued_on w u d).
  { intros u d. rewrite (queued_on_insert w _ c q') by done. rewrite Hm, elem_of_cons. split.
    - intros [[-> [->|Hu]]|[Hd Hu]]; [by left|right; by exists q|by right].
    - intros [[-> ->]|(q2 & Hq2 & Hu)]; [left; auto|]. destruct (decide (d = c)) as [->|]; [|right; split; [done|by exists q2]].
      left. simplify_eq. auto. }
  split; unfold claims in *; cbn [set_calls set_cpu set_rq rqs cpu_of calls wakers has_woken parking parked].
  - intros d q2 [[<- <-]|[_ Hd]]%lookup_insert_Some; [|by eapply H1]. rewrite Hm. constructor; [done|by eapply H1].
  - intros u d [[-> ->]|Hu]%Hon; [by rewrite lookup_insert_eq|]. rewrite lookup_insert_ne; [by apply H2|]. intros <-. by eapply Hno.
  - intros u d [j [Hij Hj]%lookup_delete_Some]. assert (u ≠ t) by (intros ->; by eapply Hcl).
    destruct (H3 u d) as (Ha & Hb & Hc); [by exists j|]. rewrite lookup_insert_ne by done. split; [done|]. split.
    + destruct (decide (c = d)) as [<-|]; [by rewrite lookup_insert_eq|by rewrite lookup_insert_ne].
    + intros d' [[-> _]|Hx]%Hon; [done|]. by eapply Hc.
  - intros j j' u d d' [_ Hj]%lookup_delete_Some [_ Hj']%lookup_delete_Some. by eapply H4.
  - intros u d [[<- <-]|[Hu Hd]]%lookup_insert_Some; [left; apply Hon; by left|].
    destruct (H5 u d Hd) as [Hx|[j Hj]]; [left; apply Hon; by right|right]. exists j. cbn [set_calls calls].
    apply lookup_delete_Some. split; [|done]. intros <-. destruct still; congruence.
  - intros d u k Hd. destruct (H6 d u k Hd) as ((q2 & Hq2 & Hcu) & Hb & Hw). assert (c ≠ d) by (intros ->; congruence).
    split; [exists q2; by rewrite lookup_insert_ne|]. split; [done|]. intros Hk. destruct (Hw Hk) as (j & Hj). exists j.
    rewrite lookup_delete_ne; [done|]. intros <-. destruct Hj as [Hj|Hj]; [congruence|].
    assert (c = d) by congruence. done.
  - done.
  - intros u k Hu Hk. destruct (decide (u = t)) as [->|Hut]; [left; by rewrite lookup_insert_eq|].
    rewrite lookup_insert_ne by done. destruct (H8 u k Hu Hk) as [|(j & Hj)]; [by left|right]. exists j. cbn [set_calls calls].
    rewrite lookup_delete_ne; [done|]. intros <-. destruct Hj as [|[? ?]]; congruence.
Qed.

(** Other wakers, flags cleared, and tasks that are no longer parked *)
Lemma inv_set_wakers w wk hw pd :
  inv w → hw ⊆ has_woken w →
  (∀ c t k, parking w !! c = Some (t, k) → wakers w !! k = Some t → wk !! k = Some t) →
  (∀ t k, pd !! t = Some k → parked w !! t = Some k ∧ (wakers w !! k = Some t → wk !! k = Some t)) →
  inv (set_wakers w wk hw pd).
Proof.
  intros [H1 H2 H3 H4 H5 H6 H7 H8] Hhw Hpk Hpd.
  split; unfold claims in *; cbn [set_wakers rqs cpu_of calls wakers has_woken parking parked]; try done.
  - intros c t k Hc. destruct (H6 c t k Hc) as (Ha & Hb & Hd). split; [done|]. split; [by eapply Hpk|]. set_solver.
  - intros t k Ht. destruct (Hpd t k Ht) as [Hx Hy]. auto.
  - intros t k Ht Hk. destruct (Hpd t k Ht) as [Hx _]. by apply (H8 t k Hx), Hhw.
Qed.

(** A task that runs, and not in [park_current], is not the one that parks on a CPU. *)
Lemma inv_not_parking w c q t d k :
  inv w → locks w c q → rq_current q = Some t → parking w !! d ≠ Some (t, k).
Proof.
  intros Hinv [Hq Hpk] Hc Hd. destruct (inv_parking _ Hinv d t k Hd) as ((q2 & Hq2 & Hc2) & _).
  pose proof (inv_current w c q t Hinv Hq Hc). pose proof (inv_current w d q2 t Hinv Hq2 Hc2).
  assert (c = d) as -> by congruence. congruence.
Qed.

Lemma inv_check w c q t k :
  inv w → locks w c q → rq_current q = Some t → wakers w !! k = Some t → k ∉ has_woken w →
  inv (set_parking w (<[c := (t, k)]> (parking w)) (parked w)).
Proof.
  intros [H1 H2 H3 H4 H5 H6 H7 H8] [Hq _] Hc Hk Hw.
  split; unfold claims in *; cbn [set_parking rqs cpu_of calls wakers has_woken parking parked]; try done.
  intros d u k' [[<- [= <- <-]]|[_ Hd]]%lookup_insert_Some; [|by apply H6]. split; [by exists q|]. split; done.
Qed.

(** The current task leaves its run queue and its CPU. *)
Lemma inv_leave w c q t q' pk pd :
  inv w → rqs w !! c = Some q → rq_current q = Some t → rq_members q ≡ₚ t :: rq_members q' →
  (∀ d x, pk !! d = Some x → parking w !! d = Some x ∧ d ≠ c) →
  (∀ u k, u ≠ t → pd !! u = Some k → parked w !! u = Some k) →
  (∀ k, pd !! t = Some k → wakers w !! k = Some t ∧ (k ∈ has_woken w → asks w t)) →
  inv (set_parking (set_cpu (set_rq w c q') (delete t (cpu_of w))) pk pd).
Proof.
  intros Hinv Hq Hc Hm Hpk Hpd Hpt. pose proof Hinv as [H1 H2 H3 H4 H5 H6 H7 H8].
  pose proof (inv_current w c q t Hinv Hq Hc) as Hcpu.
  assert (Hnd : NoDup (t :: rq_members q')) by (rewrite <- Hm; by eapply H1). apply NoDup_cons in Hnd as [Hnt Hnd].
  assert (Hon : ∀ u d, queued_on (set_rq w c q') u d ↔ u ≠ t ∧ queued_on w u d).
  { intros u d. rewrite (queued_on_insert w _ c q') by done. split.
    - intros [[-> Hu]|[Hd Hu]].
      + split; [by intros ->|]. exists q. split; [done|]. rewrite Hm. by right.
      + split; [|done]. intros ->. apply H2 in Hu. congruence.
    - intros [Hu (q2 & Hq2 & Hu2)]. destruct (decide (d = c)) as [->|]; [|right; split; [done|by exists q2]].
      simplify_eq. rewrite Hm in Hu2. apply elem_of_cons in Hu2 as [->|]; [done|by left]. }
  assert (Hnocl : ∀ d, ¬ claims w t d).
  { intros d Hd. destruct (H3 t d Hd) as (_ & _ & Hx). apply (Hx c). exists q. split; [done|]. by apply current_member. }
  split; unfold claims in *; cbn [set_parking set_cpu set_rq rqs cpu_of calls wakers has_woken parking parked].
  - intros d q2 [[<- <-]|[_ Hd]]%lookup_insert_Some; [done|by eapply H1].
  - intros u d [Hu Hx]%Hon. rewrite lookup_delete_ne by done. auto.
  - intros u d Hu. destruct (H3 u d Hu) as (Ha & Hb & Hd). assert (u ≠ t) by (intros ->; by eapply Hnocl).
    rewrite lookup_delete_ne by done. split; [done|]. split.
    + destruct (decide (c = d)) as [<-|]; [by rewrite lookup_insert_eq|by rewrite lookup_insert_ne].
    + intros d' [_ Hx]%Hon. by eapply Hd.
  - done.
  - intros u d [Hu Hd]%lookup_delete_Some. destruct (H5 u d Hd) as [Hx|Hx]; [left; apply Hon; auto|by right].
  - intros d u k [Hd Hne]%Hpk. destruct (H6 d u k Hd) as ((q2 & Hq2 & Hcu) & Hb & Hw).
    split; [exists q2; by rewrite lookup_insert_ne|done].
  - intros u k Hu. destruct (decide (u = t)) as [->|Hut]; [by apply Hpt|]. apply H7, Hpd; done.
  - intros u k Hu Hk. destruct (decide (u = t)) as [->|Hut]; [right; by apply (Hpt k)|].
    rewrite lookup_delete_ne by done. by apply (H8 u k), Hk; apply Hpd.
Qed.

Lemma initial_inv w : initial w → inv w.
Proof.
  intros [He Hw]. rewrite Hw. assert (Hno : ∀ t c, ¬ queued_on w t c).
  { intros t c (q & Hq & Ht). rewrite (empty_members q (He c q Hq)) in Ht. by apply not_elem_of_nil in Ht. }
  split; unfold claims; cbn [rqs cpu_of calls wakers has_woken parking parked]; try (intros; set_solver).
  intros c q Hq. rewrite (empty_members q (He c q Hq)). constructor.
Qed.

Lemma sstep_inv w w' : inv w → sstep w w' → inv w'.
Proof.
  intros Hinv Hs. destruct Hs as [i t Ht Hi|c q t k Hq Hc Hk|i k t Hk Hw Hi|i t c Hi Ht Hc|i t c Hi Ht
    |i t still c q q' Hi Hq Hst He|i t c c' Hi Hpk Ht|c q b q' Hq Hu|c q o q' Hq Hp|c q b q1 q' Hq Hu Hp
    |c q t k Hq Hc Hk Hw|c q t k Hq Hc Hk Hw|c q t k q' Hq Hpk Hl|c q t k Hq Hc Hk|c q t q' Hq Hc Hk Hl].
  - eapply inv_irrelevant, (inv_called w i t (has_woken w)); auto.
  - apply inv_set_wakers; [done|set_solver|..].
    + intros d u k' _ Hk'. rewrite lookup_insert_ne; [done|congruence].
    + intros u k' Hu. split; [done|]. intros Hk'. rewrite lookup_insert_ne; [done|congruence].
  - apply inv_called; [done|done|]. intros u k' Hk' [->%elem_of_singleton|]%elem_of_union; [right; congruence|by left].
  - by apply inv_choose.
  - by apply inv_still.
  - by eapply inv_enqueue.
  - by eapply inv_in_rq.
  - destruct (update_members _ _ _ _ Hu) as [Hm _]. by eapply inv_set_rq.
  - destruct (pick_members _ _ _ Hp) as [Hm _]. by eapply inv_set_rq.
  - destruct (update_members _ _ _ _ Hu) as [Hm _]. destruct b; [|subst q'; by eapply inv_set_rq].
    destruct Hp as [t Hp]. destruct (pick_members _ _ _ Hp) as [Hm' _]. eapply inv_set_rq; [done|by rewrite Hm'|done].
  - apply inv_set_wakers; [done|set_solver|done|]. intros u k' [_ Hu]%lookup_delete_Some. done.
  - by eapply inv_check.
  - destruct (inv_parking _ Hinv c t k Hpk) as ((q2 & Hq2 & Hc) & Hk & Hw). assert (q2 = q) as -> by congruence.
    apply (inv_leave w c q t q'); [done|done|done|by eapply leave_members|..].
    + intros d x [Hd Hx]%lookup_delete_Some. done.
    + intros u k' Hu [[<- _]|[_ Hx]]%lookup_insert_Some; done.
    + intros k' [[_ <-]|[Hx _]]%lookup_insert_Some; [|done]. split; [done|]. intros Hk'. destruct (Hw Hk') as (j & Hj).
      exists j. destruct Hj; [by left|right; by exists c].
  - apply inv_set_wakers; [done|done|..].
    + intros d u k' Hd Hk'. rewrite lookup_delete_ne; [done|]. intros <-. assert (u = t) as -> by congruence.
      by apply (inv_not_parking w c q t d k Hinv Hq Hc).
    + intros u k' [Hu Hx]%lookup_delete_Some. split; [done|]. intros Hk'. rewrite lookup_delete_ne; [done|congruence].
  - destruct Hq as [Hq Hpk].
    apply (inv_irrelevant _ _ _ _ _ _ _ (spawned w) (exited w)),
      (inv_leave w c q t q' (parking w) (delete t (parked w))); [done|done|done|by eapply leave_members|..].
    + intros d x Hx. split; [done|]. intros ->. congruence.
    + intros u k Hu [_ Hx]%lookup_delete_Some. done.
    + intros k [Hx _]%lookup_delete_Some. done.
Qed.

Lemma sched_reachable_inv w0 w : initial w0 → rtc sstep w0 w → inv w.
Proof. intros H0 Hr. apply (rtc_preserves sstep inv w0 w); [by apply initial_inv|apply sstep_inv|done]. Qed.

(** [C7] In every interleaving of spawning, waking, ticks, preemption, yielding, parking and
    exiting over all CPUs, a task is in at most one run queue, and there at most once, so
    it is current on at most one CPU; the CPU recorded in the task is the one whose run
    queue holds it or is about to get it from the one call that has claimed the task. *)
Theorem sched_one_run_queue w0 w :
  initial w0 → rtc sstep w0 w →
  (∀ c q, rqs w !! c = Some q → NoDup (rq_members q)) ∧
  (∀ t c c', queued_on w t c → queued_on w t c' → c = c') ∧
  (∀ t c, cpu_of w !! t = Some c ↔ queued_on w t c ∨ claims w t c) ∧
  (∀ t c, claims w t c → ∀ c', ¬ queued_on w t c').
Proof.
  intros H0 Hr. pose proof (sched_reachable_inv _ _ H0 Hr) as Hinv. split; [apply (inv_nodup _ Hinv)|]. split; [|split].
  - intros t c c' Hc Hc'. apply (inv_cpu _ Hinv) in Hc, Hc'. congruence.
  - intros t c. split; [apply (inv_somewhere _ Hinv)|]. intros [H|H]; [by apply (inv_cpu _ Hinv)|by apply (inv_claim _ Hinv)].
  - intros t c Hc. by apply (inv_claim _ Hinv t c Hc).
Qed.

(** Where a call is about a task *)
Definition call_for (x : Call) (t : Z) : Prop := match x with Called u | Chosen u _ _ => u = t end.

Lemma call_ends w w' i x t :
  inv w → sstep w w' → calls w !! i = Some x → call_for x t → calls w' !! i = None → is_Some (cpu_of w' !! t).
Proof.
  intros Hinv Hs Hi Hx Hi'. destruct Hs as [j u Hu Hj|c q u k Hq Hc Hk|j k u Hk Hw Hj|j u c Hj Hu Hc|j u c Hj Hu
    |j u still c q q' Hj Hq Hst He|j u c c' Hj Hpk Hu|c q b q' Hq Hu|c q o q' Hq Hp|c q b q1 q' Hq Hu Hp
    |c q u k Hq Hc Hk Hw|c q u k Hq Hc Hk Hw|c q u k q' Hq Hpk Hl|c q u k Hq Hc Hk|c q u q' Hq Hc Hk Hl];
    cbn [set_calls set_cpu set_rq set_wakers set_parking calls cpu_of] in Hi' |- *; try congruence.
  all: try (apply lookup_insert_None in Hi' as [? _]; congruence).
  all: apply lookup_delete_None in Hi' as [->|?]; [|congruence]; rewrite Hi in Hj; injection Hj as ->; cbn in Hx; subst u.
  - rewrite lookup_insert_eq. eauto.
  - rewrite Hu. eauto.
Qed.

(** [C8] No wakeup is lost between the flag of a waker and the run queues: whenever a task has
    blocked on a waker that has been woken since, the task is in a run queue, or about to be
    put into one, or a call that will look for it is still under way; and whatever call for
    a task ends, it ends with the task in a run queue or claimed by another call that will
    queue it. This covers the wakeup that comes after [park_current] has looked at the flag
    and before it has left the run queue. *)
Theorem sched_no_lost_wakeup w0 w :
  initial w0 → rtc sstep w0 w →
  (∀ t k, parked w !! t = Some k → k ∈ has_woken w → (∃ c, queued_on w t c ∨ claims w t c) ∨ asks w t) ∧
  (∀ w' i x t, sstep w w' → calls w !! i = Some x → call_for x t → calls w' !! i = None →
     ∃ c, queued_on w' t c ∨ claims w' t c).
Proof.
  intros H0 Hr. pose proof (sched_reachable_inv _ _ H0 Hr) as Hinv. split.
  - intros t k Ht Hk. destruct (inv_woken _ Hinv t k Ht Hk) as [[c Hc]|]; [left|by right].
    exists c. by apply (inv_somewhere _ Hinv).
  - intros w' i x t Hs Hi Hx Hi'. destruct (call_ends w w' i x t Hinv Hs Hi Hx Hi') as [c Hc].
    exists c. by apply (inv_somewhere _ (sstep_inv _ _ Hinv Hs)).
Qed.

End World.

(** ** A task that has exited *)

(** One CPU with the FIFO scheduler *)
Definition one_cpu : World (Q := FifoRunQueue) := mkW {[0%nat := fifo_new]} ∅ ∅ ∅ ∅ ∅ ∅ ∅ ∅.

Lemma one_cpu_initial : initial one_cpu.
Proof. split; [|done]. unfold one_cpu. cbn [rqs]. intros c q [_ <-]%lookup_singleton_Some. done. Qed.

Ltac side :=
  lazymatch goal with
  | |- locks _ _ _ => split; vm_compute; reflexivity
  | |- _ ∉ _ => apply (bool_decide_unpack _); vm_compute; reflexivity
  | |- _ ∈ _ => apply (bool_decide_unpack _); vm_compute; reflexivity
  | |- is_Some _ => vm_compute; eauto
  | |- _ → _ => discriminate
  | |- _ => vm_compute; reflexivity
  end.
Tactic Notation "go" uconstr(c) :=
  eapply rtc_l; [eapply c; side|];
  match goal with |- rtc _ ?w ?v => let w' := eval vm_compute in w in change (rtc sstep w' v) end.



(** Task 1 waits on one CPU, task 2 is claimed by a call. *)
Definition two_tasks : World (Q := FifoRunQueue) :=
  mkW {[0%nat := mkFifo None [1]]} {[1 := 0%nat; 2 := 0%nat]} {[1%nat := Chosen 2 false 0]} ∅ ∅ ∅ ∅ {[1; 2]} ∅.

Lemma two_tasks_reached : rtc sstep one_cpu two_tasks.
Proof.
  go (s_spawn _ 0 1). go (s_choose _ 0 1 0). go (s_enqueue _ 0 1 false 0).
  go (s_spawn _ 1 2). go (s_choose _ 1 2 0).
  match goal with |- rtc _ ?w ?v => let v' := eval vm_compute in v in change (rtc sstep w v') end. apply rtc_refl.
Qed.

Lemma sched_one_run_queue_witness :
  (∀ t c c', queued_on two_tasks t c → queued_on two_tasks t c' → c = c') ∧
  (∀ c', ¬ queued_on two_tasks 2 c').
Proof.
  destruct (sched_one_run_queue one_cpu two_tasks one_cpu_initial two_tasks_reached) as (_ & H1 & _ & H2).
  split; [exact H1|]. apply (H2 2 0%nat). exists 1%nat. vm_compute. reflexivity.
Defined.

(** Task 1 has parked although it was woken after it looked at its flag; the call of its
    waker, which found it still in the run queue, is about to look again. *)
Definition woken_task : World (Q := FifoRunQueue) :=
  mkW {[0%nat := mkFifo None []]} ∅ {[0%nat := Chosen 1 true 0]} {[7%nat := 1]} {[7%nat]} ∅ {[1 := 7%nat]} {[1]} ∅.

Lemma woken_task_reached : rtc sstep one_cpu woken_task.
Proof.
  go (s_spawn _ 0 1). go (s_choose _ 0 1 0). go (s_enqueue _ 0 1 false 0). go (s_pick _ 0).
  go (s_new_pair _ 0 _ 1 7). go (s_check _ 0 _ 1 7). go (s_wake_up _ 0 7 1). go (s_still _ 0 1 0).
  eapply rtc_l.
  { eapply (s_park _ 0 _ 1 7); [side|side|]. exists false. eexists. split; [split; reflexivity|reflexivity]. }
  match goal with |- rtc _ ?w ?v =>
    let w' := eval vm_compute in w in let v' := eval vm_compute in v in change (rtc sstep w' v') end. apply rtc_refl.
Qed.

Lemma sched_no_lost_wakeup_witness :
  parked woken_task !! 1 = Some 7%nat ∧ ((∃ c, queued_on woken_task 1 c ∨ claims woken_task 1 c) ∨ asks woken_task 1).
Proof.
  split; [vm_compute; reflexivity|].
  apply (proj1 (sched_no_lost_wakeup one_cpu woken_task one_cpu_initial woken_task_reached) 1 7%nat); side.
Defined.

(** ** The choice of a CPU *)

Lemma test_candidates_least loads l best :
  let r := foldl (test_candidate loads) best l in
  (r = best ∨ r.1 ∈ l ∧ r.2 = loads r.1) ∧ r.2 ≤ best.2 ∧ ∀ c, c ∈ l → r.2 ≤ loads c.
Proof.
  revert best. induction l as [|x l IH]; intros best; cbn; [split; [by left|]; split; [lia|]; set_solver|].
  destruct (IH (test_candidate loads best x)) as (H1 & H2 & H3). cbn in H1, H2, H3.
  set (r := foldl _ _ l) in *. unfold test_candidate in H1, H2. destruct (Z.ltb_spec (loads x) best.2); cbn in H2.
  - split; [right; destruct H1 as [->|[? ?]]; cbn; set_solver|]. split; [lia|]. intros c [->|Hc]%elem_of_cons; [lia|auto].
  - split; [destruct H1 as [->|[? ?]]; [by left|right; set_solver]|]. split; [lia|]. intros c [->|Hc]%elem_of_cons; [lia|auto].
Qed.

Lemma candidates_affinity last affinity c : c ∈ candidates last affinity ↔ c ∈ affinity.
Proof.
  destruct last as [d|]; [|done]. unfold candidates. rewrite elem_of_app, !list_elem_of_filter.
  destruct (decide (d < c)%nat); naive_solver lia.
Qed.

(** A thread that has not run goes to a CPU of its affinity with the least load; one that
    has run goes to the CPU it ran on, whatever its affinity is by now. *)
Lemma select_cpu_exact a here last affinity loads :
  (∃ c, c ∈ affinity ∧ loads c < 2 ^ 32 - 1) →
  match SchedPolicy.last_cpu a with
  | Some c => (select_cpu a here last affinity loads).1 = c
  | None => let c := (select_cpu a here last affinity loads).1 in
            c ∈ affinity ∧ ∀ d, d ∈ affinity → loads c ≤ loads d
  end.
Proof.
  intros (c & Hc & Hl). unfold select_cpu. destruct (SchedPolicy.last_cpu a) as [d|]; [done|]. cbn.
  destruct (test_candidates_least loads (candidates last affinity) (here, 2 ^ 32 - 1)) as (H1 & _ & H3). cbn in H1, H3.
  set (r := foldl _ _ _) in *. pose proof (H3 c (proj2 (candidates_affinity last affinity c) Hc)) as Hrc.
  destruct H1 as [Hr|[Hr1 Hr2]]; [rewrite Hr in Hrc; cbn in Hrc; lia|]. rewrite candidates_affinity in Hr1.
  split; [done|]. intros d Hd. rewrite <- Hr2. apply H3. by apply candidates_affinity.
Qed.

(** ** The switch of a CPU to a task *)

Module Switch.

(** The task that runs on a CPU ([CURRENT_TASK_PTR]), the one it came from until that is
    released ([PREVIOUS_TASK_PTR]), the one it has claimed and not yet switched to, and the
    tasks whose flag [switched_to_cpu] is set *)
Record procs : Type := mkP {
  cur : gmap nat Z;
  prev : gmap nat Z;
  claimed : gmap nat Z;
  switched_to_cpu : gset Z;
}.

Inductive pstep (p : procs) : procs → Prop :=
(** [before_switching_to] ends its loop; which task is next is the choice of the scheduler *)
| p_claim c t :
    claimed p !! c = None → prev p !! c = None → t ∉ switched_to_cpu p →
    pstep p (mkP (cur p) (prev p) (<[c := t]> (claimed p)) ({[t]} ∪ switched_to_cpu p))
(** [switch_to_task] stores the current and the previous task and switches the context *)
| p_switch c t :
    claimed p !! c = Some t →
    pstep p (mkP (<[c := t]> (cur p)) (match cur p !! c with Some u => <[c := u]> (prev p) | None => prev p end)
               (delete c (claimed p)) (switched_to_cpu p))
(** [after_switching_to] *)
| p_after c u :
    prev p !! c = Some u →
    pstep p (mkP (cur p) (delete c (prev p)) (claimed p) (switched_to_cpu p ∖ {[u]})).

(** A CPU uses the context of a task. *)
Definition uses (p : procs) (c : nat) (t : Z) : Prop :=
  cur p !! c = Some t ∨ prev p !! c = Some t ∨ claimed p !! c = Some t.

Definition start : procs := mkP ∅ ∅ ∅ ∅.

(** Every use is covered by the flag, no two uses are of the same task, and a CPU that has
    claimed a task has released the one before. *)
Record safe (p : procs) : Prop := {
  safe_flag : ∀ c t, uses p c t → t ∈ switched_to_cpu p;
  safe_one : ∀ c d t, uses p c t → uses p d t → c = d;
  safe_cur : ∀ c t u, cur p !! c = Some t → prev p !! c = Some u → t ≠ u;
  safe_claimed : ∀ c t u, claimed p !! c = Some t → cur p !! c = Some u → t ≠ u;
  safe_prev : ∀ c, is_Some (claimed p !! c) → prev p !! c = None;
}.

Lemma claim_safe p c t :
  safe p → claimed p !! c = None → prev p !! c = None → t ∉ switched_to_cpu p →
  safe (mkP (cur p) (prev p) (<[c := t]> (claimed p)) ({[t]} ∪ switched_to_cpu p)).
Proof.
  intros [H1 H2 H3 H4 H5] Hc Hp Ht. set (p' := mkP _ _ _ _).
  assert (Hu : ∀ d u, uses p' d u → uses p d u ∨ (d = c ∧ u = t)).
  { unfold uses. cbn [p' cur prev claimed]. intros d u [H|[H|H]]; [left; by left|left; right; by left|]. apply lookup_insert_Some in H as [[<- <-]|[_ H]]; [by right|].
    left. right. by right. }
  assert (Hn : ∀ d, ¬ uses p d t) by (intros d Hd; by apply Ht, (H1 d t)).
  split; cbn [p' cur prev claimed switched_to_cpu].
  - intros d u [H|[_ ->]]%Hu; [apply H1 in H|]; set_solver.
  - intros d e u [Hd|[-> ->]]%Hu [He|[-> He]]%Hu; [by eapply H2| | |done].
    + subst u. by destruct (Hn d).
    + by destruct (Hn e).
  - done.
  - intros d u v [[<- <-]|[_ H]]%lookup_insert_Some Hv; [|by eapply H4]. intros ->. apply (Hn c). by left.
  - intros d [u [[<- _]|[_ H]]%lookup_insert_Some]; [done|]. by apply H5.
Qed.

Lemma switch_safe p c t :
  safe p → claimed p !! c = Some t →
  safe (mkP (<[c := t]> (cur p)) (match cur p !! c with Some u => <[c := u]> (prev p) | None => prev p end)
          (delete c (claimed p)) (switched_to_cpu p)).
Proof.
  intros [H1 H2 H3 H4 H5] Hc. set (p' := mkP _ _ _ _). pose proof (H5 c (mk_is_Some _ _ Hc)) as Hp.
  assert (Hpv : ∀ d u, prev p' !! d = Some u → (d = c ∧ cur p !! c = Some u) ∨ (d ≠ c ∧ prev p !! d = Some u)).
  { intros d u H. cbn in H. destruct (cur p !! c) as [v|] eqn:Hv.
    - apply lookup_insert_Some in H as [[<- <-]|[? H]]; [by left|by right].
    - right. split; [|done]. intros ->. congruence. }
  assert (Hu : ∀ d u, uses p' d u → uses p d u).
  { unfold uses. intros d u [H|[H|H]]; cbn [p' cur claimed] in H.
    - apply lookup_insert_Some in H as [[<- <-]|[_ H]]; [right; by right|by left].
    - apply Hpv in H as [[-> H]|[_ H]]; [by left|right; by left].
    - apply lookup_delete_Some in H as [_ H]. right. by right. }
  split; [by intros d u H%Hu; eapply H1|by intros d e u H%Hu H'%Hu; eapply H2|..].
  - intros d u v Hcur [[-> Hv]|[Hne Hv]]%Hpv; cbn [p' cur] in Hcur; apply lookup_insert_Some in Hcur as [[? <-]|[? Hcur]]; try done.
    + by eapply H4.
    + by eapply H3.
  - cbn [p' cur claimed]. intros d u v [Hd Hcl]%lookup_delete_Some Hcur. rewrite lookup_insert_ne in Hcur by done. by eapply H4.
  - cbn [p' prev claimed]. intros d [u [Hd Hcl]%lookup_delete_Some]. destruct (cur p !! c); [rewrite lookup_insert_ne by done|]; apply H5; eauto.
Qed.

Lemma after_safe p c u :
  safe p → prev p !! c = Some u → safe (mkP (cur p) (delete c (prev p)) (claimed p) (switched_to_cpu p ∖ {[u]})).
Proof.
  intros [H1 H2 H3 H4 H5] Hc. set (p' := mkP _ _ _ _).
  assert (Huse : uses p c u) by (right; by left).
  assert (Hu : ∀ d v, uses p' d v → uses p d v ∧ v ≠ u).
  { unfold uses at 1. cbn [p' cur prev claimed]. intros d v Hv. assert (Hv' : uses p d v).
    { destruct Hv as [H|[[_ H]%lookup_delete_Some|H]]; [by left|right; by left|right; by right]. }
    split; [done|]. intros ->. assert (d = c) as -> by (by eapply H2).
    destruct Hv as [H|[[? _]%lookup_delete_Some|H]]; [by destruct (H3 c u u)|done|].
    rewrite (H5 c) in Hc; [done|]. cbn in H. eauto. }
  split; cbn [p' cur prev claimed switched_to_cpu].
  - intros d v [Hv Hne]%Hu. apply H1 in Hv. set_solver.
  - intros d e v [Hd _]%Hu [He _]%Hu. by eapply H2.
  - intros d v x Hv [_ Hx]%lookup_delete_Some. by eapply H3.
  - done.
  - intros d Hd. apply lookup_delete_None. right. by apply H5.
Qed.

End Switch.

(** [C9] Whatever the scheduler decides, the context of a task is used by at most one CPU at a
    time, whether the CPU runs the task, is switching away from it or is about to switch to
    it: what [osxtd/src/task/scheduler/mod.rs] states as its safety invariant. *)
Theorem switch_exclusive p c d t :
  rtc Switch.pstep Switch.start p → Switch.uses p c t → Switch.uses p d t → c = d.
Proof.
  intros Hr. apply (Switch.safe_one p). refine (rtc_preserves _ Switch.safe _ _ _ _ Hr).
  - split; unfold Switch.uses, Switch.start; cbn; intros; set_solver.
  - intros a b Ha [? ? ? ? ?|? ? ?|? ? ?]; [by apply Switch.claim_safe|by apply Switch.switch_safe|by apply Switch.after_safe].
Qed.

Lemma switch_exclusive_witness :
  Switch.uses (Switch.mkP {[0%nat := 5]} ∅ ∅ {[5]}) 0 5 ∧ (∀ d, Switch.uses (Switch.mkP {[0%nat := 5]} ∅ ∅ {[5]}) d 5 → 0%nat = d).
Proof.
  assert (Hr : rtc Switch.pstep Switch.start (Switch.mkP {[0%nat := 5]} ∅ ∅ {[5]})).
  { eapply rtc_l; [apply (Switch.p_claim _ 0 5); [reflexivity|reflexivity|apply not_elem_of_empty]|].
    eapply rtc_l; [apply (Switch.p_switch _ 0 5); reflexivity|]. vm_compute. apply rtc_refl. }
  assert (Hu : Switch.uses (Switch.mkP {[0%nat := 5]} ∅ ∅ {[5]}) 0 5) by (left; reflexivity).
  split; [exact Hu|]. intros d Hd. exact (switch_exclusive _ 0 d 5 Hr Hu Hd).
Defined.

End SchedCpu.
