(* ===== verification/BootPt.v ===== *)
(** * The boot page table

    [osxtd/src/mm/page_table/boot_pt.rs] before the metadata of frames exists: mapping a
    page, with the tables that the early allocator gives for it, and the temporary linear
    mapping of [osxtd/src/mm/frame/meta.rs]. The properties of entries, which mark the
    tables of the firmware, are left out. What is mapped stays mapped. *)

From stdpp Require Import gmap.
From S2P Require Import Prelude Align BootMemory.
Local Open Scope Z_scope.

Module BootPt.
Import Align BootMemory.

(** ** The page table *)

(** A [PageTableEntry]: absent, a table, or a page, huge above level 1 *)
Inductive BootPte : Type := PtAbsent | PtTable (paddr : Z) | PtPage (paddr : Z).

(** [BootPageTable] with the memory of the tables: the entries by the number of the frame
    and the index in it *)
Record BootPageTable : Type := mkBootPt { root_pt : Z; entries : gmap (Z * Z) BootPte }.

Definition NR_LEVELS : nat := 4.
Definition LINEAR_MAPPING_BASE_VADDR : Z := 0xffff800000000000.

Definition pte_index (va level : Z) : Z := Z.land (Z.shiftr va (12 + 9 * (level - 1))) 511.

Definition read_entry (b : BootPageTable) (pt index : Z) : BootPte := default PtAbsent (entries b !! (pt, index)).
Definition write_entry (b : BootPageTable) (pt index : Z) (p : BootPte) : BootPageTable :=
  mkBootPt (root_pt b) (<[(pt, index) := p]> (entries b)).

(** The frame that [alloc_child] gets while there is no metadata, zeroed *)
Definition alloc_child (e : EarlyFrameAllocator) (b : BootPageTable) : outcome (Z * EarlyFrameAllocator * BootPageTable) :=
  early_alloc e PAGE_SIZE PAGE_SIZE ≫= λ '(o, e),
  unwrap o ≫= λ frame_paddr,
  Done (frame_paddr, e, mkBootPt (root_pt b) (filter (λ x, x.1.1 ≠ frame_paddr / PAGE_SIZE) (entries b))).

(** [map_base_page] from the table [pt] of the level [S n] on *)
Fixpoint map_walk (n : nat) (pt from to : Z) (e : EarlyFrameAllocator) (b : BootPageTable)
  : outcome (EarlyFrameAllocator * BootPageTable) :=
  let index := pte_index from (Z.of_nat n + 1) in
  match n with
  | O =>
      match read_entry b pt index with
      | PtAbsent => Done (e, write_entry b pt index (PtPage (to * PAGE_SIZE)))
      | _ => Panic
      end
  | S n =>
      match read_entry b pt index with
      | PtAbsent =>
          alloc_child e b ≫= λ '(paddr, e, b),
          map_walk n (paddr / PAGE_SIZE) from to e (write_entry b pt index (PtTable paddr))
      | PtPage _ => Panic
      | PtTable paddr => map_walk n (paddr / PAGE_SIZE) from to e b
      end
  end.

Definition map_base_page (from to : Z) (e : EarlyFrameAllocator) (b : BootPageTable)
  : outcome (EarlyFrameAllocator * BootPageTable) :=
  map_walk (NR_LEVELS - 1) (root_pt b) from to e b.

(** The loops that map pages: each is at [va + paddr - pa] for its address [paddr]. *)
Fixpoint map_pages (va pa : Z) (l : list Z) (e : EarlyFrameAllocator) (b : BootPageTable)
  : outcome (EarlyFrameAllocator * BootPageTable) :=
  match l with
  | [] => Done (e, b)
  | i :: l =>
      unwrap (checked_add 64 va (i * PAGE_SIZE)) ≫= λ vaddr,
      map_base_page vaddr ((pa + i * PAGE_SIZE) / PAGE_SIZE) e b ≫= λ '(e, b),
      map_pages va pa l e b
  end.

(** [add_temp_linear_mapping] *)
Definition add_temp_linear_mapping (max_paddr : Z) (e : EarlyFrameAllocator) (b : BootPageTable)
  : outcome (EarlyFrameAllocator * BootPageTable) :=
  if max_paddr <=? PADDR4G then Done (e, b)
  else
    align_up 64 max_paddr PAGE_SIZE ≫= λ end_paddr,
    map_pages LINEAR_MAPPING_BASE_VADDR 0
      (seqZ (PADDR4G / PAGE_SIZE) (end_paddr / PAGE_SIZE - PADDR4G / PAGE_SIZE)) e b.

(** ** What is mapped *)

(** The page that the table translates the address to, from the table [pt] of level [S n] on *)
Fixpoint walk (n : nat) (b : BootPageTable) (pt va : Z) : option Z :=
  match read_entry b pt (pte_index va (Z.of_nat n + 1)), n with
  | PtPage paddr, O => Some paddr
  | PtTable paddr, S n => walk n b (paddr / PAGE_SIZE) va
  | _, _ => None
  end.
Definition boot_translate (b : BootPageTable) (va : Z) : option Z := walk (NR_LEVELS - 1) b (root_pt b) va.

(** The early allocator will still give out the frame. *)
Definition free_frame (e : EarlyFrameAllocator) (f : Z) : Prop :=
  under_4g_end e ≤ f * PAGE_SIZE < hi (under_4g_range e) ∨ max_end e ≤ f * PAGE_SIZE < hi (max_range e).

(** The tables lie in no frame that it will give out. *)
Definition tables_kept (e : EarlyFrameAllocator) (b : BootPageTable) : Prop :=
  ∀ f i p, entries b !! (f, i) = Some p → ¬ free_frame e f.

(** The allocator has only given out memory, and the entries that were there are. *)
Record extends (e e' : EarlyFrameAllocator) (b b' : BootPageTable) : Prop := {
  x_under : under_4g_range e' = under_4g_range e ∧ under_4g_end e ≤ under_4g_end e';
  x_max : max_range e' = max_range e ∧ max_end e ≤ max_end e';
  x_root : root_pt b' = root_pt b;
  x_entries : ∀ f i, read_entry b f i ≠ PtAbsent → read_entry b' f i = read_entry b f i
}.

Lemma extends_refl e b : extends e e b b.
Proof. done. Qed.

Lemma extends_trans e e1 e2 b b1 b2 : extends e e1 b b1 → extends e1 e2 b1 b2 → extends e e2 b b2.
Proof.
  intros [[A1 A2] [A3 A4] A5 A6] [[B1 B2] [B3 B4] B5 B6]. split; [split; [congruence | lia] .. | congruence |].
  intros f i Hn. rewrite B6; rewrite A6; done.
Qed.

Lemma walk_extends n e e' b b' pt va pa : extends e e' b b' → walk n b pt va = Some pa → walk n b' pt va = Some pa.
Proof.
  intros [_ _ _ Hx]. revert pt. induction n as [|n IH]; intros pt; cbn [walk]; specialize (Hx pt);
    intros Hw; (rewrite Hx; [| intros E; by rewrite E in Hw]); destruct (read_entry b pt _); try done. by apply IH.
Qed.

Lemma translate_extends e e' b b' va pa : extends e e' b b' → boot_translate b va = Some pa → boot_translate b' va = Some pa.
Proof. intros Hx. unfold boot_translate. rewrite (x_root _ _ _ _ Hx). by apply (walk_extends _ e e'). Qed.

Lemma read_write b pt index p f i : read_entry (write_entry b pt index p) f i =
  if decide ((pt, index) = (f, i)) then p else read_entry b f i.
Proof. unfold read_entry, write_entry. cbn. rewrite lookup_insert. by case_decide. Qed.

Lemma page_layout : layout_ok (PAGE_SIZE, PAGE_SIZE).
Proof. split; [by vm_compute |]. split; [by vm_compute |]. exists 12. split; [lia | done]. Qed.

(** A table that is allocated was free and is empty; the others keep their entries. *)
Lemma alloc_child_ok map e b paddr e' b' : early_ok map e → tables_kept e b → alloc_child e b = Done (paddr, e', b') →
  early_ok map e' ∧ tables_kept e' b' ∧ extends e e' b b' ∧ ¬ free_frame e' (paddr / PAGE_SIZE).
Proof.
  intros He Hk. unfold alloc_child. intros ([o e1] & Ha & (a & Ho & [= <- <- <-])%bind_done)%bind_done.
  destruct o as [a'|]; [| done]. injection Ho as ->.
  destruct (early_alloc_exact map e (PAGE_SIZE, PAGE_SIZE) (Some a) e1 He page_layout Ha) as (He1 & R1 & R2 & _ & [q Hq] & Hpl).
  cbn [fst] in Hpl. change (round_up PAGE_SIZE PAGE_SIZE) with PAGE_SIZE in Hpl.
  assert (a / PAGE_SIZE = q) as Hdiv by (rewrite Hq; by apply Z.div_mul).
  assert (free_frame e q) as Hfree.
  { unfold free_frame. destruct He1 as [(T1 & T2 & _) (T3 & T4 & _) _ _ _]. rewrite R1 in T2. rewrite R2 in T4.
    unfold PAGE_SIZE in *. lia. }
  assert (∀ f, free_frame e1 f → free_frame e f ∧ f ≠ q) as Hless.
  { intros f. unfold free_frame. rewrite R1, R2. destruct He as [(S1 & S2 & _) (S3 & S4 & _) _ _ Hap].
    destruct He1 as [(T1 & T2 & _) (T3 & T4 & _) _ _ _]. rewrite R1 in T1, T2. rewrite R2 in T3, T4. unfold PAGE_SIZE in *.
    intros Hf. split; [lia |]. intros ->. lia. }
  rewrite Hdiv. split_and!; [done | | | intros Hf; by destruct (Hless q Hf)].
  - intros f i p [Hp _]%map_lookup_filter_Some Hf. destruct (Hless f Hf) as [Hf' _]. by apply (Hk f i p).
  - split; [split; [done | unfold PAGE_SIZE in *; lia] .. | done |]. intros f i. unfold read_entry. cbn. destruct (entries b !! (f, i)) as [p|] eqn:Hp; [| done].
    intros _. rewrite (proj2 (map_lookup_filter_Some _ _ _ p)); [done |]. split; [done |]. cbn. intros ->. by apply (Hk q i p).
Qed.

Lemma write_kept e b pt index p : tables_kept e b → ¬ free_frame e pt → tables_kept e (write_entry b pt index p).
Proof.
  intros Hk Hf f i q. unfold write_entry. cbn. rewrite lookup_insert. case_decide as Heq; [| apply Hk].
  injection Heq as -> _. by intros _.
Qed.

Lemma write_extends e b pt index p : read_entry b pt index = PtAbsent → extends e e b (write_entry b pt index p).
Proof.
  intros Ha. split; try done. intros f i Hn. rewrite read_write. case_decide as Heq; [| done]. by injection Heq as <- <-.
Qed.

Lemma extends_free e e' b b' f : extends e e' b b' → ¬ free_frame e f → ¬ free_frame e' f.
Proof. intros [[A1 A2] [A3 A4] _ _]. unfold free_frame. rewrite A1, A3. lia. Qed.

(** A page is mapped where nothing was, and all else stays. *)
Lemma map_walk_ok map n pt from to e b e' b' : early_ok map e → tables_kept e b → ¬ free_frame e pt →
  (∀ f i p, read_entry b f i = PtTable p → ¬ free_frame e (p / PAGE_SIZE)) →
  map_walk n pt from to e b = Done (e', b') →
  early_ok map e' ∧ tables_kept e' b' ∧ (∀ f i p, read_entry b' f i = PtTable p → ¬ free_frame e' (p / PAGE_SIZE)) ∧
  extends e e' b b' ∧ walk n b' pt from = Some (to * PAGE_SIZE).
Proof.
  revert pt e b. induction n as [|n IH]; intros pt e b He Hk Hpt Ht; cbn [map_walk walk];
    destruct (read_entry b pt _) as [|pa|pa] eqn:Hr; try done.
  - intros [= <- <-]. split_and!; [done | by apply write_kept | | by apply write_extends |].
    + intros f i p. rewrite read_write. case_decide; [done | apply Ht].
    + by rewrite read_write, decide_True.
  - intros ([[a e1] b1] & Ha & E)%bind_done.
    destruct (alloc_child_ok map e b a e1 b1) as (He1 & Hk1 & Hx1 & Hf1); try done.
    assert (read_entry b1 pt (pte_index from (Z.of_nat (S n) + 1)) = PtAbsent) as Hr1.
    { unfold alloc_child in Ha. apply bind_done in Ha as ([o e0] & _ & (a0 & _ & [= _ _ <-])%bind_done).
      unfold read_entry in *. cbn. destruct (filter _ _ !! _) as [p|] eqn:Hp; [| done].
      apply map_lookup_filter_Some in Hp as [Hp _]. by rewrite Hp in Hr. }
    pose proof (extends_free _ _ _ _ pt Hx1 Hpt) as Hpt1.
    apply IH in E as (He2 & Hk2 & Ht2 & Hx2 & Hw); [| done | by apply write_kept | done |].
    + split_and!; [done | done | done | |].
      * apply (extends_trans _ e1 _ _ b1); [done |]. apply (extends_trans _ e1 _ _ _ _) with (2 := Hx2). by apply write_extends.
      * destruct Hx2 as [_ _ _ Hx2]. rewrite Hx2; rewrite read_write, decide_True by done; done.
    + intros f i p. rewrite read_write. case_decide; [by intros [= <-] |]. intros Hp. apply (extends_free _ _ _ _ _ Hx1).
      apply (Ht f i p). destruct Hx1 as [_ _ _ Hx1].
      unfold alloc_child in Ha. apply bind_done in Ha as ([o e0] & _ & (a0 & _ & [= _ _ Hb])%bind_done).
      rewrite <- Hb in Hp. unfold read_entry in Hp |- *. cbn in Hp.
      destruct (filter _ _ !! _) as [p'|] eqn:Hp'; [| done]. apply map_lookup_filter_Some in Hp' as [Hp' _]. by rewrite Hp'.
  - intros E. apply IH in E as (He2 & Hk2 & Ht2 & Hx2 & Hw); [| done | done | by apply (Ht pt _ pa Hr) | done].
    split_and!; try done. destruct Hx2 as [_ _ _ Hx2]. rewrite Hx2; by rewrite Hr.
Qed.

(** The frames of the tables are in use. *)
Record tables_ok (e : EarlyFrameAllocator) (b : BootPageTable) : Prop := {
  bo_kept : tables_kept e b;
  bo_root : ¬ free_frame e (root_pt b);
  bo_tables : ∀ f i p, read_entry b f i = PtTable p → ¬ free_frame e (p / PAGE_SIZE)
}.
Definition boot_ok (map : list MemoryRegion) (e : EarlyFrameAllocator) (b : BootPageTable) : Prop :=
  early_ok map e ∧ tables_ok e b.

Lemma map_base_page_ok map from to e b e' b' : boot_ok map e b → map_base_page from to e b = Done (e', b') →
  boot_ok map e' b' ∧ extends e e' b b' ∧ boot_translate b' from = Some (to * PAGE_SIZE).
Proof.
  intros [He [Hk Hr Ht]] E. destruct (map_walk_ok map _ _ _ _ _ _ _ _ He Hk Hr Ht E) as (He' & Hk' & Ht' & Hx & Hw).
  split; [| split; [done |]].
  - split; [done |]. split; try done. rewrite (x_root _ _ _ _ Hx). by apply (extends_free _ _ _ _ _ Hx).
  - unfold boot_translate. by rewrite (x_root _ _ _ _ Hx).
Qed.

Lemma map_pages_ok map va pa l e b e' b' : (PAGE_SIZE | pa) → boot_ok map e b → map_pages va pa l e b = Done (e', b') →
  boot_ok map e' b' ∧ extends e e' b b' ∧ ∀ i, i ∈ l → boot_translate b' (va + i * PAGE_SIZE) = Some (pa + i * PAGE_SIZE).
Proof.
  intros Dpa. revert e b. induction l as [|j l IH]; intros e b Hb; cbn [map_pages].
  { intros [= <- <-]. split; [done |]. split; [apply extends_refl |]. by intros i ?%not_elem_of_nil. }
  intros (va' & Hv & ([e1 b1] & E1 & E)%bind_done)%bind_done.
  assert (va' = va + j * PAGE_SIZE) as ->.
  { unfold checked_add in Hv. destruct (_ <? _); [by injection Hv as <- | done]. }
  destruct (map_base_page_ok map _ _ _ _ _ _ Hb E1) as (Hb1 & Hx1 & Hw1).
  destruct (IH e1 b1 Hb1 E) as (Hb2 & Hx2 & Hall). split; [done |]. split; [by apply (extends_trans _ e1 _ _ b1) |].
  intros i [->|Hi]%elem_of_cons; [| by apply Hall]. apply (translate_extends e1 e' b1); [done |]. rewrite Hw1. f_equal.
  destruct Dpa as [q ->]. rewrite <- Z.mul_add_distr_r, Z.div_mul by done. done.
Qed.

Lemma linear_mapping_ok map mx e b e' b' : boot_ok map e b → add_temp_linear_mapping mx e b = Done (e', b') →
  boot_ok map e' b' ∧ extends e e' b b'.
Proof.
  intros Hb. unfold add_temp_linear_mapping. destruct (_ <=? _).
  { intros [= <- <-]. split; [done | apply extends_refl]. }
  intros (en & _ & E)%bind_done. destruct (map_pages_ok map _ 0 _ _ _ _ _ ltac:(by exists 0) Hb E) as (? & ? & _). done.
Qed.

(** Any other early allocation leaves the tables in use. *)
Lemma early_alloc_tables map e e' l o b : early_ok map e → layout_ok l → early_alloc e l.1 l.2 = Done (o, e') →
  tables_ok e b → tables_ok e' b.
Proof.
  intros He Hl Ha [Hk Hr Ht]. destruct (early_alloc_exact map e l o e' He Hl Ha) as (_ & R1 & R2 & Hpl).
  destruct (round_up_least l.1 PAGE_SIZE ltac:(done)) as (_ & U & _). destruct Hl as ((Hs & _) & _).
  assert (∀ f, free_frame e' f → free_frame e f) as Hless.
  { intros f. unfold free_frame. rewrite R1, R2. cbv zeta in Hpl. destruct o as [a|]; [lia | by destruct Hpl as [-> _]]. }
  split.
  - intros f i p Hp Hf. by apply (Hk f i p), Hless.
  - intros Hf. by apply Hr, Hless.
  - intros f i p Hp Hf. by apply (Ht f i p), Hless.
Qed.
End BootPt.
