(* ===== verification/FrameMeta.v ===== *)
(** * Metadata of frames and segments, and their start at boot

    [osxtd/src/mm/frame/meta.rs], [segment.rs] and the handles of [mod.rs] and [unique.rs],
    as functions of the metadata slots, for code that nothing interferes with; what several
    threads do to one slot is in [FrameRefs]. A slot is kept under its virtual address, and
    the handles of frames are such addresses. The [on_drop] of metadata is not modelled. *)

From S2P Require Import Prelude Align BootMemory BootPt.
Local Open Scope Z_scope.

Module FrameMeta.
Import Align BootMemory BootPt.

(** ** The place of a slot *)

(** On x86-64; [0xffff_fff0_0000_0000 << 9] in 64 bits, and the end of the range *)
Definition FRAME_METADATA_BASE : Z := 0xffffe00000000000.
Definition FRAME_METADATA_CAP : Z := 0xffffe10000000000.
Definition META_SLOT_SIZE : Z := 64.

Definition frame_to_meta (paddr : Z) : Z := FRAME_METADATA_BASE + paddr / PAGE_SIZE * META_SLOT_SIZE.
Definition meta_to_frame (vaddr : Z) : Z := (vaddr - FRAME_METADATA_BASE) / META_SLOT_SIZE * PAGE_SIZE.

(** ** Slots *)

Definition REF_COUNT_UNUSED : Z := 2 ^ 64 - 1.
Definition REF_COUNT_UNIQUE : Z := 2 ^ 64 - 2.
Definition REF_COUNT_MAX : Z := 2 ^ 63 - 1.

Inductive GetFrameError : Type := InUse | Unused | Busy | Unique | OutOfBound | NotAligned.

Section Slots.
Context {M : Type}.

(** [meta] is [storage] with [vtable_ptr]: [None] where they are not initialised *)
Record MetaSlot : Type := mkSlot { ref_count : Z; meta : option M }.

(** The slots, [MAX_PADDR], and the addresses given back to the allocator so far *)
Record Frames : Type := mkFrames { slots : gmap Z MetaSlot; max_paddr : Z; dealloced : list Z }.

Definition set_slot (m : Frames) (ptr : Z) (s : MetaSlot) : Frames :=
  mkFrames (<[ptr := s]> (slots m)) (max_paddr m) (dealloced m).

Definition get_slot (m : Frames) (paddr : Z) : result Z GetFrameError :=
  if negb (paddr mod PAGE_SIZE =? 0) then RErr NotAligned
  else if max_paddr m <=? paddr then RErr OutOfBound
  else ROk (frame_to_meta paddr).

Definition get_from_unused (m : Frames) (paddr : Z) (metadata : M) (as_unique_ptr : bool)
  : outcome (result Z GetFrameError * Frames) :=
  match get_slot m paddr with
  | RErr e => Done (RErr e, m)
  | ROk ptr =>
      unwrap (slots m !! ptr) ≫= λ s,
      if ref_count s =? REF_COUNT_UNUSED
      then Done (ROk ptr, set_slot m ptr (mkSlot (if as_unique_ptr then REF_COUNT_UNIQUE else 1) (Some metadata)))
      else Done (RErr (if ref_count s =? REF_COUNT_UNIQUE then Unique else if ref_count s =? 0 then Busy else InUse), m)
  end.

(** The exchange of the loop succeeds at once when nothing interferes. *)
Definition get_from_in_use (m : Frames) (paddr : Z) : outcome (result Z GetFrameError * Frames) :=
  match get_slot m paddr with
  | RErr e => Done (RErr e, m)
  | ROk ptr =>
      unwrap (slots m !! ptr) ≫= λ s,
      if ref_count s =? REF_COUNT_UNUSED then Done (RErr Unused, m)
      else if ref_count s =? REF_COUNT_UNIQUE then Done (RErr Unique, m)
      else if ref_count s =? 0 then Done (RErr Busy, m)
      else if REF_COUNT_MAX <=? ref_count s then Panic
      else Done (ROk ptr, set_slot m ptr (mkSlot (ref_count s + 1) (meta s)))
  end.

Definition inc_ref_count (m : Frames) (ptr : Z) : outcome Frames :=
  unwrap (slots m !! ptr) ≫= λ s,
  if REF_COUNT_MAX <=? ref_count s then Panic
  else Done (set_slot m ptr (mkSlot (wrapping_add 64 (ref_count s) 1) (meta s))).

Definition inc_frame_ref_count (m : Frames) (paddr : Z) : outcome Frames := inc_ref_count m (frame_to_meta paddr).

(** [drop_last_in_place]; dropping metadata that is not there would be undefined *)
Definition drop_last_in_place (m : Frames) (ptr : Z) : outcome Frames :=
  unwrap (slots m !! ptr) ≫= λ s,
  unwrap (meta s) ≫= λ _,
  Done (set_slot m ptr (mkSlot REF_COUNT_UNUSED None)).

Definition dealloc (m : Frames) (paddr : Z) : Frames :=
  mkFrames (slots m) (max_paddr m) (dealloced m ++ [paddr]).

(** [Frame::drop] *)
Definition frame_drop (m : Frames) (ptr : Z) : outcome Frames :=
  unwrap (slots m !! ptr) ≫= λ s,
  let m := set_slot m ptr (mkSlot (wrapping_sub 64 (ref_count s) 1) (meta s)) in
  if ref_count s =? 1
  then drop_last_in_place m ptr ≫= λ m, Done (dealloc m (meta_to_frame ptr))
  else Done m.

(** [UniqueFrame]: [drop], [reset_as_unused], [repurpose], and the conversions *)
Definition store_count (m : Frames) (ptr n : Z) : outcome Frames :=
  unwrap (slots m !! ptr) ≫= λ s, Done (set_slot m ptr (mkSlot n (meta s))).

Definition reset_as_unused (m : Frames) (ptr : Z) : outcome Frames :=
  store_count m ptr 0 ≫= λ m, drop_last_in_place m ptr.

Definition unique_drop (m : Frames) (ptr : Z) : outcome Frames :=
  store_count m ptr 0 ≫= λ m, drop_last_in_place m ptr ≫= λ m, Done (dealloc m (meta_to_frame ptr)).

Definition repurpose (m : Frames) (ptr : Z) (metadata : M) : outcome Frames :=
  unwrap (slots m !! ptr) ≫= λ s,
  unwrap (meta s) ≫= λ _,
  Done (set_slot m ptr (mkSlot (ref_count s) (Some metadata))).

Definition unique_into_shared (m : Frames) (ptr : Z) : outcome Frames := store_count m ptr 1.

Definition shared_into_unique (m : Frames) (ptr : Z) : outcome (bool * Frames) :=
  unwrap (slots m !! ptr) ≫= λ s,
  if ref_count s =? 1 then Done (true, set_slot m ptr (mkSlot REF_COUNT_UNIQUE (meta s))) else Done (false, m).

(** ** Segments *)

(** A [Segment] is its range. [(a..b).step_by(PAGE_SIZE)] *)
Definition pages (r : Range) : list Z :=
  (λ i, lo r + i * PAGE_SIZE) <$> seqZ 0 ((hi r - lo r + PAGE_SIZE - 1) / PAGE_SIZE).

(** [for paddr in ... { m = f(m, paddr) }] *)
Fixpoint for_pages (f : Frames → Z → outcome Frames) (m : Frames) (l : list Z) : outcome Frames :=
  match l with [] => Done m | p :: l => f m p ≫= λ m, for_pages f m l end.

Definition segment_drop (m : Frames) (seg : Range) : outcome Frames :=
  for_pages (λ m p, frame_drop m (frame_to_meta p)) m (pages seg).

Definition segment_clone (m : Frames) (seg : Range) : outcome (Range * Frames) :=
  for_pages inc_frame_ref_count m (pages seg) ≫= λ m, Done (seg, m).

(** The loop of [from_unused] over the pages that are left; [seg] is the segment so far *)
Fixpoint claim_pages (m : Frames) (metadata_fn : Z → M) (seg : Range) (l : list Z)
  : outcome (result Range GetFrameError * Frames) :=
  match l with
  | [] => Done (ROk seg, m)
  | p :: l =>
      get_from_unused m p (metadata_fn p) false ≫= λ '(r, m),
      match r with
      | RErr e => segment_drop m seg ≫= λ m, Done (RErr e, m)
      | ROk _ => claim_pages m metadata_fn (mkR (lo seg) (p + PAGE_SIZE)) l
      end
  end.

Definition segment_from_unused (m : Frames) (range : Range) (metadata_fn : Z → M)
  : outcome (result Range GetFrameError * Frames) :=
  if negb ((lo range mod PAGE_SIZE =? 0) && (hi range mod PAGE_SIZE =? 0)) then Done (RErr NotAligned, m)
  else if max_paddr m <? hi range then Done (RErr OutOfBound, m)
  else
    assert_that (lo range <? hi range) ≫= λ _,
    claim_pages m metadata_fn (mkR (lo range) (lo range)) (pages range).

Definition segment_size (seg : Range) : Z := hi seg - lo seg.

Definition split (seg : Range) (offset : Z) : outcome (Range * Range) :=
  assert_that (offset mod PAGE_SIZE =? 0) ≫= λ _,
  assert_that ((0 <? offset) && (offset <? segment_size seg)) ≫= λ _,
  let at_ := lo seg + offset in
  Done (mkR (lo seg) at_, mkR at_ (hi seg)).

Definition slice (m : Frames) (seg range : Range) : outcome (Range * Frames) :=
  assert_that ((lo range mod PAGE_SIZE =? 0) && (hi range mod PAGE_SIZE =? 0)) ≫= λ _,
  unwrap (checked_add 64 (lo seg) (lo range)) ≫= λ start,
  unwrap (checked_add 64 (lo seg) (hi range)) ≫= λ end_,
  assert_that ((start <=? end_) && (end_ <=? hi seg)) ≫= λ _,
  for_pages inc_frame_ref_count m (pages (mkR start end_)) ≫= λ m,
  Done (mkR start end_, m).

(** [Iterator::next]: the frame handed out, and the rest *)
Definition segment_next (seg : Range) : option Z * Range :=
  if lo seg <? hi seg then (Some (frame_to_meta (lo seg)), mkR (lo seg + PAGE_SIZE) (hi seg)) else (None, seg).

Definition segment_of_frame (ptr : Z) : Range :=
  let pa := meta_to_frame ptr in mkR pa (pa + PAGE_SIZE).

End Slots.
Arguments MetaSlot : clear implicits.
Arguments Frames : clear implicits.

(** ** Boot *)

(** The metadata types that [init] uses *)
Inductive BootMeta : Type :=
| MetaPageMeta | EarlyAllocatedFrameMeta | UnusableMemoryMeta | ReservedMemoryMeta | KernelMeta.

(** [Layout::from_size_align(size, align).unwrap()] for a multiple of the alignment *)
Definition layout (size align : Z) : outcome (Z * Z) :=
  assert_that (size <? 2 ^ 63) ≫= λ _, Done (size, align).

(** The loop that writes the slots *)
Definition new_slots (tot_nr_frames : Z) : gmap Z (MetaSlot BootMeta) :=
  list_to_map ((λ i, (frame_to_meta 0 + i * META_SLOT_SIZE, mkSlot REF_COUNT_UNUSED None)) <$> seqZ 0 tot_nr_frames).

(** The pages of the slots, and the slots: those of [tot_nr_frames] frames *)
Definition alloc_meta_frames (e : EarlyFrameAllocator) (tot_nr_frames : Z)
  : outcome (Z * Z * gmap Z (MetaSlot BootMeta) * EarlyFrameAllocator) :=
  unwrap (checked_mul 64 tot_nr_frames META_SLOT_SIZE) ≫= λ bytes,
  let nr_meta_pages := (bytes + PAGE_SIZE - 1) / PAGE_SIZE in
  layout (nr_meta_pages * PAGE_SIZE) PAGE_SIZE ≫= λ '(size, align),
  early_alloc e size align ≫= λ '(o, e),
  unwrap o ≫= λ paddr,
  Done (nr_meta_pages, paddr, new_slots tot_nr_frames, e).

(** [let seg = Segment::from_unused(range, |_| typ).unwrap(); ManuallyDrop::new(seg)] *)
Definition mark (m : Frames BootMeta) (x : Range * BootMeta) : outcome (Frames BootMeta) :=
  segment_from_unused m x.1 (λ _, x.2) ≫= λ '(r, m),
  match r with ROk _ => Done m | RErr _ => Panic end.

Fixpoint mark_all (m : Frames BootMeta) (l : list (Range * BootMeta)) : outcome (Frames BootMeta) :=
  match l with [] => Done m | x :: l => mark m x ≫= λ m, mark_all m l end.

Definition region_range (r : MemoryRegion) : Range := mkR (base r) (base r + len r).

Definition region_meta (t : MemoryRegionType) : option BootMeta :=
  match t with
  | BadMemory | NonVolatileSleep | Module_ | Reclaimable => Some UnusableMemoryMeta
  | Unknown | Reserved | Framebuffer => Some ReservedMemoryMeta
  | Kernel => Some KernelMeta
  | Usable => None
  end.

(** [iter.skip_while(|r| r.typ() != Usable)] *)
Fixpoint skip_to_usable (l : list MemoryRegion) : list MemoryRegion :=
  match l with
  | [] => []
  | r :: l' => if bool_decide (typ r = Usable) then l else skip_to_usable l'
  end.

Definition mark_unusable_ranges (map : list MemoryRegion) (m : Frames BootMeta) : outcome (Frames BootMeta) :=
  mark_all m (omap (λ r, (λ t, (region_range r, t)) <$> region_meta (typ r)) (skip_to_usable (reverse map))).

(** [init], with the boot page table *)
Definition init (map : list MemoryRegion) (e : EarlyFrameAllocator) (b : BootPageTable)
  : outcome (Range * Frames BootMeta * EarlyFrameAllocator * BootPageTable) :=
  unwrap (max_list ((λ r, base r + len r) <$> filter (λ r, typ r = Usable) map)) ≫= λ max_paddr,
  add_temp_linear_mapping max_paddr e b ≫= λ '(e, b),
  alloc_meta_frames e (max_paddr / PAGE_SIZE) ≫= λ '(nr_meta_pages, meta_pages, slots, e),
  map_pages (frame_to_meta 0) meta_pages (seqZ 0 nr_meta_pages) e b ≫= λ '(e, b),
  let m := mkFrames slots max_paddr [] in
  let meta_page_range := mkR meta_pages (meta_pages + nr_meta_pages * PAGE_SIZE) in
  let '(range_1, range_2) := allocated_regions e in
  mark_all m ((λ r, (r, EarlyAllocatedFrameMeta)) <$> range_difference range_1 meta_page_range) ≫= λ m,
  mark_all m ((λ r, (r, EarlyAllocatedFrameMeta)) <$> range_difference range_2 meta_page_range) ≫= λ m,
  mark_unusable_ranges map m ≫= λ m,
  segment_from_unused m meta_page_range (λ _, MetaPageMeta) ≫= λ '(r, m),
  match r with ROk seg => Done (seg, m, e, b) | RErr _ => Panic end.

(** ** Addresses and slots *)

Lemma meta_to_frame_to_meta p : (PAGE_SIZE | p) → meta_to_frame (frame_to_meta p) = p.
Proof.
  intros [k ->]. unfold meta_to_frame, frame_to_meta, META_SLOT_SIZE. rewrite Z.div_mul by done.
  replace (FRAME_METADATA_BASE + k * 64 - FRAME_METADATA_BASE) with (k * 64) by lia. by rewrite Z.div_mul.
Qed.

Lemma frame_to_meta_inj p q : (PAGE_SIZE | p) → (PAGE_SIZE | q) → frame_to_meta p = frame_to_meta q → p = q.
Proof. intros Hp Hq H. by rewrite <- (meta_to_frame_to_meta p Hp), <- (meta_to_frame_to_meta q Hq), H. Qed.

(** The range of the metadata has room for 2^46 bytes of memory. *)
Lemma frame_to_meta_range p :
  0 ≤ p < 2 ^ 46 → FRAME_METADATA_BASE ≤ frame_to_meta p ∧ frame_to_meta p + META_SLOT_SIZE ≤ FRAME_METADATA_CAP.
Proof.
  intros Hp. unfold frame_to_meta, FRAME_METADATA_BASE, FRAME_METADATA_CAP, META_SLOT_SIZE, PAGE_SIZE.
  pose proof (Z.div_pos p 4096). assert (p / 4096 < 2 ^ 34) by (apply Z.div_lt_upper_bound; lia). lia.
Qed.

Lemma frame_page_mod p : (p mod PAGE_SIZE =? 0) = true ↔ (PAGE_SIZE | p).
Proof. rewrite Z.eqb_eq. by apply Z.mod_divide. Qed.

Lemma pages_nil r : hi r ≤ lo r → pages r = [].
Proof.
  intros H. unfold pages. rewrite seqZ_nil; [done|].
  assert ((hi r - lo r + PAGE_SIZE - 1) / PAGE_SIZE < 1); [|lia]. apply Z.div_lt_upper_bound; unfold PAGE_SIZE; lia.
Qed.

Lemma pages_cons r : lo r < hi r → pages r = lo r :: pages (mkR (lo r + PAGE_SIZE) (hi r)).
Proof.
  intros H. unfold pages. cbn [lo hi].
  replace (hi r - lo r + PAGE_SIZE - 1) with (hi r - (lo r + PAGE_SIZE) + PAGE_SIZE - 1 + 1 * PAGE_SIZE) by lia.
  rewrite Z.div_add by done. set (n := _ / PAGE_SIZE).
  assert (0 ≤ n) by (apply Z.div_pos; unfold PAGE_SIZE; lia).
  rewrite seqZ_cons by lia. rewrite fmap_cons. f_equal; [lia|]. replace (Z.pred (n + 1)) with n by lia.
  change (Z.succ 0) with (1 + 0). rewrite <- (fmap_add_seqZ 1 0 n), <- list_fmap_compose.
  apply list_fmap_ext. intros i x _. cbn. lia.
Qed.

(** Induction over the pages of a range *)
Lemma pages_ind (P : Range → Prop) :
  (∀ r, paged_range r → hi r ≤ lo r → P r) →
  (∀ r, paged_range r → lo r + PAGE_SIZE ≤ hi r → P (mkR (lo r + PAGE_SIZE) (hi r)) → P r) →
  ∀ r, paged_range r → P r.
Proof.
  intros H0 H1 r. remember (Z.to_nat (hi r - lo r)) as n eqn:E. revert r E.
  induction (lt_wf n) as [n _ IH]. intros r E [[a Ha] [b Hb]].
  destruct (Z.le_gt_cases (hi r) (lo r)); [apply H0; [split; by eexists|done]|].
  assert (lo r + PAGE_SIZE ≤ hi r) by (unfold PAGE_SIZE in *; lia).
  apply H1; [split; by eexists|done|]. eapply IH; [|done|].
  - subst n. cbn [lo hi]. unfold PAGE_SIZE in *. lia.
  - split; [exists (a + 1); cbn; lia|by exists b].
Qed.

Lemma elem_of_pages r p : paged_range r → p ∈ pages r ↔ (PAGE_SIZE | p) ∧ lo r ≤ p < hi r.
Proof.
  revert r. apply (pages_ind (λ r, p ∈ pages r ↔ (PAGE_SIZE | p) ∧ lo r ≤ p < hi r)).
  - intros r Hr H. rewrite pages_nil by done. split; [set_solver|lia].
  - intros r [Hl Hh] H IH. rewrite pages_cons, elem_of_cons, IH by (unfold PAGE_SIZE in *; lia). cbn [lo hi]. split.
    + intros [->|H']; [split; [done|unfold PAGE_SIZE in *; lia]|unfold PAGE_SIZE in *; intuition lia].
    + intros [Hp H']. destruct (decide (p = lo r)) as [|Hne]; [by left|right]. split; [done|split; [|lia]].
      destruct Hp as [x ->], Hl as [y Hy]. unfold PAGE_SIZE in *. lia.
Qed.

(** ** Loops over the pages of a segment *)

Section Loops.
Context {M : Type}.
Implicit Types (m : Frames M) (s : MetaSlot M).

Definition slot m (p : Z) : option (MetaSlot M) := slots m !! frame_to_meta p.

(** A slot that belongs to no page of [r] *)
Definition off (r : Range) (ptr : Z) : Prop := ∀ p, p ∈ pages r → frame_to_meta p ≠ ptr.

Definition unused m (p : Z) : Prop := ∃ s, slot m p = Some s ∧ ref_count s = REF_COUNT_UNUSED.

Lemma off_cons r ptr : lo r < hi r → off r ptr ↔ frame_to_meta (lo r) ≠ ptr ∧ off (mkR (lo r + PAGE_SIZE) (hi r)) ptr.
Proof. intros H. unfold off. rewrite pages_cons by done. set_solver. Qed.

Lemma off_other r p : paged_range r → (PAGE_SIZE | p) → ¬ lo r ≤ p < hi r → off r (frame_to_meta p).
Proof.
  intros Hr Hp Hn q [Hq H]%elem_of_pages Heq; [|done]. apply frame_to_meta_inj in Heq as ->; [|done..]. done.
Qed.

Lemma slot_insert_ne (sl : gmap Z (MetaSlot M)) mp d p q s :
  (PAGE_SIZE | p) → (PAGE_SIZE | q) → p ≠ q → slot (mkFrames (<[frame_to_meta p := s]> sl) mp d) q = sl !! frame_to_meta q.
Proof. intros Hp Hq Hne. unfold slot. cbn. rewrite lookup_insert_ne; [done|]. intros H. by apply Hne, frame_to_meta_inj. Qed.

(** A loop whose body changes the slot of its page by [g] and gives back [d] *)
Lemma for_pages_exact f (ok : MetaSlot M → Prop) g (d : MetaSlot M → Z → list Z) :
  (∀ m p s, slot m p = Some s → ok s → (PAGE_SIZE | p) →
     f m p = Done (mkFrames (<[frame_to_meta p := g s]> (slots m)) (max_paddr m) (dealloced m ++ d s p))) →
  ∀ r, paged_range r → ∀ m, (∀ p, p ∈ pages r → ∃ s, slot m p = Some s ∧ ok s) →
  ∃ m', for_pages f m (pages r) = Done m' ∧ max_paddr m' = max_paddr m ∧
    (∀ p s, p ∈ pages r → slot m p = Some s → slot m' p = Some (g s)) ∧
    (∀ ptr, off r ptr → slots m' !! ptr = slots m !! ptr) ∧
    dealloced m' = dealloced m ++ (pages r ≫= λ p, match slot m p with Some s => d s p | None => [] end).
Proof.
  intros Hf. refine (pages_ind _ _ _).
  - intros r _ Hr m _. rewrite pages_nil by done. exists m. cbn. rewrite app_nil_r. split_and!; [done..|set_solver|done|done].
  - intros r [Hl Hh] Hr IH m Hall. assert (Hlt : lo r < hi r) by (unfold PAGE_SIZE in *; lia).
    rewrite pages_cons in Hall |- * by done. destruct (Hall (lo r)) as (s & Hs & Hok); [set_solver|].
    set (r' := mkR _ _) in *. assert (Hr' : paged_range r').
    { split; [|done]. by apply Z.divide_add_r. }
    cbn [for_pages]. rewrite (Hf m (lo r) s Hs Hok Hl). cbn [mbind outcome_bind].
    set (m1 := mkFrames _ _ _). assert (Hsame : ∀ p, p ∈ pages r' → slot m1 p = slot m p).
    { intros p [Hp Hb]%elem_of_pages; [|done]. apply slot_insert_ne; [done|done|]. cbn in Hb. unfold PAGE_SIZE in *. lia. }
    destruct (IH m1) as (m' & HE & Hmax & Hin & Hoff & Hd).
    { intros p Hp. rewrite Hsame by done. apply Hall. set_solver. }
    exists m'. split; [done|]. split; [done|]. split; [|split].
    + intros p s' [->|Hp]%elem_of_cons Hs'; [|rewrite <- Hsame in Hs' by done; by apply Hin].
      rewrite Hs in Hs'. injection Hs' as <-. unfold slot. rewrite Hoff.
      * cbn. by rewrite lookup_insert_eq.
      * apply off_other; [done|done|]. cbn. unfold PAGE_SIZE. lia.
    + intros ptr [Hne Ho]%off_cons; [|done]. rewrite Hoff by done. cbn. by rewrite lookup_insert_ne.
    + rewrite Hd. cbn [dealloced m1]. rewrite bind_cons, Hs, <- app_assoc. f_equal. f_equal.
      apply Forall_bind_ext, Forall_forall. intros p Hp. by rewrite Hsame.
Qed.

(** *** Dropping and cloning a segment *)

Definition used s : Prop := 1 ≤ ref_count s < REF_COUNT_MAX ∧ is_Some (meta s).

Definition drop_slot s : MetaSlot M :=
  if ref_count s =? 1 then mkSlot REF_COUNT_UNUSED None else mkSlot (ref_count s - 1) (meta s).
Definition inc_slot s : MetaSlot M := mkSlot (ref_count s + 1) (meta s).

Lemma frame_drop_eq m p s : slot m p = Some s → used s → (PAGE_SIZE | p) →
  frame_drop m (frame_to_meta p) = Done (mkFrames (<[frame_to_meta p := drop_slot s]> (slots m)) (max_paddr m)
    (dealloced m ++ (if ref_count s =? 1 then [p] else []))).
Proof.
  intros Hs [Hr [x Hx]] Hp. unfold frame_drop. unfold slot in Hs. rewrite Hs. cbn [unwrap mbind outcome_bind].
  unfold drop_slot. destruct (ref_count s =? 1).
  - unfold drop_last_in_place, set_slot, dealloc. cbn. rewrite lookup_insert_eq. cbn. rewrite Hx. cbn.
    by rewrite insert_insert_eq, meta_to_frame_to_meta.
  - rewrite app_nil_r. unfold set_slot, wrapping_sub. rewrite Z.mod_small; [done|]. unfold REF_COUNT_MAX in Hr. lia.
Qed.

Lemma inc_eq m p s : slot m p = Some s → used s → (PAGE_SIZE | p) →
  inc_frame_ref_count m p = Done (mkFrames (<[frame_to_meta p := inc_slot s]> (slots m)) (max_paddr m) (dealloced m ++ [])).
Proof.
  intros Hs [Hr _] _. unfold inc_frame_ref_count, inc_ref_count. unfold slot in Hs. rewrite Hs. cbn [unwrap mbind outcome_bind].
  destruct (Z.leb_spec REF_COUNT_MAX (ref_count s)); [lia|]. unfold set_slot, wrapping_add, inc_slot.
  rewrite Z.mod_small, app_nil_r; [done|]. unfold REF_COUNT_MAX in Hr. lia.
Qed.

(** What is given back when a segment is dropped *)
Definition given_back m (r : Range) : list Z :=
  pages r ≫= λ p, match slot m p with Some s => if ref_count s =? 1 then [p] else [] | None => [] end.

Lemma segment_drop_eq r : paged_range r → ∀ m, (∀ p, p ∈ pages r → ∃ s, slot m p = Some s ∧ used s) →
  ∃ m', segment_drop m r = Done m' ∧ max_paddr m' = max_paddr m ∧
    (∀ p s, p ∈ pages r → slot m p = Some s → slot m' p = Some (drop_slot s)) ∧
    (∀ ptr, off r ptr → slots m' !! ptr = slots m !! ptr) ∧ dealloced m' = dealloced m ++ given_back m r.
Proof. apply (for_pages_exact _ used drop_slot (λ s p, if ref_count s =? 1 then [p] else [])). apply frame_drop_eq. Qed.

Lemma inc_pages_eq r : paged_range r → ∀ m, (∀ p, p ∈ pages r → ∃ s, slot m p = Some s ∧ used s) →
  ∃ m', for_pages inc_frame_ref_count m (pages r) = Done m' ∧ max_paddr m' = max_paddr m ∧
    (∀ p s, p ∈ pages r → slot m p = Some s → slot m' p = Some (inc_slot s)) ∧
    (∀ ptr, off r ptr → slots m' !! ptr = slots m !! ptr) ∧ dealloced m' = dealloced m.
Proof.
  intros Hr m Hall. destruct (for_pages_exact _ used inc_slot (λ _ _, []) inc_eq r Hr m Hall) as (m' & H1 & H2 & H3 & H4 & H5).
  exists m'. split_and!; [done..|]. rewrite H5. rewrite <- (app_nil_r (dealloced m)) at 2. f_equal.
  generalize (pages r). intros l. induction l as [|p l IH]; [done|]. rewrite bind_cons, IH. by destruct (slot m p).
Qed.

(** *** Claiming the pages of a segment *)

Definition why s : GetFrameError :=
  if ref_count s =? REF_COUNT_UNIQUE then Unique else if ref_count s =? 0 then Busy else InUse.

(** [m'] is [m] with the pages of [r] claimed *)
Definition claimed m m' (r : Range) (fn : Z → M) : Prop :=
  max_paddr m' = max_paddr m ∧ dealloced m' = dealloced m ∧
  (∀ p, p ∈ pages r → slot m' p = Some (mkSlot 1 (Some (fn p)))) ∧
  (∀ ptr, off r ptr → slots m' !! ptr = slots m !! ptr).

Lemma claimed_nil m r fn : hi r ≤ lo r → claimed m m r fn.
Proof. intros H. split_and!; [done..| |done]. rewrite pages_nil by done. set_solver. Qed.

Lemma claimed_cons m m' r fn s :
  paged_range r → lo r + PAGE_SIZE ≤ hi r →
  claimed (set_slot m (frame_to_meta (lo r)) (mkSlot 1 (Some (fn (lo r))))) m' (mkR (lo r + PAGE_SIZE) (hi r)) fn →
  slot m (lo r) = Some s → claimed m m' r fn.
Proof.
  intros Hr H (H1 & H2 & H3 & H4) Hs. assert (Hlt : lo r < hi r) by (unfold PAGE_SIZE in *; lia).
  assert (Hr' : paged_range (mkR (lo r + PAGE_SIZE) (hi r))) by (destruct Hr; split; [by apply Z.divide_add_r|done]).
  split_and!; [done|done| |].
  - rewrite pages_cons by done. intros p [->|Hp]%elem_of_cons; [|by apply H3]. unfold slot. rewrite H4.
    + cbn. by rewrite lookup_insert_eq.
    + apply off_other; [done|apply Hr|]. cbn. unfold PAGE_SIZE. lia.
  - intros ptr [Hne Ho]%off_cons; [|done]. rewrite H4 by done. cbn. by rewrite lookup_insert_ne.
Qed.

Lemma get_from_unused_eq m p x s :
  (PAGE_SIZE | p) → p < max_paddr m → slot m p = Some s →
  get_from_unused m p x false =
  if ref_count s =? REF_COUNT_UNUSED then Done (ROk (frame_to_meta p), set_slot m (frame_to_meta p) (mkSlot 1 (Some x)))
  else Done (RErr (why s), m).
Proof.
  intros Hp Hm Hs. unfold get_from_unused, get_slot. apply frame_page_mod in Hp. rewrite Hp. cbn [negb].
  destruct (Z.leb_spec (max_paddr m) p); [lia|]. unfold slot in Hs. by rewrite Hs.
Qed.

Definition rest_of (r : Range) : Range := mkR (lo r + PAGE_SIZE) (hi r).

Lemma rest_paged r : paged_range r → paged_range (rest_of r).
Proof. intros [H1 H2]. split; [by apply Z.divide_add_r|done]. Qed.

(** The slots of the rest of a range when its first page is claimed *)
Lemma claim_first m r x p :
  paged_range r → p ∈ pages (rest_of r) → (PAGE_SIZE | p) ∧ lo r < p < hi r ∧
  slot (set_slot m (frame_to_meta (lo r)) x) p = slot m p.
Proof.
  intros Hr [Hp Hb]%elem_of_pages; [|by apply rest_paged]. cbn [rest_of lo hi] in Hb.
  assert (lo r < p) by (unfold PAGE_SIZE in Hb; lia). split; [done|]. split; [lia|].
  unfold set_slot. rewrite slot_insert_ne; [done|apply Hr|done|lia].
Qed.

(** The loop of [from_unused] claims every page, or stops at the first that is not unused
    and drops those before. *)
Lemma claim_pages_exact fn r : paged_range r → ∀ m seg,
  lo r ≤ hi r ≤ max_paddr m → hi seg = lo r → (∀ p, p ∈ pages r → is_Some (slot m p)) →
  (∃ m', claim_pages m fn seg (pages r) = Done (ROk (mkR (lo seg) (hi r)), m') ∧
     (∀ p, p ∈ pages r → unused m p) ∧ claimed m m' r fn) ∨
  (∃ q s m1, q ∈ pages r ∧ slot m q = Some s ∧ ref_count s ≠ REF_COUNT_UNUSED ∧
     (∀ p, p ∈ pages (mkR (lo r) q) → unused m p) ∧ claimed m m1 (mkR (lo r) q) fn ∧
     claim_pages m fn seg (pages r) = (segment_drop m1 (mkR (lo seg) q) ≫= λ m, Done (RErr (why s), m))).
Proof.
  revert r. refine (pages_ind _ _ _).
  - intros r Hr Hle m [ls hs] Hb Hseg Hall. left. exists m. rewrite pages_nil by done. cbn in *.
    split; [by replace (hi r) with hs by lia|]. split; [set_solver|]. by apply claimed_nil.
  - intros r Hr Hle IH m seg Hb Hseg Hall. assert (Hlt : lo r < hi r) by (unfold PAGE_SIZE in *; lia).
    rewrite pages_cons in Hall |- * by done. fold (rest_of r) in *. destruct (Hall (lo r)) as [s Hs]; [set_solver|].
    cbn [claim_pages]. rewrite (get_from_unused_eq m (lo r) _ s) by (done || lia || apply Hr).
    destruct (Z.eqb_spec (ref_count s) REF_COUNT_UNUSED) as [Hu|Hu]; cbn [mbind outcome_bind].
    2: { right. exists (lo r), s, m. split; [set_solver|]. split_and!; [done..| | |].
         - rewrite pages_nil by done. set_solver.
         - by apply claimed_nil.
         - do 2 f_equal. destruct seg. cbn in *. by subst. }
    set (m1 := set_slot _ _ _). set (seg1 := mkR (lo seg) (lo r + PAGE_SIZE)).
    destruct (IH m1 seg1) as [(m' & HE & Hun & Hcl)|(q & s' & m' & Hq & Hs' & Hne & Hun & Hcl & HE)].
    { cbn. lia. }
    { done. }
    { intros p Hp. destruct (claim_first m r (mkSlot 1 (Some (fn (lo r)))) p Hr Hp) as (_ & _ & He).
      unfold m1. rewrite He. apply Hall. set_solver. }
    + left. exists m'. split; [done|]. split; [|by eapply claimed_cons].
      intros p [->|Hp]%elem_of_cons; [by exists s|]. destruct (claim_first m r (mkSlot 1 (Some (fn (lo r)))) p Hr Hp) as (_ & _ & He).
      destruct (Hun p Hp) as (y & Hy & ?). exists y. split; [|done]. by rewrite <- He.
    + right. destruct (claim_first m r (mkSlot 1 (Some (fn (lo r)))) q Hr Hq) as (Hqp & Hqb & He).
      assert (Hrq : paged_range (mkR (lo r) q)) by (split; [apply Hr|done]). cbn [rest_of lo hi] in Hun, Hcl.
      assert (Hrest : ∀ p, p ∈ pages (mkR (lo r + PAGE_SIZE) q) → p ∈ pages (rest_of r)).
      { intros p. pose proof (rest_paged _ Hr). rewrite !elem_of_pages; [cbn; intuition lia|done|].
        split; [by apply Z.divide_add_r; [apply Hr|]|done]. }
      exists q, s', m'. split; [set_solver|]. split; [by rewrite <- He|]. split; [done|]. split; [|split; [|done]].
      * rewrite pages_cons by (cbn; lia). cbn [lo hi]. intros p [->|Hp]%elem_of_cons; [by exists s|].
        destruct (claim_first m r (mkSlot 1 (Some (fn (lo r)))) p Hr (Hrest p Hp)) as (_ & _ & Hep).
        destruct (Hun p Hp) as (y & Hy & ?). exists y. split; [|done]. by rewrite <- Hep.
      * eapply (claimed_cons m m' (mkR (lo r) q)); [done| |done|done]. cbn.
        destruct Hqp as [x ->], Hr as [[y Hy] _]. unfold PAGE_SIZE in *. lia.
Qed.

Lemma on_or_off r ptr : (∃ p, p ∈ pages r ∧ ptr = frame_to_meta p) ∨ off r ptr.
Proof.
  destruct (decide (ptr ∈ frame_to_meta <$> pages r)) as [H|H]; [left|right].
  - apply list_elem_of_fmap in H as (p & -> & Hp). eauto.
  - intros p Hp <-. by apply H, list_elem_of_fmap_2.
Qed.

(** Dropping the pages just claimed gives [m] back, apart from what the allocator gets. *)
Lemma drop_claimed m m1 r fn :
  paged_range r → claimed m m1 r fn →
  (∀ p, p ∈ pages r → slot m p = Some (mkSlot REF_COUNT_UNUSED None)) →
  segment_drop m1 r = Done (mkFrames (slots m) (max_paddr m) (dealloced m ++ pages r)).
Proof.
  intros Hr (H1 & H2 & H3 & H4) Hm. destruct (segment_drop_eq r Hr m1) as (m' & HE & K1 & K2 & K3 & K4).
  { intros p Hp. rewrite H3 by done. eexists. split; [done|]. split; [by vm_compute|by eexists]. }
  rewrite HE. f_equal. destruct m' as [sl mp dl]. cbn in K1, K3, K4. f_equal; [|congruence|].
  - apply map_eq. intros ptr. destruct (on_or_off r ptr) as [(p & Hp & ->)|Ho].
    + specialize (K2 p _ Hp (H3 p Hp)). unfold slot in K2, Hm. cbn in K2. by rewrite K2, Hm.
    + by rewrite K3, H4.
  - rewrite K4, H2. f_equal. unfold given_back. rewrite (Forall_bind_ext _ (λ p, [p])).
    + generalize (pages r). intros l. induction l as [|x l IH]; [done|]. by rewrite bind_cons, IH.
    + apply Forall_forall. intros p Hp. by rewrite H3.
Qed.

(** Slots that are not in use hold no metadata. *)
Definition tidy m : Prop := ∀ ptr s, slots m !! ptr = Some s → ref_count s = REF_COUNT_UNUSED → meta s = None.

(** [Segment::from_unused] on an aligned range below [MAX_PADDR] takes all of its frames or
    none: with every frame unused it returns the segment, each frame with one reference and
    the metadata made for it, and nothing else changed; otherwise it returns why the first
    frame that is not unused could not be had, every slot is as before, and the frames
    before that one, which had been claimed, have gone to the allocator in order. *)
Lemma segment_from_unused_exact m r fn :
  tidy m → paged_range r → lo r < hi r ≤ max_paddr m → (∀ p, p ∈ pages r → is_Some (slot m p)) →
  (∃ m', segment_from_unused m r fn = Done (ROk r, m') ∧
     (∀ p, p ∈ pages r → unused m p) ∧ claimed m m' r fn) ∨
  (∃ q s, q ∈ pages r ∧ slot m q = Some s ∧ ref_count s ≠ REF_COUNT_UNUSED ∧
     (∀ p, p ∈ pages (mkR (lo r) q) → unused m p) ∧
     segment_from_unused m r fn =
     Done (RErr (why s), mkFrames (slots m) (max_paddr m) (dealloced m ++ pages (mkR (lo r) q)))).
Proof.
  intros Ht Hr Hb Hall. unfold segment_from_unused. destruct Hr as [Hl Hh].
  rewrite (proj2 (frame_page_mod (lo r)) Hl), (proj2 (frame_page_mod (hi r)) Hh). cbn [andb negb].
  destruct (Z.ltb_spec (max_paddr m) (hi r)); [lia|]. destruct (Z.ltb_spec (lo r) (hi r)); [|lia].
  cbn [assert_that mbind outcome_bind].
  destruct (claim_pages_exact fn r (conj Hl Hh) m (mkR (lo r) (lo r))) as
    [(m' & HE & Hun & Hcl)|(q & s & m1 & Hq & Hs & Hne & Hun & Hcl & HE)]; [lia|done|done|left|right].
  - exists m'. rewrite HE. cbn. by destruct r.
  - exists q, s. split_and!; [done..|]. rewrite HE. cbn [lo].
    assert (Hrq : paged_range (mkR (lo r) q)) by (apply elem_of_pages in Hq as [? _]; done).
    rewrite (drop_claimed m m1 (mkR (lo r) q) fn Hrq Hcl); [done|].
    intros p Hp. destruct (Hun p Hp) as ([rc x] & Hx & Hrc). cbn in Hrc. subst rc.
    pose proof (Ht _ _ Hx eq_refl) as Hn. cbn in Hn. by subst x.
Qed.

(** *** Further handles to the frames of a segment *)

Lemma pages_app a b c : a ≤ b ≤ c → (PAGE_SIZE | a) → (PAGE_SIZE | b) → (PAGE_SIZE | c) →
  pages (mkR a c) = pages (mkR a b) ++ pages (mkR b c).
Proof.
  intros Hb Ha Hbd Hc. assert (Hr : paged_range (mkR a b)) by done. revert Hb Ha Hr.
  remember (mkR a b) as r eqn:E. intros Hb Ha Hr. revert a E Hb Ha. revert r Hr. refine (pages_ind _ _ _).
  - intros r _ Hle a -> Hb Ha. cbn in Hle. rewrite (pages_nil (mkR a b)) by done. by replace a with b by lia.
  - intros r _ Hle IH a -> Hb Ha. cbn in Hle, IH. rewrite (pages_cons (mkR a b)), (pages_cons (mkR a c)) by (cbn; unfold PAGE_SIZE in *; lia).
    cbn [lo hi app]. f_equal. apply (IH (a + PAGE_SIZE)); [done|unfold PAGE_SIZE in *; lia|by apply Z.divide_add_r].
Qed.

Lemma for_pages_app f m l1 l2 : for_pages f m (l1 ++ l2) = (for_pages (M:=M) f m l1 ≫= λ m, for_pages f m l2).
Proof. revert m. induction l1 as [|x l1 IH]; intros m; [done|]. cbn. destruct (f m x); [apply IH|done]. Qed.

Lemma drop_inc_slot s : used s → drop_slot (inc_slot s) = s.
Proof.
  intros [Hr _]. unfold drop_slot, inc_slot. cbn. destruct (Z.eqb_spec (ref_count s + 1) 1); [lia|].
  destruct s. cbn. f_equal. lia.
Qed.

(** The frames of [seg] are in use and have room for one more reference. *)
Definition in_use m (seg : Range) : Prop :=
  paged_range seg ∧ ∀ p, p ∈ pages seg → ∃ s, slot m p = Some s ∧ used s ∧ ref_count s + 1 < REF_COUNT_MAX.

Lemma inc_drop m r : in_use m r →
  ∃ m1, for_pages inc_frame_ref_count m (pages r) = Done m1 ∧
    (∀ p s, p ∈ pages r → slot m p = Some s → slot m1 p = Some (inc_slot s)) ∧
    segment_drop m1 r = Done m.
Proof.
  intros [Hr Hall]. destruct (inc_pages_eq r Hr m) as (m1 & H1 & H2 & H3 & H4 & H5).
  { intros p Hp. destruct (Hall p Hp) as (s & Hs & Hu & _). eauto. }
  exists m1. split; [done|]. split; [done|]. destruct (segment_drop_eq r Hr m1) as (m2 & K1 & K2 & K3 & K4 & K5).
  { intros p Hp. destruct (Hall p Hp) as (s & Hs & [Hu Hm] & Hb). exists (inc_slot s). split; [by apply H3|].
    split; [cbn; lia|done]. }
  rewrite K1. f_equal. destruct m as [sl mp dl], m2 as [sl2 mp2 dl2]. cbn in *. f_equal; [|congruence|].
  - apply map_eq. intros ptr. destruct (on_or_off r ptr) as [(p & Hp & ->)|Ho]; [|by rewrite K4, H4].
    destruct (Hall p Hp) as (s & Hs & Hu & _). specialize (K3 p _ Hp (H3 p s Hp Hs)). unfold slot in K3, Hs. cbn in K3, Hs.
    by rewrite K3, Hs, drop_inc_slot.
  - rewrite K5, H5. rewrite <- (app_nil_r dl) at 2. f_equal. unfold given_back. apply elem_of_nil_inv.
    intros x (p & Hx & Hp)%list_elem_of_bind. destruct (Hall p Hp) as (s & Hs & [Hu _] & _). rewrite (H3 p s Hp Hs) in Hx.
    unfold inc_slot in Hx. cbn in Hx. destruct (Z.eqb_spec (ref_count s + 1) 1); [lia|set_solver].
Qed.

(** Handles to a segment are counted right: a clone, or a slice of any part, adds one
    reference to each of its frames, and dropping it restores every slot and gives
    nothing to the allocator; and dropping the two halves of a split is dropping the
    whole. *)
Lemma segment_handles_exact m seg :
  in_use m seg →
  (∃ m1, segment_clone m seg = Done (seg, m1) ∧ segment_drop m1 seg = Done m) ∧
  (∀ a b, (PAGE_SIZE | a) → (PAGE_SIZE | b) → 0 ≤ a ≤ b → 0 ≤ lo seg → lo seg + b ≤ hi seg < 2 ^ 64 →
     ∃ m1, slice m seg (mkR a b) = Done (mkR (lo seg + a) (lo seg + b), m1) ∧
       segment_drop m1 (mkR (lo seg + a) (lo seg + b)) = Done m) ∧
  (∀ k l r, split seg k = Done (l, r) →
     segment_drop m seg = (segment_drop m l ≫= λ m, segment_drop m r)).
Proof.
  intros Hu. pose proof Hu as [[Hl Hh] Hall]. split; [|split].
  - destruct (inc_drop m seg Hu) as (m1 & H1 & _ & H2). exists m1. unfold segment_clone. by rewrite H1.
  - intros a b Ha Hb Hab H0 Hend. destruct (inc_drop m (mkR (lo seg + a) (lo seg + b))) as (m1 & H1 & _ & H2).
    { split; [split; by apply Z.divide_add_r|]. intros p [Hp Hin]%elem_of_pages; [|split; by apply Z.divide_add_r].
      apply Hall, elem_of_pages; [done|]. cbn in Hin. split; [done|lia]. }
    exists m1. split; [|done]. unfold slice. cbn [lo hi]. rewrite (proj2 (frame_page_mod a) Ha), (proj2 (frame_page_mod b) Hb). unfold checked_add.
    cbn [andb assert_that mbind outcome_bind]. destruct (Z.ltb_spec (lo seg + a) (2 ^ 64)), (Z.ltb_spec (lo seg + b) (2 ^ 64)); try lia.
    cbn [unwrap mbind outcome_bind]. destruct (Z.leb_spec (lo seg + a) (lo seg + b)), (Z.leb_spec (lo seg + b) (hi seg)); try lia.
    cbn [andb assert_that mbind outcome_bind]. by rewrite H1.
  - intros k l r. unfold split. destruct (k mod PAGE_SIZE =? 0) eqn:Hk; [|done]. apply frame_page_mod in Hk. cbn [assert_that mbind outcome_bind].
    unfold segment_size. destruct (Z.ltb_spec 0 k), (Z.ltb_spec k (hi seg - lo seg)); try done. cbn. intros [= <- <-].
    unfold segment_drop. rewrite <- for_pages_app, <- pages_app; [by destruct seg|lia|done|by apply Z.divide_add_r|done].
Qed.

End Loops.

(** ** Marking ranges at boot *)

(** Every aligned address below [MAX_PADDR] has a slot. *)
Definition has_slots (m : Frames BootMeta) : Prop := ∀ p, (PAGE_SIZE | p) → 0 ≤ p < max_paddr m → is_Some (slot m p).

Lemma claimed_tidy (m m' : Frames BootMeta) r fn : tidy m → claimed m m' r fn → tidy m'.
Proof.
  intros Ht (_ & _ & H3 & H4) ptr s Hs Hu. destruct (on_or_off r ptr) as [(p & Hp & ->)|Ho].
  - specialize (H3 p Hp). unfold slot in H3. rewrite H3 in Hs. injection Hs as <-. by vm_compute in Hu.
  - rewrite H4 in Hs by done. by eapply Ht.
Qed.

Lemma claimed_slots (m m' : Frames BootMeta) r fn : has_slots m → claimed m m' r fn → has_slots m'.
Proof.
  intros Hm (H1 & _ & H3 & H4) p Hp Hb. rewrite H1 in Hb. destruct (on_or_off r (frame_to_meta p)) as [(q & Hq & He)|Ho].
  - unfold slot. rewrite He. specialize (H3 q Hq). unfold slot in H3. rewrite H3. eauto.
  - unfold slot. rewrite H4 by done. by apply Hm.
Qed.

Definition range_ok (m : Frames BootMeta) (r : Range) : Prop := paged_range r ∧ 0 ≤ lo r < hi r ∧ hi r ≤ max_paddr m.

Lemma from_unused_ok (m : Frames BootMeta) r fn :
  tidy m → has_slots m → range_ok m r → (∀ p, p ∈ pages r → unused m p) →
  ∃ m', segment_from_unused m r fn = Done (ROk r, m') ∧ claimed m m' r fn.
Proof.
  intros Ht Hs (Hp & Hl & Hh) Hu. destruct (segment_from_unused_exact m r fn) as [(m' & HE & _ & Hc)|(q & s & Hq & Hsq & Hne & _)].
  - done.
  - done.
  - lia.
  - intros p Hin. destruct (Hu p Hin) as (s & -> & _). eauto.
  - eauto.
  - destruct (Hu q Hq) as (s' & Hs' & He). congruence.
Qed.

Lemma count_pos (a : Z) (l : list Range) r : r ∈ l → lo r ≤ a < hi r → (0 < count a l)%nat.
Proof.
  intros Hr Ha. induction l as [|x l IH]; [set_solver|]. rewrite count_cons, within_spec.
  apply elem_of_cons in Hr as [->|Hr]; [destruct (decide _); lia|specialize (IH Hr); lia].
Qed.

Lemma mark_all_exact (l : list (Range * BootMeta)) : ∀ m,
  tidy m → has_slots m → Forall (λ x, range_ok m x.1) l → (∀ a, (count a l.*1 ≤ 1)%nat) →
  (∀ x p, x ∈ l → p ∈ pages x.1 → unused m p) →
  ∃ m', mark_all m l = Done m' ∧ tidy m' ∧ has_slots m' ∧ max_paddr m' = max_paddr m ∧ dealloced m' = dealloced m ∧
    (∀ x p, x ∈ l → p ∈ pages x.1 → slot m' p = Some (mkSlot 1 (Some x.2))) ∧
    (∀ ptr, (∀ x, x ∈ l → off x.1 ptr) → slots m' !! ptr = slots m !! ptr).
Proof.
  induction l as [|x l IH]; intros m Ht Hs Hok Hd Hu.
  - exists m. split_and!; [done..|set_solver|done].
  - inversion Hok as [|? ? Hx Hl]; subst. cbn [mark_all]. unfold mark.
    destruct (from_unused_ok m x.1 (λ _, x.2) Ht Hs Hx) as (m1 & -> & Hc); [intros p; apply (Hu x p); set_solver|].
    cbn [mbind outcome_bind]. pose proof Hc as (C1 & C2 & C3 & C4).
    assert (Hapart : ∀ y p, y ∈ l → p ∈ pages y.1 → off x.1 (frame_to_meta p)).
    { intros y p Hy [Hp Hb]%elem_of_pages; [|by apply (proj1 (Forall_forall _ _) Hl)].
      apply off_other; [apply Hx|done|]. intros Hin. specialize (Hd p). rewrite fmap_cons, count_cons, within_spec in Hd.
      assert (0 < count p l.*1)%nat by (eapply count_pos; [by apply list_elem_of_fmap_2|done]).
      destruct (decide _); [lia|done]. }
    destruct (IH m1) as (m' & HE & T1 & T2 & T3 & T4 & T5 & T6).
    + by eapply claimed_tidy.
    + by eapply claimed_slots.
    + eapply Forall_impl; [exact Hl|]. intros y (? & ? & ?). split; [done|]; split; [done|by rewrite C1].
    + intros a. specialize (Hd a). rewrite fmap_cons, count_cons in Hd. lia.
    + intros y p Hy Hp. destruct (Hu y p) as (s & Hsl & ?); [set_solver|done|]. exists s. split; [|done].
      unfold slot. by rewrite C4 by (by eapply Hapart).
    + exists m'. split; [done|]. do 2 (split; [done|]). split; [by rewrite T3|]. split; [by rewrite T4|]. split.
      * intros y p [->|Hy]%elem_of_cons Hp; [|by apply T5]. unfold slot. rewrite T6; [by apply C3|].
        intros y Hy q Hq Heq. by apply (Hapart y q Hy Hq p Hp).
      * intros ptr Ho. rewrite T6 by set_solver. apply C4. apply Ho. set_solver.
Qed.

Lemma mark_all_app m l1 l2 : mark_all m (l1 ++ l2) = (mark_all m l1 ≫= λ m, mark_all m l2).
Proof.
  revert m. induction l1 as [|x l1 IH]; intros m; [done|]. cbn [app mark_all]. destruct (mark m x); [apply IH|done].
Qed.

(** ** The start *)

Lemma new_slots_lookup n ptr s : new_slots n !! ptr = Some s → s = mkSlot REF_COUNT_UNUSED None.
Proof. intros H%elem_of_list_to_map_2. apply list_elem_of_fmap in H as (i & [= _ ->] & _). done. Qed.

Lemma new_slots_page n p : (PAGE_SIZE | p) → 0 ≤ p < n * PAGE_SIZE → new_slots n !! frame_to_meta p = Some (mkSlot REF_COUNT_UNUSED None).
Proof.
  intros [k ->] Hp. assert (Hk : 0 ≤ k < n) by (unfold PAGE_SIZE in Hp; lia).
  destruct (new_slots n !! frame_to_meta (k * PAGE_SIZE)) as [s|] eqn:E; [f_equal; by eapply new_slots_lookup|].
  apply not_elem_of_list_to_map_2 in E. destruct E. rewrite <- list_fmap_compose. apply list_elem_of_fmap.
  exists k. split; [|apply elem_of_seqZ; lia]. cbn. unfold frame_to_meta. rewrite Z.div_mul by done. change (0 / PAGE_SIZE) with 0. lia.
Qed.

(** The last usable region, where the memory that has metadata ends *)
Lemma usable_split map :
  (∃ r, r ∈ map ∧ typ r = Usable) →
  ∃ pre u post, map = pre ++ u :: post ∧ typ u = Usable ∧ Forall (λ r, typ r ≠ Usable) post ∧
    skip_to_usable (reverse map) = reverse (pre ++ [u]).
Proof.
  induction map as [|r map IH] using rev_ind; [intros (? & ? & _); set_solver|]. intros (x & Hx & Hu).
  rewrite reverse_snoc. cbn [skip_to_usable]. case_bool_decide as Hr.
  - exists map, r, []. split_and!; [done..|]. by rewrite reverse_snoc.
  - destruct IH as (pre & u & post & -> & H1 & H2 & H3).
    { exists x. split; [|done]. apply elem_of_app in Hx as [|Hx]; [done|]. apply list_elem_of_singleton in Hx as ->. done. }
    exists pre, u, (post ++ [r]). split; [by rewrite <- app_assoc|]. split_and!; [done| |done].
    apply Forall_app. by repeat constructor.
Qed.

Lemma tiles_app a l1 l2 e : tiles a (l1 ++ l2) e ↔ ∃ b, tiles a l1 b ∧ tiles b l2 e.
Proof.
  revert a. induction l1 as [|r l1 IH]; intros a; cbn; [naive_solver|]. rewrite IH. naive_solver.
Qed.

(** A region that has an address is the only one. *)
Lemma tiles_unique l : ∀ a e x r q, tiles a l e → r ∈ l → q ∈ l → inside r x → inside q x → r = q.
Proof.
  induction l as [|y l IH]; intros a e x r q; [set_solver|]. intros (<- & Hl & Ht) Hr Hq Ir Iq.
  pose proof (tiles_le _ _ _ Ht) as [_ Hle]. unfold inside in *.
  apply elem_of_cons in Hr as [->|Hr], Hq as [->|Hq]; [done| | |by eapply IH].
  - destruct (Hle q Hq). lia.
  - destruct (Hle r Hr). lia.
Qed.

Definition unusable (map : list MemoryRegion) : list (Range * BootMeta) :=
  omap (λ r, (λ t, (region_range r, t)) <$> region_meta (typ r)) map.

Lemma elem_of_unusable map x : x ∈ unusable map ↔ ∃ r, r ∈ map ∧ region_meta (typ r) = Some x.2 ∧ x.1 = region_range r.
Proof.
  unfold unusable. rewrite list_elem_of_omap. destruct x as [y t]. split.
  - intros (r & Hr & H). exists r. split; [done|]. destruct (region_meta (typ r)); [|done]. by injection H as <- <-.
  - intros (r & Hr & Ht & Hy). exists r. split; [done|]. cbn in *. rewrite Ht. by subst.
Qed.

Lemma unusable_count map a e x : tiles a map e → (count x (unusable map).*1 ≤ 1)%nat ∧
  ((0 < count x (unusable map).*1)%nat → ∃ r, r ∈ map ∧ typ r ≠ Usable ∧ inside r x).
Proof.
  revert a. induction map as [|r map IH]; intros a; [intros _; cbn; lia|]. intros (<- & Hl & Ht).
  destruct (IH _ Ht) as [H1 H2]. unfold unusable. cbn [omap list_omap].
  fold (unusable map).
  assert (Hin : inside r x → count x (unusable map).*1 = 0%nat).
  { intros Hi. destruct (count x (unusable map).*1) eqn:E; [done|exfalso]. destruct H2 as (q & Hq & _ & Hqi); [lia|].
    apply tiles_le in Ht as [_ Hle]. destruct (Hle q Hq). unfold inside in *. lia. }
  destruct (region_meta (typ r)) as [t|] eqn:Et; cbn [fmap option_fmap option_map].
  - rewrite fmap_cons, count_cons, within_spec. cbn [fst region_range lo hi]. unfold inside in Hin.
    destruct (decide _) as [Hi|Hn].
    + rewrite Hin by done. split; [lia|]. intros _. exists r. split; [set_solver|]. split; [|done]. intros Hu. by rewrite Hu in Et.
    + split; [lia|]. intros (q & Hq & ?)%H2. exists q. split; [set_solver|done].
  - split; [done|]. intros (q & Hq & ?)%H2. exists q. split; [set_solver|done].
Qed.

Lemma count_perm a (l k : list Range) : l ≡ₚ k → count a l = count a k.
Proof. intros H. unfold count. by rewrite H. Qed.

Lemma fst_pairs {A B} (x : B) (l : list A) : ((λ r, (r, x)) <$> l).*1 = l.
Proof. rewrite <- list_fmap_compose. by apply list_fmap_id. Qed.

(** A memory map whose last usable region is [u] *)
Section Usable.
Context (pre post : list MemoryRegion) (u : MemoryRegion) (en : Z).
Let map := pre ++ u :: post.
Hypothesis Ht : tiles 0 map en.
Hypothesis Hlen : Forall (λ r, 0 < len r) map.
Hypothesis Hu : typ u = Usable.
Hypothesis Hpost : Forall (λ r, typ r ≠ Usable) post.

Lemma usable_below r : r ∈ map → typ r = Usable → base r + len r ≤ base u + len u.
Proof.
  intros Hr Hur. unfold map in *. apply tiles_app in Ht as (b & Hb & <- & _ & Ht').
  apply elem_of_app in Hr as [Hr|Hr]; [|apply elem_of_cons in Hr as [->|Hr]; [lia|]].
  - pose proof (tiles_le _ _ _ Hb) as [_ Hle]. destruct (Hle r Hr) as (_ & _ & ?).
    pose proof (proj1 (Forall_forall _ _) Hlen u ltac:(set_solver)) as Hlu. cbn in Hlu. lia.
  - by destruct (proj1 (Forall_forall _ _) Hpost r Hr).
Qed.

Lemma max_usable : max_list ((λ r, base r + len r) <$> filter (λ r, typ r = Usable) map) = Some (base u + len u).
Proof.
  set (l := _ <$> _). assert (Hin : base u + len u ∈ l).
  { apply list_elem_of_fmap. exists u. split; [done|]. apply list_elem_of_filter. split; [done|]. unfold map. set_solver. }
  destruct (max_list_spec l) as [H1 H2]. destruct (max_list l) as [x|] eqn:E; [|destruct l; [set_solver|done]].
  cbn in H1, H2. f_equal. specialize (H1 _ Hin). assert (Hl : l ≠ []) by (intros Hn; rewrite Hn in Hin; set_solver).
  specialize (H2 Hl). unfold l in H2. apply list_elem_of_fmap in H2 as (r & -> & [Hr1 Hr2]%list_elem_of_filter).
  pose proof (usable_below r Hr2 Hr1). lia.
Qed.

End Usable.

Lemma regions_cover l : ∀ a e p, tiles a l e → a ≤ p < e → ∃ r, r ∈ l ∧ inside r p.
Proof.
  induction l as [|r l IH]; intros a e p; cbn; [lia|]. intros (<- & Hl & Ht) Hp.
  destruct (decide (p < base r + len r)); [exists r; split; [set_solver|unfold inside; lia]|].
  destruct (IH _ _ p Ht) as (q & Hq & ?); [lia|]. exists q. split; [set_solver|done].
Qed.

(** What [init] works on: a memory map that ends, as far as it is usable, with [u], and the
    pages [MR] of the metadata among the memory the early allocator has given out *)
Section Start.
Context (pre post : list MemoryRegion) (u : MemoryRegion) (en : Z) (e : EarlyFrameAllocator) (MR : Range).
Let map := pre ++ u :: post.
Let R1 := (allocated_regions e).1.
Let R2 := (allocated_regions e).2.
Hypothesis Ht : tiles 0 map en.
Hypothesis Hp : Forall paged map.
Hypothesis Hlen : Forall (λ r, 0 < len r) map.
Hypothesis Hu : typ u = Usable.
Hypothesis Hpost : Forall (λ r, typ r ≠ Usable) post.
Hypothesis He : early_ok map e.
Hypothesis HM : paged_range MR ∧ lo MR < hi MR.
Hypothesis HR : (lo R1 ≤ lo MR ∧ hi MR ≤ hi R1) ∨ (lo R2 ≤ lo MR ∧ hi MR ≤ hi R2).

Lemma R_facts : paged_range R1 ∧ paged_range R2 ∧ 0 ≤ lo R1 ∧ 0 ≤ lo R2 ∧ (hi R1 ≤ lo R2 ∨ hi R2 ≤ lo R2) ∧
  ∀ a, lo R1 ≤ a < hi R1 ∨ lo R2 ≤ a < hi R2 → usable_at map a.
Proof.
  destruct He as [(U1 & U2 & [U3 U4] & U5) (M1 & M2 & [M3 M4] & M5) E3 E4 E5]. unfold R1, R2, allocated_regions. cbn.
  split_and!; [done|done|lia|lia|lia|]. intros a [Ha|Ha]; [apply (usable_range_at _ _ a E3)|apply (usable_range_at _ _ a E4)]; lia.
Qed.

Definition early_marks : list Range := range_difference R1 MR ++ range_difference R2 MR.
Definition marks : list (Range * BootMeta) :=
  ((λ r, (r, EarlyAllocatedFrameMeta)) <$> early_marks) ++ unusable (reverse (pre ++ [u])).

Lemma early_marks_count a :
  count a early_marks = if decide (lo MR ≤ a < hi MR) then 0%nat else (within R1 a + within R2 a)%nat.
Proof. unfold early_marks. rewrite count_app, !range_difference_count. by destruct (decide _). Qed.

Lemma unusable_at a : (count a (unusable (reverse (pre ++ [u]))).*1 ≤ 1)%nat ∧
  ((0 < count a (unusable (reverse (pre ++ [u]))).*1)%nat → ¬ usable_at map a).
Proof.
  assert (count a (unusable (reverse (pre ++ [u]))).*1 = count a (unusable (pre ++ [u])).*1) as ->.
  { apply count_perm. unfold unusable. by rewrite reverse_Permutation. }
  assert (Ht' : ∃ b, tiles 0 (pre ++ [u]) b).
  { unfold map in Ht. replace (pre ++ u :: post) with ((pre ++ [u]) ++ post) in Ht by (by rewrite <- app_assoc).
    apply tiles_app in Ht as (b & ? & _). eauto. }
  destruct Ht' as [b Ht']. destruct (unusable_count _ _ _ a Ht') as [H1 H2]. split; [done|].
  intros (r & Hr & Hn & Hi)%H2 (q & Hq & Hqu & Hqi). assert (r = q) as ->; [|done].
  eapply (tiles_unique map); [exact Ht| |exact Hq|exact Hi|exact Hqi]. unfold map. set_solver.
Qed.

Lemma marks_count a : (count a marks.*1 + within MR a ≤ 1)%nat.
Proof.
  unfold marks. rewrite fmap_app, count_app, fst_pairs, early_marks_count, !within_spec.
  destruct (unusable_at a) as [H1 H2], R_facts as (_ & _ & _ & _ & Ha & Hus). specialize (Hus a).
  destruct (count a (unusable _).*1) as [|n]; [repeat destruct (decide _); lia|].
  assert (¬ usable_at map a) as Hn by (apply H2; lia).
  repeat destruct (decide _); try lia; exfalso; apply Hn, Hus; lia.
Qed.

Lemma marks_ok (m : Frames BootMeta) : max_paddr m = base u + len u → Forall (λ x, range_ok m x.1) marks.
Proof.
  intros Hm. destruct R_facts as (P1 & P2 & L1 & L2 & _ & Hus). apply Forall_forall. intros x [Hx|Hx]%elem_of_app.
  - apply list_elem_of_fmap in Hx as (r & -> & Hr). cbn.
    assert (Hr' : lo r < hi r ∧ paged_range r ∧ 0 ≤ lo r ∧ usable_at map (hi r - 1)).
    { apply elem_of_app in Hr as [Hr|Hr]; apply range_difference_elem in Hr as Hr'; destruct Hr' as [Hlt Hpr].
      all: split; [done|]; split; [apply Hpr; [done|apply HM]|].
      all: pose proof (count_pos (hi r - 1) _ r Hr ltac:(lia)) as C1; pose proof (count_pos (lo r) _ r Hr ltac:(lia)) as C2.
      all: rewrite range_difference_count, within_spec in C1, C2; repeat destruct (decide _); try lia.
      all: split; [lia|]; apply Hus; lia. }
    destruct Hr' as (Hlt & Hpr & H0 & (q & Hq & Hqu & Hqi)). split; [done|]. split; [lia|].
    pose proof (usable_below pre post u en Ht Hlen Hu Hpost q Hq Hqu). unfold inside in Hqi. lia.
  - apply elem_of_unusable in Hx as (r & Hr & Hty & ->). unfold region_range, range_ok, paged_range. cbn.
    assert (Hrin : r ∈ pre ++ [u]) by (by rewrite <- (reverse_Permutation (pre ++ [u]))).
    assert (Hrm : r ∈ map) by (unfold map; set_solver).
    destruct (proj1 (Forall_forall _ _) Hp r Hrm) as [D1 D2]. pose proof (proj1 (Forall_forall _ _) Hlen r Hrm) as Hl.
    pose proof (tiles_le _ _ _ Ht) as [_ Hle]. destruct (Hle r Hrm) as (Hb & _).
    split; [split; [done|by apply Z.divide_add_r]|]. cbn in Hl. split; [lia|]. rewrite Hm.
    unfold map in Ht. apply tiles_app in Ht as (b & Hb' & <- & Hul & _).
    apply elem_of_app in Hrin as [Hrp|Hru]; [|apply list_elem_of_singleton in Hru as ->; lia].
    pose proof (tiles_le _ _ _ Hb') as [_ Hle']. destruct (Hle' r Hrp) as (_ & _ & ?). lia.
Qed.

(** The slots before any range is marked *)
Definition blank : Frames BootMeta := mkFrames (new_slots ((base u + len u) / PAGE_SIZE)) (base u + len u) [].

Lemma u_end : (PAGE_SIZE | base u + len u).
Proof.
  assert (Hin : u ∈ map) by (unfold map; set_solver).
  destruct (proj1 (Forall_forall _ _) Hp u Hin). by apply Z.divide_add_r.
Qed.

Lemma blank_page p : (PAGE_SIZE | p) → 0 ≤ p < base u + len u → slot blank p = Some (mkSlot REF_COUNT_UNUSED None).
Proof.
  intros Hpp Hb. apply new_slots_page; [done|]. destruct u_end as [k Hk]. rewrite Hk, Z.div_mul by done. lia.
Qed.

(** All of [init] after the slots are there *)
Lemma marked : ∃ m1 m, mark_all blank marks = Done m1 ∧
  segment_from_unused m1 MR (λ _, MetaPageMeta) = Done (ROk MR, m) ∧
  max_paddr m = base u + len u ∧ dealloced m = [] ∧
  (∀ p, p ∈ pages MR → slot m p = Some (mkSlot 1 (Some MetaPageMeta))) ∧
  (∀ x p, x ∈ marks → p ∈ pages x.1 → slot m p = Some (mkSlot 1 (Some x.2))) ∧
  (∀ p, (PAGE_SIZE | p) → 0 ≤ p < base u + len u → count p marks.*1 = 0%nat → within MR p = 0%nat →
     slot m p = Some (mkSlot REF_COUNT_UNUSED None)).
Proof.
  pose proof (marks_ok blank eq_refl) as Hok. rewrite Forall_forall in Hok.
  assert (Hpage : ∀ x p, x ∈ marks → p ∈ pages x.1 → (PAGE_SIZE | p) ∧ lo x.1 ≤ p < hi x.1 ∧ 0 ≤ p < base u + len u).
  { intros x p Hx Hin. destruct (Hok x Hx) as (P1 & P2 & P3). apply elem_of_pages in Hin as [D B]; [|done]. cbn in P3.
    split; [done|]. split; [done|lia]. }
  assert (Hapart : ∀ x p, x ∈ marks → p ∈ pages x.1 → ¬ lo MR ≤ p < hi MR).
  { intros x p Hx Hin HMp. destruct (Hpage x p Hx Hin) as (_ & Hb & _). pose proof (marks_count p) as Hc.
    pose proof (count_pos p marks.*1 x.1 ltac:(by apply list_elem_of_fmap_2) Hb). rewrite within_spec in Hc.
    destruct (decide _); [lia|done]. }
  destruct (mark_all_exact marks blank) as (m1 & HE & T1 & T2 & T3 & T4 & T5 & T6).
  { intros ptr s Hs _. apply new_slots_lookup in Hs as ->. done. }
  { intros p Hd Hb. rewrite blank_page by done. eauto. }
  { by apply Forall_forall. }
  { intros a. pose proof (marks_count a). lia. }
  { intros x p Hx Hin. destruct (Hpage x p Hx Hin) as (D & _ & B). unfold unused. rewrite (blank_page p D B). eauto. }
  assert (HMb : 0 ≤ lo MR ∧ hi MR ≤ base u + len u).
  { destruct R_facts as (_ & _ & L1 & L2 & _ & Hus), HM as [_ Hlt]. destruct (Hus (hi MR - 1)) as (q & Hq & Hqu & Hqi); [lia|].
    pose proof (usable_below pre post u en Ht Hlen Hu Hpost q Hq Hqu). unfold inside in Hqi. lia. }
  assert (HMoff : ∀ p, p ∈ pages MR → slot m1 p = Some (mkSlot REF_COUNT_UNUSED None)).
  { intros p [D B]%elem_of_pages; [|apply HM]. unfold slot. rewrite T6; [apply blank_page; [done|lia]|].
    intros x Hx q Hq Heq. destruct (Hpage x q Hx Hq) as (D' & _). apply frame_to_meta_inj in Heq as ->; [|done..].
    by apply (Hapart x p Hx Hq). }
  destruct (from_unused_ok m1 MR (λ _, MetaPageMeta)) as (m & HE2 & C1 & C2 & C3 & C4); [done|done| | |].
  { split; [apply HM|]. rewrite T3. cbn. destruct HM. lia. }
  { intros p Hin. unfold unused. rewrite (HMoff p Hin). eauto. }
  exists m1, m. split; [done|]. split; [done|]. split; [by rewrite C1|]. split; [by rewrite C2|]. split; [done|]. split.
  - intros x p Hx Hin. destruct (Hpage x p Hx Hin) as (D & _). unfold slot. rewrite C4; [by apply T5|].
    apply off_other; [apply HM|done|by apply (Hapart x)].
  - intros p D B Hc Hw. rewrite within_spec in Hw. unfold slot. rewrite C4, T6; [by apply blank_page| |].
    + intros x Hx. destruct (Hok x Hx) as (P1 & _). apply off_other; [done|done|]. intros Hin.
      pose proof (count_pos p marks.*1 x.1 ltac:(by apply list_elem_of_fmap_2) Hin). lia.
    + apply off_other; [apply HM|done|]. intros Hin. by destruct (decide _).
Qed.

Lemma early_mark a :
  lo R1 ≤ a < hi R1 ∨ lo R2 ≤ a < hi R2 → ¬ lo MR ≤ a < hi MR →
  ∃ r, r ∈ early_marks ∧ lo r ≤ a < hi r.
Proof.
  intros Ha Hn. assert (Hc : (0 < count a early_marks)%nat).
  { rewrite early_marks_count, !within_spec. repeat destruct (decide _); try lia; done. }
  revert Hc. induction early_marks as [|r l IH]; [cbn; lia|]. rewrite count_cons, within_spec.
  destruct (decide _); [intros _; exists r; split; [set_solver|done]|]. intros (x & Hx & ?)%IH. exists x. split; [set_solver|done].
Qed.

Lemma region_mark q t p :
  q ∈ map → inside q p → p < base u + len u → region_meta (typ q) = Some t → (region_range q, t) ∈ marks.
Proof.
  intros Hq Hi Hb Ht'. apply elem_of_app. right. apply elem_of_unusable. exists q. split; [|done].
  rewrite reverse_Permutation. unfold map in Hq, Ht. apply elem_of_app in Hq as [Hq|[->|Hq]%elem_of_cons]; [set_solver..|].
  apply tiles_app in Ht as (b & _ & <- & _ & Hpt). pose proof (tiles_le _ _ _ Hpt) as [_ Hle]. destruct (Hle q Hq).
  unfold inside in Hi. lia.
Qed.

(** What the frame at each address is in the end *)
Lemma marked_pages (m : Frames BootMeta) p :
  (∀ p, p ∈ pages MR → slot m p = Some (mkSlot 1 (Some MetaPageMeta))) →
  (∀ x p, x ∈ marks → p ∈ pages x.1 → slot m p = Some (mkSlot 1 (Some x.2))) →
  (∀ p, (PAGE_SIZE | p) → 0 ≤ p < base u + len u → count p marks.*1 = 0%nat → within MR p = 0%nat →
     slot m p = Some (mkSlot REF_COUNT_UNUSED None)) →
  (PAGE_SIZE | p) → 0 ≤ p < base u + len u → base u + len u ≤ en →
  (lo MR ≤ p < hi MR → slot m p = Some (mkSlot 1 (Some MetaPageMeta))) ∧
  (lo R1 ≤ p < hi R1 ∨ lo R2 ≤ p < hi R2 → ¬ lo MR ≤ p < hi MR →
     slot m p = Some (mkSlot 1 (Some EarlyAllocatedFrameMeta))) ∧
  (∀ r x, r ∈ map → inside r p → region_meta (typ r) = Some x → slot m p = Some (mkSlot 1 (Some x))) ∧
  (unused m p ↔ count p (free_ranges map e) = 1%nat).
Proof.
  intros S1 S2 S3 Hpd Hpb Hen.
  assert (C1 : lo MR ≤ p < hi MR → slot m p = Some (mkSlot 1 (Some MetaPageMeta))).
  { intros HinM. apply S1, elem_of_pages; [apply HM|done]. }
  pose proof (marks_ok blank eq_refl) as Hmok. rewrite Forall_forall in Hmok.
  assert (Hmark : ∀ x, x ∈ marks → lo x.1 ≤ p < hi x.1 → slot m p = Some (mkSlot 1 (Some x.2))).
  { intros x Hx Hin. apply S2; [done|]. apply elem_of_pages; [by apply Hmok|done]. }
  assert (C2 : lo R1 ≤ p < hi R1 ∨ lo R2 ≤ p < hi R2 → ¬ lo MR ≤ p < hi MR → slot m p = Some (mkSlot 1 (Some EarlyAllocatedFrameMeta))).
  { intros Hin HnM. destruct (early_mark p Hin HnM) as (r & Hr & Hrp). apply (Hmark (r, EarlyAllocatedFrameMeta)); [|done].
    apply elem_of_app. left. apply list_elem_of_fmap. eauto. }
  assert (C3 : ∀ r x, r ∈ map → inside r p → region_meta (typ r) = Some x → slot m p = Some (mkSlot 1 (Some x))).
  { intros r x Hr Hi Hx. apply (Hmark (region_range r, x)); [|done]. by apply (region_mark r x p Hr Hi (proj2 Hpb)). }
  split; [done|]. split; [done|]. split; [done|].
  assert (Hin1 : ∀ x, slot m p = Some (mkSlot 1 x) → ¬ unused m p) by (intros x Hx (s & Hs & Hs1); rewrite Hx in Hs; injection Hs as <-; by vm_compute in Hs1).
  destruct (usable_count_le _ _ _ p Ht) as [Hc1 Hc2]. rewrite free_ranges_count. fold R1 R2.
  change (lo (under_4g_range e) ≤ p < under_4g_end e ∨ lo (max_range e) ≤ p < max_end e) with (lo R1 ≤ p < hi R1 ∨ lo R2 ≤ p < hi R2).
  destruct (decide (lo R1 ≤ p < hi R1 ∨ lo R2 ≤ p < hi R2)) as [Hin|Hout].
  - split; [|done]. intros Hun. exfalso. destruct (decide (lo MR ≤ p < hi MR)) as [HinM|HnM]; [by eapply Hin1; [apply C1|]|by eapply Hin1; [apply C2|]].
  - split.
    + intros Hun. destruct (decide (0 < usable_count map p)%nat) as [|Hn]; [lia|exfalso].
      destruct (regions_cover map 0 en p Ht ltac:(lia)) as (r & Hr & Hi). destruct (region_meta (typ r)) as [x|] eqn:Ex.
      * eapply Hin1; [by apply (C3 r x)|done].
      * apply Hn, Hc2. exists r. split; [done|]. split; [by destruct (typ r)|done].
    + intros H1. eexists. split; [apply S3; [done|done| |]|done].
      * unfold marks. rewrite fmap_app, count_app, fst_pairs, early_marks_count, !within_spec.
        destruct (unusable_at p) as [_ Hun]. assert (count p (unusable (reverse (pre ++ [u]))).*1 = 0%nat).
        { destruct (count p (unusable _).*1); [done|exfalso]. apply Hun; [lia|]. apply Hc2. lia. }
        repeat destruct (decide _); lia.
      * rewrite within_spec. destruct (decide _); [lia|done].
Qed.

End Start.

(** The pages that [alloc_meta_frames] asks for *)
Definition meta_pages_for (max_paddr : Z) : Z := (max_paddr / PAGE_SIZE * META_SLOT_SIZE + PAGE_SIZE - 1) / PAGE_SIZE.

Lemma meta_pages_bound mx : 0 < mx < 2 ^ 64 → (PAGE_SIZE | mx) →
  0 < meta_pages_for mx ∧ mx / PAGE_SIZE * META_SLOT_SIZE ≤ meta_pages_for mx * PAGE_SIZE < 2 ^ 63.
Proof.
  intros Hm [k ->]. unfold meta_pages_for. rewrite Z.div_mul by done. unfold META_SLOT_SIZE, PAGE_SIZE in *.
  pose proof (Z.div_mod (k * 64 + 4096 - 1) 4096 ltac:(lia)). pose proof (Z.mod_pos_bound (k * 64 + 4096 - 1) 4096 ltac:(lia)). lia.
Qed.

Lemma alloc_meta_frames_eq e mx mp e' : 0 < mx < 2 ^ 64 → (PAGE_SIZE | mx) →
  early_alloc e (meta_pages_for mx * PAGE_SIZE) PAGE_SIZE = Done (Some mp, e') →
  alloc_meta_frames e (mx / PAGE_SIZE) = Done (meta_pages_for mx, mp, new_slots (mx / PAGE_SIZE), e').
Proof.
  intros Hm Hd He. destruct (meta_pages_bound mx Hm Hd) as (_ & _ & Hb). unfold alloc_meta_frames, checked_mul, layout.
  assert (mx / PAGE_SIZE * META_SLOT_SIZE < 2 ^ 64).
  { destruct Hd as [k ->]. rewrite Z.div_mul by done. unfold META_SLOT_SIZE, PAGE_SIZE in *. lia. }
  destruct (Z.ltb_spec (mx / PAGE_SIZE * META_SLOT_SIZE) (2 ^ 64)); [|lia]. cbn [unwrap mbind outcome_bind].
  fold (meta_pages_for mx). destruct (Z.ltb_spec (meta_pages_for mx * PAGE_SIZE) (2 ^ 63)); [|lia].
  cbn [assert_that mbind outcome_bind]. by rewrite He.
Qed.

(** The new slots end within the pages mapped for them. *)
Lemma slot_in_pages mx p : 0 < mx < 2 ^ 64 → (PAGE_SIZE | mx) → (PAGE_SIZE | p) → 0 ≤ p < mx →
  frame_to_meta p + META_SLOT_SIZE ≤ FRAME_METADATA_BASE + meta_pages_for mx * PAGE_SIZE.
Proof.
  intros Hm Hd [j ->] Hp. destruct (meta_pages_bound mx Hm Hd) as (_ & Hb & _). destruct Hd as [k ->].
  unfold frame_to_meta. rewrite Z.div_mul in * by done. unfold META_SLOT_SIZE, PAGE_SIZE in *. lia.
Qed.

Lemma init_eq pre u post en e0 b0 e1 b1 e2 e b mp :
  let mx := base u + len u in
  let MR := mkR mp (mp + meta_pages_for mx * PAGE_SIZE) in
  tiles 0 (pre ++ u :: post) en → Forall (λ r, 0 < len r) (pre ++ u :: post) → typ u = Usable →
  Forall (λ r, typ r ≠ Usable) post → skip_to_usable (reverse (pre ++ u :: post)) = reverse (pre ++ [u]) →
  add_temp_linear_mapping mx e0 b0 = Done (e1, b1) →
  alloc_meta_frames e1 (mx / PAGE_SIZE) = Done (meta_pages_for mx, mp, new_slots (mx / PAGE_SIZE), e2) →
  map_pages (frame_to_meta 0) mp (seqZ 0 (meta_pages_for mx)) e2 b1 = Done (e, b) →
  init (pre ++ u :: post) e0 b0 =
  (mark_all (blank u) (marks pre u e MR) ≫= λ m, segment_from_unused m MR (λ _, MetaPageMeta) ≫= λ '(r, m),
   match r with ROk seg => Done (seg, m, e, b) | RErr _ => Panic end).
Proof.
  intros mx MR Ht Hlen Hu Hpost Hskip Hlin Hall Hmap. unfold init. rewrite (max_usable pre post u en Ht Hlen Hu Hpost).
  cbn [unwrap mbind outcome_bind]. fold mx. rewrite Hlin. cbn [mbind outcome_bind]. rewrite Hall. cbn [mbind outcome_bind].
  rewrite Hmap. cbn [mbind outcome_bind]. fold MR.
  unfold marks, early_marks, mark_unusable_ranges. rewrite Hskip. fold (unusable (reverse (pre ++ [u]))).
  destruct (allocated_regions e) as [R1 R2]. cbn [fst snd]. rewrite fmap_app, !mark_all_app. unfold blank. fold mx.
  destruct (mark_all _ (_ <$> range_difference R1 MR)) as [m1|]; [|done]. cbn [mbind outcome_bind].
  destruct (mark_all m1 _) as [m2|]; [|done]. cbn [mbind outcome_bind]. by destruct (mark_all m2 _).
Qed.

(** What the boot map and the early allocator are when [init] marks the frames *)
Lemma boot_ready LEN rs map reqs granted e b mx e1 b1 mp e2 e3 b3 :
  Forall region_ok rs → into_non_overlapping LEN rs = Done map →
  Forall layout_ok reqs → early_allocs (early_new map) reqs = Done (granted, e) → tables_ok e b →
  max_list ((λ r, base r + len r) <$> filter (λ r, typ r = Usable) map) = Some mx →
  add_temp_linear_mapping mx e b = Done (e1, b1) →
  early_alloc e1 (meta_pages_for mx * PAGE_SIZE) PAGE_SIZE = Done (Some mp, e2) →
  map_pages (frame_to_meta 0) mp (seqZ 0 (meta_pages_for mx)) e2 b1 = Done (e3, b3) →
  ∃ pre u post en, map = pre ++ u :: post ∧ mx = base u + len u ∧ typ u = Usable ∧
    Forall (λ r, typ r ≠ Usable) post ∧ skip_to_usable (reverse map) = reverse (pre ++ [u]) ∧
    tiles 0 map en ∧ Forall paged map ∧ Forall (λ r, 0 < len r) map ∧ 0 < mx < 2 ^ 64 ∧ mx ≤ en ∧ (PAGE_SIZE | mx) ∧
    boot_ok map e3 b3 ∧
    (∀ i, 0 ≤ i < meta_pages_for mx →
       boot_translate b3 (FRAME_METADATA_BASE + i * PAGE_SIZE) = Some (mp + i * PAGE_SIZE)) ∧
    let MR := mkR mp (mp + meta_pages_for mx * PAGE_SIZE) in
    let '(R1, R2) := allocated_regions e3 in
    (paged_range MR ∧ lo MR < hi MR) ∧ ((lo R1 ≤ lo MR ∧ hi MR ≤ hi R1) ∨ (lo R2 ≤ lo MR ∧ hi MR ≤ hi R2)).
Proof.
  intros Hok Hmap Hreqs Hrun Htab Hmx Hlin Hall Hpages. destruct (into_non_overlapping_map _ _ _ Hok Hmap) as (rs' & en & _ & [Ht Hen Hreg _ Hl] & _).
  assert (Hp : Forall paged map) by (apply Forall_forall; intros r Hr; by apply Hreg).
  assert (Hr : Forall region_ok map).
  { apply Forall_forall. intros r Hr. apply tiles_le in Ht as [_ Hle]. destruct (Hle r Hr) as (? & ? & ?). unfold region_ok. lia. }
  assert (Hus : ∃ r, r ∈ map ∧ typ r = Usable).
  { set (l := _ <$> _) in Hmx. destruct (max_list_spec l) as [_ H2]. destruct l eqn:E; [done|].
    unfold l in E. destruct (filter _ map) as [|r k] eqn:Ef; [done|]. exists r.
    assert (Hin : r ∈ filter (λ r, typ r = Usable) map) by (rewrite Ef; set_solver). apply list_elem_of_filter in Hin as []. done. }
  destruct Hl as [Hl|Hl]; [|subst map; destruct Hus as (r & ->%list_elem_of_singleton & ?); done].
  destruct (usable_split map Hus) as (pre & u & post & -> & Hu & Hpost & Hskip).
  rewrite (max_usable pre post u en Ht Hl Hu Hpost) in Hmx. injection Hmx as <-.
  assert (Hin : u ∈ pre ++ u :: post) by set_solver.
  pose proof (proj1 (Forall_forall _ _) Hl u Hin) as Hlu. cbn in Hlu.
  pose proof (tiles_le _ _ _ Ht) as [_ Hle]. destruct (Hle u Hin) as (H1 & H2 & H3).
  assert (Hd : (PAGE_SIZE | base u + len u)) by (destruct (proj1 (Forall_forall _ _) Hp u Hin); by apply Z.divide_add_r).
  assert (Hb : 0 < base u + len u < 2 ^ 64) by lia.
  destruct (meta_pages_bound _ Hb Hd) as (N1 & _ & N2).
  destruct (early_allocs_exact _ _ _ _ _ (early_new_ok _ Hr Hp) Hreqs Hrun) as (He0 & _).
  destruct (linear_mapping_ok _ _ _ _ _ _ (conj He0 Htab) Hlin) as [[He Htab1] _].
  assert (Hlay : layout_ok (meta_pages_for (base u + len u) * PAGE_SIZE, PAGE_SIZE)).
  { split; [split; cbn; unfold PAGE_SIZE in *; lia|]. split; [split; by vm_compute|]. exists 12. split; [lia|done]. }
  destruct (early_alloc_exact _ _ _ _ _ He Hlay Hall) as (He' & E1 & E2 & _ & Hmp & Hpl). cbn [fst snd] in Hpl.
  assert (Htab2 : tables_ok e2 b1) by (apply (early_alloc_tables _ e1 e2 _ _ _ He Hlay Hall Htab1)).
  destruct (map_pages_ok _ _ mp _ _ _ _ _ Hmp (conj He' Htab2) Hpages) as (Hb3 & [[X1 X2] [X3 X4] _ _] & Htr).
  exists pre, u, post, en. split_and!; try done; [lia|lia| |].
  { intros i Hi. rewrite <- Htr; [done|]. apply elem_of_seqZ. lia. }
  destruct (round_up_least (meta_pages_for (base u + len u) * PAGE_SIZE) PAGE_SIZE) as (_ & U2 & U3); [done|].
  specialize (U3 (meta_pages_for (base u + len u) * PAGE_SIZE) ltac:(apply Z.divide_factor_r) ltac:(lia)).
  unfold allocated_regions. cbn. split.
  - split; [split; cbn; [done|apply Z.divide_add_r; [done|apply Z.divide_factor_r]]|]. unfold PAGE_SIZE in *. lia.
  - destruct He as [(A1 & _) (B1 & _) _ _ _]. rewrite X1, X3, E1, E2. lia.
Qed.

(** [C31] The metadata at boot agrees with the memory map and the hand-over. Whatever the
    firmware reports and whatever is allocated early, when there is usable memory, the
    frames of the boot page table are not free, and the boot page table and the early
    allocator have room for the temporary linear mapping, for the metadata and for the
    mappings of the metadata, [meta::init] returns without a panic: every [from_unused] in
    it finds its frames unused, the slots of all frames lie within the pages made for them,
    and these are mapped to their frames. Afterwards the frame at each page-aligned address
    up to the end of usable memory is what it should be: a page of the metadata, a frame
    allocated early (the new page tables included), a frame of a region that is not usable
    with the metadata of its type, or unused; and it is unused exactly if its memory is in
    the one range that [allocator::init] hands to the frame allocator. *)
Theorem meta_init_exact LEN rs map reqs granted e b mx e1 b1 mp e2 e3 b3 :
  Forall region_ok rs → into_non_overlapping LEN rs = Done map →
  Forall layout_ok reqs → early_allocs (early_new map) reqs = Done (granted, e) → tables_ok e b →
  max_list ((λ r, base r + len r) <$> filter (λ r, typ r = Usable) map) = Some mx →
  add_temp_linear_mapping mx e b = Done (e1, b1) →
  early_alloc e1 (meta_pages_for mx * PAGE_SIZE) PAGE_SIZE = Done (Some mp, e2) →
  map_pages (frame_to_meta 0) mp (seqZ 0 (meta_pages_for mx)) e2 b1 = Done (e3, b3) →
  let MR := mkR mp (mp + meta_pages_for mx * PAGE_SIZE) in
  let '(R1, R2) := allocated_regions e3 in
  ∃ m, init map e b = Done (MR, m, e3, b3) ∧ max_paddr m = mx ∧ dealloced m = [] ∧
  (∀ i, 0 ≤ i < meta_pages_for mx →
     boot_translate b3 (FRAME_METADATA_BASE + i * PAGE_SIZE) = Some (mp + i * PAGE_SIZE)) ∧
  ∀ p, (PAGE_SIZE | p) → 0 ≤ p < mx →
    frame_to_meta p + META_SLOT_SIZE ≤ FRAME_METADATA_BASE + meta_pages_for mx * PAGE_SIZE ∧
    (lo MR ≤ p < hi MR → slot m p = Some (mkSlot 1 (Some MetaPageMeta))) ∧
    (lo R1 ≤ p < hi R1 ∨ lo R2 ≤ p < hi R2 → ¬ lo MR ≤ p < hi MR →
       slot m p = Some (mkSlot 1 (Some EarlyAllocatedFrameMeta))) ∧
    (∀ r x, r ∈ map → inside r p → region_meta (typ r) = Some x → slot m p = Some (mkSlot 1 (Some x))) ∧
    (unused m p ↔ count p (free_ranges map e3) = 1%nat).
Proof.
  intros Hok Hmap Hreqs Hrun Htab Hmx Hlin Hall Hpg.
  destruct (boot_ready LEN rs map reqs granted e b mx e1 b1 mp e2 e3 b3)
    as (pre & u & post & en & -> & -> & Hu & Hpost & Hskip & Ht & Hp & Hl & Hb & Hen & Hd & [He _] & Htr & HMR);
    [done..|]. set (map := pre ++ u :: post) in *. set (MR := mkR _ _) in *. intros MR'.
  assert (Hae : allocated_regions e3 = ((allocated_regions e3).1, (allocated_regions e3).2)) by (by destruct (allocated_regions e3)).
  rewrite Hae in HMR |- *. destruct HMR as [HM HR].
  destruct (marked pre post u en e3 MR Ht Hp Hl Hu Hpost He HM HR) as (m1 & m & HE1 & HE2 & Hmax & Hdl & S1 & S2 & S3).
  exists m. split.
  { unfold map. rewrite (init_eq pre u post en e b e1 b1 e2 e3 b3 mp Ht Hl Hu Hpost Hskip Hlin); [|by apply alloc_meta_frames_eq|done].
    fold MR. rewrite HE1. cbn [mbind outcome_bind]. by rewrite HE2. }
  split; [done|]. split; [done|]. split; [done|]. intros p Hpd Hpb. split; [by apply slot_in_pages|].
  by apply (marked_pages pre post u en e3 MR Ht Hp Hl Hu Hpost He HM HR).
Qed.

(** Sixteen pages with the kernel in the third and a hole before the last six; one page has
    been allocated early. The kernel's page is the root of the boot page table. *)
Definition small_machine : list MemoryRegion :=
  [mkRegion 0 0x8000 Usable; mkRegion 0x2000 0x1000 Kernel; mkRegion 0xA000 0x6000 Usable].
Definition small_boot_pt : BootPageTable := mkBootPt 2 ∅.

Lemma small_tables_ok e : early_allocs (early_new [mkRegion 0 0x2000 Usable; mkRegion 0x2000 0x1000 Kernel;
    mkRegion 0x3000 0x5000 Usable; mkRegion 0x8000 0x2000 Unknown; mkRegion 0xA000 0x6000 Usable]) [(0x800, 0x1000)] =
    Done ([mkR 0xA000 0xB000], e) → tables_ok e small_boot_pt.
Proof.
  intros He. vm_compute in He. injection He as <-. split.
  - intros f i p Hp. by destruct (lookup_empty_Some (M := gmap (Z * Z)) (f, i) p).
  - unfold free_frame. cbn. unfold PAGE_SIZE. lia.
  - done.
Qed.

Lemma meta_init_exact_witness :
  match into_non_overlapping 512 small_machine with
  | Done map =>
      match early_allocs (early_new map) [(0x800, 0x1000)] with
      | Done (_, e) =>
          match init map e small_boot_pt with
          | Done (seg, m, e', b) =>
              lo seg = 0xB000 ∧ (unused m 0xF000 ↔ count 0xF000 (free_ranges map e') = 1%nat) ∧
              slot m 0x2000 = Some (mkSlot 1 (Some KernelMeta)) ∧
              boot_translate b FRAME_METADATA_BASE = Some 0xB000
          | Panic => False
          end
      | Panic => False
      end
  | Panic => False
  end.
Proof.
  assert (Hok : Forall region_ok small_machine) by (unfold region_ok; repeat constructor; vm_compute; congruence).
  destruct (into_non_overlapping 512 small_machine) as [map|] eqn:Hm; [|vm_compute in Hm; discriminate].
  destruct (early_allocs (early_new map) [(0x800, 0x1000)]) as [[g e]|] eqn:He.
  2: { vm_compute in Hm. injection Hm as <-. vm_compute in He. discriminate. }
  pose proof Hm as Hm'. pose proof He as He'. vm_compute in Hm'. injection Hm' as <-. vm_compute in He'. injection He' as <- <-.
  assert (Hl : Forall layout_ok [(0x800, 0x1000)]).
  { repeat constructor; [by vm_compute..|]. exists 12. split; [lia|done]. }
  set (e2 := mkEarly (mkR 0xA000 0x10000) 0xC000 (mkR 0 0) 0).
  destruct (map_pages (frame_to_meta 0) 0xB000 (seqZ 0 (meta_pages_for 0x10000)) e2 small_boot_pt) as [[e3 b3]|] eqn:Hp;
    [|vm_compute in Hp; discriminate].
  pose proof (meta_init_exact 512 small_machine _ _ _ _ small_boot_pt 0x10000 _ small_boot_pt 0xB000 e2 e3 b3
    Hok Hm Hl He (small_tables_ok _ He) ltac:(vm_compute; reflexivity) ltac:(reflexivity) ltac:(vm_compute; reflexivity) Hp) as H.
  destruct (allocated_regions e3) as [R1 R2]. destruct H as (m & HE & _ & _ & Htr & H). rewrite HE. split; [reflexivity|].
  split; [|split].
  - apply (H 0xF000); [by exists 15|lia].
  - eapply (H 0x2000); [by exists 2|lia| | |]; [right; left|unfold inside; cbn; lia|reflexivity].
  - apply (Htr 0). unfold meta_pages_for, PAGE_SIZE. vm_compute. split; congruence.
Defined.

End FrameMeta.
