(* ===== verification/FrameRefs.v ===== *)
(** * The reference counts of frames under concurrency

    The handles of frames ([osxtd/src/mm/frame/mod.rs], [unique.rs]) and the slots behind them
    ([meta.rs]), one atomic access or one access to the metadata at a time, for any number
    of frames and a bounded number of threads. *)

From S2P Require Import Prelude FrameMeta.
Local Open Scope Z_scope.

Module FrameRefs.
Import FrameMeta.

Section Machine.
Context {M : Type}.

(** A frame: its slot; the handles there are, [Frame]s and frames forgotten into page tables
    and segments on the one hand and a [UniqueFrame] on the other; and how often metadata
    was written and dropped *)
Record Fr : Type := mkFr { sl : MetaSlot M; handles : nat; owned : bool; written : nat; dropped : nat }.

(** Where a thread is. [Got]: the allocator has returned the address. [Write], [Publish]: in
    [get_from_unused] after the exchange, and after [write_meta]. [Load]: in
    [get_from_in_use] after the load. [Abort]: it has stopped for good; it has counted a
    reference of the frame, if one is given. [DropMeta], [Release], [Dealloc]: in the last
    drop, before the metadata is dropped, before the count is stored and before the call
    of the allocator, which [reset_as_unused] leaves out. [Refit]: in [repurpose] between
    the two. [Panicked]: at an [unwrap]. *)
Inductive Op : Type :=
| Got (p : Z) (metadata : M) (as_unique_ptr : bool)
| Write (p : Z) (metadata : M) (as_unique_ptr : bool)
| Publish (p : Z) (as_unique_ptr : bool)
| Load (p last_ref_cnt : Z)
| Abort (counted : option Z)
| DropMeta (p : Z) (give_back : bool)
| Release (p : Z) (give_back : bool)
| Dealloc (p : Z)
| Refit (p : Z) (metadata : M)
| Panicked.

(** [allocd]: the addresses the allocator has given out *)
Record World : Type := mkW { frames : gmap Z Fr; ops : gmap nat Op; allocd : gset Z }.

Definition set_op (o : gmap nat Op) (i : nat) (x : option Op) : gmap nat Op :=
  match x with Some op => <[i := op]> o | None => delete i o end.

(** Thread [i] changes frame [p] and goes on. *)
Definition upd (w : World) (p : Z) (f : Fr) (i : nat) (x : option Op) : World :=
  mkW (<[p := f]> (frames w)) (set_op (ops w) i x) (allocd w).
Definition go (w : World) (i : nat) (x : option Op) : World := mkW (frames w) (set_op (ops w) i x) (allocd w).

Definition count (f : Fr) : Z := ref_count (sl f).
Definition data (f : Fr) : option M := meta (sl f).
Definition set_count (f : Fr) (n : Z) : Fr := mkFr (mkSlot n (data f)) (handles f) (owned f) (written f) (dropped f).
Definition set_handles (f : Fr) (n : nat) : Fr := mkFr (sl f) n (owned f) (written f) (dropped f).
Definition add_handle (f : Fr) : Fr := set_handles f (S (handles f)).
Definition set_owned (f : Fr) (b : bool) : Fr := mkFr (sl f) (handles f) b (written f) (dropped f).
Definition write_meta (f : Fr) (m : M) : Fr := mkFr (mkSlot (count f) (Some m)) (handles f) (owned f) (S (written f)) (dropped f).
Definition drop_meta_in_place (f : Fr) : Fr := mkFr (mkSlot (count f) None) (handles f) (owned f) (written f) (S (dropped f)).
Definition set_meta (f : Fr) (m : M) : Fr := mkFr (mkSlot (count f) (Some m)) (handles f) (owned f) (written f) (dropped f).

(** [N] threads; with [wild], [from_unused] is also called on addresses that the allocator has
    not given to the caller. A call that returns an error, or the frame itself, changes
    nothing and is no step. *)
Context (N : nat) (wild : bool).

Definition idle (w : World) (i : nat) : Prop := (i < N)%nat ∧ ops w !! i = None.

Inductive step (w : World) : World → Prop :=
(** [alloc_frame_with] gets an address from the allocator *)
| r_alloc i p f m u :
    idle w i → frames w !! p = Some f → p ∉ allocd w →
    step w (mkW (frames w) (<[i := Got p m u]> (ops w)) ({[p]} ∪ allocd w))
(** [get_from_unused] *)
| r_wild i p f m u :
    wild = true → idle w i → frames w !! p = Some f → count f = REF_COUNT_UNUSED →
    step w (upd w p (set_count f 0) i (Some (Write p m u)))
| r_claim i p f m u :
    ops w !! i = Some (Got p m u) → frames w !! p = Some f → count f = REF_COUNT_UNUSED →
    step w (upd w p (set_count f 0) i (Some (Write p m u)))
| r_claim_fails i p f m u :
    ops w !! i = Some (Got p m u) → frames w !! p = Some f → count f ≠ REF_COUNT_UNUSED →
    step w (go w i (Some Panicked))
| r_write i p f m u :
    ops w !! i = Some (Write p m u) → frames w !! p = Some f →
    step w (upd w p (write_meta f m) i (Some (Publish p u)))
| r_publish i p f u :
    ops w !! i = Some (Publish p u) → frames w !! p = Some f →
    step w (upd w p (if u then set_owned (set_count f REF_COUNT_UNIQUE) true else add_handle (set_count f 1)) i None)
(** [get_from_in_use] *)
| r_load i p f :
    idle w i → frames w !! p = Some f →
    count f ≠ REF_COUNT_UNUSED → count f ≠ REF_COUNT_UNIQUE → count f ≠ 0 →
    step w (go w i (Some (if REF_COUNT_MAX <=? count f then Abort None else Load p (count f))))
| r_exchange i p f last :
    ops w !! i = Some (Load p last) → frames w !! p = Some f → count f = last →
    step w (upd w p (add_handle (set_count f (last + 1))) i None)
| r_retry i p last :
    ops w !! i = Some (Load p last) → step w (go w i None)
(** [Frame::clone], [inc_frame_ref_count] *)
| r_clone i p f :
    idle w i → frames w !! p = Some f → (0 < handles f)%nat →
    let f' := set_count f (wrapping_add 64 (count f) 1) in
    step w (if REF_COUNT_MAX <=? count f then upd w p f' i (Some (Abort (Some p))) else upd w p (add_handle f') i None)
(** [Frame::drop] *)
| r_drop i p f n :
    idle w i → frames w !! p = Some f → handles f = S n →
    step w (upd w p (set_handles (set_count f (wrapping_sub 64 (count f) 1)) n) i
              (if count f =? 1 then Some (DropMeta p true) else None))
| r_drop_meta i p f k :
    ops w !! i = Some (DropMeta p k) → frames w !! p = Some f →
    step w (upd w p (drop_meta_in_place f) i (Some (Release p k)))
| r_release i p f k :
    ops w !! i = Some (Release p k) → frames w !! p = Some f →
    step w (upd w p (set_count f REF_COUNT_UNUSED) i (if k then Some (Dealloc p) else None))
| r_dealloc i p :
    ops w !! i = Some (Dealloc p) → step w (mkW (frames w) (delete i (ops w)) (allocd w ∖ {[p]}))
(** [UniqueFrame::drop] and [reset_as_unused] *)
| r_unique_drop i p f k :
    idle w i → frames w !! p = Some f → owned f = true →
    step w (upd w p (set_owned (set_count f 0) false) i (Some (DropMeta p k)))
(** [repurpose] *)
| r_repurpose i p f m :
    idle w i → frames w !! p = Some f → owned f = true →
    step w (upd w p (set_owned (drop_meta_in_place f) false) i (Some (Refit p m)))
| r_refit i p f m :
    ops w !! i = Some (Refit p m) → frames w !! p = Some f →
    step w (upd w p (set_owned (write_meta f m) true) i None)
(** [meta_mut] *)
| r_meta_mut i p f m :
    idle w i → frames w !! p = Some f → owned f = true → step w (upd w p (set_meta f m) i None)
(** [Frame::from(unique)] and [UniqueFrame::try_from(frame)] *)
| r_share i p f :
    idle w i → frames w !! p = Some f → owned f = true →
    step w (upd w p (add_handle (set_owned (set_count f 1) false)) i None)
| r_unshare i p f n :
    idle w i → frames w !! p = Some f → handles f = S n → count f = 1 →
    step w (upd w p (set_owned (set_handles (set_count f REF_COUNT_UNIQUE) n) true) i None).

(** All frames unused *)
Definition initial (w : World) : Prop :=
  ops w = ∅ ∧ allocd w = ∅ ∧ ∀ p f, frames w !! p = Some f → f = mkFr (mkSlot REF_COUNT_UNUSED None) 0 false 0 0.

(** ** Invariant *)

(** The frame whose count a thread is responsible for *)
Definition about (x : Op) : option Z :=
  match x with
  | Write p _ _ | Publish p _ | DropMeta p _ | Release p _ | Refit p _ => Some p
  | Abort c => c
  | _ => None
  end.

(** The address a thread holds that is not in use *)
Definition keeps (x : Op) : option Z :=
  match x with Got p _ _ | Dealloc p => Some p | _ => None end.

Definition sel (g : Op → option Z) (o : gmap nat Op) (p : Z) : gmap nat Op := filter (λ x, g x.2 = Some p) o.

(** Whether the metadata is there while a thread has the frame for itself *)
Definition stage (x : Op) : option bool :=
  match x with
  | Write _ _ _ | Release _ _ => Some false
  | Publish _ _ | DropMeta _ _ => Some true
  | _ => None
  end.

Definition present {A} (o : option A) : bool := match o with Some _ => true | None => false end.

(** What the frame [p] may be while the threads [o] are responsible for its count *)
Inductive ok (p : Z) (f : Fr) (o : gmap nat Op) : Prop :=
| ok_unused :
    count f = REF_COUNT_UNUSED → handles f = 0%nat → owned f = false → data f = None → o = ∅ → ok p f o
| ok_busy i x :
    count f = 0 → handles f = 0%nat → owned f = false → stage x = Some (present (data f)) → o = {[i := x]} → ok p f o
| ok_unique :
    count f = REF_COUNT_UNIQUE → handles f = 0%nat → owned f = true → present (data f) = true → o = ∅ → ok p f o
| ok_refit i m :
    count f = REF_COUNT_UNIQUE → handles f = 0%nat → owned f = false → data f = None → o = {[i := Refit p m]} → ok p f o
| ok_shared :
    count f = Z.of_nat (handles f) + Z.of_nat (size o) → 1 ≤ count f → Z.of_nat (handles f) ≤ REF_COUNT_MAX →
    owned f = false → present (data f) = true → (∀ i x, o !! i = Some x → x = Abort (Some p)) → ok p f o.

Definition balanced (f : Fr) : Prop := written f = (dropped f + if present (data f) then 1 else 0)%nat.

Record inv (w : World) : Prop := {
  inv_threads : ∀ i, is_Some (ops w !! i) → (i < N)%nat;
  inv_frames : ∀ p f, frames w !! p = Some f → ok p f (sel about (ops w) p) ∧ balanced f;
}.

(** *** The threads at a frame *)

Lemma sel_lookup g o p i x : sel g o p !! i = Some x ↔ o !! i = Some x ∧ g x = Some p.
Proof. unfold sel. by rewrite map_lookup_filter_Some. Qed.

Lemma sel_set_op g o i x p :
  sel g (set_op o i x) p = set_op (sel g o p) i (x ≫= λ x, if decide (g x = Some p) then Some x else None).
Proof.
  apply map_eq. intros j. apply option_eq. intros y. rewrite sel_lookup. destruct x as [x|]; cbn.
  - destruct (decide (g x = Some p)) as [Hg|Hg]; cbn; rewrite ?lookup_insert_Some, ?lookup_delete_Some, ?sel_lookup; naive_solver.
  - rewrite !lookup_delete_Some, sel_lookup. naive_solver.
Qed.

(** A step of thread [i] that concerns the frame [p] only *)
Definition local (p : Z) (x : option Op) : Prop := ∀ y q, x = Some y → about y = Some q → q = p.

Lemma sel_other o i x p q : q ≠ p → local p (o !! i) → local p x → sel about (set_op o i x) q = sel about o q.
Proof.
  intros Hq Ho Hx. rewrite sel_set_op. assert (x ≫= (λ x, if decide (about x = Some q) then Some x else None) = None) as ->.
  { destruct x as [x|]; [|done]. cbn. destruct (decide _) as [He|]; [|done]. by destruct Hq, (Hx x q eq_refl He). }
  cbn. apply delete_id. destruct (sel about o q !! i) as [y|] eqn:E; [|done].
  apply sel_lookup in E as [Hi He]. by destruct Hq, (Ho y q Hi He).
Qed.

Lemma inv_upd w p f f' i x :
  inv w → (i < N)%nat → frames w !! p = Some f → local p (ops w !! i) → local p x →
  ok p f' (set_op (sel about (ops w) p) i (x ≫= λ x, if decide (about x = Some p) then Some x else None)) → balanced f' →
  inv (upd w p f' i x).
Proof.
  intros [H1 H2] Hi Hf Ho Hx Hok Hb. split; cbn [upd frames ops].
  - intros j. destruct x as [x|]; cbn; [destruct (decide (j = i)) as [->|Hne]; [done|rewrite lookup_insert_ne by done; apply H1]|].
    intros [y [_ Hy]%lookup_delete_Some]. apply H1. eauto.
  - intros q g. destruct (decide (q = p)) as [->|Hne].
    + rewrite lookup_insert_eq. intros [= <-]. by rewrite sel_set_op.
    + rewrite lookup_insert_ne by done. intros Hg. rewrite (sel_other _ i x p) by done. by apply H2.
Qed.

Lemma inv_go w i x :
  inv w → (i < N)%nat → (∀ y, ops w !! i = Some y → about y = None) → (∀ y, x = Some y → about y = None) → inv (go w i x).
Proof.
  intros [H1 H2] Hi Ho Hx. split; cbn [go frames ops].
  - intros j. destruct x as [x|]; cbn; [destruct (decide (j = i)) as [->|Hne]; [done|rewrite lookup_insert_ne by done; apply H1]|].
    intros [y [_ Hy]%lookup_delete_Some]. apply H1. eauto.
  - intros q g Hg. rewrite (sel_other _ i x (q + 1)); [by apply H2|lia| |]; intros y r Hy Hr.
    + by rewrite (Ho y Hy) in Hr.
    + by rewrite (Hx y Hy) in Hr.
Qed.

Lemma sel_size w p : inv w → (size (sel about (ops w) p) ≤ N)%nat.
Proof.
  intros [H1 _]. rewrite <- (size_dom (D := gset nat)), <- (size_set_seq (C := gset nat) 0 N). apply subseteq_size.
  intros i [x Hx]%elem_of_dom. apply sel_lookup in Hx as [Hx _]. apply elem_of_set_seq. specialize (H1 i). rewrite Hx in H1. eauto with lia.
Qed.

(** *** What a step can rely on *)

Hypothesis HN : Z.of_nat N ≤ 2 ^ 62.

Section At.
Context (p : Z) (f : Fr) (o : gmap nat Op).
Hypothesis Hok : ok p f o.
Hypothesis Hsize : (size o ≤ N)%nat.

Lemma at_unused : count f = REF_COUNT_UNUSED → handles f = 0%nat ∧ owned f = false ∧ data f = None ∧ o = ∅.
Proof.
  unfold REF_COUNT_UNUSED. destruct Hok as [| | | |Hc _ Hm]; try done; unfold REF_COUNT_UNIQUE in *; [lia..|].
  unfold REF_COUNT_MAX in Hm. lia.
Qed.

Lemma at_stage i x b : o !! i = Some x → stage x = Some b →
  o = {[i := x]} ∧ count f = 0 ∧ handles f = 0%nat ∧ owned f = false ∧ present (data f) = b.
Proof.
  intros Hi Hx. destruct Hok as [? ? ? ? ->|j y H1 H2 H3 H4 ->|? ? ? ? ->|j m ? ? ? ? ->|? ? ? ? ? Ha].
  - by rewrite lookup_empty in Hi.
  - apply lookup_singleton_Some in Hi as [<- <-]. split_and!; [done..|]. congruence.
  - by rewrite lookup_empty in Hi.
  - by apply lookup_singleton_Some in Hi as [<- <-].
  - apply Ha in Hi as ->. done.
Qed.

Lemma at_refit i m : o !! i = Some (Refit p m) →
  o = {[i := Refit p m]} ∧ count f = REF_COUNT_UNIQUE ∧ handles f = 0%nat ∧ owned f = false ∧ data f = None.
Proof.
  intros Hi. destruct Hok as [? ? ? ? ->|j y H1 H2 H3 H4 ->|? ? ? ? ->|j m' ? ? ? ? ->|? ? ? ? ? Ha].
  - by rewrite lookup_empty in Hi.
  - by apply lookup_singleton_Some in Hi as [<- ->].
  - by rewrite lookup_empty in Hi.
  - apply lookup_singleton_Some in Hi as [<- [= ->]]. done.
  - by apply Ha in Hi.
Qed.

Lemma at_owned : owned f = true → count f = REF_COUNT_UNIQUE ∧ handles f = 0%nat ∧ present (data f) = true ∧ o = ∅.
Proof. intros Ho. destruct Hok as [| | | |]; try congruence. done. Qed.

(** In use: by handles and by threads that have stopped *)
Definition shared : Prop :=
  count f = Z.of_nat (handles f) + Z.of_nat (size o) ∧ 1 ≤ count f ≤ REF_COUNT_MAX + 2 ^ 62 ∧
  Z.of_nat (handles f) ≤ REF_COUNT_MAX ∧ owned f = false ∧ present (data f) = true ∧
  (∀ i x, o !! i = Some x → x = Abort (Some p)).

Lemma at_shared : count f ≠ REF_COUNT_UNUSED → count f ≠ REF_COUNT_UNIQUE → count f ≠ 0 → shared.
Proof. intros H1 H2 H3. destruct Hok; try congruence. unfold shared. split_and!; try done; lia. Qed.

Lemma at_handle : (0 < handles f)%nat → shared.
Proof. intros Hh. destruct Hok; try lia. unfold shared. split_and!; try done; lia. Qed.

End At.

(** *** Each step keeps the invariant *)

Lemma frame_facts w p f : inv w → frames w !! p = Some f →
  ok p f (sel about (ops w) p) ∧ balanced f ∧ (size (sel about (ops w) p) ≤ N)%nat.
Proof. intros Hinv Hf. destruct (inv_frames _ Hinv _ _ Hf). split_and!; [done|done|by apply sel_size]. Qed.

Ltac at_frame Hinv Hf o Hok Hb Hs :=
  destruct (frame_facts _ _ _ Hinv Hf) as (Hok & Hb & Hs);
  match type of Hok with ok _ _ ?x => set (o := x) in Hok, Hs end.

Lemma idle_local w i p : idle w i → local p (ops w !! i).
Proof. intros [_ ->] y q Hy. done. Qed.
Lemma some_local p i (o : gmap nat Op) x : o !! i = Some x → about x = Some p → local p (o !! i).
Proof. intros -> Ha y q [= <-] Hq. congruence. Qed.
Lemma none_local p i (o : gmap nat Op) x : o !! i = Some x → about x = None → local p (o !! i).
Proof. intros -> Ha y q [= <-] Hq. congruence. Qed.
Lemma new_local p x : about x = Some p → local p (Some x).
Proof. intros Ha y q [= <-] Hq. congruence. Qed.
Lemma end_local p : local p None.
Proof. intros y q Hy. done. Qed.

Lemma idle_sel w i p : idle w i → sel about (ops w) p !! i = None.
Proof. intros [_ Hi]. destruct (sel about (ops w) p !! i) eqn:E; [|done]. apply sel_lookup in E as [E _]. congruence. Qed.

Lemma some_sel w i p x : ops w !! i = Some x → about x = Some p → sel about (ops w) p !! i = Some x.
Proof. intros Hi Ha. by apply sel_lookup. Qed.

Lemma thread_lt w i x : inv w → ops w !! i = Some x → (i < N)%nat.
Proof. intros Hinv Hi. apply (inv_threads _ Hinv). eauto. Qed.

(** A new thread at the frame, the same thread further on, and one that leaves *)
Lemma pick_new (o : gmap nat Op) i x p : about x = Some p →
  set_op o i (Some x ≫= λ x, if decide (about x = Some p) then Some x else None) = <[i := x]> o.
Proof. intros Ha. cbn. by rewrite decide_True. Qed.

Lemma pick_end (o : gmap nat Op) i x p : (∀ y, x = Some y → about y ≠ Some p) →
  set_op o i (x ≫= λ x, if decide (about x = Some p) then Some x else None) = delete i o.
Proof. intros Ha. destruct x as [x|]; [|done]. cbn. rewrite decide_False; [done|by apply Ha]. Qed.

Lemma inv_claim w i p f m u :
  inv w → (i < N)%nat → (∀ y, ops w !! i = Some y → about y = None) → frames w !! p = Some f →
  count f = REF_COUNT_UNUSED → inv (upd w p (set_count f 0) i (Some (Write p m u))).
Proof.
  intros Hinv Hi Ho Hf Hc. at_frame Hinv Hf o Hok Hb Hs. destruct (at_unused p f o Hok Hs Hc) as (H1 & H2 & H3 & Ho0).
  eapply inv_upd; [done|done|exact Hf| |by apply new_local| |done].
  { intros y q Hy Hq. rewrite (Ho y Hy) in Hq. done. }
  rewrite pick_new by done. fold o. rewrite Ho0. apply (ok_busy _ _ _ i (Write p m u)); try done. cbn. unfold data in *. by rewrite H3.
Qed.

(** A thread that has the frame for itself goes on to the next stage. *)
Lemma inv_stage w i p f x b y f' c :
  inv w → ops w !! i = Some x → about x = Some p → stage x = Some b → frames w !! p = Some f →
  about y = Some p → stage y = Some c →
  count f' = count f → handles f' = handles f → owned f' = owned f → present (data f') = c →
  (balanced f → present (data f) = b → balanced f') →
  inv (upd w p f' i (Some y)).
Proof.
  intros Hinv Hi Hx Hb Hf Hy Hc E1 E2 E3 E4 Hbal. at_frame Hinv Hf o Hok Hbf Hs.
  destruct (at_stage p f o Hok Hs i x b (some_sel _ _ _ _ Hi Hx) Hb) as (Ho & K1 & K2 & K3 & K4).
  eapply inv_upd; [done|by eapply thread_lt|exact Hf|by eapply some_local|by apply new_local| |by apply Hbal].
  rewrite pick_new by done. fold o. rewrite Ho. apply (ok_busy _ _ _ i y); try congruence. by rewrite insert_singleton_eq.
Qed.

(** A thread that has the frame for itself lets go of it. *)
Lemma refs_inv_leave w i p f x b f' y :
  inv w → ops w !! i = Some x → about x = Some p → stage x = Some b → frames w !! p = Some f →
  (∀ z, y = Some z → about z = None) →
  (handles f = 0%nat → owned f = false → present (data f) = b → ok p f' ∅) → (balanced f → balanced f') →
  inv (upd w p f' i y).
Proof.
  intros Hinv Hi Hx Hb Hf Hy Hok' Hbal. at_frame Hinv Hf o Hok Hbf Hs.
  destruct (at_stage p f o Hok Hs i x b (some_sel _ _ _ _ Hi Hx) Hb) as (Ho & K1 & K2 & K3 & K4).
  eapply inv_upd; [done|by eapply thread_lt|exact Hf|by eapply some_local| | |by apply Hbal].
  { intros z q Hz Hq. rewrite (Hy z Hz) in Hq. done. }
  rewrite pick_end; [|intros z Hz; rewrite (Hy z Hz); done]. fold o. rewrite Ho, delete_singleton_eq. by apply Hok'.
Qed.

(** An idle thread, or one that is not at a frame, changes a frame in use and is done. *)
Lemma inv_count w i p f f' :
  inv w → (i < N)%nat → (∀ y, ops w !! i = Some y → about y = None) → frames w !! p = Some f →
  shared p f (sel about (ops w) p) →
  count f' = Z.of_nat (handles f') + (count f - Z.of_nat (handles f)) → 1 ≤ count f' → Z.of_nat (handles f') ≤ REF_COUNT_MAX →
  owned f' = owned f → data f' = data f → (balanced f → balanced f') →
  inv (upd w p f' i None).
Proof.
  intros Hinv Hi Ho Hf (S1 & S2 & S3 & S4 & S5 & S6) E1 E2 E3 E4 E5 Hbal. at_frame Hinv Hf o Hok Hb Hs. fold o in S1, S6.
  eapply inv_upd; [done|done|exact Hf| |apply end_local| |by apply Hbal].
  { intros y q Hy Hq. rewrite (Ho y Hy) in Hq. done. }
  cbn. fold o. rewrite delete_id.
  - apply ok_shared; [lia|lia|lia|congruence|congruence|exact S6].
  - destruct (o !! i) as [y|] eqn:E; [|done]. apply sel_lookup in E as [E Ha]. rewrite (Ho y E) in Ha. done.
Qed.

(** *** Clones, drops and owners *)

Lemma idle_none w i : idle w i → ∀ y, ops w !! i = Some y → about y = None.
Proof. intros [_ H] y Hy. congruence. Qed.

Lemma inv_clone w i p f :
  inv w → idle w i → frames w !! p = Some f → (0 < handles f)%nat →
  let f' := set_count f (wrapping_add 64 (count f) 1) in
  inv (if REF_COUNT_MAX <=? count f then upd w p f' i (Some (Abort (Some p))) else upd w p (add_handle f') i None).
Proof.
  intros Hinv Hi Hf Hh f'. at_frame Hinv Hf o Hok Hb Hs. pose proof (at_handle p f o Hok Hs Hh) as Hsh.
  pose proof Hsh as (S1 & S2 & S3 & S4 & S5 & S6). assert (Hw : count f' = count f + 1).
  { cbn. unfold wrapping_add. apply Z.mod_small. unfold REF_COUNT_MAX in S2. lia. }
  destruct (Z.leb_spec REF_COUNT_MAX (count f)).
  - eapply inv_upd; [done|apply Hi|exact Hf|by apply idle_local|by apply new_local| |done].
    rewrite pick_new by done. fold o. assert (Hn : o !! i = None) by (by apply idle_sel).
    apply ok_shared; [|lia|done|done|done|].
    + rewrite Hw, map_size_insert_None by done. cbn [handles f' set_count]. lia.
    + intros j x [[_ <-]|[_ Hx]]%lookup_insert_Some; [done|by eapply S6].
  - eapply inv_count; [done|apply Hi|by apply idle_none|exact Hf|exact Hsh|..]; try done;
      change (count (add_handle f')) with (count f'); change (handles (add_handle f')) with (S (handles f)); lia.
Qed.

Lemma inv_drop w i p f n :
  inv w → idle w i → frames w !! p = Some f → handles f = S n →
  inv (upd w p (set_handles (set_count f (wrapping_sub 64 (count f) 1)) n) i (if count f =? 1 then Some (DropMeta p true) else None)).
Proof.
  intros Hinv Hi Hf Hh. at_frame Hinv Hf o Hok Hb Hs. pose proof (at_handle p f o Hok Hs ltac:(lia)) as Hsh.
  pose proof Hsh as (S1 & S2 & S3 & S4 & S5 & S6). set (f' := set_handles _ _). assert (Hw : count f' = count f - 1).
  { cbn. unfold wrapping_sub. apply Z.mod_small. unfold REF_COUNT_MAX in S2. lia. }
  destruct (Z.eqb_spec (count f) 1) as [H1|H1].
  - eapply inv_upd; [done|apply Hi|exact Hf|by apply idle_local|by apply new_local| |done].
    rewrite pick_new by done. fold o. assert (Ho : o = ∅) by (apply map_size_empty_inv; lia). rewrite Ho.
    apply (ok_busy _ _ _ i (DropMeta p true)); [lia|cbn; lia|done| |done]. cbn. by rewrite <- S5.
  - eapply inv_count; [done|apply Hi|by apply idle_none|exact Hf|exact Hsh|..]; try done;
      change (handles f') with n; lia.
Qed.

(** What a step of the owner of a [UniqueFrame] may do *)
Lemma inv_owner w i p f f' x :
  inv w → idle w i → frames w !! p = Some f → owned f = true →
  (∀ y, x = Some y → about y = Some p) →
  (count f = REF_COUNT_UNIQUE → handles f = 0%nat → present (data f) = true → ok p f' (set_op ∅ i x)) →
  (balanced f → present (data f) = true → balanced f') →
  inv (upd w p f' i x).
Proof.
  intros Hinv Hi Hf Ho Hx Hok' Hbal. at_frame Hinv Hf o Hok Hb Hs.
  destruct (at_owned p f o Hok Ho) as (H1 & H2 & H3 & Ho0).
  eapply inv_upd; [done|apply Hi|exact Hf|by apply idle_local| | |by apply Hbal].
  { intros y q -> Hq. rewrite (Hx y eq_refl) in Hq. congruence. }
  destruct x as [x|]; [rewrite pick_new by (by apply Hx)|cbn]; fold o; rewrite Ho0; by apply Hok'.
Qed.

Lemma inv_refit w i p f m :
  inv w → ops w !! i = Some (Refit p m) → frames w !! p = Some f → inv (upd w p (set_owned (write_meta f m) true) i None).
Proof.
  intros Hinv Hi Hf. at_frame Hinv Hf o Hok Hb Hs.
  destruct (at_refit p f o Hok Hs i m (some_sel _ _ _ _ Hi eq_refl)) as (Ho & H1 & H2 & H3 & H4).
  eapply inv_upd; [done|by eapply thread_lt|exact Hf|by eapply some_local|apply end_local| |].
  - cbn. fold o. rewrite Ho, delete_singleton_eq. by apply ok_unique.
  - unfold balanced in *. unfold data in *. rewrite H4 in Hb. cbn in *. lia.
Qed.

Lemma inv_unshare w i p f n :
  inv w → idle w i → frames w !! p = Some f → handles f = S n → count f = 1 →
  inv (upd w p (set_owned (set_handles (set_count f REF_COUNT_UNIQUE) n) true) i None).
Proof.
  intros Hinv Hi Hf Hh H1. at_frame Hinv Hf o Hok Hb Hs. destruct (at_handle p f o Hok Hs ltac:(lia)) as (S1 & S2 & S3 & S4 & S5 & S6).
  assert (Ho : o = ∅) by (apply map_size_empty_inv; lia).
  eapply inv_upd; [done|apply Hi|exact Hf|by apply idle_local|apply end_local| |done].
  cbn. fold o. rewrite Ho, delete_empty. apply ok_unique; try done. cbn. lia.
Qed.

Lemma inv_allocd w a : inv w → inv (mkW (frames w) (ops w) a).
Proof. intros [H1 H2]. by split. Qed.

(** What a thread has loaded in [get_from_in_use] is the count of a frame in use. *)
Definition loads (w : World) : Prop := ∀ i p l, ops w !! i = Some (Load p l) → 1 ≤ l < REF_COUNT_MAX.

Lemma loads_set w i x fr al :
  loads w → (∀ p l, x = Some (Load p l) → 1 ≤ l < REF_COUNT_MAX) → loads (mkW fr (set_op (ops w) i x) al).
Proof.
  intros Hl Hx j p l. cbn. destruct x as [x|]; cbn.
  - intros [[_ ->]|[_ H]]%lookup_insert_Some; [by eapply Hx|by eapply Hl].
  - intros [_ H]%lookup_delete_Some. by eapply Hl.
Qed.

Lemma step_loads w w' : inv w → loads w → step w w' → loads w'.
Proof.
  intros Hinv Hl Hs. destruct Hs as [| | | | | |i p f Hi Hf H1 H2 H3| | | | | | | | | | | | |]; try (by apply loads_set).
  - by apply (loads_set w i (Some (Got p m u))).
  - apply loads_set; [done|]. intros q l. destruct (Z.leb_spec REF_COUNT_MAX (count f)); intros [= <- <-].
    destruct (frame_facts _ _ _ Hinv Hf) as (Hok & _ & Hsz). destruct (at_shared p f _ Hok Hsz H1 H2 H3) as (_ & ? & _). lia.
  - destruct (_ <=? _); by apply loads_set.
  - apply loads_set; [done|]. intros q l. by destruct (_ =? _).
  - apply loads_set; [done|]. intros q l. by destruct k.
  - by apply (loads_set w i None).
Qed.

Lemma refs_step_inv w w' : inv w → loads w → step w w' → inv w'.
Proof.
  intros Hinv Hl Hs. destruct Hs as [i p f m u Hi Hf Ha|i p f m u _ Hi Hf Hc|i p f m u Hi Hf Hc|i p f m u Hi Hf Hc|i p f m u Hi Hf
    |i p f u Hi Hf|i p f Hi Hf H1 H2 H3|i p f l Hi Hf Hc|i p l Hi|i p f Hi Hf Hh|i p f n Hi Hf Hh|i p f k Hi Hf|i p f k Hi Hf
    |i p Hi|i p f k Hi Hf Ho|i p f m Hi Hf Ho|i p f m Hi Hf|i p f m Hi Hf Ho|i p f Hi Hf Ho|i p f n Hi Hf Hh Hc].
  - apply (inv_allocd (go w i (Some (Got p m u)))), inv_go; [done|apply Hi|by apply idle_none|by intros ? [= <-]].
  - apply inv_claim; [done|apply Hi|by apply idle_none|done|done].
  - apply inv_claim; [done|by eapply thread_lt|by rewrite Hi; intros ? [= <-]|done|done].
  - apply inv_go; [done|by eapply thread_lt|by rewrite Hi; intros ? [= <-]|by intros ? [= <-]].
  - eapply (inv_stage w i p f (Write p m u) false (Publish p u) _ true); try done. unfold balanced. cbn. intros -> ->. lia.
  - eapply (refs_inv_leave w i p f (Publish p u) true); try done; [|by destruct u].
    intros H1 H2 H3. destruct u; [by apply ok_unique|]. apply ok_shared; cbn; try done; [by rewrite H1|rewrite H1; by vm_compute].
  - apply inv_go; [done|apply Hi|by apply idle_none|]. intros y [= <-]. by destruct (_ <=? _).
  - destruct (frame_facts _ _ _ Hinv Hf) as (Hok & Hb & Hsz). specialize (Hl i p l Hi). subst l.
    assert (Hsh : shared p f (sel about (ops w) p)).
    { apply at_shared; [done|done|..]; unfold REF_COUNT_UNUSED, REF_COUNT_UNIQUE, REF_COUNT_MAX in *; lia. }
    pose proof Hsh as (S1 & S2 & S3 & _). eapply inv_count; [done|by eapply thread_lt|by rewrite Hi; intros ? [= <-]|exact Hf|exact Hsh|..]; try done;
      cbn -[Z.of_nat]; lia.
  - apply inv_go; [done|by eapply thread_lt|by rewrite Hi; intros ? [= <-]|done].
  - by apply inv_clone.
  - by apply inv_drop.
  - eapply (inv_stage w i p f (DropMeta p k) true (Release p k) _ false); try done. unfold balanced. cbn. intros -> ->. lia.
  - eapply (refs_inv_leave w i p f (Release p k) false); try done; [by destruct k; intros ? [= <-]|].
    intros H1 H2 H3. apply ok_unused; try done. cbn. unfold data in *. by destruct (meta (sl f)).
  - apply (inv_allocd (go w i None)), inv_go; [done|by eapply thread_lt|by rewrite Hi; intros ? [= <-]|done].
  - eapply inv_owner; [done|done|done|done|by intros ? [= <-]| |done]. intros H1 H2 H3.
    apply (ok_busy _ _ _ i (DropMeta p k)); try done. cbn. by rewrite <- H3.
  - eapply inv_owner; [done|done|done|done|by intros ? [= <-]| |]. 
    + intros H1 H2 H3. by apply (ok_refit _ _ _ i m).
    + unfold balanced. cbn. intros -> ->. lia.
  - by apply inv_refit.
  - eapply inv_owner; [done|done|done|done|done| |]; [intros H1 H2 H3; by apply ok_unique|].
    unfold balanced. cbn. intros -> ->. lia.
  - eapply inv_owner; [done|done|done|done|done| |done]. intros H1 H2 H3.
    apply ok_shared; cbn; try done; [by rewrite H2|rewrite H2; by vm_compute].
  - by apply inv_unshare.
Qed.

(** ** With the allocator *)

(** An address is with the allocator, on its way from it or to it, or in use. *)
Definition placed (p : Z) (f : Fr) (h : gmap nat Op) (al : gset Z) : Prop :=
  (h = ∅ ∧ (p ∈ al ∨ count f = REF_COUNT_UNUSED)) ∨
  (∃ i x, h = {[i := x]} ∧ count f = REF_COUNT_UNUSED ∧ p ∈ al).

Record disc (w : World) : Prop := {
  disc_ok : ∀ i, ops w !! i ≠ Some Panicked;
  disc_frames : ∀ p f, frames w !! p = Some f → placed p f (sel keeps (ops w) p) (allocd w);
}.

Definition keeps_at (p : Z) (x : option Op) : Prop := ∀ y q, x = Some y → keeps y = Some q → q = p.

Lemma keep_other o i x p q : q ≠ p → keeps_at p (o !! i) → keeps_at p x → sel keeps (set_op o i x) q = sel keeps o q.
Proof.
  intros Hq Ho Hx. rewrite sel_set_op. assert (x ≫= (λ x, if decide (keeps x = Some q) then Some x else None) = None) as ->.
  { destruct x as [x|]; [|done]. cbn. destruct (decide _) as [He|]; [|done]. by destruct Hq, (Hx x q eq_refl He). }
  cbn. apply delete_id. destruct (sel keeps o q !! i) as [y|] eqn:E; [|done].
  apply sel_lookup in E as [Hi He]. by destruct Hq, (Ho y q Hi He).
Qed.

Lemma disc_upd w p f f' i x al :
  disc w → frames w !! p = Some f → keeps_at p (ops w !! i) → keeps_at p x → x ≠ Some Panicked →
  (∀ q, q ≠ p → q ∈ al ↔ q ∈ allocd w) → placed p f' (sel keeps (set_op (ops w) i x) p) al →
  disc (mkW (<[p := f']> (frames w)) (set_op (ops w) i x) al).
Proof.
  intros [H1 H2] Hf Ho Hx Hp Hal Hpl. split; cbn.
  - intros j Hj. destruct x as [x|]; cbn in Hj.
    + apply lookup_insert_Some in Hj as [[_ ->]|[_ Hj]]; [done|by apply (H1 j)].
    + apply lookup_delete_Some in Hj as [_ Hj]. by apply (H1 j).
  - intros q g. destruct (decide (q = p)) as [->|Hne]; [rewrite lookup_insert_eq; by intros [= <-]|].
    rewrite lookup_insert_ne by done. intros Hg. rewrite (keep_other _ i x p) by done. specialize (H2 q g Hg).
    unfold placed in *. specialize (Hal q Hne). naive_solver.
Qed.

Lemma keep_same o i x p : (∀ y, o !! i = Some y → keeps y = None) → (∀ y, x = Some y → keeps y = None) →
  sel keeps (set_op o i x) p = sel keeps o p.
Proof.
  intros Ho Hx. apply (keep_other _ i x (p + 1)); [lia| |]; intros y q Hy Hq; [rewrite (Ho y Hy) in Hq|rewrite (Hx y Hy) in Hq]; done.
Qed.

(** A step that leaves the allocator out and does not take an unused frame *)
Lemma disc_quiet w p f f' i x :
  disc w → frames w !! p = Some f → (∀ y, ops w !! i = Some y → keeps y = None) → (∀ y, x = Some y → keeps y = None ∧ y ≠ Panicked) →
  count f ≠ REF_COUNT_UNUSED → disc (upd w p f' i x).
Proof.
  intros Hd Hf Ho Hx Hc. eapply disc_upd; [done|exact Hf| | | |done|].
  - intros y q Hy Hq. rewrite (Ho y Hy) in Hq. done.
  - intros y q Hy Hq. rewrite (proj1 (Hx y Hy)) in Hq. done.
  - intros ->. by destruct (Hx _ eq_refl) as [_ ?].
  - rewrite keep_same; [|done|intros y Hy; by apply Hx]. left.
    destruct (disc_frames _ Hd p f Hf) as [[-> [Ha|?]]|(? & ? & _ & ? & _)]; [|done..]. split; [done|by left].
Qed.

Lemma disc_go w i x :
  disc w → (∀ y, ops w !! i = Some y → keeps y = None) → (∀ y, x = Some y → keeps y = None ∧ y ≠ Panicked) → disc (go w i x).
Proof.
  intros [H1 H2] Ho Hx. split; cbn.
  - intros j Hj. destruct x as [x|]; cbn in Hj.
    + apply lookup_insert_Some in Hj as [[_ ->]|[_ Hj]]; [|by apply (H1 j)]. by destruct (Hx _ eq_refl) as [_ ?].
    + apply lookup_delete_Some in Hj as [_ Hj]. by apply (H1 j).
  - intros q g Hg. rewrite keep_same; [by apply H2|done|intros y Hy; by apply Hx].
Qed.

(** The address a thread holds is unused, and the thread is the only one that has it. *)
Lemma disc_held w i x p f :
  disc w → ops w !! i = Some x → keeps x = Some p → frames w !! p = Some f →
  sel keeps (ops w) p = {[i := x]} ∧ count f = REF_COUNT_UNUSED ∧ p ∈ allocd w.
Proof.
  intros Hd Hi Hx Hf. assert (Hs : sel keeps (ops w) p !! i = Some x) by (by apply sel_lookup).
  destruct (disc_frames _ Hd p f Hf) as [[He _]|(j & y & He & Hc & Ha)]; rewrite He in Hs |- *.
  - by rewrite lookup_empty in Hs.
  - by apply lookup_singleton_Some in Hs as [-> ->].
Qed.

Lemma busy_count w i x p f b :
  inv w → ops w !! i = Some x → about x = Some p → stage x = Some b → frames w !! p = Some f → count f ≠ REF_COUNT_UNUSED.
Proof.
  intros Hinv Hi Ha Hb Hf. destruct (frame_facts _ _ _ Hinv Hf) as (Hok & _ & Hsz).
  destruct (at_stage p f _ Hok Hsz i x b (some_sel _ _ _ _ Hi Ha) Hb) as (_ & -> & _). done.
Qed.

Lemma handle_count w p f : inv w → frames w !! p = Some f → (0 < handles f)%nat → count f ≠ REF_COUNT_UNUSED.
Proof.
  intros Hinv Hf Hh. destruct (frame_facts _ _ _ Hinv Hf) as (Hok & _ & Hsz).
  destruct (at_handle p f _ Hok Hsz Hh) as (_ & Hc & _). unfold REF_COUNT_MAX, REF_COUNT_UNUSED in *. lia.
Qed.

Lemma owned_count w p f : inv w → frames w !! p = Some f → owned f = true → count f ≠ REF_COUNT_UNUSED.
Proof.
  intros Hinv Hf Ho. destruct (frame_facts _ _ _ Hinv Hf) as (Hok & _ & _). by destruct (at_owned p f _ Hok Ho) as (-> & _).
Qed.

Lemma disc_alloc w i p f m u :
  disc w → idle w i → frames w !! p = Some f → p ∉ allocd w →
  disc (mkW (frames w) (<[i := Got p m u]> (ops w)) ({[p]} ∪ allocd w)).
Proof.
  intros Hd Hi Hf Ha. destruct (disc_frames _ Hd p f Hf) as [[Hh [?|Hc]]|(? & ? & _ & _ & ?)]; [done| |done].
  rewrite <- (insert_id (frames w) p f Hf). apply (disc_upd w p f f i (Some (Got p m u))); [done|done| | |done|set_solver|].
  - intros y q Hy. destruct Hi as [_ Hi]. congruence.
  - intros y q [= <-] [= <-]. done.
  - right. exists i, (Got p m u). rewrite sel_set_op, Hh. cbn. rewrite decide_True by done. split; [done|]. set_solver.
Qed.

Lemma disc_claim w i p f m u :
  disc w → ops w !! i = Some (Got p m u) → frames w !! p = Some f → disc (upd w p (set_count f 0) i (Some (Write p m u))).
Proof.
  intros Hd Hi Hf. destruct (disc_held w i _ p f Hd Hi eq_refl Hf) as (Hh & _ & Ha).
  apply (disc_upd w p f _ i); [done|done| |by intros y q [= <-]|done|done|].
  - rewrite Hi. intros y q [= <-] [= <-]. done.
  - left. rewrite sel_set_op, Hh. cbn. rewrite decide_False by done. cbn. split; [by rewrite delete_singleton_eq|by left].
Qed.

Lemma disc_release w i p f k :
  disc w → ops w !! i = Some (Release p k) → frames w !! p = Some f → count f ≠ REF_COUNT_UNUSED →
  disc (upd w p (set_count f REF_COUNT_UNUSED) i (if k then Some (Dealloc p) else None)).
Proof.
  intros Hd Hi Hf Hc. destruct (disc_frames _ Hd p f Hf) as [[Hh [Ha|?]]|(? & ? & _ & ? & _)]; [|done..].
  apply (disc_upd w p f _ i); [done|done|by rewrite Hi; intros y q [= <-]| |by destruct k|done|].
  - destruct k; [|done]. intros y q [= <-] [= <-]. done.
  - rewrite sel_set_op, Hh. destruct k; cbn; [|left; split; [by rewrite delete_empty|by left]].
    rewrite decide_True by done. right. exists i, (Dealloc p). done.
Qed.

(** An address that is given back leaves the hands of its thread. *)
Lemma disc_dealloc w i p :
  disc w → ops w !! i = Some (Dealloc p) → disc (mkW (frames w) (delete i (ops w)) (allocd w ∖ {[p]})).
Proof.
  intros Hd Hi. assert (Hk : keeps_at p (ops w !! i)) by (rewrite Hi; intros y q [= <-] [= <-]; done).
  destruct (frames w !! p) as [f|] eqn:Hf.
  - destruct (disc_held w i _ p f Hd Hi eq_refl Hf) as (Hh & Hc & _). rewrite <- (insert_id (frames w) p f Hf).
    apply (disc_upd w p f f i None); [done|done|done|done|done|set_solver|]. left. rewrite sel_set_op, Hh. cbn.
    split; [by rewrite delete_singleton_eq|by right].
  - destruct Hd as [H1 H2]. split; cbn.
    + intros j [_ Hj]%lookup_delete_Some. by apply (H1 j).
    + intros q g Hg. assert (q ≠ p) by congruence. pose proof (keep_other (ops w) i None p q) as Hko. cbn in Hko. rewrite Hko by done.
      specialize (H2 q g Hg). unfold placed in *. set_solver.
Qed.

Lemma step_disc w w' : wild = false → inv w → loads w → disc w → step w w' → disc w'.
Proof.
  intros Hwild Hinv Hl Hd Hs. assert (Hidle : ∀ i, idle w i → ∀ y, ops w !! i = Some y → keeps y = None).
  { intros i [_ Hi] y Hy. congruence. }
  destruct Hs as [i p f m u Hi Hf Ha|i p f m u Hw Hi Hf Hc|i p f m u Hi Hf Hc|i p f m u Hi Hf Hc|i p f m u Hi Hf
    |i p f u Hi Hf|i p f Hi Hf H1 H2 H3|i p f l Hi Hf Hc|i p l Hi|i p f Hi Hf Hh|i p f n Hi Hf Hh|i p f k Hi Hf|i p f k Hi Hf
    |i p Hi|i p f k Hi Hf Ho|i p f m Hi Hf Ho|i p f m Hi Hf|i p f m Hi Hf Ho|i p f Hi Hf Ho|i p f n Hi Hf Hh Hc].
  - by eapply disc_alloc.
  - congruence.
  - by apply disc_claim.
  - destruct (disc_held w i _ p f Hd Hi eq_refl Hf) as (_ & ? & _). done.
  - eapply disc_quiet; [done|done|by rewrite Hi; intros ? [= <-]|by intros ? [= <-]|by eapply busy_count].
  - eapply disc_quiet; [done|done|by rewrite Hi; intros ? [= <-]|done|by eapply busy_count].
  - apply disc_go; [done|by apply Hidle|]. intros y [= <-]. by destruct (_ <=? _).
  - eapply disc_quiet; [done|done|by rewrite Hi; intros ? [= <-]|done|]. specialize (Hl i p l Hi). unfold REF_COUNT_MAX, REF_COUNT_UNUSED in *. lia.
  - apply disc_go; [done|by rewrite Hi; intros ? [= <-]|done].
  - pose proof (handle_count w p f Hinv Hf Hh). destruct (_ <=? _); (eapply disc_quiet; [done|done|by apply Hidle| |done]); by intros ? [= <-].
  - pose proof (handle_count w p f Hinv Hf ltac:(lia)). eapply disc_quiet; [done|done|by apply Hidle| |done]. intros y. destruct (_ =? _); by intros [= <-].
  - eapply disc_quiet; [done|done|by rewrite Hi; intros ? [= <-]|by intros ? [= <-]|by eapply busy_count].
  - apply disc_release; [done|done|done|by eapply busy_count].
  - by apply disc_dealloc.
  - pose proof (owned_count w p f Hinv Hf Ho). eapply disc_quiet; [done|done|by apply Hidle|by intros ? [= <-]|done].
  - pose proof (owned_count w p f Hinv Hf Ho). eapply disc_quiet; [done|done|by apply Hidle|by intros ? [= <-]|done].
  - destruct (frame_facts _ _ _ Hinv Hf) as (Hok & _ & Hsz).
    destruct (at_refit p f _ Hok Hsz i m (some_sel _ _ _ _ Hi eq_refl)) as (_ & Hc & _).
    eapply disc_quiet; [done|done|by rewrite Hi; intros ? [= <-]|done|by rewrite Hc].
  - pose proof (owned_count w p f Hinv Hf Ho). eapply disc_quiet; [done|done|by apply Hidle|done|done].
  - pose proof (owned_count w p f Hinv Hf Ho). eapply disc_quiet; [done|done|by apply Hidle|done|done].
  - eapply disc_quiet; [done|done|by apply Hidle|done|by rewrite Hc].
Qed.

(** ** Properties *)

Lemma refs_initial_inv w : initial w → inv w ∧ loads w ∧ disc w.
Proof.
  intros (Ho & Ha & Hf). split; [|split].
  - split; [intros i; rewrite Ho; by intros []|]. intros p f Hp. apply Hf in Hp as ->. split; [|done].
    apply ok_unused; try done. apply map_eq. intros i. rewrite Ho. done.
  - intros i p l Hi. by rewrite Ho in Hi.
  - split; [intros i; by rewrite Ho|]. intros p f Hp. apply Hf in Hp as ->. left. split; [|by right].
    apply map_eq. intros i. rewrite Ho. done.
Qed.

Lemma refs_reachable w0 w : initial w0 → rtc step w0 w → inv w ∧ loads w.
Proof.
  intros H0 Hr. apply (rtc_preserves step (λ w, inv w ∧ loads w) w0 w); [by destruct (refs_initial_inv w0 H0) as (? & ? & _)| |done].
  intros x y [Hx Hl] Hs. split; [by eapply refs_step_inv|by eapply step_loads].
Qed.

(** The thread is building, destroying or refitting the metadata of the frame. *)
Definition touches (x : Op) : option Z :=
  match x with Write p _ _ | Publish p _ | DropMeta p _ | Release p _ | Refit p _ => Some p | _ => None end.

Definition aborted (p : Z) (x : Op) : bool := match x with Abort (Some q) => q =? p | _ => false end.

(** How many threads have stopped after they counted a reference of the frame *)
Definition stopped (w : World) (p : Z) : nat := size (filter (λ x, aborted p x.2 = true) (ops w)).

Lemma stopped_eq w p f : shared p f (sel about (ops w) p) → stopped w p = size (sel about (ops w) p).
Proof.
  intros (_ & _ & _ & _ & _ & Ha). unfold stopped. f_equal. apply map_eq. intros i. apply option_eq. intros x.
  rewrite sel_lookup, map_lookup_filter_Some. cbn. split.
  - intros [Hi Hx]. split; [done|]. destruct x as [| | | |[q|]| | | | |]; try done. cbn in Hx. apply Z.eqb_eq in Hx as ->. done.
  - intros [Hi Hx]. split; [done|]. rewrite (Ha i x) by (by apply sel_lookup). cbn. apply Z.eqb_refl.
Qed.

Lemma touches_about x p : touches x = Some p → about x = Some p ∧ ((∃ b, stage x = Some b) ∨ ∃ m, x = Refit p m).
Proof. destruct x; cbn; intros [= <-]; (split; [done|]); eauto. Qed.

Lemma touched_alone w i x p f :
  inv w → ops w !! i = Some x → touches x = Some p → frames w !! p = Some f →
  sel about (ops w) p = {[i := x]} ∧ handles f = 0%nat ∧ owned f = false.
Proof.
  intros Hinv Hi Hx Hf. destruct (frame_facts _ _ _ Hinv Hf) as (Hok & _ & Hsz).
  destruct (touches_about x p Hx) as [Ha [[b Hb]|[m ->]]]; pose proof (some_sel _ _ _ _ Hi Ha) as Hsel.
  - by destruct (at_stage p f _ Hok Hsz i x b Hsel Hb) as (? & _ & ? & ? & _).
  - by destruct (at_refit p f _ Hok Hsz i m Hsel) as (? & _ & ? & ? & _).
Qed.

(** [C6] Reference counts protect the metadata of frames. Whatever threads do to any frames, and
    even when [from_unused] is called on addresses that the allocator has not handed out:
    the count of a frame with a handle is the number of handles, with the threads that
    have stopped in [clone], never one of the special values, and the metadata is there;
    a [UniqueFrame] is the only handle; while a thread builds, drops or replaces the
    metadata there is no handle and no other thread does so; an unused frame has neither
    handles nor metadata; and each time metadata is written it is dropped once, unless it
    is still there. *)
Theorem frame_refs_safe w0 w p f :
  initial w0 → rtc step w0 w → frames w !! p = Some f →
  ((0 < handles f)%nat → count f = Z.of_nat (handles f) + Z.of_nat (stopped w p) ∧ 1 ≤ count f < REF_COUNT_UNIQUE ∧
     present (data f) = true ∧ owned f = false) ∧
  (owned f = true → handles f = 0%nat ∧ present (data f) = true ∧ count f = REF_COUNT_UNIQUE) ∧
  (∀ i x, ops w !! i = Some x → touches x = Some p →
     handles f = 0%nat ∧ owned f = false ∧ ∀ j y, ops w !! j = Some y → touches y = Some p → j = i) ∧
  (count f = REF_COUNT_UNUSED → handles f = 0%nat ∧ owned f = false ∧ data f = None) ∧
  written f = (dropped f + if present (data f) then 1 else 0)%nat.
Proof.
  intros H0 Hr Hf. destruct (refs_reachable w0 w H0 Hr) as [Hinv _]. destruct (frame_facts _ _ _ Hinv Hf) as (Hok & Hb & Hsz).
  split; [|split; [|split; [|split]]].
  - intros Hh. pose proof (at_handle p f _ Hok Hsz Hh) as Hsh. rewrite (stopped_eq _ _ _ Hsh).
    destruct Hsh as (S1 & S2 & _ & S4 & S5 & _). split_and!; try done; unfold REF_COUNT_MAX, REF_COUNT_UNIQUE in *; lia.
  - intros Ho. by destruct (at_owned p f _ Hok Ho) as (? & ? & ? & _).
  - intros i x Hi Hx. destruct (touched_alone w i x p f Hinv Hi Hx Hf) as (Hs & H1 & H2). split_and!; [done|done|].
    intros j y Hj Hy. destruct (touches_about y p Hy) as [Ha _]. pose proof (some_sel _ _ _ _ Hj Ha) as Hsel.
    rewrite Hs in Hsel. by apply lookup_singleton_Some in Hsel as [-> _].
  - intros Hc. by destruct (at_unused p f _ Hok Hsz Hc) as (? & ? & ? & _).
  - done.
Qed.

Lemma disc_reachable w0 w : wild = false → initial w0 → rtc step w0 w → inv w ∧ disc w.
Proof.
  intros Hw H0 Hr. cut ((inv w ∧ loads w) ∧ disc w); [tauto|].
  apply (rtc_preserves step (λ w, (inv w ∧ loads w) ∧ disc w) w0 w); [by destruct (refs_initial_inv w0 H0) as (? & ? & ?)| |done].
  intros x y [[Hx Hl] Hd] Hs. split; [split; [by eapply refs_step_inv|by eapply step_loads]|by eapply step_disc].
Qed.

(** [C22] Frames and the allocator agree. When frames are made only from addresses that the
    allocator has handed to the caller, [alloc_frame] never panics: [from_unused] finds the
    frame unused; an address whose frame has a handle is with no one else and not with the
    allocator; and an address on its way back is unused, has been handed out, and is on
    its way back once, so that the allocator never gets an address that is in use or that
    it already has. *)
Theorem frame_addresses_exclusive w0 w :
  wild = false → initial w0 → rtc step w0 w →
  (∀ i, ops w !! i ≠ Some Panicked) ∧
  (∀ p f, frames w !! p = Some f → (0 < handles f)%nat ∨ owned f = true →
     p ∈ allocd w ∧ ∀ i x, ops w !! i = Some x → keeps x ≠ Some p) ∧
  (∀ i x p f, ops w !! i = Some x → keeps x = Some p → frames w !! p = Some f →
     count f = REF_COUNT_UNUSED ∧ p ∈ allocd w ∧ ∀ j y, ops w !! j = Some y → keeps y = Some p → j = i).
Proof.
  intros Hw H0 Hr. destruct (disc_reachable w0 w Hw H0 Hr) as [Hinv Hd]. split; [apply (disc_ok _ Hd)|split].
  - intros p f Hf Huse. assert (Hc : count f ≠ REF_COUNT_UNUSED) by (destruct Huse; [by eapply handle_count|by eapply owned_count]).
    destruct (disc_frames _ Hd p f Hf) as [[He [Ha|?]]|(? & ? & _ & ? & _)]; [|done..]. split; [done|].
    intros i x Hi Hx. assert (Hs : sel keeps (ops w) p !! i = Some x) by (by apply sel_lookup). rewrite He in Hs. done.
  - intros i x p f Hi Hx Hf. destruct (disc_held w i x p f Hd Hi Hx Hf) as (Hs & Hc & Ha). split_and!; [done|done|].
    intros j y Hj Hy. assert (Hsj : sel keeps (ops w) p !! j = Some y) by (by apply sel_lookup).
    rewrite Hs in Hsj. by apply lookup_singleton_Some in Hsj as [-> _].
Qed.

End Machine.
Arguments Fr : clear implicits.
Arguments Op : clear implicits.
Arguments World : clear implicits.

(** ** Runs *)

Definition one_frame : World Z := mkW {[4096 := mkFr (mkSlot REF_COUNT_UNUSED None) 0 false 0 0]} ∅ ∅.

Lemma one_frame_initial : initial one_frame.
Proof. split; [done|]. split; [done|]. intros p f Hp. unfold one_frame in Hp. cbn [frames] in Hp. apply lookup_singleton_Some in Hp as [_ <-]. done. Qed.

Ltac side :=
  lazymatch goal with
  | |- idle _ _ _ => split; [lia|vm_compute; reflexivity]
  | |- _ ∉ _ => apply (bool_decide_unpack _); vm_compute; reflexivity
  | |- (_ < _)%nat => vm_compute; lia
  | |- _ => vm_compute; reflexivity
  end.
Tactic Notation "walk" uconstr(c) :=
  eapply rtc_l; [eapply c; side|];
  match goal with |- rtc ?R ?w ?v => let w' := eval vm_compute in w in change (rtc R w' v) end.
Ltac arrive := match goal with |- rtc ?R ?w ?v => let v' := eval vm_compute in v in change (rtc R w v') end; apply rtc_refl.

(** A frame that was allocated and cloned *)
Definition two_handles : World Z := mkW {[4096 := mkFr (mkSlot 2 (Some 5)) 2 false 1 0]} ∅ {[4096]}.

Lemma two_handles_reached wild : rtc (step 4 wild) one_frame two_handles.
Proof.
  walk (r_alloc _ _ _ 0%nat 4096 _ 5 false). walk (r_claim _ _ _ 0%nat 4096). walk (r_write _ _ _ 0%nat 4096).
  walk (r_publish _ _ _ 0%nat 4096). walk (r_clone _ _ _ 1%nat 4096). arrive.
Qed.

(** The same frame when both handles are gone and its address is on the way back *)
Definition going_back : World Z :=
  mkW {[4096 := mkFr (mkSlot REF_COUNT_UNUSED None) 0 false 1 1]} {[2%nat := Dealloc 4096]} {[4096]}.

Lemma going_back_reached wild : rtc (step 4 wild) one_frame going_back.
Proof.
  etransitivity; [apply two_handles_reached|]. unfold two_handles.
  walk (r_drop _ _ _ 0%nat 4096). walk (r_drop _ _ _ 2%nat 4096). walk (r_drop_meta _ _ _ 2%nat 4096). walk (r_release _ _ _ 2%nat 4096).
  arrive.
Qed.

Lemma frame_refs_safe_witness :
  stopped two_handles 4096 = 0%nat ∧ 1 ≤ 2 < REF_COUNT_UNIQUE.
Proof.
  split; [vm_compute; reflexivity|].
  destruct (frame_refs_safe 4 true ltac:(vm_compute; discriminate) one_frame two_handles 4096 (mkFr (mkSlot 2 (Some 5)) 2 false 1 0)
    one_frame_initial (two_handles_reached true) ltac:(vm_compute; reflexivity)) as [H _].
  destruct (H ltac:(cbn; lia)) as (_ & H' & _). exact H'.
Defined.

Lemma frame_addresses_exclusive_witness :
  ops going_back !! 2%nat = Some (Dealloc 4096) ∧ 4096 ∈ allocd going_back ∧
  ∀ j y, ops going_back !! j = Some y → keeps y = Some 4096 → j = 2%nat.
Proof.
  destruct (frame_addresses_exclusive 4 false ltac:(vm_compute; discriminate) one_frame going_back
    eq_refl one_frame_initial (going_back_reached false)) as (_ & _ & H).
  split; [vm_compute; reflexivity|].
  exact (proj2 (H 2%nat (Dealloc 4096) 4096 _ ltac:(vm_compute; reflexivity) ltac:(vm_compute; reflexivity) ltac:(vm_compute; reflexivity))).
Defined.

End FrameRefs.
