(* ===== verification/LinkedList.v ===== *)
(** * Linked lists of frames

    [osxtd/src/mm/frame/linked_list.rs]: doubly linked lists whose links are in the metadata of
    the frames they own, with cursors, and the test whether a frame is in a list. A pointer
    to a link is the address of its slot, as in [FrameMeta]. *)

From S2P Require Import Prelude Align BootMemory FrameMeta.
Local Open Scope Z_scope.

Module LinkedList.
Import Align BootMemory FrameMeta.

Section Lists.
Context {M : Type}.

Record Link : Type := mkLink { next : option Z; prev : option Z; lmeta : M }.

(** The frames with links as metadata, the field [in_list] of all slots, which starts as 0,
    and [LIST_ID_ALLOCATOR] *)
Record Heap : Type := mkHeap { links : gmap Z Link; in_list : gmap Z Z; max_paddr : Z; id_allocator : Z }.

Record LinkedList : Type := mkList { front : option Z; back : option Z; size : Z; list_id : Z }.

(** A [CursorMut] holds its list. *)
Record CursorMut : Type := mkCursor { clist : LinkedList; current : option Z }.

Definition new : LinkedList := mkList None None 0 0.
Definition is_empty (l : LinkedList) : bool := size l =? 0.

(** ** Fields through pointers *)

Definition set_link (h : Heap) (p : Z) (l : Link) : Heap := mkHeap (<[p := l]> (links h)) (in_list h) (max_paddr h) (id_allocator h).
Definition set_next (h : Heap) (p : Z) (x : option Z) : outcome Heap :=
  unwrap (links h !! p) ≫= λ l, Done (set_link h p (mkLink x (prev l) (lmeta l))).
Definition set_prev (h : Heap) (p : Z) (x : option Z) : outcome Heap :=
  unwrap (links h !! p) ≫= λ l, Done (set_link h p (mkLink (next l) x (lmeta l))).
Definition set_in_list (h : Heap) (p n : Z) : Heap := mkHeap (links h) (<[p := n]> (in_list h)) (max_paddr h) (id_allocator h).
Definition get_in_list (h : Heap) (p : Z) : Z := default 0 (in_list h !! p).

Definition set_front (l : LinkedList) (x : option Z) : LinkedList := mkList x (back l) (size l) (list_id l).
Definition set_back (l : LinkedList) (x : option Z) : LinkedList := mkList (front l) x (size l) (list_id l).
Definition set_size (l : LinkedList) (n : Z) : LinkedList := mkList (front l) (back l) n (list_id l).

Definition get_slot (h : Heap) (paddr : Z) : option Z :=
  if negb (paddr mod PAGE_SIZE =? 0) then None
  else if max_paddr h <=? paddr then None
  else Some (frame_to_meta paddr).

(** ** Ids *)

Definition MAX_LIST_ID : Z := 2 ^ 63 - 1.

Definition lazy_get_id (h : Heap) (l : LinkedList) : outcome (Z * Heap * LinkedList) :=
  if list_id l =? 0 then
    let id := id_allocator h in
    let h := mkHeap (links h) (in_list h) (max_paddr h) (wrapping_add 64 id 1) in
    if MAX_LIST_ID <=? id then Panic else Done (id, h, mkList (front l) (back l) (size l) id)
  else Done (list_id l, h, l).

(** ** Cursors *)

Definition cursor_front_mut (l : LinkedList) : CursorMut := mkCursor l (front l).
Definition cursor_back_mut (l : LinkedList) : CursorMut := mkCursor l (back l).
Definition cursor_at_ghost_mut (l : LinkedList) : CursorMut := mkCursor l None.

Definition contains (h : Heap) (l : LinkedList) (frame : Z) : outcome (bool * Heap * LinkedList) :=
  match get_slot h frame with
  | None => Done (false, h, l)
  | Some slot => lazy_get_id h l ≫= λ '(id, h', l), Done (get_in_list h slot =? id, h', l)
  end.

Definition cursor_mut_at (h : Heap) (l : LinkedList) (frame : Z) : outcome (option CursorMut * Heap * LinkedList) :=
  match get_slot h frame with
  | None => Done (None, h, l)
  | Some slot =>
      lazy_get_id h l ≫= λ '(id, h', l),
      Done (if get_in_list h slot =? id then Some (mkCursor l (Some slot)) else None, h', l)
  end.

Definition move_next (h : Heap) (c : CursorMut) : outcome CursorMut :=
  match current c with
  | Some p => unwrap (links h !! p) ≫= λ l, Done (mkCursor (clist c) (next l))
  | None => Done (mkCursor (clist c) (front (clist c)))
  end.

Definition move_prev (h : Heap) (c : CursorMut) : outcome CursorMut :=
  match current c with
  | Some p => unwrap (links h !! p) ≫= λ l, Done (mkCursor (clist c) (prev l))
  | None => Done (mkCursor (clist c) (back (clist c)))
  end.

Definition current_meta (h : Heap) (c : CursorMut) : outcome (option M) :=
  match current c with
  | Some p => unwrap (links h !! p) ≫= λ l, Done (Some (lmeta l))
  | None => Done None
  end.

Definition take_current (h : Heap) (c : CursorMut) : outcome (option Z * Heap * CursorMut) :=
  match current c with
  | None => Done (None, h, c)
  | Some cur =>
      let frame := frame_to_meta (meta_to_frame cur) in
      unwrap (links h !! frame) ≫= λ l,
      let next_ptr := next l in
      (match prev l with
       | Some pv => set_next h pv next_ptr ≫= λ h, Done (h, clist c)
       | None => Done (h, set_front (clist c) next_ptr)
       end) ≫= λ '(h, li),
      unwrap (links h !! frame) ≫= λ l,
      let prev_ptr := prev l in
      (match next l with
       | Some nx => set_prev h nx prev_ptr ≫= λ h, Done (h, mkCursor li (Some nx))
       | None => Done (h, mkCursor (set_back li prev_ptr) None)
       end) ≫= λ '(h, c),
      set_next h frame None ≫= λ h,
      set_prev h frame None ≫= λ h,
      let h := set_in_list h frame 0 in
      unwrap (checked_sub (size (clist c)) 1) ≫= λ n,
      Done (Some frame, h, mkCursor (set_size (clist c) n) (current c))
  end.

Definition insert_before (h : Heap) (c : CursorMut) (frame_ptr : Z) : outcome (Heap * CursorMut) :=
  (match current c with
   | Some cur =>
       unwrap (links h !! cur) ≫= λ current_mut,
       match prev current_mut with
       | Some pv =>
           set_next h pv (Some frame_ptr) ≫= λ h,
           set_prev h frame_ptr (Some pv) ≫= λ h,
           set_next h frame_ptr (Some cur) ≫= λ h,
           set_prev h cur (Some frame_ptr) ≫= λ h,
           Done (h, clist c)
       | None =>
           set_next h frame_ptr (Some cur) ≫= λ h,
           set_prev h cur (Some frame_ptr) ≫= λ h,
           Done (h, set_front (clist c) (Some frame_ptr))
       end
   | None =>
       match back (clist c) with
       | Some bk =>
           set_next h bk (Some frame_ptr) ≫= λ h,
           set_prev h frame_ptr (Some bk) ≫= λ h,
           Done (h, set_back (clist c) (Some frame_ptr))
       | None => Done (h, set_back (set_front (clist c) (Some frame_ptr)) (Some frame_ptr))
       end
   end) ≫= λ '(h, li),
  lazy_get_id h li ≫= λ '(id, h, li),
  let h := set_in_list h frame_ptr id in
  unwrap (checked_add 64 (size li) 1) ≫= λ n,
  Done (h, mkCursor (set_size li n) (current c)).

(** ** Operations of a list *)

Definition push_front (h : Heap) (l : LinkedList) (frame : Z) : outcome (Heap * LinkedList) :=
  insert_before h (cursor_front_mut l) frame ≫= λ '(h, c), Done (h, clist c).
Definition pop_front (h : Heap) (l : LinkedList) : outcome (option Z * Heap * LinkedList) :=
  take_current h (cursor_front_mut l) ≫= λ '(o, h, c), Done (o, h, clist c).
Definition push_back (h : Heap) (l : LinkedList) (frame : Z) : outcome (Heap * LinkedList) :=
  insert_before h (cursor_at_ghost_mut l) frame ≫= λ '(h, c), Done (h, clist c).
Definition pop_back (h : Heap) (l : LinkedList) : outcome (option Z * Heap * LinkedList) :=
  take_current h (cursor_back_mut l) ≫= λ '(o, h, c), Done (o, h, clist c).

(** [drop]: the frames it drops, in order. The loop takes one frame per round, so the size of
    the list and one more is enough. *)
Fixpoint drop_loop (fuel : nat) (h : Heap) (c : CursorMut) : outcome (list Z * Heap) :=
  match fuel with
  | O => Panic
  | S fuel =>
      take_current h c ≫= λ '(o, h, c),
      match o with
      | None => Done ([], h)
      | Some p => drop_loop fuel h c ≫= λ '(ps, h), Done (p :: ps, h)
      end
  end.

Definition list_drop (h : Heap) (l : LinkedList) : outcome (list Z * Heap) :=
  drop_loop (S (Z.to_nat (size l))) h (cursor_front_mut l).

(** ** Chains of links *)

Definition hd (xs : list Z) (nx : option Z) : option Z := match xs with [] => nx | x :: _ => Some x end.
Fixpoint lst (pv : option Z) (xs : list Z) : option Z := match xs with [] => pv | x :: xs => lst (Some x) xs end.

(** The links of [xs] form a chain from [pv] to [nx]. *)
Fixpoint linked (lk : gmap Z Link) (pv : option Z) (xs : list Z) (nx : option Z) : Prop :=
  match xs with
  | [] => True
  | x :: xs => (∃ m, lk !! x = Some (mkLink (hd xs nx) pv m)) ∧ linked lk (Some x) xs nx
  end.

Definition with_next (x : option Z) (l : Link) : Link := mkLink x (prev l) (lmeta l).
Definition with_prev (x : option Z) (l : Link) : Link := mkLink (next l) x (lmeta l).

Lemma hd_app xs ys nx : hd (xs ++ ys) nx = hd xs (hd ys nx).
Proof. by destruct xs. Qed.
Lemma lst_app pv xs ys : lst pv (xs ++ ys) = lst (lst pv xs) ys.
Proof. revert pv. induction xs as [|x xs IH]; intros pv; [done|]. apply IH. Qed.
Lemma lst_snoc pv xs x : lst pv (xs ++ [x]) = Some x.
Proof. by rewrite lst_app. Qed.

Lemma linked_app lk pv xs ys nx :
  linked lk pv (xs ++ ys) nx ↔ linked lk pv xs (hd ys nx) ∧ linked lk (lst pv xs) ys nx.
Proof.
  revert pv. induction xs as [|x xs IH]; intros pv; cbn; [tauto|]. rewrite IH, hd_app. tauto.
Qed.

Lemma links_frame lk lk' pv xs nx :
  (∀ x, x ∈ xs → lk' !! x = lk !! x) → linked lk pv xs nx → linked lk' pv xs nx.
Proof.
  revert pv. induction xs as [|x xs IH]; intros pv Hf; [done|]. cbn. intros [[m Hm] Hl]. split.
  - exists m. rewrite Hf; [done|set_solver].
  - apply IH; [|done]. set_solver.
Qed.

Lemma linked_lookup lk pv xs nx x : linked lk pv xs nx → x ∈ xs → is_Some (lk !! x).
Proof.
  revert pv. induction xs as [|y xs IH]; intros pv; [set_solver|]. cbn. intros [[m Hm] Hl] [->|Hx]%elem_of_cons; eauto.
Qed.

(** Changing the end of a chain *)
Lemma linked_next lk pv xs y nx nx' :
  y ∉ xs → linked lk pv (xs ++ [y]) nx → linked (alter (with_next nx') y lk) pv (xs ++ [y]) nx'.
Proof.
  intros Hy. rewrite !linked_app. cbn. intros [Hl [[m Hm] _]]. split.
  - eapply links_frame; [|exact Hl]. intros x Hx. apply lookup_alter_ne. set_solver.
  - split; [|done]. exists m. by rewrite lookup_alter_eq, Hm.
Qed.

Lemma linked_prev lk pv y ys nx pv' :
  y ∉ ys → linked lk pv (y :: ys) nx → linked (alter (with_prev pv') y lk) pv' (y :: ys) nx.
Proof.
  intros Hy. cbn. intros [[m Hm] Hl]. split.
  - exists m. by rewrite lookup_alter_eq, Hm.
  - eapply links_frame; [|exact Hl]. intros x Hx. apply lookup_alter_ne. set_solver.
Qed.

(** The last link of [xs] now points to [nx], the first of [ys] to [pv] *)
Definition fix_next (lk : gmap Z Link) (xs : list Z) (nx : option Z) : gmap Z Link :=
  match lst None xs with Some y => alter (with_next nx) y lk | None => lk end.
Definition fix_prev (lk : gmap Z Link) (ys : list Z) (pv : option Z) : gmap Z Link :=
  match ys with y :: _ => alter (with_prev pv) y lk | [] => lk end.

Lemma lst_elem xs y : lst None xs = Some y → y ∈ xs.
Proof. destruct xs as [|x xs _] using rev_ind; [done|]. rewrite lst_snoc. intros [= ->]. set_solver. Qed.

Lemma fix_next_ne lk xs nx x : x ∉ xs → fix_next lk xs nx !! x = lk !! x.
Proof.
  intros Hx. unfold fix_next. destruct (lst None xs) as [y|] eqn:E; [|done]. apply lookup_alter_ne. apply lst_elem in E. set_solver.
Qed.
Lemma fix_prev_ne lk ys pv x : x ∉ ys → fix_prev lk ys pv !! x = lk !! x.
Proof. intros Hx. destruct ys as [|y ys]; [done|]. apply lookup_alter_ne. set_solver. Qed.

Lemma fix_next_linked lk xs nx nx' : NoDup xs → linked lk None xs nx → linked (fix_next lk xs nx') None xs nx'.
Proof.
  intros Hn. unfold fix_next. destruct xs as [|y xs _] using rev_ind; [done|]. rewrite lst_snoc. apply linked_next.
  apply NoDup_app in Hn as (_ & Hd & _). intros Hy. apply (Hd y Hy). set_solver.
Qed.
Lemma fix_prev_linked lk ys pv pv' nx : NoDup ys → linked lk pv ys nx → linked (fix_prev lk ys pv') pv' ys nx.
Proof. destruct ys as [|y ys]; [done|]. intros [Hy _]%NoDup_cons. by apply linked_prev. Qed.

(** What stays of the metadata *)
Definition metas (lk : gmap Z Link) : gmap Z M := lmeta <$> lk.

Lemma metas_alter f lk x : (∀ l, lmeta (f l) = lmeta l) → metas (alter f x lk) = metas lk.
Proof.
  intros Hf. apply map_eq. intros i. unfold metas. rewrite !lookup_fmap. destruct (decide (i = x)) as [->|Hne].
  - rewrite lookup_alter_eq. destruct (lk !! x); cbn; [by rewrite Hf|done].
  - by rewrite lookup_alter_ne by done.
Qed.
Lemma metas_fix_next lk xs nx : metas (fix_next lk xs nx) = metas lk.
Proof. unfold fix_next. destruct (lst None xs); [by apply metas_alter|done]. Qed.
Lemma metas_fix_prev lk ys pv : metas (fix_prev lk ys pv) = metas lk.
Proof. destruct ys; [done|]. by apply metas_alter. Qed.

(** ** The operations on chains *)

Definition with_links (h : Heap) (lk : gmap Z Link) : Heap := mkHeap lk (in_list h) (max_paddr h) (id_allocator h).

Lemma set_next_eq h p x : is_Some (links h !! p) → set_next h p x = Done (with_links h (alter (with_next x) p (links h))).
Proof.
  intros [l Hl]. unfold set_next. rewrite Hl. cbn. unfold set_link, with_links. do 2 f_equal. apply map_eq. intros i.
  destruct (decide (i = p)) as [->|Hne]; [by rewrite lookup_insert_eq, lookup_alter_eq, Hl|by rewrite lookup_insert_ne, lookup_alter_ne].
Qed.
Lemma set_prev_eq h p x : is_Some (links h !! p) → set_prev h p x = Done (with_links h (alter (with_prev x) p (links h))).
Proof.
  intros [l Hl]. unfold set_prev. rewrite Hl. cbn. unfold set_link, with_links. do 2 f_equal. apply map_eq. intros i.
  destruct (decide (i = p)) as [->|Hne]; [by rewrite lookup_insert_eq, lookup_alter_eq, Hl|by rewrite lookup_insert_ne, lookup_alter_ne].
Qed.

(** The address of a slot *)
Definition is_ptr (h : Heap) (p : Z) : Prop := ∃ a, (PAGE_SIZE | a) ∧ 0 ≤ a < max_paddr h ∧ p = frame_to_meta a.

Lemma ptr_roundtrip h p : is_ptr h p → frame_to_meta (meta_to_frame p) = p.
Proof. intros (a & Ha & _ & ->). by rewrite meta_to_frame_to_meta. Qed.

(** [L] is the list of the frames [xs]. *)
Record rep (h : Heap) (L : LinkedList) (xs : list Z) : Prop := mkRep {
  rep_links : linked (links h) None xs None;
  rep_nodup : NoDup xs;
  rep_front : front L = hd xs None;
  rep_back : back L = lst None xs;
  rep_size : size L = Z.of_nat (length xs);
  rep_id : xs ≠ [] → list_id L ≠ 0;
  rep_in : ∀ x, x ∈ xs → get_in_list h x = list_id L;
  rep_ptr : ∀ x, x ∈ xs → is_ptr h x;
}.

Lemma lst_none xs : lst None xs = None → xs = [].
Proof. destruct xs as [|x xs _] using rev_ind; [done|]. by rewrite lst_snoc. Qed.

Lemma NoDup_mid (l1 l2 : list Z) x : NoDup (l1 ++ x :: l2) →
  NoDup l1 ∧ NoDup l2 ∧ (x ∉ l1) ∧ (x ∉ l2) ∧ (∀ y, y ∈ l1 → y ∉ l2) ∧ NoDup (l1 ++ l2).
Proof.
  intros (H1 & H2 & [H3 H4]%NoDup_cons)%NoDup_app. split_and!; try done; try (intros Hx; apply (H2 x Hx); set_solver).
  - intros y Hy Hy2. apply (H2 y Hy). set_solver.
  - apply NoDup_app. split_and!; [done| |done]. intros y Hy Hy2. apply (H2 y Hy). set_solver.
Qed.

Lemma links_mid lk l1 x l2 : linked lk None (l1 ++ x :: l2) None →
  linked lk None l1 (Some x) ∧ (∃ m, lk !! x = Some (mkLink (hd l2 None) (lst None l1) m)) ∧ linked lk (Some x) l2 None.
Proof. rewrite linked_app. cbn. tauto. Qed.

(** Taking [x] out of the chain *)
Definition unlink (lk : gmap Z Link) (l1 : list Z) (x : Z) (l2 : list Z) : gmap Z Link :=
  alter (with_prev None) x (alter (with_next None) x (fix_prev (fix_next lk l1 (hd l2 None)) l2 (lst None l1))).

Lemma unlink_exact lk l1 x l2 :
  NoDup (l1 ++ x :: l2) → linked lk None (l1 ++ x :: l2) None →
  linked (unlink lk l1 x l2) None (l1 ++ l2) None ∧
  (∃ m, unlink lk l1 x l2 !! x = Some (mkLink None None m)) ∧
  (∀ p, p ∉ l1 ++ x :: l2 → unlink lk l1 x l2 !! p = lk !! p) ∧ metas (unlink lk l1 x l2) = metas lk.
Proof.
  intros Hn Hl. destruct (NoDup_mid _ _ _ Hn) as (N1 & N2 & X1 & X2 & N12 & _).
  destruct (links_mid _ _ _ _ Hl) as (L1 & [m Hm] & L2). unfold unlink. set (lk1 := fix_next lk l1 (hd l2 None)). set (lk2 := fix_prev lk1 l2 _).
  split_and!.
  - apply linked_app. split.
    + eapply (links_frame lk1); [|by eapply fix_next_linked]. intros y Hy. rewrite !lookup_alter_ne by set_solver.
      apply fix_prev_ne. by apply N12.
    + eapply (links_frame lk2); [intros y Hy; by rewrite !lookup_alter_ne by set_solver|].
      eapply fix_prev_linked; [done|]. eapply (links_frame lk); [|exact L2]. intros y Hy. apply fix_next_ne. intros Hy1. by apply (N12 y).
  - exists m. rewrite !lookup_alter_eq. unfold lk2, lk1. by rewrite fix_prev_ne, fix_next_ne, Hm.
  - intros p Hp. rewrite !lookup_alter_ne by set_solver. unfold lk2, lk1. rewrite fix_prev_ne, fix_next_ne; set_solver.
  - rewrite !metas_alter by done. unfold lk2, lk1. by rewrite metas_fix_prev, metas_fix_next.
Qed.

(** Putting [p] into the chain *)
Definition relink (lk : gmap Z Link) (l1 : list Z) (p : Z) (l2 : list Z) : gmap Z Link :=
  fix_prev (alter (with_next (hd l2 None)) p (alter (with_prev (lst None l1)) p (fix_next lk l1 (Some p)))) l2 (Some p).

Lemma relink_exact lk l1 p l2 m :
  NoDup (l1 ++ p :: l2) → linked lk None (l1 ++ l2) None → lk !! p = Some (mkLink None None m) →
  linked (relink lk l1 p l2) None (l1 ++ p :: l2) None ∧
  (∀ q, q ∉ l1 ++ p :: l2 → relink lk l1 p l2 !! q = lk !! q) ∧ metas (relink lk l1 p l2) = metas lk.
Proof.
  intros Hn [L1 L2]%linked_app Hp. destruct (NoDup_mid _ _ _ Hn) as (N1 & N2 & X1 & X2 & N12 & _).
  unfold relink. set (lk1 := fix_next lk l1 (Some p)). set (lk2 := alter _ p _). split_and!.
  - apply linked_app. cbn. split; [|split].
    + eapply (links_frame lk1); [|by eapply fix_next_linked]. intros y Hy. rewrite fix_prev_ne by (by apply N12).
      unfold lk2. by rewrite !lookup_alter_ne by set_solver.
    + exists m. rewrite fix_prev_ne by done. unfold lk2, lk1. by rewrite !lookup_alter_eq, fix_next_ne, Hp.
    + eapply fix_prev_linked; [done|]. eapply (links_frame lk); [|exact L2]. intros y Hy. unfold lk2.
      rewrite !lookup_alter_ne by set_solver. apply fix_next_ne. intros Hy1. by apply (N12 y).
  - intros q Hq. rewrite fix_prev_ne by set_solver. unfold lk2, lk1. rewrite !lookup_alter_ne, fix_next_ne; set_solver.
  - rewrite metas_fix_prev. unfold lk2, lk1. rewrite !metas_alter by done. apply metas_fix_next.
Qed.

(** *** Taking the current frame *)

Lemma take_exact h L l1 x l2 :
  rep h L (l1 ++ x :: l2) →
  take_current h (mkCursor L (Some x)) =
  Done (Some x, mkHeap (unlink (links h) l1 x l2) (<[x := 0]> (in_list h)) (max_paddr h) (id_allocator h),
        mkCursor (mkList (hd (l1 ++ l2) None) (lst None (l1 ++ l2)) (Z.of_nat (length (l1 ++ l2))) (list_id L)) (hd l2 None)).
Proof.
  intros [Hl Hn Hfr Hbk Hsz _ _ Hptr]. destruct (NoDup_mid _ _ _ Hn) as (N1 & N2 & X1 & X2 & N12 & _).
  destruct (links_mid _ _ _ _ Hl) as (L1 & [m Hm] & L2). unfold take_current. cbn [current clist].
  rewrite (ptr_roundtrip h x) by (apply Hptr; set_solver). rewrite Hm. cbn [unwrap mbind outcome_bind next prev].
  set (lk1 := fix_next (links h) l1 (hd l2 None)).
  assert (E1 : match lst None l1 with
       | Some pv => set_next h pv (hd l2 None) ≫= λ h, Done (h, L)
       | None => Done (h, set_front L (hd l2 None))
       end = Done (with_links h lk1, match l1 with [] => set_front L (hd l2 None) | _ => L end)).
  { unfold lk1, fix_next. destruct (lst None l1) as [pv|] eqn:E.
    - rewrite set_next_eq; [by destruct l1|]. eapply linked_lookup; [exact L1|by apply lst_elem].
    - apply lst_none in E as ->. by destruct h. }
  rewrite E1. cbn [mbind outcome_bind links with_links].
  assert (Hm1 : lk1 !! x = Some (mkLink (hd l2 None) (lst None l1) m)) by (unfold lk1; by rewrite fix_next_ne).
  rewrite Hm1. cbn [unwrap mbind outcome_bind next prev]. set (li := match l1 with [] => _ | _ => _ end).
  set (lk2 := fix_prev lk1 l2 (lst None l1)).
  assert (E2 : match hd l2 None with
       | Some nx => set_prev (with_links h lk1) nx (lst None l1) ≫= λ h, Done (h, mkCursor li (Some nx))
       | None => Done (with_links h lk1, mkCursor (set_back li (lst None l1)) None)
       end = Done (with_links h lk2, mkCursor (match l2 with [] => set_back li (lst None l1) | _ => li end) (hd l2 None))).
  { unfold lk2. destruct l2 as [|y l2]; [done|]. cbn [hd fix_prev]. rewrite set_prev_eq; [done|]. cbn. unfold lk1.
    rewrite fix_next_ne; [|intros Hy; apply (N12 y Hy); set_solver]. eapply linked_lookup; [exact L2|set_solver]. }
  rewrite E2. cbn [mbind outcome_bind].
  assert (Hm2 : lk2 !! x = Some (mkLink (hd l2 None) (lst None l1) m)) by (unfold lk2; by rewrite fix_prev_ne).
  rewrite set_next_eq by (cbn; rewrite Hm2; eauto). cbn [mbind outcome_bind].
  rewrite set_prev_eq by (cbn; rewrite lookup_alter_eq, Hm2; eauto). cbn [mbind outcome_bind clist current].
  assert (Hs : size (match l2 with [] => set_back li (lst None l1) | _ => li end) = Z.of_nat (length (l1 ++ l2)) + 1).
  { transitivity (size L); [unfold li; by destruct l1, l2|]. rewrite Hsz, !length_app. cbn [length]. lia. }
  unfold checked_sub. rewrite Hs. destruct (Z.leb_spec 1 (Z.of_nat (length (l1 ++ l2)) + 1)); [|lia]. cbn [unwrap mbind outcome_bind].
  do 3 f_equal. unfold set_size. rewrite !hd_app, !lst_app in *. cbn [hd lst] in *. f_equal.
  - unfold li. destruct l1; destruct l2; cbn in *; congruence.
  - unfold li. destruct l1; destruct l2; cbn in *; congruence.
  - lia.
  - unfold li. by destruct l1, l2.
Qed.

Lemma take_rep h L l1 x l2 :
  rep h L (l1 ++ x :: l2) →
  rep (mkHeap (unlink (links h) l1 x l2) (<[x := 0]> (in_list h)) (max_paddr h) (id_allocator h))
      (mkList (hd (l1 ++ l2) None) (lst None (l1 ++ l2)) (Z.of_nat (length (l1 ++ l2))) (list_id L)) (l1 ++ l2).
Proof.
  intros [Hl Hn Hfr Hbk Hsz Hid Hin Hptr]. destruct (NoDup_mid _ _ _ Hn) as (N1 & N2 & X1 & X2 & N12 & N).
  destruct (unlink_exact _ _ _ _ Hn Hl) as (U1 & _). split; cbn; try done.
  - intros _. apply Hid. by destruct l1.
  - intros y Hy. unfold get_in_list. cbn. rewrite lookup_insert_ne by set_solver. apply Hin. set_solver.
  - intros y Hy. apply Hptr. set_solver.
Qed.

(** *** Inserting a frame *)

(** The id of the list after it is needed *)
Definition id_of (h : Heap) (L : LinkedList) : Z := if list_id L =? 0 then id_allocator h else list_id L.
Definition next_id (h : Heap) (L : LinkedList) : Z := if list_id L =? 0 then id_allocator h + 1 else id_allocator h.

(** There are ids left. *)
Definition ids_left (h : Heap) : Prop := 1 ≤ id_allocator h < MAX_LIST_ID.

Lemma lazy_get_id_eq h L : ids_left h →
  lazy_get_id h L = Done (id_of h L, mkHeap (links h) (in_list h) (max_paddr h) (next_id h L), mkList (front L) (back L) (size L) (id_of h L)).
Proof.
  intros Hi. unfold lazy_get_id, id_of, next_id. destruct (Z.eqb_spec (list_id L) 0); [|by destruct h, L].
  destruct (Z.leb_spec MAX_LIST_ID (id_allocator h)); [unfold ids_left in Hi; lia|]. unfold wrapping_add. rewrite Z.mod_small; [done|].
  unfold ids_left, MAX_LIST_ID in Hi. lia.
Qed.

(** The heap with the new links, before the id is taken *)
Lemma insert_links h L l1 p l2 m :
  rep h L (l1 ++ l2) → links h !! p = Some (mkLink None None m) → p ∉ l1 ++ l2 →
  (match hd l2 None with
   | Some cur =>
       unwrap (links h !! cur) ≫= λ current_mut,
       match prev current_mut with
       | Some pv =>
           set_next h pv (Some p) ≫= λ h, set_prev h p (Some pv) ≫= λ h,
           set_next h p (Some cur) ≫= λ h, set_prev h cur (Some p) ≫= λ h, Done (h, L)
       | None =>
           set_next h p (Some cur) ≫= λ h, set_prev h cur (Some p) ≫= λ h, Done (h, set_front L (Some p))
       end
   | None =>
       match back L with
       | Some bk => set_next h bk (Some p) ≫= λ h, set_prev h p (Some bk) ≫= λ h, Done (h, set_back L (Some p))
       | None => Done (h, set_back (set_front L (Some p)) (Some p))
       end
   end) = Done (with_links h (relink (links h) l1 p l2),
     mkList (hd (l1 ++ p :: l2) None) (lst None (l1 ++ p :: l2)) (Z.of_nat (length (l1 ++ l2))) (list_id L)).
Proof.
  intros [Hl Hn Hfr Hbk Hsz _ _ _] Hp Hnin. apply linked_app in Hl as [L1 L2]. unfold relink. rewrite !hd_app, !lst_app in *. cbn [hd lst].
  assert (Hlast : ∀ y, lst None l1 = Some y → y ≠ p ∧ is_Some (links h !! y)).
  { intros y Hy%lst_elem. split; [set_solver|by apply (linked_lookup _ _ _ _ _ L1)]. }
  assert (Hnp : ∀ f, fix_next (links h) l1 f !! p = Some (mkLink None None m)) by (intros f; rewrite fix_next_ne; [done|set_solver]).
  destruct l2 as [|c l2]; cbn [hd lst fix_prev].
  - rewrite (alter_id (with_next None)) by (intros y; rewrite lookup_alter_eq, Hnp; by intros [= <-]). rewrite Hbk. cbn [lst].
    unfold fix_next in *. destruct (lst None l1) as [b|] eqn:E.
    + destruct (Hlast b eq_refl) as [Hne Hb]. rewrite set_next_eq by done. cbn [mbind outcome_bind].
      rewrite set_prev_eq by (cbn; rewrite lookup_alter_ne, Hp by done; eauto). cbn [mbind outcome_bind]. unfold set_back. do 3 f_equal; [|done].
      destruct l1; [done|]. by rewrite Hfr.
    + rewrite alter_id by (intros y; rewrite Hp; by intros [= <-]). apply lst_none in E as ->. unfold set_back, set_front. cbn.
      do 3 f_equal; [by destruct h|]. by rewrite Hsz.
  - destruct L2 as [[mc Hc] L2]. rewrite Hc. cbn [unwrap mbind outcome_bind prev].
    assert (Hpc : p ≠ c) by set_solver. cbn [hd lst] in Hfr, Hbk.
    unfold fix_next in *. destruct (lst None l1) as [b|] eqn:E.
    + destruct (Hlast b eq_refl) as [Hne Hb]. rewrite set_next_eq by done. cbn [mbind outcome_bind].
      rewrite set_prev_eq by (cbn; rewrite lookup_alter_ne, Hp by done; eauto). cbn [mbind outcome_bind].
      rewrite set_next_eq by (cbn; rewrite lookup_alter_eq, lookup_alter_ne, Hp by done; cbn; eauto). cbn [mbind outcome_bind].
      rewrite set_prev_eq; [|cbn; rewrite !lookup_alter_ne by done; destruct (decide (b = c)) as [->|];
        [rewrite lookup_alter_eq|rewrite lookup_alter_ne by done]; rewrite Hc; cbn; eauto].
      cbn [mbind outcome_bind]. do 2 f_equal. destruct L; cbn in *. destruct l1; [done|]. subst. done.
    + rewrite (alter_id (with_prev None)) by (intros y; rewrite Hp; by intros [= <-]). apply lst_none in E as ->.
      rewrite set_next_eq by (rewrite Hp; eauto). cbn [mbind outcome_bind].
      rewrite set_prev_eq by (cbn; rewrite lookup_alter_ne, Hc by done; eauto). cbn [mbind outcome_bind]. do 2 f_equal.
      unfold set_front. cbn. by rewrite Hbk, Hsz.
Qed.

Lemma insert_exact h L l1 p l2 m :
  rep h L (l1 ++ l2) → links h !! p = Some (mkLink None None m) → p ∉ l1 ++ l2 → ids_left h →
  Z.of_nat (length (l1 ++ l2)) + 1 < 2 ^ 64 →
  insert_before h (mkCursor L (hd l2 None)) p =
  Done (mkHeap (relink (links h) l1 p l2) (<[p := id_of h L]> (in_list h)) (max_paddr h) (next_id h L),
        mkCursor (mkList (hd (l1 ++ p :: l2) None) (lst None (l1 ++ p :: l2)) (Z.of_nat (length (l1 ++ p :: l2))) (id_of h L)) (hd l2 None)).
Proof.
  intros Hr Hp Hnin Hi Hlen. unfold insert_before. cbn [current clist]. rewrite (insert_links h L l1 p l2 m Hr Hp Hnin).
  cbn [mbind outcome_bind]. rewrite lazy_get_id_eq by done. cbn [mbind outcome_bind size]. unfold checked_add.
  destruct (Z.ltb_spec (Z.of_nat (length (l1 ++ l2)) + 1) (2 ^ 64)); [|lia]. cbn [unwrap mbind outcome_bind].
  unfold set_size, set_in_list. cbn. do 4 f_equal. rewrite !length_app. cbn [length]. lia.
Qed.

Lemma insert_rep h L l1 p l2 m :
  rep h L (l1 ++ l2) → links h !! p = Some (mkLink None None m) → p ∉ l1 ++ l2 → is_ptr h p → ids_left h →
  rep (mkHeap (relink (links h) l1 p l2) (<[p := id_of h L]> (in_list h)) (max_paddr h) (next_id h L))
      (mkList (hd (l1 ++ p :: l2) None) (lst None (l1 ++ p :: l2)) (Z.of_nat (length (l1 ++ p :: l2))) (id_of h L)) (l1 ++ p :: l2).
Proof.
  intros [Hl Hn Hfr Hbk Hsz Hid Hin Hptr] Hp Hnin Hpp Hi.
  assert (Hn' : NoDup (l1 ++ p :: l2)) by (rewrite <- Permutation_middle; by apply NoDup_cons).
  destruct (relink_exact (links h) l1 p l2 m Hn' Hl Hp) as (U1 & _). split; cbn; try done.
  - intros _. unfold id_of. destruct (Z.eqb_spec (list_id L) 0); [unfold ids_left in Hi; lia|done].
  - intros y Hy. unfold get_in_list. cbn. destruct (decide (y = p)) as [->|Hne]; [by rewrite lookup_insert_eq|].
    rewrite lookup_insert_ne by done. assert (Hy' : y ∈ l1 ++ l2) by set_solver. unfold id_of.
    rewrite (Hin y Hy' : default 0 _ = _). destruct (Z.eqb_spec (list_id L) 0) as [E|]; [|done].
    destruct Hid; [|done]. intros He. rewrite He in Hy'. set_solver.
  - intros y Hy. destruct (decide (y = p)) as [->|Hne]; [done|]. apply Hptr. set_solver.
Qed.

(** *** Moving *)

(** A position in a list: what is before the cursor, and what is from it on *)
Abbreviation Pos := (list Z * list Z)%type.

Definition znext (z : Pos) : Pos := match z.2 with x :: l2 => (z.1 ++ [x], l2) | [] => ([], z.1) end.
Definition zprev (z : Pos) : Pos :=
  match last z.1 with Some y => (removelast z.1, y :: z.2) | None => (z.2, []) end.

Lemma znext_app z : (znext z).1 ++ (znext z).2 = z.1 ++ z.2.
Proof. destruct z as [l1 [|x l2]]; cbn; [by rewrite app_nil_r|by rewrite <- app_assoc]. Qed.

Lemma zprev_snoc l1 y l2 : zprev (l1 ++ [y], l2) = (l1, y :: l2).
Proof. unfold zprev. cbn [fst snd]. by rewrite last_snoc, removelast_last. Qed.

Lemma zprev_app z : (zprev z).1 ++ (zprev z).2 = z.1 ++ z.2.
Proof.
  destruct z as [l1 l2]. destruct l1 as [|y l1 _] using rev_ind; [cbn; by rewrite app_nil_r|].
  rewrite zprev_snoc. cbn. by rewrite <- app_assoc.
Qed.

Lemma move_next_exact h L z : rep h L (z.1 ++ z.2) →
  move_next h (mkCursor L (hd z.2 None)) = Done (mkCursor L (hd (znext z).2 None)).
Proof.
  intros [Hl _ Hfr _ _ _ _ _]. destruct z as [l1 [|x l2]]; cbn in *; unfold move_next; cbn.
  - by rewrite Hfr, app_nil_r.
  - destruct (links_mid _ _ _ _ Hl) as (_ & [m Hm] & _). by rewrite Hm.
Qed.

Lemma move_prev_exact h L z : rep h L (z.1 ++ z.2) →
  move_prev h (mkCursor L (hd z.2 None)) = Done (mkCursor L (hd (zprev z).2 None)).
Proof.
  intros [Hl _ _ Hbk _ _ _ _]. destruct z as [l1 [|x l2]]; unfold move_prev; cbn [current clist hd snd fst] in *.
  - rewrite Hbk, app_nil_r. destruct l1 as [|y l1 _] using rev_ind; [done|]. by rewrite zprev_snoc, lst_snoc.
  - destruct (links_mid _ _ _ _ Hl) as (_ & [m Hm] & _). rewrite Hm. cbn.
    destruct l1 as [|y l1 _] using rev_ind; [done|]. by rewrite zprev_snoc, lst_snoc.
Qed.

Lemma current_meta_exact h L z : rep h L (z.1 ++ z.2) →
  current_meta h (mkCursor L (hd z.2 None)) = Done (match z.2 with x :: _ => metas (links h) !! x | [] => None end).
Proof.
  intros [Hl _ _ _ _ _ _ _]. destruct z as [l1 [|x l2]]; [done|]. unfold current_meta. cbn [current hd snd fst] in *.
  destruct (links_mid _ _ _ _ Hl) as (_ & [m Hm] & _). rewrite Hm. cbn. unfold metas. by rewrite lookup_fmap, Hm.
Qed.

(** ** Many lists *)

Inductive CursorOp : Type := MoveNext | MovePrev | CurrentMeta | TakeCurrent | InsertBefore (frame : Z).
Inductive Start : Type := AtFront | AtBack | AtFrame (paddr : Z).
Inductive Res : Type := RUnit | RFrame (o : option Z) | RMeta (o : option M) | RBool (b : bool) | RNoCursor | RFrames (l : list Z).

Definition cursor_step (h : Heap) (c : CursorMut) (op : CursorOp) : outcome (Res * Heap * CursorMut) :=
  match op with
  | MoveNext => move_next h c ≫= λ c, Done (RUnit, h, c)
  | MovePrev => move_prev h c ≫= λ c, Done (RUnit, h, c)
  | CurrentMeta => current_meta h c ≫= λ o, Done (RMeta o, h, c)
  | TakeCurrent => take_current h c ≫= λ '(o, h, c), Done (RFrame o, h, c)
  | InsertBefore p => insert_before h c p ≫= λ '(h, c), Done (RUnit, h, c)
  end.

Fixpoint cursor_run (h : Heap) (c : CursorMut) (l : list CursorOp) : outcome (list Res * Heap * CursorMut) :=
  match l with
  | [] => Done ([], h, c)
  | op :: l =>
      cursor_step h c op ≫= λ '(r, h, c),
      cursor_run h c l ≫= λ '(rs, h, c), Done (r :: rs, h, c)
  end.

(** The lists of the program, by name *)
Abbreviation Lists := (gmap nat LinkedList).

Inductive Cmd : Type :=
| CFrame (frame : Z) (m : M)
| CNew (k : nat)
| CPushFront (k : nat) (frame : Z) | CPopFront (k : nat) | CPushBack (k : nat) (frame : Z) | CPopBack (k : nat)
| CContains (k : nat) (paddr : Z)
| CCursor (k : nat) (s : Start) (ops : list CursorOp)
| CDrop (k : nat).

Definition exec (h : Heap) (ls : Lists) (c : Cmd) : outcome (list Res * Heap * Lists) :=
  match c with
  | CFrame p m => Done ([], set_link h p (mkLink None None m), ls)
  | CNew k => assert_that (bool_decide (ls !! k = None)) ≫= λ _, Done ([], h, <[k := new]> ls)
  | CPushFront k p => unwrap (ls !! k) ≫= λ l, push_front h l p ≫= λ '(h, l), Done ([], h, <[k := l]> ls)
  | CPopFront k => unwrap (ls !! k) ≫= λ l, pop_front h l ≫= λ '(o, h, l), Done ([RFrame o], h, <[k := l]> ls)
  | CPushBack k p => unwrap (ls !! k) ≫= λ l, push_back h l p ≫= λ '(h, l), Done ([], h, <[k := l]> ls)
  | CPopBack k => unwrap (ls !! k) ≫= λ l, pop_back h l ≫= λ '(o, h, l), Done ([RFrame o], h, <[k := l]> ls)
  | CContains k a => unwrap (ls !! k) ≫= λ l, contains h l a ≫= λ '(b, h, l), Done ([RBool b], h, <[k := l]> ls)
  | CCursor k s ops =>
      unwrap (ls !! k) ≫= λ l,
      (match s with
       | AtFront => Done (Some (cursor_front_mut l), h, l)
       | AtBack => Done (Some (cursor_back_mut l), h, l)
       | AtFrame a => cursor_mut_at h l a
       end) ≫= λ '(o, h, l),
      match o with
      | Some c => cursor_run h c ops ≫= λ '(rs, h, c), Done (rs, h, <[k := clist c]> ls)
      | None => Done ([RNoCursor], h, <[k := l]> ls)
      end
  | CDrop k => unwrap (ls !! k) ≫= λ l, list_drop h l ≫= λ '(ps, h), Done ([RFrames ps], h, delete k ls)
  end.

Fixpoint run (h : Heap) (ls : Lists) (cs : list Cmd) : outcome (list Res * Heap * Lists) :=
  match cs with
  | [] => Done ([], h, ls)
  | c :: cs => exec h ls c ≫= λ '(r, h, ls), run h ls cs ≫= λ '(rs, h, ls), Done (r ++ rs, h, ls)
  end.

(** *** The specification *)

(** The lists as lists, the frames the program holds as [UniqueFrame]s, the metadata, and
    [MAX_PADDR] *)
Record Abs : Type := mkAbs { alists : gmap nat (list Z); free : gset Z; ameta : gmap Z M; amax : Z }.

Definition set_alist (a : Abs) (k : nat) (xs : list Z) (fr : gset Z) : Abs := mkAbs (<[k := xs]> (alists a)) fr (ameta a) (amax a).

Fixpoint split_at (x : Z) (l1 l2 : list Z) : option Pos :=
  match l2 with
  | [] => None
  | y :: l2' => if y =? x then Some (l1, l2) else split_at x (l1 ++ [y]) l2'
  end.

(** A cursor operation on a position; the frame inserted must be one that the program holds *)
Definition acursor_step (am : gmap Z M) (fr : gset Z) (z : Pos) (op : CursorOp) : option (Res * gset Z * Pos) :=
  match op with
  | MoveNext => Some (RUnit, fr, znext z)
  | MovePrev => Some (RUnit, fr, zprev z)
  | CurrentMeta => Some (RMeta (match z.2 with x :: _ => am !! x | [] => None end), fr, z)
  | TakeCurrent => Some (match z.2 with x :: l2 => (RFrame (Some x), {[x]} ∪ fr, (z.1, l2)) | [] => (RFrame None, fr, z) end)
  | InsertBefore p => if bool_decide (p ∈ fr) then Some (RUnit, fr ∖ {[p]}, (z.1 ++ [p], z.2)) else None
  end.

Fixpoint acursor_run (am : gmap Z M) (fr : gset Z) (z : Pos) (l : list CursorOp) : option (list Res * gset Z * Pos) :=
  match l with
  | [] => Some ([], fr, z)
  | op :: l =>
      acursor_step am fr z op ≫= λ '(r, fr, z),
      acursor_run am fr z l ≫= λ '(rs, fr, z), Some (r :: rs, fr, z)
  end.

Definition atake (a : Abs) (k : nat) (z : Pos) : option (list Res * Abs) :=
  acursor_step (ameta a) (free a) z TakeCurrent ≫= λ '(r, fr, z), Some ([r], set_alist a k (z.1 ++ z.2) fr).
Definition ainsert (a : Abs) (k : nat) (z : Pos) (p : Z) : option (list Res * Abs) :=
  acursor_step (ameta a) (free a) z (InsertBefore p) ≫= λ '(_, fr, z), Some ([], set_alist a k (z.1 ++ z.2) fr).

Definition held (a : Abs) (p : Z) : bool :=
  bool_decide (p ∈ free a) || existsb (λ x : nat * list Z, bool_decide (p ∈ x.2)) (map_to_list (alists a)).

Definition is_frame (mx p : Z) : bool :=
  (0 <=? meta_to_frame p) && (meta_to_frame p <? mx) && (frame_to_meta (meta_to_frame p) =? p).

Definition aexec (a : Abs) (c : Cmd) : option (list Res * Abs) :=
  match c with
  | CFrame p m =>
      if is_frame (amax a) p && negb (held a p) then Some ([], mkAbs (alists a) ({[p]} ∪ free a) (<[p := m]> (ameta a)) (amax a)) else None
  | CNew k => match alists a !! k with None => Some ([], set_alist a k [] (free a)) | Some _ => None end
  | CPushFront k p => alists a !! k ≫= λ xs, ainsert a k ([], xs) p
  | CPopFront k => alists a !! k ≫= λ xs, atake a k ([], xs)
  | CPushBack k p => alists a !! k ≫= λ xs, ainsert a k (xs, []) p
  | CPopBack k => alists a !! k ≫= λ xs, atake a k (zprev (xs, []))
  | CContains k b => alists a !! k ≫= λ xs, Some ([RBool ((b mod PAGE_SIZE =? 0) && bool_decide (frame_to_meta b ∈ xs))], a)
  | CCursor k s ops =>
      alists a !! k ≫= λ xs,
      match (match s with
             | AtFront => Some ([], xs)
             | AtBack => Some (zprev (xs, []))
             | AtFrame b => if b mod PAGE_SIZE =? 0 then split_at (frame_to_meta b) [] xs else None
             end) with
      | Some z => acursor_run (ameta a) (free a) z ops ≫= λ '(rs, fr, z), Some (rs, set_alist a k (z.1 ++ z.2) fr)
      | None => Some ([RNoCursor], a)
      end
  | CDrop k => alists a !! k ≫= λ xs, Some ([RFrames xs], mkAbs (delete k (alists a)) (free a) (ameta a) (amax a))
  end.

Fixpoint arun (a : Abs) (cs : list Cmd) : option (list Res * Abs) :=
  match cs with
  | [] => Some ([], a)
  | c :: cs => aexec a c ≫= λ '(r, a), arun a cs ≫= λ '(rs, a), Some (r ++ rs, a)
  end.

(** *** The heap and the lists implement an abstract state *)

Record ginv (h : Heap) (ls : Lists) (a : Abs) : Prop := {
  g_lists : ∀ k L, ls !! k = Some L → ∃ xs, alists a !! k = Some xs ∧ rep h L xs;
  g_dom : ∀ k xs, alists a !! k = Some xs → is_Some (ls !! k);
  g_apart : ∀ k j xs ys p, k ≠ j → alists a !! k = Some xs → alists a !! j = Some ys → p ∈ xs → p ∉ ys;
  g_ids : ∀ k L, ls !! k = Some L → 0 ≤ list_id L < id_allocator h;
  g_unique : ∀ k j L L', k ≠ j → ls !! k = Some L → ls !! j = Some L' → list_id L ≠ 0 → list_id L ≠ list_id L';
  g_free : ∀ p, p ∈ free a → is_ptr h p ∧ (∃ m, links h !! p = Some (mkLink None None m)) ∧
    ∀ k xs, alists a !! k = Some xs → p ∉ xs;
  g_in : ∀ p, get_in_list h p ≠ 0 → ∃ k xs, alists a !! k = Some xs ∧ p ∈ xs;
  g_meta : metas (links h) = ameta a;
  g_max : max_paddr h = amax a ∧ amax a ≤ 2 ^ 46;
  g_id : 1 ≤ id_allocator h;
}.

Lemma rep_frame h h' L xs :
  (∀ p, p ∈ xs → links h' !! p = links h !! p ∧ get_in_list h' p = get_in_list h p) → max_paddr h' = max_paddr h →
  rep h L xs → rep h' L xs.
Proof.
  intros Hf Hm [H1 H2 H3 H4 H5 H6 H7 H8]. split; try done.
  - eapply links_frame; [|exact H1]. intros p Hp. by apply Hf.
  - intros p Hp. rewrite (proj2 (Hf p Hp)). by apply H7.
  - intros p Hp. unfold is_ptr. rewrite Hm. by apply H8.
Qed.

(** What an operation on the list [k] does to the rest *)
Record local_change (h h' : Heap) (L L' : LinkedList) (xs xs' : list Z) (fr fr' : gset Z) : Prop := {
  lc_rep : rep h' L' xs';
  lc_same : ∀ p, p ∉ xs → p ∉ xs' → links h' !! p = links h !! p ∧ get_in_list h' p = get_in_list h p;
  lc_new : ∀ p, p ∈ xs' → p ∈ xs ∨ p ∈ fr;
  lc_out : ∀ p, p ∈ xs → p ∉ xs' → (∃ m, links h' !! p = Some (mkLink None None m)) ∧ get_in_list h' p = 0;
  lc_free : ∀ p, p ∈ fr' → (p ∈ fr ∨ p ∈ xs) ∧ p ∉ xs';
  lc_meta : metas (links h') = metas (links h);
  lc_max : max_paddr h' = max_paddr h;
  lc_id : id_allocator h ≤ id_allocator h' ≤ id_allocator h + 1;
  lc_lid : list_id L' = list_id L ∨ id_allocator h ≤ list_id L' < id_allocator h';
}.

Lemma ginv_local h ls a k L xs h' L' xs' fr' :
  ginv h ls a → ls !! k = Some L → alists a !! k = Some xs → local_change h h' L L' xs xs' (free a) fr' →
  ginv h' (<[k := L']> ls) (set_alist a k xs' fr').
Proof.
  intros [G1 G2 G3 G4 G5 G6 G7 G8 G9 G10] Hk Hxs [C1 C2 C3 C4 C5 C6 C7 C8 C9].
  assert (Hother : ∀ j ys p, j ≠ k → alists a !! j = Some ys → p ∈ ys → (p ∉ xs) ∧ (p ∉ xs')).
  { intros j ys p Hj Hys Hp. split; [by eapply (G3 j k)|]. intros [Hp'|Hp']%C3; [by eapply (G3 k j xs ys p)|].
    apply G6 in Hp' as (_ & _ & Hp'). by apply (Hp' j ys). }
  split; cbn [set_alist alists free ameta amax].
  - intros j K. destruct (decide (j = k)) as [->|Hj].
    + rewrite !lookup_insert_eq. intros [= <-]. eauto.
    + rewrite !lookup_insert_ne by done. intros HK. destruct (G1 j K HK) as (ys & Hys & Hr). exists ys. split; [done|].
      eapply rep_frame; [|done|exact Hr]. intros p Hp. destruct (Hother j ys p Hj Hys Hp). by apply C2.
  - intros j ys. destruct (decide (j = k)) as [->|Hj]; [rewrite !lookup_insert_eq; eauto|]. rewrite !(lookup_insert_ne _ k j) by congruence. apply G2.
  - intros i j ys zs p Hij Hys Hzs Hp Hp'. apply lookup_insert_Some in Hys as [[<- <-]|[Hi Hys]], Hzs as [[<- <-]|[Hj Hzs]].
    + done.
    + by destruct (Hother j zs p (not_eq_sym Hj) Hzs Hp').
    + by destruct (Hother i ys p (not_eq_sym Hi) Hys Hp).
    + by eapply (G3 i j).
  - intros j K [[<- <-]|[Hj HK]]%lookup_insert_Some; [|specialize (G4 j K HK); lia]. specialize (G4 k L Hk). lia.
  - intros i j K K' Hij HK HK'. apply lookup_insert_Some in HK as [[<- <-]|[Hi HK]], HK' as [[<- <-]|[Hj HK']].
    + done.
    + destruct C9 as [->|C9]; [by eapply (G5 k j)|]. specialize (G4 j K' HK'). lia.
    + destruct C9 as [->|C9]; [by eapply (G5 i k)|]. specialize (G4 i K HK). lia.
    + by eapply (G5 i j).
  - intros p Hp. destruct (C5 p Hp) as [Hold Hn].
    assert (Hpn : ∀ j ys, <[k := xs']> (alists a) !! j = Some ys → p ∉ ys).
    { intros j ys [[<- <-]|[Hj Hys]]%lookup_insert_Some; [done|]. intros Hpy. destruct Hold as [Hf|Hx].
      - destruct (G6 p Hf) as (_ & _ & Hno). by apply (Hno j ys).
      - by destruct (Hother j ys p (not_eq_sym Hj) Hys Hpy). }
    destruct (decide (p ∈ xs)) as [Hx|Hx].
    + split; [|split; [by apply C4|done]]. destruct (G1 k L Hk) as (xs0 & Hxs0 & Hr). rewrite Hxs in Hxs0. injection Hxs0 as <-.
      unfold is_ptr. rewrite C7. by apply (rep_ptr _ _ _ Hr).
    + destruct Hold as [Hf|]; [|done]. destruct (G6 p Hf) as (Hp1 & Hp2 & _). split; [unfold is_ptr; by rewrite C7|].
      split; [|done]. by rewrite (proj1 (C2 p Hx Hn)).
  - intros p Hp. destruct (decide (p ∈ xs')) as [Hx'|Hx']; [exists k, xs'; by rewrite lookup_insert_eq|].
    destruct (decide (p ∈ xs)) as [Hx|Hx]; [by destruct (C4 p Hx Hx')|]. rewrite (proj2 (C2 p Hx Hx')) in Hp.
    destruct (G7 p Hp) as (j & ys & Hys & Hpy). exists j, ys. split; [|done]. rewrite lookup_insert_ne; [done|]. intros <-. congruence.
  - congruence.
  - by rewrite C7.
  - lia.
Qed.

(** There are fewer frames than a size can count. *)
Lemma rep_length h L xs : rep h L xs → max_paddr h ≤ 2 ^ 46 → Z.of_nat (length xs) ≤ 2 ^ 40.
Proof.
  intros Hr Hm. assert (Hs : xs ⊆+ seqZ FRAME_METADATA_BASE (2 ^ 40)).
  { apply NoDup_submseteq; [apply (rep_nodup _ _ _ Hr)|]. intros p Hp. apply elem_of_seqZ.
    destruct (rep_ptr _ _ _ Hr p Hp) as (a & _ & Ha & ->). destruct (frame_to_meta_range a) as [H1 H2]; [lia|].
    unfold FRAME_METADATA_CAP, FRAME_METADATA_BASE, META_SLOT_SIZE in *. lia. }
  apply submseteq_length in Hs. rewrite length_seqZ in Hs. lia.
Qed.

Lemma take_local h L l1 x l2 fr :
  rep h L (l1 ++ x :: l2) → (∀ p, p ∈ fr → p ∉ l1 ++ x :: l2) →
  local_change h (mkHeap (unlink (links h) l1 x l2) (<[x := 0]> (in_list h)) (max_paddr h) (id_allocator h)) L
    (mkList (hd (l1 ++ l2) None) (lst None (l1 ++ l2)) (Z.of_nat (length (l1 ++ l2))) (list_id L))
    (l1 ++ x :: l2) (l1 ++ l2) fr ({[x]} ∪ fr).
Proof.
  intros Hr Hfr. pose proof (rep_nodup _ _ _ Hr) as Hn. destruct (NoDup_mid _ _ _ Hn) as (_ & _ & X1 & X2 & _ & _).
  destruct (unlink_exact _ _ _ _ Hn (rep_links _ _ _ Hr)) as (_ & U2 & U3 & U4).
  split; cbn [links in_list max_paddr id_allocator list_id]; try done; try lia; try (by left).
  - by apply take_rep.
  - intros p Hp _. split; [by apply U3|]. unfold get_in_list. cbn. rewrite lookup_insert_ne; [done|]. set_solver.
  - set_solver.
  - intros p Hp Hp'. assert (p = x) as -> by set_solver. split; [done|]. unfold get_in_list. cbn. by rewrite lookup_insert_eq.
  - intros p [->%elem_of_singleton|Hp]%elem_of_union; [set_solver|]. split; [by left|]. specialize (Hfr p Hp). set_solver.
Qed.

Lemma insert_local h L l1 p l2 fr m :
  rep h L (l1 ++ l2) → (∀ q, q ∈ fr → q ∉ l1 ++ l2) → p ∈ fr → is_ptr h p → links h !! p = Some (mkLink None None m) → ids_left h →
  local_change h (mkHeap (relink (links h) l1 p l2) (<[p := id_of h L]> (in_list h)) (max_paddr h) (next_id h L)) L
    (mkList (hd (l1 ++ p :: l2) None) (lst None (l1 ++ p :: l2)) (Z.of_nat (length (l1 ++ p :: l2))) (id_of h L))
    (l1 ++ l2) (l1 ++ p :: l2) fr (fr ∖ {[p]}).
Proof.
  intros Hr Hfr Hp Hpp Hm Hi. pose proof (Hfr p Hp) as Hnin.
  assert (Hn : NoDup (l1 ++ p :: l2)) by (rewrite <- Permutation_middle; apply NoDup_cons; split; [done|apply (rep_nodup _ _ _ Hr)]).
  destruct (relink_exact (links h) l1 p l2 m Hn (rep_links _ _ _ Hr) Hm) as (_ & U2 & U3).
  split; cbn [links in_list max_paddr id_allocator list_id]; try done.
  - by eapply insert_rep.
  - intros q _ Hq. split; [by apply U2|]. unfold get_in_list. cbn. rewrite lookup_insert_ne; [done|]. set_solver.
  - set_solver.
  - set_solver.
  - intros q [Hq Hqp]%elem_of_difference. specialize (Hfr q Hq). set_solver.
  - unfold next_id. destruct (list_id L =? 0); lia.
  - unfold id_of, next_id. destruct (list_id L =? 0); [right; lia|by left].
Qed.

Lemma same_local h L xs fr : rep h L xs → (∀ p, p ∈ fr → p ∉ xs) → local_change h h L L xs xs fr fr.
Proof. intros Hr Hf. split; try done; try lia; try (by left); naive_solver. Qed.

(** The state of a program whose cursor is at [z] in the list [k] *)
Definition at_cursor (h : Heap) (ls : Lists) (a : Abs) (k : nat) (c : CursorMut) (z : Pos) : Prop :=
  ginv h (<[k := clist c]> ls) a ∧ alists a !! k = Some (z.1 ++ z.2) ∧ current c = hd z.2 None.

Lemma at_cursor_rep h ls a k c z : at_cursor h ls a k c z →
  rep h (clist c) (z.1 ++ z.2) ∧ (∀ p, p ∈ free a → p ∉ z.1 ++ z.2) ∧ c = mkCursor (clist c) (hd z.2 None).
Proof.
  intros (G & Hk & Hc). destruct (g_lists _ _ _ G k (clist c)) as (xs & Hxs & Hr); [by rewrite lookup_insert_eq|].
  rewrite Hk in Hxs. injection Hxs as <-. split; [done|]. split; [|destruct c; cbn in *; by subst].
  intros p Hp. destruct (g_free _ _ _ G p Hp) as (_ & _ & Hno). by apply (Hno k).
Qed.

Lemma at_cursor_move h ls a k c z h' L' z' fr' :
  at_cursor h ls a k c z → local_change h h' (clist c) L' (z.1 ++ z.2) (z'.1 ++ z'.2) (free a) fr' →
  at_cursor h' ls (set_alist a k (z'.1 ++ z'.2) fr') k (mkCursor L' (hd z'.2 None)) z'.
Proof.
  intros (G & Hk & Hc) Hl. split; [|split; [cbn; by rewrite lookup_insert_eq|done]]. cbn [clist].
  rewrite <- (insert_insert_eq ls k L' (clist c)). eapply ginv_local; [exact G|by rewrite lookup_insert_eq|exact Hk|exact Hl].
Qed.

Lemma cursor_step_refines h ls a k c z op r fr' z' :
  at_cursor h ls a k c z → ids_left h → acursor_step (ameta a) (free a) z op = Some (r, fr', z') →
  ∃ h' c', cursor_step h c op = Done (r, h', c') ∧ at_cursor h' ls (set_alist a k (z'.1 ++ z'.2) fr') k c' z' ∧
    id_allocator h' ≤ id_allocator h + 1.
Proof.
  intros Hat Hi Hs. destruct (at_cursor_rep _ _ _ _ _ _ Hat) as (Hr & Hf & Ec). pose proof Hat as (G & Hk & _). rewrite Ec.
  assert (Hstay : ∀ y, y.1 ++ y.2 = z.1 ++ z.2 → at_cursor h ls (set_alist a k (y.1 ++ y.2) (free a)) k (mkCursor (clist c) (hd y.2 None)) y).
  { intros y Hy. eapply at_cursor_move; [exact Hat|]. rewrite Hy. by apply same_local. }
  destruct op as [| | | |p]; cbn [acursor_step cursor_step] in *.
  - injection Hs as <- <- <-. rewrite move_next_exact by done. eexists h, _. split; [done|]. split; [apply Hstay, znext_app|lia].
  - injection Hs as <- <- <-. rewrite move_prev_exact by done. eexists h, _. split; [done|]. split; [apply Hstay, zprev_app|lia].
  - injection Hs as <- <- <-. rewrite current_meta_exact by done. rewrite (g_meta _ _ _ G). eexists h, _. split; [done|]. split; [by apply Hstay|lia].
  - destruct z as [l1 [|x l2]]; cbn [fst snd hd] in *; injection Hs as <- <- <-.
    + eexists h, _. split; [done|]. split; [by apply (Hstay (l1, []))|lia].
    + rewrite (take_exact h (clist c) l1 x l2 Hr). cbn [mbind outcome_bind]. eexists _, _. split; [done|]. split; [|cbn; lia].
      apply (at_cursor_move h ls a k c (l1, x :: l2) _ _ (l1, l2) _ Hat). by apply take_local.
  - case_bool_decide as Hp; [|done]. injection Hs as <- <- <-. destruct (g_free _ _ _ G p Hp) as (Hpp & [m Hm] & _).
    assert (Hlen : Z.of_nat (length (z.1 ++ z.2)) + 1 < 2 ^ 64) by (pose proof (rep_length _ _ _ Hr ltac:(destruct (g_max _ _ _ G); lia)); lia).
    rewrite (insert_exact h (clist c) z.1 p z.2 m Hr Hm (Hf p Hp) Hi Hlen). cbn [mbind outcome_bind]. eexists _, _. split; [done|].
    split; [|cbn; unfold next_id; destruct (_ =? _); lia].
    apply (at_cursor_move h ls a k c z _ _ (z.1 ++ [p], z.2) _ Hat). cbn [fst snd]. rewrite <- app_assoc. cbn [app]. by eapply insert_local.
Qed.

Lemma set_alist_twice a k xs fr ys fr' : set_alist (set_alist a k xs fr) k ys fr' = set_alist a k ys fr'.
Proof. unfold set_alist. cbn. by rewrite insert_insert_eq. Qed.
Lemma set_alist_id a k xs : alists a !! k = Some xs → set_alist a k xs (free a) = a.
Proof. intros H. unfold set_alist. rewrite insert_id by done. by destruct a. Qed.

Lemma cursor_run_refines ls k l : ∀ h a c z rs fr' z',
  at_cursor h ls a k c z → id_allocator h + Z.of_nat (length l) < MAX_LIST_ID →
  acursor_run (ameta a) (free a) z l = Some (rs, fr', z') →
  ∃ h' c', cursor_run h c l = Done (rs, h', c') ∧ at_cursor h' ls (set_alist a k (z'.1 ++ z'.2) fr') k c' z' ∧
    id_allocator h' ≤ id_allocator h + Z.of_nat (length l).
Proof.
  induction l as [|op l IH]; intros h a c z rs fr' z' Hat Hid Hs; cbn [acursor_run cursor_run] in *.
  - injection Hs as <- <- <-. exists h, c. split; [done|]. split; [|lia]. rewrite set_alist_id; [done|apply Hat].
  - assert (Hi : ids_left h) by (destruct Hat as (G & _); pose proof (g_id _ _ _ G); split; cbn [length] in Hid; lia).
    apply bind_Some in Hs as ([[r fr1] z1] & Hs1 & Hs2). apply bind_Some in Hs2 as ([[rs1 fr2] z2] & Hs2 & [= <- <- <-]).
    destruct (cursor_step_refines _ _ _ _ _ _ _ _ _ _ Hat Hi Hs1) as (h1 & c1 & -> & Hat1 & Hid1). cbn [mbind outcome_bind].
    destruct (IH h1 _ c1 z1 rs1 fr2 z2 Hat1) as (h2 & c2 & -> & Hat2 & Hid2); [cbn [length] in Hid; lia|done|].
    exists h2, c2. split; [done|]. rewrite set_alist_twice in Hat2. split; [done|]. cbn [length]. lia.
Qed.

(** *** Where cursors start *)

Lemma start_at h ls a k L z o :
  ginv h ls a → ls !! k = Some L → alists a !! k = Some (z.1 ++ z.2) → (rep h L (z.1 ++ z.2) → o = hd z.2 None) →
  at_cursor h ls a k (mkCursor L o) z.
Proof.
  intros G HL Hk Ho. destruct (g_lists _ _ _ G k L HL) as (xs & Hxs & Hr). rewrite Hk in Hxs. injection Hxs as <-.
  split; [|split; [done|by apply Ho]]. cbn. by rewrite insert_id.
Qed.

Lemma start_front h ls a k L xs : ginv h ls a → ls !! k = Some L → alists a !! k = Some xs → at_cursor h ls a k (cursor_front_mut L) ([], xs).
Proof. intros G HL Hk. apply start_at; [done..|]. intros Hr. apply (rep_front _ _ _ Hr). Qed.
Lemma start_ghost h ls a k L xs : ginv h ls a → ls !! k = Some L → alists a !! k = Some xs → at_cursor h ls a k (cursor_at_ghost_mut L) (xs, []).
Proof. intros G HL Hk. apply start_at; [done..|by cbn; rewrite app_nil_r|done]. Qed.
Lemma start_back h ls a k L xs : ginv h ls a → ls !! k = Some L → alists a !! k = Some xs → at_cursor h ls a k (cursor_back_mut L) (zprev (xs, [])).
Proof.
  intros G HL Hk. apply start_at; [done..|by rewrite zprev_app; cbn; rewrite app_nil_r|]. intros Hr. rewrite (rep_back _ _ _ Hr), zprev_app. cbn [fst snd].
  rewrite app_nil_r. destruct xs as [|y xs _] using rev_ind; [done|]. by rewrite zprev_snoc, lst_snoc.
Qed.

Lemma split_at_spec x l2 : ∀ l1,
  match split_at x l1 l2 with Some z => z.1 ++ z.2 = l1 ++ l2 ∧ hd z.2 None = Some x ∧ x ∈ l2 | None => x ∉ l2 end.
Proof.
  induction l2 as [|y l2 IH]; intros l1; cbn [split_at]; [set_solver|]. destruct (Z.eqb_spec y x) as [->|Hne].
  - split; [done|]. split; [done|set_solver].
  - specialize (IH (l1 ++ [y])). destruct (split_at x (l1 ++ [y]) l2) as [z|]; [|set_solver].
    rewrite <- app_assoc in IH. destruct IH as (H1 & H2 & H3). split; [done|]. split; [done|set_solver].
Qed.

(** *** The test whether a frame is in a list *)

Definition with_id (h : Heap) (L : LinkedList) : Heap := mkHeap (links h) (in_list h) (max_paddr h) (next_id h L).
Definition list_with_id (h : Heap) (L : LinkedList) : LinkedList := mkList (front L) (back L) (size L) (id_of h L).

Lemma id_ginv h ls a k L : ginv h ls a → ls !! k = Some L → ginv (with_id h L) (<[k := list_with_id h L]> ls) a.
Proof.
  intros G HL. destruct (g_lists _ _ _ G k L HL) as (xs & Hxs & Hr). rewrite <- (set_alist_id a k xs Hxs).
  eapply ginv_local; [exact G|done|done|]. split; cbn; try done.
  - destruct Hr as [H1 H2 H3 H4 H5 H6 H7 H8]. split; cbn; try done.
    + intros Hne. unfold id_of. specialize (H6 Hne). by destruct (Z.eqb_spec (list_id L) 0).
    + intros p Hp. unfold id_of. specialize (H7 p Hp). destruct (Z.eqb_spec (list_id L) 0); [|done]. destruct H6; [|done]. intros ->. set_solver.
  - naive_solver.
  - intros p Hp. split; [by left|]. destruct (g_free _ _ _ G p Hp) as (_ & _ & Hno). by apply (Hno k).
  - unfold next_id. destruct (_ =? _); lia.
  - unfold id_of, next_id. destruct (_ =? _); [right; lia|by left].
Qed.

Lemma in_list_exact h ls a k L xs p :
  ginv h ls a → ls !! k = Some L → alists a !! k = Some xs → (get_in_list h p =? id_of h L) = bool_decide (p ∈ xs).
Proof.
  intros G HL Hxs. destruct (g_lists _ _ _ G k L HL) as (xs0 & Hxs0 & Hr). rewrite Hxs in Hxs0. injection Hxs0 as <-.
  pose proof (g_ids _ _ _ G k L HL) as HidL. pose proof (g_id _ _ _ G) as Hid. unfold id_of. case_bool_decide as Hp.
  - rewrite (rep_in _ _ _ Hr p Hp). assert (list_id L ≠ 0) by (apply (rep_id _ _ _ Hr); intros ->; set_solver).
    destruct (Z.eqb_spec (list_id L) 0); [done|]. apply Z.eqb_refl.
  - apply Z.eqb_neq. destruct (decide (get_in_list h p = 0)) as [->|Hne]; [destruct (Z.eqb_spec (list_id L) 0); lia|].
    destruct (g_in _ _ _ G p Hne) as (j & ys & Hys & Hpy). assert (j ≠ k) by (intros ->; congruence).
    destruct (g_dom _ _ _ G j ys Hys) as [K HK]. destruct (g_lists _ _ _ G j K HK) as (ys0 & Hys0 & HrK). rewrite Hys in Hys0. injection Hys0 as <-.
    rewrite (rep_in _ _ _ HrK p Hpy) in Hne |- *. pose proof (g_ids _ _ _ G j K HK). destruct (Z.eqb_spec (list_id L) 0); [lia|]. by eapply (g_unique _ _ _ G j k).
Qed.

(** A slot that is not in the map of memory is in no list. *)
Lemma get_slot_exact h ls a k xs b :
  ginv h ls a → alists a !! k = Some xs →
  match get_slot h b with
  | Some s => s = frame_to_meta b ∧ (b mod PAGE_SIZE =? 0) = true
  | None => (b mod PAGE_SIZE =? 0) && bool_decide (frame_to_meta b ∈ xs) = false
  end.
Proof.
  intros G Hk. unfold get_slot. destruct (b mod PAGE_SIZE =? 0) eqn:Hb; [|done]. cbn. destruct (Z.leb_spec (max_paddr h) b); [|done].
  case_bool_decide as Hin; [|done]. exfalso. destruct (g_dom _ _ _ G k xs Hk) as [L HL]. destruct (g_lists _ _ _ G k L HL) as (xs0 & Hxs0 & Hr).
  rewrite Hk in Hxs0. injection Hxs0 as <-. destruct (rep_ptr _ _ _ Hr _ Hin) as (c & Hc & Hcb & He).
  apply frame_page_mod in Hb. apply frame_to_meta_inj in He as ->; [lia|done|done].
Qed.

Lemma contains_exact h ls a k L xs b :
  ginv h ls a → ids_left h → ls !! k = Some L → alists a !! k = Some xs →
  ∃ h' L', contains h L b = Done ((b mod PAGE_SIZE =? 0) && bool_decide (frame_to_meta b ∈ xs), h', L') ∧
    ginv h' (<[k := L']> ls) a ∧ id_allocator h' ≤ id_allocator h + 1.
Proof.
  intros G Hi HL Hk. unfold contains. pose proof (get_slot_exact h ls a k xs b G Hk) as Hs. destruct (get_slot h b) as [s|].
  - destruct Hs as [-> ->]. rewrite lazy_get_id_eq by done. cbn [mbind outcome_bind].
    rewrite (in_list_exact h ls a k L xs _ G HL Hk). eexists _, _. split; [done|]. split; [by apply id_ginv|].
    cbn. unfold next_id. destruct (_ =? _); lia.
  - rewrite Hs. exists h, L. split; [done|]. rewrite insert_id by done. split; [done|lia].
Qed.

(** *** Frames and lists that come and go *)

Lemma held_spec a p : held a p = false → (p ∉ free a) ∧ ∀ k xs, alists a !! k = Some xs → p ∉ xs.
Proof.
  unfold held. intros [H1 H2]%orb_false_iff. apply bool_decide_eq_false in H1. split; [done|]. intros k xs Hk Hp.
  assert (existsb (λ x : nat * list Z, bool_decide (p ∈ x.2)) (map_to_list (alists a)) = true); [|congruence].
  apply existsb_exists. exists (k, xs). split; [apply list_elem_of_In; by apply elem_of_map_to_list|by apply bool_decide_eq_true].
Qed.

Lemma frame_ginv h ls a p m :
  ginv h ls a → is_frame (amax a) p = true → held a p = false →
  ginv (set_link h p (mkLink None None m)) ls (mkAbs (alists a) ({[p]} ∪ free a) (<[p := m]> (ameta a)) (amax a)).
Proof.
  intros [G1 G2 G3 G4 G5 G6 G7 G8 G9 G10] Hp Hh. destruct (held_spec a p Hh) as [Hf Hl]. split; cbn; try done.
  - intros k L HL. destruct (G1 k L HL) as (xs & Hxs & Hr). exists xs. split; [done|]. eapply (rep_frame h); [|done|exact Hr].
    intros q Hq. cbn. split; [|done]. rewrite lookup_insert_ne; [done|]. intros <-. by apply (Hl k xs).
  - intros q [->%elem_of_singleton|Hq]%elem_of_union.
    + unfold is_frame in Hp. apply andb_true_iff in Hp as [[H1%Z.leb_le H2%Z.ltb_lt]%andb_true_iff H3%Z.eqb_eq].
      split; [|split; [exists m; by rewrite lookup_insert_eq|done]]. exists (meta_to_frame p). split; [apply Z.divide_factor_r|]. cbn. rewrite (proj1 G9). done.
    + destruct (G6 q Hq) as (Q1 & Q2 & Q3). split; [done|]. split; [|done]. rewrite lookup_insert_ne; [done|]. intros <-. done.
  - unfold metas in *. by rewrite fmap_insert, G8.
Qed.

Lemma new_ginv h ls a k : ginv h ls a → alists a !! k = None → ginv h (<[k := new]> ls) (set_alist a k [] (free a)).
Proof.
  intros [G1 G2 G3 G4 G5 G6 G7 G8 G9 G10] Hk. split; cbn; try done.
  - intros j K [[<- <-]|[Hj HK]]%lookup_insert_Some.
    + exists []. rewrite lookup_insert_eq. split; [done|]. split; cbn; try done; [constructor|set_solver|set_solver].
    + destruct (G1 j K HK) as (xs & Hxs & Hr). exists xs. by rewrite lookup_insert_ne.
  - intros j xs [[<- <-]|[Hj Hxs]]%lookup_insert_Some; [rewrite lookup_insert_eq; eauto|]. rewrite lookup_insert_ne by done. by apply (G2 j xs).
  - intros i j xs ys p Hij Hxs Hys Hp Hp'. apply lookup_insert_Some in Hxs as [[<- <-]|[Hi Hxs]], Hys as [[<- <-]|[Hj Hys]]; try set_solver.
  - intros j K [[<- <-]|[Hj HK]]%lookup_insert_Some; [cbn; lia|by apply (G4 j)].
  - intros i j K K' Hij HK HK'. apply lookup_insert_Some in HK as [[<- <-]|[Hi HK]], HK' as [[<- <-]|[Hj HK']]; try done. by eapply (G5 i j).
  - intros p Hp. destruct (G6 p Hp) as (H1 & H2 & H3). split; [done|]. split; [done|].
    intros j xs [[<- <-]|[Hj Hxs]]%lookup_insert_Some; [set_solver|by apply (H3 j)].
  - intros p Hp. destruct (G7 p Hp) as (j & xs & Hj & Hin). exists j, xs. split; [|done]. rewrite lookup_insert_ne; [done|congruence].
Qed.

Lemma gone_ginv h ls a k fr :
  ginv h ls a → alists a !! k = Some [] → fr ⊆ free a → ginv h (delete k ls) (mkAbs (delete k (alists a)) fr (ameta a) (amax a)).
Proof.
  intros [G1 G2 G3 G4 G5 G6 G7 G8 G9 G10] Hk Hfr. split; cbn; try done.
  - intros j K [Hj HK]%lookup_delete_Some. destruct (G1 j K HK) as (xs & Hxs & Hr). exists xs. by rewrite lookup_delete_ne.
  - intros j xs [Hj Hxs]%lookup_delete_Some. rewrite lookup_delete_ne by done. by apply (G2 j xs).
  - intros i j xs ys p Hij [_ Hxs]%lookup_delete_Some [_ Hys]%lookup_delete_Some. by apply (G3 i j).
  - intros j K [_ HK]%lookup_delete_Some. by apply (G4 j).
  - intros i j K K' Hij [_ HK]%lookup_delete_Some [_ HK']%lookup_delete_Some. by apply (G5 i j).
  - intros p Hp. destruct (G6 p (Hfr p Hp)) as (H1 & H2 & H3). split; [done|]. split; [done|]. intros j xs [_ Hxs]%lookup_delete_Some. by apply (H3 j).
  - intros p Hp. destruct (G7 p Hp) as (j & xs & Hj & Hin). exists j, xs. split; [|done]. rewrite lookup_delete_ne; [done|].
    intros ->. rewrite Hk in Hj. injection Hj as <-. set_solver.
Qed.

Lemma drop_loop_exact ls k xs : ∀ fuel h a c,
  at_cursor h ls a k c ([], xs) → ids_left h → (length xs < fuel)%nat →
  ∃ h' c' fr, drop_loop fuel h c = Done (xs, h') ∧ at_cursor h' ls (set_alist a k [] fr) k c' ([], []) ∧
    free a ⊆ fr ∧ id_allocator h' = id_allocator h.
Proof.
  induction xs as [|x xs IH]; intros [|fuel] h a c Hat Hi Hfuel; cbn [length] in Hfuel; try lia; cbn [drop_loop].
  - destruct (at_cursor_rep _ _ _ _ _ _ Hat) as (_ & _ & ->). cbn. eexists h, _, (free a). split; [done|].
    rewrite set_alist_id by apply Hat. split; [|done]. destruct Hat as (G & Hk & Hc). split; [done|]. split; done.
  - destruct (at_cursor_rep _ _ _ _ _ _ Hat) as (Hr & Hf & Ec). rewrite Ec. cbn [hd snd].
    rewrite (take_exact h (clist c) [] x xs Hr). cbn [mbind outcome_bind].
    pose proof (at_cursor_move h ls a k c ([], x :: xs) _ _ ([], xs) _ Hat (take_local h (clist c) [] x xs (free a) Hr Hf)) as Hat1.
    destruct (IH fuel _ _ _ Hat1 Hi ltac:(lia)) as (h' & c' & fr & HE & Hat2 & Hsub & Hid). cbn [hd snd] in HE. rewrite HE. cbn.
    exists h', c', fr. split; [done|]. rewrite set_alist_twice in Hat2. split; [done|]. split; [cbn in Hsub; set_solver|done].
Qed.

(** *** Commands *)

Definition cost (c : Cmd) : nat := match c with CCursor _ _ ops => S (length ops) | _ => 1 end.

Lemma exec_insert h ls a k L c z p r a' :
  ls !! k = Some L → at_cursor h ls a k c z → ids_left h → ainsert a k z p = Some (r, a') →
  ∃ h' c', insert_before h c p = Done (h', c') ∧ r = [] ∧ ginv h' (<[k := clist c']> ls) a' ∧ id_allocator h' ≤ id_allocator h + 1.
Proof.
  intros HL Hat Hi Ha. unfold ainsert in Ha. apply bind_Some in Ha as ([[r1 fr1] z1] & Hs & [= <- <-]).
  destruct (cursor_step_refines _ _ _ _ _ _ _ _ _ _ Hat Hi Hs) as (h1 & c1 & HE & (G1 & _) & Hid). cbn [cursor_step] in HE.
  apply bind_done in HE as ([h2 c2] & HE & [= _ <- <-]). eauto 10.
Qed.

Lemma exec_take h ls a k L c z r a' :
  ls !! k = Some L → at_cursor h ls a k c z → ids_left h → atake a k z = Some (r, a') →
  ∃ o h' c', take_current h c = Done (o, h', c') ∧ r = [RFrame o] ∧ ginv h' (<[k := clist c']> ls) a' ∧ id_allocator h' ≤ id_allocator h + 1.
Proof.
  intros HL Hat Hi Ha. unfold atake in Ha. apply bind_Some in Ha as ([[r1 fr1] z1] & Hs & [= <- <-]).
  destruct (cursor_step_refines _ _ _ _ _ _ _ _ _ _ Hat Hi Hs) as (h1 & c1 & HE & (G1 & _) & Hid). cbn [cursor_step] in HE.
  apply bind_done in HE as ([[o h2] c2] & HE & [= <- <- <-]). eauto 10.
Qed.

(** A session with a cursor that was found *)
Lemma exec_cursor h ls a k c z ops rs fr z' :
  at_cursor h ls a k c z → id_allocator h + Z.of_nat (length ops) < MAX_LIST_ID →
  acursor_run (ameta a) (free a) z ops = Some (rs, fr, z') →
  ∃ h' ls', (cursor_run h c ops ≫= λ '(rs, h, c), Done (rs, h, <[k := clist c]> ls)) = Done (rs, h', ls') ∧
    ginv h' ls' (set_alist a k (z'.1 ++ z'.2) fr) ∧ id_allocator h' ≤ id_allocator h + Z.of_nat (length ops).
Proof.
  intros Hat Hid Hs. destruct (cursor_run_refines _ _ _ _ _ _ _ _ _ _ Hat Hid Hs) as (h' & c' & -> & (G & _) & Hid'). eauto 10.
Qed.

Lemma exec_at h ls a k L xs b ops r a' :
  ginv h ls a → ls !! k = Some L → alists a !! k = Some xs → id_allocator h + Z.of_nat (S (length ops)) < MAX_LIST_ID →
  aexec a (CCursor k (AtFrame b) ops) = Some (r, a') →
  ∃ h' ls', exec h ls (CCursor k (AtFrame b) ops) = Done (r, h', ls') ∧ ginv h' ls' a' ∧
    id_allocator h' ≤ id_allocator h + Z.of_nat (S (length ops)).
Proof.
  intros G HL Hk Hid Ha. cbn [aexec exec] in *. rewrite HL. rewrite Hk in Ha. cbn [mbind option_bind outcome_bind unwrap] in *.
  assert (Hi : ids_left h) by (pose proof (g_id _ _ _ G); split; lia).
  unfold cursor_mut_at. pose proof (get_slot_exact h ls a k xs b G Hk) as Hs. pose proof (split_at_spec (frame_to_meta b) xs []) as Hsp.
  destruct (get_slot h b) as [s|].
  - destruct Hs as [-> Hb]. rewrite Hb in Ha. rewrite lazy_get_id_eq by done. cbn [mbind outcome_bind].
    rewrite (in_list_exact h ls a k L xs _ G HL Hk). fold (with_id h L) (list_with_id h L).
    assert (Hid1 : id_allocator (with_id h L) ≤ id_allocator h + 1) by (unfold with_id, next_id; cbn [id_allocator]; destruct (list_id L =? 0); lia).
    pose proof (id_ginv h ls a k L G HL) as G1. destruct (split_at (frame_to_meta b) [] xs) as [z|].
    + destruct Hsp as (Hz & Hc & Hin). rewrite bool_decide_eq_true_2 by done.
      apply bind_Some in Ha as ([[rs fr] z'] & Hs & [= <- <-]).
      destruct (exec_cursor (with_id h L) ls a k (mkCursor (list_with_id h L) (Some (frame_to_meta b))) z ops rs fr z') as (h' & ls' & HE & G' & Hid').
      * split; [done|]. cbn in Hz. split; [by rewrite Hz|done].
      * lia.
      * done.
      * exists h', ls'. split; [done|]. split; [done|lia].
    + rewrite bool_decide_eq_false_2 by done. injection Ha as <- <-. eexists _, _. split; [done|]. split; [done|lia].
  - assert (r = [RNoCursor] ∧ a' = a) as [-> ->].
    { destruct (b mod PAGE_SIZE =? 0); [|cbn in Ha; by injection Ha as <- <-]. apply bool_decide_eq_false in Hs.
      destruct (split_at (frame_to_meta b) [] xs) as [z|]; [by destruct Hsp as (_ & _ & ?)|by injection Ha as <- <-]. }
    exists h, (<[k := L]> ls). split; [done|]. rewrite insert_id by done. split; [done|lia].
Qed.

Lemma exec_refines h ls a c r a' :
  ginv h ls a → id_allocator h + Z.of_nat (cost c) < MAX_LIST_ID → aexec a c = Some (r, a') →
  ∃ h' ls', exec h ls c = Done (r, h', ls') ∧ ginv h' ls' a' ∧ id_allocator h' ≤ id_allocator h + Z.of_nat (cost c).
Proof.
  intros G Hid Ha. assert (Hi : ids_left h) by (pose proof (g_id _ _ _ G); destruct c; cbn [cost] in Hid; split; lia).
  assert (Hlist : ∀ k (f : list Z → option (list Res * Abs)), alists a !! k ≫= f = Some (r, a') →
    ∃ xs L, alists a !! k = Some xs ∧ ls !! k = Some L ∧ f xs = Some (r, a')).
  { intros k f (xs & Hxs & Hf)%bind_Some. destruct (g_dom _ _ _ G k xs Hxs) as [L HL]. eauto 10. }
  destruct c as [p m|k|k p|k|k p|k|k b|k [| |b] ops|k]; cbn [aexec exec cost] in *.
  - destruct (is_frame (amax a) p) eqn:Hp; [|done]. destruct (held a p) eqn:Hh; [done|]. injection Ha as <- <-.
    eexists _, _. split; [done|]. split; [by apply frame_ginv|cbn; lia].
  - destruct (alists a !! k) eqn:Hk; [done|]. injection Ha as <- <-. assert (Hls : ls !! k = None).
    { destruct (ls !! k) eqn:E; [|done]. destruct (g_lists _ _ _ G k _ E) as (? & ? & _). congruence. }
    rewrite bool_decide_eq_true_2 by done. eexists _, _. split; [done|]. split; [by apply new_ginv|lia].
  - apply Hlist in Ha as (xs & L & Hxs & HL & Ha). rewrite HL. cbn [unwrap mbind outcome_bind]. unfold push_front.
    destruct (exec_insert _ _ _ _ _ _ _ _ _ _ HL (start_front _ _ _ _ _ _ G HL Hxs) Hi Ha) as (h' & c' & -> & -> & G' & Hid'). cbn. eauto 10 with lia.
  - apply Hlist in Ha as (xs & L & Hxs & HL & Ha). rewrite HL. cbn [unwrap mbind outcome_bind]. unfold pop_front.
    destruct (exec_take _ _ _ _ _ _ _ _ _ HL (start_front _ _ _ _ _ _ G HL Hxs) Hi Ha) as (o & h' & c' & -> & -> & G' & Hid'). cbn. eauto 10 with lia.
  - apply Hlist in Ha as (xs & L & Hxs & HL & Ha). rewrite HL. cbn [unwrap mbind outcome_bind]. unfold push_back.
    destruct (exec_insert _ _ _ _ _ _ _ _ _ _ HL (start_ghost _ _ _ _ _ _ G HL Hxs) Hi Ha) as (h' & c' & -> & -> & G' & Hid'). cbn. eauto 10 with lia.
  - apply Hlist in Ha as (xs & L & Hxs & HL & Ha). rewrite HL. cbn [unwrap mbind outcome_bind]. unfold pop_back.
    destruct (exec_take _ _ _ _ _ _ _ _ _ HL (start_back _ _ _ _ _ _ G HL Hxs) Hi Ha) as (o & h' & c' & -> & -> & G' & Hid'). cbn. eauto 10 with lia.
  - apply Hlist in Ha as (xs & L & Hxs & HL & [= <- <-]). rewrite HL. cbn [unwrap mbind outcome_bind].
    destruct (contains_exact _ _ _ _ _ _ b G Hi HL Hxs) as (h' & L' & -> & G' & Hid'). cbn. eauto 10 with lia.
  - apply Hlist in Ha as (xs & L & Hxs & HL & Ha). rewrite HL. cbn [unwrap mbind outcome_bind].
    apply bind_Some in Ha as ([[rs fr] z'] & Hs & [= <- <-]).
    destruct (exec_cursor h ls a k _ _ ops rs fr z' (start_front _ _ _ _ _ _ G HL Hxs) ltac:(lia) Hs) as (h' & ls' & HE & G' & Hid'). eauto 10 with lia.
  - apply Hlist in Ha as (xs & L & Hxs & HL & Ha). rewrite HL. cbn [unwrap mbind outcome_bind].
    apply bind_Some in Ha as ([[rs fr] z'] & Hs & [= <- <-]).
    destruct (exec_cursor h ls a k _ _ ops rs fr z' (start_back _ _ _ _ _ _ G HL Hxs) ltac:(lia) Hs) as (h' & ls' & HE & G' & Hid'). eauto 10 with lia.
  - pose proof Ha as Ha'. apply Hlist in Ha as (xs & L & Hxs & HL & _). by apply (exec_at h ls a k L xs b ops r a').
  - apply Hlist in Ha as (xs & L & Hxs & HL & [= <- <-]). rewrite HL. cbn [unwrap mbind outcome_bind]. unfold list_drop.
    destruct (g_lists _ _ _ G k L HL) as (xs0 & Hxs0 & Hr). rewrite Hxs in Hxs0. injection Hxs0 as <-.
    destruct (drop_loop_exact ls k xs (S (Z.to_nat (size L))) h a (cursor_front_mut L)) as (h' & c' & fr & -> & (G' & Hk' & _) & Hsub & Hid').
    { by apply start_front. } { done. } { rewrite (rep_size _ _ _ Hr). lia. }
    eexists h', _. split; [done|]. split; [|lia]. pose proof (gone_ginv _ _ _ k (free a) G' Hk' Hsub) as Hg. cbn in Hg.
    by rewrite !delete_insert_eq in Hg.
Qed.

Definition total_cost (cs : list Cmd) : nat := sum_list (cost <$> cs).

Lemma run_refines h ls a cs rs a' :
  ginv h ls a → id_allocator h + Z.of_nat (total_cost cs) < MAX_LIST_ID → arun a cs = Some (rs, a') →
  ∃ h' ls', run h ls cs = Done (rs, h', ls') ∧ ginv h' ls' a'.
Proof.
  revert h ls a rs a'. induction cs as [|c cs IH]; intros h ls a rs a' G Hid Ha; cbn [arun run] in *.
  - injection Ha as <- <-. eauto.
  - apply bind_Some in Ha as ([r a1] & H1 & Ha). apply bind_Some in Ha as ([rs2 a2] & H2 & [= <- <-]).
    assert (Hc : total_cost (c :: cs) = (cost c + total_cost cs)%nat) by done. rewrite Hc in Hid.
    destruct (exec_refines h ls a c r a1 G ltac:(lia) H1) as (h1 & ls1 & -> & G1 & Hid1). cbn [mbind outcome_bind].
    destruct (IH h1 ls1 a1 rs2 a2 G1 ltac:(lia) H2) as (h2 & ls2 & -> & G2). eauto.
Qed.

(** Memory before any list is made, and what it stands for *)
Definition no_lists (mx : Z) : Heap := mkHeap ∅ ∅ mx 1.
Definition no_alists (mx : Z) : Abs := mkAbs ∅ ∅ ∅ mx.

Lemma no_lists_ginv mx : mx ≤ 2 ^ 46 → ginv (no_lists mx) ∅ (no_alists mx).
Proof. intros Hm. split; cbn; try set_solver; try done; try lia. Qed.

(** [C24] Linked lists of frames behave as lists. From a state without lists, for any number of lists, and any sequence of
    creating and dropping lists, pushing and popping at both ends, testing for a frame by
    its address, and walking, reading, taking out and inserting with cursors that start at
    either end or at a frame, in which the frames put into lists are ones that the program
    owns, the links in the metadata give the results that ordinary lists give, without a
    panic, as long as fewer than [MAX_LIST_ID] ids are needed; and afterwards the links
    again represent these lists, with no frame in two of them. *)
Theorem linked_lists_refine mx cs rs a :
  mx ≤ 2 ^ 46 → 1 + Z.of_nat (total_cost cs) < MAX_LIST_ID → arun (no_alists mx) cs = Some (rs, a) →
  ∃ h ls, run (no_lists mx) ∅ cs = Done (rs, h, ls) ∧ ginv h ls a.
Proof. intros Hm Hc Ha. by apply (run_refines _ _ (no_alists mx)); [apply no_lists_ginv| |]. Qed.

End Lists.
Arguments Link : clear implicits.
Arguments Heap : clear implicits.

Section Example.
Local Abbreviation F := frame_to_meta.

(** Two lists; a cursor takes a frame out of the middle of the first, which then goes to the second. *)
Definition example_cmds : list (Cmd (M := Z)) :=
  [CFrame (F 4096) 10; CFrame (F 8192) 11; CFrame (F 12288) 12; CNew 0; CNew 1;
   CPushBack 0 (F 4096); CPushBack 0 (F 8192); CPushFront 0 (F 12288);
   CCursor 0 (AtFrame 4096) [CurrentMeta; TakeCurrent; MovePrev; CurrentMeta];
   CPushBack 1 (F 4096); CContains 0 4096; CContains 1 4096; CPopBack 0; CDrop 0; CPopFront 1].

Lemma linked_lists_refine_witness :
  arun (no_alists (2 ^ 32)) example_cmds =
    Some ([RMeta (Some 10); RFrame (Some (F 4096)); RUnit; RMeta (Some 12); RBool false; RBool true;
           RFrame (Some (F 8192)); RFrames [F 12288]; RFrame (Some (F 4096))],
          mkAbs {[1%nat := []]} {[F 4096; F 8192]} {[F 4096 := 10; F 8192 := 11; F 12288 := 12]} (2 ^ 32)) ∧
  ∃ rs a h ls, run (no_lists (2 ^ 32)) ∅ example_cmds = Done (rs, h, ls) ∧ ginv h ls a.
Proof.
  split; [vm_compute; reflexivity|].
  eexists _, _. apply (linked_lists_refine (2 ^ 32) example_cmds); [lia|vm_compute; reflexivity|vm_compute; reflexivity].
Defined.
End Example.

End LinkedList.
